(* ===== verification/_CoqProject ===== *)
-Q . S2P
Prelude.v
Codec.v
Staking.v
Governance.v
Crc.v
Watermark.v
Log.v
Idfmt.v
Block.v
Keys.v
Trie.v
TrieCorrect.v
TrieSpec.v
Tx.v
Fee.v
Consensus.v
Events.v
LedgerState.v
LedgerKeys.v
LedgerStake.v
LedgerCoins.v
LedgerConserve.v
LedgerHistory.v
Bridge.v
LedgerBridge.v
LedgerBridgeBooks.v
LedgerBridgeSpec.v
LedgerGov.v
LedgerFrames.v
LedgerGovFreeze.v
LedgerGovEnact.v
LedgerGovJournal.v
LedgerGovCoins.v
SigCache.v
Admission.v
BridgeDispatch.v
GovDispatch.v
LedgerGovSpec.v
Mempool.v
MempoolCorrect.v
MempoolSpec.v
Json.v
JsonCorrect.v
JsonRound.v
JsonSpec.v
Channel.v
ChannelCorrect.v
ChannelSpec.v
Handshake.v
HandshakeSpec.v
StoreLog.v
StateStore.v
StateStoreSpec.v
RecordIndex.v
BlockStore.v
BlockStoreSpec.v
EventStore.v
EventStoreSpec.v
Archives.v
ArchivesSpec.v
TxIndex.v
TxIndexSpec.v
Evidence.v
EvidenceDispatch.v
EvidenceCorrect.v
Voter.v
VoterSpec.v
EvidencePoolSpec.v
EvidenceSpec.v
Erasure.v
ErasureField.v
ErasureCorrect.v
ErasureSpec.v
