(* ===== verification/Prelude.v ===== *)
(** * Quantova-Chain: a verification library

    Quantova-Chain (src/crates) is a proof-of-stake chain: formats at the bottom
    (a canonical codec, Bech32m identifiers), the state trie and the blocks that
    commit to it, the staking and governance rules the ledger applies, the files a
    validator must not lose or contradict (the append-only log, the watermarks),
    and a node that ties them together.  This library models the parts that carry
    the rules, as functions the kernel can run, and proves what each promises.

    ** The files

    - [Prelude]: machine integers with the edge behaviour of the Rust operation of
      each name ([wrap], [checked_*], [saturating_*], [panicking_*]), little- and
      big-endian integers, [Result] and [outcome] (a panic is a value), bit vectors,
      slices, and [separates], the form in which a collision of the hash is
      excluded.
    - [Codec] is qtv-codec: [Encoder], [Decoder] with every error, the codecs of
      integers, byte strings and options.  A type with [Encode] and [Decode] is a
      record [Codec]; the classes [Appends], [RoundTrip] and [Canonical] are what a
      codec promises, and the stored records of the other components are instances.
    - [Staking] is qtv-staking: emission and rewards, [Bond] and its epoch-delayed
      weight, the session meter, [StakeLedger].
    - [Governance] is qtv-governance: tracks, conviction, tallies, referenda,
      actions and their wire format, [check_enactment], guardians.
    - [Crc]: the two CRC-32 routines (qtv-store/src/log.rs, qtv-node/src/watermark.rs)
      against the bit-at-a-time remainder.
    - [Watermark] is qtv-node/src/watermark.rs: [SignGuard], [PrevoteGuard] and the
      lock file, with the file operations as explicit steps that may fail or be
      cut short.
    - [Log] is qtv-store/src/log.rs: frames, opening with repair of a torn tail,
      appending, truncating, the scanning reader.
    - [Idfmt] is qtv-idfmt: checksum, regrouping of bits, rendering and parsing.
    - [Block] is qtv-block: header, Merkle tree and inclusion proofs, rosters and
      the reads of a light client.
    - [Keys] and [Trie] are qtv-state: the key arithmetic, and the trie with its
      deltas, node cache, memo, incremental root and proofs.  [TrieCorrect] relates
      subtrees to intervals of 256-bit numbers and shows that the recomputation
      along changed keys is right; [TrieSpec] states what the trie promises.
    - [Tx] is qtv-account and qtv-tx: keys and addresses, bodies, digests, signing.
    - [Fee] is qtv-node/src/fee.rs and upgrades.rs; [Consensus] is the equivocation
      detectors and the finality ledger of consensus.rs; [Events] the block and side
      events and their codecs.
    - The ledger of qtv-node/src/ledger.rs: [LedgerState] (leaves, journal,
      [apply_atomic]), [LedgerKeys] (keys, system addresses), [LedgerStake] (accounts,
      fees, bonds, rewards, slashing, transfers), proved in [LedgerCoins] (what a slot
      holds, [wp]), [LedgerConserve] (each operation balances the books) and
      [LedgerHistory] (histories of native operations).
    - The bridge: [Bridge] is bridge.rs (facts, attestations, quorums); [LedgerBridge]
      the bridged assets of the ledger, proved in [LedgerBridgeBooks] and
      [LedgerBridgeSpec]; [BridgeDispatch] the bridge transactions of node.rs.
    - Governance on the ledger: [LedgerGov] (referenda, votes, locks, enactment with
      every action, guardians and their freezes), proved in [LedgerFrames] (what a
      computation leaves alone, partial correctness), [LedgerGovFreeze] (the leaves of
      freezes against separate books), [LedgerGovEnact] (enactment),
      [LedgerGovJournal] and [LedgerGovCoins] (each operation balances the books);
      [GovDispatch] is the governance and guardian transactions of node.rs, and
      [LedgerGovSpec] histories of them with the operations of [LedgerHistory].
    - [SigCache] is sigcache.rs; [Admission] the checks of node.rs and mempool.rs on a
      transaction; [Mempool] is mempool.rs, proved in [MempoolCorrect] (the invariant)
      and [MempoolSpec].
    - [Erasure] is qtv-net/src/erasure.rs: the field, the Reed-Solomon code, the proofs
      of shards; [ErasureField] shows that the tables are a field, [ErasureCorrect] that
      the elimination inverts, [ErasureSpec] what coding promises.
    - The rest of qtv-net: [Channel] is record.rs, keyschedule.rs, transcript.rs and
      channel.rs (sealed records, nonces, fragmented messages), proved in
      [ChannelCorrect] and [ChannelSpec]; [Handshake] is handshake.rs with identity.rs,
      both sides and the limits on handshakes in flight, proved in [HandshakeSpec].
    - [Json] is qtv-gateway/src/json.rs: the printer, the parser with its limits,
      hexadecimal text; [JsonCorrect], [JsonRound] and [JsonSpec] prove it.
    - The stores of qtv-store over [Log]: [StoreLog] (what opening with a visitor sees
      of a file cut anywhere) and [RecordIndex] (binary search, the places of records)
      are shared; [StateStore] and [StateStoreSpec], [BlockStore] and
      [BlockStoreSpec], [EventStore] and [EventStoreSpec], [Archives] and
      [ArchivesSpec] (burns and rosters), [TxIndex] and [TxIndexSpec] are the files of
      these names.
    - Accountability: [Evidence] is qtv-node/src/evidence.rs (the five kinds of
      evidence, their formats and attribution, the pool), [EvidenceDispatch] its
      admission and execution in node.rs with the attestation keys of ledger.rs, proved
      in [EvidenceCorrect]; [Voter] the four places where a node of qtv-devnet signs,
      with its histories in [VoterSpec]; [EvidencePoolSpec] and [EvidenceSpec] state
      what they promise.

    A method on [&mut self] is a function that returns the changed record next to
    its result, an early return is a branch, an error is [Err], a panic is [Panic].
    Integers stay at their width.  A file is its content; failing and torn writes are
    inputs.  Hashes and signature schemes come from a crate that is not in the
    repository: [sha3_256], [shake256], [ml_verify] and the record [Crypto] are
    parameters, of which only lengths and the correctness of signing are assumed, and,
    for theorems on binding and on leaves that do not overlap, that the hash tells
    apart the strings at hand ([separates]).  The transfer of coins of the virtual
    machine is a parameter with the law that it moves the amount.  What the pool asks
    of other parts of the node is the class [Lanes].  Concrete instances use
    [example_hash] and, on the trie, [rank_hash].  The authenticated cipher, the key
    encapsulation and the signatures of the network are the classes [Aead] and [Crypto]
    of [Channel] and [Handshake], with the classes [AeadLaws] and [CryptoLaws] of what
    is used of them (what is sealed opens to itself, nothing else opens; both sides of an
    encapsulation get one secret); [plain_aead] and [plain_crypto] are instances.  The
    attestations of the consensus library are the class [AttestCrate] of [Consensus] and,
    byte for byte, [Attesting] of [Evidence] with the laws [AttestLaws].

    ** The theorems

    - Safety of a validator's votes: over any history of requests, failing writes,
      crashes and reopens the guards never grant two values for one height and view
      ([sign_guard_never_equivocates], [prevote_guard_never_equivocates]); conflicting
      finality names its culprits ([conflicting_finality_accountable],
      [equivocation_flagged_exactly]); the lock file and the log return what was
      stored or refuse ([lock_file_faithful], [reopen_after_append],
      [damage_in_the_middle_refused], [open_scanned_agrees], [checksum_detects_bursts]).
    - Slashing: evidence slashes only validators with two conflicting signatures
      ([slashing_needs_a_conflict]) and does so exactly when it was admitted
      ([evidence_executes_as_admitted]); a node behind its watermarks is never convicted
      of equivocation ([guarded_validator_never_convicted]); the pool reports the
      equivocations it sees ([pool_reports_equivocators]).  Lock violations are not
      covered by the watermarks, and the rule a node prevotes by differs at one view from
      the rule it is convicted by ([lock_rules_differ]).
    - The stores: through histories of operations with failing writes, syncs and renames
      and crashes that cut a file anywhere, a store behaves as its abstract state: the
      state store as a book of leaves and commits ([state_store_keeps_its_book],
      [committed_state_survives]), the block store as a chain
      ([block_store_is_its_chain]), the transaction index as the list of what was
      inserted ([tx_index_answers_like_the_list]), the event store and the archives as
      the lists of their records ([event_store_reads_back], [burn_archive_reads_back],
      [roster_archive_reads_back]).  Two theorems show what is lost when a failed write
      is not undone ([commit_after_failed_rollback_is_lost],
      [records_after_a_torn_write_are_lost]).
    - The network: a receiver gets a prefix of what its peer sent, whatever the stream
      does ([channel_receives_a_prefix]), and all of it when the stream delivers
      ([channel_delivers_in_order]); nonces are used once ([nonces_never_repeat]); errors
      leave the channel as it was or closed ([quiet_or_torn]); a finished handshake has
      checked its peer ([handshake_checks_its_peer]), honest sides agree
      ([honest_handshake_agrees]), equal bindings mean one conversation
      ([binding_means_one_conversation]), and the guards bound the handshakes in flight
      ([inflight_within_cap]).
    - JSON: the parser returns on every input ([parse_returns]), accepts only values
      within its limits ([parse_accepts_well_formed]) and reads back what is printed
      ([render_parses_back], [hex_round_trip]).
    - Availability: any k shards that verify give back the block, whoever sent them
      ([any_k_shards_reconstruct], [accepted_shards_reconstruct],
      [encoding_is_accepted], [invert_decides_singularity]).
    - State and light clients: the trie refines a finite map and its incremental
      root is that of the full recomputation ([trie_refines_map]); proofs exist for
      every key and only the honest one verifies ([trie_proofs_verify],
      [trie_proofs_sound], [dirty_keys_suffice]); the Merkle tree of a block
      ([inclusion_proofs_sound], [inclusion_proofs_verify]).
    - Coins: over any history of staking and governance the coins in accounts, bonds,
      rewards, locks, funds and open deposits are the supply ([chain_conserves_coins];
      [ledger_conserves_coins] adds that staking never panics); a native operation is all or nothing
      ([native_operation_atomic]); a transaction takes effect at most once
      ([transaction_takes_effect_once]).
    - The bridge: assets move only on the word of a quorum
      ([only_attested_facts_move_assets]), contradicting quorums name a culprit
      ([contradicting_attestations_accountable]), supplies stay backed through every
      history ([bridge_stays_solvent]), nothing is paid twice ([bridge_pays_once]) and
      an open exit can be paid ([open_exit_payable]); the pool admits the mints that
      execute ([mint_admission_predicts_execution]).
    - The pool: its books are exact ([mempool_books_exact]), candidates come in order
      ([candidates_ordered]), governance finds room ([governance_finds_room]), hints
      and the signature cache change nothing ([hinted_admission_agrees],
      [signature_cache_transparent]); one batch can hold a payload twice
      ([batch_holds_payload_twice]).
    - Governance on the ledger: freezes by guardians and by referendum share leaves and
      do not disturb each other ([freezes_refine_books]); enactment is earned and
      happens once ([enactment_earned_and_spent]), or leaves no trace
      ([failed_enactment_changes_nothing]).
    - Economics and governance rules: weights, session rewards, tallies, verdicts,
      quorums of guardians and the enactment gate (the theorems of [Staking],
      [Governance]).
    - Formats: round trips and uniqueness of encodings ([bridge_wire_exact],
      [identifier_round_trip], [signed_digest_binds_body]).

    ** Fuel and bounds

    [leaf_merge] consumes an entry per round and is run with the number of entries;
    the recursion of the trie is on the height, 256 at the root; the scans of [Log]
    and the loops of [Block] run on the length of their input, as does [chunks16].  The
    JSON parser runs on two rounds for each character and one more, which
    [parse_returns] shows to be enough; receiving a message on a bound that
    [recv_returns] shows to be enough for what is left of the stream.  The searches and
    merges of the stores run on the number of elements, and their lemmas hold for the
    fuel they are given.
    [usize] is 64 bits, and theorems that decode assume a slice of at most [isize::MAX]
    bytes, which Rust guarantees.

    ** What is not modelled

    Contract execution runs on a virtual machine that is not in the repository, and the
    parallel scheduling of transactions, the production and validation of blocks around
    them and the devnet node execute contracts at their core.  The rounds of the devnet
    node around its signing run on committee selection and aggregation, which are in the
    consensus library.  The conservation of coins leaves out the bond of a
    frozen bridge, and with it the two actions that move it or the custody of vaults.
    Sockets with their deadlines and watchdog threads, in-memory pipes, HTTP and its
    routes, processes and operator tools are input and output and stay outside, as do
    the cryptographic primitives. *)

From Stdlib Require Export ZArith Lia.
From Stdlib Require Export Strings.Byte.
From Stdlib Require Strings.String.
From stdpp Require Export base decidable option list countable gmap.

#[global] Open Scope Z_scope.

(** ** Machine integers

    An unsigned [w]-bit integer is a [Z] in [[0, 2^w)]; the operations below
    spell out what the Rust operation of the same name does at the edge.
    [usize] is 64 bits wide. *)

Definition in_width (w x : Z) : Prop := 0 <= x < 2 ^ w.

#[global] Instance in_width_dec w x : Decision (in_width w x).
Proof. unfold in_width. apply _. Defined.

Declare Scope chain_scope.
Delimit Scope chain_scope with chain.
#[global] Open Scope chain_scope.

Abbreviation u8 x := (in_width 8 x).
Abbreviation u16 x := (in_width 16 x).
Abbreviation u32 x := (in_width 32 x).
Abbreviation u64 x := (in_width 64 x).
Abbreviation u128 x := (in_width 128 x).

Definition U64_MAX : Z := 2 ^ 64 - 1.
Definition U128_MAX : Z := 2 ^ 128 - 1.

(** [x as uN]: truncation to the low [w] bits. *)
Definition wrap (w x : Z) : Z := x mod 2 ^ w.

Definition saturating_add (w a b : Z) : Z := Z.min (a + b) (2 ^ w - 1).
Definition saturating_sub (a b : Z) : Z := Z.max (a - b) 0.
Definition saturating_mul (w a b : Z) : Z := Z.min (a * b) (2 ^ w - 1).

Definition checked_add (w a b : Z) : option Z :=
  if a + b <? 2 ^ w then Some (a + b) else None.
Definition checked_sub (a b : Z) : option Z :=
  if b <=? a then Some (a - b) else None.
Definition checked_mul (w a b : Z) : option Z :=
  if a * b <? 2 ^ w then Some (a * b) else None.
Definition checked_div (a b : Z) : option Z :=
  if b =? 0 then None else Some (a / b).

(** The workspace is built with overflow checks on, so a bare [+], [-] or [*]
    that leaves its type's range panics.  [outcome] is the result of code that
    may panic. *)
Inductive outcome (A : Type) : Type :=
| Done (a : A)
| Panic.
Arguments Done {A} _.
Arguments Panic {A}.

Definition obind {A B} (m : outcome A) (k : A -> outcome B) : outcome B :=
  match m with Done a => k a | Panic => Panic end.

Definition panicking_add (w a b : Z) : outcome Z :=
  match checked_add w a b with Some c => Done c | None => Panic end.
Definition panicking_sub (a b : Z) : outcome Z :=
  match checked_sub a b with Some c => Done c | None => Panic end.

(** ** Fallible code *)

Inductive Result (E A : Type) : Type :=
| Ok (a : A)
| Err (e : E).
Arguments Ok {E A} _.
Arguments Err {E A} _.

Definition rbind {E A B} (m : Result E A) (k : A -> Result E B) : Result E B :=
  match m with Ok a => k a | Err e => Err e end.

Definition map_err {E F A} (f : E -> F) (m : Result E A) : Result F A :=
  match m with Ok a => Ok a | Err e => Err (f e) end.

Definition result_ok {E A} (m : Result E A) : option A :=
  match m with Ok a => Some a | Err _ => None end.

Definition is_ok {E A} (m : Result E A) : bool :=
  match m with Ok _ => true | Err _ => false end.

Notation "'let?' x ':=' m 'in' k" := (rbind m (fun x => k))
  (at level 10, x pattern, m at level 100, k at level 200,
   format "'[v' 'let?'  x  ':='  m  'in' '/' k ']'") : chain_scope.

(** The bytes of an ASCII literal, [b"..."]. *)
Export String.StringSyntax.
Delimit Scope string_scope with string.
Notation ascii s := (String.list_byte_of_string s%string).

(** ** Tactics *)

(** Turn boolean tests among the hypotheses and the goal into propositions. *)
Ltac bool_to_prop :=
  repeat match goal with
  | H : (_ <? _) = true |- _ => apply Z.ltb_lt in H
  | H : (_ <? _) = false |- _ => apply Z.ltb_ge in H
  | H : (_ <=? _) = true |- _ => apply Z.leb_le in H
  | H : (_ <=? _) = false |- _ => apply Z.leb_gt in H
  | H : (_ =? _) = true |- _ => apply Z.eqb_eq in H
  | H : (_ =? _) = false |- _ => apply Z.eqb_neq in H
  | H : (_ <? _)%nat = true |- _ => apply Nat.ltb_lt in H
  | H : (_ <? _)%nat = false |- _ => apply Nat.ltb_ge in H
  | H : (_ <=? _)%nat = true |- _ => apply Nat.leb_le in H
  | H : (_ <=? _)%nat = false |- _ => apply Nat.leb_gt in H
  | H : (_ =? _)%nat = true |- _ => apply Nat.eqb_eq in H
  | H : (_ =? _)%nat = false |- _ => apply Nat.eqb_neq in H
  | H : (_ && _) = true |- _ => apply andb_true_iff in H as [? ?]
  | H : (_ || _) = false |- _ => apply orb_false_iff in H as [? ?]
  | H : negb _ = true |- _ => apply negb_true_iff in H
  | H : negb _ = false |- _ => apply negb_false_iff in H
  | H : bool_decide _ = true |- _ => apply bool_decide_eq_true in H
  | H : bool_decide _ = false |- _ => apply bool_decide_eq_false in H
  end.

(** Case on the test of the first [if] or the scrutinee of the first [match]
    in the goal. *)
Ltac case_step :=
  match goal with
  | |- context [if ?b then _ else _] =>
      let E := fresh "Eb" in destruct b eqn:E
  | |- context [match ?x with _ => _ end] =>
      let E := fresh "Em" in destruct x eqn:E
  end.
Ltac case_in H :=
  match type of H with
  | context [if ?b then _ else _] =>
      let E := fresh "Eb" in destruct b eqn:E
  | context [match ?x with _ => _ end] =>
      let E := fresh "Em" in destruct x eqn:E
  end.

(** Arithmetic with the machine operations unfolded. *)
Ltac width_lia :=
  unfold in_width, wrap, saturating_add, saturating_sub, saturating_mul,
    U64_MAX, U128_MAX in *; bool_to_prop; simplify_eq; lia.

Create HintDb chain discriminated.

(** ** Lemmas on machine integers *)

Lemma wrap_id w x : in_width w x -> wrap w x = x.
Proof. intros H. unfold wrap. apply Z.mod_small. exact H. Qed.

Lemma wrap_range w x : 0 <= w -> in_width w (wrap w x).
Proof. intros Hw. apply Z.mod_pos_bound. apply Z.pow_pos_nonneg; lia. Qed.

Lemma in_width_mono w w' x : 0 <= w <= w' -> in_width w x -> in_width w' x.
Proof.
  intros Hw [Hlo Hhi]. split; [done|].
  apply Z.lt_le_trans with (2 ^ w); [done|]. apply Z.pow_le_mono_r; lia.
Qed.

Lemma checked_add_Some w a b c :
  checked_add w a b = Some c <-> c = a + b /\ a + b < 2 ^ w.
Proof. unfold checked_add. destruct (Z.ltb_spec (a + b) (2 ^ w)); naive_solver lia. Qed.

Lemma checked_add_None w a b : checked_add w a b = None <-> 2 ^ w <= a + b.
Proof. unfold checked_add. destruct (Z.ltb_spec (a + b) (2 ^ w)); naive_solver lia. Qed.

Lemma checked_sub_Some a b c : checked_sub a b = Some c <-> c = a - b /\ b <= a.
Proof. unfold checked_sub. destruct (Z.leb_spec b a); naive_solver lia. Qed.

Lemma saturating_add_range w a b :
  0 <= w -> 0 <= a -> 0 <= b -> in_width w (saturating_add w a b).
Proof.
  intros Hw Ha Hb. unfold saturating_add, in_width.
  pose proof (Z.pow_pos_nonneg 2 w). lia.
Qed.

Lemma saturating_sub_range w a b :
  0 <= b -> in_width w a -> in_width w (saturating_sub a b).
Proof. unfold saturating_sub, in_width. lia. Qed.

(** A quotient of a product by the larger factor never exceeds the other. *)
Lemma muldiv_le a b d : 0 <= a -> 0 < d -> b <= d -> a * b / d <= a.
Proof.
  intros Ha Hd Hb. apply Z.div_le_upper_bound; [lia|]. nia.
Qed.

Lemma muldiv_nonneg a b d : 0 <= a -> 0 <= b -> 0 < d -> 0 <= a * b / d.
Proof. intros. apply Z.div_pos; nia. Qed.

(** ** Bytes *)

#[global] Instance byte_eq_decision : EqDecision byte := Byte.byte_eq_dec.

#[global] Instance byte_countable : Countable byte.
Proof.
  apply (inj_countable Byte.to_N Byte.of_N). intros b. apply Byte.of_to_N.
Defined.

Definition byte_val (b : byte) : Z := Z.of_N (Byte.to_N b).

(** [z as u8]. *)
Definition byte_of (z : Z) : byte :=
  match Byte.of_N (Z.to_N (z mod 256)) with Some b => b | None => x00 end.

Lemma byte_val_range b : 0 <= byte_val b < 256.
Proof.
  unfold byte_val. pose proof (Byte.to_N_bounded b). lia.
Qed.

Lemma byte_val_inj b1 b2 : byte_val b1 = byte_val b2 -> b1 = b2.
Proof.
  unfold byte_val. intros H%N2Z.inj. apply (f_equal Byte.of_N) in H.
  rewrite !Byte.of_to_N in H. congruence.
Qed.

Lemma byte_val_of z : byte_val (byte_of z) = z mod 256.
Proof.
  unfold byte_val, byte_of.
  pose proof (Z.mod_pos_bound z 256 ltac:(lia)) as Hm.
  destruct (Byte.of_N (Z.to_N (z mod 256))) as [b|] eqn:E.
  - apply Byte.to_of_N in E. lia.
  - apply Byte.of_N_None_iff in E. lia.
Qed.

Lemma byte_of_val b : byte_of (byte_val b) = b.
Proof.
  apply byte_val_inj. rewrite byte_val_of.
  pose proof (byte_val_range b). apply Z.mod_small. lia.
Qed.

Lemma map_byte_of_val bs : map byte_of (map byte_val bs) = bs.
Proof. induction bs as [|b bs IH]; cbn [map]; [done|]. by rewrite byte_of_val, IH. Qed.

Lemma byte_val_of_small z : 0 <= z < 256 -> byte_val (byte_of z) = z.
Proof. intros H. rewrite byte_val_of. apply Z.mod_small. lia. Qed.

#[export] Hint Resolve byte_val_range : chain.

(** [to_le_bytes] and [from_le_bytes] of an integer of [n] bytes. *)
Fixpoint to_le (n : nat) (z : Z) : list byte :=
  match n with
  | O => []
  | S n => byte_of z :: to_le n (z / 256)
  end.

Fixpoint from_le (bs : list byte) : Z :=
  match bs with
  | [] => 0
  | b :: bs => byte_val b + 256 * from_le bs
  end.

(** [to_be_bytes] and [from_be_bytes]. *)
Definition to_be (n : nat) (z : Z) : list byte := rev (to_le n z).
Definition from_be (bs : list byte) : Z := from_le (rev bs).

Lemma length_to_le n z : length (to_le n z) = n.
Proof. revert z. induction n as [|n IH]; intros z; simpl; [done|]. by rewrite IH. Qed.

Lemma pow256_S n : 256 ^ Z.of_nat (S n) = 256 * 256 ^ Z.of_nat n.
Proof. rewrite Nat2Z.inj_succ, Z.pow_succ_r by lia. done. Qed.

Lemma from_le_range bs : 0 <= from_le bs < 256 ^ Z.of_nat (length bs).
Proof.
  induction bs as [|b bs IH]; simpl from_le; simpl length; [simpl; lia|].
  rewrite pow256_S. pose proof (byte_val_range b). lia.
Qed.

Lemma from_to_le n z : 0 <= z < 256 ^ Z.of_nat n -> from_le (to_le n z) = z.
Proof.
  revert z. induction n as [|n IH]; intros z Hz; simpl to_le; simpl from_le.
  - simpl in Hz. lia.
  - rewrite pow256_S in Hz. rewrite byte_val_of, IH.
    + pose proof (Z.div_mod z 256). lia.
    + split; [apply Z.div_pos; lia|]. apply Z.div_lt_upper_bound; lia.
Qed.

Lemma to_from_le bs : to_le (length bs) (from_le bs) = bs.
Proof.
  induction bs as [|b bs IH]; simpl; [done|].
  pose proof (byte_val_range b) as Hb. f_equal.
  - apply byte_val_inj. rewrite byte_val_of, Z.mul_comm, Z.mod_add by lia.
    apply Z.mod_small. lia.
  - replace ((byte_val b + 256 * from_le bs) / 256) with (from_le bs); [done|].
    rewrite Z.mul_comm, Z.div_add, (Z.div_small (byte_val b)) by lia. lia.
Qed.

Lemma to_from_le_n n bs : length bs = n -> to_le n (from_le bs) = bs.
Proof. intros <-. apply to_from_le. Qed.

Lemma to_le_inj n a b :
  0 <= a < 256 ^ Z.of_nat n -> 0 <= b < 256 ^ Z.of_nat n ->
  to_le n a = to_le n b -> a = b.
Proof.
  intros Ha Hb E. apply (f_equal from_le) in E.
  by rewrite !from_to_le in E.
Qed.

Lemma in_width_bytes n x :
  in_width (8 * Z.of_nat n) x <-> 0 <= x < 256 ^ Z.of_nat n.
Proof.
  unfold in_width. replace 256 with (2 ^ 8) by done.
  rewrite <- Z.pow_mul_r by lia. done.
Qed.

(** ** Lists *)

(** The [usize] length of a slice. *)
Definition len {A} (l : list A) : Z := Z.of_nat (length l).

Lemma len_nonneg {A} (l : list A) : 0 <= len l.
Proof. unfold len. lia. Qed.

Lemma len_app {A} (l k : list A) : len (l ++ k) = len l + len k.
Proof. unfold len. rewrite length_app. lia. Qed.

Lemma len_cons {A} (x : A) l : len (x :: l) = 1 + len l.
Proof. unfold len. simpl. lia. Qed.

#[export] Hint Resolve len_nonneg : chain.
#[export] Hint Rewrite @len_app @len_cons : chain.

(** [vec![b; n]]. *)
Definition zeros (n : nat) : list byte := replicate n x00.

Lemma length_zeros n : length (zeros n) = n.
Proof. apply length_replicate. Qed.

Lemma app_split_length {A} (a b c d : list A) :
  length a = length c -> a ++ b = c ++ d -> a = c /\ b = d.
Proof. apply app_inj_1. Qed.

Lemma drop_app_eq {A} n (a b : list A) : length a = n -> drop n (a ++ b) = b.
Proof. intros <-. apply drop_app_length. Qed.

Lemma take_app_eq {A} n (a b : list A) : length a = n -> take n (a ++ b) = a.
Proof. intros <-. apply take_app_length. Qed.

(** ** Sums over finite maps *)

Section map_sum.
Context {K A : Type} `{Countable K} (f : A -> Z).

Definition map_sum (m : gmap K A) : Z := map_fold (fun _ a acc => f a + acc) 0 m.

Lemma map_sum_empty : map_sum ∅ = 0.
Proof. apply map_fold_empty. Qed.

Lemma map_sum_insert_new m k a : m !! k = None -> map_sum (<[k := a]> m) = f a + map_sum m.
Proof.
  intros Hk. unfold map_sum.
  rewrite (map_fold_insert_L (fun (_ : K) (a : A) acc => f a + acc) 0 k a m); [done| |done].
  intros. lia.
Qed.

Lemma map_sum_delete m k a : m !! k = Some a -> map_sum m = f a + map_sum (delete k m).
Proof.
  intros Hk. rewrite <- (insert_id m k a Hk) at 1. rewrite <- insert_delete_eq.
  apply map_sum_insert_new. apply lookup_delete_eq.
Qed.

Lemma map_sum_insert m k a b :
  m !! k = Some a -> map_sum (<[k := b]> m) = map_sum m - f a + f b.
Proof.
  intros Hk. rewrite (map_sum_delete m k a Hk), <- insert_delete_eq.
  rewrite map_sum_insert_new by apply lookup_delete_eq. lia.
Qed.

Lemma map_sum_nonneg m : (forall k a, m !! k = Some a -> 0 <= f a) -> 0 <= map_sum m.
Proof.
  induction m as [|k a m Hk IH] using map_ind; intros Hf.
  - by rewrite map_sum_empty.
  - rewrite map_sum_insert_new by done.
    assert (0 <= f a) by (apply (Hf k), lookup_insert_eq).
    assert (0 <= map_sum m); [|lia]. apply IH. intros k' a' Hk'.
    apply (Hf k'). rewrite lookup_insert_ne by congruence. done.
Qed.

Lemma map_sum_lookup_le m k a :
  (forall k a, m !! k = Some a -> 0 <= f a) -> m !! k = Some a -> f a <= map_sum m.
Proof.
  intros Hf Hk. rewrite (map_sum_delete m k a Hk).
  assert (0 <= map_sum (delete k m)); [|lia]. apply map_sum_nonneg.
  intros k' a' [_ Hk']%lookup_delete_Some. by eapply Hf.
Qed.
End map_sum.

(** ** Sums over lists *)

Definition list_sum (l : list Z) : Z := foldr Z.add 0 l.

Lemma list_sum_app l k : list_sum (l ++ k) = list_sum l + list_sum k.
Proof. induction l as [|x l IH]; simpl; lia. Qed.

Lemma list_sum_nonneg l : Forall (fun x => 0 <= x) l -> 0 <= list_sum l.
Proof. induction 1; simpl; lia. Qed.

Lemma list_sum_mono l k : Forall2 Z.le l k -> list_sum l <= list_sum k.
Proof. induction 1; simpl; lia. Qed.

Lemma foldl_saturating w acc l :
  0 <= w -> 0 <= acc < 2 ^ w -> Forall (fun x => 0 <= x) l ->
  foldl (saturating_add w) acc l = Z.min (acc + list_sum l) (2 ^ w - 1).
Proof.
  intros Hw Hacc Hl. revert acc Hacc.
  induction Hl as [|x l Hx Hl IH]; intros acc Hacc; simpl; [lia|].
  pose proof (list_sum_nonneg l Hl).
  rewrite IH by (unfold saturating_add; lia). unfold saturating_add. lia.
Qed.

(** ** Bits *)

Lemma in_width_shiftr w x : 0 <= w -> 0 <= x -> (in_width w x <-> Z.shiftr x w = 0).
Proof.
  intros Hw Hx. unfold in_width. rewrite Z.shiftr_div_pow2 by done.
  pose proof (Z.pow_pos_nonneg 2 w). split.
  - intros H'. apply Z.div_small. lia.
  - intros H'. apply Z.div_small_iff in H'; lia.
Qed.

Lemma in_width_lxor w x y : 0 <= w -> in_width w x -> in_width w y -> in_width w (Z.lxor x y).
Proof.
  intros Hw Hx Hy. assert (0 <= x /\ 0 <= y) as [? ?] by (unfold in_width in *; lia).
  assert (0 <= Z.lxor x y) by (apply Z.lxor_nonneg; lia).
  apply in_width_shiftr; [done..|]. rewrite Z.shiftr_lxor.
  by rewrite (proj1 (in_width_shiftr w x Hw H) Hx), (proj1 (in_width_shiftr w y Hw H0) Hy).
Qed.

(** The low [n] bits of [v], the highest first. *)
Fixpoint bits_of (n : nat) (v : Z) : list bool :=
  match n with O => [] | S n => Z.testbit v (Z.of_nat n) :: bits_of n v end.

Lemma length_bits_of n v : length (bits_of n v) = n.
Proof. induction n; cbn; congruence. Qed.

Lemma bits_of_ext n v w :
  (forall i, 0 <= i < Z.of_nat n -> Z.testbit v i = Z.testbit w i) -> bits_of n v = bits_of n w.
Proof.
  induction n as [|n IH]; intros H; [done|]. cbn [bits_of]. f_equal; [apply H; lia|].
  apply IH. intros i Hi. apply H. lia.
Qed.

Lemma bits_of_inj n v w :
  in_width (Z.of_nat n) v -> in_width (Z.of_nat n) w -> bits_of n v = bits_of n w -> v = w.
Proof.
  intros Hv Hw H.
  assert (Hbits : forall i, 0 <= i < Z.of_nat n -> Z.testbit v i = Z.testbit w i).
  { clear Hv Hw. induction n as [|n IH]; [lia|]. cbn [bits_of] in H. injection H as H1 H2.
    intros i Hi. destruct (decide (i = Z.of_nat n)) as [->|]; [done|]. apply IH; [done|lia]. }
  apply Z.bits_inj'. intros i Hi. destruct (Z.lt_ge_cases i (Z.of_nat n)); [by apply Hbits|].
  assert (Hhigh : forall x, in_width (Z.of_nat n) x -> Z.testbit x i = false).
  { intros x [? ?]. apply Z.testbit_false; [lia|]. rewrite Z.div_small; [done|].
    split; [lia|]. apply Z.lt_le_trans with (2 ^ Z.of_nat n); [lia|]. apply Z.pow_le_mono_r; lia. }
  by rewrite !Hhigh.
Qed.

Lemma bits_of_app a b v :
  bits_of (a + b) v = bits_of a (Z.shiftr v (Z.of_nat b)) ++ bits_of b v.
Proof.
  induction a as [|a IH]; [done|]. cbn [bits_of Nat.add app]. rewrite IH. f_equal.
  rewrite Z.shiftr_spec by lia. f_equal. lia.
Qed.

Lemma bits_of_0 n : bits_of n 0 = replicate n false.
Proof. induction n; cbn; [done|]. by rewrite Z.testbit_0_l, IHn. Qed.

(** ** Slices *)

(** [bs[from..to]]. *)
Definition slice (bs : list byte) (from to : nat) : list byte := take (to - from) (drop from bs).

Lemma slice_app_l (a b : list byte) n : length a = n -> slice (a ++ b) 0 n = a.
Proof. intros <-. unfold slice. rewrite drop_0, Nat.sub_0_r. apply take_app_length. Qed.

Lemma slice_app_r (a b : list byte) n m k :
  length a = k -> (k <= n)%nat -> slice (a ++ b) n m = slice b (n - k) (m - k).
Proof.
  intros <- Hn. unfold slice. rewrite drop_app_ge by done. f_equal. lia.
Qed.

Lemma slice_all (a : list byte) n : length a = n -> slice a 0 n = a.
Proof. intros H. rewrite <- (app_nil_r a) at 1. by apply slice_app_l. Qed.

(** ** A hash to evaluate with *)

(** The hash functions of the chain are parameters of the model; concrete instances
    of the theorems use this one, which has 32 bytes of output and nothing else
    to recommend it. *)
Definition example_hash (x : list byte) : list byte :=
  to_le 32 (foldl (fun a b => Z.land (a * 257 + byte_val b + 1) 0xFFFFFFFFFFFFFFFFFFFFFFFFFFFFFFFF) 7 x).

Lemma example_hash_length x : length (example_hash x) = 32%nat.
Proof. apply length_to_le. Qed.

(** The hash tells the strings of [xs] from those of [ys]. *)
Definition separates (sha3_256 : list byte -> list byte) (xs ys : list (list byte)) : Prop :=
  forall x y, x ∈ xs -> y ∈ ys -> sha3_256 x = sha3_256 y -> x = y.

Lemma separates_sub sha xs ys xs' ys' :
  separates sha xs ys -> (forall x, x ∈ xs' -> x ∈ xs) -> (forall y, y ∈ ys' -> y ∈ ys) ->
  separates sha xs' ys'.
Proof. intros H H1 H2 x y Hx Hy. apply H; auto. Qed.

Lemma separates_sym sha xs ys : separates sha xs ys -> separates sha ys xs.
Proof. intros H x y Hx Hy Heq. symmetry. apply H; auto. Qed.

(** Checking [separates] on concrete strings, each hashed once. *)
Definition separated (sha : list byte -> list byte) (xs ys : list (list byte)) : bool :=
  let hx := map (fun x => (x, sha x)) xs in
  let hy := map (fun y => (y, sha y)) ys in
  forallb (fun a => forallb (fun b =>
    if decide (a.2 = b.2) then bool_decide (a.1 = b.1) else true) hy) hx.

Lemma separates_check sha xs ys : separated sha xs ys = true -> separates sha xs ys.
Proof.
  unfold separated. intros H x y Hx Hy Heq. rewrite forallb_forall in H. apply list_elem_of_In in Hx, Hy.
  specialize (H (x, sha x) (in_map _ _ _ Hx)). rewrite forallb_forall in H.
  specialize (H (y, sha y) (in_map _ _ _ Hy)). cbn [fst snd] in H.
  rewrite decide_True in H by done. by apply bool_decide_eq_true in H.
Qed.
