(* ===== verification/Codec.v ===== *)
(** * The canonical codec (crates/qtv-codec)

    [Encoder] is a growing byte buffer, [Decoder] a cursor over a slice; the
    [put_*] and [get_*] operations are those of [src/lib.rs].  A type that
    implements the traits [Encode] and [Decode] is a value of the record
    [Codec].  Three classes state what a codec promises its clients:
    [Appends] (encoding only appends), [RoundTrip] (what was encoded is what is
    decoded) and [Canonical] (only the encoding of a value decodes to it).  The
    other components prove their instances with the combinators on [reads] and
    [consumed] below. *)

From S2P Require Import Prelude.

Definition LENGTH_WIDTH : Z := 8.

Inductive Error : Type :=
| Truncated (needed found : Z)
| LengthOverrun (length found : Z)
| TrailingBytes (count : Z)
| InvalidOption (byte : Z)
| UnknownTag (tag : Z).

#[global] Instance Error_eq_decision : EqDecision Error.
Proof. solve_decision. Defined.

(** ** The encoder *)

Record Encoder : Type := mkEncoder { buf : list byte }.

Definition Encoder_new : Encoder := mkEncoder [].
Definition with_buffer (b : list byte) : Encoder := mkEncoder b.

Definition extend (bs : list byte) (e : Encoder) : Encoder := mkEncoder (buf e ++ bs).

Definition put_u8 (value : Z) (e : Encoder) : Encoder := extend [byte_of value] e.
Definition put_u16 (value : Z) (e : Encoder) : Encoder := extend (to_le 2 value) e.
Definition put_u32 (value : Z) (e : Encoder) : Encoder := extend (to_le 4 value) e.
Definition put_u64 (value : Z) (e : Encoder) : Encoder := extend (to_le 8 value) e.
Definition put_u128 (value : Z) (e : Encoder) : Encoder := extend (to_le 16 value) e.

Definition put_bytes (bytes : list byte) (e : Encoder) : Encoder :=
  extend bytes (put_u64 (len bytes) e).

Definition put_tag (tag : Z) (e : Encoder) : Encoder := extend [byte_of tag] e.

Definition as_slice (e : Encoder) : list byte := buf e.
Definition into_bytes (e : Encoder) : list byte := buf e.

Notation "e '|>' f" := (f e) (at level 45, left associativity, only parsing) : chain_scope.

(** ** The decoder *)

Record Decoder : Type := mkDecoder { input : list byte; pos : nat }.

Definition Decoder_new (i : list byte) : Decoder := mkDecoder i 0.

Definition remaining (d : Decoder) : Z := len (input d) - Z.of_nat (pos d).

(** A decoding step: its value and the advanced cursor, or the error.  The
    cursor after an error is dropped: callers return the error at once, except
    [RewardBook::decode], which goes on after a failed integer read, and such a read
    leaves the cursor where it was ([dec_or] of [LedgerStake]). *)
Definition Dec (A : Type) : Type := Decoder -> Result Error (A * Decoder).

Definition dret {A} (a : A) : Dec A := fun d => Ok (a, d).
Definition dfail {A} (e : Error) : Dec A := fun _ => Err e.
Definition dbind {A B} (m : Dec A) (k : A -> Dec B) : Dec B :=
  fun d => match m d with Ok (a, d') => k a d' | Err e => Err e end.

Notation "'let*' x ':=' m 'in' k" := (dbind m (fun x => k))
  (at level 10, x pattern, m at level 100, k at level 200,
   format "'[v' 'let*'  x  ':='  m  'in' '/' k ']'") : chain_scope.

Definition Decoder_take (n : Z) : Dec (list byte) := fun d =>
  match checked_add 64 (Z.of_nat (pos d)) n with
  | None => Err (Truncated n (remaining d))
  | Some stop =>
      if len (input d) <? stop then Err (Truncated n (remaining d))
      else
        let slice := take (Z.to_nat stop - pos d) (drop (pos d) (input d)) in
        Ok (slice, mkDecoder (input d) (Z.to_nat stop))
  end.

Definition get_u8 : Dec Z := let* bytes := Decoder_take 1 in dret (from_le bytes).
Definition get_u16 : Dec Z := let* bytes := Decoder_take 2 in dret (from_le bytes).
Definition get_u32 : Dec Z := let* bytes := Decoder_take 4 in dret (from_le bytes).
Definition get_u64 : Dec Z := let* bytes := Decoder_take 8 in dret (from_le bytes).
Definition get_u128 : Dec Z := let* bytes := Decoder_take 16 in dret (from_le bytes).

Definition get_bytes : Dec (list byte) :=
  let* length := get_u64 in
  fun d =>
    if wrap 64 (remaining d) <? length
    then Err (LengthOverrun length (remaining d))
    else Decoder_take length d.

Definition get_tag : Dec Z := get_u8.

Definition finish (d : Decoder) : Result Error unit :=
  if (pos d =? length (input d))%nat then Ok tt
  else Err (TrailingBytes (remaining d)).

(** ** The traits *)

Record Codec (A : Type) : Type := mkCodec {
  encode : A -> Encoder -> Encoder;
  decode : Dec A;
  valid : A -> Prop
}.
Arguments encode {A} _ _ _.
Arguments decode {A} _ _.
Arguments valid {A} _ _.

Definition u8_codec : Codec Z := mkCodec Z put_u8 get_u8 (in_width 8).
Definition u16_codec : Codec Z := mkCodec Z put_u16 get_u16 (in_width 16).
Definition u32_codec : Codec Z := mkCodec Z put_u32 get_u32 (in_width 32).
Definition u64_codec : Codec Z := mkCodec Z put_u64 get_u64 (in_width 64).
Definition u128_codec : Codec Z := mkCodec Z put_u128 get_u128 (in_width 128).

Definition vec_u8_codec : Codec (list byte) :=
  mkCodec (list byte) put_bytes get_bytes (fun bs => in_width 64 (len bs)).

Definition option_encode {A} (c : Codec A) (o : option A) (e : Encoder) : Encoder :=
  match o with
  | None => e |> put_u8 0
  | Some value => e |> put_u8 1 |> encode c value
  end.

Definition option_decode {A} (c : Codec A) : Dec (option A) :=
  let* byte := get_u8 in
  if byte =? 0 then dret None
  else if byte =? 1 then let* value := decode c in dret (Some value)
  else dfail (InvalidOption byte).

Definition option_codec {A} (c : Codec A) : Codec (option A) :=
  mkCodec (option A) (option_encode c) (option_decode c)
    (fun o => match o with None => True | Some v => valid c v end).

Definition to_bytes {A} (c : Codec A) (value : A) : list byte :=
  into_bytes (encode c value Encoder_new).

Definition from_bytes {A} (c : Codec A) (i : list byte) : Result Error A :=
  match decode c (Decoder_new i) with
  | Err e => Err e
  | Ok (value, d) => let? _ := finish d in Ok value
  end.

(** The loops [for x in xs { x.encode(encoder) }] and
    [for _ in 0..count { xs.push(decode(decoder)?) }]. *)
Definition encode_all {A} (c : Codec A) (xs : list A) (e : Encoder) : Encoder :=
  foldl (fun e x => encode c x e) e xs.

Fixpoint decode_n {A} (m : Dec A) (count : nat) : Dec (list A) :=
  match count with
  | O => dret []
  | S count =>
      let* x := m in
      let* xs := decode_n m count in
      dret (x :: xs)
  end.

(** ** What a codec promises *)

Definition rest (d : Decoder) : list byte := drop (pos d) (input d).
Definition advance (n : nat) (d : Decoder) : Decoder := mkDecoder (input d) (pos d + n).

(** A slice is never longer than [isize::MAX] bytes, and the cursor never
    leaves it. *)
Definition ISIZE_MAX : Z := 2 ^ 63 - 1.
Definition fits (d : Decoder) : Prop :=
  (pos d <= length (input d))%nat /\ len (input d) <= ISIZE_MAX.

(** [m] reads [bs] and returns [v], wherever [bs] stands in the input. *)
Definition reads {A} (m : Dec A) (bs : list byte) (v : A) : Prop :=
  forall d post, fits d -> rest d = bs ++ post -> m d = Ok (v, advance (length bs) d).

(** Going from [d] to [d'] consumed exactly [bs]. *)
Definition consumed (d : Decoder) (bs : list byte) (d' : Decoder) : Prop :=
  rest d = bs ++ rest d' /\ d' = advance (length bs) d.

Class Appends {A} (c : Codec A) : Prop :=
  encode_appends : forall v e, buf (encode c v e) = buf e ++ to_bytes c v.
Class RoundTrip {A} (c : Codec A) : Prop :=
  decode_encode : forall v, valid c v -> reads (decode c) (to_bytes c v) v.
Class Canonical {A} (c : Codec A) : Prop :=
  decode_canonical : forall d v d', decode c d = Ok (v, d') ->
    valid c v /\ consumed d (to_bytes c v) d'.

(** ** The buffer of an encoder *)

Create HintDb codec discriminated.

Lemma buf_new : buf Encoder_new = [].
Proof. done. Qed.

Lemma buf_put_u8 v e : buf (put_u8 v e) = buf e ++ [byte_of v].
Proof. done. Qed.

Lemma buf_put_tag v e : buf (put_tag v e) = buf e ++ [byte_of v].
Proof. done. Qed.

Lemma buf_put_u16 v e : buf (put_u16 v e) = buf e ++ to_le 2 v.
Proof. done. Qed.

Lemma buf_put_u32 v e : buf (put_u32 v e) = buf e ++ to_le 4 v.
Proof. done. Qed.

Lemma buf_put_u64 v e : buf (put_u64 v e) = buf e ++ to_le 8 v.
Proof. done. Qed.

Lemma buf_put_u128 v e : buf (put_u128 v e) = buf e ++ to_le 16 v.
Proof. done. Qed.

Definition bytes_image (bs : list byte) : list byte := to_le 8 (len bs) ++ bs.

Lemma buf_put_bytes bs e : buf (put_bytes bs e) = buf e ++ bytes_image bs.
Proof.
  unfold put_bytes, put_u64, extend, bytes_image. cbn [buf]. by rewrite app_assoc.
Qed.

Lemma buf_encode_all {A} (c : Codec A) `{!Appends c} xs e :
  buf (encode_all c xs e) = buf e ++ concat (map (to_bytes c) xs).
Proof.
  unfold encode_all. revert e. induction xs as [|x xs IH]; intros e; simpl.
  - by rewrite app_nil_r.
  - by rewrite IH, encode_appends, app_assoc.
Qed.

#[export] Hint Rewrite buf_new buf_put_u8 buf_put_tag buf_put_u16 buf_put_u32
  buf_put_u64 buf_put_u128 buf_put_bytes @buf_encode_all @encode_appends
  using (typeclasses eauto) : codec.

(** ** Reading back *)

Lemma rest_advance n d : rest (advance n d) = drop n (rest d).
Proof. unfold rest, advance. cbn. by rewrite drop_drop. Qed.

Lemma advance_advance n m d : advance m (advance n d) = advance (n + m) d.
Proof. unfold advance. cbn. f_equal. lia. Qed.

Lemma advance_0 d : advance 0 d = d.
Proof. destruct d. unfold advance. cbn. f_equal. lia. Qed.

Lemma rest_length d : length (rest d) = (length (input d) - pos d)%nat.
Proof. unfold rest. by rewrite length_drop. Qed.

Lemma fits_advance d bs post :
  fits d -> rest d = bs ++ post ->
  fits (advance (length bs) d) /\ rest (advance (length bs) d) = post.
Proof.
  intros [Hp Hl] Hr. split.
  - apply (f_equal length) in Hr. rewrite rest_length, length_app in Hr.
    split; [cbn; lia|done].
  - by rewrite rest_advance, Hr, drop_app_length.
Qed.

Lemma Decoder_take_Ok n d bs d' :
  0 <= n -> Decoder_take n d = Ok (bs, d') ->
  len bs = n /\ consumed d bs d'.
Proof.
  unfold Decoder_take. intros Hn H.
  destruct (checked_add _ _ _) as [stop|] eqn:E; [|done].
  apply checked_add_Some in E as [-> _]. unfold len in H.
  destruct (Z.ltb_spec (Z.of_nat (length (input d))) (Z.of_nat (pos d) + n)) as [|Hle]; [done|].
  injection H as <- <-.
  replace (Z.to_nat (Z.of_nat (pos d) + n) - pos d)%nat with (Z.to_nat n) by lia.
  assert (Hl : length (take (Z.to_nat n) (drop (pos d) (input d))) = Z.to_nat n).
  { rewrite length_take, length_drop. lia. }
  split; [unfold len; lia|]. unfold consumed, advance, rest. cbn. rewrite Hl.
  replace (Z.to_nat (Z.of_nat (pos d) + n)) with (pos d + Z.to_nat n)%nat by lia.
  split; [|done]. rewrite <- drop_drop. by rewrite take_drop.
Qed.

Lemma reads_take bs n : len bs = n -> reads (Decoder_take n) bs bs.
Proof.
  intros <- d post [Hp Hf] Hr. unfold Decoder_take.
  assert (Hle : (pos d + length bs <= length (input d))%nat).
  { apply (f_equal length) in Hr. rewrite rest_length, length_app in Hr. lia. }
  unfold ISIZE_MAX, len in *.
  destruct (checked_add _ _ _) as [stop|] eqn:E.
  2:{ apply checked_add_None in E. lia. }
  apply checked_add_Some in E as [-> _].
  destruct (Z.ltb_spec (Z.of_nat (length (input d)))
    (Z.of_nat (pos d) + Z.of_nat (length bs))); [lia|].
  replace (Z.to_nat (Z.of_nat (pos d) + Z.of_nat (length bs)) - pos d)%nat
    with (length bs) by lia.
  unfold rest in Hr. rewrite Hr, take_app_length. unfold advance.
  do 3 f_equal. lia.
Qed.

Lemma reads_ret {A} (v : A) : reads (dret v) [] v.
Proof. intros d post _ _. cbn [length]. by rewrite advance_0. Qed.

Lemma reads_bind {A B} (m : Dec A) (k : A -> Dec B) b1 b2 v w :
  reads m b1 v -> reads (k v) b2 w -> reads (dbind m k) (b1 ++ b2) w.
Proof.
  intros Hm Hk d post Hf Hr. rewrite <- app_assoc in Hr. unfold dbind.
  rewrite (Hm d _ Hf Hr). destruct (fits_advance _ _ _ Hf Hr) as [Hf' Hr'].
  rewrite (Hk _ _ Hf' Hr'), advance_advance, length_app. done.
Qed.

Lemma reads_map {A B} (m : Dec A) (k : A -> Dec B) b v w :
  reads m b v -> reads (k v) [] w -> reads (dbind m k) b w.
Proof. intros Hm Hk. rewrite <- (app_nil_r b). by eapply reads_bind. Qed.

Lemma reads_bytes_eq {A} (m : Dec A) b b' v : reads m b v -> b = b' -> reads m b' v.
Proof. by intros ? <-. Qed.

Lemma reads_int n (m : Dec Z) v :
  m = dbind (Decoder_take (Z.of_nat n)) (fun bytes => dret (from_le bytes)) ->
  in_width (8 * Z.of_nat n) v -> reads m (to_le n v) v.
Proof.
  intros -> Hv%in_width_bytes. eapply reads_map.
  - apply reads_take. unfold len. by rewrite length_to_le.
  - rewrite from_to_le by done. apply reads_ret.
Qed.

Lemma reads_get_u8 v : in_width 8 v -> reads get_u8 [byte_of v] v.
Proof. by apply (reads_int 1). Qed.

Lemma reads_get_u16 v : in_width 16 v -> reads get_u16 (to_le 2 v) v.
Proof. by apply (reads_int 2). Qed.

Lemma reads_get_u32 v : in_width 32 v -> reads get_u32 (to_le 4 v) v.
Proof. by apply (reads_int 4). Qed.

Lemma reads_get_u64 v : in_width 64 v -> reads get_u64 (to_le 8 v) v.
Proof. by apply (reads_int 8). Qed.

Lemma reads_get_u128 v : in_width 128 v -> reads get_u128 (to_le 16 v) v.
Proof. by apply (reads_int 16). Qed.

Lemma reads_get_bytes bs : in_width 64 (len bs) -> reads get_bytes (bytes_image bs) bs.
Proof.
  intros Hb. eapply reads_bind; [by apply reads_get_u64|]. intros d post [Hp Hl] Hr. cbn beta.
  assert (Hrem : len bs <= remaining d).
  { apply (f_equal length) in Hr. rewrite rest_length, length_app in Hr.
    unfold len, remaining, len. lia. }
  rewrite wrap_id.
  - destruct (Z.ltb_spec (remaining d) (len bs)); [lia|].
    by apply (reads_take bs (len bs) eq_refl) with post.
  - unfold remaining, ISIZE_MAX, len, in_width in *. lia.
Qed.

#[export] Hint Resolve reads_ret reads_get_u8 reads_get_u16 reads_get_u32 reads_get_u64
  reads_get_u128 reads_get_bytes : codec.
#[export] Hint Extern 1 (reads (decode _) _ _) => (apply decode_encode) : codec.

Lemma reads_decode_n {A} (m : Dec A) (image : A -> list byte) xs :
  Forall (fun x => reads m (image x) x) xs ->
  reads (decode_n m (length xs)) (concat (map image xs)) xs.
Proof.
  induction 1 as [|x xs Hx _ IH]; simpl.
  - apply reads_ret.
  - eapply reads_bind; [done|]. eapply reads_map; [done|]. apply reads_ret.
Qed.

#[export] Hint Extern 2 (valid _ _) => (cbn; done) : codec.
#[export] Hint Extern 2 (in_width _ _) => (cbn; done) : codec.

(** A string is read as one value only. *)
Lemma reads_inj {A} (m : Dec A) bs v w : len bs <= ISIZE_MAX -> reads m bs v -> reads m bs w -> v = w.
Proof.
  intros Hl Hv Hw.
  assert (Hf : fits (Decoder_new bs)) by (split; [cbn; lia|done]).
  assert (Hr : rest (Decoder_new bs) = bs ++ []) by (unfold rest; cbn; by rewrite app_nil_r).
  pose proof (Hv _ _ Hf Hr) as H1. rewrite (Hw _ _ Hf Hr) in H1. congruence.
Qed.

(** Walks down a decoder, reading one field after the other. *)
Ltac reads_step :=
  cbn beta iota; first
  [ apply reads_ret
  | eapply reads_bind; [ solve [eauto with codec] | ]
  | eapply reads_map; [ solve [eauto with codec] | ]
  | solve [eauto with codec] ].
Ltac reads_fields := repeat reads_step.

(** ** What was consumed *)

Lemma consumed_refl d : consumed d [] d.
Proof. split; [done|]. cbn [length]. by rewrite advance_0. Qed.

Lemma consumed_trans d b1 d1 b2 d2 :
  consumed d b1 d1 -> consumed d1 b2 d2 -> consumed d (b1 ++ b2) d2.
Proof.
  intros [H1 ->] [H2 ->]. split.
  - by rewrite H1, H2, app_assoc.
  - by rewrite advance_advance, length_app.
Qed.

Lemma dbind_Ok {A B} (m : Dec A) (k : A -> Dec B) d w d' :
  dbind m k d = Ok (w, d') -> exists v d1, m d = Ok (v, d1) /\ k v d1 = Ok (w, d').
Proof. unfold dbind. destruct (m d) as [[v d1]|]; naive_solver. Qed.

Lemma dret_Ok {A} (a b : A) d d' : dret a d = Ok (b, d') -> a = b /\ d = d'.
Proof. unfold dret. naive_solver. Qed.

Lemma get_int_Ok n (m : Dec Z) d v d' :
  m = dbind (Decoder_take (Z.of_nat n)) (fun bytes => dret (from_le bytes)) ->
  m d = Ok (v, d') -> in_width (8 * Z.of_nat n) v /\ consumed d (to_le n v) d'.
Proof.
  intros -> (bs & d1 & Ht & [<- <-]%dret_Ok)%dbind_Ok.
  apply Decoder_take_Ok in Ht as [Hl Hc]; [|lia]. unfold len in Hl.
  rewrite to_from_le_n by lia. split; [|done].
  apply in_width_bytes. pose proof (from_le_range bs). by replace n with (length bs) by lia.
Qed.

Lemma get_u8_Ok d v d' : get_u8 d = Ok (v, d') -> in_width 8 v /\ consumed d [byte_of v] d'.
Proof. by apply (get_int_Ok 1). Qed.

Lemma get_u16_Ok d v d' : get_u16 d = Ok (v, d') -> in_width 16 v /\ consumed d (to_le 2 v) d'.
Proof. by apply (get_int_Ok 2). Qed.

Lemma get_u32_Ok d v d' : get_u32 d = Ok (v, d') -> in_width 32 v /\ consumed d (to_le 4 v) d'.
Proof. by apply (get_int_Ok 4). Qed.

Lemma get_u64_Ok d v d' : get_u64 d = Ok (v, d') -> in_width 64 v /\ consumed d (to_le 8 v) d'.
Proof. by apply (get_int_Ok 8). Qed.

Lemma get_u128_Ok d v d' : get_u128 d = Ok (v, d') -> in_width 128 v /\ consumed d (to_le 16 v) d'.
Proof. by apply (get_int_Ok 16). Qed.

Lemma get_bytes_Ok d v d' :
  get_bytes d = Ok (v, d') -> in_width 64 (len v) /\ consumed d (bytes_image v) d'.
Proof.
  intros (n & d1 & [Hn H1]%get_u64_Ok & H2)%dbind_Ok.
  destruct (_ <? n); [done|].
  apply Decoder_take_Ok in H2 as [<- H2]; [|unfold in_width in Hn; lia].
  split; [done|]. by eapply consumed_trans.
Qed.

(** Inverts a successful decoder into the fields it read.  A component adds the
    inversion of its own readers with [dec_inv_hook]. *)
Ltac dec_inv_hook := fail.
Ltac dec_inv_step :=
  match goal with
  | H : dbind _ _ _ = Ok _ |- _ =>
      let x := fresh "x" in let d1 := fresh "d" in let H1 := fresh "Hd" in
      apply dbind_Ok in H as (x & d1 & H1 & H); cbn beta in H
  | H : dret _ _ = Ok _ |- _ => apply dret_Ok in H as [? ?]; subst
  | H : dfail _ _ = Ok _ |- _ => discriminate H
  | H : Err _ = Ok _ |- _ => discriminate H
  | H : get_u8 _ = Ok _ |- _ => apply get_u8_Ok in H as [? ?]
  | H : get_tag _ = Ok _ |- _ => apply get_u8_Ok in H as [? ?]
  | H : get_u16 _ = Ok _ |- _ => apply get_u16_Ok in H as [? ?]
  | H : get_u32 _ = Ok _ |- _ => apply get_u32_Ok in H as [? ?]
  | H : get_u64 _ = Ok _ |- _ => apply get_u64_Ok in H as [? ?]
  | H : get_u128 _ = Ok _ |- _ => apply get_u128_Ok in H as [? ?]
  | H : get_bytes _ = Ok _ |- _ => apply get_bytes_Ok in H as [? ?]
  | H : decode ?c _ = Ok _ |- _ => apply (@decode_canonical _ c _) in H as [? ?]
  | H : (if ?b then _ else _) _ = Ok _ |- _ =>
      let E := fresh "Eb" in destruct b eqn:E
  end.
Ltac dec_inv := repeat first [ dec_inv_step | dec_inv_hook ].

(** Chains the consumed fields of the context into the whole image. *)
Ltac consumed_chain :=
  repeat first [ apply consumed_refl | eassumption
               | eapply consumed_trans; [ eassumption | ] ].

Lemma consumed_eq d b b' d' : consumed d b d' -> b = b' -> consumed d b' d'.
Proof. by intros ? <-. Qed.

(** The three laws of a record codec whose definitions are unfolded in the goal:
    fields written and read one after the other. *)
Ltac codec_image :=
  unfold to_bytes, into_bytes; cbn [encode]; autorewrite with codec;
  rewrite <- ?app_assoc; rewrite ?app_nil_l.
Ltac codec_appends :=
  let v := fresh "v" in let e := fresh "e" in
  intros v e; codec_image; reflexivity.
Ltac codec_roundtrip :=
  let v := fresh "v" in let Hv := fresh "Hv" in
  intros v Hv; destruct v; cbn in Hv; destruct_and?;
  codec_image; cbn [decode]; reads_fields.
Ltac codec_canonical :=
  let d := fresh "d" in let v := fresh "v" in let d' := fresh "d'" in
  let H := fresh "H" in
  intros d v d' H; cbn [decode] in H; dec_inv;
  split; [ cbn in *; split_and?; done
         | codec_image; rewrite ?app_nil_r; consumed_chain ].

Lemma decode_n_consumed {A} (m : Dec A) (image : A -> list byte) (P : A -> Prop) :
  (forall d v d', m d = Ok (v, d') -> P v /\ consumed d (image v) d') ->
  forall n d xs d', decode_n m n d = Ok (xs, d') ->
  length xs = n /\ Forall P xs /\ consumed d (concat (map image xs)) d'.
Proof.
  intros Hm. induction n as [|n IH]; intros d xs d' H; cbn [decode_n] in H; dec_inv.
  - split; [done|]. split; [done|]. apply consumed_refl.
  - apply Hm in Hd as [HP Hc]. apply IH in Hd0 as (Hl & HPs & Hcs).
    split; [by simpl; f_equal|]. split; [by constructor|]. simpl. by eapply consumed_trans.
Qed.

(** *** Arrays of bytes, read and written one byte at a time *)

Lemma concat_singletons (vs : list Z) : concat (map (fun v => [byte_of v]) vs) = map byte_of vs.
Proof. induction vs as [|v vs IH]; cbn [map concat app]; congruence. Qed.

Lemma buf_put_array bs e : buf (foldl (fun e b => put_u8 (byte_val b) e) e bs) = buf e ++ bs.
Proof.
  revert e. induction bs as [|b bs IH]; intros e; cbn [foldl]; [by rewrite app_nil_r|].
  rewrite IH, buf_put_u8, byte_of_val, <- app_assoc. done.
Qed.

Lemma reads_array n bs :
  length bs = n -> reads (let* bytes := decode_n get_u8 n in dret (map byte_of bytes)) bs bs.
Proof.
  intros <-. eapply reads_map.
  - rewrite <- (length_map byte_val bs). eapply reads_bytes_eq.
    + apply (reads_decode_n get_u8 (fun v => [byte_of v])). apply Forall_forall. intros v Hv.
      apply list_elem_of_In, in_map_iff in Hv as (b & <- & _). apply reads_get_u8, byte_val_range.
    + by rewrite concat_singletons, map_byte_of_val.
  - rewrite map_byte_of_val. apply reads_ret.
Qed.

Lemma array_Ok n d bs d' :
  (let* bytes := decode_n get_u8 n in dret (map byte_of bytes)) d = Ok (bs, d') ->
  length bs = n /\ consumed d bs d'.
Proof.
  intros (vs & d1 & H & [<- <-]%dret_Ok)%dbind_Ok.
  apply (decode_n_consumed get_u8 (fun v => [byte_of v]) (in_width 8) get_u8_Ok) in H as (Hl & _ & Hc).
  split; [by rewrite length_map|]. by rewrite <- concat_singletons.
Qed.

(** ** The instances of the codec crate *)

#[export] Instance u8_appends : Appends u8_codec. Proof. done. Qed.
#[export] Instance u16_appends : Appends u16_codec. Proof. done. Qed.
#[export] Instance u32_appends : Appends u32_codec. Proof. done. Qed.
#[export] Instance u64_appends : Appends u64_codec. Proof. done. Qed.
#[export] Instance u128_appends : Appends u128_codec. Proof. done. Qed.

#[export] Instance u8_roundtrip : RoundTrip u8_codec. Proof. exact reads_get_u8. Qed.
#[export] Instance u16_roundtrip : RoundTrip u16_codec. Proof. exact reads_get_u16. Qed.
#[export] Instance u32_roundtrip : RoundTrip u32_codec. Proof. exact reads_get_u32. Qed.
#[export] Instance u64_roundtrip : RoundTrip u64_codec. Proof. exact reads_get_u64. Qed.
#[export] Instance u128_roundtrip : RoundTrip u128_codec. Proof. exact reads_get_u128. Qed.

#[export] Instance u8_canonical : Canonical u8_codec. Proof. exact get_u8_Ok. Qed.
#[export] Instance u16_canonical : Canonical u16_codec. Proof. exact get_u16_Ok. Qed.
#[export] Instance u32_canonical : Canonical u32_codec. Proof. exact get_u32_Ok. Qed.
#[export] Instance u64_canonical : Canonical u64_codec. Proof. exact get_u64_Ok. Qed.
#[export] Instance u128_canonical : Canonical u128_codec. Proof. exact get_u128_Ok. Qed.

Lemma to_bytes_vec bs : to_bytes vec_u8_codec bs = bytes_image bs.
Proof. done. Qed.

#[export] Instance vec_u8_appends : Appends vec_u8_codec.
Proof. intros v e. apply buf_put_bytes. Qed.
#[export] Instance vec_u8_roundtrip : RoundTrip vec_u8_codec.
Proof. exact reads_get_bytes. Qed.
#[export] Instance vec_u8_canonical : Canonical vec_u8_codec.
Proof. exact get_bytes_Ok. Qed.

Section option_laws.
Context {A : Type} (c : Codec A) `{!Appends c}.

Lemma to_bytes_Some v : to_bytes (option_codec c) (Some v) = byte_of 1 :: to_bytes c v.
Proof. unfold option_codec, option_encode. by codec_image. Qed.

#[export] Instance option_appends : Appends (option_codec c).
Proof.
  intros [v|] e; [|done]. rewrite to_bytes_Some. cbn [encode option_codec option_encode].
  autorewrite with codec. by rewrite <- app_assoc.
Qed.

#[export] Instance option_roundtrip : RoundTrip c -> RoundTrip (option_codec c).
Proof.
  intros Hrt [v|] Hv; cbn [decode option_codec].
  - rewrite to_bytes_Some.
    apply (reads_bind _ _ [byte_of 1] _ 1); [by apply reads_get_u8|]. cbn.
    eapply reads_map; [by apply Hrt|]. apply reads_ret.
  - apply (reads_map _ _ _ 0); [by apply reads_get_u8|]. apply reads_ret.
Qed.

#[export] Instance option_canonical : Canonical c -> Canonical (option_codec c).
Proof.
  intros Hc d v d' H. cbn [decode option_codec option_decode] in H.
  unfold option_decode in H. dec_inv; bool_to_prop; subst.
  - split; [done|]. consumed_chain.
  - split; [done|]. rewrite to_bytes_Some. change (byte_of 1 :: ?l) with ([byte_of 1] ++ l).
    consumed_chain.
Qed.
End option_laws.

(** ** Whole messages *)

Lemma from_bytes_encoded {A} (c : Codec A) `{!RoundTrip c} v :
  valid c v -> len (to_bytes c v) <= ISIZE_MAX -> from_bytes c (to_bytes c v) = Ok v.
Proof.
  intros Hv Hl. unfold from_bytes.
  rewrite (decode_encode (c := c) v Hv (Decoder_new (to_bytes c v)) []).
  - unfold finish. cbn. by rewrite Nat.eqb_refl.
  - split; [cbn; lia|done].
  - unfold rest. cbn. by rewrite app_nil_r.
Qed.

(** A successful [from_bytes] left the decoder at the end of its input. *)
Lemma from_bytes_decoded {A} (c : Codec A) bs v :
  from_bytes c bs = Ok v ->
  exists d, decode c (Decoder_new bs) = Ok (v, d) /\
    forall image, consumed (Decoder_new bs) image d -> image = bs.
Proof.
  unfold from_bytes. destruct (decode c (Decoder_new bs)) as [[w d]|] eqn:E; [|done].
  unfold finish, rbind. destruct (_ =? _)%nat eqn:Ef; [|done]. intros [= ->]. bool_to_prop.
  exists d. split; [done|]. intros image [Hr ->]. rewrite rest_advance in Hr.
  change (rest (Decoder_new bs)) with bs in Hr. cbn in Ef.
  by rewrite Ef, drop_all, app_nil_r in Hr.
Qed.

Lemma from_bytes_canonical {A} (c : Codec A) `{!Canonical c} bs v :
  from_bytes c bs = Ok v -> valid c v /\ to_bytes c v = bs.
Proof.
  intros (d & E & Hd)%from_bytes_decoded.
  apply (decode_canonical (c := c)) in E as [Hv Hc]. auto.
Qed.

(** The two directions together: on inputs a slice can hold, a byte string
    decodes to [v] exactly when it is the encoding of the valid value [v]. *)
Lemma from_bytes_iff {A} (c : Codec A) `{!RoundTrip c} `{!Canonical c} bs v :
  len bs <= ISIZE_MAX ->
  (from_bytes c bs = Ok v <-> valid c v /\ to_bytes c v = bs).
Proof.
  intros Hl. split; [apply from_bytes_canonical, _|]. intros [Hv <-].
  by apply from_bytes_encoded.
Qed.

(** No encoding is a proper prefix of another: two values whose encodings start
    the same input are the same value. *)
Lemma encoding_prefix_free {A} (c : Codec A) `{!RoundTrip c} v w p q :
  valid c v -> valid c w -> len (to_bytes c v ++ p) <= ISIZE_MAX ->
  to_bytes c v ++ p = to_bytes c w ++ q -> v = w /\ p = q.
Proof.
  intros Hv Hw Hl E. set (d := Decoder_new (to_bytes c v ++ p)).
  assert (Hf : fits d) by (split; [cbn; lia|done]).
  pose proof (decode_encode (c := c) v Hv d p Hf eq_refl) as H1.
  assert (Hr2 : rest d = to_bytes c w ++ q) by exact E.
  pose proof (decode_encode (c := c) w Hw d q Hf Hr2) as H2.
  rewrite H1 in H2. injection H2 as -> _. split; [done|]. by apply app_inv_head in E.
Qed.

(** ** Properties *)

(** [Decoder::get_bytes] on every branch.  A length prefix that does not fit
    is [Truncated], a declared length past the remaining bytes is
    [LengthOverrun] and reports both numbers, and otherwise exactly the declared
    bytes are returned with the cursor behind them. *)
Theorem get_bytes_branches (d : Decoder) :
  fits d ->
  let n := from_le (take 8 (rest d)) in
  get_bytes d =
    if remaining d <? 8 then Err (Truncated 8 (remaining d))
    else if remaining d - 8 <? n then Err (LengthOverrun n (remaining d - 8))
    else Ok (take (Z.to_nat n) (drop 8 (rest d)), advance (8 + Z.to_nat n) d).
Proof.
  intros [Hp Hl] n. destruct (Z.ltb_spec (remaining d) 8) as [Hs|Hs].
  - unfold get_bytes, get_u64, dbind, Decoder_take.
    unfold remaining, ISIZE_MAX, len in *. rewrite (proj2 (checked_add_Some _ _ _ _))
      by (split; [reflexivity|lia]).
    destruct (Z.ltb_spec (Z.of_nat (length (input d))) (Z.of_nat (pos d) + 8)); [done|lia].
  - assert (H8 : length (take 8 (rest d)) = 8%nat).
    { rewrite length_take, rest_length. unfold remaining, len in Hs. lia. }
    assert (Hr : rest d = to_le 8 n ++ drop 8 (rest d)).
    { unfold n. rewrite to_from_le_n by done. by rewrite take_drop. }
    assert (Hn : in_width 64 n).
    { apply (in_width_bytes 8). unfold n.
      pose proof (from_le_range (take 8 (rest d))) as Hf. by rewrite H8 in Hf. }
    unfold get_bytes, dbind.
    rewrite (reads_get_u64 n Hn d _ (conj Hp Hl) Hr). rewrite length_to_le.
    assert (Hrem : remaining (advance 8 d) = remaining d - 8).
    { unfold remaining, advance. cbn. lia. }
    rewrite Hrem, wrap_id by (unfold remaining, ISIZE_MAX, len, in_width in *; lia).
    destruct (Z.ltb_spec (remaining d - 8) n) as [|Hfit]; [done|].
    set (bs := take (Z.to_nat n) (drop 8 (rest d))).
    assert (Hbl : length bs = Z.to_nat n).
    { unfold bs. rewrite length_take, length_drop, rest_length.
      unfold remaining, len, in_width in *. lia. }
    assert (Hlen : len bs = n) by (unfold len, in_width in *; lia).
    destruct (fits_advance d (to_le 8 n) (drop 8 (rest d)) (conj Hp Hl) Hr) as [Hf' Hr'].
    rewrite length_to_le in Hf', Hr'.
    rewrite (reads_take bs n Hlen (advance 8 d) (drop (Z.to_nat n) (drop 8 (rest d))) Hf').
    + by rewrite advance_advance, Hbl.
    + rewrite Hr'. unfold bs. by rewrite take_drop.
Qed.

Lemma get_bytes_branches_witness :
  let d := Decoder_new (to_le 8 2 ++ [x61; x62; x63]) in
  get_bytes d = Ok ([x61; x62], advance 10 d).
Proof.
  intros d. rewrite (get_bytes_branches d).
  - vm_compute. reflexivity.
  - split; vm_compute; [lia|discriminate].
Defined.

(** The codec is canonical on optional byte strings, the shape of a state
    proof's value: on any slice, decoding succeeds with [v] exactly when the
    slice is the one encoding of the valid value [v]. *)
Theorem option_bytes_canonical (bs : list byte) (v : option (list byte)) :
  len bs <= ISIZE_MAX ->
  from_bytes (option_codec vec_u8_codec) bs = Ok v <->
  valid (option_codec vec_u8_codec) v /\ to_bytes (option_codec vec_u8_codec) v = bs.
Proof. apply from_bytes_iff; apply _. Qed.

Lemma option_bytes_canonical_witness :
  from_bytes (option_codec vec_u8_codec) (to_bytes (option_codec vec_u8_codec) (Some [x01]))
  = Ok (Some [x01]).
Proof.
  apply (option_bytes_canonical _ (Some [x01])).
  - vm_compute. discriminate.
  - split; [|reflexivity]. vm_compute. split; [discriminate|reflexivity].
Defined.

(** [from_bytes] refuses every input that carries bytes after the last
    field, for every codec that reads back what it wrote, and reports how many. *)
Theorem trailing_bytes_refused {A} (c : Codec A) (v : A) (extra : list byte) :
  RoundTrip c -> valid c v -> extra <> [] ->
  len (to_bytes c v ++ extra) <= ISIZE_MAX ->
  from_bytes c (to_bytes c v ++ extra) = Err (TrailingBytes (len extra)).
Proof.
  intros Hrt Hv Hx Hl. unfold from_bytes.
  rewrite (decode_encode (c := c) v Hv (Decoder_new (to_bytes c v ++ extra)) extra).
  - unfold finish, advance, Decoder_new. cbn [pos input]. rewrite length_app.
    destruct extra as [|x extra]; [done|]. cbn [length].
    destruct (Nat.eqb_spec (0 + length (to_bytes c v)) (length (to_bytes c v) + S (length extra)));
      [lia|]. cbn [rbind]. f_equal. f_equal. unfold remaining. cbn [input pos].
    rewrite len_app. unfold len. cbn [length]. lia.
  - split; [cbn; lia|done].
  - done.
Qed.

Lemma trailing_bytes_refused_witness :
  from_bytes u64_codec (to_bytes u64_codec 7 ++ [x00]) = Err (TrailingBytes 1).
Proof.
  apply (trailing_bytes_refused u64_codec 7 [x00]).
  - apply _.
  - split; [discriminate|reflexivity].
  - discriminate.
  - vm_compute. discriminate.
Defined.
