(* ===== verification/Staking.v ===== *)
(** * Staking (crates/qtv-staking)

    The emission and reward arithmetic, the [Bond] of a validator with its
    epoch-delayed weight, the session meter, the codecs of the stored records
    and [StakeLedger], the crate's in-memory book of bonds.  Identities are 32
    byte strings; a method on [&mut self] returns the changed record next to its
    result. *)

From S2P Require Import Prelude Codec.

Definition NATIVE_UNIT : Z := 1000000.
Definition MIN_STAKE : Z := 2000 * NATIVE_UNIT.
Definition STAKING_POOL : Z := 685714 * NATIVE_UNIT.
Definition EMISSION_K : Z := 25000.
Definition MAX_SESSION_EMISSION_BPS : Z := 500.
Definition REWARD_VEST_DAYS : Z := 365.
Definition HIGH_SESSION_TX : Z := 50000000000.
Definition SESSION_DAYS : Z := 182.
Definition MAINNET_BLACKOUT_DAYS : Z := 365.
Definition BOND_LOCK_DAYS : Z := 90.
Definition UNBONDING_DAYS : Z := 21.
Definition EARLIEST_EXIT_DAYS : Z := BOND_LOCK_DAYS + UNBONDING_DAYS.
Definition BPS_DENOM : Z := 10000.
Definition SLASH_ATTRIBUTABLE_BPS : Z := 10000.
Definition REWARD_ANCHOR_USD_PER_QTOV : Z := 3000.
Definition REWARD_BLOCKS_TIER_TOP : Z := 250000000.
Definition REWARD_BLOCKS_TIER_HIGH : Z := 200000000.
Definition REWARD_BLOCKS_TIER_MID : Z := 150000000.
Definition REWARD_USD_TIER_TOP : Z := 100000.
Definition REWARD_USD_TIER_HIGH : Z := 80000.
Definition REWARD_USD_TIER_MID : Z := 50000.
Definition REWARD_USD_TIER_LOW_CAP : Z := 30000.
Definition REWARD_PERIOD_BLOCKS : Z := REWARD_BLOCKS_TIER_TOP.

(** ** Rewards *)

Definition reward_usd_to_quon (usd : Z) : Z :=
  wrap 64 (usd * NATIVE_UNIT / REWARD_ANCHOR_USD_PER_QTOV).

Definition validator_reward (blocks_completed : Z) : Z :=
  let usd :=
    if REWARD_BLOCKS_TIER_TOP <=? blocks_completed then REWARD_USD_TIER_TOP
    else if REWARD_BLOCKS_TIER_HIGH <=? blocks_completed then REWARD_USD_TIER_HIGH
    else if REWARD_BLOCKS_TIER_MID <=? blocks_completed then REWARD_USD_TIER_MID
    else
      let ramp := blocks_completed * REWARD_USD_TIER_LOW_CAP / REWARD_BLOCKS_TIER_MID in
      Z.min (wrap 64 ramp) REWARD_USD_TIER_LOW_CAP in
  reward_usd_to_quon usd.

Inductive Session : Type := Low | High.

Definition Session_classify (transactions : Z) : Session :=
  if HIGH_SESSION_TX <=? transactions then High else Low.

Definition eligible (stake : Z) : bool := MIN_STAKE <=? stake.

Definition session_emission (total_staked total_supply : Z) : Z :=
  let staked := Z.min total_staked total_supply in
  let raw := saturating_mul 64 EMISSION_K (wrap 64 (Z.sqrt staked)) in
  let bound := wrap 64 (total_supply * MAX_SESSION_EMISSION_BPS / BPS_DENOM) in
  Z.min raw bound.

Definition session_reward (stake total_staked total_supply : Z) : Z :=
  if total_staked =? 0 then 0
  else wrap 64 (session_emission total_staked total_supply * stake / total_staked).

Definition in_blackout (now_day mainnet_start_day : Z) : bool :=
  saturating_sub now_day mainnet_start_day <? MAINNET_BLACKOUT_DAYS.

Definition released (earned age_days : Z) : Z :=
  if age_days <? REWARD_VEST_DAYS then 0 else earned.

Inductive Fault : Type := Attributable.

Definition slash (bond : Z) (fault : Fault) : Z :=
  let bps := match fault with Attributable => SLASH_ATTRIBUTABLE_BPS end in
  wrap 64 (bond * bps / BPS_DENOM).

(** ** Bonds *)

Record Bond : Type := mkBond {
  amount : Z;
  bonded_at_day : Z;
  exit_requested_at : option Z;
  active_amount : Z;
  raised_at_height : Z
}.

#[global] Instance Bond_eq_decision : EqDecision Bond.
Proof. solve_decision. Defined.

Definition Bond_new (amt day : Z) : option Bond :=
  if eligible amt then Some (mkBond amt day None amt 0) else None.

Definition amount_in_epoch (b : Bond) (epoch heights_per_epoch : Z) : Z :=
  if heights_per_epoch =? 0 then amount b
  else if raised_at_height b / heights_per_epoch <? epoch then amount b
  else Z.min (active_amount b) (amount b).

Definition weight_in_epoch (b : Bond) (epoch heights_per_epoch : Z) : Z :=
  match exit_requested_at b with
  | None => amount_in_epoch b epoch heights_per_epoch
  | Some _ =>
      if (heights_per_epoch =? 0) || (raised_at_height b / heights_per_epoch <? epoch)
      then 0
      else Z.min (active_amount b) (amount b)
  end.

Definition can_request_exit (b : Bond) (now_day : Z) : bool :=
  BOND_LOCK_DAYS <=? saturating_sub now_day (bonded_at_day b).

(** [height.checked_div(heights_per_epoch).unwrap_or(0)]. *)
Definition epoch_of (height heights_per_epoch : Z) : Z :=
  default 0 (checked_div height heights_per_epoch).

Definition request_exit_at (b : Bond) (now_day height heights_per_epoch : Z) : bool * Bond :=
  if bool_decide (is_Some (exit_requested_at b)) || negb (can_request_exit b now_day)
  then (false, b)
  else
    let epoch := epoch_of height heights_per_epoch in
    (true, mkBond (amount b) (bonded_at_day b) (Some now_day)
             (amount_in_epoch b epoch heights_per_epoch) height).

Definition rejoin (b : Bond) (height heights_per_epoch : Z) : Bond :=
  match exit_requested_at b with
  | None => b
  | Some _ =>
      let epoch := epoch_of height heights_per_epoch in
      mkBond (amount b) (bonded_at_day b) None
        (weight_in_epoch b epoch heights_per_epoch) height
  end.

Definition raise_to (b : Bond) (total height heights_per_epoch : Z) : Bond :=
  let epoch := epoch_of height heights_per_epoch in
  mkBond total (bonded_at_day b) (exit_requested_at b)
    (amount_in_epoch b epoch heights_per_epoch) height.

Definition request_exit (b : Bond) (now_day : Z) : bool * Bond :=
  if bool_decide (exit_requested_at b = None) && can_request_exit b now_day
  then (true, mkBond (amount b) (bonded_at_day b) (Some now_day)
                (active_amount b) (raised_at_height b))
  else (false, b).

(** [day + UNBONDING_DAYS] is checked addition on [u64]. *)
Definition can_withdraw (b : Bond) (now_day : Z) : outcome bool :=
  match exit_requested_at b with
  | Some day => obind (panicking_add 64 day UNBONDING_DAYS) (fun open => Done (open <=? now_day))
  | None => Done false
  end.

Definition earliest_exit_day (b : Bond) : outcome Z :=
  panicking_add 64 (bonded_at_day b) EARLIEST_EXIT_DAYS.

Definition slashable_until (exit_requested_day : Z) : outcome Z :=
  panicking_add 64 exit_requested_day UNBONDING_DAYS.

Definition Bond_encode (b : Bond) (e : Encoder) : Encoder :=
  e |> encode u64_codec (amount b)
    |> encode u64_codec (bonded_at_day b)
    |> encode (option_codec u64_codec) (exit_requested_at b)
    |> encode u64_codec (active_amount b)
    |> encode u64_codec (raised_at_height b).

Definition Bond_decode : Dec Bond :=
  let* a := decode u64_codec in
  let* day := decode u64_codec in
  let* exit := decode (option_codec u64_codec) in
  let* active := decode u64_codec in
  let* raised := decode u64_codec in
  dret (mkBond a day exit active raised).

Definition Bond_valid (b : Bond) : Prop :=
  u64 (amount b) /\ u64 (bonded_at_day b) /\
  valid (option_codec u64_codec) (exit_requested_at b) /\
  u64 (active_amount b) /\ u64 (raised_at_height b).

Definition Bond_codec : Codec Bond := mkCodec Bond Bond_encode Bond_decode Bond_valid.

(** ** Reward tranches *)

Record RewardTranche : Type := mkTranche {
  earned_day : Z;
  tranche_amount : Z;
  claimed : Z
}.

Definition RewardTranche_encode (t : RewardTranche) (e : Encoder) : Encoder :=
  e |> encode u64_codec (earned_day t)
    |> encode u64_codec (tranche_amount t)
    |> encode u64_codec (claimed t).

Definition RewardTranche_decode : Dec RewardTranche :=
  let* day := decode u64_codec in
  let* a := decode u64_codec in
  let* c := decode u64_codec in
  dret (mkTranche day a c).

Definition RewardTranche_valid (t : RewardTranche) : Prop :=
  u64 (earned_day t) /\ u64 (tranche_amount t) /\ u64 (claimed t).

Definition RewardTranche_codec : Codec RewardTranche :=
  mkCodec RewardTranche RewardTranche_encode RewardTranche_decode RewardTranche_valid.

(** ** The session meter *)

Record SessionMeter : Type := mkMeter { window_start_day : Z; count : Z }.

Definition SessionMeter_new (start_day : Z) : SessionMeter := mkMeter start_day 0.

Definition SessionMeter_record (m : SessionMeter) (transactions : Z) : SessionMeter :=
  mkMeter (window_start_day m) (saturating_add 64 (count m) transactions).

Definition window_closed (m : SessionMeter) (now_day : Z) : bool :=
  SESSION_DAYS <=? saturating_sub now_day (window_start_day m).

Definition SessionMeter_close (m : SessionMeter) (now_day : Z) : option Session * SessionMeter :=
  if window_closed m now_day
  then (Some (Session_classify (count m)), mkMeter now_day 0)
  else (None, m).

Definition SessionMeter_encode (m : SessionMeter) (e : Encoder) : Encoder :=
  e |> encode u64_codec (window_start_day m) |> encode u64_codec (count m).

Definition SessionMeter_decode : Dec SessionMeter :=
  let* day := decode u64_codec in
  let* c := decode u64_codec in
  dret (mkMeter day c).

Definition SessionMeter_codec : Codec SessionMeter :=
  mkCodec SessionMeter SessionMeter_encode SessionMeter_decode
    (fun m => u64 (window_start_day m) /\ u64 (count m)).

(** ** The book of bonds *)

Abbreviation Id := (list byte).

Record StakeLedger : Type := mkStakeLedger {
  bonds : gmap Id Bond;
  banned : gset Id;
  rewards : gmap Id (list RewardTranche);
  pool : Z;
  treasury : Z;
  minted : Z
}.

Definition StakeLedger_new (p : Z) : StakeLedger := mkStakeLedger ∅ ∅ ∅ p 0 0.

Definition with_bonds (l : StakeLedger) (m : gmap Id Bond) : StakeLedger :=
  mkStakeLedger m (banned l) (rewards l) (pool l) (treasury l) (minted l).

Definition bond_of (l : StakeLedger) (id : Id) : option Bond := bonds l !! id.
Definition is_banned (l : StakeLedger) (id : Id) : bool := bool_decide (id ∈ banned l).

Definition StakeLedger_total_staked (l : StakeLedger) : Z :=
  map_fold (fun _ b acc => saturating_add 64 acc (amount b)) 0 (bonds l).

Definition StakeLedger_bond (l : StakeLedger) (id : Id) (amt day : Z) : bool * StakeLedger :=
  if is_banned l id then (false, l)
  else match bonds l !! id with
  | Some existing =>
      match checked_add 64 (amount existing) amt with
      | Some total =>
          (true, with_bonds l (<[id := mkBond total (bonded_at_day existing)
             (exit_requested_at existing) (active_amount existing)
             (raised_at_height existing)]> (bonds l)))
      | None => (false, l)
      end
  | None =>
      match Bond_new amt day with
      | Some b => (true, with_bonds l (<[id := b]> (bonds l)))
      | None => (false, l)
      end
  end.

Definition StakeLedger_accrue (l : StakeLedger) (id : Id) (now_day mainnet_start_day : Z)
  : Z * StakeLedger :=
  if in_blackout now_day mainnet_start_day then (0, l)
  else
    let total := StakeLedger_total_staked l in
    match bonds l !! id with
    | None => (0, l)
    | Some b =>
        let stake := amount b in
        let supply := saturating_add 64 (saturating_add 64 (pool l) (minted l)) total in
        let paid := session_reward stake total supply in
        let from_pool := Z.min paid (pool l) in
        let book := default [] (rewards l !! id) in
        (paid,
         mkStakeLedger (bonds l) (banned l)
           (if 0 <? paid then <[id := book ++ [mkTranche now_day paid 0]]> (rewards l)
            else rewards l)
           (pool l - from_pool) (treasury l)
           (saturating_add 64 (minted l) (paid - from_pool)))
    end.

Definition unlocked (t : RewardTranche) (now_day : Z) : Z :=
  released (tranche_amount t) (saturating_sub now_day (earned_day t)).

Definition claimable (l : StakeLedger) (id : Id) (now_day : Z) : Z :=
  match rewards l !! id with
  | None => 0
  | Some tranches =>
      foldl (saturating_add 64) 0
        (map (fun t => saturating_sub (unlocked t now_day) (claimed t)) tranches)
  end.

Fixpoint claim_tranches (tranches : list RewardTranche) (now_day total : Z)
  : Z * list RewardTranche :=
  match tranches with
  | [] => (total, [])
  | t :: ts =>
      let u := unlocked t now_day in
      let '(sum, ts') :=
        claim_tranches ts now_day (saturating_add 64 total (saturating_sub u (claimed t))) in
      (sum, mkTranche (earned_day t) (tranche_amount t) u :: ts')
  end.

Definition StakeLedger_claim (l : StakeLedger) (id : Id) (now_day : Z) : Z * StakeLedger :=
  match rewards l !! id with
  | None => (0, l)
  | Some tranches =>
      let '(total, tranches') := claim_tranches tranches now_day 0 in
      (total, mkStakeLedger (bonds l) (banned l) (<[id := tranches']> (rewards l))
                (pool l) (treasury l) (minted l))
  end.

Definition StakeLedger_slash (l : StakeLedger) (id : Id) (fault : Fault) : Z * StakeLedger :=
  match bonds l !! id with
  | None => (0, l)
  | Some b =>
      let taken := slash (amount b) fault in
      (taken, mkStakeLedger (delete id (bonds l)) ({[id]} ∪ banned l) (rewards l)
                (pool l) (saturating_add 64 (treasury l) taken) (minted l))
  end.

Definition bond_from_balance (l : StakeLedger) (id : Id) (balance amt day : Z)
  : option Z * StakeLedger :=
  if balance <? amt then (None, l)
  else match StakeLedger_bond l id amt day with
  | (true, l') => (Some (balance - amt), l')
  | (false, l') => (None, l')
  end.

Definition StakeLedger_request_exit (l : StakeLedger) (id : Id) (now_day : Z)
  : bool * StakeLedger :=
  match bonds l !! id with
  | Some b =>
      let '(ok, b') := request_exit b now_day in
      (ok, with_bonds l (<[id := b']> (bonds l)))
  | None => (false, l)
  end.

Definition withdraw_to_balance (l : StakeLedger) (id : Id) (balance now_day : Z)
  : outcome (option Z * StakeLedger) :=
  match bonds l !! id with
  | None => Done (None, l)
  | Some b =>
      obind (can_withdraw b now_day) (fun ok =>
        if ok then
          match checked_add 64 balance (amount b) with
          | None => Done (None, l)
          | Some credited => Done (Some credited, with_bonds l (delete id (bonds l)))
          end
        else Done (None, l))
  end.

(** ** Codecs *)

#[export] Instance Bond_appends : Appends Bond_codec.
Proof. unfold Bond_codec, Bond_encode. codec_appends. Qed.
#[export] Instance Bond_roundtrip : RoundTrip Bond_codec.
Proof. unfold Bond_codec, Bond_encode, Bond_decode, Bond_valid. codec_roundtrip. Qed.
#[export] Instance Bond_canonical : Canonical Bond_codec.
Proof. unfold Bond_codec, Bond_encode, Bond_decode, Bond_valid. codec_canonical. Qed.

#[export] Instance RewardTranche_appends : Appends RewardTranche_codec.
Proof. unfold RewardTranche_codec, RewardTranche_encode. codec_appends. Qed.
#[export] Instance RewardTranche_roundtrip : RoundTrip RewardTranche_codec.
Proof.
  unfold RewardTranche_codec, RewardTranche_encode, RewardTranche_decode, RewardTranche_valid.
  codec_roundtrip.
Qed.
#[export] Instance RewardTranche_canonical : Canonical RewardTranche_codec.
Proof.
  unfold RewardTranche_codec, RewardTranche_encode, RewardTranche_decode, RewardTranche_valid.
  codec_canonical.
Qed.

#[export] Instance SessionMeter_appends : Appends SessionMeter_codec.
Proof. unfold SessionMeter_codec, SessionMeter_encode. codec_appends. Qed.
#[export] Instance SessionMeter_roundtrip : RoundTrip SessionMeter_codec.
Proof. unfold SessionMeter_codec, SessionMeter_encode, SessionMeter_decode. codec_roundtrip. Qed.
#[export] Instance SessionMeter_canonical : Canonical SessionMeter_codec.
Proof. unfold SessionMeter_codec, SessionMeter_encode, SessionMeter_decode. codec_canonical. Qed.

(** ** Bonds and their weight *)

Definition bond_sum (m : gmap Id Bond) : Z := map_sum amount m.

Lemma amount_in_epoch_le b e hpe : amount_in_epoch b e hpe <= amount b.
Proof. unfold amount_in_epoch. repeat case_step; lia. Qed.

Lemma weight_in_epoch_le b e hpe : 0 <= amount b -> weight_in_epoch b e hpe <= amount b.
Proof.
  intros Hb. unfold weight_in_epoch, amount_in_epoch. repeat case_step; lia.
Qed.

Lemma epoch_of_div h hpe : 0 < hpe -> epoch_of h hpe = h / hpe.
Proof. intros Hh. unfold epoch_of, checked_div. destruct (Z.eqb_spec hpe 0); [lia|done]. Qed.

Section weight.
Context (hpe h : Z) (Hhpe : 0 < hpe).
#[local] Abbreviation e := (epoch_of h hpe).

(** A record stamped at [h] still counts its carried amount in [h]'s epoch. *)
Lemma weight_stamped b : raised_at_height b = h ->
  weight_in_epoch b e hpe = Z.min (active_amount b) (amount b).
Proof.
  intros Hr. rewrite epoch_of_div by done. unfold weight_in_epoch, amount_in_epoch.
  rewrite Hr. destruct (Z.eqb_spec hpe 0); [lia|].
  rewrite (proj2 (Z.ltb_ge (h / hpe) (h / hpe))) by lia. by destruct (exit_requested_at b).
Qed.

Lemma exit_keeps_weight b now :
  weight_in_epoch (snd (request_exit_at b now h hpe)) e hpe = weight_in_epoch b e hpe.
Proof.
  unfold request_exit_at. case_bool_decide as He; simpl; [done|].
  destruct (negb (can_request_exit b now)); [done|]. cbn [snd].
  rewrite weight_stamped by done. cbn [active_amount amount].
  pose proof (amount_in_epoch_le b e hpe) as Hle.
  rewrite Z.min_l by done. unfold weight_in_epoch.
  destruct (exit_requested_at b) eqn:E; [|done]. exfalso. apply He. by eexists.
Qed.

Lemma rejoin_keeps_weight b :
  0 <= amount b -> weight_in_epoch (rejoin b h hpe) e hpe = weight_in_epoch b e hpe.
Proof.
  intros Hb. unfold rejoin. destruct (exit_requested_at b) eqn:E; [|done].
  rewrite weight_stamped by done. cbn [active_amount amount].
  by rewrite Z.min_l by by apply weight_in_epoch_le.
Qed.

Lemma raise_keeps_weight b total :
  exit_requested_at b = None -> amount b <= total ->
  weight_in_epoch (raise_to b total h hpe) e hpe = weight_in_epoch b e hpe.
Proof.
  intros He Ht. rewrite weight_stamped by done. cbn [raise_to active_amount amount].
  pose proof (amount_in_epoch_le b e hpe). rewrite Z.min_l by lia.
  unfold weight_in_epoch. by rewrite He.
Qed.

Lemma rejoin_not_exiting b : exit_requested_at (rejoin b h hpe) = None.
Proof. unfold rejoin. by destruct (exit_requested_at b) eqn:E. Qed.

Lemma rejoin_amount b : amount (rejoin b h hpe) = amount b.
Proof. unfold rejoin. by destruct (exit_requested_at b). Qed.
End weight.

(** What a validator can do to its bond at a height: request its exit, or top it
    up, which restamps the bonding day, rejoins and raises
    ([Ledger::bond] and [Ledger::bond_with_fee]). *)
Definition top_up (b : Bond) (day total height heights_per_epoch : Z) : Bond :=
  let b := mkBond (amount b) day (exit_requested_at b) (active_amount b) (raised_at_height b) in
  raise_to (rejoin b height heights_per_epoch) total height heights_per_epoch.

Inductive bond_op : Type :=
| OpExit (now_day height : Z)
| OpTopUp (day total height : Z).

Definition op_height (op : bond_op) : Z :=
  match op with OpExit _ h => h | OpTopUp _ _ h => h end.

Definition apply_op (hpe : Z) (b : Bond) (op : bond_op) : Bond :=
  match op with
  | OpExit now h => snd (request_exit_at b now h hpe)
  | OpTopUp day total h => top_up b day total h hpe
  end.

(** Top-ups never lower the bond. *)
Fixpoint ops_raise (hpe : Z) (b : Bond) (ops : list bond_op) : Prop :=
  match ops with
  | [] => True
  | op :: ops =>
      match op with OpExit _ _ => True | OpTopUp _ total _ => amount b <= total end /\
      ops_raise hpe (apply_op hpe b op) ops
  end.

Lemma apply_op_weight hpe b op :
  0 < hpe -> 0 <= amount b ->
  match op with OpExit _ _ => True | OpTopUp _ total _ => amount b <= total end ->
  0 <= amount (apply_op hpe b op) /\
  weight_in_epoch (apply_op hpe b op) (epoch_of (op_height op) hpe) hpe
    = weight_in_epoch b (epoch_of (op_height op) hpe) hpe.
Proof.
  intros Hhpe Hb Hop. destruct op as [now h|day total h]; cbn [apply_op op_height].
  - split; [|by apply exit_keeps_weight]. unfold request_exit_at. by case_step.
  - unfold top_up. set (b' := mkBond _ day _ _ _). split; [cbn; lia|].
    rewrite raise_keeps_weight;
      [|done|by apply rejoin_not_exiting|by rewrite rejoin_amount].
    by rewrite rejoin_keeps_weight.
Qed.

Lemma foldl_weight hpe epoch ops b :
  0 < hpe -> 0 <= amount b -> ops_raise hpe b ops ->
  Forall (fun op => epoch_of (op_height op) hpe = epoch) ops ->
  weight_in_epoch (foldl (apply_op hpe) b ops) epoch hpe = weight_in_epoch b epoch hpe.
Proof.
  intros Hhpe Hb Hr Hops. revert b Hb Hr.
  induction Hops as [|op ops Ho _ IH]; intros b Hb Hr; simpl; [done|].
  destruct Hr as [Hop Hr]. destruct (apply_op_weight hpe b op Hhpe Hb Hop) as [Hb' Hw].
  rewrite IH by done. by rewrite <- Ho.
Qed.

(** ** Emission *)

Lemma session_emission_range t s :
  u64 s -> 0 <= t ->
  0 <= session_emission t s <= s * MAX_SESSION_EMISSION_BPS / BPS_DENOM.
Proof.
  unfold session_emission, MAX_SESSION_EMISSION_BPS, BPS_DENOM, EMISSION_K. intros Hs Ht.
  assert (Hb : 0 <= s * 500 / 10000 <= s).
  { split; [apply Z.div_pos|apply Z.div_le_upper_bound]; unfold in_width in Hs; lia. }
  rewrite (wrap_id 64 (s * 500 / 10000)) by (unfold in_width in *; lia).
  pose proof (wrap_range 64 (Z.sqrt (Z.min t s))) as Hr. unfold in_width in Hr.
  unfold saturating_mul. split; [|lia]. lia.
Qed.

Lemma pro_rata_sum E T stakes :
  0 <= E -> 0 < T -> Forall (fun s => 0 <= s) stakes ->
  T * list_sum (map (fun s => wrap 64 (E * s / T)) stakes) <= E * list_sum stakes.
Proof.
  intros HE HT. induction 1 as [|s stakes Hs _ IH]; simpl; [lia|].
  pose proof (Z.mul_div_le (E * s) T HT).
  assert (wrap 64 (E * s / T) <= E * s / T); [|nia].
  apply Z.mod_le; [apply Z.div_pos; nia|done].
Qed.

(** ** Moving stake *)

(** The spendable balances next to the book. *)
Record World : Type := mkWorld { balances : gmap Id Z; book : StakeLedger }.

Definition balance_of (w : World) (id : Id) : Z := default 0 (balances w !! id).

Inductive stake_step : World -> World -> Prop :=
| step_bond w id amt day bal l :
    0 <= amt ->
    bond_from_balance (book w) id (balance_of w id) amt day = (Some bal, l) ->
    stake_step w (mkWorld (<[id := bal]> (balances w)) l)
| step_exit w id day ok l :
    StakeLedger_request_exit (book w) id day = (ok, l) ->
    stake_step w (mkWorld (balances w) l)
| step_withdraw w id day bal l :
    withdraw_to_balance (book w) id (balance_of w id) day = Done (Some bal, l) ->
    stake_step w (mkWorld (<[id := bal]> (balances w)) l)
| step_slash w id fault taken l :
    StakeLedger_slash (book w) id fault = (taken, l) ->
    stake_step w (mkWorld (balances w) l).

Definition stake_value (w : World) : Z :=
  map_sum id (balances w) + bond_sum (bonds (book w)) + treasury (book w).

Record stake_inv (w : World) : Prop := mkInv {
  inv_balance : forall i x, balances w !! i = Some x -> 0 <= x;
  inv_bond : forall i b, bonds (book w) !! i = Some b -> MIN_STAKE <= amount b;
  inv_exit : forall i b day, bonds (book w) !! i = Some b -> exit_requested_at b = Some day ->
    bonded_at_day b + BOND_LOCK_DAYS <= day;
  inv_banned : forall i, i ∈ banned (book w) -> bonds (book w) !! i = None;
  inv_treasury : 0 <= treasury (book w);
  inv_value : stake_value w <= U64_MAX
}.

Lemma map_sum_insert_default {K} `{Countable K} (m : gmap K Z) k x :
  map_sum id (<[k := x]> m) = map_sum id m - default 0 (m !! k) + x.
Proof.
  destruct (m !! k) as [y|] eqn:E; simpl.
  - by rewrite (map_sum_insert id m k y).
  - rewrite map_sum_insert_new by done. unfold id. lia.
Qed.

Lemma balance_nonneg w i : stake_inv w -> 0 <= balance_of w i.
Proof.
  intros Hi. unfold balance_of. destruct (balances w !! i) eqn:E; simpl; [|lia].
  by eapply (inv_balance w Hi).
Qed.

Lemma slash_whole b f : u64 b -> slash b f = b.
Proof.
  intros Hb. destruct f. unfold slash, SLASH_ATTRIBUTABLE_BPS, BPS_DENOM.
  rewrite Z.div_mul by lia. by apply wrap_id.
Qed.

Lemma bond_le_value w i b :
  stake_inv w -> bonds (book w) !! i = Some b -> amount b <= U64_MAX - treasury (book w).
Proof.
  intros Hi Hb. pose proof (inv_value w Hi) as Hv. unfold stake_value, bond_sum in Hv.
  assert (amount b <= map_sum amount (bonds (book w))).
  { eapply map_sum_lookup_le; [|done]. intros j c Hj.
    pose proof (inv_bond w Hi j c Hj). unfold MIN_STAKE, NATIVE_UNIT in *. lia. }
  assert (0 <= map_sum id (balances w)).
  { apply map_sum_nonneg. intros j x Hj. by eapply (inv_balance w Hi). }
  lia.
Qed.

Lemma insert_balance_nonneg w i x j y :
  stake_inv w -> 0 <= x -> <[i := x]> (balances w) !! j = Some y -> 0 <= y.
Proof.
  intros Hi Hx. destruct (decide (i = j)) as [->|Hne].
  - rewrite lookup_insert_eq. by intros [= ->].
  - rewrite lookup_insert_ne by done. apply (inv_balance w Hi).
Qed.

(** Replacing or removing one bond of the map keeps the per-bond invariants of
    the others. *)
Lemma insert_bond_inv (P : Bond -> Prop) (m : gmap Id Bond) i b :
  (forall j c, m !! j = Some c -> P c) -> P b ->
  forall j c, <[i := b]> m !! j = Some c -> P c.
Proof.
  intros Hm Hb j c. destruct (decide (i = j)) as [->|Hne].
  - rewrite lookup_insert_eq. by intros [= <-].
  - rewrite lookup_insert_ne by done. apply Hm.
Qed.

Lemma StakeLedger_bond_true l i amt day l' :
  StakeLedger_bond l i amt day = (true, l') ->
  i ∉ banned l /\ exists b',
    l' = with_bonds l (<[i := b']> (bonds l)) /\
    match bonds l !! i with
    | Some b => amount b' = amount b + amt /\ bonded_at_day b' = bonded_at_day b /\
                exit_requested_at b' = exit_requested_at b
    | None => amount b' = amt /\ MIN_STAKE <= amt /\ exit_requested_at b' = None
    end.
Proof.
  unfold StakeLedger_bond, is_banned. case_bool_decide as Hban; [done|]. intros Hl. split; [done|].
  destruct (bonds l !! i) as [b|].
  - destruct (checked_add _ _ _) as [total|] eqn:E; [|done].
    apply checked_add_Some in E as [-> _]. injection Hl as <-. eexists. split; [done|]. done.
  - unfold Bond_new, eligible in Hl. destruct (_ <=? _) eqn:E; [|done]. bool_to_prop.
    injection Hl as <-. eexists. split; [done|]. done.
Qed.

Lemma step_bond_ok w i amt day bal l :
  stake_inv w -> 0 <= amt ->
  bond_from_balance (book w) i (balance_of w i) amt day = (Some bal, l) ->
  let w' := mkWorld (<[i := bal]> (balances w)) l in
  stake_value w' = stake_value w /\ stake_inv w'.
Proof.
  intros Hi Ha. unfold bond_from_balance.
  destruct (Z.ltb_spec (balance_of w i) amt) as [|Hbal]; [done|].
  destruct (StakeLedger_bond _ _ _ _) as [[] l0] eqn:E; [|done].
  intros Heq. injection Heq as <- <-. set (w' := mkWorld _ _).
  apply StakeLedger_bond_true in E as (Hban & b' & Hl & Hb'). subst l0.
  assert (Hsum : bond_sum (<[i := b']> (bonds (book w))) = bond_sum (bonds (book w)) + amt).
  { unfold bond_sum. destruct (bonds (book w) !! i) as [b|] eqn:Eb.
    - rewrite (map_sum_insert _ _ _ b) by done. lia.
    - rewrite map_sum_insert_new by done. lia. }
  assert (Hval : stake_value w' = stake_value w).
  { unfold stake_value, w'. cbn [balances book bonds treasury with_bonds].
    rewrite map_sum_insert_default, Hsum. fold (balance_of w i). lia. }
  split; [done|]. split; cbn [balances book bonds treasury with_bonds banned w'].
  - intros j x. apply insert_balance_nonneg; [done|lia].
  - apply insert_bond_inv; [apply (inv_bond w Hi)|].
    destruct (bonds (book w) !! i) as [b|] eqn:Eb; [|lia].
    pose proof (inv_bond w Hi i b Eb). lia.
  - intros j c d Hj. revert j c Hj d.
    apply (insert_bond_inv (fun c => forall d, exit_requested_at c = Some d ->
      bonded_at_day c + BOND_LOCK_DAYS <= d)); [intros j c Hj d; by apply (inv_exit w Hi j)|].
    intros d Hd.
    destruct (bonds (book w) !! i) as [b|] eqn:Eb; [|destruct Hb' as (_ & _ & He); congruence].
    destruct Hb' as (_ & -> & He). rewrite He in Hd. by apply (inv_exit w Hi i).
  - intros j Hj. rewrite lookup_insert_ne by set_solver. by apply (inv_banned w Hi).
  - apply (inv_treasury w Hi).
  - change (stake_value w' <= U64_MAX). rewrite Hval. apply (inv_value w Hi).
Qed.

Lemma step_exit_ok w i day ok l :
  stake_inv w -> StakeLedger_request_exit (book w) i day = (ok, l) ->
  let w' := mkWorld (balances w) l in stake_value w' = stake_value w /\ stake_inv w'.
Proof.
  intros Hi. unfold StakeLedger_request_exit.
  destruct (bonds (book w) !! i) as [b|] eqn:Eb; [|by intros [= <- <-]; destruct w].
  destruct (request_exit b day) as [ok' b'] eqn:Er.
  intros Heq. injection Heq as <- <-. set (w' := mkWorld _ _).
  assert (Hb' : amount b' = amount b /\ bonded_at_day b' = bonded_at_day b /\
    (b' = b \/ bonded_at_day b + BOND_LOCK_DAYS <= day /\ exit_requested_at b' = Some day)).
  { unfold request_exit, can_request_exit, saturating_sub in Er.
    destruct (_ && _) eqn:E; injection Er as <- <-; [|naive_solver].
    bool_to_prop. cbn. split; [done|]. split; [done|]. right. split; [|done].
    unfold BOND_LOCK_DAYS in *. lia. }
  destruct Hb' as (Ha & Hd & Hx).
  assert (Hval : stake_value w' = stake_value w).
  { unfold stake_value, w', bond_sum. cbn [balances book bonds treasury with_bonds].
    rewrite (map_sum_insert _ _ _ b) by done. lia. }
  split; [done|]. split; cbn [balances book bonds treasury with_bonds banned w'].
  - apply (inv_balance w Hi).
  - apply insert_bond_inv; [apply (inv_bond w Hi)|]. rewrite Ha. by eapply (inv_bond w Hi).
  - intros j c d Hj. revert j c Hj d.
    apply (insert_bond_inv (fun c => forall d, exit_requested_at c = Some d ->
      bonded_at_day c + BOND_LOCK_DAYS <= d)); [intros j c Hj d; by apply (inv_exit w Hi j)|].
    intros d Hdx. destruct Hx as [->|[Hx Hx']]; [by apply (inv_exit w Hi i)|].
    rewrite Hx' in Hdx. injection Hdx as <-. lia.
  - intros j Hj. rewrite lookup_insert_ne; [by apply (inv_banned w Hi)|].
    intros ->. rewrite (inv_banned w Hi j Hj) in Eb. done.
  - apply (inv_treasury w Hi).
  - change (stake_value w' <= U64_MAX). rewrite Hval. apply (inv_value w Hi).
Qed.

(** Removing a bond keeps the invariants of the book. *)
Lemma delete_bond_inv (P : Bond -> Prop) (m : gmap Id Bond) i :
  (forall j c, m !! j = Some c -> P c) ->
  forall j c, delete i m !! j = Some c -> P c.
Proof. intros Hm j c [_ Hj]%lookup_delete_Some. by apply (Hm j). Qed.

Lemma withdraw_Some l i bal day bal' l' :
  withdraw_to_balance l i bal day = Done (Some bal', l') ->
  exists b d, bonds l !! i = Some b /\ exit_requested_at b = Some d /\
    d + UNBONDING_DAYS <= day /\ bal' = bal + amount b /\ bal' < 2 ^ 64 /\
    l' = with_bonds l (delete i (bonds l)).
Proof.
  unfold withdraw_to_balance. destruct (bonds l !! i) as [b|]; [|done].
  unfold can_withdraw. destruct (exit_requested_at b) as [d|] eqn:Ed; [|done].
  unfold panicking_add. destruct (checked_add 64 d UNBONDING_DAYS) as [o|] eqn:Eo; [|done].
  apply checked_add_Some in Eo as [-> _]. cbn [obind].
  destruct (Z.leb_spec (d + UNBONDING_DAYS) day); [|done].
  destruct (checked_add 64 bal (amount b)) as [c|] eqn:Ec; [|done].
  apply checked_add_Some in Ec as [-> Hlt]. intros [= <- <-]. exists b, d. done.
Qed.

Lemma step_withdraw_ok w i day bal l :
  stake_inv w -> withdraw_to_balance (book w) i (balance_of w i) day = Done (Some bal, l) ->
  stake_value (mkWorld (<[i := bal]> (balances w)) l) = stake_value w /\
  stake_inv (mkWorld (<[i := bal]> (balances w)) l).
Proof.
  intros Hi H. apply withdraw_Some in H as (b & d & Hb & Hd & Hday & -> & _ & ->).
  set (w' := mkWorld _ _).
  assert (Hval : stake_value w' = stake_value w).
  { unfold stake_value, w', bond_sum. cbn [balances book bonds treasury with_bonds].
    rewrite map_sum_insert_default, (map_sum_delete _ _ _ b Hb). fold (balance_of w i). lia. }
  split; [done|]. split; cbn [balances book bonds treasury with_bonds banned w'].
  - intros j x. apply insert_balance_nonneg; [done|].
    pose proof (balance_nonneg w i Hi). pose proof (inv_bond w Hi i b Hb).
    unfold MIN_STAKE, NATIVE_UNIT in *. lia.
  - apply delete_bond_inv, (inv_bond w Hi).
  - intros j c d' [_ Hj]%lookup_delete_Some. by apply (inv_exit w Hi j).
  - intros j Hj. apply lookup_delete_None. right. by apply (inv_banned w Hi).
  - apply (inv_treasury w Hi).
  - change (stake_value w' <= U64_MAX). rewrite Hval. apply (inv_value w Hi).
Qed.

Lemma step_slash_ok w i fault taken l :
  stake_inv w -> StakeLedger_slash (book w) i fault = (taken, l) ->
  stake_value (mkWorld (balances w) l) = stake_value w /\ stake_inv (mkWorld (balances w) l).
Proof.
  intros Hi. unfold StakeLedger_slash.
  destruct (bonds (book w) !! i) as [b|] eqn:Hb; [|by intros [= <- <-]; destruct w].
  pose proof (bond_le_value w i b Hi Hb) as Hle. pose proof (inv_bond w Hi i b Hb) as Hmin.
  pose proof (inv_treasury w Hi) as Ht. unfold MIN_STAKE, NATIVE_UNIT, U64_MAX in *.
  rewrite slash_whole by (unfold in_width; lia). intros Heq. injection Heq as <- <-.
  set (w' := mkWorld _ _).
  assert (Hsat : saturating_add 64 (treasury (book w)) (amount b)
    = treasury (book w) + amount b) by (unfold saturating_add; lia).
  assert (Hval : stake_value w' = stake_value w).
  { unfold stake_value, w', bond_sum. cbn [balances book bonds treasury].
    rewrite (map_sum_delete amount (bonds (book w)) i b Hb), Hsat. lia. }
  split; [done|]. split; cbn [balances book bonds treasury banned w'].
  - apply (inv_balance w Hi).
  - apply delete_bond_inv, (inv_bond w Hi).
  - intros j c d' [_ Hj]%lookup_delete_Some. by apply (inv_exit w Hi j).
  - intros j Hj. apply lookup_delete_None. apply elem_of_union in Hj as [Hj|Hj].
    + left. by apply elem_of_singleton in Hj.
    + right. by apply (inv_banned w Hi).
  - rewrite Hsat. lia.
  - change (stake_value w' <= U64_MAX). rewrite Hval. apply (inv_value w Hi).
Qed.

Lemma stake_step_ok w w' :
  stake_step w w' -> stake_inv w -> stake_value w' = stake_value w /\ stake_inv w'.
Proof.
  intros [] Hi; [by eapply step_bond_ok|by eapply step_exit_ok
    |by eapply step_withdraw_ok|by eapply step_slash_ok].
Qed.

Lemma stake_steps_ok w w' :
  rtc stake_step w w' -> stake_inv w -> stake_value w' = stake_value w /\ stake_inv w'.
Proof.
  induction 1 as [w|w w1 w2 H _ IH]; intros Hi; [done|].
  destruct (stake_step_ok _ _ H Hi) as [Hv Hi1]. destruct (IH Hi1) as [Hv2 Hi2].
  split; [congruence|done].
Qed.

Lemma banned_step w w' : stake_step w w' -> banned (book w) ⊆ banned (book w').
Proof.
  intros []; simpl.
  - unfold bond_from_balance in *. repeat (case_in H0; simplify_eq).
    by apply StakeLedger_bond_true in Em as (_ & b' & -> & _).
  - unfold StakeLedger_request_exit in *. repeat (case_in H; simplify_eq); done.
  - by apply withdraw_Some in H as (b & d & _ & _ & _ & _ & _ & ->).
  - unfold StakeLedger_slash in *. case_in H; simplify_eq; [set_solver|done].
Qed.

Lemma banned_steps w w' : rtc stake_step w w' -> banned (book w) ⊆ banned (book w').
Proof.
  induction 1 as [|w w1 w2 H _ IH]; [done|]. etrans; [by apply banned_step|done].
Qed.

Lemma stake_inv_genesis bals p :
  (forall i x, bals !! i = Some x -> 0 <= x) -> map_sum id bals <= U64_MAX ->
  stake_inv (mkWorld bals (StakeLedger_new p)).
Proof.
  intros Hb Hs. split; cbn; try done.
  - unfold stake_value, bond_sum. cbn. rewrite map_sum_empty. lia.
Qed.

(** ** Properties *)

(** Voting weight is fixed for the whole of an epoch.  Whatever sequence of
    exits and top-ups a validator performs at heights of one epoch, its weight
    in that epoch is the weight it entered with. *)
Theorem epoch_weight_stable (hpe epoch : Z) (b : Bond) (ops : list bond_op) :
  0 < hpe -> 0 <= amount b -> ops_raise hpe b ops ->
  Forall (fun op => epoch_of (op_height op) hpe = epoch) ops ->
  weight_in_epoch (foldl (apply_op hpe) b ops) epoch hpe = weight_in_epoch b epoch hpe.
Proof. apply foldl_weight. Qed.

Lemma epoch_weight_stable_witness :
  weight_in_epoch
    (foldl (apply_op 100) (mkBond MIN_STAKE 0 None MIN_STAKE 10)
       [OpExit 95 210; OpTopUp 96 (4 * MIN_STAKE) 220; OpExit 190 250]) 2 100 = MIN_STAKE.
Proof.
  rewrite (epoch_weight_stable 100 2).
  - vm_compute. reflexivity.
  - lia.
  - vm_compute. discriminate.
  - cbn [ops_raise]. split_and!; vm_compute; first [exact I|discriminate].
  - repeat constructor.
Defined.

(** The weight an exit or a top-up leaves behind takes effect in every later
    epoch: nothing after an accepted exit, the whole raised total after a
    top-up. *)
Theorem later_epoch_weight (hpe h epoch : Z) (b : Bond) :
  0 < hpe -> epoch_of h hpe < epoch ->
  (forall now b', request_exit_at b now h hpe = (true, b') ->
     weight_in_epoch b' epoch hpe = 0) /\
  (forall day total, weight_in_epoch (top_up b day total h hpe) epoch hpe = total).
Proof.
  intros Hhpe He. rewrite epoch_of_div in He by done.
  assert (Hlt : (h / hpe <? epoch) = true) by (apply Z.ltb_lt; lia).
  split.
  - intros now b'. unfold request_exit_at. destruct (_ || _); [done|]. intros [= <-].
    unfold weight_in_epoch. cbn. by rewrite Hlt, orb_true_r.
  - intros day total. unfold top_up. set (b0 := mkBond _ day _ _ _).
    unfold weight_in_epoch, raise_to. cbn. rewrite rejoin_not_exiting.
    unfold amount_in_epoch. cbn. destruct (Z.eqb_spec hpe 0); [lia|]. by rewrite Hlt.
Qed.

Lemma later_epoch_weight_witness :
  weight_in_epoch (top_up (mkBond MIN_STAKE 0 None MIN_STAKE 10) 5 (3 * MIN_STAKE) 250 100) 3 100
  = 3 * MIN_STAKE.
Proof.
  apply (later_epoch_weight 100 250 3 (mkBond MIN_STAKE 0 None MIN_STAKE 10));
    vm_compute; reflexivity.
Defined.

(** Over any run of bonding, exit, withdrawal and slashing the spendable
    balances, the bonds and the treasury together keep their value to the unit,
    every open bond stays at the minimum stake or above, an exit is never dated
    before the bond lock has run, and no banned identity holds a bond. *)
Theorem stake_conservation (w w' : World) :
  stake_inv w -> rtc stake_step w w' ->
  stake_value w' = stake_value w /\ stake_inv w'.
Proof. intros Hi Hs. by apply (stake_steps_ok w w'). Qed.

Lemma stake_conservation_witness :
  let w := mkWorld {[ [x01] := 5000 * NATIVE_UNIT ]} (StakeLedger_new 0) in
  let w' := mkWorld {[ [x01] := 3000 * NATIVE_UNIT ]}
              (snd (StakeLedger_bond (book w) [x01] MIN_STAKE 0)) in
  stake_value w' = stake_value w.
Proof.
  intros w w'. apply (stake_conservation w w').
  - apply stake_inv_genesis.
    + intros i x. rewrite lookup_singleton. case_decide; [|done]. intros [= <-].
      unfold NATIVE_UNIT. lia.
    + vm_compute. discriminate.
  - apply rtc_once. apply (step_bond w [x01] MIN_STAKE 0 (3000 * NATIVE_UNIT)).
    + unfold MIN_STAKE, NATIVE_UNIT. lia.
    + vm_compute. reflexivity.
Defined.

(** A slashed identity never bonds again: once banned, no later run of the
    book gives it a bond. *)
Theorem ban_is_permanent (w w1 w2 : World) (i : Id) (fault : Fault) (taken : Z) (l : StakeLedger) :
  stake_inv w -> is_Some (bonds (book w) !! i) ->
  StakeLedger_slash (book w) i fault = (taken, l) -> w1 = mkWorld (balances w) l ->
  rtc stake_step w1 w2 -> bonds (book w2) !! i = None.
Proof.
  intros Hi [b Hb] Hs -> Hr.
  destruct (step_slash_ok w i fault taken l Hi Hs) as [_ Hi1].
  destruct (stake_steps_ok _ _ Hr Hi1) as [_ Hi2]. apply (inv_banned w2 Hi2).
  apply (banned_steps _ _ Hr). unfold StakeLedger_slash in Hs. rewrite Hb in Hs.
  injection Hs as _ <-. cbn. set_solver.
Qed.

Lemma ban_is_permanent_witness :
  let l0 := snd (StakeLedger_bond (StakeLedger_new 0) [x01] MIN_STAKE 0) in
  bonds (snd (StakeLedger_slash l0 [x01] Attributable)) !! [x01] = None.
Proof.
  intros l0.
  apply (ban_is_permanent (mkWorld ∅ l0) (mkWorld ∅ (snd (StakeLedger_slash l0 [x01] Attributable)))
    (mkWorld ∅ (snd (StakeLedger_slash l0 [x01] Attributable))) [x01] Attributable
    (fst (StakeLedger_slash l0 [x01] Attributable))
    (snd (StakeLedger_slash l0 [x01] Attributable))).
  - pose (w := mkWorld {[ [x01] := MIN_STAKE ]} (StakeLedger_new 0)).
    assert (Hw : stake_inv w).
    { apply stake_inv_genesis; [|vm_compute; discriminate].
      intros i x. rewrite lookup_singleton. case_decide; [|done]. intros [= <-].
      unfold MIN_STAKE, NATIVE_UNIT. lia. }
    destruct (step_bond_ok w [x01] MIN_STAKE 0 0 l0 Hw) as [_ [H1 H2 H3 H4 H5 H6]];
      [unfold MIN_STAKE, NATIVE_UNIT; lia|vm_compute; reflexivity|].
    split; cbn in *; done.
  - eexists. vm_compute. reflexivity.
  - reflexivity.
  - reflexivity.
  - apply rtc_refl.
Defined.



Lemma reward_usd_mono a b : 0 <= a <= b -> b <= REWARD_USD_TIER_TOP ->
  reward_usd_to_quon a <= reward_usd_to_quon b.
Proof.
  unfold reward_usd_to_quon, REWARD_USD_TIER_TOP, NATIVE_UNIT, REWARD_ANCHOR_USD_PER_QTOV.
  intros Ha Hb.
  assert (H : forall x, 0 <= x <= 100000 -> u64 (x * 1000000 / 3000)).
  { intros x Hx. split; [apply Z.div_pos; lia|]. apply Z.div_lt_upper_bound; lia. }
  rewrite !wrap_id by (apply H; lia). apply Z.div_le_mono; lia.
Qed.

Lemma ramp_range blocks : 0 <= blocks < REWARD_BLOCKS_TIER_MID ->
  wrap 64 (blocks * REWARD_USD_TIER_LOW_CAP / REWARD_BLOCKS_TIER_MID)
    = blocks * REWARD_USD_TIER_LOW_CAP / REWARD_BLOCKS_TIER_MID /\
  0 <= blocks * REWARD_USD_TIER_LOW_CAP / REWARD_BLOCKS_TIER_MID < REWARD_USD_TIER_LOW_CAP.
Proof.
  unfold REWARD_BLOCKS_TIER_MID, REWARD_USD_TIER_LOW_CAP. intros Hb.
  assert (0 <= blocks * 30000 / 150000000 < 30000).
  { split; [apply Z.div_pos; lia|]. apply Z.div_lt_upper_bound; lia. }
  split; [|done]. apply wrap_id. unfold in_width. lia.
Qed.

(** The tiered reward never falls as more blocks are completed and is capped
    at the top tier, whose dollar anchor is 33,333,333 Quon. *)
Lemma validator_reward_monotone (a b : Z) :
  0 <= a <= b -> validator_reward a <= validator_reward b <= 33333333.
Proof.
  intros Hab.
  assert (Htop : reward_usd_to_quon REWARD_USD_TIER_TOP = 33333333) by reflexivity.
  rewrite <- Htop. unfold validator_reward.
  pose proof (ramp_range a) as Ra. pose proof (ramp_range b) as Rb.
  unfold REWARD_BLOCKS_TIER_TOP, REWARD_BLOCKS_TIER_HIGH, REWARD_BLOCKS_TIER_MID,
    REWARD_USD_TIER_HIGH, REWARD_USD_TIER_MID, REWARD_USD_TIER_LOW_CAP in *.
  repeat match goal with |- context [?x <=? ?y] => destruct (Z.leb_spec x y); try lia end;
    cbn beta zeta iota;
    repeat match goal with
    | H : 0 <= ?x < 150000000 -> _ |- _ =>
        first [ destruct (H ltac:(lia)) as [-> ?]; clear H | clear H ]
    end;
    split; apply reward_usd_mono; unfold REWARD_USD_TIER_TOP;
    try (assert (a * 30000 / 150000000 <= b * 30000 / 150000000) by (apply Z.div_le_mono; lia));
    lia.
Qed.

(** A bond record is stored canonically: a leaf decodes to the bond [b]
    exactly when it is the one encoding of the valid bond [b]. *)
Theorem Bond_leaf_canonical (bs : list byte) (b : Bond) :
  len bs <= ISIZE_MAX ->
  from_bytes Bond_codec bs = Ok b <-> Bond_valid b /\ to_bytes Bond_codec b = bs.
Proof. apply (from_bytes_iff Bond_codec). Qed.

Lemma Bond_leaf_canonical_witness :
  let b := mkBond MIN_STAKE 42 (Some 140) MIN_STAKE 7 in
  from_bytes Bond_codec (to_bytes Bond_codec b) = Ok b.
Proof.
  intros b. apply (Bond_leaf_canonical (to_bytes Bond_codec b) b).
  - vm_compute. discriminate.
  - split; [|reflexivity]. vm_compute. repeat split; discriminate.
Defined.
