(* ===== verification/Governance.v ===== *)
(** * Governance (crates/qtv-governance)

    Tracks, conviction voting and the tally, the referendum life cycle, the
    actions a referendum carries with their wire format, the constitutional gate
    [check_enactment] and the guardian quorum. *)

From S2P Require Import Prelude Codec.

Definition PREALLOC_LIMIT : Z := 4096.
Definition MIN_SEIZURE : Z := 16.
Definition MIN_BYTES_VEC : Z := 8.

Definition bounded_capacity (remaining count min_element : Z) : Result Error Z :=
  let ceiling := wrap 64 (remaining / Z.max min_element 1) in
  if ceiling <? count then Err (LengthOverrun count remaining)
  else Ok (Z.min count PREALLOC_LIMIT).

(** [Vec::with_capacity(bounded_capacity(decoder.remaining(), count, min)?)]
    followed by [count] decodings. *)
Definition counted {A} (m : Dec A) (count min_element : Z) : Dec (list A) := fun d =>
  let? _ := bounded_capacity (remaining d) count min_element in
  decode_n m (Z.to_nat count) d.

(** [<[u8; n]>::try_from(slice)]. *)
Definition try_array (n : nat) (bs : list byte) : option (list byte) :=
  if (length bs =? n)%nat then Some bs else None.

Definition get_array (n : nat) (e : Error) : Dec (list byte) :=
  let* bs := get_bytes in
  match try_array n bs with Some a => dret a | None => dfail e end.

Definition GOV_NATIVE_UNIT : Z := 1000000.
Definition GOV_BPS_DENOM : Z := 10000.
Definition PARTICIPATION_FLOOR_BPS : Z := 2500.
Definition DAY_SECONDS : Z := 86400.
Definition HOUR_SECONDS : Z := 3600.
Definition MONTH_SECONDS : Z := 30 * DAY_SECONDS.
Definition YEAR_SECONDS : Z := 365 * DAY_SECONDS.
Definition MIN_GOV_DEPOSIT : Z := 1000 * GOV_NATIVE_UNIT.
Definition MAX_GOV_DEPOSIT_BPS : Z := 1000.

Definition gov_deposit_bounds (total_supply : Z) : Z * Z :=
  let ceiling := wrap 64 (total_supply * MAX_GOV_DEPOSIT_BPS / 10000) in
  (MIN_GOV_DEPOSIT, Z.max ceiling (MIN_GOV_DEPOSIT * 2)).

(** ** Tracks *)

Inductive Track : Type :=
| ChainUpgrade
| MintTrack
| BridgeMigrationTrack
| FreezeRecoveryTrack
| BlacklistKill.

#[global] Instance Track_eq_decision : EqDecision Track.
Proof. solve_decision. Defined.

Definition Track_all : list Track :=
  [ChainUpgrade; MintTrack; BridgeMigrationTrack; FreezeRecoveryTrack; BlacklistKill].

Definition Track_deposit (t : Track) : Z :=
  let whole := match t with
    | ChainUpgrade => 225000
    | MintTrack => 400000
    | BridgeMigrationTrack => 150000
    | FreezeRecoveryTrack => 29250
    | BlacklistKill => 39000
    end in
  whole * GOV_NATIVE_UNIT.

Definition period_seconds (t : Track) : Z :=
  match t with
  | ChainUpgrade => 14 * DAY_SECONDS
  | MintTrack => 3 * DAY_SECONDS
  | BridgeMigrationTrack => 5 * DAY_SECONDS
  | FreezeRecoveryTrack => 6 * HOUR_SECONDS
  | BlacklistKill => 2 * DAY_SECONDS
  end.

Definition Track_code (t : Track) : Z :=
  match t with
  | ChainUpgrade => 1
  | MintTrack => 2
  | BridgeMigrationTrack => 3
  | FreezeRecoveryTrack => 4
  | BlacklistKill => 5
  end.

Definition threshold_bps (t : Track) : Z :=
  match t with
  | ChainUpgrade | MintTrack | BridgeMigrationTrack => 6667
  | FreezeRecoveryTrack | BlacklistKill => 7500
  end.

Definition enactment_delay (t : Track) : Z :=
  match t with
  | ChainUpgrade | MintTrack | BridgeMigrationTrack => 7 * DAY_SECONDS
  | BlacklistKill => DAY_SECONDS
  | FreezeRecoveryTrack => HOUR_SECONDS
  end.

Definition Track_from_code (code : Z) : option Track :=
  List.find (fun t => Track_code t =? code) Track_all.

Definition Track_encode (t : Track) (e : Encoder) : Encoder := e |> put_u8 (Track_code t).

Definition Track_decode : Dec Track :=
  let* code := get_u8 in
  match Track_from_code code with Some t => dret t | None => dfail (UnknownTag code) end.

Definition Track_codec : Codec Track := mkCodec Track Track_encode Track_decode (fun _ => True).

Definition BRIDGE_FREEZE_BOND : Z := Track_deposit BlacklistKill.
Definition BRIDGE_FREEZE_DURATION : Z := 7 * DAY_SECONDS.
Definition BRIDGE_FREEZE_COOLDOWN : Z := DAY_SECONDS.
Definition BRIDGE_FREEZE_REFUND_GRACE : Z := HOUR_SECONDS.

(** ** Conviction, ballots and locks *)

Inductive Conviction : Type := Liquid | Year | TwoYear.

#[global] Instance Conviction_eq_decision : EqDecision Conviction.
Proof. solve_decision. Defined.

Definition factor_x10 (c : Conviction) : Z :=
  match c with Liquid => 10 | Year => 15 | TwoYear => 25 end.

Definition lock_seconds (c : Conviction) : Z :=
  match c with Liquid => MONTH_SECONDS | Year => YEAR_SECONDS | TwoYear => 2 * YEAR_SECONDS end.

Definition Conviction_code (c : Conviction) : Z :=
  match c with Liquid => 0 | Year => 1 | TwoYear => 2 end.

Definition Conviction_from_code (code : Z) : option Conviction :=
  if code =? 0 then Some Liquid
  else if code =? 1 then Some Year
  else if code =? 2 then Some TwoYear
  else None.

Definition Conviction_weight (c : Conviction) (stake : Z) : Z := stake * factor_x10 c / 10.

Definition Conviction_encode (c : Conviction) (e : Encoder) : Encoder :=
  e |> put_u8 (Conviction_code c).

Definition Conviction_decode : Dec Conviction :=
  let* code := get_u8 in
  match Conviction_from_code code with Some c => dret c | None => dfail (UnknownTag code) end.

Definition Conviction_codec : Codec Conviction :=
  mkCodec Conviction Conviction_encode Conviction_decode (fun _ => True).

Record Ballot : Type := mkBallot { aye : bool; conviction : Conviction; stake : Z }.

Definition Ballot_weight (b : Ballot) : Z := Conviction_weight (conviction b) (stake b).

(** [b as u8]. *)
Definition bool_u8 (b : bool) : Z := if b then 1 else 0.

Definition Ballot_encode (b : Ballot) (e : Encoder) : Encoder :=
  e |> put_u8 (bool_u8 (aye b)) |> encode Conviction_codec (conviction b) |> put_u64 (stake b).

(** The strict flag: 0 or 1, anything else is [InvalidOption]. *)
Definition get_flag : Dec bool :=
  let* byte := get_u8 in
  if byte =? 0 then dret false
  else if byte =? 1 then dret true
  else dfail (InvalidOption byte).

Definition Ballot_decode : Dec Ballot :=
  let* a := get_flag in
  let* c := decode Conviction_codec in
  let* s := get_u64 in
  dret (mkBallot a c s).

Definition Ballot_codec : Codec Ballot :=
  mkCodec Ballot Ballot_encode Ballot_decode (fun b => u64 (stake b)).

Record Lock : Type := mkLock { lock_amount : Z; until : Z }.

Definition withdrawable (l : Lock) (now : Z) : bool := until l <=? now.

Definition Lock_encode (l : Lock) (e : Encoder) : Encoder :=
  e |> put_u64 (lock_amount l) |> put_u64 (until l).

Definition Lock_decode : Dec Lock :=
  let* a := get_u64 in
  let* u := get_u64 in
  dret (mkLock a u).

Definition Lock_codec : Codec Lock :=
  mkCodec Lock Lock_encode Lock_decode (fun l => u64 (lock_amount l) /\ u64 (until l)).

(** ** The tally *)

Record Tally : Type := mkTally {
  aye_stake : Z;
  nay_stake : Z;
  aye_weight : Z;
  nay_weight : Z
}.

Definition Tally_default : Tally := mkTally 0 0 0 0.

Definition record_weighted (t : Tally) (a : bool) (s w : Z) : Tally :=
  if a
  then mkTally (saturating_add 128 (aye_stake t) s) (nay_stake t)
         (saturating_add 128 (aye_weight t) w) (nay_weight t)
  else mkTally (aye_stake t) (saturating_add 128 (nay_stake t) s)
         (aye_weight t) (saturating_add 128 (nay_weight t) w).

Definition Tally_record (t : Tally) (a : bool) (s : Z) : Tally := record_weighted t a s s.

Definition record_conviction (t : Tally) (a : bool) (c : Conviction) (s : Z) : Tally :=
  record_weighted t a s (Conviction_weight c s).

Definition turnout (t : Tally) : Z := saturating_add 128 (aye_stake t) (nay_stake t).

Definition approved (t : Tally) (electorate_stake threshold : Z) : bool :=
  (0 <? electorate_stake)
  && (saturating_mul 128 electorate_stake PARTICIPATION_FLOOR_BPS
        <=? saturating_mul 128 (turnout t) GOV_BPS_DENOM)
  && (saturating_mul 128 electorate_stake threshold
        <=? saturating_mul 128 (aye_stake t) GOV_BPS_DENOM)
  && (nay_stake t <? aye_stake t)
  && (nay_weight t <? aye_weight t).

Definition Tally_encode (t : Tally) (e : Encoder) : Encoder :=
  e |> put_u128 (aye_stake t) |> put_u128 (nay_stake t)
    |> put_u128 (aye_weight t) |> put_u128 (nay_weight t).

Definition Tally_decode : Dec Tally :=
  let* a := get_u128 in
  let* n := get_u128 in
  let* aw := get_u128 in
  let* nw := get_u128 in
  dret (mkTally a n aw nw).

Definition Tally_valid (t : Tally) : Prop :=
  u128 (aye_stake t) /\ u128 (nay_stake t) /\ u128 (aye_weight t) /\ u128 (nay_weight t).

Definition Tally_codec : Codec Tally := mkCodec Tally Tally_encode Tally_decode Tally_valid.

(** ** What actions are made of *)

Record Seizure : Type := mkSeizure { seizure_from : list byte; seizure_amount : Z }.

Definition Seizure_encode (s : Seizure) (e : Encoder) : Encoder :=
  e |> encode vec_u8_codec (seizure_from s) |> put_u64 (seizure_amount s).

Definition Seizure_decode : Dec Seizure :=
  let* f := decode vec_u8_codec in
  let* a := get_u64 in
  dret (mkSeizure f a).

Definition Seizure_codec : Codec Seizure :=
  mkCodec Seizure Seizure_encode Seizure_decode
    (fun s => u64 (len (seizure_from s)) /\ u64 (seizure_amount s)).

Record OperatorClaim : Type := mkOperatorClaim {
  operator_id : Z;
  public_key : list byte;
  pop : list byte
}.

Definition OperatorClaim_encode (o : OperatorClaim) (e : Encoder) : Encoder :=
  e |> put_u32 (operator_id o) |> put_bytes (public_key o) |> put_bytes (pop o).

Definition OperatorClaim_decode : Dec OperatorClaim :=
  let* i := get_u32 in
  let* k := get_bytes in
  let* p := get_bytes in
  dret (mkOperatorClaim i k p).

Definition OperatorClaim_codec : Codec OperatorClaim :=
  mkCodec OperatorClaim OperatorClaim_encode OperatorClaim_decode
    (fun o => u32 (operator_id o) /\ u64 (len (public_key o)) /\ u64 (len (pop o))).

Record CommitteeRotation : Type := mkRotation {
  operators : list OperatorClaim;
  rotation_threshold : Z
}.

Definition CommitteeRotation_encode (r : CommitteeRotation) (e : Encoder) : Encoder :=
  e |> encode u64_codec (len (operators r))
    |> encode_all OperatorClaim_codec (operators r)
    |> put_u32 (rotation_threshold r).

Definition CommitteeRotation_decode : Dec CommitteeRotation :=
  let* count := decode u64_codec in
  let* ops := counted (decode OperatorClaim_codec) count MIN_BYTES_VEC in
  let* t := get_u32 in
  dret (mkRotation ops t).

Definition CommitteeRotation_codec : Codec CommitteeRotation :=
  mkCodec CommitteeRotation CommitteeRotation_encode CommitteeRotation_decode
    (fun r => u64 (len (operators r)) /\ Forall (valid OperatorClaim_codec) (operators r) /\
              u32 (rotation_threshold r)).

Record GuardianSet : Type := mkGuardianSet { members : list (list byte); threshold : Z }.

Definition well_formed (g : GuardianSet) : bool :=
  (2 <=? threshold g)
  && (threshold g <=? len (members g))
  && (len (members g) <? saturating_mul 64 (threshold g) 2).

Definition is_member (g : GuardianSet) (id : list byte) : bool := bool_decide (id ∈ members g).

Definition authorizes_loop (g : GuardianSet) (seen : list (list byte))
  (approvers : list (list byte)) : list (list byte) :=
  foldl (fun seen approver =>
    if is_member g approver && negb (bool_decide (approver ∈ seen))
    then seen ++ [approver] else seen) seen approvers.

Definition authorizes (g : GuardianSet) (approvers : list (list byte)) : bool :=
  if negb (well_formed g) then false
  else threshold g <=? wrap 32 (len (authorizes_loop g [] approvers)).

(** An array member is written with its length, as any byte string. *)
Definition array_codec (n : nat) (e : Error) : Codec (list byte) :=
  mkCodec (list byte) put_bytes (get_array n e) (fun bs => length bs = n).

Definition member_codec : Codec (list byte) := array_codec 32 (UnknownTag 0).

Definition GuardianSet_encode (g : GuardianSet) (e : Encoder) : Encoder :=
  e |> encode u64_codec (len (members g))
    |> encode_all member_codec (members g)
    |> put_u32 (threshold g).

Definition GuardianSet_decode : Dec GuardianSet :=
  let* count := decode u64_codec in
  let* ms := counted (decode member_codec) count MIN_SEIZURE in
  let* t := get_u32 in
  dret (mkGuardianSet ms t).

Definition GuardianSet_codec : Codec GuardianSet :=
  mkCodec GuardianSet GuardianSet_encode GuardianSet_decode
    (fun g => u64 (len (members g)) /\ Forall (valid member_codec) (members g) /\
              u32 (threshold g)).

(** ** Actions *)

Inductive Action : Type :=
| Activate (feature : list byte) (version : Z)
| Mint (to : list byte) (amount : Z)
| BridgeMigration (vault : list byte)
| BridgeUnfreeze
| GuardianRotate (set : GuardianSet)
| CommitteeRotate (rotation : CommitteeRotation)
| AssetRegister (asset_id : list byte) (cap epoch_cap : Z) (requires_stark : bool)
| BridgeAnchorSet (corridor : Z) (anchor : list byte)
| EpochAdvance
| OperatorRevoke (operator_id : Z)
| FreezeRecovery (scope victim : list byte) (seizures : list Seizure)
| Freeze (targets : list (list byte))
| Blacklist (target : list byte)
| SetParameter (key value : list byte)
| Spend (from to : list byte) (amount : Z)
| Unfreeze (targets : list (list byte)).

Definition Action_track (a : Action) : Track :=
  match a with
  | Activate _ _ => ChainUpgrade
  | Mint _ _ => MintTrack
  | BridgeMigration _ => BridgeMigrationTrack
  | BridgeUnfreeze => BlacklistKill
  | GuardianRotate _ => ChainUpgrade
  | CommitteeRotate _ => BridgeMigrationTrack
  | AssetRegister _ _ _ _ => BridgeMigrationTrack
  | BridgeAnchorSet _ _ => BridgeMigrationTrack
  | EpochAdvance => BridgeMigrationTrack
  | OperatorRevoke _ => BridgeMigrationTrack
  | FreezeRecovery _ _ _ => FreezeRecoveryTrack
  | Blacklist _ => BlacklistKill
  | Freeze _ => BlacklistKill
  | SetParameter _ _ => ChainUpgrade
  | Spend _ _ _ => MintTrack
  | Unfreeze _ => BlacklistKill
  end.

Definition recovery_scope_preimage (chain_id : Z) (victim : list byte) (seizures : list Seizure)
  : list byte :=
  into_bytes (Encoder_new
    |> put_u64 chain_id
    |> encode vec_u8_codec victim
    |> encode u64_codec (len seizures)
    |> encode_all Seizure_codec seizures).

Definition Action_encode (a : Action) (e : Encoder) : Encoder :=
  match a with
  | Activate feature version =>
      e |> put_u8 1 |> encode vec_u8_codec feature |> put_u64 version
  | Mint to amount => e |> put_u8 2 |> encode vec_u8_codec to |> put_u64 amount
  | BridgeMigration vault => e |> put_u8 3 |> encode vec_u8_codec vault
  | BridgeUnfreeze => e |> put_u8 11
  | GuardianRotate set => e |> put_u8 12 |> encode GuardianSet_codec set
  | CommitteeRotate rotation => e |> put_u8 13 |> encode CommitteeRotation_codec rotation
  | AssetRegister asset_id cap epoch_cap requires_stark =>
      e |> put_u8 14 |> put_bytes asset_id |> put_u128 cap |> put_u128 epoch_cap
        |> put_u8 (bool_u8 requires_stark)
  | BridgeAnchorSet corridor anchor =>
      e |> put_u8 17 |> put_u8 corridor |> put_bytes anchor
  | EpochAdvance => e |> put_u8 15
  | OperatorRevoke i => e |> put_u8 16 |> put_u32 i
  | FreezeRecovery scope victim seizures =>
      e |> put_u8 4 |> put_bytes scope |> encode vec_u8_codec victim
        |> encode u64_codec (len seizures) |> encode_all Seizure_codec seizures
  | Freeze targets =>
      e |> put_u8 5 |> encode u64_codec (len targets) |> encode_all vec_u8_codec targets
  | Blacklist target => e |> put_u8 6 |> encode vec_u8_codec target
  | SetParameter key value =>
      e |> put_u8 8 |> encode vec_u8_codec key |> encode vec_u8_codec value
  | Spend from to amount =>
      e |> put_u8 9 |> encode vec_u8_codec from |> encode vec_u8_codec to |> put_u64 amount
  | Unfreeze targets =>
      e |> put_u8 10 |> encode u64_codec (len targets) |> encode_all vec_u8_codec targets
  end.

Definition Action_body (tag : Z) : Dec Action :=
  if tag =? 1 then
    let* feature := decode vec_u8_codec in
    let* version := get_u64 in
    dret (Activate feature version)
  else if tag =? 2 then
    let* to := decode vec_u8_codec in
    let* amount := get_u64 in
    dret (Mint to amount)
  else if tag =? 3 then let* vault := decode vec_u8_codec in dret (BridgeMigration vault)
  else if tag =? 11 then dret BridgeUnfreeze
  else if tag =? 12 then let* set := decode GuardianSet_codec in dret (GuardianRotate set)
  else if tag =? 13 then
    let* rotation := decode CommitteeRotation_codec in dret (CommitteeRotate rotation)
  else if tag =? 14 then
    let* asset_id := get_array 16 (UnknownTag tag) in
    let* cap := get_u128 in
    let* epoch_cap := get_u128 in
    let* stark := get_u8 in
    dret (AssetRegister asset_id cap epoch_cap (negb (stark =? 0)))
  else if tag =? 15 then dret EpochAdvance
  else if tag =? 16 then let* i := get_u32 in dret (OperatorRevoke i)
  else if tag =? 17 then
    let* corridor := get_u8 in
    let* anchor := get_bytes in
    dret (BridgeAnchorSet corridor anchor)
  else if tag =? 4 then
    let* scope := get_array 32 (UnknownTag tag) in
    let* victim := decode vec_u8_codec in
    let* count := decode u64_codec in
    let* seizures := counted (decode Seizure_codec) count MIN_SEIZURE in
    dret (FreezeRecovery scope victim seizures)
  else if tag =? 5 then
    let* count := decode u64_codec in
    let* targets := counted (decode vec_u8_codec) count MIN_BYTES_VEC in
    dret (Freeze targets)
  else if tag =? 6 then let* target := decode vec_u8_codec in dret (Blacklist target)
  else if tag =? 8 then
    let* key := decode vec_u8_codec in
    let* value := decode vec_u8_codec in
    dret (SetParameter key value)
  else if tag =? 9 then
    let* from := decode vec_u8_codec in
    let* to := decode vec_u8_codec in
    let* amount := get_u64 in
    dret (Spend from to amount)
  else if tag =? 10 then
    let* count := decode u64_codec in
    let* targets := counted (decode vec_u8_codec) count MIN_BYTES_VEC in
    dret (Unfreeze targets)
  else dfail (UnknownTag tag).

Definition Action_decode : Dec Action := let* tag := get_u8 in Action_body tag.

Definition u64_len (bs : list byte) : Prop := u64 (len bs).

Definition Action_valid (a : Action) : Prop :=
  match a with
  | Activate feature version => u64_len feature /\ u64 version
  | Mint to amount => u64_len to /\ u64 amount
  | BridgeMigration vault => u64_len vault
  | BridgeUnfreeze | EpochAdvance => True
  | GuardianRotate set => valid GuardianSet_codec set
  | CommitteeRotate rotation => valid CommitteeRotation_codec rotation
  | AssetRegister asset_id cap epoch_cap _ => length asset_id = 16%nat /\ u128 cap /\ u128 epoch_cap
  | BridgeAnchorSet corridor anchor => u8 corridor /\ u64_len anchor
  | OperatorRevoke i => u32 i
  | FreezeRecovery scope victim seizures =>
      length scope = 32%nat /\ u64_len victim /\ u64 (len seizures) /\
      Forall (valid Seizure_codec) seizures
  | Freeze targets | Unfreeze targets =>
      u64 (len targets) /\ Forall (valid vec_u8_codec) targets
  | Blacklist target => u64_len target
  | SetParameter key value => u64_len key /\ u64_len value
  | Spend from to amount => u64_len from /\ u64_len to /\ u64 amount
  end.

Definition Action_codec : Codec Action := mkCodec Action Action_encode Action_decode Action_valid.

(** ** The constitutional gate *)

Record BridgeFreeze : Type := mkBridgeFreeze { who : list byte; freeze_bond : Z; freeze_until : Z }.

Definition BridgeFreeze_encode (f : BridgeFreeze) (e : Encoder) : Encoder :=
  e |> put_bytes (who f) |> put_u64 (freeze_bond f) |> put_u64 (freeze_until f).

Definition BridgeFreeze_decode : Dec BridgeFreeze :=
  let* w := get_array 32 (UnknownTag 0) in
  let* b := get_u64 in
  let* u := get_u64 in
  dret (mkBridgeFreeze w b u).

Definition BridgeFreeze_codec : Codec BridgeFreeze :=
  mkCodec BridgeFreeze BridgeFreeze_encode BridgeFreeze_decode
    (fun f => length (who f) = 32%nat /\ u64 (freeze_bond f) /\ u64 (freeze_until f)).

Inductive Violation : Type :=
| WrongTrack
| RecoveryOutOfScope
| RecoveryTouchesProtected
| FreezeTouchesProtected
| BlacklistTouchesProtected.

Definition check_enactment (track : Track) (action : Action) (scope_ok : bool)
  (is_protected : list byte -> bool) : Result Violation unit :=
  if negb (bool_decide (Action_track action = track)) then Err WrongTrack
  else match action with
  | FreezeRecovery _ _ seizures =>
      if negb scope_ok then Err RecoveryOutOfScope
      else if existsb (fun s => is_protected (seizure_from s)) seizures
      then Err RecoveryTouchesProtected
      else Ok tt
  | Freeze targets =>
      if existsb is_protected targets then Err FreezeTouchesProtected else Ok tt
  | Blacklist target =>
      if is_protected target then Err BlacklistTouchesProtected else Ok tt
  | _ => Ok tt
  end.

(** ** Referenda *)

Definition ENACTMENT_WINDOW : Z := 30 * DAY_SECONDS.

Inductive Status : Type := Deciding | Approved | Rejected.

#[global] Instance Status_eq_decision : EqDecision Status.
Proof. solve_decision. Defined.

Definition Status_code (s : Status) : Z :=
  match s with Deciding => 0 | Approved => 1 | Rejected => 2 end.

Definition Status_from_code (code : Z) : option Status :=
  if code =? 0 then Some Deciding
  else if code =? 1 then Some Approved
  else if code =? 2 then Some Rejected
  else None.

Record Referendum : Type := mkReferendum {
  ref_id : Z;
  track : Track;
  proposer : list byte;
  deposit : Z;
  submitted_at : Z;
  tally : Tally;
  status : Status;
  killed : bool
}.

Definition Referendum_open (i : Z) (t : Track) (p : list byte) (at_ dep : Z) : Referendum :=
  mkReferendum i t p dep at_ Tally_default Deciding false.

Definition with_status (r : Referendum) (s : Status) : Referendum :=
  mkReferendum (ref_id r) (track r) (proposer r) (deposit r) (submitted_at r) (tally r) s (killed r).

Definition with_tally (r : Referendum) (t : Tally) : Referendum :=
  mkReferendum (ref_id r) (track r) (proposer r) (deposit r) (submitted_at r) t (status r) (killed r).

Definition decides_at (r : Referendum) : Z :=
  saturating_add 64 (submitted_at r) (period_seconds (track r)).

Definition ready (r : Referendum) (now : Z) : bool := decides_at r <=? now.

Definition enactment_opens (r : Referendum) : Z :=
  saturating_add 64 (decides_at r) (enactment_delay (track r)).

Definition enactment_expired (r : Referendum) (now : Z) : bool :=
  saturating_add 64 (enactment_opens r) ENACTMENT_WINDOW <=? now.

Definition enactable (r : Referendum) (now : Z) : bool :=
  (enactment_opens r <=? now) && negb (enactment_expired r now).

Definition resolve (r : Referendum) (now electorate_stake : Z) : Status * Referendum :=
  if negb (bool_decide (status r = Deciding)) then (status r, r)
  else if killed r then (Rejected, with_status r Rejected)
  else if negb (ready r now) then (Deciding, r)
  else
    let s := if approved (tally r) electorate_stake (threshold_bps (track r))
             then Approved else Rejected in
    (s, with_status r s).

Definition deposit_refunded (r : Referendum) (electorate_stake : Z) : bool :=
  negb (killed r) && approved (tally r) electorate_stake (threshold_bps (track r)).

Definition Referendum_encode (r : Referendum) (e : Encoder) : Encoder :=
  e |> put_u64 (ref_id r)
    |> encode Track_codec (track r)
    |> encode vec_u8_codec (proposer r)
    |> put_u64 (deposit r)
    |> put_u64 (submitted_at r)
    |> encode Tally_codec (tally r)
    |> put_u8 (Status_code (status r))
    |> put_u8 (bool_u8 (killed r)).

Definition get_status : Dec Status :=
  let* code := get_u8 in
  match Status_from_code code with Some s => dret s | None => dfail (UnknownTag code) end.

Definition Referendum_decode_with (get_tally : Dec Tally) : Dec Referendum :=
  let* i := get_u64 in
  let* t := decode Track_codec in
  let* p := decode vec_u8_codec in
  let* dep := get_u64 in
  let* at_ := get_u64 in
  let* ta := get_tally in
  let* s := get_status in
  let* k := get_u8 in
  dret (mkReferendum i t p dep at_ ta s (negb (k =? 0))).

Definition Referendum_decode : Dec Referendum := Referendum_decode_with (decode Tally_codec).

Definition Referendum_valid (r : Referendum) : Prop :=
  u64 (ref_id r) /\ u64 (len (proposer r)) /\ u64 (deposit r) /\ u64 (submitted_at r) /\
  Tally_valid (tally r).

Definition Referendum_codec : Codec Referendum :=
  mkCodec Referendum Referendum_encode Referendum_decode Referendum_valid.

Definition legacy_tally : Dec Tally :=
  let* a := get_u128 in
  let* n := get_u128 in
  dret (mkTally a n a n).

(** Decode a whole record, dropping the error. *)
Definition decode_whole {A} (m : Dec A) (bs : list byte) : option A :=
  match m (Decoder_new bs) with
  | Err _ => None
  | Ok (v, d) => match finish d with Ok _ => Some v | Err _ => None end
  end.

Definition referendum_from_stored (bs : list byte) : option Referendum :=
  match from_bytes Referendum_codec bs with
  | Ok r => Some r
  | Err _ => decode_whole (Referendum_decode_with legacy_tally) bs
  end.

Record EnactmentReceipt : Type := mkReceipt {
  receipt_referendum : Z;
  proposal_hash : list byte;
  receipt_scope : list byte;
  receipt_tally : Tally;
  enacted_at : Z
}.

Definition EnactmentReceipt_encode (r : EnactmentReceipt) (e : Encoder) : Encoder :=
  e |> put_u64 (receipt_referendum r)
    |> put_bytes (proposal_hash r)
    |> put_bytes (receipt_scope r)
    |> encode Tally_codec (receipt_tally r)
    |> put_u64 (enacted_at r).

Definition EnactmentReceipt_decode_with (get_tally : Dec Tally) : Dec EnactmentReceipt :=
  let* i := get_u64 in
  let* h := get_array 32 (UnknownTag 0) in
  let* s := get_array 32 (UnknownTag 0) in
  let* t := get_tally in
  let* at_ := get_u64 in
  dret (mkReceipt i h s t at_).

Definition EnactmentReceipt_decode : Dec EnactmentReceipt :=
  EnactmentReceipt_decode_with (decode Tally_codec).

Definition EnactmentReceipt_valid (r : EnactmentReceipt) : Prop :=
  u64 (receipt_referendum r) /\ length (proposal_hash r) = 32%nat /\
  length (receipt_scope r) = 32%nat /\ Tally_valid (receipt_tally r) /\ u64 (enacted_at r).

Definition EnactmentReceipt_codec : Codec EnactmentReceipt :=
  mkCodec EnactmentReceipt EnactmentReceipt_encode EnactmentReceipt_decode EnactmentReceipt_valid.

Definition receipt_from_stored (bs : list byte) : option EnactmentReceipt :=
  match from_bytes EnactmentReceipt_codec bs with
  | Ok r => Some r
  | Err _ => decode_whole (EnactmentReceipt_decode_with legacy_tally) bs
  end.

(** ** Codec laws *)

Lemma reads_counted {A} (c : Codec A) `{!RoundTrip c} xs n lo :
  n = len xs -> 1 <= lo -> u64 n -> Forall (valid c) xs ->
  (forall v, valid c v -> lo <= len (to_bytes c v)) ->
  reads (counted (decode c) n lo) (concat (map (to_bytes c) xs)) xs.
Proof.
  intros -> Hlo Hn Hv Hmin d post [Hp Hl] Hr. unfold counted, bounded_capacity.
  replace (Z.max lo 1) with lo by lia.
  assert (Hb : len xs * lo <= len (concat (map (to_bytes c) xs))).
  { clear Hr Hn. induction Hv as [|x xs Hx _ IH]; simpl; [unfold len; simpl; lia|].
    rewrite len_cons, len_app. specialize (Hmin x Hx). lia. }
  assert (Hrem : len (concat (map (to_bytes c) xs)) <= remaining d).
  { apply (f_equal length) in Hr. rewrite rest_length, length_app in Hr.
    unfold remaining, len. lia. }
  assert (Hdiv : len xs <= remaining d / lo).
  { apply Z.div_le_lower_bound; lia. }
  rewrite wrap_id.
  - destruct (Z.ltb_spec (remaining d / lo) (len xs)); [lia|]. cbn [rbind].
    unfold len. rewrite Nat2Z.id. apply (reads_decode_n _ (to_bytes c)) with post; [|by split|done].
    eapply Forall_impl; [exact Hv|]. intros x Hx. by apply decode_encode.
  - pose proof (len_nonneg xs). unfold in_width. split; [lia|].
    apply Z.div_lt_upper_bound; [lia|]. unfold remaining, ISIZE_MAX, len in *. nia.
Qed.

Lemma counted_Ok {A} (c : Codec A) `{!Canonical c} n lo d xs d' :
  u64 n -> counted (decode c) n lo d = Ok (xs, d') ->
  n = len xs /\ Forall (valid c) xs /\ consumed d (concat (map (to_bytes c) xs)) d'.
Proof.
  intros Hn. unfold counted. destruct (bounded_capacity _ _ _); [|done]. cbn [rbind]. intros H.
  apply (decode_n_consumed _ (to_bytes c) (valid c)) in H as (Hl & Hv & Hc).
  - split; [unfold len, in_width in *; lia|done].
  - intros. by apply decode_canonical.
Qed.

Lemma reads_get_array n e bs :
  length bs = n -> u64 (Z.of_nat n) -> reads (get_array n e) (bytes_image bs) bs.
Proof.
  intros Hl Hn. eapply reads_map; [apply reads_get_bytes; unfold len; by rewrite Hl|].
  unfold try_array. rewrite (proj2 (Nat.eqb_eq _ _) Hl). apply reads_ret.
Qed.

Lemma get_array_Ok n e d bs d' :
  get_array n e d = Ok (bs, d') -> length bs = n /\ consumed d (bytes_image bs) d'.
Proof.
  intros (b & d1 & [_ Hc]%get_bytes_Ok & H)%dbind_Ok. unfold try_array in H.
  destruct (Nat.eqb_spec (length b) n); [|done]. by apply dret_Ok in H as [<- <-].
Qed.

#[export] Hint Extern 1 (reads (get_array _ _) _ _) =>
  (apply reads_get_array; [done|vm_compute; split; [discriminate|reflexivity]]) : codec.

Lemma Track_from_code_code t : Track_from_code (Track_code t) = Some t.
Proof. by destruct t. Qed.

Lemma Track_from_code_Some code t : Track_from_code code = Some t -> code = Track_code t.
Proof.
  unfold Track_from_code. intros [_ H]%find_some. by apply Z.eqb_eq in H.
Qed.

#[export] Instance Track_appends : Appends Track_codec.
Proof. unfold Track_codec, Track_encode. codec_appends. Qed.
#[export] Instance Track_roundtrip : RoundTrip Track_codec.
Proof.
  intros t _. unfold Track_codec, Track_encode, Track_decode. codec_image. cbn [decode].
  eapply reads_map; [apply reads_get_u8; by destruct t|].
  rewrite Track_from_code_code. apply reads_ret.
Qed.
#[export] Instance Track_canonical : Canonical Track_codec.
Proof.
  intros d t d' H. unfold Track_codec, Track_decode in H. cbn [decode] in H. dec_inv.
  destruct (Track_from_code x) as [t'|] eqn:E; dec_inv. apply Track_from_code_Some in E as ->.
  split; [done|]. unfold Track_codec, Track_encode. codec_image. done.
Qed.

#[export] Instance Conviction_appends : Appends Conviction_codec.
Proof. unfold Conviction_codec, Conviction_encode. codec_appends. Qed.
#[export] Instance Conviction_roundtrip : RoundTrip Conviction_codec.
Proof.
  intros c _. unfold Conviction_codec, Conviction_encode, Conviction_decode. codec_image.
  cbn [decode]. eapply reads_map; [apply reads_get_u8; by destruct c|].
  destruct c; apply reads_ret.
Qed.
#[export] Instance Conviction_canonical : Canonical Conviction_codec.
Proof.
  intros d c d' H. unfold Conviction_codec, Conviction_decode in H. cbn [decode] in H. dec_inv.
  destruct (Conviction_from_code x) as [c'|] eqn:E; dec_inv. split; [done|].
  assert (x = Conviction_code c) as ->; [|done].
  unfold Conviction_from_code in E. repeat case_in E; simplify_eq; bool_to_prop; done.
Qed.

Lemma reads_get_flag b : reads get_flag [byte_of (bool_u8 b)] b.
Proof.
  eapply reads_map; [apply reads_get_u8; by destruct b|]. destruct b; apply reads_ret.
Qed.

Lemma get_flag_Ok d b d' : get_flag d = Ok (b, d') -> consumed d [byte_of (bool_u8 b)] d'.
Proof. intros H. unfold get_flag in H. dec_inv; bool_to_prop; by subst. Qed.

Lemma reads_get_status s : reads get_status [byte_of (Status_code s)] s.
Proof.
  eapply reads_map; [apply reads_get_u8; by destruct s|]. destruct s; apply reads_ret.
Qed.

Lemma get_status_Ok d s d' : get_status d = Ok (s, d') -> consumed d [byte_of (Status_code s)] d'.
Proof.
  intros H. unfold get_status in H. dec_inv.
  destruct (Status_from_code x) as [s'|] eqn:E; dec_inv.
  assert (x = Status_code s) as <-; [|done].
  unfold Status_from_code in E. repeat case_in E; simplify_eq; bool_to_prop; done.
Qed.

#[export] Hint Resolve reads_get_flag reads_get_status : codec.

Ltac dec_inv_hook ::=
  match goal with
  | H : get_flag _ = Ok _ |- _ => apply get_flag_Ok in H
  | H : get_status _ = Ok _ |- _ => apply get_status_Ok in H
  | H : get_array _ _ _ = Ok _ |- _ => apply get_array_Ok in H as [? ?]
  | H : counted (decode ?c) _ _ _ = Ok _ |- _ =>
      apply (@counted_Ok _ c _) in H as (? & ? & ?); [subst|done]
  end.

#[export] Instance Ballot_appends : Appends Ballot_codec.
Proof. unfold Ballot_codec, Ballot_encode. codec_appends. Qed.
#[export] Instance Ballot_roundtrip : RoundTrip Ballot_codec.
Proof. unfold Ballot_codec, Ballot_encode, Ballot_decode. codec_roundtrip. Qed.
#[export] Instance Ballot_canonical : Canonical Ballot_codec.
Proof. unfold Ballot_codec, Ballot_encode, Ballot_decode. codec_canonical. Qed.

#[export] Instance Lock_appends : Appends Lock_codec.
Proof. unfold Lock_codec, Lock_encode. codec_appends. Qed.
#[export] Instance Lock_roundtrip : RoundTrip Lock_codec.
Proof. unfold Lock_codec, Lock_encode, Lock_decode. codec_roundtrip. Qed.
#[export] Instance Lock_canonical : Canonical Lock_codec.
Proof. unfold Lock_codec, Lock_encode, Lock_decode. codec_canonical. Qed.

#[export] Instance Tally_appends : Appends Tally_codec.
Proof. unfold Tally_codec, Tally_encode. codec_appends. Qed.
#[export] Instance Tally_roundtrip : RoundTrip Tally_codec.
Proof. unfold Tally_codec, Tally_encode, Tally_decode, Tally_valid. codec_roundtrip. Qed.
#[export] Instance Tally_canonical : Canonical Tally_codec.
Proof. unfold Tally_codec, Tally_encode, Tally_decode, Tally_valid. codec_canonical. Qed.

#[export] Instance Seizure_appends : Appends Seizure_codec.
Proof. unfold Seizure_codec, Seizure_encode. codec_appends. Qed.
#[export] Instance Seizure_roundtrip : RoundTrip Seizure_codec.
Proof. unfold Seizure_codec, Seizure_encode, Seizure_decode. codec_roundtrip. Qed.
#[export] Instance Seizure_canonical : Canonical Seizure_codec.
Proof. unfold Seizure_codec, Seizure_encode, Seizure_decode. codec_canonical. Qed.

#[export] Instance OperatorClaim_appends : Appends OperatorClaim_codec.
Proof. unfold OperatorClaim_codec, OperatorClaim_encode. codec_appends. Qed.
#[export] Instance OperatorClaim_roundtrip : RoundTrip OperatorClaim_codec.
Proof. unfold OperatorClaim_codec, OperatorClaim_encode, OperatorClaim_decode. codec_roundtrip. Qed.
#[export] Instance OperatorClaim_canonical : Canonical OperatorClaim_codec.
Proof. unfold OperatorClaim_codec, OperatorClaim_encode, OperatorClaim_decode. codec_canonical. Qed.

#[export] Instance member_appends : Appends member_codec.
Proof. intros v e. apply buf_put_bytes. Qed.
#[export] Instance member_roundtrip : RoundTrip member_codec.
Proof. intros v Hv. cbn [decode member_codec array_codec]. eauto with codec. Qed.
#[export] Instance member_canonical : Canonical member_codec.
Proof. intros d v d' H. by apply get_array_Ok in H. Qed.

Lemma len_bytes_image bs : len (bytes_image bs) = 8 + len bs.
Proof. unfold bytes_image. rewrite len_app. unfold len at 1. by rewrite length_to_le. Qed.

Lemma len_to_le n z : len (to_le n z) = Z.of_nat n.
Proof. unfold len. by rewrite length_to_le. Qed.

#[export] Hint Rewrite len_bytes_image len_to_le : chain.

(** Every element of a counted list is at least as long as the bound the
    decoder divides by, so the bound refuses no valid message. *)
Lemma vec_u8_min v : MIN_BYTES_VEC <= len (to_bytes vec_u8_codec v).
Proof.
  rewrite to_bytes_vec, len_bytes_image. unfold MIN_BYTES_VEC. pose proof (len_nonneg v). lia.
Qed.

Lemma member_min v : valid member_codec v -> MIN_SEIZURE <= len (to_bytes member_codec v).
Proof.
  intros Hv. change (to_bytes member_codec v) with (bytes_image v).
  rewrite len_bytes_image. unfold MIN_SEIZURE, len. cbn in Hv. lia.
Qed.

Lemma Seizure_min s : MIN_SEIZURE <= len (to_bytes Seizure_codec s).
Proof.
  unfold Seizure_codec, Seizure_encode. codec_image. rewrite to_bytes_vec.
  autorewrite with chain. unfold MIN_SEIZURE. pose proof (len_nonneg (seizure_from s)). lia.
Qed.

Lemma OperatorClaim_min o : MIN_BYTES_VEC <= len (to_bytes OperatorClaim_codec o).
Proof.
  unfold OperatorClaim_codec, OperatorClaim_encode. codec_image.
  autorewrite with chain. unfold MIN_BYTES_VEC.
  pose proof (len_nonneg (public_key o)). pose proof (len_nonneg (pop o)). lia.
Qed.

#[export] Hint Extern 1 (reads (counted _ _ _) _ _) =>
  (apply reads_counted; [apply _|done|vm_compute; discriminate|done|done|
    intros; first [apply vec_u8_min|by apply member_min|apply Seizure_min|apply OperatorClaim_min]])
  : codec.

#[export] Instance CommitteeRotation_appends : Appends CommitteeRotation_codec.
Proof. unfold CommitteeRotation_codec, CommitteeRotation_encode. codec_appends. Qed.
#[export] Instance CommitteeRotation_roundtrip : RoundTrip CommitteeRotation_codec.
Proof.
  unfold CommitteeRotation_codec, CommitteeRotation_encode, CommitteeRotation_decode.
  codec_roundtrip.
Qed.
#[export] Instance CommitteeRotation_canonical : Canonical CommitteeRotation_codec.
Proof.
  unfold CommitteeRotation_codec, CommitteeRotation_encode, CommitteeRotation_decode.
  codec_canonical.
Qed.

#[export] Instance GuardianSet_appends : Appends GuardianSet_codec.
Proof. unfold GuardianSet_codec, GuardianSet_encode. codec_appends. Qed.
#[export] Instance GuardianSet_roundtrip : RoundTrip GuardianSet_codec.
Proof. unfold GuardianSet_codec, GuardianSet_encode, GuardianSet_decode. codec_roundtrip. Qed.
#[export] Instance GuardianSet_canonical : Canonical GuardianSet_codec.
Proof. unfold GuardianSet_codec, GuardianSet_encode, GuardianSet_decode. codec_canonical. Qed.

#[export] Instance BridgeFreeze_appends : Appends BridgeFreeze_codec.
Proof. unfold BridgeFreeze_codec, BridgeFreeze_encode. codec_appends. Qed.
#[export] Instance BridgeFreeze_roundtrip : RoundTrip BridgeFreeze_codec.
Proof. unfold BridgeFreeze_codec, BridgeFreeze_encode, BridgeFreeze_decode. codec_roundtrip. Qed.
#[export] Instance BridgeFreeze_canonical : Canonical BridgeFreeze_codec.
Proof. unfold BridgeFreeze_codec, BridgeFreeze_encode, BridgeFreeze_decode. codec_canonical. Qed.

#[export] Instance Receipt_appends : Appends EnactmentReceipt_codec.
Proof. unfold EnactmentReceipt_codec, EnactmentReceipt_encode. codec_appends. Qed.
#[export] Instance Receipt_roundtrip : RoundTrip EnactmentReceipt_codec.
Proof.
  unfold EnactmentReceipt_codec, EnactmentReceipt_encode, EnactmentReceipt_decode,
    EnactmentReceipt_decode_with, EnactmentReceipt_valid. codec_roundtrip.
Qed.
#[export] Instance Receipt_canonical : Canonical EnactmentReceipt_codec.
Proof.
  unfold EnactmentReceipt_codec, EnactmentReceipt_encode, EnactmentReceipt_decode,
    EnactmentReceipt_decode_with, EnactmentReceipt_valid. codec_canonical.
Qed.

#[export] Instance Action_appends : Appends Action_codec.
Proof.
  intros a e. unfold Action_codec, Action_encode. destruct a; codec_image; reflexivity.
Qed.
#[export] Instance Action_roundtrip : RoundTrip Action_codec.
Proof.
  intros a Ha. unfold Action_codec, Action_encode, Action_decode. cbn [valid Action_codec] in Ha.
  destruct a; cbn [Action_valid] in Ha; destruct_and?; codec_image; cbn [decode];
    first [ eapply reads_bind; [by apply reads_get_u8|] | eapply reads_map; [by apply reads_get_u8|] ];
    cbv [Action_body Z.eqb Pos.eqb]; reads_fields.
  destruct requires_stark; (eapply reads_map; [by apply reads_get_u8|]); apply reads_ret.
Qed.

(** Only a registered asset's flag is read more leniently than it is written. *)
Definition lenient (a : Action) : bool :=
  match a with AssetRegister _ _ _ _ => true | _ => false end.

Lemma Action_decode_consumed d a d' :
  decode Action_codec d = Ok (a, d') ->
  Action_valid a /\ (lenient a = false -> consumed d (to_bytes Action_codec a) d').
Proof.
  intros H. unfold Action_codec, Action_decode in H. cbn [decode] in H. dec_inv.
  unfold Action_body in H.
  repeat (case_in H; [bool_to_prop; subst; dec_inv; split;
    [cbn [Action_valid]; unfold u64_len; split_and?; done
    |intros Hl; first [discriminate Hl
      |unfold Action_codec, Action_encode; codec_image; rewrite ?app_nil_r; consumed_chain]]|]).
  dec_inv.
Qed.

#[export] Instance Referendum_appends : Appends Referendum_codec.
Proof. unfold Referendum_codec, Referendum_encode. codec_appends. Qed.

Lemma reads_referendum_with (get_tally : Dec Tally) image r :
  Referendum_valid r -> reads get_tally image (tally r) ->
  reads (Referendum_decode_with get_tally)
    (to_le 8 (ref_id r) ++ to_bytes Track_codec (track r) ++ to_bytes vec_u8_codec (proposer r) ++
     to_le 8 (deposit r) ++ to_le 8 (submitted_at r) ++ image ++
     [byte_of (Status_code (status r))] ++ [byte_of (bool_u8 (killed r))]) r.
Proof.
  unfold Referendum_valid, Referendum_decode_with. intros Hr Ht. destruct_and?.
  reads_fields.
  destruct r as [? ? ? ? ? ? ? []]; (eapply reads_map; [by apply reads_get_u8|]); apply reads_ret.
Qed.

#[export] Instance Referendum_roundtrip : RoundTrip Referendum_codec.
Proof.
  intros r Hr. unfold Referendum_codec, Referendum_encode. codec_image.
  apply (reads_referendum_with (decode Tally_codec)); [done|].
  apply decode_encode. apply Hr.
Qed.

(** ** Stored records of the previous layout *)

(** The layout before conviction weights were stored: two stakes, no weights. *)
Definition legacy_tally_image (t : Tally) : list byte :=
  to_le 16 (aye_stake t) ++ to_le 16 (nay_stake t).

Definition legacy_referendum_image (r : Referendum) : list byte :=
  to_le 8 (ref_id r) ++ to_bytes Track_codec (track r) ++ to_bytes vec_u8_codec (proposer r) ++
  to_le 8 (deposit r) ++ to_le 8 (submitted_at r) ++ legacy_tally_image (tally r) ++
  [byte_of (Status_code (status r))] ++ [byte_of (bool_u8 (killed r))].

Definition unweighted (t : Tally) : Prop :=
  aye_weight t = aye_stake t /\ nay_weight t = nay_stake t.

Lemma reads_legacy_tally t :
  Tally_valid t -> unweighted t -> reads legacy_tally (legacy_tally_image t) t.
Proof.
  destruct t as [a n aw nw]. unfold Tally_valid, unweighted.
  cbn [aye_stake nay_stake aye_weight nay_weight]. intros (Ha & Hn & _) [-> ->].
  eapply reads_bind; [by apply reads_get_u128|]. eapply reads_map; [by apply reads_get_u128|].
  apply reads_ret.
Qed.

(** A decoder that refuses every input whose unread part is [bs]. *)
Definition refuses {A} (m : Dec A) (bs : list byte) : Prop :=
  forall d, fits d -> rest d = bs -> exists e, m d = Err e.

Lemma refuses_bind {A B} (m : Dec A) (k : A -> Dec B) b1 b2 v :
  reads m b1 v -> refuses (k v) b2 -> refuses (dbind m k) (b1 ++ b2).
Proof.
  intros Hm Hk d Hf Hr. unfold dbind. rewrite (Hm d b2 Hf Hr).
  destruct (fits_advance _ _ _ Hf Hr). by apply Hk.
Qed.

Lemma Tally_decode_short d :
  (length (rest d) < 64)%nat -> exists e, decode Tally_codec d = Err e.
Proof.
  intros Hl. destruct (decode Tally_codec d) as [[t d']|e] eqn:E; [|by eexists].
  apply (decode_canonical (c := Tally_codec)) in E as [_ [Hr _]]. exfalso.
  apply (f_equal length) in Hr. revert Hr. unfold Tally_codec, Tally_encode. codec_image.
  rewrite !length_app, !length_to_le. lia.
Qed.

Lemma legacy_not_current r :
  Referendum_valid r -> refuses (decode Referendum_codec) (legacy_referendum_image r).
Proof.
  intros (Hi & Hp & Hd & Hs & Ht). unfold legacy_referendum_image.
  unfold Referendum_codec, Referendum_decode, Referendum_decode_with. cbn [decode].
  do 5 (eapply refuses_bind; [eauto with codec; by apply decode_encode|]).
  intros d Hf Hr. unfold dbind at 1. edestruct Tally_decode_short as [e ->]; [|by exists e].
  rewrite Hr. unfold legacy_tally_image. rewrite !length_app, !length_to_le. cbn. lia.
Qed.

Lemma decode_whole_reads {A} (m : Dec A) bs v :
  reads m bs v -> len bs <= ISIZE_MAX -> decode_whole m bs = Some v.
Proof.
  intros Hm Hl. unfold decode_whole.
  rewrite (Hm (Decoder_new bs) []); [|split; [cbn; lia|done]|unfold rest; cbn; by rewrite app_nil_r].
  unfold finish. cbn. by rewrite Nat.eqb_refl.
Qed.

(** ** Guardian quorums *)

Lemma authorizes_loop_spec g seen approvers :
  NoDup seen -> (forall x, x ∈ seen -> x ∈ members g) ->
  let s := authorizes_loop g seen approvers in
  NoDup s /\ (forall x, x ∈ s -> x ∈ members g) /\
  (forall x, x ∈ s -> x ∈ seen \/ x ∈ approvers).
Proof.
  unfold authorizes_loop. revert seen.
  induction approvers as [|a approvers IH]; intros seen Hn Hm; simpl.
  - split_and!; auto.
  - match goal with |- context [foldl _ ?s approvers] => set (seen' := s) end.
    assert (H : NoDup seen' /\ (forall x, x ∈ seen' -> x ∈ members g) /\
      (forall x, x ∈ seen' -> x ∈ seen \/ x = a)).
    { unfold seen', is_member. destruct (_ && _) eqn:E; [|split_and!; auto].
      apply andb_true_iff in E as [Ha%bool_decide_eq_true Hs%negb_true_iff%bool_decide_eq_false].
      split_and!.
      - apply NoDup_app. split_and!; [done| |apply NoDup_singleton]. set_solver.
      - set_solver.
      - set_solver. }
    destruct H as (Hn' & Hm' & Hs'). destruct (IH seen' Hn' Hm') as (H1 & H2 & H3).
    split_and!; [done|done|]. intros x Hx. destruct (H3 x Hx) as [Hx'|Hx']; [|set_solver].
    destruct (Hs' x Hx') as [?| ->]; set_solver.
Qed.

Lemma authorizes_quorum g approvers :
  authorizes g approvers = true ->
  2 <= threshold g /\ len (members g) < 2 * threshold g /\
  exists q, NoDup q /\ threshold g <= len q /\
    (forall x, x ∈ q -> x ∈ members g) /\ (forall x, x ∈ q -> x ∈ approvers).
Proof.
  unfold authorizes. destruct (well_formed g) eqn:Hw; [|done]. cbn [negb]. intros Ht.
  unfold well_formed in Hw. bool_to_prop. unfold saturating_mul in *.
  split; [done|]. split; [lia|].
  destruct (authorizes_loop_spec g [] approvers) as (Hn & Hm & Ha);
    [constructor|set_solver|].
  exists (authorizes_loop g [] approvers). split_and!; [done| |done|set_solver].
  etrans; [exact Ht|]. apply Z.mod_le; [apply len_nonneg|done].
Qed.

(** Two duplicate-free lists inside a set too small to hold both apart meet. *)
Lemma pigeonhole_meet {A} `{EqDecision A} (u p q : list A) :
  NoDup p -> NoDup q -> (forall x, x ∈ p -> x ∈ u) -> (forall x, x ∈ q -> x ∈ u) ->
  (length u < length p + length q)%nat -> exists x, x ∈ p /\ x ∈ q.
Proof.
  intros Hp Hq Hpu Hqu Hl.
  destruct (decide (Exists (fun x => x ∈ q) p)) as [He|Hne].
  - apply Exists_exists in He as (x & ? & ?). by exists x.
  - exfalso. assert (Hpq : NoDup (p ++ q)).
    { apply NoDup_app. split_and!; [done| |done]. intros x Hx Hxq. apply Hne.
      apply Exists_exists. by exists x. }
    assert (Hsub : p ++ q ⊆ u) by (intros x Hx; apply elem_of_app in Hx; naive_solver).
    pose proof (NoDup_submseteq _ _ Hpq Hsub) as Hs%submseteq_length.
    rewrite length_app in Hs. lia.
Qed.

(** ** Counting ballots *)

(** One vote of the ledger: [referendum.tally.record_conviction(aye, conviction, stake)]. *)
Definition cast (t : Tally) (b : Ballot) : Tally :=
  record_conviction t (aye b) (conviction b) (stake b).

Definition tally_of (ballots : list Ballot) : Tally := foldl cast Tally_default ballots.

(** The sum of [f] over the ballots on one side, in unbounded arithmetic. *)
Definition side_sum (side : bool) (f : Ballot -> Z) (ballots : list Ballot) : Z :=
  list_sum (map (fun b => if eqb (aye b) side then f b else 0) ballots).

Definition count_ideal (ballots : list Ballot) : Tally :=
  mkTally (side_sum true stake ballots) (side_sum false stake ballots)
    (side_sum true Ballot_weight ballots) (side_sum false Ballot_weight ballots).

Lemma Conviction_weight_bound c s : 0 <= s -> s <= Conviction_weight c s <= 3 * s.
Proof.
  intros Hs. unfold Conviction_weight.
  assert (10 <= factor_x10 c <= 25) by (destruct c; cbn; lia).
  split; [apply Z.div_le_lower_bound|apply Z.div_le_upper_bound]; nia.
Qed.

Lemma side_sum_bound side f ballots hi :
  (forall b, b ∈ ballots -> 0 <= f b <= hi) -> 0 <= hi ->
  0 <= side_sum side f ballots <= hi * len ballots.
Proof.
  intros Hf Hhi. unfold side_sum. induction ballots as [|b ballots IH].
  - unfold len. cbn. lia.
  - unfold len in *. cbn [map list_sum foldr length].
    destruct (IH ltac:(set_solver)) as [H1 H2]. pose proof (Hf b ltac:(set_solver)).
    unfold list_sum in *. destruct (eqb (aye b) side); lia.
Qed.

Lemma side_sum_perm side f k l : k ≡ₚ l -> side_sum side f k = side_sum side f l.
Proof. unfold side_sum, list_sum. induction 1; cbn; lia. Qed.

(** As long as the running sums stay below [2^128] the fold saturates nowhere. *)
Lemma tally_of_ideal ballots :
  Forall (fun b => u64 (stake b)) ballots -> len ballots < 2 ^ 62 ->
  tally_of ballots = count_ideal ballots.
Proof.
  induction ballots as [|b ballots IH] using rev_ind; intros Hv Hl; [done|].
  apply Forall_app in Hv as [Hv [Hb _]%Forall_cons]. unfold len in *. rewrite length_app in Hl.
  cbn in Hl. unfold tally_of. rewrite foldl_app. cbn [foldl].
  fold (tally_of ballots). rewrite IH by (try done; lia).
  assert (Hs : forall x, x ∈ ballots -> 0 <= stake x <= 2 ^ 64).
  { intros x Hx. rewrite Forall_forall in Hv. specialize (Hv x Hx). width_lia. }
  assert (Hw : forall x, x ∈ ballots -> 0 <= Ballot_weight x <= 3 * 2 ^ 64).
  { intros x Hx. specialize (Hs x Hx). unfold Ballot_weight.
    pose proof (Conviction_weight_bound (conviction x) (stake x)). lia. }
  pose proof (Conviction_weight_bound (conviction b) (stake b)).
  pose proof (side_sum_bound true stake ballots _ Hs).
  pose proof (side_sum_bound false stake ballots _ Hs).
  pose proof (side_sum_bound true Ballot_weight ballots _ Hw).
  pose proof (side_sum_bound false Ballot_weight ballots _ Hw).
  unfold cast, record_conviction, record_weighted, count_ideal, side_sum, len in *.
  rewrite !map_app, !list_sum_app. unfold saturating_add, in_width, Ballot_weight in *.
  destruct b as [[] c s]; cbn in *; f_equal; lia.
Qed.

(** ** Claims *)

(** Counting is exact.  For any ballots with [u64] stakes, fewer than 2^40 of
    them, the saturating tally of the code carries the true sums, in whatever
    order the ballots were cast, and [Tally::approved] is decided by the ideal
    inequalities: a quarter of the electorate turned out, the ayes hold the
    track's share of the whole electorate, and the ayes strictly outnumber the
    nays both by stake and by conviction weight. *)
Theorem approval_counts_exactly ballots ballots' e t :
  Forall (fun b => u64 (stake b)) ballots -> len ballots < 2 ^ 40 -> in_width 100 e ->
  ballots ≡ₚ ballots' ->
  let ayes := side_sum true stake ballots in
  let nays := side_sum false stake ballots in
  approved (tally_of ballots') e (threshold_bps t) = true <->
  0 < e /\ e * PARTICIPATION_FLOOR_BPS <= (ayes + nays) * GOV_BPS_DENOM /\
  e * threshold_bps t <= ayes * GOV_BPS_DENOM /\ nays < ayes /\
  side_sum false Ballot_weight ballots < side_sum true Ballot_weight ballots.
Proof.
  intros Hv Hl He Hp. cbn zeta. rewrite tally_of_ideal.
  2:{ by rewrite <- Hp. } 2:{ unfold len in *. rewrite <- Hp. lia. }
  unfold count_ideal. rewrite <- !(side_sum_perm _ _ _ _ Hp).
  assert (Hs : forall x, x ∈ ballots -> 0 <= stake x <= 2 ^ 64).
  { intros x Hx. rewrite Forall_forall in Hv. specialize (Hv x Hx). width_lia. }
  pose proof (side_sum_bound true stake ballots _ Hs).
  pose proof (side_sum_bound false stake ballots _ Hs).
  assert (6667 <= threshold_bps t <= 7500) by (destruct t; cbn; lia).
  assert (e * threshold_bps t <= 2 ^ 100 * 7500) by (unfold in_width in He; nia).
  unfold approved, turnout, saturating_mul, saturating_add, in_width,
    PARTICIPATION_FLOOR_BPS, GOV_BPS_DENOM in *. cbn [aye_stake nay_stake aye_weight nay_weight].
  rewrite !andb_true_iff, !Z.ltb_lt, !Z.leb_le. lia.
Qed.

Lemma approval_counts_exactly_witness :
  let b := [mkBallot true Year 300; mkBallot false Liquid 20] in
  let b' := [mkBallot false Liquid 20; mkBallot true Year 300] in
  approved (tally_of b') 400 (threshold_bps MintTrack) = true <->
  0 < 400 /\ 400 * PARTICIPATION_FLOOR_BPS <= (300 + 20) * GOV_BPS_DENOM /\
  400 * threshold_bps MintTrack <= 300 * GOV_BPS_DENOM /\ 20 < 300 /\ 20 < 450.
Proof.
  apply (approval_counts_exactly [mkBallot true Year 300; mkBallot false Liquid 20]
    [mkBallot false Liquid 20; mkBallot true Year 300] 400 MintTrack).
  - repeat constructor; cbn; unfold in_width; lia.
  - vm_compute. reflexivity.
  - unfold in_width. lia.
  - apply perm_swap.
Defined.

(** Successive polls of a referendum, each with its time and its electorate. *)
Definition resolve_all (r : Referendum) (polls : list (Z * Z)) : Referendum :=
  foldl (fun r '(now, e) => (resolve r now e).2) r polls.

Lemma resolve_settled r now e : status r <> Deciding -> resolve r now e = (status r, r).
Proof. intros Hs. unfold resolve. by rewrite bool_decide_eq_false_2. Qed.

Lemma resolve_all_settled r polls : status r <> Deciding -> resolve_all r polls = r.
Proof.
  intros Hs. unfold resolve_all. induction polls as [|[now e] polls IH]; [done|].
  cbn. by rewrite resolve_settled.
Qed.

Lemma resolve_deciding r now e :
  status r = Deciding ->
  let r' := (resolve r now e).2 in
  (status r' = Deciding /\ r' = r) \/ status r' = Rejected \/
  (status r' = Approved /\ killed r = false /\ ready r now = true /\
   approved (tally r) e (threshold_bps (track r)) = true).
Proof.
  intros Hs. unfold resolve. rewrite bool_decide_eq_true_2 by done. cbn [negb].
  destruct (killed r); [by auto|]. destruct (ready r now); cbn; [|by auto].
  destruct (approved _ _ _); cbn; auto 6.
Qed.

(** The outcome of a referendum is final and approval is earned.  Over any
    sequence of [Referendum::resolve] calls on a deciding referendum, the first
    verdict is the last: once the prefix [p] has settled the record, no later
    poll, whatever its time and electorate, changes a field of it.  And a
    referendum that ends up approved was not killed and passed
    [Tally::approved] at a poll held after its deciding period ended. *)
Theorem verdict_final_and_earned r p q :
  status r = Deciding ->
  (status (resolve_all r p) <> Deciding -> resolve_all r (p ++ q) = resolve_all r p) /\
  (status (resolve_all r p) = Approved ->
   killed r = false /\
   exists now e, (now, e) ∈ p /\ decides_at r <= now /\
     approved (tally r) e (threshold_bps (track r)) = true).
Proof.
  intros Hs. split.
  - intros Hp. unfold resolve_all. rewrite foldl_app. by apply (resolve_all_settled _ q).
  - induction p as [|[now e] p IH]; [cbn; congruence|].
    change (resolve_all r ((now, e) :: p)) with (resolve_all (resolve r now e).2 p).
    destruct (resolve_deciding r now e Hs) as [[_ ->]|[Hr|(Ha & Hk & Hn & Hok)]].
    + intros Hp. destruct (IH Hp) as (? & now' & e' & Hin & ?). split; [done|].
      exists now', e'. split; [by right|done].
    + rewrite resolve_all_settled by congruence. congruence.
    + intros _. split; [done|]. exists now, e. unfold ready in Hn. bool_to_prop.
      split; [by left|done].
Qed.

Lemma verdict_final_and_earned_witness :
  let r := with_tally (Referendum_open 7 MintTrack [] 1000 5) (tally_of [mkBallot true Year 300]) in
  let p := [(1000, 400); (1000 + 3 * DAY_SECONDS, 400)] in
  status (resolve_all r p) = Approved /\ resolve_all r (p ++ [(2 ^ 40, 2 ^ 60)]) = resolve_all r p.
Proof.
  cbn zeta. split; [vm_compute; reflexivity|].
  apply (verdict_final_and_earned
    (with_tally (Referendum_open 7 MintTrack [] 1000 5) (tally_of [mkBallot true Year 300]))
    [(1000, 400); (1000 + 3 * DAY_SECONDS, 400)] [(2 ^ 40, 2 ^ 60)]).
  - reflexivity.
  - vm_compute. discriminate.
Defined.

(** Any two sets of approvers that [GuardianSet::authorizes] accepts share a
    member of the set: the guardians cannot authorize two conflicting actions
    without one guardian having approved both.  Listing an approver twice or
    adding strangers never helps, since only distinct members are counted. *)
Theorem guardian_quorums_intersect g p q :
  authorizes g p = true -> authorizes g q = true ->
  exists x, x ∈ members g /\ x ∈ p /\ x ∈ q.
Proof.
  intros (_ & Hw & p' & Hp1 & Hp2 & Hp3 & Hp4)%authorizes_quorum
    (_ & _ & q' & Hq1 & Hq2 & Hq3 & Hq4)%authorizes_quorum.
  destruct (pigeonhole_meet (members g) p' q') as (x & Hx & Hy); try done.
  - unfold len in *. lia.
  - exists x. auto.
Qed.

Lemma guardian_quorums_intersect_witness :
  let m := fun b => replicate 32 b in
  let g := mkGuardianSet [m x01; m x02; m x03] 2 in
  exists x, x ∈ members g /\ x ∈ [m x01; m x02] /\ x ∈ [m x02; m x02; m x03; m x09].
Proof.
  apply (guardian_quorums_intersect
    (mkGuardianSet [replicate 32 x01; replicate 32 x02; replicate 32 x03] 2)
    [replicate 32 x01; replicate 32 x02]
    [replicate 32 x02; replicate 32 x02; replicate 32 x03; replicate 32 x09]);
    vm_compute; reflexivity.
Defined.

(** The accounts an action takes funds or the use of funds from. *)
Definition touched (a : Action) : list (list byte) :=
  match a with
  | FreezeRecovery _ _ seizures => map seizure_from seizures
  | Freeze targets => targets
  | Blacklist target => [target]
  | _ => []
  end.

Definition in_scope (a : Action) (scope_ok : bool) : bool :=
  match a with FreezeRecovery _ _ _ => scope_ok | _ => true end.

(** The constitutional gate.  [check_enactment] lets an action through exactly
    when it is enacted on its own track, a recovery matches the scope that was
    voted on, and no account it seizes from, freezes or blacklists is
    protected; everything else is a [Violation]. *)
Theorem enactment_gate track action scope_ok is_protected :
  check_enactment track action scope_ok is_protected = Ok tt <->
  Action_track action = track /\ in_scope action scope_ok = true /\
  (forall x, x ∈ touched action -> is_protected x = false).
Proof.
  unfold check_enactment. case_bool_decide as Ht; cbn [negb]; [|naive_solver].
  assert (Hex : forall (f : list byte -> bool) l,
    existsb f l = false <-> (forall x, x ∈ l -> f x = false)).
  { intros f l. induction l as [|y l IH]; cbn; [set_solver|].
    rewrite orb_false_iff, IH. set_solver. }
  assert (Hmap : forall l, existsb (fun s => is_protected (seizure_from s)) l =
    existsb is_protected (map seizure_from l)) by (induction l; cbn; congruence).
  assert (Hnil : forall x : list byte, x ∈ [] -> is_protected x = false) by (intros x []%not_elem_of_nil).
  destruct action; cbn [touched in_scope]; rewrite ?Hmap; try tauto.
  - destruct scope_ok; cbn [negb]; [|naive_solver].
    rewrite <- Hex. destruct (existsb _ _); naive_solver.
  - rewrite <- Hex. destruct (existsb _ _); naive_solver.
  - rewrite <- Hex. cbn. rewrite orb_false_r. destruct (is_protected target); naive_solver.
Qed.

(** The action decoder inverts the encoder and admits one encoding per action,
    asset registration apart.  Every well-formed action is read back from its
    own encoding, and for every other kind of action a byte string decodes to
    [a] only if it is the encoding of [a], so two distinct proposals never
    share bytes and one proposal never has two hashes. *)
Theorem Action_wire a bs :
  len bs <= ISIZE_MAX ->
  (Action_valid a /\ bs = to_bytes Action_codec a -> from_bytes Action_codec bs = Ok a) /\
  (from_bytes Action_codec bs = Ok a -> lenient a = false ->
   Action_valid a /\ bs = to_bytes Action_codec a).
Proof.
  intros Hl. split.
  - intros [Hv ->]. by apply from_bytes_encoded; [apply _|done|].
  - intros (d & E & Hd)%from_bytes_decoded Ha. apply Action_decode_consumed in E as [Hv Hc].
    split; [done|]. symmetry. auto.
Qed.

Lemma Action_wire_witness :
  let a := Spend [x01] [x02; x03] 77 in
  from_bytes Action_codec (to_bytes Action_codec a) = Ok a.
Proof.
  apply (Action_wire (Spend [x01] [x02; x03] 77)
    (to_bytes Action_codec (Spend [x01] [x02; x03] 77))).
  - vm_compute. discriminate.
  - split; [|reflexivity]. repeat split; vm_compute; congruence.
Defined.

(** The exception of the previous property is real.  The decoder of an asset
    registration reads its flag as [get_u8()? != 0], so with the flag set 255
    byte strings decode to the same action, 254 of which no encoder writes. *)
Theorem asset_flag_not_canonical asset_id cap epoch_cap k :
  length asset_id = 16%nat -> u128 cap -> u128 epoch_cap -> 0 < k < 256 ->
  let prefix := [byte_of 14] ++ bytes_image asset_id ++ to_le 16 cap ++ to_le 16 epoch_cap in
  from_bytes Action_codec (prefix ++ [byte_of k]) = Ok (AssetRegister asset_id cap epoch_cap true).
Proof.
  intros Hid Hc He Hk prefix. unfold from_bytes.
  assert (Hr : reads (decode Action_codec) (prefix ++ [byte_of k])
    (AssetRegister asset_id cap epoch_cap true)).
  { unfold prefix, Action_codec, Action_decode. cbn [decode]. rewrite <- !app_assoc.
    eapply reads_bind; [by apply reads_get_u8|]. cbn [Action_body Z.eqb Pos.eqb].
    eapply reads_bind; [by apply reads_get_array|].
    eapply reads_bind; [by apply reads_get_u128|]. eapply reads_bind; [by apply reads_get_u128|].
    eapply reads_map; [apply reads_get_u8; unfold in_width; lia|].
    replace (k =? 0) with false by (symmetry; apply Z.eqb_neq; lia). apply reads_ret. }
  rewrite (Hr (Decoder_new _) []).
  - unfold finish, rbind. cbn. by rewrite Nat.eqb_refl.
  - split; [cbn; lia|]. unfold prefix, bytes_image, len, ISIZE_MAX. cbn [Decoder_new input].
    rewrite !length_app, !length_to_le, Hid. cbn. lia.
  - unfold rest. cbn. by rewrite app_nil_r.
Qed.

Lemma asset_flag_not_canonical_witness :
  let id := replicate 16 x07 in
  let prefix := [byte_of 14] ++ bytes_image id ++ to_le 16 5 ++ to_le 16 6 in
  prefix ++ [byte_of 1] <> prefix ++ [byte_of 200] /\
  from_bytes Action_codec (prefix ++ [byte_of 1]) = Ok (AssetRegister id 5 6 true) /\
  from_bytes Action_codec (prefix ++ [byte_of 200]) = Ok (AssetRegister id 5 6 true).
Proof.
  cbn zeta. split; [vm_compute; discriminate|].
  split; apply (asset_flag_not_canonical (replicate 16 x07) 5 6); unfold in_width; done || lia.
Defined.

Lemma legacy_read_back r :
  Referendum_valid r -> unweighted (tally r) -> len (legacy_referendum_image r) <= ISIZE_MAX ->
  referendum_from_stored (legacy_referendum_image r) = Some r.
Proof.
  intros Hr Hu Hl. unfold referendum_from_stored.
  destruct (legacy_not_current r Hr (Decoder_new (legacy_referendum_image r))) as [e He];
    [split; [cbn; lia|done]|done|].
  unfold from_bytes. rewrite He. cbn [rbind].
  apply decode_whole_reads; [|done]. apply reads_referendum_with; [done|].
  apply reads_legacy_tally; [apply Hr|done].
Qed.

(** The storage migration loses nothing.  A referendum written by this code is
    read back as it was, and a record written before conviction weights were
    stored is never mistaken for a current one: the current decoder refuses
    it, and the fallback reads the same referendum with each weight equal to
    its stake. *)
Theorem stored_referendum_read_back r :
  Referendum_valid r -> len (proposer r) < 2 ^ 32 ->
  referendum_from_stored (to_bytes Referendum_codec r) = Some r /\
  (unweighted (tally r) ->
   is_ok (from_bytes Referendum_codec (legacy_referendum_image r)) = false /\
   referendum_from_stored (legacy_referendum_image r) = Some r).
Proof.
  intros Hr Hp.
  assert (Hlen : len (to_bytes Referendum_codec r) <= ISIZE_MAX /\
    len (legacy_referendum_image r) <= ISIZE_MAX).
  { unfold legacy_referendum_image, legacy_tally_image, Referendum_codec, Referendum_encode,
      Track_codec, Track_encode, Tally_codec, Tally_encode. codec_image.
    unfold vec_u8_codec, bytes_image, len, ISIZE_MAX in *. codec_image. unfold bytes_image.
    rewrite !length_app, !length_to_le. cbn. lia. }
  destruct Hlen as [Hc Hl]. split.
  - unfold referendum_from_stored. by rewrite (from_bytes_encoded Referendum_codec r Hr Hc).
  - intros Hu. split; [|by apply legacy_read_back].
    destruct (legacy_not_current r Hr (Decoder_new (legacy_referendum_image r))) as [e He];
      [split; [cbn; lia|done]|done|].
    unfold from_bytes. by rewrite He.
Qed.

Lemma stored_referendum_read_back_witness :
  let r := with_tally (Referendum_open 7 MintTrack [x01; x02] 1000 5) (mkTally 9 8 9 8) in
  referendum_from_stored (to_bytes Referendum_codec r) = Some r /\
  referendum_from_stored (legacy_referendum_image r) = Some r.
Proof.
  cbn zeta.
  destruct (stored_referendum_read_back
    (with_tally (Referendum_open 7 MintTrack [x01; x02] 1000 5) (mkTally 9 8 9 8))) as [H1 H2].
  - repeat split; vm_compute; congruence.
  - vm_compute. reflexivity.
  - split; [exact H1|]. apply H2. split; reflexivity.
Defined.
