(* ===== verification/Crc.v ===== *)
(** * Checksums (crates/qtv-store/src/log.rs, crates/qtv-node/src/watermark.rs)

    The two table-driven CRC-32 routines of the code: [checksum_parts] of the
    append-only log, and [crc32] of the watermark files, whose table is built
    without a branch.  Both are shown equal to the bit-at-a-time remainder, and
    the remainder is shown to notice every error confined to four consecutive
    bytes. *)

From S2P Require Import Prelude.

(** ** The routine of the log *)

Definition CRC_POLY : Z := 0xEDB88320.
Definition CRC_ONES : Z := 0xFFFFFFFF.

Definition crc_bit (crc : Z) : Z :=
  if Z.land crc 1 =? 1 then Z.lxor (Z.shiftr crc 1) CRC_POLY else Z.shiftr crc 1.

(** [n] rounds of the inner loop. *)
Definition crc_bits (n : nat) (crc : Z) : Z := Nat.iter n crc_bit crc.

Definition crc_table : list Z := map (fun i => crc_bits 8 (Z.of_nat i)) (seq 0 256).

Definition CRC_TABLE : list Z := Eval vm_compute in crc_table.

Definition crc_update (crc : Z) (byte : byte) : Z :=
  let index := Z.to_nat (Z.land (Z.lxor crc (byte_val byte)) 0xFF) in
  Z.lxor (Z.shiftr crc 8) (nth index CRC_TABLE 0).

Definition checksum_parts (parts : list (list byte)) : Z :=
  Z.lxor (foldl (foldl crc_update) CRC_ONES parts) CRC_ONES.

(** ** The routine of the watermark files *)

(** [(crc & 1).wrapping_neg()] selects the polynomial without a branch. *)
Definition mark_crc_bit (crc : Z) : Z :=
  let mask := wrap 32 (- Z.land crc 1) in
  Z.lxor (Z.shiftr crc 1) (Z.land CRC_POLY mask).

Definition mark_crc_table : list Z :=
  map (fun i => Nat.iter 8 mark_crc_bit (Z.of_nat i)) (seq 0 256).

Definition MARK_CRC_TABLE : list Z := Eval vm_compute in mark_crc_table.

Definition mark_crc_update (crc : Z) (byte : byte) : Z :=
  let index := Z.to_nat (Z.land (Z.lxor crc (byte_val byte)) 0xFF) in
  Z.lxor (Z.shiftr crc 8) (nth index MARK_CRC_TABLE 0).

(** [!crc] on a [u32]. *)
Definition not32 (x : Z) : Z := 2 ^ 32 - 1 - x.

Definition crc32 (data : list byte) : Z := not32 (foldl mark_crc_update CRC_ONES data).

(** ** The reference: one bit at a time *)

Definition crc_ref_update (crc : Z) (byte : byte) : Z :=
  crc_bits 8 (Z.lxor crc (byte_val byte)).

Definition crc_ref (data : list byte) : Z :=
  Z.lxor (foldl crc_ref_update CRC_ONES data) CRC_ONES.

(** ** Ranges *)

Lemma u32_lxor x y : u32 x -> u32 y -> u32 (Z.lxor x y).
Proof. by apply in_width_lxor. Qed.

Lemma shiftr_1 x : Z.shiftr x 1 = x / 2.
Proof. apply (Z.shiftr_div_pow2 x 1). lia. Qed.

Lemma u32_half x : u32 x -> 0 <= Z.shiftr x 1 < 2 ^ 31.
Proof.
  intros [H1 H2]. rewrite shiftr_1. split; [apply Z.div_pos; lia|].
  apply Z.div_lt_upper_bound; lia.
Qed.

Lemma crc_bit_odd x :
  crc_bit x = Z.lxor (Z.shiftr x 1) (if Z.odd x then CRC_POLY else 0).
Proof.
  unfold crc_bit. change 1 with (Z.ones 1) at 1. rewrite Z.land_ones by lia.
  change (2 ^ 1) with 2. rewrite Zmod_odd. destruct (Z.odd x); cbn; [done|].
  by rewrite Z.lxor_0_r.
Qed.

Lemma u32_crc_bit x : u32 x -> u32 (crc_bit x).
Proof.
  intros Hx. rewrite crc_bit_odd. pose proof (u32_half x Hx).
  apply u32_lxor; [unfold in_width; lia|]. destruct (Z.odd x); unfold in_width, CRC_POLY; lia.
Qed.

Lemma crc_bits_S n x : crc_bits (S n) x = crc_bit (crc_bits n x).
Proof. done. Qed.

Lemma u32_crc_bits n x : u32 x -> u32 (crc_bits n x).
Proof. intros Hx. unfold crc_bits. induction n; cbn; [done|]. by apply u32_crc_bit. Qed.

(** ** Linearity *)

Lemma odd_lxor x y : Z.odd (Z.lxor x y) = xorb (Z.odd x) (Z.odd y).
Proof. rewrite <- !Z.bit0_odd. apply Z.lxor_spec. Qed.

Lemma lxor_swap a b c d :
  Z.lxor (Z.lxor a b) (Z.lxor c d) = Z.lxor (Z.lxor a c) (Z.lxor b d).
Proof.
  rewrite !Z.lxor_assoc. f_equal. rewrite <- !Z.lxor_assoc. f_equal. apply Z.lxor_comm.
Qed.

Lemma crc_bit_lxor x y : crc_bit (Z.lxor x y) = Z.lxor (crc_bit x) (crc_bit y).
Proof.
  rewrite !crc_bit_odd, Z.shiftr_lxor, odd_lxor, lxor_swap. f_equal.
  by destruct (Z.odd x), (Z.odd y).
Qed.

Lemma crc_bits_lxor n x y : crc_bits n (Z.lxor x y) = Z.lxor (crc_bits n x) (crc_bits n y).
Proof. induction n as [|n IH]; [done|]. by rewrite !crc_bits_S, IH, crc_bit_lxor. Qed.

Lemma crc_bits_add n m x : crc_bits (n + m) x = crc_bits n (crc_bits m x).
Proof. apply Nat.iter_add. Qed.

(** Zero low bits leave the polynomial out: [n] rounds are a shift. *)
Lemma crc_bits_shiftl n x : crc_bits n (Z.shiftl x (Z.of_nat n)) = x.
Proof.
  revert x. induction n as [|n IH]; intros x; [apply Z.shiftl_0_r|].
  replace (S n) with (n + 1)%nat by lia. rewrite crc_bits_add.
  replace (crc_bits 1 (Z.shiftl x (Z.of_nat (n + 1)))) with (Z.shiftl x (Z.of_nat n));
    [apply IH|].
  unfold crc_bits. cbn [Nat.iter]. rewrite crc_bit_odd, <- Z.bit0_odd.
  rewrite Z.shiftl_spec_low by lia. rewrite Z.lxor_0_r, Z.shiftr_shiftl_l by lia.
  f_equal. lia.
Qed.

Lemma low_high x : Z.lxor (Z.land x 0xFF) (Z.shiftl (Z.shiftr x 8) 8) = x.
Proof.
  apply Z.bits_inj'. intros i Hi. rewrite Z.lxor_spec, Z.land_spec.
  change 0xFF with (Z.ones 8). destruct (Z.lt_ge_cases i 8).
  - rewrite Z.ones_spec_low, Z.shiftl_spec_low by lia. by rewrite andb_true_r, xorb_false_r.
  - rewrite Z.ones_spec_high, Z.shiftl_spec_high, Z.shiftr_spec by lia.
    rewrite andb_false_r. cbn [xorb]. f_equal. lia.
Qed.

Lemma crc_bits_8 x :
  crc_bits 8 x = Z.lxor (Z.shiftr x 8) (crc_bits 8 (Z.land x 0xFF)).
Proof.
  rewrite <- (low_high x) at 1. rewrite crc_bits_lxor.
  change (Z.shiftl (Z.shiftr x 8) 8) with (Z.shiftl (Z.shiftr x 8) (Z.of_nat 8)).
  rewrite crc_bits_shiftl. apply Z.lxor_comm.
Qed.

Lemma CRC_TABLE_nth i : (i < 256)%nat -> nth i CRC_TABLE 0 = crc_bits 8 (Z.of_nat i).
Proof.
  intros Hi. change CRC_TABLE with crc_table. unfold crc_table.
  rewrite nth_indep with (d' := crc_bits 8 (Z.of_nat 0)) by (rewrite length_map, length_seq; lia).
  rewrite (map_nth (fun i => crc_bits 8 (Z.of_nat i))). by rewrite seq_nth.
Qed.

Lemma shiftr_8_byte crc b : Z.shiftr (Z.lxor crc (byte_val b)) 8 = Z.shiftr crc 8.
Proof.
  rewrite Z.shiftr_lxor. replace (Z.shiftr (byte_val b) 8) with 0; [apply Z.lxor_0_r|].
  rewrite Z.shiftr_div_pow2 by lia. pose proof (byte_val_range b). symmetry.
  apply Z.div_small. lia.
Qed.

Lemma crc_update_ref crc b : crc_update crc b = crc_ref_update crc b.
Proof.
  unfold crc_update, crc_ref_update. rewrite crc_bits_8, shiftr_8_byte. f_equal.
  set (x := Z.land _ 0xFF).
  assert (0 <= x < 256).
  { unfold x. change 0xFF with (Z.ones 8). rewrite Z.land_ones by lia. apply Z.mod_pos_bound. lia. }
  rewrite CRC_TABLE_nth by lia. f_equal. lia.
Qed.

Lemma foldl_crc_update crc data : foldl crc_update crc data = foldl crc_ref_update crc data.
Proof.
  revert crc. induction data as [|b data IH]; intros crc; [done|]. cbn [foldl].
  by rewrite crc_update_ref.
Qed.

Lemma foldl_parts crc parts :
  foldl (foldl crc_update) crc parts = foldl crc_update crc (concat parts).
Proof.
  revert crc. induction parts as [|p parts IH]; intros crc; [done|]. cbn [foldl concat].
  by rewrite IH, foldl_app.
Qed.

Lemma checksum_parts_ref parts : checksum_parts parts = crc_ref (concat parts).
Proof. unfold checksum_parts, crc_ref. by rewrite foldl_parts, foldl_crc_update. Qed.

Lemma u32_fold crc data : u32 crc -> u32 (foldl crc_ref_update crc data).
Proof.
  revert crc. induction data as [|b data IH]; intros crc Hc; [done|]. cbn [foldl].
  apply IH. apply u32_crc_bits, u32_lxor; [done|].
  pose proof (byte_val_range b). unfold in_width. lia.
Qed.

Lemma u32_ones : u32 CRC_ONES.
Proof. unfold in_width, CRC_ONES. lia. Qed.

Lemma u32_crc_ref data : u32 (crc_ref data).
Proof. apply u32_lxor, u32_ones. apply u32_fold, u32_ones. Qed.

Lemma u32_checksum parts : u32 (checksum_parts parts).
Proof. rewrite checksum_parts_ref. apply u32_crc_ref. Qed.

Lemma not32_lxor x : u32 x -> not32 x = Z.lxor x CRC_ONES.
Proof.
  intros [H1 H2]. unfold not32. change CRC_ONES with (Z.ones 32).
  assert (Hd : Z.land x (Z.lxor x (Z.ones 32)) = 0).
  { apply Z.bits_inj'. intros i Hi. rewrite Z.land_spec, Z.lxor_spec, Z.bits_0.
    destruct (Z.lt_ge_cases i 32).
    - rewrite Z.ones_spec_low by lia. by destruct (Z.testbit x i).
    - assert (Hx : Z.testbit x i = false); [|by rewrite Hx].
      apply Z.testbit_false; [lia|]. rewrite Z.div_small; [done|].
      split; [lia|]. apply Z.lt_le_trans with (2 ^ 32); [lia|]. apply Z.pow_le_mono_r; lia. }
  assert (Hs : x + Z.lxor x (Z.ones 32) = Z.ones 32).
  { rewrite Z.add_nocarry_lxor by done. by rewrite <- Z.lxor_assoc, Z.lxor_nilpotent. }
  change (Z.ones 32) with (2 ^ 32 - 1) in Hs at 2. lia.
Qed.

Lemma crc32_ref data : crc32 data = crc_ref data.
Proof.
  unfold crc32, crc_ref. rewrite <- foldl_crc_update.
  change mark_crc_update with crc_update.
  apply not32_lxor. rewrite foldl_crc_update. apply u32_fold, u32_ones.
Qed.

Lemma u32_crc32 data : u32 (crc32 data).
Proof. rewrite crc32_ref. apply u32_crc_ref. Qed.

(** ** Error detection *)

(** The polynomial's top bit is set and a halved [u32] has none, so the top bit
    of a round tells whether the polynomial was added. *)
Lemma crc_bit_top x : u32 x -> Z.testbit (crc_bit x) 31 = Z.odd x.
Proof.
  intros Hx. rewrite crc_bit_odd, Z.lxor_spec.
  assert (Ht : Z.testbit (Z.shiftr x 1) 31 = false).
  { apply Z.testbit_false; [lia|]. pose proof (u32_half x Hx). by rewrite Z.div_small. }
  rewrite Ht. by destruct (Z.odd x).
Qed.

Lemma crc_bit_inj x y : u32 x -> u32 y -> crc_bit x = crc_bit y -> x = y.
Proof.
  intros Hx Hy H.
  assert (Ho : Z.odd x = Z.odd y) by (rewrite <- !crc_bit_top by done; congruence).
  rewrite !crc_bit_odd, Ho in H.
  apply (f_equal (fun z => Z.lxor z (if Z.odd y then CRC_POLY else 0))) in H.
  rewrite !Z.lxor_assoc, !Z.lxor_nilpotent, !Z.lxor_0_r, !shiftr_1 in H.
  rewrite (Z.div_mod x 2), (Z.div_mod y 2) by lia. rewrite !Zmod_odd, Ho, H. done.
Qed.

Lemma crc_bits_inj n x y : u32 x -> u32 y -> crc_bits n x = crc_bits n y -> x = y.
Proof.
  intros Hx Hy. induction n as [|n IH]; [done|]. rewrite !crc_bits_S. intros H.
  apply IH. apply crc_bit_inj; auto using u32_crc_bits.
Qed.

Lemma lxor_byte_shift b n : byte_val b + 256 * n = Z.lxor (byte_val b) (Z.shiftl n 8).
Proof.
  rewrite <- (low_high (byte_val b + 256 * n)). pose proof (byte_val_range b).
  change 0xFF with (Z.ones 8). rewrite Z.land_ones, Z.shiftr_div_pow2 by lia.
  change (2 ^ 8) with 256. f_equal; [|f_equal].
  - symmetry. apply (Z.mod_unique _ _ n); lia.
  - symmetry. apply (Z.div_unique _ _ _ (byte_val b)); lia.
Qed.

(** A run of bytes is one long division of the state and the bytes together. *)
Lemma fold_as_division crc data :
  foldl crc_ref_update crc data = crc_bits (8 * length data) (Z.lxor crc (from_le data)).
Proof.
  revert crc. induction data as [|b data IH]; intros crc.
  - cbn. by rewrite Z.lxor_0_r.
  - cbn [foldl length from_le]. rewrite IH, lxor_byte_shift.
    replace (8 * S (length data))%nat with (8 * length data + 8)%nat by lia.
    rewrite crc_bits_add. f_equal. rewrite <- Z.lxor_assoc, crc_bits_lxor. unfold crc_ref_update.
    f_equal. symmetry. apply (crc_bits_shiftl 8).
Qed.

Lemma fold_inj crc crc' data :
  u32 crc -> u32 crc' ->
  foldl crc_ref_update crc data = foldl crc_ref_update crc' data -> crc = crc'.
Proof.
  revert crc crc'. induction data as [|b data IH]; intros crc crc' Hc Hc' H; [done|].
  pose proof (byte_val_range b). assert (u32 (byte_val b)) by (unfold in_width; lia).
  apply IH in H; [|by apply u32_crc_bits, u32_lxor..].
  apply crc_bits_inj in H; [|by apply u32_lxor..].
  apply (f_equal (fun z => Z.lxor z (byte_val b))) in H.
  by rewrite !Z.lxor_assoc, Z.lxor_nilpotent, !Z.lxor_0_r in H.
Qed.

Lemma crc_ref_burst pre d d' post :
  length d = length d' -> (length d <= 4)%nat ->
  crc_ref (pre ++ d ++ post) = crc_ref (pre ++ d' ++ post) -> d = d'.
Proof.
  intros Hl H4 H. unfold crc_ref in H. rewrite !foldl_app in H.
  apply (f_equal (fun z => Z.lxor z CRC_ONES)) in H.
  rewrite !Z.lxor_assoc, Z.lxor_nilpotent, !Z.lxor_0_r in H.
  pose proof (u32_fold CRC_ONES pre u32_ones) as Hs. revert Hs H.
  generalize (foldl crc_ref_update CRC_ONES pre). intros s Hs H.
  apply fold_inj in H; [|by apply u32_fold..].
  rewrite !fold_as_division, <- Hl in H.
  assert (Hw : forall x : list byte, (length x <= 4)%nat -> u32 (from_le x)).
  { intros x Hx. pose proof (from_le_range x) as Hr. unfold in_width.
    enough (256 ^ Z.of_nat (length x) <= 256 ^ 4) by lia. apply Z.pow_le_mono_r; lia. }
  apply crc_bits_inj in H; [|apply u32_lxor; [done|apply Hw; lia]..].
  apply (f_equal (Z.lxor s)) in H.
  rewrite <- !Z.lxor_assoc, Z.lxor_nilpotent, !Z.lxor_0_l in H.
  by rewrite <- (to_from_le d), <- (to_from_le d'), Hl, H.
Qed.

(** What a burst of at most four bytes does to a byte string. *)
Definition burst (bs bs' : list byte) : Prop :=
  exists pre d d' post, bs = pre ++ d ++ post /\ bs' = pre ++ d' ++ post /\
    length d = length d' /\ (length d <= 4)%nat /\ d <> d'.

(** A body followed by its checksum has a fixed checksum of its own. *)
Definition CRC_RESIDUE : Z := Z.lxor (crc_bits 32 CRC_ONES) CRC_ONES.

Lemma crc_residue body c :
  length c = 4%nat -> (crc_ref body = from_le c <-> crc_ref (body ++ c) = CRC_RESIDUE).
Proof.
  intros Hc. unfold crc_ref, CRC_RESIDUE. rewrite foldl_app, (fold_as_division _ c), Hc.
  change (8 * 4)%nat with 32%nat.
  pose proof (u32_fold CRC_ONES body u32_ones) as Hs. revert Hs.
  generalize (foldl crc_ref_update CRC_ONES body). intros s Hs.
  assert (Hw : u32 (from_le c)).
  { pose proof (from_le_range c) as Hr. rewrite Hc in Hr. exact Hr. }
  assert (Hxor : forall a b x, Z.lxor a x = Z.lxor b x <-> a = b).
  { intros a b x. split; [|by intros ->]. intros H.
    apply (f_equal (fun z => Z.lxor z x)) in H.
    by rewrite !Z.lxor_assoc, Z.lxor_nilpotent, !Z.lxor_0_r in H. }
  rewrite Hxor. split.
  - intros <-. by rewrite <- Z.lxor_assoc, Z.lxor_nilpotent.
  - intros H%crc_bits_inj; [|by apply u32_lxor|apply u32_ones]. rewrite <- H.
    by rewrite <- Z.lxor_assoc, Z.lxor_nilpotent.
Qed.

(** A string that ends in the checksum of what stands before it. *)
Definition sealed (bs : list byte) : Prop :=
  let split := (length bs - 4)%nat in crc_ref (take split bs) = from_le (drop split bs).

Lemma burst_length bs bs' : burst bs bs' -> length bs = length bs'.
Proof. intros (pre & d & d' & post & -> & -> & Hl & _). rewrite !length_app. lia. Qed.

Lemma sealed_residue bs :
  (4 <= length bs)%nat -> (sealed bs <-> crc_ref bs = CRC_RESIDUE).
Proof.
  intros Hl. unfold sealed. rewrite crc_residue, take_drop; [done|].
  rewrite length_drop. lia.
Qed.

(** No burst turns one sealed string into another. *)
Lemma burst_breaks_seal bs bs' :
  (4 <= length bs)%nat -> sealed bs -> burst bs bs' -> ~ sealed bs'.
Proof.
  intros Hl Hs Hb Hs'. pose proof (burst_length bs bs' Hb).
  rewrite sealed_residue in Hs, Hs' by lia.
  destruct Hb as (pre & d & d' & post & -> & -> & Hd & H4 & Hne).
  apply Hne, (crc_ref_burst pre d d' post); [done|done|congruence].
Qed.

(** ** Claims *)

(** The table-driven checksum of the log, fed part by part, and the branch-free
    one of the watermark files both compute the bit-at-a-time CRC-32 of the
    concatenated bytes, a [u32].  A file written by one routine is therefore
    checked alike by the other, however the bytes are split into parts. *)
Theorem crc_tables_compute_the_remainder parts data :
  checksum_parts parts = crc_ref (concat parts) /\ crc32 data = crc_ref data /\
  u32 (crc_ref data).
Proof. split_and!; [apply checksum_parts_ref|apply crc32_ref|apply u32_crc_ref]. Qed.

(** The checksum notices every corruption confined to four consecutive bytes.
    Replacing a run of at most four bytes by another run of the same length
    changes the checksum, whatever stands before and after it. *)
Theorem checksum_detects_bursts pre d d' post :
  length d = length d' -> (length d <= 4)%nat -> d <> d' ->
  checksum_parts [pre ++ d ++ post] <> checksum_parts [pre ++ d' ++ post] /\
  crc32 (pre ++ d ++ post) <> crc32 (pre ++ d' ++ post).
Proof.
  intros Hl H4 Hne. rewrite !checksum_parts_ref, !crc32_ref. cbn [concat].
  rewrite !app_nil_r. split; intros H; by apply Hne, (crc_ref_burst pre d d' post).
Qed.

Lemma checksum_detects_bursts_witness :
  checksum_parts [[x31; x32] ++ [x33; x34; x35; x36] ++ [x37; x38; x39]] <>
    checksum_parts [[x31; x32] ++ [x36; x35; x34; x33] ++ [x37; x38; x39]] /\
  crc32 [x31; x32; x33; x34; x35; x36; x37; x38; x39] = 0xCBF43926.
Proof.
  split; [|vm_compute; reflexivity].
  apply (checksum_detects_bursts [x31; x32] [x33; x34; x35; x36] [x36; x35; x34; x33]
    [x37; x38; x39]); [reflexivity|cbn; lia|discriminate].
Defined.
