(* ===== verification/Watermark.v ===== *)
(** * Signing watermarks (crates/qtv-node/src/watermark.rs)

    What keeps a validator from signing two values for one height and view, also
    across crashes: [SignGuard] and [PrevoteGuard] keep the last mark in memory
    and, before they grant a signature, in a file that is replaced atomically.
    A file is its content, absent or present.  Replacing it can fail before the
    rename, which leaves the old content, or after it, which leaves the new one;
    both are reported as an error and the model takes the outcome as an input of
    each operation.  The exclusive lock taken by [hold] is what makes a guard
    the only writer of its file: an open while a guard lives is refused. *)

From Stdlib Require Import Sorted.
From S2P Require Import Prelude Codec Crc.

(** ** Files *)

Definition File : Type := option (list byte).

Inductive IoError : Type := WouldBlock | InvalidData | OtherIo.

(** How one file replacement goes: it succeeds, or it fails with the rename
    already done or not. *)
Inductive Io : Type := IoOk | IoFailed (renamed : bool).

(** Write a temporary file, sync it, rename it over [path], sync the directory. *)
Definition replace_file (io : Io) (f : File) (bs : list byte) : Result IoError unit * File :=
  match io with
  | IoOk => (Ok tt, Some bs)
  | IoFailed true => (Err OtherIo, Some bs)
  | IoFailed false => (Err OtherIo, f)
  end.

(** [fs::read], with [NotFound] as [None]; [readable] is whether the read itself works. *)
Definition read_file (readable : bool) (f : File) : Result IoError File :=
  if readable then Ok f else Err OtherIo.

(** [Ord] on [(height, view)]. *)
Definition hv_cmp (a b : Z * Z) : comparison :=
  match a.1 ?= b.1 with Eq => a.2 ?= b.2 | c => c end.

(** The 52 bytes of a mark, shared by both guards. *)
Definition mark_bytes (height view : Z) (value : list byte) : list byte :=
  let body := to_le 8 height ++ to_le 8 view ++ value in
  body ++ to_le 4 (crc32 body).

(** ** SignGuard *)

Record SignGuard : Type := mkSignGuard { sign_mark : option (Z * Z * option (list byte)) }.

Definition decode_mark (bs : list byte) : option (Z * Z * option (list byte)) :=
  if (length bs =? 52)%nat then
    if crc32 (slice bs 0 48) =? from_le (slice bs 48 52)
    then Some (from_le (slice bs 0 8), from_le (slice bs 8 16), Some (slice bs 16 48))
    else None
  else if (length bs =? 20)%nat then
    if crc32 (slice bs 0 16) =? from_le (slice bs 16 20)
    then Some (from_le (slice bs 0 8), from_le (slice bs 8 16), None)
    else None
  else None.

Definition SignGuard_open (readable : bool) (f : File) : Result IoError SignGuard :=
  let? content := read_file readable f in
  match content with
  | None => Ok (mkSignGuard None)
  | Some bs => match decode_mark bs with
      | Some mark => Ok (mkSignGuard (Some mark))
      | None => Err InvalidData
      end
  end.

Definition sign_permits (g : SignGuard) (height view : Z) (value : list byte) : bool :=
  match sign_mark g with
  | Some (mh, mv, mval) => match hv_cmp (height, view) (mh, mv) with
      | Gt => true
      | Eq => bool_decide (mval = Some value)
      | Lt => false
      end
  | None => true
  end.

Definition sign_persist (io : Io) (f : File) (height view : Z) (value : list byte)
  : Result IoError unit * File :=
  replace_file io f (mark_bytes height view value).

Definition sign_raise_to (io : Io) (f : File) (g : SignGuard) (height : Z)
  : Result IoError unit * File * SignGuard :=
  if match sign_mark g with Some (mh, _, _) => height <=? mh | None => false end
  then (Ok tt, f, g)
  else match sign_persist io f height U64_MAX (zeros 32) with
    | (Ok _, f') => (Ok tt, f', mkSignGuard (Some (height, U64_MAX, Some (zeros 32))))
    | (Err e, f') => (Err e, f', g)
    end.

Definition try_sign (io : Io) (f : File) (g : SignGuard) (height view : Z) (value : list byte)
  : Result IoError bool * File * SignGuard :=
  if negb (sign_permits g height view value) then (Ok false, f, g)
  else match sign_persist io f height view value with
    | (Ok _, f') => (Ok true, f', mkSignGuard (Some (height, view, Some value)))
    | (Err e, f') => (Err e, f', g)
    end.

(** ** PrevoteGuard *)

Record PrevoteGuard : Type := mkPrevoteGuard {
  prevote_mark : option (Z * Z * list byte);
  reserved : bool
}.

Definition decode_prevote (bs : list byte) : option (Z * Z * list byte) :=
  if negb (length bs =? 52)%nat then None
  else if negb (crc32 (slice bs 0 48) =? from_le (slice bs 48 52)) then None
  else Some (from_le (slice bs 0 8), from_le (slice bs 8 16), slice bs 16 48).

Definition PrevoteGuard_open (readable : bool) (f : File) : Result IoError PrevoteGuard :=
  let? content := read_file readable f in
  match content with
  | None => Ok (mkPrevoteGuard None false)
  | Some bs => match decode_prevote bs with
      | Some mark => Ok (mkPrevoteGuard (Some mark) false)
      | None => Err InvalidData
      end
  end.

Definition prevote_permits (g : PrevoteGuard) (height view : Z) (value : list byte) : bool :=
  match prevote_mark g with
  | Some (mh, mv, mval) => match hv_cmp (height, view) (mh, mv) with
      | Gt => true
      | Eq => bool_decide (value = mval)
      | Lt => false
      end
  | None => true
  end.

Definition prevote_persist (io : Io) (f : File) (height view : Z) (value : list byte)
  : Result IoError unit * File :=
  replace_file io f (mark_bytes height view value).

Definition prevote_raise_to (io : Io) (f : File) (g : PrevoteGuard) (height : Z)
  : Result IoError unit * File * PrevoteGuard :=
  if match prevote_mark g with Some (mh, _, _) => height <=? mh | None => false end
  then (Ok tt, f, g)
  else match prevote_persist io f height U64_MAX (zeros 32) with
    | (Ok _, f') =>
        (Ok tt, f', mkPrevoteGuard (Some (height, U64_MAX, zeros 32)) (reserved g))
    | (Err e, f') => (Err e, f', g)
    end.

Definition reserve (io : Io) (f : File) (g : PrevoteGuard) (height view : Z)
  : Result IoError bool * File * PrevoteGuard :=
  if match prevote_mark g with
     | Some (mh, mv, _) => match hv_cmp (height, view) (mh, mv) with Gt => false | _ => true end
     | None => false
     end
  then (Ok false, f, g)
  else match prevote_persist io f height view (zeros 32) with
    | (Ok _, f') => (Ok true, f', mkPrevoteGuard (Some (height, view, zeros 32)) true)
    | (Err e, f') => (Err e, f', g)
    end.

Definition try_prevote (io : Io) (f : File) (g : PrevoteGuard) (height view : Z)
  (value : list byte) : Result IoError bool * File * PrevoteGuard :=
  if reserved g && bool_decide (prevote_mark g = Some (height, view, zeros 32))
  then (Ok true, f, mkPrevoteGuard (Some (height, view, value)) false)
  else if negb (prevote_permits g height view value) then (Ok false, f, g)
  else if match prevote_mark g with
     | Some (mh, mv, _) => match hv_cmp (height, view) (mh, mv) with Lt => false | _ => true end
     | None => true
     end
  then match prevote_persist io f height view value with
    | (Ok _, f') => (Ok true, f', mkPrevoteGuard (Some (height, view, value)) (reserved g))
    | (Err e, f') => (Err e, f', g)
    end
  else (Ok true, f, g).

(** ** LockFile *)

Definition lock_bytes (height : Z) (payload : list byte) : list byte :=
  let body := to_le 8 height ++ payload in
  body ++ to_le 4 (crc32 body).

Definition lock_load (readable : bool) (f : File) : Result IoError (option (Z * list byte)) :=
  let? content := read_file readable f in
  match content with
  | None => Ok None
  | Some bs =>
      if (length bs <? 12)%nat then Err InvalidData
      else
        let split := (length bs - 4)%nat in
        if negb (crc32 (take split bs) =? from_le (drop split bs)) then Err InvalidData
        else Ok (Some (from_le (slice bs 0 8), slice bs 8 split))
  end.

Definition lock_store (io : Io) (f : File) (height : Z) (payload : list byte)
  : Result IoError unit * File :=
  replace_file io f (lock_bytes height payload).

Arguments zeros : simpl never.
Arguments mark_bytes : simpl never.
Arguments decode_mark : simpl never.
Arguments decode_prevote : simpl never.

(** ** Histories

    A history interleaves the operations of a guard with restarts.  [Restart]
    drops the guard, as a crash at that point does; [Open] is refused while a
    guard holds the lock.  The world records every granted signature, newest
    first. *)

Definition Grant : Type := Z * Z * list byte.

Record Guarded (G : Type) : Type := mkGuarded {
  file : File;
  guard : option G;
  grants : list Grant
}.
Arguments mkGuarded {G} _ _ _.
Arguments file {G} _.
Arguments guard {G} _.
Arguments grants {G} _.

(** The record of a granted request. *)
Definition granted (r : Result IoError bool) (g : Grant) (old : list Grant) : list Grant :=
  match r with Ok true => g :: old | _ => old end.

Inductive sign_event : Type :=
| SignOpen (readable : bool)
| SignRestart
| TrySign (io : Io) (height view : Z) (value : list byte)
| SignRaise (io : Io) (height : Z).

Definition sign_step (w : Guarded SignGuard) (ev : sign_event) : Guarded SignGuard :=
  match ev, guard w with
  | SignOpen readable, None =>
      mkGuarded (file w) (result_ok (SignGuard_open readable (file w))) (grants w)
  | SignRestart, Some _ => mkGuarded (file w) None (grants w)
  | TrySign io h v x, Some g =>
      let '(r, f, g') := try_sign io (file w) g h v x in
      mkGuarded f (Some g') (granted r (h, v, x) (grants w))
  | SignRaise io h, Some g =>
      let '(_, f, g') := sign_raise_to io (file w) g h in mkGuarded f (Some g') (grants w)
  | _, _ => w
  end.

Inductive prevote_event : Type :=
| PrevoteOpen (readable : bool)
| PrevoteRestart
| TryPrevote (io : Io) (height view : Z) (value : list byte)
| Reserve (io : Io) (height view : Z)
| PrevoteRaise (io : Io) (height : Z).

Definition prevote_step (w : Guarded PrevoteGuard) (ev : prevote_event) : Guarded PrevoteGuard :=
  match ev, guard w with
  | PrevoteOpen readable, None =>
      mkGuarded (file w) (result_ok (PrevoteGuard_open readable (file w))) (grants w)
  | PrevoteRestart, Some _ => mkGuarded (file w) None (grants w)
  | TryPrevote io h v x, Some g =>
      let '(r, f, g') := try_prevote io (file w) g h v x in
      mkGuarded f (Some g') (granted r (h, v, x) (grants w))
  | Reserve io h v, Some g =>
      let '(_, f, g') := reserve io (file w) g h v in mkGuarded f (Some g') (grants w)
  | PrevoteRaise io h, Some g =>
      let '(_, f, g') := prevote_raise_to io (file w) g h in mkGuarded f (Some g') (grants w)
  | _, _ => w
  end.

(** The argument types of the code: [u64]s and a [[u8; 32]]. *)
Definition subject (h v : Z) (x : list byte) : Prop := u64 h /\ u64 v /\ length x = 32%nat.

Definition sign_event_ok (ev : sign_event) : Prop :=
  match ev with
  | TrySign _ h v x => subject h v x
  | SignRaise _ h => u64 h
  | _ => True
  end.

(** A prevoted value is a hash, never the all-zero placeholder of [reserve]. *)
Definition prevote_event_ok (ev : prevote_event) : Prop :=
  match ev with
  | TryPrevote _ h v x => subject h v x /\ x <> zeros 32
  | Reserve _ h v => u64 h /\ u64 v
  | PrevoteRaise _ h => u64 h
  | _ => True
  end.

Definition hv_lt (a b : Z * Z) : Prop := a.1 < b.1 \/ (a.1 = b.1 /\ a.2 < b.2).

(** Granted signatures never go back and never disagree: of two grants the later
    one is for a higher height and view, or is the same grant again. *)
Definition no_equivocation : list Grant -> Prop :=
  StronglySorted (fun new old => hv_lt old.1 new.1 \/ old = new).

(** ** The shared invariant *)

(** Every grant lies below the mark [p], or at it with an accepted value. *)
Definition below (S : list Grant) (p : Z * Z) (ok : list byte -> Prop) : Prop :=
  forall g, g ∈ S -> hv_lt g.1 p \/ (g.1 = p /\ ok g.2).

Lemma hv_cmp_spec a b : CompareSpec (a = b) (hv_lt a b) (hv_lt b a) (hv_cmp a b).
Proof.
  destruct a as [a1 a2], b as [b1 b2]. unfold hv_cmp, hv_lt. cbn.
  destruct (Z.compare_spec a1 b1); [destruct (Z.compare_spec a2 b2)|..];
    constructor; cbn; lia || (f_equal; lia).
Qed.

Lemma hv_lt_trans a b c : hv_lt a b -> hv_lt b c -> hv_lt a c.
Proof. unfold hv_lt. lia. Qed.

Lemma below_raise S p q ok ok' : below S p ok -> hv_lt p q -> below S q ok'.
Proof.
  intros H Hpq g Hg. left. destruct (H g Hg) as [Hl|[-> _]]; [|done]. by eapply hv_lt_trans.
Qed.

Lemma below_weaken S p ok ok' : below S p ok -> (forall x, ok x -> ok' x) -> below S p ok'.
Proof. intros H Hok g Hg. destruct (H g Hg) as [?|[??]]; eauto. Qed.

Lemma below_cons S h v x ok :
  below S (h, v) ok -> ok x -> below ((h, v, x) :: S) (h, v) ok.
Proof. intros H Hx g [->|Hg]%elem_of_cons; [by right|by apply H]. Qed.

(** A grant at or above a mark that accepts only its own value extends the history. *)
Lemma no_equivocation_cons S h v x :
  no_equivocation S -> below S (h, v) (fun y => y = x) -> no_equivocation ((h, v, x) :: S).
Proof.
  intros HS HB. constructor; [done|]. apply Forall_forall. intros g Hg.
  destruct (HB g Hg) as [?|[Hp Hx]]; [by left|right].
  destruct g as [p y]. cbn in *. by subst.
Qed.

Lemma no_equivocation_same S h v x y :
  no_equivocation S -> (h, v, x) ∈ S -> (h, v, y) ∈ S -> x = y.
Proof.
  intros HS. assert (Hirr : ~ hv_lt (h, v) (h, v)) by (unfold hv_lt; lia).
  induction HS as [|g S HS IH HF]; [set_solver|]. rewrite Forall_forall in HF.
  intros [<-|Hx]%elem_of_cons [Hy|Hy]%elem_of_cons; simplify_eq; try done.
  - destruct (HF _ Hy) as [?|?]; by simplify_eq.
  - destruct (HF _ Hx) as [?|?]; by simplify_eq.
  - auto.
Qed.

(** ** The bytes of a mark *)

Lemma mark_slices h v x :
  subject h v x ->
  let bs := mark_bytes h v x in
  length bs = 52%nat /\ crc32 (slice bs 0 48) = from_le (slice bs 48 52) /\
  from_le (slice bs 0 8) = h /\ from_le (slice bs 8 16) = v /\ slice bs 16 48 = x.
Proof.
  intros (Hh & Hv & Hx). cbn zeta. unfold mark_bytes.
  set (body := to_le 8 h ++ to_le 8 v ++ x).
  assert (Hb : length body = 48%nat) by (unfold body; rewrite !length_app, !length_to_le; lia).
  split; [rewrite length_app, length_to_le; lia|].
  rewrite (slice_app_l body _ 48), (slice_app_r body _ 48 52 48) by (done || lia).
  rewrite slice_all by (by rewrite length_to_le).
  rewrite from_to_le by (apply (in_width_bytes 4), u32_crc32). split; [done|].
  unfold body. rewrite <- !app_assoc.
  rewrite (slice_app_l (to_le 8 h)), (slice_app_r (to_le 8 h) _ 8 16 8),
    (slice_app_r (to_le 8 h) _ 16 48 8) by (rewrite ?length_to_le; done || lia).
  rewrite (slice_app_l (to_le 8 v)), (slice_app_r (to_le 8 v) _ _ _ 8)
    by (rewrite ?length_to_le; done || lia).
  rewrite (slice_app_l x) by done.
  rewrite !from_to_le by (by apply (in_width_bytes 8)). done.
Qed.

Lemma decode_mark_bytes h v x :
  subject h v x -> decode_mark (mark_bytes h v x) = Some (h, v, Some x).
Proof.
  intros H. destruct (mark_slices h v x H) as (H1 & H2 & H3 & H4 & H5).
  unfold decode_mark. rewrite H1, H2, H3, H4, H5. cbn [Nat.eqb]. by rewrite Z.eqb_refl.
Qed.

Lemma decode_prevote_bytes h v x :
  subject h v x -> decode_prevote (mark_bytes h v x) = Some (h, v, x).
Proof.
  intros H. destruct (mark_slices h v x H) as (H1 & H2 & H3 & H4 & H5).
  unfold decode_prevote. rewrite H1, H2, H3, H4, H5. cbn [Nat.eqb negb]. by rewrite Z.eqb_refl.
Qed.

#[local] Opaque mark_bytes decode_mark decode_prevote.

(** ** Marks cover the history *)

(** The mark [m], whose value accepts the values [ok] relates to it, covers the
    grants [S]; without a mark nothing was granted. *)
Definition covers {V} (ok : V -> list byte -> Prop) (S : list Grant) (m : option (Z * Z * V)) : Prop :=
  match m with None => S = [] | Some (h, v, x) => below S (h, v) (ok x) end.

Lemma covers_gt {V} (ok : V -> list byte -> Prop) S m h v ok' :
  covers ok S m ->
  (forall mh mv x, m = Some (mh, mv, x) -> hv_lt (mh, mv) (h, v)) -> below S (h, v) ok'.
Proof.
  destruct m as [[[mh mv] x]|]; cbn.
  - intros H Hm. eapply below_raise; [done|]. by eapply Hm.
  - intros -> _ g Hg. by apply not_elem_of_nil in Hg.
Qed.

Lemma raise_above (mh mv h : Z) : mh < h -> hv_lt (mh, mv) (h, U64_MAX).
Proof. unfold hv_lt. cbn. lia. Qed.

Lemma zeros_subject h : u64 h -> subject h U64_MAX (zeros 32).
Proof. intros Hh. split_and!; [done|unfold in_width, U64_MAX; lia|apply length_zeros]. Qed.

(** *** SignGuard *)

Definition sign_covers (S : list Grant) (m : option (Z * Z * option (list byte))) : Prop :=
  covers (fun mval y => mval = Some y) S m.

Definition sign_inv (w : Guarded SignGuard) : Prop :=
  no_equivocation (grants w) /\ sign_covers (grants w) (file w ≫= decode_mark) /\
  (forall g, guard w = Some g -> sign_covers (grants w) (sign_mark g)).

Lemma sign_permitted S g h v x :
  sign_covers S (sign_mark g) -> sign_permits g h v x = true ->
  below S (h, v) (fun y => y = x).
Proof.
  unfold sign_permits. intros Hc Hp. destruct (sign_mark g) as [[[mh mv] mval]|] eqn:Em.
  - destruct (hv_cmp_spec (h, v) (mh, mv)) as [Heq|Hlt|Hgt]; [|done|].
    + simplify_eq. bool_to_prop. subst. eapply below_weaken; [exact Hc|]. naive_solver.
    + eapply below_raise; [exact Hc|done].
  - cbn in Hc. subst. intros g' Hg'. by apply not_elem_of_nil in Hg'.
Qed.

(** The mark written for a request covers the history, granted or not. *)
Lemma sign_new_mark S h v x :
  below S (h, v) (fun y => y = x) -> sign_covers S (Some (h, v, Some x)).
Proof. intros H. eapply below_weaken; [done|]. naive_solver. Qed.

Lemma sign_grant_mark S h v x :
  below S (h, v) (fun y => y = x) -> sign_covers ((h, v, x) :: S) (Some (h, v, Some x)).
Proof. intros H. apply sign_new_mark. by apply below_cons. Qed.

Lemma try_sign_inv f g S io h v x :
  subject h v x -> sign_inv (mkGuarded f (Some g) S) ->
  sign_inv (sign_step (mkGuarded f (Some g) S) (TrySign io h v x)).
Proof.
  intros Hx (HS & Hf & Hg). cbn in *. specialize (Hg g eq_refl). unfold try_sign.
  destruct (sign_permits g h v x) eqn:Hp; cbn [negb].
  2:{ cbn. unfold sign_inv. cbn. naive_solver. }
  pose proof (sign_permitted S g h v x Hg Hp) as Hb.
  unfold sign_persist, replace_file. destruct io as [|[]]; unfold sign_inv; cbn.
  - rewrite decode_mark_bytes by done. split_and!; [by apply no_equivocation_cons| |].
    + by apply sign_grant_mark.
    + intros ? [= <-]. by apply sign_grant_mark.
  - rewrite decode_mark_bytes by done. split_and!; [done|by apply sign_new_mark|naive_solver].
  - split_and!; naive_solver.
Qed.

Lemma sign_raise_inv f g S io h :
  u64 h -> sign_inv (mkGuarded f (Some g) S) ->
  sign_inv (sign_step (mkGuarded f (Some g) S) (SignRaise io h)).
Proof.
  intros Hh (HS & Hf & Hg). cbn in *. specialize (Hg g eq_refl). unfold sign_raise_to.
  case_step.
  { unfold sign_inv. cbn. naive_solver. }
  assert (Hb : below S (h, U64_MAX) (fun y => y = zeros 32)).
  { eapply covers_gt; [exact Hg|]. intros mh mv y Hy. rewrite Hy in Eb. bool_to_prop.
    by apply raise_above. }
  unfold sign_persist, replace_file. destruct io as [|[]]; unfold sign_inv; cbn.
  - rewrite decode_mark_bytes by (by apply zeros_subject).
    split_and!; [done|by apply sign_new_mark|]. intros ? [= <-]. by apply sign_new_mark.
  - rewrite decode_mark_bytes by (by apply zeros_subject).
    split_and!; [done|by apply sign_new_mark|naive_solver].
  - split_and!; naive_solver.
Qed.

Lemma sign_step_inv w ev : sign_event_ok ev -> sign_inv w -> sign_inv (sign_step w ev).
Proof.
  destruct w as [f [g|] S], ev as [r| |io h v x|io h]; intros Hok Hi; try exact Hi.
  - destruct Hi as (? & ? & _). unfold sign_inv. cbn. naive_solver.
  - by apply try_sign_inv.
  - by apply sign_raise_inv.
  - destruct Hi as (HS & Hf & _). unfold sign_inv. cbn in *. split_and!; [done..|].
    intros g. unfold SignGuard_open, read_file. destruct r; [|done]. cbn.
    destruct f as [bs|]; cbn in *; [|by intros [= <-]].
    destruct (decode_mark bs) eqn:E; [|done]. by intros [= <-].
Qed.

(** *** PrevoteGuard *)

(** A reserved mark is written with the placeholder, whatever is prevoted under it,
    so a mark read back accepts the value it holds or, holding the placeholder,
    any earlier grant. *)
Definition prevote_accepts (mval y : list byte) : Prop := y = mval \/ mval = zeros 32.

Definition prevote_covers (S : list Grant) (m : option (Z * Z * list byte)) : Prop :=
  covers prevote_accepts S m.

(** While a reservation stands nothing was granted under it, and the file already
    refuses what the memory would forget: any value granted under it later is
    covered by the file as it is. *)
Definition reservation_safe (f : File) (S : list Grant) (g : PrevoteGuard) : Prop :=
  forall h v, reserved g = true -> prevote_mark g = Some (h, v, zeros 32) ->
  below S (h, v) (fun _ => False) /\
  forall y, prevote_covers ((h, v, y) :: S) (f ≫= decode_prevote).

Definition prevote_inv (w : Guarded PrevoteGuard) : Prop :=
  no_equivocation (grants w) /\ prevote_covers (grants w) (file w ≫= decode_prevote) /\
  (forall g, guard w = Some g ->
    prevote_covers (grants w) (prevote_mark g) /\ reservation_safe (file w) (grants w) g).

Lemma prevote_permitted S g h v x :
  prevote_covers S (prevote_mark g) -> prevote_permits g h v x = true -> x <> zeros 32 ->
  below S (h, v) (fun y => y = x).
Proof.
  unfold prevote_permits. intros Hc Hp Hx. destruct (prevote_mark g) as [[[mh mv] mval]|] eqn:Em.
  - destruct (hv_cmp_spec (h, v) (mh, mv)) as [Heq|Hlt|Hgt]; [|done|].
    + simplify_eq. bool_to_prop. subst. eapply below_weaken; [exact Hc|].
      unfold prevote_accepts. naive_solver.
    + eapply below_raise; [exact Hc|done].
  - cbn in Hc. subst. intros g' Hg'. by apply not_elem_of_nil in Hg'.
Qed.

Lemma prevote_new_mark S h v x :
  below S (h, v) (fun y => y = x) -> prevote_covers S (Some (h, v, x)).
Proof. intros H. eapply below_weaken; [done|]. unfold prevote_accepts. naive_solver. Qed.

Lemma prevote_grant_mark S h v x :
  below S (h, v) (fun y => y = x) -> prevote_covers ((h, v, x) :: S) (Some (h, v, x)).
Proof. intros H. apply prevote_new_mark. by apply below_cons. Qed.

Lemma safe_nonzero f S m r h v x :
  m = Some (h, v, x) -> x <> zeros 32 -> reservation_safe f S (mkPrevoteGuard m r).
Proof. intros -> Hx h' v' _ [= _ _ H]. done. Qed.

(** A file mark strictly above the guard's keeps its reservation safe. *)
Lemma safe_raised f f' S g h v x :
  reservation_safe f S g -> f' ≫= decode_prevote = Some (h, v, x) ->
  prevote_covers S (prevote_mark g) ->
  (forall mh mv, reserved g = true -> prevote_mark g = Some (mh, mv, zeros 32) ->
    hv_lt (mh, mv) (h, v)) ->
  reservation_safe f' S g.
Proof.
  intros Hs Hf Hc Hlt h' v' Hr Hm. destruct (Hs h' v' Hr Hm) as [Hb _]. split; [done|].
  intros y. rewrite Hf. specialize (Hlt h' v' Hr Hm).
  intros g' [->|Hg']%elem_of_cons; [by left|].
  destruct (Hb g' Hg') as [?|[_ []]]. left. by eapply hv_lt_trans.
Qed.

(** A fresh placeholder mark, written to the file and to the guard. *)
Lemma safe_placeholder f S r h v :
  f ≫= decode_prevote = Some (h, v, zeros 32) -> below S (h, v) (fun _ => False) ->
  reservation_safe f S (mkPrevoteGuard (Some (h, v, zeros 32)) r).
Proof.
  intros Hf Hb h' v' _ [= <- <-]. split; [done|]. intros y. rewrite Hf.
  apply below_cons; [|by right]. eapply below_weaken; [done|]. naive_solver.
Qed.

(** Strictly raising the mark with the placeholder: [reserve] and [raise_to]. *)
Lemma prevote_placeholder_inv f g S io h v r :
  u64 h -> u64 v -> prevote_inv (mkGuarded f (Some g) S) ->
  (forall mh mv x, prevote_mark g = Some (mh, mv, x) -> hv_lt (mh, mv) (h, v)) ->
  let '(res, f') := prevote_persist io f h v (zeros 32) in
  let g' := match res with Ok _ => mkPrevoteGuard (Some (h, v, zeros 32)) r | Err _ => g end in
  prevote_inv (mkGuarded f' (Some g') S).
Proof.
  intros Hh Hv (HS & Hf & Hg) Hm. cbn in *. destruct (Hg g eq_refl) as [Hc Hr].
  assert (Hs : subject h v (zeros 32)) by (split_and!; [done..|apply length_zeros]).
  assert (Hb : below S (h, v) (fun _ => False)) by (by eapply covers_gt).
  assert (Hb' : prevote_covers S (Some (h, v, zeros 32))).
  { apply prevote_new_mark. eapply below_weaken; [done|]. naive_solver. }
  pose proof (decode_prevote_bytes h v (zeros 32) Hs) as Hd.
  unfold prevote_persist, replace_file. destruct io as [|[]]; unfold prevote_inv; cbn;
    rewrite ?Hd; split_and!; try assumption; intros ? [= <-]; split; try assumption.
  - by apply safe_placeholder.
  - eapply safe_raised; [done|exact Hd|done|eauto].
Qed.

Lemma try_prevote_inv f g S io h v x :
  subject h v x -> x <> zeros 32 -> prevote_inv (mkGuarded f (Some g) S) ->
  prevote_inv (prevote_step (mkGuarded f (Some g) S) (TryPrevote io h v x)).
Proof.
  intros Hs Hx (HS & Hf & Hg). cbn in *. destruct (Hg g eq_refl) as [Hc Hr]. unfold try_prevote.
  destruct (reserved g && _) eqn:Er.
  { apply andb_true_iff in Er as [Er Em%bool_decide_eq_true].
    destruct (Hr h v Er Em) as [Hb Hfile].
    assert (Hb' : below S (h, v) (fun y => y = x)) by (eapply below_weaken; [done|naive_solver]).
    unfold prevote_inv. cbn. split_and!; [by apply no_equivocation_cons|done|].
    intros ? [= <-]. split; [by apply prevote_grant_mark|by eapply safe_nonzero]. }
  destruct (prevote_permits g h v x) eqn:Hp; cbn [negb].
  2:{ unfold prevote_inv. cbn. naive_solver. }
  pose proof (prevote_permitted S g h v x Hc Hp Hx) as Hb.
  assert (Hlt : forall mh mv, reserved g = true -> prevote_mark g = Some (mh, mv, zeros 32) ->
    hv_lt (mh, mv) (h, v)).
  { intros mh mv _ Hm. unfold prevote_permits in Hp. rewrite Hm in Hp.
    destruct (hv_cmp_spec (h, v) (mh, mv)); [by bool_to_prop|done|done]. }
  assert (Hge : match prevote_mark g with
     | Some (mh, mv, _) => match hv_cmp (h, v) (mh, mv) with Lt => false | _ => true end
     | None => true end = true).
  { unfold prevote_permits in Hp. destruct (prevote_mark g) as [[[mh mv] mval]|]; [|done].
    by destruct (hv_cmp (h, v) (mh, mv)). }
  rewrite Hge. pose proof (decode_prevote_bytes h v x Hs) as Hd.
  unfold prevote_persist, replace_file. destruct io as [|[]]; unfold prevote_inv; cbn;
    rewrite ?Hd; split_and!; try assumption.
  - by apply no_equivocation_cons.
  - by apply prevote_grant_mark.
  - intros ? [= <-]. split; [by apply prevote_grant_mark|by eapply safe_nonzero].
  - by apply prevote_new_mark.
  - intros ? [= <-]. split; [done|]. eapply safe_raised; [done|exact Hd|done|done].
Qed.

Lemma prevote_step_inv w ev :
  prevote_event_ok ev -> prevote_inv w -> prevote_inv (prevote_step w ev).
Proof.
  destruct w as [f [g|] S], ev as [r| |io h v x|io h v|io h]; intros Hok Hi; try exact Hi.
  - destruct Hi as (? & ? & _). unfold prevote_inv. cbn. naive_solver.
  - apply try_prevote_inv; by destruct Hok.
  - destruct Hok as [Hh Hv]. cbn. unfold reserve. case_step; [exact Hi|].
    pose proof (prevote_placeholder_inv f g S io h v true Hh Hv Hi) as HH.
    destruct (prevote_persist _ _ _ _ _) as [[] f']; apply HH; intros mh mv y Hy;
      rewrite Hy in Eb; by destruct (hv_cmp_spec (h, v) (mh, mv)).
  - cbn. unfold prevote_raise_to. case_step; [exact Hi|].
    pose proof (prevote_placeholder_inv f g S io h U64_MAX (reserved g) Hok) as HH.
    destruct (prevote_persist _ _ _ _ _) as [[] f']; (apply HH; [unfold in_width, U64_MAX; lia|done|]);
      intros mh mv y Hy; rewrite Hy in Eb; bool_to_prop; by apply raise_above.
  - destruct Hi as (HS & Hf & _). unfold prevote_inv. cbn in *. split_and!; [done..|].
    intros g. unfold PrevoteGuard_open, read_file. destruct r; [|done]. cbn.
    destruct f as [bs|]; cbn in *; [|intros [= <-]; split; [done|by intros ? ? ?]].
    destruct (decode_prevote bs) eqn:E; [|done]. intros [= <-]. split; [done|by intros ? ? ?].
Qed.

(** ** Claims *)

(** C2: a [SignGuard] never lets two values be signed for one height and view, and
    never goes back.  For any history of requests, raises, failing writes (with
    the file replaced or not), crashes and reopens, starting from any file, the
    granted signatures climb in height and view, a repeated grant carries the
    same value, and no two grants for one height and view differ. *)
Theorem sign_guard_never_equivocates f evs :
  Forall sign_event_ok evs ->
  let w := foldl sign_step (mkGuarded f None []) evs in
  no_equivocation (grants w) /\
  forall h v x y, (h, v, x) ∈ grants w -> (h, v, y) ∈ grants w -> x = y.
Proof.
  intros Hok. cbn zeta.
  assert (Hi : sign_inv (foldl sign_step (mkGuarded f None []) evs)).
  { assert (H0 : sign_inv (mkGuarded f None [])).
    { split; [constructor|]. split; [|done]. cbn. destruct (f ≫= decode_mark) as [[[h v] x]|]; [|done].
      intros g Hg. by apply not_elem_of_nil in Hg. }
    revert H0. generalize (mkGuarded (G := SignGuard) f None []).
    induction Hok as [|ev evs Hev Hok IH]; intros w Hw; [done|]. cbn [foldl].
    by apply IH, sign_step_inv. }
  split; [apply Hi|]. intros h v x y. apply no_equivocation_same. apply Hi.
Qed.

Lemma sign_guard_never_equivocates_witness :
  let a := replicate 32 xaa in
  let b := replicate 32 xbb in
  let evs := [SignOpen true; TrySign IoOk 7 2 a; TrySign (IoFailed true) 8 0 b; SignRestart;
    SignOpen true; TrySign IoOk 7 2 b; TrySign IoOk 8 0 b; TrySign IoOk 8 0 a] in
  let w := foldl sign_step (mkGuarded None None []) evs in
  grants w = [(8, 0, b); (7, 2, a)] /\ no_equivocation (grants w).
Proof.
  cbn zeta. split; [vm_compute; reflexivity|].
  apply (sign_guard_never_equivocates None [SignOpen true; TrySign IoOk 7 2 (replicate 32 xaa);
    TrySign (IoFailed true) 8 0 (replicate 32 xbb); SignRestart; SignOpen true;
    TrySign IoOk 7 2 (replicate 32 xbb); TrySign IoOk 8 0 (replicate 32 xbb);
    TrySign IoOk 8 0 (replicate 32 xaa)]).
  repeat constructor; vm_compute; congruence.
Defined.

(** A [PrevoteGuard] never lets two values be prevoted for one height and view,
    although a prevote under a reservation is granted without writing its value
    down.  For any history of requests for non-zero values, reservations,
    raises, failing writes, crashes and reopens, starting from any file, the
    grants climb and none conflicts with another. *)
Theorem prevote_guard_never_equivocates f evs :
  Forall prevote_event_ok evs ->
  let w := foldl prevote_step (mkGuarded f None []) evs in
  no_equivocation (grants w) /\
  forall h v x y, (h, v, x) ∈ grants w -> (h, v, y) ∈ grants w -> x = y.
Proof.
  intros Hok. cbn zeta.
  assert (Hi : prevote_inv (foldl prevote_step (mkGuarded f None []) evs)).
  { assert (H0 : prevote_inv (mkGuarded f None [])).
    { split; [constructor|]. split; [|done]. cbn.
      destruct (f ≫= decode_prevote) as [[[h v] x]|]; [|done].
      intros g Hg. by apply not_elem_of_nil in Hg. }
    revert H0. generalize (mkGuarded (G := PrevoteGuard) f None []).
    induction Hok as [|ev evs Hev Hok IH]; intros w Hw; [done|]. cbn [foldl].
    by apply IH, prevote_step_inv. }
  split; [apply Hi|]. intros h v x y. apply no_equivocation_same. apply Hi.
Qed.

Lemma prevote_guard_never_equivocates_witness :
  let a := replicate 32 xaa in
  let b := replicate 32 xbb in
  let evs := [PrevoteOpen true; Reserve IoOk 7 2; TryPrevote IoOk 7 2 a; TryPrevote IoOk 7 2 b;
    PrevoteRestart; PrevoteOpen true; TryPrevote IoOk 7 2 b; TryPrevote IoOk 7 3 b] in
  let w := foldl prevote_step (mkGuarded None None []) evs in
  grants w = [(7, 3, b); (7, 2, a)] /\ no_equivocation (grants w).
Proof.
  cbn zeta. split; [vm_compute; reflexivity|].
  apply (prevote_guard_never_equivocates None [PrevoteOpen true; Reserve IoOk 7 2;
    TryPrevote IoOk 7 2 (replicate 32 xaa); TryPrevote IoOk 7 2 (replicate 32 xbb);
    PrevoteRestart; PrevoteOpen true; TryPrevote IoOk 7 2 (replicate 32 xbb);
    TryPrevote IoOk 7 3 (replicate 32 xbb)]).
  repeat constructor; vm_compute; congruence.
Defined.

Lemma lock_sealed h p : sealed (lock_bytes h p) /\ length (lock_bytes h p) = (12 + length p)%nat.
Proof.
  unfold lock_bytes, sealed. rewrite !length_app, !length_to_le.
  set (body := to_le 8 h ++ p).
  assert (Hb : (8 + length p + 4 - 4)%nat = length body) by (unfold body; rewrite length_app, length_to_le; lia).
  rewrite Hb, take_app_length, drop_app_length, crc32_ref.
  split; [|lia]. by rewrite from_to_le by (apply (in_width_bytes 4), u32_crc_ref).
Qed.

Lemma lock_load_sealed bs :
  ~ sealed bs -> (12 <= length bs)%nat -> lock_load true (Some bs) = Err InvalidData.
Proof.
  intros Hs Hl. unfold lock_load, read_file, rbind. destruct (Nat.ltb_spec (length bs) 12); [done|].
  rewrite crc32_ref. destruct (Z.eqb_spec (crc_ref (take (length bs - 4) bs))
    (from_le (drop (length bs - 4) bs))) as [He|]; [|done]. by destruct Hs.
Qed.

(** The lock file returns what was stored or refuses to start.  Loading after a
    store gives back the height and the payload; after a failed store it gives
    the new content or exactly the old one; and a stored file in which at most
    four consecutive bytes were changed, the checksum's own bytes included, is
    refused as [InvalidData], never read as an absent or different lock. *)
Theorem lock_file_faithful io f height payload :
  u64 height ->
  let '(r, f') := lock_store io f height payload in
  (is_ok r = true -> lock_load true f' = Ok (Some (height, payload))) /\
  (is_ok r = false -> f' = f \/ lock_load true f' = Ok (Some (height, payload))) /\
  (forall bs bs', is_ok r = true -> f' = Some bs -> burst bs bs' ->
   lock_load true (Some bs') = Err InvalidData).
Proof.
  intros Hh. destruct (lock_sealed height payload) as [Hs Hlen].
  assert (Hload : lock_load true (Some (lock_bytes height payload)) = Ok (Some (height, payload))).
  { unfold lock_load, read_file, rbind. rewrite Hlen.
    destruct (Nat.ltb_spec (12 + length payload) 12); [lia|].
    unfold sealed in Hs. rewrite Hlen in Hs. rewrite crc32_ref, Hs, Z.eqb_refl. cbn [negb].
    unfold lock_bytes. rewrite <- app_assoc.
    rewrite (slice_app_l (to_le 8 height)) by apply length_to_le.
    rewrite from_to_le by (by apply (in_width_bytes 8)).
    rewrite (slice_app_r (to_le 8 height) _ 8 _ 8) by (rewrite ?length_to_le; done || lia).
    replace (12 + length payload - 4 - 8)%nat with (length payload) by lia.
    by rewrite Nat.sub_diag, slice_app_l. }
  unfold lock_store, replace_file. destruct io as [|[]]; cbn [is_ok]; split_and!; auto; try done.
  intros bs bs' _ [= <-] Hb. apply lock_load_sealed.
  - apply (burst_breaks_seal (lock_bytes height payload)); [lia|done|done].
  - apply burst_length in Hb. lia.
Qed.

Lemma lock_file_faithful_witness :
  let '(r, f) := lock_store IoOk None 7 [x01; x02] in
  is_ok r = true /\ lock_load true f = Ok (Some (7, [x01; x02])).
Proof.
  split; [reflexivity|]. apply (lock_file_faithful IoOk None 7 [x01; x02]).
  - vm_compute. split; congruence.
  - reflexivity.
Defined.
