(* ===== verification/Log.v ===== *)
(** * The append-only log (crates/qtv-store/src/log.rs)

    Every store of the node keeps its records in such a log: a header with a
    random salt, then one frame per record, a length, the payload and a checksum
    keyed by the salt.  A file is its content; a [Log] is the content with the
    salt and the dirty flag.  Reading the disk is taken to succeed, an append may
    fail part-way.  The random salt is an input. *)

From S2P Require Import Prelude Codec Crc.

(** [qtv_codec::LENGTH_WIDTH]. *)
Definition LEN_WIDTH : nat := 8.
Definition CHECKSUM_WIDTH : nat := 4.
Definition SALT_LEN : nat := 16.
Definition MAX_RESYNC_PROBES : Z := 2 ^ 24.
Definition MAX_PROBE_BYTES : Z := 64 * 1024 * 1024.

(** "QTVLOG02" *)
Definition MAGIC : list byte := [x51; x54; x56; x4c; x4f; x47; x30; x32].
Definition HEADER_LEN : nat := (length MAGIC + SALT_LEN)%nat.

Inductive LogError : Type := NotALog | CorruptMiddle | FrameUndecodable | WriteFailed | ShortRead.

Record Log : Type := mkLog { content : list byte; salt : list byte; dirty : bool }.

(** A file shorter than the header is started afresh with the salt [rng]. *)
Definition prepare_header (rng file : list byte) : Result LogError (list byte * list byte) :=
  if (length file <? HEADER_LEN)%nat then Ok (rng, MAGIC ++ rng)
  else if negb (bool_decide (take (length MAGIC) file = MAGIC)) then Err NotALog
  else Ok (slice file (length MAGIC) HEADER_LEN, file).

Definition frame_len (payload_len : nat) : nat := (LEN_WIDTH + payload_len + CHECKSUM_WIDTH)%nat.

(** ** Writing *)

Definition frame (salt payload : list byte) : list byte :=
  let framed := into_bytes (Encoder_new |> put_bytes payload) in
  framed ++ to_le 4 (checksum_parts [salt; framed]).

(** [file.set_len(len)] of a file that is at least as long. *)
Definition log_truncate (l : Log) (n : nat) : Log :=
  mkLog (take (Nat.max n HEADER_LEN) (content l)) (salt l) false.

(** A failing write leaves a prefix of its bytes and is then rolled back, unless
    the truncation fails as well: [fault] is [Some (n, rolled_back)]. *)
Definition append_all (fault : option (nat * bool)) (l : Log) (payloads : list (list byte))
  : Result LogError unit * Log :=
  match payloads with
  | [] => (Ok tt, l)
  | _ =>
      let framed := concat (map (frame (salt l)) payloads) in
      match fault with
      | None => (Ok tt, mkLog (content l ++ framed) (salt l) true)
      | Some (n, rolled_back) =>
          let torn := mkLog (content l ++ take n framed) (salt l) true in
          (Err WriteFailed, if rolled_back then log_truncate torn (length (content l)) else torn)
      end
  end.

Definition append (fault : option (nat * bool)) (l : Log) (payload : list byte)
  : Result LogError unit * Log := append_all fault l [payload].

Definition log_sync (l : Log) : Log := mkLog (content l) (salt l) false.

Definition next_payload_start (l : Log) : nat := (length (content l) + LEN_WIDTH)%nat.

Definition read_payload (l : Log) (payload_start payload_len : nat) : Result LogError (list byte) :=
  if (payload_start + payload_len <=? length (content l))%nat
  then Ok (slice (content l) payload_start (payload_start + payload_len))
  else Err ShortRead.

(** ** Scanning a whole file *)

Definition valid_frame_at (salt bytes : list byte) (pos : nat) : bool :=
  if (length bytes - pos <? LEN_WIDTH)%nat then false
  else
    let length_ := from_le (slice bytes pos (pos + LEN_WIDTH)) in
    let payload_start := (pos + LEN_WIDTH)%nat in
    let available := (length bytes - payload_start)%nat in
    if (Z.of_nat available <? length_) ||
       (Z.of_nat available - length_ <? Z.of_nat CHECKSUM_WIDTH) then false
    else
      let payload_end := (payload_start + Z.to_nat length_)%nat in
      let frame_end := (payload_end + CHECKSUM_WIDTH)%nat in
      from_le (slice bytes payload_end frame_end) =?
        checksum_parts [salt; slice bytes pos payload_end].

Inductive ScanStop : Type := TornTail | Corrupt.

#[global] Instance ScanStop_eq_decision : EqDecision ScanStop.
Proof. solve_decision. Defined.

(** The loop of [scan]; [fuel] bounds the number of frames. *)
Fixpoint scan_loop (fuel : nat) (salt bytes : list byte) (frames : list (list byte)) (pos : nat)
  : list (list byte) * nat * ScanStop :=
  match fuel with
  | O => (frames, pos, TornTail)
  | S fuel =>
      if (length bytes - pos <? LEN_WIDTH)%nat then (frames, pos, TornTail)
      else
        let length_ := from_le (slice bytes pos (pos + LEN_WIDTH)) in
        let payload_start := (pos + LEN_WIDTH)%nat in
        let available := (length bytes - payload_start)%nat in
        if Z.of_nat available <? length_ then (frames, pos, TornTail)
        else if Z.of_nat available - length_ <? Z.of_nat CHECKSUM_WIDTH then (frames, pos, TornTail)
        else
          let payload_end := (payload_start + Z.to_nat length_)%nat in
          let frame_end := (payload_end + CHECKSUM_WIDTH)%nat in
          if negb (from_le (slice bytes payload_end frame_end) =?
                   checksum_parts [salt; slice bytes pos payload_end])
          then (frames, pos, if valid_frame_at salt bytes frame_end then Corrupt else TornTail)
          else scan_loop fuel salt bytes (frames ++ [slice bytes payload_start payload_end]) frame_end
  end.

(** Every frame is at least 12 bytes long, so the length bounds the rounds. *)
Definition scan (salt bytes : list byte) : list (list byte) * nat * ScanStop :=
  scan_loop (length bytes) salt bytes [] 0.

Definition Log_open (rng file : list byte) : Result LogError (Log * list (list byte)) :=
  let? header := prepare_header rng file in
  let '(salt, file) := header in
  let bytes := drop HEADER_LEN file in
  let '(frames, clean, stop) := scan salt bytes in
  if (clean <? length bytes)%nat then
    if bool_decide (stop = Corrupt) then Err CorruptMiddle
    else Ok (mkLog (take (HEADER_LEN + clean) file) salt true, frames)
  else Ok (mkLog file salt true, frames).

(** ** Scanning with a visitor *)

Inductive Probe : Type := Found | Missed (spent : Z) | OverBudget.

Definition frame_is_well_formed (salt file : list byte) (at_ total : nat) (budget : Z) : Probe :=
  if (total - at_ <? LEN_WIDTH)%nat then Missed 0
  else
    let length_bytes := slice file at_ (at_ + LEN_WIDTH) in
    let length_ := from_le length_bytes in
    let payload_start := (at_ + LEN_WIDTH)%nat in
    let available := (total - payload_start)%nat in
    if (Z.of_nat available <? length_) ||
       (Z.of_nat available - length_ <? Z.of_nat CHECKSUM_WIDTH) then Missed 0
    else if budget <? length_ then OverBudget
    else
      let payload_end := (payload_start + Z.to_nat length_)%nat in
      let payload := slice file payload_start payload_end in
      if from_le (slice file payload_end (payload_end + CHECKSUM_WIDTH)) =?
         checksum_parts [salt; length_bytes; payload]
      then Found else Missed length_.

(** [total - at] bounds the rounds: [at] grows by one in each. *)
Fixpoint follows_loop (fuel : nat) (salt file : list byte) (at_ probed total : nat) (budget : Z)
  : Result LogError bool :=
  match fuel with
  | O => Ok false
  | S fuel =>
      if (total <? at_ + LEN_WIDTH)%nat then Ok false
      else if MAX_RESYNC_PROBES <=? Z.of_nat probed then Err CorruptMiddle
      else match frame_is_well_formed salt file at_ total budget with
        | Found => Ok true
        | Missed spent => follows_loop fuel salt file (at_ + 1) (probed + 1) total (budget - spent)
        | OverBudget => Err CorruptMiddle
        end
  end.

Definition a_well_formed_frame_follows (salt file : list byte) (from total : nat)
  : Result LogError bool :=
  follows_loop (S (total - from)) salt file from 0 total MAX_PROBE_BYTES.

Section Visitor.
Context {V : Type}.
(** [visit payload payload_start end], with the state a closure captures. *)
Variable visit : V -> list byte -> nat -> nat -> bool * V.
Variables strict_frames strict_decode truncate_tail : bool.

(** What [scan_open_parts] does at a frame it cannot read. *)
Definition unreadable (salt file : list byte) (payload_start total pos : nat) (s : V)
  : Result LogError (nat * V) :=
  if strict_frames then
    let? follows := a_well_formed_frame_follows salt file payload_start total in
    if follows then Err CorruptMiddle else Ok (pos, s)
  else Ok (pos, s).

(** As in [scan], the number of bytes bounds the number of frames. *)
Fixpoint visit_loop (fuel : nat) (salt file : list byte) (total pos : nat) (s : V)
  : Result LogError (nat * V) :=
  match fuel with
  | O => Ok (pos, s)
  | S fuel =>
      if (total - pos <? LEN_WIDTH)%nat then Ok (pos, s)
      else
        let length_bytes := slice file pos (pos + LEN_WIDTH) in
        let length_ := from_le length_bytes in
        let payload_start := (pos + LEN_WIDTH)%nat in
        let available := (total - payload_start)%nat in
        if (Z.of_nat available <? length_) ||
           (Z.of_nat available - length_ <? Z.of_nat CHECKSUM_WIDTH)
        then unreadable salt file payload_start total pos s
        else
          let payload_end := (payload_start + Z.to_nat length_)%nat in
          let payload := slice file payload_start payload_end in
          let end_ := (payload_end + CHECKSUM_WIDTH)%nat in
          if negb (from_le (slice file payload_end end_) =?
                   checksum_parts [salt; length_bytes; payload])
          then unreadable salt file payload_start total pos s
          else
            let '(keep, s) := visit s payload payload_start end_ in
            if negb keep
            then if strict_decode then Err FrameUndecodable else Ok (pos, s)
            else visit_loop fuel salt file total end_ s
  end.

Definition scan_open_parts (rng file : list byte) (s : V) : Result LogError (Log * V) :=
  let? header := prepare_header rng file in
  let '(salt, file) := header in
  let total := length file in
  let? scanned := visit_loop (total - HEADER_LEN) salt file total HEADER_LEN s in
  let '(clean, s) := scanned in
  let file := if truncate_tail && (clean <? total)%nat then take clean file else file in
  Ok (mkLog file salt true, s).
End Visitor.

(** The public openings fix the three switches. *)
Definition open_scanned {V} (visit : V -> list byte -> nat -> nat -> bool * V) :=
  scan_open_parts visit false false true.
Definition open_scanned_strict {V} (visit : V -> list byte -> nat -> nat -> bool * V) :=
  scan_open_parts visit true true true.
Definition open_scanned_keeping_tail {V} (visit : V -> list byte -> nat -> nat -> bool * V) :=
  scan_open_parts visit false false false.
Definition open_scanned_keeping_tail_strict {V} (visit : V -> list byte -> nat -> nat -> bool * V) :=
  scan_open_parts visit false true false.

(** ** Frames *)

(** The bytes of a log that holds the records [ps]. *)
Definition frames_image (salt : list byte) (ps : list (list byte)) : list byte :=
  concat (map (frame salt) ps).
Definition log_image (salt : list byte) (ps : list (list byte)) : list byte :=
  MAGIC ++ salt ++ frames_image salt ps.

(** What fits a frame's length field. *)
Definition payload_ok (p : list byte) : Prop := u64 (len p).

Definition frame_body (p : list byte) : list byte := to_le 8 (len p) ++ p.

Lemma frame_shape salt p :
  frame salt p = to_le 8 (len p) ++ p ++ to_le 4 (crc_ref (salt ++ frame_body p)).
Proof.
  unfold frame, into_bytes, frame_body. rewrite checksum_parts_ref. cbn [concat].
  change (buf (Encoder_new |> put_bytes p)) with (to_le 8 (len p) ++ p).
  by rewrite app_nil_r, <- app_assoc.
Qed.

Lemma length_frame salt p : length (frame salt p) = frame_len (length p).
Proof.
  rewrite frame_shape. unfold frame_len, LEN_WIDTH, CHECKSUM_WIDTH.
  rewrite !length_app, !length_to_le. lia.
Qed.

Lemma frames_image_app s ps qs :
  frames_image s (ps ++ qs) = frames_image s ps ++ frames_image s qs.
Proof. unfold frames_image. by rewrite map_app, concat_app. Qed.

Lemma frames_image_snoc s ps p : frames_image s (ps ++ [p]) = frames_image s ps ++ frame s p.
Proof. rewrite frames_image_app. unfold frames_image at 2. cbn. by rewrite app_nil_r. Qed.

(** Each frame has at least twelve bytes. *)
Lemma length_frames_image s ps : (12 * length ps <= length (frames_image s ps))%nat.
Proof.
  unfold frames_image. induction ps as [|p ps IH]; cbn [map concat]; [cbn; lia|].
  rewrite length_app, length_frame. unfold frame_len, LEN_WIDTH, CHECKSUM_WIDTH.
  cbn [length]. lia.
Qed.

(** What any of the readers sees at an intact frame. *)
Lemma frame_fields s pre p post bytes pos :
  payload_ok p -> bytes = pre ++ frame s p ++ post -> pos = length pre ->
  let start := (pos + LEN_WIDTH)%nat in
  let stop := (start + length p)%nat in
  (length bytes = pos + frame_len (length p) + length post)%nat /\
  slice bytes pos start = to_le 8 (len p) /\ slice bytes start stop = p /\
  slice bytes pos stop = frame_body p /\
  from_le (slice bytes stop (stop + CHECKSUM_WIDTH)) = crc_ref (s ++ frame_body p).
Proof.
  intros Hp -> ->. cbn zeta. rewrite !length_app, length_frame. split; [lia|].
  rewrite frame_shape. unfold LEN_WIDTH, CHECKSUM_WIDTH.
  rewrite !(slice_app_r pre _ _ _ (length pre)) by (done || lia).
  replace (length pre - length pre)%nat with 0%nat by lia.
  replace (length pre + 8 - length pre)%nat with 8%nat by lia.
  replace (length pre + 8 + length p - length pre)%nat with (8 + length p)%nat by lia.
  replace (length pre + 8 + length p + 4 - length pre)%nat with (8 + length p + 4)%nat by lia.
  rewrite <- !app_assoc. split_and!.
  - by rewrite slice_app_l by apply length_to_le.
  - rewrite (slice_app_r (to_le 8 (len p)) _ _ _ 8) by (rewrite ?length_to_le; done || lia).
    rewrite Nat.sub_diag. replace (8 + length p - 8)%nat with (length p) by lia.
    by rewrite slice_app_l.
  - unfold frame_body. rewrite (app_assoc (to_le 8 (len p))). rewrite slice_app_l; [done|].
    by rewrite length_app, length_to_le.
  - rewrite (app_assoc (to_le 8 (len p))).
    rewrite (slice_app_r (to_le 8 (len p) ++ p) _ _ _ (8 + length p))
      by (rewrite ?length_app, ?length_to_le; done || lia).
    replace (8 + length p - (8 + length p))%nat with 0%nat by lia.
    replace (8 + length p + 4 - (8 + length p))%nat with 4%nat by lia.
    rewrite slice_app_l by apply length_to_le.
    rewrite from_to_le; [done|]. apply (in_width_bytes 4), u32_crc_ref.
Qed.

Lemma from_le_len p : payload_ok p -> from_le (to_le 8 (len p)) = len p.
Proof. intros Hp. apply from_to_le. by apply (in_width_bytes 8). Qed.

Lemma checksum_frame s p :
  checksum_parts [s; frame_body p] = crc_ref (s ++ frame_body p) /\
  checksum_parts [s; to_le 8 (len p); p] = crc_ref (s ++ frame_body p).
Proof. rewrite !checksum_parts_ref. cbn [concat]. by rewrite !app_nil_r. Qed.

(** The header of a frame that is cut short or read past promises more than there is. *)
Lemma len_to_nat (p : list byte) : Z.to_nat (len p) = length p.
Proof. unfold len. lia. Qed.

Lemma valid_frame_here s pre p post :
  payload_ok p -> valid_frame_at s (pre ++ frame s p ++ post) (length pre) = true.
Proof.
  intros Hp. destruct (frame_fields s pre p post _ _ Hp eq_refl eq_refl) as (Hl & H1 & H2 & H3 & H4).
  unfold valid_frame_at. rewrite H1, (from_le_len p Hp), len_to_nat, H3, H4.
  rewrite (proj1 (checksum_frame s p)), Z.eqb_refl.
  unfold frame_len, LEN_WIDTH, CHECKSUM_WIDTH, len in *.
  destruct (Nat.ltb_spec (length (pre ++ frame s p ++ post) - length pre) 8); [lia|].
  destruct (Z.ltb_spec (Z.of_nat (length (pre ++ frame s p ++ post) - (length pre + 8)))
    (Z.of_nat (length p))); [lia|].
  cbn [orb]. case_step; [|done]. bool_to_prop. lia.
Qed.

Lemma scan_step fuel s bytes pre p post fs :
  payload_ok p -> bytes = pre ++ frame s p ++ post ->
  scan_loop (S fuel) s bytes fs (length pre) =
  scan_loop fuel s bytes (fs ++ [p]) (length (pre ++ frame s p)).
Proof.
  intros Hp Hb. destruct (frame_fields s pre p post _ _ Hp Hb eq_refl) as (Hl & H1 & H2 & H3 & H4).
  cbn [scan_loop]. rewrite H1, (from_le_len p Hp), len_to_nat, H2, H3, H4.
  rewrite (proj1 (checksum_frame s p)), Z.eqb_refl. cbn [negb].
  rewrite length_app, length_frame. unfold frame_len, LEN_WIDTH, CHECKSUM_WIDTH, len in *.
  destruct (Nat.ltb_spec (length bytes - length pre) 8); [lia|].
  repeat (case_step; [bool_to_prop; lia|]). f_equal. lia.
Qed.

Lemma scan_frames fuel s bytes pre ps post fs :
  Forall payload_ok ps -> bytes = pre ++ frames_image s ps ++ post ->
  scan_loop (length ps + fuel) s bytes fs (length pre) =
  scan_loop fuel s bytes (fs ++ ps) (length (pre ++ frames_image s ps)).
Proof.
  intros Hps. revert pre fs. induction Hps as [|p ps Hp Hps IH]; intros pre fs Hb.
  - cbn. unfold frames_image. cbn. by rewrite !app_nil_r.
  - unfold frames_image in Hb. cbn [map concat] in Hb. rewrite <- app_assoc in Hb.
    cbn [length Nat.add]. rewrite (scan_step _ s bytes pre p _ fs Hp Hb).
    rewrite IH by (by rewrite <- app_assoc). rewrite <- !app_assoc. done.
Qed.

(** ** Torn tails *)

Lemma scan_torn fuel s pre p j fs :
  payload_ok p -> (j < frame_len (length p))%nat ->
  scan_loop fuel s (pre ++ take j (frame s p)) fs (length pre) = (fs, length pre, TornTail).
Proof.
  intros Hp Hj. destruct fuel as [|fuel]; [done|]. cbn [scan_loop].
  unfold frame_len, LEN_WIDTH, CHECKSUM_WIDTH in *.
  assert (Hl : length (pre ++ take j (frame s p)) = (length pre + j)%nat).
  { rewrite length_app, length_take, length_frame. unfold frame_len, LEN_WIDTH, CHECKSUM_WIDTH. lia. }
  rewrite Hl. destruct (Nat.ltb_spec (length pre + j - length pre) 8); [done|].
  assert (Hh : slice (pre ++ take j (frame s p)) (length pre) (length pre + 8) = to_le 8 (len p)).
  { rewrite (slice_app_r pre _ _ _ (length pre)) by done.
    replace (length pre - length pre)%nat with 0%nat by lia.
    replace (length pre + 8 - length pre)%nat with 8%nat by lia.
    rewrite frame_shape, take_app, length_to_le. rewrite take_ge by (rewrite length_to_le; lia).
    by apply slice_app_l, length_to_le. }
  rewrite Hh, (from_le_len p Hp).
  destruct (Z.ltb_spec (Z.of_nat (length pre + j - (length pre + 8))) (len p)); [done|].
  case_step; [done|]. bool_to_prop. unfold len in *. lia.
Qed.

Lemma scan_end fuel s bytes fs : scan_loop fuel s bytes fs (length bytes) = (fs, length bytes, TornTail).
Proof. destruct fuel; [done|]. cbn [scan_loop]. by rewrite Nat.sub_diag. Qed.

(** The records whose frames lie within the first [k] bytes. *)
Fixpoint complete (k : nat) (ps : list (list byte)) : list (list byte) :=
  match ps with
  | [] => []
  | p :: ps =>
      if (frame_len (length p) <=? k)%nat then p :: complete (k - frame_len (length p)) ps else []
  end.

Lemma complete_ok k ps : Forall payload_ok ps -> Forall payload_ok (complete k ps).
Proof.
  intros Hps. revert k. induction Hps as [|p ps Hp Hps IH]; intros k; cbn; [done|].
  case_step; constructor; auto.
Qed.

Lemma complete_length k ps : (length (complete k ps) <= length ps)%nat.
Proof.
  revert k. induction ps as [|p ps IH]; intros k; cbn [complete]; [done|].
  case_step; cbn [length]; [|lia]. specialize (IH (k - frame_len (length p))%nat). lia.
Qed.

(** Cutting a run of frames leaves the complete ones and at most a piece of one. *)
Lemma take_frames s ps k :
  Forall payload_ok ps ->
  exists tail, take k (frames_image s ps) = frames_image s (complete k ps) ++ tail /\
  (tail = [] \/ exists p j, payload_ok p /\ (j < frame_len (length p))%nat /\ tail = take j (frame s p)).
Proof.
  intros Hps. revert k. induction Hps as [|p ps Hp Hps IH]; intros k.
  - exists []. cbn. rewrite take_nil. by auto.
  - unfold frames_image. cbn [map concat complete].
    destruct (Nat.leb_spec (frame_len (length p)) k) as [Hk|Hk].
    + destruct (IH (k - frame_len (length p))%nat) as (tail & Ht & Hcase). exists tail.
      split; [|done]. cbn [map concat]. rewrite <- app_assoc. unfold frames_image in Ht.
      rewrite <- Ht, take_app, length_frame. by rewrite take_ge by (rewrite length_frame; lia).
    + exists (take k (frame s p)). split.
      * cbn [map concat app]. rewrite take_app_le; [done|]. rewrite length_frame. lia.
      * right. by exists p, k.
Qed.

Lemma scan_cut fuel s pre ps k fs :
  Forall payload_ok ps -> (length ps <= fuel)%nat ->
  scan_loop fuel s (pre ++ take k (frames_image s ps)) fs (length pre) =
  (fs ++ complete k ps, length (pre ++ frames_image s (complete k ps)), TornTail).
Proof.
  intros Hps Hf. destruct (take_frames s ps k Hps) as (tail & Ht & Hcase). rewrite Ht.
  assert (Hc : (length (complete k ps) <= fuel)%nat).
  { enough (length (complete k ps) <= length ps)%nat by lia. apply complete_length. }
  replace fuel with (length (complete k ps) + (fuel - length (complete k ps)))%nat by lia.
  rewrite (scan_frames _ s _ pre (complete k ps) tail fs) by (done || by apply complete_ok).
  destruct Hcase as [->|(p & j & Hp & Hj & ->)].
  - rewrite !app_nil_r. apply scan_end.
  - rewrite app_assoc. by apply scan_torn.
Qed.

(** ** What a scan accepts *)

Lemma take_slice (bs : list byte) n m : (n <= m)%nat -> take m bs = take n bs ++ slice bs n m.
Proof.
  intros Hn. unfold slice. rewrite take_take_drop. f_equal. lia.
Qed.

Lemma slice_split (bs : list byte) n m k :
  (n <= m)%nat -> (m <= k)%nat -> slice bs n k = slice bs n m ++ slice bs m k.
Proof.
  intros H1 H2. unfold slice. replace (k - n)%nat with ((m - n) + (k - m))%nat by lia.
  rewrite <- take_take_drop, drop_drop. repeat f_equal; lia.
Qed.

Lemma length_slice (bs : list byte) n m :
  (n <= m)%nat -> (m <= length bs)%nat -> length (slice bs n m) = (m - n)%nat.
Proof. intros. unfold slice. rewrite length_take, length_drop. lia. Qed.

(** A frame that passes the readers' checks is the frame of its payload. *)
Lemma frame_accepted s bytes pos :
  let start := (pos + LEN_WIDTH)%nat in
  let length_ := from_le (slice bytes pos start) in
  let stop := (start + Z.to_nat length_)%nat in
  (stop + CHECKSUM_WIDTH <= length bytes)%nat ->
  from_le (slice bytes stop (stop + CHECKSUM_WIDTH)) = crc_ref (s ++ slice bytes pos stop) ->
  slice bytes pos (stop + CHECKSUM_WIDTH) = frame s (slice bytes start stop) /\
  payload_ok (slice bytes start stop) /\ length (slice bytes start stop) = Z.to_nat length_.
Proof.
  intros start length_ stop Hl Hc. unfold LEN_WIDTH, CHECKSUM_WIDTH in *.
  assert (Hw : 0 <= length_ < 256 ^ 8).
  { unfold length_. pose proof (from_le_range (slice bytes pos start)) as Hr.
    rewrite length_slice in Hr by lia. replace (start - pos)%nat with 8%nat in Hr by lia. done. }
  assert (Hp : length (slice bytes start stop) = Z.to_nat length_).
  { rewrite length_slice by lia. lia. }
  assert (Hlen : len (slice bytes start stop) = length_) by (unfold len; lia).
  split_and!; [|unfold payload_ok; rewrite Hlen; by unfold in_width|done].
  assert (Hb : frame_body (slice bytes start stop) = slice bytes pos stop).
  { unfold frame_body. rewrite Hlen, (slice_split bytes pos start stop) by lia. f_equal.
    apply to_from_le_n. rewrite length_slice by lia. lia. }
  rewrite frame_shape, Hb, <- Hc, app_assoc. change (to_le 8 _ ++ _) with (frame_body (slice bytes start stop)).
  rewrite Hb, to_from_le_n by (rewrite length_slice by lia; lia).
  apply slice_split; lia.
Qed.

Lemma scan_sound fuel s bytes fs pos fs' clean stop :
  scan_loop fuel s bytes fs pos = (fs', clean, stop) ->
  (pos <= length bytes)%nat -> take pos bytes = frames_image s fs -> Forall payload_ok fs ->
  (clean <= length bytes)%nat /\ take clean bytes = frames_image s fs' /\ Forall payload_ok fs'.
Proof.
  revert fs pos. induction fuel as [|fuel IH]; intros fs pos H Hpos Ht Hfs; cbn [scan_loop] in H.
  { by simplify_eq. }
  do 4 (case_in H; [by simplify_eq|]). bool_to_prop.
  rewrite checksum_parts_ref in *. cbn [concat] in *. rewrite app_nil_r in *.
  pose proof (from_le_range (slice bytes pos (pos + LEN_WIDTH))).
  destruct (frame_accepted s bytes pos) as (Hf & Hp & Hl); [unfold LEN_WIDTH, CHECKSUM_WIDTH in *; lia|done|].
  apply IH in H; [done|unfold LEN_WIDTH, CHECKSUM_WIDTH in *; lia| |].
  - rewrite (take_slice bytes pos) by (unfold LEN_WIDTH, CHECKSUM_WIDTH in *; lia).
    by rewrite Ht, Hf, frames_image_snoc.
  - apply Forall_app. by auto.
Qed.

(** ** Opened logs *)

(** A log that holds exactly the records [ps]. *)
Definition holds (l : Log) (ps : list (list byte)) : Prop :=
  content l = log_image (salt l) ps /\ length (salt l) = SALT_LEN /\ Forall payload_ok ps.

Lemma header_image s ps tail :
  length s = SALT_LEN ->
  let file := log_image s ps ++ tail in
  (HEADER_LEN <= length file)%nat /\ take (length MAGIC) file = MAGIC /\
  slice file (length MAGIC) HEADER_LEN = s /\ drop HEADER_LEN file = frames_image s ps ++ tail.
Proof.
  intros Hs. cbn zeta. unfold log_image. rewrite <- !app_assoc.
  assert (HH : HEADER_LEN = length (MAGIC ++ s)) by (rewrite length_app, Hs; done).
  split_and!.
  - rewrite HH, !length_app. lia.
  - apply take_app_length.
  - rewrite (slice_app_r MAGIC _ _ _ (length MAGIC)) by done. rewrite Nat.sub_diag.
    rewrite slice_app_l; [done|]. rewrite Hs. done.
  - rewrite HH, app_assoc. apply drop_app_length.
Qed.

Lemma prepare_image rng s ps tail :
  length s = SALT_LEN ->
  prepare_header rng (log_image s ps ++ tail) = Ok (s, log_image s ps ++ tail).
Proof.
  intros Hs. destruct (header_image s ps tail Hs) as (H1 & H2 & H3 & _).
  unfold prepare_header. destruct (Nat.ltb_spec (length (log_image s ps ++ tail)) HEADER_LEN); [lia|].
  rewrite bool_decide_eq_true_2 by done. cbn [negb]. by rewrite H3.
Qed.

Lemma prepare_shape rng file s file' :
  length rng = SALT_LEN -> prepare_header rng file = Ok (s, file') ->
  length s = SALT_LEN /\ file' = log_image s [] ++ drop HEADER_LEN file'.
Proof.
  intros Hr. unfold prepare_header. intros H. case_in H; bool_to_prop.
  - assert (s = rng /\ file' = MAGIC ++ rng) as [-> ->] by (split; congruence).
    split; [done|]. unfold log_image. cbn [frames_image map concat].
    rewrite app_nil_r, drop_ge by (rewrite length_app, Hr; done). by rewrite app_nil_r.
  - case_in H; [done|]. bool_to_prop. simplify_eq.
    assert (Hm : (length MAGIC <= HEADER_LEN)%nat) by (vm_compute; lia).
    split; [rewrite length_slice by done; done|].
    rewrite <- (take_drop HEADER_LEN file') at 1. f_equal. unfold log_image.
    cbn [frames_image map concat]. rewrite app_nil_r.
    rewrite (take_slice file' (length MAGIC)) by done. by rewrite Eb0.
Qed.

Lemma length_header s : length s = SALT_LEN -> length (log_image s []) = HEADER_LEN.
Proof. intros Hs. unfold log_image. cbn [frames_image map concat]. by rewrite app_nil_r, length_app, Hs. Qed.

#[local] Opaque HEADER_LEN.

(** Opening keeps a prefix of the file that is exactly the frames it returns. *)
Lemma Log_open_holds rng file l fs :
  length rng = SALT_LEN -> Log_open rng file = Ok (l, fs) -> holds l fs.
Proof.
  intros Hr H. unfold Log_open, rbind in H.
  destruct (prepare_header rng file) as [[s file']|] eqn:Ep; [|done].
  apply prepare_shape in Ep as [Hs Hf]; [|done].
  destruct (scan s (drop HEADER_LEN file')) as [[fs' clean] stop] eqn:Esc.
  apply scan_sound in Esc as (Hc & Ht & Hok); [|lia|done|done].
  assert (Hlog : forall t, t = frames_image s fs' -> log_image s [] ++ t = log_image s fs').
  { intros t ->. unfold log_image. cbn [frames_image map concat]. by rewrite app_nil_r, <- app_assoc. }
  pose proof (length_header s Hs) as HHL.
  case_in H.
  - case_in H; [done|]. simplify_eq. unfold holds. cbn [content salt]. split_and!; [|done..].
    rewrite Hf, take_app, HHL. rewrite take_ge by (rewrite HHL; lia).
    replace (HEADER_LEN + clean - HEADER_LEN)%nat with clean by lia. by apply Hlog.
  - simplify_eq. unfold holds. cbn [content salt]. split_and!; [|done..]. bool_to_prop.
    rewrite Hf. apply Hlog. rewrite <- Ht. symmetry. apply take_ge. lia.
Qed.

(** The scan of a file that holds [fs] followed by a torn run of frames. *)
Lemma scan_image s fs ps k :
  Forall payload_ok fs -> Forall payload_ok ps ->
  let bytes := frames_image s fs ++ take k (frames_image s ps) in
  scan_loop (length bytes) s bytes [] 0 =
  (fs ++ complete k ps, length (frames_image s (fs ++ complete k ps)), TornTail).
Proof.
  intros Hfs Hps bytes. destruct (take_frames s ps k Hps) as (tail & Ht & Hcase).
  assert (Hb : bytes = [] ++ frames_image s (fs ++ complete k ps) ++ tail).
  { unfold bytes. cbn [app]. by rewrite Ht, frames_image_app, app_assoc. }
  pose proof (length_frames_image s (fs ++ complete k ps)) as Hl.
  assert (Hn : (length (fs ++ complete k ps) <= length bytes)%nat).
  { rewrite Hb. cbn [app]. rewrite (length_app (frames_image _ _)). lia. }
  assert (Hok : Forall payload_ok (fs ++ complete k ps)).
  { apply Forall_app. auto using complete_ok. }
  replace (length bytes) with (length (fs ++ complete k ps) +
    (length bytes - length (fs ++ complete k ps)))%nat by lia.
  change 0%nat with (length (A := byte) []).
  rewrite (scan_frames _ s bytes [] (fs ++ complete k ps) tail [] Hok Hb).
  cbn [app]. destruct Hcase as [->|(p & j & Hp & Hj & ->)].
  - cbn [app] in Hb. rewrite app_nil_r in Hb. rewrite Hb. apply scan_end.
  - rewrite Hb at 2. cbn [app]. by apply scan_torn.
Qed.

(** Opening a log followed by a torn run of frames. *)
Lemma Log_open_cut rng l fs ps k :
  holds l fs -> Forall payload_ok ps ->
  Log_open rng (content l ++ take k (frames_image (salt l) ps)) =
  Ok (mkLog (log_image (salt l) (fs ++ complete k ps)) (salt l) true, fs ++ complete k ps).
Proof.
  destruct l as [c s d]. intros (Hc & Hs & Hfs) Hps. cbn [content salt] in *. subst c.
  unfold Log_open, rbind. rewrite prepare_image by done.
  destruct (header_image s fs (take k (frames_image s ps)) Hs) as (HH & _ & _ & ->).
  unfold scan.
  destruct (take_frames s ps k Hps) as (tail & Ht & _).
  set (bytes := frames_image s fs ++ take k (frames_image s ps)).
  assert (Hb : bytes = frames_image s (fs ++ complete k ps) ++ tail).
  { unfold bytes. by rewrite Ht, frames_image_app, app_assoc. }
  rewrite (scan_image s fs ps k Hfs Hps : scan_loop (length bytes) s bytes [] 0 = _).
  assert (Hlog : log_image s fs ++ take k (frames_image s ps) = log_image s (fs ++ complete k ps) ++ tail).
  { unfold log_image. rewrite Ht, frames_image_app. by rewrite <- !app_assoc. }
  rewrite Hb, length_app. destruct (Nat.ltb_spec (length (frames_image s (fs ++ complete k ps)))
    (length (frames_image s (fs ++ complete k ps)) + length tail)) as [Hlt|Hge].
  - rewrite bool_decide_eq_false_2 by done. rewrite Hlog. repeat f_equal.
    apply take_app_length'. rewrite <- (length_header s Hs). unfold log_image.
    cbn [frames_image map concat]. rewrite !length_app. cbn [length]. lia.
  - rewrite Hlog. destruct tail; [by rewrite app_nil_r|cbn in Hge; lia].
Qed.

Lemma complete_prefix k ps : complete k ps `prefix_of` ps.
Proof.
  revert k. induction ps as [|p ps IH]; intros k; cbn [complete]; [done|].
  case_step; [apply prefix_cons, IH|apply prefix_nil].
Qed.

(** A log that holds its records and nothing else opens as it is. *)
Lemma Log_open_image rng s fs :
  length s = SALT_LEN -> Forall payload_ok fs ->
  Log_open rng (log_image s fs) = Ok (mkLog (log_image s fs) s true, fs).
Proof.
  intros Hs Hfs.
  pose proof (Log_open_cut rng (mkLog (log_image s fs) s true) fs [] 0) as H.
  cbn [content salt complete] in H. rewrite take_0, !app_nil_r in H. by apply H.
Qed.

Lemma log_image_app s fs ps : log_image s (fs ++ ps) = log_image s fs ++ frames_image s ps.
Proof. unfold log_image. by rewrite frames_image_app, <- !app_assoc. Qed.

Lemma header_fits s fs : length s = SALT_LEN -> (HEADER_LEN <= length (log_image s fs))%nat.
Proof. intros Hs. pose proof (header_image s fs [] Hs) as [H _]. by rewrite app_nil_r in H. Qed.

(** ** Corruption in the middle *)

Lemma frame_sealed s p : sealed (s ++ frame s p).
Proof.
  unfold sealed. rewrite frame_shape. fold (frame_body p).
  set (c := to_le 4 _). assert (Hc : length c = 4%nat) by apply length_to_le.
  rewrite (app_assoc _ p c). fold (frame_body p). rewrite (app_assoc s).
  replace (length ((s ++ frame_body p) ++ c) - 4)%nat with (length (s ++ frame_body p))
    by (rewrite (length_app _ c); lia).
  rewrite take_app_length, drop_app_length. unfold c.
  by rewrite from_to_le by (apply (in_width_bytes 4), u32_crc_ref).
Qed.

Lemma burst_app_l pre bs bs' : burst bs bs' -> burst (pre ++ bs) (pre ++ bs').
Proof.
  intros (a & d & d' & b & -> & -> & H). exists (pre ++ a), d, d', b.
  by rewrite <- !app_assoc.
Qed.

(** A damaged frame whose length field is intact. *)
Definition damaged (s p bad : list byte) : Prop :=
  exists t, bad = to_le 8 (len p) ++ t /\ burst (p ++ to_le 4 (crc_ref (s ++ frame_body p))) t.

(** What a reader sees at a frame whose length field is intact. *)
Lemma framed_slices (pre p t rest bytes : list byte) :
  length t = (length p + 4)%nat -> bytes = pre ++ (to_le 8 (len p) ++ t) ++ rest ->
  let stop := (length pre + 8 + length p)%nat in
  (length bytes = length pre + 8 + length t + length rest)%nat /\
  slice bytes (length pre) (length pre + 8) = to_le 8 (len p) /\
  slice bytes (length pre) stop = to_le 8 (len p) ++ take (length p) t /\
  slice bytes stop (stop + 4) = drop (length p) t.
Proof.
  intros Ht -> stop. unfold stop. rewrite <- !app_assoc. split_and!.
  - rewrite !length_app, length_to_le. lia.
  - rewrite (slice_app_r pre _ _ _ (length pre)) by done.
    replace (length pre - length pre)%nat with 0%nat by lia.
    replace (length pre + 8 - length pre)%nat with 8%nat by lia.
    by apply slice_app_l, length_to_le.
  - unfold slice. rewrite drop_app_length, take_app, length_to_le.
    rewrite take_ge by (rewrite length_to_le; lia). f_equal.
    rewrite take_app_le by lia. f_equal. lia.
  - rewrite (slice_app_r pre _ _ _ (length pre)) by lia.
    rewrite (slice_app_r (to_le 8 (len p)) _ _ _ 8) by (rewrite ?length_to_le; done || lia).
    unfold slice. rewrite drop_app_le, take_app_le by (rewrite ?length_drop; lia).
    rewrite take_ge by (rewrite length_drop; lia). f_equal. lia.
Qed.

Lemma damaged_unsealed s p t :
  length t = (length p + 4)%nat -> damaged s p (to_le 8 (len p) ++ t) ->
  from_le (drop (length p) t) <> crc_ref (s ++ to_le 8 (len p) ++ take (length p) t).
Proof.
  intros Ht (t' & [_ <-]%app_inj_1 & Hb) He; [|done].
  apply (burst_breaks_seal (s ++ frame s p) (s ++ to_le 8 (len p) ++ t)).
  - rewrite length_app, length_frame. unfold frame_len, CHECKSUM_WIDTH. lia.
  - apply frame_sealed.
  - rewrite frame_shape. by do 2 apply burst_app_l.
  - unfold sealed.
    replace (length (s ++ to_le 8 (len p) ++ t) - 4)%nat
      with (length (s ++ to_le 8 (len p)) + length p)%nat by (rewrite !length_app, length_to_le; lia).
    rewrite (app_assoc s), take_app_add, drop_app_add, <- app_assoc. done.
Qed.

Lemma scan_damaged fuel s fs p bad q rest :
  payload_ok p -> payload_ok q -> damaged s p bad ->
  scan_loop (S fuel) s (frames_image s fs ++ bad ++ frame s q ++ rest) fs
    (length (frames_image s fs)) = (fs, length (frames_image s fs), Corrupt).
Proof.
  intros Hp Hq Hd. pose proof Hd as (t & -> & Hb). set (pre := frames_image s fs).
  assert (Ht : length t = (length p + 4)%nat).
  { apply burst_length in Hb. rewrite length_app, length_to_le in Hb. lia. }
  set (bytes := pre ++ (to_le 8 (len p) ++ t) ++ frame s q ++ rest).
  destruct (framed_slices pre p t (frame s q ++ rest) bytes Ht eq_refl) as (Hl & H1 & H2 & H3).
  set (stop := (length pre + 8 + length p)%nat) in *.
  assert (Hv : valid_frame_at s bytes (stop + 4) = true).
  { replace (stop + 4)%nat with (length (pre ++ to_le 8 (len p) ++ t))
      by (unfold stop; rewrite !length_app, length_to_le; lia).
    unfold bytes. rewrite (app_assoc pre). by apply valid_frame_here. }
  cbn [scan_loop]. unfold LEN_WIDTH, CHECKSUM_WIDTH.
  rewrite H1, (from_le_len p Hp), len_to_nat. fold stop. rewrite H2, H3, Hv.
  rewrite checksum_parts_ref. cbn [concat]. rewrite app_nil_r.
  rewrite (proj2 (Z.eqb_neq _ _) (damaged_unsealed s p t Ht Hd)). cbn [negb].
  unfold len in *. do 3 (case_step; [bool_to_prop; lia|]). done.
Qed.

(** ** The two readers agree *)

(** The visitor of an index: keep every payload with the offset it was found at. *)
Definition index_visit (s : list (list byte * nat)) (payload : list byte) (start end_ : nat)
  : bool * list (list byte * nat) := (true, s ++ [(payload, start)]).

(** The entries of an index lie in the file where they say, within the first [n] bytes. *)
Definition indexed (file : list byte) (n : nat) (entries : list (list byte * nat)) : Prop :=
  Forall (fun e => (e.2 + length e.1 <= n)%nat /\ slice file e.2 (e.2 + length e.1) = e.1) entries.

Lemma indexed_mono file n m es : (n <= m)%nat -> indexed file n es -> indexed file m es.
Proof. intros Hn H. eapply Forall_impl; [exact H|]. intros e [? ?]. split; [lia|done]. Qed.

Lemma slice_drop (bs : list byte) k n m : slice (drop k bs) n m = slice bs (k + n) (k + m).
Proof. unfold slice. rewrite drop_drop. f_equal. lia. Qed.

Lemma slice_take (bs : list byte) k n m : (m <= k)%nat -> slice (take k bs) n m = slice bs n m.
Proof.
  intros Hm. unfold slice. destruct (Nat.le_gt_cases m n).
  - by replace (m - n)%nat with 0%nat by lia.
  - rewrite !take_drop_commute, take_take. do 2 f_equal. lia.
Qed.

Lemma visit_scan strict fuel s file k fs pos fs' clean stop es :
  scan_loop fuel s (drop k file) fs pos = (fs', clean, stop) ->
  (k + pos <= length file)%nat -> map fst es = fs -> indexed file (k + pos) es ->
  exists es', visit_loop index_visit false strict fuel s file (length file) (k + pos) es =
    Ok ((k + clean)%nat, es') /\ map fst es' = fs' /\ indexed file (k + clean) es'.
Proof.
  revert fs pos es. induction fuel as [|fuel IH]; intros fs pos es H Hpos Hm Hi;
    cbn [scan_loop visit_loop] in *.
  { simplify_eq. by eexists. }
  rewrite length_drop, !slice_drop, !Nat.add_assoc in H.
  replace (length file - k - pos)%nat with (length file - (k + pos))%nat in H by lia.
  replace (length file - k - (pos + LEN_WIDTH))%nat
    with (length file - (k + pos + LEN_WIDTH))%nat in H by lia.
  case_in H; [simplify_eq; by eexists|]. unfold unreadable.
  case_in H; [simplify_eq; by eexists|]. case_in H; [simplify_eq; by eexists|]. cbn [orb].
  rewrite checksum_parts_ref in H |- *. cbn [concat] in H |- *. rewrite !app_nil_r in H |- *.
  rewrite <- slice_split by (unfold LEN_WIDTH; lia).
  case_in H; [simplify_eq; by eexists|]. bool_to_prop. cbn [index_visit negb].
  pose proof (from_le_range (slice file (k + pos) (k + pos + LEN_WIDTH))).
  destruct (frame_accepted s file (k + pos)) as (_ & _ & Hlp);
    [unfold LEN_WIDTH, CHECKSUM_WIDTH in *; lia|done|].
  set (n := Z.to_nat _) in *. set (p := slice file (k + pos + LEN_WIDTH) _) in *.
  replace (k + pos + LEN_WIDTH + n + CHECKSUM_WIDTH)%nat
    with (k + (pos + LEN_WIDTH + n + CHECKSUM_WIDTH))%nat by lia.
  eapply (IH _ _ (es ++ [(p, (k + pos + LEN_WIDTH)%nat)])) in H; [exact H| | |].
  - unfold LEN_WIDTH, CHECKSUM_WIDTH in *. lia.
  - rewrite map_app. cbn. by rewrite Hm.
  - apply Forall_app. split; [by eapply indexed_mono; [|exact Hi]; lia|].
    constructor; [|done]. cbn. rewrite Hlp. split; [lia|done].
Qed.

(** ** Claims *)

(** The records that reach the file when an append runs into [fault]. *)
Definition landed (fault : option (nat * bool)) (ps : list (list byte)) : list (list byte) :=
  match fault with
  | None => ps
  | Some (_, true) => []
  | Some (n, false) => complete n ps
  end.

(** What was appended is what is read back.  Take any file that opens, with the
    records [fs], and append [ps] to it.  Reopening after a successful append
    returns [fs ++ ps]; after an append that failed and was rolled back, [fs];
    after one that stopped after [n] bytes, [fs] and exactly the records of
    [ps] whose frames were complete, a prefix of [ps].  Opening never fails on
    such a file, cuts it back to the frames it returned, and opening once more
    changes nothing. *)
Theorem reopen_after_append rng rng' file l fs ps fault :
  length rng = SALT_LEN -> Log_open rng file = Ok (l, fs) -> Forall payload_ok ps ->
  let '(r, l') := append_all fault l ps in
  let fs' := fs ++ landed fault ps in
  let l'' := mkLog (log_image (salt l) fs') (salt l) true in
  (is_ok r = true -> landed fault ps = ps) /\ landed fault ps `prefix_of` ps /\
  Log_open rng' (content l') = Ok (l'', fs') /\ Log_open rng' (content l'') = Ok (l'', fs').
Proof.
  intros Hr Ho Hps. pose proof (Log_open_holds _ _ _ _ Hr Ho) as Hh.
  pose proof Hh as (Hc & Hs & Hfs).
  assert (Hland : Forall payload_ok (fs ++ landed fault ps)).
  { apply Forall_app. destruct fault as [[n []]|]; cbn; auto using complete_ok. }
  pose proof (Log_open_image rng' (salt l) _ Hs Hland) as Hagain.
  assert (H0 : landed fault ps = [] -> Log_open rng' (content l) =
    Ok (mkLog (log_image (salt l) (fs ++ landed fault ps)) (salt l) true, fs ++ landed fault ps)).
  { intros ->. rewrite Hc, app_nil_r. by apply Log_open_image. }
  unfold append_all. destruct ps as [|p ps].
  { destruct fault as [[n []]|]; cbn [landed complete is_ok] in *; split_and!; auto. }
  fold (frames_image (salt l) (p :: ps)). destruct fault as [[n []]|]; cbn [landed is_ok] in *.
  - split_and!; [done|apply prefix_nil| |done]. unfold log_truncate. cbn [content].
    rewrite Nat.max_l by (rewrite Hc; by apply header_fits). rewrite take_app_length. by apply H0.
  - split_and!; [done|apply complete_prefix|by apply Log_open_cut|done].
  - split_and!; [done|done| |done]. cbn [content].
    rewrite Hc, <- log_image_app. done.
Qed.

Lemma reopen_after_append_witness :
  let s := replicate 16 x5a in
  let l := mkLog (log_image s [[x01]]) s true in
  let '(r, l') := append_all (Some (20%nat, false)) l [[x02; x03]; [x04]] in
  is_ok r = false /\
  Log_open [] (content l') =
    Ok (mkLog (log_image s [[x01]; [x02; x03]]) s true, [[x01]; [x02; x03]]).
Proof.
  split; [reflexivity|].
  apply (reopen_after_append (replicate 16 x00) [] (log_image (replicate 16 x5a) [[x01]])
    (mkLog (log_image (replicate 16 x5a) [[x01]]) (replicate 16 x5a) true) [[x01]]
    [[x02; x03]; [x04]] (Some (20%nat, false))).
  - reflexivity.
  - vm_compute. reflexivity.
  - repeat constructor; vm_compute; congruence.
Defined.

(** A log damaged in the middle is refused, not rolled back.  If at most four
    consecutive bytes of a record's payload or checksum were changed and an
    intact record follows, [Log::open] fails, whatever comes after; it never
    returns the records before the damage as if the log ended there. *)
Theorem damage_in_the_middle_refused rng s fs p bad q rest :
  length s = SALT_LEN -> Forall payload_ok fs -> payload_ok p -> payload_ok q -> damaged s p bad ->
  Log_open rng (log_image s fs ++ bad ++ frame s q ++ rest) = Err CorruptMiddle.
Proof.
  intros Hs Hfs Hp Hq Hd. unfold Log_open, rbind. rewrite prepare_image by done.
  destruct (header_image s fs (bad ++ frame s q ++ rest) Hs) as (_ & _ & _ & ->).
  unfold scan. set (bytes := frames_image s fs ++ _).
  pose proof (length_frames_image s fs).
  assert (Hn : (length fs < length bytes)%nat).
  { unfold bytes. rewrite !length_app, length_frame. unfold frame_len, CHECKSUM_WIDTH. lia. }
  assert (Hscan : scan_loop (length bytes) s bytes [] 0 = (fs, length (frames_image s fs), Corrupt)).
  { replace (length bytes) with (length fs + S (length bytes - length fs - 1))%nat by lia.
    change 0%nat with (length (A := byte) []).
    rewrite (scan_frames _ s bytes [] fs (bad ++ frame s q ++ rest) []) by done.
    apply (scan_damaged _ s fs p bad q rest); done. }
  rewrite Hscan. case_step; [by rewrite bool_decide_eq_true_2|]. bool_to_prop.
  unfold bytes in Eb. rewrite !length_app, length_frame in Eb.
  unfold frame_len, CHECKSUM_WIDTH in Eb. lia.
Qed.

Lemma damage_in_the_middle_refused_witness :
  let s := replicate 16 x5a in
  let bad := to_le 8 2 ++ [xff; x02] ++ to_le 4 (crc_ref (s ++ frame_body [x01; x02])) in
  Log_open [] (log_image s [[x09]] ++ bad ++ frame s [x03] ++ [x00]) = Err CorruptMiddle.
Proof.
  apply (damage_in_the_middle_refused [] (replicate 16 x5a) [[x09]] [x01; x02]).
  - reflexivity.
  - repeat constructor; vm_compute; congruence.
  - vm_compute; split; congruence.
  - vm_compute; split; congruence.
  - eexists. split; [reflexivity|]. exists [], [x01], [xff], ([x02] ++ to_le 4
      (crc_ref (replicate 16 x5a ++ frame_body [x01; x02]))).
    split_and!; [reflexivity..|cbn; lia|discriminate].
Defined.

(** The reader that hands frames to a visitor ([Log::open_scanned] and the other
    lenient openings, which the stores use to build their indexes) agrees with
    [Log::open] on every file: whenever [open] succeeds, [open_scanned] visits
    exactly the records [open] returns, in order, and leaves the same log; and
    every offset it reports reads its record back through [read_payload]. *)
Theorem open_scanned_agrees rng file l fs :
  length rng = SALT_LEN -> Log_open rng file = Ok (l, fs) ->
  exists entries, open_scanned index_visit rng file [] = Ok (l, entries) /\
    map fst entries = fs /\
    Forall (fun e => read_payload l e.2 (length e.1) = Ok e.1) entries.
Proof.
  intros Hr H. unfold Log_open, rbind in H. unfold open_scanned, scan_open_parts, rbind.
  destruct (prepare_header rng file) as [[s file']|] eqn:Ep; [|done].
  apply prepare_shape in Ep as [Hs Hf]; [|done].
  assert (Hlen : (HEADER_LEN <= length file')%nat).
  { rewrite Hf, length_app, (length_header s Hs). lia. }
  unfold scan in H. rewrite length_drop in H.
  destruct (scan_loop _ s _ [] 0) as [[fs' clean] stop] eqn:Esc.
  pose proof (scan_sound _ _ _ _ _ _ _ _ Esc ltac:(lia) eq_refl ltac:(done)) as (Hc & _).
  rewrite length_drop in Hc.
  destruct (visit_scan false _ s file' HEADER_LEN [] 0 fs' clean stop [] Esc)
    as (es & Hv & Hm & Hi); [lia|done|by constructor|].
  rewrite Nat.add_0_r in Hv. rewrite Hv. cbn [andb].
  assert (Hgoal : forall c, (HEADER_LEN + clean <= length c)%nat ->
    (forall n m, (m <= HEADER_LEN + clean)%nat -> slice c n m = slice file' n m) ->
    Forall (fun e => read_payload (mkLog c s true) e.2 (length e.1) = Ok e.1) es).
  { intros c Hl Hsl. eapply Forall_impl; [exact Hi|]. intros e [He1 He2].
    unfold read_payload. cbn [content]. rewrite Hsl, He2 by done.
    by rewrite (proj2 (Nat.leb_le _ _)) by lia. }
  destruct (Nat.ltb_spec clean (length file' - HEADER_LEN)) as [Hlt|Hge].
  - case_in H; [done|]. rewrite (proj2 (Nat.ltb_lt _ _)) by lia. simplify_eq.
    eexists. split_and!; [done|done|]. apply Hgoal.
    + rewrite length_take. lia.
    + intros n m Hnm. by apply slice_take.
  - rewrite (proj2 (Nat.ltb_ge _ _)) by lia. simplify_eq.
    eexists. split_and!; [done|done|]. apply Hgoal; [lia|done].
Qed.

Lemma open_scanned_agrees_witness :
  let s := replicate 16 x5a in
  let file := log_image s [[x01]; [x02; x03]] ++ [xff; xff] in
  exists entries, open_scanned index_visit (replicate 16 x00) file [] =
      Ok (mkLog (log_image s [[x01]; [x02; x03]]) s true, entries) /\
    map fst entries = [[x01]; [x02; x03]] /\
    Forall (fun e => read_payload (mkLog (log_image s [[x01]; [x02; x03]]) s true)
      e.2 (length e.1) = Ok e.1) entries.
Proof.
  apply (open_scanned_agrees (replicate 16 x00)
    (log_image (replicate 16 x5a) [[x01]; [x02; x03]] ++ [xff; xff])).
  - reflexivity.
  - vm_compute. reflexivity.
Defined.
