(* ===== verification/Idfmt.v ===== *)
(** * Identifier text (crates/qtv-idfmt)

    The Bech32m rendering of addresses, secrets and digests: the checksum
    polynomial, the regrouping of bytes into five-bit groups and back, and the
    parser with its error order.  A [str] is its bytes. *)

From S2P Require Import Prelude.

Definition HRP_ADDRESS : list byte := [x51].
Definition HRP_SECRET : list byte := [x51; x32].
Definition HRP_TX : list byte := [x51; x54; x58].
Definition HRP_BLOCK : list byte := [x51; x42; x4b].
Definition HRP_STATE : list byte := [x51; x53; x54].
Definition HRP_CID : list byte := [x51; x43; x49; x44].
Definition HRP_PROOF : list byte := [x51; x50; x46].

Definition KEY_FLOOR : nat := 32.
Definition DIGEST_LEN : nat := 32.
Definition MAX_ENCODED : nat := 128.

(** "qpzry9x8gf2tvdw0s3jn54khce6mua7l" *)
Definition CHARSET : list byte :=
  [x71; x70; x7a; x72; x79; x39; x78; x38; x67; x66; x32; x74; x76; x64; x77; x30;
   x73; x33; x6a; x6e; x35; x34; x6b; x68; x63; x65; x36; x6d; x75; x61; x37; x6c].
Definition BECH32M_CONST : Z := 734539939.
Definition GENERATOR : list Z := [996825010; 642813549; 513874426; 1027748829; 705979059].

Inductive IdError : Type :=
| TooShort (min got : nat)
| BadLength (expected got : nat)
| WrongPrefix
| BadChecksum
| BadChar
| MixedCase
| NoSeparator
| BadData.

(** ** ASCII *)

Definition is_ascii_lowercase (b : byte) : bool := (97 <=? byte_val b) && (byte_val b <=? 122).
Definition is_ascii_uppercase (b : byte) : bool := (65 <=? byte_val b) && (byte_val b <=? 90).
Definition ascii_lower (b : byte) : byte :=
  if is_ascii_uppercase b then byte_of (byte_val b + 32) else b.
Definition ascii_upper (b : byte) : byte :=
  if is_ascii_lowercase b then byte_of (byte_val b - 32) else b.
Definition to_ascii_lowercase (s : list byte) : list byte := map ascii_lower s.
Definition to_ascii_uppercase (s : list byte) : list byte := map ascii_upper s.
Definition eq_ignore_ascii_case (a b : list byte) : bool :=
  bool_decide (to_ascii_lowercase a = to_ascii_lowercase b).

(** [str::rfind] of one byte. *)
Fixpoint rfind (c : byte) (s : list byte) : option nat :=
  match s with
  | [] => None
  | b :: s => match rfind c s with
      | Some i => Some (S i)
      | None => if bool_decide (b = c) then Some 0%nat else None
      end
  end.

(** ** The alphabet *)

(** The position of [b] in the list, from [i] on. *)
Fixpoint index_from (i : Z) (cs : list byte) (b : byte) : option Z :=
  match cs with
  | [] => None
  | c :: cs => if bool_decide (c = b) then Some i else index_from (i + 1) cs b
  end.

(** [CHARSET_INDEX.get(b)] filtered to the entries that were filled in. *)
Definition charset_index (b : byte) : option Z := index_from 0 CHARSET b.

Definition charset_at (group : Z) : byte := nth (Z.to_nat group) CHARSET x00.

(** ** The checksum *)

Fixpoint generator_loop (gens : list Z) (bit : Z) (top next : Z) : Z :=
  match gens with
  | [] => next
  | g :: gens =>
      generator_loop gens (bit + 1) top
        (Z.lxor next (Z.land g (wrap 32 (0 - Z.land (Z.shiftr top bit) 1))))
  end.

Definition polymod_step (chk value : Z) : Z :=
  let top := Z.shiftr chk 25 in
  generator_loop GENERATOR 0 top (Z.lxor (Z.shiftl (Z.land chk 33554431) 5) value).

Definition hrp_polymod (hrp : list byte) : Z :=
  let chk := foldl (fun chk b => polymod_step chk (Z.shiftr (byte_val (ascii_lower b)) 5)) 1 hrp in
  let chk := polymod_step chk 0 in
  foldl (fun chk b => polymod_step chk (Z.land (byte_val (ascii_lower b)) 31)) chk hrp.

(** ** Regrouping bits *)

(** [while bits >= to]: at most [from + to - 1] bits are pending, so [fuel = bits]
    is enough. *)
Fixpoint drain (fuel : nat) (to acc bits : Z) (out : list Z) : Z * list Z :=
  match fuel with
  | O => (bits, out)
  | S fuel =>
      if to <=? bits then
        let bits := bits - to in
        drain fuel to acc bits (out ++ [Z.land (Z.shiftr acc bits) (2 ^ to - 1)])
      else (bits, out)
  end.

Fixpoint convert_loop (data : list Z) (from to acc bits : Z) (out : list Z)
  : option (Z * Z * list Z) :=
  match data with
  | [] => Some (acc, bits, out)
  | value :: data =>
      if negb (Z.shiftr value from =? 0) then None
      else
        let acc := Z.land (Z.lor (Z.shiftl acc from) value) (2 ^ (from + to - 1) - 1) in
        let bits := bits + from in
        let '(bits, out) := drain (Z.to_nat bits) to acc bits out in
        convert_loop data from to acc bits out
  end.

Definition convert_bits (data : list Z) (from to : Z) (pad : bool) : option (list Z) :=
  match convert_loop data from to 0 0 [] with
  | None => None
  | Some (acc, bits, out) =>
      let last := Z.land (Z.shiftl acc (to - bits)) (2 ^ to - 1) in
      if pad then Some (if 0 <? bits then out ++ [last] else out)
      else if (from <=? bits) || negb (last =? 0) then None
      else Some out
  end.

(** ** Rendering *)

Definition checksum_groups (residue : Z) : list Z :=
  map (fun slot => Z.land (Z.shiftr residue (5 * (5 - slot))) 31) [0; 1; 2; 3; 4; 5].

Definition bech_encode (hrp : list byte) (data : list Z) : list byte :=
  let chk := foldl polymod_step (hrp_polymod hrp) data in
  let chk := foldl polymod_step chk [0; 0; 0; 0; 0; 0] in
  let residue := Z.lxor chk BECH32M_CONST in
  hrp ++ [x31] ++ map charset_at data ++ map charset_at (checksum_groups residue).

Definition render (hrp payload : list byte) : outcome (list byte) :=
  match convert_bits (map byte_val payload) 8 5 true with
  | None => Panic
  | Some groups => Done (to_ascii_uppercase (bech_encode hrp groups))
  end.

(** ** Parsing *)

Definition bech_decode (text : list byte) : Result IdError (list byte * list byte) :=
  if (MAX_ENCODED <? length text)%nat then Err (BadLength MAX_ENCODED (length text))
  else if existsb is_ascii_lowercase text && existsb is_ascii_uppercase text then Err MixedCase
  else
    let lowered := to_ascii_lowercase text in
    match rfind x31 lowered with
    | None => Err NoSeparator
    | Some separator =>
        if (separator <? 1)%nat || (length lowered <? separator + 7)%nat then Err NoSeparator
        else
          let hrp := take separator lowered in
          if negb (forallb (fun b => (33 <=? byte_val b) && (byte_val b <=? 126)) hrp)
          then Err BadChar
          else
            let body := drop (separator + 1) lowered in
            match mapM charset_index body with
            | None => Err BadChar
            | Some groups =>
                let chk := foldl polymod_step (hrp_polymod hrp) groups in
                if negb (chk =? BECH32M_CONST) then Err BadChecksum
                else
                  let payload_groups := take (length groups - 6) groups in
                  match convert_bits payload_groups 5 8 false with
                  | None => Err BadData
                  | Some payload => Ok (hrp, map byte_of payload)
                  end
            end
    end.

Definition parse (expected text : list byte) : Result IdError (list byte) :=
  let? decoded := bech_decode text in
  let '(hrp, payload) := decoded in
  if negb (eq_ignore_ascii_case hrp expected) then Err WrongPrefix else Ok payload.

Definition check_floor (len : nat) : Result IdError unit :=
  if (len <? KEY_FLOOR)%nat then Err (TooShort KEY_FLOOR len) else Ok tt.

Definition check_digest (len : nat) : Result IdError unit :=
  if negb (len =? DIGEST_LEN)%nat then Err (BadLength DIGEST_LEN len) else Ok tt.

(** The two macro families; rendering returns an [outcome] for its [expect]. *)
Definition key_render (hrp bytes : list byte) : outcome (Result IdError (list byte)) :=
  match check_floor (length bytes) with
  | Err e => Done (Err e)
  | Ok _ => obind (render hrp bytes) (fun t => Done (Ok t))
  end.

Definition key_parse (hrp text : list byte) : Result IdError (list byte) :=
  let? bytes := parse hrp text in
  let? _ := check_floor (length bytes) in
  Ok bytes.

Definition digest_render (hrp bytes : list byte) : outcome (Result IdError (list byte)) :=
  match check_digest (length bytes) with
  | Err e => Done (Err e)
  | Ok _ => obind (render hrp bytes) (fun t => Done (Ok t))
  end.

Definition digest_parse (hrp text : list byte) : Result IdError (list byte) :=
  let? bytes := parse hrp text in
  let? _ := check_digest (length bytes) in
  Ok bytes.

Definition render_address := digest_render HRP_ADDRESS.
Definition parse_address := digest_parse HRP_ADDRESS.
Definition render_secret := key_render HRP_SECRET.
Definition parse_secret := key_parse HRP_SECRET.
Definition render_tx := digest_render HRP_TX.
Definition parse_tx := digest_parse HRP_TX.
Definition render_block := digest_render HRP_BLOCK.
Definition parse_block := digest_parse HRP_BLOCK.
Definition render_state := digest_render HRP_STATE.
Definition parse_state := digest_parse HRP_STATE.
Definition render_cid := digest_render HRP_CID.
Definition parse_cid := digest_parse HRP_CID.
Definition render_proof := digest_render HRP_PROOF.
Definition parse_proof := digest_parse HRP_PROOF.

(** ** Regrouping as bit strings *)

Definition groups_bits (w : nat) (gs : list Z) : list bool := concat (map (bits_of w) gs).

Lemma groups_bits_app w gs hs : groups_bits w (gs ++ hs) = groups_bits w gs ++ groups_bits w hs.
Proof. unfold groups_bits. by rewrite map_app, concat_app. Qed.

Lemma length_groups_bits w gs : length (groups_bits w gs) = (w * length gs)%nat.
Proof.
  unfold groups_bits. induction gs as [|g gs IH]; cbn [map concat length]; [lia|].
  rewrite length_app, length_bits_of, IH. lia.
Qed.

(** A bit string splits into groups in one way. *)
Lemma groups_bits_inj w gs hs r r' :
  Forall (in_width (Z.of_nat w)) gs -> Forall (in_width (Z.of_nat w)) hs ->
  length gs = length hs -> groups_bits w gs ++ r = groups_bits w hs ++ r' -> gs = hs /\ r = r'.
Proof.
  intros Hg. revert hs. induction Hg as [|g gs Hg Hgs IH]; intros [|h hs] Hh Hl H; try done.
  apply Forall_cons in Hh as [Hh Hhs]. unfold groups_bits in *. cbn [map concat] in H.
  rewrite <- !app_assoc in H. apply app_inj_1 in H as [H1 H2]; [|by rewrite !length_bits_of].
  apply bits_of_inj in H1 as ->; [|done..]. injection Hl as Hl.
  destruct (IH hs Hhs Hl H2) as [-> ->]. done.
Qed.

Lemma mask_bits n v : 0 <= n -> bits_of (Z.to_nat n) (Z.land v (2 ^ n - 1)) = bits_of (Z.to_nat n) v.
Proof.
  intros Hn. apply bits_of_ext. intros i Hi. rewrite Z.sub_1_r, <- Z.ones_equiv.
  rewrite Z.land_spec, Z.ones_spec_low by lia. apply andb_true_r.
Qed.

Lemma mask_width n v : 0 <= n -> in_width n (Z.land v (2 ^ n - 1)).
Proof.
  intros Hn. rewrite Z.sub_1_r, <- Z.ones_equiv, Z.land_ones by done.
  apply Z.mod_pos_bound. by apply Z.pow_pos_nonneg.
Qed.

Section Convert.
Variables from to : Z.
Hypothesis Hfrom : 0 < from.
Hypothesis Hto : 0 < to.

Lemma drain_spec fuel acc bits out :
  0 <= bits -> (Z.to_nat bits <= fuel)%nat ->
  exists bits' gs, drain fuel to acc bits out = (bits', out ++ gs) /\ 0 <= bits' < to /\
    Forall (in_width to) gs /\
    bits_of (Z.to_nat bits) acc = groups_bits (Z.to_nat to) gs ++ bits_of (Z.to_nat bits') acc.
Proof.
  revert bits out. induction fuel as [|fuel IH]; intros bits out Hb Hf; cbn [drain].
  - exists bits, []. rewrite app_nil_r. split_and!; [done|lia|lia|done|done].
  - destruct (Z.leb_spec to bits) as [Hle|Hgt].
    + destruct (IH (bits - to) (out ++ [Z.land (Z.shiftr acc (bits - to)) (2 ^ to - 1)]))
        as (bits' & gs & -> & Hb' & Hgs & Heq); [lia|lia|].
      exists bits', (Z.land (Z.shiftr acc (bits - to)) (2 ^ to - 1) :: gs).
      rewrite <- app_assoc. split_and!; [done|lia|lia| |].
      * constructor; [|done]. apply mask_width. lia.
      * replace (Z.to_nat bits) with (Z.to_nat to + Z.to_nat (bits - to))%nat by lia.
        rewrite bits_of_app, Heq, Z2Nat.id by lia. unfold groups_bits. cbn [map concat].
        by rewrite mask_bits, <- app_assoc by lia.
    + exists bits, []. rewrite app_nil_r. split_and!; [done|lia|lia|done|done].
Qed.

(** Shifting a group in appends its bits to the pending ones. *)
Lemma shift_in acc bits value :
  0 <= bits < to -> in_width from value ->
  bits_of (Z.to_nat (bits + from))
    (Z.land (Z.lor (Z.shiftl acc from) value) (2 ^ (from + to - 1) - 1)) =
  bits_of (Z.to_nat bits) acc ++ bits_of (Z.to_nat from) value.
Proof.
  intros Hb Hv.
  assert (Hm : bits_of (Z.to_nat (bits + from))
      (Z.land (Z.lor (Z.shiftl acc from) value) (2 ^ (from + to - 1) - 1)) =
    bits_of (Z.to_nat (bits + from)) (Z.lor (Z.shiftl acc from) value)).
  { apply bits_of_ext. intros i Hi. rewrite Z.sub_1_r, <- Z.ones_equiv.
    rewrite Z.land_spec, Z.ones_spec_low by lia. apply andb_true_r. }
  rewrite Hm. replace (Z.to_nat (bits + from)) with (Z.to_nat bits + Z.to_nat from)%nat by lia.
  rewrite bits_of_app. f_equal; apply bits_of_ext; intros i Hi.
  - rewrite Z.shiftr_spec, Z.lor_spec, Z.shiftl_spec by lia.
    assert (Ht : Z.testbit value (i + Z.of_nat (Z.to_nat from)) = false).
    { destruct Hv as [? ?]. apply Z.testbit_false; [lia|]. rewrite Z.div_small; [done|].
      split; [lia|]. apply Z.lt_le_trans with (2 ^ from); [lia|]. apply Z.pow_le_mono_r; lia. }
    rewrite Ht, orb_false_r. f_equal. lia.
  - rewrite Z.lor_spec, Z.shiftl_spec_low by lia. done.
Qed.

Lemma convert_loop_spec data acc bits out :
  Forall (in_width from) data -> 0 <= bits < to ->
  exists acc' bits' gs, convert_loop data from to acc bits out = Some (acc', bits', out ++ gs) /\
    0 <= bits' < to /\ Forall (in_width to) gs /\
    bits_of (Z.to_nat bits) acc ++ groups_bits (Z.to_nat from) data =
      groups_bits (Z.to_nat to) gs ++ bits_of (Z.to_nat bits') acc'.
Proof.
  intros Hd. revert acc bits out. induction Hd as [|v data Hv Hd IH]; intros acc bits out Hb.
  - exists acc, bits, []. rewrite !app_nil_r. cbn. split_and!; [done|lia|lia|done|done].
  - cbn [convert_loop].
    assert (Hs : Z.shiftr v from = 0) by (apply in_width_shiftr; unfold in_width in Hv; lia || done).
    rewrite Hs. cbn [Z.eqb negb]. set (acc1 := Z.land _ _).
    destruct (drain_spec (Z.to_nat (bits + from)) acc1 (bits + from) out)
      as (b1 & g1 & -> & Hb1 & Hg1 & He1); [lia|done|].
    destruct (IH acc1 b1 (out ++ g1) Hb1) as (acc' & bits' & gs & -> & Hb' & Hgs & Heq).
    exists acc', bits', (g1 ++ gs). rewrite <- app_assoc.
    split_and!; [done|lia|lia|by apply Forall_app|].
    unfold groups_bits at 1. cbn [map concat]. fold (groups_bits (Z.to_nat from) data).
    rewrite app_assoc. rewrite <- (shift_in acc bits v Hb Hv). fold acc1.
    rewrite He1, groups_bits_app, <- !app_assoc. f_equal. done.
Qed.

(** The last group holds the pending bits and zeros after them. *)
Lemma last_group acc bits :
  0 <= bits < to ->
  let last := Z.land (Z.shiftl acc (to - bits)) (2 ^ to - 1) in
  in_width to last /\
  bits_of (Z.to_nat to) last = bits_of (Z.to_nat bits) acc ++ replicate (Z.to_nat (to - bits)) false.
Proof.
  intros Hb. cbn zeta. split; [apply mask_width; lia|]. rewrite mask_bits by lia.
  replace (Z.to_nat to) with (Z.to_nat bits + Z.to_nat (to - bits))%nat at 1 by lia.
  rewrite bits_of_app, <- bits_of_0. f_equal; apply bits_of_ext; intros i Hi.
  - rewrite Z.shiftr_spec, Z.shiftl_spec by lia. f_equal. lia.
  - rewrite Z.shiftl_spec_low, Z.testbit_0_l by lia. done.
Qed.
End Convert.

(** Groups of five that hold the payload's bits, zero padded. *)
Definition regrouped (payload : list Z) (groups : list Z) : Prop :=
  Forall (in_width 5) groups /\
  exists k, (k < 5)%nat /\ groups_bits 5 groups = groups_bits 8 payload ++ replicate k false.

Lemma regrouped_fun payload g1 g2 : regrouped payload g1 -> regrouped payload g2 -> g1 = g2.
Proof.
  intros (Hr1 & k1 & Hk1 & H1) (Hr2 & k2 & Hk2 & H2).
  assert (k1 = k2 /\ length g1 = length g2) as [-> Hl].
  { apply (f_equal length) in H1, H2.
    rewrite length_app, !length_groups_bits, length_replicate in H1, H2. lia. }
  destruct (groups_bits_inj 5 g1 g2 [] []) as [? _]; [done|done|done| |done].
  by rewrite !app_nil_r, H1, H2.
Qed.

Lemma convert_8_5 payload :
  Forall (in_width 8) payload ->
  exists groups, convert_bits payload 8 5 true = Some groups /\ regrouped payload groups.
Proof.
  intros Hp. unfold convert_bits.
  destruct (convert_loop_spec 8 5 ltac:(lia) ltac:(lia) payload 0 0 [] Hp ltac:(lia))
    as (acc & bits & gs & -> & Hb & Hgs & Heq).
  change (Z.to_nat 0) with 0%nat in Heq. cbn [app bits_of] in Heq. change (Z.to_nat 5) with 5%nat in Heq.
  change (Z.to_nat 8) with 8%nat in Heq.
  destruct (Z.ltb_spec 0 bits) as [Hpos|Hzero].
  - destruct (last_group 5 ltac:(lia) acc bits Hb) as [Hw Hl]. set (last := Z.land _ _) in *.
    exists (gs ++ [last]). split; [done|]. split; [by apply Forall_app; auto|].
    exists (Z.to_nat (5 - bits)). split; [lia|]. rewrite groups_bits_app.
    unfold groups_bits at 2. cbn [map concat]. rewrite app_nil_r.
    change (Z.to_nat 5) with 5%nat in Hl. by rewrite Hl, app_assoc, <- Heq.
  - exists gs. split; [done|]. split; [done|]. exists 0%nat. split; [lia|].
    replace bits with 0 in Heq by lia. cbn in Heq. rewrite app_nil_r in *. done.
Qed.

Lemma last_group_zero acc bits :
  0 <= bits < 8 ->
  Z.land (Z.shiftl acc (8 - bits)) (2 ^ 8 - 1) = 0 <->
  bits_of (Z.to_nat bits) acc = replicate (Z.to_nat bits) false.
Proof.
  intros Hb. destruct (last_group 8 ltac:(lia) acc bits Hb) as [Hw Hl].
  set (last := Z.land _ _) in *. change (Z.to_nat 8) with 8%nat in Hl.
  assert (Hz : bits_of 8 0 = replicate (Z.to_nat bits) false ++ replicate (Z.to_nat (8 - bits)) false).
  { rewrite bits_of_0, <- replicate_add. f_equal. lia. }
  split.
  - intros Heq. rewrite Heq, Hz in Hl. apply app_inj_1 in Hl as [Hl _]; [done|].
    by rewrite length_replicate, length_bits_of.
  - intros Heq. apply (bits_of_inj 8); [exact Hw|unfold in_width; lia|]. by rewrite Hl, Hz, Heq.
Qed.

Lemma convert_5_8 groups payload :
  Forall (in_width 5) groups ->
  convert_bits groups 5 8 false = Some payload <->
  Forall (in_width 8) payload /\ regrouped payload groups.
Proof.
  intros Hg. unfold convert_bits.
  destruct (convert_loop_spec 5 8 ltac:(lia) ltac:(lia) groups 0 0 [] Hg ltac:(lia))
    as (acc & bits & out & -> & Hb & Ho & Heq).
  change (Z.to_nat 0) with 0%nat in Heq. cbn [app bits_of] in Heq. change (Z.to_nat 5) with 5%nat in Heq.
  change (Z.to_nat 8) with 8%nat in Heq. pose proof (last_group_zero acc bits Hb) as Hz.
  cbn [app]. split.
  - intros H. case_in H; [done|]. simplify_eq. bool_to_prop.
    split; [done|]. split; [done|]. exists (Z.to_nat bits). split; [lia|].
    rewrite Heq. f_equal. by apply Hz.
  - intros (Hp & _ & k & Hk & Hk').
    assert (k = Z.to_nat bits /\ length out = length payload) as [-> Hl].
    { rewrite Heq in Hk'. apply (f_equal length) in Hk'.
      rewrite !length_app, !length_groups_bits, length_replicate, length_bits_of in Hk'. lia. }
    destruct (groups_bits_inj 8 out payload (bits_of (Z.to_nat bits) acc)
      (replicate (Z.to_nat bits) false)) as [-> Hr]; [done|done|done|congruence|].
    rewrite (proj2 Hz Hr). destruct (Z.leb_spec 5 bits); [lia|]. done.
Qed.

(** ** The checksum is linear *)

Lemma generator_loop_lxor gens bit t1 t2 a b :
  generator_loop gens bit (Z.lxor t1 t2) (Z.lxor a b) =
  Z.lxor (generator_loop gens bit t1 a) (generator_loop gens bit t2 b).
Proof.
  revert bit a b. induction gens as [|g gens IH]; intros bit a b; [done|]. cbn [generator_loop].
  rewrite <- IH. f_equal. rewrite Z.shiftr_lxor.
  assert (Hm : forall t, Z.land g (wrap 32 (0 - Z.land t 1)) =
    if Z.odd t then Z.land g (2 ^ 32 - 1) else 0).
  { intros t. change 1 with (Z.ones 1) at 1. rewrite Z.land_ones by lia.
    change (2 ^ 1) with 2. rewrite Zmod_odd. destruct (Z.odd t); [done|]. apply Z.land_0_r. }
  rewrite !Hm. rewrite <- !Z.bit0_odd, Z.lxor_spec.
  destruct (Z.testbit (Z.shiftr t1 bit) 0), (Z.testbit (Z.shiftr t2 bit) 0); cbn [xorb];
    rewrite ?Z.lxor_0_r.
  - rewrite (Z.lxor_comm b), Z.lxor_assoc, <- (Z.lxor_assoc (Z.land g _)), Z.lxor_nilpotent.
    by rewrite Z.lxor_0_l.
  - by rewrite !Z.lxor_assoc, (Z.lxor_comm b).
  - by rewrite !Z.lxor_assoc.
  - done.
Qed.

Lemma polymod_lxor c1 c2 v1 v2 :
  polymod_step (Z.lxor c1 c2) (Z.lxor v1 v2) = Z.lxor (polymod_step c1 v1) (polymod_step c2 v2).
Proof.
  unfold polymod_step. rewrite Z.shiftr_lxor, <- generator_loop_lxor. f_equal.
  assert (Hl : Z.land (Z.lxor c1 c2) 33554431 = Z.lxor (Z.land c1 33554431) (Z.land c2 33554431)).
  { apply Z.bits_inj'. intros i Hi. rewrite !Z.lxor_spec, !Z.land_spec, Z.lxor_spec.
    by destruct (Z.testbit c1 i), (Z.testbit c2 i), (Z.testbit 33554431 i). }
  rewrite Hl, Z.shiftl_lxor, !Z.lxor_assoc. f_equal. rewrite <- !Z.lxor_assoc. f_equal.
  apply Z.lxor_comm.
Qed.

(** Below [2^25] a step is a shift. *)
Lemma polymod_small a : in_width 25 a -> polymod_step a 0 = Z.shiftl a 5.
Proof.
  intros Ha. unfold polymod_step.
  rewrite (proj1 (in_width_shiftr 25 a ltac:(lia) ltac:(unfold in_width in Ha; lia)) Ha).
  change 33554431 with (Z.ones 25). rewrite Z.land_ones by lia.
  rewrite Z.mod_small by (exact Ha). rewrite Z.lxor_0_r. cbn. by rewrite !Z.lxor_0_r.
Qed.

(** The groups folded into one number, five bits each. *)
Definition fold_groups (a : Z) (gs : list Z) : Z :=
  foldl (fun a g => Z.lxor (Z.shiftl a 5) g) a gs.

Lemma polymod_split gs c a :
  Forall (in_width 5) gs -> (length gs <= 6)%nat ->
  in_width (30 - 5 * len gs) a ->
  foldl polymod_step (Z.lxor c a) gs =
  Z.lxor (foldl polymod_step c (map (fun _ => 0) gs)) (fold_groups a gs).
Proof.
  intros Hg. revert c a. induction Hg as [|g gs Hg Hgs IH]; intros c a Hl Ha; [done|].
  cbn [foldl map fold_groups]. unfold len in *. cbn [length] in *.
  rewrite <- (Z.lxor_0_l g) at 1. rewrite polymod_lxor.
  assert (Ha25 : in_width 25 a) by (eapply in_width_mono; [|exact Ha]; lia).
  replace (polymod_step a g) with (Z.lxor (Z.shiftl a 5) g).
  2:{ rewrite <- (Z.lxor_0_r a) at 2. rewrite <- (Z.lxor_0_l g) at 2. rewrite polymod_lxor.
      rewrite polymod_small by done. f_equal. unfold polymod_step. cbn. by rewrite !Z.lxor_0_r. }
  rewrite IH; [done|lia|]. apply in_width_lxor; [lia| |eapply in_width_mono; [|exact Hg]; lia].
  unfold in_width in *. rewrite Z.shiftl_mul_pow2 by lia.
  replace (30 - 5 * Z.of_nat (length gs)) with ((30 - 5 * Z.of_nat (S (length gs))) + 5) by lia.
  rewrite Z.pow_add_r by lia. lia.
Qed.

Lemma fold_groups_snoc a gs g : fold_groups a (gs ++ [g]) = Z.lxor (Z.shiftl (fold_groups a gs) 5) g.
Proof. unfold fold_groups. by rewrite foldl_app. Qed.

Lemma fold_groups_bits gs :
  Forall (in_width 5) gs ->
  in_width (5 * len gs) (fold_groups 0 gs) /\ bits_of (5 * length gs) (fold_groups 0 gs) = groups_bits 5 gs.
Proof.
  induction gs as [|g gs IH] using rev_ind; intros Hg.
  { split; [|done]. change (5 * len (A := Z) []) with 0. unfold in_width. cbn. lia. }
  apply Forall_app in Hg as [Hgs [Hg _]%Forall_cons]. destruct (IH Hgs) as [Hw Hb].
  rewrite fold_groups_snoc. unfold len in *. rewrite length_app. cbn [length].
  set (x := fold_groups 0 gs) in *. split.
  - apply in_width_lxor; [lia| |eapply in_width_mono; [|exact Hg]; lia].
    unfold in_width in *. rewrite Z.shiftl_mul_pow2 by lia.
    replace (5 * Z.of_nat (length gs + 1)) with (5 * Z.of_nat (length gs) + 5) by lia.
    rewrite Z.pow_add_r by lia. lia.
  - replace (5 * (length gs + 1))%nat with (5 * length gs + 5)%nat by lia.
    rewrite bits_of_app, groups_bits_app. unfold groups_bits at 2. cbn [map concat].
    rewrite app_nil_r, Z.shiftr_lxor. change (Z.of_nat 5) with 5.
    rewrite (proj1 (in_width_shiftr 5 g ltac:(lia) ltac:(unfold in_width in Hg; lia)) Hg).
    rewrite Z.lxor_0_r, Z.shiftr_shiftl_l, Z.sub_diag, Z.shiftl_0_r by lia. rewrite Hb. f_equal.
    apply bits_of_ext. intros i Hi. rewrite Z.lxor_spec, Z.shiftl_spec_low by lia.
    apply xorb_false_l.
Qed.

Lemma checksum_groups_bits r :
  Forall (in_width 5) (checksum_groups r) /\ groups_bits 5 (checksum_groups r) = bits_of 30 r.
Proof.
  split.
  - unfold checksum_groups. apply Forall_forall. intros x Hx.
    apply list_elem_of_In, in_map_iff in Hx as (slot & <- & _).
    change 31 with (2 ^ 5 - 1). apply mask_width. lia.
  - change 30%nat with (5 + (5 + (5 + (5 + (5 + 5)))))%nat. rewrite !bits_of_app.
    assert (H : forall k, bits_of 5 (Z.land (Z.shiftr r k) 31) = bits_of 5 (Z.shiftr r k)).
    { intros k. exact (mask_bits 5 (Z.shiftr r k) ltac:(lia)). }
    unfold checksum_groups, groups_bits. cbn [map concat]. rewrite !H, app_nil_r. done.
Qed.

Lemma generator_width gens bit top next :
  Forall (in_width 30) gens -> in_width 30 next -> in_width 30 (generator_loop gens bit top next).
Proof.
  intros Hg. revert bit next. induction Hg as [|g gens Hg Hgs IH]; intros bit next Hn; [done|].
  cbn [generator_loop]. apply IH. apply in_width_lxor; [lia|done|].
  assert (Hw : 0 <= wrap 32 (0 - Z.land (Z.shiftr top bit) 1)).
  { apply Z.mod_pos_bound. lia. }
  set (m := wrap _ _) in *. apply in_width_shiftr; [lia|apply Z.land_nonneg; by right|].
  rewrite Z.shiftr_land.
  rewrite (proj1 (in_width_shiftr 30 g ltac:(lia) ltac:(unfold in_width in Hg; lia)) Hg).
  apply Z.land_0_l.
Qed.

Lemma polymod_width chk v : in_width 5 v -> in_width 30 (polymod_step chk v).
Proof.
  intros Hv. unfold polymod_step. apply generator_width.
  - repeat constructor; vm_compute; congruence.
  - apply in_width_lxor; [lia| |eapply in_width_mono; [|exact Hv]; lia].
    pose proof (mask_width 25 chk ltac:(lia)) as Hm. change (2 ^ 25 - 1) with 33554431 in Hm.
    unfold in_width in *. rewrite Z.shiftl_mul_pow2 by lia. lia.
Qed.

(** Six check groups make the polynomial come out right in exactly one way. *)
Lemma checksum_exact c gs :
  Forall (in_width 5) gs -> length gs = 6%nat ->
  let residue := Z.lxor (foldl polymod_step c [0; 0; 0; 0; 0; 0]) BECH32M_CONST in
  foldl polymod_step c gs = BECH32M_CONST <-> gs = checksum_groups residue.
Proof.
  intros Hg Hl residue.
  assert (Hr : in_width 30 residue).
  { apply in_width_lxor; [lia| |unfold in_width, BECH32M_CONST; lia]. cbn [foldl].
    apply polymod_width. unfold in_width. lia. }
  destruct (fold_groups_bits gs Hg) as [Hw Hb]. unfold len in Hw. rewrite Hl in Hw, Hb.
  destruct (checksum_groups_bits residue) as [Hcw Hcb].
  assert (Hsplit : foldl polymod_step c gs =
    Z.lxor (Z.lxor residue BECH32M_CONST) (fold_groups 0 gs)).
  { rewrite <- (Z.lxor_0_r c) at 1. rewrite polymod_split.
    - assert (Hx : Z.lxor residue BECH32M_CONST = foldl polymod_step c [0; 0; 0; 0; 0; 0]).
      { unfold residue. by rewrite Z.lxor_assoc, Z.lxor_nilpotent, Z.lxor_0_r. }
      rewrite Hx. destruct gs as [|? [|? [|? [|? [|? [|? [|]]]]]]]; done.
    - done.
    - lia.
    - unfold len. rewrite Hl. unfold in_width. cbn. lia. }
  rewrite Hsplit. transitivity (fold_groups 0 gs = residue).
  - split; intros H.
    + rewrite (Z.lxor_comm residue), Z.lxor_assoc in H. rewrite <- (Z.lxor_0_r BECH32M_CONST) in H at 2.
      apply (f_equal (Z.lxor BECH32M_CONST)) in H.
      rewrite <- !Z.lxor_assoc, Z.lxor_nilpotent, !Z.lxor_0_l in H.
      symmetry. by apply Z.lxor_eq.
    + by rewrite H, (Z.lxor_comm residue), Z.lxor_assoc, Z.lxor_nilpotent, Z.lxor_0_r.
  - change (5 * 6)%nat with 30%nat in Hb. split; intros H.
    + destruct (groups_bits_inj 5 gs (checksum_groups residue) [] []) as [? _]; [done|done| | |done].
      * by rewrite Hl.
      * rewrite !app_nil_r, Hcb, <- Hb. by rewrite H.
    + apply (bits_of_inj 30); [exact Hw|exact Hr|]. by rewrite Hb, H, Hcb.
Qed.

(** ** Case and alphabet *)

Lemma lower_upper b : ascii_lower (ascii_upper b) = ascii_lower b.
Proof. by destruct b. Qed.

Lemma upper_lower b : ascii_upper (ascii_lower b) = ascii_upper b.
Proof. by destruct b. Qed.

Lemma lower_lower b : ascii_lower (ascii_lower b) = ascii_lower b.
Proof. by destruct b. Qed.

Lemma upper_not_lower b : is_ascii_lowercase (ascii_upper b) = false.
Proof. by destruct b. Qed.

Lemma charset_index_at g : in_width 5 g -> charset_index (charset_at g) = Some g.
Proof.
  intros [H1 H2]. rewrite <- (Z2Nat.id g H1). set (n := Z.to_nat g).
  assert (n < 32)%nat by (unfold n; lia). generalize dependent n. intros n Hn.
  do 32 (destruct n as [|n]; [done|]). lia.
Qed.

Lemma charset_at_index b g :
  charset_index b = Some g -> in_width 5 g /\ charset_at g = b /\ ascii_lower b = b /\ b <> x31.
Proof. destruct b; vm_compute; intros [= <-]; repeat split; congruence. Qed.

Lemma charset_lower g : in_width 5 g -> ascii_lower (charset_at g) = charset_at g /\ charset_at g <> x31.
Proof. intros Hg. by apply charset_index_at, charset_at_index in Hg as (_ & _ & ?). Qed.

Lemma map_charset_lower gs :
  Forall (in_width 5) gs ->
  to_ascii_lowercase (map charset_at gs) = map charset_at gs /\ x31 ∉ map charset_at gs.
Proof.
  induction 1 as [|g gs Hg Hgs [IH1 IH2]]; [split; [done|apply not_elem_of_nil]|].
  destruct (charset_lower g Hg) as [H1 H2]. unfold to_ascii_lowercase in *. cbn [map].
  rewrite H1. split.
  - f_equal. apply IH1.
  - apply not_elem_of_cons. by split.
Qed.

Lemma mapM_charset gs : Forall (in_width 5) gs -> mapM charset_index (map charset_at gs) = Some gs.
Proof.
  intros H. apply mapM_Some_2. induction H as [|g gs Hg Hgs IH]; cbn; constructor; [|done].
  by apply charset_index_at.
Qed.

Lemma mapM_charset_inv body gs :
  mapM charset_index body = Some gs -> body = map charset_at gs /\ Forall (in_width 5) gs.
Proof.
  intros H%mapM_Some_1. induction H as [|b g body gs Hb Hbs [IH1 IH2]]; [done|].
  apply charset_at_index in Hb as (Hg & Hc & _). cbn [map]. rewrite Hc, <- IH1. by split; [|constructor].
Qed.

Lemma rfind_none c s : c ∉ s -> rfind c s = None.
Proof.
  induction s as [|b s IH]; intros H; [done|]. apply not_elem_of_cons in H as [H1 H2].
  cbn. rewrite IH by done. by rewrite bool_decide_eq_false_2 by congruence.
Qed.

Lemma rfind_last c a body : c ∉ body -> rfind c (a ++ c :: body) = Some (length a).
Proof.
  intros H. induction a as [|b a IH]; cbn.
  - rewrite rfind_none by done. by rewrite bool_decide_eq_true_2.
  - by rewrite IH.
Qed.

Lemma rfind_inv c s i :
  rfind c s = Some i -> s = take i s ++ c :: drop (i + 1) s /\ (i < length s)%nat.
Proof.
  revert i. induction s as [|b s IH]; intros i H; [done|]. cbn in H.
  destruct (rfind c s) as [j|] eqn:E.
  - simplify_eq. destruct (IH j eq_refl) as [H1 H2]. cbn. split; [by f_equal|lia].
  - case_bool_decide; simplify_eq. cbn. split; [by rewrite drop_0|lia].
Qed.

(** The prefixes in use: not empty, printable, at most four characters. *)
Definition hrp_ok (hrp : list byte) : bool :=
  (0 <? length hrp)%nat && (length hrp <=? 4)%nat &&
  forallb (fun b => (33 <=? byte_val b) && (byte_val b <=? 126)) (to_ascii_lowercase hrp).

Lemma foldl_lower (f : Z -> byte -> Z) c hrp :
  (forall c b, f c (ascii_lower b) = f c b) -> foldl f c (to_ascii_lowercase hrp) = foldl f c hrp.
Proof.
  intros Hf. revert c. induction hrp as [|b hrp IH]; intros c; [done|].
  unfold to_ascii_lowercase in *. cbn [map foldl]. by rewrite Hf.
Qed.

Lemma hrp_polymod_lower hrp : hrp_polymod (to_ascii_lowercase hrp) = hrp_polymod hrp.
Proof. unfold hrp_polymod. by rewrite !foldl_lower by (intros c b; by rewrite lower_lower). Qed.

Lemma map_lower_upper s : to_ascii_lowercase (to_ascii_uppercase s) = to_ascii_lowercase s.
Proof. unfold to_ascii_lowercase, to_ascii_uppercase. rewrite map_map. apply map_ext, lower_upper. Qed.

Lemma map_upper_lower s : to_ascii_uppercase (to_ascii_lowercase s) = to_ascii_uppercase s.
Proof. unfold to_ascii_lowercase, to_ascii_uppercase. rewrite map_map. apply map_ext, upper_lower. Qed.

Lemma map_lower_lower s : to_ascii_lowercase (to_ascii_lowercase s) = to_ascii_lowercase s.
Proof. unfold to_ascii_lowercase. rewrite map_map. apply map_ext, lower_lower. Qed.

Lemma lower_app a b : to_ascii_lowercase (a ++ b) = to_ascii_lowercase a ++ to_ascii_lowercase b.
Proof. apply map_app. Qed.

Lemma upper_app a b : to_ascii_uppercase (a ++ b) = to_ascii_uppercase a ++ to_ascii_uppercase b.
Proof. apply map_app. Qed.

Lemma upper_no_lower s : existsb is_ascii_lowercase (to_ascii_uppercase s) = false.
Proof. unfold to_ascii_uppercase. induction s as [|b s IH]; cbn [map existsb]; [done|]. by rewrite upper_not_lower. Qed.

Lemma map_byte_val_width payload : Forall (in_width 8) (map byte_val payload).
Proof. induction payload; cbn; constructor; [apply byte_val_range|done]. Qed.

Lemma map_byte_val_of vs : Forall (in_width 8) vs -> map byte_val (map byte_of vs) = vs.
Proof.
  induction 1 as [|v vs Hv Hvs IH]; cbn; [done|]. rewrite byte_val_of, IH.
  by rewrite Z.mod_small by exact Hv.
Qed.

(** ** Decoding what was rendered, and the other way round *)

(** What the parser makes of a text in one case, cut at its separator. *)
Lemma bech_decode_shape text h body :
  (length text <= MAX_ENCODED)%nat ->
  existsb is_ascii_lowercase text && existsb is_ascii_uppercase text = false ->
  to_ascii_lowercase text = h ++ x31 :: body -> x31 ∉ body ->
  (1 <= length h)%nat -> (6 <= length body)%nat ->
  forallb (fun b => (33 <=? byte_val b) && (byte_val b <=? 126)) h = true ->
  bech_decode text =
    match mapM charset_index body with
    | None => Err BadChar
    | Some groups =>
        if negb (foldl polymod_step (hrp_polymod h) groups =? BECH32M_CONST) then Err BadChecksum
        else match convert_bits (take (length groups - 6) groups) 5 8 false with
          | None => Err BadData
          | Some payload => Ok (h, map byte_of payload)
          end
    end.
Proof.
  intros Hl Hc Ht Hb Hh Hbl Hp. unfold bech_decode.
  destruct (Nat.ltb_spec MAX_ENCODED (length text)); [lia|]. rewrite Hc, Ht.
  rewrite rfind_last by done. rewrite length_app. cbn [length].
  destruct (Nat.ltb_spec (length h) 1); [lia|].
  destruct (Nat.ltb_spec (length h + S (length body)) (length h + 7)); [lia|]. cbn [orb].
  rewrite take_app_length, Hp. cbn [negb].
  replace (drop (length h + 1) (h ++ x31 :: body)) with body; [done|].
  by rewrite drop_app_add.
Qed.

Definition checked_groups (hrp : list byte) (data : list Z) : list Z :=
  data ++ checksum_groups (Z.lxor
    (foldl polymod_step (foldl polymod_step (hrp_polymod hrp) data) [0; 0; 0; 0; 0; 0]) BECH32M_CONST).

Lemma bech_encode_groups hrp data :
  bech_encode hrp data = hrp ++ x31 :: map charset_at (checked_groups hrp data).
Proof. unfold bech_encode, checked_groups. by rewrite map_app. Qed.

Lemma checked_groups_width hrp data :
  Forall (in_width 5) data -> Forall (in_width 5) (checked_groups hrp data).
Proof. intros H. apply Forall_app. split; [done|apply checksum_groups_bits]. Qed.

(** [groups] pass the checksum under [hrp] exactly when they are [data] with its own
    six check groups. *)
Lemma checksum_iff hrp groups :
  Forall (in_width 5) groups -> (6 <= length groups)%nat ->
  foldl polymod_step (hrp_polymod hrp) groups = BECH32M_CONST <->
  groups = checked_groups hrp (take (length groups - 6) groups).
Proof.
  intros Hg Hl. set (data := take (length groups - 6) groups).
  set (gs := drop (length groups - 6) groups).
  assert (Hsplit : groups = data ++ gs) by (symmetry; apply take_drop).
  assert (Hgs : Forall (in_width 5) gs) by (by apply Forall_drop).
  assert (Hlen : length gs = 6%nat) by (unfold gs; rewrite length_drop; lia).
  rewrite Hsplit at 1 2. rewrite foldl_app, (checksum_exact _ gs Hgs Hlen).
  unfold checked_groups. split; [by intros ->|]. by intros ?%app_inv_head.
Qed.

Lemma regrouped_length payload groups :
  regrouped payload groups -> (5 * length groups < 8 * length payload + 5)%nat.
Proof.
  intros (_ & k & Hk & H). apply (f_equal length) in H.
  rewrite length_app, !length_groups_bits, length_replicate in H. lia.
Qed.

Lemma length_checked hrp data : length (checked_groups hrp data) = (length data + 6)%nat.
Proof. unfold checked_groups. by rewrite length_app. Qed.

Lemma take_checked hrp data :
  take (length (checked_groups hrp data) - 6) (checked_groups hrp data) = data.
Proof.
  rewrite length_checked. replace (length data + 6 - 6)%nat with (length data) by lia.
  apply take_app_length.
Qed.

Lemma render_decodes hrp payload :
  hrp_ok hrp = true -> (length payload <= 72)%nat ->
  exists text, render hrp payload = Done text /\
    bech_decode text = Ok (to_ascii_lowercase hrp, payload).
Proof.
  intros Hh Hp. unfold hrp_ok in Hh. bool_to_prop.
  destruct (convert_8_5 (map byte_val payload) (map_byte_val_width payload)) as (data & Hd & Hr).
  unfold render. rewrite Hd. eexists. split; [done|]. rewrite bech_encode_groups.
  pose proof (regrouped_length _ _ Hr) as Hlen. rewrite length_map in Hlen.
  pose proof (checked_groups_width hrp data (proj1 Hr)) as Hw.
  destruct (map_charset_lower _ Hw) as [Hlow Hsep]. pose proof (length_checked hrp data) as Hcl.
  rewrite (bech_decode_shape _ (to_ascii_lowercase hrp) (map charset_at (checked_groups hrp data))).
  - rewrite mapM_charset by done. rewrite hrp_polymod_lower.
    rewrite (proj2 (checksum_iff hrp (checked_groups hrp data) Hw ltac:(lia)))
      by (by rewrite take_checked).
    rewrite Z.eqb_refl, take_checked. cbn [negb].
    rewrite (proj2 (convert_5_8 data (map byte_val payload) (proj1 Hr)))
      by (split; [apply map_byte_val_width|done]).
    by rewrite map_byte_of_val.
  - unfold to_ascii_uppercase, MAX_ENCODED. rewrite length_map, length_app. cbn [length].
    rewrite length_map, Hcl. lia.
  - by rewrite upper_no_lower.
  - rewrite map_lower_upper, lower_app. f_equal. unfold to_ascii_lowercase at 1. cbn [map].
    f_equal. exact Hlow.
  - done.
  - unfold to_ascii_lowercase. by rewrite length_map.
  - rewrite length_map. lia.
  - done.
Qed.

Lemma decoded_renders text h payload :
  bech_decode text = Ok (h, payload) ->
  (forall hrp, to_ascii_lowercase hrp = h -> render hrp payload = Done (to_ascii_uppercase text)) /\
  existsb is_ascii_lowercase text && existsb is_ascii_uppercase text = false.
Proof.
  intros H. unfold bech_decode in H. case_in H; [done|]. case_in H; [done|]. split; [|done].
  destruct (rfind x31 (to_ascii_lowercase text)) as [sep|] eqn:Er; [|done].
  apply rfind_inv in Er as [Hs Hlt]. case_in H; [done|]. case_in H; [done|].
  destruct (mapM charset_index _) as [groups|] eqn:Em; [|done].
  apply mapM_charset_inv in Em as [Hbody Hw]. case_in H; [done|]. bool_to_prop.
  destruct (convert_bits _ 5 8 false) as [vs|] eqn:Ec; [|done].
  assert (Hlen : (6 <= length groups)%nat).
  { apply (f_equal length) in Hbody. rewrite length_drop, length_map in Hbody. lia. }
  apply convert_5_8 in Ec as [Hvs Hr]; [|by apply Forall_take].
  intros hrp Hh. injection H as Hh' Hp. subst payload.
  assert (Hsum : groups = checked_groups hrp (take (length groups - 6) groups)).
  { apply checksum_iff; [done|done|]. by rewrite <- hrp_polymod_lower, Hh, <- Hh'. }
  unfold render. rewrite map_byte_val_of by done.
  destruct (convert_8_5 vs Hvs) as (data & -> & Hd).
  rewrite (regrouped_fun vs data _ Hd Hr), bech_encode_groups, <- Hsum. f_equal.
  rewrite <- (map_upper_lower text), Hs, Hbody, Hh', <- Hh.
  change (x31 :: map charset_at groups) with ([x31] ++ map charset_at groups).
  by rewrite !upper_app, map_upper_lower.
Qed.

Definition HRPS : list (list byte) :=
  [HRP_ADDRESS; HRP_SECRET; HRP_TX; HRP_BLOCK; HRP_STATE; HRP_CID; HRP_PROOF].

Lemma HRPS_ok hrp : hrp ∈ HRPS -> hrp_ok hrp = true.
Proof.
  intros H. unfold HRPS in H.
  repeat (apply elem_of_cons in H as [->|H]; [reflexivity|]). by apply not_elem_of_nil in H.
Qed.

Lemma HRPS_apart hrp other :
  hrp ∈ HRPS -> other ∈ HRPS -> to_ascii_lowercase hrp = to_ascii_lowercase other -> hrp = other.
Proof.
  assert (Hall : forallb (fun a => forallb (fun b => bool_decide (a = b) ||
    negb (bool_decide (to_ascii_lowercase a = to_ascii_lowercase b))) HRPS) HRPS = true) by reflexivity.
  intros H Ho Heq. rewrite forallb_forall in Hall. apply list_elem_of_In in H, Ho.
  specialize (Hall hrp H). rewrite forallb_forall in Hall. specialize (Hall other Ho).
  apply orb_true_iff in Hall as [Hall|Hall]; [by apply bool_decide_eq_true in Hall|].
  by apply negb_true_iff, bool_decide_eq_false in Hall.
Qed.

Lemma rendered_parses hrp payload :
  hrp ∈ HRPS -> (length payload <= 72)%nat ->
  exists text, render hrp payload = Done text /\ parse hrp text = Ok payload /\
    forall other, other ∈ HRPS -> other <> hrp -> parse other text = Err WrongPrefix.
Proof.
  intros Hh Hp. destruct (render_decodes hrp payload (HRPS_ok hrp Hh) Hp) as (text & Ht & Hd).
  exists text. split; [done|]. unfold parse, rbind. rewrite Hd. unfold eq_ignore_ascii_case.
  rewrite map_lower_lower. split; [by rewrite bool_decide_eq_true_2|].
  intros other Ho Hne. rewrite bool_decide_eq_false_2; [done|].
  intros Heq. apply Hne. symmetry. by apply HRPS_apart.
Qed.

Lemma parsed_renders hrp text payload :
  hrp ∈ HRPS -> parse hrp text = Ok payload ->
  render hrp payload = Done (to_ascii_uppercase text) /\
  existsb is_ascii_lowercase text && existsb is_ascii_uppercase text = false.
Proof.
  intros Hh H. unfold parse, rbind in H.
  destruct (bech_decode text) as [[h p]|] eqn:Ed; [|done]. case_in H; [done|]. simplify_eq.
  unfold eq_ignore_ascii_case in Eb. apply negb_false_iff, bool_decide_eq_true in Eb.
  pose proof (decoded_renders text h payload Ed) as [Hr Hm]. split; [|done]. apply Hr.
  rewrite <- Eb. unfold bech_decode in Ed.
  case_in Ed; [done|]. case_in Ed; [done|]. case_in Ed; [|done].
  do 2 (case_in Ed; [done|]). case_in Ed; [|done]. case_in Ed; [done|]. case_in Ed; [|done].
  injection Ed as <- _. unfold to_ascii_lowercase. rewrite <- firstn_map, map_map.
  f_equal. apply map_ext, lower_lower.
Qed.

(** Addresses, the identifiers the other components parse. *)
Lemma parse_address_Ok text payload :
  parse_address text = Ok payload ->
  length payload = DIGEST_LEN /\ render_address payload = Done (Ok (to_ascii_uppercase text)).
Proof.
  unfold parse_address, digest_parse, rbind, check_digest. intros H.
  destruct (parse HRP_ADDRESS text) as [p|] eqn:E; [|done].
  case_in H; [done|]. simplify_eq. bool_to_prop. split; [done|].
  unfold render_address, digest_render, check_digest. rewrite Eb, Nat.eqb_refl. cbn [negb].
  apply parsed_renders in E as [-> _]; [done|]. by left.
Qed.

Lemma render_address_Ok payload :
  length payload = DIGEST_LEN ->
  exists text, render_address payload = Done (Ok text) /\ parse_address text = Ok payload.
Proof.
  intros Hl. destruct (rendered_parses HRP_ADDRESS payload) as (text & Hr & Hp & _).
  - by left.
  - rewrite Hl. unfold DIGEST_LEN. lia.
  - exists text. unfold render_address, digest_render, parse_address, digest_parse, check_digest.
    rewrite Hl, Hr, Hp. cbn [Nat.eqb DIGEST_LEN negb rbind obind]. by rewrite Hl.
Qed.

(** ** Claims *)

(** Rendering is total on the payloads of the seven identifier kinds, up to 72
    bytes, and its text parses back to the same bytes under the same kind and
    under no other: an address never reads as a transaction id or a secret. *)
Theorem identifier_round_trip hrp payload :
  hrp ∈ HRPS -> (length payload <= 72)%nat ->
  exists text, render hrp payload = Done text /\ parse hrp text = Ok payload /\
    forall other, other ∈ HRPS -> other <> hrp -> parse other text = Err WrongPrefix.
Proof. apply rendered_parses. Qed.

Lemma identifier_round_trip_witness :
  exists text, render HRP_TX (replicate 32 x41) = Done text /\
    parse HRP_TX text = Ok (replicate 32 x41) /\
    forall other, other ∈ HRPS -> other <> HRP_TX -> parse other text = Err WrongPrefix.
Proof.
  apply (identifier_round_trip HRP_TX (replicate 32 x41)).
  - unfold HRPS. do 2 right. left.
  - cbn. lia.
Defined.

(** An identifier has one text, up to its case.  If a text parses as a payload
    under one of the seven kinds then its upper-case form is exactly the
    rendering of that payload, and it does not mix cases: no two different
    upper-case texts name the same address, and no text with a wrong check
    group, wrong padding or a stray character parses at all. *)
Theorem identifier_text_unique hrp text payload :
  hrp ∈ HRPS -> parse hrp text = Ok payload ->
  render hrp payload = Done (to_ascii_uppercase text) /\
  existsb is_ascii_lowercase text && existsb is_ascii_uppercase text = false.
Proof. apply parsed_renders. Qed.

Lemma identifier_text_unique_witness :
  let payload := replicate 32 x41 in
  exists text, render HRP_ADDRESS payload = Done text /\
    render HRP_ADDRESS payload = Done (to_ascii_uppercase (to_ascii_lowercase text)).
Proof.
  eexists. split; [vm_compute; reflexivity|].
  apply (identifier_text_unique HRP_ADDRESS).
  - unfold HRPS. left.
  - vm_compute. reflexivity.
Defined.
