(* ===== verification/Block.v ===== *)
(** * Blocks (crates/qtv-block)

    The block header and its codec, the Merkle tree over transactions and events
    with inclusion proofs, and what a light client reads: rosters, account keys
    and account leaves.  SHA3-256 is not part of the repository: it is the
    parameter [sha3_256] of the definitions that hash. *)

From Stdlib Require Import Sorted.
From S2P Require Import Prelude Codec Governance Idfmt.

Definition ROOT_LEN : nat := 32.
Definition MAX_EXTRA_DATA : Z := 32.
Definition MAX_PROPOSER : Z := 128.

Inductive BlockError : Type :=
| CodecError (e : Codec.Error)
| ProposerError
| ExtraDataTooLong.

(** ** Decoding with the block's error type *)

Definition HDec (A : Type) : Type := Decoder -> Result BlockError (A * Decoder).

Definition hret {A} (v : A) : HDec A := fun d => Ok (v, d).
Definition hfail {A} (e : BlockError) : HDec A := fun _ => Err e.
Definition hbind {A B} (m : HDec A) (k : A -> HDec B) : HDec B := fun d =>
  match m d with Err e => Err e | Ok (v, d) => k v d end.

(** [?] on a codec result, through [From<qtv_codec::Error>]. *)
Definition lift {A} (m : Dec A) : HDec A := fun d => map_err CodecError (m d).

Notation "'let^' x ':=' m 'in' k" := (hbind m (fun x => k))
  (at level 200, x pattern, m at level 100, k at level 200) : chain_scope.

(** ** UTF-8, as [String::from_utf8] accepts it *)

Definition in_range (lo hi : Z) (b : byte) : bool := (lo <=? byte_val b) && (byte_val b <=? hi).
Definition continuation (b : byte) : bool := in_range 0x80 0xBF b.

Fixpoint utf8 (bs : list byte) : bool :=
  match bs with
  | [] => true
  | b0 :: r0 =>
      if in_range 0 0x7F b0 then utf8 r0
      else match r0 with
      | [] => false
      | b1 :: r1 =>
          if in_range 0xC2 0xDF b0 then continuation b1 && utf8 r1
          else match r1 with
          | [] => false
          | b2 :: r2 =>
              let second := if in_range 0xE0 0xE0 b0 then in_range 0xA0 0xBF b1
                else if in_range 0xED 0xED b0 then in_range 0x80 0x9F b1
                else continuation b1 in
              if in_range 0xE0 0xEF b0 then second && continuation b2 && utf8 r2
              else match r2 with
              | [] => false
              | b3 :: r3 =>
                  let second := if in_range 0xF0 0xF0 b0 then in_range 0x90 0xBF b1
                    else if in_range 0xF4 0xF4 b0 then in_range 0x80 0x8F b1
                    else continuation b1 in
                  in_range 0xF0 0xF4 b0 && second && continuation b2 && continuation b3 && utf8 r3
              end
          end
      end
  end.

(** ** Headers *)

Record Header : Type := mkHeader {
  height : Z;
  parent_hash : list byte;
  q_root : list byte;
  header_transaction_root : list byte;
  header_event_root : list byte;
  beacon_seed : list byte;
  header_proposer : list byte;
  time : Z;
  extra_data : list byte
}.

Definition Header_new (h : Z) (parent q tx ev seed proposer : list byte) (t : Z) : Header :=
  mkHeader h parent q tx ev seed proposer t [].

Definition set_extra_data (h : Header) (data : list byte) : Result BlockError Header :=
  if MAX_EXTRA_DATA <? len data then Err ExtraDataTooLong
  else Ok (mkHeader (height h) (parent_hash h) (q_root h) (header_transaction_root h)
    (header_event_root h) (beacon_seed h) (header_proposer h) (time h) data).

(** One byte at a time, without a length. *)
Definition put_root (root : list byte) (e : Encoder) : Encoder :=
  foldl (fun e b => put_u8 (byte_val b) e) e root.

Definition get_root : Dec (list byte) :=
  let* bytes := decode_n get_u8 ROOT_LEN in
  dret (map byte_of bytes).

Definition Header_encode (h : Header) (e : Encoder) : Encoder :=
  e |> encode u64_codec (height h)
    |> put_root (parent_hash h)
    |> put_root (q_root h)
    |> put_root (header_transaction_root h)
    |> put_root (header_event_root h)
    |> put_root (beacon_seed h)
    |> put_bytes (header_proposer h)
    |> encode u64_codec (time h)
    |> put_bytes (extra_data h).

Definition Header_decode : HDec Header :=
  let^ h := lift (decode u64_codec) in
  let^ parent := lift get_root in
  let^ q := lift get_root in
  let^ tx := lift get_root in
  let^ ev := lift get_root in
  let^ seed := lift get_root in
  let^ proposer_bytes := lift get_bytes in
  if MAX_PROPOSER <? len proposer_bytes then hfail ProposerError
  else if negb (utf8 proposer_bytes) then hfail ProposerError
  else
    let^ t := lift (decode u64_codec) in
    let^ extra := lift get_bytes in
    if MAX_EXTRA_DATA <? len extra then hfail ExtraDataTooLong
    else hret (mkHeader h parent q tx ev seed proposer_bytes t extra).

Definition header_bytes (h : Header) : list byte := into_bytes (Header_encode h Encoder_new).

Definition header_from_bytes (bytes : list byte) : Result BlockError Header :=
  match Header_decode (Decoder_new bytes) with
  | Err e => Err e
  | Ok (h, d) => let? _ := map_err CodecError (finish d) in Ok h
  end.

(** The values of the [Header] type that [Header::new] and [set_extra_data] can make
    and [decode] lets through. *)
Definition Header_valid (h : Header) : Prop :=
  u64 (height h) /\ length (parent_hash h) = 32%nat /\ length (q_root h) = 32%nat /\
  length (header_transaction_root h) = 32%nat /\ length (header_event_root h) = 32%nat /\
  length (beacon_seed h) = 32%nat /\ len (header_proposer h) <= MAX_PROPOSER /\
  utf8 (header_proposer h) = true /\ u64 (time h) /\ len (extra_data h) <= MAX_EXTRA_DATA.

(** ** Merkle proofs as data *)

Record MerkleStep : Type := mkStep { sibling : list byte; sibling_on_left : bool }.

Record MerkleProof : Type := mkProof { steps : list MerkleStep }.

Definition MerkleStep_encode (s : MerkleStep) (e : Encoder) : Encoder :=
  e |> put_root (sibling s) |> put_u8 (bool_u8 (sibling_on_left s)).

Definition MerkleStep_decode : Dec MerkleStep :=
  let* root := get_root in
  let* left_ := get_flag in
  dret (mkStep root left_).

Definition MerkleStep_codec : Codec MerkleStep :=
  mkCodec MerkleStep MerkleStep_encode MerkleStep_decode (fun s => length (sibling s) = 32%nat).

Definition MerkleProof_encode (p : MerkleProof) (e : Encoder) : Encoder :=
  e |> put_u64 (len (steps p)) |> encode_all MerkleStep_codec (steps p).

Definition MerkleProof_decode : Dec MerkleProof :=
  let* count := decode u64_codec in
  let* ss := decode_n (decode MerkleStep_codec) (Z.to_nat count) in
  dret (mkProof ss).

Definition MerkleProof_codec : Codec MerkleProof :=
  mkCodec MerkleProof MerkleProof_encode MerkleProof_decode
    (fun p => u64 (len (steps p)) /\ Forall (valid MerkleStep_codec) (steps p)).

(** ** Rosters and account leaves *)

Record RosterEntry : Type := mkRosterEntry {
  entry_id : Z;
  entry_stake : Z;
  attest_pk : list byte;
  root_digest : list byte;
  root_slots : Z
}.

Definition RosterEntry_encode (r : RosterEntry) (e : Encoder) : Encoder :=
  e |> put_u64 (entry_id r) |> put_u64 (entry_stake r) |> put_bytes (attest_pk r)
    |> put_bytes (root_digest r) |> put_u64 (root_slots r).

Definition RosterEntry_decode : Dec RosterEntry :=
  let* i := get_u64 in
  let* s := get_u64 in
  let* pk := get_bytes in
  let* digest := get_array 32 (UnknownTag 0) in
  let* slots := get_u64 in
  dret (mkRosterEntry i s pk digest slots).

Definition RosterEntry_codec : Codec RosterEntry :=
  mkCodec RosterEntry RosterEntry_encode RosterEntry_decode
    (fun r => u64 (entry_id r) /\ u64 (entry_stake r) /\ u64 (len (attest_pk r)) /\
              length (root_digest r) = 32%nat /\ u64 (root_slots r)).

Definition MAX_ROSTER_ENTRIES : Z := 4096.

Definition encode_roster (entries : list RosterEntry) : list byte :=
  into_bytes (Encoder_new |> put_u64 (len entries) |> encode_all RosterEntry_codec entries).

(** The errors are dropped: every failing step is [None]. *)
Definition decode_roster (bytes : list byte) : option (list RosterEntry) :=
  match get_u64 (Decoder_new bytes) with
  | Err _ => None
  | Ok (count, d) =>
      if MAX_ROSTER_ENTRIES <? count then None
      else match decode_n (decode RosterEntry_codec) (Z.to_nat count) d with
        | Err _ => None
        | Ok (entries, d) => match finish d with Ok _ => Some entries | Err _ => None end
        end
  end.

(** [sort_by_key(|entry| entry.id)], a stable sort. *)
Fixpoint insert_entry (x : RosterEntry) (l : list RosterEntry) : list RosterEntry :=
  match l with
  | [] => [x]
  | y :: l => if entry_id x <=? entry_id y then x :: y :: l else y :: insert_entry x l
  end.

Definition sort_by_id (entries : list RosterEntry) : list RosterEntry :=
  foldr insert_entry [] entries.

(** "QUANTOVA/ROSTER/v1" *)
Definition ROSTER_DOMAIN : list byte :=
  [x51; x55; x41; x4e; x54; x4f; x56; x41; x2f; x52; x4f; x53; x54; x45; x52; x2f; x76; x31].

Definition roster_preimage (epoch : Z) (entries : list RosterEntry) : list byte :=
  let sorted := sort_by_id entries in
  into_bytes (Encoder_new |> put_bytes ROSTER_DOMAIN |> put_u64 epoch |> put_u64 (len sorted)
    |> encode_all RosterEntry_codec sorted).

Record AccountLeaf : Type := mkAccountLeaf {
  leaf_nonce : Z;
  leaf_balance : Z;
  leaf_scheme : Z;
  leaf_public_key : list byte
}.

Definition decode_account_leaf (bytes : list byte) : option AccountLeaf :=
  let fields :=
    let* n := decode u64_codec in
    let* b := decode u64_codec in
    let* s := decode u8_codec in
    let* k := decode vec_u8_codec in
    dret (mkAccountLeaf n b s k) in
  match fields (Decoder_new bytes) with
  | Err _ => None
  | Ok (leaf, d) => match finish d with Ok _ => Some leaf | Err _ => None end
  end.

(** ** The tree *)

(** [split] doubles while [split << 1 < n]; [n] bounds the doublings. *)
Fixpoint split_loop (fuel split n : nat) : nat :=
  match fuel with
  | O => split
  | S fuel => if (2 * split <? n)%nat then split_loop fuel (2 * split) n else split
  end.

Definition largest_power_of_two_below (n : nat) : nat := split_loop n 1 n.

Definition MERKLE_LEAF_DOMAIN : byte := x00.
Definition MERKLE_NODE_DOMAIN : byte := x01.

Section Hashing.
Variable sha3_256 : list byte -> list byte.

Definition Header_hash (h : Header) : list byte := sha3_256 (header_bytes h).

Definition empty_transaction_root : list byte := sha3_256 [].

Definition leaf_hash (data : list byte) : list byte := sha3_256 (MERKLE_LEAF_DOMAIN :: data).

Definition pair_hash (left_ right_ : list byte) : list byte :=
  sha3_256 (MERKLE_NODE_DOMAIN :: left_ ++ right_).

(** The recursion halves; the number of leaves bounds its depth. *)
Fixpoint merkle_loop (fuel : nat) (leaves : list (list byte)) : list byte :=
  match fuel with
  | O => empty_transaction_root
  | S fuel =>
      match leaves with
      | [] => empty_transaction_root
      | [leaf] => leaf
      | _ =>
          let split := largest_power_of_two_below (length leaves) in
          pair_hash (merkle_loop fuel (take split leaves)) (merkle_loop fuel (drop split leaves))
      end
  end.

Definition merkle_root (leaves : list (list byte)) : list byte := merkle_loop (length leaves) leaves.

Definition event_root (events : list (list byte)) : list byte :=
  if bool_decide (events = []) then empty_transaction_root
  else merkle_root (map leaf_hash events).

(** For the [Wrapper] of qtv-tx, given by its codec. *)
Definition transaction_root {W} (wrapper : Codec W) (transactions : list W) : list byte :=
  match transactions with
  | [] => empty_transaction_root
  | _ => merkle_root (map (fun t => leaf_hash (to_bytes wrapper t)) transactions)
  end.

Fixpoint collect_loop (fuel : nat) (leaves : list (list byte)) (index : nat) (acc : list MerkleStep)
  : list MerkleStep :=
  match fuel with
  | O => acc
  | S fuel =>
      if (length leaves <=? 1)%nat then acc
      else
        let split := largest_power_of_two_below (length leaves) in
        if (index <? split)%nat
        then collect_loop fuel (take split leaves) index acc ++
               [mkStep (merkle_root (drop split leaves)) false]
        else collect_loop fuel (drop split leaves) (index - split) acc ++
               [mkStep (merkle_root (take split leaves)) true]
  end.

Definition collect_steps (leaves : list (list byte)) (index : nat) : list MerkleStep :=
  collect_loop (length leaves) leaves index [].

Definition prove_inclusion (events : list (list byte)) (index : nat) : option MerkleProof :=
  if (length events <=? index)%nat then None
  else Some (mkProof (collect_steps (map leaf_hash events) index)).

Definition fold_step (acc : list byte) (step : MerkleStep) : list byte :=
  if sibling_on_left step then pair_hash (sibling step) acc else pair_hash acc (sibling step).

Definition verify_inclusion (root event : list byte) (proof : MerkleProof) : bool :=
  bool_decide (foldl fold_step (leaf_hash event) (steps proof) = root).

(** *** What a light client reads *)

(** "qtv/bridge/epoch" *)
Definition bridge_epoch_key : list byte :=
  sha3_256 [x71; x74; x76; x2f; x62; x72; x69; x64; x67; x65; x2f; x65; x70; x6f; x63; x68].

(** "qtv/chain/roster/" *)
Definition ROSTER_KEY_TAG : list byte :=
  [x71; x74; x76; x2f; x63; x68; x61; x69; x6e; x2f; x72; x6f; x73; x74; x65; x72; x2f].

Definition roster_commitment_key (epoch : Z) : list byte :=
  sha3_256 (ROSTER_KEY_TAG ++ to_le 8 epoch).

Definition roster_commitment (epoch : Z) (entries : list RosterEntry) : list byte :=
  sha3_256 (roster_preimage epoch entries).

(** "qtv/account/" and "qtv/account-unparsed/" *)
Definition ACCOUNT_TAG : list byte :=
  [x71; x74; x76; x2f; x61; x63; x63; x6f; x75; x6e; x74; x2f].
Definition ACCOUNT_UNPARSED_TAG : list byte :=
  [x71; x74; x76; x2f; x61; x63; x63; x6f; x75; x6e; x74; x2d; x75; x6e; x70; x61; x72; x73; x65;
   x64; x2f].

Definition account_state_key (address : list byte) : list byte :=
  match parse_address address with
  | Ok payload => sha3_256 (ACCOUNT_TAG ++ payload)
  | Err _ => sha3_256 (ACCOUNT_UNPARSED_TAG ++ address)
  end.
End Hashing.

(** ** Codec laws *)

Lemma buf_put_root root e : buf (put_root root e) = buf e ++ root.
Proof. apply buf_put_array. Qed.

#[export] Hint Rewrite buf_put_root : codec.

Lemma reads_get_root root : length root = 32%nat -> reads get_root root root.
Proof. apply reads_array. Qed.

Lemma get_root_Ok d root d' :
  get_root d = Ok (root, d') -> length root = 32%nat /\ consumed d root d'.
Proof. apply array_Ok. Qed.

Ltac dec_inv_hook ::=
  match goal with
  | H : get_root _ = Ok _ |- _ => apply get_root_Ok in H as [? ?]
  | H : get_flag _ = Ok _ |- _ => apply get_flag_Ok in H
  | H : get_array _ _ _ = Ok _ |- _ => apply get_array_Ok in H as [? ?]
  end.

#[export] Instance MerkleStep_appends : Appends MerkleStep_codec.
Proof. unfold MerkleStep_codec, MerkleStep_encode. codec_appends. Qed.

#[export] Instance MerkleStep_roundtrip : RoundTrip MerkleStep_codec.
Proof.
  intros s Hs. unfold MerkleStep_codec, MerkleStep_encode, MerkleStep_decode. codec_image.
  cbn [decode]. cbn in Hs. eapply reads_bind; [by apply reads_get_root|].
  eapply reads_map; [apply reads_get_flag|]. destruct s. apply reads_ret.
Qed.

#[export] Instance MerkleStep_canonical : Canonical MerkleStep_codec.
Proof. unfold MerkleStep_codec, MerkleStep_encode, MerkleStep_decode. codec_canonical. Qed.

#[export] Instance MerkleProof_appends : Appends MerkleProof_codec.
Proof. unfold MerkleProof_codec, MerkleProof_encode. codec_appends. Qed.

#[export] Instance MerkleProof_roundtrip : RoundTrip MerkleProof_codec.
Proof.
  intros [ss] [Hn Hs]. unfold MerkleProof_codec, MerkleProof_encode, MerkleProof_decode. codec_image.
  cbn [decode steps] in *. eapply reads_bind; [by apply reads_get_u64|].
  eapply reads_map; [|apply reads_ret]. unfold len. rewrite Nat2Z.id.
  apply reads_decode_n. eapply Forall_impl; [exact Hs|]. intros s. apply decode_encode.
Qed.

#[export] Instance MerkleProof_canonical : Canonical MerkleProof_codec.
Proof.
  intros d p d' H. unfold MerkleProof_codec, MerkleProof_encode, MerkleProof_decode in *.
  cbn [decode] in H. dec_inv.
  apply (decode_n_consumed _ (to_bytes MerkleStep_codec) (valid MerkleStep_codec)) in Hd0
    as (Hl & Hv & Hc); [|apply decode_canonical].
  cbn in H. assert (Hlen : len x0 = x) by (unfold len, in_width in *; lia).
  split; [cbn; by rewrite Hlen|]. codec_image. cbn [steps]. rewrite Hlen, ?app_nil_r. consumed_chain.
Qed.

#[export] Instance RosterEntry_appends : Appends RosterEntry_codec.
Proof. unfold RosterEntry_codec, RosterEntry_encode. codec_appends. Qed.

#[export] Instance RosterEntry_roundtrip : RoundTrip RosterEntry_codec.
Proof.
  intros r Hr. unfold RosterEntry_codec, RosterEntry_encode, RosterEntry_decode. codec_image.
  cbn [decode valid RosterEntry_codec] in *. destruct r; cbn in Hr. destruct_and?.
  do 2 (eapply reads_bind; [by apply reads_get_u64|]).
  eapply reads_bind; [by apply reads_get_bytes|]. eapply reads_bind; [by apply reads_get_array|].
  eapply reads_map; [by apply reads_get_u64|]. apply reads_ret.
Qed.

#[export] Instance RosterEntry_canonical : Canonical RosterEntry_codec.
Proof. unfold RosterEntry_codec, RosterEntry_encode, RosterEntry_decode. codec_canonical. Qed.

(** ** Headers *)

Definition hreads {A} (m : HDec A) (bs : list byte) (v : A) : Prop :=
  forall d post, fits d -> rest d = bs ++ post -> m d = Ok (v, advance (length bs) d).

Lemma hreads_lift {A} (m : Dec A) bs v : reads m bs v -> hreads (lift m) bs v.
Proof. intros H d post Hf Hr. unfold lift. by rewrite (H d post Hf Hr). Qed.

Lemma hreads_bind {A B} (m : HDec A) (k : A -> HDec B) b1 b2 v w :
  hreads m b1 v -> hreads (k v) b2 w -> hreads (hbind m k) (b1 ++ b2) w.
Proof.
  intros Hm Hk d post Hf Hr. rewrite <- app_assoc in Hr. unfold hbind.
  rewrite (Hm d _ Hf Hr). destruct (fits_advance _ _ _ Hf Hr) as [Hf' Hr'].
  by rewrite (Hk _ _ Hf' Hr'), advance_advance, length_app.
Qed.

Lemma hreads_ret {A} (v : A) : hreads (hret v) [] v.
Proof. intros d post _ _. cbn [length]. by rewrite advance_0. Qed.

Lemma hbind_lift_Ok {A B} (m : Dec A) (k : A -> HDec B) d w d' :
  hbind (lift m) k d = Ok (w, d') -> exists v d1, m d = Ok (v, d1) /\ k v d1 = Ok (w, d').
Proof.
  unfold hbind, lift. destruct (m d) as [[v d1]|]; [|done]. cbn. intros H. by exists v, d1.
Qed.

Definition header_image (h : Header) : list byte :=
  to_le 8 (height h) ++ parent_hash h ++ q_root h ++ header_transaction_root h ++
  header_event_root h ++ beacon_seed h ++ bytes_image (header_proposer h) ++
  to_le 8 (time h) ++ bytes_image (extra_data h).

Lemma header_bytes_image h : header_bytes h = header_image h.
Proof.
  unfold header_bytes, header_image, into_bytes, Header_encode. cbn [encode u64_codec].
  autorewrite with codec. by rewrite <- !app_assoc.
Qed.

Lemma header_hreads h : Header_valid h -> hreads Header_decode (header_image h) h.
Proof.
  destruct h as [ht pa q tx ev be pr ti ex]. unfold Header_valid, header_image, Header_decode.
  cbn [height parent_hash q_root header_transaction_root header_event_root beacon_seed
    header_proposer time extra_data decode u64_codec].
  intros (H1 & H2 & H3 & H4 & H5 & H6 & H7 & H8 & H9 & H10).
  unfold MAX_PROPOSER, MAX_EXTRA_DATA in *.
  eapply hreads_bind; [by apply hreads_lift, reads_get_u64|].
  do 5 (eapply hreads_bind; [by apply hreads_lift, reads_get_root|]).
  eapply hreads_bind; [apply hreads_lift, reads_get_bytes; unfold in_width, len in *; lia|].
  destruct (Z.ltb_spec 128 (len pr)); [lia|]. rewrite H8. cbn [negb].
  eapply hreads_bind; [by apply hreads_lift, reads_get_u64|].
  rewrite <- (app_nil_r (bytes_image ex)).
  eapply hreads_bind; [apply hreads_lift, reads_get_bytes; unfold in_width, len in *; lia|].
  destruct (Z.ltb_spec 32 (len ex)); [lia|]. apply hreads_ret.
Qed.

Lemma header_consumed d h d' :
  Header_decode d = Ok (h, d') -> Header_valid h /\ consumed d (header_image h) d'.
Proof.
  unfold Header_decode. intros H.
  repeat match type of H with
  | hbind (lift _) _ _ = Ok _ =>
      let v := fresh "v" in let d1 := fresh "d" in let E := fresh "E" in
      apply hbind_lift_Ok in H as (v & d1 & E & H); cbn beta in H
  | (if ?b then hfail _ else _) _ = Ok _ => let Eb := fresh "Eb" in destruct b eqn:Eb; [discriminate H|]
  end.
  injection H as <- <-. cbn [decode u64_codec] in *.
  repeat match goal with
  | E : get_u64 _ = Ok _ |- _ => apply get_u64_Ok in E as [? ?]
  | E : get_root _ = Ok _ |- _ => apply get_root_Ok in E as [? ?]
  | E : get_bytes _ = Ok _ |- _ => apply get_bytes_Ok in E as [? ?]
  end.
  bool_to_prop. split; [by unfold Header_valid|].
  unfold header_image. cbn [height parent_hash q_root header_transaction_root header_event_root
    beacon_seed header_proposer time extra_data]. consumed_chain.
Qed.

(** ** The shape of the tree *)

Lemma split_loop_bounds fuel split n :
  (1 <= split < n)%nat -> (1 <= split_loop fuel split n < n)%nat.
Proof.
  revert split. induction fuel as [|fuel IH]; intros split H; cbn [split_loop]; [done|].
  destruct (Nat.ltb_spec (2 * split) n); [apply IH; lia|done].
Qed.

Lemma split_bounds n : (2 <= n)%nat -> (1 <= largest_power_of_two_below n < n)%nat.
Proof. intros H. apply split_loop_bounds. lia. Qed.

(** The two halves of a list of two or more. *)
Definition left_half {A} (l : list A) : list A := take (largest_power_of_two_below (length l)) l.
Definition right_half {A} (l : list A) : list A := drop (largest_power_of_two_below (length l)) l.

Lemma halves_length {A} (l : list A) :
  (2 <= length l)%nat ->
  (1 <= length (left_half l) < length l)%nat /\ (1 <= length (right_half l) < length l)%nat.
Proof.
  intros H. pose proof (split_bounds (length l) H). unfold left_half, right_half.
  rewrite length_take, length_drop. lia.
Qed.

Lemma halves_app {A} (l : list A) : left_half l ++ right_half l = l.
Proof. apply take_drop. Qed.

Lemma halves_map {A B} (f : A -> B) (l : list A) :
  left_half (map f l) = map f (left_half l) /\ right_half (map f l) = map f (right_half l).
Proof.
  unfold left_half, right_half. rewrite length_map. split; [apply firstn_map|apply skipn_map].
Qed.

Lemma halves_ind {A} (P : list A -> Prop) :
  P [] -> (forall x, P [x]) ->
  (forall l, (2 <= length l)%nat -> P (left_half l) -> P (right_half l) -> P l) -> forall l, P l.
Proof.
  intros H0 H1 H2 l. remember (length l) as n eqn:Hn. revert l Hn.
  induction (lt_wf n) as [n _ IH]. intros l ->.
  destruct l as [|x [|y l]]; [done|done|]. set (l' := x :: y :: l) in *.
  assert (Hl : (2 <= length l')%nat) by (cbn; lia).
  destruct (halves_length l' Hl) as [Hleft Hright].
  apply H2; [done|eapply IH; [|done]; lia|eapply IH; [|done]; lia].
Qed.

Section Tree.
Variable sha3_256 : list byte -> list byte.

Notation merkle_root := (merkle_root sha3_256).
Notation collect_steps := (collect_steps sha3_256).
Notation pair_hash := (pair_hash sha3_256).
Notation leaf_hash := (leaf_hash sha3_256).
Notation fold_step := (fold_step sha3_256).

Lemma merkle_loop_node fuel leaves :
  (2 <= length leaves)%nat ->
  merkle_loop sha3_256 (S fuel) leaves =
  pair_hash (merkle_loop sha3_256 fuel (left_half leaves)) (merkle_loop sha3_256 fuel (right_half leaves)).
Proof. intros H. destruct leaves as [|x [|y l]]; [cbn in H; lia|cbn in H; lia|done]. Qed.

(** Any fuel that covers the leaves gives the same root. *)
Lemma merkle_fuel leaves : forall fuel, (length leaves <= fuel)%nat ->
  merkle_loop sha3_256 fuel leaves = merkle_root leaves.
Proof.
  induction leaves as [|x|l Hl IHl IHr] using halves_ind; intros fuel Hf.
  - by destruct fuel.
  - destruct fuel; [cbn in Hf; lia|done].
  - destruct (halves_length l Hl). destruct fuel as [|fuel]; [lia|].
    unfold Block.merkle_root. destruct (length l) as [|n] eqn:En; [lia|].
    rewrite !merkle_loop_node by lia. rewrite !IHl, !IHr by lia. done.
Qed.

Lemma merkle_root_node leaves :
  (2 <= length leaves)%nat ->
  merkle_root leaves = pair_hash (merkle_root (left_half leaves)) (merkle_root (right_half leaves)).
Proof.
  intros H. destruct (halves_length leaves H).
  rewrite <- (merkle_fuel leaves (S (length leaves))) by lia.
  rewrite merkle_loop_node by done. by rewrite !merkle_fuel by lia.
Qed.

Lemma collect_loop_node fuel leaves i :
  (2 <= length leaves)%nat ->
  collect_loop sha3_256 (S fuel) leaves i [] =
  if (i <? length (left_half leaves))%nat
  then collect_loop sha3_256 fuel (left_half leaves) i [] ++ [mkStep (merkle_root (right_half leaves)) false]
  else collect_loop sha3_256 fuel (right_half leaves) (i - length (left_half leaves)) [] ++
         [mkStep (merkle_root (left_half leaves)) true].
Proof.
  intros H. pose proof (split_bounds _ H). cbn [collect_loop].
  destruct (Nat.leb_spec (length leaves) 1); [lia|].
  assert (Hs : length (left_half leaves) = largest_power_of_two_below (length leaves)).
  { unfold left_half. rewrite length_take. lia. }
  rewrite Hs. done.
Qed.

Lemma collect_fuel leaves : forall fuel i, (length leaves <= fuel)%nat ->
  collect_loop sha3_256 fuel leaves i [] = collect_steps leaves i.
Proof.
  induction leaves as [|x|l Hl IHl IHr] using halves_ind; intros fuel i Hf.
  - by destruct fuel.
  - destruct fuel; [cbn in Hf; lia|done].
  - destruct (halves_length l Hl). destruct fuel as [|fuel]; [lia|].
    unfold Block.collect_steps. destruct (length l) as [|n] eqn:En; [lia|].
    rewrite !collect_loop_node by lia. rewrite !IHl, !IHr by lia. done.
Qed.

Lemma collect_steps_node leaves i :
  (2 <= length leaves)%nat ->
  collect_steps leaves i =
  if (i <? length (left_half leaves))%nat
  then collect_steps (left_half leaves) i ++ [mkStep (merkle_root (right_half leaves)) false]
  else collect_steps (right_half leaves) (i - length (left_half leaves)) ++
         [mkStep (merkle_root (left_half leaves)) true].
Proof.
  intros H. destruct (halves_length leaves H).
  rewrite <- (collect_fuel leaves (S (length leaves))) by lia.
  rewrite collect_loop_node by done. by rewrite !collect_fuel by lia.
Qed.

(** The path of a leaf leads to the root. *)
Lemma collect_folds leaves i leaf :
  leaves !! i = Some leaf -> foldl fold_step leaf (collect_steps leaves i) = merkle_root leaves.
Proof.
  revert i. induction leaves as [|x|l Hl IHl IHr] using halves_ind; intros i Hi; [done| |].
  - destruct i; [|done]. cbn in Hi. by simplify_eq.
  - rewrite <- (halves_app l), lookup_app in Hi.
    rewrite merkle_root_node, collect_steps_node by done.
    destruct (Nat.ltb_spec i (length (left_half l))) as [Hlt|Hge]; rewrite foldl_app; cbn [foldl].
    + destruct (left_half l !! i) as [y|] eqn:E; simplify_eq.
      2:{ apply lookup_ge_None in E. lia. }
      by rewrite (IHl i E).
    + rewrite (lookup_ge_None_2 (left_half l)) in Hi by done. by rewrite (IHr _ Hi).
Qed.
End Tree.

(** ** Binding *)

(** The strings hashed for the inner nodes of a tree over [leaves]. *)
Fixpoint node_loop (sha3_256 : list byte -> list byte) (fuel : nat) (leaves : list (list byte))
  : list (list byte) :=
  match fuel with
  | O => []
  | S fuel =>
      if (length leaves <=? 1)%nat then []
      else (MERKLE_NODE_DOMAIN :: merkle_root sha3_256 (left_half leaves) ++
              merkle_root sha3_256 (right_half leaves)) ::
           node_loop sha3_256 fuel (left_half leaves) ++ node_loop sha3_256 fuel (right_half leaves)
  end.

(** All strings hashed when the root over [events] is computed. *)
Definition root_inputs (sha3_256 : list byte -> list byte) (events : list (list byte))
  : list (list byte) :=
  [] :: map (cons MERKLE_LEAF_DOMAIN) events ++
  node_loop sha3_256 (length events) (map (leaf_hash sha3_256) events).

(** All strings hashed when a proof for [event] is verified. *)
Fixpoint path_inputs (sha3_256 : list byte -> list byte) (acc : list byte) (ss : list MerkleStep)
  : list (list byte) :=
  match ss with
  | [] => []
  | s :: ss =>
      (MERKLE_NODE_DOMAIN ::
        (if sibling_on_left s then sibling s ++ acc else acc ++ sibling s)) ::
      path_inputs sha3_256 (fold_step sha3_256 acc s) ss
  end.

Definition proof_inputs (sha3_256 : list byte -> list byte) (event : list byte) (p : MerkleProof)
  : list (list byte) :=
  (MERKLE_LEAF_DOMAIN :: event) :: path_inputs sha3_256 (leaf_hash sha3_256 event) (steps p).

Section Binding.
Variable sha3_256 : list byte -> list byte.
Hypothesis sha3_length : forall x, length (sha3_256 x) = 32%nat.

Notation merkle_root := (merkle_root sha3_256).
Notation collect_steps := (collect_steps sha3_256).
Notation leaf_hash := (leaf_hash sha3_256).
Notation fold_step := (fold_step sha3_256).
Notation roots es := (merkle_root (map leaf_hash es)).
Notation node_inputs es := (node_loop sha3_256 (length es) (map leaf_hash es)).

Lemma length_root es : es <> [] -> length (roots es) = 32%nat.
Proof.
  destruct es as [|x [|y es]]; [done|intros _; apply sha3_length|intros _].
  rewrite merkle_root_node by (cbn; lia). apply sha3_length.
Qed.

Lemma node_fuel leaves : forall f g, (length leaves <= f)%nat -> (length leaves <= g)%nat ->
  node_loop sha3_256 f leaves = node_loop sha3_256 g leaves.
Proof.
  induction leaves as [|x|l Hl IHl IHr] using halves_ind; intros f g Hf Hg.
  - by destruct f, g.
  - destruct f, g; cbn in *; (lia || done).
  - destruct (halves_length l Hl). destruct f as [|f], g as [|g]; [lia..|]. cbn [node_loop].
    destruct (Nat.leb_spec (length l) 1); [lia|].
    by rewrite (IHl f g), (IHr f g) by lia.
Qed.

Lemma node_inputs_node es :
  (2 <= length es)%nat ->
  node_inputs es = (MERKLE_NODE_DOMAIN :: roots (left_half es) ++ roots (right_half es)) ::
    node_inputs (left_half es) ++ node_inputs (right_half es).
Proof.
  intros H. destruct (halves_length es H). destruct (halves_map leaf_hash es) as [HL HR].
  rewrite (node_fuel (map leaf_hash es) (length es) (S (length es))) by (rewrite length_map; lia).
  cbn [node_loop]. rewrite length_map. destruct (Nat.leb_spec (length es) 1); [lia|].
  rewrite HL, HR. f_equal. f_equal; apply node_fuel; rewrite length_map; lia.
Qed.

(** The inputs of either half are inputs of the whole. *)
Lemma root_inputs_halves es x :
  (2 <= length es)%nat ->
  x ∈ root_inputs sha3_256 (left_half es) \/ x ∈ root_inputs sha3_256 (right_half es) ->
  x ∈ root_inputs sha3_256 es.
Proof.
  intros H. unfold root_inputs. rewrite (node_inputs_node es H).
  assert (Hm : map (cons MERKLE_LEAF_DOMAIN) es =
    map (cons MERKLE_LEAF_DOMAIN) (left_half es) ++ map (cons MERKLE_LEAF_DOMAIN) (right_half es)).
  { by rewrite <- map_app, halves_app. }
  rewrite Hm. set_solver.
Qed.

Lemma top_input es :
  (2 <= length es)%nat ->
  MERKLE_NODE_DOMAIN :: roots (left_half es) ++ roots (right_half es) ∈ root_inputs sha3_256 es /\
  roots es = sha3_256 (MERKLE_NODE_DOMAIN :: roots (left_half es) ++ roots (right_half es)).
Proof.
  intros H. split.
  - unfold root_inputs. rewrite (node_inputs_node es H). set_solver.
  - rewrite merkle_root_node by (by rewrite length_map).
    by destruct (halves_map leaf_hash es) as [-> ->].
Qed.

Lemma path_inputs_snoc acc ss s :
  path_inputs sha3_256 acc (ss ++ [s]) =
  path_inputs sha3_256 acc ss ++ path_inputs sha3_256 (foldl fold_step acc ss) [s].
Proof. revert acc. induction ss as [|t ss IH]; intros acc; [done|]. cbn. f_equal. apply IH. Qed.

Lemma length_folded e ss : length (foldl fold_step (leaf_hash e) ss) = 32%nat.
Proof.
  induction ss as [|s ss _] using rev_ind; [apply sha3_length|]. rewrite foldl_app. cbn.
  unfold Block.fold_step. destruct (sibling_on_left s); apply sha3_length.
Qed.

(** The last step of a path and what it hashes. *)
Lemma path_last e ss s :
  let acc := foldl fold_step (leaf_hash e) ss in
  let input := MERKLE_NODE_DOMAIN ::
    (if sibling_on_left s then sibling s ++ acc else acc ++ sibling s) in
  foldl fold_step (leaf_hash e) (ss ++ [s]) = sha3_256 input /\
  input ∈ proof_inputs sha3_256 e (mkProof (ss ++ [s])).
Proof.
  cbn zeta. split.
  - rewrite foldl_app. cbn [foldl]. unfold Block.fold_step at 1. by destruct (sibling_on_left s).
  - unfold proof_inputs. cbn [steps]. rewrite path_inputs_snoc. set_solver.
Qed.

Lemma leaf_input es e : e ∈ es -> MERKLE_LEAF_DOMAIN :: e ∈ root_inputs sha3_256 es.
Proof.
  intros He. unfold root_inputs. apply elem_of_cons. right. apply elem_of_app. left.
  by apply list_elem_of_In, in_map, list_elem_of_In.
Qed.

(** Whatever leads from a leaf to the root of [es] is the path of one of [es]. *)
Lemma path_unique e es : forall ss,
  es <> [] -> Forall (fun s => length (sibling s) = 32%nat) ss ->
  separates sha3_256 (root_inputs sha3_256 es) (proof_inputs sha3_256 e (mkProof ss)) ->
  roots es = foldl fold_step (leaf_hash e) ss ->
  exists i, es !! i = Some e /\ ss = collect_steps (map leaf_hash es) i.
Proof.
  induction es as [|x|es Hes IHl IHr] using halves_ind; intros ss Hne Hs Hsep Hf; [done| |].
  - exists 0%nat. destruct ss as [|s ss _] using rev_ind.
    + apply (Hsep (MERKLE_LEAF_DOMAIN :: x) (MERKLE_LEAF_DOMAIN :: e)) in Hf;
        [by simplify_eq|apply leaf_input; set_solver|unfold proof_inputs; set_solver].
    + destruct (path_last e ss s) as [Hl Hin]. rewrite Hl in Hf.
      apply (Hsep (MERKLE_LEAF_DOMAIN :: x)) in Hf; [done|apply leaf_input; set_solver|done].
  - destruct (top_input es Hes) as [Htop Hroot]. rewrite Hroot in Hf.
    destruct ss as [|s ss _] using rev_ind.
    { apply (Hsep _ (MERKLE_LEAF_DOMAIN :: e)) in Hf; [done|done|unfold proof_inputs; set_solver]. }
    destruct (path_last e ss s) as [Hl Hin]. rewrite Hl in Hf.
    apply Hsep in Hf; [|done|done]. injection Hf as Hf.
    apply Forall_app in Hs as [Hs [Hs1 _]%Forall_cons].
    destruct (halves_length es Hes) as [HL HR]. destruct (halves_map leaf_hash es) as [HmL HmR].
    assert (Hsub : forall es', (forall x, x ∈ root_inputs sha3_256 es' -> x ∈ root_inputs sha3_256 es) ->
      separates sha3_256 (root_inputs sha3_256 es') (proof_inputs sha3_256 e (mkProof ss))).
    { intros es' Hsub. eapply separates_sub; [exact Hsep|done|].
      unfold proof_inputs. cbn [steps]. rewrite path_inputs_snoc. set_solver. }
    assert (Hneq : forall (l : list (list byte)), (1 <= length l)%nat -> l <> []) by (intros []; cbn; [lia|done]).
    destruct (sibling_on_left s) eqn:Eside.
    + apply app_inj_1 in Hf as [HfL HfR]; [|rewrite length_root by (apply Hneq; lia); done].
      destruct (IHr ss) as (i & Hi & Hss); [apply Hneq; lia|done| |done|].
      { apply Hsub. intros y Hy. apply root_inputs_halves; auto. }
      exists (length (left_half es) + i)%nat. split.
      * assert (H : (left_half es ++ right_half es) !! (length (left_half es) + i)%nat = Some e);
          [|by rewrite halves_app in H].
        rewrite lookup_app_r by lia. by rewrite Nat.add_comm, Nat.add_sub.
      * rewrite collect_steps_node by (by rewrite length_map). rewrite HmL, HmR, length_map.
        destruct (Nat.ltb_spec (length (left_half es) + i) (length (left_half es))); [lia|].
        replace (length (left_half es) + i - length (left_half es))%nat with i by lia.
        rewrite <- Hss. destruct s as [sib side]. cbn in *. by subst.
    + apply app_inj_1 in Hf as [HfL HfR]; [|rewrite length_root by (apply Hneq; lia); by rewrite length_folded].
      destruct (IHl ss) as (i & Hi & Hss); [apply Hneq; lia|done| |done|].
      { apply Hsub. intros y Hy. apply root_inputs_halves; auto. }
      exists i. split.
      * assert (H : (left_half es ++ right_half es) !! i = Some e);
          [by apply lookup_app_l_Some|by rewrite halves_app in H].
      * rewrite collect_steps_node by (by rewrite length_map). rewrite HmL, HmR, length_map.
        apply lookup_lt_Some in Hi. destruct (Nat.ltb_spec i (length (left_half es))); [|lia].
        rewrite <- Hss. destruct s as [sib side]. cbn in *. by subst.
Qed.

Lemma root_shape es :
  (es = [] /\ event_root sha3_256 es = sha3_256 []) \/
  (exists x, es = [x] /\ event_root sha3_256 es = sha3_256 (MERKLE_LEAF_DOMAIN :: x)) \/
  ((2 <= length es)%nat /\ event_root sha3_256 es =
     sha3_256 (MERKLE_NODE_DOMAIN :: roots (left_half es) ++ roots (right_half es))).
Proof.
  destruct es as [|x [|y es]]; [by left|by right; left; exists x|right; right].
  split; [cbn; lia|]. unfold event_root. rewrite bool_decide_eq_false_2 by done.
  apply top_input. cbn. lia.
Qed.

Lemma event_root_roots es : es <> [] -> event_root sha3_256 es = roots es.
Proof. intros H. unfold event_root. by rewrite bool_decide_eq_false_2. Qed.

Lemma root_unique es : forall es',
  separates sha3_256 (root_inputs sha3_256 es) (root_inputs sha3_256 es') ->
  event_root sha3_256 es = event_root sha3_256 es' -> es = es'.
Proof.
  assert (Hneq : forall (l : list (list byte)), (1 <= length l)%nat -> l <> [])
    by (intros []; cbn; [lia|done]).
  assert (Hnil : forall l, [] ∈ root_inputs sha3_256 l) by (intros l; by left).
  induction es as [|x|es Hes IHl IHr] using halves_ind; intros es' Hsep Heq.
  - destruct (root_shape es') as [[-> _]|[(y & -> & Hy)|[Hl Hy]]]; [done| |];
      rewrite Hy in Heq; apply (Hsep []) in Heq; try done.
    + apply leaf_input; set_solver.
    + by apply top_input.
  - change (event_root sha3_256 [x]) with (sha3_256 (MERKLE_LEAF_DOMAIN :: x)) in Heq.
    destruct (root_shape es') as [[-> Hy]|[(y & -> & Hy)|[Hl Hy]]]; rewrite Hy in Heq;
      (apply (Hsep (MERKLE_LEAF_DOMAIN :: x)) in Heq;
        [|apply leaf_input; set_solver|first [done|by apply top_input|apply leaf_input; set_solver]]);
      by simplify_eq.
  - destruct (root_shape es) as [[-> _]|[(y & -> & _)|[_ Hx]]]; [cbn in Hes; lia..|].
    rewrite Hx in Heq. destruct (top_input es Hes) as [Htop _].
    destruct (root_shape es') as [[-> Hy]|[(y & -> & Hy)|[Hl Hy]]]; rewrite Hy in Heq;
      (apply Hsep in Heq; [|done|first [done|by apply top_input|apply leaf_input; set_solver]]); [done..|].
    injection Heq as Heq. destruct (halves_length es Hes), (halves_length es' Hl).
    apply app_inj_1 in Heq as [HL HR]; [|by rewrite !length_root by (apply Hneq; lia)].
    rewrite <- (halves_app es), <- (halves_app es'). f_equal.
    + apply IHl; [|by rewrite !event_root_roots by (apply Hneq; lia)].
      eapply separates_sub; [exact Hsep|..]; intros z Hz; apply root_inputs_halves; auto.
    + apply IHr; [|by rewrite !event_root_roots by (apply Hneq; lia)].
      eapply separates_sub; [exact Hsep|..]; intros z Hz; apply root_inputs_halves; auto.
Qed.
End Binding.

(** ** Claims *)

(** Every event of a block has an inclusion proof and only events have an index:
    [prove_inclusion] answers exactly for the indices in range, and what it
    returns verifies against the event root, whatever the hash is. *)
Theorem inclusion_proofs_verify sha3_256 events i :
  match events !! i with
  | Some e => exists p, prove_inclusion sha3_256 events i = Some p /\
      verify_inclusion sha3_256 (event_root sha3_256 events) e p = true
  | None => prove_inclusion sha3_256 events i = None
  end.
Proof.
  unfold prove_inclusion. destruct (events !! i) as [e|] eqn:Ei.
  - pose proof (lookup_lt_Some _ _ _ Ei). destruct (Nat.leb_spec (length events) i); [lia|].
    eexists. split; [done|]. unfold verify_inclusion. apply bool_decide_eq_true. cbn [steps].
    rewrite event_root_roots by (by intros ->). apply collect_folds.
    by rewrite list_lookup_fmap, Ei.
  - apply lookup_ge_None in Ei. by destruct (Nat.leb_spec (length events) i); [|lia].
Qed.

(** C37: inclusion proofs cannot be forged or bent.  If a proof with 32-byte siblings
    verifies an event against the root of [events], and the hash does not map
    a string hashed for the root and a different string hashed by the check to
    one digest, then the event is one of [events] and the proof is the very one
    [prove_inclusion] gives for its index.  Leaf and node prefixes differ, so
    no inner node passes for an event. *)
Theorem inclusion_proofs_sound sha3_256 events e p :
  (forall x, length (sha3_256 x) = 32%nat) ->
  Forall (fun s => length (sibling s) = 32%nat) (steps p) ->
  separates sha3_256 (root_inputs sha3_256 events) (proof_inputs sha3_256 e p) ->
  verify_inclusion sha3_256 (event_root sha3_256 events) e p = true ->
  exists i, events !! i = Some e /\ prove_inclusion sha3_256 events i = Some p.
Proof.
  intros Hlen Hs Hsep Hv. unfold verify_inclusion in Hv. apply bool_decide_eq_true in Hv.
  destruct p as [ss]. cbn [steps] in *. destruct (decide (events = [])) as [->|Hne].
  - exfalso. change (event_root sha3_256 []) with (sha3_256 []) in Hv.
    destruct ss as [|s ss _] using rev_ind.
    + symmetry in Hv. apply Hsep in Hv; [done|by left|by left].
    + destruct (path_last sha3_256 Hlen e ss s) as [Hl Hin]. rewrite Hl in Hv. symmetry in Hv.
      apply Hsep in Hv; [done|by left|done].
  - rewrite event_root_roots in Hv by done.
    destruct (path_unique sha3_256 Hlen e events ss Hne Hs Hsep) as (i & Hi & Hss); [done|].
    exists i. split; [done|]. unfold prove_inclusion. apply lookup_lt_Some in Hi.
    destruct (Nat.leb_spec (length events) i); [lia|]. by rewrite Hss.
Qed.

Lemma inclusion_proofs_sound_witness :
  let events := [[x01]; [x02; x03]; [x04]] in
  exists p, prove_inclusion example_hash events 1 = Some p /\
    exists i, events !! i = Some [x02; x03] /\ prove_inclusion example_hash events i = Some p.
Proof.
  eexists. split; [vm_compute; reflexivity|].
  apply (inclusion_proofs_sound example_hash [[x01]; [x02; x03]; [x04]] [x02; x03]).
  - exact example_hash_length.
  - repeat constructor.
  - apply separates_check. vm_compute. reflexivity.
  - vm_compute. reflexivity.
Defined.

(** The event root commits to the events and their order: two lists of events
    with one root are the same list, of any lengths, unless the hash maps two
    different strings among those hashed for the two roots to one digest. *)
Theorem event_root_binds sha3_256 es es' :
  (forall x, length (sha3_256 x) = 32%nat) ->
  separates sha3_256 (root_inputs sha3_256 es) (root_inputs sha3_256 es') ->
  event_root sha3_256 es = event_root sha3_256 es' -> es = es'.
Proof. intros Hlen. by apply root_unique. Qed.

Lemma event_root_binds_witness :
  let es := [[x01]; [x02]; [x03]] in
  event_root example_hash es <> event_root example_hash [[x01]; [x02]; [x03]; [x03]].
Proof.
  intros es H. apply (event_root_binds example_hash es [[x01]; [x02]; [x03]; [x03]]) in H.
  - discriminate H.
  - exact example_hash_length.
  - apply separates_check. vm_compute. reflexivity.
Defined.

(** The header format is exact.  On inputs a slice can hold,
    [header_from_bytes] returns a header just when the input is the encoding of
    that header, with at most 128 bytes of UTF-8 in the proposer field and at
    most 32 bytes of extra data; so two headers never share their bytes, and
    the block id hashes a string that determines the header. *)
Theorem header_wire bs h :
  len bs <= ISIZE_MAX ->
  header_from_bytes bs = Ok h <-> Header_valid h /\ header_bytes h = bs.
Proof.
  intros Hl. unfold header_from_bytes. split.
  - destruct (Header_decode (Decoder_new bs)) as [[h' d]|] eqn:E; [|done]. intros H.
    apply header_consumed in E as [Hv [Hr ->]]. unfold finish in H. case_in H; [|done].
    cbn in H. injection H as <-. split; [done|]. bool_to_prop. rewrite header_bytes_image.
    rewrite rest_advance in Hr. change (rest (Decoder_new bs)) with bs in Hr.
    unfold advance, Decoder_new in Eb. cbn [pos input] in Eb. rewrite Nat.add_0_l in Eb.
    by rewrite Eb, drop_all, app_nil_r in Hr.
  - intros [Hv <-]. rewrite header_bytes_image in *.
    rewrite (header_hreads h Hv (Decoder_new (header_image h)) []);
      [|split; [cbn; lia|done]|unfold rest; cbn; by rewrite app_nil_r].
    unfold finish. cbn. by rewrite Nat.eqb_refl.
Qed.

Lemma header_wire_witness :
  let z := zeros 32 in
  let h := mkHeader 5 z z z z z [x51; xc3; xa9] 77 [x01] in
  header_from_bytes (header_bytes h) = Ok h.
Proof.
  apply (header_wire (header_bytes (mkHeader 5 (zeros 32) (zeros 32) (zeros 32) (zeros 32) (zeros 32)
    [x51; xc3; xa9] 77 [x01]))).
  - vm_compute. discriminate.
  - split; [|reflexivity]. repeat split; vm_compute; congruence.
Defined.

(** ** Rosters *)

Lemma insert_entry_perm x l : insert_entry x l ≡ₚ x :: l.
Proof.
  induction l as [|y l IH]; cbn; [done|]. destruct (entry_id x <=? entry_id y); [done|].
  rewrite IH. apply Permutation_swap.
Qed.

Lemma sort_by_id_perm es : sort_by_id es ≡ₚ es.
Proof. induction es as [|x es IH]; cbn; [done|]. by rewrite insert_entry_perm, IH. Qed.

Lemma insert_entry_comm x y l :
  entry_id x <> entry_id y -> insert_entry x (insert_entry y l) = insert_entry y (insert_entry x l).
Proof.
  intros Hne. induction l as [|z l IH]; cbn [insert_entry].
  - destruct (Z.leb_spec (entry_id x) (entry_id y)), (Z.leb_spec (entry_id y) (entry_id x)); lia || done.
  - destruct (Z.leb_spec (entry_id y) (entry_id z)) as [Hy|Hy],
      (Z.leb_spec (entry_id x) (entry_id z)) as [Hx|Hx]; cbn [insert_entry];
    destruct (Z.leb_spec (entry_id x) (entry_id y)) as [Hxy|Hxy],
      (Z.leb_spec (entry_id y) (entry_id x)) as [Hyx|Hyx]; try lia; cbn [insert_entry];
    repeat match goal with |- context [?a <=? ?b] => destruct (Z.leb_spec a b); try lia end;
    try done; by rewrite IH.
Qed.

Lemma sort_by_id_unique es es' :
  es ≡ₚ es' -> NoDup (map entry_id es) -> sort_by_id es = sort_by_id es'.
Proof.
  induction 1 as [|x es es' Hp IH|x y es|es es' es'' H1 IH1 H2 IH2]; intros Hnd; [done|..].
  - cbn in Hnd. apply NoDup_cons in Hnd as [_ Hnd].
    change (insert_entry x (sort_by_id es) = insert_entry x (sort_by_id es')). by rewrite IH.
  - cbn in Hnd. apply NoDup_cons in Hnd as [Hnin _]. cbn. apply insert_entry_comm.
    intros Heq. apply Hnin. rewrite <- Heq. left.
  - rewrite IH1 by done. apply IH2. by rewrite <- H1.
Qed.

Definition roster_body : Dec (list byte * Z * list RosterEntry) :=
  let* domain := get_bytes in
  let* epoch := get_u64 in
  let* count := get_u64 in
  let* entries := decode_n (decode RosterEntry_codec) (Z.to_nat count) in
  dret (domain, epoch, entries).

Lemma roster_preimage_reads epoch es :
  u64 epoch -> u64 (len es) -> Forall (valid RosterEntry_codec) es ->
  reads roster_body (roster_preimage epoch es) (ROSTER_DOMAIN, epoch, sort_by_id es).
Proof.
  intros He Hn Hes. unfold roster_preimage, into_bytes. autorewrite with codec.
  rewrite <- !app_assoc. cbn [app buf_new]. rewrite ?app_nil_l.
  eapply reads_bind; [apply reads_get_bytes; vm_compute; split; congruence|].
  eapply reads_bind; [by apply reads_get_u64|].
  assert (Hlen : len (sort_by_id es) = len es) by (unfold len; f_equal; apply Permutation_length, sort_by_id_perm).
  rewrite Hlen. eapply reads_bind; [by apply reads_get_u64|].
  eapply reads_map; [|apply reads_ret]. rewrite <- Hlen. unfold len. rewrite Nat2Z.id.
  apply reads_decode_n. eapply Forall_impl; [|intros r; apply decode_encode].
  eapply Permutation_Forall; [symmetry; apply sort_by_id_perm|done].
Qed.

(** A roster commitment pins down the epoch and the validators, not the order
    they are listed in.  Listing the same entries, with distinct ids, in any
    order gives the same commitment; and equal commitments of two rosters come
    from the same epoch and the same entries, provided the hash tells the two
    preimages apart. *)
Theorem roster_commitment_binds sha3_256 epoch epoch' es es' :
  u64 epoch -> u64 epoch' -> u64 (len es) -> u64 (len es') ->
  Forall (valid RosterEntry_codec) es -> Forall (valid RosterEntry_codec) es' ->
  NoDup (map entry_id es) -> len (roster_preimage epoch es) <= ISIZE_MAX ->
  separates sha3_256 [roster_preimage epoch es] [roster_preimage epoch' es'] ->
  roster_commitment sha3_256 epoch es = roster_commitment sha3_256 epoch' es' <->
  epoch = epoch' /\ es ≡ₚ es'.
Proof.
  intros He He' Hn Hn' Hv Hv' Hnd Hl Hsep. split.
  - intros H. apply Hsep in H; [|by left|by left].
    pose proof (roster_preimage_reads epoch es He Hn Hv) as H1.
    pose proof (roster_preimage_reads epoch' es' He' Hn' Hv') as H2. rewrite <- H in H2.
    pose proof (reads_inj _ _ _ _ Hl H1 H2) as Heq. injection Heq as -> Hsort. split; [done|].
    transitivity (sort_by_id es); [symmetry; apply sort_by_id_perm|].
    rewrite Hsort. apply sort_by_id_perm.
  - intros [-> Hp]. unfold roster_commitment, roster_preimage. by rewrite (sort_by_id_unique es es').
Qed.

Lemma roster_commitment_binds_witness :
  let a := mkRosterEntry 1 10 [x01] (zeros 32) 4 in
  let b := mkRosterEntry 2 20 [x02] (zeros 32) 4 in
  roster_commitment example_hash 9 [b; a] = roster_commitment example_hash 9 [a; b] <->
  9 = 9 /\ [b; a] ≡ₚ [a; b].
Proof.
  apply (roster_commitment_binds example_hash 9 9
    [mkRosterEntry 2 20 [x02] (zeros 32) 4; mkRosterEntry 1 10 [x01] (zeros 32) 4]
    [mkRosterEntry 1 10 [x01] (zeros 32) 4; mkRosterEntry 2 20 [x02] (zeros 32) 4]).
  1-4: split; vm_compute; congruence.
  1-2: repeat constructor; vm_compute; congruence.
  - apply (bool_decide_unpack _). vm_compute. exact I.
  - vm_compute. discriminate.
  - apply separates_check. vm_compute. reflexivity.
Defined.
