(* ===== verification/Keys.v ===== *)
(** * Trie keys (crates/qtv-state/src/lib.rs, the key arithmetic)

    A key is an array of 32 bytes.  The trie walks it bit by bit from the top,
    forms the prefix of a subtree and the last key below it, and ranges over keys
    in their lexicographic order.  [kz] reads a key as a big-endian number of 256
    bits; arrays of one length compare as these numbers do, and every operation
    on the bytes is an arithmetic one on the number. *)

From S2P Require Import Prelude.

Definition KEY_LEN : nat := 32.
Definition DEPTH : nat := Eval cbv in (KEY_LEN * 8)%nat.

Notation Key := (list byte).

(** [key[i]] of an array. *)
Definition key_at (key : Key) (i : nat) : Z := byte_val (nth i key x00).

(** [level >> 3] and [level & 7]. *)
Definition level_byte (level : nat) : nat := (level / 8)%nat.
Definition level_rest (level : nat) : Z := Z.of_nat (level mod 8).

Definition key_bit (key : Key) (level : nat) : Z :=
  Z.land (Z.shiftr (key_at key (level_byte level)) (7 - level_rest level)) 1.

Definition with_bit (key : Key) (level : nat) : Key :=
  let byte := level_byte level in
  <[byte := byte_of (Z.lor (key_at key byte) (Z.shiftl 1 (7 - level_rest level)))]> key.

(** [out[byte] &= !(255 >> (level & 7))] and zeros after it. *)
Definition prefix_at (key : Key) (level : nat) : Key :=
  let byte := level_byte level in
  if (byte <? KEY_LEN)%nat then
    take byte key ++
    [byte_of (Z.land (key_at key byte) (255 - Z.shiftr 255 (level_rest level)))] ++
    replicate (KEY_LEN - byte - 1) x00
  else key.

Definition subtree_end (prefix : Key) (level : nat) : Key :=
  let byte := level_byte level in
  if (KEY_LEN <=? byte)%nat then prefix
  else
    take byte prefix ++
    [byte_of (Z.lor (key_at prefix byte) (Z.shiftr 255 (level_rest level)))] ++
    replicate (KEY_LEN - byte - 1) xff.

(** [sibling[level >> 3] ^= 1 << (7 - (level & 7))]. *)
Definition flip_bit (key : Key) (level : nat) : Key :=
  let byte := level_byte level in
  <[byte := byte_of (Z.lxor (key_at key byte) (Z.shiftl 1 (7 - level_rest level)))]> key.

(** ** Keys as numbers *)

Definition kz (key : Key) : Z := from_be key.
Definition key_of (z : Z) : Key := to_be KEY_LEN z.
Definition key_ok (key : Key) : Prop := length key = KEY_LEN.

(** [Ord] on arrays of one length. *)
Definition key_lt (a b : Key) : bool := kz a <? kz b.
Definition key_le (a b : Key) : bool := kz a <=? kz b.

Lemma from_be_app a b : from_be (a ++ b) = from_be a * 256 ^ len b + from_be b.
Proof.
  unfold from_be. rewrite rev_app_distr. generalize (rev a). intros a'.
  unfold len. rewrite <- (length_rev b). generalize (rev b). intros b'.
  induction b' as [|x b' IH]; cbn [app from_le length]; [cbn; lia|].
  rewrite IH, Nat2Z.inj_succ, Z.pow_succ_r by lia. ring.
Qed.

Lemma from_be_single x : from_be [x] = byte_val x.
Proof. unfold from_be. cbn. lia. Qed.

Lemma from_be_range bs : 0 <= from_be bs < 256 ^ len bs.
Proof. unfold from_be, len. rewrite <- (length_rev bs). apply from_le_range. Qed.

Lemma from_be_zeros n : from_be (replicate n x00) = 0.
Proof.
  induction n as [|n IH]; [done|]. rewrite replicate_S_end, from_be_app, IH, from_be_single. done.
Qed.

Lemma from_be_ones n : from_be (replicate n xff) = 256 ^ Z.of_nat n - 1.
Proof.
  induction n as [|n IH]; [done|]. rewrite replicate_S_end, from_be_app, IH, from_be_single.
  rewrite Nat2Z.inj_succ, Z.pow_succ_r by lia. change (len [xff]) with 1. cbn. lia.
Qed.

Lemma kz_range k : key_ok k -> 0 <= kz k < 2 ^ 256.
Proof. intros H. pose proof (from_be_range k) as Hr. unfold len in Hr. rewrite H in Hr. exact Hr. Qed.

Lemma length_key_of z : key_ok (key_of z).
Proof. unfold key_ok, key_of, to_be. by rewrite length_rev, length_to_le. Qed.

Lemma kz_of z : 0 <= z < 2 ^ 256 -> kz (key_of z) = z.
Proof. intros H. unfold kz, key_of, from_be, to_be. rewrite rev_involutive. by apply from_to_le. Qed.

Lemma key_of_kz k : key_ok k -> key_of (kz k) = k.
Proof.
  intros H. unfold kz, key_of, from_be, to_be.
  rewrite to_from_le_n by (by rewrite length_rev). apply rev_involutive.
Qed.

Lemma kz_inj a b : key_ok a -> key_ok b -> kz a = kz b -> a = b.
Proof. intros Ha Hb H. by rewrite <- (key_of_kz a Ha), <- (key_of_kz b Hb), H. Qed.

(** A key cut at one byte. *)
Lemma kz_split k i :
  key_ok k -> (i < KEY_LEN)%nat ->
  let w := 8 * Z.of_nat (KEY_LEN - i - 1) in
  let hi := from_be (take i k) in
  let lo := from_be (drop (S i) k) in
  kz k = hi * 2 ^ (w + 8) + key_at k i * 2 ^ w + lo /\ 0 <= lo < 2 ^ w /\ 0 <= hi /\
  forall x, kz (take i k ++ [x] ++ drop (S i) k) = hi * 2 ^ (w + 8) + byte_val x * 2 ^ w + lo.
Proof.
  intros Hk Hi. cbn zeta. unfold key_ok in Hk.
  assert (Hw : 256 ^ Z.of_nat (KEY_LEN - i - 1) = 2 ^ (8 * Z.of_nat (KEY_LEN - i - 1))).
  { rewrite Z.pow_mul_r by lia. done. }
  assert (Hlen : len (drop (S i) k) = Z.of_nat (KEY_LEN - i - 1)).
  { unfold len. rewrite length_drop, Hk. lia. }
  assert (Hgen : forall x, kz (take i k ++ [x] ++ drop (S i) k) =
    from_be (take i k) * 2 ^ (8 * Z.of_nat (KEY_LEN - i - 1) + 8) +
    byte_val x * 2 ^ (8 * Z.of_nat (KEY_LEN - i - 1)) + from_be (drop (S i) k)).
  { intros x. unfold kz. rewrite from_be_app, from_be_app, from_be_single.
    assert (Hl2 : len ([x] ++ drop (S i) k) = len (drop (S i) k) + 1)
      by (unfold len; rewrite length_app; cbn; lia).
    rewrite Hl2, Hlen, Z.pow_add_r, Z.pow_add_r, Hw by lia. change (256 ^ 1) with (2 ^ 8). ring. }
  split_and!; [|..|exact Hgen].
  - unfold key_at. rewrite <- Hgen. f_equal. rewrite <- (take_drop i k) at 1. f_equal.
    rewrite (drop_S k (nth i k x00) i); [done|].
    destruct (nth_lookup_or_length k i x00) as [H|H]; [done|lia].
  - pose proof (from_be_range (drop (S i) k)) as Hr. rewrite Hlen, Hw in Hr. lia.
  - pose proof (from_be_range (drop (S i) k)) as Hr. rewrite Hlen, Hw in Hr. lia.
  - pose proof (from_be_range (take i k)). lia.
Qed.

(** ** The operations as arithmetic *)

(** A statement on a byte and a position in it, checked on all of them. *)
Lemma byte_cases (P : Z -> Z -> bool) :
  forallb (fun b => forallb (fun j => P (Z.of_nat b) (Z.of_nat j)) (seq 0 8)) (seq 0 256) = true ->
  forall b j, 0 <= b < 256 -> 0 <= j < 8 -> P b j = true.
Proof.
  intros H b j Hb Hj. rewrite forallb_forall in H.
  specialize (H (Z.to_nat b) ltac:(apply in_seq; lia)). rewrite forallb_forall in H.
  specialize (H (Z.to_nat j) ltac:(apply in_seq; lia)). by rewrite !Z2Nat.id in H by lia.
Qed.

Lemma byte_and b j : 0 <= b < 256 -> 0 <= j < 8 ->
  Z.land b (255 - Z.shiftr 255 j) = b - b mod 2 ^ (8 - j).
Proof.
  intros Hb Hj. apply Z.eqb_eq.
  by apply (byte_cases (fun b j => Z.land b (255 - Z.shiftr 255 j) =? b - b mod 2 ^ (8 - j))).
Qed.

Lemma byte_or_ones b j : 0 <= b < 256 -> 0 <= j < 8 -> b mod 2 ^ (8 - j) = 0 ->
  Z.lor b (Z.shiftr 255 j) = b + 2 ^ (8 - j) - 1 /\ b + 2 ^ (8 - j) - 1 < 256.
Proof.
  intros Hb Hj Hm.
  pose proof (byte_cases (fun b j => negb (b mod 2 ^ (8 - j) =? 0) ||
    ((Z.lor b (Z.shiftr 255 j) =? b + 2 ^ (8 - j) - 1) && (b + 2 ^ (8 - j) - 1 <? 256)))
    eq_refl b j Hb Hj) as H. cbn beta in H. rewrite Hm in H. cbn [Z.eqb negb orb] in H.
  by bool_to_prop.
Qed.

Lemma byte_or_bit b t : 0 <= b < 256 -> 0 <= t < 8 -> Z.testbit b t = false ->
  Z.lor b (Z.shiftl 1 t) = b + 2 ^ t /\ b + 2 ^ t < 256.
Proof.
  intros Hb Ht Hm.
  pose proof (byte_cases (fun b t => Z.testbit b t ||
    ((Z.lor b (Z.shiftl 1 t) =? b + 2 ^ t) && (b + 2 ^ t <? 256))) eq_refl b t Hb Ht) as H.
  cbn beta in H. rewrite Hm in H. cbn [orb] in H. by bool_to_prop.
Qed.

Lemma byte_xor_bit b t : 0 <= b < 256 -> 0 <= t < 8 ->
  Z.lxor b (Z.shiftl 1 t) = (if Z.testbit b t then b - 2 ^ t else b + 2 ^ t) /\
  0 <= Z.lxor b (Z.shiftl 1 t) < 256.
Proof.
  intros Hb Ht.
  pose proof (byte_cases (fun b t =>
    (Z.lxor b (Z.shiftl 1 t) =? (if Z.testbit b t then b - 2 ^ t else b + 2 ^ t)) &&
    (0 <=? Z.lxor b (Z.shiftl 1 t)) && (Z.lxor b (Z.shiftl 1 t) <? 256)) eq_refl b t Hb Ht) as H.
  cbn beta in H. by bool_to_prop.
Qed.

Lemma key_at_range k i : 0 <= key_at k i < 256.
Proof. apply byte_val_range. Qed.

(** The weights of a level: byte [i], [8 - j] bits of it below, [w] bits after it. *)
Lemma level_split level :
  (level < DEPTH)%nat ->
  let i := level_byte level in
  let j := level_rest level in
  let w := 8 * Z.of_nat (KEY_LEN - i - 1) in
  (i < KEY_LEN)%nat /\ 0 <= j < 8 /\ 0 <= w /\ 256 - Z.of_nat level = w + (8 - j).
Proof.
  unfold level_byte, level_rest, DEPTH, KEY_LEN. intros H.
  pose proof (Nat.div_mod level 8 ltac:(lia)). pose proof (Nat.mod_upper_bound level 8 ltac:(lia)).
  assert (level / 8 < 32)%nat by (apply Nat.Div0.div_lt_upper_bound; lia).
  cbn zeta. split_and!; lia.
Qed.

Lemma testbit_byte hi b w lo t :
  0 <= w -> 0 <= lo < 2 ^ w -> 0 <= b < 256 -> 0 <= t < 8 ->
  Z.testbit (hi * 2 ^ (w + 8) + b * 2 ^ w + lo) (w + t) = Z.testbit b t.
Proof.
  intros Hw Hlo Hb Ht. rewrite (Z.add_comm w t), <- Z.div_pow2_bits by lia.
  replace ((hi * 2 ^ (w + 8) + b * 2 ^ w + lo) / 2 ^ w) with (hi * 2 ^ 8 + b).
  - rewrite <- (Z.mod_pow2_bits_low (hi * 2 ^ 8 + b) 8 t) by lia.
    rewrite Z.add_comm, Z.mod_add by lia. by rewrite Z.mod_small.
  - rewrite Z.pow_add_r by lia.
    replace (hi * (2 ^ w * 2 ^ 8) + b * 2 ^ w + lo) with (lo + (hi * 2 ^ 8 + b) * 2 ^ w) by ring.
    rewrite Z.div_add by lia. rewrite Z.div_small by done. lia.
Qed.

Lemma key_bit_kz k level :
  key_ok k -> (level < DEPTH)%nat -> key_bit k level = Z.b2z (Z.testbit (kz k) (255 - Z.of_nat level)).
Proof.
  intros Hk Hl. destruct (level_split level Hl) as (Hi & Hj & Hw & Hs).
  destruct (kz_split k (level_byte level) Hk Hi) as (-> & Hlo & Hhi & _).
  replace (255 - Z.of_nat level) with
    (8 * Z.of_nat (KEY_LEN - level_byte level - 1) + (7 - level_rest level)) by lia.
  rewrite testbit_byte by (done || apply key_at_range || lia).
  unfold key_bit. change 1 with (Z.ones 1) at 1. rewrite Z.land_ones by lia.
  rewrite <- Z.bit0_mod, Z.shiftr_spec by lia. done.
Qed.

(** Replacing one byte. *)
Lemma kz_replace k i x :
  key_ok k -> (i < KEY_LEN)%nat -> 0 <= x < 256 ->
  key_ok (<[i := byte_of x]> k) /\
  kz (<[i := byte_of x]> k) =
    kz k + (x - key_at k i) * 2 ^ (8 * Z.of_nat (KEY_LEN - i - 1)).
Proof.
  intros Hk Hi Hx. destruct (kz_split k i Hk Hi) as (He & _ & _ & Hg).
  split; [unfold key_ok; by rewrite length_insert|].
  rewrite insert_take_drop by (rewrite Hk; done).
  change (take i k ++ byte_of x :: drop (S i) k) with (take i k ++ [byte_of x] ++ drop (S i) k).
  rewrite Hg, byte_val_of, (Z.mod_small x) by done. rewrite He. ring.
Qed.

Lemma testbit_kz_byte k level :
  key_ok k -> (level < DEPTH)%nat ->
  Z.testbit (kz k) (255 - Z.of_nat level) =
  Z.testbit (key_at k (level_byte level)) (7 - level_rest level).
Proof.
  intros Hk Hl. destruct (level_split level Hl) as (Hi & Hj & Hw & Hs).
  destruct (kz_split k (level_byte level) Hk Hi) as (-> & Hlo & Hhi & _).
  replace (255 - Z.of_nat level) with
    (8 * Z.of_nat (KEY_LEN - level_byte level - 1) + (7 - level_rest level)) by lia.
  by rewrite testbit_byte by (done || apply key_at_range || lia).
Qed.

Lemma with_bit_kz k level :
  key_ok k -> (level < DEPTH)%nat -> Z.testbit (kz k) (255 - Z.of_nat level) = false ->
  key_ok (with_bit k level) /\ kz (with_bit k level) = kz k + 2 ^ (255 - Z.of_nat level).
Proof.
  intros Hk Hl Hb. destruct (level_split level Hl) as (Hi & Hj & Hw & Hs).
  rewrite testbit_kz_byte in Hb by done.
  destruct (byte_or_bit (key_at k (level_byte level)) (7 - level_rest level)
    (key_at_range _ _) ltac:(lia) Hb) as [Hor Hlt].
  pose proof (key_at_range k (level_byte level)).
  unfold with_bit. rewrite Hor.
  destruct (kz_replace k (level_byte level) (key_at k (level_byte level) + 2 ^ (7 - level_rest level)))
    as [Hok ->]; [done|done| |]; [pose proof (Z.pow_pos_nonneg 2 (7 - level_rest level)); lia|].
  split; [done|].
  replace (255 - Z.of_nat level) with
    (8 * Z.of_nat (KEY_LEN - level_byte level - 1) + (7 - level_rest level)) by lia.
  rewrite Z.pow_add_r by lia. ring.
Qed.

Lemma flip_bit_kz k level :
  key_ok k -> (level < DEPTH)%nat ->
  key_ok (flip_bit k level) /\
  kz (flip_bit k level) = (if Z.testbit (kz k) (255 - Z.of_nat level)
    then kz k - 2 ^ (255 - Z.of_nat level) else kz k + 2 ^ (255 - Z.of_nat level)).
Proof.
  intros Hk Hl. destruct (level_split level Hl) as (Hi & Hj & Hw & Hs).
  rewrite testbit_kz_byte by done.
  destruct (byte_xor_bit (key_at k (level_byte level)) (7 - level_rest level)
    (key_at_range _ _) ltac:(lia)) as [Hx Hr].
  unfold flip_bit.
  destruct (kz_replace k (level_byte level) (Z.lxor (key_at k (level_byte level))
    (Z.shiftl 1 (7 - level_rest level)))) as [Hok ->]; [done..|].
  split; [done|]. rewrite Hx.
  replace (255 - Z.of_nat level) with
    (8 * Z.of_nat (KEY_LEN - level_byte level - 1) + (7 - level_rest level)) by lia.
  rewrite Z.pow_add_r by lia. destruct (Z.testbit _ _); ring.
Qed.

(** A head, one byte and a constant tail. *)
Lemma kz_tail k i x tail :
  key_ok k -> (i < KEY_LEN)%nat -> 0 <= x < 256 -> length tail = (KEY_LEN - i - 1)%nat ->
  key_ok (take i k ++ [byte_of x] ++ tail) /\
  kz (take i k ++ [byte_of x] ++ tail) =
    kz k + (x - key_at k i) * 2 ^ (8 * Z.of_nat (KEY_LEN - i - 1)) -
    from_be (drop (S i) k) + from_be tail.
Proof.
  intros Hk Hi Hx Ht. destruct (kz_split k i Hk Hi) as (He & _ & _ & _).
  split; [unfold key_ok in *; rewrite !length_app, length_take; cbn; lia|].
  unfold kz at 1. rewrite from_be_app, from_be_app, from_be_single, byte_val_of, Z.mod_small by done.
  assert (Hl : len ([byte_of x] ++ tail) = len tail + 1) by (unfold len; rewrite length_app; cbn; lia).
  assert (Hw : 256 ^ len tail = 2 ^ (8 * Z.of_nat (KEY_LEN - i - 1))).
  { unfold len. rewrite Ht, Z.pow_mul_r by lia. done. }
  rewrite Hl, Z.pow_add_r, Hw by (unfold len; lia). rewrite He, Z.pow_add_r by lia.
  change (256 ^ 1) with (2 ^ 8). ring.
Qed.

(** The part of a key below a level. *)
Lemma kz_mod k level :
  key_ok k -> (level < DEPTH)%nat ->
  kz k mod 2 ^ (256 - Z.of_nat level) =
  (key_at k (level_byte level) mod 2 ^ (8 - level_rest level)) *
    2 ^ (8 * Z.of_nat (KEY_LEN - level_byte level - 1)) + from_be (drop (S (level_byte level)) k).
Proof.
  intros Hk Hl. destruct (level_split level Hl) as (Hi & Hj & Hw & Hs).
  destruct (kz_split k (level_byte level) Hk Hi) as (-> & Hlo & Hhi & _).
  set (w := 8 * Z.of_nat (KEY_LEN - level_byte level - 1)) in *.
  set (b := key_at k (level_byte level)). set (lo := from_be (drop _ k)) in *.
  set (hi := from_be (take _ k)) in *. set (j := level_rest level) in *.
  rewrite Hs. symmetry.
  pose proof (Z.mod_pos_bound b (2 ^ (8 - j)) ltac:(apply Z.pow_pos_nonneg; lia)) as Hm.
  apply (Z.mod_unique_pos _ _ (hi * 2 ^ j + b / 2 ^ (8 - j))).
  - rewrite Z.pow_add_r by lia. split; [nia|].
    assert ((b mod 2 ^ (8 - j) + 1) * 2 ^ w <= 2 ^ (8 - j) * 2 ^ w) by (apply Z.mul_le_mono_nonneg_r; lia).
    lia.
  - rewrite (Z.div_mod b (2 ^ (8 - j))) at 1 by (apply Z.pow_nonzero; lia).
    replace (w + 8) with (w + (8 - j) + j) by lia. rewrite !Z.pow_add_r by lia. ring.
Qed.

Lemma prefix_at_kz k level :
  key_ok k -> (level <= DEPTH)%nat ->
  key_ok (prefix_at k level) /\
  kz (prefix_at k level) = kz k - kz k mod 2 ^ (256 - Z.of_nat level).
Proof.
  intros Hk Hl. destruct (decide (level = DEPTH)) as [->|Hne].
  { split; [done|]. change (256 - Z.of_nat DEPTH) with 0. rewrite Z.mod_1_r.
    change (prefix_at k DEPTH) with k. lia. }
  assert (Hlt : (level < DEPTH)%nat) by lia.
  destruct (level_split level Hlt) as (Hi & Hj & Hw & Hs).
  unfold prefix_at. destruct (Nat.ltb_spec (level_byte level) KEY_LEN); [|lia].
  pose proof (key_at_range k (level_byte level)) as Hb.
  rewrite byte_and by done.
  pose proof (Z.mod_pos_bound (key_at k (level_byte level)) (2 ^ (8 - level_rest level))
    ltac:(apply Z.pow_pos_nonneg; lia)) as Hm.
  pose proof (Z.mod_le (key_at k (level_byte level)) (2 ^ (8 - level_rest level))
    ltac:(lia) ltac:(apply Z.pow_pos_nonneg; lia)) as Hml.
  destruct (kz_tail k (level_byte level)
    (key_at k (level_byte level) - key_at k (level_byte level) mod 2 ^ (8 - level_rest level))
    (replicate (KEY_LEN - level_byte level - 1) x00)) as [Hok ->];
    [done|done|lia|by rewrite length_replicate|].
  split; [done|]. rewrite from_be_zeros, kz_mod by done. ring.
Qed.

Lemma subtree_end_kz p level :
  key_ok p -> (level <= DEPTH)%nat -> kz p mod 2 ^ (256 - Z.of_nat level) = 0 ->
  kz (subtree_end p level) = kz p + 2 ^ (256 - Z.of_nat level) - 1.
Proof.
  intros Hk Hl Ha. destruct (decide (level = DEPTH)) as [->|Hne].
  { change (subtree_end p DEPTH) with p. change (2 ^ (256 - Z.of_nat DEPTH)) with 1. lia. }
  assert (Hlt : (level < DEPTH)%nat) by lia.
  destruct (level_split level Hlt) as (Hi & Hj & Hw & Hs).
  unfold subtree_end. destruct (Nat.leb_spec KEY_LEN (level_byte level)); [lia|].
  rewrite kz_mod in Ha by done.
  pose proof (key_at_range p (level_byte level)) as Hb.
  pose proof (Z.mod_pos_bound (key_at p (level_byte level)) (2 ^ (8 - level_rest level))
    ltac:(apply Z.pow_pos_nonneg; lia)) as Hm.
  pose proof (from_be_range (drop (S (level_byte level)) p)) as Hlo.
  pose proof (Z.pow_pos_nonneg 2 (8 * Z.of_nat (KEY_LEN - level_byte level - 1))).
  assert (Hb0 : key_at p (level_byte level) mod 2 ^ (8 - level_rest level) = 0) by nia.
  assert (Hl0 : from_be (drop (S (level_byte level)) p) = 0) by nia.
  destruct (byte_or_ones _ _ Hb Hj Hb0) as [-> Hlt256].
  pose proof (Z.pow_pos_nonneg 2 (8 - level_rest level)).
  destruct (kz_tail p (level_byte level) (key_at p (level_byte level) + 2 ^ (8 - level_rest level) - 1)
    (replicate (KEY_LEN - level_byte level - 1) xff)) as [_ ->];
    [done|done|lia|by rewrite length_replicate|].
  rewrite from_be_ones, Hl0, Hs, Z.pow_add_r by lia.
  replace (256 ^ Z.of_nat (KEY_LEN - level_byte level - 1))
    with (2 ^ (8 * Z.of_nat (KEY_LEN - level_byte level - 1))) by (rewrite Z.pow_mul_r by lia; done).
  ring.
Qed.
