(* ===== verification/Trie.v ===== *)
(** * The state trie (crates/qtv-state)

    A sparse Merkle tree of depth 256 over the leaves of the chain state.  The
    code never builds the tree: it keeps the leaves in an ordered map, the
    hashes of the subtrees with two or more leaves in a node cache, and
    recomputes along the changed keys only.  Base maps may be shared with
    clones, in which case changes go to a delta; whether a base is shared is an
    input ([unique]) of the operations that look.  The memo of single-leaf
    hashes is a process-wide cache that is passed along; where two threads share it
    the left one goes first, and since it only ever saves work the order has no
    part in the answers.  SHA3-256 is the parameter [sha3_256]. *)

From stdpp Require Import sorting.
From S2P Require Import Prelude Codec Keys.

Notation Hash := (list byte).

Definition HASH_LEN : nat := 32.
Definition DEFAULT_LEAF : Hash := zeros HASH_LEN.
Definition LEAF_DOMAIN : byte := x00.
Definition NODE_DOMAIN : byte := x01.
Definition FOLD_FLOOR : nat := 4096.
Definition ANCHOR_LEVEL : nat := 64.
Definition ANCHOR_GENERATION : Z := 262144.
Definition PARALLEL_LEVELS : nat := 4.
Definition PARALLEL_MIN_CHANGED : nat := 32.

(** ** Leaves: a base map under a delta *)

Record Leaves : Type := mkLeaves {
  base : gmap Key (list byte);
  delta : gmap Key (option (list byte))
}.

Definition Leaves_get (l : Leaves) (key : Key) : option (list byte) :=
  match delta l !! key with Some entry => entry | None => base l !! key end.

Definition contains_key (l : Leaves) (key : Key) : bool := bool_decide (is_Some (Leaves_get l key)).

(** The order of a [BTreeMap]'s entries. *)
Definition entry_le {A} (a b : Key * A) : Prop := kz a.1 <= kz b.1.

#[global] Instance entry_le_dec {A} (a b : Key * A) : Decision (entry_le a b).
Proof. apply Z_le_dec. Defined.

(** [BTreeMap::range(lo..=hi)], in key order. *)
Definition range_of {A} (m : gmap Key A) (lo hi : Key) : list (Key * A) :=
  merge_sort entry_le
    (filter (fun e => key_le lo e.1 && key_le e.1 hi = true) (map_to_list m)).

(** What the [LeafRange] iterator yields; each round drops at least one element. *)
Fixpoint leaf_merge (fuel : nat) (bs : list (Key * list byte)) (ds : list (Key * option (list byte)))
  : list (Key * list byte) :=
  match fuel with
  | O => []
  | S fuel =>
      match bs, ds with
      | [], [] => []
      | b :: bs', [] => b :: leaf_merge fuel bs' ds
      | [], (k, Some v) :: ds' => (k, v) :: leaf_merge fuel bs ds'
      | [], (k, None) :: ds' => leaf_merge fuel bs ds'
      | b :: bs', (k, e) :: ds' =>
          if bool_decide (k = b.1) then
            match e with
            | Some v => (k, v) :: leaf_merge fuel bs' ds'
            | None => leaf_merge fuel bs' ds'
            end
          else if key_lt k b.1 then
            match e with
            | Some v => (k, v) :: leaf_merge fuel bs ds'
            | None => leaf_merge fuel bs ds'
            end
          else b :: leaf_merge fuel bs' ds
      end
  end.

Definition Leaves_range (l : Leaves) (lo hi : Key) : list (Key * list byte) :=
  let bs := range_of (base l) lo hi in
  let ds := range_of (delta l) lo hi in
  leaf_merge (length bs + length ds) bs ds.

(** ** Nodes: a cache under a delta *)

Definition NodeId : Type := (nat * Key)%type.

Record Nodes : Type := mkNodes {
  node_base : gmap NodeId Hash;
  node_delta : gmap NodeId (option Hash)
}.

Definition Nodes_get (n : Nodes) (id : NodeId) : option Hash :=
  match node_delta n !! id with Some entry => entry | None => node_base n !! id end.

(** One change of a map: [insert] or [remove]. *)
Definition change {K A} `{Countable K} (m : gmap K A) (u : K * option A) : gmap K A :=
  match u.2 with Some v => <[u.1 := v]> m | None => delete u.1 m end.

(** [fold_into] and [fold_nodes]: fold the delta into the base, unless it is empty or
    the base is shared and the delta still small. *)
Definition fold_delta {K A} `{Countable K} (unique : bool) (b : gmap K A) (d : gmap K (option A))
  : gmap K A * gmap K (option A) :=
  if bool_decide (d = ∅) then (b, d)
  else if negb unique && (size d <=? size b / 8 + FOLD_FLOOR)%nat then (b, d)
  else (foldr (fun u m => change m u) b (map_to_list d), ∅).

Record Anchors : Type := mkAnchors {
  current : gmap Key (Hash * Hash);
  previous : gmap Key (Hash * Hash)
}.

Definition NodeUpdate : Type := (NodeId * option Hash)%type.

(** ** Proofs *)

Record Proof_ : Type := mkTrieProof { proof_value : option (list byte); siblings : list Hash }.

Definition get_hash : Dec Hash :=
  let* bytes := decode_n get_u8 HASH_LEN in
  dret (map byte_of bytes).

Definition Proof_encode (p : Proof_) (e : Encoder) : Encoder :=
  let e := e |> encode (option_codec vec_u8_codec) (proof_value p) |> put_u32 (len (siblings p)) in
  foldl (fun e s => foldl (fun e b => put_u8 (byte_val b) e) e s) e (siblings p).

Definition Proof_decode : Dec Proof_ :=
  let* v := decode (option_codec vec_u8_codec) in
  let* count := get_u32 in
  if negb (count =? Z.of_nat DEPTH) then dfail (LengthOverrun count (Z.of_nat DEPTH))
  else
    let* ss := decode_n get_hash DEPTH in
    dret (mkTrieProof v ss).

Definition Proof_codec : Codec Proof_ :=
  mkCodec Proof_ Proof_encode Proof_decode
    (fun p => valid (option_codec vec_u8_codec) (proof_value p) /\ length (siblings p) = DEPTH /\
              Forall (fun s => length s = HASH_LEN) (siblings p)).

(** ** Hashing *)

Section Hashing.
Variable sha3_256 : list byte -> Hash.

Definition state_leaf_hash (value : list byte) : Hash := sha3_256 (LEAF_DOMAIN :: value).

Definition node_hash (left_ right_ : Hash) : Hash := sha3_256 (NODE_DOMAIN :: left_ ++ right_).

(** The loop from the bottom level up, the finished levels in front. *)
Fixpoint defaults_from (n : nat) : list Hash :=
  match n with
  | O => [DEFAULT_LEAF]
  | S n =>
      let below := defaults_from n in
      let h := nth 0 below [] in
      node_hash h h :: below
  end.

Definition default_hashes : list Hash := defaults_from DEPTH.

(** [defaults[level]]. *)
Definition default_at (defaults : list Hash) (level : nat) : Hash := nth level defaults [].

(** [count] rounds of the loop of [chain_between], down from [level]. *)
Fixpoint chain_loop (count : nat) (defaults : list Hash) (key : Key) (hash : Hash) (level : nat) : Hash :=
  match count with
  | O => hash
  | S count =>
      let level' := (level - 1)%nat in
      let default := default_at defaults (level' + 1) in
      let hash := if key_bit key level' =? 0 then node_hash hash default else node_hash default hash in
      chain_loop count defaults key hash level'
  end.

Definition chain_between (defaults : list Hash) (key : Key) (start : Hash) (start_level from_level : nat)
  : Hash := chain_loop (start_level - from_level) defaults key start start_level.

Definition chain_hash (defaults : list Hash) (key : Key) (leaf : Hash) (from_level : nat) : Hash :=
  chain_between defaults key leaf DEPTH from_level.

(** The memoized anchor of a key, if it was stored for this leaf hash. *)
Definition known_anchor (memo : Anchors) (key : Key) (leaf : Hash) : option Hash :=
  let found := match current memo !! key with Some e => Some e | None => previous memo !! key end in
  match found with
  | Some (stored_leaf, anchor) => if bool_decide (stored_leaf = leaf) then Some anchor else None
  | None => None
  end.

Definition remember (memo : Anchors) (key : Key) (leaf anchor : Hash) : Anchors :=
  let memo := if ANCHOR_GENERATION <=? Z.of_nat (size (current memo))
    then mkAnchors ∅ (current memo) else memo in
  mkAnchors (<[key := (leaf, anchor)]> (current memo)) (previous memo).

Definition single_leaf_hash (defaults : list Hash) (key : Key) (value : list byte) (level : nat)
  (memo : Anchors) : Hash * Anchors :=
  let leaf := state_leaf_hash value in
  if (ANCHOR_LEVEL <? level)%nat then (chain_hash defaults key leaf level, memo)
  else
    let '(anchor, memo) := match known_anchor memo key leaf with
      | Some anchor => (anchor, memo)
      | None =>
          let anchor := chain_hash defaults key leaf ANCHOR_LEVEL in
          (anchor, remember memo key leaf anchor)
      end in
    (chain_between defaults key anchor ANCHOR_LEVEL level, memo).

(** The level of a subtree of height [n]. *)
Definition level_of (n : nat) : nat := (DEPTH - n)%nat.

Fixpoint cached_subtree (leaves : Leaves) (defaults : list Hash) (nodes : Nodes) (n : nat)
  (prefix : Key) (memo : Anchors) : Hash * Anchors :=
  match n with
  | O => (match Leaves_get leaves prefix with
          | Some value => state_leaf_hash value
          | None => default_at defaults DEPTH
          end, memo)
  | S m =>
      let level := level_of n in
      match Nodes_get nodes (level, prefix) with
      | Some hash => (hash, memo)
      | None =>
          match Leaves_range leaves prefix (subtree_end prefix level) with
          | [] => (default_at defaults level, memo)
          | [(key, value)] => single_leaf_hash defaults key value level memo
          | _ =>
              let '(l, memo) := cached_subtree leaves defaults nodes m prefix memo in
              let '(r, memo) := cached_subtree leaves defaults nodes m (with_bit prefix level) memo in
              (node_hash l r, memo)
          end
      end
  end.

(** The [expect] of the cached node is a panic. *)
Definition clean_hash (leaves : Leaves) (defaults : list Hash) (nodes : Nodes) (level : nat)
  (prefix : Key) (memo : Anchors) : outcome (Hash * Anchors) :=
  match Leaves_range leaves prefix (subtree_end prefix level) with
  | [] => Done (default_at defaults level, memo)
  | [(key, value)] => Done (single_leaf_hash defaults key value level memo)
  | _ => match Nodes_get nodes (level, prefix) with
      | Some hash => Done (hash, memo)
      | None => Panic
      end
  end.

(** The number of leading keys whose bit at [level] is zero. *)
Fixpoint partition_point (level : nat) (keys : list Key) : nat :=
  match keys with
  | [] => 0
  | k :: keys => if key_bit k level =? 0 then S (partition_point level keys) else 0
  end.

(** The ids dropped on the path of [key], for [below in level..DEPTH]. *)
Definition path_removals (nodes : Nodes) (level : nat) (key : Key) : list NodeUpdate :=
  map (fun id => (id, None))
    (filter (fun id => is_Some (Nodes_get nodes id))
      (map (fun below => (below, prefix_at key below)) (seq level (DEPTH - level)))).

Definition Rec : Type := Key -> list Key -> list NodeUpdate -> Anchors ->
  outcome (Hash * list NodeUpdate * Anchors).

(** [side], with [recompute] one level down as an argument. *)
Definition side (leaves : Leaves) (defaults : list Hash) (nodes : Nodes) (level : nat)
  (recompute : Rec) : Rec := fun prefix changed updates memo =>
  match changed with
  | [] => obind (clean_hash leaves defaults nodes level prefix memo)
            (fun '(h, memo) => Done (h, updates, memo))
  | _ => recompute prefix changed updates memo
  end.

(** The leaves below a prefix when one key changed and at most one leaf is there. *)
Definition lone_change (leaves : Leaves) (level : nat) (prefix : Key) (changed : list Key)
  : option (Key * list (Key * list byte)) :=
  match changed with
  | [key] =>
      let found := Leaves_range leaves prefix (subtree_end prefix level) in
      if (length found <=? 1)%nat then Some (key, found) else None
  | _ => None
  end.

(** In the parallel branch the right side collects its updates in a list of its own,
    which is appended to those of the left. *)
Fixpoint recompute (leaves : Leaves) (defaults : list Hash) (nodes : Nodes) (n : nat) : Rec :=
  fun prefix changed updates memo =>
  match n with
  | O => Done (match Leaves_get leaves prefix with
               | Some value => state_leaf_hash value
               | None => default_at defaults DEPTH
               end, updates, memo)
  | S m =>
      let level := level_of n in
      match lone_change leaves level prefix changed with
      | Some (key, found) =>
          let updates := updates ++ path_removals nodes level key in
          match found with
          | (leaf_key, value) :: _ =>
              let '(h, memo) := single_leaf_hash defaults leaf_key value level memo in
              Done (h, updates, memo)
          | [] => Done (default_at defaults level, updates, memo)
          end
      | None =>
          let split := partition_point level changed in
          let changed_left := take split changed in
          let changed_right := drop split changed in
          let parallel := (level <? PARALLEL_LEVELS)%nat &&
            (PARALLEL_MIN_CHANGED <=? length changed)%nat &&
            negb (bool_decide (changed_left = [])) && negb (bool_decide (changed_right = [])) in
          let down := side leaves defaults nodes (level + 1) (recompute leaves defaults nodes m) in
          obind (down prefix changed_left updates memo) (fun '(l, updates, memo) =>
          obind (down (with_bit prefix level) changed_right (if parallel then [] else updates) memo)
            (fun '(r, right_updates, memo) =>
          let updates := if parallel then updates ++ right_updates else right_updates in
          let hash := node_hash l r in
          let branch := (2 <=? length (Leaves_range leaves prefix (subtree_end prefix level)))%nat in
          let id := (level, prefix) in
          let updates :=
            if branch then updates ++ [(id, Some hash)]
            else if bool_decide (is_Some (Nodes_get nodes id)) then updates ++ [(id, None)]
            else updates in
          Done (hash, updates, memo)))
      end
  end.

(** *** The trie *)

Record Trie : Type := mkTrie {
  leaves : Leaves;
  defaults : list Hash;
  nodes : Nodes;
  cached_root : Hash;
  changed : gset Key;
  persist_dirty : gset Key
}.

Definition Trie_new : Trie :=
  mkTrie (mkLeaves ∅ ∅) default_hashes (mkNodes ∅ ∅) (default_at default_hashes 0) ∅ ∅.

(** A [BTreeSet] of keys, iterated in order. *)
Definition sorted_keys (s : gset Key) : list Key :=
  map fst (merge_sort entry_le (map (fun k => (k, tt)) (elements s))).

(** Write through to the base when it is not shared and no delta is pending. *)
Definition write_leaf (unique : bool) (l : Leaves) (key : Key) (entry : option (list byte)) : Leaves :=
  if unique && bool_decide (delta l = ∅)
  then mkLeaves (change (base l) (key, entry)) (delta l)
  else mkLeaves (base l) (<[key := entry]> (delta l)).

Definition touch (t : Trie) (l : Leaves) (key : Key) : Trie :=
  mkTrie l (defaults t) (nodes t) (cached_root t) ({[key]} ∪ changed t) ({[key]} ∪ persist_dirty t).

Definition Trie_insert (unique : bool) (t : Trie) (key : Key) (value : list byte) : Trie :=
  touch t (write_leaf unique (leaves t) key (Some value)) key.

Definition Trie_remove (unique : bool) (t : Trie) (key : Key) : bool * Trie :=
  if contains_key (leaves t) key
  then (true, touch t (write_leaf unique (leaves t) key None) key)
  else (false, t).

Definition Trie_get (t : Trie) (key : Key) : option (list byte) := Leaves_get (leaves t) key.

Definition take_persist_dirty (t : Trie) : list Key * Trie :=
  (sorted_keys (persist_dirty t),
   mkTrie (leaves t) (defaults t) (nodes t) (cached_root t) (changed t) ∅).

Definition clear_persist_dirty (t : Trie) : Trie := (take_persist_dirty t).2.

Definition compact (unique_leaves unique_nodes : bool) (t : Trie) : Trie :=
  let '(b, d) := fold_delta unique_leaves (base (leaves t)) (delta (leaves t)) in
  let '(nb, nd) := fold_delta unique_nodes (node_base (nodes t)) (node_delta (nodes t)) in
  mkTrie (mkLeaves b d) (defaults t) (mkNodes nb nd) (cached_root t) (changed t) (persist_dirty t).

Definition apply_updates (unique : bool) (n : Nodes) (us : list NodeUpdate) : Nodes :=
  if unique && bool_decide (node_delta n = ∅)
  then mkNodes (foldl change (node_base n) us) (node_delta n)
  else mkNodes (node_base n) (foldl (fun d u => <[u.1 := u.2]> d) (node_delta n) us).

Definition root (unique : bool) (t : Trie) (memo : Anchors) : outcome (Hash * Trie * Anchors) :=
  if bool_decide (changed t = ∅) then Done (cached_root t, t, memo)
  else
    obind (recompute (leaves t) (defaults t) (nodes t) DEPTH (zeros KEY_LEN)
             (sorted_keys (changed t)) [] memo)
      (fun '(h, us, memo) =>
         Done (h, mkTrie (leaves t) (defaults t) (apply_updates unique (nodes t) us) h ∅
                    (persist_dirty t), memo)).

(** The sibling subtrees from the top down, for [level in 0..DEPTH]. *)
Fixpoint prove_loop (t : Trie) (key : Key) (n : nat) (memo : Anchors) : list Hash * Anchors :=
  match n with
  | O => ([], memo)
  | S m =>
      let level := level_of n in
      let sibling := flip_bit (prefix_at key (level + 1)) level in
      let '(h, memo) := cached_subtree (leaves t) (defaults t) (nodes t) m sibling memo in
      let '(hs, memo) := prove_loop t key m memo in
      (h :: hs, memo)
  end.

Definition prove (unique : bool) (t : Trie) (key : Key) (memo : Anchors)
  : outcome (Proof_ * Trie * Anchors) :=
  obind (root unique t memo) (fun '(_, t, memo) =>
    let '(hs, memo) := prove_loop t key DEPTH memo in
    Done (mkTrieProof (Leaves_get (leaves t) key) hs, t, memo)).

(** [count] rounds of the loop of [verify], down from [level]. *)
Fixpoint verify_loop (count : nat) (key : Key) (hs : list Hash) (node : Hash) (level : nat) : Hash :=
  match count with
  | O => node
  | S count =>
      let level' := (level - 1)%nat in
      let sibling := nth level' hs [] in
      let node := if key_bit key level' =? 0 then node_hash node sibling else node_hash sibling node in
      verify_loop count key hs node level'
  end.

Definition verify (key : Key) (proof : Proof_) (root : Hash) : bool :=
  if negb (length (siblings proof) =? DEPTH)%nat then false
  else
    let node := match proof_value proof with
      | Some value => state_leaf_hash value
      | None => DEFAULT_LEAF
      end in
    bool_decide (verify_loop DEPTH key (siblings proof) node DEPTH = root).

(** *** The reference: the tree over all leaves *)

Definition entries (l : Leaves) : list (Key * Hash) :=
  let bs := merge_sort entry_le (map_to_list (base l)) in
  let ds := merge_sort entry_le (map_to_list (delta l)) in
  map (fun e => (e.1, state_leaf_hash e.2)) (leaf_merge (length bs + length ds) bs ds).

Fixpoint subtree (defaults : list Hash) (es : list (Key * Hash)) (n : nat) : Hash :=
  match es with
  | [] => default_at defaults (level_of n)
  | e :: _ =>
      match n with
      | O => e.2
      | S m =>
          let split := partition_point (level_of n) (map fst es) in
          node_hash (subtree defaults (take split es) m) (subtree defaults (drop split es) m)
      end
  end.
End Hashing.
