(* ===== verification/TrieCorrect.v ===== *)
(** * Correctness of the state trie

    The incremental trie of [Trie] against the tree it stands for.  [tree_hash]
    is the hash of the full binary tree over an interval of keys; the reference
    [subtree] of the code, the recomputation along changed keys, the cached
    subtrees and the proofs are all shown to give its values. *)

From stdpp Require Import sorting.
From S2P Require Import Prelude Codec Keys Trie.

(** ** Ordered ranges *)

Definition entry_lt {A} (a b : Key * A) : Prop := kz a.1 < kz b.1.
Definition strictly {A} (l : list (Key * A)) : Prop := StronglySorted entry_lt l.
Definition keys_ok {A} (m : gmap Key A) : Prop := forall k v, m !! k = Some v -> key_ok k.
Definition list_keys_ok {A} (l : list (Key * A)) : Prop := Forall (fun e => key_ok e.1) l.

#[global] Instance entry_le_trans {A} : Transitive (entry_le (A := A)).
Proof. intros x y z. unfold entry_le. lia. Qed.

#[global] Instance entry_le_total {A} : Total (entry_le (A := A)).
Proof. intros x y. unfold entry_le. lia. Qed.

Lemma strictly_of_sorted {A} (l : list (Key * A)) :
  StronglySorted entry_le l -> NoDup (l.*1) -> list_keys_ok l -> strictly l.
Proof.
  induction 1 as [|x l Hl IH Hx]; intros Hnd Hok; [constructor|].
  cbn in Hnd. apply NoDup_cons in Hnd as [Hnin Hnd]. apply Forall_cons in Hok as [Hxk Hok].
  constructor; [by apply IH|]. rewrite Forall_forall in Hx, Hok |- *. intros y Hy.
  specialize (Hx y Hy). specialize (Hok y Hy). unfold entry_le, entry_lt in *.
  assert (kz x.1 <> kz y.1); [|lia]. intros Heq. apply Hnin.
  apply kz_inj in Heq as ->; [|done|done]. by apply list_elem_of_fmap_2.
Qed.

Lemma sorted_entries {A} (l : list (Key * A)) :
  NoDup (l.*1) -> list_keys_ok l ->
  strictly (merge_sort entry_le l) /\ (forall e, e ∈ merge_sort entry_le l <-> e ∈ l).
Proof.
  intros Hnd Hok. pose proof (merge_sort_Permutation entry_le l) as Hp. split.
  - apply strictly_of_sorted.
    + apply Sorted_StronglySorted; [apply _|]. apply Sorted_merge_sort, _.
    + by rewrite Hp.
    + unfold list_keys_ok. by rewrite Hp.
  - intros e. by rewrite Hp.
Qed.

Lemma range_of_spec {A} (m : gmap Key A) lo hi :
  keys_ok m ->
  strictly (range_of m lo hi) /\ list_keys_ok (range_of m lo hi) /\
  forall k v, (k, v) ∈ range_of m lo hi <-> m !! k = Some v /\ kz lo <= kz k <= kz hi.
Proof.
  intros Hm. unfold range_of. set (f := filter _ (map_to_list m)).
  assert (Hf : forall k v, (k, v) ∈ f <-> m !! k = Some v /\ kz lo <= kz k <= kz hi).
  { intros k v. unfold f. rewrite list_elem_of_filter, elem_of_map_to_list.
    unfold key_le. rewrite andb_true_iff, !Z.leb_le. cbn. tauto. }
  assert (Hok : list_keys_ok f).
  { apply Forall_forall. intros [k v] Hk. apply Hf in Hk as [Hk _]. by apply Hm in Hk. }
  assert (Hnd : NoDup (f.*1)).
  { apply NoDup_fmap_fst.
    - intros x y1 y2 H1 H2. apply Hf in H1 as [H1 _], H2 as [H2 _]. congruence.
    - apply NoDup_filter, NoDup_map_to_list. }
  destruct (sorted_entries f Hnd Hok) as [Hs He]. split_and!; [done| |].
  - apply Forall_forall. intros e He'. apply He in He'. unfold list_keys_ok in Hok.
    rewrite Forall_forall in Hok. by apply Hok.
  - intros k v. by rewrite He, Hf.
Qed.

Lemma strictly_cons {A} (e : Key * A) l :
  strictly (e :: l) <-> Forall (fun x => kz e.1 < kz x.1) l /\ strictly l.
Proof. apply StronglySorted_cons. Qed.

Ltac merge_side := solve [done | cbn; lia | by constructor].

(** What the merging iterator yields. *)
Lemma leaf_merge_elem fuel bs ds k v :
  (length bs + length ds <= fuel)%nat -> strictly bs -> strictly ds ->
  list_keys_ok bs -> list_keys_ok ds ->
  (k, v) ∈ leaf_merge fuel bs ds <-> (k, Some v) ∈ ds \/ ((k, v) ∈ bs /\ k ∉ ds.*1).
Proof.
  revert bs ds. induction fuel as [|fuel IH]; intros bs ds Hf Hb Hd Hbk Hdk.
  { destruct bs, ds; cbn in Hf; try lia. cbn. set_solver. }
  destruct bs as [|[bk bv] bs], ds as [|[dk de] ds]; cbn [leaf_merge].
  - set_solver.
  - apply strictly_cons in Hd as [Hd1 Hd2]. apply Forall_cons in Hdk as [Hdk1 Hdk2].
    cbn in Hf. destruct de as [dv|]; [rewrite elem_of_cons|]; rewrite IH by merge_side; set_solver.
  - apply strictly_cons in Hb as [Hb1 Hb2]. apply Forall_cons in Hbk as [Hbk1 Hbk2].
    cbn in Hf. rewrite elem_of_cons, IH by merge_side. set_solver.
  - pose proof Hb as Hb0. pose proof Hd as Hd0. pose proof Hbk as Hbk0. pose proof Hdk as Hdk0.
    apply strictly_cons in Hd as [Hd1 Hd2]. apply Forall_cons in Hdk as [Hdk1 Hdk2].
    apply strictly_cons in Hb as [Hb1 Hb2]. apply Forall_cons in Hbk as [Hbk1 Hbk2].
    cbn in Hf, Hb1, Hd1. rewrite Forall_forall in Hb1. rewrite Forall_forall in Hd1.
    assert (Hbnot : forall x y, (x, y) ∈ bs -> kz bk < kz x) by (intros x y Hx; by apply (Hb1 (x, y))).
    assert (Hdnot : forall x, x ∈ ds.*1 -> kz dk < kz x).
    { intros x ([x' e] & -> & Hx)%list_elem_of_fmap. by apply (Hd1 (x', e)). }
    cbn [fst]. case_bool_decide as Heq.
    + subst bk. specialize (IH bs ds ltac:(lia) Hb2 Hd2 Hbk2 Hdk2).
      assert (Hn : (dk, v) ∉ bs) by (intros Hx; apply Hbnot in Hx; lia).
      assert (Hn' : (dk, Some v) ∉ ds) by (intros Hx; apply (Hd1 (dk, Some v)) in Hx; cbn in Hx; lia).
      destruct de as [dv|]; [rewrite elem_of_cons|]; rewrite IH; cbn [fmap list_fmap fst];
        rewrite !elem_of_cons; destruct (decide (k = dk)) as [->|]; intuition congruence.
    + unfold key_lt. destruct (Z.ltb_spec (kz dk) (kz bk)) as [Hlt|Hge].
      * specialize (IH ((bk, bv) :: bs) ds ltac:(cbn; lia) Hb0 Hd2 Hbk0 Hdk2).
        assert (Hn : (dk, v) ∉ (bk, bv) :: bs).
        { intros [[= ? ?]|Hx]%elem_of_cons; [done|]. apply Hbnot in Hx. lia. }
        revert IH Hn. generalize ((bk, bv) :: bs). intros B IH Hn.
        destruct de as [dv|]; [rewrite elem_of_cons|]; rewrite IH; cbn [fmap list_fmap fst];
          rewrite !elem_of_cons; destruct (decide (k = dk)) as [->|]; intuition congruence.
      * specialize (IH bs ((dk, de) :: ds) ltac:(cbn; lia) Hb2 Hd0 Hbk2 Hdk0).
        assert (Hbd : kz bk < kz dk).
        { assert (kz bk <> kz dk); [|lia]. intros He. apply Heq. symmetry. by apply kz_inj. }
        assert (Hn : bk ∉ ((dk, de) :: ds).*1).
        { cbn. intros [->|Hx]%elem_of_cons; [lia|]. apply Hdnot in Hx. lia. }
        revert IH Hn. generalize ((dk, de) :: ds). intros D IH Hn.
        rewrite elem_of_cons, IH, elem_of_cons. intuition congruence.
Qed.


Lemma leaf_merge_above x fuel bs ds :
  Forall (fun e => x < kz e.1) bs -> Forall (fun e => x < kz e.1) ds ->
  Forall (fun e => x < kz e.1) (leaf_merge fuel bs ds).
Proof.
  revert bs ds. induction fuel as [|fuel IH]; intros bs ds Hb Hd; [constructor|].
  destruct bs as [|[bk bv] bs], ds as [|[dk de] ds]; cbn [leaf_merge fst]; [constructor| | |].
  all: try (apply Forall_cons in Hb as [Hb1 Hb2]); try (apply Forall_cons in Hd as [Hd1 Hd2]).
  all: repeat case_bool_decide; repeat (destruct de as [dv|] || destruct (key_lt _ _));
    repeat (apply Forall_cons; split); auto.
Qed.

Lemma leaf_merge_strictly fuel bs ds :
  strictly bs -> strictly ds -> list_keys_ok bs -> list_keys_ok ds ->
  strictly (leaf_merge fuel bs ds) /\ list_keys_ok (leaf_merge fuel bs ds).
Proof.
  revert bs ds. induction fuel as [|fuel IH]; intros bs ds Hb Hd Hbk Hdk; [split; constructor|].
  destruct bs as [|[bk bv] bs], ds as [|[dk de] ds]; cbn [leaf_merge fst]; [split; constructor| | |].
  all: pose proof Hb as Hb0; pose proof Hd as Hd0; pose proof Hbk as Hbk0; pose proof Hdk as Hdk0.
  all: try (apply strictly_cons in Hb as [Hb1 Hb2]; apply Forall_cons in Hbk as [Hbk1 Hbk2]).
  all: try (apply strictly_cons in Hd as [Hd1 Hd2]; apply Forall_cons in Hdk as [Hdk1 Hdk2]).
  all: cbn [fst] in *.
  all: assert (Hcons : forall (e : Key * list byte) l, Forall (fun x => kz e.1 < kz x.1) l -> key_ok e.1 ->
         strictly l /\ list_keys_ok l -> strictly (e :: l) /\ list_keys_ok (e :: l))
       by (intros e l ? ? [? ?]; split; [by apply strictly_cons|by apply Forall_cons]).
  - destruct de as [dv|]; [apply Hcons; [apply leaf_merge_above| |]|]; auto.
  - apply Hcons; [apply leaf_merge_above| |]; auto.
  - case_bool_decide as Heq.
    { subst bk. destruct de as [dv|]; [apply Hcons; [apply leaf_merge_above| |]|]; auto. }
    unfold key_lt. destruct (Z.ltb_spec (kz dk) (kz bk)) as [Hlt|Hge].
    + destruct de as [dv|]; [apply Hcons; [apply leaf_merge_above| |]|]; auto.
      apply Forall_cons; split; [done|]. eapply Forall_impl; [exact Hb1|]. cbn [fst]. intros; lia.
    + assert (kz bk <> kz dk) by (intros He; apply Heq; symmetry; by apply kz_inj).
      apply Hcons; [apply leaf_merge_above| |]; auto.
      apply Forall_cons; split; [cbn [fst]; lia|]. eapply Forall_impl; [exact Hd1|]. cbn [fst]. intros; lia.
Qed.

Definition leaves_ok (l : Leaves) : Prop := keys_ok (base l) /\ keys_ok (delta l).

(** Merging a base and a delta that hold just the entries of a set of keys. *)
Lemma leaf_merge_spec (P : Key -> Prop) (l : Leaves) bs ds :
  strictly bs -> strictly ds -> list_keys_ok bs -> list_keys_ok ds ->
  (forall k v, (k, v) ∈ bs <-> base l !! k = Some v /\ P k) ->
  (forall k v, (k, v) ∈ ds <-> delta l !! k = Some v /\ P k) ->
  let out := leaf_merge (length bs + length ds) bs ds in
  strictly out /\ list_keys_ok out /\
  forall k v, (k, v) ∈ out <-> Leaves_get l k = Some v /\ P k.
Proof.
  intros Hb Hd Hbk Hdk Hbe Hde. cbn zeta.
  destruct (leaf_merge_strictly (length bs + length ds) bs ds) as [Hs Hk]; [done..|].
  split_and!; [done|done|]. intros k v. rewrite leaf_merge_elem by (done || lia).
  assert (Hin : k ∈ ds.*1 <-> is_Some (delta l !! k) /\ P k).
  { rewrite list_elem_of_fmap. split.
    - intros ([k' e] & -> & He). cbn [fst]. apply Hde in He as [-> ?]. done.
    - intros [[e He] HP]. exists (k, e). split; [done|]. by apply Hde. }
  rewrite Hin, Hbe, Hde. unfold Leaves_get. destruct (delta l !! k) as [e|]; cbn.
  - assert (is_Some (Some e)) by done. intuition congruence.
  - assert (~ is_Some (@None (option (list byte)))) by (by intros []). intuition congruence.
Qed.

Lemma Leaves_range_spec l lo hi :
  leaves_ok l ->
  strictly (Leaves_range l lo hi) /\ list_keys_ok (Leaves_range l lo hi) /\
  forall k v, (k, v) ∈ Leaves_range l lo hi <-> Leaves_get l k = Some v /\ kz lo <= kz k <= kz hi.
Proof.
  intros [Hb Hd]. destruct (range_of_spec (base l) lo hi Hb) as (? & ? & ?).
  destruct (range_of_spec (delta l) lo hi Hd) as (? & ? & ?).
  by apply (leaf_merge_spec (fun k => kz lo <= kz k <= kz hi)).
Qed.

(** ** Subtrees as intervals of numbers

    A subtree of height [n] covers the keys whose numbers lie in
    [[p, p + span n)], with [p] a multiple of [span n]. *)

Definition span (n : nat) : Z := 2 ^ Z.of_nat n.

Definition block (n : nat) (p : Z) : Prop :=
  (n <= DEPTH)%nat /\ 0 <= p /\ p + span n <= 2 ^ 256 /\ p mod span n = 0.

Definition covers (n : nat) (p z : Z) : Prop := p <= z < p + span n.

Lemma span_S n : span (S n) = 2 * span n.
Proof. unfold span. by rewrite Nat2Z.inj_succ, Z.pow_succ_r by lia. Qed.

Lemma span_pos n : 0 < span n.
Proof. apply Z.pow_pos_nonneg; lia. Qed.

Lemma block_range n p z : block n p -> covers n p z -> 0 <= z < 2 ^ 256.
Proof. unfold block, covers. lia. Qed.

Lemma block_start n p : block n p -> covers n p p.
Proof. pose proof (span_pos n). unfold covers. lia. Qed.

Lemma block_left m p : block (S m) p -> block m p.
Proof.
  intros (Hn & H0 & H1 & Ha). rewrite span_S in *. pose proof (span_pos m).
  split_and!; [lia..|]. rewrite Z.mul_comm, Z.rem_mul_r in Ha by lia.
  pose proof (Z.mod_pos_bound p (span m)). pose proof (Z.mod_pos_bound (p / span m) 2). nia.
Qed.

Lemma block_right m p : block (S m) p -> block m (p + span m).
Proof.
  intros Hb. pose proof (block_left m p Hb) as (_ & _ & _ & Ha).
  destruct Hb as (Hn & H0 & H1 & _). rewrite span_S in *. pose proof (span_pos m).
  split_and!; [lia..|]. rewrite <- (Z.mul_1_l (span m)) at 1. rewrite Z.mod_add by lia. done.
Qed.

Lemma covers_split m p z : covers (S m) p z <-> covers m p z \/ covers m (p + span m) z.
Proof. unfold covers. rewrite span_S. pose proof (span_pos m). lia. Qed.

(** The bit tested at a level says in which half a key lies. *)
Lemma block_bit m p z :
  block (S m) p -> covers (S m) p z -> Z.testbit z (Z.of_nat m) = negb (z <? p + span m).
Proof.
  intros (Hn & H0 & H1 & Ha) Hz. unfold covers in Hz. rewrite span_S in *. pose proof (span_pos m).
  assert (Hq : exists q, p = q * (2 * span m)).
  { exists (p / (2 * span m)). pose proof (Z.div_mod p (2 * span m) ltac:(lia)). lia. }
  destruct Hq as [q ->]. rewrite Z.testbit_odd, Z.shiftr_div_pow2 by lia. fold (span m).
  destruct (Z.ltb_spec z (q * (2 * span m) + span m)) as [Hlt|Hge]; cbn [negb].
  - replace (z / span m) with (2 * q); [by rewrite Z.odd_mul|].
    apply (Z.div_unique_pos _ _ _ (z - q * (2 * span m))); lia.
  - replace (z / span m) with (1 + 2 * q); [by rewrite Z.odd_add_mul_2|].
    apply (Z.div_unique_pos _ _ _ (z - q * (2 * span m) - span m)); lia.
Qed.

Lemma level_of_S m : (S m <= DEPTH)%nat ->
  (level_of (S m) < DEPTH)%nat /\ 255 - Z.of_nat (level_of (S m)) = Z.of_nat m /\
  (level_of (S m) + 1 = level_of m)%nat.
Proof. unfold level_of, DEPTH. lia. Qed.

Lemma block_key n p : block n p -> key_ok (key_of p) /\ kz (key_of p) = p.
Proof.
  intros Hb. split; [apply length_key_of|]. apply kz_of. eapply block_range; [exact Hb|].
  by apply block_start.
Qed.

Lemma block_with_bit m p :
  block (S m) p -> with_bit (key_of p) (level_of (S m)) = key_of (p + span m).
Proof.
  intros Hb. destruct (block_key _ _ Hb) as [Hk Hp].
  destruct (level_of_S m) as (Hl & He & _); [by destruct Hb|].
  destruct (block_key _ _ (block_right m p Hb)) as [Hk' Hp'].
  destruct (with_bit_kz (key_of p) (level_of (S m)) Hk Hl) as [Hok Hz].
  - rewrite He, Hp, (block_bit m p p Hb (block_start _ _ Hb)). pose proof (span_pos m).
    destruct (Z.ltb_spec p (p + span m)); [done|lia].
  - apply kz_inj; [done..|]. rewrite Hz, Hp, Hp', He. done.
Qed.

Lemma block_end n p :
  block n p -> kz (subtree_end (key_of p) (level_of n)) = p + span n - 1.
Proof.
  intros Hb. destruct (block_key _ _ Hb) as [Hk Hp]. destruct Hb as (Hn & H0 & H1 & Ha).
  assert (He : 256 - Z.of_nat (level_of n) = Z.of_nat n) by (unfold level_of, DEPTH in *; lia).
  rewrite subtree_end_kz; rewrite ?He, ?Hp; unfold level_of; (done || lia).
Qed.

Lemma block_key_bit m p k :
  block (S m) p -> key_ok k -> covers (S m) p (kz k) ->
  (key_bit k (level_of (S m)) =? 0) = (kz k <? p + span m).
Proof.
  intros Hb Hk Hc. destruct (level_of_S m) as (Hl & He & _); [by destruct Hb|].
  rewrite key_bit_kz, He, (block_bit m p) by done. by destruct (_ <? _).
Qed.

(** The subtree of height [m] that holds a key. *)
Lemma block_prefix m q k :
  block m q -> key_ok k -> covers m q (kz k) -> prefix_at k (level_of m) = key_of q.
Proof.
  intros Hb Hk Hc. destruct (block_key _ _ Hb) as [Hk' Hq].
  assert (Hl : (level_of m <= DEPTH)%nat) by (unfold level_of; lia).
  destruct (prefix_at_kz k (level_of m) Hk Hl) as [Hok Hz].
  apply kz_inj; [done..|]. rewrite Hz, Hq.
  destruct Hb as (Hn & H0 & H1 & Ha). pose proof (span_pos m).
  replace (256 - Z.of_nat (level_of m)) with (Z.of_nat m) by (unfold level_of, DEPTH in *; lia).
  fold (span m). unfold covers in Hc.
  assert (Hm : kz k mod span m = kz k - q).
  { symmetry. apply (Z.mod_unique_pos _ _ (q / span m)); [lia|].
    pose proof (Z.div_mod q (span m) ltac:(lia)). lia. }
  lia.
Qed.

(** The subtree of height [m] above a number. *)
Lemma block_of m z :
  (m <= DEPTH)%nat -> 0 <= z < 2 ^ 256 ->
  block m (z - z mod span m) /\ covers m (z - z mod span m) z.
Proof.
  intros Hm Hz. pose proof (span_pos m).
  pose proof (Z.mod_pos_bound z (span m) ltac:(lia)) as Hr. unfold block, covers.
  pose proof (Z.div_mod z (span m) ltac:(lia)) as Hd.
  assert (Hs : 2 ^ 256 = span (DEPTH - m) * span m).
  { unfold span. rewrite <- Z.pow_add_r by lia. f_equal. unfold DEPTH in *. lia. }
  rewrite Hs in *. set (a := z / span m) in *. set (b := z mod span m) in *.
  assert (0 <= a < span (DEPTH - m)) by nia.
  replace (z - b) with (a * span m) by lia. rewrite Z.mod_mul by lia. split_and!; (done || nia).
Qed.

(** ** The leaves of a subtree *)

Definition view (l : Leaves) (z : Z) : option (list byte) := Leaves_get l (key_of z).

Definition in_block (l : Leaves) (n : nat) (p : Z) : list (Key * list byte) :=
  Leaves_range l (key_of p) (subtree_end (key_of p) (level_of n)).

Definition vacant (g : Z -> option (list byte)) (n : nat) (p : Z) : Prop :=
  forall z, covers n p z -> g z = None.

Definition lonely (g : Z -> option (list byte)) (n : nat) (p y : Z) (v : list byte) : Prop :=
  covers n p y /\ g y = Some v /\ forall z, covers n p z -> z <> y -> g z = None.

Definition many (g : Z -> option (list byte)) (n : nat) (p : Z) : Prop :=
  exists y z, y <> z /\ covers n p y /\ covers n p z /\ is_Some (g y) /\ is_Some (g z).

Lemma Leaves_get_key l k v : leaves_ok l -> Leaves_get l k = Some v -> key_ok k.
Proof.
  intros [Hb Hd]. unfold Leaves_get. destruct (delta l !! k) eqn:E; [by apply Hd in E|apply Hb].
Qed.

Lemma view_kz l k : key_ok k -> view l (kz k) = Leaves_get l k.
Proof. intros Hk. unfold view. by rewrite key_of_kz. Qed.

Lemma in_block_spec l n p :
  leaves_ok l -> block n p ->
  strictly (in_block l n p) /\ list_keys_ok (in_block l n p) /\
  forall k v, (k, v) ∈ in_block l n p <-> Leaves_get l k = Some v /\ covers n p (kz k).
Proof.
  intros Hl Hb. unfold in_block.
  destruct (Leaves_range_spec l (key_of p) (subtree_end (key_of p) (level_of n)) Hl) as (Hs & Hk & He).
  split_and!; [done..|]. intros k v. rewrite He, (block_end n p Hb).
  destruct (block_key n p Hb) as [_ ->]. unfold covers. intuition lia.
Qed.

(** The three cases the code tells apart. *)
Lemma in_block_cases l n p :
  leaves_ok l -> block n p ->
  match in_block l n p with
  | [] => vacant (view l) n p
  | [(k, v)] => key_ok k /\ lonely (view l) n p (kz k) v
  | _ => many (view l) n p
  end.
Proof.
  intros Hl Hb. destruct (in_block_spec l n p Hl Hb) as (Hs & Hk & He).
  assert (Hin : forall z v, covers n p z -> view l z = Some v -> (key_of z, v) ∈ in_block l n p).
  { intros z v Hc Hv. apply He. split; [done|]. by rewrite kz_of by (by eapply block_range). }
  destruct (in_block l n p) as [|[k v] [|[k' v'] rest]].
  - intros z Hc. destruct (view l z) eqn:Hv; [|done]. by apply Hin, elem_of_nil in Hv.
  - apply Forall_cons in Hk as [Hk _]. cbn [fst] in Hk.
    destruct (proj1 (He k v) ltac:(set_solver)) as [Hg Hc]. split; [done|].
    split_and!; [done|by rewrite view_kz|]. intros z Hz Hne. destruct (view l z) as [w|] eqn:Hv; [|done].
    apply Hin, list_elem_of_singleton in Hv as [= <- _]; [|done].
    by rewrite kz_of in Hne by (by eapply block_range).
  - destruct (proj1 (He k v) ltac:(set_solver)) as [Hg Hc].
    destruct (proj1 (He k' v') ltac:(set_solver)) as [Hg' Hc'].
    apply Forall_cons in Hk as [Hk Hk2]. apply Forall_cons in Hk2 as [Hk' _]. cbn [fst] in *.
    apply strictly_cons in Hs as [Hlt _]. apply Forall_cons in Hlt as [Hlt _]. cbn [fst] in Hlt.
    exists (kz k), (kz k'). rewrite !view_kz, Hg, Hg' by done. split_and!; (done || lia).
Qed.

Lemma vacant_not_many g n p : vacant g n p -> ~ many g n p.
Proof. intros Hv (y & z & _ & Hy & _ & Hs & _). rewrite (Hv y Hy) in Hs. by destruct Hs. Qed.

Lemma lonely_not_many g n p y v : lonely g n p y v -> ~ many g n p.
Proof.
  intros (_ & _ & H) (a & b & Hne & Ha & Hb & Hsa & Hsb).
  destruct (decide (a = y)) as [->|]; [rewrite (H b) in Hsb|rewrite (H a) in Hsa];
    by (destruct Hsa || destruct Hsb || lia).
Qed.

Lemma many_ext g g' n p : (forall z, covers n p z -> g z = g' z) -> many g n p -> many g' n p.
Proof.
  intros H (y & z & Hne & Hy & Hz & Hsy & Hsz). exists y, z. rewrite <- !H by done. done.
Qed.

Lemma many_sub g n p m q :
  (forall z, covers m q z -> covers n p z) -> many g m q -> many g n p.
Proof. intros H (y & z & ? & ? & ? & ? & ?). exists y, z. auto 10. Qed.

(** The code counts the leaves to see whether a subtree branches. *)
Lemma branch_many l n p :
  leaves_ok l -> block n p -> (2 <=? length (in_block l n p))%nat = true <-> many (view l) n p.
Proof.
  intros Hl Hb. pose proof (in_block_cases l n p Hl Hb) as H.
  destruct (in_block l n p) as [|[k v] [|e rest]]; cbn [length Nat.leb].
  - apply vacant_not_many in H. intuition congruence.
  - destruct H as [_ H]. apply lonely_not_many in H. intuition congruence.
  - tauto.
Qed.

(** ** The tree the trie stands for *)

Section Tree.
Variable sha3_256 : list byte -> Hash.

Local Notation node := (node_hash sha3_256).
Local Notation leaf := (state_leaf_hash sha3_256).
Local Notation defs := (default_hashes sha3_256).

Definition leaf_or_default (o : option (list byte)) : Hash :=
  match o with Some v => leaf v | None => DEFAULT_LEAF end.

(** The hash of the full tree of height [n] over the leaves from [p] on. *)
Fixpoint tree_hash (g : Z -> option (list byte)) (n : nat) (p : Z) : Hash :=
  match n with
  | O => leaf_or_default (g p)
  | S m => node (tree_hash g m p) (tree_hash g m (p + span m))
  end.

Fixpoint empty_hash (n : nat) : Hash :=
  match n with O => DEFAULT_LEAF | S n => node (empty_hash n) (empty_hash n) end.

Lemma tree_hash_ext g g' n p :
  (forall z, covers n p z -> g z = g' z) -> tree_hash g n p = tree_hash g' n p.
Proof.
  revert p. induction n as [|n IH]; intros p H; cbn [tree_hash].
  - f_equal. apply H. unfold covers, span. cbn. lia.
  - setoid_rewrite covers_split in H. f_equal; apply IH; auto.
Qed.

Lemma tree_hash_leaf g p : tree_hash g 0 p = leaf_or_default (g p).
Proof. done. Qed.

Lemma tree_hash_node g m p :
  tree_hash g (S m) p = node (tree_hash g m p) (tree_hash g m (p + span m)).
Proof. done. Qed.

Lemma tree_hash_vacant g n p : vacant g n p -> tree_hash g n p = empty_hash n.
Proof.
  revert p. induction n as [|n IH]; intros p H; cbn [tree_hash empty_hash].
  - by rewrite (H p) by (unfold covers, span; cbn; lia).
  - unfold vacant in H. setoid_rewrite covers_split in H. f_equal; apply IH; intros z ?; auto.
Qed.

Lemma nth_defaults_from n i :
  (i <= n)%nat -> nth i (defaults_from sha3_256 n) [] = empty_hash (n - i).
Proof.
  revert i. induction n as [|n IH]; intros i Hi; [by replace i with 0%nat by lia|].
  cbn [defaults_from]. destruct i as [|i]; cbn [nth]; [|by rewrite IH by lia].
  rewrite IH, Nat.sub_0_r by lia. done.
Qed.

Lemma default_at_level n : (n <= DEPTH)%nat -> default_at defs (level_of n) = empty_hash n.
Proof.
  intros Hn. unfold default_at, default_hashes. rewrite nth_defaults_from by (unfold level_of; lia).
  f_equal. unfold level_of. lia.
Qed.

Lemma default_at_bottom : default_at defs DEPTH = DEFAULT_LEAF.
Proof. apply (default_at_level 0). lia. Qed.

(** *** Chains of defaults around one leaf *)

Definition chain_step (key : Key) (h : Hash) (level : nat) : Hash :=
  let level' := (level - 1)%nat in
  let default := default_at defs (level' + 1) in
  if key_bit key level' =? 0 then node h default else node default h.

Lemma chain_loop_add a b key h level :
  chain_loop sha3_256 (a + b) defs key h level =
  chain_loop sha3_256 b defs key (chain_loop sha3_256 a defs key h level) (level - a).
Proof.
  revert h level. induction a as [|a IH]; intros h level; cbn [chain_loop Nat.add].
  - by rewrite Nat.sub_0_r.
  - rewrite IH. by replace (level - 1 - a)%nat with (level - S a)%nat by lia.
Qed.

Lemma chain_loop_snoc n key h level :
  chain_loop sha3_256 (S n) defs key h level =
  chain_step key (chain_loop sha3_256 n defs key h level) (level - n).
Proof. replace (S n) with (n + 1)%nat by lia. by rewrite chain_loop_add. Qed.

Lemma chain_hash_level n key h :
  (n <= DEPTH)%nat -> chain_hash sha3_256 defs key h (level_of n) = chain_loop sha3_256 n defs key h DEPTH.
Proof. intros Hn. unfold chain_hash, chain_between, level_of. f_equal. lia. Qed.

Lemma tree_hash_lonely g n p k v :
  block n p -> key_ok k -> lonely g n p (kz k) v ->
  tree_hash g n p = chain_loop sha3_256 n defs k (leaf v) DEPTH.
Proof.
  revert p. induction n as [|m IH]; intros p Hb Hk (Hc & Hv & Hother).
  - cbn. unfold covers, span in Hc. cbn in Hc. replace p with (kz k) by lia. by rewrite Hv.
  - cbn [tree_hash]. rewrite chain_loop_snoc. unfold chain_step.
    assert (Hm : (S m <= DEPTH)%nat) by (by destruct Hb).
    destruct (level_of_S m Hm) as (Hl & _ & Hl1).
    replace (DEPTH - m - 1)%nat with (level_of (S m)) by (unfold level_of; lia).
    rewrite Hl1, default_at_level, (block_key_bit m p) by (done || lia).
    pose proof (block_left m p Hb) as Hbl. pose proof (block_right m p Hb) as Hbr.
    setoid_rewrite covers_split in Hother. apply covers_split in Hc.
    unfold covers in Hc, Hother. destruct (Z.ltb_spec (kz k) (p + span m)).
    + rewrite (IH p), (tree_hash_vacant g m (p + span m)); [done| |done|done|].
      * intros z Hz. apply Hother; unfold covers in Hz; lia.
      * split_and!; [unfold covers; lia|done|]. intros z Hz. apply Hother. by left.
    + rewrite (IH (p + span m)), (tree_hash_vacant g m p); [done| |done|done|].
      * intros z Hz. apply Hother; unfold covers in Hz; lia.
      * split_and!; [unfold covers; lia|done|]. intros z Hz. apply Hother. by right.
Qed.

Lemma chain_between_trans key h top mid low :
  (low <= mid <= top)%nat ->
  chain_between sha3_256 defs key (chain_between sha3_256 defs key h top mid) mid low =
  chain_between sha3_256 defs key h top low.
Proof.
  intros Hl. unfold chain_between.
  replace (top - low)%nat with ((top - mid) + (mid - low))%nat by lia.
  rewrite chain_loop_add. by replace (top - (top - mid))%nat with mid by lia.
Qed.

Lemma chain_between_anchor key h level :
  (level <= ANCHOR_LEVEL)%nat ->
  chain_between sha3_256 defs key (chain_hash sha3_256 defs key h ANCHOR_LEVEL) ANCHOR_LEVEL level =
  chain_hash sha3_256 defs key h level.
Proof. intros Hl. apply chain_between_trans; unfold DEPTH, ANCHOR_LEVEL in *; lia. Qed.

#[local] Opaque chain_hash default_hashes key_of kz.

(** *** The memo of single-leaf hashes *)

Definition memo_ok (memo : Anchors) : Prop :=
  forall k h a, current memo !! k = Some (h, a) \/ previous memo !! k = Some (h, a) ->
    a = chain_hash sha3_256 defs k h ANCHOR_LEVEL.

Lemma known_anchor_ok memo k h a :
  memo_ok memo -> known_anchor memo k h = Some a -> a = chain_hash sha3_256 defs k h ANCHOR_LEVEL.
Proof.
  intros Hm. unfold known_anchor. destruct (current memo !! k) as [[h' a']|] eqn:E.
  - case_bool_decide; [|done]. intros [= ->]. subst h'. apply Hm. by left.
  - destruct (previous memo !! k) as [[h' a']|] eqn:E'; [|done]. case_bool_decide; [|done].
    intros [= ->]. subst h'. apply Hm. by right.
Qed.

Lemma remember_ok memo k h a :
  memo_ok memo -> a = chain_hash sha3_256 defs k h ANCHOR_LEVEL -> memo_ok (remember memo k h a).
Proof.
  intros Hm Ha.
  assert (Hins : forall m : gmap Key (Hash * Hash),
    (forall k' h' a', m !! k' = Some (h', a') -> a' = chain_hash sha3_256 defs k' h' ANCHOR_LEVEL) ->
    forall k' h' a', <[k := (h, a)]> m !! k' = Some (h', a') ->
      a' = chain_hash sha3_256 defs k' h' ANCHOR_LEVEL).
  { intros m H k' h' a'. rewrite lookup_insert_Some. intros [[<- Heq]|[_ Heq]]; [|by apply H].
    assert (h = h' /\ a = a') as [<- <-] by (clear -Heq; split; congruence). exact Ha. }
  intros k' h' a'. unfold remember. cbn [current previous].
  destruct (_ <=? _); cbn [current previous]; intros [H|H].
  - revert H. apply Hins. intros ? ? ?. by rewrite lookup_empty.
  - apply Hm. by left.
  - revert H. apply Hins. intros ? ? ? ?. apply Hm. by left.
  - apply Hm. by right.
Qed.

(** The memo never changes an answer. *)
Lemma single_leaf_hash_ok key v level memo :
  memo_ok memo ->
  exists memo', single_leaf_hash sha3_256 defs key v level memo =
    (chain_hash sha3_256 defs key (leaf v) level, memo') /\ memo_ok memo'.
Proof.
  intros Hm. unfold single_leaf_hash. destruct (Nat.ltb_spec ANCHOR_LEVEL level) as [Hl|Hl]; [by eexists|].
  destruct (known_anchor memo key (leaf v)) as [a|] eqn:E.
  - apply known_anchor_ok in E as ->; [|done]. rewrite chain_between_anchor by done. by eexists.
  - rewrite chain_between_anchor by done. eexists. split; [reflexivity|]. by apply remember_ok.
Qed.

Lemma lonely_hash l n p k v memo :
  block n p -> memo_ok memo -> key_ok k -> lonely (view l) n p (kz k) v ->
  exists memo', single_leaf_hash sha3_256 defs k v (level_of n) memo =
    (tree_hash (view l) n p, memo') /\ memo_ok memo'.
Proof.
  intros Hb Hm Hk Hv. destruct (single_leaf_hash_ok k v (level_of n) memo Hm) as (memo' & -> & Hm').
  exists memo'. split; [|done]. f_equal. rewrite chain_hash_level by (by destruct Hb). symmetry.
  by apply tree_hash_lonely.
Qed.

(** *** The node cache *)

Definition node_id (n : nat) (p : Z) : NodeId := (level_of n, key_of p).

(** The cache holds the hash of a subtree exactly when it has two leaves or more. *)
Definition good (g : Z -> option (list byte)) (o : option Hash) (n : nat) (p : Z) : Prop :=
  (many g n p -> o = Some (tree_hash g n p)) /\ (~ many g n p -> o = None).

Definition nodes_good (g : Z -> option (list byte)) (N : Nodes) : Prop :=
  forall n p, (1 <= n)%nat -> block n p -> good g (Nodes_get N (node_id n p)) n p.

Lemma good_ext g g' o n p :
  (forall z, covers n p z -> g z = g' z) -> good g o n p -> good g' o n p.
Proof.
  intros He [H1 H2]. unfold good. rewrite <- (tree_hash_ext g g') by done. split.
  - intros Hm. apply H1. eapply many_ext, Hm. intros z Hz. by rewrite He.
  - intros Hm. apply H2. intros Hm'. apply Hm. by eapply many_ext.
Qed.

Lemma node_id_inj m q m' q' :
  block m q -> block m' q' -> node_id m q = node_id m' q' -> m = m' /\ q = q'.
Proof.
  intros Hb Hb' H. apply pair_equal_spec in H as [Hl Hk]. destruct (block_key m q Hb) as [_ <-]. destruct (block_key m' q' Hb') as [_ <-].
  split; [destruct Hb, Hb'; unfold level_of in Hl; lia|]. by rewrite Hk.
Qed.

(** What a list of updates leaves at one id. *)
Definition after (o : option Hash) (us : list NodeUpdate) (id : NodeId) : option Hash :=
  foldl (fun o u => if decide (u.1 = id) then u.2 else o) o us.

Lemma after_app o us1 us2 id : after o (us1 ++ us2) id = after (after o us1 id) us2 id.
Proof. apply foldl_app. Qed.

Lemma after_untouched o us id : id ∉ us.*1 -> after o us id = o.
Proof.
  induction us as [|[i h] us IH] using rev_ind; intros Hn; [done|].
  rewrite fmap_app in Hn. apply not_elem_of_app in Hn as [Hn Hi].
  rewrite after_app. cbn. rewrite decide_False by set_solver. by apply IH.
Qed.

Lemma after_removals o us id :
  Forall (fun u => u.2 = None) us -> (o = None \/ id ∈ us.*1) -> after o us id = None.
Proof.
  revert o. induction us as [|[i h] us IH]; intros o Hall [->|Hin].
  - done.
  - by apply elem_of_nil in Hin.
  - apply Forall_cons in Hall as [Hh Hall]. cbn in Hh. subst h. cbn.
    change (after (if decide (i = id) then None else None) us id = None). apply IH; [done|].
    left. by destruct (decide _).
  - apply Forall_cons in Hall as [Hh Hall]. cbn in Hh. subst h.
    change (after (if decide (i = id) then None else o) us id = None). apply IH; [done|].
    destruct (decide (i = id)); [by left|]. right. set_solver.
Qed.

(** Updates that stay below one subtree. *)
Definition below (n : nat) (p : Z) (us : list NodeUpdate) : Prop :=
  Forall (fun u => exists m q, (1 <= m <= n)%nat /\ block m q /\ (forall z, covers m q z -> covers n p z) /\
                               u.1 = node_id m q) us.

Lemma below_not_in n p us m q :
  below n p us -> block m q -> ((n < m)%nat \/ ~ covers n p q) -> node_id m q ∉ us.*1.
Proof.
  intros Hbelow Hb Hout (u & Hu & Hin)%list_elem_of_fmap.
  unfold below in Hbelow. rewrite Forall_forall in Hbelow.
  destruct (Hbelow u Hin) as (m' & q' & Hm & Hb' & Hsub & He). rewrite He in Hu.
  apply node_id_inj in Hu as [-> ->]; [|done..].
  destruct Hout as [?|Hnc]; [lia|]. apply Hnc, Hsub. by apply block_start.
Qed.

Lemma below_mono n p m q us :
  (m <= n)%nat -> (forall z, covers m q z -> covers n p z) -> below m q us -> below n p us.
Proof.
  intros Hm Hsub H. eapply Forall_impl; [exact H|]. cbn.
  intros u (m' & q' & ? & ? & ? & ?). exists m', q'. split_and!; [lia|lia|done|auto|done].
Qed.

(** Two aligned intervals are nested or disjoint. *)
Lemma block_sub m q n p z :
  block m q -> block n p -> (m <= n)%nat -> covers m q z -> covers n p z ->
  forall y, covers m q y -> covers n p y.
Proof.
  intros (_ & _ & _ & Ha) (_ & _ & _ & Ha') Hmn Hz Hz' y Hy. unfold covers in *.
  pose proof (span_pos m). pose proof (span_pos n).
  assert (Hs : span n = span (n - m) * span m).
  { unfold span. rewrite <- Z.pow_add_r by lia. f_equal. lia. }
  pose proof (span_pos (n - m)).
  pose proof (Z.div_mod q (span m) ltac:(lia)) as Hq. pose proof (Z.div_mod p (span n) ltac:(lia)) as Hp.
  set (a := q / span m) in *. set (b := p / span n) in *. rewrite Hs in *.
  assert (a < (b + 1) * span (n - m)) by nia. assert (b * span (n - m) <= a) by nia. nia.
Qed.

(** The updates that make a subtree's cache right for the new leaves. *)
Definition settles (g : Z -> option (list byte)) (N : Nodes) (n : nat) (p : Z) (us : list NodeUpdate) : Prop :=
  below n p us /\
  forall m q, (1 <= m <= n)%nat -> block m q -> (forall z, covers m q z -> covers n p z) ->
    good g (after (Nodes_get N (node_id m q)) us (node_id m q)) m q.

Lemma settles_node g N m p us1 us2 us3 :
  block (S m) p -> settles g N m p us1 -> settles g N m (p + span m) us2 ->
  Forall (fun u => u.1 = node_id (S m) p) us3 ->
  good g (after (Nodes_get N (node_id (S m) p)) us3 (node_id (S m) p)) (S m) p ->
  settles g N (S m) p (us1 ++ us2 ++ us3).
Proof.
  intros Hb [B1 S1] [B2 S2] H3 Hg. pose proof (block_left m p Hb) as Hbl.
  pose proof (block_right m p Hb) as Hbr. split.
  - apply Forall_app; split; [|apply Forall_app; split].
    + eapply below_mono; [| |exact B1]; [lia|]. intros z Hz. apply covers_split. by left.
    + eapply below_mono; [| |exact B2]; [lia|]. intros z Hz. apply covers_split. by right.
    + eapply Forall_impl; [exact H3|]. cbn. intros u ->. exists (S m), p. split_and!; (done || lia).
  - intros m' q Hm' Hbq Hsub. rewrite !after_app. pose proof (block_start _ _ Hbq) as Hq.
    assert (H3' : node_id m' q <> node_id (S m) p -> node_id m' q ∉ us3.*1).
    { intros Hne (u & Hu & Hin)%list_elem_of_fmap. rewrite Forall_forall in H3.
      apply Hne. by rewrite Hu, (H3 u Hin). }
    destruct (decide (m' = S m)) as [->|Hne].
    + assert (q = p) as ->.
      { pose proof (Hsub _ Hq) as H1. pose proof (span_pos (S m)).
        pose proof (Hsub (q + span (S m) - 1) ltac:(unfold covers; lia)). unfold covers in *. lia. }
      rewrite (after_untouched _ us1), (after_untouched _ us2); [done|..];
        (eapply below_not_in; [done..|lia]).
    + assert (Hid : node_id m' q <> node_id (S m) p).
      { intros He. apply node_id_inj in He as [-> _]; done. }
      rewrite (after_untouched _ us3) by auto.
      destruct (proj1 (covers_split m p q) (Hsub q Hq)) as [Hl|Hr].
      * rewrite (after_untouched _ us2).
        -- apply S1; [lia|done|]. eapply block_sub; [done..|lia|done|done].
        -- eapply below_not_in; [done..|]. right. unfold covers in *. lia.
      * rewrite (after_untouched _ us1).
        -- apply S2; [lia|done|]. eapply block_sub; [done..|lia|done|done].
        -- eapply below_not_in; [done..|]. right. unfold covers in *. lia.
Qed.

(** Splitting sorted keys at the bit of a level. *)
Definition in_order (n : nat) (p : Z) (ks : list Key) : Prop :=
  StronglySorted (fun a b => kz a < kz b) ks /\ Forall (fun k => key_ok k /\ covers n p (kz k)) ks.

Lemma in_order_tail n p k ks : in_order n p (k :: ks) -> in_order n p ks.
Proof. intros [Hs Hf]. apply StronglySorted_cons in Hs as [_ ?]. by apply Forall_cons in Hf as [_ ?]. Qed.

Lemma partition_halves m p ks :
  block (S m) p -> in_order (S m) p ks ->
  let split := partition_point (level_of (S m)) ks in
  in_order m p (take split ks) /\ in_order m (p + span m) (drop split ks).
Proof.
  intros Hb. cbn zeta. induction ks as [|k ks IH]; intros Ho.
  { split; (split; constructor). }
  pose proof (in_order_tail _ _ _ _ Ho) as Ht. specialize (IH Ht).
  destruct Ho as [Hs Hf]. apply StronglySorted_cons in Hs as [Hlt Hs].
  pose proof Hf as Hf0. apply Forall_cons in Hf as [[Hk Hc] Hf].
  cbn [partition_point]. rewrite (block_key_bit m p k) by done.
  destruct (Z.ltb_spec (kz k) (p + span m)) as [Hl|Hr]; cbn [take drop].
  - destruct IH as [[IH1 IH1'] IH2]. split; [|done]. split.
    + apply StronglySorted_cons. split; [by apply Forall_take|done].
    + apply Forall_cons. split; [|done]. split; [done|]. unfold covers in *. lia.
  - split; [split; constructor|]. split; [by apply StronglySorted_cons|].
    rewrite Forall_forall in Hf0, Hlt |- *. intros k' Hk'. destruct (Hf0 k' Hk') as [? Hc'].
    split; [done|]. unfold covers in *. rewrite span_S in Hc'.
    apply elem_of_cons in Hk' as [->|Hk']; [lia|]. specialize (Hlt k' Hk'). lia.
Qed.

Section Recompute.
Variable l : Leaves.
Variable g0 : Z -> option (list byte).
Variable N : Nodes.
Hypothesis Hl : leaves_ok l.
Hypothesis HN : nodes_good g0 N.

(** The leaves of a subtree changed at most at the listed keys. *)
Definition fresh (n : nat) (p : Z) (ks : list Key) : Prop :=
  forall z, covers n p z -> z ∉ map kz ks -> view l z = g0 z.

Definition rec_ok (n : nat) (r : Rec) (P : list Key -> Prop) : Prop :=
  forall p ks us memo, block n p -> P ks -> in_order n p ks -> fresh n p ks -> memo_ok memo ->
  exists us' memo', r (key_of p) ks us memo = Done (tree_hash (view l) n p, us ++ us', memo') /\
    settles (view l) N n p us' /\ memo_ok memo'.

Lemma many_height g n p : many g n p -> (1 <= n)%nat.
Proof.
  intros (y & z & Hne & Hy & Hz & _). destruct n; [|lia]. unfold covers, span in *. cbn in *. lia.
Qed.

Lemma clean_hash_ok n p memo :
  block n p -> (forall z, covers n p z -> view l z = g0 z) -> memo_ok memo ->
  exists memo', clean_hash sha3_256 l defs N (level_of n) (key_of p) memo =
    Done (tree_hash (view l) n p, memo') /\ memo_ok memo'.
Proof.
  intros Hb He Hm. unfold clean_hash. fold (in_block l n p).
  pose proof (in_block_cases l n p Hl Hb) as Hc.
  destruct (in_block l n p) as [|[k v] [|e rest]].
  - exists memo. rewrite default_at_level, tree_hash_vacant by (by destruct Hb || done). done.
  - destruct Hc as [Hk Hc]. destruct (lonely_hash l n p k v memo) as (memo' & -> & ?); [done..|].
    by exists memo'.
  - assert (Hgood : good (view l) (Nodes_get N (node_id n p)) n p).
    { eapply good_ext, HN; [|by eapply many_height|done]. intros z Hz. by rewrite He. }
    destruct Hgood as [Hgood _]. unfold node_id in Hgood. rewrite (Hgood Hc). by exists memo.
Qed.

Lemma side_ok n r :
  rec_ok n r (fun ks => ks <> []) ->
  rec_ok n (side sha3_256 l defs N (level_of n) r) (fun _ => True).
Proof.
  intros Hr p ks us memo Hb _ Ho Hf Hm. destruct ks as [|k ks]; [|by apply Hr].
  cbn [side]. assert (Heq : forall z, covers n p z -> view l z = g0 z) 
    by (intros; apply Hf; [done|apply not_elem_of_nil]).
  destruct (clean_hash_ok n p memo Hb Heq Hm) as (memo' & -> & Hm'). cbn [obind].
  exists [], memo'. rewrite app_nil_r. split_and!; [done| |done]. split; [constructor|].
  intros m q Hmn Hbq Hsub. cbn. eapply good_ext, HN; [|lia|done].
  intros z Hz. symmetry. auto.
Qed.

Lemma path_removal m k :
  (m <= DEPTH)%nat -> key_ok k ->
  exists q, block m q /\ covers m q (kz k) /\ (level_of m, prefix_at k (level_of m)) = node_id m q.
Proof.
  intros Hm Hk. destruct (block_of m (kz k) Hm (kz_range k Hk)) as [Hb Hc].
  eexists. split_and!; [done..|]. unfold node_id. f_equal. by apply block_prefix.
Qed.

(** Dropping the path of the one changed key. *)
Lemma path_removals_settle n p k :
  block n p -> key_ok k -> covers n p (kz k) -> fresh n p [k] -> ~ many (view l) n p ->
  settles (view l) N n p (path_removals N (level_of n) k).
Proof.
  intros Hb Hk Hc Hf Hnm. assert (Hn : (n <= DEPTH)%nat) by (by destruct Hb). split.
  - apply Forall_forall. intros u (id & -> & Hid)%list_elem_of_fmap.
    apply list_elem_of_filter in Hid as [_ (b & -> & Hin)%list_elem_of_fmap].
    apply elem_of_seq in Hin. unfold level_of in Hin.
    destruct (path_removal (DEPTH - b) k ltac:(lia) Hk) as (q & Hbq & Hcq & He).
    assert (Hlb : level_of (DEPTH - b) = b) by (unfold level_of; lia). rewrite Hlb in He.
    exists (DEPTH - b)%nat, q. split_and!; [lia|lia|done| |exact He].
    eapply block_sub; [done..|lia|done|done].
  - intros m q Hmn Hbq Hsub.
    assert (Hnm' : ~ many (view l) m q) by (intros Hm; apply Hnm; by eapply many_sub).
    split; [done|]. intros _. apply after_removals.
    { apply Forall_forall. by intros u (id & -> & _)%list_elem_of_fmap. }
    destruct (decide (Nodes_get N (node_id m q) = None)) as [?|Hsome]; [by left|right].
    assert (Hcq : covers m q (kz k)).
    { destruct (decide (q <= kz k < q + span m)) as [?|Hout]; [done|]. exfalso. apply Hsome.
      apply (HN m q); [lia|done|]. intros Hm. apply Hnm'. eapply many_ext, Hm.
      intros z Hz. symmetry. apply Hf; [by apply Hsub|]. cbn. intros ->%list_elem_of_singleton. done. }
    apply list_elem_of_fmap. exists (node_id m q, None). split; [done|].
    apply list_elem_of_fmap. exists (node_id m q). split; [done|]. apply list_elem_of_filter. split.
    + by apply not_eq_None_Some.
    + apply list_elem_of_fmap. exists (level_of m). split.
      * unfold node_id. f_equal. symmetry. by apply block_prefix.
      * apply elem_of_seq. unfold level_of. lia.
Qed.

Lemma lone_change_spec n p ks k found :
  block n p -> lone_change l (level_of n) (key_of p) ks = Some (k, found) ->
  ks = [k] /\ found = in_block l n p /\ (length (in_block l n p) <= 1)%nat.
Proof.
  intros Hb. unfold lone_change. destruct ks as [|k' [|]]; [done| |done]. fold (in_block l n p).
  destruct (Nat.leb_spec (length (in_block l n p)) 1); [|done]. intros [= -> <-]. done.
Qed.

(** One key changed in a subtree that is left with at most one leaf. *)
Lemma recompute_lone n p k us memo :
  block n p -> in_order n p [k] -> fresh n p [k] -> memo_ok memo -> (length (in_block l n p) <= 1)%nat ->
  exists us' memo',
    match in_block l n p with
    | (leaf_key, value) :: _ =>
        let '(h, memo) := single_leaf_hash sha3_256 defs leaf_key value (level_of n) memo in
        Done (h, us ++ path_removals N (level_of n) k, memo)
    | [] => Done (default_at defs (level_of n), us ++ path_removals N (level_of n) k, memo)
    end = Done (tree_hash (view l) n p, us ++ us', memo') /\
    settles (view l) N n p us' /\ memo_ok memo'.
Proof.
  intros Hb [_ [[Hk Hc] _]%Forall_cons] Hf Hm Hlen.
  assert (Hset : settles (view l) N n p (path_removals N (level_of n) k)).
  { apply path_removals_settle; [done..|]. intros Hmany. apply branch_many in Hmany; [|done..].
    apply Nat.leb_le in Hmany. lia. }
  exists (path_removals N (level_of n) k).
  pose proof (in_block_cases l n p Hl Hb) as Hcase.
  destruct (in_block l n p) as [|[k' v] [|e rest]]; [| |cbn in Hlen; lia].
  - exists memo. rewrite default_at_level, tree_hash_vacant by (by destruct Hb || done). done.
  - destruct Hcase as [Hk' Hcase]. destruct (lonely_hash l n p k' v memo) as (memo' & -> & ?); [done..|].
    by exists memo'.
Qed.

Lemma fresh_halves m p ks :
  block (S m) p -> in_order (S m) p ks -> fresh (S m) p ks ->
  let split := partition_point (level_of (S m)) ks in
  fresh m p (take split ks) /\ fresh m (p + span m) (drop split ks).
Proof.
  intros Hb Ho Hf. cbn zeta. destruct (partition_halves m p ks Hb Ho) as [[_ H1] [_ H2]].
  rewrite Forall_forall in H1, H2. split; intros z Hz Hn; apply Hf.
  1, 3: apply covers_split; tauto.
  all: rewrite <- (take_drop (partition_point (level_of (S m)) ks) ks), map_app, elem_of_app.
  - intros [?|(k & -> & Hk)%list_elem_of_fmap]; [done|]. destruct (H2 k Hk) as [_ ?]. unfold covers in *. lia.
  - intros [(k & -> & Hk)%list_elem_of_fmap|?]; [|done]. destruct (H1 k Hk) as [_ ?]. unfold covers in *. lia.
Qed.

(** What is written for the subtree itself. *)
Lemma own_update_good n p us :
  (1 <= n)%nat -> block n p ->
  let id := node_id n p in
  exists us3,
    (if (2 <=? length (in_block l n p))%nat then us ++ [(id, Some (tree_hash (view l) n p))]
     else if bool_decide (is_Some (Nodes_get N id)) then us ++ [(id, None)] else us) = us ++ us3 /\
    Forall (fun u => u.1 = id) us3 /\ good (view l) (after (Nodes_get N id) us3 id) n p.
Proof.
  intros Hn Hb id. pose proof (branch_many l n p Hl Hb) as Hm.
  destruct (2 <=? length (in_block l n p))%nat.
  - eexists. split; [done|]. split; [by repeat constructor|]. cbn. rewrite decide_True by done.
    split; [done|]. intros Hno. destruct Hno. by apply Hm.
  - assert (Hno : ~ many (view l) n p) by (rewrite <- Hm; done). case_bool_decide as Hs.
    + eexists. split; [done|]. split; [by repeat constructor|]. cbn. rewrite decide_True by done. done.
    + exists []. rewrite app_nil_r. split; [done|]. split; [constructor|]. cbn. split; [done|].
      intros _. by apply eq_None_not_Some.
Qed.

(** Recomputing along the changed keys gives the hash of the new tree, never reaches the
    missing-node panic, and leaves the cache right. *)
Lemma recompute_ok n : rec_ok n (recompute sha3_256 l defs N n) (fun ks => ks <> []).
Proof.
  induction n as [|m IH]; intros p ks us memo Hb Hne Ho Hf Hm.
  - exists [], memo. rewrite app_nil_r. cbn. fold (view l p). rewrite default_at_bottom.
    split_and!; [done| |done]. split; [constructor|]. intros m q Hm0. lia.
  - cbn [recompute].
    destruct (lone_change l (level_of (S m)) (key_of p) ks) as [[k found]|] eqn:E.
    { apply lone_change_spec in E as (-> & -> & Hlen); [|done]. by apply recompute_lone. }
    clear E. destruct (level_of_S m) as (_ & _ & Hlv); [by destruct Hb|]. rewrite Hlv.
    destruct (partition_halves m p ks Hb Ho) as [Ho1 Ho2].
    destruct (fresh_halves m p ks Hb Ho Hf) as [Hf1 Hf2].
    pose proof (side_ok m _ IH) as Hside.
    destruct (Hside p _ us memo (block_left m p Hb) I Ho1 Hf1 Hm) as (us1 & memo1 & -> & Hs1 & Hm1).
    cbn [obind]. rewrite (block_with_bit m p Hb).
    match goal with |- context [if ?b then [] else us ++ us1] => set (parallel := b) end.
    destruct (Hside _ _ (if parallel then [] else us ++ us1) memo1 (block_right m p Hb) I Ho2 Hf2 Hm1)
      as (us2 & memo2 & -> & Hs2 & Hm2).
    assert (Happ : (if parallel then (us ++ us1) ++ (if parallel then [] else us ++ us1) ++ us2
      else (if parallel then [] else us ++ us1) ++ us2) = (us ++ us1) ++ us2) by (by destruct parallel).
    cbn [obind]. rewrite Happ. fold (in_block l (S m) p). fold (node_id (S m) p).
    change (node (tree_hash (view l) m p) (tree_hash (view l) m (p + span m)))
      with (tree_hash (view l) (S m) p).
    destruct (own_update_good (S m) p ((us ++ us1) ++ us2) ltac:(lia) Hb) as (us3 & E3 & H3 & Hg).
    exists (us1 ++ us2 ++ us3), memo2. split_and!; [|by apply settles_node|done].
    rewrite !app_assoc. f_equal. f_equal. f_equal. exact E3.
Qed.
End Recompute.
End Tree.
