(* ===== verification/TrieSpec.v ===== *)
(** * What the state trie promises

    The invariant that ties a trie's node cache to its leaves, its preservation
    by every operation, the reference tree the root is compared with, and
    proofs: completeness, and soundness as far as the hash separates the strings
    that are hashed.  The client's view is a finite map: [run] performs any
    history of operations and [model] is the map it stands for. *)

From stdpp Require Import sorting.
From S2P Require Import Prelude Codec Keys Trie TrieCorrect.

#[local] Opaque chain_hash default_hashes key_of kz tree_hash.

(** ** Overlays: a base map under a delta *)

Definition overlay {K A} `{Countable K} (b : gmap K A) (d : gmap K (option A)) (k : K) : option A :=
  match d !! k with Some e => e | None => b !! k end.

Lemma change_lookup {K A} `{Countable K} (m : gmap K A) u k :
  change m u !! k = if decide (u.1 = k) then u.2 else m !! k.
Proof.
  unfold change. destruct u as [i [v|]]; cbn [fst snd]; destruct (decide (i = k)) as [->|Hne].
  - apply lookup_insert_eq.
  - by apply lookup_insert_ne.
  - apply lookup_delete_eq.
  - by apply lookup_delete_ne.
Qed.

Lemma fold_changes_lookup {K A} `{Countable K} (b : gmap K A) us k :
  NoDup (us.*1) ->
  foldr (fun u m => change m u) b us !! k =
  match (list_to_map us : gmap K (option A)) !! k with Some e => e | None => b !! k end.
Proof.
  induction us as [|[i e] us IH]; intros Hnd; cbn [foldr].
  { change (list_to_map []) with (∅ : gmap K (option A)). by rewrite lookup_empty. }
  cbn in Hnd. apply NoDup_cons in Hnd as [_ Hnd]. rewrite change_lookup. cbn [fst snd list_to_map foldr].
  destruct (decide (i = k)) as [->|Hne].
  - cbn. by rewrite lookup_insert_eq.
  - rewrite IH by done. cbn. by rewrite lookup_insert_ne.
Qed.

(** Folding a delta into its base does not change what is read. *)
Lemma fold_delta_overlay {K A} `{Countable K} (unique : bool) (b : gmap K A) d k :
  let '(b', d') := fold_delta unique b d in overlay b' d' k = overlay b d k.
Proof.
  unfold fold_delta. case_bool_decide; [done|]. destruct (negb unique && _); [done|].
  unfold overlay. rewrite lookup_empty, fold_changes_lookup by apply NoDup_fst_map_to_list.
  by rewrite list_to_map_to_list.
Qed.

Lemma fold_delta_keys {A} (unique : bool) (b : gmap Key A) (d : gmap Key (option A)) :
  keys_ok b -> keys_ok d ->
  let '(b', d') := fold_delta unique b d in keys_ok b' /\ keys_ok d'.
Proof.
  intros Hb Hd. unfold fold_delta. case_bool_decide; [done|]. destruct (negb unique && _); [done|].
  split; [|intros k v; by rewrite lookup_empty]. intros k v.
  rewrite fold_changes_lookup, list_to_map_to_list by apply NoDup_fst_map_to_list.
  destruct (d !! k) eqn:E; [by intros; apply Hd in E|apply Hb].
Qed.

(** ** Writing one leaf *)

Lemma write_leaf_get unique l key e k :
  Leaves_get (write_leaf unique l key e) k = if decide (key = k) then e else Leaves_get l k.
Proof.
  unfold write_leaf. destruct (unique && _) eqn:E.
  - apply andb_true_iff in E as [_ E]. apply bool_decide_eq_true in E.
    unfold Leaves_get. cbn [base delta]. rewrite E, !lookup_empty, change_lookup. done.
  - unfold Leaves_get. cbn [base delta]. destruct (decide (key = k)) as [->|Hne].
    + by rewrite lookup_insert_eq.
    + by rewrite lookup_insert_ne.
Qed.

Lemma write_leaf_ok unique l key e : leaves_ok l -> key_ok key -> leaves_ok (write_leaf unique l key e).
Proof.
  intros [Hb Hd] Hk. unfold write_leaf. destruct (unique && _); split; cbn [base delta]; try done.
  - intros k v. rewrite change_lookup. cbn. destruct (decide (key = k)) as [->|]; [done|apply Hb].
  - intros k v. destruct (decide (key = k)) as [->|]; [done|]. rewrite lookup_insert_ne by done. apply Hd.
Qed.

(** ** Applying updates to the cache *)

Lemma apply_updates_get unique N us id :
  Nodes_get (apply_updates unique N us) id = after (Nodes_get N id) us id.
Proof.
  unfold apply_updates. destruct (unique && _) eqn:E; unfold Nodes_get; cbn [node_base node_delta].
  - apply andb_true_iff in E as [_ E]. apply bool_decide_eq_true in E. rewrite E, !lookup_empty.
    generalize (node_base N). induction us as [|u us IH]; intros m; [done|]. cbn [foldl].
    rewrite IH, change_lookup. done.
  - generalize (node_delta N). induction us as [|[i h] us IH]; intros d; [done|]. cbn [foldl].
    rewrite IH. unfold after. cbn [foldl fst snd]. f_equal. destruct (decide (i = id)) as [->|].
    + by rewrite lookup_insert_eq.
    + by rewrite lookup_insert_ne.
Qed.

(** ** Sorted sets of keys *)

Lemma sorted_keys_spec (s : gset Key) :
  (forall k, k ∈ s -> key_ok k) ->
  StronglySorted (fun a b => kz a < kz b) (sorted_keys s) /\ (forall k, k ∈ sorted_keys s <-> k ∈ s).
Proof.
  intros Hok. unfold sorted_keys. set (es := map (fun k => (k, tt)) (elements s)).
  assert (Hfst : es.*1 = elements s) by (unfold es; rewrite <- list_fmap_compose; apply list_fmap_id).
  destruct (sorted_entries es) as [Hs He].
  - rewrite Hfst. apply NoDup_elements.
  - apply Forall_forall. intros e (k & -> & Hk)%list_elem_of_fmap. apply Hok. by apply elem_of_elements.
  - split.
    + clear He. induction Hs as [|e es' Hs IH Hf]; cbn [map]; [constructor|]. constructor; [done|].
      rewrite Forall_forall in Hf. apply Forall_forall. intros k (e' & -> & He')%list_elem_of_fmap. by apply Hf.
    + intros k. rewrite list_elem_of_fmap. split.
      * intros (e & -> & Hin). apply He in Hin. apply (list_elem_of_fmap_2 fst) in Hin.
        rewrite Hfst in Hin. by apply elem_of_elements.
      * intros Hk. exists (k, tt). split; [done|]. apply He. apply list_elem_of_fmap.
        exists k. split; [done|]. by apply elem_of_elements.
Qed.

(** ** The invariant *)

Section Ops.
Variable sha3_256 : list byte -> Hash.

Local Notation defs := (default_hashes sha3_256).
Local Notation tree := (tree_hash sha3_256).

(** [g0] are the leaves at the time of the last root. *)
Record describes (t : Trie) (g0 : Z -> option (list byte)) : Prop := {
  inv_leaves : leaves_ok (leaves t);
  inv_defaults : defaults t = defs;
  inv_nodes : nodes_good sha3_256 g0 (nodes t);
  inv_root : cached_root t = tree g0 DEPTH 0;
  inv_changed : forall k, k ∈ changed t -> key_ok k;
  inv_fresh : forall z, 0 <= z < 2 ^ 256 -> key_of z ∉ changed t -> view (leaves t) z = g0 z
}.

Definition trie_inv (t : Trie) : Prop := exists g0, describes t g0.

Lemma whole_block : block DEPTH 0.
Proof. unfold block. change (span DEPTH) with (2 ^ 256).  split_and!; [lia|lia|lia|done]. Qed.

Lemma Trie_new_inv : trie_inv (Trie_new sha3_256).
Proof.
  exists (fun _ => None). split; cbn [Trie_new leaves defaults nodes cached_root changed].
  - split; intros k v; cbn [base delta]; by rewrite lookup_empty.
  - done.
  - intros n p Hn Hb. unfold Nodes_get. cbn [node_base node_delta]. rewrite !lookup_empty. split; [|done].
    intros (y & z & _ & _ & _ & [? ?] & _). done.
  - rewrite tree_hash_vacant by done. by apply (default_at_level sha3_256 DEPTH).
  - set_solver.
  - intros z _ _. unfold view, Leaves_get. cbn [base delta]. by rewrite !lookup_empty.
Qed.

Lemma touch_inv unique t key e :
  trie_inv t -> key_ok key -> trie_inv (touch t (write_leaf unique (leaves t) key e) key).
Proof.
  intros [g0 []] Hk. exists g0. split; cbn [touch leaves defaults nodes cached_root changed]; try done.
  - by apply write_leaf_ok.
  - intros k [->%elem_of_singleton|?]%elem_of_union; auto.
  - intros z Hz Hn. apply not_elem_of_union in Hn as [Hn1 Hn2]. rewrite <- inv_fresh0 by done.
    unfold view. rewrite write_leaf_get, decide_False; [done|]. intros Heq. apply Hn1. by apply elem_of_singleton.
Qed.

Lemma Trie_insert_inv unique t key v :
  trie_inv t -> key_ok key -> trie_inv (Trie_insert unique t key v).
Proof. apply touch_inv. Qed.

Lemma Trie_remove_inv unique t key :
  trie_inv t -> key_ok key -> trie_inv (Trie_remove unique t key).2.
Proof.
  intros Ht Hk. unfold Trie_remove. destruct (contains_key _ _); cbn [snd]; [by apply touch_inv|done].
Qed.

Lemma compact_get ul un t :
  (forall k, Leaves_get (leaves (compact ul un t)) k = Leaves_get (leaves t) k) /\
  (forall id, Nodes_get (nodes (compact ul un t)) id = Nodes_get (nodes t) id).
Proof.
  unfold compact. split.
  - intros k. pose proof (fold_delta_overlay ul (base (leaves t)) (delta (leaves t)) k) as H.
    destruct (fold_delta ul _ _) as [b d]. destruct (fold_delta un _ _) as [nb nd]. exact H.
  - intros id. pose proof (fold_delta_overlay un (node_base (nodes t)) (node_delta (nodes t)) id) as H.
    destruct (fold_delta ul _ _) as [b d]. destruct (fold_delta un _ _) as [nb nd]. exact H.
Qed.

Lemma compact_same ul un t :
  defaults (compact ul un t) = defaults t /\ cached_root (compact ul un t) = cached_root t /\
  changed (compact ul un t) = changed t /\ persist_dirty (compact ul un t) = persist_dirty t.
Proof.
  unfold compact. destruct (fold_delta ul _ _) as [b d]. destruct (fold_delta un _ _) as [nb nd]. done.
Qed.

Lemma compact_leaves_ok ul un t : leaves_ok (leaves t) -> leaves_ok (leaves (compact ul un t)).
Proof.
  intros [Hb Hd]. unfold compact. pose proof (fold_delta_keys ul _ _ Hb Hd) as H.
  destruct (fold_delta ul _ _) as [b d]. destruct (fold_delta un _ _) as [nb nd]. exact H.
Qed.

Lemma compact_inv ul un t : trie_inv t -> trie_inv (compact ul un t).
Proof.
  intros [g0 []]. destruct (compact_get ul un t) as [Hl Hn].
  destruct (compact_same ul un t) as (Hd & Hr & Hc & _). exists g0. split.
  - by apply compact_leaves_ok.
  - by rewrite Hd.
  - intros n p ? ?. rewrite Hn. by apply inv_nodes0.
  - by rewrite Hr.
  - by rewrite Hc.
  - intros z Hz. rewrite Hc. unfold view. rewrite Hl. by apply inv_fresh0.
Qed.

(** ** The root *)

(** The root of a trie is the hash of the tree over its leaves; afterwards the cache
    describes exactly these leaves. *)
Lemma root_ok unique t memo :
  trie_inv t -> memo_ok sha3_256 memo ->
  exists t' memo', root sha3_256 unique t memo = Done (tree (view (leaves t)) DEPTH 0, t', memo') /\
    memo_ok sha3_256 memo' /\ leaves t' = leaves t /\ persist_dirty t' = persist_dirty t /\
    changed t' = ∅ /\ describes t' (view (leaves t)).
Proof.
  intros [g0 []] Hm. unfold root. case_bool_decide as Hch.
  - exists t, memo.
    assert (He : forall z, 0 <= z < 2 ^ 256 -> view (leaves t) z = g0 z).
    { intros z Hz. apply inv_fresh0; [done|]. rewrite Hch. set_solver. }
    assert (Hb : forall n p, block n p -> forall z, covers n p z -> g0 z = view (leaves t) z).
    { intros n p Hb z Hz. symmetry. apply He. by eapply block_range. }
    rewrite inv_root0, (tree_hash_ext sha3_256 g0 (view (leaves t))) by (by apply Hb, whole_block).
    split_and!; try done. split; try done.
    + intros n p Hn Hbl. eapply good_ext; [by apply Hb|by apply inv_nodes0].
    + rewrite inv_root0. apply tree_hash_ext, Hb, whole_block.
  - destruct (sorted_keys_spec (changed t) inv_changed0) as [Hs He].
    destruct (recompute_ok sha3_256 (leaves t) g0 (nodes t) inv_leaves0 inv_nodes0 DEPTH
      0 (sorted_keys (changed t)) [] memo whole_block) as (us & memo' & Hrec & [_ Hset] & Hm').
    + intros Hnil. apply Hch. apply set_eq. intros k. rewrite <- He, Hnil. set_solver.
    + split; [done|]. apply Forall_forall. intros k Hk. apply He in Hk.
      split; [by apply inv_changed0|]. unfold covers. change (span DEPTH) with (2 ^ 256).
      pose proof (kz_range k (inv_changed0 k Hk)). lia.
    + intros z Hz Hn. assert (0 <= z < 2 ^ 256) by (eapply block_range; [exact whole_block|done]).
      apply inv_fresh0; [done|]. intros Hin. apply Hn. apply list_elem_of_fmap.
      exists (key_of z). split; [by rewrite kz_of|]. by apply He.
    + done.
    + rewrite inv_defaults0. change (zeros KEY_LEN) with (key_of 0). rewrite Hrec. cbn [obind].
      eexists _, memo'. split; [reflexivity|]. split_and!; try done.
      split; cbn [leaves defaults nodes cached_root changed]; try done.
      intros n p Hn Hb. rewrite apply_updates_get. apply Hset; [destruct Hb; lia|done|].
      intros z Hz. pose proof (block_range _ _ _ Hb Hz). unfold covers. change (span DEPTH) with (2 ^ 256).
      lia.
Qed.

(** ** The reference *)

Definition lists_block (l : Leaves) (es : list (Key * Hash)) (n : nat) (p : Z) : Prop :=
  in_order n p (map fst es) /\
  forall k h, (k, h) ∈ es <->
    exists v, Leaves_get l k = Some v /\ h = state_leaf_hash sha3_256 v /\ covers n p (kz k).

Lemma lists_halves l es m p :
  block (S m) p -> lists_block l es (S m) p ->
  let split := partition_point (level_of (S m)) (map fst es) in
  lists_block l (take split es) m p /\ lists_block l (drop split es) m (p + span m).
Proof.
  intros Hb [Ho He]. cbn zeta. set (split := partition_point _ _).
  pose proof (partition_halves m p _ Hb Ho) as [Ho1 Ho2]. fold split in Ho1, Ho2.
  unfold lists_block. rewrite <- fmap_take, <- fmap_drop in *.
  assert (Hin1 : forall k h, (k, h) ∈ take split es -> covers m p (kz k)).
  { intros k h Hin. destruct Ho1 as [_ Hf]. rewrite Forall_forall in Hf.
    by apply Hf, (list_elem_of_fmap_2 fst (take split es) (k, h)). }
  assert (Hin2 : forall k h, (k, h) ∈ drop split es -> covers m (p + span m) (kz k)).
  { intros k h Hin. destruct Ho2 as [_ Hf]. rewrite Forall_forall in Hf.
    by apply Hf, (list_elem_of_fmap_2 fst (drop split es) (k, h)). }
  setoid_rewrite <- (take_drop split es) in He. setoid_rewrite elem_of_app in He.
  setoid_rewrite covers_split in He.
  assert (Hex : forall z, covers m p z -> covers m (p + span m) z -> False) by (unfold covers; lia).
  split; (split; [done|]); intros k h; split.
  - intros Hin. destruct (proj1 (He k h) (or_introl Hin)) as (v & ? & ? & _). eauto.
  - intros (v & ? & ? & Hc). destruct (proj2 (He k h)) as [?|Hin]; [eauto|done|].
    destruct (Hex (kz k)); eauto.
  - intros Hin. destruct (proj1 (He k h) (or_intror Hin)) as (v & ? & ? & _). eauto.
  - intros (v & ? & ? & Hc). destruct (proj2 (He k h)) as [Hin|?]; [eauto| |done].
    destruct (Hex (kz k)); eauto.
Qed.

Lemma subtree_tree l es n p :
  leaves_ok l -> block n p -> lists_block l es n p ->
  subtree sha3_256 defs es n = tree (view l) n p.
Proof.
  intros Hl. revert es p. induction n as [|m IH]; intros es p Hb Hes.
  all: assert (Hvac : es = [] -> vacant (view l) _ p) by
    (intros ->; intros z Hz; destruct (view l z) as [v|] eqn:Hv; [|done];
     destruct Hes as [_ He]; exfalso; apply (not_elem_of_nil (key_of z, state_leaf_hash sha3_256 v));
     apply He; exists v; split_and!; [done|done|]; by rewrite kz_of by (by eapply block_range)).
  - destruct es as [|[k h] es].
    { rewrite tree_hash_vacant by auto. apply (default_at_level sha3_256 0). lia. }
    destruct Hes as [[_ [[Hk _] _]%Forall_cons] He].
    destruct (proj1 (He k h) ltac:(set_solver)) as (v & Hv & -> & Hc).
    assert (p = kz k) as -> by (unfold covers, span in Hc; cbn in Hc; lia).
    cbn [fst subtree snd]. rewrite tree_hash_leaf, view_kz, Hv by done. done.
  - destruct es as [|e es].
    { rewrite tree_hash_vacant by auto. apply (default_at_level sha3_256 (S m)). by destruct Hb. }
    cbn [subtree]. destruct (lists_halves l (e :: es) m p Hb Hes) as [H1 H2].
    rewrite tree_hash_node. f_equal; apply IH; [by apply block_left|done|by apply block_right|done].
Qed.

Lemma entries_block l : leaves_ok l -> lists_block l (entries sha3_256 l) DEPTH 0.
Proof.
  intros [Hb Hd]. unfold entries.
  assert (Hsort : forall A (m : gmap Key A), keys_ok m ->
    let out := merge_sort entry_le (map_to_list m) in
    strictly out /\ list_keys_ok out /\ forall k v, (k, v) ∈ out <-> m !! k = Some v /\ True).
  { intros A m Hm. cbn zeta. assert (Hok : list_keys_ok (map_to_list m)).
    { apply Forall_forall. intros [k v] Hin. apply elem_of_map_to_list in Hin. by apply Hm in Hin. }
    destruct (sorted_entries (map_to_list m)) as [Hs He]; [apply NoDup_fst_map_to_list|done|].
    split_and!; [done| |].
    - apply Forall_forall. intros e Hin. apply He in Hin. unfold list_keys_ok in Hok.
      rewrite Forall_forall in Hok. by apply Hok.
    - intros k v. rewrite He, elem_of_map_to_list. tauto. }
  destruct (Hsort _ _ Hb) as (B1 & B2 & B3). destruct (Hsort _ _ Hd) as (D1 & D2 & D3).
  destruct (leaf_merge_spec (fun _ => True) l _ _ B1 D1 B2 D2 B3 D3) as (S1 & S2 & S3).
  set (out := leaf_merge _ _ _) in *.
  assert (Hcov : forall k, key_ok k -> covers DEPTH 0 (kz k)).
  { intros k Hk. pose proof (kz_range k Hk). unfold covers. change (span DEPTH) with (2 ^ 256). lia. }
  split.
  - rewrite map_map. cbn [fst]. split.
    + clear S2 S3. induction S1 as [|e out' S1 IH Hf]; cbn [map]; [constructor|]. constructor; [done|].
      rewrite Forall_forall in Hf. apply Forall_forall. intros k (e' & -> & He')%list_elem_of_fmap.
      by apply Hf.
    + apply Forall_forall. intros k (e & -> & He)%list_elem_of_fmap. unfold list_keys_ok in S2.
      rewrite Forall_forall in S2. auto.
  - intros k h. rewrite list_elem_of_fmap. split.
    + intros ([k' v] & [= -> ->] & Hin). cbn [fst snd]. apply S3 in Hin as [Hv _]. exists v.
      split_and!; [done|done|]. apply Hcov. by eapply Leaves_get_key.
    + intros (v & Hv & -> & _). exists (k, v). split; [done|]. by apply S3.
Qed.

(** The root of a whole map, as the code's full recomputation gives it. *)
Definition map_root (m : gmap Key (list byte)) : Hash :=
  subtree sha3_256 defs (entries sha3_256 (mkLeaves m ∅)) DEPTH.

Lemma map_root_tree m l :
  leaves_ok l -> keys_ok m -> (forall k, Leaves_get l k = m !! k) ->
  map_root m = tree (view l) DEPTH 0.
Proof.
  intros Hl Hm He. unfold map_root.
  assert (Hok : leaves_ok (mkLeaves m ∅)).
  { split; [done|]. intros k v. cbn. by rewrite lookup_empty. }
  rewrite (subtree_tree (mkLeaves m ∅) _ DEPTH 0 Hok whole_block) by (by apply entries_block).
  apply tree_hash_ext. intros z _. unfold view. rewrite He. unfold Leaves_get. cbn [base delta].
  by rewrite lookup_empty.
Qed.

(** ** Proofs *)

Lemma cached_subtree_ok l N n p memo :
  leaves_ok l -> nodes_good sha3_256 (view l) N -> block n p -> memo_ok sha3_256 memo ->
  exists memo', cached_subtree sha3_256 l defs N n (key_of p) memo = (tree (view l) n p, memo') /\
    memo_ok sha3_256 memo'.
Proof.
  intros Hl HN Hb Hm. destruct n as [|m].
  - exists memo. cbn [cached_subtree]. rewrite default_at_bottom. done.
  - cbn [cached_subtree]. fold (node_id (S m) p). fold (in_block l (S m) p).
    destruct (HN (S m) p ltac:(lia) Hb) as [Hyes Hno]. pose proof (branch_many l (S m) p Hl Hb) as Hbr.
    pose proof (in_block_cases l (S m) p Hl Hb) as Hc.
    destruct (Nodes_get N (node_id (S m) p)) as [h|].
    + exists memo. split; [|done]. f_equal.
      destruct (2 <=? length (in_block l (S m) p))%nat.
      * apply (inj Some), Hyes. by apply Hbr.
      * assert (~ many (view l) (S m) p) by (rewrite <- Hbr; done). naive_solver.
    + destruct (in_block l (S m) p) as [|[k v] [|e rest]].
      * exists memo. rewrite default_at_level, tree_hash_vacant by (by destruct Hb || done). done.
      * destruct Hc as [Hk Hc]. by apply lonely_hash.
      * by apply Hyes in Hc.
Qed.

(** The subtrees on the path of a key and their siblings. *)
Definition path_start (k : Key) (m : nat) : Z := kz k - kz k mod span m.

Definition sibling_start (k : Key) (m : nat) : Z :=
  if Z.testbit (kz k) (Z.of_nat m) then path_start k m - span m else path_start k m + span m.

Lemma path_step k m :
  key_ok k -> (m < DEPTH)%nat ->
  let up := path_start k (S m) in
  block (S m) up /\
  (if Z.testbit (kz k) (Z.of_nat m)
   then path_start k m = up + span m /\ sibling_start k m = up
   else path_start k m = up /\ sibling_start k m = up + span m).
Proof.
  intros Hk Hm up. destruct (block_of (S m) (kz k) ltac:(lia) (kz_range k Hk)) as [Hb Hc].
  destruct (block_of m (kz k) ltac:(lia) (kz_range k Hk)) as [Hb' Hc'].
  fold (path_start k (S m)) in Hb, Hc. fold up in Hb, Hc. fold (path_start k m) in Hb', Hc'.
  split; [done|]. unfold sibling_start. rewrite (block_bit m up) by done.
  pose proof (block_left m up Hb) as Hbl. pose proof (block_right m up Hb) as Hbr.
  assert (Huniq : forall q, block m q -> covers m q (kz k) -> path_start k m = q).
  { intros q Hbq Hcq.
    pose proof (block_sub m _ m q (kz k) Hb' Hbq ltac:(lia) Hc' Hcq _ (block_start _ _ Hb')).
    pose proof (block_sub m q m _ (kz k) Hbq Hb' ltac:(lia) Hcq Hc' _ (block_start _ _ Hbq)).
    unfold covers in *. lia. }
  unfold covers in Hc. rewrite span_S in Hc. destruct (Z.ltb_spec (kz k) (up + span m)); cbn [negb].
  - rewrite (Huniq up) by (done || unfold covers; lia). lia.
  - rewrite (Huniq (up + span m)) by (done || unfold covers; lia). lia.
Qed.

Lemma sibling_key k m :
  key_ok k -> (m < DEPTH)%nat ->
  block m (sibling_start k m) /\
  flip_bit (prefix_at k (level_of (S m) + 1)) (level_of (S m)) = key_of (sibling_start k m).
Proof.
  intros Hk Hm. destruct (path_step k m Hk Hm) as [Hb Hs]. cbn zeta in Hb, Hs.
  destruct (level_of_S m ltac:(lia)) as (Hl & He & ->).
  destruct (block_of m (kz k) ltac:(lia) (kz_range k Hk)) as [Hb' Hc'].
  fold (path_start k m) in Hb', Hc'. rewrite (block_prefix m (path_start k m)) by done.
  destruct (block_key m _ Hb') as [Hpk Hpz].
  destruct (flip_bit_kz (key_of (path_start k m)) (level_of (S m)) Hpk Hl) as [Hfk Hfz].
  pose proof (block_left _ _ Hb) as Hbl. pose proof (block_right _ _ Hb) as Hbr.
  assert (Hbs : block m (sibling_start k m)) by (destruct (Z.testbit _ _); destruct Hs as [_ ->]; done).
  split; [done|]. destruct (block_key m _ Hbs) as [Hsk Hsz]. apply kz_inj; [done..|].
  rewrite Hfz, Hsz, Hpz, He. fold (span m).
  rewrite (block_bit m (path_start k (S m))); [|done|].
  - pose proof (block_bit m _ (kz k) Hb) as Hkb. unfold sibling_start in *. pose proof (span_pos m).
    destruct (Z.testbit (kz k) (Z.of_nat m)); destruct Hs as [Hs1 Hs2];
      destruct (Z.ltb_spec (path_start k m) (path_start k (S m) + span m)); cbn [negb]; lia.
  - unfold covers. rewrite span_S. pose proof (span_pos m).
    destruct (Z.testbit (kz k) (Z.of_nat m)); destruct Hs as [-> _]; lia.
Qed.

Lemma prove_loop_ok t k n memo :
  describes t (view (leaves t)) -> key_ok k -> (n <= DEPTH)%nat -> memo_ok sha3_256 memo ->
  exists hs memo', prove_loop sha3_256 t k n memo = (hs, memo') /\ memo_ok sha3_256 memo' /\
    length hs = n /\
    forall i, (i < n)%nat ->
      nth i hs [] = tree (view (leaves t)) (n - 1 - i) (sibling_start k (n - 1 - i)).
Proof.
  intros [] Hk. revert memo. induction n as [|m IH]; intros memo Hn Hm; cbn [prove_loop].
  - exists [], memo. split_and!; try done. lia.
  - destruct (sibling_key k m Hk ltac:(lia)) as [Hb ->]. rewrite inv_defaults0.
    destruct (cached_subtree_ok (leaves t) (nodes t) m (sibling_start k m) memo) as (memo1 & -> & Hm1);
      [done..|].
    destruct (IH memo1 ltac:(lia) Hm1) as (hs & memo2 & -> & Hm2 & Hlen & Hnth).
    eexists _, memo2. split; [reflexivity|]. split_and!; [done|cbn [length]; lia|].
    intros [|i] Hi; cbn [nth]; [by replace (S m - 1 - 0)%nat with m by lia|].
    rewrite Hnth by lia. by replace (S m - 1 - S i)%nat with (m - 1 - i)%nat by lia.
Qed.

Definition verify_step (k : Key) (hs : list Hash) (h : Hash) (level : nat) : Hash :=
  let level' := (level - 1)%nat in
  let sibling := nth level' hs [] in
  if key_bit k level' =? 0 then node_hash sha3_256 h sibling else node_hash sha3_256 sibling h.

Lemma verify_loop_snoc n k hs h level :
  verify_loop sha3_256 (S n) k hs h level =
  verify_step k hs (verify_loop sha3_256 n k hs h level) (level - n).
Proof.
  revert h level. induction n as [|n IH]; intros h level.
  - cbn [verify_loop]. unfold verify_step. by rewrite Nat.sub_0_r.
  - change (verify_loop sha3_256 (S (S n)) k hs h level) with
      (verify_loop sha3_256 (S n) k hs (verify_step k hs h level) (level - 1)).
    rewrite IH. by replace (level - 1 - n)%nat with (level - S n)%nat by lia.
Qed.

(** Climbing with the right siblings passes through the subtrees of the path. *)
Lemma verify_loop_tree (g : Z -> option (list byte)) k hs n :
  key_ok k -> (n <= DEPTH)%nat ->
  (forall i, (i < DEPTH)%nat -> nth i hs [] = tree g (DEPTH - 1 - i) (sibling_start k (DEPTH - 1 - i))) ->
  verify_loop sha3_256 n k hs (leaf_or_default sha3_256 (g (kz k))) DEPTH = tree g n (path_start k n).
Proof.
  intros Hk Hn Hnth. induction n as [|m IH].
  - cbn [verify_loop]. rewrite tree_hash_leaf. do 2 f_equal. unfold path_start.
    change (span 0) with 1. rewrite Z.mod_1_r. lia.
  - rewrite verify_loop_snoc, IH by lia. unfold verify_step.
    replace (DEPTH - m - 1)%nat with (level_of (S m)) by (unfold level_of; lia).
    destruct (level_of_S m ltac:(lia)) as (Hl & He & _). rewrite Hnth by done.
    replace (DEPTH - 1 - level_of (S m))%nat with m by (unfold level_of; lia).
    rewrite key_bit_kz, He by done. rewrite tree_hash_node.
    destruct (path_step k m Hk ltac:(lia)) as [_ Hs]. cbn zeta in Hs.
    destruct (Z.testbit (kz k) (Z.of_nat m)); cbn [Z.b2z Z.eqb]; destruct Hs as [-> ->]; done.
Qed.

Lemma path_start_top k : key_ok k -> path_start k DEPTH = 0.
Proof.
  intros Hk. unfold path_start. change (span DEPTH) with (2 ^ 256). rewrite Z.mod_small; [lia|].
  by apply kz_range.
Qed.

(** A proof carries the stored value and verifies against the root. *)
Lemma prove_ok unique t k memo :
  trie_inv t -> key_ok k -> memo_ok sha3_256 memo ->
  exists pf t' memo', prove sha3_256 unique t k memo = Done (pf, t', memo') /\
    proof_value pf = Trie_get t k /\ length (siblings pf) = DEPTH /\
    Forall (fun s => exists m q, (m < DEPTH)%nat /\ s = tree (view (leaves t)) m q) (siblings pf) /\
    verify sha3_256 k pf (tree (view (leaves t)) DEPTH 0) = true /\
    memo_ok sha3_256 memo' /\ leaves t' = leaves t /\ persist_dirty t' = persist_dirty t /\ trie_inv t'.
Proof.
  intros Ht Hk Hm. unfold prove.
  destruct (root_ok unique t memo Ht Hm) as (t' & memo1 & -> & Hm1 & Hl & Hp & _ & Hd). cbn [obind].
  rewrite <- Hl in Hd.
  destruct (prove_loop_ok t' k DEPTH memo1 Hd Hk ltac:(lia) Hm1) as (hs & memo2 & -> & Hm2 & Hlen & Hnth).
  eexists _, t', memo2. split; [reflexivity|]. cbn [proof_value siblings]. rewrite Hl in *.
  split_and!; try done; [| |by eexists].
  { apply Forall_forall. intros s (i & Hi)%list_elem_of_lookup. pose proof (lookup_lt_Some _ _ _ Hi).
    apply nth_lookup_Some with (d := []) in Hi. rewrite Hnth in Hi by lia.
    subst s. eexists _, _. split; [|reflexivity]. lia. }
  unfold verify. cbn [siblings proof_value].
  rewrite Hlen, Nat.eqb_refl. cbn [negb]. apply bool_decide_eq_true.
  pose proof (verify_loop_tree (view (leaves t)) k hs DEPTH Hk ltac:(lia) Hnth) as Hv.
  rewrite path_start_top, view_kz in Hv by done. exact Hv.
Qed.

(** ** Soundness of proofs *)

(** The strings hashed on the way up. *)
Fixpoint climb_inputs (count : nat) (k : Key) (hs : list Hash) (h : Hash) (level : nat) : list (list byte) :=
  match count with
  | O => []
  | S count =>
      let level' := (level - 1)%nat in
      let sibling := nth level' hs [] in
      let x := NODE_DOMAIN :: (if key_bit k level' =? 0 then h ++ sibling else sibling ++ h) in
      x :: climb_inputs count k hs (sha3_256 x) level'
  end.

Definition leaf_inputs (o : option (list byte)) : list (list byte) :=
  match o with Some v => [LEAF_DOMAIN :: v] | None => [] end.

(** All strings hashed when a proof is verified. *)
Definition verify_inputs (k : Key) (pf : Proof_) : list (list byte) :=
  leaf_inputs (proof_value pf) ++
  climb_inputs DEPTH k (siblings pf) (leaf_or_default sha3_256 (proof_value pf)) DEPTH.

Definition well_sized (pf : Proof_) : Prop :=
  length (siblings pf) = DEPTH /\ Forall (fun s => length s = HASH_LEN) (siblings pf).

Section Sound.
Hypothesis sha3_length : forall x, length (sha3_256 x) = HASH_LEN.

Lemma nth_sized i (hs : list Hash) :
  Forall (fun s => length s = HASH_LEN) hs -> (i < length hs)%nat -> length (nth i hs []) = HASH_LEN.
Proof. intros Hf Hi. rewrite Forall_forall in Hf. by apply Hf, list_elem_of_In, nth_In. Qed.

Lemma climb_unique n k hs hs' h h' level :
  (n <= level)%nat -> length hs = length hs' -> (level <= length hs)%nat ->
  Forall (fun s => length s = HASH_LEN) hs -> Forall (fun s => length s = HASH_LEN) hs' ->
  length h = HASH_LEN -> length h' = HASH_LEN ->
  separates sha3_256 (climb_inputs n k hs h level) (climb_inputs n k hs' h' level) ->
  verify_loop sha3_256 n k hs h level = verify_loop sha3_256 n k hs' h' level ->
  h = h' /\ forall i, (level - n <= i < level)%nat -> nth i hs [] = nth i hs' [].
Proof.
  revert h h' level. induction n as [|n IH]; intros h h' level Hn Hl Hlv Hhs Hhs' Hh Hh' Hsep Heq.
  { split; [done|]. lia. }
  cbn [verify_loop climb_inputs] in Heq, Hsep.
  set (s := nth (level - 1) hs []) in *. set (s' := nth (level - 1) hs' []) in *.
  assert (Hs : length s = HASH_LEN) by (apply nth_sized; [done|lia]).
  assert (Hs' : length s' = HASH_LEN) by (apply nth_sized; [done|lia]).
  set (x := NODE_DOMAIN :: (if key_bit k (level - 1) =? 0 then h ++ s else s ++ h)) in *.
  set (x' := NODE_DOMAIN :: (if key_bit k (level - 1) =? 0 then h' ++ s' else s' ++ h')) in *.
  assert (Hx : (if key_bit k (level - 1) =? 0 then node_hash sha3_256 h s else node_hash sha3_256 s h) =
               sha3_256 x) by (unfold x; by destruct (_ =? _)).
  assert (Hx' : (if key_bit k (level - 1) =? 0 then node_hash sha3_256 h' s' else node_hash sha3_256 s' h') =
               sha3_256 x') by (unfold x'; by destruct (_ =? _)).
  rewrite Hx, Hx' in Heq.
  destruct (IH (sha3_256 x) (sha3_256 x') (level - 1)%nat) as [Hxx Hrest]; try done; try lia.
  { eapply separates_sub; [exact Hsep|..]; intros; by apply elem_of_cons; right. }
  apply Hsep in Hxx; [|by apply elem_of_cons; left..].
  assert (h = h' /\ s = s') as [-> Hss].
  { unfold x, x' in Hxx. apply (inj2 cons) in Hxx as [_ Hxx].
    destruct (key_bit k (level - 1) =? 0); apply app_inj_1 in Hxx as [? ?]; (done || congruence). }
  split; [done|]. intros i Hi. destruct (decide (i = level - 1)%nat) as [->|]; [done|].
  apply Hrest. lia.
Qed.

Lemma leaf_or_default_length o : length (leaf_or_default sha3_256 o) = HASH_LEN.
Proof. destruct o; [apply sha3_length|]. unfold leaf_or_default, DEFAULT_LEAF, zeros. apply length_replicate. Qed.

Lemma tree_hash_length g n p : length (tree g n p) = HASH_LEN.
Proof. destruct n; [rewrite tree_hash_leaf; apply leaf_or_default_length|rewrite tree_hash_node; apply sha3_length]. Qed.

(** Two proofs of one key against one root are the same proof. *)
Lemma verified_unique k pf pf' r :
  well_sized pf -> well_sized pf' ->
  separates sha3_256 (verify_inputs k pf) (verify_inputs k pf') ->
  (forall x, x ∈ verify_inputs k pf ++ verify_inputs k pf' -> sha3_256 x <> DEFAULT_LEAF) ->
  verify sha3_256 k pf r = true -> verify sha3_256 k pf' r = true -> pf = pf'.
Proof.
  intros [Hl Hf] [Hl' Hf'] Hsep Hz. unfold verify. rewrite Hl, Hl', Nat.eqb_refl. cbn [negb].
  rewrite !bool_decide_eq_true. intros Hv Hv'. rewrite <- Hv' in Hv. clear Hv'.
  fold (leaf_or_default sha3_256 (proof_value pf)) in Hv.
  fold (leaf_or_default sha3_256 (proof_value pf')) in Hv.
  destruct (climb_unique DEPTH k (siblings pf) (siblings pf') (leaf_or_default sha3_256 (proof_value pf))
    (leaf_or_default sha3_256 (proof_value pf')) DEPTH) as [Hleaf Hsib];
    [lia|lia|lia|done|done|apply leaf_or_default_length|apply leaf_or_default_length| |exact Hv|].
  { eapply separates_sub; [exact Hsep|..]; intros; apply elem_of_app; by right. }
  assert (Hin : forall pf0 v, proof_value pf0 = Some v -> LEAF_DOMAIN :: v ∈ verify_inputs k pf0).
  { intros pf0 v Hv0. unfold verify_inputs. rewrite Hv0. apply elem_of_app. left. apply elem_of_cons. by left. }
  assert (Hval : proof_value pf = proof_value pf').
  { destruct (proof_value pf) as [v|] eqn:E, (proof_value pf') as [v'|] eqn:E'; [| | |done].
    - apply Hsep in Hleaf; [|by apply Hin..]. by injection Hleaf as ->.
    - exfalso. apply (Hz (LEAF_DOMAIN :: v)); [apply elem_of_app; left; by apply Hin|done].
    - exfalso. apply (Hz (LEAF_DOMAIN :: v')); [apply elem_of_app; right; by apply Hin|done]. }
  destruct pf as [o hs], pf' as [o' hs']. cbn [proof_value siblings] in *. f_equal; [done|].
  apply (nth_ext _ _ [] []); [lia|]. intros i Hi. apply Hsib. lia.
Qed.
End Sound.

(** ** Histories *)

Inductive Op :=
  | OpInsert (unique : bool) (key : Key) (value : list byte)
  | OpRemove (unique : bool) (key : Key)
  | OpCompact (unique_leaves unique_nodes : bool)
  | OpRoot (unique : bool)
  | OpProve (unique : bool) (key : Key)
  | OpTakeDirty.

Definition op_ok (op : Op) : Prop :=
  match op with
  | OpInsert _ k _ | OpRemove _ k | OpProve _ k => key_ok k
  | _ => True
  end.

Definition run_op (s : Trie * Anchors) (op : Op) : outcome (Trie * Anchors) :=
  let '(t, memo) := s in
  match op with
  | OpInsert u k v => Done (Trie_insert u t k v, memo)
  | OpRemove u k => Done ((Trie_remove u t k).2, memo)
  | OpCompact ul un => Done (compact ul un t, memo)
  | OpRoot u => obind (root sha3_256 u t memo) (fun '(_, t, memo) => Done (t, memo))
  | OpProve u k => obind (prove sha3_256 u t k memo) (fun '(_, t, memo) => Done (t, memo))
  | OpTakeDirty => Done ((take_persist_dirty t).2, memo)
  end.

Fixpoint run (s : Trie * Anchors) (ops : list Op) : outcome (Trie * Anchors) :=
  match ops with [] => Done s | op :: ops => obind (run_op s op) (fun s => run s ops) end.

(** The map a history leaves, and the map at the last time the dirty keys were taken. *)
Definition model_op (s : gmap Key (list byte) * gmap Key (list byte)) (op : Op)
  : gmap Key (list byte) * gmap Key (list byte) :=
  let '(m, saved) := s in
  match op with
  | OpInsert _ k v => (<[k := v]> m, saved)
  | OpRemove _ k => (delete k m, saved)
  | OpTakeDirty => (m, m)
  | _ => (m, saved)
  end.

Definition model (ops : list Op) : gmap Key (list byte) * gmap Key (list byte) :=
  foldl model_op (∅, ∅) ops.

Record abstracts (s : Trie * Anchors) (m : gmap Key (list byte) * gmap Key (list byte)) : Prop := {
  abs_inv : trie_inv s.1;
  abs_memo : memo_ok sha3_256 s.2;
  abs_get : forall k, Trie_get s.1 k = m.1 !! k;
  abs_dirty : forall k, k ∉ persist_dirty s.1 -> m.1 !! k = m.2 !! k;
  abs_dirty_ok : forall k, k ∈ persist_dirty s.1 -> key_ok k
}.

Lemma touch_abstracts u t memo m saved key e m' :
  abstracts (t, memo) (m, saved) -> key_ok key ->
  (forall k, m' !! k = if decide (key = k) then e else m !! k) ->
  abstracts (touch t (write_leaf u (leaves t) key e) key, memo) (m', saved).
Proof.
  intros [Hi Hm Hg Hd Hk] Hkey He. cbn [fst snd] in *. split; cbn [fst snd].
  - by apply touch_inv.
  - done.
  - intros k. unfold Trie_get in *. cbn [touch leaves]. rewrite write_leaf_get, He, Hg. done.
  - intros k Hn. cbn [touch persist_dirty] in Hn. apply not_elem_of_union in Hn as [H1 H2].
    rewrite He, decide_False; [by apply Hd|]. intros ->. by apply H1, elem_of_singleton.
  - intros k [->%elem_of_singleton|?]%elem_of_union; auto.
Qed.

Lemma same_leaves_abstracts t memo t' memo' m :
  abstracts (t, memo) m -> trie_inv t' -> memo_ok sha3_256 memo' -> leaves t' = leaves t ->
  persist_dirty t' = persist_dirty t -> abstracts (t', memo') m.
Proof.
  intros [_ _ Hg Hd Hk] Hi Hm Hl Hp. cbn [fst snd] in *. split; cbn [fst snd]; try done.
  - intros k. unfold Trie_get. rewrite Hl. apply Hg.
  - by rewrite Hp.
  - by rewrite Hp.
Qed.

Lemma run_op_abstracts s m op :
  abstracts s m -> op_ok op ->
  exists s', run_op s op = Done s' /\ abstracts s' (model_op m op).
Proof.
  destruct s as [t memo], m as [m saved]. intros Ha Hop. pose proof Ha as [Hi Hm Hg Hd Hk].
  cbn [fst snd] in *.
  destruct op as [u k v|u k|ul un|u|u k|]; cbn [run_op model_op op_ok] in *.
  - eexists. split; [done|]. eapply touch_abstracts; [done..|]. intros k'.
    destruct (decide (k = k')) as [->|]; [apply lookup_insert_eq|by apply lookup_insert_ne].
  - eexists. split; [done|]. unfold Trie_remove, contains_key. case_bool_decide as Hin; cbn [snd].
    + eapply touch_abstracts; [done..|]. intros k'.
      destruct (decide (k = k')) as [->|]; [apply lookup_delete_eq|by apply lookup_delete_ne].
    + rewrite delete_id; [done|]. rewrite <- Hg. by apply eq_None_not_Some.
  - eexists. split; [done|]. destruct (compact_get ul un t) as [Hl _].
    destruct (compact_same ul un t) as (_ & _ & _ & Hp). split; cbn [fst snd]; try done.
    + by apply compact_inv.
    + intros k. unfold Trie_get. rewrite Hl. apply Hg.
    + by rewrite Hp.
    + by rewrite Hp.
  - destruct (root_ok u t memo Hi Hm) as (t' & memo' & -> & Hm' & Hl & Hp & _ & Hde). cbn [obind].
    eexists. split; [done|]. eapply same_leaves_abstracts; try done. by eexists.
  - destruct (prove_ok u t k memo Hi Hop Hm) as (pf & t' & memo' & -> & _ & _ & _ & _ & Hm' & Hl & Hp & Hi').
    cbn [obind]. eexists. split; [done|]. by eapply same_leaves_abstracts.
  - eexists. split; [done|]. cbn [take_persist_dirty snd]. split; cbn [fst snd]; try done.
    destruct Hi as [g0 []]. exists g0. by split.
Qed.

Lemma run_abstracts s m ops :
  abstracts s m -> Forall op_ok ops ->
  exists s', run s ops = Done s' /\ abstracts s' (foldl model_op m ops).
Proof.
  revert s m. induction ops as [|op ops IH]; intros s m Ha Hf; [by exists s|].
  apply Forall_cons in Hf as [Hop Hf]. cbn [run foldl].
  destruct (run_op_abstracts s m op Ha Hop) as (s' & -> & Ha'). cbn [obind]. by apply IH.
Qed.

Definition start : Trie * Anchors := (Trie_new sha3_256, mkAnchors ∅ ∅).

Lemma start_abstracts : abstracts start (∅, ∅).
Proof.
  split; cbn [start fst snd].
  - apply Trie_new_inv.
  - intros k h a. cbn [current previous]. rewrite lookup_empty. by intros [?|?].
  - intros k. unfold Trie_get, Leaves_get. cbn. by rewrite !lookup_empty.
  - done.
  - set_solver.
Qed.

Lemma abstracts_root t memo m :
  abstracts (t, memo) m -> tree (view (leaves t)) DEPTH 0 = map_root m.1.
Proof.
  intros [[g0 []] _ Hg _ _]. cbn [fst snd] in *. symmetry. apply map_root_tree; [done| |done].
  intros k v Hv. rewrite <- Hg in Hv. by eapply Leaves_get_key.
Qed.
End Ops.

(** ** The wire format of proofs *)

Lemma reads_get_hash h : length h = HASH_LEN -> reads get_hash h h.
Proof. apply reads_array. Qed.

Lemma get_hash_Ok d h d' : get_hash d = Ok (h, d') -> length h = HASH_LEN /\ consumed d h d'.
Proof. apply array_Ok. Qed.

Lemma buf_put_hashes hs e :
  buf (foldl (fun e s => foldl (fun e b => put_u8 (byte_val b) e) e s) e hs) = buf e ++ concat hs.
Proof.
  revert e. induction hs as [|h hs IH]; intros e; cbn [foldl concat]; [by rewrite app_nil_r|].
  by rewrite IH, buf_put_array, <- app_assoc.
Qed.

#[local] Opaque DEPTH HASH_LEN.

Lemma Proof_image p :
  to_bytes Proof_codec p =
  to_bytes (option_codec vec_u8_codec) (proof_value p) ++ to_le 4 (len (siblings p)) ++ concat (siblings p).
Proof.
  unfold to_bytes, into_bytes. cbn [encode Proof_codec]. unfold Proof_encode.
  rewrite buf_put_hashes, buf_put_u32, <- app_assoc. done.
Qed.

#[export] Instance Proof_roundtrip : RoundTrip Proof_codec.
Proof.
  intros p (Hv & Hl & Hs). rewrite Proof_image. cbn [decode Proof_codec]. unfold Proof_decode.
  eapply reads_bind; [by apply decode_encode|].
  eapply reads_bind; [apply reads_get_u32; unfold len; rewrite Hl; by vm_compute|].
  unfold len. rewrite Hl, Z.eqb_refl. cbn [negb]. eapply reads_map.
  - pose proof (reads_decode_n get_hash (fun h => h) (siblings p)) as Hr. rewrite map_id, Hl in Hr.
    apply Hr. eapply Forall_impl; [exact Hs|]. cbn beta. apply reads_get_hash.
  - destruct p. apply reads_ret.
Qed.

#[export] Instance Proof_canonical : Canonical Proof_codec.
Proof.
  intros d p d' H. rewrite Proof_image. cbn [decode Proof_codec valid] in *. unfold Proof_decode in H. dec_inv.
  bool_to_prop.
  match goal with H : decode_n get_hash DEPTH _ = Ok _ |- _ =>
    apply (decode_n_consumed get_hash (fun h => h) _ get_hash_Ok) in H as (Hl & Hs & Hc) end.
  rewrite map_id in Hc. cbn [proof_value siblings]. unfold len. rewrite Hl.
  split; [done|]. subst. consumed_chain.
Qed.

#[local] Transparent DEPTH HASH_LEN.

(** ** Claims *)

(** C3: the trie is a map with a root.  Take any history of insertions, removals,
    compactions, roots, proofs and takings of the dirty keys, with the base maps shared or
    not at every step: it never panics, every key then reads as the plain map the
    history stands for, and the root computed incrementally, along the changed keys and
    through the node cache and the memo of single-leaf hashes, is the root of the full
    recomputation over that map.  The root depends on the contents alone. *)
Theorem trie_refines_map sha3_256 ops unique :
  Forall op_ok ops ->
  exists t memo, run sha3_256 (start sha3_256) ops = Done (t, memo) /\
    (forall k, Trie_get t k = (model ops).1 !! k) /\
    exists t' memo', root sha3_256 unique t memo = Done (map_root sha3_256 (model ops).1, t', memo') /\
      leaves t' = leaves t.
Proof.
  intros Hops.
  destruct (run_abstracts sha3_256 _ _ ops (start_abstracts sha3_256) Hops) as ([t memo] & Hrun & Ha).
  exists t, memo. split; [done|]. pose proof Ha as [Hi Hm Hg _ _]. cbn [fst snd] in *.
  split; [exact Hg|].
  destruct (root_ok sha3_256 unique t memo Hi Hm) as (t' & memo' & Hr & _ & Hl & _).
  exists t', memo'. split; [|done]. rewrite Hr. by rewrite (abstracts_root sha3_256 _ _ _ Ha).
Qed.

(** A history with a shared base, an overwritten and a removed leaf. *)
Definition example_ops : list Op :=
  [OpInsert true (key_of 5) [x01]; OpInsert true (key_of 4) [x02]; OpRoot true;
   OpTakeDirty; OpInsert false (key_of (2 ^ 200)) [x03]; OpRemove false (key_of 4); OpRoot false;
   OpCompact true false; OpInsert true (key_of 5) [x04]].

Lemma trie_refines_map_witness :
  exists t memo, run example_hash (start example_hash) example_ops = Done (t, memo) /\
    Trie_get t (key_of 5) = Some [x04] /\ Trie_get t (key_of 4) = None.
Proof.
  destruct (trie_refines_map example_hash example_ops true) as (t & memo & Hrun & Hg & _).
  - repeat constructor; apply length_key_of.
  - exists t, memo. split; [exact Hrun|]. rewrite !Hg. vm_compute. split; reflexivity.
Defined.

(** Writing out the dirty keys keeps a copy of the state current.  After any history,
    [take_persist_dirty] returns keys in strictly increasing order, and every key whose
    value differs from what it was when the dirty keys were last taken is among them. *)
Theorem dirty_keys_suffice sha3_256 ops :
  Forall op_ok ops ->
  exists t memo, run sha3_256 (start sha3_256) ops = Done (t, memo) /\
    StronglySorted (fun a b => kz a < kz b) (take_persist_dirty t).1 /\
    forall k, Trie_get t k <> (model ops).2 !! k -> k ∈ (take_persist_dirty t).1.
Proof.
  intros Hops.
  destruct (run_abstracts sha3_256 _ _ ops (start_abstracts sha3_256) Hops) as ([t memo] & Hrun & Ha).
  exists t, memo. split; [done|]. destruct Ha as [_ _ Hg Hd Hk]. cbn [fst snd] in *.
  destruct (sorted_keys_spec (persist_dirty t) Hk) as [Hs He]. cbn [take_persist_dirty fst].
  split; [done|]. intros k Hne. apply He. destruct (decide (k ∈ persist_dirty t)) as [?|Hn]; [done|].
  destruct Hne. rewrite Hg. by apply Hd.
Qed.

Lemma dirty_keys_suffice_witness :
  exists t memo, run example_hash (start example_hash) example_ops = Done (t, memo) /\
    key_of 5 ∈ (take_persist_dirty t).1 /\ key_of 4 ∈ (take_persist_dirty t).1.
Proof.
  assert (Hops : Forall op_ok example_ops) by (repeat constructor; apply length_key_of).
  destruct (run_abstracts example_hash _ _ example_ops (start_abstracts example_hash) Hops)
    as ([t' memo'] & Hrun' & [_ _ Hg _ _]).
  destruct (dirty_keys_suffice example_hash example_ops Hops) as (t & memo & Hrun & _ & Hin).
  rewrite Hrun' in Hrun. assert (t' = t) as <- by congruence.
  exists t', memo'. split; [exact Hrun'|]. cbn [fst] in Hg.
  split; apply Hin; rewrite Hg; vm_compute; discriminate.
Defined.

(** Every key has a proof, of presence or of absence.  After any history, [prove]
    returns the stored value of the key, or none, with 256 siblings, and [verify] accepts
    the proof against the root of the contents. *)
Theorem trie_proofs_verify sha3_256 ops unique k :
  Forall op_ok ops -> key_ok k ->
  exists t memo pf t' memo', run sha3_256 (start sha3_256) ops = Done (t, memo) /\
    prove sha3_256 unique t k memo = Done (pf, t', memo') /\
    proof_value pf = (model ops).1 !! k /\ length (siblings pf) = DEPTH /\
    verify sha3_256 k pf (map_root sha3_256 (model ops).1) = true.
Proof.
  intros Hops Hk.
  destruct (run_abstracts sha3_256 _ _ ops (start_abstracts sha3_256) Hops) as ([t memo] & Hrun & Ha).
  pose proof Ha as [Hi Hm Hg _ _]. cbn [fst snd] in *.
  destruct (prove_ok sha3_256 unique t k memo Hi Hk Hm) as (pf & t' & memo' & Hp & Hv & Hl & _ & Hver & _).
  exists t, memo, pf, t', memo'. split_and!; [done|done|by rewrite Hv|done|].
  by rewrite (abstracts_root sha3_256 _ _ _ Ha) in Hver.
Qed.

Lemma trie_proofs_verify_witness :
  exists t memo pf t' memo', run example_hash (start example_hash) example_ops = Done (t, memo) /\
    prove example_hash false t (key_of 7) memo = Done (pf, t', memo') /\
    proof_value pf = (model example_ops).1 !! key_of 7 /\ length (siblings pf) = DEPTH /\
    verify example_hash (key_of 7) pf (map_root example_hash (model example_ops).1) = true.
Proof.
  apply (trie_proofs_verify example_hash example_ops false (key_of 7)).
  - repeat constructor; apply length_key_of.
  - apply length_key_of.
Defined.

(** C33: proofs cannot be forged.  Whatever proof with 256 siblings of 32 bytes verifies for a
    key against the root of the contents, after any history, it is the proof [prove] returns,
    and it carries the stored value of the key, or none when there is none; unless the hash
    maps a string hashed by the check and a different one hashed for the honest proof to
    one digest, or one of them to the all-zero digest of an empty leaf. *)
Theorem trie_proofs_sound sha3_256 ops unique k pf t memo honest t' memo' :
  (forall x, length (sha3_256 x) = HASH_LEN) ->
  Forall op_ok ops -> key_ok k -> well_sized pf ->
  run sha3_256 (start sha3_256) ops = Done (t, memo) ->
  prove sha3_256 unique t k memo = Done (honest, t', memo') ->
  separates sha3_256 (verify_inputs sha3_256 k pf) (verify_inputs sha3_256 k honest) ->
  (forall x, x ∈ verify_inputs sha3_256 k pf ++ verify_inputs sha3_256 k honest ->
     sha3_256 x <> DEFAULT_LEAF) ->
  verify sha3_256 k pf (map_root sha3_256 (model ops).1) = true ->
  pf = honest /\ proof_value pf = (model ops).1 !! k.
Proof.
  intros Hlen Hops Hk Hw Hrun Hprove Hsep Hz Hver.
  destruct (run_abstracts sha3_256 _ _ ops (start_abstracts sha3_256) Hops) as ([t0 memo0] & Hrun0 & Ha).
  rewrite Hrun in Hrun0. injection Hrun0 as <- <-.
  pose proof Ha as [Hi Hm Hg _ _]. cbn [fst snd] in *.
  destruct (prove_ok sha3_256 unique t k memo Hi Hk Hm) as (pf0 & t0 & memo0 & Hp & Hv & Hl & Hf & Hver0 & _).
  rewrite Hprove in Hp. injection Hp as <- _ _. rewrite (abstracts_root sha3_256 _ _ _ Ha) in Hver0.
  assert (pf = honest) as ->; [|by rewrite Hv].
  eapply (verified_unique sha3_256 Hlen k); try done. split; [done|].
  eapply Forall_impl; [exact Hf|]. cbn beta. intros s (m & q & _ & ->). by apply tree_hash_length.
Qed.

(** For a concrete instance: a hash that numbers the nodes by their height above the leaves,
    so that the strings hashed on a path have growing digests. *)
Definition rank (h : Hash) : Z := from_le h.

Definition rank_hash (x : list byte) : Hash :=
  match x with
  | x01 :: hs => to_le HASH_LEN (Z.max (rank (take HASH_LEN hs)) (rank (drop HASH_LEN hs)) + 1)
  | _ => to_le HASH_LEN 1
  end.

Lemma rank_hash_length x : length (rank_hash x) = HASH_LEN.
Proof. unfold rank_hash. destruct x as [|[] x]; apply length_to_le. Qed.

Lemma rank_node l r b :
  length l = HASH_LEN -> length r = HASH_LEN -> rank l <= b -> rank r <= b -> b < 1000 ->
  rank (rank_hash (NODE_DOMAIN :: l ++ r)) = Z.max (rank l) (rank r) + 1.
Proof.
  intros Hl Hr Hbl Hbr Hb. pose proof (from_le_range l). pose proof (from_le_range r).
  unfold rank_hash. cbn [NODE_DOMAIN]. rewrite <- Hl, take_app_length, drop_app_length, Hl.
  unfold rank in *. apply from_to_le.
  assert (1000 < 256 ^ Z.of_nat HASH_LEN) by (by vm_compute). lia.
Qed.

Lemma rank_tree g n p : (n <= DEPTH)%nat -> rank (tree_hash rank_hash g n p) <= Z.of_nat n + 1.
Proof.
  revert p. induction n as [|n IH]; intros p Hn.
  - rewrite tree_hash_leaf. destruct (g p) as [v|]; by vm_compute.
  - rewrite tree_hash_node. unfold node_hash. unfold DEPTH in Hn.
    rewrite (rank_node _ _ (Z.of_nat n + 1)); try (apply tree_hash_length, rank_hash_length); try lia.
    + pose proof (IH p). pose proof (IH (p + span n)). unfold DEPTH in *. lia.
    + apply IH. unfold DEPTH. lia.
    + apply IH. unfold DEPTH. lia.
Qed.

Lemma climb_ranks n k hs h level b :
  (n <= level <= length hs)%nat -> Forall (fun s => length s = HASH_LEN /\ rank s <= b) hs ->
  length h = HASH_LEN -> rank h <= b -> b + Z.of_nat n < 1000 ->
  let xs := climb_inputs rank_hash n k hs h level in
  Forall (fun x => rank h < rank (rank_hash x)) xs /\
  StronglySorted (fun x y => rank (rank_hash x) < rank (rank_hash y)) xs.
Proof.
  revert h level b. induction n as [|n IH]; intros h level b Hn Hf Hl Hh Hb; cbn [climb_inputs].
  { split; constructor. }
  set (s := nth (level - 1) hs []).
  assert (Hs : length s = HASH_LEN /\ rank s <= b).
  { rewrite Forall_forall in Hf. apply Hf, list_elem_of_In, nth_In. lia. }
  set (x := NODE_DOMAIN :: (if key_bit k (level - 1) =? 0 then h ++ s else s ++ h)).
  assert (Hx : rank (rank_hash x) = Z.max (rank h) (rank s) + 1).
  { unfold x. destruct (_ =? _); rewrite (rank_node _ _ b); try tauto; lia. }
  destruct (IH (rank_hash x) (level - 1)%nat (b + 1)) as [IH1 IH2]; try lia.
  { eapply Forall_impl; [exact Hf|]. cbn beta. intros y [? ?]. split; [done|lia]. }
  { apply rank_hash_length. }
  cbn zeta in *. split.
  - apply Forall_cons. split; [lia|]. eapply Forall_impl; [exact IH1|]. cbn beta. lia.
  - apply StronglySorted_cons. split; [|done]. exact IH1.
Qed.

Lemma sorted_separates sha (xs : list (list byte)) :
  StronglySorted (fun x y => rank (sha x) < rank (sha y)) xs -> separates sha xs xs.
Proof.
  induction 1 as [|x xs Hs IH Hf]; intros y z Hy Hz Heq; [by apply elem_of_nil in Hy|].
  rewrite Forall_forall in Hf. apply elem_of_cons in Hy as [->|Hy], Hz as [->|Hz].
  - done.
  - specialize (Hf z Hz). rewrite Heq in Hf. lia.
  - specialize (Hf y Hy). rewrite Heq in Hf. lia.
  - by apply IH.
Qed.

Lemma rank_inputs k v hs :
  length hs = DEPTH -> Forall (fun s => length s = HASH_LEN /\ rank s <= 300) hs ->
  let xs := verify_inputs rank_hash k (mkTrieProof (Some v) hs) in
  Forall (fun x => 0 < rank (rank_hash x)) xs /\
  StronglySorted (fun x y => rank (rank_hash x) < rank (rank_hash y)) xs.
Proof.
  intros Hl Hf. unfold verify_inputs. cbn [proof_value siblings leaf_inputs leaf_or_default app].
  assert (H1 : rank (rank_hash (LEAF_DOMAIN :: v)) = 1) by (by vm_compute).
  destruct (climb_ranks DEPTH k hs (state_leaf_hash rank_hash v) DEPTH 300) as [Hr Hs];
    [lia|done|apply rank_hash_length|unfold state_leaf_hash; rewrite H1; lia|unfold DEPTH; lia|].
  split; [apply Forall_cons; split; [lia|]|apply StronglySorted_cons; split; [exact Hr|exact Hs]].
  eapply Forall_impl; [exact Hr|]. cbn beta. unfold state_leaf_hash. rewrite H1. lia.
Qed.

Definition proof_ops : list Op :=
  [OpInsert true (key_of 5) [x01]; OpInsert true (key_of 4) [x02]; OpRoot true; OpInsert false (key_of 7) [x03]].

Lemma trie_proofs_sound_witness :
  exists pf, well_sized pf /\ proof_value pf = Some [x02] /\
    verify rank_hash (key_of 4) pf (map_root rank_hash (model proof_ops).1) = true.
Proof.
  assert (Hops : Forall op_ok proof_ops) by (repeat constructor; apply length_key_of).
  assert (Hk : key_ok (key_of 4)) by apply length_key_of.
  destruct (run_abstracts rank_hash _ _ proof_ops (start_abstracts rank_hash) Hops)
    as ([t memo] & Hrun & Ha). pose proof Ha as [Hi Hm Hg _ _].
  destruct (prove_ok rank_hash false t (key_of 4) memo Hi Hk Hm)
    as (pf & t' & memo' & Hprove & Hval & Hl & Hf & Hver & _).
  rewrite (abstracts_root rank_hash t memo _ Ha) in Hver.
  assert (Hstored : (model proof_ops).1 !! key_of 4 = Some [x02]) by (vm_compute; reflexivity).
  assert (Hsome : proof_value pf = Some [x02]) by (rewrite Hval, <- Hstored; apply Hg).
  assert (Hsz : Forall (fun s => length s = HASH_LEN /\ rank s <= 300) (siblings pf)).
  { eapply Forall_impl; [exact Hf|]. cbn beta. intros s (m & q & Hmq & ->).
    split; [apply tree_hash_length, rank_hash_length|].
    pose proof (rank_tree (view (leaves t)) m q). unfold DEPTH in *. lia. }
  destruct (rank_inputs (key_of 4) [x02] (siblings pf) Hl Hsz) as [Hpos Hs].
  rewrite <- Hsome in Hpos, Hs. destruct pf as [o hs]. cbn [proof_value siblings] in *.
  assert (Hw : well_sized (mkTrieProof o hs)).
  { split; [exact Hl|]. eapply Forall_impl; [exact Hsz|]. intros s [H _]. exact H. }
  exists (mkTrieProof o hs). split; [exact Hw|]. split; [|exact Hver].
  rewrite <- Hstored.
  apply (trie_proofs_sound rank_hash proof_ops false (key_of 4) (mkTrieProof o hs) t memo
    (mkTrieProof o hs) t' memo'); [exact rank_hash_length|exact Hops|exact Hk|exact Hw|exact Hrun|exact Hprove|..].
  - apply sorted_separates. exact Hs.
  - intros x Hx He. rewrite Forall_forall in Hpos.
    assert (Hp : 0 < rank (rank_hash x)) by (apply Hpos; apply elem_of_app in Hx as [Hx|Hx]; exact Hx).
    rewrite He in Hp. vm_compute in Hp. discriminate.
  - exact Hver.
Defined.

(** The wire format of proofs is exact.  On inputs a slice can hold, decoding succeeds with
    [p] exactly when [p] has 256 siblings of 32 bytes and a value whose length fits, and the bytes
    are its one encoding. *)
Theorem trie_proof_wire bs p :
  len bs <= ISIZE_MAX ->
  from_bytes Proof_codec bs = Ok p <->
  well_sized p /\ valid (option_codec vec_u8_codec) (proof_value p) /\ to_bytes Proof_codec p = bs.
Proof.
  intros Hl. rewrite (from_bytes_iff Proof_codec) by done. unfold well_sized. cbn [valid Proof_codec]. tauto.
Qed.

Definition wire_proof : Proof_ := mkTrieProof (Some [x07]) (repeat (repeat x05 HASH_LEN) DEPTH).

Lemma trie_proof_wire_witness :
  from_bytes Proof_codec (to_bytes Proof_codec wire_proof) = Ok wire_proof.
Proof.
  apply (trie_proof_wire (to_bytes Proof_codec wire_proof) wire_proof).
  - rewrite Proof_image. vm_compute. discriminate.
  - split; [split; [vm_compute; reflexivity|]|split; [|reflexivity]].
    + apply Forall_forall. intros s Hs. apply list_elem_of_In, repeat_spec in Hs as ->. reflexivity.
    + vm_compute. split; [discriminate|reflexivity].
Defined.
