(* ===== verification/Tx.v ===== *)
(** * Accounts and transactions (crates/qtv-account, crates/qtv-tx)

    Deriving an account from a master seed, the address of a key, the body of a
    transaction and its encoding, the digest that is signed, signing and
    verifying.  A [String] is the list of its bytes.  SHA3, SHAKE and the two
    signature schemes come from the crate qtv-crypto, which is not part of the
    repository: they are the fields of [Crypto], and [CryptoLaws] states what its
    documentation promises. *)

From S2P Require Import Prelude Codec Idfmt.

(** ** The cryptographic crate *)

Record Crypto : Type := mkCrypto {
  sha3_256 : list byte -> list byte;
  shake256 : list byte -> nat -> list byte;
  ML_PUBLIC_KEY_BYTES : nat;
  ML_SIGNATURE_BYTES : nat;
  ml_keygen : list byte -> list byte * list byte;
  ml_sign_from_seed : list byte -> list byte -> list byte -> list byte -> option (list byte);
  ml_verify_strict : list byte -> list byte -> list byte -> list byte -> bool;
  SLH_PUBLIC_KEY_BYTES : nat;
  SLH_SIGNATURE_BYTES : nat;
  slh_keygen : list byte -> list byte -> list byte -> list byte * list byte;
  slh_sign : list byte -> list byte -> list byte -> list byte -> option (list byte);
  slh_verify : list byte -> list byte -> list byte -> list byte -> bool
}.

(** The longest context a signature may carry (FIPS 204 and FIPS 205). *)
Definition CONTEXT_MAX : nat := 255.

Class CryptoLaws (c : Crypto) : Prop := {
  sha3_256_length : forall x, length (sha3_256 c x) = 32%nat;
  ml_public_length : forall seed, length (fst (ml_keygen c seed)) = ML_PUBLIC_KEY_BYTES c;
  ml_sign_total : forall seed digest context rnd, (length context <= CONTEXT_MAX)%nat ->
    exists signature, ml_sign_from_seed c seed digest context rnd = Some signature /\
      length signature = ML_SIGNATURE_BYTES c /\
      ml_verify_strict c (fst (ml_keygen c seed)) digest signature context = true;
  slh_public_small : (SLH_PUBLIC_KEY_BYTES c / 2 <= 32)%nat;
  slh_public_length : forall a b d, length (snd (slh_keygen c a b d)) = SLH_PUBLIC_KEY_BYTES c;
  slh_sign_total : forall a b d digest context rnd, (length context <= CONTEXT_MAX)%nat ->
    exists signature, slh_sign c (fst (slh_keygen c a b d)) digest context rnd = Some signature /\
      length signature = SLH_SIGNATURE_BYTES c /\
      slh_verify c (snd (slh_keygen c a b d)) digest signature context = true
}.

(** ** Accounts *)

Definition SCHEME_LATTICE : Z := 1.
Definition SCHEME_HASH : Z := 2.
Definition SCHEME_FALCON : Z := 3.
Definition SEED_LEN : nat := 32.

Record Account : Type := mkAccount {
  account_scheme : Z;
  account_index : Z;
  account_seed_of : list byte;
  account_public_key : list byte
}.

(** [Result::expect] and [Option::expect]. *)
Definition expect_ok {E A} (r : outcome (Result E A)) : outcome A :=
  obind r (fun r => match r with Ok a => Done a | Err _ => Panic end).
Definition expect_some {A} (o : option A) : outcome A :=
  match o with Some a => Done a | None => Panic end.

Section Accounts.
Context (c : Crypto).

Definition account_seed (master_seed : list byte) (scheme index : Z) : list byte :=
  shake256 c (master_seed ++ [byte_of scheme] ++ to_le 8 index) SEED_LEN.

Definition HASH_SEED_LEN : nat := SLH_PUBLIC_KEY_BYTES c / 2.

Definition hash_keypair (seed : list byte) : list byte * list byte :=
  let material := shake256 c seed (3 * HASH_SEED_LEN) in
  let sk_seed := take HASH_SEED_LEN material in
  let sk_prf := take HASH_SEED_LEN (drop HASH_SEED_LEN material) in
  let pk_seed := drop (2 * HASH_SEED_LEN) material in
  slh_keygen c sk_seed sk_prf pk_seed.

Definition address_hash (scheme : Z) (public_key : list byte) : list byte :=
  sha3_256 c ([byte_of scheme] ++ public_key).

Definition address_for_key (scheme : Z) (public_key : list byte) : outcome (list byte) :=
  expect_ok (render_address (address_hash scheme public_key)).

Definition Account_address (account : Account) : outcome (list byte) :=
  address_for_key (account_scheme account) (account_public_key account).

Definition secret_export (account : Account) : outcome (list byte) :=
  expect_ok (render_secret (account_seed_of account)).

Definition derive_with_scheme (master_seed : list byte) (scheme index : Z) : option Account :=
  let seed := account_seed master_seed scheme index in
  if scheme =? SCHEME_LATTICE then
    Some (mkAccount scheme index seed (fst (ml_keygen c seed)))
  else if scheme =? SCHEME_HASH then
    Some (mkAccount scheme index seed (snd (hash_keypair seed)))
  else None.

Definition derive (master_seed : list byte) (index : Z) : outcome Account :=
  expect_some (derive_with_scheme master_seed SCHEME_LATTICE index).

Record Binding : Type := mkBinding { binding_from : list byte; binding_to : list byte }.
Record Rotation : Type := mkRotation { rotation_next : Account; rotation_binding : Binding }.

Definition rotate (master_seed : list byte) (current : Account) (next_index : Z)
    : outcome Rotation :=
  obind (derive master_seed next_index) (fun next =>
  obind (Account_address current) (fun from =>
  obind (Account_address next) (fun to =>
  Done (mkRotation next (mkBinding from to))))).
End Accounts.

(** ** Transactions *)

Definition DOMAIN_TX : list byte := ascii "quantova.transaction.v1".
Definition LOCAL_CHAIN_NAME : list byte := ascii "Q-dev-net-1".
Definition TESTNET_CHAIN_NAME : list byte := ascii "Q-testNet-1.1".
Definition MAINNET_CHAIN_NAME : list byte := ascii "Q-main-net-1".
Definition RETIRED_CHAIN_NAMES : list (list byte) :=
  [ascii "Q-test-net-1"; ascii "Q-test-net-01"; ascii "Q-test-net-001"; ascii "Q-test-net-0001";
   ascii "Test-Net-0-1"; ascii "Q-TestNet-1"; ascii "Q-testNet-1.0"].

Definition chain_name_is_retired (name : list byte) : bool :=
  bool_decide (name ∈ RETIRED_CHAIN_NAMES).

Definition LOCAL_CHAIN_ID : Z := 13749533161254861464.
Definition TESTNET_CHAIN_ID : Z := 49882562325403262.
Definition MAINNET_CHAIN_ID : Z := 5296651311193914109.

Definition chain_id_from_name (c : Crypto) (name : list byte) : Z :=
  from_be (take 8 (sha3_256 c name)).

Definition SIGN_RANDOMIZER : list byte := replicate 32 x00.

Definition KIND_TRANSFER : Z := 0.
Definition KIND_CALL : Z := 1.

Record Call : Type := mkCall { target : list byte; args : list byte }.

Record Body : Type := mkBody {
  sender : list byte;
  nonce : Z;
  meter_limit : Z;
  fee : Z;
  value : Z;
  chain_id : Z;
  call : Call;
  in_asset : option (list byte);
  valid_until : Z;
  kind : Z
}.

Definition with_context (sender : list byte) (nonce meter_limit fee : Z) (call : Call)
    (value chain_id : Z) : Body :=
  mkBody sender nonce meter_limit fee value chain_id call None 0 KIND_TRANSFER.
Definition Body_new (sender : list byte) (nonce meter_limit fee : Z) (call : Call) : Body :=
  with_context sender nonce meter_limit fee call 0 LOCAL_CHAIN_ID.

Definition Body_with_kind (b : Body) (kind : Z) : Body :=
  mkBody (sender b) (nonce b) (meter_limit b) (fee b) (value b) (chain_id b) (call b)
    (in_asset b) (valid_until b) kind.
Definition calling (b : Body) : Body := Body_with_kind b KIND_CALL.
Definition carrying (b : Body) (issuer : list byte) : Body :=
  mkBody (sender b) (nonce b) (meter_limit b) (fee b) (value b) (chain_id b) (call b)
    (Some issuer) (valid_until b) (kind b).
Definition Body_valid_until (b : Body) (height : Z) : Body :=
  mkBody (sender b) (nonce b) (meter_limit b) (fee b) (value b) (chain_id b) (call b)
    (in_asset b) height (kind b).
Definition is_call (b : Body) : bool := kind b =? KIND_CALL.

Definition put_address (address : list byte) (e : Encoder) : Encoder :=
  match parse_address address with
  | Ok payload => put_bytes payload e
  | Err _ => put_bytes address e
  end.

Definition Call_encode (k : Call) (e : Encoder) : Encoder :=
  e |> put_address (target k) |> put_bytes (args k).

Definition Body_encode (b : Body) (e : Encoder) : Encoder :=
  e |> put_address (sender b) |> put_u64 (nonce b) |> put_u64 (meter_limit b)
    |> put_u128 (fee b) |> Call_encode (call b) |> put_u64 (value b)
    |> put_u64 (chain_id b) |> put_bytes (default [] (in_asset b))
    |> put_u64 (valid_until b) |> put_u8 (kind b).

(** The cell that caches a computed identifier is left out: it is only ever
    filled with the value it would be computed to. *)
Record Wrapper : Type := mkWrapper { body : Body; scheme : Z; signature : list byte }.

Definition Wrapper_encode (w : Wrapper) (e : Encoder) : Encoder :=
  e |> Body_encode (body w) |> put_u8 (scheme w) |> put_bytes (signature w).

Definition scheme_supported (scheme : Z) : bool :=
  (scheme =? SCHEME_LATTICE) || (scheme =? SCHEME_HASH).

Definition addresses_parse (b : Body) : bool :=
  is_ok (parse_address (sender b)) && is_ok (parse_address (target (call b))).

Section Transactions.
Context (c : Crypto).

Definition id_str (w : Wrapper) : outcome (list byte) :=
  expect_ok (render_tx (sha3_256 c (into_bytes (Wrapper_encode w Encoder_new)))).

Definition digest_input (b : Body) (genesis : list byte) : list byte :=
  genesis ++ into_bytes (Body_encode b Encoder_new).
Definition body_digest (b : Body) (genesis : list byte) : list byte :=
  sha3_256 c (digest_input b genesis).

Definition hash_rnd (rnd : list byte) : outcome (list byte) :=
  let n := HASH_SEED_LEN c in
  if decide (rnd = SIGN_RANDOMIZER) then Done (replicate n x00)
  else
    let wide := sha3_256 c rnd in
    if (n <=? length wide)%nat then Done (take n wide) else Panic.

Definition sign_with (account : Account) (b : Body) (genesis rnd : list byte) : outcome Wrapper :=
  let digest := body_digest b genesis in
  let scheme := account_scheme account in
  obind (if scheme =? SCHEME_LATTICE then
           expect_some (ml_sign_from_seed c (account_seed_of account) digest DOMAIN_TX rnd)
         else if scheme =? SCHEME_HASH then
           let (secret, _) := hash_keypair c (account_seed_of account) in
           obind (hash_rnd rnd) (fun addrnd =>
           expect_some (slh_sign c secret digest DOMAIN_TX addrnd))
         else Done [])
    (fun signature => Done (mkWrapper b scheme signature)).

Definition try_sign_hedged (account : Account) (b : Body) (genesis rnd : list byte)
    : outcome (option Wrapper) :=
  if negb (addresses_parse b) || bool_decide (rnd = SIGN_RANDOMIZER) then Done None
  else obind (sign_with account b genesis rnd) (fun w => Done (Some w)).

(** The argument [filled] is what the operating system's generator wrote, if it
    answered. *)
Definition try_sign (account : Account) (b : Body) (genesis : list byte)
    (filled : option (list byte)) : outcome (option Wrapper) :=
  match filled with
  | None => Done None
  | Some rnd => try_sign_hedged account b genesis rnd
  end.

Definition sign (account : Account) (b : Body) (genesis : list byte) : outcome Wrapper :=
  if negb (is_ok (parse_address (sender b))) then Panic
  else if negb (is_ok (parse_address (target (call b)))) then Panic
  else sign_with account b genesis SIGN_RANDOMIZER.

Definition verify (w : Wrapper) (public_key genesis : list byte) : bool :=
  let digest := body_digest (body w) genesis in
  if scheme w =? SCHEME_LATTICE then
    if negb (length public_key =? ML_PUBLIC_KEY_BYTES c)%nat then false
    else if negb (length (signature w) =? ML_SIGNATURE_BYTES c)%nat then false
    else ml_verify_strict c public_key digest (signature w) DOMAIN_TX
  else if scheme w =? SCHEME_HASH then
    if negb (length public_key =? SLH_PUBLIC_KEY_BYTES c)%nat then false
    else if negb (length (signature w) =? SLH_SIGNATURE_BYTES c)%nat then false
    else slh_verify c public_key digest (signature w) DOMAIN_TX
  else false.
End Transactions.

(** ** The image of a body *)

(** What stands for an address in the encoding. *)
Definition address_bytes (address : list byte) : list byte :=
  match parse_address address with Ok payload => payload | Err _ => address end.

Lemma buf_put_address a e : buf (put_address a e) = buf e ++ bytes_image (address_bytes a).
Proof. unfold put_address, address_bytes. case_match; apply buf_put_bytes. Qed.

Lemma buf_Call_encode k e :
  buf (Call_encode k e) = buf e ++ bytes_image (address_bytes (target k)) ++ bytes_image (args k).
Proof. unfold Call_encode. by rewrite buf_put_bytes, buf_put_address, <- app_assoc. Qed.

#[local] Hint Rewrite buf_put_address buf_Call_encode : codec.

(** The encoding of a body read back field by field. *)
Definition body_fields : Dec (list byte * Z * Z * Z * list byte * list byte * Z * Z * list byte * Z * Z) :=
  let* s := get_bytes in
  let* n := get_u64 in
  let* m := get_u64 in
  let* f := get_u128 in
  let* t := get_bytes in
  let* a := get_bytes in
  let* v := get_u64 in
  let* ci := get_u64 in
  let* i := get_bytes in
  let* u := get_u64 in
  let* k := get_u8 in
  dret (s, n, m, f, t, a, v, ci, i, u, k).

(** The ranges the Rust types impose on a body. *)
Definition typed_body (b : Body) : Prop :=
  u64 (nonce b) /\ u64 (meter_limit b) /\ u128 (fee b) /\ u64 (value b) /\ u64 (chain_id b) /\
  u64 (valid_until b) /\ u8 (kind b) /\ len (args (call b)) <= ISIZE_MAX /\
  (forall issuer, in_asset b = Some issuer -> length issuer = 32%nat).

#[local] Hint Extern 2 (in_width 64 (len _)) =>
  (unfold in_width, ISIZE_MAX, len in *; lia) : codec.

Lemma address_bytes_length a p : parse_address a = Ok p -> length (address_bytes a) = 32%nat.
Proof. intros E. unfold address_bytes. rewrite E. by apply parse_address_Ok in E as [E _]. Qed.

Lemma Body_reads b :
  typed_body b -> addresses_parse b = true ->
  reads body_fields (into_bytes (Body_encode b Encoder_new))
    (address_bytes (sender b), nonce b, meter_limit b, fee b, address_bytes (target (call b)),
     args (call b), value b, chain_id b, default [] (in_asset b), valid_until b, kind b).
Proof.
  unfold typed_body, addresses_parse, is_ok. intros (? & ? & ? & ? & ? & ? & ? & ? & Hasset) Ha.
  destruct (parse_address (sender b)) as [p|] eqn:Es; [|done].
  destruct (parse_address (target (call b))) as [q|] eqn:Ec; [|done].
  apply address_bytes_length in Es, Ec.
  assert (Hi : (length (default [] (in_asset b)) <= 32)%nat).
  { destruct (in_asset b) as [i|]; cbn; [|lia].
    rewrite (Hasset i eq_refl). lia. }
  unfold Body_encode, into_bytes, body_fields. autorewrite with codec.
  rewrite <- ?app_assoc, ?app_nil_l. reads_fields.
Qed.

(** Two texts of one address differ in nothing but the case of their letters. *)
Lemma address_bytes_case a1 a2 :
  is_ok (parse_address a1) = true -> is_ok (parse_address a2) = true ->
  address_bytes a1 = address_bytes a2 -> to_ascii_uppercase a1 = to_ascii_uppercase a2.
Proof.
  unfold is_ok, address_bytes. intros H1 H2.
  destruct (parse_address a1) as [p|] eqn:E1; [|done].
  destruct (parse_address a2) as [q|] eqn:E2; [|done]. intros <-.
  apply parse_address_Ok in E1 as [_ E1], E2 as [_ E2]. congruence.
Qed.

(** Equality of bodies up to the case of the address texts. *)
Definition same_body (b1 b2 : Body) : Prop :=
  to_ascii_uppercase (sender b1) = to_ascii_uppercase (sender b2) /\
  to_ascii_uppercase (target (call b1)) = to_ascii_uppercase (target (call b2)) /\
  nonce b1 = nonce b2 /\ meter_limit b1 = meter_limit b2 /\ fee b1 = fee b2 /\
  value b1 = value b2 /\ chain_id b1 = chain_id b2 /\ args (call b1) = args (call b2) /\
  in_asset b1 = in_asset b2 /\ valid_until b1 = valid_until b2 /\ kind b1 = kind b2.

Lemma default_inj (o1 o2 : option (list byte)) :
  (forall i, o1 = Some i -> length i = 32%nat) -> (forall i, o2 = Some i -> length i = 32%nat) ->
  default [] o1 = default [] o2 -> o1 = o2.
Proof.
  intros H1 H2. destruct o1 as [i|], o2 as [j|]; cbn; intros E; subst; try done.
  - by specialize (H1 [] eq_refl).
  - by specialize (H2 [] eq_refl).
Qed.

Lemma Body_encode_inj b1 b2 :
  typed_body b1 -> typed_body b2 -> addresses_parse b1 = true -> addresses_parse b2 = true ->
  len (into_bytes (Body_encode b1 Encoder_new)) <= ISIZE_MAX ->
  into_bytes (Body_encode b1 Encoder_new) = into_bytes (Body_encode b2 Encoder_new) ->
  same_body b1 b2.
Proof.
  intros T1 T2 A1 A2 Hl E. pose proof (Body_reads b1 T1 A1) as R1.
  pose proof (Body_reads b2 T2 A2) as R2. rewrite <- E in R2.
  pose proof (reads_inj _ _ _ _ Hl R1 R2) as F. injection F as Fs ? ? ? Ft ? ? ? Fi ? ?.
  apply andb_true_iff in A1 as [? ?], A2 as [? ?]. unfold typed_body in *. destruct_and!.
  unfold same_body. split_and!; auto using address_bytes_case, default_inj.
Qed.

(** ** Properties *)


(** An account derived from a master seed. *)
Definition derived (c : Crypto) (account : Account) : Prop :=
  exists master_seed scheme index, derive_with_scheme c master_seed scheme index = Some account.

Lemma hash_rnd_total c rnd : CryptoLaws c -> exists addrnd, hash_rnd c rnd = Done addrnd.
Proof.
  intros Hc. unfold hash_rnd. case_decide; [eauto|].
  rewrite sha3_256_length. pose proof slh_public_small as Hs. apply Nat.leb_le in Hs.
  unfold HASH_SEED_LEN. rewrite Hs. eauto.
Qed.

(** Signing with a derived account neither panics nor fails to verify. *)
Lemma sign_with_verifies c account b genesis rnd :
  CryptoLaws c -> derived c account ->
  exists w, sign_with c account b genesis rnd = Done w /\
    body w = b /\ scheme w = account_scheme account /\
    verify c w (account_public_key account) genesis = true.
Proof.
  intros Hc (ms & sch & index & Hd). unfold derive_with_scheme in Hd. unfold sign_with, verify.
  set (digest := body_digest c b genesis). destruct (Z.eqb_spec sch SCHEME_LATTICE) as [->|Hn].
  - injection Hd as <-. cbn [account_scheme account_seed_of account_public_key].
    destruct (ml_sign_total (account_seed c ms SCHEME_LATTICE index) digest DOMAIN_TX rnd)
      as (s & -> & Hl & Hv); [vm_compute; lia|].
    eexists. split; [done|]. cbn [scheme signature body].
    rewrite ml_public_length, Hl, !Nat.eqb_refl. done.
  - destruct (Z.eqb_spec sch SCHEME_HASH) as [->|_]; [|done].
    injection Hd as <-. cbn [account_scheme account_seed_of account_public_key].
    set (seed := account_seed c ms SCHEME_HASH index).
    destruct (hash_rnd_total c rnd Hc) as [addrnd Ha]. rewrite Ha. unfold hash_keypair.
    set (k1 := take _ _). set (k2 := take _ (drop _ _)). set (k3 := drop _ (shake256 _ _ _)).
    destruct (slh_sign_total k1 k2 k3 digest DOMAIN_TX addrnd) as (s & Hs & Hl & Hv); [vm_compute; lia|].
    pose proof (slh_public_length k1 k2 k3) as Hp.
    destruct (slh_keygen c k1 k2 k3) as [sk pk]. cbn [fst snd] in *. cbn [obind Z.eqb]. rewrite Hs.
    eexists. split; [reflexivity|]. cbn [scheme signature body]. rewrite Hp, Hl, !Nat.eqb_refl. done.
Qed.

(** What a derived account signs verifies: with a parsing sender and target and
    fresh randomness, [try_sign_hedged] returns, without a panic and for either
    scheme, a wrapper around the unchanged body that [verify] accepts under the
    account's key and the same genesis hash; with an address that does not parse
    or the all-zero randomizer it signs nothing. *)
Theorem signed_transactions_verify (c : Crypto) (account : Account) (b : Body) (genesis rnd : list byte) :
  CryptoLaws c -> derived c account ->
  if addresses_parse b && negb (bool_decide (rnd = SIGN_RANDOMIZER)) then
    exists w, try_sign_hedged c account b genesis rnd = Done (Some w) /\
      body w = b /\ scheme w = account_scheme account /\
      verify c w (account_public_key account) genesis = true
  else try_sign_hedged c account b genesis rnd = Done None.
Proof.
  intros Hc Hd. unfold try_sign_hedged.
  destruct (addresses_parse b), (bool_decide (rnd = SIGN_RANDOMIZER)); try done.
  destruct (sign_with_verifies c account b genesis rnd Hc Hd) as (w & Hs & Hw).
  cbn [andb negb orb]. rewrite Hs. eauto.
Qed.

(** ** Concrete instances *)

(** Signature schemes for evaluation: a signature is the hash of key and digest. *)
Definition example_crypto : Crypto :=
  let tag pk digest := example_hash (pk ++ digest) in
  mkCrypto example_hash (fun x n => take n (example_hash x ++ example_hash (x00 :: x) ++ replicate n x00))
    32 32 (fun seed => (example_hash seed, seed))
    (fun seed digest context rnd =>
       if (length context <=? CONTEXT_MAX)%nat then Some (tag (example_hash seed) digest) else None)
    (fun pk digest s context => bool_decide (s = tag pk digest))
    32 32 (fun a b d => (a ++ b ++ d, example_hash (a ++ b ++ d)))
    (fun sk digest context rnd =>
       if (length context <=? CONTEXT_MAX)%nat then Some (tag (example_hash sk) digest) else None)
    (fun pk digest s context => bool_decide (s = tag pk digest)).

Lemma example_crypto_laws : CryptoLaws example_crypto.
Proof.
  constructor; intros; cbn [example_crypto sha3_256 ml_keygen ml_sign_from_seed ml_verify_strict
    ML_PUBLIC_KEY_BYTES ML_SIGNATURE_BYTES slh_keygen slh_sign slh_verify SLH_PUBLIC_KEY_BYTES
    SLH_SIGNATURE_BYTES fst snd]; try apply example_hash_length.
  - rewrite (proj2 (Nat.leb_le _ _)) by done. eexists. split; [done|].
    split; [apply example_hash_length|]. by apply bool_decide_eq_true.
  - cbn. lia.
  - rewrite (proj2 (Nat.leb_le _ _)) by done. eexists. split; [done|].
    split; [apply example_hash_length|]. by apply bool_decide_eq_true.
Qed.

(** The address of the payload [00..00], as rendered. *)
Definition example_address : list byte :=
  match render_address (replicate 32 x00) with Done (Ok text) => text | _ => [] end.
Definition example_body : Body :=
  carrying (with_context example_address 3 21000 7 (mkCall example_address [x01; x02]) 5
    TESTNET_CHAIN_ID) (replicate 32 x05).

Lemma example_body_typed : typed_body example_body.
Proof.
  unfold typed_body, example_body. cbn -[example_address].
  split_and!; try (vm_compute; split; [discriminate|reflexivity]).
  - discriminate.
  - by intros ? [= <-].
Qed.


Lemma signed_transactions_verify_witness :
  match derive_with_scheme example_crypto (replicate 32 x07) SCHEME_HASH 0 with
  | Some account => exists w,
      try_sign_hedged example_crypto account example_body (replicate 32 x09) (replicate 32 x0a) = Done (Some w) /\
      verify example_crypto w (account_public_key account) (replicate 32 x09) = true
  | None => False
  end.
Proof.
  destruct (derive_with_scheme example_crypto (replicate 32 x07) SCHEME_HASH 0) as [account|] eqn:E;
    [|vm_compute in E; discriminate].
  pose proof (signed_transactions_verify example_crypto account example_body (replicate 32 x09)
    (replicate 32 x0a) example_crypto_laws (ex_intro _ _ (ex_intro _ _ (ex_intro _ _ E)))) as H.
  assert (T : addresses_parse example_body && negb (bool_decide (replicate 32 x0a = SIGN_RANDOMIZER)) = true)
    by (vm_compute; reflexivity).
  rewrite T in H. destruct H as (w & Hs & _ & _ & Hv). exists w. split; assumption.
Defined.
