(* ===== verification/Fee.v ===== *)
(** * Fees and activation heights (qtv-node: fee.rs, upgrades.rs, [FeeSplit] of ledger.rs)

    The fee of a transfer is asked for in millionths of a dollar, banded, and
    converted to the native unit at a rate the genesis fixes; the ledger splits a
    collected fee between burning, the proposer and the grants pool. *)

From S2P Require Import Prelude Idfmt Tx.

(** ** fee.rs *)

Definition MICRO_USD_FLOOR : Z := 500.
Definition MICRO_USD_CEILING : Z := 1000.
Definition DEPLOY_FEE_MICRO_USD : Z := 5000000.

(** The first eight bytes of the name, padded with zeros. *)
Definition asset_tag (name : list byte) : list byte :=
  take 8 name ++ replicate (8 - length name) x00.

Definition QTOV_ASSET_TAG : list byte := asset_tag (ascii "QTOV").

Record FeeParams : Type := mkFeeParams {
  transfer_micro_usd : Z;
  rate_micro_usd_per_qtov : Z;
  native_unit : Z;
  max_fee_native : Z;
  fee_chain_id : Z;
  native_asset : list byte;
  deploy_treasury : list byte
}.

Definition FeeParams_devnet : FeeParams :=
  mkFeeParams MICRO_USD_FLOOR 1000000 1000000 1000 LOCAL_CHAIN_ID (asset_tag (ascii "QDEVNET"))
    (replicate 32 xde).

(** [u64::try_from(x).unwrap_or(u64::MAX)]. *)
Definition to_u64_capped (x : Z) : Z := if x <? 2 ^ 64 then x else U64_MAX.

(** [micro_usd.saturating_mul(native_unit).checked_div(rate).unwrap_or(0)], capped. *)
Definition to_native (p : FeeParams) (micro_usd : Z) : Z :=
  to_u64_capped (default 0 (checked_div (saturating_mul 128 micro_usd (native_unit p))
    (rate_micro_usd_per_qtov p))).

Definition clamp (x lo hi : Z) : Z := if x <? lo then lo else if hi <? x then hi else x.

Definition native_fee (p : FeeParams) (micro_usd : Z) : Z :=
  Z.min (to_native p (clamp micro_usd MICRO_USD_FLOOR MICRO_USD_CEILING)) (max_fee_native p).

Definition transfer_fee (p : FeeParams) : Z := native_fee p (transfer_micro_usd p).
Definition ceiling_fee (p : FeeParams) : Z := native_fee p MICRO_USD_CEILING.
Definition deploy_fee (p : FeeParams) : Z := to_native p DEPLOY_FEE_MICRO_USD.
Definition floor_native_uncapped (p : FeeParams) : Z := to_native p MICRO_USD_FLOOR.
Definition deploy_treasury_address (p : FeeParams) : outcome (list byte) :=
  obind (render_address (deploy_treasury p)) (fun r =>
  match r with Ok text => Done text | Err _ => Done [] end).

(** ** upgrades.rs *)

Record Upgrades : Type := mkUpgrades {
  gas_metered_from_height : Z;
  bound_draw_from_epoch : Z;
  hardened_from_height : Z
}.

Definition FROM_GENESIS : Upgrades := mkUpgrades 0 0 0.
Definition TESTNET : Upgrades := mkUpgrades 0 0 0.
Definition PROTOCOL_VERSION : Z := 2.

Definition table_bytes (t : Upgrades) : list byte :=
  to_le 8 (gas_metered_from_height t) ++ to_le 8 (bound_draw_from_epoch t) ++
  to_le 8 (hardened_from_height t).

Definition protocol_digest (c : Crypto) : list byte :=
  sha3_256 c (ascii "qtv/protocol" ++ to_le 4 PROTOCOL_VERSION ++ table_bytes FROM_GENESIS ++
    table_bytes TESTNET).

Definition for_chain (chain_id : Z) : Upgrades :=
  if chain_id =? TESTNET_CHAIN_ID then TESTNET else FROM_GENESIS.

Definition gas_metered (u : Upgrades) (height : Z) : bool := gas_metered_from_height u <=? height.
Definition bound_draw (u : Upgrades) (epoch : Z) : bool := bound_draw_from_epoch u <=? epoch.
Definition hardened (u : Upgrades) (height : Z) : bool := hardened_from_height u <=? height.
Definition full_committee (u : Upgrades) (epoch heights_per_epoch : Z) : bool :=
  hardened_from_height u <=? saturating_mul 64 epoch heights_per_epoch.

(** ** The split of a fee *)

Definition FEE_BURN_BPS : Z := 7000.
Definition FEE_PROPOSER_BPS : Z := 1000.
Definition FEE_GRANTS_BPS : Z := 2000.

Record FeeSplit : Type := mkFeeSplit { burn : Z; proposer : Z; grants : Z }.

(** [((fee as u128) * (bps as u128) / 10_000) as u64]. *)
Definition bps_part (fee bps : Z) : Z := wrap 64 (fee * bps / 10000).

Definition FeeSplit_of (fee : Z) : outcome FeeSplit :=
  let burn := bps_part fee FEE_BURN_BPS in
  let proposer := bps_part fee FEE_PROPOSER_BPS in
  obind (panicking_sub fee burn) (fun rest =>
  obind (panicking_sub rest proposer) (fun grants =>
  Done (mkFeeSplit burn proposer grants))).

Definition FeeSplit_total (s : FeeSplit) : Z :=
  saturating_add 64 (saturating_add 64 (burn s) (proposer s)) (grants s).

Definition FeeSplit_add (s other : FeeSplit) : FeeSplit :=
  mkFeeSplit (saturating_add 64 (burn s) (burn other))
    (saturating_add 64 (proposer s) (proposer other))
    (saturating_add 64 (grants s) (grants other)).

Definition RENT_EXEMPT_PER_BYTE : Z := 1000.
Definition rent_exempt_minimum_for (footprint : Z) : Z := saturating_mul 64 footprint RENT_EXEMPT_PER_BYTE.

(** ** Lemmas *)

Lemma bps_part_exact fee bps : u64 fee -> 0 <= bps <= 10000 -> bps_part fee bps = fee * bps / 10000.
Proof.
  intros Hf Hb. unfold bps_part. apply wrap_id. unfold in_width in *. split.
  - apply muldiv_nonneg; lia.
  - pose proof (muldiv_le fee bps 10000). lia.
Qed.

(** Splitting never panics and loses nothing. *)
Lemma FeeSplit_of_parts fee :
  u64 fee -> exists s, FeeSplit_of fee = Done s /\
    burn s = fee * 7000 / 10000 /\ proposer s = fee * 1000 / 10000 /\
    burn s + proposer s + grants s = fee /\ 0 <= burn s /\ 0 <= proposer s /\ 0 <= grants s.
Proof.
  intros Hf. unfold FeeSplit_of. rewrite !bps_part_exact by (done || (vm_compute; split; discriminate)).
  unfold FEE_BURN_BPS, FEE_PROPOSER_BPS, in_width in *.
  set (x := fee * 7000 / 10000). set (y := fee * 1000 / 10000).
  assert (0 <= x /\ 0 <= y /\ x + y <= fee) as (Hx & Hy & Hs).
  { subst x y. split; [apply Z.div_pos; lia|]. split; [apply Z.div_pos; lia|].
    pose proof (Z.mul_div_le (fee * 7000) 10000). pose proof (Z.mul_div_le (fee * 1000) 10000). lia. }
  unfold panicking_sub, checked_sub.
  destruct (Z.leb_spec x fee); [|lia]. cbn [obind]. destruct (Z.leb_spec y (fee - x)); [|lia].
  cbn [obind]. eexists. split; [done|]. cbn. lia.
Qed.

Lemma to_native_mono p a b :
  0 <= a <= b -> 0 <= native_unit p -> 0 <= rate_micro_usd_per_qtov p -> to_native p a <= to_native p b.
Proof.
  intros Hab Hu Hr. unfold to_native, checked_div. destruct (Z.eqb_spec (rate_micro_usd_per_qtov p) 0); [done|].
  cbn [default from_option id].
  assert (saturating_mul 128 a (native_unit p) <= saturating_mul 128 b (native_unit p)) as Hm.
  { unfold saturating_mul. nia. }
  apply (Z.div_le_mono _ _ (rate_micro_usd_per_qtov p)) in Hm; [|lia].
  unfold to_u64_capped, U64_MAX. change (from_option id 0 (Some ?x)) with x.
  case_step; case_step; bool_to_prop; lia.
Qed.

Lemma to_native_range p a :
  0 <= a -> 0 <= native_unit p -> 0 <= rate_micro_usd_per_qtov p -> u64 (to_native p a).
Proof.
  intros Ha Hu Hr. unfold to_native, checked_div, to_u64_capped, U64_MAX, in_width.
  assert (0 <= default 0 (if rate_micro_usd_per_qtov p =? 0 then None
    else Some (saturating_mul 128 a (native_unit p) / rate_micro_usd_per_qtov p))) as H.
  { destruct (Z.eqb_spec (rate_micro_usd_per_qtov p) 0); [done|]. cbn. apply Z.div_pos; [|lia].
    unfold saturating_mul. nia. }
  case_step; bool_to_prop; lia.
Qed.

Definition typed_params (p : FeeParams) : Prop :=
  u128 (transfer_micro_usd p) /\ u128 (rate_micro_usd_per_qtov p) /\ u128 (native_unit p) /\
  u64 (max_fee_native p).

(** ** Properties *)

(** Whatever price in millionths of a dollar is asked for, the fee charged lies
    between the fee of the floor and the fee of the ceiling, is a [u64] no larger
    than the configured cap, and grows with the price; no configuration, a zero rate
    included, makes it wrap or panic. *)
Theorem fee_stays_in_band (p : FeeParams) (asked more : Z) :
  typed_params p -> 0 <= asked <= more ->
  native_fee p MICRO_USD_FLOOR <= native_fee p asked /\
  native_fee p asked <= native_fee p more /\
  native_fee p more <= ceiling_fee p <= max_fee_native p /\
  u64 (native_fee p asked).
Proof.
  intros (Ht & Hr & Hu & Hm) Ha. unfold ceiling_fee, native_fee, in_width in *.
  assert (forall a b, 0 <= a <= b -> to_native p (clamp a 500 1000) <= to_native p (clamp b 500 1000)) as M.
  { intros a b Hab. apply to_native_mono; [|lia|lia]. unfold clamp. repeat case_step; bool_to_prop; lia. }
  change MICRO_USD_FLOOR with 500. change MICRO_USD_CEILING with 1000.
  assert (to_native p (clamp 500 500 1000) <= to_native p (clamp asked 500 1000)) as M1.
  { apply to_native_mono; [|lia|lia]. unfold clamp. repeat case_step; bool_to_prop; lia. }
  assert (to_native p (clamp more 500 1000) <= to_native p (clamp 1000 500 1000)) as M2.
  { apply to_native_mono; [|lia|lia]. unfold clamp. repeat case_step; bool_to_prop; lia. }
  specialize (M asked more Ha).
  assert (0 <= clamp asked 500 1000) as Hc by (unfold clamp; repeat case_step; bool_to_prop; lia).
  pose proof (to_native_range p _ Hc ltac:(lia) ltac:(lia)) as [? ?].
  repeat split; lia.
Qed.

Lemma fee_stays_in_band_witness :
  native_fee FeeParams_devnet MICRO_USD_FLOOR <= native_fee FeeParams_devnet 700 /\
  native_fee FeeParams_devnet 700 <= native_fee FeeParams_devnet 900000 /\
  native_fee FeeParams_devnet 900000 <= ceiling_fee FeeParams_devnet <= 1000 /\
  u64 (native_fee FeeParams_devnet 700) /\ native_fee FeeParams_devnet 700 = 700.
Proof.
  pose proof (fee_stays_in_band FeeParams_devnet 700 900000) as H.
  destruct H as (H1 & H2 & H3 & H4).
  - repeat split; vm_compute; (discriminate || reflexivity).
  - lia.
  - split; [exact H1|]. split; [exact H2|]. split; [exact H3|]. split; [exact H4|]. reflexivity.
Defined.
