(* ===== verification/Consensus.v ===== *)
(** * Accountability and finality (qtv-node/src/consensus.rs)

    The two detectors of misbehaviour, [equivocation_offenders] and
    [double_finalize_offenders], and the [FinalityLedger] a node checks every
    finalized height against.  Attestations, blocks and signatures are types of the
    crate qtv-attest, which is not part of the repository: the class [AttestCrate]
    names the fields and the check the code uses. *)

From S2P Require Import Prelude.
From stdpp Require Import sorting.
#[local] Open Scope Z_scope.

Class AttestCrate : Type := {
  Attestation : Type;
  Block : Type;
  PublicKey : Type;
  Root : Type;
  ChainBinding : Type;
  from : Attestation -> Z;
  height : Attestation -> Z;
  view : Attestation -> Z;
  block : Attestation -> Block;
  cost : Block -> Z;
  val : Block -> list byte;
  Block_eq :: EqDecision Block;
  signature_verifies : Attestation -> ChainBinding -> PublicKey -> bool
}.

Section Detectors.
Context {C : AttestCrate}.

Record ValidatorRegistration : Type := mkRegistration {
  id : Z;
  stake : Z;
  online : bool;
  bond_address : list byte;
  root : Root;
  attest_pk : PublicKey
}.

Definition VIEW_CHANGE_SUBJECT_COST : Z := U64_MAX.

Definition roster_find (roster : list ValidatorRegistration) (i : Z) : option ValidatorRegistration :=
  List.find (fun r => id r =? i) roster.

(** [for (index, first) in l.iter().enumerate() { for second in &l[index + 1..] { f } }] *)
Fixpoint pairs_loop {A S} (f : A -> A -> S -> S) (l : list A) (s : S) : S :=
  match l with
  | [] => s
  | first :: rest => pairs_loop f rest (foldl (fun s second => f first second s) s rest)
  end.

(** [if !flagged.contains(&i) { flagged.push(i) }] *)
Definition push_new (i : Z) (flagged : list Z) : list Z :=
  if bool_decide (i ∈ flagged) then flagged else flagged ++ [i].

Definition sort_unstable (l : list Z) : list Z := merge_sort Z.le l.

Section Calls.
Context (chain_id : ChainBinding) (roster : list ValidatorRegistration).

(** The attestations the detectors count: no view change subject, signed by a
    registered validator. *)
Definition counted (att : Attestation) : bool :=
  negb (cost (block att) =? VIEW_CHANGE_SUBJECT_COST) &&
  match roster_find roster (from att) with
  | Some reg => signature_verifies att chain_id (attest_pk reg)
  | None => false
  end.

Definition equivocation_step (first second : Attestation) (flagged : list Z) : list Z :=
  if (from first =? from second) && (height first =? height second) &&
     (view first =? view second) && negb (bool_decide (block first = block second))
  then push_new (from first) flagged else flagged.

Definition equivocation_offenders (attestations : list Attestation) : list Z :=
  let verified := List.filter counted attestations in
  sort_unstable (pairs_loop equivocation_step verified []).

(** One entry of [quorums]: height, value, signers. *)
Definition Quorum : Type := Z * list byte * list Z.

Fixpoint add_signer (h : Z) (v : list byte) (i : Z) (quorums : list Quorum) : list Quorum :=
  match quorums with
  | [] => [(h, v, [i])]
  | (h', v', signers) :: rest =>
      if (h' =? h) && bool_decide (v' = v) then (h', v', push_new i signers) :: rest
      else (h', v', signers) :: add_signer h v i rest
  end.

Definition quorums_step (quorums : list Quorum) (att : Attestation) : list Quorum :=
  if cost (block att) =? VIEW_CHANGE_SUBJECT_COST then quorums
  else match roster_find roster (from att) with
  | None => quorums
  | Some registration =>
      if negb (signature_verifies att chain_id (attest_pk registration)) then quorums
      else add_signer (height att) (val (block att)) (from att) quorums
  end.

Definition conflict_step (first second : Quorum) (flagged : list Z) : list Z :=
  if (first.1.1 =? second.1.1) && negb (bool_decide (first.1.2 = second.1.2))
  then foldl (fun flagged i => if bool_decide (i ∈ second.2) then push_new i flagged else flagged)
         flagged first.2
  else flagged.

Definition double_finalize_offenders (attestations : list Attestation) (tau : Z) : list Z :=
  let quorums := foldl quorums_step [] attestations in
  let finalized := List.filter (fun q : Quorum => tau <=? len q.2) quorums in
  sort_unstable (pairs_loop conflict_step finalized []).
End Calls.
End Detectors.

(** ** The finality ledger *)

Inductive FinalityStatus : Type :=
| Extends
| Confirms
| Unknown
| Violation (height : Z) (finalized conflicting : list byte).

Record FinalityLedger : Type := mkFinality { finalized : gmap Z (list byte); highest : Z }.

Definition FinalityLedger_new : FinalityLedger := mkFinality ∅ 0.
Definition finalized_value (l : FinalityLedger) (h : Z) : option (list byte) := finalized l !! h.

(** [DEFAULT_SLOTS] is a constant of the crate qtv-sampler. *)
Section Finality.
Context (DEFAULT_SLOTS : Z).

Definition FINALITY_RETAINED_EPOCHS : Z := 64.
Definition FINALITY_RETAINED_HEIGHTS : Z := FINALITY_RETAINED_EPOCHS * DEFAULT_SLOTS.

(** [map.keys().next().is_some_and(|&low| low < floor)]: some key lies below. *)
Definition below (floor : Z) (m : gmap Z (list byte)) : bool :=
  existsb (fun kv => kv.1 <? floor) (map_to_list m).

(** [map.split_off(&floor)]: the entries from [floor] on. *)
Definition split_off (floor : Z) (m : gmap Z (list byte)) : gmap Z (list byte) :=
  filter (fun kv => floor <= kv.1) m.

Definition observe (l : FinalityLedger) (h : Z) (value : list byte) : FinalityStatus * FinalityLedger :=
  match finalized l !! h with
  | Some seen =>
      if bool_decide (seen = value) then (Confirms, l) else (Violation h seen value, l)
  | None =>
      if saturating_add 64 h FINALITY_RETAINED_HEIGHTS <? highest l then (Unknown, l)
      else
        let finalized := <[h := value]> (finalized l) in
        let highest := Z.max (highest l) h in
        let floor := saturating_sub highest FINALITY_RETAINED_HEIGHTS in
        let finalized := if below floor finalized then split_off floor finalized else finalized in
        (Extends, mkFinality finalized highest)
  end.

(** The answers to a sequence of observations. *)
Fixpoint observe_all (l : FinalityLedger) (obs : list (Z * list byte))
    : list (Z * list byte * FinalityStatus) * FinalityLedger :=
  match obs with
  | [] => ([], l)
  | (h, v) :: obs =>
      let (status, l) := observe l h v in
      let (answers, l) := observe_all l obs in
      ((h, v, status) :: answers, l)
  end.
End Finality.

(** ** The nested loops *)

Lemma elem_push_new i x l : x ∈ push_new i l <-> x = i \/ x ∈ l.
Proof. unfold push_new. case_bool_decide; set_solver. Qed.

Lemma NoDup_push_new i l : NoDup l -> NoDup (push_new i l).
Proof.
  intros Hl. unfold push_new. case_bool_decide; [done|].
  apply NoDup_app. split; [done|]. split; [set_solver|]. apply NoDup_singleton.
Qed.

Section Pairs.
Context {A : Type} (f : A -> A -> list Z -> list Z) (P : A -> A -> Z -> Prop).
Context (f_elem : forall a b s x, x ∈ f a b s <-> x ∈ s \/ P a b x)
        (f_nodup : forall a b s, NoDup s -> NoDup (f a b s))
        (P_sym : forall a b x, P a b x -> P b a x) (P_irrefl : forall a x, ~ P a a x).

Lemma elem_inner a l s x :
  x ∈ foldl (fun s b => f a b s) s l <-> x ∈ s \/ exists b, b ∈ l /\ P a b x.
Proof using f_elem.
  clear f_nodup P_sym P_irrefl. revert s.
  induction l as [|b l IH]; intros s; cbn [foldl]; [set_solver|].
  rewrite IH, f_elem. set_solver.
Qed.

Lemma elem_pairs_loop l s x :
  x ∈ pairs_loop f l s <-> x ∈ s \/ exists a b, a ∈ l /\ b ∈ l /\ P a b x.
Proof using f_elem P_sym P_irrefl.
  clear f_nodup. revert s. induction l as [|a l IH]; intros s; cbn [pairs_loop].
  { clear. set_solver. }
  rewrite IH, elem_inner. split.
  { intros [[H|(b & Hb & H)]|(a' & b' & Ha & Hb & H)]; [by left|right..].
    - exists a, b. rewrite !elem_of_cons. auto.
    - exists a', b'. rewrite !elem_of_cons. auto. }
  intros [H|(a' & b' & Ha & Hb & H)]; [by auto|].
  apply elem_of_cons in Ha as [->|Ha], Hb as [->|Hb]; [by apply P_irrefl in H|..]; eauto 10.
Qed.

Lemma NoDup_pairs_loop l s : NoDup s -> NoDup (pairs_loop f l s).
Proof using f_nodup.
  revert s. induction l as [|a l IH]; intros s Hs; cbn [pairs_loop]; [done|]. apply IH.
  clear IH. revert s Hs. induction l as [|b l IH]; intros s Hs; cbn [foldl]; auto.
Qed.
End Pairs.

Lemma sorted_perm (l : list Z) : Sorted Z.le (sort_unstable l) /\ sort_unstable l ≡ₚ l.
Proof. split; [apply (Sorted_merge_sort Z.le)|apply (merge_sort_Permutation Z.le)]. Qed.

Lemma elem_sort l x : x ∈ sort_unstable l <-> x ∈ l.
Proof. by rewrite (proj2 (sorted_perm l)). Qed.

(** ** Equivocation *)

Section Accountability.
Context {C : AttestCrate} (chain_id : ChainBinding) (roster : list ValidatorRegistration).

(** Two different blocks signed by [i] for one height and view. *)
Definition equivocates (a b : Attestation) (i : Z) : Prop :=
  from a = i /\ from b = i /\ height a = height b /\ view a = view b /\ block a <> block b.

Lemma elem_equivocation_step a b s x :
  x ∈ equivocation_step a b s <-> x ∈ s \/ equivocates a b x.
Proof.
  unfold equivocation_step, equivocates. case_step.
  - bool_to_prop. rewrite elem_push_new. naive_solver.
  - rewrite !andb_false_iff in Eb. bool_to_prop.
    assert (~ equivocates a b x) as N; [|unfold equivocates in N; tauto].
    intros (E0 & E1 & E2 & E3 & E4).
    destruct Eb as [[[Eb|Eb]|Eb]|Eb]; bool_to_prop; congruence.
Qed.

Lemma NoDup_equivocation_step a b s : NoDup s -> NoDup (equivocation_step a b s).
Proof. unfold equivocation_step. case_step; auto using NoDup_push_new. Qed.

Lemma elem_equivocation_offenders atts i :
  i ∈ equivocation_offenders chain_id roster atts <->
  exists a b, a ∈ atts /\ b ∈ atts /\ counted chain_id roster a = true /\
    counted chain_id roster b = true /\ equivocates a b i.
Proof.
  unfold equivocation_offenders. rewrite elem_sort.
  rewrite (elem_pairs_loop _ equivocates elem_equivocation_step).
  - setoid_rewrite list_elem_of_In. setoid_rewrite filter_In. split.
    + intros [[]|(a & b & [? ?] & [? ?] & ?)]. eauto 10.
    + intros (a & b & ? & ? & ? & ? & ?). eauto 10.
  - unfold equivocates. naive_solver.
  - unfold equivocates. naive_solver.
Qed.

(** ** Conflicting finality *)

(** [i] signed value [v] at height [h], in a way the detectors count. *)
Definition voted (atts : list Attestation) (h : Z) (v : list byte) (i : Z) : Prop :=
  exists att, att ∈ atts /\ counted chain_id roster att = true /\
    height att = h /\ val (block att) = v /\ from att = i.

(** The signers collected for a height and value. *)
Fixpoint signers_of (q : list Quorum) (h : Z) (v : list byte) : list Z :=
  match q with
  | [] => []
  | (h', v', signers) :: q => if (h' =? h) && bool_decide (v' = v) then signers else signers_of q h v
  end.

Lemma same_key_spec (h h' : Z) (v v' : list byte) :
  reflect (h' = h /\ v' = v) ((h' =? h) && bool_decide (v' = v)).
Proof.
  destruct (Z.eqb_spec h' h), (bool_decide_reflect (v' = v)); constructor; naive_solver.
Qed.

Lemma signers_of_add q h v i h' v' :
  signers_of (add_signer h v i q) h' v' =
  if (h =? h') && bool_decide (v = v') then push_new i (signers_of q h v) else signers_of q h' v'.
Proof.
  induction q as [|[[h1 v1] s1] q IH]; cbn [add_signer signers_of].
  - by destruct (same_key_spec h' h v' v).
  - destruct (same_key_spec h h1 v v1) as [[-> ->]|Hn]; cbn [signers_of].
    + by destruct (same_key_spec h' h v' v).
    + rewrite IH. destruct (same_key_spec h' h v' v) as [[-> ->]|]; [|done].
      by destruct (same_key_spec h' h1 v' v1).
Qed.

Lemma keys_add q h v i :
  map fst (add_signer h v i q) =
  if bool_decide ((h, v) ∈ map fst q) then map fst q else map fst q ++ [(h, v)].
Proof.
  induction q as [|[[h1 v1] s1] q IH]; cbn [add_signer map fst]; [done|].
  destruct (same_key_spec h h1 v v1) as [[-> ->]|Hn]; cbn [map fst].
  - rewrite bool_decide_eq_true_2; [done|]. by left.
  - rewrite IH. repeat case_bool_decide; set_solver.
Qed.

Lemma NoDup_keys_add q h v i : NoDup (map fst q) -> NoDup (map fst (add_signer h v i q)).
Proof.
  intros Hq. rewrite keys_add. case_bool_decide; [done|]. apply NoDup_app.
  split; [done|]. split; [set_solver|]. apply NoDup_singleton.
Qed.

Lemma signers_of_elem q h v s : NoDup (map fst q) -> (h, v, s) ∈ q -> signers_of q h v = s.
Proof.
  induction q as [|[[h1 v1] s1] q IH]; intros Hn He; [by apply elem_of_nil in He|].
  cbn [map fst] in Hn. apply NoDup_cons in Hn as [Hn1 Hn2]. cbn [signers_of].
  apply elem_of_cons in He as [[= <- <- <-]|He].
  - by destruct (same_key_spec h h v v) as [|[]].
  - destruct (same_key_spec h h1 v v1) as [[-> ->]|]; [|auto].
    destruct Hn1. apply list_elem_of_In, in_map_iff. exists (h, v, s).
    split; [done|]. by apply list_elem_of_In.
Qed.

Lemma elem_signers_of q h v i : i ∈ signers_of q h v -> (h, v, signers_of q h v) ∈ q.
Proof.
  induction q as [|[[h1 v1] s1] q IH]; cbn [signers_of]; [by intros ?%elem_of_nil|].
  destruct (same_key_spec h h1 v v1) as [[-> ->]|]; [by left|]. right. auto.
Qed.

Lemma quorums_step_counted q att :
  quorums_step chain_id roster q att =
  if counted chain_id roster att then add_signer (height att) (val (block att)) (from att) q else q.
Proof.
  unfold quorums_step, counted. destruct (cost (block att) =? _); [done|].
  destruct (roster_find roster (from att)) as [reg|]; [|done].
  by destruct (signature_verifies att chain_id (attest_pk reg)).
Qed.

(** The collected signers are exactly the voters, each once. *)
Lemma quorums_collect atts q :
  NoDup (map fst q) -> (forall h v, NoDup (signers_of q h v)) ->
  let q' := foldl (quorums_step chain_id roster) q atts in
  NoDup (map fst q') /\
  forall h v, NoDup (signers_of q' h v) /\
    forall i, i ∈ signers_of q' h v <-> i ∈ signers_of q h v \/ voted atts h v i.
Proof.
  revert q. induction atts as [|att atts IH]; intros q Hk Hs; cbn [foldl].
  - split; [done|]. intros h v. split; [done|]. intros i. unfold voted. set_solver.
  - rewrite quorums_step_counted. destruct (counted chain_id roster att) eqn:Ec.
    + destruct (IH (add_signer (height att) (val (block att)) (from att) q)) as [Hk' Hs'].
      * by apply NoDup_keys_add.
      * intros h v. rewrite signers_of_add. case_step; auto using NoDup_push_new.
      * split; [done|]. intros h v. destruct (Hs' h v) as [Hn He]. split; [done|]. intros i.
        rewrite He, signers_of_add. unfold voted.
        destruct (same_key_spec h (height att) v (val (block att))) as [[<- <-]|Hne];
          rewrite ?elem_push_new; set_solver.
    + destruct (IH q Hk Hs) as [Hk' Hs']. split; [done|]. intros h v.
      destruct (Hs' h v) as [Hn He]. split; [done|]. intros i. rewrite He. unfold voted.
      split; [set_solver|]. intros [H|(a & Ha & Hc & H)]; [by auto|].
      apply elem_of_cons in Ha as [->|Ha]; [congruence|]. eauto 10.
Qed.

Definition conflict (a b : Quorum) (i : Z) : Prop :=
  a.1.1 = b.1.1 /\ a.1.2 <> b.1.2 /\ i ∈ a.2 /\ i ∈ b.2.

Lemma conflict_inner (b : Quorum) l s :
  let r := foldl (fun flagged i => if bool_decide (i ∈ b.2) then push_new i flagged else flagged) s l in
  (forall x, x ∈ r <-> x ∈ s \/ (x ∈ l /\ x ∈ b.2)) /\ (NoDup s -> NoDup r).
Proof.
  revert s. induction l as [|i l IH]; intros s; cbn [foldl]; [set_solver|].
  destruct (IH (if bool_decide (i ∈ b.2) then push_new i s else s)) as [He Hn]. split.
  - intros x. rewrite He. case_bool_decide; rewrite ?elem_push_new; set_solver.
  - intros Hs. apply Hn. case_bool_decide; auto using NoDup_push_new.
Qed.

Lemma elem_conflict_step a b s x : x ∈ conflict_step a b s <-> x ∈ s \/ conflict a b x.
Proof.
  unfold conflict_step, conflict. case_step.
  - bool_to_prop. rewrite (proj1 (conflict_inner b a.2 s)). naive_solver.
  - apply andb_false_iff in Eb as [Eb|Eb]; bool_to_prop; naive_solver.
Qed.

Lemma NoDup_conflict_step a b s : NoDup s -> NoDup (conflict_step a b s).
Proof. unfold conflict_step. case_step; [apply conflict_inner|done]. Qed.

Lemma elem_double_finalize_offenders atts tau i :
  let q := foldl (quorums_step chain_id roster) [] atts in
  i ∈ double_finalize_offenders chain_id roster atts tau <->
  exists h v1 v2, v1 <> v2 /\ tau <= len (signers_of q h v1) /\ tau <= len (signers_of q h v2) /\
    i ∈ signers_of q h v1 /\ i ∈ signers_of q h v2.
Proof.
  intros q. unfold double_finalize_offenders. fold q. rewrite elem_sort.
  rewrite (elem_pairs_loop _ conflict elem_conflict_step);
    [|unfold conflict; naive_solver|unfold conflict; naive_solver].
  destruct (quorums_collect atts [] (NoDup_nil_2) (fun _ _ => NoDup_nil_2)) as [Hk _]. fold q in Hk.
  setoid_rewrite list_elem_of_In. setoid_rewrite filter_In. setoid_rewrite <- list_elem_of_In.
  setoid_rewrite Z.leb_le. split.
  - intros [H|([[h v1] s1] & [[h2 v2] s2] & [Ha1 Ha2] & [Hb1 Hb2] & Hc)]; [by apply elem_of_nil in H|].
    unfold conflict in Hc. cbn [fst snd] in *. destruct Hc as (-> & Hv & Hi1 & Hi2).
    exists h2, v1, v2. rewrite (signers_of_elem q _ _ s1), (signers_of_elem q _ _ s2) by done. auto.
  - intros (h & v1 & v2 & Hv & Ht1 & Ht2 & Hi1 & Hi2). right.
    exists (h, v1, signers_of q h v1), (h, v2, signers_of q h v2).
    unfold conflict. cbn [fst snd]. split_and!; eauto using elem_signers_of.
Qed.
End Accountability.

Lemma counted_registered {C : AttestCrate} chain_id roster att :
  counted chain_id roster att = true -> from att ∈ map id roster.
Proof.
  unfold counted, roster_find. intros H. bool_to_prop.
  destruct (List.find _ roster) as [reg|] eqn:E; [|done].
  apply find_some in E as [Hin He]. bool_to_prop. rewrite <- He.
  apply list_elem_of_In, in_map, Hin.
Qed.

(** Two sets inside a third meet in at least what their sizes exceed it by. *)
Lemma quorum_overlap (l1 l2 l : list Z) :
  NoDup l1 -> NoDup l2 -> (forall x, x ∈ l1 -> x ∈ l) -> (forall x, x ∈ l2 -> x ∈ l) ->
  forall flagged, (forall x, x ∈ l1 -> x ∈ l2 -> x ∈ flagged) ->
  len l1 + len l2 - len l <= len flagged.
Proof.
  intros N1 N2 S1 S2 fl F.
  assert (E : l1 ++ List.filter (fun x => negb (bool_decide (x ∈ l1))) l2 ⊆+ l).
  { apply NoDup_submseteq.
    - apply NoDup_app. split; [done|]. split.
      + intros x Hx Hf. apply list_elem_of_In, filter_In in Hf as [_ Hf]. bool_to_prop. done.
      + apply NoDup_ListNoDup, List.NoDup_filter, NoDup_ListNoDup, N2.
    - intros x [Hx|Hx]%elem_of_app; [auto|]. apply list_elem_of_In, filter_In in Hx as [Hx _].
      apply S2, list_elem_of_In, Hx. }
  assert (G : List.filter (fun x => bool_decide (x ∈ l1)) l2 ⊆+ fl).
  { apply NoDup_submseteq; [apply NoDup_ListNoDup, List.NoDup_filter, NoDup_ListNoDup, N2|].
    intros x Hx. apply list_elem_of_In, filter_In in Hx as [Hx Hd]. bool_to_prop.
    apply F; [done|]. by apply list_elem_of_In. }
  apply submseteq_length in E, G. rewrite length_app in E.
  pose proof (filter_length (fun x => bool_decide (x ∈ l1)) l2). unfold len. lia.
Qed.

(** ** The history of the finality ledger *)

Definition accepting (s : FinalityStatus) : Prop := s = Extends \/ s = Confirms.

Section History.
Context (DEFAULT_SLOTS : Z) (slots_nonneg : 0 <= DEFAULT_SLOTS).
#[local] Notation RETAINED := (FINALITY_RETAINED_HEIGHTS DEFAULT_SLOTS).

Lemma retained_nonneg : 0 <= RETAINED.
Proof using slots_nonneg. unfold FINALITY_RETAINED_HEIGHTS, FINALITY_RETAINED_EPOCHS. lia. Qed.

(** The ledger remembers every accepted value, except at heights that are too
    low to be accepted again. *)
Record remembers (l : FinalityLedger) (acc : list (Z * list byte)) : Prop := {
  rem_range : u64 (highest l);
  rem_pos : forall h v, (h, v) ∈ acc -> 0 <= h;
  rem_top : highest l = 0 \/ exists v, (highest l, v) ∈ acc;
  rem_fun : forall h v v', (h, v) ∈ acc -> (h, v') ∈ acc -> v = v';
  rem_from : forall h v, finalized l !! h = Some v -> (h, v) ∈ acc;
  rem_kept : forall h v, (h, v) ∈ acc ->
    finalized l !! h = Some v \/ (finalized l !! h = None /\ h + RETAINED < highest l)
}.

Lemma remembers_new : remembers FinalityLedger_new [].
Proof.
  constructor; cbn.
  - done.
  - by intros ? ? ?%elem_of_nil.
  - by left.
  - by intros ? ? ? ?%elem_of_nil.
  - intros h v. by rewrite lookup_empty.
  - by intros ? ? ?%elem_of_nil.
Qed.

(** What [observe] leaves of the recorded values. *)
Lemma retained_lookup floor (m : gmap Z (list byte)) h :
  (if below floor m then split_off floor m else m) !! h = if floor <=? h then m !! h else None.
Proof.
  destruct (below floor m) eqn:Eb.
  - unfold split_off. rewrite map_lookup_filter.
    destruct (m !! h); cbn [mbind option_bind]; [|by case_step].
    destruct (Z.leb_spec floor h); [by rewrite option_guard_True|rewrite option_guard_False; [done|]].
    cbn [fst]. lia.
  - destruct (Z.leb_spec floor h); [done|]. destruct (m !! h) as [v|] eqn:E; [|done].
    assert (below floor m = true) as Ht; [|congruence]. unfold below. apply existsb_exists.
    exists (h, v). split; [by apply list_elem_of_In, elem_of_map_to_list|]. cbn [fst]. by apply Z.ltb_lt.
Qed.

Lemma observe_step l acc h v s l' :
  remembers l acc -> u64 h -> observe DEFAULT_SLOTS l h v = (s, l') ->
  exists acc', remembers l' acc' /\
    (forall k w, (k, w) ∈ acc' <-> (k, w) ∈ acc \/ ((k, w) = (h, v) /\ accepting s)) /\
    match s with
    | Extends => True
    | Confirms => True
    | Unknown => exists k w, (k, w) ∈ acc /\ h + RETAINED < k
    | Violation h' f c => h' = h /\ c = v /\ f <> v /\ (h, f) ∈ acc
    end.
Proof using slots_nonneg.
  intros [Hr Hpos Ht Hf Hfr Hk] Hh Ho. pose proof retained_nonneg as HR. unfold observe in Ho.
  unfold accepting, in_width, saturating_add, saturating_sub in *.
  destruct (finalized l !! h) as [seen|] eqn:El.
  - case_bool_decide; injection Ho as <- <-; exists acc; (split; [by constructor|]).
    + split; [|done]. intros k w. naive_solver.
    + split; [naive_solver|]. auto using Hfr.
  - case_in Ho; injection Ho as <- <-; bool_to_prop.
    + exists acc. split; [by constructor|]. split; [naive_solver|].
      destruct Ht as [Ht|[w Ht]]; [lia|]. exists (highest l), w. split; [done|]. lia.
    + assert (Hnew : forall w, (h, w) ∈ acc -> False).
      { intros w Hw. apply Hk in Hw as [Hw|[_ Hw]]; [congruence|lia]. }
      exists ((h, v) :: acc). split; [|split; [set_solver|done]].
      set (floor := Z.max (Z.max (highest l) h - RETAINED) 0). constructor; cbn [highest finalized].
      * unfold in_width. lia.
      * intros k w [[= -> ->]|Hw]%elem_of_cons; [lia|eauto].
      * destruct (Z.max_spec (highest l) h) as [[_ ->]|[? ->]]; [right; set_solver|].
        destruct Ht as [Ht|[w Ht]]; [left; lia|right; set_solver].
      * intros k w w' H1%elem_of_cons H2%elem_of_cons. naive_solver.
      * intros k w. rewrite retained_lookup. case_step; [|done].
        rewrite lookup_insert_Some. rewrite elem_of_cons. naive_solver.
      * intros k w [[= -> ->]|Hw]%elem_of_cons; rewrite retained_lookup.
        { left. destruct (Z.leb_spec floor h); [by rewrite lookup_insert_eq|lia]. }
        pose proof (Hpos _ _ Hw). assert (k <> h) by (intros ->; eauto). rewrite lookup_insert_ne by done.
        destruct (Z.leb_spec floor k).
        -- destruct (Hk _ _ Hw) as [?|[? ?]]; [by left|right; split; [done|lia]].
        -- right. split; [done|lia].
Qed.

Lemma observe_all_sound obs l acc answers l' :
  remembers l acc -> Forall (fun o => u64 o.1) obs ->
  observe_all DEFAULT_SLOTS l obs = (answers, l') ->
  exists acc', remembers l' acc' /\
    (forall k w, (k, w) ∈ acc' <->
       (k, w) ∈ acc \/ exists s, (k, w, s) ∈ answers /\ accepting s) /\
    (forall h v h' f c, (h, v, Violation h' f c) ∈ answers ->
       h' = h /\ c = v /\ f <> v /\ (h, f) ∈ acc') /\
    (forall h v, (h, v, Unknown) ∈ answers -> exists k w, (k, w) ∈ acc' /\ h + RETAINED < k).
Proof using slots_nonneg.
  revert l acc answers. induction obs as [|[h v] obs IH]; intros l acc answers Hr Hf Ho; cbn [observe_all] in Ho.
  - simplify_eq. exists acc. split; [done|]. set_solver.
  - apply Forall_cons in Hf as [Hh Hf]. cbn [fst] in Hh.
    destruct (observe DEFAULT_SLOTS l h v) as [s l1] eqn:E1.
    destruct (observe_all DEFAULT_SLOTS l1 obs) as [as1 l2] eqn:E2. simplify_eq.
    destruct (observe_step _ _ _ _ _ _ Hr Hh E1) as (acc1 & Hr1 & Hacc1 & Hs).
    destruct (IH _ _ _ Hr1 Hf E2) as (acc2 & Hr2 & Hacc2 & Hv & Hu).
    exists acc2. split; [done|]. split; [|split].
    + intros k w. rewrite Hacc2, Hacc1. setoid_rewrite elem_of_cons. naive_solver.
    + intros h0 v0 h' f c [[= -> -> <-]|Hin]%elem_of_cons; [|eauto].
      destruct Hs as (? & ? & ? & ?). split_and!; [done..|]. rewrite Hacc2, Hacc1. auto.
    + intros h0 v0 [[= -> -> <-]|Hin]%elem_of_cons; [|eauto].
      destruct Hs as (k & w & Hk & Hlt). exists k, w. split; [|done]. rewrite Hacc2, Hacc1. auto.
Qed.
End History.

(** ** Properties *)

(** [equivocation_offenders] flags exactly the equivocators: an id is flagged
    if and only if two of the attestations, each signed by the registered key of
    that id and neither a view change, carry different blocks for one height and
    view.  The list is sorted and names nobody twice. *)
Theorem equivocation_flagged_exactly {C : AttestCrate} (chain_id : ChainBinding)
    (roster : list ValidatorRegistration) (attestations : list Attestation) :
  let flagged := equivocation_offenders chain_id roster attestations in
  Sorted Z.le flagged /\ NoDup flagged /\
  forall i, i ∈ flagged <->
    exists a b, a ∈ attestations /\ b ∈ attestations /\
      counted chain_id roster a = true /\ counted chain_id roster b = true /\ equivocates a b i.
Proof.
  intros flagged. destruct (sorted_perm (pairs_loop equivocation_step
    (List.filter (counted chain_id roster) attestations) [])) as [Hs Hp].
  split; [exact Hs|]. split; [|apply elem_equivocation_offenders].
  unfold flagged, equivocation_offenders. rewrite Hp.
  apply NoDup_pairs_loop; [apply NoDup_equivocation_step|apply NoDup_nil_2].
Qed.


(** The finality ledger never takes two values for a height.  Over any sequence
    of observations from the empty ledger, two accepted observations of one height
    carry the same value; a violation is reported only against a value accepted
    before; and a height is answered as unknown only when a height more than the
    retention window above it was accepted. *)
Theorem finality_never_contradicts (DEFAULT_SLOTS : Z) (obs : list (Z * list byte)) :
  0 <= DEFAULT_SLOTS -> Forall (fun o => u64 o.1) obs ->
  let answers := fst (observe_all DEFAULT_SLOTS FinalityLedger_new obs) in
  (forall h v1 v2 a1 a2, (h, v1, a1) ∈ answers -> (h, v2, a2) ∈ answers ->
     accepting a1 -> accepting a2 -> v1 = v2) /\
  (forall h v h' f c, (h, v, Violation h' f c) ∈ answers ->
     h' = h /\ c = v /\ f <> v /\ exists s, (h, f, s) ∈ answers /\ accepting s) /\
  (forall h v, (h, v, Unknown) ∈ answers -> exists k w s, (k, w, s) ∈ answers /\ accepting s /\
     h + FINALITY_RETAINED_HEIGHTS DEFAULT_SLOTS < k).
Proof.
  intros Hd Ho answers. unfold answers.
  destruct (observe_all DEFAULT_SLOTS FinalityLedger_new obs) as [as1 l] eqn:E. cbn [fst].
  destruct (observe_all_sound _ Hd _ _ _ _ _ (remembers_new DEFAULT_SLOTS) Ho E) as (acc & Hr & Hacc & Hv & Hu).
  assert (Ha : forall k w, (k, w) ∈ acc <-> exists s, (k, w, s) ∈ as1 /\ accepting s).
  { intros k w. rewrite Hacc. set_solver. }
  split; [|split].
  - intros h v1 v2 a1 a2 H1 H2 A1 A2.
    apply (rem_fun _ _ _ Hr h); apply Ha; eauto.
  - intros h v h' f c (-> & -> & Hne & Hf)%Hv. apply Ha in Hf. auto.
  - intros h v (k & w & (s & Hk & Hs)%Ha & Hlt)%Hu. eauto 10.
Qed.

(** ** Concrete instances *)

(** Attestations as tuples, signed when the key is the signer's number. *)
Definition example_attest : AttestCrate :=
  Build_AttestCrate (Z * Z * Z * (Z * list byte)) (Z * list byte) Z unit unit
    (fun a => a.1.1.1) (fun a => a.1.1.2) (fun a => a.1.2) (fun a => a.2) (fun b => b.1) (fun b => b.2)
    _ (fun a _ pk => a.1.1.1 =? pk).

Definition example_roster : list (@ValidatorRegistration example_attest) :=
  map (fun i => @mkRegistration example_attest i 1 true [] tt i) [1; 2; 3; 4].
Definition example_vote (i : Z) (v : byte) : @Attestation example_attest := (i, 7, 0, (5, [v])).
Definition example_votes : list (@Attestation example_attest) :=
  [example_vote 1 x01; example_vote 2 x01; example_vote 3 x01;
   example_vote 2 x02; example_vote 3 x02; example_vote 4 x02].


Lemma finality_never_contradicts_witness :
  let obs := [(5, [x01]); (6, [x02]); (5, [x03]); (5, [x01])] in
  let answers := fst (observe_all 2 FinalityLedger_new obs) in
  map snd answers = [Extends; Extends; Violation 5 [x01] [x03]; Confirms] /\
  forall v, (5, v, Confirms) ∈ answers -> v = [x01].
Proof.
  intros obs answers.
  assert (A : answers = [(5, [x01], Extends); (6, [x02], Extends);
    (5, [x03], Violation 5 [x01] [x03]); (5, [x01], Confirms)]) by (vm_compute; reflexivity).
  split; [rewrite A; reflexivity|]. intros v Hv.
  destruct (finality_never_contradicts 2 obs) as [H _].
  - lia.
  - unfold obs. repeat constructor; cbn; lia.
  - apply (H 5 v [x01] Confirms Extends).
    + exact Hv.
    + change (fst (observe_all 2 FinalityLedger_new obs)) with answers. rewrite A. rewrite !elem_of_cons. tauto.
    + right. reflexivity.
    + left. reflexivity.
Defined.
