(* ===== verification/Events.v ===== *)
(** * Events (BlockEvent and SideEvent of qtv-node/src/ledger.rs)

    A block commits to its [BlockEvent]s; [SideEvent]s are kept beside the chain for
    readers.  Both are stored encoded.  The strings the code keeps as [&'static str]
    are byte strings from a fixed table here, which is what their decoder checks. *)

From S2P Require Import Prelude Codec.

(** ** Text *)

(** [String::from_utf8] succeeds: the string is a sequence of the encodings of
    Unicode scalar values in their shortest form. *)
Definition in_bytes (lo hi : Z) (b : byte) : bool := (lo <=? byte_val b) && (byte_val b <=? hi).
Definition continuation (b : byte) : bool := in_bytes 128 191 b.

(** The range of the second byte after a leading byte of three or four. *)
Definition second_of_three (b c : byte) : bool :=
  (in_bytes 224 224 b && in_bytes 160 191 c) || (in_bytes 225 236 b && continuation c) ||
  (in_bytes 237 237 b && in_bytes 128 159 c) || (in_bytes 238 239 b && continuation c).
Definition second_of_four (b c : byte) : bool :=
  (in_bytes 240 240 b && in_bytes 144 191 c) || (in_bytes 241 243 b && continuation c) ||
  (in_bytes 244 244 b && in_bytes 128 143 c).

Fixpoint is_utf8 (s : list byte) : bool :=
  match s with
  | [] => true
  | b :: r =>
      if byte_val b <? 128 then is_utf8 r
      else match r with
      | [] => false
      | c1 :: r1 =>
          if in_bytes 194 223 b then continuation c1 && is_utf8 r1
          else match r1 with
          | [] => false
          | c2 :: r2 =>
              if second_of_three b c1 then continuation c2 && is_utf8 r2
              else match r2 with
              | [] => false
              | c3 :: r3 => second_of_four b c1 && continuation c2 && continuation c3 && is_utf8 r3
              end
          end
      end
  end.

(** ** Events of a block *)

Definition NATIVE_EVENT_SOURCE : list byte := ascii "qtv/native".
Definition SLASH_DISPOSITION_BURN : list byte := ascii "burn".
Definition SLASH_DISPOSITION_TREASURY : list byte := ascii "treasury".

Definition EVENT_TRANSFER : list byte := ascii "QXFR".
Definition EVENT_BOND : list byte := ascii "QBND".
Definition EVENT_UNBOND : list byte := ascii "QUBD".
Definition EVENT_SLASH : list byte := ascii "QSLH".
Definition EVENT_MINT : list byte := ascii "QMNT".
Definition EVENT_REWARD : list byte := ascii "QRWD".
Definition EVENT_BRIDGE_MINT : list byte := ascii "QBMT".
Definition EVENT_BRIDGE_BURN : list byte := ascii "QBBN".
Definition EVENT_BRIDGE_SETTLE : list byte := ascii "QBSE".
Definition EVENT_BRIDGE_SLASH : list byte := ascii "QBSL".

Record BlockEvent : Type := mkBlockEvent {
  contract : list byte;
  selector : list byte;
  data : list byte;
  event_tx : list byte
}.

(** The decoders below answer [None] on any error: the error is dropped. *)
Definition dnone {A} : Dec A := dfail (UnknownTag 0).

Definition put_text (text : list byte) (e : Encoder) : Encoder := put_bytes text e.

Definition get_text : Dec (list byte) :=
  let* bytes := get_bytes in if is_utf8 bytes then dret bytes else dnone.

(** [<[u8; n]>::try_from(decoder.get_bytes().ok()?).ok()]. *)
Definition get_word (n : nat) : Dec (list byte) :=
  let* bytes := get_bytes in if (length bytes =? n)%nat then dret bytes else dnone.

Definition BlockEvent_encode (b : BlockEvent) : list byte :=
  into_bytes (Encoder_new |> put_bytes (contract b) |> put_bytes (selector b) |> put_bytes (data b)
    |> put_bytes (event_tx b)).

Definition BlockEvent_fields : Dec BlockEvent :=
  let* contract := get_text in
  let* selector := get_word 4 in
  let* data := get_bytes in
  let* tx := (fun d => if 0 <? remaining d then get_text d else dret [] d) in
  dret (mkBlockEvent contract selector data tx).

(** The bytes after the last field are not looked at. *)
Definition BlockEvent_decode (bytes : list byte) : option BlockEvent :=
  option_map fst (result_ok (BlockEvent_fields (Decoder_new bytes))).

Definition BlockEvent_native (kind data : list byte) : BlockEvent :=
  mkBlockEvent NATIVE_EVENT_SOURCE kind data [].

(** ** Side events *)

Module Side.
Inductive SideEvent : Type :=
| GovPropose (referendum : Z) (proposer : list byte) (track : Z) (action : list byte) (deposit : Z)
| GovVote (referendum : Z) (voter : list byte) (aye : bool) (conviction : Z) (stake : Z)
| GovTally (referendum : Z) (status : list byte) (aye_stake : Z) (nay_stake : Z)
| GovEnact (referendum : Z) (action : list byte) (proposal_hash : list byte)
| Mint (to : list byte) (amount : Z)
| Spend (source : list byte) (to : list byte) (amount : Z)
| SetParameter (key : list byte) (value : list byte)
| Blacklist (target : list byte)
| Freeze (target : list byte)
| Unfreeze (target : list byte)
| RecoverySeizure (victim : list byte) (from : list byte) (amount : Z) (scope : list byte)
| RecoveryCredit (victim : list byte) (amount : Z) (scope : list byte)
| GuardianFreeze (target : list byte) (bound : Z)
| GuardianRotate (size : Z) (threshold : Z)
| CommitteeRotate (operators : Z) (threshold : Z)
| OperatorRevoke (operator_id : Z)
| AssetRegister (asset_id : list byte) (cap : Z) (epoch_cap : Z) (requires_stark : bool)
| EpochAdvance (epoch : Z)
| Activate (feature : list byte) (version : Z)
| BridgeMigration (vault : list byte)
| BridgeUnfreeze
| Bond (validator : list byte) (amount : Z) (fee : Z)
| Unbond (validator : list byte) (amount : Z)
| Slash (validator : list byte) (amount : Z) (disposition : list byte)
| Reward (validator : list byte) (amount : Z)
| RewardClaim (validator : list byte) (amount : Z)
| ContractTransfer (contract : list byte) (to : list byte) (amount : Z)
| BridgeMint (asset_id : list byte) (recipient : list byte) (amount : Z)
| BridgeBurn (asset_id : list byte) (holder : list byte) (amount : Z) (destination : list byte)
    (chain_id : Z) (burn_ref : list byte)
| BridgeSettle (asset_id : list byte) (beneficiary : list byte) (amount : Z) (burn_ref : list byte)
| BridgeSlash (asset_id : list byte) (beneficiary : list byte) (amount : Z) (burn_ref : list byte)
| CallFailed (tx : list byte) (contract : list byte) (selector : list byte) (rule : Z) (line : Z).

Definition SideEvent_kind (event : SideEvent) : list byte :=
  match event with
  | GovPropose _ _ _ _ _ => ascii "gov_propose"
  | GovVote _ _ _ _ _ => ascii "gov_vote"
  | GovTally _ _ _ _ => ascii "gov_tally"
  | GovEnact _ _ _ => ascii "gov_enact"
  | Mint _ _ => ascii "mint"
  | Spend _ _ _ => ascii "spend"
  | SetParameter _ _ => ascii "parameter"
  | Blacklist _ => ascii "blacklist"
  | Freeze _ => ascii "freeze"
  | Unfreeze _ => ascii "unfreeze"
  | RecoverySeizure _ _ _ _ => ascii "recovery_seizure"
  | RecoveryCredit _ _ _ => ascii "recovery_credit"
  | GuardianFreeze _ _ => ascii "guardian_freeze"
  | GuardianRotate _ _ => ascii "guardian_rotate"
  | CommitteeRotate _ _ => ascii "committee_rotate"
  | OperatorRevoke _ => ascii "operator_revoke"
  | AssetRegister _ _ _ _ => ascii "asset_register"
  | EpochAdvance _ => ascii "epoch_advance"
  | Activate _ _ => ascii "activate"
  | BridgeMigration _ => ascii "bridge_migration"
  | BridgeUnfreeze => ascii "bridge_unfreeze"
  | Bond _ _ _ => ascii "bond"
  | Unbond _ _ => ascii "unbond"
  | Slash _ _ _ => ascii "slash"
  | Reward _ _ => ascii "reward"
  | RewardClaim _ _ => ascii "reward_claim"
  | ContractTransfer _ _ _ => ascii "contract_transfer"
  | BridgeMint _ _ _ => ascii "bridge_mint"
  | BridgeBurn _ _ _ _ _ _ => ascii "bridge_burn"
  | BridgeSettle _ _ _ _ => ascii "bridge_settle"
  | BridgeSlash _ _ _ _ => ascii "bridge_slash"
  | CallFailed _ _ _ _ _ => ascii "call_failed"
  end.

(** The tables of [intern_action], [intern_status] and [intern_disposition]. *)
Definition ACTIONS : list (list byte) :=
  [ascii "activate"; ascii "mint"; ascii "bridge_migration"; ascii "bridge_unfreeze";
   ascii "guardian_rotate"; ascii "committee_rotate"; ascii "asset_register";
   ascii "bridge_anchor_set"; ascii "epoch_advance"; ascii "operator_revoke";
   ascii "freeze_recovery"; ascii "blacklist"; ascii "freeze"; ascii "parameter"; ascii "spend";
   ascii "unfreeze"].
Definition STATUSES : list (list byte) := [ascii "deciding"; ascii "approved"; ascii "rejected"].
Definition DISPOSITIONS : list (list byte) := [SLASH_DISPOSITION_BURN; SLASH_DISPOSITION_TREASURY].

Definition intern (all : list (list byte)) (text : list byte) : option (list byte) :=
  List.find (fun known => bool_decide (known = text)) all.
Definition intern_action : list byte -> option (list byte) := intern ACTIONS.
Definition intern_status : list byte -> option (list byte) := intern STATUSES.
Definition intern_disposition : list byte -> option (list byte) := intern DISPOSITIONS.

Definition get_interned (all : list (list byte)) : Dec (list byte) :=
  let* text := get_text in
  match intern all text with Some known => dret known | None => dnone end.

(** [u8::from(flag)], and [get_u8()? != 0]. *)
Definition flag_u8 (b : bool) : Z := if b then 1 else 0.
Definition get_nonzero : Dec bool := let* byte := get_u8 in dret (negb (byte =? 0)).

(** [u16::try_from(get_u32()?)]. *)
Definition get_rule : Dec Z := let* v := get_u32 in if v <? 2 ^ 16 then dret v else dnone.

Definition SideEvent_encode (event : SideEvent) (e : Encoder) : Encoder :=
  match event with
  | GovPropose referendum proposer track action deposit =>
      e |> put_tag 1 |> put_u64 referendum |> put_text proposer |> put_u8 track |> put_text action
          |> put_u64 deposit
  | GovVote referendum voter aye conviction stake =>
      e |> put_tag 2 |> put_u64 referendum |> put_text voter |> put_u8 (flag_u8 aye) |> put_u8
          conviction |> put_u64 stake
  | GovTally referendum status aye_stake nay_stake =>
      e |> put_tag 3 |> put_u64 referendum |> put_text status |> put_u128 aye_stake |> put_u128
          nay_stake
  | GovEnact referendum action proposal_hash =>
      e |> put_tag 4 |> put_u64 referendum |> put_text action |> put_bytes proposal_hash
  | Mint to amount =>
      e |> put_tag 5 |> put_text to |> put_u64 amount
  | Spend source to amount =>
      e |> put_tag 6 |> put_text source |> put_text to |> put_u64 amount
  | SetParameter key value =>
      e |> put_tag 7 |> put_bytes key |> put_bytes value
  | Blacklist target =>
      e |> put_tag 8 |> put_text target
  | Freeze target =>
      e |> put_tag 9 |> put_text target
  | Unfreeze target =>
      e |> put_tag 10 |> put_text target
  | RecoverySeizure victim from amount scope =>
      e |> put_tag 11 |> put_text victim |> put_text from |> put_u64 amount |> put_bytes scope
  | RecoveryCredit victim amount scope =>
      e |> put_tag 12 |> put_text victim |> put_u64 amount |> put_bytes scope
  | GuardianFreeze target bound =>
      e |> put_tag 13 |> put_text target |> put_u64 bound
  | GuardianRotate size threshold =>
      e |> put_tag 14 |> put_u32 size |> put_u32 threshold
  | CommitteeRotate operators threshold =>
      e |> put_tag 15 |> put_u32 operators |> put_u32 threshold
  | OperatorRevoke operator_id =>
      e |> put_tag 16 |> put_u32 operator_id
  | AssetRegister asset_id cap epoch_cap requires_stark =>
      e |> put_tag 17 |> put_bytes asset_id |> put_u128 cap |> put_u128 epoch_cap
          |> put_u8 (flag_u8 requires_stark)
  | EpochAdvance epoch =>
      e |> put_tag 18 |> put_u64 epoch
  | Activate feature version =>
      e |> put_tag 19 |> put_bytes feature |> put_u64 version
  | BridgeMigration vault =>
      e |> put_tag 20 |> put_text vault
  | BridgeUnfreeze =>
      e |> put_tag 21
  | Bond validator amount fee =>
      e |> put_tag 22 |> put_text validator |> put_u64 amount |> put_u64 fee
  | Unbond validator amount =>
      e |> put_tag 23 |> put_text validator |> put_u64 amount
  | Slash validator amount disposition =>
      e |> put_tag 24 |> put_text validator |> put_u64 amount |> put_text disposition
  | Reward validator amount =>
      e |> put_tag 25 |> put_text validator |> put_u64 amount
  | RewardClaim validator amount =>
      e |> put_tag 26 |> put_text validator |> put_u64 amount
  | ContractTransfer contract to amount =>
      e |> put_tag 27 |> put_text contract |> put_text to |> put_u64 amount
  | BridgeMint asset_id recipient amount =>
      e |> put_tag 28 |> put_bytes asset_id |> put_bytes recipient |> put_u128 amount
  | BridgeBurn asset_id holder amount destination chain_id burn_ref =>
      e |> put_tag 29 |> put_bytes asset_id |> put_bytes holder |> put_u128 amount |> put_bytes
          destination |> put_u64 chain_id |> put_bytes burn_ref
  | BridgeSettle asset_id beneficiary amount burn_ref =>
      e |> put_tag 30 |> put_bytes asset_id |> put_bytes beneficiary |> put_u128 amount |> put_bytes
          burn_ref
  | BridgeSlash asset_id beneficiary amount burn_ref =>
      e |> put_tag 31 |> put_bytes asset_id |> put_bytes beneficiary |> put_u128 amount |> put_bytes
          burn_ref
  | CallFailed tx contract selector rule line =>
      e |> put_tag 32 |> put_text tx |> put_text contract |> put_bytes selector |> put_u32 rule |>
          put_u32 line
  end.

Definition SideEvent_body (tag : Z) : Dec SideEvent :=
  match tag with
  | 1 =>
      let* referendum := get_u64 in
      let* proposer := get_text in
      let* track := get_u8 in
      let* action := get_interned ACTIONS in
      let* deposit := get_u64 in
      dret (GovPropose referendum proposer track action deposit)
  | 2 =>
      let* referendum := get_u64 in
      let* voter := get_text in
      let* aye := get_nonzero in
      let* conviction := get_u8 in
      let* stake := get_u64 in
      dret (GovVote referendum voter aye conviction stake)
  | 3 =>
      let* referendum := get_u64 in
      let* status := get_interned STATUSES in
      let* aye_stake := get_u128 in
      let* nay_stake := get_u128 in
      dret (GovTally referendum status aye_stake nay_stake)
  | 4 =>
      let* referendum := get_u64 in
      let* action := get_interned ACTIONS in
      let* proposal_hash := get_word 32 in
      dret (GovEnact referendum action proposal_hash)
  | 5 =>
      let* to := get_text in
      let* amount := get_u64 in
      dret (Mint to amount)
  | 6 =>
      let* source := get_text in
      let* to := get_text in
      let* amount := get_u64 in
      dret (Spend source to amount)
  | 7 =>
      let* key := get_bytes in
      let* value := get_bytes in
      dret (SetParameter key value)
  | 8 =>
      let* target := get_text in
      dret (Blacklist target)
  | 9 =>
      let* target := get_text in
      dret (Freeze target)
  | 10 =>
      let* target := get_text in
      dret (Unfreeze target)
  | 11 =>
      let* victim := get_text in
      let* from := get_text in
      let* amount := get_u64 in
      let* scope := get_word 32 in
      dret (RecoverySeizure victim from amount scope)
  | 12 =>
      let* victim := get_text in
      let* amount := get_u64 in
      let* scope := get_word 32 in
      dret (RecoveryCredit victim amount scope)
  | 13 =>
      let* target := get_text in
      let* bound := get_u64 in
      dret (GuardianFreeze target bound)
  | 14 =>
      let* size := get_u32 in
      let* threshold := get_u32 in
      dret (GuardianRotate size threshold)
  | 15 =>
      let* operators := get_u32 in
      let* threshold := get_u32 in
      dret (CommitteeRotate operators threshold)
  | 16 =>
      let* operator_id := get_u32 in
      dret (OperatorRevoke operator_id)
  | 17 =>
      let* asset_id := get_word 16 in
      let* cap := get_u128 in
      let* epoch_cap := get_u128 in
      let* requires_stark := get_nonzero in
      dret (AssetRegister asset_id cap epoch_cap requires_stark)
  | 18 =>
      let* epoch := get_u64 in
      dret (EpochAdvance epoch)
  | 19 =>
      let* feature := get_bytes in
      let* version := get_u64 in
      dret (Activate feature version)
  | 20 =>
      let* vault := get_text in
      dret (BridgeMigration vault)
  | 21 =>
      dret BridgeUnfreeze
  | 22 =>
      let* validator := get_text in
      let* amount := get_u64 in
      let* fee := get_u64 in
      dret (Bond validator amount fee)
  | 23 =>
      let* validator := get_text in
      let* amount := get_u64 in
      dret (Unbond validator amount)
  | 24 =>
      let* validator := get_text in
      let* amount := get_u64 in
      let* disposition := get_interned DISPOSITIONS in
      dret (Slash validator amount disposition)
  | 25 =>
      let* validator := get_text in
      let* amount := get_u64 in
      dret (Reward validator amount)
  | 26 =>
      let* validator := get_text in
      let* amount := get_u64 in
      dret (RewardClaim validator amount)
  | 27 =>
      let* contract := get_text in
      let* to := get_text in
      let* amount := get_u64 in
      dret (ContractTransfer contract to amount)
  | 28 =>
      let* asset_id := get_word 16 in
      let* recipient := get_word 32 in
      let* amount := get_u128 in
      dret (BridgeMint asset_id recipient amount)
  | 29 =>
      let* asset_id := get_word 16 in
      let* holder := get_word 32 in
      let* amount := get_u128 in
      let* destination := get_word 32 in
      let* chain_id := get_u64 in
      let* burn_ref := get_word 32 in
      dret (BridgeBurn asset_id holder amount destination chain_id burn_ref)
  | 30 =>
      let* asset_id := get_word 16 in
      let* beneficiary := get_word 32 in
      let* amount := get_u128 in
      let* burn_ref := get_word 32 in
      dret (BridgeSettle asset_id beneficiary amount burn_ref)
  | 31 =>
      let* asset_id := get_word 16 in
      let* beneficiary := get_word 32 in
      let* amount := get_u128 in
      let* burn_ref := get_word 32 in
      dret (BridgeSlash asset_id beneficiary amount burn_ref)
  | 32 =>
      let* tx := get_text in
      let* contract := get_text in
      let* selector := get_word 4 in
      let* rule := get_rule in
      let* line := get_u32 in
      dret (CallFailed tx contract selector rule line)
  | _ => dnone
  end.

(** A [String], and a string of one of the tables. *)
Definition is_text (s : list byte) : Prop := is_utf8 s = true /\ u64 (len s).
Definition is_interned (all : list (list byte)) (s : list byte) : Prop :=
  intern all s = Some s /\ is_text s.

Definition SideEvent_valid (event : SideEvent) : Prop :=
  match event with
  | GovPropose referendum proposer track action deposit => u64 referendum /\ is_text proposer /\ u8
      track /\ is_interned ACTIONS action /\ u64 deposit
  | GovVote referendum voter _ conviction stake => u64 referendum /\ is_text voter /\ u8 conviction
      /\ u64 stake
  | GovTally referendum status aye_stake nay_stake => u64 referendum /\ is_interned STATUSES status
      /\ u128 aye_stake /\ u128 nay_stake
  | GovEnact referendum action proposal_hash => u64 referendum /\ is_interned ACTIONS action /\
      length proposal_hash = 32%nat
  | Mint to amount => is_text to /\ u64 amount
  | Spend source to amount => is_text source /\ is_text to /\ u64 amount
  | SetParameter key value => u64 (len key) /\ u64 (len value)
  | Blacklist target => is_text target
  | Freeze target => is_text target
  | Unfreeze target => is_text target
  | RecoverySeizure victim from amount scope => is_text victim /\ is_text from /\ u64 amount /\
      length scope = 32%nat
  | RecoveryCredit victim amount scope => is_text victim /\ u64 amount /\ length scope = 32%nat
  | GuardianFreeze target bound => is_text target /\ u64 bound
  | GuardianRotate size threshold => u32 size /\ u32 threshold
  | CommitteeRotate operators threshold => u32 operators /\ u32 threshold
  | OperatorRevoke operator_id => u32 operator_id
  | AssetRegister asset_id cap epoch_cap _ => length asset_id = 16%nat /\ u128 cap /\ u128 epoch_cap
  | EpochAdvance epoch => u64 epoch
  | Activate feature version => u64 (len feature) /\ u64 version
  | BridgeMigration vault => is_text vault
  | BridgeUnfreeze => True
  | Bond validator amount fee => is_text validator /\ u64 amount /\ u64 fee
  | Unbond validator amount => is_text validator /\ u64 amount
  | Slash validator amount disposition => is_text validator /\ u64 amount /\ is_interned
      DISPOSITIONS disposition
  | Reward validator amount => is_text validator /\ u64 amount
  | RewardClaim validator amount => is_text validator /\ u64 amount
  | ContractTransfer contract to amount => is_text contract /\ is_text to /\ u64 amount
  | BridgeMint asset_id recipient amount => length asset_id = 16%nat /\ length recipient = 32%nat /\
      u128 amount
  | BridgeBurn asset_id holder amount destination chain_id burn_ref => length asset_id = 16%nat /\
      length holder = 32%nat /\ u128 amount /\ length destination = 32%nat /\ u64 chain_id /\ length
      burn_ref = 32%nat
  | BridgeSettle asset_id beneficiary amount burn_ref => length asset_id = 16%nat /\ length
      beneficiary = 32%nat /\ u128 amount /\ length burn_ref = 32%nat
  | BridgeSlash asset_id beneficiary amount burn_ref => length asset_id = 16%nat /\ length
      beneficiary = 32%nat /\ u128 amount /\ length burn_ref = 32%nat
  | CallFailed tx contract selector rule line => is_text tx /\ is_text contract /\ length selector =
      4%nat /\ u16 rule /\ u32 line
  end.

Definition SideEvent_codec : Codec SideEvent :=
  mkCodec SideEvent SideEvent_encode (let* tag := get_tag in SideEvent_body tag) SideEvent_valid.

Definition SideEvent_to_bytes (event : SideEvent) : list byte := to_bytes SideEvent_codec event.
Definition SideEvent_decode (bytes : list byte) : option SideEvent :=
  result_ok (from_bytes SideEvent_codec bytes).

(** ** Reading back *)

Lemma reads_get_text s : is_text s -> reads get_text (bytes_image s) s.
Proof.
  intros [Hu Hl]. unfold get_text. eapply reads_map; [eauto with codec|]. rewrite Hu. apply reads_ret.
Qed.

Lemma reads_get_word n s : length s = n -> (n <= 64)%nat -> reads (get_word n) (bytes_image s) s.
Proof.
  intros Hs Hn. unfold get_word. eapply reads_map.
  - apply reads_get_bytes. unfold in_width, len. lia.
  - rewrite Hs, Nat.eqb_refl. apply reads_ret.
Qed.

Lemma reads_get_interned all s : is_interned all s -> reads (get_interned all) (bytes_image s) s.
Proof.
  intros [Hi Ht]. unfold get_interned. eapply reads_map; [by apply reads_get_text|].
  rewrite Hi. apply reads_ret.
Qed.

Lemma reads_get_nonzero b : reads get_nonzero [byte_of (flag_u8 b)] b.
Proof.
  unfold get_nonzero. eapply reads_map; [apply reads_get_u8; by destruct b|].
  destruct b; apply reads_ret.
Qed.

Lemma reads_get_rule v : u16 v -> reads get_rule (to_le 4 v) v.
Proof.
  intros Hv. unfold get_rule. eapply reads_map.
  - apply reads_get_u32. by apply (in_width_mono 16); [lia|].
  - destruct (Z.ltb_spec v (2 ^ 16)); [apply reads_ret|]. unfold in_width in Hv. lia.
Qed.

Lemma buf_put_text s e : buf (put_text s e) = buf e ++ bytes_image s.
Proof. apply buf_put_bytes. Qed.

#[local] Hint Rewrite buf_put_text : codec.
#[local] Hint Resolve reads_get_text reads_get_interned reads_get_nonzero reads_get_rule : codec.
#[local] Hint Extern 1 (reads (get_word _) _ _) => (apply reads_get_word; [assumption|lia]) : codec.
#[local] Hint Extern 1 (reads get_tag _ _) => (apply reads_get_u8; cbv; intuition congruence) : codec.

#[global] Instance SideEvent_roundtrip : RoundTrip SideEvent_codec.
Proof.
  intros v Hv. destruct v; cbn [valid SideEvent_codec SideEvent_valid] in Hv; destruct_and?;
    unfold to_bytes, into_bytes; cbn [encode SideEvent_codec SideEvent_encode];
    autorewrite with codec; rewrite <- ?app_assoc, ?app_nil_l; cbn [decode SideEvent_codec];
    reads_fields.
Qed.
End Side.

(** ** Block events *)

Definition BlockEvent_valid (b : BlockEvent) : Prop :=
  Side.is_text (contract b) /\ length (selector b) = 4%nat /\ u64 (len (data b)) /\
  Side.is_text (event_tx b).

Lemma buf_BlockEvent b :
  BlockEvent_encode b = bytes_image (contract b) ++ bytes_image (selector b) ++
    bytes_image (data b) ++ bytes_image (event_tx b).
Proof. unfold BlockEvent_encode, into_bytes. autorewrite with codec. by rewrite <- ?app_assoc. Qed.

Lemma reads_last_text s :
  Side.is_text s -> reads (fun d => if 0 <? remaining d then get_text d else dret [] d) (bytes_image s) s.
Proof.
  intros Hs d post Hf Hr. assert (Hlt : 0 < remaining d).
  { pose proof (f_equal length Hr) as Hl. rewrite rest_length, length_app in Hl.
    unfold bytes_image in Hl. rewrite length_app, length_to_le in Hl. unfold remaining, len. lia. }
  apply Z.ltb_lt in Hlt. rewrite Hlt. by apply (Side.reads_get_text s Hs d post).
Qed.

Lemma BlockEvent_reads b : BlockEvent_valid b -> reads BlockEvent_fields (BlockEvent_encode b) b.
Proof.
  intros (Hc & Hs & Hd & Ht). rewrite buf_BlockEvent. destruct b as [c s d t].
  cbn [contract selector data event_tx] in *.
  unfold BlockEvent_fields.
  eapply reads_bind; [by apply Side.reads_get_text|]. cbn beta.
  eapply reads_bind; [apply Side.reads_get_word; [done|lia]|]. cbn beta.
  eapply reads_bind; [by apply reads_get_bytes|]. cbn beta.
  eapply reads_map; [by apply reads_last_text|]. apply reads_ret.
Qed.

(** ** Properties *)

(** Stored events come back as they were recorded.  Every side event decodes
    from its encoding to itself, and an encoding followed by anything decodes to
    nothing; every block event decodes to itself.  So two events with the same
    bytes are the same event. *)
Theorem events_round_trip :
  (forall event extra, Side.SideEvent_valid event ->
     len (Side.SideEvent_to_bytes event ++ extra) <= ISIZE_MAX ->
     Side.SideEvent_decode (Side.SideEvent_to_bytes event ++ extra) =
       match extra with [] => Some event | _ => None end) /\
  (forall event, BlockEvent_valid event -> len (BlockEvent_encode event) <= ISIZE_MAX ->
     BlockEvent_decode (BlockEvent_encode event) = Some event).
Proof.
  split.
  - intros event extra Hv Hl. unfold Side.SideEvent_decode, Side.SideEvent_to_bytes in *.
    destruct extra as [|x extra].
    + rewrite app_nil_r in *. by rewrite (from_bytes_encoded Side.SideEvent_codec event Hv Hl).
    + unfold from_bytes.
      rewrite (decode_encode (c := Side.SideEvent_codec) event Hv
        (Decoder_new (to_bytes Side.SideEvent_codec event ++ x :: extra)) (x :: extra));
        [|split; [cbn; lia|done]|done].
      unfold finish, advance, Decoder_new. cbn [pos input]. rewrite length_app. cbn [length].
      destruct (Nat.eqb_spec (0 + length (to_bytes Side.SideEvent_codec event))
        (length (to_bytes Side.SideEvent_codec event) + S (length extra))); [lia|done].
  - intros event Hv Hl. unfold BlockEvent_decode.
    rewrite (BlockEvent_reads event Hv (Decoder_new (BlockEvent_encode event)) []); [done|..].
    + split; [cbn; lia|done].
    + unfold rest. cbn. by rewrite app_nil_r.
Qed.

Lemma events_round_trip_witness :
  let e := Side.Slash (ascii "Q1") 7 SLASH_DISPOSITION_BURN in
  Side.SideEvent_decode (Side.SideEvent_to_bytes e) = Some e /\
  Side.SideEvent_decode (Side.SideEvent_to_bytes e ++ [x00]) = None.
Proof.
  intros e. destruct events_round_trip as [H _].
  assert (V : Side.SideEvent_valid e).
  { repeat split; vm_compute; (reflexivity || discriminate). }
  split.
  - rewrite <- (app_nil_r (Side.SideEvent_to_bytes e)). apply (H e []); [exact V|vm_compute; discriminate].
  - apply (H e [x00]); [exact V|vm_compute; discriminate].
Defined.
