(* ===== verification/LedgerState.v ===== *)
(** * The ledger's state and its journal (qtv-node/src/ledger.rs)

    [Ledger] with the leaves it keeps in the state trie, the events of the block
    and the journal of an atomic step; the writes every operation goes through, and
    [apply_atomic].  The trie is the finite map from keys to leaves that it refines.
    An operation on [&mut self] is a computation [M A]: it changes the ledger and
    returns a value or panics, and a panic keeps the changes made so far, as
    [catch_unwind] sees them.  The fields of the virtual machine (call failures,
    meters, provenance) belong to contract execution and are left out. *)

From S2P Require Import Prelude Codec Events.

Abbreviation Key := (list byte).
Abbreviation Leaves := (gmap (list byte) (list byte)).

(** What [journal] records for a write: the key and the leaf before it. *)
Abbreviation Entry := (list byte * option (list byte))%type.

Record Ledger : Type := mkLedger {
  leaves : Leaves;
  block_events : list BlockEvent;
  side_events : list Side.SideEvent;
  round_proposer : option (list byte);
  execution_height : Z;
  execution_time_set : Z;
  heights_per_epoch : Z;
  journal : option (list Entry);
  block_fresh_leaves : Z;
  fresh_leaf_ceiling : option Z
}.

Definition Ledger_new : Ledger := mkLedger ∅ [] [] None 0 0 0 None 0 None.
Definition from_trie (trie : Leaves) : Ledger := mkLedger trie [] [] None 0 0 0 None 0 None.

Definition with_leaves (m : Leaves) (l : Ledger) : Ledger :=
  mkLedger m (block_events l) (side_events l) (round_proposer l) (execution_height l)
    (execution_time_set l) (heights_per_epoch l) (journal l) (block_fresh_leaves l)
    (fresh_leaf_ceiling l).
Definition with_events (e : list BlockEvent) (s : list Side.SideEvent) (l : Ledger) : Ledger :=
  mkLedger (leaves l) e s (round_proposer l) (execution_height l) (execution_time_set l)
    (heights_per_epoch l) (journal l) (block_fresh_leaves l) (fresh_leaf_ceiling l).
Definition with_journal (j : option (list Entry)) (l : Ledger) : Ledger :=
  mkLedger (leaves l) (block_events l) (side_events l) (round_proposer l) (execution_height l)
    (execution_time_set l) (heights_per_epoch l) j (block_fresh_leaves l) (fresh_leaf_ceiling l).
Definition with_fresh (n : Z) (l : Ledger) : Ledger :=
  mkLedger (leaves l) (block_events l) (side_events l) (round_proposer l) (execution_height l)
    (execution_time_set l) (heights_per_epoch l) (journal l) n (fresh_leaf_ceiling l).

(** [set_round_proposer] takes an empty address for none. *)
Definition set_round_proposer (address : list byte) (l : Ledger) : Ledger :=
  mkLedger (leaves l) (block_events l) (side_events l)
    (match address with [] => None | _ :: _ => Some address end)
    (execution_height l) (execution_time_set l) (heights_per_epoch l) (journal l)
    (block_fresh_leaves l) (fresh_leaf_ceiling l).
Definition set_heights_per_epoch (heights : Z) (l : Ledger) : Ledger :=
  mkLedger (leaves l) (block_events l) (side_events l) (round_proposer l) (execution_height l)
    (execution_time_set l) heights (journal l) (block_fresh_leaves l) (fresh_leaf_ceiling l).
Definition set_execution_height (height : Z) (l : Ledger) : Ledger :=
  mkLedger (leaves l) (block_events l) (side_events l) (round_proposer l) height
    (execution_time_set l) (heights_per_epoch l) (journal l) (block_fresh_leaves l)
    (fresh_leaf_ceiling l).
Definition set_fresh_leaf_ceiling (ceiling : option Z) (l : Ledger) : Ledger :=
  mkLedger (leaves l) (block_events l) (side_events l) (round_proposer l) (execution_height l)
    (execution_time_set l) (heights_per_epoch l) (journal l) (block_fresh_leaves l) ceiling.

(** ** Computations on the ledger *)

Definition M (A : Type) : Type := Ledger -> outcome A * Ledger.

#[global] Instance M_ret : MRet M := fun A a l => (Done a, l).
#[global] Instance M_bind : MBind M := fun A B k m l =>
  match m l with
  | (Done a, l') => k a l'
  | (Panic, l') => (Panic, l')
  end.

(** A reader on [&self], which may itself panic. *)
Definition ask {A} (f : Ledger -> outcome A) : M A := fun l => (f l, l).
Definition asks {A} (f : Ledger -> A) : M A := fun l => (Done (f l), l).
Definition modify (f : Ledger -> Ledger) : M unit := fun l => (Done tt, f l).
(** A pure computation that may panic. *)
Definition lift {A} (o : outcome A) : M A := fun l => (o, l).
Definition when (b : bool) (m : M unit) : M unit := if b then m else mret tt.
Fixpoint for_each {A} (xs : list A) (body : A -> M unit) : M unit :=
  match xs with
  | [] => mret tt
  | x :: xs => body x ;; for_each xs body
  end.

(** ** Writes *)

Definition get_leaf (l : Ledger) (key : Key) : option (list byte) := leaves l !! key.

(** [self.journal.as_mut().push((key, prior))], when there is a journal. *)
Definition note_prior (key : Key) (l : Ledger) : Ledger :=
  match journal l with
  | None => l
  | Some j => with_journal (Some (j ++ [(key, get_leaf l key)])) l
  end.

Definition write_leaf (key : Key) (value : list byte) : M unit :=
  modify (fun l =>
    let l := match get_leaf l key with
             | None => with_fresh (saturating_add 64 (block_fresh_leaves l) 1) l
             | Some _ => l
             end in
    let l := note_prior key l in
    with_leaves (<[key := value]> (leaves l)) l).

Definition erase_leaf (key : Key) : M bool := fun l =>
  let l := note_prior key l in
  (Done (bool_decide (is_Some (leaves l !! key))), with_leaves (delete key (leaves l)) l).

Definition insert_raw (key : Key) (bytes : list byte) : M unit := write_leaf key bytes.

(** ** Events *)

Definition clear_block_events (l : Ledger) : Ledger := with_events [] [] l.
Definition clear_block_fresh_leaves (l : Ledger) : Ledger := with_fresh 0 l.

Definition record_side_event (event : Side.SideEvent) : M unit :=
  modify (fun l => with_events (block_events l) (side_events l ++ [event]) l).
Definition record_native_event (kind data : list byte) : M unit :=
  modify (fun l => with_events (block_events l ++ [BlockEvent_native kind data]) (side_events l) l).

Definition record_transfer_event (from to : list byte) (amount fee : Z) : M unit :=
  record_native_event EVENT_TRANSFER (into_bytes
    (Encoder_new |> put_bytes from |> put_bytes to |> put_u64 amount |> put_u64 fee)).
Definition record_bond_event (address : list byte) (amount fee : Z) : M unit :=
  record_native_event EVENT_BOND (into_bytes
    (Encoder_new |> put_bytes address |> put_u64 amount |> put_u64 fee)).
Definition record_unbond_event (address : list byte) (amount : Z) : M unit :=
  record_native_event EVENT_UNBOND (into_bytes (Encoder_new |> put_bytes address |> put_u64 amount)).
Definition record_slash_event (address : list byte) (amount : Z) : M unit :=
  record_native_event EVENT_SLASH (into_bytes (Encoder_new |> put_bytes address |> put_u64 amount)).
Definition record_mint_event (to : list byte) (amount : Z) : M unit :=
  record_native_event EVENT_MINT (into_bytes (Encoder_new |> put_bytes to |> put_u64 amount)).
Definition record_reward_event (address : list byte) (amount : Z) : M unit :=
  record_native_event EVENT_REWARD (into_bytes (Encoder_new |> put_bytes address |> put_u64 amount)).
Definition record_bridge_mint_event (asset_id recipient : list byte) (amount : Z) : M unit :=
  record_native_event EVENT_BRIDGE_MINT (into_bytes
    (Encoder_new |> put_bytes asset_id |> put_bytes recipient |> put_u128 amount)).
Definition record_bridge_burn_event (asset_id holder : list byte) (amount : Z)
    (destination : list byte) (chain_id sender_nonce event_index : Z) (burn_ref : list byte) : M unit :=
  record_native_event EVENT_BRIDGE_BURN (into_bytes
    (Encoder_new |> put_bytes asset_id |> put_bytes holder |> put_u128 amount
      |> put_bytes destination |> put_u64 chain_id |> put_u64 sender_nonce |> put_u64 event_index
      |> put_bytes burn_ref)).
Definition record_bridge_settle_event (asset_id beneficiary : list byte) (amount : Z)
    (burn_ref : list byte) : M unit :=
  record_native_event EVENT_BRIDGE_SETTLE (into_bytes
    (Encoder_new |> put_bytes asset_id |> put_bytes beneficiary |> put_u128 amount |> put_bytes burn_ref)).
Definition record_bridge_slash_event (asset_id beneficiary : list byte) (amount : Z)
    (burn_ref : list byte) : M unit :=
  record_native_event EVENT_BRIDGE_SLASH (into_bytes
    (Encoder_new |> put_bytes asset_id |> put_bytes beneficiary |> put_u128 amount |> put_bytes burn_ref)).

(** ** Atomic steps *)

(** [for (key, prior) in unwound.into_iter().rev()]: put every prior leaf back. *)
Definition undo_entry (m : Leaves) (e : Entry) : Leaves :=
  match e.2 with Some bytes => <[e.1 := bytes]> m | None => delete e.1 m end.
Definition unwind (j : list Entry) (m : Leaves) : Leaves := foldl undo_entry m (rev j).

Definition apply_atomic (f : M bool) : M bool := fun l =>
  let events_mark := length (block_events l) in
  let side_mark := length (side_events l) in
  let leaves_mark := block_fresh_leaves l in
  let restore := journal l in
  let outermost := match restore with None => true | Some _ => false end in
  let '(result, l1) := f (with_journal (Some []) l) in
  let unwound := default [] (journal l1) in
  let l2 := with_journal restore l1 in
  let over_ceiling := outermost &&
    match fresh_leaf_ceiling l2 with
    | Some ceiling => ceiling <? block_fresh_leaves l2
    | None => false
    end in
  let committed := match result with Done true => true | _ => false end && negb over_ceiling in
  if committed then
    (Done true, match restore with
                | Some outer => with_journal (Some (outer ++ unwound)) l2
                | None => l2
                end)
  else
    (Done false,
     with_fresh leaves_mark
       (with_events (take events_mark (block_events l2)) (take side_mark (side_events l2))
         (with_leaves (unwind unwound (leaves l2)) l2))).

(** ** Journaled computations *)

(** Everything a computation may do to the ledger so that [apply_atomic] can take it
    back: it only adds events, and with a journal present, unwinding what it added
    to the journal gives back the leaves. *)
Record grows (l l' : Ledger) : Prop := mkGrows {
  grows_events : exists es, block_events l' = block_events l ++ es;
  grows_side : exists es, side_events l' = side_events l ++ es;
  grows_journal : match journal l with
    | None => journal l' = None
    | Some j => exists j', journal l' = Some (j ++ j') /\ unwind j' (leaves l') = leaves l
    end;
  grows_proposer : round_proposer l' = round_proposer l;
  grows_height : execution_height l' = execution_height l;
  grows_time : execution_time_set l' = execution_time_set l;
  grows_epoch : heights_per_epoch l' = heights_per_epoch l;
  grows_ceiling : fresh_leaf_ceiling l' = fresh_leaf_ceiling l
}.

Class Journaled {A} (m : M A) : Prop := journaled : forall l, grows l (m l).2.

Lemma unwind_app j1 j2 m : unwind (j1 ++ j2) m = unwind j1 (unwind j2 m).
Proof. unfold unwind. by rewrite rev_app_distr, foldl_app. Qed.

Lemma unwind_one key m v :
  unwind [(key, m !! key)] (<[key := v]> m) = m /\ unwind [(key, m !! key)] (delete key m) = m.
Proof.
  unfold unwind, undo_entry. cbn [rev app foldl fst snd]. destruct (m !! key) as [b|] eqn:E.
  - rewrite insert_insert_eq, insert_delete_eq. by rewrite insert_id.
  - rewrite delete_insert_eq, delete_delete_eq. by rewrite delete_id.
Qed.

#[global] Instance grows_preorder : PreOrder grows.
Proof.
  split.
  - intros l. constructor; try done; [exists []; by rewrite app_nil_r..|].
    destruct (journal l) as [j|]; [|done]. exists []. by rewrite app_nil_r.
  - intros l1 l2 l3 [E1 S1 J1 ? ? ? ? ?] [E2 S2 J2 ? ? ? ? ?].
    constructor; try congruence.
    + destruct E1 as [e1 H1], E2 as [e2 H2]. exists (e1 ++ e2). by rewrite H2, H1, app_assoc.
    + destruct S1 as [e1 H1], S2 as [e2 H2]. exists (e1 ++ e2). by rewrite H2, H1, app_assoc.
    + destruct (journal l1) as [j|].
      * destruct J1 as (j1 & H1 & U1). rewrite H1 in J2. destruct J2 as (j2 & H2 & U2).
        exists (j1 ++ j2). rewrite H2, app_assoc. split; [done|]. by rewrite unwind_app, U2.
      * by rewrite J1 in J2.
Qed.

Lemma journaled_ret {A} (a : A) : Journaled (mret a).
Proof. intros l. reflexivity. Qed.
Lemma journaled_ask {A} (f : Ledger -> outcome A) : Journaled (ask f).
Proof. intros l. reflexivity. Qed.
Lemma journaled_asks {A} (f : Ledger -> A) : Journaled (asks f).
Proof. intros l. reflexivity. Qed.
Lemma journaled_lift {A} (o : outcome A) : Journaled (lift o).
Proof. intros l. reflexivity. Qed.

Lemma journaled_bind {A B} (m : M A) (k : A -> M B) :
  Journaled m -> (forall a, Journaled (k a)) -> Journaled (m ≫= k).
Proof.
  intros Hm Hk l. unfold mbind, M_bind. specialize (Hm l). destruct (m l) as [[a|] l']; [|done].
  etrans; [exact Hm|apply Hk].
Qed.

Lemma journaled_if {A} (b : bool) (m1 m2 : M A) :
  Journaled m1 -> Journaled m2 -> Journaled (if b then m1 else m2).
Proof. by destruct b. Qed.
Lemma journaled_option {A B} (o : option A) (k : A -> M B) (m : M B) :
  (forall a, Journaled (k a)) -> Journaled m ->
  Journaled (match o with Some a => k a | None => m end).
Proof. by destruct o. Qed.

Lemma journaled_when b m : Journaled m -> Journaled (when b m).
Proof. intros ?. unfold when. by apply journaled_if, journaled_ret. Qed.

Lemma journaled_for_each {A} (xs : list A) body :
  (forall x, Journaled (body x)) -> Journaled (for_each xs body).
Proof. intros H. induction xs as [|x xs IH]; simpl; [apply journaled_ret|].
  by apply journaled_bind.
Qed.

Lemma grows_note key l m :
  unwind [(key, leaves l !! key)] m = leaves l -> grows l (with_leaves m (note_prior key l)).
Proof.
  intros H. unfold note_prior. destruct (journal l) as [j|] eqn:E; constructor; cbn; try done;
    try (exists []; by rewrite app_nil_r); rewrite E; [|done].
  eexists. split; [done|]. exact H.
Qed.

Lemma journaled_write key value : Journaled (write_leaf key value).
Proof.
  intros l. unfold write_leaf, modify. cbn [snd].
  set (l1 := match get_leaf l key with None => _ | Some _ => l end).
  assert (leaves l1 = leaves l /\ grows l l1) as [El Hg].
  { unfold l1. destruct (get_leaf l key); split; try done.
    constructor; cbn; try done; try (exists []; by rewrite app_nil_r).
    destruct (journal l) as [j|] eqn:E; [|done]. exists []. by rewrite app_nil_r. }
  etrans; [exact Hg|]. replace (leaves (note_prior key l1)) with (leaves l1).
  - apply grows_note, unwind_one.
  - unfold note_prior. by destruct (journal l1).
Qed.

Lemma journaled_erase key : Journaled (erase_leaf key).
Proof.
  intros l. unfold erase_leaf. cbn [snd]. replace (leaves (note_prior key l)) with (leaves l).
  - apply grows_note. by apply (unwind_one key (leaves l) []).
  - unfold note_prior. by destruct (journal l).
Qed.

Lemma grows_events_only l es ss :
  grows l (with_events (block_events l ++ es) (side_events l ++ ss) l).
Proof.
  constructor; cbn; eauto. destruct (journal l) as [j|]; [|done]. exists []. by rewrite app_nil_r.
Qed.

Lemma journaled_side event : Journaled (record_side_event event).
Proof.
  intros l. unfold record_side_event, modify. cbn [snd].
  rewrite <- (app_nil_r (block_events l)) at 1. apply grows_events_only.
Qed.
Lemma journaled_native kind data : Journaled (record_native_event kind data).
Proof.
  intros l. unfold record_native_event, modify. cbn [snd].
  rewrite <- (app_nil_r (side_events l)) at 1. apply grows_events_only.
Qed.

Create HintDb journaled discriminated.
#[export] Hint Resolve journaled_ret journaled_ask journaled_asks journaled_lift journaled_write
  journaled_erase journaled_side journaled_native : journaled.

(** Proves [Journaled] of an operation from its parts. *)
Ltac journaled :=
  repeat first
  [ solve [auto with journaled nocore]
  | match goal with
    | |- Journaled (_ ≫= _) => apply journaled_bind; [|intros ?]
    | |- Journaled (if _ then _ else _) => apply journaled_if
    | |- Journaled (when _ _) => apply journaled_when
    | |- Journaled (for_each _ _) => apply journaled_for_each; intros ?
    | |- Journaled (match ?x with _ => _ end) => destruct x
    end ].

(** The visible state: everything that reaches a block or a later step. *)
Definition same_ledger (l l' : Ledger) : Prop :=
  leaves l' = leaves l /\ block_events l' = block_events l /\ side_events l' = side_events l /\
  block_fresh_leaves l' = block_fresh_leaves l /\ journal l' = journal l.

Lemma apply_atomic_outcome f l :
  Journaled f ->
  let l1 := (f (with_journal (Some []) l)).2 in
  let r := (apply_atomic f l).1 in let l' := (apply_atomic f l).2 in
  (r = Done true /\ (f (with_journal (Some []) l)).1 = Done true /\ leaves l' = leaves l1 /\
     block_events l' = block_events l1 /\ side_events l' = side_events l1 /\ grows l l') \/
  (r = Done false /\ same_ledger l l' /\ grows l l').
Proof.
  intros Hf. cbv zeta. specialize (Hf (with_journal (Some []) l)).
  unfold apply_atomic. destruct (f (with_journal (Some []) l)) as [res l1]. cbn [fst snd] in *.
  destruct Hf as [[es He] [ss Hs] (j & Hj & Hu) Hp Hh Ht Hhe Hc].
  cbn in He, Hs, Hu, Hp, Hh, Ht, Hhe, Hc, Hj. rewrite Hj. cbn [default from_option id].
  destruct (match res with Done true => true | _ => false end && _) eqn:Ec; cbn [fst snd].
  - left. apply andb_true_iff in Ec as [Er _].
    split; [done|]. split; [destruct res as [[]|]; done|].
    destruct (journal l) as [j0|] eqn:Ej; (split; [done|]; split; [done|]; split; [done|]);
      constructor; cbn; rewrite ?Ej; eauto.
  - right. split; [done|]. split.
    + unfold same_ledger. cbn. rewrite He, Hs, Hu, !take_app_length. done.
    + constructor; cbn; rewrite ?He, ?Hs, ?take_app_length; try done;
        try (exists []; by rewrite app_nil_r).
      destruct (journal l) as [j0|]; [|done]. exists []. by rewrite app_nil_r.
Qed.

Lemma journaled_atomic f : Journaled f -> Journaled (apply_atomic f).
Proof.
  intros Hf l. by destruct (apply_atomic_outcome f l Hf) as [(_ & _ & _ & _ & _ & H)|(_ & _ & H)].
Qed.
