(* ===== verification/LedgerKeys.v ===== *)
(** * The keys of the ledger's leaves (qtv-node/src/ledger.rs)

    Every leaf lives under the hash of a tag followed by an identifier.  [Slot]
    names the leaves of accounts and staking; [slot_preimage_inj] shows that their
    hashed strings never coincide, so that with a hash that does not confuse them
    the leaves are disjoint. *)

From S2P Require Import Prelude Codec Idfmt Block.

Definition KEY_LEN : nat := 32.

(** ** Tags *)

Definition STAKE_BOND_TAG : list byte := ascii "qtv/stake/bond/".
Definition STAKE_REWARDS_TAG : list byte := ascii "qtv/stake/rewards/".
Definition STAKE_POOL_TAG : list byte := ascii "qtv/stake/pool".
Definition STAKE_TREASURY_TAG : list byte := ascii "qtv/stake/treasury".
Definition SUPPLY_TAG : list byte := ascii "qtv/supply".
Definition STAKE_PRICE_TAG : list byte := ascii "qtv/stake/price".
Definition STAKE_MAINNET_TAG : list byte := ascii "qtv/stake/mainnet".
Definition STAKE_METER_TAG : list byte := ascii "qtv/stake/meter".
Definition GOV_DEPOSIT_TAG : list byte := ascii "qtv/gov/deposit".
Definition STAKE_VALIDATORS_TAG : list byte := ascii "qtv/stake/validators".
Definition STAKE_TOTAL_TAG : list byte := ascii "qtv/stake/total".
Definition STAKE_TOTAL_ACTIVE_TAG : list byte := ascii "qtv/stake/total/active".
Definition STAKE_TOTAL_RAISED_TAG : list byte := ascii "qtv/stake/total/raised".
Definition STAKE_PAYEE_TAG : list byte := ascii "qtv/stake/payee/".
Definition STAKE_BANNED_TAG : list byte := ascii "qtv/stake/banned/".
Definition STAKE_ATTEST_TAG : list byte := ascii "qtv/stake/attest/".
Definition GOV_LOCK_TAG : list byte := ascii "qtv/gov/lock/".
Definition GOV_BLACKLIST_TAG : list byte := ascii "qtv/gov/blacklist/".
Definition GOV_FREEZE_TAG : list byte := ascii "qtv/gov/freeze/".
Definition GOV_STOPPED_ASSET_TAG : list byte := ascii "qtv/gov/stopped/asset/".
Definition ASSET_ID_DOMAIN : list byte := ascii "qtv/asset/id/v1".
Definition CHAIN_GENESIS_TIME_TAG : list byte := ascii "qtv/chain/genesistime".

Section Keys.
Context (sha3_256 : list byte -> list byte).

(** ** Keys *)

Definition state_key (address : list byte) : list byte := account_state_key sha3_256 address.
Definition account_key (address : list byte) : list byte := state_key address.

Definition stake_payee_key (id : list byte) : list byte := sha3_256 (STAKE_PAYEE_TAG ++ id).
Definition stake_bond_key (id : list byte) : list byte := sha3_256 (STAKE_BOND_TAG ++ id).
Definition stake_rewards_key (id : list byte) : list byte := sha3_256 (STAKE_REWARDS_TAG ++ id).
Definition stake_singleton_key (tag : list byte) : list byte := sha3_256 tag.
Definition stake_banned_key (id : list byte) : list byte := sha3_256 (STAKE_BANNED_TAG ++ id).
Definition stake_attest_key (id : list byte) : list byte := sha3_256 (STAKE_ATTEST_TAG ++ id).
Definition gov_lock_key (voter : list byte) : list byte := sha3_256 (GOV_LOCK_TAG ++ voter).
Definition gov_blacklist_key (id : list byte) : list byte := sha3_256 (GOV_BLACKLIST_TAG ++ id).
Definition gov_freeze_key (id : list byte) : list byte := sha3_256 (GOV_FREEZE_TAG ++ id).
Definition gov_stopped_asset_key (asset_id : list byte) : list byte :=
  sha3_256 (GOV_STOPPED_ASSET_TAG ++ asset_id).
Definition asset_id_of (issuer : list byte) : list byte :=
  take 16 (sha3_256 (ASSET_ID_DOMAIN ++ issuer)).

(** ** Addresses *)

(** The cell that caches a computed address only ever holds its value. *)
Definition cached_address (tag : list byte) : outcome (list byte) :=
  obind (render_address (sha3_256 tag)) (fun r =>
  match r with Ok address => Done address | Err _ => Panic end).

Definition evidence_address : outcome (list byte) := cached_address (ascii "qtv/evidence").
Definition registration_address : outcome (list byte) := cached_address (ascii "qtv/registration").
Definition stake_system_address : outcome (list byte) := cached_address (ascii "qtv/stake/system").
Definition stake_claim_address : outcome (list byte) := cached_address (ascii "qtv/stake/claim").
Definition stake_exit_address : outcome (list byte) := cached_address (ascii "qtv/stake/exit").
Definition stake_payee_address : outcome (list byte) := cached_address (ascii "qtv/stake/payee").
Definition stake_withdraw_address : outcome (list byte) :=
  cached_address (ascii "qtv/stake/withdraw").
Definition grants_address : outcome (list byte) := cached_address (ascii "qtv/gov/grants").
Definition stake_treasury_address : outcome (list byte) := cached_address STAKE_TREASURY_TAG.
Definition gov_system_address : outcome (list byte) := cached_address (ascii "qtv/gov/system").
Definition key_register_address : outcome (list byte) := cached_address (ascii "qtv/key/register").
Definition bridge_freeze_address : outcome (list byte) :=
  cached_address (ascii "qtv/bridge/freeze/system").
Definition bridge_unfreeze_address : outcome (list byte) :=
  cached_address (ascii "qtv/bridge/unfreeze/system").
Definition bridge_bond_address : outcome (list byte) := cached_address (ascii "qtv/bridge/bond").
Definition bridge_guardian_address : outcome (list byte) :=
  cached_address (ascii "qtv/bridge/guardian/system").
Definition bridge_mint_address : outcome (list byte) :=
  cached_address (ascii "qtv/bridge/mint/system").
Definition bridge_exit_address : outcome (list byte) :=
  cached_address (ascii "qtv/bridge/exit/system").
Definition bridge_settle_address : outcome (list byte) :=
  cached_address (ascii "qtv/bridge/settle/system").
Definition vm_deploy_address : outcome (list byte) := cached_address (ascii "qtv/vm/deploy").

Definition address_id (address : list byte) : option (list byte) :=
  match parse_address address with
  | Ok payload => if (length payload =? KEY_LEN)%nat then Some payload else None
  | Err _ => None
  end.

Definition id_bytes_to_address (id : list byte) : outcome (option (list byte)) :=
  if negb (length id =? KEY_LEN)%nat then Done None
  else obind (render_address id) (fun r => Done (result_ok r)).

Definition id_from_slice (id : list byte) : option (list byte) :=
  if negb (length id =? KEY_LEN)%nat then None else Some id.

Definition POTS : list (list byte) :=
  [ascii "qtv/gov/grants"; ascii "qtv/stake/treasury"; ascii "qtv/stake/pool";
   ascii "qtv/stake/system"; ascii "qtv/gov/system"; ascii "qtv/bridge/bond";
   ascii "qtv/ecosystem/marketing"; ascii "qtv/ecosystem/market-maker";
   ascii "qtv/ecosystem/foundation"].

Definition is_reserved_pot (id : list byte) : bool :=
  existsb (fun tag => bool_decide (sha3_256 tag = id)) POTS.
End Keys.

(** ** Slots *)

Inductive Slot : Type :=
| SAccount (id : list byte)
| SBond (id : list byte)
| SRewards (id : list byte)
| SPayee (id : list byte)
| SBanned (id : list byte)
| SBlacklist (id : list byte)
| SLock (id : list byte)
| SPool
| STreasury
| SSupply
| SMainnet
| SMeter
| SValidators
| STotal
| STotalActive
| STotalRaised.

#[global] Instance Slot_eq_decision : EqDecision Slot.
Proof. solve_decision. Defined.

Definition slot_preimage (s : Slot) : list byte :=
  match s with
  | SAccount id => ACCOUNT_TAG ++ id
  | SBond id => STAKE_BOND_TAG ++ id
  | SRewards id => STAKE_REWARDS_TAG ++ id
  | SPayee id => STAKE_PAYEE_TAG ++ id
  | SBanned id => STAKE_BANNED_TAG ++ id
  | SBlacklist id => GOV_BLACKLIST_TAG ++ id
  | SLock id => GOV_LOCK_TAG ++ id
  | SPool => STAKE_POOL_TAG
  | STreasury => STAKE_TREASURY_TAG
  | SSupply => SUPPLY_TAG
  | SMainnet => STAKE_MAINNET_TAG
  | SMeter => STAKE_METER_TAG
  | SValidators => STAKE_VALIDATORS_TAG
  | STotal => STAKE_TOTAL_TAG
  | STotalActive => STAKE_TOTAL_ACTIVE_TAG
  | STotalRaised => STAKE_TOTAL_RAISED_TAG
  end.

Definition id_slots (id : list byte) : list Slot :=
  [SAccount id; SBond id; SRewards id; SPayee id; SBanned id; SBlacklist id; SLock id].
Definition single_slots : list Slot :=
  [SPool; STreasury; SSupply; SMainnet; SMeter; SValidators; STotal; STotalActive; STotalRaised].

(** The slots in play when the identifiers [U] are. *)
Definition slots (U : list (list byte)) : list Slot := concat (map id_slots U) ++ single_slots.

Lemma slot_preimage_inj s t : slot_preimage s = slot_preimage t -> s = t.
Proof.
  destruct s, t; try reflexivity; intros H;
    first [ apply (app_inv_head _ _ _) in H; congruence | discriminate H ].
Qed.

Lemma elem_slots U s :
  s ∈ slots U <-> (exists id, id ∈ U /\ s ∈ id_slots id) \/ s ∈ single_slots.
Proof.
  unfold slots. rewrite elem_of_app, !list_elem_of_In, in_concat.
  setoid_rewrite in_map_iff. setoid_rewrite list_elem_of_In. naive_solver.
Qed.

Lemma NoDup_slots U : NoDup U -> NoDup (slots U).
Proof.
  intros HU. unfold slots. apply NoDup_app. split; [|split].
  - induction HU as [|id U Hid _ IH]; [apply NoDup_nil_2|]. cbn [map concat].
    apply NoDup_app. split; [|split; [|done]].
    + unfold id_slots. repeat (constructor; [set_solver|]). constructor.
    + intros s Hs Hc. apply list_elem_of_In, in_concat in Hc as (l & (id' & <- & Hid')%in_map_iff & Hl).
      apply list_elem_of_In in Hl, Hid'.
      unfold id_slots in Hs, Hl. rewrite !elem_of_cons, elem_of_nil in Hs. rewrite !elem_of_cons, elem_of_nil in Hl.
      destruct Hs as [->|[->|[->|[->|[->|[->|[->|[]]]]]]]]; repeat destruct Hl as [Hl|Hl]; congruence.
  - intros s Hs Hc. apply list_elem_of_In, in_concat in Hs as (l & (id' & <- & _)%in_map_iff & Hl).
    apply list_elem_of_In in Hl. unfold id_slots, single_slots in *.
    rewrite !elem_of_cons, elem_of_nil in Hl. rewrite !elem_of_cons, elem_of_nil in Hc.
    repeat destruct Hl as [Hl|Hl]; subst; try done; repeat destruct Hc as [Hc|Hc]; done.
  - apply (bool_decide_unpack _). vm_compute. exact I.
Qed.

(** The hash keeps the slots of [U] apart. *)
Definition apart (sha3_256 : list byte -> list byte) (U : list (list byte)) : Prop :=
  separates sha3_256 (map slot_preimage (slots U)) (map slot_preimage (slots U)).

Lemma slot_key_inj sha U s t :
  apart sha U -> s ∈ slots U -> t ∈ slots U ->
  sha (slot_preimage s) = sha (slot_preimage t) -> s = t.
Proof.
  intros Ha Hs Ht He. apply slot_preimage_inj, Ha; [..|exact He];
    apply list_elem_of_In, in_map, list_elem_of_In; assumption.
Qed.

Lemma address_id_length a id : address_id a = Some id -> length id = 32%nat.
Proof.
  unfold address_id. destruct (parse_address a); [|done]. case_step; [|done].
  intros [= <-]. by bool_to_prop.
Qed.

Lemma state_key_slot sha a id :
  address_id a = Some id -> state_key sha a = sha (slot_preimage (SAccount id)).
Proof.
  unfold address_id, state_key, account_state_key. destruct (parse_address a); [|done].
  case_step; [|done]. by intros [= <-].
Qed.

Lemma parse_address_length a p : parse_address a = Ok p -> length p = KEY_LEN.
Proof. intros H. apply parse_address_Ok in H as [H _]. exact H. Qed.

Lemma address_id_parse a p : parse_address a = Ok p -> address_id a = Some p.
Proof.
  intros H. unfold address_id. rewrite H, (parse_address_length _ _ H). done.
Qed.
