(* ===== verification/LedgerStake.v ===== *)
(** * Accounts, supply and staking on the ledger (qtv-node/src/ledger.rs)

    The readers and operations of [Ledger] for accounts, the supply, fees, bonds,
    rewards and slashing, over the leaves of [LedgerKeys] and the writes of
    [LedgerState].  A reader that decodes with [expect] panics on a leaf that does
    not decode. *)

From S2P Require Import Prelude Codec Idfmt Events LedgerState LedgerKeys.
From S2P Require Import Governance Staking Fee.

(** ** Records *)

Record Account : Type := mkAccount {
  acc_nonce : Z;
  acc_balance : Z;
  acc_scheme : Z;
  acc_public_key : list byte
}.

Definition Account_default : Account := mkAccount 0 0 0 [].
Definition Account_funded (balance scheme : Z) (public_key : list byte) : Account :=
  mkAccount 0 balance scheme public_key.
Definition has_key (a : Account) : bool := negb (bool_decide (acc_public_key a = [])).

Definition with_balance (a : Account) (b : Z) : Account :=
  mkAccount (acc_nonce a) b (acc_scheme a) (acc_public_key a).
Definition with_nonce (a : Account) (n : Z) : Account :=
  mkAccount n (acc_balance a) (acc_scheme a) (acc_public_key a).

Definition Account_encode (a : Account) (e : Encoder) : Encoder :=
  e |> encode u64_codec (acc_nonce a) |> encode u64_codec (acc_balance a)
    |> encode u8_codec (acc_scheme a) |> encode vec_u8_codec (acc_public_key a).
Definition Account_decode : Dec Account :=
  let* nonce := decode u64_codec in
  let* balance := decode u64_codec in
  let* scheme := decode u8_codec in
  let* public_key := decode vec_u8_codec in
  dret (mkAccount nonce balance scheme public_key).
Definition Account_valid (a : Account) : Prop :=
  u64 (acc_nonce a) /\ u64 (acc_balance a) /\ u8 (acc_scheme a) /\ u64 (len (acc_public_key a)).
Definition Account_codec : Codec Account := mkCodec Account Account_encode Account_decode Account_valid.

Record RewardBook : Type := mkBook {
  tranches : list RewardTranche;
  period_anchor : Z;
  paid_in_period : Z
}.

Definition RewardBook_default : RewardBook := mkBook [] 0 0.

Definition RewardBook_encode (b : RewardBook) (e : Encoder) : Encoder :=
  e |> encode u64_codec (len (tranches b)) |> encode_all RewardTranche_codec (tranches b)
    |> encode u64_codec (period_anchor b) |> encode u64_codec (paid_in_period b).

(** [m.unwrap_or(x)] on a decoder: a failed integer read leaves the cursor where it
    was. *)
Definition dec_or {A} (m : Dec A) (x : A) : Dec A := fun d =>
  match m d with Ok r => Ok r | Err _ => Ok (x, d) end.

Definition RewardBook_decode : Dec RewardBook :=
  let* count := decode u64_codec in
  let* tranches := decode_n (decode RewardTranche_codec) (Z.to_nat count) in
  let* period_anchor := dec_or (decode u64_codec) 0 in
  let* paid_in_period := dec_or (decode u64_codec) 0 in
  dret (mkBook tranches period_anchor paid_in_period).
Definition RewardBook_valid (b : RewardBook) : Prop :=
  u64 (len (tranches b)) /\ Forall RewardTranche_valid (tranches b) /\
  u64 (period_anchor b) /\ u64 (paid_in_period b).
Definition RewardBook_codec : Codec RewardBook :=
  mkCodec RewardBook RewardBook_encode RewardBook_decode RewardBook_valid.

(** ** Decoding leaves *)

(** [from_bytes(bytes).expect(..)]. *)
Definition expect_decoded {A} (c : Codec A) (bytes : list byte) : outcome A :=
  match from_bytes c bytes with Ok v => Done v | Err _ => Panic end.

(** [get(..).map(expect).unwrap_or(x)]. *)
Definition decode_or {A} (c : Codec A) (x : A) (leaf : option (list byte)) : outcome A :=
  match leaf with Some bytes => expect_decoded c bytes | None => Done x end.

(** [get(..).filter(|bytes| !bytes.is_empty()).map(expect)]. *)
Definition decode_some {A} (c : Codec A) (leaf : option (list byte)) : outcome (option A) :=
  match leaf with
  | Some (b :: bytes) => obind (expect_decoded c (b :: bytes)) (fun v => Done (Some v))
  | _ => Done None
  end.

(** [get(..).map(|bytes| from_bytes(bytes).unwrap_or_default()).unwrap_or_default()]. *)
Definition decode_default {A} (c : Codec A) (x : A) (leaf : option (list byte)) : A :=
  match leaf with
  | Some bytes => match from_bytes c bytes with Ok v => v | Err _ => x end
  | None => x
  end.

(** [matches!(get(..), Some(bytes) if !bytes.is_empty())]. *)
Definition flagged (leaf : option (list byte)) : bool :=
  match leaf with Some (_ :: _) => true | _ => false end.

Definition rewards_of (leaf : option (list byte)) : RewardBook :=
  match leaf with
  | Some (b :: bytes) => decode_default RewardBook_codec RewardBook_default (Some (b :: bytes))
  | _ => RewardBook_default
  end.

(** [iter.map(f).sum()] on [u64], which panics on overflow. *)
Fixpoint sum_u64 (xs : list Z) (acc : Z) : outcome Z :=
  match xs with
  | [] => Done acc
  | x :: xs => obind (panicking_add 64 acc x) (sum_u64 xs)
  end.

Section Ops.
Context (sha3_256 : list byte -> list byte).

(** ** Accounts *)

Definition account (l : Ledger) (address : list byte) : Account :=
  decode_default Account_codec Account_default (get_leaf l (state_key sha3_256 address)).
Definition set_account (address : list byte) (a : Account) : M unit :=
  write_leaf (state_key sha3_256 address) (to_bytes Account_codec a).
Definition balance (l : Ledger) (address : list byte) : Z := acc_balance (account l address).
Definition account_nonce (l : Ledger) (address : list byte) : Z := acc_nonce (account l address).
Definition account_exists (l : Ledger) (address : list byte) : bool :=
  bool_decide (is_Some (get_leaf l (state_key sha3_256 address))).

Definition credit_account (address : list byte) (amount : Z) : M unit :=
  if amount =? 0 then mret tt
  else
    a ← asks (fun l => account l address);
    set_account address (with_balance a (saturating_add 64 (acc_balance a) amount)).

(** ** Singletons *)

Definition singleton (tag : list byte) (l : Ledger) : outcome Z :=
  decode_or u64_codec 0 (get_leaf l (stake_singleton_key sha3_256 tag)).
Definition set_singleton (tag : list byte) (v : Z) : M unit :=
  write_leaf (stake_singleton_key sha3_256 tag) (to_bytes u64_codec v).

Definition stake_pool : Ledger -> outcome Z := singleton STAKE_POOL_TAG.
Definition set_stake_pool : Z -> M unit := set_singleton STAKE_POOL_TAG.
Definition stake_treasury : Ledger -> outcome Z := singleton STAKE_TREASURY_TAG.
Definition set_stake_treasury : Z -> M unit := set_singleton STAKE_TREASURY_TAG.
Definition total_staked : Ledger -> outcome Z := singleton STAKE_TOTAL_TAG.
Definition set_total_staked : Z -> M unit := set_singleton STAKE_TOTAL_TAG.
Definition total_staked_active : Ledger -> outcome Z := singleton STAKE_TOTAL_ACTIVE_TAG.
Definition set_total_staked_active : Z -> M unit := set_singleton STAKE_TOTAL_ACTIVE_TAG.
Definition total_staked_raised_at : Ledger -> outcome Z := singleton STAKE_TOTAL_RAISED_TAG.
Definition set_total_staked_raised_at : Z -> M unit := set_singleton STAKE_TOTAL_RAISED_TAG.
Definition total_supply : Ledger -> outcome Z := singleton SUPPLY_TAG.
Definition set_total_supply : Z -> M unit := set_singleton SUPPLY_TAG.
Definition stake_mainnet_start (l : Ledger) : outcome Z :=
  decode_or u64_codec U64_MAX (get_leaf l (stake_singleton_key sha3_256 STAKE_MAINNET_TAG)).
Definition set_stake_mainnet_start : Z -> M unit := set_singleton STAKE_MAINNET_TAG.

Definition current_epoch (l : Ledger) : Z :=
  default 0 (checked_div (execution_height l) (heights_per_epoch l)).

Definition matured_total_staked (l : Ledger) : outcome Z :=
  obind (total_staked l) (fun total =>
  if heights_per_epoch l =? 0 then Done total
  else
    obind (total_staked_raised_at l) (fun raised_at =>
    let raised_epoch := default 0 (checked_div raised_at (heights_per_epoch l)) in
    if raised_epoch <? current_epoch l then Done total
    else obind (total_staked_active l) (fun active => Done (Z.min active total)))).

Definition credit_staked (amount : Z) : M unit :=
  if amount =? 0 then mret tt
  else
    active ← ask matured_total_staked;
    total ← ask total_staked;
    let next := saturating_add 64 total amount in
    set_total_staked_active active;;
    height ← asks execution_height;
    set_total_staked_raised_at height;;
    set_total_staked next.

Definition debit_staked (amount : Z) : M unit :=
  if amount =? 0 then mret tt
  else
    total ← ask total_staked;
    let next := saturating_sub total amount in
    active ← ask total_staked_active;
    set_total_staked_active (Z.min active next);;
    set_total_staked next.

Definition credit_supply (amount : Z) : M unit :=
  if amount =? 0 then mret tt
  else
    supply ← ask total_supply;
    set_total_supply (saturating_add 64 supply amount).

Definition debit_supply (amount : Z) : M unit :=
  if amount =? 0 then mret tt
  else
    supply ← ask total_supply;
    set_total_supply (saturating_sub supply amount).

(** ** Fees *)

Definition apply_fee_split (split : FeeSplit) : M unit :=
  grants_to ← lift (grants_address sha3_256);
  round_proposer ← asks round_proposer;
  match round_proposer with
  | Some p => credit_account p (proposer split)
  | None => credit_account grants_to (proposer split)
  end;;
  credit_account grants_to (grants split);;
  debit_supply (burn split).

Definition collect_fee (fee : Z) : M unit :=
  if fee =? 0 then mret tt
  else split ← lift (FeeSplit_of fee); apply_fee_split split.

(** [account.balance -= debit; account.nonce += 1; self.set_account(..);
    self.collect_fee(fee)], of an account that holds at least [debit]. *)
Definition charge (address : list byte) (a : Account) (debit fee : Z) : M unit :=
  nonce ← lift (panicking_add 64 (acc_nonce a) 1);
  set_account address (with_nonce (with_balance a (acc_balance a - debit)) nonce);;
  collect_fee fee.

(** ** Bonds *)

Definition stake_bond (l : Ledger) (id : list byte) : outcome (option Bond) :=
  decode_some Bond_codec (get_leaf l (stake_bond_key sha3_256 id)).
Definition set_stake_bond (id : list byte) (bond : Bond) : M unit :=
  write_leaf (stake_bond_key sha3_256 id) (to_bytes Bond_codec bond).
Definition clear_stake_bond (id : list byte) : M unit :=
  write_leaf (stake_bond_key sha3_256 id) [].

Definition is_stake_banned (l : Ledger) (id : list byte) : bool :=
  flagged (get_leaf l (stake_banned_key sha3_256 id)).
Definition set_stake_banned (id : list byte) : M unit :=
  write_leaf (stake_banned_key sha3_256 id) [x01].
Definition is_gov_blacklisted (l : Ledger) (id : list byte) : bool :=
  flagged (get_leaf l (gov_blacklist_key sha3_256 id)).
Definition barred (l : Ledger) (id : list byte) : bool :=
  is_stake_banned l id || is_gov_blacklisted l id.

Definition is_validator_banned (l : Ledger) (address : list byte) : bool :=
  match address_id address with Some id => is_stake_banned l id | None => false end.
Definition is_blacklisted (l : Ledger) (address : list byte) : bool :=
  match address_id address with Some id => is_gov_blacklisted l id | None => false end.
Definition is_frozen_id (l : Ledger) (id : list byte) : bool :=
  flagged (get_leaf l (gov_freeze_key sha3_256 id)).
Definition is_frozen (l : Ledger) (address : list byte) : bool :=
  match address_id address with Some id => is_frozen_id l id | None => false end.

(** The weight readers differ in what they take from the bond. *)
Definition bond_reading (l : Ledger) (address : list byte) (f : Bond -> Z) : outcome Z :=
  match address_id address with
  | None => Done 0
  | Some id =>
      if barred l id then Done 0
      else obind (stake_bond l id) (fun bond => Done (default 0 (option_map f bond)))
  end.

Definition bonded_stake (l : Ledger) (address : list byte) : outcome Z :=
  bond_reading l address (fun b => amount b).
Definition staked_weight (l : Ledger) (address : list byte) : outcome Z :=
  bond_reading l address (fun b => amount b / NATIVE_UNIT).
Definition governance_stake_in_epoch (l : Ledger) (address : list byte) (epoch : Z) : outcome Z :=
  bond_reading l address (fun b => amount_in_epoch b epoch (heights_per_epoch l) / NATIVE_UNIT).
Definition staked_weight_in_epoch (l : Ledger) (address : list byte) (epoch : Z) : outcome Z :=
  bond_reading l address (fun b => weight_in_epoch b epoch (heights_per_epoch l) / NATIVE_UNIT).

Definition gov_lock (l : Ledger) (voter : list byte) : outcome (option Lock) :=
  decode_some Lock_codec (get_leaf l (gov_lock_key sha3_256 voter)).

(** [lock.amount > 0 && lock.until > now_day.saturating_mul(86_400)]. *)
Definition exit_vote_locked (l : Ledger) (id : list byte) (now_day : Z) : outcome bool :=
  obind (gov_lock l id) (fun lock =>
  Done (match lock with
        | Some lock => (0 <? lock_amount lock) && (saturating_mul 64 now_day 86400 <? until lock)
        | None => false
        end)).

Definition fresh_bond (day : Z) : Bond := mkBond 0 day None 0 0.

(** The bond after [bond.bonded_at_day = day; bond.rejoin(..); bond.raise_to(total, ..)]. *)
Definition bond_raised (l : Ledger) (bond : option Bond) (day total : Z) : Bond :=
  let b := default (fresh_bond day) bond in
  let b := mkBond (amount b) day (exit_requested_at b) (active_amount b) (raised_at_height b) in
  let b := rejoin b (execution_height l) (heights_per_epoch l) in
  raise_to b total (execution_height l) (heights_per_epoch l).

Definition bond (address : list byte) (amt day : Z) : M bool :=
  match address_id address with
  | None => mret false
  | Some id =>
      out ← asks (fun l => barred l id);
      if (out : bool) then mret false
      else
        a ← asks (fun l => account l address);
        if acc_balance a <? amt then mret false
        else
          existing ← ask (fun l => stake_bond l id);
          match checked_add 64 (default 0 (option_map amount existing)) amt with
          | None => mret false
          | Some total =>
              if negb (eligible total) then mret false
              else
                set_account address (with_balance a (acc_balance a - amt));;
                existing ← ask (fun l => stake_bond l id);
                raised ← asks (fun l => bond_raised l existing day total);
                set_stake_bond id raised;;
                credit_staked amt;;
                mret true
          end
  end.

Definition bond_with_fee (address : list byte) (amt fee day : Z) : M bool :=
  match address_id address with
  | None => mret false
  | Some id =>
      out ← asks (fun l => barred l id);
      if (out : bool) then mret false
      else match checked_add 64 amt fee with
      | None => mret false
      | Some debit =>
          a ← asks (fun l => account l address);
          if acc_balance a <? debit then mret false
          else
            existing ← ask (fun l => stake_bond l id);
            match checked_add 64 (default 0 (option_map amount existing)) amt with
            | None => mret false
            | Some total =>
                if negb (eligible total) then mret false
                else
                  charge address a debit fee;;
                  existing ← ask (fun l => stake_bond l id);
                  raised ← asks (fun l => bond_raised l existing day total);
                  set_stake_bond id raised;;
                  credit_staked amt;;
                  record_bond_event address amt fee;;
                  record_side_event (Side.Bond address amt fee);;
                  mret true
            end
      end
  end.

Definition bond_admissible (l : Ledger) (address : list byte) (amt fee : Z) : outcome bool :=
  match address_id address with
  | None => Done false
  | Some id =>
      if barred l id then Done false
      else match checked_add 64 amt fee with
      | None => Done false
      | Some debit =>
          if acc_balance (account l address) <? debit then Done false
          else obind (stake_bond l id) (fun existing =>
            Done (match checked_add 64 (default 0 (option_map amount existing)) amt with
                  | Some total => eligible total
                  | None => false
                  end))
      end
  end.

Definition request_stake_exit (address : list byte) (now_day : Z) : M bool :=
  match address_id address with
  | None => mret false
  | Some id =>
      found ← ask (fun l => stake_bond l id);
      match found with
      | None => mret false
      | Some b =>
          locked ← ask (fun l => exit_vote_locked l id now_day);
          if (locked : bool) then mret false
          else
            result ← asks (fun l => request_exit_at b now_day (execution_height l) (heights_per_epoch l));
            let '(ok, b') := (result : bool * Bond) in
            if (ok : bool) then set_stake_bond id b' ;; mret true else mret false
      end
  end.

(** [matches!(bond, Some(bond) if bond.exit_requested_at.is_none() && ..) && !locked]: the
    lock is looked at only when the bond matches. *)
Definition exit_ready (l : Ledger) (id : list byte) (now_day : Z) : outcome bool :=
  obind (stake_bond l id) (fun found =>
  match found with
  | Some b =>
      if bool_decide (exit_requested_at b = None) && can_request_exit b now_day
      then obind (exit_vote_locked l id now_day) (fun locked => Done (negb locked))
      else Done false
  | None => Done false
  end).

Definition request_exit_admissible (l : Ledger) (address : list byte) (fee now_day : Z) : outcome bool :=
  match address_id address with
  | None => Done false
  | Some id => obind (exit_ready l id now_day) (fun ready =>
      Done (ready && (fee <=? acc_balance (account l address))))
  end.

Definition request_exit_with_fee (address : list byte) (fee now_day : Z) : M bool :=
  match address_id address with
  | None => mret false
  | Some id =>
      ready ← ask (fun l => exit_ready l id now_day);
      if negb ready then mret false
      else
        a ← asks (fun l => account l address);
        if acc_balance a <? fee then mret false
        else charge address a fee fee ;; request_stake_exit address now_day
  end.

Definition withdraw_ready (l : Ledger) (id : list byte) (now_day : Z) : outcome (option Bond) :=
  obind (stake_bond l id) (fun found =>
  match found with
  | Some b => obind (can_withdraw b now_day) (fun ok => Done (if ok : bool then Some b else None))
  | None => Done None
  end).

Definition stake_payee (l : Ledger) (id : list byte) : option (list byte) :=
  match get_leaf l (stake_payee_key sha3_256 id) with
  | Some bytes => if (length bytes =? 32)%nat then Some bytes else None
  | None => None
  end.

(** [self.stake_payee(&id).and_then(id_bytes_to_address).unwrap_or(address)]. *)
Definition payee_address (l : Ledger) (id address : list byte) : outcome (list byte) :=
  match stake_payee l id with
  | None => Done address
  | Some payee => obind (id_bytes_to_address payee) (fun r => Done (default address r))
  end.

Definition withdraw_stake (address : list byte) (now_day : Z) : M bool :=
  match address_id address with
  | None => mret false
  | Some id =>
      found ← ask (fun l => withdraw_ready l id now_day);
      match found with
      | None => mret false
      | Some b =>
          clear_stake_bond id;;
          debit_staked (amount b);;
          payee ← ask (fun l => payee_address l id address);
          a ← asks (fun l => account l payee);
          set_account payee (with_balance a (saturating_add 64 (acc_balance a) (amount b)));;
          record_unbond_event address (amount b);;
          record_side_event (Side.Unbond address (amount b));;
          mret true
      end
  end.

Definition withdraw_admissible (l : Ledger) (address : list byte) (fee now_day : Z) : outcome bool :=
  match address_id address with
  | None => Done false
  | Some id => obind (withdraw_ready l id now_day) (fun ready =>
      Done (bool_decide (is_Some ready) && (fee <=? acc_balance (account l address))))
  end.

Definition withdraw_with_fee (address : list byte) (fee now_day : Z) : M bool :=
  match address_id address with
  | None => mret false
  | Some id =>
      found ← ask (fun l => withdraw_ready l id now_day);
      if negb (bool_decide (is_Some found)) then mret false
      else
        a ← asks (fun l => account l address);
        if acc_balance a <? fee then mret false
        else charge address a fee fee ;; withdraw_stake address now_day
  end.

Definition designate_stake_payee_with_fee (address payee : list byte) (fee : Z) : M bool :=
  match address_id address with
  | None => mret false
  | Some id =>
      current ← asks (fun l => stake_payee l id);
      if bool_decide (is_Some current) || bool_decide (payee = replicate 32 x00) then mret false
      else
        a ← asks (fun l => account l address);
        if acc_balance a <? fee then mret false
        else
          charge address a fee fee;;
          write_leaf (stake_payee_key sha3_256 id) payee;;
          mret true
  end.
End Ops.

Section Rewards.
Context (sha3_256 : list byte -> list byte).
#[local] Notation account := (account sha3_256).
#[local] Notation barred := (barred sha3_256).
#[local] Notation stake_bond := (stake_bond sha3_256).

(** ** Rewards *)

Definition stake_rewards (l : Ledger) (id : list byte) : RewardBook :=
  rewards_of (get_leaf l (stake_rewards_key sha3_256 id)).
Definition set_stake_rewards (id : list byte) (book : RewardBook) : M unit :=
  write_leaf (stake_rewards_key sha3_256 id) (to_bytes RewardBook_codec book).
Definition clear_stake_rewards (id : list byte) : M unit :=
  write_leaf (stake_rewards_key sha3_256 id) [].

Definition outstanding (book : RewardBook) : outcome Z :=
  sum_u64 (map (fun t => saturating_sub (tranche_amount t) (claimed t)) (tranches book)) 0.
Definition stake_rewards_outstanding (l : Ledger) (id : list byte) : outcome Z :=
  outstanding (stake_rewards l id).

Definition session_meter (l : Ledger) : outcome SessionMeter :=
  decode_or SessionMeter_codec (SessionMeter_new 0)
    (get_leaf l (stake_singleton_key sha3_256 STAKE_METER_TAG)).
Definition set_session_meter (meter : SessionMeter) : M unit :=
  write_leaf (stake_singleton_key sha3_256 STAKE_METER_TAG) (to_bytes SessionMeter_codec meter).

(** The book with its period moved to [max(period_anchor, raised_at_height)]. *)
Definition anchored (book : RewardBook) (b : Bond) : RewardBook :=
  let anchor := Z.max (period_anchor book) (raised_at_height b) in
  if period_anchor book =? anchor then book else mkBook (tranches book) anchor 0.

(** [paid.min(pool)] comes out of the pool, the rest is minted. *)
Definition fund_reward (paid : Z) : M unit :=
  pool ← ask (stake_pool sha3_256);
  let from_pool := Z.min paid pool in
  when (0 <? from_pool) (
    pool ← ask (stake_pool sha3_256);
    set_stake_pool sha3_256 (pool - from_pool));;
  when (from_pool <? paid) (credit_supply sha3_256 (paid - from_pool)).

Definition accrue_reward_by_id (id : list byte) (now_day : Z) : M Z :=
  start ← ask (stake_mainnet_start sha3_256);
  if in_blackout now_day start then mret 0
  else
    out ← asks (fun l => barred l id);
    if (out : bool) then mret 0
    else
      found ← ask (fun l => stake_bond l id);
      match found with
      | None => mret 0
      | Some b =>
          weight ← asks (fun l => weight_in_epoch b (current_epoch l) (heights_per_epoch l));
          if weight =? 0 then mret 0
          else
            book ← asks (fun l => stake_rewards l id);
            if existsb (fun t => earned_day t =? now_day) (tranches book) then mret 0
            else
              height ← asks execution_height;
              let book := anchored book b in
              let blocks := saturating_sub height (period_anchor book) in
              let entitled := validator_reward blocks in
              let paid := saturating_sub entitled (paid_in_period book) in
              if paid =? 0 then set_stake_rewards id book ;; mret 0
              else
                fund_reward paid;;
                let tranches := tranches book ++ [mkTranche now_day paid 0] in
                let book :=
                  if REWARD_PERIOD_BLOCKS <=? blocks then mkBook tranches height 0
                  else mkBook tranches (period_anchor book)
                         (saturating_add 64 (paid_in_period book) paid) in
                set_stake_rewards id book;;
                address ← lift (id_bytes_to_address id);
                match address with
                | Some address =>
                    record_reward_event address paid;;
                    record_side_event (Side.Reward address paid)
                | None => mret tt
                end;;
                mret paid
      end.

(** [for tranche in book.tranches.iter_mut()]: the sum of what vested, and the
    tranches with their claims moved up. *)
Fixpoint claim_loop (ts : list RewardTranche) (now_day credited : Z)
    : outcome (Z * list RewardTranche) :=
  match ts with
  | [] => Done (credited, [])
  | t :: ts =>
      let vested := released (tranche_amount t) (saturating_sub now_day (earned_day t)) in
      obind (panicking_add 64 credited (saturating_sub vested (claimed t))) (fun credited =>
      obind (claim_loop ts now_day credited) (fun '(total, ts') =>
      Done (total, mkTranche (earned_day t) (tranche_amount t) vested :: ts')))
  end.

Definition claim_reward (address : list byte) (now_day : Z) : M Z :=
  match address_id address with
  | None => mret 0
  | Some id =>
      out ← asks (fun l => barred l id);
      if (out : bool) then mret 0
      else
        book ← asks (fun l => stake_rewards l id);
        claim ← lift (claim_loop (tranches book) now_day 0);
        let '(credited, ts) := (claim : Z * list RewardTranche) in
        if credited =? 0 then mret 0
        else
          let kept := List.filter (fun t => claimed t <? tranche_amount t) ts in
          set_stake_rewards id (mkBook kept (period_anchor book) (paid_in_period book));;
          a ← asks (fun l => account l address);
          set_account sha3_256 address
            (with_balance a (saturating_add 64 (acc_balance a) credited));;
          record_side_event (Side.RewardClaim address credited);;
          mret credited
  end.

Definition claimable_reward (l : Ledger) (address : list byte) (now_day : Z) : outcome Z :=
  match address_id address with
  | None => Done 0
  | Some id =>
      if barred l id then Done 0
      else sum_u64 (map (fun t => saturating_sub
             (released (tranche_amount t) (saturating_sub now_day (earned_day t))) (claimed t))
             (tranches (stake_rewards l id))) 0
  end.

Definition claim_with_fee (address : list byte) (fee now_day : Z) : M bool :=
  a ← asks (fun l => account l address);
  if acc_balance a <? fee then mret false
  else
    charge sha3_256 address a fee fee;;
    claim_reward address now_day;;
    mret true.

(** ** Sessions *)

Definition record_session (transactions now_day : Z) : M (option Session) :=
  meter ← ask session_meter;
  let meter := SessionMeter_record meter transactions in
  let '(closed, meter) := SessionMeter_close meter now_day in
  set_session_meter meter;;
  mret closed.

(** [bytes.chunks_exact(KEY_LEN)]. *)
Fixpoint chunks_exact (fuel : nat) (bytes : list byte) : list (list byte) :=
  match fuel with
  | O => []
  | S fuel =>
      if (length bytes <? KEY_LEN)%nat then []
      else take KEY_LEN bytes :: chunks_exact fuel (drop KEY_LEN bytes)
  end.

Definition ids_of (leaf : option (list byte)) : list (list byte) :=
  match leaf with Some bytes => chunks_exact (length bytes) bytes | None => [] end.

Definition validator_ids (l : Ledger) : list (list byte) :=
  ids_of (get_leaf l (stake_singleton_key sha3_256 STAKE_VALIDATORS_TAG)).

(** [roster_reward_denominator], computed before the rewards and passed to them unused. *)
Fixpoint weights_of (l : Ledger) (ids : list (list byte)) : outcome (list Z) :=
  match ids with
  | [] => Done []
  | id :: ids =>
      obind (if barred l id then Done []
             else obind (stake_bond l id) (fun found =>
               Done (match found with
                     | Some b => [weight_in_epoch b (current_epoch l) (heights_per_epoch l)]
                     | None => []
                     end))) (fun w =>
      obind (weights_of l ids) (fun ws => Done (w ++ ws)))
  end.
Definition roster_reward_denominator (l : Ledger) : outcome Z :=
  obind (weights_of l (validator_ids l)) (fun ws => sum_u64 ws 0).

Definition settle_session (now_day transactions : Z) : M unit :=
  start ← ask (stake_mainnet_start sha3_256);
  if start =? U64_MAX then mret tt
  else
    closed ← record_session transactions now_day;
    match closed with
    | None => mret tt
    | Some _ =>
        ask roster_reward_denominator;;
        ids ← asks validator_ids;
        for_each ids (fun id => accrue_reward_by_id id now_day ;; mret tt)
    end.

(** ** Slashing *)

Definition slash_validator (address : list byte) : M bool :=
  match address_id address with
  | None => mret false
  | Some id =>
      banned ← asks (fun l => is_stake_banned sha3_256 l id);
      if (banned : bool) then mret false
      else
        set_stake_banned sha3_256 id;;
        found ← ask (fun l => stake_bond l id);
        match found with
        | Some b =>
            debit_supply sha3_256 (amount b);;
            debit_staked sha3_256 (amount b);;
            clear_stake_bond sha3_256 id;;
            record_slash_event address (amount b);;
            record_side_event (Side.Slash address (amount b) SLASH_DISPOSITION_BURN)
        | None => mret tt
        end;;
        forfeited ← ask (fun l => stake_rewards_outstanding l id);
        when (0 <? forfeited) (debit_supply sha3_256 forfeited);;
        clear_stake_rewards id;;
        mret true
  end.

Definition slash_stake (address : list byte) (fault : Fault) : M Z :=
  match address_id address with
  | None => mret 0
  | Some id =>
      found ← ask (fun l => stake_bond l id);
      match found with
      | None => mret 0
      | Some b =>
          let taken := Z.min (slash (amount b) fault) (amount b) in
          treasury ← ask (stake_treasury sha3_256);
          set_stake_treasury sha3_256 (saturating_add 64 treasury taken);;
          debit_staked sha3_256 (amount b);;
          let residue := amount b - taken in
          when (0 <? residue) (
            a ← asks (fun l => account l address);
            set_account sha3_256 address
              (with_balance a (saturating_add 64 (acc_balance a) residue)));;
          when (0 <? taken) (
            record_slash_event address taken;;
            record_side_event (Side.Slash address taken SLASH_DISPOSITION_TREASURY));;
          clear_stake_bond sha3_256 id;;
          set_stake_banned sha3_256 id;;
          forfeited ← ask (fun l => stake_rewards_outstanding l id);
          when (0 <? forfeited) (
            treasury ← ask (stake_treasury sha3_256);
            set_stake_treasury sha3_256 (saturating_add 64 treasury forfeited));;
          clear_stake_rewards id;;
          mret taken
      end
  end.

(** ** Transfers (the last branch of [execute_ordered], node.rs) *)

(** [execute_transfer] runs a program on the virtual machine of the crate qtv-vm:
    it is a parameter, with the balances after the transfer, if it succeeds. *)
Context (execute_transfer : Z -> Z -> Z -> Z -> Z -> option (Z * Z)).

Definition apply_transfer (from to : list byte) (amt fee meter_limit : Z) : M bool :=
  if amt =? 0 then mret false
  else
    s ← asks (fun l => account l from);
    r ← asks (fun l => account l to);
    match execute_transfer (acc_balance s) (acc_balance r) amt fee meter_limit with
    | None => mret false
    | Some (sender_balance, recipient_balance) =>
        nonce ← lift (panicking_add 64 (acc_nonce s) 1);
        set_account sha3_256 from (with_nonce (with_balance s sender_balance) nonce);;
        set_account sha3_256 to (with_balance r recipient_balance);;
        collect_fee sha3_256 fee;;
        record_transfer_event from to amt fee;;
        mret true
    end.
End Rewards.
