(* ===== verification/LedgerCoins.v ===== *)
(** * Coins on the ledger: every operation balances the books

    The coins of the ledger are the balances, bonds, outstanding rewards, vote locks,
    the pool and the treasury; the supply leaf says how many there are.  [Books]
    states that the two agree, up to an amount in flight inside an operation, and
    that the staked total is the sum of the bonds; no operation loses, creates or
    saturates anything.  [wp] is the weakest precondition of a computation that
    must not panic. *)

From S2P Require Import Prelude Codec Idfmt Events LedgerState LedgerKeys.
From S2P Require Import Governance Staking Fee LedgerStake.

(** ** Codec laws of the stored records *)

#[export] Instance Account_appends : Appends Account_codec.
Proof. unfold Account_codec, Account_encode. codec_appends. Qed.
#[export] Instance Account_roundtrip : RoundTrip Account_codec.
Proof.
  intros [n b sc pk] (Hn & Hb & Hs & Hp). cbn [acc_nonce acc_balance acc_scheme acc_public_key] in *.
  unfold Account_codec, Account_encode, Account_decode. codec_image. cbn [decode].
  reads_fields.
Qed.
#[export] Instance Account_canonical : Canonical Account_codec.
Proof. unfold Account_codec, Account_encode, Account_decode. codec_canonical. Qed.

Lemma reads_dec_or {A} (m : Dec A) x bs v : reads m bs v -> reads (dec_or m x) bs v.
Proof. intros H d post Hf Hr. unfold dec_or. by rewrite (H d post Hf Hr). Qed.

#[export] Instance RewardBook_roundtrip : RoundTrip RewardBook_codec.
Proof.
  intros [ts anchor paid] (Hl & Hts & Ha & Hp). cbn [tranches period_anchor paid_in_period] in *.
  unfold RewardBook_codec, RewardBook_encode, RewardBook_decode. codec_image.
  cbn [decode tranches period_anchor paid_in_period].
  eapply reads_bind; [by apply reads_get_u64|]. cbn beta. unfold len at 1. rewrite Nat2Z.id.
  eapply reads_bind.
  { apply reads_decode_n. eapply Forall_impl; [exact Hts|]. intros t Ht. by apply decode_encode. }
  cbn beta. eapply reads_bind; [apply reads_dec_or, reads_get_u64, Ha|]. cbn beta.
  eapply reads_map; [apply reads_dec_or, reads_get_u64, Hp|]. apply reads_ret.
Qed.

(** A leaf that fits a slice decodes to what was written. *)
Definition fits_slice (bs : list byte) : Prop := len bs <= ISIZE_MAX.

Lemma expect_decoded_encoded {A} (c : Codec A) `{!RoundTrip c} v :
  valid c v -> fits_slice (to_bytes c v) -> expect_decoded c (to_bytes c v) = Done v.
Proof. intros Hv Hl. unfold expect_decoded. by rewrite from_bytes_encoded. Qed.

Lemma to_bytes_u64_fits v : fits_slice (to_bytes u64_codec v).
Proof. unfold fits_slice, len. change (to_bytes u64_codec v) with (to_le 8 v). rewrite length_to_le. done. Qed.

Lemma to_bytes_Bond b : exists x bs, to_bytes Bond_codec b = x :: bs /\ fits_slice (x :: bs).
Proof.
  assert (E : to_bytes Bond_codec b = to_le 8 (amount b) ++ to_le 8 (bonded_at_day b) ++
    to_bytes (option_codec u64_codec) (exit_requested_at b) ++ to_le 8 (active_amount b) ++
    to_le 8 (raised_at_height b)).
  { unfold Bond_codec, Bond_encode. by codec_image. }
  assert (Hl : (8 <= length (to_bytes Bond_codec b) <= 100)%nat).
  { rewrite E, !length_app, !length_to_le. destruct (exit_requested_at b).
    - rewrite (to_bytes_Some u64_codec). change (to_bytes u64_codec ?z) with (to_le 8 z).
      cbn [length]. rewrite length_to_le. lia.
    - cbn. lia. }
  destruct (to_bytes Bond_codec b) as [|x bs]; [cbn in Hl; lia|]. exists x, bs.
  split; [done|]. unfold fits_slice, len, ISIZE_MAX. lia.
Qed.

Lemma len_Account a : len (to_bytes Account_codec a) = 25 + len (acc_public_key a).
Proof.
  unfold Account_codec, Account_encode. codec_image. unfold len.
  rewrite !length_app. change (to_bytes u64_codec ?z) with (to_le 8 z).
  change (to_bytes u8_codec ?z) with ([byte_of z]). rewrite to_bytes_vec. unfold bytes_image.
  rewrite !length_app, !length_to_le. cbn [length]. lia.
Qed.

Lemma len_RewardBook ts anchor paid :
  len (to_bytes RewardBook_codec (mkBook ts anchor paid)) = 24 + 24 * len ts.
Proof.
  unfold RewardBook_codec, RewardBook_encode. codec_image. cbn [tranches period_anchor paid_in_period].
  change (to_bytes u64_codec ?z) with (to_le 8 z). rewrite !len_app.
  assert (Hts : len (concat (map (to_bytes RewardTranche_codec) ts)) = 24 * len ts).
  { induction ts as [|t ts IH]; [done|]. cbn [map concat]. rewrite len_app, IH, len_cons.
    replace (len (to_bytes RewardTranche_codec t)) with 24; [lia|].
    unfold RewardTranche_codec, RewardTranche_encode. codec_image.
    change (to_bytes u64_codec ?z) with (to_le 8 z). by rewrite !len_app, !len_to_le. }
  rewrite Hts, !len_to_le. lia.
Qed.

(** ** What the slots hold *)

Definition leaf_u64 (o : option (list byte)) : Z :=
  match decode_or u64_codec 0 o with Done v => v | Panic => 0 end.
Definition bond_amount (o : option (list byte)) : Z :=
  match decode_some Bond_codec o with Done (Some b) => amount b | _ => 0 end.
Definition locked_amount (o : option (list byte)) : Z :=
  match decode_some Lock_codec o with Done (Some k) => lock_amount k | _ => 0 end.
Definition owed (ts : list RewardTranche) : Z :=
  foldr (fun t acc => saturating_sub (tranche_amount t) (claimed t) + acc) 0 ts.

(** The coins of a slot, the supply counted against them. *)
Definition coin (s : Slot) (o : option (list byte)) : Z :=
  match s with
  | SAccount _ => acc_balance (decode_default Account_codec Account_default o)
  | SBond _ => bond_amount o
  | SRewards _ => owed (tranches (rewards_of o))
  | SLock _ => locked_amount o
  | SPool | STreasury => leaf_u64 o
  | SSupply => - leaf_u64 o
  | _ => 0
  end.

(** Bonds against the staked total. *)
Definition stake_in (s : Slot) (o : option (list byte)) : Z :=
  match s with
  | SBond _ => bond_amount o
  | STotal => - leaf_u64 o
  | _ => 0
  end.

(** The largest day there is: blocks carry their time in seconds as a [u64]. *)
Definition DAY_MAX : Z := U64_MAX / 86400.

Definition bond_ok (b : Bond) : Prop :=
  Bond_valid b /\ forall day, exit_requested_at b = Some day -> day <= DAY_MAX.

(** A stored reward book: nothing of a kept tranche is claimed, one tranche a day. *)
Definition book_ok (book : RewardBook) : Prop :=
  RewardBook_valid book /\ Forall (fun t => claimed t = 0 /\ earned_day t <= DAY_MAX) (tranches book) /\
  NoDup (map earned_day (tranches book)).

(** What the code relies on of a leaf, when the identifiers [U] are in play and their
    nonces have reached [N]. *)
Definition leaf_ok (U : list (list byte)) (N : list byte -> Z) (s : Slot) (o : option (list byte)) : Prop :=
  match s with
  | SPayee _ => forall bs, o = Some bs -> length bs = 32%nat -> bs ∈ U
  | SValidators => NoDup (ids_of o) /\ forall id, id ∈ ids_of o -> id ∈ U
  | SAccount id => (forall bs, o = Some bs -> fits_slice bs) /\
      N id <= acc_nonce (decode_default Account_codec Account_default o)
  | SBond _ => exists b, decode_some Bond_codec o = Done b /\ forall x, b = Some x -> bond_ok x
  | SLock _ => exists k, decode_some Lock_codec o = Done k
  | SRewards _ => book_ok (rewards_of o)
  | SPool | STreasury | SSupply | STotal | STotalActive | STotalRaised =>
      exists v, decode_or u64_codec 0 o = Done v /\ u64 v
  | SMainnet => exists v, decode_or u64_codec U64_MAX o = Done v /\ u64 v
  | SMeter => exists m, decode_or SessionMeter_codec (SessionMeter_new 0) o = Done m /\
      u64 (window_start_day m) /\ u64 (count m)
  | _ => True
  end.

Lemma decoded_valid {A} (c : Codec A) `{!Canonical c} bs v :
  expect_decoded c bs = Done v -> valid c v /\ to_bytes c v = bs.
Proof.
  unfold expect_decoded. destruct (from_bytes c bs) eqn:E; [|done]. intros [= <-].
  by apply from_bytes_canonical.
Qed.

Lemma account_valid o : Account_valid (decode_default Account_codec Account_default o).
Proof.
  unfold decode_default. destruct o as [bs|]; [|repeat split; done].
  destruct (from_bytes Account_codec bs) as [a|] eqn:E; [|repeat split; done].
  by apply from_bytes_canonical in E as [H _]; [|apply _].
Qed.

Lemma bond_amount_range o : u64 (bond_amount o).
Proof.
  unfold bond_amount, decode_some. destruct o as [[|b bs]|]; try done. unfold expect_decoded.
  destruct (from_bytes Bond_codec (b :: bs)) as [x|] eqn:E; [|done]. cbn.
  by apply from_bytes_canonical in E as [(H & _) _]; [|apply _].
Qed.

Lemma locked_amount_range o : u64 (locked_amount o).
Proof.
  unfold locked_amount, decode_some. destruct o as [[|b bs]|]; try done. unfold expect_decoded.
  destruct (from_bytes Lock_codec (b :: bs)) as [x|] eqn:E; [|done]. cbn.
  by apply from_bytes_canonical in E as [(H & _) _]; [|apply _].
Qed.

Lemma leaf_u64_range o : u64 (leaf_u64 o).
Proof.
  unfold leaf_u64, decode_or. destruct o as [bs|]; [|done]. unfold expect_decoded.
  destruct (from_bytes u64_codec bs) as [x|] eqn:E; [|done].
  by apply from_bytes_canonical in E as [H _]; [|apply _].
Qed.

Lemma owed_nonneg ts : 0 <= owed ts.
Proof.
  induction ts as [|t ts IH]; [done|].
  change (owed (t :: ts)) with (saturating_sub (tranche_amount t) (claimed t) + owed ts).
  unfold saturating_sub. lia.
Qed.

Lemma coin_nonneg s o : s <> SSupply -> 0 <= coin s o.
Proof.
  intros Hs. destruct s; cbn [coin]; try lia; try done.
  - apply account_valid.
  - apply bond_amount_range.
  - apply owed_nonneg.
  - apply locked_amount_range.
  - apply leaf_u64_range.
  - apply leaf_u64_range.
Qed.

(** ** Sums over slots *)

Definition zsum (xs : list Z) : Z := foldr Z.add 0 xs.

Lemma zsum_nonneg xs : Forall (fun x => 0 <= x) xs -> 0 <= zsum xs.
Proof. induction 1; cbn; [lia|]. unfold zsum in *. lia. Qed.

(** Changing a function at one point of a list without repetitions. *)
Lemma zsum_update {A} `{EqDecision A} (f g : A -> Z) (l : list A) (s : A) :
  NoDup l -> s ∈ l -> (forall t, t ∈ l -> t <> s -> g t = f t) ->
  zsum (map g l) = zsum (map f l) - f s + g s.
Proof.
  induction 1 as [|t l Ht Hl IH]; [by intros ?%elem_of_nil|]. intros Hs Hg. cbn [map].
  change (zsum (?x :: ?xs)) with (x + zsum xs).
  destruct (decide (t = s)) as [->|Hne].
  - replace (map g l) with (map f l); [lia|]. apply map_ext_in. intros t Hin.
    apply list_elem_of_In in Hin. symmetry. apply Hg; [by right|]. by intros ->.
  - apply elem_of_cons in Hs as [->|Hs]; [done|].
    rewrite IH; [|done|by intros; apply Hg; [right|]]. rewrite (Hg t); [lia|by left|done].
Qed.

Lemma zsum_app xs ys : zsum (xs ++ ys) = zsum xs + zsum ys.
Proof. induction xs as [|x xs IH]; [done|]. cbn [app]. unfold zsum in *. cbn [foldr]. lia. Qed.

#[global] Instance zsum_perm : Proper ((≡ₚ) ==> eq) zsum.
Proof. induction 1; unfold zsum in *; cbn [foldr]; lia. Qed.

(** Part of a sum, when the rest is not negative. *)
Lemma zsum_part {A} (f : A -> Z) (k l : list A) :
  NoDup l -> NoDup k -> (forall t, t ∈ k -> t ∈ l) -> (forall t, t ∈ l -> t ∉ k -> 0 <= f t) ->
  zsum (map f k) <= zsum (map f l).
Proof.
  intros Hl Hk Hsub Hpos. destruct (submseteq_Permutation k l) as [r Hr].
  { by apply NoDup_submseteq. }
  rewrite Hr, map_app, zsum_app. assert (0 <= zsum (map f r)); [|lia].
  apply zsum_nonneg, Forall_forall. intros x Hx.
  apply list_elem_of_In, in_map_iff in Hx as (t & <- & Ht). apply list_elem_of_In in Ht.
  rewrite Hr in Hl. apply NoDup_app in Hl as (_ & Hd & _). apply Hpos.
  - rewrite Hr. apply elem_of_app. by right.
  - intros Hc. by apply (Hd t).
Qed.

Lemma zsum_le {A} (f g : A -> Z) (l : list A) :
  (forall t, t ∈ l -> 0 <= f t <= g t) -> 0 <= zsum (map f l) <= zsum (map g l).
Proof.
  induction l as [|t l IH]; intros H; [done|]. cbn [map].
  change (zsum (?x :: ?xs)) with (x + zsum xs). pose proof (H t ltac:(by left)).
  assert (0 <= zsum (map f l) <= zsum (map g l)) by (apply IH; intros; apply H; by right). lia.
Qed.

Lemma single_in U s : s ∈ single_slots -> s ∈ slots U.
Proof. intros H. apply elem_slots. by right. Qed.
Lemma id_in U id s : id ∈ U -> s ∈ id_slots id -> s ∈ slots U.
Proof. intros H1 H2. apply elem_slots. eauto. Qed.

(** Proves that a named slot is in play. *)
Ltac slot_in :=
  solve [ apply single_in; unfold single_slots; rewrite !elem_of_cons; tauto
        | match goal with |- _ ?id ∈ slots ?U => apply (id_in U id) end;
          [assumption | unfold id_slots; rewrite !elem_of_cons; tauto] ].

(** ** Computations that do not panic *)

Definition wp {A} (m : M A) (Q : A -> Ledger -> Prop) (l : Ledger) : Prop :=
  match m l with (Done a, l') => Q a l' | (Panic, _) => False end.

Lemma wp_ret {A} (a : A) Q l : Q a l -> wp (mret a) Q l.
Proof. done. Qed.
Lemma wp_bind {A B} (m : M A) (k : A -> M B) Q l : wp m (fun a => wp (k a) Q) l -> wp (m ≫= k) Q l.
Proof. unfold wp, mbind, M_bind. by destruct (m l) as [[a|] l']. Qed.
Lemma wp_mono {A} (m : M A) (Q Q' : A -> Ledger -> Prop) l :
  (forall a l', Q a l' -> Q' a l') -> wp m Q l -> wp m Q' l.
Proof. unfold wp. destruct (m l) as [[a|] l']; auto. Qed.
Lemma wp_ask {A} (f : Ledger -> outcome A) a Q l : f l = Done a -> Q a l -> wp (ask f) Q l.
Proof. unfold wp, ask. by intros ->. Qed.
Lemma wp_asks {A} (f : Ledger -> A) Q l : Q (f l) l -> wp (asks f) Q l.
Proof. done. Qed.
Lemma wp_lift {A} (o : outcome A) a Q l : o = Done a -> Q a l -> wp (lift o) Q l.
Proof. unfold wp, lift. by intros ->. Qed.
Lemma wp_when b m Q l : (b = true -> wp m Q l) -> (b = false -> Q tt l) -> wp (when b m) Q l.
Proof. intros H1 H2. unfold when. destruct b; [by apply H1|by apply H2]. Qed.

(** ** The books *)

(** Leaves outside the slots that a group of theorems holds fixed: those under the
    keys of [protected], none of them the key of a slot, with their [content]. *)
Class Others (sha3_256 : list byte -> list byte) (U : list (list byte)) : Type := mkOthers {
  protected : Key -> Prop;
  content : Key -> option (list byte);
  protected_apart : forall k s, protected k -> s ∈ slots U -> k <> sha3_256 (slot_preimage s)
}.
Arguments protected {_ _} _ _.
Arguments content {_ _} _ _.

Definition no_others sha3_256 U : Others sha3_256 U.
Proof. refine (mkOthers _ _ (fun _ => False) (fun _ => None) _). done. Defined.

Section Books.
Context (sha3_256 : list byte -> list byte) (U : list (list byte)) {X : Others sha3_256 U} (N : list byte -> Z).

Definition leaf_at (l : Ledger) (s : Slot) : option (list byte) :=
  get_leaf l (sha3_256 (slot_preimage s)).
Definition total (w : Slot -> option (list byte) -> Z) (l : Ledger) : Z :=
  zsum (map (fun s => w s (leaf_at l s)) (slots U)).

(** An address of one of the accounts in play. *)
Definition in_play (address : list byte) : Prop := exists id, address_id address = Some id /\ id ∈ U.

(** The coins and [flight] make up the supply; the bonds exceed the staked total by
    [gap]. *)
Record Books (flight gap : Z) (l : Ledger) : Prop := mkBooks {
  books_leaf : forall s, s ∈ slots U -> leaf_ok U N s (leaf_at l s);
  books_coins : total coin l + flight = 0;
  books_staked : total stake_in l = gap;
  books_proposer : forall p, round_proposer l = Some p -> in_play p;
  books_height : u64 (execution_height l) /\ 0 <= heights_per_epoch l;
  books_others : forall k, protected X k -> get_leaf l k = content X k
}.

(** Nothing but the slots of [touched] changed. *)
Definition frame (touched : Slot -> bool) (l l' : Ledger) : Prop :=
  (forall s, s ∈ slots U -> touched s = false -> leaf_at l' s = leaf_at l s) /\
  execution_height l' = execution_height l /\ heights_per_epoch l' = heights_per_epoch l /\
  round_proposer l' = round_proposer l.

Lemma frame_refl t l : frame t l l.
Proof. done. Qed.
Lemma frame_trans t l1 l2 l3 : frame t l1 l2 -> frame t l2 l3 -> frame t l1 l3.
Proof.
  intros (F1 & A1 & B1 & C1) (F2 & A2 & B2 & C2). split; [|split_and!; congruence].
  intros s Hs Ht. by rewrite F2, F1.
Qed.
Lemma frame_mono (t t' : Slot -> bool) l l' :
  (forall s, t s = true -> t' s = true) -> frame t l l' -> frame t' l l'.
Proof.
  intros H (F & ?). split; [|done]. intros s Hs Ht. apply F; [done|].
  destruct (t s) eqn:E; [|done]. rewrite (H s E) in Ht. done.
Qed.

Lemma books_same_leaves f g l l' :
  leaves l' = leaves l -> round_proposer l' = round_proposer l ->
  execution_height l' = execution_height l -> heights_per_epoch l' = heights_per_epoch l ->
  Books f g l -> Books f g l'.
Proof.
  intros E1 E2 E3 E4 [H1 H2 H4 H5 H6 H7].
  assert (E : forall s, leaf_at l' s = leaf_at l s) by (intros s; unfold leaf_at, get_leaf; by rewrite E1).
  constructor; rewrite ?E2, ?E3, ?E4; try done.
  - intros s. rewrite E. auto.
  - rewrite <- H2. unfold total. do 2 f_equal. apply map_ext. intros s. by rewrite E.
  - rewrite <- H4. unfold total. f_equal. apply map_ext. intros s. by rewrite E.
  - intros k Hk. unfold get_leaf. rewrite E1. by apply H7.
Qed.

(** Events are not part of the books. *)
Lemma wp_side event (Q : unit -> Ledger -> Prop) l :
  (forall l', leaves l' = leaves l -> round_proposer l' = round_proposer l ->
     execution_height l' = execution_height l -> heights_per_epoch l' = heights_per_epoch l -> Q tt l') ->
  wp (record_side_event event) Q l.
Proof. intros H. by apply H. Qed.
Lemma wp_native kind data (Q : unit -> Ledger -> Prop) l :
  (forall l', leaves l' = leaves l -> round_proposer l' = round_proposer l ->
     execution_height l' = execution_height l -> heights_per_epoch l' = heights_per_epoch l -> Q tt l') ->
  wp (record_native_event kind data) Q l.
Proof. intros H. by apply H. Qed.

Context (U_nodup : NoDup U) (U_apart : apart sha3_256 U) (U_ids : Forall (fun id => length id = 32%nat) U).

(** The state after a write to a slot. *)
Definition written (s : Slot) (v : list byte) (l l' : Ledger) : Prop :=
  (forall t, t ∈ slots U -> leaf_at l' t = if decide (t = s) then Some v else leaf_at l t) /\
  round_proposer l' = round_proposer l /\ execution_height l' = execution_height l /\
  heights_per_epoch l' = heights_per_epoch l /\
  forall k, k <> sha3_256 (slot_preimage s) -> get_leaf l' k = get_leaf l k.

Lemma wp_write_slot s v (Q : unit -> Ledger -> Prop) l :
  s ∈ slots U -> (forall l', written s v l l' -> Q tt l') ->
  wp (write_leaf (sha3_256 (slot_preimage s)) v) Q l.
Proof using U_apart.
  intros Hs H. unfold wp, write_leaf, modify. cbv zeta. apply H.
  assert (E : leaves (note_prior (sha3_256 (slot_preimage s))
    match get_leaf l (sha3_256 (slot_preimage s)) with
    | Some _ => l
    | None => with_fresh (saturating_add 64 (block_fresh_leaves l) 1) l
    end) = leaves l).
  { unfold note_prior. by repeat case_step. }
  split; [|split_and!; [by unfold note_prior; repeat case_step..|]].
  2:{ intros k Hk. unfold get_leaf at 1. cbn [leaves with_leaves]. rewrite E. by apply lookup_insert_ne. }
  intros t Ht. unfold leaf_at, get_leaf at 1. cbn [leaves with_leaves]. rewrite E.
  case_decide as Hd; [subst; apply lookup_insert_eq|]. apply lookup_insert_ne.
  intros He. apply Hd. symmetry. by apply (slot_key_inj sha3_256 U).
Qed.

Lemma written_total w s v l l' :
  s ∈ slots U -> written s v l l' -> total w l' = total w l - w s (leaf_at l s) + w s (Some v).
Proof using U_nodup.
  intros Hs (Hw & _). unfold total.
  rewrite (zsum_update (fun t => w t (leaf_at l t)) (fun t => w t (leaf_at l' t)) (slots U) s).
  - rewrite (Hw s Hs), decide_True by done. done.
  - by apply NoDup_slots.
  - done.
  - intros t Ht Hne. by rewrite (Hw t Ht), decide_False.
Qed.

Lemma written_frame s v l l' (t : Slot -> bool) : t s = true -> written s v l l' -> frame t l l'.
Proof.
  intros Ht (Hw & Hp & Hh & He & _). split; [|by split_and!]. intros u Hu Hf.
  rewrite (Hw u Hu). case_decide; [|done]. subst. congruence.
Qed.

(** A write moves the difference of the coins out of the flight. *)
Lemma written_books f g s v l l' :
  Books f g l -> s ∈ slots U -> written s v l l' -> leaf_ok U N s (Some v) ->
  Books (f + coin s (leaf_at l s) - coin s (Some v))
        (g - stake_in s (leaf_at l s) + stake_in s (Some v)) l'.
Proof using U_nodup.
  intros [H1 H2 H4 H5 H6 H7] Hs Hw Hok. pose proof Hw as (Hl & Hp & Hh & He & Ho).
  constructor.
  - intros t Ht. rewrite (Hl t Ht). case_decide; [by subst|auto].
  - rewrite (written_total coin s v l l' Hs Hw). lia.
  - rewrite (written_total stake_in s v l l' Hs Hw). lia.
  - by rewrite Hp.
  - by rewrite Hh, He.
  - intros k Hk. rewrite Ho; [by apply H7|]. by apply protected_apart.
Qed.

(** Coins of different slots, and those in flight, fit into the supply together. *)
Lemma coins_bound f g l k :
  Books f g l -> NoDup k -> (forall s, s ∈ k -> s ∈ slots U) -> SSupply ∉ k ->
  zsum (map (fun s => coin s (leaf_at l s)) k) + f <= leaf_u64 (leaf_at l SSupply) /\
  leaf_u64 (leaf_at l SSupply) <= U64_MAX.
Proof using U_nodup.
  intros [H1 H2 H4 H5 H6 _] Hk Hs Hne. unfold total in H2.
  pose proof (zsum_part (fun t => coin t (leaf_at l t)) (SSupply :: k) (slots U)) as Hz.
  cbn [map] in Hz. change (zsum (?x :: ?xs)) with (x + zsum xs) in Hz. cbn [coin] in Hz.
  pose proof (leaf_u64_range (leaf_at l SSupply)) as Hr.
  assert (Hin : forall t, t ∈ SSupply :: k -> t ∈ slots U).
  { intros t [->|Ht]%elem_of_cons; [slot_in|auto]. }
  specialize (Hz (NoDup_slots U U_nodup) (NoDup_cons_2 _ _ Hne Hk) Hin).
  assert (forall t, t ∈ slots U -> t ∉ SSupply :: k -> 0 <= coin t (leaf_at l t)) as Hpos.
  { intros t _ Ht. apply coin_nonneg. intros ->. apply Ht. by left. }
  specialize (Hz Hpos). unfold in_width, U64_MAX in *. lia.
Qed.

(** The bonds of different validators fit into the staked total and the gap. *)
Lemma bonds_bound f g l ids :
  Books f g l -> NoDup ids -> (forall id, id ∈ ids -> id ∈ U) ->
  zsum (map (fun id => bond_amount (leaf_at l (SBond id))) ids) <= leaf_u64 (leaf_at l STotal) + g.
Proof using U_nodup.
  intros [H1 H2 H4 H5 H6 _] Hn Hids. unfold total in H4.
  pose proof (zsum_part (fun t => stake_in t (leaf_at l t)) (STotal :: map SBond ids) (slots U)) as Hz.
  cbn [map] in Hz. change (zsum (?x :: ?xs)) with (x + zsum xs) in Hz.
  rewrite map_map in Hz. cbn [stake_in] in Hz.
  assert (Hb : forall t, t ∈ map SBond ids <-> exists id, t = SBond id /\ id ∈ ids).
  { intros t. rewrite list_elem_of_In, in_map_iff. setoid_rewrite list_elem_of_In. naive_solver. }
  assert (Hnd : NoDup (STotal :: map SBond ids)).
  { apply NoDup_cons. split; [rewrite Hb; naive_solver|].
    apply NoDup_fmap_2; [intros ? ?; congruence|done]. }
  assert (Hin : forall t, t ∈ STotal :: map SBond ids -> t ∈ slots U).
  { intros t [->|(id & -> & Hid)%Hb]%elem_of_cons; [slot_in|]. apply Hids in Hid. slot_in. }
  assert (forall t, t ∈ slots U -> t ∉ STotal :: map SBond ids -> 0 <= stake_in t (leaf_at l t)) as Hpos.
  { intros t _ Ht. destruct t; cbn [stake_in]; try lia; [apply bond_amount_range|].
    exfalso. apply Ht. by left. }
  specialize (Hz (NoDup_slots U U_nodup) Hnd Hin Hpos). lia.
Qed.

(** All of them are coins. *)
Lemma staked_bound f g l :
  Books f g l -> leaf_u64 (leaf_at l STotal) + g + f <= leaf_u64 (leaf_at l SSupply).
Proof using U_nodup.
  intros [H1 H2 H4 H5 H6 _]. pose proof (NoDup_slots U U_nodup) as Hn.
  pose (b := fun t => match t with SBond _ => bond_amount (leaf_at l t) | _ => 0 end).
  pose (c := fun t => if decide (t = SSupply) then 0 else coin t (leaf_at l t)).
  assert (Es : zsum (map b (slots U)) = total stake_in l - stake_in STotal (leaf_at l STotal) + b STotal).
  { apply (zsum_update (fun t => stake_in t (leaf_at l t)) b); [done|slot_in|].
    intros t _ Ht. by destruct t. }
  assert (Ec : zsum (map c (slots U)) = total coin l - coin SSupply (leaf_at l SSupply) + c SSupply).
  { apply (zsum_update (fun t => coin t (leaf_at l t)) c); [done|slot_in|].
    intros t _ Ht. unfold c. by rewrite decide_False. }
  assert (Hb : 0 <= zsum (map b (slots U)) <= zsum (map c (slots U))).
  { apply zsum_le. intros t _. unfold b, c. case_decide; [subst; lia|].
    pose proof (coin_nonneg t (leaf_at l t)) as Hc. destruct t; cbn [coin] in *;
      try (split; [lia|by apply Hc]). pose proof (bond_amount_range (leaf_at l (SBond id))) as [? _]. lia. }
  unfold b in Es at 2. unfold c in Ec at 2. rewrite decide_True in Ec by done.
  cbn [stake_in coin] in Es, Ec. lia.
Qed.
End Books.
