(* ===== verification/LedgerConserve.v ===== *)
(** * Staking operations conserve coins

    The operations of [LedgerStake] against the books of [LedgerCoins]: first the
    moves they are made of (crediting an account, collecting a fee, changing the
    staked total), then each operation, then a history of operations. *)

From S2P Require Import Prelude Codec Idfmt Events LedgerState LedgerKeys.
From S2P Require Import Governance Staking Fee LedgerStake LedgerCoins.

Section Conserve.
Context (sha3_256 : list byte -> list byte) (U : list (list byte)) {Oth : Others sha3_256 U}.
Context (U_nodup : NoDup U) (U_apart : apart sha3_256 U)
  (U_ids : Forall (fun id => length id = 32%nat) U)
  (U_grants : sha3_256 (ascii "qtv/gov/grants") ∈ U).

#[local] Notation leaf_at := (leaf_at sha3_256).
#[local] Notation frame := (frame sha3_256 U).
#[local] Notation account := (account sha3_256).

Section Moves.
Context {N : list byte -> Z}.
#[local] Notation Books := (Books sha3_256 U N).

(** ** Reading leaves *)

Lemma leaf_u64_encoded v : u64 v -> leaf_u64 (Some (to_bytes u64_codec v)) = v.
Proof.
  intros Hv. unfold leaf_u64, decode_or.
  by rewrite (expect_decoded_encoded u64_codec v Hv (to_bytes_u64_fits v)).
Qed.

Definition u64_slot (s : Slot) : bool :=
  match s with
  | SPool | STreasury | SSupply | STotal | STotalActive | STotalRaised => true
  | _ => false
  end.

Lemma u64_slot_in s : u64_slot s = true -> s ∈ slots U.
Proof. destruct s; try done; intros _; slot_in. Qed.

Lemma u64_slot_ok s o : u64_slot s = true -> leaf_ok U N s o -> decode_or u64_codec 0 o = Done (leaf_u64 o).
Proof.
  intros Hs Ho. unfold leaf_u64. destruct s; try done; destruct Ho as (v & Hv & _); by rewrite Hv.
Qed.

Lemma u64_slot_written s v : u64_slot s = true -> u64 v -> leaf_ok U N s (Some (to_bytes u64_codec v)).
Proof.
  intros Hs Hv.
  assert (decode_or u64_codec 0 (Some (to_bytes u64_codec v)) = Done v) as E.
  { apply (expect_decoded_encoded u64_codec v Hv (to_bytes_u64_fits v)). }
  destruct s; try done; exists v; auto.
Qed.

Lemma single_read f g l s :
  Books f g l -> u64_slot s = true ->
  singleton sha3_256 (slot_preimage s) l = Done (leaf_u64 (leaf_at l s)).
Proof.
  intros HB Hs. apply (u64_slot_ok s); [done|]. apply (books_leaf _ _ _ _ _ _ HB), u64_slot_in, Hs.
Qed.

Definition only (s t : Slot) : bool := bool_decide (t = s).

Lemma only_self s : only s s = true.
Proof. by apply bool_decide_eq_true. Qed.

(** Setting one of the numbers. *)
Lemma wp_set_single f g l s v (Q : unit -> Ledger -> Prop) :
  Books f g l -> u64_slot s = true -> u64 v ->
  (forall l', Books (f + coin s (leaf_at l s) - coin s (Some (to_bytes u64_codec v)))
     (g - stake_in s (leaf_at l s) + stake_in s (Some (to_bytes u64_codec v))) l' ->
     frame (only s) l l' -> leaf_u64 (leaf_at l' s) = v -> Q tt l') ->
  wp (set_singleton sha3_256 (slot_preimage s) v) Q l.
Proof using U_nodup U_apart.
  intros HB Hs Hv HQ. apply (wp_write_slot _ U); [done|by apply u64_slot_in|]. intros l' Hw.
  apply HQ.
  - apply (written_books _ _ _ U_nodup f g s _ l); auto using u64_slot_in, u64_slot_written.
  - eapply written_frame; [apply only_self|exact Hw].
  - destruct Hw as (Hw & _). rewrite Hw by by apply u64_slot_in.
    rewrite decide_True by done. by apply leaf_u64_encoded.
Qed.

Lemma account_at l a id :
  address_id a = Some id ->
  account l a = decode_default Account_codec Account_default (leaf_at l (SAccount id)).
Proof. intros H. unfold LedgerStake.account, leaf_at. by rewrite (state_key_slot _ _ _ H). Qed.

Lemma account_written_ok id acc o :
  Account_valid acc -> acc_public_key acc = acc_public_key (decode_default Account_codec Account_default o) ->
  N id <= acc_nonce acc -> leaf_ok U N (SAccount id) o ->
  leaf_ok U N (SAccount id) (Some (to_bytes Account_codec acc)) /\
  decode_default Account_codec Account_default (Some (to_bytes Account_codec acc)) = acc.
Proof.
  intros Hv Hk Hn [Ho _].
  assert (Hf : fits_slice (to_bytes Account_codec acc)).
  { unfold fits_slice. rewrite len_Account, Hk. unfold decode_default.
    destruct o as [bs|]; [|done]. destruct (from_bytes Account_codec bs) as [x|] eqn:E; [|done].
    apply from_bytes_canonical in E as [_ E]; [|apply _]. specialize (Ho bs eq_refl).
    unfold fits_slice in Ho. by rewrite <- E, len_Account in Ho. }
  assert (E : decode_default Account_codec Account_default (Some (to_bytes Account_codec acc)) = acc).
  { unfold decode_default. by rewrite (from_bytes_encoded Account_codec acc Hv Hf). }
  split; [|done]. split; [by intros bs [= <-]|]. by rewrite E.
Qed.

(** Writing an account; it then reads as written. *)
Lemma wp_set_account_read f g l a id acc (Q : unit -> Ledger -> Prop) :
  Books f g l -> address_id a = Some id -> id ∈ U -> Account_valid acc ->
  acc_public_key acc = acc_public_key (account l a) -> N id <= acc_nonce acc ->
  (forall l', Books (f + acc_balance (account l a) - acc_balance acc) g l' ->
     frame (only (SAccount id)) l l' -> account l' a = acc -> Q tt l') ->
  wp (set_account sha3_256 a acc) Q l.
Proof using U_nodup U_apart.
  intros HB Ha Hid Hv Hk Hn HQ. unfold set_account. rewrite (state_key_slot _ _ _ Ha).
  rewrite (account_at l a id Ha) in *. assert (Hs : SAccount id ∈ slots U) by slot_in.
  pose proof (books_leaf _ _ _ _ _ _ HB _ Hs) as Ho.
  destruct (account_written_ok id acc _ Hv Hk Hn Ho) as [Hok Hd].
  apply (wp_write_slot _ U); [done|done|]. intros l' Hw. apply HQ.
  - pose proof (written_books _ _ _ U_nodup f g (SAccount id) _ l l' HB Hs Hw Hok) as HB'.
    cbn [coin stake_in] in HB'. rewrite Hd in HB'. replace (g - 0 + 0) with g in HB' by lia. auto.
  - eapply written_frame; [apply only_self|exact Hw].
  - rewrite (account_at l' a id Ha). destruct Hw as (Hw & _). rewrite (Hw _ Hs), decide_True by done. exact Hd.
Qed.

Lemma wp_set_account f g l a id acc (Q : unit -> Ledger -> Prop) :
  Books f g l -> address_id a = Some id -> id ∈ U -> Account_valid acc ->
  acc_public_key acc = acc_public_key (account l a) -> N id <= acc_nonce acc ->
  (forall l', Books (f + acc_balance (account l a) - acc_balance acc) g l' ->
     frame (only (SAccount id)) l l' -> Q tt l') ->
  wp (set_account sha3_256 a acc) Q l.
Proof using U_nodup U_apart. intros. eapply wp_set_account_read; eauto. Qed.

(** ** Moves *)

Lemma nonce_floor f g l a id :
  Books f g l -> address_id a = Some id -> id ∈ U -> N id <= acc_nonce (account l a).
Proof.
  intros HB Ha Hid. rewrite (account_at l a id Ha).
  apply (books_leaf _ _ _ _ _ _ HB (SAccount id)). slot_in.
Qed.

Lemma account_u64 l a : Account_valid (account l a).
Proof. apply account_valid. Qed.

Lemma with_balance_valid a b : Account_valid a -> u64 b -> Account_valid (with_balance a b).
Proof. by intros (? & ? & ? & ?) ?. Qed.
Lemma with_nonce_valid a n : Account_valid a -> u64 n -> Account_valid (with_nonce a n).
Proof. by intros (? & ? & ? & ?) ?. Qed.

Lemma slot_bound f g l s :
  Books f g l -> s ∈ slots U -> s <> SSupply ->
  coin s (leaf_at l s) + f <= leaf_u64 (leaf_at l SSupply) /\ leaf_u64 (leaf_at l SSupply) <= U64_MAX.
Proof using U_nodup.
  intros HB Hs Hne. destruct (coins_bound _ _ _ U_nodup f g l [s] HB) as [H1 H2].
  - apply NoDup_singleton.
  - by intros t ->%list_elem_of_singleton.
  - intros H%list_elem_of_singleton. by subst.
  - cbn in H1. lia.
Qed.

(** There is room for the coins in flight in every account. *)
Lemma account_room f g l a id :
  Books f g l -> address_id a = Some id -> id ∈ U ->
  0 <= acc_balance (account l a) /\ acc_balance (account l a) + f <= U64_MAX.
Proof using U_nodup.
  intros HB Ha Hid. destruct (account_u64 l a) as (_ & [? _] & _). split; [done|].
  rewrite (account_at l a id Ha).
  destruct (slot_bound f g l (SAccount id) HB) as [H1 H2]; [slot_in|done|]. cbn [coin] in H1. lia.
Qed.

Lemma saturating_add_room a b : 0 <= a -> 0 <= b -> a + b <= U64_MAX -> saturating_add 64 a b = a + b.
Proof. unfold saturating_add, U64_MAX. lia. Qed.

Definition money (s : Slot) : bool :=
  match s with SAccount _ | SSupply => true | _ => false end.

Lemma only_account_money id l l' : frame (only (SAccount id)) l l' -> frame money l l'.
Proof. apply frame_mono. intros s H. apply bool_decide_eq_true in H. by subst. Qed.
Lemma only_supply_money l l' : frame (only SSupply) l l' -> frame money l l'.
Proof. apply frame_mono. intros s H. apply bool_decide_eq_true in H. by subst. Qed.

(** The body of [credit_account]: put coins in flight into an account. *)
Lemma wp_credit f g l a id amt (Q : unit -> Ledger -> Prop) :
  Books f g l -> address_id a = Some id -> id ∈ U -> 0 <= amt <= f ->
  (forall l', Books (f - amt) g l' -> frame money l l' -> Q tt l') ->
  wp (set_account sha3_256 a
        (with_balance (account l a) (saturating_add 64 (acc_balance (account l a)) amt))) Q l.
Proof using U_nodup U_apart.
  intros HB Ha Hid Hamt HQ. destruct (account_room f g l a id HB Ha Hid) as [Hb Hr].
  rewrite saturating_add_room by lia.
  apply (wp_set_account f g l a id); [done|done|done| |done|by eapply nonce_floor|].
  - apply with_balance_valid; [apply account_u64|]. unfold in_width, U64_MAX in *. lia.
  - cbn [with_balance acc_balance]. intros l' HB' Hfr. apply HQ; [|by eapply only_account_money].
    replace (f - amt) with (f + acc_balance (account l a) - (acc_balance (account l a) + amt)) by lia. done.
Qed.

Lemma wp_credit_account f g l a id amt (Q : unit -> Ledger -> Prop) :
  Books f g l -> address_id a = Some id -> id ∈ U -> 0 <= amt <= f ->
  (forall l', Books (f - amt) g l' -> frame money l l' -> Q tt l') ->
  wp (credit_account sha3_256 a amt) Q l.
Proof using U_nodup U_apart.
  intros HB Ha Hid Hamt HQ. unfold credit_account. destruct (Z.eqb_spec amt 0) as [->|].
  - apply wp_ret, HQ; [|apply frame_refl]. by rewrite Z.sub_0_r.
  - apply wp_bind, wp_asks. by eapply wp_credit.
Qed.

Lemma wp_set_supply f g l v (Q : unit -> Ledger -> Prop) :
  Books f g l -> u64 v ->
  (forall l', Books (f - leaf_u64 (leaf_at l SSupply) + v) g l' -> frame (only SSupply) l l' ->
     leaf_u64 (leaf_at l' SSupply) = v -> Q tt l') ->
  wp (set_total_supply sha3_256 v) Q l.
Proof using U_nodup U_apart.
  intros HB Hv HQ. apply (wp_set_single f g l SSupply v); try done.
  cbn [coin stake_in]. rewrite leaf_u64_encoded by done. intros l' HB' Hfr Hl. apply HQ; [|done..].
  replace (f - leaf_u64 (leaf_at l SSupply) + v) with (f + - leaf_u64 (leaf_at l SSupply) - - v) by lia.
  by replace (g - 0 + 0) with g in HB' by lia.
Qed.

(** The coins in flight are part of the supply. *)
Lemma supply_covers f g l : Books f g l -> f <= leaf_u64 (leaf_at l SSupply) <= U64_MAX.
Proof using U_nodup.
  intros HB. destruct (slot_bound f g l SPool HB) as [H1 H2]; [slot_in|done|].
  pose proof (coin_nonneg SPool (leaf_at l SPool)) as Hp. specialize (Hp ltac:(done)). lia.
Qed.

Lemma wp_debit_supply f g l amt (Q : unit -> Ledger -> Prop) :
  Books f g l -> 0 <= amt <= leaf_u64 (leaf_at l SSupply) ->
  (forall l', Books (f - amt) g l' -> frame (only SSupply) l l' -> Q tt l') ->
  wp (debit_supply sha3_256 amt) Q l.
Proof using U_nodup U_apart.
  intros HB Hamt HQ. unfold debit_supply. destruct (Z.eqb_spec amt 0) as [->|].
  - apply wp_ret, HQ; [|apply frame_refl]. by rewrite Z.sub_0_r.
  - apply wp_bind. eapply wp_ask; [by apply (single_read f g l SSupply)|].
    unfold saturating_sub. rewrite Z.max_l by lia.
    pose proof (leaf_u64_range (leaf_at l SSupply)) as Hr.
    apply (wp_set_supply f g l); [done|unfold in_width in *; lia|]. intros l' HB' Hfr _.
    apply HQ; [|done]. by replace (f - amt) with
      (f - leaf_u64 (leaf_at l SSupply) + (leaf_u64 (leaf_at l SSupply) - amt)) by lia.
Qed.

Lemma wp_credit_supply f g l amt (Q : unit -> Ledger -> Prop) :
  Books f g l -> 0 <= amt -> leaf_u64 (leaf_at l SSupply) + amt <= U64_MAX ->
  (forall l', Books (f + amt) g l' -> frame (only SSupply) l l' ->
     leaf_u64 (leaf_at l' SSupply) = leaf_u64 (leaf_at l SSupply) + amt -> Q tt l') ->
  wp (credit_supply sha3_256 amt) Q l.
Proof using U_nodup U_apart.
  intros HB Hamt Hroom HQ. unfold credit_supply. destruct (Z.eqb_spec amt 0) as [->|].
  - apply wp_ret, HQ; [|apply frame_refl|lia]. by rewrite Z.add_0_r.
  - apply wp_bind. eapply wp_ask; [by apply (single_read f g l SSupply)|].
    pose proof (leaf_u64_range (leaf_at l SSupply)) as Hr.
    rewrite saturating_add_room by (unfold in_width in *; lia).
    apply (wp_set_supply f g l); [done|unfold in_width, U64_MAX in *; lia|]. intros l' HB' Hfr Hl.
    apply HQ; [|done|done]. by replace (f + amt) with
      (f - leaf_u64 (leaf_at l SSupply) + (leaf_u64 (leaf_at l SSupply) + amt)) by lia.
Qed.

(** ** Fees *)

Lemma grants_ok : exists a, grants_address sha3_256 = Done a /\ address_id a = Some (sha3_256 (ascii "qtv/gov/grants")).
Proof using U_ids U_grants.
  rewrite Forall_forall in U_ids. specialize (U_ids _ U_grants).
  destruct (render_address_Ok _ U_ids) as (a & Hr & Hp). exists a.
  unfold grants_address, cached_address. rewrite Hr. split; [done|]. by apply address_id_parse.
Qed.

Lemma wp_apply_fee_split f g l s (Q : unit -> Ledger -> Prop) :
  Books f g l -> 0 <= burn s -> 0 <= proposer s -> 0 <= grants s ->
  burn s + proposer s + grants s <= f ->
  (forall l', Books (f - (burn s + proposer s + grants s)) g l' -> frame money l l' -> Q tt l') ->
  wp (apply_fee_split sha3_256 s) Q l.
Proof using U_nodup U_apart U_ids U_grants.
  intros HB H1 H2 H3 Hs HQ. destruct grants_ok as (ga & Hg & Hga).
  unfold apply_fee_split. apply wp_bind. eapply wp_lift; [exact Hg|].
  apply wp_bind, wp_asks, wp_bind.
  assert (Hto : exists a id, address_id a = Some id /\ id ∈ U /\
    match round_proposer l with
    | Some p => credit_account sha3_256 p (proposer s)
    | None => credit_account sha3_256 ga (proposer s)
    end = credit_account sha3_256 a (proposer s)).
  { destruct (round_proposer l) as [p|] eqn:Ep; [|by eauto 10].
    destruct (books_proposer _ _ _ _ _ _ HB p Ep) as (id & ? & ?). eauto 10. }
  destruct Hto as (a & id & Ha & Hid & ->).
  apply (wp_credit_account f g l a id); [done..|lia|]. intros l1 HB1 F1. apply wp_bind.
  eapply (wp_credit_account (f - proposer s) g l1 ga); [done|exact Hga|done|lia|]. intros l2 HB2 F2.
  pose proof (supply_covers _ _ _ HB2) as Hcov.
  apply (wp_debit_supply (f - proposer s - grants s) g l2); [done|lia|]. intros l3 HB3 F3.
  apply HQ.
  - by replace (f - (burn s + proposer s + grants s)) with (f - proposer s - grants s - burn s) by lia.
  - eapply frame_trans; [exact F1|]. eapply frame_trans; [exact F2|]. by apply only_supply_money.
Qed.

Lemma wp_collect_fee f g l fee (Q : unit -> Ledger -> Prop) :
  Books f g l -> u64 fee -> fee <= f ->
  (forall l', Books (f - fee) g l' -> frame money l l' -> Q tt l') ->
  wp (collect_fee sha3_256 fee) Q l.
Proof using U_nodup U_apart U_ids U_grants.
  intros HB Hfee Hle HQ. unfold collect_fee. destruct (Z.eqb_spec fee 0) as [->|].
  - apply wp_ret, HQ; [|apply frame_refl]. by rewrite Z.sub_0_r.
  - destruct (FeeSplit_of_parts fee Hfee) as (s & Hs & _ & _ & Hsum & Hb & Hp & Hg).
    apply wp_bind. eapply wp_lift; [exact Hs|].
    apply (wp_apply_fee_split f g l s); [done..|lia|]. by rewrite Hsum.
Qed.

(** ** The staked total *)

Definition staked_slot (s : Slot) : bool :=
  match s with STotal | STotalActive | STotalRaised => true | _ => false end.

Lemma only_staked s l l' : staked_slot s = true -> frame (only s) l l' -> frame staked_slot l l'.
Proof. intros Hs. apply frame_mono. intros t Ht. apply bool_decide_eq_true in Ht. by subst. Qed.

(** Setting one of the three leaves of the total. *)
Lemma wp_set_staked f g l s v (Q : unit -> Ledger -> Prop) :
  Books f g l -> staked_slot s = true -> u64 v ->
  (forall l', Books f (g - stake_in s (leaf_at l s) + stake_in s (Some (to_bytes u64_codec v))) l' ->
     frame staked_slot l l' -> (forall t, t ∈ slots U -> t <> s -> leaf_at l' t = leaf_at l t) -> Q tt l') ->
  wp (set_singleton sha3_256 (slot_preimage s) v) Q l.
Proof using U_nodup U_apart.
  intros HB Hs Hv HQ. assert (Hu : u64_slot s = true) by (by destruct s).
  assert (Hc : forall o, coin s o = 0) by (by destruct s).
  apply (wp_set_single f g l s v); try done. rewrite !Hc.
  intros l' HB' Hfr _. replace (f + 0 - 0) with f in HB' by lia. apply HQ; [done|by eapply only_staked|].
  intros t Ht Hne. apply Hfr; [done|]. by apply bool_decide_eq_false.
Qed.

Lemma matured_reads f g l : Books f g l ->
  exists v, matured_total_staked sha3_256 l = Done v /\ u64 v.
Proof.
  intros HB. unfold matured_total_staked.
  rewrite (single_read f g l STotal HB eq_refl : total_staked sha3_256 l = _). cbn [obind].
  rewrite (single_read f g l STotalRaised HB eq_refl : total_staked_raised_at sha3_256 l = _).
  rewrite (single_read f g l STotalActive HB eq_refl : total_staked_active sha3_256 l = _). cbn [obind].
  pose proof (leaf_u64_range (leaf_at l STotal)). pose proof (leaf_u64_range (leaf_at l STotalActive)).
  repeat case_step; eexists; split; try done; unfold in_width in *; lia.
Qed.

Lemma wp_credit_staked f g l amt (Q : unit -> Ledger -> Prop) :
  Books f g l -> 0 <= amt -> leaf_u64 (leaf_at l STotal) + amt <= U64_MAX ->
  (forall l', Books f (g - amt) l' -> frame staked_slot l l' -> Q tt l') ->
  wp (credit_staked sha3_256 amt) Q l.
Proof using U_nodup U_apart.
  intros HB Hamt Hroom HQ. unfold credit_staked. destruct (Z.eqb_spec amt 0) as [->|].
  - apply wp_ret, HQ; [by rewrite Z.sub_0_r|apply frame_refl].
  - destruct (matured_reads f g l HB) as (active & Ha & Hau).
    apply wp_bind. eapply wp_ask; [exact Ha|].
    apply wp_bind. eapply wp_ask; [by apply (single_read f g l STotal)|].
    pose proof (leaf_u64_range (leaf_at l STotal)) as Ht.
    rewrite saturating_add_room by (unfold in_width in *; lia). cbv zeta.
    apply wp_bind, (wp_set_staked f g l STotalActive active); try done. intros l1 HB1 F1 K1.
    cbn [stake_in] in HB1. replace (g - 0 + 0) with g in HB1 by lia.
    apply wp_bind, wp_asks, wp_bind, (wp_set_staked f g l1 STotalRaised); try done.
    { by destruct (books_height _ _ _ _ _ _ HB1). }
    intros l2 HB2 F2 K2. cbn [stake_in] in HB2. replace (g - 0 + 0) with g in HB2 by lia.
    assert (E : leaf_at l2 STotal = leaf_at l STotal) by (rewrite K2, K1; [done|slot_in|done|slot_in|done]).
    apply (wp_set_staked f g l2 STotal); try done; [unfold in_width, U64_MAX in *; lia|].
    intros l3 HB3 F3 _. cbn [stake_in] in HB3. rewrite E, leaf_u64_encoded in HB3
      by (unfold in_width, U64_MAX in *; lia).
    apply HQ; [|eauto using frame_trans].
    by replace (g - - leaf_u64 (leaf_at l STotal) + - (leaf_u64 (leaf_at l STotal) + amt)) with (g - amt) in HB3 by lia.
Qed.

Lemma wp_debit_staked f g l amt (Q : unit -> Ledger -> Prop) :
  Books f g l -> 0 <= amt <= leaf_u64 (leaf_at l STotal) ->
  (forall l', Books f (g + amt) l' -> frame staked_slot l l' -> Q tt l') ->
  wp (debit_staked sha3_256 amt) Q l.
Proof using U_nodup U_apart.
  intros HB Hamt HQ. unfold debit_staked. destruct (Z.eqb_spec amt 0) as [->|].
  - apply wp_ret, HQ; [by rewrite Z.add_0_r|apply frame_refl].
  - apply wp_bind. eapply wp_ask; [by apply (single_read f g l STotal)|]. cbv zeta.
    apply wp_bind. eapply wp_ask; [by apply (single_read f g l STotalActive)|].
    pose proof (leaf_u64_range (leaf_at l STotal)) as Ht.
    pose proof (leaf_u64_range (leaf_at l STotalActive)) as Hta.
    unfold saturating_sub. rewrite Z.max_l by lia.
    apply wp_bind, (wp_set_staked f g l STotalActive); try done; [unfold in_width in *; lia|].
    intros l1 HB1 F1 K1. cbn [stake_in] in HB1. replace (g - 0 + 0) with g in HB1 by lia.
    assert (E : leaf_at l1 STotal = leaf_at l STotal) by (apply K1; [slot_in|done]).
    apply (wp_set_staked f g l1 STotal); try done; [unfold in_width in *; lia|].
    intros l2 HB2 F2 _. cbn [stake_in] in HB2. rewrite E, leaf_u64_encoded in HB2 by (unfold in_width in *; lia).
    apply HQ; [|eauto using frame_trans].
    by replace (g - - leaf_u64 (leaf_at l STotal) + - (leaf_u64 (leaf_at l STotal) - amt)) with (g + amt) in HB2 by lia.
Qed.

(** ** Bonds *)

Lemma stake_bond_at l id : stake_bond sha3_256 l id = decode_some Bond_codec (leaf_at l (SBond id)).
Proof. done. Qed.

Lemma bond_read f g l id :
  Books f g l -> id ∈ U ->
  exists ob, stake_bond sha3_256 l id = Done ob /\ (forall b, ob = Some b -> bond_ok b) /\
    bond_amount (leaf_at l (SBond id)) = default 0 (option_map amount ob).
Proof.
  intros HB Hid. destruct (books_leaf _ _ _ _ _ _ HB (SBond id)) as (ob & Ho & Hb); [slot_in|].
  exists ob. rewrite stake_bond_at. split; [done|]. split; [done|].
  unfold bond_amount. rewrite Ho. by destruct ob.
Qed.

Lemma bond_written id b :
  bond_ok b -> leaf_ok U N (SBond id) (Some (to_bytes Bond_codec b)) /\
    bond_amount (Some (to_bytes Bond_codec b)) = amount b.
Proof.
  intros Hb. destruct (to_bytes_Bond b) as (x & bs & E & Hf).
  assert (D : decode_some Bond_codec (Some (to_bytes Bond_codec b)) = Done (Some b)).
  { rewrite E. cbn [decode_some]. rewrite <- E in *.
    rewrite (expect_decoded_encoded Bond_codec b); [done|apply Hb|done]. }
  split; [|unfold bond_amount; by rewrite D]. exists (Some b). split; [exact D|]. by intros ? [= <-].
Qed.

Lemma wp_set_bond f g l id b (Q : unit -> Ledger -> Prop) :
  Books f g l -> id ∈ U -> bond_ok b ->
  (forall l', Books (f + bond_amount (leaf_at l (SBond id)) - amount b)
     (g - bond_amount (leaf_at l (SBond id)) + amount b) l' -> frame (only (SBond id)) l l' -> Q tt l') ->
  wp (set_stake_bond sha3_256 id b) Q l.
Proof using U_nodup U_apart.
  intros HB Hid Hb HQ. destruct (bond_written id b Hb) as [Hok Ha].
  assert (Hs : SBond id ∈ slots U) by slot_in.
  apply (wp_write_slot _ U U_apart (SBond id)); [done|]. intros l' Hw. apply HQ.
  - pose proof (written_books _ _ _ U_nodup f g (SBond id) _ l l' HB Hs Hw Hok) as HB'.
    cbn [coin stake_in] in HB'. rewrite Ha in HB'. auto.
  - eapply written_frame; [apply only_self|exact Hw].
Qed.

Lemma wp_clear_bond f g l id (Q : unit -> Ledger -> Prop) :
  Books f g l -> id ∈ U ->
  (forall l', Books (f + bond_amount (leaf_at l (SBond id))) (g - bond_amount (leaf_at l (SBond id))) l' ->
     frame (only (SBond id)) l l' -> Q tt l') ->
  wp (clear_stake_bond sha3_256 id) Q l.
Proof using U_nodup U_apart.
  intros HB Hid HQ. assert (Hs : SBond id ∈ slots U) by slot_in.
  apply (wp_write_slot _ U U_apart (SBond id)); [done|]. intros l' Hw. apply HQ.
  - pose proof (written_books _ _ _ U_nodup f g (SBond id) _ l l' HB Hs Hw) as HB'.
    cbn [coin stake_in] in HB'. change (bond_amount (Some [])) with 0 in HB'.
    rewrite Z.add_0_r, Z.sub_0_r in HB'. apply HB'. by exists None.
  - eapply written_frame; [apply only_self|exact Hw].
Qed.

(** A slot outside the touched ones reads as before. *)
Lemma frame_at t l l' s : frame t l l' -> s ∈ slots U -> t s = false -> leaf_at l' s = leaf_at l s.
Proof. intros [H _]. apply H. Qed.

Lemma bond_raised_ok l ob day tot :
  u64 (execution_height l) -> 0 <= heights_per_epoch l -> u64 day -> u64 tot ->
  (forall b, ob = Some b -> bond_ok b) ->
  bond_ok (bond_raised l ob day tot) /\ amount (bond_raised l ob day tot) = tot.
Proof.
  intros Hh Hhe Hd Ht Hob. unfold bond_raised. split; [|done].
  assert (Hb : Bond_valid (default (fresh_bond day) ob)).
  { destruct ob as [b|]; cbn; [by apply Hob|]. destruct Hd. repeat split; (done || lia). }
  set (b0 := default (fresh_bond day) ob) in *.
  set (b := rejoin _ _ _). destruct Hb as (Ha & _ & _ & Hac & Hra).
  assert (exit_requested_at b = None /\ u64 (amount b) /\ u64 (active_amount b) /\ bonded_at_day b = day)
    as (Hx & Hba & Hbc & Hbd).
  { unfold b, rejoin, weight_in_epoch. cbn [exit_requested_at amount active_amount raised_at_height bonded_at_day].
    destruct (exit_requested_at b0); [|done]. cbn [exit_requested_at amount active_amount bonded_at_day].
    split_and!; try done. unfold in_width in *. case_step; lia. }
  unfold bond_ok, Bond_valid, raise_to. cbn [amount bonded_at_day exit_requested_at active_amount raised_at_height].
  rewrite Hx, Hbd. split; [|done]. split_and!; try done. unfold amount_in_epoch, in_width in *.
  repeat case_step; lia.
Qed.

(** What [bond] and [bond_with_fee] share: the coins in flight go into the bond. *)
Lemma wp_raise_bond f l id day amt tot (k : M bool) (Q : bool -> Ledger -> Prop) :
  Books f 0 l -> id ∈ U -> u64 day -> 0 <= amt <= f ->
  tot = bond_amount (leaf_at l (SBond id)) + amt -> u64 tot ->
  (forall l', Books (f - amt) 0 l' -> wp k Q l') ->
  wp (existing ← ask (fun l => stake_bond sha3_256 l id);
      raised ← asks (fun l => bond_raised l existing day tot);
      set_stake_bond sha3_256 id raised;; credit_staked sha3_256 amt;; k) Q l.
Proof using U_nodup U_apart.
  intros HB Hid Hday Hamt Htot Hut HQ. destruct (bond_read f 0 l id HB Hid) as (ob & Ho & Hob & Ham).
  destruct (books_height _ _ _ _ _ _ HB) as [Hh Hhe].
  destruct (bond_raised_ok l ob day tot) as [Hok Ha]; [done..|].
  apply wp_bind. eapply wp_ask; [exact Ho|]. apply wp_bind, wp_asks, wp_bind.
  apply (wp_set_bond f 0 l id); [done..|]. rewrite Ha. intros l1 HB1 F1.
  replace (f + bond_amount (leaf_at l (SBond id)) - tot) with (f - amt) in HB1 by lia.
  replace (0 - bond_amount (leaf_at l (SBond id)) + tot) with amt in HB1 by lia.
  pose proof (staked_bound _ _ _ U_nodup _ _ _ HB1) as Hst. pose proof (supply_covers _ _ _ HB1) as Hsc.
  apply wp_bind, (wp_credit_staked (f - amt) amt l1 amt); [done|lia|lia|]. rewrite Z.sub_diag.
  intros l2 HB2 _. by apply HQ.
Qed.

Lemma books_events f g l l' :
  Books f g l -> leaves l' = leaves l -> round_proposer l' = round_proposer l ->
  execution_height l' = execution_height l -> heights_per_epoch l' = heights_per_epoch l -> Books f g l'.
Proof. intros. by eapply books_same_leaves. Qed.

(** Events recorded at the end of an operation. *)
Lemma wp_record_side f g l event {A} (k : M A) Q :
  Books f g l -> (forall l', Books f g l' -> wp k Q l') -> wp (record_side_event event ;; k) Q l.
Proof. intros HB H. apply wp_bind, wp_side. intros. eapply H, books_events; eauto. Qed.
Lemma wp_record_native f g l kind data {A} (k : M A) Q :
  Books f g l -> (forall l', Books f g l' -> wp k Q l') -> wp (record_native_event kind data ;; k) Q l.
Proof. intros HB H. apply wp_bind, wp_native. intros. eapply H, books_events; eauto. Qed.

End Moves.

(** ** Nonces *)

Definition raise (N : list byte -> Z) (id : list byte) (k : Z) (x : list byte) : Z :=
  if decide (x = id) then k else N x.

Lemma books_floor N N' f g l :
  LedgerCoins.Books sha3_256 U N f g l ->
  (forall id, id ∈ U -> N' id <= acc_nonce (decode_default Account_codec Account_default (leaf_at l (SAccount id)))) ->
  LedgerCoins.Books sha3_256 U N' f g l.
Proof.
  intros [H1 H2 H3 H4 H5] HN. constructor; try done. intros s Hs. specialize (H1 s Hs).
  destruct s; try done. split; [apply H1|]. apply HN.
  apply elem_slots in Hs as [(x & Hx & Hs)|Hs].
  - unfold id_slots in Hs. rewrite !elem_of_cons, elem_of_nil in Hs.
    repeat destruct Hs as [Hs|Hs]; try done. by injection Hs as ->.
  - unfold single_slots in Hs. rewrite !elem_of_cons, elem_of_nil in Hs. repeat destruct Hs as [Hs|Hs]; done.
Qed.

Lemma books_lower N N' f g l :
  LedgerCoins.Books sha3_256 U N' f g l -> (forall id, N id <= N' id) -> LedgerCoins.Books sha3_256 U N f g l.
Proof.
  intros HB HN. eapply books_floor; [exact HB|]. intros id Hid. etrans; [apply HN|].
  destruct (books_leaf _ _ _ _ _ _ HB (SAccount id)) as [_ H]; [slot_in|exact H].
Qed.

Lemma books_raise N f g l a id k :
  LedgerCoins.Books sha3_256 U N f g l -> address_id a = Some id -> k <= acc_nonce (account l a) ->
  LedgerCoins.Books sha3_256 U (raise N id k) f g l.
Proof.
  intros HB Ha Hk. eapply books_floor; [exact HB|]. intros x Hx. unfold raise.
  case_decide as Hd; [subst; by rewrite <- (account_at l a id Ha)|].
  destruct (books_leaf _ _ _ _ _ _ HB (SAccount x)) as [_ H]; [slot_in|exact H].
Qed.

(** Coins held elsewhere, which the operations of this file leave there. *)
Section Held.
Context (h : Z) (h_pos : 0 <= h).

(** The books balance, with nonces from [N] on. *)
Definition balanced (N : list byte -> Z) (l : Ledger) : Prop := LedgerCoins.Books sha3_256 U N h 0 l.

(** The nonces after an operation paid for by an account. *)
Definition spend (N : list byte -> Z) (l : Ledger) (a : list byte) : list byte -> Z :=
  match address_id a with Some id => raise N id (acc_nonce (account l a) + 1) | None => N end.

(** What a paid operation leaves: it took effect and used the nonce, or it did not. *)
Definition paid (N : list byte -> Z) (l : Ledger) (a : list byte) (ok : bool) (l' : Ledger) : Prop :=
  balanced (if ok then spend N l a else N) l'.

Lemma paid_balanced N l a ok l' : balanced N l -> in_play U a -> paid N l a ok l' -> balanced N l'.
Proof.
  intros HB (id & Ha & Hid) Hp. unfold paid, spend in Hp. rewrite Ha in Hp. destruct ok; [|done].
  eapply books_lower; [exact Hp|]. intros x. unfold raise. case_decide; [|done]. subst.
  pose proof (nonce_floor h 0 l a id HB Ha Hid). lia.
Qed.

Lemma spent_paid N l a ok l' : balanced N l -> in_play U a -> balanced (spend N l a) l' -> paid N l a ok l'.
Proof. intros HB Ha Hs. destruct ok; [done|]. eapply (paid_balanced N l a true); eauto. Qed.

(** ** Operations *)

Section Ops.
Context {N : list byte -> Z}.
#[local] Notation Books := (LedgerCoins.Books sha3_256 U).

(** An account with a nonce left to use. *)
Definition usable (l : Ledger) (a : list byte) : Prop :=
  in_play U a /\ acc_nonce (account l a) < U64_MAX.

Lemma bond_balanced l a amt day :
  balanced N l -> usable l a -> u64 amt -> u64 day -> wp (bond sha3_256 a amt day) (fun _ => balanced N) l.
Proof using h_pos U_nodup U_apart.
  intros HB ((id & Ha & Hid) & _) Hamt Hday. unfold bond. rewrite Ha.
  apply wp_bind, wp_asks. case_step; [by apply wp_ret|].
  apply wp_bind, wp_asks. destruct (Z.ltb_spec (acc_balance (account l a)) amt); [by apply wp_ret|].
  destruct (bond_read h 0 l id HB Hid) as (ob & Ho & Hob & Ham).
  apply wp_bind. eapply wp_ask; [exact Ho|]. rewrite <- Ham.
  destruct (checked_add 64 _ amt) as [tot|] eqn:Et; [|by apply wp_ret].
  apply checked_add_Some in Et as [-> Ht]. case_step; [by apply wp_ret|].
  pose proof (bond_amount_range (leaf_at l (SBond id))) as [Hb0 _].
  destruct (account_u64 l a) as (_ & Hb & _). unfold in_width in *.
  eapply wp_bind, (wp_set_account h 0 l a id); [done..| |done|by eapply nonce_floor|].
  { apply with_balance_valid; [apply account_u64|]. unfold in_width. lia. }
  cbn [with_balance acc_balance]. intros l1 HB1 F1.
  replace (h + acc_balance (account l a) - (acc_balance (account l a) - amt)) with (h + amt) in HB1 by lia.
  assert (E : leaf_at l1 (SBond id) = leaf_at l (SBond id)) by (eapply frame_at; [exact F1|slot_in|done]).
  eapply (wp_raise_bond (h + amt) l1 id day amt); try done; [lia|by rewrite E|unfold in_width; lia|].
  replace (h + amt - amt) with h by lia. intros l2 HB2. by apply wp_ret.
Qed.

Lemma lock_read f g l id : Books N f g l -> id ∈ U -> exists k, gov_lock sha3_256 l id = Done k.
Proof. intros HB Hid. apply (books_leaf _ _ _ _ _ _ HB (SLock id)). slot_in. Qed.

Lemma exit_vote_locked_reads f g l id day :
  Books N f g l -> id ∈ U -> exists b, exit_vote_locked sha3_256 l id day = Done b.
Proof.
  intros HB Hid. destruct (lock_read f g l id HB Hid) as [k Hk]. unfold exit_vote_locked.
  rewrite Hk. cbn. eauto.
Qed.

Lemma DAY_MAX_small : DAY_MAX < 2 ^ 48 - 100.
Proof. done. Qed.

Lemma request_stake_exit_balanced l a day :
  balanced N l -> in_play U a -> 0 <= day <= DAY_MAX ->
  wp (request_stake_exit sha3_256 a day) (fun _ => balanced N) l.
Proof using h_pos U_nodup U_apart.
  intros HB (id & Ha & Hid) Hday. unfold request_stake_exit. rewrite Ha.
  destruct (bond_read h 0 l id HB Hid) as (ob & Ho & Hob & Ham).
  apply wp_bind. eapply wp_ask; [exact Ho|]. destruct ob as [b|]; [|by apply wp_ret].
  destruct (exit_vote_locked_reads h 0 l id day HB Hid) as [lk Hlk].
  apply wp_bind. eapply wp_ask; [exact Hlk|]. case_step; [by apply wp_ret|].
  destruct (books_height _ _ _ _ _ _ HB) as [Hh Hhe]. apply wp_bind, wp_asks.
  unfold request_exit_at. case_step; [by apply wp_ret|]. change (default 0 (option_map amount (Some b))) with (amount b) in Ham.
  destruct (Hob b eq_refl) as [(Hba & Hbd & Hbx & Hbc & Hbr) Hbe].
  eapply wp_bind, (wp_set_bond h 0 l id); [done|done| |].
  - split; [|intros d [= <-]; lia].
    split_and!; cbn [amount bonded_at_day exit_requested_at active_amount raised_at_height]; try done.
    + change (u64 day). pose proof DAY_MAX_small. unfold in_width. lia.
    + unfold amount_in_epoch, in_width in *. repeat case_step; lia.
  - cbn [amount]. rewrite Ham. intros l' HB' _. apply wp_ret. unfold balanced.
    replace (h + amount b - amount b) with h in HB' by lia.
    by replace (0 - amount b + amount b) with 0 in HB' by lia.
Qed.

(** ** Withdrawals *)

Lemma can_withdraw_reads b day : bond_ok b -> exists r, can_withdraw b day = Done r.
Proof.
  intros [_ Hx]. unfold can_withdraw. destruct (exit_requested_at b) as [d|]; [|by eauto].
  specialize (Hx d eq_refl). pose proof DAY_MAX_small. unfold panicking_add, checked_add, UNBONDING_DAYS.
  destruct (Z.ltb_spec (d + 21) (2 ^ 64)); [cbn; by eauto|lia].
Qed.

Lemma withdraw_ready_reads f g l id day :
  Books N f g l -> id ∈ U -> exists ob, withdraw_ready sha3_256 l id day = Done ob /\
    forall b, ob = Some b -> bond_ok b /\ bond_amount (leaf_at l (SBond id)) = amount b.
Proof.
  intros HB Hid. destruct (bond_read f g l id HB Hid) as (ob & Ho & Hob & Ham).
  unfold withdraw_ready. rewrite Ho. cbn [obind]. destruct ob as [b|]; [|by exists None].
  destruct (can_withdraw_reads b day (Hob b eq_refl)) as [r ->]. cbn [obind].
  eexists. split; [done|]. intros x Hx. destruct r; [|done]. injection Hx as <-. auto.
Qed.

Lemma payee_reads f g l id a :
  Books N f g l -> id ∈ U -> in_play U a ->
  exists to, payee_address sha3_256 l id a = Done to /\ in_play U to.
Proof using h_pos U_ids.
  intros HB Hid Ha. unfold payee_address. destruct (stake_payee sha3_256 l id) as [p|] eqn:Ep; [|by eauto].
  assert (length p = 32%nat /\ p ∈ U) as [Hl Hp].
  { unfold stake_payee in Ep. change (get_leaf l (stake_payee_key sha3_256 id)) with (leaf_at l (SPayee id)) in Ep.
    pose proof (books_leaf _ _ _ _ _ _ HB (SPayee id)) as Hok. cbn [leaf_ok] in Hok.
    destruct (leaf_at l (SPayee id)) as [bs|]; [|done]. case_in Ep; [|done]. bool_to_prop.
    injection Ep as <-. split; [done|]. apply Hok; [slot_in|done|done]. }
  destruct (render_address_Ok p Hl) as (text & Hr & Ht).
  unfold id_bytes_to_address. change KEY_LEN with 32%nat. rewrite Hl, Hr. cbn [Nat.eqb negb obind result_ok].
  exists text. split; [done|]. exists p. split; [by apply address_id_parse|done].
Qed.

(** The last step of a payout: the coins in flight go to an account in play. *)
Lemma wp_pay f l to amt {A} (k : M A) Q :
  Books N f 0 l -> in_play U to -> 0 <= amt <= f ->
  (forall l', Books N (f - amt) 0 l' -> wp k Q l') ->
  wp (a ← asks (fun l => account l to);
      set_account sha3_256 to (with_balance a (saturating_add 64 (acc_balance a) amt)) ;; k) Q l.
Proof using h_pos U_nodup U_apart.
  intros HB (id & Ha & Hid) Hamt HQ. apply wp_bind, wp_asks, wp_bind.
  eapply (wp_credit f 0 l to id); [done..|]. intros l1 HB1 _. by apply HQ.
Qed.

Lemma withdraw_stake_balanced l a day :
  balanced N l -> in_play U a -> wp (withdraw_stake sha3_256 a day) (fun _ => balanced N) l.
Proof using h_pos U_nodup U_apart U_ids.
  intros HB Hin. pose proof Hin as (id & Ha & Hid). unfold withdraw_stake. rewrite Ha.
  destruct (withdraw_ready_reads h 0 l id day HB Hid) as (ob & Ho & Hob).
  apply wp_bind. eapply wp_ask; [exact Ho|]. destruct ob as [b|]; [|by apply wp_ret].
  destruct (Hob b eq_refl) as [[(Hb & _) _] Ham].
  pose proof (bonds_bound _ _ _ U_nodup h 0 l [id] HB (NoDup_singleton _)) as Hbb.
  cbn [map] in Hbb. change (zsum [?x]) with (x + 0) in Hbb.
  specialize (Hbb ltac:(by intros ? ->%list_elem_of_singleton)). rewrite Ham in Hbb.
  eapply wp_bind, (wp_clear_bond h 0 l id); [done..|]. rewrite Ham. intros l1 HB1 F1.
  assert (E : leaf_at l1 STotal = leaf_at l STotal) by (eapply frame_at; [exact F1|slot_in|done]).
  eapply wp_bind, (wp_debit_staked (h + amount b) (0 - amount b) l1); [done|unfold in_width in *; rewrite E; lia|].
  replace (0 - amount b + amount b) with 0 by lia. intros l2 HB2 _.
  destruct (payee_reads _ _ l2 id a HB2 Hid Hin) as (to & Hto & Hplay).
  apply wp_bind. eapply wp_ask; [exact Hto|].
  eapply (wp_pay (h + amount b) l2 to); [done|done|unfold in_width in *; lia|].
  replace (h + amount b - amount b) with h by lia. intros l3 HB3.
  eapply wp_record_native; [exact HB3|]. intros l4 HB4.
  eapply wp_record_side; [exact HB4|]. intros l5 HB5. by apply wp_ret.
Qed.

(** Writes to slots without coins. *)
Lemma wp_write_plain f g l s v (Q : unit -> Ledger -> Prop) :
  Books N f g l -> s ∈ slots U -> leaf_ok U N s (Some v) ->
  (forall o, coin s o = 0) -> (forall o, stake_in s o = 0) ->
  (forall l', Books N f g l' -> frame (only s) l l' -> Q tt l') ->
  wp (write_leaf (sha3_256 (slot_preimage s)) v) Q l.
Proof using h_pos U_nodup U_apart.
  intros HB Hs Hok Hc Hst HQ. eapply (wp_write_slot _ U U_apart); [done|]. intros l' Hw. apply HQ.
  - pose proof (written_books _ _ _ U_nodup f g s _ l l' HB Hs Hw Hok) as HB'. rewrite !Hc, !Hst in HB'.
    by replace (f + 0 - 0) with f in HB' by lia; replace (g - 0 + 0) with g in HB' by lia.
  - eapply written_frame; [apply only_self|exact Hw].
Qed.

(** ** Rewards *)

Lemma owed_cons t ts : owed (t :: ts) = saturating_sub (tranche_amount t) (claimed t) + owed ts.
Proof. done. Qed.

Lemma owed_app xs ys : owed (xs ++ ys) = owed xs + owed ys.
Proof. induction xs as [|x xs IH]; [done|]. cbn [app]. rewrite !owed_cons, IH. lia. Qed.

(** One tranche a day, so a book never outgrows a slice. *)
Lemma days_bound ts :
  Forall RewardTranche_valid ts -> Forall (fun t => claimed t = 0 /\ earned_day t <= DAY_MAX) ts ->
  NoDup (map earned_day ts) -> len ts <= DAY_MAX + 1.
Proof.
  intros Hv Hd Hn. pose proof DAY_MAX_small as Hs.
  assert (E : map earned_day ts ⊆+ seqZ 0 (DAY_MAX + 1)).
  { apply NoDup_submseteq; [done|]. intros d Hin. apply list_elem_of_In, in_map_iff in Hin as (t & <- & Ht).
    apply list_elem_of_In in Ht. rewrite Forall_forall in Hv. rewrite Forall_forall in Hd.
    destruct (Hv t Ht) as ([? _] & _), (Hd t Ht) as [_ ?]. apply elem_of_seqZ. lia. }
  apply submseteq_length in E. rewrite length_map, length_seqZ in E. unfold len.
  assert (0 <= DAY_MAX) by (by vm_compute). lia.
Qed.

Lemma book_fits book : book_ok book -> fits_slice (to_bytes RewardBook_codec book).
Proof.
  destruct book as [ts anchor paid]. intros [(_ & Hv & _) [Hc Hn]]. cbn [tranches] in *.
  unfold fits_slice. rewrite len_RewardBook. pose proof (days_bound ts Hv Hc Hn) as Hd.
  pose proof DAY_MAX_small. unfold ISIZE_MAX. lia.
Qed.

Lemma rewards_of_encoded book : book_ok book -> rewards_of (Some (to_bytes RewardBook_codec book)) = book.
Proof.
  intros Hb. pose proof (book_fits book Hb) as Hf.
  assert (Hne : to_bytes RewardBook_codec book <> []).
  { intros E. destruct book as [ts an pa]. pose proof (len_RewardBook ts an pa) as Hl. rewrite E in Hl.
    pose proof (len_nonneg ts). change (len (@nil byte)) with 0 in Hl. lia. }
  unfold rewards_of. destruct (to_bytes RewardBook_codec book) as [|x bs] eqn:E; [done|].
  rewrite <- E in *. unfold decode_default. destruct Hb as [Hv _].
  by rewrite (from_bytes_encoded RewardBook_codec book Hv Hf).
Qed.

Lemma wp_set_rewards f g l id book (Q : unit -> Ledger -> Prop) :
  Books N f g l -> id ∈ U -> book_ok book ->
  (forall l', Books N (f + owed (tranches (stake_rewards sha3_256 l id)) - owed (tranches book)) g l' ->
     frame (only (SRewards id)) l l' -> Q tt l') ->
  wp (set_stake_rewards sha3_256 id book) Q l.
Proof using h_pos U_nodup U_apart.
  intros HB Hid Hb HQ. assert (Hs : SRewards id ∈ slots U) by slot_in.
  pose proof (rewards_of_encoded book Hb) as E.
  eapply (wp_write_slot _ U U_apart (SRewards id)); [done|]. intros l' Hw. apply HQ.
  - pose proof (written_books _ _ _ U_nodup f g (SRewards id) _ l l' HB Hs Hw) as HB'.
    cbn [coin stake_in leaf_ok] in HB'. rewrite E in HB'. replace (g - 0 + 0) with g in HB' by lia. auto.
  - eapply written_frame; [apply only_self|exact Hw].
Qed.

Lemma wp_clear_rewards f g l id (Q : unit -> Ledger -> Prop) :
  Books N f g l -> id ∈ U ->
  (forall l', Books N (f + owed (tranches (stake_rewards sha3_256 l id))) g l' -> Q tt l') ->
  wp (clear_stake_rewards sha3_256 id) Q l.
Proof using h_pos U_nodup U_apart.
  intros HB Hid HQ. assert (Hs : SRewards id ∈ slots U) by slot_in.
  eapply (wp_write_slot _ U U_apart (SRewards id)); [done|]. intros l' Hw. apply HQ.
  pose proof (written_books _ _ _ U_nodup f g (SRewards id) _ l l' HB Hs Hw) as HB'.
  cbn [coin stake_in leaf_ok] in HB'. change (rewards_of (Some [])) with RewardBook_default in HB'.
  change (owed (tranches RewardBook_default)) with 0 in HB'.
  replace (g - 0 + 0) with g in HB' by lia. rewrite Z.sub_0_r in HB'. apply HB'.
  split; [repeat split; done|]. split; [by apply Forall_nil|apply NoDup_nil_2].
Qed.

Lemma book_read f g l id : Books N f g l -> id ∈ U -> book_ok (stake_rewards sha3_256 l id).
Proof. intros HB Hid. apply (books_leaf _ _ _ _ _ _ HB (SRewards id)). slot_in. Qed.

Lemma owed_bound f g l id :
  Books N f g l -> id ∈ U -> owed (tranches (stake_rewards sha3_256 l id)) + f <= U64_MAX.
Proof using h_pos U_nodup.
  intros HB Hid. destruct (slot_bound f g l (SRewards id) HB) as [H1 H2]; [slot_in|done|]. cbn [coin] in H1.
  change (rewards_of (leaf_at l (SRewards id))) with (stake_rewards sha3_256 l id) in H1. lia.
Qed.

(** A claim pays what it takes off the book; what stays is unclaimed. *)
Lemma claim_loop_pays ts day acc :
  Forall (fun t => claimed t = 0) ts -> Forall RewardTranche_valid ts -> 0 <= acc ->
  acc + owed ts <= U64_MAX ->
  exists paid ts', claim_loop ts day acc = Done (paid, ts') /\ acc <= paid /\
    let kept := List.filter (fun t => claimed t <? tranche_amount t) ts' in
    paid + owed kept = acc + owed ts /\ kept `sublist_of` ts.
Proof.
  revert acc. induction ts as [|t ts IH]; intros acc Hc Hv Hacc Hle; cbn [claim_loop].
  - exists acc, []. cbn. split; [done|]. split; [lia|]. split; [lia|constructor].
  - apply Forall_cons in Hc as [Ht Hc], Hv as [(Hd & Ha & _) Hv]. rewrite owed_cons, Ht in *.
    set (v := released _ _). assert (v = 0 \/ v = tranche_amount t) as Hcase.
    { unfold v, released. case_step; auto. }
    pose proof (owed_nonneg ts) as Ho.
    assert (Ev : saturating_sub v 0 = v) by (unfold saturating_sub, in_width in *; lia).
    assert (Ea : saturating_sub (tranche_amount t) 0 = tranche_amount t)
      by (unfold saturating_sub, in_width in *; lia).
    rewrite Ev. rewrite Ea in *. unfold in_width, U64_MAX in *.
    unfold panicking_add, checked_add. destruct (Z.ltb_spec (acc + v) (2 ^ 64)); [|lia]. cbn [obind].
    destruct (IH (acc + v)) as (paid & ts' & Hl & Hp & Hsum & Hsub); [done|done|lia|lia|].
    rewrite Hl. cbn [obind]. eexists paid, _. split; [done|]. split; [lia|]. cbn [List.filter claimed tranche_amount].
    destruct (Z.ltb_spec v (tranche_amount t)) as [Hlt|Hge].
    + rewrite owed_cons. cbn [tranche_amount claimed]. assert (v = 0) as -> by lia. rewrite Ea.
      split; [lia|]. replace (mkTranche (earned_day t) (tranche_amount t) 0) with t; [by constructor|].
      destruct t. cbn in *. congruence.
    + split; [lia|]. by constructor.
Qed.

Lemma Forall_sub {A} (P : A -> Prop) (k l : list A) : k `sublist_of` l -> Forall P l -> Forall P k.
Proof. rewrite !Forall_forall. intros Hs Hl x Hx. eapply Hl, elem_of_sublist; eauto. Qed.

Lemma sublist_book ts ts' anchor paid :
  ts' `sublist_of` ts -> book_ok (mkBook ts anchor paid) -> book_ok (mkBook ts' anchor paid).
Proof.
  intros Hs [(Hl & Hv & Ha & Hp) [Hc Hn]]. cbn [tranches period_anchor paid_in_period] in *.
  split; [|split]; cbn [tranches].
  - split_and!; cbn [tranches period_anchor paid_in_period]; try done.
    + apply sublist_length in Hs. unfold in_width, len in *. lia.
    + by eapply Forall_sub.
  - by eapply Forall_sub.
  - eapply sublist_NoDup; [exact Hn|]. by apply (fmap_sublist earned_day).
Qed.

(** A claim never panics and leaves the books as they were. *)
Lemma wp_claim_reward l a day (Q : Z -> Ledger -> Prop) :
  balanced N l -> in_play U a -> (forall v l', balanced N l' -> Q v l') ->
  wp (claim_reward sha3_256 a day) Q l.
Proof using h_pos U_nodup U_apart.
  intros HB Hin HQ. pose proof Hin as (id & Ha & Hid). unfold claim_reward. rewrite Ha.
  apply wp_bind, wp_asks. case_step; [by apply wp_ret, HQ|]. apply wp_bind, wp_asks.
  pose proof (book_read h 0 l id HB Hid) as Hb. pose proof (owed_bound h 0 l id HB Hid) as How.
  destruct (stake_rewards sha3_256 l id) as [ts anchor paid] eqn:Ebook.
  cbn [tranches period_anchor paid_in_period] in *.
  destruct (claim_loop_pays ts day 0) as (credited & ts' & Hl & Hc & Hsum & Hsub); [|apply Hb|lia|lia|].
  { destruct Hb as [_ [Hc _]]. eapply Forall_impl; [exact Hc|]. by intros t [? _]. }
  apply wp_bind. eapply wp_lift; [exact Hl|]. cbn beta iota.
  destruct (Z.eqb_spec credited 0); [by apply wp_ret, HQ|].
  eapply wp_bind, (wp_set_rewards h 0 l id); [done|done|by eapply sublist_book|].
  rewrite Ebook. cbn [tranches]. intros l1 HB1 _.
  match type of HB1 with Books N ?x _ _ => replace x with (h + credited) in HB1 by lia end.
  eapply (wp_pay (h + credited) l1 a); [done|done|lia|]. replace (h + credited - credited) with h by lia. intros l2 HB2.
  eapply wp_record_side; [exact HB2|]. intros l3 HB3. by apply wp_ret, HQ.
Qed.

Definition fund_slot (s : Slot) : bool := match s with SPool | SSupply => true | _ => false end.

(** A reward comes out of the pool as far as it goes and is minted for the rest. *)
Lemma wp_fund_reward f l paid (Q : unit -> Ledger -> Prop) :
  Books N f 0 l -> 0 <= paid -> leaf_u64 (leaf_at l SSupply) + paid <= U64_MAX ->
  (forall l', Books N (f + paid) 0 l' -> frame fund_slot l l' ->
     leaf_u64 (leaf_at l' SSupply) <= leaf_u64 (leaf_at l SSupply) + paid -> Q tt l') ->
  wp (fund_reward sha3_256 paid) Q l.
Proof using h_pos U_nodup U_apart.
  intros HB Hp Hroom HQ. unfold fund_reward. pose proof (leaf_u64_range (leaf_at l SPool)) as Hr.
  apply wp_bind. eapply wp_ask; [by apply (single_read (N:=N) f 0 l SPool)|]. cbv zeta.
  set (pool := leaf_u64 (leaf_at l SPool)) in *. set (fp := Z.min paid pool). apply wp_bind.
  assert (H1 : forall Q' : unit -> Ledger -> Prop,
    (forall l', Books N (f + fp) 0 l' -> frame (only SPool) l l' -> Q' tt l') ->
    wp (when (0 <? fp) (pool0 ← ask (stake_pool sha3_256); set_stake_pool sha3_256 (pool0 - fp))) Q' l).
  { intros Q' H'. apply wp_when; intros Hfp; bool_to_prop.
    - apply wp_bind. eapply wp_ask; [by apply (single_read (N:=N) f 0 l SPool)|]. fold pool.
      unfold in_width in *.
      eapply (wp_set_single f 0 l SPool); [done|done|unfold in_width; lia|].
      cbn [coin stake_in]. rewrite leaf_u64_encoded by (unfold in_width; lia). fold pool.
      intros l' HB' Hfr _. apply H'; [|done].
      replace (f + fp) with (f + pool - (pool - fp)) by lia. by replace (0 - 0 + 0) with 0 in HB' by lia.
    - apply H'; [|apply frame_refl]. unfold in_width in *. replace (f + fp) with f by lia. done. }
  apply H1. intros l1 HB1 F1.
  assert (E : leaf_at l1 SSupply = leaf_at l SSupply) by (eapply frame_at; [exact F1|slot_in|done]).
  assert (F1' : frame fund_slot l l1).
  { eapply frame_mono; [|exact F1]. intros s Hs. apply bool_decide_eq_true in Hs. by subst. }
  apply wp_when; intros Hfp; bool_to_prop.
  - eapply (wp_credit_supply (f + fp) 0 l1); [done|lia|unfold in_width in *; rewrite E; lia|].
    intros l2 HB2 F2 Hs. apply HQ.
    + by replace (f + paid) with (f + fp + (paid - fp)) by lia.
    + eapply frame_trans; [exact F1'|]. eapply frame_mono; [|exact F2]. intros s Hs'.
      apply bool_decide_eq_true in Hs'. by subst.
    + rewrite Hs, E. unfold in_width in *. lia.
  - apply HQ; [|exact F1'|rewrite E; lia]. replace (f + paid) with (f + fp) by (unfold in_width in *; lia). done.
Qed.

Definition REWARD_MAX : Z := 33333333.

Lemma validator_reward_range b : 0 <= b -> 0 <= validator_reward b <= REWARD_MAX.
Proof.
  intros Hb. destruct (validator_reward_monotone 0 b) as [H1 H2]; [lia|].
  change (validator_reward 0) with 0 in H1. done.
Qed.

(** A book with one more tranche, of a day it has none of. *)
Lemma add_tranche_ok ts day amt an pa an' pa' :
  book_ok (mkBook ts an pa) -> existsb (fun t => earned_day t =? day) ts = false ->
  0 <= day <= DAY_MAX -> u64 amt -> u64 an' -> u64 pa' ->
  book_ok (mkBook (ts ++ [mkTranche day amt 0]) an' pa').
Proof.
  intros Hb Hday Hd Ha Han Hpa. pose proof DAY_MAX_small as Hs.
  destruct Hb as [(Hl & Hv & _ & _) [Hc Hn]]. cbn [tranches] in *.
  pose proof (days_bound ts Hv Hc Hn) as Hlen. split; [|split]; cbn [tranches].
  - split_and!; cbn [tranches period_anchor paid_in_period]; try done.
    + unfold in_width, len in *. rewrite length_app. cbn [length]. lia.
    + apply Forall_app. split; [done|]. apply Forall_singleton.
      split_and!; cbn; try done; unfold in_width; lia.
  - apply Forall_app. split; [done|]. apply Forall_singleton. cbn. lia.
  - rewrite map_app. apply NoDup_app. split; [done|]. split; [|apply NoDup_singleton].
    intros d Hin ->%list_elem_of_singleton. apply list_elem_of_In, in_map_iff in Hin as (t & He & Ht).
    assert (existsb (fun t => earned_day t =? day) ts = true) as X; [|congruence].
    apply existsb_exists. exists t. split; [done|]. by apply Z.eqb_eq.
Qed.

Lemma anchored_ok book b :
  book_ok book -> u64 (raised_at_height b) ->
  book_ok (anchored book b) /\ tranches (anchored book b) = tranches book.
Proof.
  intros Hb Hr. unfold anchored. cbv zeta. case_step; [done|]. split; [|done].
  destruct book as [ts an pa], Hb as [(Hl & Hv & Ha & Hp) Hc]. cbn [tranches period_anchor paid_in_period] in *.
  split; [|done]. split_and!; cbn [tranches period_anchor paid_in_period]; try done.
  unfold in_width in *. lia.
Qed.

Definition accrual_slot (s : Slot) : bool :=
  match s with SPool | SSupply | SRewards _ => true | _ => false end.

Lemma only_rewards_accrual id l l' : frame (only (SRewards id)) l l' -> frame accrual_slot l l'.
Proof. apply frame_mono. intros s H. apply bool_decide_eq_true in H. by subst. Qed.
Lemma fund_accrual l l' : frame fund_slot l l' -> frame accrual_slot l l'.
Proof. apply frame_mono. by intros []. Qed.

Lemma mainnet_reads f g l : Books N f g l -> exists v, stake_mainnet_start sha3_256 l = Done v.
Proof. intros HB. destruct (books_leaf _ _ _ _ _ _ HB SMainnet) as (v & Hv & _); [slot_in|]. by exists v. Qed.

Lemma id_address_reads id : id ∈ U -> exists a, id_bytes_to_address id = Done (Some a).
Proof using h_pos U_ids.
  intros Hid. assert (Hl : length id = 32%nat) by (by eapply Forall_forall in U_ids).
  destruct (render_address_Ok id Hl) as (text & Hr & _). exists text.
  unfold id_bytes_to_address. change KEY_LEN with 32%nat. rewrite Hl, Hr. done.
Qed.

Definition supply_of (l : Ledger) : Z := leaf_u64 (leaf_at l SSupply).

(** The state an accrual leaves. *)
Definition accrued (l l' : Ledger) : Prop :=
  balanced N l' /\ supply_of l' <= supply_of l + REWARD_MAX /\ frame accrual_slot l l'.

Lemma accrued_same l : balanced N l -> accrued l l.
Proof. intros HB. split; [done|]. split; [unfold REWARD_MAX; lia|apply frame_refl]. Qed.

Lemma accrued_events l l1 l2 :
  accrued l l1 -> leaves l2 = leaves l1 -> round_proposer l2 = round_proposer l1 ->
  execution_height l2 = execution_height l1 -> heights_per_epoch l2 = heights_per_epoch l1 -> accrued l l2.
Proof.
  intros (HB & Hs & Hf & ? & ? & ?) El Ep Eh Ee.
  assert (E : forall s, leaf_at l2 s = leaf_at l1 s).
  { intros s. unfold LedgerCoins.leaf_at, get_leaf. by rewrite El. }
  split; [by eapply books_events|]. unfold supply_of. rewrite E. split; [done|].
  split; [intros s; rewrite E; auto|split_and!; congruence].
Qed.

(** The last part of an accrual: the reward is funded, booked and reported. *)
Lemma wp_book_reward l id paid book :
  balanced N l -> id ∈ U -> 0 <= paid <= REWARD_MAX -> supply_of l + REWARD_MAX <= U64_MAX ->
  book_ok book -> owed (tranches book) = owed (tranches (stake_rewards sha3_256 l id)) + paid ->
  wp (fund_reward sha3_256 paid;;
      set_stake_rewards sha3_256 id book;;
      address ← lift (id_bytes_to_address id);
      match address with
      | Some address => record_reward_event address paid;; record_side_event (Side.Reward address paid)
      | None => mret tt
      end;;
      mret paid) (fun _ => accrued l) l.
Proof using h_pos U_nodup U_apart U_ids.
  intros HB Hid Hp Hroom Hb How. unfold supply_of in Hroom.
  eapply wp_bind, (wp_fund_reward h l); [done|lia|lia|]. intros l1 HB1 F1 Hs1.
  assert (E : leaf_at l1 (SRewards id) = leaf_at l (SRewards id)) by (eapply frame_at; [exact F1|slot_in|done]).
  assert (Er : stake_rewards sha3_256 l1 id = stake_rewards sha3_256 l id).
  { change (rewards_of (leaf_at l1 (SRewards id)) = rewards_of (leaf_at l (SRewards id))). by rewrite E. }
  eapply wp_bind, (wp_set_rewards (h + paid) 0 l1 id); [done..|]. rewrite Er, How. intros l2 HB2 F2.
  match type of HB2 with LedgerCoins.Books _ _ _ ?x _ _ => replace x with h in HB2 by lia end.
  assert (E2 : leaf_at l2 SSupply = leaf_at l1 SSupply) by (eapply frame_at; [exact F2|slot_in|done]).
  assert (A2 : accrued l l2).
  { split; [done|]. split; [unfold supply_of; rewrite E2; lia|].
    eapply frame_trans; [by apply fund_accrual|by eapply only_rewards_accrual]. }
  destruct (id_address_reads id Hid) as [a Ha]. apply wp_bind. eapply wp_lift; [exact Ha|].
  apply wp_bind, wp_bind, wp_native. intros l3 R3 P3 H3 G3. apply wp_side. intros l4 R4 P4 H4 G4.
  apply wp_ret, (accrued_events l l2); congruence.
Qed.

Lemma saturating_sub_u64 a b : u64 a -> 0 <= b -> 0 <= saturating_sub a b <= a.
Proof. unfold saturating_sub, in_width. lia. Qed.

Lemma wp_accrue l id day :
  balanced N l -> id ∈ U -> 0 <= day <= DAY_MAX -> supply_of l + REWARD_MAX <= U64_MAX ->
  wp (accrue_reward_by_id sha3_256 id day) (fun _ => accrued l) l.
Proof using h_pos U_nodup U_apart U_ids.
  intros HB Hid Hday Hroom. pose proof (accrued_same l HB) as Hsame. unfold accrue_reward_by_id.
  destruct (mainnet_reads h 0 l HB) as [start Hst].
  apply wp_bind. eapply wp_ask; [exact Hst|]. case_step; [by apply wp_ret|].
  apply wp_bind, wp_asks. case_step; [by apply wp_ret|].
  destruct (bond_read h 0 l id HB Hid) as (ob & Ho & Hob & _).
  apply wp_bind. eapply wp_ask; [exact Ho|]. destruct ob as [b|]; [|by apply wp_ret].
  destruct (Hob b eq_refl) as [(_ & _ & _ & _ & Hraised) _].
  apply wp_bind, wp_asks. case_step; [by apply wp_ret|]. apply wp_bind, wp_asks.
  destruct (existsb _ _) eqn:Ee; [by apply wp_ret|]. apply wp_bind, wp_asks. cbv zeta.
  destruct (books_height _ _ _ _ _ _ HB) as [Hh _].
  pose proof (book_read h 0 l id HB Hid) as Hb0.
  destruct (anchored_ok _ b Hb0 Hraised) as [Hb Et]. set (book := anchored _ b) in *.
  assert (Hva : u64 (period_anchor book) /\ u64 (paid_in_period book)).
  { destruct Hb as [(_ & _ & ? & ?) _]. done. }
  destruct Hva as [Ha Hpaid].
  destruct (saturating_sub_u64 (execution_height l) (period_anchor book)) as [Hbl _];
    [done|by unfold in_width in *; lia|].
  pose proof (validator_reward_range _ Hbl) as Hrw.
  set (paid := saturating_sub (validator_reward _) (paid_in_period book)) in *.
  assert (Hp : 0 <= paid <= REWARD_MAX) by (unfold paid, saturating_sub, in_width in *; lia).
  destruct (Z.eqb_spec paid 0) as [Hz|Hz].
  - eapply wp_bind, (wp_set_rewards h 0 l id); [done..|]. rewrite Et. intros l1 HB1 F1. apply wp_ret.
    match type of HB1 with LedgerCoins.Books _ _ _ ?x _ _ => replace x with h in HB1 by lia end.
    assert (E : leaf_at l1 SSupply = leaf_at l SSupply) by (eapply frame_at; [exact F1|slot_in|done]).
    split; [done|]. split; [|by eapply only_rewards_accrual]. unfold supply_of. rewrite E.
    unfold REWARD_MAX. lia.
  - assert (Hbook : forall an pa, u64 an -> u64 pa ->
      book_ok (mkBook (tranches book ++ [mkTranche day paid 0]) an pa)).
    { intros an pa Han Hpa. destruct book as [ts an0 pa0]. cbn [tranches] in *. eapply add_tranche_ok; eauto.
      - by rewrite Et.
      - unfold in_width, REWARD_MAX in *. lia. }
    apply wp_book_reward; [done..| |].
    + case_step; apply Hbook; try done. unfold saturating_add, in_width, U64_MAX in *. lia.
    + case_step; cbn [tranches]; rewrite owed_app, Et; cbn [owed foldr map tranche_amount claimed];
        unfold owed; cbn; unfold saturating_sub; lia.
Qed.

(** ** Sessions *)

Lemma meter_fits m : fits_slice (to_bytes SessionMeter_codec m).
Proof.
  unfold fits_slice, SessionMeter_codec, SessionMeter_encode, len. codec_image.
  change (to_bytes u64_codec ?z) with (to_le 8 z). by rewrite !length_app, !length_to_le.
Qed.

Lemma wp_record_session l n day (Q : option Session -> Ledger -> Prop) :
  balanced N l -> u64 day -> 0 <= n ->
  (forall r l', balanced N l' -> frame (only SMeter) l l' -> Q r l') -> wp (record_session sha3_256 n day) Q l.
Proof using h_pos U_nodup U_apart.
  intros HB Hd Hn HQ. unfold record_session.
  destruct (books_leaf _ _ _ _ _ _ HB SMeter) as (m & Hm & Hw & Hc); [slot_in|].
  apply wp_bind. eapply wp_ask; [exact Hm|]. cbv zeta.
  destruct (SessionMeter_close _ day) as [closed m'] eqn:Ec.
  assert (Hv : u64 (window_start_day m') /\ u64 (count m')).
  { unfold SessionMeter_close, SessionMeter_record in Ec. case_in Ec; injection Ec as <- <-;
      cbn [window_start_day count]; (split; [done|]); [done|].
    unfold saturating_add, in_width in *. lia. }
  eapply wp_bind, (wp_write_plain h 0 l SMeter); [done|slot_in| |done|done|].
  - exists m'. split; [|done]. apply (expect_decoded_encoded SessionMeter_codec m' Hv (meter_fits m')).
  - intros l1 HB1 F1. by apply wp_ret, HQ.
Qed.

Lemma sum_u64_total xs acc :
  Forall (fun x => 0 <= x) xs -> 0 <= acc -> acc + zsum xs <= U64_MAX -> sum_u64 xs acc = Done (acc + zsum xs).
Proof.
  intros H. revert acc. induction H as [|x xs Hx Hxs IH]; intros acc Ha Hle; cbn [sum_u64].
  - f_equal. change (zsum []) with 0. lia.
  - change (zsum (x :: xs)) with (x + zsum xs) in *. pose proof (zsum_nonneg xs Hxs).
    unfold panicking_add, checked_add, U64_MAX in *.
    destruct (Z.ltb_spec (acc + x) (2 ^ 64)); [|lia]. cbn [obind]. rewrite IH by lia. f_equal. lia.
Qed.

Lemma weights_reads l ids :
  balanced N l -> (forall id, id ∈ ids -> id ∈ U) ->
  exists ws, weights_of sha3_256 l ids = Done ws /\ Forall (fun x => 0 <= x) ws /\
    zsum ws <= zsum (map (fun id => bond_amount (leaf_at l (SBond id))) ids).
Proof.
  intros HB. induction ids as [|id ids IH]; intros Hin; [by exists []|].
  destruct IH as (ws & Hws & Hpos & Hle). { intros x Hx. apply Hin. by right. }
  cbn [weights_of map]. rewrite Hws. change (zsum (?x :: ?xs)) with (x + zsum xs).
  destruct (bond_read h 0 l id HB) as (ob & -> & Hob & Ham); [apply Hin; by left|].
  pose proof (bond_amount_range (leaf_at l (SBond id))) as [Hb _]. rewrite Ham in *.
  destruct (barred sha3_256 l id); [exists ws; cbn [obind app]; split; [done|split; [done|lia]]|].
  cbn [obind]. destruct ob as [b|]; [|exists ws; cbn; split; [done|split; [done|lia]]].
  cbn in Hb. destruct (Hob b eq_refl) as [(_ & _ & _ & Hac & _) _].
  eexists. split; [done|]. cbn [app]. change (default 0 (option_map amount (Some b))) with (amount b) in *.
  pose proof (weight_in_epoch_le b (current_epoch l) (heights_per_epoch l) Hb).
  split; [constructor; [|done]|unfold zsum in *; cbn [foldr]; cbn; lia].
  unfold weight_in_epoch, amount_in_epoch, in_width in *. repeat case_step; lia.
Qed.

Lemma denominator_reads l : balanced N l -> exists v, roster_reward_denominator sha3_256 l = Done v.
Proof using h_pos U_nodup.
  intros HB. unfold roster_reward_denominator.
  destruct (books_leaf _ _ _ _ _ _ HB SValidators) as [Hn Hin]; [slot_in|].
  change (ids_of (leaf_at l SValidators)) with (validator_ids sha3_256 l) in *.
  destruct (weights_reads l _ HB Hin) as (ws & -> & Hpos & Hle). cbn [obind].
  pose proof (bonds_bound _ _ _ U_nodup h 0 l _ HB Hn Hin) as Hb.
  pose proof (staked_bound _ _ _ U_nodup h 0 l HB). pose proof (supply_covers h 0 l HB).
  rewrite sum_u64_total; [by eauto|done|lia|lia].
Qed.

Lemma wp_accrue_all ids l day :
  balanced N l -> (forall id, id ∈ ids -> id ∈ U) -> 0 <= day <= DAY_MAX ->
  supply_of l + len ids * REWARD_MAX <= U64_MAX ->
  wp (for_each ids (fun id => accrue_reward_by_id sha3_256 id day ;; mret tt)) (fun _ => balanced N) l.
Proof using h_pos U_nodup U_apart U_ids.
  revert l. induction ids as [|id ids IH]; intros l HB Hin Hday Hroom; cbn [for_each]; [by apply wp_ret|].
  assert (E : len (id :: ids) = 1 + len ids) by (unfold len; cbn [length]; lia). rewrite E in Hroom.
  pose proof (len_nonneg ids). unfold REWARD_MAX in *.
  apply wp_bind, wp_bind. eapply wp_mono; [|apply wp_accrue; [done|apply Hin; by left|done|unfold REWARD_MAX; lia]].
  intros v l1 (HB1 & Hs1 & _). apply wp_ret. unfold REWARD_MAX in Hs1. apply IH; [done| |done|lia].
  intros x Hx. apply Hin. by right.
Qed.

Lemma settle_session_balanced l day n :
  balanced N l -> 0 <= day <= DAY_MAX -> 0 <= n ->
  supply_of l + len (validator_ids sha3_256 l) * REWARD_MAX <= U64_MAX ->
  wp (settle_session sha3_256 day n) (fun _ => balanced N) l.
Proof using h_pos U_nodup U_apart U_ids.
  intros HB Hday Hn Hroom. unfold settle_session. destruct (mainnet_reads h 0 l HB) as [start Hst].
  apply wp_bind. eapply wp_ask; [exact Hst|]. case_step; [by apply wp_ret|].
  pose proof DAY_MAX_small. apply wp_bind, wp_record_session; [done|unfold in_width; lia|done|].
  intros r l1 HB1 F1. destruct r; [|by apply wp_ret].
  assert (E1 : leaf_at l1 SSupply = leaf_at l SSupply) by (eapply frame_at; [exact F1|slot_in|done]).
  assert (E2 : leaf_at l1 SValidators = leaf_at l SValidators) by (eapply frame_at; [exact F1|slot_in|done]).
  destruct (denominator_reads l1 HB1) as [v Hv]. apply wp_bind. eapply wp_ask; [exact Hv|].
  apply wp_bind, wp_asks.
  change (validator_ids sha3_256 l1) with (ids_of (leaf_at l1 SValidators)). rewrite E2.
  destruct (books_leaf _ _ _ _ _ _ HB SValidators) as [_ Hin]; [slot_in|].
  apply wp_accrue_all; [done|done|done|]. unfold supply_of in *. by rewrite E1.
Qed.

(** ** Slashing *)

Lemma outstanding_reads f g l id :
  Books N f g l -> id ∈ U -> 0 <= f ->
  stake_rewards_outstanding sha3_256 l id = Done (owed (tranches (stake_rewards sha3_256 l id))).
Proof using h_pos U_nodup.
  intros HB Hid Hf. pose proof (owed_bound f g l id HB Hid) as Hb.
  assert (E : forall ts, zsum (map (fun t => saturating_sub (tranche_amount t) (claimed t)) ts) = owed ts).
  { intros ts. unfold owed, zsum. induction ts as [|t ts IH]; [done|]. cbn [map foldr]. by rewrite IH. }
  unfold stake_rewards_outstanding, outstanding.
  rewrite sum_u64_total; [by rewrite E|..|lia|rewrite E; lia].
  apply Forall_forall. intros x (t & -> & _)%list_elem_of_fmap. unfold saturating_sub. lia.
Qed.

Lemma wp_set_banned f g l id (Q : unit -> Ledger -> Prop) :
  Books N f g l -> id ∈ U -> (forall l', Books N f g l' -> frame (only (SBanned id)) l l' -> Q tt l') ->
  wp (set_stake_banned sha3_256 id) Q l.
Proof using h_pos U_nodup U_apart. intros HB Hid HQ. eapply (wp_write_plain f g l (SBanned id)); try done. slot_in. Qed.

(** A bond is part of the staked total, which is part of the supply. *)
Lemma bond_covered l id :
  balanced N l -> id ∈ U ->
  0 <= bond_amount (leaf_at l (SBond id)) <= leaf_u64 (leaf_at l STotal) /\
  leaf_u64 (leaf_at l STotal) <= supply_of l.
Proof using h_pos U_nodup.
  intros HB Hid. pose proof (bond_amount_range (leaf_at l (SBond id))) as [? _].
  pose proof (bonds_bound _ _ _ U_nodup h 0 l [id] HB (NoDup_singleton _)) as Hb.
  specialize (Hb ltac:(by intros ? ->%list_elem_of_singleton)).
  cbn [map] in Hb. change (zsum [?x]) with (x + 0) in Hb.
  pose proof (staked_bound _ _ _ U_nodup h 0 l HB). unfold supply_of. lia.
Qed.

(** What a burned validator leaves: the rewards on the book are burned too. *)
Lemma wp_burn_rewards l id (Q : bool -> Ledger -> Prop) :
  balanced N l -> id ∈ U -> (forall l', balanced N l' -> Q true l') ->
  wp (forfeited ← ask (fun l => stake_rewards_outstanding sha3_256 l id);
      when (0 <? forfeited) (debit_supply sha3_256 forfeited);;
      clear_stake_rewards sha3_256 id;; mret true) Q l.
Proof using h_pos U_nodup U_apart.
  intros HB Hid HQ. apply wp_bind. eapply wp_ask; [eapply outstanding_reads; [exact HB|done|lia]|].
  set (o := owed _). assert (Ho : 0 <= o) by apply owed_nonneg.
  destruct (slot_bound h 0 l (SRewards id) HB) as [Hle _]; [slot_in|done|].
  change (coin (SRewards id) (leaf_at l (SRewards id))) with o in Hle. apply wp_bind.
  assert (H : forall Q' : unit -> Ledger -> Prop,
    (forall l', Books N (h - o) 0 l' -> leaf_at l' (SRewards id) = leaf_at l (SRewards id) -> Q' tt l') ->
    wp (when (0 <? o) (debit_supply sha3_256 o)) Q' l).
  { intros Q' H'. apply wp_when; intros Hb; bool_to_prop.
    - eapply (wp_debit_supply h 0 l); [done|lia|]. intros l' HB' F'. apply H'; [done|].
      eapply frame_at; [exact F'|slot_in|done].
    - apply H'; [|done]. by replace (h - o) with h by lia. }
  apply H. intros l1 HB1 E1. eapply wp_bind, (wp_clear_rewards (h - o) 0 l1); [done|done|].
  change (stake_rewards sha3_256 l1 id) with (rewards_of (leaf_at l1 (SRewards id))). rewrite E1.
  change (owed (tranches (rewards_of (leaf_at l (SRewards id))))) with o.
  replace (h - o + o) with h by lia. intros l2 HB2. by apply wp_ret, HQ.
Qed.

Lemma slash_validator_balanced l a :
  balanced N l -> in_play U a -> wp (slash_validator sha3_256 a) (fun _ => balanced N) l.
Proof using h_pos U_nodup U_apart.
  intros HB (id & Ha & Hid). unfold slash_validator. rewrite Ha.
  apply wp_bind, wp_asks. case_step; [by apply wp_ret|].
  eapply wp_bind, (wp_set_banned h 0 l id); [done..|]. intros l1 HB1 _.
  destruct (bond_read h 0 l1 id HB1 Hid) as (ob & Ho & _ & Ham).
  apply wp_bind. eapply wp_ask; [exact Ho|]. apply wp_bind.
  destruct ob as [b|]; [|apply wp_ret; by apply wp_burn_rewards].
  change (default 0 (option_map amount (Some b))) with (amount b) in Ham.
  destruct (bond_covered l1 id HB1 Hid) as [Hb Ht]. rewrite Ham in Hb. unfold supply_of in Ht.
  eapply wp_bind, (wp_debit_supply h 0 l1); [done|lia|]. intros l2 HB2 F2.
  assert (E2 : leaf_at l2 STotal = leaf_at l1 STotal) by (eapply frame_at; [exact F2|slot_in|done]).
  assert (E2b : leaf_at l2 (SBond id) = leaf_at l1 (SBond id)) by (eapply frame_at; [exact F2|slot_in|done]).
  eapply wp_bind, (wp_debit_staked (h - amount b) 0 l2); [done|rewrite E2; lia|]. intros l3 HB3 F3.
  assert (E3 : leaf_at l3 (SBond id) = leaf_at l2 (SBond id)) by (eapply frame_at; [exact F3|slot_in|done]).
  eapply wp_bind, (wp_clear_bond (h - amount b) (0 + amount b) l3 id); [done|done|].
  rewrite E3, E2b, Ham. replace (h - amount b + amount b) with h by lia.
  replace (0 + amount b - amount b) with 0 by lia. intros l4 HB4 _.
  eapply wp_record_native; [exact HB4|]. intros l5 HB5. apply wp_side. intros.
  apply wp_burn_rewards; [by eapply books_events|done|done].
Qed.

(** Coins moved into the treasury out of another slot. *)
Lemma wp_to_treasury f g l s amt (Q : unit -> Ledger -> Prop) :
  Books N f g l -> s ∈ slots U -> s <> SSupply -> s <> STreasury -> 0 <= f ->
  0 <= amt <= coin s (leaf_at l s) ->
  (forall l', Books N (f - amt) g l' -> frame (only STreasury) l l' -> Q tt l') ->
  wp (set_stake_treasury sha3_256 (saturating_add 64 (leaf_u64 (leaf_at l STreasury)) amt)) Q l.
Proof using h_pos U_nodup U_apart.
  intros HB Hs H1 H2 Hf Hamt HQ.
  destruct (coins_bound _ _ _ U_nodup f g l [STreasury; s] HB) as [Hsum Hmax].
  { apply NoDup_cons. split; [by intros ?%list_elem_of_singleton|apply NoDup_singleton]. }
  { intros t [->|E%list_elem_of_singleton]%elem_of_cons; [slot_in|by subst]. }
  { intros [E|E%list_elem_of_singleton]%elem_of_cons; congruence. }
  cbn [map] in Hsum. change (zsum [?x; ?y]) with (x + (y + 0)) in Hsum. cbn [coin] in Hsum.
  pose proof (leaf_u64_range (leaf_at l STreasury)) as [Hr _].
  rewrite saturating_add_room by lia.
  assert (Hu : u64 (leaf_u64 (leaf_at l STreasury) + amt)) by (unfold in_width, U64_MAX in *; lia).
  eapply (wp_set_single f g l STreasury); [done|done|done|]. cbn [coin stake_in].
  rewrite leaf_u64_encoded by done. intros l' HB' F' _. apply HQ; [|done].
  replace (g - 0 + 0) with g in HB' by lia.
  by match type of HB' with LedgerCoins.Books _ _ _ ?x _ _ => replace x with (f - amt) in HB' by lia end.
Qed.

(** The rewards on the book of a slashed validator go to the treasury. *)
Lemma wp_forfeit_rewards l id taken :
  balanced N l -> id ∈ U ->
  wp (forfeited ← ask (fun l => stake_rewards_outstanding sha3_256 l id);
      when (0 <? forfeited) (
        treasury ← ask (stake_treasury sha3_256);
        set_stake_treasury sha3_256 (saturating_add 64 treasury forfeited));;
      clear_stake_rewards sha3_256 id;; mret taken) (fun (_ : Z) => balanced N) l.
Proof using h_pos U_nodup U_apart.
  intros HB Hid. apply wp_bind. eapply wp_ask; [eapply outstanding_reads; [exact HB|done|lia]|].
  set (o := owed _). assert (Ho : 0 <= o) by apply owed_nonneg. apply wp_bind.
  assert (Hend : forall l', Books N (h - o) 0 l' -> leaf_at l' (SRewards id) = leaf_at l (SRewards id) ->
    wp (clear_stake_rewards sha3_256 id;; mret taken) (fun (_ : Z) => balanced N) l').
  { intros l1 HB1 E1. eapply wp_bind, (wp_clear_rewards (h - o) 0 l1); [done|done|].
    change (stake_rewards sha3_256 l1 id) with (rewards_of (leaf_at l1 (SRewards id))). rewrite E1.
    change (owed (tranches (rewards_of (leaf_at l (SRewards id))))) with o.
    replace (h - o + o) with h by lia. intros l2 HB2. by apply wp_ret. }
  apply wp_when; intros Hb; bool_to_prop; [|apply Hend; [by replace (h - o) with h by lia|done]].
  apply wp_bind. eapply wp_ask; [by apply (single_read (N:=N) h 0 l STreasury)|].
  eapply (wp_to_treasury h 0 l (SRewards id)); [done|slot_in|done|done|lia| |].
  - change (coin (SRewards id) (leaf_at l (SRewards id))) with o. lia.
  - intros l1 HB1 F1. apply Hend; [done|]. eapply frame_at; [exact F1|slot_in|done].
Qed.

Lemma slash_stake_balanced l a fault :
  balanced N l -> in_play U a -> wp (slash_stake sha3_256 a fault) (fun _ => balanced N) l.
Proof using h_pos U_nodup U_apart.
  intros HB (id & Ha & Hid). unfold slash_stake. rewrite Ha.
  destruct (bond_read h 0 l id HB Hid) as (ob & Ho & Hob & Ham).
  apply wp_bind. eapply wp_ask; [exact Ho|]. destruct ob as [b|]; [|by apply wp_ret].
  change (default 0 (option_map amount (Some b))) with (amount b) in Ham.
  destruct (bond_covered l id HB Hid) as [Hb Ht]. rewrite Ham in Hb.
  destruct (Hob b eq_refl) as [(Hbu & _) _]. cbv zeta.
  rewrite (slash_whole (amount b) fault Hbu), Z.min_id, Z.sub_diag.
  change (0 <? 0) with false.
  apply wp_bind. eapply wp_ask; [by apply (single_read (N:=N) h 0 l STreasury)|].
  eapply wp_bind, (wp_to_treasury h 0 l (SBond id)); [done|slot_in|done|done|lia|cbn [coin]; lia|]. intros l1 HB1 F1.
  assert (E1 : leaf_at l1 STotal = leaf_at l STotal) by (eapply frame_at; [exact F1|slot_in|done]).
  assert (E1b : leaf_at l1 (SBond id) = leaf_at l (SBond id)) by (eapply frame_at; [exact F1|slot_in|done]).
  eapply wp_bind, (wp_debit_staked (h - amount b) 0 l1); [done|rewrite E1; lia|]. intros l2 HB2 F2.
  assert (E2 : leaf_at l2 (SBond id) = leaf_at l1 (SBond id)) by (eapply frame_at; [exact F2|slot_in|done]).
  apply wp_bind, wp_ret. apply wp_bind.
  assert (Hend : forall l', Books N (h - amount b) (0 + amount b) l' -> leaf_at l' (SBond id) = leaf_at l (SBond id) ->
    wp (clear_stake_bond sha3_256 id;; set_stake_banned sha3_256 id;;
      forfeited ← ask (fun l => stake_rewards_outstanding sha3_256 l id);
      when (0 <? forfeited) (
        treasury ← ask (stake_treasury sha3_256);
        set_stake_treasury sha3_256 (saturating_add 64 treasury forfeited));;
      clear_stake_rewards sha3_256 id;; mret (amount b)) (fun (_ : Z) => balanced N) l').
  { intros l3 HB3 E3. eapply wp_bind, (wp_clear_bond _ _ l3 id _ HB3 Hid).
    rewrite E3, Ham. replace (h - amount b + amount b) with h by lia.
    replace (0 + amount b - amount b) with 0 by lia. intros l4 HB4 _.
    eapply wp_bind, (wp_set_banned h 0 l4 id); [done..|]. intros l5 HB5 _. by apply wp_forfeit_rewards. }
  apply wp_when; intros Hz; [|apply Hend; [done|congruence]].
  apply wp_bind, wp_native. intros l3 L3 P3 H3 G3. apply wp_side. intros l4 L4 P4 H4 G4. apply Hend.
  - eapply books_events; [exact HB2|congruence..].
  - unfold LedgerCoins.leaf_at, get_leaf in *. congruence.
Qed.

(** ** Transfers *)

(** The transfer program takes the amount and the fee from the sender, who has them,
    and gives the amount to the recipient, who has room for it. *)
Definition transfer_moves (run : Z -> Z -> Z -> Z -> Z -> option (Z * Z)) : Prop :=
  forall s r amt fee limit s' r', run s r amt fee limit = Some (s', r') ->
    s' = s - (amt + fee) /\ r' = r + amt /\ 0 <= s' /\ r' <= U64_MAX.

End Ops.

(** ** Operations paid for by an account *)

Section Paid.
Context {N : list byte -> Z}.
#[local] Notation Books := (LedgerCoins.Books sha3_256 U).

(** Charging a fee and a debit to an account that can pay leaves the rest of the
    debit in flight, and uses the nonce. *)
Lemma wp_charge f g l a id debit fee (Q : unit -> Ledger -> Prop) :
  Books N f g l -> 0 <= f -> address_id a = Some id -> id ∈ U -> u64 fee -> fee <= debit ->
  debit <= acc_balance (account l a) -> acc_nonce (account l a) < U64_MAX ->
  (forall l', Books (spend N l a) (f + debit - fee) g l' -> frame money l l' -> Q tt l') ->
  wp (charge sha3_256 a (account l a) debit fee) Q l.
Proof using h_pos U_nodup U_apart U_ids U_grants.
  intros HB Hf Ha Hid Hfee Hd Hbal Hn HQ. unfold charge.
  assert (Hsp : spend N l a = raise N id (acc_nonce (account l a) + 1)) by (unfold spend; by rewrite Ha).
  rewrite Hsp in HQ. clear Hsp.
  destruct (account_u64 l a) as (Hnon & Hb & Hs & Hk).
  unfold in_width, U64_MAX in *.
  apply wp_bind. eapply wp_lift.
  { unfold panicking_add, checked_add. destruct (Z.ltb_spec (acc_nonce (account l a) + 1) (2 ^ 64)); [done|lia]. }
  pose proof (nonce_floor f g l a id HB Ha Hid) as Hfl.
  set (acc := with_nonce (with_balance (account l a) (acc_balance (account l a) - debit)) (acc_nonce (account l a) + 1)).
  assert (Va : Account_valid acc).
  { apply with_nonce_valid; [apply with_balance_valid; [done|]|]; unfold in_width; lia. }
  eapply wp_bind, (wp_set_account_read f g l a id); [done|done|done|done|done|cbn; lia|].
  cbn [with_nonce with_balance acc_balance acc]. intros l1 HB1 F1 E1.
  apply (books_raise _ _ _ _ a id (acc_nonce (account l a) + 1)) in HB1; [|done|rewrite E1; cbn; lia].
  eapply (wp_collect_fee _ g l1 fee Q HB1); [done|lia|]. intros l2 HB2 F2. apply HQ.
  - by replace (f + debit - fee) with
      (f + acc_balance (account l a) - (acc_balance (account l a) - debit) - fee) by lia.
  - eapply frame_trans; [by eapply only_account_money|exact F2].
Qed.

Lemma bond_with_fee_paid l a amt fee day :
  balanced N l -> usable l a -> u64 amt -> u64 fee -> u64 day ->
  wp (bond_with_fee sha3_256 a amt fee day) (paid N l a) l.
Proof using h_pos U_nodup U_apart U_ids U_grants.
  intros HB ((id & Ha & Hid) & Hn) Hamt Hfee Hday. unfold bond_with_fee. rewrite Ha.
  apply wp_bind, wp_asks. case_step; [by apply wp_ret|].
  destruct (checked_add 64 amt fee) as [debit|] eqn:Ed; [|by apply wp_ret].
  apply checked_add_Some in Ed as [-> Hd].
  apply wp_bind, wp_asks. destruct (Z.ltb_spec (acc_balance (account l a)) (amt + fee)); [by apply wp_ret|].
  destruct (bond_read h 0 l id HB Hid) as (ob & Ho & Hob & Ham).
  apply wp_bind. eapply wp_ask; [exact Ho|]. rewrite <- Ham.
  destruct (checked_add 64 _ amt) as [tot|] eqn:Et; [|by apply wp_ret].
  apply checked_add_Some in Et as [-> Ht]. case_step; [by apply wp_ret|].
  pose proof (bond_amount_range (leaf_at l (SBond id))) as [Hb0 _]. unfold in_width in *.
  eapply wp_bind, (wp_charge h 0 l a id); [done|lia|done|done|done|lia|done|done|]. intros l1 HB1 F1.
  replace (h + (amt + fee) - fee) with (h + amt) in HB1 by lia.
  assert (E : leaf_at l1 (SBond id) = leaf_at l (SBond id)) by (eapply frame_at; [exact F1|slot_in|done]).
  eapply (wp_raise_bond (h + amt) l1 id day amt); try done; [lia|by rewrite E|unfold in_width; lia|].
  replace (h + amt - amt) with h by lia. intros l2 HB2.
  eapply wp_record_native; [exact HB2|]. intros l3 HB3.
  eapply wp_record_side; [exact HB3|]. intros l4 HB4. by apply wp_ret.
Qed.

Lemma request_exit_with_fee_paid l a fee day :
  balanced N l -> usable l a -> u64 fee -> 0 <= day <= DAY_MAX ->
  wp (request_exit_with_fee sha3_256 a fee day) (paid N l a) l.
Proof using h_pos U_nodup U_apart U_ids U_grants.
  intros HB ((id & Ha & Hid) & Hn) Hfee Hday. unfold request_exit_with_fee. rewrite Ha.
  assert (Hr : exists b, exit_ready sha3_256 l id day = Done b).
  { unfold exit_ready. destruct (bond_read h 0 l id HB Hid) as (ob & -> & _). cbn [obind].
    destruct ob as [b|]; [|by eauto]. case_step; [|by eauto].
    destruct (exit_vote_locked_reads h 0 l id day HB Hid) as [k ->]. cbn. eauto. }
  destruct Hr as [ready Hr]. apply wp_bind. eapply wp_ask; [exact Hr|]. case_step; [by apply wp_ret|].
  apply wp_bind, wp_asks. destruct (Z.ltb_spec (acc_balance (account l a)) fee); [by apply wp_ret|].
  eapply wp_bind, (wp_charge h 0 l a id); [done|lia|done|done|done|lia|done|done|]. intros l1 HB1 _.
  replace (h + fee - fee) with h in HB1 by lia.
  eapply wp_mono; [|apply (request_stake_exit_balanced (N:=spend N l a)); [done|by exists id|done]].
  intros ok l2 HB2. apply spent_paid; [done|by exists id|done].
Qed.

Lemma withdraw_with_fee_paid l a fee day :
  balanced N l -> usable l a -> u64 fee -> wp (withdraw_with_fee sha3_256 a fee day) (paid N l a) l.
Proof using h_pos U_nodup U_apart U_ids U_grants.
  intros HB ((id & Ha & Hid) & Hn) Hfee. unfold withdraw_with_fee. rewrite Ha.
  destruct (withdraw_ready_reads h 0 l id day HB Hid) as (ob & Ho & _).
  apply wp_bind. eapply wp_ask; [exact Ho|]. case_step; [by apply wp_ret|].
  apply wp_bind, wp_asks. destruct (Z.ltb_spec (acc_balance (account l a)) fee); [by apply wp_ret|].
  eapply wp_bind, (wp_charge h 0 l a id); [done|lia|done|done|done|lia|done|done|]. intros l1 HB1 _.
  replace (h + fee - fee) with h in HB1 by lia.
  eapply wp_mono; [|apply (withdraw_stake_balanced (N:=spend N l a)); [done|by exists id]].
  intros ok l2 HB2. apply spent_paid; [done|by exists id|done].
Qed.

Lemma designate_payee_paid l a payee fee :
  balanced N l -> usable l a -> u64 fee -> payee ∈ U ->
  wp (designate_stake_payee_with_fee sha3_256 a payee fee) (paid N l a) l.
Proof using h_pos U_nodup U_apart U_ids U_grants.
  intros HB ((id & Ha & Hid) & Hn) Hfee Hp. unfold designate_stake_payee_with_fee. rewrite Ha.
  apply wp_bind, wp_asks. case_step; [by apply wp_ret|].
  apply wp_bind, wp_asks. destruct (Z.ltb_spec (acc_balance (account l a)) fee); [by apply wp_ret|].
  eapply wp_bind, (wp_charge h 0 l a id); [done|lia|done|done|done|lia|done|done|]. intros l1 HB1 _.
  replace (h + fee - fee) with h in HB1 by lia.
  eapply wp_bind, (wp_write_plain h 0 l1 (SPayee id)); [done|slot_in| |done|done|].
  - intros bs [= <-] _. exact Hp.
  - intros l2 HB2 _. by apply wp_ret.
Qed.

Lemma claim_with_fee_paid l a fee day :
  balanced N l -> usable l a -> u64 fee -> wp (claim_with_fee sha3_256 a fee day) (paid N l a) l.
Proof using h_pos U_nodup U_apart U_ids U_grants.
  intros HB ((id & Ha & Hid) & Hn) Hfee. unfold claim_with_fee.
  apply wp_bind, wp_asks. destruct (Z.ltb_spec (acc_balance (account l a)) fee); [by apply wp_ret|].
  eapply wp_bind, (wp_charge h 0 l a id); [done|lia|done|done|done|lia|done|done|]. intros l1 HB1 _.
  replace (h + fee - fee) with h in HB1 by lia.
  eapply wp_bind, wp_claim_reward; [exact HB1|by exists id|]. intros v l2 HB2. by apply wp_ret.
Qed.

Lemma apply_transfer_paid run l from to amt fee limit :
  transfer_moves run -> balanced N l -> usable l from -> in_play U to ->
  address_id from <> address_id to -> u64 amt -> u64 fee ->
  wp (apply_transfer sha3_256 run from to amt fee limit) (paid N l from) l.
Proof using h_pos U_nodup U_apart U_ids U_grants.
  intros Hrun HB ((id & Ha & Hid) & Hn) (id' & Ha' & Hid') Hne Hamt Hfee. unfold apply_transfer.
  case_step; [by apply wp_ret|]. apply wp_bind, wp_asks, wp_bind, wp_asks.
  destruct (run _ _ _ _ _) as [[s' r']|] eqn:Er; [|by apply wp_ret].
  apply Hrun in Er as (-> & -> & Hs & Hr).
  pose proof (account_u64 l from) as Vs. pose proof (account_u64 l to) as Vr.
  pose proof Vs as (Ns & Bs & _). pose proof Vr as (_ & Br & _). unfold in_width, U64_MAX in *.
  apply wp_bind. eapply wp_lift.
  { unfold panicking_add, checked_add. destruct (Z.ltb_spec (acc_nonce (account l from) + 1) (2 ^ 64)); [done|lia]. }
  pose proof (nonce_floor h 0 l from id HB Ha Hid) as Hfl.
  eapply wp_bind, (wp_set_account_read h 0 l from id); [done..| |done|cbn; lia|].
  { apply with_nonce_valid; [apply with_balance_valid; [done|]|]; unfold in_width; lia. }
  cbn [with_nonce with_balance acc_balance]. intros l1 HB1 F1 E1.
  apply (books_raise _ _ _ _ from id (acc_nonce (account l from) + 1)) in HB1; [|done|rewrite E1; cbn; lia].
  assert (E : account l1 to = account l to).
  { rewrite !(account_at _ to id' Ha'). f_equal. eapply frame_at; [exact F1|slot_in|].
    apply bool_decide_eq_false. intros [= ->]. congruence. }
  apply wp_bind. rewrite <- E in Vr, Br, Hr |- *. eapply wp_set_account; [exact HB1|exact Ha'|done| |done|by eapply nonce_floor|].
  { apply with_balance_valid; [done|]. unfold in_width. lia. }
  cbn [with_balance acc_balance]. intros l2 HB2 _.
  match type of HB2 with LedgerCoins.Books _ _ _ ?x _ _ => replace x with (h + fee) in HB2 by lia end.
  eapply wp_bind, (wp_collect_fee (h + fee) 0 l2); [done|unfold in_width; lia|lia|]. replace (h + fee - fee) with h by lia.
  intros l3 HB3 _. eapply wp_record_native; [exact HB3|]. intros l4 HB4. apply wp_ret.
  unfold paid, spend. by rewrite Ha.
Qed.

End Paid.
End Held.
End Conserve.
