(* ===== verification/LedgerHistory.v ===== *)
(** * Histories of native operations

    The native operations of a block as the node runs them, each inside
    [apply_atomic], and what holds after any sequence of them: the coins are the
    supply, the staked total is the sum of the bonds, and a refused operation
    leaves no trace. *)

From S2P Require Import Prelude Codec Idfmt Events LedgerState LedgerKeys.
From S2P Require Import Governance Staking Fee LedgerStake LedgerCoins LedgerConserve.

(** ** Operations that can be taken back *)

Create HintDb setters.
#[export] Hint Unfold set_stake_pool set_stake_treasury set_total_staked set_total_staked_active
  set_total_staked_raised_at set_total_supply set_stake_bond clear_stake_bond set_stake_banned
  set_stake_rewards clear_stake_rewards record_transfer_event record_bond_event record_unbond_event
  record_slash_event : setters.

(** The parts of an operation are settings, events and operations already covered. *)
Ltac journaled_op := autounfold with setters; journaled.

Section Journaled.
Context (sha3_256 : list byte -> list byte).

Lemma journaled_set_account a acc : Journaled (set_account sha3_256 a acc).
Proof. apply journaled_write. Qed.
#[local] Hint Resolve journaled_set_account : journaled.
Lemma journaled_set_singleton tag v : Journaled (set_singleton sha3_256 tag v).
Proof. apply journaled_write. Qed.
#[local] Hint Resolve journaled_set_singleton : journaled.
Lemma journaled_credit_account a amt : Journaled (credit_account sha3_256 a amt).
Proof. unfold credit_account. journaled_op. Qed.
#[local] Hint Resolve journaled_credit_account : journaled.
Lemma journaled_credit_staked amt : Journaled (credit_staked sha3_256 amt).
Proof. unfold credit_staked. journaled_op. Qed.
#[local] Hint Resolve journaled_credit_staked : journaled.
Lemma journaled_debit_staked amt : Journaled (debit_staked sha3_256 amt).
Proof. unfold debit_staked. journaled_op. Qed.
#[local] Hint Resolve journaled_debit_staked : journaled.
Lemma journaled_credit_supply amt : Journaled (credit_supply sha3_256 amt).
Proof. unfold credit_supply. journaled_op. Qed.
#[local] Hint Resolve journaled_credit_supply : journaled.
Lemma journaled_debit_supply amt : Journaled (debit_supply sha3_256 amt).
Proof. unfold debit_supply. journaled_op. Qed.
#[local] Hint Resolve journaled_debit_supply : journaled.
Lemma journaled_collect_fee fee : Journaled (collect_fee sha3_256 fee).
Proof. unfold collect_fee, apply_fee_split. journaled_op. Qed.
#[local] Hint Resolve journaled_collect_fee : journaled.
Lemma journaled_charge a acc debit fee : Journaled (charge sha3_256 a acc debit fee).
Proof. unfold charge. journaled_op. Qed.
#[local] Hint Resolve journaled_charge : journaled.
Lemma journaled_bond_with_fee a amt fee day : Journaled (bond_with_fee sha3_256 a amt fee day).
Proof. unfold bond_with_fee. journaled_op. Qed.
#[local] Hint Resolve journaled_bond_with_fee : journaled.
Lemma journaled_claim a day : Journaled (claim_reward sha3_256 a day).
Proof. unfold claim_reward. journaled_op. Qed.
#[local] Hint Resolve journaled_claim : journaled.
Lemma journaled_claim_with_fee a fee day : Journaled (claim_with_fee sha3_256 a fee day).
Proof. unfold claim_with_fee. journaled_op. Qed.
#[local] Hint Resolve journaled_claim_with_fee : journaled.
Lemma journaled_exit a day : Journaled (request_stake_exit sha3_256 a day).
Proof. unfold request_stake_exit. journaled_op. Qed.
#[local] Hint Resolve journaled_exit : journaled.
Lemma journaled_exit_with_fee a fee day : Journaled (request_exit_with_fee sha3_256 a fee day).
Proof. unfold request_exit_with_fee. journaled_op. Qed.
#[local] Hint Resolve journaled_exit_with_fee : journaled.
Lemma journaled_withdraw a day : Journaled (withdraw_stake sha3_256 a day).
Proof. unfold withdraw_stake. journaled_op. Qed.
#[local] Hint Resolve journaled_withdraw : journaled.
Lemma journaled_withdraw_with_fee a fee day : Journaled (withdraw_with_fee sha3_256 a fee day).
Proof. unfold withdraw_with_fee. journaled_op. Qed.
#[local] Hint Resolve journaled_withdraw_with_fee : journaled.
Lemma journaled_payee a payee fee :
  Journaled (designate_stake_payee_with_fee sha3_256 a payee fee).
Proof. unfold designate_stake_payee_with_fee. journaled_op. Qed.
#[local] Hint Resolve journaled_payee : journaled.
Lemma journaled_slash a : Journaled (slash_validator sha3_256 a).
Proof. unfold slash_validator. journaled_op. Qed.
#[local] Hint Resolve journaled_slash : journaled.
Lemma journaled_transfer run from to amt fee limit :
  Journaled (apply_transfer sha3_256 run from to amt fee limit).
Proof. unfold apply_transfer. journaled_op. Qed.
#[local] Hint Resolve journaled_transfer : journaled.
End Journaled.
#[export] Hint Resolve journaled_set_account journaled_set_singleton journaled_credit_account journaled_credit_staked journaled_debit_staked journaled_credit_supply journaled_debit_supply journaled_collect_fee journaled_charge journaled_bond_with_fee journaled_claim journaled_claim_with_fee journaled_exit journaled_exit_with_fee journaled_withdraw journaled_withdraw_with_fee journaled_payee journaled_slash journaled_transfer : journaled.

(** ** The operations of a block *)

Inductive NativeOp : Type :=
| Bonding (address : list byte) (amount fee day : Z)
| Claiming (address : list byte) (fee day : Z)
| Exiting (address : list byte) (fee day : Z)
| Withdrawing (address : list byte) (fee day : Z)
| NamingPayee (address payee : list byte) (fee : Z)
| Transferring (from to : list byte) (amount fee meter_limit : Z)
| Slashing (address : list byte).

(** What happens to the ledger between two states a reader can see: a native
    operation in its atomic step, the settlement at the end of a block, a slash to
    the treasury, and the start of the next block. *)
Inductive LedgerStep : Type :=
| Native (op : NativeOp)
| Settle (day transactions : Z)
| SlashToTreasury (address : list byte) (fault : Fault)
| NextBlock (height : Z) (proposer : list byte).

Section History.
Context (sha3_256 : list byte -> list byte).
Context (execute_transfer : Z -> Z -> Z -> Z -> Z -> option (Z * Z)).

Definition native (op : NativeOp) : M bool :=
  match op with
  | Bonding a amt fee day => bond_with_fee sha3_256 a amt fee day
  | Claiming a fee day => claim_with_fee sha3_256 a fee day
  | Exiting a fee day => request_exit_with_fee sha3_256 a fee day
  | Withdrawing a fee day => withdraw_with_fee sha3_256 a fee day
  | NamingPayee a payee fee => designate_stake_payee_with_fee sha3_256 a payee fee
  | Transferring from to amt fee limit => apply_transfer sha3_256 execute_transfer from to amt fee limit
  | Slashing a => slash_validator sha3_256 a
  end.

Definition run_step (s : LedgerStep) : M unit :=
  match s with
  | Native op => apply_atomic (native op) ;; mret tt
  | Settle day n => settle_session sha3_256 day n
  | SlashToTreasury a fault => slash_stake sha3_256 a fault ;; mret tt
  | NextBlock height proposer =>
      modify (fun l => clear_block_fresh_leaves (clear_block_events
        (set_round_proposer proposer (set_execution_height height l))))
  end.

Lemma native_journaled op : Journaled (native op).
Proof. destruct op; cbn [native]; auto with journaled nocore. Qed.

(** C5: a native operation run in its atomic step never brings the node down and
    either takes effect as a whole or leaves nothing behind: when it is refused, or
    panics half way, the leaves, the block's events, the side events, the count of
    fresh leaves and the enclosing journal are exactly what they were. *)
Theorem native_operation_atomic op l :
  let '(r, l') := apply_atomic (native op) l in
  (r = Done true /\ (native op (with_journal (Some []) l)).1 = Done true /\
     leaves l' = leaves (native op (with_journal (Some []) l)).2) \/
  (r = Done false /\ same_ledger l l').
Proof.
  destruct (apply_atomic (native op) l) as [r l'] eqn:E.
  destruct (apply_atomic_outcome (native op) l (native_journaled op)) as [(Hr & Ho & Hl & _)|(Hr & Hs & _)];
    rewrite E in *; cbn [fst snd] in *; subst; auto.
Qed.

(** ** The coins of a ledger *)

(** What the accounts of the identifiers hold, in every form. *)
Definition held (l : Ledger) (id : list byte) : Z :=
  acc_balance (decode_default Account_codec Account_default (leaf_at sha3_256 l (SAccount id))) +
  bond_amount (leaf_at sha3_256 l (SBond id)) +
  owed (tranches (stake_rewards sha3_256 l id)) +
  locked_amount (leaf_at sha3_256 l (SLock id)).
Definition circulating (U : list (list byte)) (l : Ledger) : Z :=
  zsum (map (held l) U) + leaf_u64 (leaf_at sha3_256 l SPool) + leaf_u64 (leaf_at sha3_256 l STreasury).
Definition bonded (U : list (list byte)) (l : Ledger) : Z :=
  zsum (map (fun id => bond_amount (leaf_at sha3_256 l (SBond id))) U).

Lemma zsum_concat {A} (f : A -> Z) (xss : list (list A)) :
  zsum (map f (concat xss)) = zsum (map (fun xs => zsum (map f xs)) xss).
Proof.
  induction xss as [|xs xss IH]; [done|]. cbn [concat map]. rewrite map_app, zsum_app, IH. done.
Qed.

Lemma books_add_up U {Oth : Others sha3_256 U} h N l :
  balanced sha3_256 U h N l ->
  circulating U l + h = supply_of sha3_256 l /\ total_supply sha3_256 l = Done (supply_of sha3_256 l) /\
  total_staked sha3_256 l = Done (bonded U l).
Proof.
  intros HB. pose proof HB as [_ Hc Hs _ _ _]. unfold total, slots in Hc, Hs.
  rewrite map_app, zsum_app, zsum_concat, map_map in Hc. rewrite map_app, zsum_app, zsum_concat, map_map in Hs.
  assert (E1 : total_supply sha3_256 l = Done (supply_of sha3_256 l)).
  { apply (single_read (N:=N) sha3_256 U h 0 l SSupply); [exact HB|done]. }
  assert (E2 : total_staked sha3_256 l = Done (leaf_u64 (leaf_at sha3_256 l STotal))).
  { apply (single_read (N:=N) sha3_256 U h 0 l STotal); [exact HB|done]. }
  assert (H1 : map (fun id => zsum (map (fun s => coin s (leaf_at sha3_256 l s)) (id_slots id))) U = map (held l) U).
  { apply map_ext. intros id. unfold held, id_slots. cbn [map]. unfold zsum. cbn [foldr coin].
    change (rewards_of (leaf_at sha3_256 l (SRewards id))) with (stake_rewards sha3_256 l id). lia. }
  assert (H2 : map (fun id => zsum (map (fun s => stake_in s (leaf_at sha3_256 l s)) (id_slots id))) U
    = map (fun id => bond_amount (leaf_at sha3_256 l (SBond id))) U).
  { apply map_ext. intros id. unfold id_slots. cbn [map]. unfold zsum. cbn [foldr stake_in]. lia. }
  rewrite H1 in Hc. rewrite H2 in Hs. unfold single_slots in Hc, Hs. cbn [map coin stake_in] in Hc, Hs.
  unfold circulating, bonded, supply_of. unfold zsum at 2 in Hc. unfold zsum at 2 in Hs. cbn [foldr] in Hc, Hs.
  rewrite E2. split; [lia|]. split; [done|]. f_equal. lia.
Qed.

(** ** Histories *)

Section Conserved.
Context (U : list (list byte)) (U_nodup : NoDup U) (U_apart : apart sha3_256 U)
  (U_ids : Forall (fun id => length id = 32%nat) U)
  (U_grants : sha3_256 (ascii "qtv/gov/grants") ∈ U).
Context (moves : transfer_moves execute_transfer).
Context {Oth : Others sha3_256 U}.

(** What the node guarantees of the operations it hands to the ledger: the accounts
    are among those in play, the fields have their width, days come from a clock in
    seconds, a transfer is between two accounts, and a settlement does not mint
    past the width of the supply. *)
Definition op_ready (l : Ledger) (op : NativeOp) : Prop :=
  match op with
  | Bonding a amt fee day => usable sha3_256 U l a /\ u64 amt /\ u64 fee /\ u64 day
  | Claiming a fee _ | Withdrawing a fee _ => usable sha3_256 U l a /\ u64 fee
  | Exiting a fee day => usable sha3_256 U l a /\ u64 fee /\ 0 <= day <= DAY_MAX
  | NamingPayee a payee fee => usable sha3_256 U l a /\ u64 fee /\ payee ∈ U
  | Transferring from to amt fee _ =>
      usable sha3_256 U l from /\ in_play U to /\ address_id from <> address_id to /\ u64 amt /\ u64 fee
  | Slashing a => in_play U a
  end.

Definition step_ready (l : Ledger) (s : LedgerStep) : Prop :=
  match s with
  | Native op => op_ready l op
  | Settle day n => 0 <= day <= DAY_MAX /\ 0 <= n /\
      supply_of sha3_256 l + len (validator_ids sha3_256 l) * REWARD_MAX <= U64_MAX
  | SlashToTreasury a _ => in_play U a
  | NextBlock height proposer => u64 height /\ (proposer = [] \/ in_play U proposer)
  end.

Inductive reachable (genesis : Ledger) : Ledger -> Prop :=
| reach_start : reachable genesis genesis
| reach_step l s : reachable genesis l -> step_ready l s -> reachable genesis (run_step s l).2.

(** The account an operation is paid from. *)
Definition op_payer (op : NativeOp) : option (list byte) :=
  match op with
  | Bonding a _ _ _ | Claiming a _ _ | Exiting a _ _ | Withdrawing a _ _ | NamingPayee a _ _
  | Transferring a _ _ _ _ => Some a
  | Slashing _ => None
  end.

(** The steps keep the books, whatever is held elsewhere. *)
Section Steps.
Context (h : Z) (h_pos : 0 <= h).

(** What an operation leaves: balanced books, and the payer's nonce used when it
    took effect. *)
Definition op_done (N : list byte -> Z) (op : NativeOp) (l : Ledger) (ok : bool) (l' : Ledger) : Prop :=
  match op_payer op with
  | Some a => paid sha3_256 U h N l a ok l'
  | None => balanced sha3_256 U h N l'
  end.

Lemma op_ready_payer l op a : op_ready l op -> op_payer op = Some a -> usable sha3_256 U l a.
Proof. destruct op; cbn; intros Hr [= <-]; apply Hr. Qed.

Lemma op_done_balanced N op l ok l' :
  balanced sha3_256 U h N l -> op_ready l op -> op_done N op l ok l' -> balanced sha3_256 U h N l'.
Proof.
  intros HB Hr. unfold op_done. destruct (op_payer op) as [a|] eqn:Ea; [|done].
  apply paid_balanced; [done|]. by apply (op_ready_payer l op a Hr Ea).
Qed.

Lemma native_done N op l :
  balanced sha3_256 U h N l -> op_ready l op -> wp (native op) (op_done N op l) l.
Proof using h_pos U_nodup U_apart U_ids U_grants moves.
  intros HB Hr. destruct op; cbn [native op_ready] in *; unfold op_done; cbn [op_payer].
  - destruct Hr as (? & ? & ? & ?). by apply bond_with_fee_paid.
  - destruct Hr. by apply claim_with_fee_paid.
  - destruct Hr as (? & ? & ?). by apply request_exit_with_fee_paid.
  - destruct Hr. by apply withdraw_with_fee_paid.
  - destruct Hr as (? & ? & ?). by apply designate_payee_paid.
  - destruct Hr as (? & ? & ? & ? & ?). by apply apply_transfer_paid.
  - by apply slash_validator_balanced.
Qed.

Lemma balanced_leaves N l l' :
  balanced sha3_256 U h N l -> leaves l' = leaves l -> round_proposer l' = round_proposer l ->
  execution_height l' = execution_height l -> heights_per_epoch l' = heights_per_epoch l ->
  balanced sha3_256 U h N l'.
Proof. intros. by eapply books_events. Qed.

(** The state an atomic step runs in differs in the journal only. *)
Lemma native_runs N op l :
  balanced sha3_256 U h N l -> op_ready l op ->
  exists r, (native op (with_journal (Some []) l)).1 = Done r /\
    op_done N op l r (native op (with_journal (Some []) l)).2.
Proof using h_pos U_nodup U_apart U_ids U_grants moves.
  intros HB Hr.
  assert (H : wp (native op) (op_done N op (with_journal (Some []) l)) (with_journal (Some []) l)).
  { apply native_done; [by apply (balanced_leaves N l)|]. by destruct op. }
  unfold wp in H. destruct (native op _) as [[r|] l1]; [|done]. by exists r.
Qed.

Lemma atomic_done N op l :
  balanced sha3_256 U h N l -> op_ready l op ->
  exists ok, (apply_atomic (native op) l).1 = Done ok /\ op_done N op l ok (apply_atomic (native op) l).2.
Proof using h_pos U_nodup U_apart U_ids U_grants moves.
  intros HB Hr. destruct (native_runs N op l HB Hr) as (r & Er & HB1).
  pose proof (native_journaled op (with_journal (Some []) l)) as G1.
  destruct (apply_atomic_outcome (native op) l (native_journaled op))
    as [(E & Er' & Hl & _ & _ & G)|(E & (Hl & _) & G)].
  - exists true. split; [done|]. rewrite Er in Er'. injection Er' as ->. unfold op_done in *.
    destruct (op_payer op); (eapply balanced_leaves; [exact HB1|exact Hl|..]; destruct G, G1; cbn in *; congruence).
  - exists false. split; [done|]. unfold op_done.
    destruct (op_payer op); (eapply balanced_leaves; [exact HB|exact Hl|..]; by destruct G).
Qed.

Lemma step_balanced N s l :
  balanced sha3_256 U h N l -> step_ready l s -> wp (run_step s) (fun _ => balanced sha3_256 U h N) l.
Proof using h_pos U_nodup U_apart U_ids U_grants moves.
  intros HB Hr. destruct s as [op|day n|a fault|height p]; cbn [run_step step_ready] in *.
  - destruct (atomic_done N op l HB Hr) as (ok & E & H). apply wp_bind. unfold wp.
    destruct (apply_atomic (native op) l) as [r l']; cbn [fst snd] in *. subst r. by eapply op_done_balanced.
  - destruct Hr as (? & ? & ?). by apply settle_session_balanced.
  - apply wp_bind. eapply wp_mono; [|by apply slash_stake_balanced]. intros v l' H. exact H.
  - destruct Hr as [Hh Hp]. unfold wp, modify. destruct HB as [H1 H2 H3 H4 [H5 H6] H7].
    constructor; try done. cbn. intros q Hq. destruct Hp as [->|Hin]; [done|].
    destruct p as [|x p]; [done|]. by injection Hq as <-.
Qed.

Lemma reachable_balanced N genesis l :
  balanced sha3_256 U h N genesis -> reachable genesis l -> balanced sha3_256 U h N l.
Proof using h_pos U_nodup U_apart U_ids U_grants moves.
  intros HB H. induction H as [|l s _ IH Hr]; [done|].
  pose proof (step_balanced N s l IH Hr) as Hw. unfold wp in Hw. by destruct (run_step s l) as [[]].
Qed.

(** The nonce of an account never goes back, and an operation that took effect has
    used its payer's nonce for good. *)
Lemma nonce_spent N op l l' a :
  balanced sha3_256 U h N l -> op_ready l op -> op_payer op = Some a ->
  (apply_atomic (native op) l).1 = Done true -> reachable (apply_atomic (native op) l).2 l' ->
  acc_nonce (account sha3_256 l a) < acc_nonce (account sha3_256 l' a).
Proof using h_pos U_nodup U_apart U_ids U_grants moves.
  intros HB Hr Ea E Hreach. destruct (op_ready_payer l op a Hr Ea) as [(id & Ha & Hid) _].
  destruct (atomic_done N op l HB Hr) as (ok & E' & Hd). rewrite E in E'. injection E' as <-.
  unfold op_done, paid, spend in Hd. rewrite Ea, Ha in Hd.
  pose proof (reachable_balanced _ _ _ Hd Hreach) as HB'.
  pose proof (nonce_floor sha3_256 U h 0 l' a id HB' Ha Hid) as Hfl.
  unfold raise in Hfl. rewrite decide_True in Hfl by done. lia.
Qed.

End Steps.

(** Conservation.  After any history of bonds, claims, exits, withdrawals, payee
    designations, transfers, slashings, session settlements and block changes from a
    ledger whose books balance, the coins held in accounts, bonds, outstanding
    rewards and vote locks, with the pool and the treasury, are exactly the supply
    leaf, and the staked total is exactly the sum of the bonds: nothing is lost to
    rounding, saturation or a half finished operation.  And the next step does not
    panic: neither outside an atomic step nor inside. *)
Theorem ledger_conserves_coins genesis l :
  balanced sha3_256 U 0 (fun _ => 0) genesis -> reachable genesis l ->
  total_supply sha3_256 l = Done (circulating U l) /\
  total_staked sha3_256 l = Done (bonded U l) /\
  (forall s, step_ready l s -> (run_step s l).1 = Done tt) /\
  (forall op, op_ready l op -> exists r, (native op (with_journal (Some []) l)).1 = Done r).
Proof using U_nodup U_apart U_ids U_grants moves.
  intros HB Hreach. pose proof (reachable_balanced 0 ltac:(done) _ genesis l HB Hreach) as Hl.
  destruct (books_add_up U 0 _ l Hl) as (E & E1 & E2). rewrite E1, <- E, E2, Z.add_0_r.
  split; [done|]. split; [done|]. split.
  - intros s Hr. pose proof (step_balanced 0 ltac:(done) _ s l Hl Hr) as Hw. unfold wp in Hw.
    by destruct (run_step s l) as [[[]|] ?].
  - intros op Hr. destruct (native_runs 0 ltac:(done) _ op l Hl Hr) as (r & Hr' & _). by exists r.
Qed.
End Conserved.
End History.

(** ** A ledger with a history *)

#[local] Existing Instance no_others.

Lemma leaf_ok_None U s : leaf_ok U (fun _ => 0) s None.
Proof.
  destruct s; cbn [leaf_ok]; try done; try (by eexists); try (by eexists; split; [reflexivity|]).
  - split; [repeat split; done|]. split; [by apply Forall_nil|apply NoDup_nil_2].
  - split; [apply NoDup_nil_2|]. by intros ? ?%elem_of_nil.
Qed.

Lemma zsum_zero {A} (f : A -> Z) xs : (forall x, f x = 0) -> zsum (map f xs) = 0.
Proof. intros H. induction xs as [|x xs IH]; [done|]. unfold zsum in *. cbn. rewrite IH, H. done. Qed.

Lemma new_balanced sha U : balanced sha U 0 (fun _ => 0) Ledger_new.
Proof.
  assert (E : forall s, leaf_at sha Ledger_new s = None) by (intros s; apply lookup_empty).
  constructor; try done.
  - intros s _. rewrite E. apply leaf_ok_None.
  - unfold total. rewrite zsum_zero; [done|]. intros s. rewrite E. by destruct s.
  - unfold total. apply zsum_zero. intros s. rewrite E. by destruct s.
Qed.

(** Coins minted into an account before the first block. *)
Definition funded (sha : list byte -> list byte) (a : list byte) (amt : Z) : Ledger :=
  ((credit_supply sha amt ;; credit_account sha a amt) Ledger_new).2.

Lemma funded_balanced sha U a amt :
  NoDup U -> apart sha U -> in_play U a -> 0 <= amt <= U64_MAX -> balanced sha U 0 (fun _ => 0) (funded sha a amt).
Proof.
  intros Hn Ha (id & Hid & Hin) Hamt.
  assert (H : wp (credit_supply sha amt ;; credit_account sha a amt) (fun _ => balanced sha U 0 (fun _ => 0)) Ledger_new).
  { eapply wp_bind, (wp_credit_supply (N:=fun _ => 0) sha U Hn Ha 0 0); [apply new_balanced|lia| |].
    - assert (E : leaf_at sha Ledger_new SSupply = None) by apply lookup_empty. rewrite E. change (leaf_u64 None) with 0. lia.
    - intros l HB _ _. eapply (wp_credit_account sha U Hn Ha (0 + amt)); [exact HB|exact Hid|done|lia|].
      intros l' HB' _. by replace (0 + amt - amt) with 0 in HB' by lia. }
  unfold wp in H. unfold funded. by repeat case_match.
Qed.

Definition example_transfer (s r amt fee limit : Z) : option (Z * Z) :=
  if (amt + fee <=? s) && (r + amt <=? U64_MAX) then Some (s - (amt + fee), r + amt) else None.
Lemma example_transfer_moves : transfer_moves example_transfer.
Proof.
  intros s r amt fee limit s' r'. unfold example_transfer. case_step; [|done].
  intros [= <- <-]. bool_to_prop. lia.
Qed.

Definition id_a : list byte := repeat x0a 32.
Definition id_b : list byte := repeat x0b 32.
Definition example_ids : list (list byte) := [id_a; id_b; example_hash (ascii "qtv/gov/grants")].
Definition address_of (id : list byte) : list byte :=
  match render_address id with Done (Ok text) => text | _ => [] end.
Definition address_a : list byte := Eval vm_compute in address_of id_a.
Definition address_b : list byte := Eval vm_compute in address_of id_b.

Lemma example_in_play : in_play example_ids address_a /\ in_play example_ids address_b.
Proof.
  split; [exists id_a|exists id_b]; (split; [by vm_compute|]); apply (bool_decide_unpack _); by vm_compute.
Qed.

Lemma example_apart : apart example_hash example_ids.
Proof. apply separates_check. by vm_compute. Qed.

(** A block in which one account bonds and pays another. *)
Definition example_genesis : Ledger := funded example_hash address_a 10000000000.
Lemma example_nodup : NoDup example_ids.
Proof. apply (bool_decide_unpack _). by vm_compute. Qed.
Lemma example_lengths : Forall (fun id => length id = 32%nat) example_ids.
Proof. apply (bool_decide_unpack _). by vm_compute. Qed.
Lemma example_grants : example_hash (ascii "qtv/gov/grants") ∈ example_ids.
Proof. apply (bool_decide_unpack _). by vm_compute. Qed.
Lemma example_genesis_balanced : balanced example_hash example_ids 0 (fun _ => 0) example_genesis.
Proof.
  apply funded_balanced; [apply example_nodup|apply example_apart|apply example_in_play|done].
Qed.
Definition example_step (s : LedgerStep) (l : Ledger) : Ledger :=
  (run_step example_hash example_transfer s l).2.
Definition example_block : Ledger :=
  example_step (Native (Transferring address_a address_b 5000000 2000 2000))
    (example_step (Native (Bonding address_a 3000000000 1000 1))
      (example_step (NextBlock 10 address_b) example_genesis)).

Lemma example_ready :
  step_ready example_hash example_ids example_genesis (NextBlock 10 address_b).
Proof. split; [done|]. right. apply example_in_play. Qed.

Lemma ledger_conserves_coins_witness :
  total_supply example_hash example_block = Done (circulating example_hash example_ids example_block) /\
  total_staked example_hash example_block = Done (bonded example_hash example_ids example_block) /\
  bonded example_hash example_ids example_block = 3000000000.
Proof.
  destruct example_in_play as [Ha Hb].
  destruct (ledger_conserves_coins example_hash example_transfer example_ids example_nodup example_apart
    example_lengths example_grants example_transfer_moves example_genesis example_block
    example_genesis_balanced) as (H1 & H2 & _).
  - apply reach_step; [apply reach_step; [apply reach_step; [apply reach_start|]|]|].
    + apply example_ready.
    + split; [split; [done|by vm_compute]|done].
    + split; [split; [done|by vm_compute]|]. split; [done|]. split; [by vm_compute|done].
  - split; [exact H1|]. split; [exact H2|]. by vm_compute.
Defined.
