(* ===== verification/Bridge.v ===== *)
(** * Attestations of the bridge (qtv-node/src/bridge.rs)

    The facts operators attest, deposits on another chain and the outcome of exits,
    with their fixed-width wire formats, the operator set, and the quorum that makes
    a fact count.  [Reader] is a cursor on a slice; here a reader takes the unread
    rest of the slice and returns what it read with the new rest. *)

From S2P Require Import Prelude Codec Governance.

Definition ATTEST_DOMAIN := ascii "QUANTOVA/Q-ORACLE/ATTEST/v1".
Definition STATEMENT_DOMAIN := ascii "QUANTOVA/Q-ORACLE/BRIDGE-PROVER/v1".
Definition POP_DOMAIN := ascii "QUANTOVA/Q-ORACLE/OPERATOR-POP/v1".
Definition EXIT_ACK_DOMAIN := ascii "QUANTOVA/Q-ORACLE/EXIT-ACK/v1".
Definition FACT_VERSION : Z := 1.
Definition FACT_ENCODED_LEN : nat := 138.
Definition EXIT_FACT_VERSION : Z := 1.
Definition EXIT_FACT_ENCODED_LEN : nat := 138.
Definition ARTIFACT_ATTESTATION : Z := 1.
Definition ARTIFACT_STARK : Z := 2.
Definition ARTIFACT_EXIT_ACK : Z := 3.
Definition ENVELOPE_VERSION : Z := 1.

(** ** The reader *)

Definition Reader (A : Type) : Type := list byte -> option (A * list byte).

#[global] Instance Reader_ret : MRet Reader := fun A a s => Some (a, s).
#[global] Instance Reader_bind : MBind Reader := fun A B k m s =>
  match m s with Some (a, s') => k a s' | None => None end.
Definition rfail {A} : Reader A := fun _ => None.

Definition rtake (n : nat) : Reader (list byte) := fun s =>
  if (n <=? length s)%nat then Some (take n s, drop n s) else None.
Definition rint (n : nat) : Reader Z := bs ← rtake n; mret (from_le bs).
Definition ru8 : Reader Z := rint 1.
Definition ru16 : Reader Z := rint 2.
Definition ru32 : Reader Z := rint 4.
Definition ru64 : Reader Z := rint 8.
Definition ru128 : Reader Z := rint 16.
Definition array (n : nat) : Reader (list byte) := rtake n.
(** [for _ in 0..count]. *)
Fixpoint rrepeat {A} (n : nat) (m : Reader A) : Reader (list A) :=
  match n with
  | O => mret []
  | S n => x ← m; xs ← rrepeat n m; mret (x :: xs)
  end.
(** A whole slice: [reader.done().then_some(value)]. *)
Definition whole {A} (m : Reader A) (bytes : list byte) : option A :=
  match m bytes with Some (a, []) => Some a | _ => None end.

(** ** Facts *)

Inductive Direction : Type := DirDeposit | ExitAck.
Definition Direction_tag (d : Direction) : Z := match d with DirDeposit => 0 | ExitAck => 1 end.
Definition Direction_from_tag (tag : Z) : option Direction :=
  if tag =? 0 then Some DirDeposit else if tag =? 1 then Some ExitAck else None.
#[global] Instance Direction_eq : EqDecision Direction.
Proof. solve_decision. Defined.

Record Fact : Type := mkFact {
  fact_version : Z;
  source_chain : Z;
  fact_dest_chain : Z;
  route_id : Z;
  direction : Direction;
  fact_nonce : Z;
  source_ref : list byte;
  fact_asset : list byte;
  fact_amount : Z;
  recipient : list byte;
  finality_depth : Z;
  observed_height : Z;
  expiry_height : Z
}.

Definition Fact_encode (f : Fact) : list byte :=
  to_le 1 (fact_version f) ++ to_le 4 (source_chain f) ++ to_le 4 (fact_dest_chain f) ++ to_le 4 (route_id f) ++
  to_le 1 (Direction_tag (direction f)) ++ to_le 8 (fact_nonce f) ++ source_ref f ++ fact_asset f ++
  to_le 16 (fact_amount f) ++ recipient f ++ to_le 4 (finality_depth f) ++ to_le 8 (observed_height f) ++
  to_le 8 (expiry_height f).

(** [from_tag(reader.u8()?)?]. *)
Definition rtag {A} (from_tag : Z -> option A) : Reader A :=
  t ← ru8; match from_tag t with Some d => mret d | None => rfail end.

Definition Fact_read : Reader Fact :=
  version ← ru8; source ← ru32; dest ← ru32; route ← ru32; dir ← rtag Direction_from_tag; nonce ← ru64;
  sref ← array 32; asset ← array 16; amount ← ru128; to ← array 32; depth ← ru32; observed ← ru64; expiry ← ru64;
  mret (mkFact version source dest route dir nonce sref asset amount to depth observed expiry).
Definition Fact_decode : list byte -> option Fact := whole Fact_read.

Definition attest_preimage (f : Fact) (chain_id : Z) : list byte :=
  ATTEST_DOMAIN ++ Fact_encode f ++ to_le 8 chain_id.

Definition Fact_well_formed (f : Fact) : bool :=
  (fact_version f =? FACT_VERSION) && negb (source_chain f =? 0) && negb (fact_dest_chain f =? 0) &&
  negb (fact_amount f =? 0) && negb (bool_decide (fact_asset f = zeros 16)) &&
  negb (bool_decide (recipient f = zeros 32)) && negb (bool_decide (source_ref f = zeros 32)).

(** ** Attestations *)

Record SignerSig : Type := mkSignerSig { operator_id : Z; signer_signature : list byte }.
Record Attestation : Type := mkAttestation { att_fact : Fact; signatures : list SignerSig }.

Definition SignerSig_encode (s : SignerSig) : list byte :=
  to_le 4 (operator_id s) ++ to_le 2 (wrap 16 (len (signer_signature s))) ++ signer_signature s.
Definition SignerSig_read : Reader SignerSig :=
  id ← ru32; n ← ru16; signature ← rtake (Z.to_nat n); mret (mkSignerSig id signature).
Definition signatures_encode (ss : list SignerSig) : list byte :=
  to_le 4 (wrap 32 (len ss)) ++ concat (map SignerSig_encode ss).
Definition signatures_read : Reader (list SignerSig) := count ← ru32; rrepeat (Z.to_nat count) SignerSig_read.

Definition Attestation_encode (a : Attestation) : list byte :=
  to_le 1 ARTIFACT_ATTESTATION ++ to_le 1 ENVELOPE_VERSION ++ Fact_encode (att_fact a) ++
  signatures_encode (signatures a).
Definition rexpect (tag : Z) : Reader unit := t ← ru8; if negb (t =? tag) then rfail else mret tt.
Definition Attestation_read : Reader Attestation :=
  rexpect ARTIFACT_ATTESTATION;; rexpect ENVELOPE_VERSION;;
  fact ← Fact_read; ss ← signatures_read; mret (mkAttestation fact ss).

Record StarkEnvelope : Type := mkStark { statement_digest_of : list byte; proof : list byte }.
Definition StarkEnvelope_encode (s : StarkEnvelope) : list byte :=
  to_le 1 ARTIFACT_STARK ++ statement_digest_of s ++ to_le 4 (wrap 32 (len (proof s))) ++ proof s.
Definition StarkEnvelope_read : Reader StarkEnvelope :=
  rexpect ARTIFACT_STARK;;
  digest ← array 32; n ← ru32; bytes ← rtake (Z.to_nat n); mret (mkStark digest bytes).

Record MintArtifact : Type := mkArtifact { attestation : Attestation; stark : option StarkEnvelope }.
Definition framed (bytes : list byte) : list byte := to_le 4 (wrap 32 (len bytes)) ++ bytes.
Definition stark_bytes (s : option StarkEnvelope) : list byte :=
  match s with Some s => StarkEnvelope_encode s | None => [] end.
Definition MintArtifact_encode (a : MintArtifact) : list byte :=
  framed (Attestation_encode (attestation a)) ++ framed (stark_bytes (stark a)).
(** A frame whose content is read to its end. *)
Definition rframe {A} (m : Reader A) : Reader A :=
  n ← ru32; bytes ← rtake (Z.to_nat n);
  match whole m bytes with Some a => mret a | None => rfail end.
Definition stark_read : Reader (option StarkEnvelope) :=
  n ← ru32;
  if n =? 0 then mret None
  else
    bytes ← rtake (Z.to_nat n);
    match whole StarkEnvelope_read bytes with Some e => mret (Some e) | None => rfail end.
Definition MintArtifact_read : Reader MintArtifact :=
  att ← rframe Attestation_read; st ← stark_read; mret (mkArtifact att st).
Definition MintArtifact_decode : list byte -> option MintArtifact := whole MintArtifact_read.

(** ** Exits *)

Record ExitRequest : Type := mkExitRequest { req_asset : list byte; req_amount : Z; req_destination : list byte }.
Definition ExitRequest_encode (r : ExitRequest) : list byte :=
  req_asset r ++ to_le 16 (req_amount r) ++ req_destination r.
Definition ExitRequest_read : Reader ExitRequest :=
  asset ← array 16; amount ← ru128; destination ← array 32; mret (mkExitRequest asset amount destination).
Definition ExitRequest_decode : list byte -> option ExitRequest := whole ExitRequest_read.

Inductive ExitOutcome : Type := OutSettle | OutSlash.
Definition ExitOutcome_tag (o : ExitOutcome) : Z := match o with OutSettle => 1 | OutSlash => 2 end.
Definition ExitOutcome_from_tag (tag : Z) : option ExitOutcome :=
  if tag =? 1 then Some OutSettle else if tag =? 2 then Some OutSlash else None.

Record ExitFact : Type := mkExitFact {
  exit_version : Z;
  corridor : Z;
  exit_dest_chain : Z;
  exit_asset : list byte;
  exit_amount : Z;
  exit_holder : list byte;
  exit_destination : list byte;
  exit_burn_ref : list byte;
  exit_outcome : ExitOutcome
}.
Definition ExitFact_encode (f : ExitFact) : list byte :=
  to_le 1 (exit_version f) ++ to_le 4 (corridor f) ++ to_le 4 (exit_dest_chain f) ++ exit_asset f ++
  to_le 16 (exit_amount f) ++ exit_holder f ++ exit_destination f ++ exit_burn_ref f ++
  to_le 1 (ExitOutcome_tag (exit_outcome f)).
Definition ExitFact_read : Reader ExitFact :=
  version ← ru8; corr ← ru32; dest ← ru32; asset ← array 16; amount ← ru128; holder ← array 32;
  destination ← array 32; burn_ref ← array 32; out ← rtag ExitOutcome_from_tag;
  mret (mkExitFact version corr dest asset amount holder destination burn_ref out).
Definition ExitFact_decode : list byte -> option ExitFact := whole ExitFact_read.
Definition ack_preimage (f : ExitFact) (chain_id : Z) : list byte :=
  EXIT_ACK_DOMAIN ++ ExitFact_encode f ++ to_le 8 chain_id.
Definition ExitFact_well_formed (f : ExitFact) : bool :=
  (exit_version f =? EXIT_FACT_VERSION) && negb (corridor f =? 0) && negb (exit_dest_chain f =? 0) &&
  negb (exit_amount f =? 0) && negb (bool_decide (exit_asset f = zeros 16)) &&
  negb (bool_decide (exit_holder f = zeros 32)) && negb (bool_decide (exit_destination f = zeros 32)) &&
  negb (bool_decide (exit_burn_ref f = zeros 32)).

Record ExitAttestation : Type := mkExitAttestation { ack_fact : ExitFact; ack_signatures : list SignerSig }.
Definition ExitAttestation_encode (a : ExitAttestation) : list byte :=
  to_le 1 ARTIFACT_EXIT_ACK ++ to_le 1 ENVELOPE_VERSION ++ ExitFact_encode (ack_fact a) ++
  signatures_encode (ack_signatures a).
Definition ExitAttestation_read : Reader ExitAttestation :=
  rexpect ARTIFACT_EXIT_ACK;; rexpect ENVELOPE_VERSION;;
  fact ← ExitFact_read; ss ← signatures_read; mret (mkExitAttestation fact ss).
Definition ExitAttestation_decode : list byte -> option ExitAttestation := whole ExitAttestation_read.

(** ** Operators *)

Record OperatorSet : Type := mkOperators {
  operators : list (Z * list byte);
  op_threshold : Z;
  revoked : list Z
}.
Definition OperatorSet_new (ops : list (Z * list byte)) (t : Z) : OperatorSet := mkOperators ops t [].
Definition is_revoked (set : OperatorSet) (id : Z) : bool := existsb (Z.eqb id) (revoked set).
Definition revoke (set : OperatorSet) (id : Z) : bool * OperatorSet :=
  if negb (existsb (fun op => op.1 =? id) (operators set)) || is_revoked set id then (false, set)
  else (true, mkOperators (operators set) (op_threshold set) (revoked set ++ [id])).
Definition public_key (set : OperatorSet) (id : Z) : option (list byte) :=
  if is_revoked set id then None
  else option_map snd (find (fun op => op.1 =? id) (operators set)).

(** One entry of the list of operators. *)
Definition Operator_codec : Codec (Z * list byte) := mkCodec (Z * list byte)
  (fun op e => e |> encode u32_codec op.1 |> encode vec_u8_codec op.2)
  (let* id := decode u32_codec in let* key := decode vec_u8_codec in dret (id, key))
  (fun op => u32 op.1 /\ u64 (len op.2)).
Definition OperatorSet_encode (s : OperatorSet) (e : Encoder) : Encoder :=
  e |> encode u32_codec (wrap 32 (len (operators s))) |> encode_all Operator_codec (operators s)
    |> encode u32_codec (op_threshold s) |> encode u32_codec (wrap 32 (len (revoked s)))
    |> encode_all u32_codec (revoked s).
Definition OperatorSet_decode : Dec OperatorSet :=
  let* count := decode u32_codec in
  let* ops := decode_n (decode Operator_codec) (Z.to_nat count) in
  let* t := decode u32_codec in
  let* n := decode u32_codec in
  let* gone := decode_n (decode u32_codec) (Z.to_nat n) in
  dret (mkOperators ops t gone).
Definition OperatorSet_valid (s : OperatorSet) : Prop :=
  u32 (len (operators s)) /\ Forall (valid Operator_codec) (operators s) /\ u32 (op_threshold s) /\
  u32 (len (revoked s)) /\ Forall (valid u32_codec) (revoked s).
Definition OperatorSet_codec : Codec OperatorSet :=
  mkCodec OperatorSet OperatorSet_encode OperatorSet_decode OperatorSet_valid.

(** ** Quorums *)

Definition attest_context (era : list byte) : list byte := ATTEST_DOMAIN ++ era.
Definition exit_ack_context (era : list byte) : list byte := EXIT_ACK_DOMAIN ++ era.

Section Quorum.
(** [ml_dsa] of qtv-crypto: the lengths of a key and of a signature, and [verify] on
    key, message, signature and context. *)
Context (PUBLIC_KEY_BYTES SIGNATURE_BYTES : nat).
Context (ml_verify : list byte -> list byte -> list byte -> list byte -> bool).
Context (shake256 : list byte -> nat -> list byte).

Definition statement_digest (f : Fact) (operator : Z) : list byte :=
  shake256 (STATEMENT_DOMAIN ++ to_le 4 operator ++ Fact_encode f) 32.

Inductive StarkCheck : Type := Absent | BoundUnverified | Unbound.
Definition check_stark (f : Fact) (s : option StarkEnvelope) (operator : Z) : StarkCheck :=
  match s with
  | None => Absent
  | Some env => if bool_decide (statement_digest_of env = statement_digest f operator) then BoundUnverified else Unbound
  end.

Definition operator_pop_challenge (id : Z) (key : list byte) (chain_id : Z) : list byte :=
  to_le 8 chain_id ++ to_le 4 id ++ key.
Definition operator_pop_ok (id : Z) (key pop : list byte) (chain_id : Z) : bool :=
  if negb (length key =? PUBLIC_KEY_BYTES)%nat then false
  else if negb (length pop =? SIGNATURE_BYTES)%nat then false
  else ml_verify key (operator_pop_challenge id key chain_id) pop POP_DOMAIN.

(** The loop over the signatures: the operators tried so far and the keys counted. *)
Fixpoint count_keys (set : OperatorSet) (check : list byte -> list byte -> bool) (ss : list SignerSig)
    (attempted : list Z) (counted : list (list byte)) : list (list byte) :=
  match ss with
  | [] => counted
  | s :: ss =>
      if existsb (Z.eqb (operator_id s)) attempted then count_keys set check ss attempted counted
      else
        let attempted := operator_id s :: attempted in
        match public_key set (operator_id s) with
        | None => count_keys set check ss attempted counted
        | Some key =>
            if bool_decide (key ∈ counted) then count_keys set check ss attempted counted
            else if negb (length key =? PUBLIC_KEY_BYTES)%nat then count_keys set check ss attempted counted
            else if negb (length (signer_signature s) =? SIGNATURE_BYTES)%nat then
              count_keys set check ss attempted counted
            else if check key (signer_signature s) then count_keys set check ss attempted (key :: counted)
            else count_keys set check ss attempted counted
        end
  end.

Definition quorum_attests (set : OperatorSet) (a : Attestation) (dest_chain chain_id : Z) (era : list byte) : bool :=
  if op_threshold set =? 0 then false
  else if negb (Fact_well_formed (att_fact a)) then false
  else if negb (fact_dest_chain (att_fact a) =? dest_chain) || negb (bool_decide (direction (att_fact a) = DirDeposit))
  then false
  else if (length (operators set) <? length (signatures a))%nat then false
  else
    let message := attest_preimage (att_fact a) chain_id in
    op_threshold set <=? wrap 32 (len (count_keys set
      (fun key signature => ml_verify key message signature (attest_context era)) (signatures a) [] [])).

Definition exit_quorum_attests (set : OperatorSet) (a : ExitAttestation) (dest_chain chain_id : Z)
    (era : list byte) : bool :=
  if op_threshold set =? 0 then false
  else if negb (ExitFact_well_formed (ack_fact a)) then false
  else if negb (exit_dest_chain (ack_fact a) =? dest_chain) then false
  else if (length (operators set) <? length (ack_signatures a))%nat then false
  else
    let message := ack_preimage (ack_fact a) chain_id in
    op_threshold set <=? wrap 32 (len (count_keys set
      (fun key signature => ml_verify key message signature (exit_ack_context era)) (ack_signatures a) [] [])).

Fixpoint first_operator_signs (set : OperatorSet) (ss : list SignerSig) (message era : list byte) (exit : bool) : bool :=
  match ss with
  | [] => false
  | s :: ss =>
      match public_key set (operator_id s) with
      | None => first_operator_signs set ss message era exit
      | Some key =>
          if negb (length key =? PUBLIC_KEY_BYTES)%nat then false
          else if negb (length (signer_signature s) =? SIGNATURE_BYTES)%nat then false
          else ml_verify key message (signer_signature s) (if exit then exit_ack_context era else attest_context era)
      end
  end.
End Quorum.

(** ** Wire formats *)

(** A reader and the bytes it reads: it reads the image of every value that satisfies
    [P], and nothing else. *)
Class Wire {A} (m : Reader A) (image : A -> list byte) (P : A -> Prop) : Prop := {
  wire_reads : forall v post, P v -> m (image v ++ post) = Some (v, post);
  wire_exact : forall s v post, m s = Some (v, post) -> P v /\ s = image v ++ post
}.

Lemma whole_wire {A} (m : Reader A) image P `{!Wire m image P} bs v :
  whole m bs = Some v <-> P v /\ bs = image v.
Proof.
  unfold whole. split.
  - destruct (m bs) as [[a [|]]|] eqn:E; try done. intros [= <-].
    apply wire_exact in E as [HP ->]. by rewrite app_nil_r.
  - intros [HP ->]. rewrite <- (app_nil_r (image v)). by rewrite (wire_reads v [] HP).
Qed.

Lemma rbind_inv {A B} (m : Reader A) (k : A -> Reader B) s b s' :
  (m ≫= k) s = Some (b, s') -> exists a s1, m s = Some (a, s1) /\ k a s1 = Some (b, s').
Proof. unfold mbind, Reader_bind. destruct (m s) as [[a s1]|]; [|done]. eauto. Qed.

Lemma rbind_reads {A B} (m : Reader A) image P (k : A -> Reader B) v post r :
  Wire m image P -> P v -> k v post = r -> (m ≫= k) (image v ++ post) = r.
Proof. intros W Hv <-. unfold mbind, Reader_bind. by rewrite (wire_reads v post Hv). Qed.

(** Reads the next field of a concatenation. *)
Ltac read_field :=
  rewrite <- ?app_assoc;
  match goal with
  | |- (?m ≫= _) _ = _ =>
      let W := fresh "W" in eassert (W : Wire m _ _) by typeclasses eauto;
      eapply (rbind_reads m _ _ _ _ _ _ W); [|clear W]; cbv beta
  end.

#[global] Instance rtake_wire n : Wire (rtake n) (fun v => v) (fun v => length v = n).
Proof.
  split.
  - intros v post <-. unfold rtake. rewrite (proj2 (Nat.leb_le _ _)) by (rewrite length_app; lia).
    by rewrite take_app_length, drop_app_length.
  - intros s v post. unfold rtake. destruct (_ <=? _)%nat eqn:E; [|done]. apply Nat.leb_le in E.
    intros [= <- <-]. rewrite length_take, take_drop. split; [lia|done].
Qed.

#[global] Instance rint_wire n : Wire (rint n) (to_le n) (fun v => 0 <= v < 256 ^ Z.of_nat n).
Proof.
  split.
  - intros v post Hv. unfold rint. read_field; [apply length_to_le|].
    unfold mret, Reader_ret. by rewrite from_to_le.
  - intros s v post (bs & s1 & H1 & [= <- <-])%rbind_inv. apply wire_exact in H1 as [Hl ->].
    split; [rewrite <- Hl; apply from_le_range|]. by rewrite (to_from_le_n n bs Hl).
Qed.
#[global] Instance array_wire n : Wire (array n) (fun v => v) (fun v => length v = n).
Proof. apply rtake_wire. Qed.
#[global] Instance ru8_wire : Wire ru8 (to_le 1) (fun v => u8 v). Proof. exact (rint_wire 1). Qed.
#[global] Instance ru16_wire : Wire ru16 (to_le 2) (fun v => u16 v). Proof. exact (rint_wire 2). Qed.
#[global] Instance ru32_wire : Wire ru32 (to_le 4) (fun v => u32 v). Proof. exact (rint_wire 4). Qed.
#[global] Instance ru64_wire : Wire ru64 (to_le 8) (fun v => u64 v). Proof. exact (rint_wire 8). Qed.
#[global] Instance ru128_wire : Wire ru128 (to_le 16) (fun v => u128 v). Proof. exact (rint_wire 16). Qed.

Lemma rtag_wire {A} (from_tag : Z -> option A) (tag : A -> Z) :
  (forall a, from_tag (tag a) = Some a /\ u8 (tag a)) -> (forall t a, from_tag t = Some a -> t = tag a) ->
  Wire (rtag from_tag) (fun a => to_le 1 (tag a)) (fun _ => True).
Proof.
  intros H1 H2. split.
  - intros v post _. unfold rtag. read_field; [apply H1|]. by rewrite (proj1 (H1 v)).
  - intros s v post (t & s1 & E & Hk)%rbind_inv. apply wire_exact in E as [_ ->].
    destruct (from_tag t) as [a|] eqn:Et; [|done]. injection Hk as -> ->. by rewrite (H2 t v Et).
Qed.
#[global] Instance direction_wire : Wire (rtag Direction_from_tag) (fun d => to_le 1 (Direction_tag d)) (fun _ => True).
Proof. apply rtag_wire; [by intros []|]. intros t a. unfold Direction_from_tag. repeat case_step; bool_to_prop; by intros [= <-]. Qed.
#[global] Instance outcome_wire : Wire (rtag ExitOutcome_from_tag) (fun d => to_le 1 (ExitOutcome_tag d)) (fun _ => True).
Proof. apply rtag_wire; [by intros []|]. intros t a. unfold ExitOutcome_from_tag. repeat case_step; bool_to_prop; by intros [= <-]. Qed.

Lemma rexpect_inv t s u s' : rexpect t s = Some (u, s') -> s = to_le 1 t ++ s'.
Proof.
  intros (t' & s1 & E & Hk)%rbind_inv. apply wire_exact in E as [_ ->].
  destruct (negb _) eqn:Eb; [done|]. injection Hk as _ ->. bool_to_prop. by subst.
Qed.
Lemma rexpect_reads {B} t (k : unit -> Reader B) post :
  u8 t -> (rexpect t ≫= k) (to_le 1 t ++ post) = k tt post.
Proof.
  intros Ht. unfold mbind at 1, Reader_bind, rexpect. unfold mbind, Reader_bind.
  rewrite (wire_reads (Wire := ru8_wire) t post Ht). by rewrite Z.eqb_refl.
Qed.

(** Follows a reader through its fields, forwards and backwards. *)
Ltac reads_forward :=
  rewrite <- ?app_assoc; repeat (rewrite rexpect_reads by done); repeat (read_field; [done|]); try reflexivity.
Ltac reads_back :=
  repeat match goal with
  | H : (rexpect _ ≫= _) _ = Some (_, _) |- _ =>
      let E := fresh "E" in apply rbind_inv in H as (? & ? & E & H); apply rexpect_inv in E as ->
  | H : (_ ≫= _) _ = Some (_, _) |- _ =>
      let E := fresh "E" in let R := fresh "R" in apply rbind_inv in H as (? & ? & E & R);
      apply wire_exact in E as [E ->]
  | H : mret _ _ = Some (_, _) |- _ => injection H as <- <-
  end.

Definition Fact_ok (f : Fact) : Prop :=
  u8 (fact_version f) /\ u32 (source_chain f) /\ u32 (fact_dest_chain f) /\ u32 (route_id f) /\ u64 (fact_nonce f) /\
  length (source_ref f) = 32%nat /\ length (fact_asset f) = 16%nat /\ u128 (fact_amount f) /\
  length (recipient f) = 32%nat /\ u32 (finality_depth f) /\ u64 (observed_height f) /\ u64 (expiry_height f).

Ltac fact_fields :=
  cbn [fact_version source_chain fact_dest_chain route_id direction fact_nonce source_ref fact_asset fact_amount
    recipient finality_depth observed_height expiry_height].
Ltac fact_fields_in H :=
  cbn [fact_version source_chain fact_dest_chain route_id direction fact_nonce source_ref fact_asset fact_amount
    recipient finality_depth observed_height expiry_height] in H.

#[global] Instance Fact_wire : Wire Fact_read Fact_encode Fact_ok.
Proof.
  split.
  - intros [] post H. unfold Fact_ok in H. fact_fields_in H. destruct_and?. unfold Fact_read, Fact_encode.
    fact_fields. reads_forward.
  - intros s v post H. unfold Fact_read in H. reads_back.
    unfold Fact_ok, Fact_encode. fact_fields. rewrite <- ?app_assoc. split; [split_and!; done|done].
Qed.

Definition SignerSig_ok (s : SignerSig) : Prop := u32 (operator_id s) /\ u16 (len (signer_signature s)).
Definition signatures_ok (ss : list SignerSig) : Prop := u32 (len ss) /\ Forall SignerSig_ok ss.
Definition Attestation_ok (a : Attestation) : Prop := Fact_ok (att_fact a) /\ signatures_ok (signatures a).

Lemma len_counted {A} (l : list A) n : length l = Z.to_nat n -> 0 <= n -> len l = n.
Proof. unfold len. lia. Qed.


#[global] Instance SignerSig_wire : Wire SignerSig_read SignerSig_encode SignerSig_ok.
Proof.
  split.
  - intros [id sg] post [H1 H2]. cbn [operator_id signer_signature] in *.
    unfold SignerSig_read, SignerSig_encode. cbn [operator_id signer_signature]. rewrite wrap_id by done.
    do 2 (read_field; [done|]). read_field; [unfold len; lia|done].
  - intros s v post H. unfold SignerSig_read in H. reads_back.
    unfold SignerSig_ok, SignerSig_encode. cbn [operator_id signer_signature].
    match goal with E : u16 ?n, L : length _ = Z.to_nat ?n |- _ =>
      apply len_counted in L; [|apply E]; rewrite L, wrap_id by done end.
    rewrite <- ?app_assoc. done.
Qed.

Lemma rrepeat_wire {A} (m : Reader A) image P `{!Wire m image P} n :
  Wire (rrepeat n m) (fun xs => concat (map image xs)) (fun xs => length xs = n /\ Forall P xs).
Proof.
  induction n as [|n IH]; split.
  - intros [|] post [Hl _]; done.
  - intros s v post [= <- <-]. done.
  - intros [|x xs] post [Hl Hf]; [done|]. apply Forall_cons in Hf as [Hx Hf]. cbn [rrepeat map concat].
    read_field; [done|]. apply (rbind_reads (rrepeat n m) (fun xs => concat (map image xs)) _ _ xs post _ IH); [|done]. split; [by injection Hl|done].
  - intros s v post H. cbn [rrepeat] in H. apply rbind_inv in H as (x & s1 & E & H).
    apply wire_exact in E as [Hx ->]. apply rbind_inv in H as (xs & s2 & E & H).
    apply (wire_exact (Wire := IH)) in E as [[Hl Hf] ->]. injection H as <- <-.
    cbn [map concat length]. rewrite <- app_assoc. split; [|done]. split; [by rewrite Hl|by constructor].
Qed.

#[global] Instance signatures_wire : Wire signatures_read signatures_encode signatures_ok.
Proof.
  split.
  - intros ss post [H1 H2]. unfold signatures_read, signatures_encode. rewrite wrap_id by done.
    read_field; [done|]. apply (wire_reads (Wire := rrepeat_wire SignerSig_read SignerSig_encode SignerSig_ok _)).
    split; [unfold len; lia|done].
  - intros s v post H. unfold signatures_read in H. apply rbind_inv in H as (n & s1 & E & H).
    apply wire_exact in E as [E ->].
    apply (wire_exact (Wire := rrepeat_wire SignerSig_read SignerSig_encode SignerSig_ok _)) in H as [[Hl Hf] ->].
    apply len_counted in Hl; [|apply E]. unfold signatures_ok, signatures_encode.
    rewrite Hl, wrap_id by done. by rewrite <- app_assoc.
Qed.

#[global] Instance Attestation_wire : Wire Attestation_read Attestation_encode Attestation_ok.
Proof.
  split.
  - intros [f ss] post [H1 H2]. unfold Attestation_read, Attestation_encode. cbn [att_fact signatures] in *.
    reads_forward.
  - intros s v post H. unfold Attestation_read in H. reads_back. unfold Attestation_ok, Attestation_encode.
    cbn [att_fact signatures]. by rewrite <- ?app_assoc.
Qed.

Definition StarkEnvelope_ok (s : StarkEnvelope) : Prop :=
  length (statement_digest_of s) = 32%nat /\ u32 (len (proof s)).
#[global] Instance StarkEnvelope_wire : Wire StarkEnvelope_read StarkEnvelope_encode StarkEnvelope_ok.
Proof.
  split.
  - intros [d p] post [H1 H2]. unfold StarkEnvelope_read, StarkEnvelope_encode.
    cbn [statement_digest_of proof] in *. rewrite wrap_id by done. rewrite <- ?app_assoc, rexpect_reads by done.
    do 2 (read_field; [done|]). read_field; [unfold len; lia|done].
  - intros s v post H. unfold StarkEnvelope_read in H. reads_back. unfold StarkEnvelope_ok, StarkEnvelope_encode.
    cbn [statement_digest_of proof].
    match goal with E : u32 ?n, L : length _ = Z.to_nat ?n |- _ =>
      apply len_counted in L; [|apply E]; rewrite L, wrap_id by done end.
    by rewrite <- ?app_assoc.
Qed.

(** A frame carries at most [u32::MAX] bytes. *)
Definition frame_ok (bytes : list byte) : Prop := u32 (len bytes).

Lemma rframe_wire {A} (m : Reader A) image P `{!Wire m image P} :
  Wire (rframe m) (fun v => framed (image v)) (fun v => P v /\ frame_ok (image v)).
Proof.
  split.
  - intros v post [HP Hl]. unfold rframe, framed, frame_ok in *. rewrite wrap_id by done.
    read_field; [done|]. read_field; [unfold len; lia|].
    by rewrite (proj2 (whole_wire m image P (image v) v)).
  - intros s v post H. unfold rframe in H. apply rbind_inv in H as (n & s1 & E1 & H).
    apply wire_exact in E1 as [E1 ->]. apply rbind_inv in H as (bs & s2 & E2 & H).
    apply wire_exact in E2 as [E2 ->]. destruct (whole m bs) as [a|] eqn:Ew; [|done].
    injection H as -> ->. apply (whole_wire m image P) in Ew as [HP ->]. apply len_counted in E2; [|apply E1].
    unfold framed, frame_ok. rewrite E2, wrap_id by done. by rewrite <- app_assoc.
Qed.

Definition stark_ok (s : option StarkEnvelope) : Prop :=
  match s with Some e => StarkEnvelope_ok e /\ frame_ok (StarkEnvelope_encode e) | None => True end.
Lemma stark_image_pos e : 0 < len (StarkEnvelope_encode e).
Proof.
  unfold StarkEnvelope_encode. rewrite !len_app, len_to_le.
  pose proof (len_nonneg (statement_digest_of e)). pose proof (len_nonneg (to_le 4 (wrap 32 (len (proof e))))).
  pose proof (len_nonneg (proof e)). lia.
Qed.
#[global] Instance stark_wire : Wire stark_read (fun s => framed (stark_bytes s)) stark_ok.
Proof.
  split.
  - intros [e|] post H; unfold stark_read, framed; cbn [stark_bytes stark_ok] in *.
    + destruct H as [He Hl]. unfold frame_ok in Hl. rewrite wrap_id by done. read_field; [done|].
      pose proof (stark_image_pos e). rewrite (proj2 (Z.eqb_neq _ _)) by lia.
      read_field; [unfold len; lia|]. by rewrite (proj2 (whole_wire StarkEnvelope_read _ _ _ e)).
    + by read_field.
  - intros s v post H. unfold stark_read in H. apply rbind_inv in H as (n & s1 & E1 & H).
    apply wire_exact in E1 as [E1 ->]. unfold framed. destruct (n =? 0) eqn:E0; bool_to_prop.
    + injection H as <- <-. subst. done.
    + apply rbind_inv in H as (bs & s2 & E2 & H). apply wire_exact in E2 as [E2 ->].
      destruct (whole StarkEnvelope_read bs) as [a|] eqn:Ew; [|done]. injection H as <- <-.
      apply (whole_wire StarkEnvelope_read _ _) in Ew as [HP ->]. apply len_counted in E2; [|apply E1].
      cbn [stark_bytes stark_ok]. unfold frame_ok. rewrite E2, wrap_id by done. by rewrite <- app_assoc.
Qed.

Definition MintArtifact_ok (a : MintArtifact) : Prop :=
  (Attestation_ok (attestation a) /\ frame_ok (Attestation_encode (attestation a))) /\ stark_ok (stark a).
#[global] Instance MintArtifact_wire : Wire MintArtifact_read MintArtifact_encode MintArtifact_ok.
Proof.
  pose proof (rframe_wire Attestation_read Attestation_encode Attestation_ok) as W. split.
  - intros [a st] post [H1 H2]. unfold MintArtifact_read, MintArtifact_encode. cbn [attestation stark] in *.
    rewrite <- app_assoc. eapply (rbind_reads _ _ _ _ a _ _ W H1). by read_field.
  - intros s v post H. unfold MintArtifact_read in H. apply rbind_inv in H as (a & s1 & E1 & H).
    apply (wire_exact (Wire := W)) in E1 as [E1 ->]. reads_back. unfold MintArtifact_ok, MintArtifact_encode.
    cbn [attestation stark]. by rewrite <- app_assoc.
Qed.

Definition ExitRequest_ok (r : ExitRequest) : Prop :=
  length (req_asset r) = 16%nat /\ u128 (req_amount r) /\ length (req_destination r) = 32%nat.
#[global] Instance ExitRequest_wire : Wire ExitRequest_read ExitRequest_encode ExitRequest_ok.
Proof.
  split.
  - intros [] post (? & ? & ?). unfold ExitRequest_read, ExitRequest_encode. cbn [req_asset req_amount req_destination] in *.
    reads_forward.
  - intros s v post H. unfold ExitRequest_read in H. reads_back. unfold ExitRequest_ok, ExitRequest_encode.
    cbn [req_asset req_amount req_destination]. rewrite <- ?app_assoc. done.
Qed.

Definition ExitFact_ok (f : ExitFact) : Prop :=
  u8 (exit_version f) /\ u32 (corridor f) /\ u32 (exit_dest_chain f) /\ length (exit_asset f) = 16%nat /\
  u128 (exit_amount f) /\ length (exit_holder f) = 32%nat /\ length (exit_destination f) = 32%nat /\
  length (exit_burn_ref f) = 32%nat.
#[global] Instance ExitFact_wire : Wire ExitFact_read ExitFact_encode ExitFact_ok.
Proof.
  split.
  - intros [] post (? & ? & ? & ? & ? & ? & ? & ?). unfold ExitFact_read, ExitFact_encode.
    cbn [exit_version corridor exit_dest_chain exit_asset exit_amount exit_holder exit_destination exit_burn_ref
      exit_outcome] in *. reads_forward.
  - intros s v post H. unfold ExitFact_read in H. reads_back. unfold ExitFact_ok, ExitFact_encode.
    cbn [exit_version corridor exit_dest_chain exit_asset exit_amount exit_holder exit_destination exit_burn_ref
      exit_outcome]. rewrite <- ?app_assoc. split; [split_and!; done|done].
Qed.

Definition ExitAttestation_ok (a : ExitAttestation) : Prop :=
  ExitFact_ok (ack_fact a) /\ signatures_ok (ack_signatures a).
#[global] Instance ExitAttestation_wire : Wire ExitAttestation_read ExitAttestation_encode ExitAttestation_ok.
Proof.
  split.
  - intros [f ss] post [H1 H2]. unfold ExitAttestation_read, ExitAttestation_encode.
    cbn [ack_fact ack_signatures] in *. reads_forward.
  - intros s v post H. unfold ExitAttestation_read in H. reads_back. unfold ExitAttestation_ok, ExitAttestation_encode.
    cbn [ack_fact ack_signatures]. by rewrite <- ?app_assoc.
Qed.

(** The wire formats of the bridge are exact: a mint artifact, an exit attestation,
    an exit request and a fact decode from a string exactly when it is the encoding
    of a value whose fields fit their types.  Nothing may follow, inside a frame or
    after it. *)
Theorem bridge_wire_exact :
  (forall bs a, MintArtifact_decode bs = Some a <-> MintArtifact_ok a /\ bs = MintArtifact_encode a) /\
  (forall bs a, ExitAttestation_decode bs = Some a <-> ExitAttestation_ok a /\ bs = ExitAttestation_encode a) /\
  (forall bs r, ExitRequest_decode bs = Some r <-> ExitRequest_ok r /\ bs = ExitRequest_encode r) /\
  (forall bs f, Fact_decode bs = Some f <-> Fact_ok f /\ bs = Fact_encode f) /\
  (forall bs f, ExitFact_decode bs = Some f <-> ExitFact_ok f /\ bs = ExitFact_encode f).
Proof. split_and!; intros; by apply whole_wire; apply _. Qed.

(** ** The stored operator set *)

#[export] Instance Operator_appends : Appends Operator_codec.
Proof. unfold Operator_codec. codec_appends. Qed.
#[export] Instance Operator_roundtrip : RoundTrip Operator_codec.
Proof. unfold Operator_codec. codec_roundtrip. Qed.
#[export] Instance Operator_canonical : Canonical Operator_codec.
Proof. unfold Operator_codec. codec_canonical. Qed.

#[export] Instance OperatorSet_roundtrip : RoundTrip OperatorSet_codec.
Proof.
  intros [ops t gone] (H1 & H2 & H3 & H4 & H5). cbn [operators op_threshold revoked] in *.
  unfold OperatorSet_codec, OperatorSet_encode, OperatorSet_decode. codec_image. cbn [decode operators op_threshold revoked].
  rewrite !wrap_id by done.
  eapply reads_bind; [by apply reads_get_u32|]. cbn beta. unfold len at 1. rewrite Nat2Z.id.
  eapply reads_bind.
  { apply reads_decode_n. eapply Forall_impl; [exact H2|]. intros op Hop. by apply decode_encode. }
  cbn beta. eapply reads_bind; [by apply reads_get_u32|]. cbn beta.
  eapply reads_bind; [by apply reads_get_u32|]. cbn beta. unfold len at 1. rewrite Nat2Z.id.
  eapply reads_map; [|apply reads_ret].
  apply reads_decode_n. eapply Forall_impl; [exact H5|]. intros id Hid. by apply decode_encode.
Qed.

#[export] Instance OperatorSet_canonical : Canonical OperatorSet_codec.
Proof.
  unfold OperatorSet_codec, OperatorSet_encode, OperatorSet_decode.
  intros d v d' H. cbn [decode] in H. dec_inv.
  apply (decode_n_consumed _ (to_bytes Operator_codec) (valid Operator_codec)) in Hd0 as (L1 & F1 & C1);
    [|intros ? ? ? Hd; by apply decode_canonical in Hd].
  apply (decode_n_consumed _ (to_bytes u32_codec) (valid u32_codec)) in Hd3 as (L2 & F2 & C2);
    [|intros ? ? ? Hd; by apply decode_canonical in Hd].
  apply len_counted in L1, L2; [|apply H|apply H3].
  split; [cbn; unfold OperatorSet_valid; cbn [operators op_threshold revoked]; rewrite L1, L2; split_and!; done|].
  codec_image. cbn [operators op_threshold revoked]. rewrite L1, L2, !wrap_id by done. consumed_chain.
Qed.

(** Revoking keeps the others. *)
Lemma revoke_spec set id b set' :
  revoke set id = (b, set') ->
  (b = true -> public_key set' id = None) /\ (b = false -> set' = set) /\
  forall other, other <> id -> public_key set' other = public_key set other.
Proof.
  unfold revoke. destruct (_ || _); intros [= <- <-]; (split; [|split]); try done.
  - intros _. unfold public_key, is_revoked. cbn [revoked]. by rewrite existsb_app, <- orb_comm; cbn; rewrite Z.eqb_refl.
  - intros other Hne. unfold public_key, is_revoked. cbn [revoked operators]. rewrite existsb_app. cbn.
    by rewrite (proj2 (Z.eqb_neq _ _) Hne), !orb_false_r.
Qed.

(** ** Quorums are made of operators *)

Section QuorumSpec.
Context (PUBLIC_KEY_BYTES SIGNATURE_BYTES : nat).
Context (ml_verify : list byte -> list byte -> list byte -> list byte -> bool).
Abbreviation count_keys := (count_keys PUBLIC_KEY_BYTES SIGNATURE_BYTES).

(** [key] belongs to an operator that is not revoked and one of [ss] is its signature. *)
Definition signed_by (set : OperatorSet) (check : list byte -> list byte -> bool) (ss : list SignerSig)
    (key : list byte) : Prop :=
  exists s, s ∈ ss /\ public_key set (operator_id s) = Some key /\ length key = PUBLIC_KEY_BYTES /\
    check key (signer_signature s) = true.

Lemma count_keys_spec set check ss attempted counted :
  NoDup counted ->
  NoDup (count_keys set check ss attempted counted) /\
  forall key, key ∈ count_keys set check ss attempted counted ->
    key ∈ counted \/ signed_by set check ss key.
Proof.
  revert attempted counted. induction ss as [|s ss IH]; intros attempted counted Hnd; cbn [Bridge.count_keys]; [auto|].
  assert (Hskip : forall att, NoDup (count_keys set check ss att counted) /\
    forall key, key ∈ count_keys set check ss att counted -> key ∈ counted \/ signed_by set check (s :: ss) key).
  { intros att. destruct (IH att counted Hnd) as [H1 H2]. split; [done|]. intros key [|(s' & Hs & Hr)]%H2; [auto|].
    right. exists s'. split; [by right|done]. }
  destruct (existsb _ _); [apply Hskip|]. destruct (public_key _ _) as [key|] eqn:Ek; [|apply Hskip].
  case_bool_decide as Hin; [apply Hskip|]. destruct (negb _) eqn:E1; [apply Hskip|].
  destruct (negb (length (signer_signature s) =? _)%nat); [apply Hskip|].
  destruct (check _ _) eqn:Ec; [|apply Hskip].
  destruct (IH (operator_id s :: attempted) (key :: counted)) as [H1 H2]; [by constructor|].
  split; [done|]. intros k [[-> |]%elem_of_cons|(s' & Hs & Hr)]%H2; [right|by left|right].
  - exists s. split; [by left|]. apply negb_false_iff, Nat.eqb_eq in E1. done.
  - exists s'. split; [by right|done].
Qed.

(** The keys of the operators that are not revoked. *)
Definition live_keys (set : OperatorSet) : list (list byte) :=
  remove_dups (omap (fun op : Z * list byte => public_key set op.1) (operators set)).

Lemma public_key_live set id key : public_key set id = Some key -> key ∈ live_keys set.
Proof.
  intros H. apply elem_of_remove_dups, list_elem_of_omap. pose proof H as H'. revert H. unfold public_key at 1.
  destruct (is_revoked set id); [done|]. destruct (find _ _) as [op|] eqn:E; [|done]. intros [= <-].
  apply find_some in E as [Hin He]. apply Z.eqb_eq in He. exists op. split; [by apply list_elem_of_In|].
  by rewrite He.
Qed.

Lemma attest_preimage_inj f f' c c' :
  Fact_ok f -> Fact_ok f' -> u64 c -> u64 c' -> attest_preimage f c = attest_preimage f' c' -> f = f' /\ c = c'.
Proof.
  intros Hf Hf' Hc Hc' E. unfold attest_preimage in E. apply app_inv_head in E.
  pose proof (wire_reads f (to_le 8 c) Hf) as R1. rewrite E, (wire_reads f' (to_le 8 c') Hf') in R1.
  apply (inj Some), pair_eq in R1 as [-> R1]. split; [done|]. symmetry. by apply (to_le_inj 8).
Qed.

Lemma ack_preimage_inj f f' c c' :
  ExitFact_ok f -> ExitFact_ok f' -> u64 c -> u64 c' -> ack_preimage f c = ack_preimage f' c' -> f = f' /\ c = c'.
Proof.
  intros Hf Hf' Hc Hc' E. unfold ack_preimage in E. apply app_inv_head in E.
  pose proof (wire_reads f (to_le 8 c) Hf) as R1. rewrite E, (wire_reads f' (to_le 8 c') Hf') in R1.
  apply (inj Some), pair_eq in R1 as [-> R1]. split; [done|]. symmetry. by apply (to_le_inj 8).
Qed.

Definition attests (set : OperatorSet) (message context key : list byte) (ss : list SignerSig) : Prop :=
  signed_by set (fun key signature => ml_verify key message signature context) ss key.

Lemma counted_quorum set check ss :
  u32 (op_threshold set) -> op_threshold set <=? wrap 32 (len (count_keys set check ss [] [])) = true ->
  exists keys, NoDup keys /\ op_threshold set <= len keys /\ forall key, key ∈ keys -> signed_by set check ss key.
Proof.
  intros Ht Hq. apply Z.leb_le in Hq. destruct (count_keys_spec set check ss [] []) as [H1 H2]; [constructor|].
  exists (count_keys set check ss [] []). split; [done|]. split.
  - etrans; [exact Hq|]. unfold wrap. apply Z.mod_le; [apply len_nonneg|lia].
  - intros key [H%elem_of_nil|]%H2; done.
Qed.

Lemma quorum_meaning set a dest_chain chain_id era :
  u32 (op_threshold set) ->
  quorum_attests PUBLIC_KEY_BYTES SIGNATURE_BYTES ml_verify set a dest_chain chain_id era = true ->
  0 < op_threshold set /\ Fact_well_formed (att_fact a) = true /\ fact_dest_chain (att_fact a) = dest_chain /\
  direction (att_fact a) = DirDeposit /\
  exists keys, NoDup keys /\ op_threshold set <= len keys /\
    forall key, key ∈ keys -> attests set (attest_preimage (att_fact a) chain_id) (attest_context era) key (signatures a).
Proof.
  intros Ht. unfold quorum_attests. destruct (_ =? 0) eqn:E0; [done|]. bool_to_prop.
  destruct (Fact_well_formed _) eqn:Ew; [|done]. cbn [negb].
  destruct (negb _ || negb _) eqn:Ed; [done|]. apply orb_false_iff in Ed as [Ed1 Ed2].
  apply negb_false_iff in Ed1, Ed2. apply Z.eqb_eq in Ed1. apply bool_decide_eq_true in Ed2.
  destruct (_ <? _)%nat; [done|]. intros Hq. apply counted_quorum in Hq; [|done].
  unfold in_width in Ht. split_and!; try done. lia.
Qed.

Lemma exit_quorum_meaning set a dest_chain chain_id era :
  u32 (op_threshold set) ->
  exit_quorum_attests PUBLIC_KEY_BYTES SIGNATURE_BYTES ml_verify set a dest_chain chain_id era = true ->
  0 < op_threshold set /\ ExitFact_well_formed (ack_fact a) = true /\ exit_dest_chain (ack_fact a) = dest_chain /\
  exists keys, NoDup keys /\ op_threshold set <= len keys /\
    forall key, key ∈ keys -> attests set (ack_preimage (ack_fact a) chain_id) (exit_ack_context era) key (ack_signatures a).
Proof.
  intros Ht. unfold exit_quorum_attests. destruct (_ =? 0) eqn:E0; [done|]. bool_to_prop.
  destruct (ExitFact_well_formed _) eqn:Ew; [|done]. cbn [negb].
  destruct (negb _) eqn:Ed; [done|]. apply negb_false_iff, Z.eqb_eq in Ed.
  destruct (_ <? _)%nat; [done|]. intros Hq. apply counted_quorum in Hq; [|done].
  unfold in_width in Ht. split_and!; try done. lia.
Qed.

(** Two quorums meet in an operator when the threshold is more than half of the keys. *)
Lemma quorums_meet set m m' ctx ctx' ss ss' keys keys' :
  len (live_keys set) < 2 * op_threshold set ->
  NoDup keys -> op_threshold set <= len keys -> (forall key, key ∈ keys -> attests set m ctx key ss) ->
  NoDup keys' -> op_threshold set <= len keys' -> (forall key, key ∈ keys' -> attests set m' ctx' key ss') ->
  exists key, key ∈ live_keys set /\ attests set m ctx key ss /\ attests set m' ctx' key ss'.
Proof.
  intros Hl N1 L1 A1 N2 L2 A2.
  assert (Hlive : forall m ctx ss key, attests set m ctx key ss -> key ∈ live_keys set).
  { intros ? ? ? key (s & _ & Hk & _). by eapply public_key_live. }
  destruct (pigeonhole_meet (live_keys set) keys keys') as (key & K1 & K2); try done.
  - intros x Hx. by eapply Hlive, A1.
  - intros x Hx. by eapply Hlive, A2.
  - unfold len in *. lia.
  - exists key. split; [by eapply Hlive, A1|]. auto.
Qed.

End QuorumSpec.

