(* ===== verification/LedgerBridge.v ===== *)
(** * Bridged assets on the ledger (qtv-node/src/ledger.rs)

    Assets from other chains: registration with its caps, the mint of a deposit seen
    on the other side, the burn that asks for an exit, its settlement from the vault
    and its reversal, the assets contracts issue themselves, and the freeze of the
    bridge with its bond. *)

From S2P Require Import Prelude Codec Idfmt Events LedgerState LedgerKeys.
From S2P Require Import Governance Staking Fee LedgerStake Bridge.

(** ** Records *)

Record QAsset : Type := mkQAsset {
  asset_supply_of : Z;
  asset_cap : Z;
  asset_epoch_cap : Z;
  requires_stark : bool
}.
Definition QAsset_default : QAsset := mkQAsset 0 0 0 false.
Definition with_supply (s : Z) (a : QAsset) : QAsset :=
  mkQAsset s (asset_cap a) (asset_epoch_cap a) (requires_stark a).

Definition QAsset_encode (a : QAsset) (e : Encoder) : Encoder :=
  e |> encode u128_codec (asset_supply_of a) |> encode u128_codec (asset_cap a)
    |> encode u128_codec (asset_epoch_cap a) |> put_u8 (bool_u8 (requires_stark a)).
Definition QAsset_decode : Dec QAsset :=
  let* supply := decode u128_codec in
  let* cap := decode u128_codec in
  let* epoch_cap := decode u128_codec in
  let* stark := get_u8 in
  dret (mkQAsset supply cap epoch_cap (negb (stark =? 0))).
Definition QAsset_valid (a : QAsset) : Prop :=
  u128 (asset_supply_of a) /\ u128 (asset_cap a) /\ u128 (asset_epoch_cap a).
Definition QAsset_codec : Codec QAsset := mkCodec QAsset QAsset_encode QAsset_decode QAsset_valid.

Record OutstandingBurn : Type := mkBurn {
  burn_asset : list byte;
  burn_amount : Z;
  burn_beneficiary : list byte;
  burn_destination : list byte
}.

(** [<[u8; n]>::try_from(decoder.get_bytes()?)]. *)
Definition get_sized (n : nat) : Dec (list byte) :=
  let* bs := get_bytes in
  if (length bs =? n)%nat then dret bs else dfail (Truncated (Z.of_nat n) (len bs)).

Definition OutstandingBurn_encode (b : OutstandingBurn) (e : Encoder) : Encoder :=
  e |> put_bytes (burn_asset b) |> encode u128_codec (burn_amount b)
    |> put_bytes (burn_beneficiary b) |> put_bytes (burn_destination b).
Definition OutstandingBurn_decode : Dec OutstandingBurn :=
  let* asset := get_sized 16 in
  let* amount := decode u128_codec in
  let* beneficiary := get_sized 32 in
  let* destination := get_sized 32 in
  dret (mkBurn asset amount beneficiary destination).
Definition OutstandingBurn_valid (b : OutstandingBurn) : Prop :=
  length (burn_asset b) = 16%nat /\ u128 (burn_amount b) /\ length (burn_beneficiary b) = 32%nat /\
  length (burn_destination b) = 32%nat.
Definition OutstandingBurn_codec : Codec OutstandingBurn :=
  mkCodec OutstandingBurn OutstandingBurn_encode OutstandingBurn_decode OutstandingBurn_valid.

(** Why a referendum could not be enacted. *)
Inductive EnactError : Type :=
| Unknown | NotApproved | Constitution (v : Violation) | BadAddress | UnknownParameter | BadValue
| BridgeNotFrozen | NoCommittee | NotImplemented | Overflow | Expired.

(** ** Keys *)

Definition BRIDGE_ASSET_TAG := ascii "qtv/bridge/asset/".
Definition BRIDGE_BALANCE_TAG := ascii "qtv/bridge/bal/".
Definition ASSET_BALANCE_TAG := ascii "qtv/asset/bal/".
Definition ASSET_SUPPLY_TAG := ascii "qtv/asset/supply/".
Definition BRIDGE_SEEN_TAG := ascii "qtv/bridge/seen/".
Definition BRIDGE_EPOCHMINT_TAG := ascii "qtv/bridge/epochmint/".
Definition BRIDGE_VAULTBAL_TAG := ascii "qtv/bridge/vaultbal/".
Definition BRIDGE_ASSET_LIST_TAG := ascii "qtv/bridge/assetlist".
Definition CHAIN_GENESIS_HASH_TAG := ascii "qtv/chain/genesishash".
Definition BRIDGE_EPOCH_TAG := ascii "qtv/bridge/epoch".
Definition BRIDGE_BURN_REF_DOMAIN := ascii "qtv/bridge/burn-ref/v2".
Definition BRIDGE_EXIT_SEEN_TAG := ascii "qtv/bridge/exitseen/".
Definition BRIDGE_OUTSTANDING_TAG := ascii "qtv/bridge/outstanding/".
Definition BRIDGE_EPOCHPAY_TAG := ascii "qtv/bridge/epochpay/".
Definition BRIDGE_EPOCHPAYG_TAG := ascii "qtv/bridge/epochpayglobal/".
Definition BRIDGE_FREEZE_TAG := ascii "qtv/bridge/freeze".
Definition BRIDGE_LAST_LIFT_TAG := ascii "qtv/bridge/lastlift".
Definition BRIDGE_LAST_FREEZER_TAG := ascii "qtv/bridge/lastfreezer".
Definition BRIDGE_VAULT_TAG := ascii "qtv/bridge/vault".
Definition BRIDGE_GATEWAY_TAG := ascii "qtv/bridge/gateway".
Definition BRIDGE_EXITS_TAG := ascii "qtv/bridge/exits".
Definition BRIDGE_EXIT_MAX_TAG := ascii "qtv/bridge/exit-max".
Definition BRIDGE_FEDERATED_TAG := ascii "qtv/bridge/federated".
Definition BRIDGE_OPERATORS_TAG := ascii "qtv/bridge/operators".
Definition BRIDGE_DESTCHAIN_TAG := ascii "qtv/bridge/destchain".
Definition BRIDGE_ERA_TAG := ascii "qtv/bridge/era".
Definition FEDERATED_CORRIDOR_ENABLED : bool := false.
Definition BRIDGE_PAYOUTCAP_TAG := ascii "qtv/bridge/payoutcap".

Section Bridge.
Context (sha3_256 : list byte -> list byte).

Definition bridge_asset_key (asset_id : list byte) : list byte := sha3_256 (BRIDGE_ASSET_TAG ++ asset_id).
Definition bridge_balance_key (asset_id holder : list byte) : list byte :=
  sha3_256 (BRIDGE_BALANCE_TAG ++ asset_id ++ holder).
Definition asset_balance_key (asset_id holder : list byte) : list byte :=
  sha3_256 (ASSET_BALANCE_TAG ++ asset_id ++ holder).
Definition asset_supply_key (asset_id : list byte) : list byte := sha3_256 (ASSET_SUPPLY_TAG ++ asset_id).
Definition bridge_seen_key (source_chain : Z) (source_ref : list byte) : list byte :=
  sha3_256 (BRIDGE_SEEN_TAG ++ to_le 4 source_chain ++ source_ref).
Definition bridge_vault_custody_key (vault asset_id : list byte) : list byte :=
  sha3_256 (BRIDGE_VAULTBAL_TAG ++ vault ++ asset_id).
Definition bridge_epochmint_key (asset_id : list byte) (epoch : Z) : list byte :=
  sha3_256 (BRIDGE_EPOCHMINT_TAG ++ asset_id ++ to_le 8 epoch).
Definition bridge_exit_seen_key (burn_ref : list byte) : list byte := sha3_256 (BRIDGE_EXIT_SEEN_TAG ++ burn_ref).
Definition bridge_outstanding_key (burn_ref : list byte) : list byte :=
  sha3_256 (BRIDGE_OUTSTANDING_TAG ++ burn_ref).
Definition bridge_epochpay_key (asset_id : list byte) (epoch : Z) : list byte :=
  sha3_256 (BRIDGE_EPOCHPAY_TAG ++ asset_id ++ to_le 8 epoch).
Definition bridge_epochpay_global_key (epoch : Z) : list byte :=
  sha3_256 (BRIDGE_EPOCHPAYG_TAG ++ to_le 8 epoch).

Definition bridge_burn_ref (chain_id : Z) (genesis asset_id holder : list byte) (amount : Z)
    (destination : list byte) (sender_nonce event_index : Z) : list byte :=
  sha3_256 (into_bytes (Encoder_new |> put_bytes BRIDGE_BURN_REF_DOMAIN |> put_u64 chain_id
    |> put_bytes genesis |> put_bytes asset_id |> put_bytes holder |> put_u128 amount
    |> put_bytes destination |> put_u64 sender_nonce |> put_u64 event_index)).

(** ** Readers and setters *)

(** [get(..).filter(|bytes| !bytes.is_empty()).map(expect).unwrap_or(0)]. *)
Definition leaf_number {A} (c : Codec A) (x : A) (l : Ledger) (key : list byte) : outcome A :=
  obind (decode_some c (get_leaf l key)) (fun v => Done (default x v)).
Definition singleton_leaf (l : Ledger) (tag : list byte) : option (list byte) :=
  get_leaf l (stake_singleton_key sha3_256 tag).
Definition sized_leaf (n : nat) (leaf : option (list byte)) : option (list byte) :=
  match leaf with Some bytes => if (length bytes =? n)%nat then Some bytes else None | None => None end.

Definition bridged_asset (l : Ledger) (asset_id : list byte) : outcome (option QAsset) :=
  decode_some QAsset_codec (get_leaf l (bridge_asset_key asset_id)).
Definition set_bridged_asset (asset_id : list byte) (asset : QAsset) : M unit :=
  write_leaf (bridge_asset_key asset_id) (to_bytes QAsset_codec asset).

(** [bytes.chunks_exact(16)]. *)
Fixpoint chunks16 (fuel : nat) (bytes : list byte) : list (list byte) :=
  match fuel with
  | O => []
  | S fuel => if (length bytes <? 16)%nat then [] else take 16 bytes :: chunks16 fuel (drop 16 bytes)
  end.
Definition bridge_asset_ids (l : Ledger) : list (list byte) :=
  match singleton_leaf l BRIDGE_ASSET_LIST_TAG with
  | Some bytes => chunks16 (length bytes) bytes
  | None => []
  end.
Definition record_bridge_asset_id (asset_id : list byte) : M unit :=
  ids ← asks bridge_asset_ids;
  if bool_decide (asset_id ∈ ids) then mret tt
  else write_leaf (stake_singleton_key sha3_256 BRIDGE_ASSET_LIST_TAG) (concat (ids ++ [asset_id])).

Definition register_bridged_asset (asset_id : list byte) (cap epoch_cap : Z) (stark : bool) : M unit :=
  existing ← ask (fun l => bridged_asset l asset_id);
  let asset := mkQAsset (default 0 (option_map asset_supply_of existing)) cap epoch_cap stark in
  set_bridged_asset asset_id asset;;
  record_bridge_asset_id asset_id.

Definition bridged_supply (l : Ledger) (asset_id : list byte) : outcome Z :=
  obind (bridged_asset l asset_id) (fun a => Done (default 0 (option_map asset_supply_of a))).
Definition bridged_balance (l : Ledger) (asset_id holder : list byte) : outcome Z :=
  leaf_number u128_codec 0 l (bridge_balance_key asset_id holder).
Definition set_bridged_balance (asset_id holder : list byte) (amount : Z) : M unit :=
  write_leaf (bridge_balance_key asset_id holder) (to_bytes u128_codec amount).

Definition bridge_pool_vault (l : Ledger) : option (list byte) :=
  sized_leaf 32 (singleton_leaf l BRIDGE_VAULT_TAG).
Definition set_bridge_pool_vault (vault : list byte) : M unit :=
  write_leaf (stake_singleton_key sha3_256 BRIDGE_VAULT_TAG) vault.
Definition bridge_gateway (l : Ledger) : option (list byte) :=
  sized_leaf 32 (singleton_leaf l BRIDGE_GATEWAY_TAG).
Definition is_bridge_gateway (l : Ledger) (address : list byte) : bool :=
  match bridge_gateway l, address_id address with
  | Some gateway, Some id => bool_decide (gateway = id)
  | _, _ => false
  end.
Definition bridge_exits_enabled (l : Ledger) : bool :=
  match singleton_leaf l BRIDGE_EXITS_TAG with Some (b :: _) => bool_decide (b = x01) | _ => false end.
Definition set_bridge_exits_enabled (enabled : bool) : M unit :=
  write_leaf (stake_singleton_key sha3_256 BRIDGE_EXITS_TAG) [byte_of (bool_u8 enabled)].
Definition bridge_vault_custody (l : Ledger) (vault asset_id : list byte) : outcome Z :=
  leaf_number u128_codec 0 l (bridge_vault_custody_key vault asset_id).
Definition set_bridge_vault_custody (vault asset_id : list byte) (amount : Z) : M unit :=
  write_leaf (bridge_vault_custody_key vault asset_id) (to_bytes u128_codec amount).
Definition credit_vault_custody (asset_id : list byte) (amount : Z) : M bool :=
  pool ← asks bridge_pool_vault;
  match pool with
  | None => mret true
  | Some vault =>
      held ← ask (fun l => bridge_vault_custody l vault asset_id);
      match checked_add 128 held amount with
      | None => mret false
      | Some held => set_bridge_vault_custody vault asset_id held;; mret true
      end
  end.

Definition chain_genesis_hash (l : Ledger) : list byte :=
  default (replicate 32 x00) (sized_leaf 32 (singleton_leaf l CHAIN_GENESIS_HASH_TAG)).
Definition bridge_epoch (l : Ledger) : outcome Z :=
  leaf_number u64_codec 0 l (stake_singleton_key sha3_256 BRIDGE_EPOCH_TAG).
Definition set_bridge_epoch (epoch : Z) : M unit :=
  write_leaf (stake_singleton_key sha3_256 BRIDGE_EPOCH_TAG) (to_bytes u64_codec epoch).
Definition bridge_reference_seen (l : Ledger) (source_chain : Z) (source_ref : list byte) : bool :=
  flagged (get_leaf l (bridge_seen_key source_chain source_ref)).
Definition mark_bridge_reference (source_chain : Z) (source_ref : list byte) : M unit :=
  write_leaf (bridge_seen_key source_chain source_ref) [x01].
Definition bridge_epoch_minted (l : Ledger) (asset_id : list byte) (epoch : Z) : outcome Z :=
  leaf_number u128_codec 0 l (bridge_epochmint_key asset_id epoch).
Definition set_bridge_epoch_minted (asset_id : list byte) (epoch amount : Z) : M unit :=
  write_leaf (bridge_epochmint_key asset_id epoch) (to_bytes u128_codec amount).
Definition bridge_exit_settled (l : Ledger) (burn_ref : list byte) : bool :=
  flagged (get_leaf l (bridge_exit_seen_key burn_ref)).
Definition mark_bridge_exit_settled (burn_ref : list byte) : M unit :=
  write_leaf (bridge_exit_seen_key burn_ref) [x01].
Definition bridge_outstanding_burn (l : Ledger) (burn_ref : list byte) : outcome (option OutstandingBurn) :=
  decode_some OutstandingBurn_codec (get_leaf l (bridge_outstanding_key burn_ref)).
Definition record_outstanding_burn (burn_ref asset_id : list byte) (amount : Z)
    (beneficiary destination : list byte) : M unit :=
  write_leaf (bridge_outstanding_key burn_ref)
    (to_bytes OutstandingBurn_codec (mkBurn asset_id amount beneficiary destination)).
Definition outstanding_burn_matches (l : Ledger) (burn_ref asset_id : list byte) (amount : Z)
    (beneficiary destination : list byte) : outcome bool :=
  obind (bridge_outstanding_burn l burn_ref) (fun found => Done (
    match found with
    | Some record => bool_decide (burn_asset record = asset_id) && (burn_amount record =? amount) &&
        bool_decide (burn_destination record = destination) && bool_decide (burn_beneficiary record = beneficiary)
    | None => false
    end)).
Definition consume_outstanding_burn (burn_ref : list byte) : M unit :=
  erase_leaf (bridge_outstanding_key burn_ref) ;; mret tt.
Definition bridge_epoch_paid (l : Ledger) (asset_id : list byte) (epoch : Z) : outcome Z :=
  leaf_number u128_codec 0 l (bridge_epochpay_key asset_id epoch).
Definition set_bridge_epoch_paid (asset_id : list byte) (epoch amount : Z) : M unit :=
  write_leaf (bridge_epochpay_key asset_id epoch) (to_bytes u128_codec amount).
Definition bridge_epoch_paid_global (l : Ledger) (epoch : Z) : outcome Z :=
  leaf_number u128_codec 0 l (bridge_epochpay_global_key epoch).
Definition set_bridge_epoch_paid_global (epoch amount : Z) : M unit :=
  write_leaf (bridge_epochpay_global_key epoch) (to_bytes u128_codec amount).
Definition bridge_payout_cap (l : Ledger) : outcome Z :=
  leaf_number u128_codec 0 l (stake_singleton_key sha3_256 BRIDGE_PAYOUTCAP_TAG).
Definition set_bridge_payout_cap (cap : Z) : M unit :=
  write_leaf (stake_singleton_key sha3_256 BRIDGE_PAYOUTCAP_TAG) (to_bytes u128_codec cap).
Definition bridge_freeze (l : Ledger) : outcome (option BridgeFreeze) :=
  decode_some BridgeFreeze_codec (singleton_leaf l BRIDGE_FREEZE_TAG).
Definition bridge_is_frozen (l : Ledger) : outcome bool :=
  obind (bridge_freeze l) (fun r => Done (bool_decide (is_Some r))).

(** [<[u8; 16]>::try_from(bytes).ok().map(u128::from_be_bytes).unwrap_or(0)]. *)
Definition bridge_exit_max_amount (l : Ledger) : Z :=
  match sized_leaf 16 (singleton_leaf l BRIDGE_EXIT_MAX_TAG) with Some bytes => from_be bytes | None => 0 end.
Definition seed_bridge_exit_max_amount (amount : Z) : M unit :=
  write_leaf (stake_singleton_key sha3_256 BRIDGE_EXIT_MAX_TAG) (to_be 16 amount).
Definition bridge_federated_enabled (l : Ledger) : bool :=
  match singleton_leaf l BRIDGE_FEDERATED_TAG with
  | Some bytes => match bytes with b :: _ => bool_decide (b = x01) | [] => false end
  | None => FEDERATED_CORRIDOR_ENABLED
  end.
Definition seed_bridge_federated_enabled (enabled : bool) : M unit :=
  write_leaf (stake_singleton_key sha3_256 BRIDGE_FEDERATED_TAG) [byte_of (bool_u8 enabled)].
Definition bridge_operator_set (l : Ledger) : outcome (option OperatorSet) :=
  decode_some OperatorSet_codec (singleton_leaf l BRIDGE_OPERATORS_TAG).
(** [None] when the threshold is below two. *)
Definition seed_bridge_operator_set (set : OperatorSet) : M bool :=
  if op_threshold set <? 2 then mret false
  else
    write_leaf (stake_singleton_key sha3_256 BRIDGE_OPERATORS_TAG) (to_bytes OperatorSet_codec set);;
    mret true.
Definition bridge_dest_chain (l : Ledger) : outcome (option Z) :=
  decode_some u32_codec (singleton_leaf l BRIDGE_DESTCHAIN_TAG).
Definition seed_bridge_dest_chain (dest_chain : Z) : M unit :=
  write_leaf (stake_singleton_key sha3_256 BRIDGE_DESTCHAIN_TAG) (to_bytes u32_codec dest_chain).
Definition bridge_era (l : Ledger) : list byte :=
  default (replicate 32 x00) (sized_leaf 32 (singleton_leaf l BRIDGE_ERA_TAG)).
Definition seed_bridge_era (era : list byte) : M unit :=
  write_leaf (stake_singleton_key sha3_256 BRIDGE_ERA_TAG) era.
Definition asset_is_trustlessly_anchored (l : Ledger) (asset_id : list byte) : bool := false.

Definition bridge_reserve_state (l : Ledger) (asset_id : list byte) : outcome (option (Z * Z)) :=
  match bridge_pool_vault l with
  | None => Done None
  | Some vault =>
      obind (bridge_vault_custody l vault asset_id) (fun custody =>
      obind (bridged_supply l asset_id) (fun supply => Done (Some (custody, supply))))
  end.
Definition bridge_reserves_conserved (l : Ledger) (asset_id : list byte) : outcome bool :=
  obind (bridge_reserve_state l asset_id) (fun state =>
  match state with
  | Some (custody, supply) => Done (supply <=? custody)
  | None => obind (bridged_supply l asset_id) (fun supply => Done (supply =? 0))
  end).

(** ** Mints *)

(** [checked_add(..).is_some_and(|sum| sum <= cap)]. *)
Definition within (a b cap : Z) : bool :=
  match checked_add 128 a b with Some sum => sum <=? cap | None => false end.
Definition fits128 (a b : Z) : bool := bool_decide (is_Some (checked_add 128 a b)).

Definition bridge_mint_would_apply (l : Ledger) (fact : Fact) : outcome bool :=
  if (fact_amount fact =? 0) || (expiry_height fact <? execution_height l) then Done false
  else match bridge_pool_vault l with
  | None => Done false
  | Some vault =>
      obind (bridged_asset l (fact_asset fact)) (fun found =>
      match found with
      | None => Done false
      | Some asset =>
          if bridge_reference_seen l (source_chain fact) (source_ref fact) then Done false
          else
            obind (bridge_epoch l) (fun epoch =>
            obind (bridge_epoch_minted l (fact_asset fact) epoch) (fun minted =>
            let supply_ok := within (asset_supply_of asset) (fact_amount fact) (asset_cap asset) in
            let epoch_ok := within minted (fact_amount fact) (asset_epoch_cap asset) in
            if negb (supply_ok && epoch_ok) then Done false
            else
              obind (bridged_balance l (fact_asset fact) (recipient fact)) (fun balance =>
              if negb (fits128 balance (fact_amount fact)) then Done false
              else
                obind (bridge_vault_custody l vault (fact_asset fact)) (fun custody =>
                Done (fits128 custody (fact_amount fact))))))
      end)
  end.

Definition bridge_mint (fact : Fact) : M bool :=
  let amount := fact_amount fact in
  let asset_id := fact_asset fact in
  if amount =? 0 then mret false
  else
    vault ← asks bridge_pool_vault;
    height ← asks execution_height;
    if negb (bool_decide (is_Some vault)) then mret false
    else if expiry_height fact <? height then mret false
    else
      found ← ask (fun l => bridged_asset l asset_id);
      match found with
      | None => mret false
      | Some asset =>
          seen ← asks (fun l => bridge_reference_seen l (source_chain fact) (source_ref fact));
          if (seen : bool) then mret false
          else match checked_add 128 (asset_supply_of asset) amount with
          | None => mret false
          | Some new_supply =>
              if asset_cap asset <? new_supply then mret false
              else
                epoch ← ask bridge_epoch;
                minted ← ask (fun l => bridge_epoch_minted l asset_id epoch);
                match checked_add 128 minted amount with
                | None => mret false
                | Some new_minted =>
                    if asset_epoch_cap asset <? new_minted then mret false
                    else
                      balance ← ask (fun l => bridged_balance l asset_id (recipient fact));
                      match checked_add 128 balance amount with
                      | None => mret false
                      | Some credited =>
                          backed ← credit_vault_custody asset_id amount;
                          if negb backed then mret false
                          else
                            set_bridged_balance asset_id (recipient fact) credited;;
                            set_bridged_asset asset_id (with_supply new_supply asset);;
                            mark_bridge_reference (source_chain fact) (source_ref fact);;
                            set_bridge_epoch_minted asset_id epoch new_minted;;
                            record_bridge_mint_event asset_id (recipient fact) amount;;
                            record_side_event (Side.BridgeMint asset_id (recipient fact) amount);;
                            mret true
                      end
                end
          end
      end.

(** ** Burns and exits *)

Definition bridge_burn (asset_id holder : list byte) (amount : Z) (destination : list byte)
    (chain_id sender_nonce : Z) : M bool :=
  if amount =? 0 then mret false
  else
    found ← ask (fun l => bridged_asset l asset_id);
    match found with
    | None => mret false
    | Some asset =>
        balance ← ask (fun l => bridged_balance l asset_id holder);
        if balance <? amount then mret false
        else match checked_sub (asset_supply_of asset) amount with
        | None => mret false
        | Some new_supply =>
            set_bridged_balance asset_id holder (balance - amount);;
            set_bridged_asset asset_id (with_supply new_supply asset);;
            event_index ← asks (fun l => len (block_events l));
            genesis ← asks chain_genesis_hash;
            let burn_ref := bridge_burn_ref chain_id genesis asset_id holder amount destination sender_nonce
              event_index in
            record_outstanding_burn burn_ref asset_id amount holder destination;;
            record_bridge_burn_event asset_id holder amount destination chain_id sender_nonce event_index burn_ref;;
            record_side_event (Side.BridgeBurn asset_id holder amount destination chain_id burn_ref);;
            mret true
        end
    end.

(** What [bridge_settle] and [bridge_slash] check first: the vault and the asset of
    an exit that is open. *)
Definition open_exit (fact : ExitFact) (l : Ledger) : outcome (option (list byte * QAsset)) :=
  if negb (bridge_exits_enabled l) then Done None
  else obind (bridge_is_frozen l) (fun frozen =>
    if (frozen : bool) then Done None
    else match bridge_pool_vault l with
    | None => Done None
    | Some vault =>
        if exit_amount fact =? 0 then Done None
        else obind (bridged_asset l (exit_asset fact)) (fun found =>
          match found with
          | None => Done None
          | Some asset =>
              if bridge_exit_settled l (exit_burn_ref fact) then Done None
              else obind (outstanding_burn_matches l (exit_burn_ref fact) (exit_asset fact) (exit_amount fact)
                  (exit_holder fact) (exit_destination fact)) (fun matches =>
                Done (if (matches : bool) then Some (vault, asset) else None))
          end)
    end).

Definition bridge_settle (fact : ExitFact) : M bool :=
  opened ← ask (open_exit fact);
  match opened with
  | None => mret false
  | Some (vault, asset) =>
      custody ← ask (fun l => bridge_vault_custody l vault (exit_asset fact));
      match checked_sub custody (exit_amount fact) with
      | None => mret false
      | Some held =>
          if held <? asset_supply_of asset then mret false
          else
            mark_bridge_exit_settled (exit_burn_ref fact);;
            consume_outstanding_burn (exit_burn_ref fact);;
            set_bridge_vault_custody vault (exit_asset fact) held;;
            record_bridge_settle_event (exit_asset fact) (exit_destination fact) (exit_amount fact)
              (exit_burn_ref fact);;
            record_side_event (Side.BridgeSettle (exit_asset fact) (exit_destination fact) (exit_amount fact)
              (exit_burn_ref fact));;
            mret true
      end
  end.

Definition bridge_slash (fact : ExitFact) : M bool :=
  let amount := exit_amount fact in
  opened ← ask (open_exit fact);
  match opened with
  | None => mret false
  | Some (vault, asset) =>
      epoch ← ask bridge_epoch;
      paid ← ask (fun l => bridge_epoch_paid l (exit_asset fact) epoch);
      match checked_add 128 paid amount with
      | None => mret false
      | Some new_asset_paid =>
          if asset_epoch_cap asset <? new_asset_paid then mret false
          else
            global ← ask (fun l => bridge_epoch_paid_global l epoch);
            match checked_add 128 global amount with
            | None => mret false
            | Some new_global_paid =>
                payout_cap ← ask bridge_payout_cap;
                if payout_cap <? new_global_paid then mret false
                else match checked_add 128 (asset_supply_of asset) amount with
                | None => mret false
                | Some new_supply =>
                    if asset_cap asset <? new_supply then mret false
                    else
                      custody ← ask (fun l => bridge_vault_custody l vault (exit_asset fact));
                      if custody <? new_supply then mret false
                      else
                        balance ← ask (fun l => bridged_balance l (exit_asset fact) (exit_holder fact));
                        match checked_add 128 balance amount with
                        | None => mret false
                        | Some credited =>
                            mark_bridge_exit_settled (exit_burn_ref fact);;
                            consume_outstanding_burn (exit_burn_ref fact);;
                            set_bridged_balance (exit_asset fact) (exit_holder fact) credited;;
                            set_bridged_asset (exit_asset fact) (with_supply new_supply asset);;
                            set_bridge_epoch_paid (exit_asset fact) epoch new_asset_paid;;
                            set_bridge_epoch_paid_global epoch new_global_paid;;
                            record_bridge_slash_event (exit_asset fact) (exit_holder fact) amount
                              (exit_burn_ref fact);;
                            record_side_event (Side.BridgeSlash (exit_asset fact) (exit_holder fact) amount
                              (exit_burn_ref fact));;
                            mret true
                        end
                end
            end
      end
  end.

(** ** Assets of contracts *)

Definition asset_balance (l : Ledger) (asset_id holder : list byte) : outcome Z :=
  leaf_number u128_codec 0 l (asset_balance_key asset_id holder).
Definition set_asset_balance (asset_id holder : list byte) (amount : Z) : M unit :=
  write_leaf (asset_balance_key asset_id holder) (to_bytes u128_codec amount).
Definition asset_supply (l : Ledger) (asset_id : list byte) : outcome Z :=
  leaf_number u128_codec 0 l (asset_supply_key asset_id).
Definition set_asset_supply (asset_id : list byte) (supply : Z) : M unit :=
  write_leaf (asset_supply_key asset_id) (to_bytes u128_codec supply).

Definition credit_asset (asset_id holder : list byte) (amount : Z) : M bool :=
  balance ← ask (fun l => asset_balance l asset_id holder);
  match checked_add 128 balance amount with
  | None => mret false
  | Some updated => set_asset_balance asset_id holder updated;; mret true
  end.
Definition debit_asset (asset_id holder : list byte) (amount : Z) : M bool :=
  balance ← ask (fun l => asset_balance l asset_id holder);
  match checked_sub balance amount with
  | None => mret false
  | Some updated => set_asset_balance asset_id holder updated;; mret true
  end.
Definition issue_asset (issuer holder : list byte) (amount : Z) : M (option (list byte)) :=
  let asset_id := asset_id_of sha3_256 issuer in
  supply ← ask (fun l => asset_supply l asset_id);
  if negb (supply =? 0) then mret None
  else if amount =? 0 then mret None
  else
    set_asset_supply asset_id amount;;
    set_asset_balance asset_id holder amount;;
    mret (Some asset_id).
Definition mint_asset (issuer holder : list byte) (amount : Z) : M bool :=
  if amount =? 0 then mret false
  else
    let asset_id := asset_id_of sha3_256 issuer in
    supply ← ask (fun l => asset_supply l asset_id);
    match checked_add 128 supply amount with
    | None => mret false
    | Some supply =>
        credited ← credit_asset asset_id holder amount;
        if negb credited then mret false
        else set_asset_supply asset_id supply;; mret true
    end.

(** ** The freeze of the bridge *)

Definition bridge_last_lift (l : Ledger) : outcome (option Z) :=
  decode_some u64_codec (singleton_leaf l BRIDGE_LAST_LIFT_TAG).
Definition bridge_freezer_resting (l : Ledger) (id : list byte) (now : Z) : outcome bool :=
  obind (bridge_last_lift l) (fun last => Done (
    match last with
    | None => false
    | Some last =>
        match singleton_leaf l BRIDGE_LAST_FREEZER_TAG with
        | Some who => bool_decide (who = id) && (now <? saturating_add 64 last BRIDGE_FREEZE_DURATION)
        | None => false
        end
    end)).

(** The bridge can be frozen by [id] now. *)
Definition freeze_open (l : Ledger) (id : list byte) (now : Z) : outcome bool :=
  if is_gov_blacklisted sha3_256 l id then Done false
  else obind (bridge_freeze l) (fun freeze =>
    if bool_decide (is_Some freeze) then Done false
    else obind (bridge_last_lift l) (fun last =>
      if match last with Some last => now <? saturating_add 64 last BRIDGE_FREEZE_COOLDOWN | None => false end
      then Done false
      else obind (bridge_freezer_resting l id now) (fun resting => Done (negb resting)))).

Definition bridge_freeze_admissible (l : Ledger) (caller : list byte) (fee now : Z) : outcome bool :=
  match address_id caller with
  | None => Done false
  | Some id => obind (freeze_open l id now) (fun ready => Done (ready &&
      match checked_add 64 fee BRIDGE_FREEZE_BOND with
      | Some debit => debit <=? acc_balance (account sha3_256 l caller)
      | None => false
      end))
  end.

Definition bridge_freeze_with_fee (caller : list byte) (fee now : Z) : M bool :=
  match address_id caller with
  | None => mret false
  | Some id =>
      ready ← ask (fun l => freeze_open l id now);
      if negb ready then mret false
      else match checked_add 64 fee BRIDGE_FREEZE_BOND with
      | None => mret false
      | Some debit =>
          a ← asks (fun l => account sha3_256 l caller);
          if acc_balance a <? debit then mret false
          else
            charge sha3_256 caller a debit fee;;
            pot_address ← lift (bridge_bond_address sha3_256);
            pot ← asks (fun l => account sha3_256 l pot_address);
            set_account sha3_256 pot_address
              (with_balance pot (saturating_add 64 (acc_balance pot) BRIDGE_FREEZE_BOND));;
            write_leaf (stake_singleton_key sha3_256 BRIDGE_FREEZE_TAG) (to_bytes BridgeFreeze_codec
              (mkBridgeFreeze id BRIDGE_FREEZE_BOND (saturating_add 64 now BRIDGE_FREEZE_DURATION)));;
            mret true
      end
  end.

Inductive FreezeLift : Type := Refund | SlashLift.

Definition lift_bridge_freeze (now : Z) (outcome_ : FreezeLift) : M unit :=
  found ← ask bridge_freeze;
  match found with
  | None => mret tt
  | Some record =>
      pot_address ← lift (bridge_bond_address sha3_256);
      pot ← asks (fun l => account sha3_256 l pot_address);
      set_account sha3_256 pot_address (with_balance pot (saturating_sub (acc_balance pot) (freeze_bond record)));;
      match outcome_ with
      | Refund =>
          depositor ← lift (id_bytes_to_address (who record));
          match depositor with
          | None => mret tt
          | Some depositor =>
              a ← asks (fun l => account sha3_256 l depositor);
              set_account sha3_256 depositor
                (with_balance a (saturating_add 64 (acc_balance a) (freeze_bond record)))
          end
      | SlashLift =>
          treasury ← ask (stake_treasury sha3_256);
          set_stake_treasury sha3_256 (saturating_add 64 treasury (freeze_bond record))
      end;;
      write_leaf (stake_singleton_key sha3_256 BRIDGE_FREEZE_TAG) [];;
      write_leaf (stake_singleton_key sha3_256 BRIDGE_LAST_LIFT_TAG) (to_bytes u64_codec now);;
      write_leaf (stake_singleton_key sha3_256 BRIDGE_LAST_FREEZER_TAG) (who record)
  end.

Definition bridge_unfreeze_admissible (l : Ledger) (caller : list byte) (fee : Z) : outcome bool :=
  match address_id caller with
  | None => Done false
  | Some id => obind (bridge_freeze l) (fun found => Done (
      match found with
      | Some record => bool_decide (who record = id) && (fee <=? acc_balance (account sha3_256 l caller))
      | None => false
      end))
  end.

Definition bridge_unfreeze_with_fee (caller : list byte) (fee now : Z) : M bool :=
  match address_id caller with
  | None => mret false
  | Some id =>
      found ← ask bridge_freeze;
      match found with
      | None => mret false
      | Some record =>
          if negb (bool_decide (who record = id)) then mret false
          else
            a ← asks (fun l => account sha3_256 l caller);
            if acc_balance a <? fee then mret false
            else
              charge sha3_256 caller a fee fee;;
              let started := saturating_sub (freeze_until record) BRIDGE_FREEZE_DURATION in
              lift_bridge_freeze now
                (if now <=? saturating_add 64 started BRIDGE_FREEZE_REFUND_GRACE then Refund else SlashLift);;
              mret true
      end
  end.
(** ** What an enacted referendum does to the bridge *)

(** The arms of [execute_action] and [apply_parameter] on bridged assets. *)
Definition enact_asset_register (asset_id : list byte) (cap epoch_cap : Z) (stark : bool) :
    M (Result EnactError unit) :=
  if (cap =? 0) || (epoch_cap =? 0) then mret (Err BadValue)
  else if stark then mret (Err BadValue)
  else
    register_bridged_asset asset_id cap epoch_cap stark;;
    record_side_event (Side.AssetRegister asset_id cap epoch_cap stark);;
    mret (Ok tt).

Definition enact_epoch_advance : M (Result EnactError unit) :=
  epoch ← ask bridge_epoch;
  match checked_add 64 epoch 1 with
  | None => mret (Err BadValue)
  | Some next =>
      set_bridge_epoch next;;
      record_side_event (Side.EpochAdvance next);;
      mret (Ok tt)
  end.

Definition carry_custody (old_vault vault_id asset_id : list byte) : M unit :=
  held ← ask (fun l => bridge_vault_custody l old_vault asset_id);
  if held =? 0 then mret tt
  else
    set_bridge_vault_custody old_vault asset_id 0;;
    there ← ask (fun l => bridge_vault_custody l vault_id asset_id);
    set_bridge_vault_custody vault_id asset_id (saturating_add 128 there held).

Definition enact_bridge_migration (vault : list byte) : M (Result EnactError unit) :=
  frozen ← ask bridge_is_frozen;
  if negb frozen then mret (Err BridgeNotFrozen)
  else match id_from_slice vault with
  | None => mret (Err BadAddress)
  | Some vault_id =>
      pool ← asks bridge_pool_vault;
      ids ← asks bridge_asset_ids;
      match pool with
      | Some old_vault =>
          when (negb (bool_decide (old_vault = vault_id))) (for_each ids (carry_custody old_vault vault_id))
      | None => mret tt
      end;;
      set_bridge_pool_vault vault_id;;
      text ← lift (id_bytes_to_address vault_id);
      match text with
      | Some addr => record_side_event (Side.BridgeMigration addr)
      | None => mret tt
      end;;
      mret (Ok tt)
  end.

Definition set_exits_parameter (value : list byte) : M (Result EnactError unit) :=
  match value with
  | [b] =>
      if bool_decide (b = x00) then set_bridge_exits_enabled false;; mret (Ok tt)
      else if bool_decide (b = x01) then set_bridge_exits_enabled true;; mret (Ok tt)
      else mret (Err BadValue)
  | _ => mret (Err BadValue)
  end.

Fixpoint epoch_caps (l : Ledger) (ids : list (list byte)) (sum : Z) : outcome Z :=
  match ids with
  | [] => Done sum
  | id :: ids => obind (bridged_asset l id) (fun found => epoch_caps l ids
      match found with Some asset => saturating_add 128 sum (asset_epoch_cap asset) | None => sum end)
  end.
Definition u128_from_le (bytes : list byte) : option Z :=
  if (length bytes =? 16)%nat then Some (from_le bytes) else None.
Definition set_payout_parameter (value : list byte) : M (Result EnactError unit) :=
  match u128_from_le value with
  | None => mret (Err BadValue)
  | Some cap =>
      ceiling ← ask (fun l => epoch_caps l (bridge_asset_ids l) 0);
      if ceiling <? cap then mret (Err BadValue)
      else set_bridge_payout_cap cap;; mret (Ok tt)
  end.
End Bridge.
