(* ===== verification/LedgerBridgeBooks.v ===== *)
(** * The books of the bridge

    The leaves of bridged assets as slots, what they hold, and the books of the
    bridge: the supply of an asset is the sum of its balances, and the vault holds
    the supply and every pending exit.  A mint, a burn, a settlement and a reversal
    never panic, keep the books, and set the mark of their deposit or burn, which
    was not set. *)

From S2P Require Import Prelude Codec Idfmt Events LedgerState LedgerKeys.
From S2P Require Import Governance Staking Fee LedgerStake LedgerCoins Bridge LedgerBridge.

(** ** Codecs *)

#[export] Instance QAsset_roundtrip : RoundTrip QAsset_codec.
Proof.
  intros [s c e b] (Hs & Hc & He). cbn [asset_supply_of asset_cap asset_epoch_cap] in *.
  unfold QAsset_codec, QAsset_encode, QAsset_decode. codec_image. cbn [decode requires_stark].
  eapply reads_bind; [by apply reads_get_u128|]. cbn beta.
  eapply reads_bind; [by apply reads_get_u128|]. cbn beta.
  eapply reads_bind; [by apply reads_get_u128|]. cbn beta.
  eapply reads_map; [apply reads_get_u8; by destruct b|]. destruct b; apply reads_ret.
Qed.

Lemma reads_get_sized n bs : length bs = n -> (n < 100)%nat -> reads (get_sized n) (bytes_image bs) bs.
Proof.
  intros Hl Hn. unfold get_sized. eapply reads_map.
  - apply reads_get_bytes. unfold in_width, len. lia.
  - rewrite Hl, Nat.eqb_refl. apply reads_ret.
Qed.

#[export] Instance OutstandingBurn_roundtrip : RoundTrip OutstandingBurn_codec.
Proof.
  intros [a n b d] (Ha & Hn & Hb & Hd). cbn [burn_asset burn_amount burn_beneficiary burn_destination] in *.
  unfold OutstandingBurn_codec, OutstandingBurn_encode, OutstandingBurn_decode. codec_image. cbn [decode].
  eapply reads_bind; [apply reads_get_sized; [exact Ha|lia]|]. cbn beta.
  eapply reads_bind; [by apply reads_get_u128|]. cbn beta.
  eapply reads_bind; [apply reads_get_sized; [exact Hb|lia]|]. cbn beta.
  eapply reads_map; [apply reads_get_sized; [exact Hd|lia]|]. apply reads_ret.
Qed.

(** A leaf that is empty or decodes to a value of its type. *)
Definition readable {A} (c : Codec A) (o : option (list byte)) : Prop :=
  exists v, decode_some c o = Done v /\ forall y, v = Some y -> valid c y.

(** What was written is read back. *)
Definition kept_by {A} (c : Codec A) (v : A) : Prop :=
  decode_some c (Some (to_bytes c v)) = Done (Some v).

Lemma kept_by_codec {A} (c : Codec A) `{!RoundTrip c} v n :
  valid c v -> length (to_bytes c v) = n -> (0 < n < 1000)%nat -> kept_by c v.
Proof.
  intros Hv Hl Hn. unfold kept_by, decode_some.
  destruct (to_bytes c v) as [|b bs] eqn:E; [cbn in Hl; lia|]. rewrite <- E.
  rewrite expect_decoded_encoded; [done..|]. unfold fits_slice, len, ISIZE_MAX. rewrite E. lia.
Qed.

Lemma kept_u128 v : u128 v -> kept_by u128_codec v.
Proof. intros H. apply (kept_by_codec u128_codec v 16); [done|apply length_to_le|lia]. Qed.
Lemma kept_u64 v : u64 v -> kept_by u64_codec v.
Proof. intros H. apply (kept_by_codec u64_codec v 8); [done|apply length_to_le|lia]. Qed.
Lemma kept_asset a : QAsset_valid a -> kept_by QAsset_codec a.
Proof.
  intros H. apply (kept_by_codec QAsset_codec a 49); [done| |lia].
  unfold QAsset_codec, QAsset_encode. codec_image. change (to_bytes u128_codec ?z) with (to_le 16 z).
  by rewrite !length_app, !length_to_le.
Qed.
Lemma kept_burn b : OutstandingBurn_valid b -> kept_by OutstandingBurn_codec b.
Proof.
  intros H. apply (kept_by_codec OutstandingBurn_codec b 120); [done| |lia].
  destruct H as (Ha & _ & Hb & Hd).
  unfold OutstandingBurn_codec, OutstandingBurn_encode. codec_image.
  change (to_bytes u128_codec ?z) with (to_le 16 z). unfold bytes_image.
  by rewrite !length_app, !length_to_le, Ha, Hb, Hd.
Qed.

Lemma readable_kept {A} (c : Codec A) v : valid c v -> kept_by c v -> readable c (Some (to_bytes c v)).
Proof. intros Hv Hk. exists (Some v). split; [exact Hk|]. by intros y [= <-]. Qed.
Lemma readable_none {A} (c : Codec A) : readable c None.
Proof. by exists None. Qed.

(** ** Slots *)

Inductive BSlot : Type :=
| BVault | BEpoch | BExits | BFreeze | BPayout | BList | BGenesis
| BAsset (asset : list byte)
| BBal (asset holder : list byte)
| BSeen (source : Z) (ref : list byte)
| BMinted (asset : list byte) (epoch : Z)
| BCustody (vault asset : list byte)
| BExit (ref : list byte)
| BOut (ref : list byte)
| BPaid (asset : list byte) (epoch : Z)
| BPaidAll (epoch : Z).

#[global] Instance BSlot_eq_decision : EqDecision BSlot.
Proof. solve_decision. Defined.

Definition bslot_preimage (s : BSlot) : list byte :=
  match s with
  | BVault => BRIDGE_VAULT_TAG
  | BEpoch => BRIDGE_EPOCH_TAG
  | BExits => BRIDGE_EXITS_TAG
  | BFreeze => BRIDGE_FREEZE_TAG
  | BPayout => BRIDGE_PAYOUTCAP_TAG
  | BList => BRIDGE_ASSET_LIST_TAG
  | BGenesis => CHAIN_GENESIS_HASH_TAG
  | BAsset a => BRIDGE_ASSET_TAG ++ a
  | BBal a h => BRIDGE_BALANCE_TAG ++ a ++ h
  | BSeen c r => BRIDGE_SEEN_TAG ++ to_le 4 c ++ r
  | BMinted a e => BRIDGE_EPOCHMINT_TAG ++ a ++ to_le 8 e
  | BCustody v a => BRIDGE_VAULTBAL_TAG ++ v ++ a
  | BExit r => BRIDGE_EXIT_SEEN_TAG ++ r
  | BOut r => BRIDGE_OUTSTANDING_TAG ++ r
  | BPaid a e => BRIDGE_EPOCHPAY_TAG ++ a ++ to_le 8 e
  | BPaidAll e => BRIDGE_EPOCHPAYG_TAG ++ to_le 8 e
  end.

(** The identifiers have the lengths of their types. *)
Definition bslot_sized (s : BSlot) : Prop :=
  match s with
  | BAsset a => length a = 16%nat
  | BBal a h => length a = 16%nat /\ length h = 32%nat
  | BSeen c r => u32 c /\ length r = 32%nat
  | BMinted a e | BPaid a e => length a = 16%nat /\ u64 e
  | BCustody v a => length v = 32%nat /\ length a = 16%nat
  | BExit r | BOut r => length r = 32%nat
  | BPaidAll e => u64 e
  | _ => True
  end.

Lemma bslot_preimage_inj s t :
  bslot_sized s -> bslot_sized t -> bslot_preimage s = bslot_preimage t -> s = t.
Proof.
  destruct s, t; try reflexivity; cbn [bslot_sized bslot_preimage]; intros Hs Ht Heq;
    try discriminate Heq; apply app_inv_head in Heq; destruct_and?;
    try (apply app_inj_1 in Heq as [Heq Heq']; [|rewrite ?length_to_le; congruence]);
    repeat match goal with
    | E : to_le ?n ?x = to_le ?n ?y |- _ => apply to_le_inj in E; [|done|done]
    end; congruence.
Qed.

(** ** Views: what the leaves of the bridge hold *)

Definition View : Type := BSlot -> option (list byte).
Definition upd (t : BSlot) (v : option (list byte)) (L : View) : View :=
  fun s => if decide (s = t) then v else L s.

Lemma upd_eq t v L : upd t v L t = v.
Proof. unfold upd. by rewrite decide_True. Qed.
Lemma upd_ne t v L s : s <> t -> upd t v L s = L s.
Proof. intros. unfold upd. by rewrite decide_False. Qed.

(** Reads a view through the writes on top of it. *)
Ltac upds := repeat first [ rewrite upd_eq | rewrite upd_ne by congruence ].

Definition num (o : option (list byte)) : Z :=
  match decode_some u128_codec o with Done (Some v) => v | _ => 0 end.
Definition asset_of (L : View) (a : list byte) : option QAsset :=
  match decode_some QAsset_codec (L (BAsset a)) with Done x => x | Panic => None end.
Definition supply_of (L : View) (a : list byte) : Z := default 0 (asset_supply_of <$> asset_of L a).
Definition burn_of (L : View) (r : list byte) : option OutstandingBurn :=
  match decode_some OutstandingBurn_codec (L (BOut r)) with Done x => x | Panic => None end.
Definition pending_of (L : View) (a r : list byte) : Z :=
  match burn_of L r with Some b => if decide (burn_asset b = a) then burn_amount b else 0 | None => 0 end.
Definition vault_of (L : View) : option (list byte) := sized_leaf 32 (L BVault).
Definition epoch_of (L : View) : Z :=
  match decode_some u64_codec (L BEpoch) with Done (Some e) => e | _ => 0 end.
Definition listed (L : View) : list (list byte) :=
  match L BList with Some bytes => chunks16 (length bytes) bytes | None => [] end.

Lemma num_kept v : u128 v -> num (Some (to_bytes u128_codec v)) = v.
Proof. intros H. unfold num. by rewrite (kept_u128 v H). Qed.

Lemma readable_num o : readable u128_codec o -> decode_some u128_codec o = Done None /\ num o = 0 \/
  decode_some u128_codec o = Done (Some (num o)).
Proof.
  intros (v & E & _). unfold num. rewrite E. destruct v; auto.
Qed.

Lemma num_range o : readable u128_codec o -> u128 (num o).
Proof. intros (v & E & Hv). unfold num. rewrite E. destruct v; [by apply Hv|done]. Qed.

Lemma leaf_number_num l key : readable u128_codec (get_leaf l key) ->
  leaf_number u128_codec 0 l key = Done (num (get_leaf l key)).
Proof. intros (v & E & _). unfold leaf_number, num. rewrite E. by destruct v. Qed.

(** ** The slots in play *)

Record Play : Type := mkPlay {
  pAssets : list (list byte);
  pHolders : list (list byte);
  pBurns : list (list byte);
  pVaults : list (list byte);
  pDeposits : list (Z * list byte);
  pEpochs : list Z
}.

Section Play.
Context (P : Play).

Definition playable (s : BSlot) : Prop :=
  match s with
  | BAsset a => a ∈ pAssets P
  | BBal a h => a ∈ pAssets P /\ h ∈ pHolders P
  | BSeen c r => (c, r) ∈ pDeposits P
  | BMinted a e | BPaid a e => a ∈ pAssets P /\ e ∈ pEpochs P
  | BCustody v a => v ∈ pVaults P /\ a ∈ pAssets P
  | BExit r | BOut r => r ∈ pBurns P
  | BPaidAll e => e ∈ pEpochs P
  | _ => True
  end.

Definition bslots : list BSlot :=
  [BVault; BEpoch; BExits; BFreeze; BPayout; BList; BGenesis] ++
  (BAsset <$> pAssets P) ++
  (a ← pAssets P; BBal a <$> pHolders P) ++
  ((fun k => BSeen k.1 k.2) <$> pDeposits P) ++
  (a ← pAssets P; BMinted a <$> pEpochs P) ++
  (v ← pVaults P; BCustody v <$> pAssets P) ++
  (BExit <$> pBurns P) ++ (BOut <$> pBurns P) ++
  (a ← pAssets P; BPaid a <$> pEpochs P) ++
  (BPaidAll <$> pEpochs P).

Lemma playable_in s : playable s -> s ∈ bslots.
Proof.
  unfold bslots. destruct s; cbn [playable]; intros Hp; rewrite !elem_of_app, ?list_elem_of_fmap, ?list_elem_of_bind.
  1-7: left; rewrite !elem_of_cons; tauto.
  - right; left. eauto.
  - do 2 right; left. destruct Hp. exists asset. split; [|done]. by apply list_elem_of_fmap_2.
  - do 3 right; left. by exists (source, ref).
  - do 4 right; left. destruct Hp. exists asset. split; [|done]. by apply list_elem_of_fmap_2.
  - do 5 right; left. destruct Hp. exists vault. split; [|done]. by apply list_elem_of_fmap_2.
  - do 6 right; left. eauto.
  - do 7 right; left. eauto.
  - do 8 right; left. destruct Hp. exists asset. split; [|done]. by apply list_elem_of_fmap_2.
  - do 9 right. eauto.
Qed.

(** The identifiers in play are distinct and of the lengths of their types. *)
Record play_ok : Prop := mkPlayOk {
  play_assets : Forall (fun a => length a = 16%nat) (pAssets P);
  play_holders : NoDup (pHolders P) /\ Forall (fun h => length h = 32%nat) (pHolders P);
  play_burns : NoDup (pBurns P) /\ Forall (fun r => length r = 32%nat) (pBurns P);
  play_vaults : Forall (fun v => length v = 32%nat) (pVaults P);
  play_deposits : Forall (fun k => u32 k.1 /\ length k.2 = 32%nat) (pDeposits P);
  play_epochs : Forall (fun e => u64 e) (pEpochs P)
}.

Lemma playable_sized s : play_ok -> playable s -> bslot_sized s.
Proof.
  intros [HA [_ HH] [_ HR] HV HK HE].
  rewrite Forall_forall in HA. rewrite Forall_forall in HH. rewrite Forall_forall in HR.
  rewrite Forall_forall in HV. rewrite Forall_forall in HK. rewrite Forall_forall in HE.
  destruct s; cbn [playable bslot_sized]; intros Hp; destruct_and?; auto.
  by apply (HK (source, ref)).
Qed.

(** ** The books of the bridge *)

Definition balances (L : View) (a : list byte) : Z :=
  zsum (map (fun h => num (L (BBal a h))) (pHolders P)).
Definition pending (L : View) (a : list byte) : Z := zsum (map (pending_of L a) (pBurns P)).
Definition custody_of (L : View) (a : list byte) : Z :=
  match vault_of L with Some v => num (L (BCustody v a)) | None => 0 end.

Definition bleaf_ok (s : BSlot) (o : option (list byte)) : Prop :=
  match s with
  | BAsset _ => readable QAsset_codec o
  | BOut _ => readable OutstandingBurn_codec o
  | BFreeze => readable BridgeFreeze_codec o
  | BEpoch => readable u64_codec o
  | BBal _ _ | BMinted _ _ | BCustody _ _ | BPaid _ _ | BPaidAll _ | BPayout => readable u128_codec o
  | _ => True
  end.

(** Every balance is part of the supply, and the vault in charge holds the supply and
    everything that waits to be paid out. *)
Record backed (L : View) : Prop := mkBacked {
  b_leaf : forall s, playable s -> bleaf_ok s (L s);
  b_vault : exists v, vault_of L = Some v /\ v ∈ pVaults P;
  b_epoch : epoch_of L ∈ pEpochs P;
  b_listed : forall a, a ∈ listed L -> a ∈ pAssets P;
  b_unlisted : forall a, a ∈ pAssets P -> a ∉ listed L -> asset_of L a = None /\ pending L a = 0;
  b_supply : forall a, a ∈ pAssets P -> supply_of L a = balances L a;
  b_reserve : forall a, a ∈ pAssets P -> supply_of L a + pending L a <= custody_of L a
}.

(** Deposits stay marked, exits stay closed. *)
Definition flags_kept (L L' : View) : Prop :=
  (forall c r, flagged (L (BSeen c r)) = true -> flagged (L' (BSeen c r)) = true) /\
  (forall r, flagged (L (BExit r)) = true -> flagged (L' (BExit r)) = true).

#[global] Instance flags_kept_preorder : PreOrder flags_kept.
Proof. split; [done|]. intros L1 L2 L3 [A1 B1] [A2 B2]. split; auto. Qed.

Lemma flags_step L L' t v :
  flags_kept L L' ->
  match t with BSeen _ _ | BExit _ => flagged v = true | _ => True end -> flags_kept L (upd t v L').
Proof.
  intros [HS HE] Ht. split; intros; unfold upd; case_decide; subst; auto.
Qed.

Lemma balances_upd L a h v a' :
  NoDup (pHolders P) -> h ∈ pHolders P ->
  balances (upd (BBal a h) v L) a' = balances L a' + (if decide (a' = a) then num v - num (L (BBal a h)) else 0).
Proof.
  intros Hnd Hh. unfold balances. destruct (decide (a' = a)) as [->|Hne].
  - rewrite (zsum_update (fun h => num (L (BBal a h))) _ _ h); [|done|done|].
    + upds. lia.
    + intros t _ Ht. by upds.
  - replace (map _ _) with (map (fun h0 => num (L (BBal a' h0))) (pHolders P)); [lia|].
    apply map_ext. intros t. by upds.
Qed.

Lemma balances_other L t v a : (forall h, t <> BBal a h) -> balances (upd t v L) a = balances L a.
Proof. intros H. unfold balances. f_equal. apply map_ext. intros h. rewrite upd_ne; [done|]. by intros E; apply (H h). Qed.

Definition pending_leaf (o : option (list byte)) (a : list byte) : Z :=
  match decode_some OutstandingBurn_codec o with
  | Done (Some b) => if decide (burn_asset b = a) then burn_amount b else 0
  | _ => 0
  end.
Lemma pending_of_leaf L a r : pending_of L a r = pending_leaf (L (BOut r)) a.
Proof. unfold pending_of, burn_of, pending_leaf. by destruct (decode_some _ _) as [[]|]. Qed.

Lemma pending_upd L r v a :
  NoDup (pBurns P) -> r ∈ pBurns P ->
  pending (upd (BOut r) v L) a = pending L a + pending_leaf v a - pending_of L a r.
Proof.
  intros Hnd Hr. unfold pending. rewrite (zsum_update (pending_of L a) _ _ r); [|done|done|].
  - rewrite (pending_of_leaf (upd _ _ _)). upds. lia.
  - intros t _ Ht. rewrite !pending_of_leaf. by upds.
Qed.
Lemma pending_other L t v a : (forall r, t <> BOut r) -> pending (upd t v L) a = pending L a.
Proof.
  intros H. unfold pending. f_equal. apply map_ext. intros r. rewrite !pending_of_leaf, upd_ne; [done|].
  by intros E; apply (H r).
Qed.

Lemma pending_leaf_nonneg o a : readable OutstandingBurn_codec o -> 0 <= pending_leaf o a.
Proof.
  intros (v & E & Hv). unfold pending_leaf. rewrite E. destruct v as [b|]; [|lia].
  destruct (Hv b eq_refl) as (_ & H & _). case_decide; [apply H|lia].
Qed.

Lemma leaves_upd L t v :
  (forall s, playable s -> bleaf_ok s (L s)) -> bleaf_ok t v ->
  forall s, playable s -> bleaf_ok s (upd t v L s).
Proof. intros HL Hv s Hs. unfold upd. case_decide; [by subst|by apply HL]. Qed.
End Play.

(** ** Moving assets *)

Section Moves.
Context (P : Play) (P_ok : play_ok P).

Lemma pending_nonneg L a :
  (forall s, playable P s -> bleaf_ok s (L s)) -> 0 <= pending P L a.
Proof.
  intros HL. apply zsum_nonneg, Forall_forall. intros x Hx.
  apply list_elem_of_In, in_map_iff in Hx as (r & <- & Hr). apply list_elem_of_In in Hr.
  rewrite pending_of_leaf. apply pending_leaf_nonneg. by apply (HL (BOut r)).
Qed.

Lemma pending_of_nonneg L a r :
  (forall s, playable P s -> bleaf_ok s (L s)) -> r ∈ pBurns P -> 0 <= pending_of L a r.
Proof. intros HL Hr. rewrite pending_of_leaf. apply pending_leaf_nonneg. by apply (HL (BOut r)). Qed.

Lemma registered_listed L a :
  backed P L -> a ∈ pAssets P -> is_Some (asset_of L a) -> a ∈ listed L.
Proof.
  intros HL Ha [x Hx]. destruct (decide (a ∈ listed L)) as [|Hn]; [done|].
  destruct (b_unlisted P L HL a Ha Hn) as [E _]. congruence.
Qed.

(** The supply of one asset changes by [ds], its pending exits by at most [dp] and
    its custody by [dc]. *)
Lemma backed_move L L' x ds dp dc :
  backed P L -> (forall s, playable P s -> bleaf_ok s (L' s)) ->
  L' BVault = L BVault -> L' BEpoch = L BEpoch -> L' BList = L BList ->
  x ∈ pAssets P -> is_Some (asset_of L x) ->
  (forall a, a <> x -> L' (BAsset a) = L (BAsset a)) -> supply_of L' x = supply_of L x + ds ->
  (forall a, balances P L' a = balances P L a + if decide (a = x) then ds else 0) ->
  (forall a, pending P L' a <= pending P L a + if decide (a = x) then dp else 0) ->
  (forall v, vault_of L = Some v -> forall a,
     num (L' (BCustody v a)) = num (L (BCustody v a)) + if decide (a = x) then dc else 0) ->
  ds + dp <= dc -> backed P L'.
Proof.
  intros HL Hleaf Hv He Hl Hx Hreg Ha Hs Hb Hp Hc Hd.
  assert (Ev : vault_of L' = vault_of L) by (unfold vault_of; by rewrite Hv).
  assert (El : listed L' = listed L) by (unfold listed; by rewrite Hl).
  assert (Ea : forall a, a <> x -> asset_of L' a = asset_of L a)
    by (intros a Hne; unfold asset_of; by rewrite Ha).
  assert (Es : forall a, a <> x -> supply_of L' a = supply_of L a)
    by (intros a Hne; unfold supply_of; by rewrite Ea).
  pose proof (registered_listed L x HL Hx Hreg) as Hxl.
  destruct HL as [_ HV HE Hin Hun Hsup Hres]. constructor; rewrite ?Ev, ?El; try done.
  - unfold epoch_of. by rewrite He.
  - intros a Haa Hn. assert (a <> x) by (by intros ->). destruct (Hun a Haa Hn) as [E1 E2].
    rewrite Ea by done. split; [done|]. pose proof (pending_nonneg L' a Hleaf).
    specialize (Hp a). rewrite decide_False in Hp by done. lia.
  - intros a Haa. rewrite Hb. specialize (Hsup a Haa). case_decide; subst; [lia|]. rewrite Es by done. lia.
  - intros a Haa. specialize (Hres a Haa). specialize (Hp a). unfold custody_of in *. rewrite Ev.
    destruct HV as (v & Evv & _). rewrite Evv in *. rewrite (Hc v eq_refl a).
    destruct (decide (a = x)) as [->|Hne]; [lia|]. rewrite Es by done. lia.
Qed.

(** Writes beside the books. *)
Definition aside (s : BSlot) : bool :=
  match s with
  | BExits | BFreeze | BPayout | BGenesis | BSeen _ _ | BMinted _ _ | BExit _ | BPaid _ _ | BPaidAll _ => true
  | _ => false
  end.

Lemma backed_same L L' :
  backed P L -> (forall s, playable P s -> bleaf_ok s (L' s)) ->
  (forall s, playable P s -> aside s = false -> L' s = L s) -> backed P L'.
Proof.
  intros HL Hleaf Hs.
  assert (Ev : vault_of L' = vault_of L) by (unfold vault_of; by rewrite Hs).
  assert (El : listed L' = listed L) by (unfold listed; by rewrite Hs).
  assert (Ea : forall a, a ∈ pAssets P -> asset_of L' a = asset_of L a)
    by (intros a Ha; unfold asset_of; by rewrite Hs).
  assert (Ep : forall a, pending P L' a = pending P L a).
  { intros a. unfold pending. f_equal. apply map_ext_in. intros r Hr%list_elem_of_In.
    rewrite !pending_of_leaf. by rewrite Hs. }
  destruct HL as [_ HV HE Hin Hun Hsup Hres]. constructor; rewrite ?Ev, ?El; try done.
  - unfold epoch_of. by rewrite Hs.
  - intros a Ha Hn. rewrite Ea, Ep by done. by apply Hun.
  - intros a Ha. unfold supply_of. rewrite Ea by done. fold (supply_of L a). rewrite Hsup by done.
    unfold balances. f_equal. apply map_ext_in. intros h Hh%list_elem_of_In. by rewrite Hs.
  - intros a Ha. unfold supply_of. rewrite Ea, Ep by done. fold (supply_of L a).
    unfold custody_of. rewrite Ev. destruct HV as (v & Evv & Hv).
    specialize (Hres a Ha). unfold custody_of in Hres. rewrite Evv in *. by rewrite Hs.
Qed.
End Moves.

Lemma readable_u128 v : u128 v -> readable u128_codec (Some (to_bytes u128_codec v)).
Proof. intros H. by apply readable_kept, kept_u128. Qed.
Lemma readable_asset a : QAsset_valid a -> readable QAsset_codec (Some (to_bytes QAsset_codec a)).
Proof. intros H. by apply readable_kept, kept_asset. Qed.
Lemma readable_burn b : OutstandingBurn_valid b -> readable OutstandingBurn_codec (Some (to_bytes OutstandingBurn_codec b)).
Proof. intros H. by apply readable_kept, kept_burn. Qed.

(** The leaves of a view stay readable under the writes on top of it. *)
Ltac leaves_ok :=
  repeat first [ assumption | apply leaves_upd ]; cbn [bleaf_ok]; try exact I;
  first [ apply readable_none
        | apply readable_u128; unfold in_width in *; lia
        | apply readable_asset; assumption
        | apply readable_burn; assumption ].
Ltac flags_ok := repeat first [ reflexivity | apply flags_step | exact I ].

(** ** Running the operations *)

Section Ops.
Context (sha3_256 : list byte -> list byte) (P : Play) (P_ok : play_ok P).
Context (P_apart : separates sha3_256 (map bslot_preimage (bslots P)) (map bslot_preimage (bslots P))).

Definition bleaf (l : Ledger) (s : BSlot) : option (list byte) := get_leaf l (sha3_256 (bslot_preimage s)).

(** The leaves in play are those of [L], and [n] events were recorded. *)
Definition agrees (l : Ledger) (L : View) (n : Z) : Prop :=
  (forall s, playable P s -> bleaf l s = L s) /\ len (block_events l) = n.

Lemma bslot_key_inj s t :
  playable P s -> playable P t ->
  sha3_256 (bslot_preimage s) = sha3_256 (bslot_preimage t) -> s = t.
Proof.
  intros Hs Ht E. apply bslot_preimage_inj; [by eapply playable_sized..|].
  apply P_apart; [..|exact E]; apply list_elem_of_In, in_map, list_elem_of_In; by apply playable_in.
Qed.

Lemma agrees_upd l L n t v m' :
  agrees l L n -> playable P t -> 
  (forall k, m' !! k = if decide (k = sha3_256 (bslot_preimage t)) then v else leaves l !! k) ->
  forall l', leaves l' = m' -> block_events l' = block_events l -> agrees l' (upd t v L) n.
Proof.
  intros [HL Hn] Ht Hm l' El Ee. split; [|by rewrite Ee].
  intros s Hs. unfold bleaf, get_leaf. rewrite El, Hm. unfold upd.
  destruct (decide (s = t)) as [->|Hne]; [by rewrite decide_True|].
  rewrite decide_False; [by apply HL|]. intros E. by apply Hne, bslot_key_inj.
Qed.

Lemma note_prior_keeps k l :
  leaves (note_prior k l) = leaves l /\ block_events (note_prior k l) = block_events l.
Proof. unfold note_prior. by destruct (journal l). Qed.

Lemma wp_put t v (Q : unit -> Ledger -> Prop) l L n :
  agrees l L n -> playable P t -> (forall l', agrees l' (upd t (Some v) L) n -> Q tt l') ->
  wp (write_leaf (sha3_256 (bslot_preimage t)) v) Q l.
Proof.
  intros HL Ht HQ. unfold wp, write_leaf, modify. apply HQ.
  eapply (agrees_upd l L n t (Some v)); [done|done| |reflexivity|].
  - intros k. cbn. set (l0 := match get_leaf l _ with None => _ | Some _ => l end).
    rewrite (proj1 (note_prior_keeps _ l0)). replace (leaves l0) with (leaves l) by (unfold l0; by case_match).
    case_decide; [subst; by rewrite lookup_insert_eq|by rewrite lookup_insert_ne].
  - cbn. rewrite (proj2 (note_prior_keeps _ _)). by case_match.
Qed.

Lemma wp_take t (Q : bool -> Ledger -> Prop) l L n :
  agrees l L n -> playable P t -> (forall b l', agrees l' (upd t None L) n -> Q b l') ->
  wp (erase_leaf (sha3_256 (bslot_preimage t))) Q l.
Proof.
  intros HL Ht HQ. unfold wp, erase_leaf. apply HQ.
  eapply (agrees_upd l L n t None); [done|done| |reflexivity|].
  - intros k. cbn. rewrite (proj1 (note_prior_keeps _ l)).
    case_decide; [subst; by rewrite lookup_delete_eq|by rewrite lookup_delete_ne].
  - cbn. by rewrite (proj2 (note_prior_keeps _ _)).
Qed.

Lemma wp_event kind data (Q : unit -> Ledger -> Prop) l L n :
  agrees l L n -> (forall l' n', agrees l' L n' -> Q tt l') -> wp (record_native_event kind data) Q l.
Proof. intros [HL Hn] HQ. unfold wp, record_native_event, modify. by eapply HQ. Qed.
Lemma wp_side_event ev (Q : unit -> Ledger -> Prop) l L n :
  agrees l L n -> (forall l', agrees l' L n -> Q tt l') -> wp (record_side_event ev) Q l.
Proof. intros [HL Hn] HQ. unfold wp, record_side_event, modify. by eapply HQ. Qed.

(** Readers. *)
Section Readers.
Context (l : Ledger) (L : View) (n : Z) (Hag : agrees l L n)
  (Hleaf : forall s, playable P s -> bleaf_ok s (L s)).

Lemma read_num s : playable P s -> readable u128_codec (L s) ->
  leaf_number u128_codec 0 l (sha3_256 (bslot_preimage s)) = Done (num (L s)).
Proof.
  intros Hs Hr. rewrite <- (proj1 Hag s Hs) in Hr |- *. by apply leaf_number_num.
Qed.
Lemma read_asset a : a ∈ pAssets P -> bridged_asset sha3_256 l a = Done (asset_of L a).
Proof.
  intros Ha. pose proof (proj1 Hag (BAsset a) Ha) as E. pose proof (Hleaf (BAsset a) Ha) as (v & Ev & _).
  unfold asset_of. rewrite <- E in Ev |- *. unfold bleaf in *. cbn [bslot_preimage] in *.
  unfold bridged_asset, bridge_asset_key. by rewrite Ev.
Qed.
Lemma read_burn r : r ∈ pBurns P -> bridge_outstanding_burn sha3_256 l r = Done (burn_of L r).
Proof.
  intros Hr. pose proof (proj1 Hag (BOut r) Hr) as E. pose proof (Hleaf (BOut r) Hr) as (v & Ev & _).
  unfold burn_of. rewrite <- E in Ev |- *. unfold bleaf in *. cbn [bslot_preimage] in *.
  unfold bridge_outstanding_burn, bridge_outstanding_key. by rewrite Ev.
Qed.
Lemma read_epoch : bridge_epoch sha3_256 l = Done (epoch_of L).
Proof.
  pose proof (proj1 Hag BEpoch I) as E. pose proof (Hleaf BEpoch I) as (v & Ev & _).
  unfold bridge_epoch, leaf_number, epoch_of. rewrite <- E in Ev |- *. unfold bleaf in Ev |- *.
  change (stake_singleton_key sha3_256 BRIDGE_EPOCH_TAG) with (sha3_256 (bslot_preimage BEpoch)).
  rewrite Ev. by destruct v.
Qed.
Lemma read_vault : bridge_pool_vault sha3_256 l = vault_of L.
Proof. unfold vault_of. by rewrite <- (proj1 Hag BVault I). Qed.
Lemma read_listed : bridge_asset_ids sha3_256 l = listed L.
Proof. unfold listed. by rewrite <- (proj1 Hag BList I). Qed.
Lemma read_seen c r : (c, r) ∈ pDeposits P -> bridge_reference_seen sha3_256 l c r = flagged (L (BSeen c r)).
Proof. intros H. by rewrite <- (proj1 Hag (BSeen c r) H). Qed.
Lemma read_exit r : r ∈ pBurns P -> bridge_exit_settled sha3_256 l r = flagged (L (BExit r)).
Proof. intros H. by rewrite <- (proj1 Hag (BExit r) H). Qed.
Lemma read_frozen : exists b, bridge_is_frozen sha3_256 l = Done b.
Proof.
  pose proof (proj1 Hag BFreeze I) as E. pose proof (Hleaf BFreeze I) as (v & Ev & _).
  unfold bridge_is_frozen, bridge_freeze, singleton_leaf. rewrite <- E in Ev. unfold bleaf in Ev.
  change (stake_singleton_key sha3_256 BRIDGE_FREEZE_TAG) with (sha3_256 (bslot_preimage BFreeze)).
  rewrite Ev. cbn. eauto.
Qed.
End Readers.

(** ** The operations keep the books *)

(** The books are kept, no mark is lost, and a success sets the mark of the operation,
    which was not set. *)
Definition post (L : View) (mark : option BSlot) (b : bool) (l' : Ledger) : Prop :=
  exists L' n', agrees l' L' n' /\ backed P L' /\ flags_kept L L' /\
  (b = true -> forall s, mark = Some s -> flagged (L s) = false /\ flagged (L' s) = true).

Lemma post_same l L n mark : agrees l L n -> backed P L -> post L mark false l.
Proof. intros Ha Hb. exists L, n. split_and!; done. Qed.

Ltac same := by eapply wp_ret, post_same.
Ltac asked E := apply wp_bind; eapply wp_ask; [exact E|]; cbv beta.

Lemma agrees_num l L n s :
  agrees l L n -> backed P L -> playable P s -> (forall o, bleaf_ok s o = readable u128_codec o) ->
  leaf_number u128_codec 0 l (sha3_256 (bslot_preimage s)) = Done (num (L s)) /\ u128 (num (L s)).
Proof.
  intros Ha Hb Hs Hok. pose proof (b_leaf P L Hb s Hs) as Hr. rewrite Hok in Hr.
  split; [by apply (read_num l L n)|by apply num_range].
Qed.

Lemma custody_credit l L n a amt (Q : bool -> Ledger -> Prop) v :
  agrees l L n -> backed P L -> vault_of L = Some v -> v ∈ pVaults P -> a ∈ pAssets P -> 0 <= amt ->
  Q false l ->
  (forall l', u128 (num (L (BCustody v a)) + amt) ->
     agrees l' (upd (BCustody v a) (Some (to_bytes u128_codec (num (L (BCustody v a)) + amt))) L) n -> Q true l') ->
  wp (credit_vault_custody sha3_256 a amt) Q l.
Proof.
  intros Ha Hb Hv HvV Haa Hamt Hf Ht. unfold credit_vault_custody.
  apply wp_bind, wp_asks. rewrite (read_vault l L n Ha), Hv.
  destruct (agrees_num l L n (BCustody v a) Ha Hb ltac:(done) ltac:(done)) as [E Hr].
  apply wp_bind. eapply wp_ask; [exact E|]. unfold checked_add.
  destruct (_ <? _) eqn:El; [|by apply wp_ret]. bool_to_prop.
  apply wp_bind. eapply (wp_put (BCustody v a)); [exact Ha|done|]. intros l' Ha'. apply wp_ret, Ht; [|exact Ha'].
  unfold in_width in *. lia.
Qed.

Definition deposit_playable (f : Fact) : Prop :=
  (source_chain f, source_ref f) ∈ pDeposits P /\ fact_asset f ∈ pAssets P /\ recipient f ∈ pHolders P /\
  u128 (fact_amount f).

Lemma asset_valid L a x : backed P L -> a ∈ pAssets P -> asset_of L a = Some x -> QAsset_valid x.
Proof.
  intros Hb Ha E. destruct (b_leaf P L Hb (BAsset a) Ha) as (v & Ev & Hv). unfold asset_of in E.
  rewrite Ev in E. by apply Hv.
Qed.

Lemma supply_asset L a x : asset_of L a = Some x -> supply_of L a = asset_supply_of x.
Proof. intros E. unfold supply_of. by rewrite E. Qed.

Lemma supply_written L a x :
  QAsset_valid x -> L (BAsset a) = Some (to_bytes QAsset_codec x) -> supply_of L a = asset_supply_of x.
Proof. intros Hx E. apply supply_asset. unfold asset_of. by rewrite E, (kept_asset x Hx). Qed.

Lemma mint_backed L a h v x amt seen marked minted :
  backed P L -> a ∈ pAssets P -> h ∈ pHolders P -> vault_of L = Some v -> asset_of L a = Some x ->
  QAsset_valid (with_supply (asset_supply_of x + amt) x) -> u128 amt ->
  u128 (num (L (BBal a h)) + amt) -> u128 (num (L (BCustody v a)) + amt) -> u128 minted ->
  backed P (upd (BMinted a (epoch_of L)) (Some (to_bytes u128_codec minted))
    (upd (BSeen seen marked) (Some [x01])
    (upd (BAsset a) (Some (to_bytes QAsset_codec (with_supply (asset_supply_of x + amt) x)))
    (upd (BBal a h) (Some (to_bytes u128_codec (num (L (BBal a h)) + amt)))
    (upd (BCustody v a) (Some (to_bytes u128_codec (num (L (BCustody v a)) + amt))) L))))).
Proof.
  intros Hb HA HH Ev Ex Hx Hamt Hbal Hcus Hm. pose proof (b_leaf P L Hb) as Hleaf.
  eapply (backed_move P L _ a amt 0 amt); try done; try by upds.
  - leaves_ok.
  - intros a' Hne. by upds.
  - erewrite supply_written; [|exact Hx|by upds]. by rewrite (supply_asset L a x Ex).
  - intros a'. rewrite !balances_other by done. rewrite balances_upd by (done || apply P_ok).
    upds. rewrite num_kept, balances_other by done. case_decide; lia.
  - intros a'. rewrite !pending_other by done. case_decide; lia.
  - intros v' Ev' a'. assert (v' = v) as -> by congruence. upds. unfold upd at 1.
    case_decide as E; [injection E as ->; rewrite decide_True, num_kept by done; done|].
    rewrite decide_False by congruence. lia.
  - lia.
Qed.

Lemma mint_keeps l L n f :
  agrees l L n -> backed P L -> deposit_playable f ->
  wp (bridge_mint sha3_256 f) (post L (Some (BSeen (source_chain f) (source_ref f)))) l.
Proof.
  intros Ha Hb (Hk & HA & HH & Hamt). unfold bridge_mint. set (a := fact_asset f) in *.
  pose proof (b_leaf P L Hb) as Hleaf.
  destruct (_ =? 0) eqn:E0; [same|]. bool_to_prop.
  apply wp_bind, wp_asks. apply wp_bind, wp_asks. rewrite (read_vault l L n Ha).
  destruct (b_vault P L Hb) as (v & Ev & HvV). rewrite Ev. cbn [bool_decide negb].
  destruct (_ <? _); [same|].
  apply wp_bind. eapply wp_ask; [by apply (read_asset l L n)|]. cbv beta.
  destruct (asset_of L a) as [x|] eqn:Ex; [|same].
  apply wp_bind, wp_asks. rewrite (read_seen l L n) by done.
  destruct (flagged _) eqn:Efl; [same|].
  destruct (checked_add 128 (asset_supply_of x) (fact_amount f)) as [v1|] eqn:E1; [|same].
  destruct (_ <? _); [same|].
  apply wp_bind. eapply wp_ask; [by apply (read_epoch l L n)|]. cbv beta.
  destruct (agrees_num l L n (BMinted a (epoch_of L)) Ha Hb) as [Em Hm]; [split; [done|apply (b_epoch P L Hb)]|done|].
  asked Em.
  destruct (checked_add 128 (num (L (BMinted a (epoch_of L)))) (fact_amount f)) as [v2|] eqn:E2; [|same].
  destruct (_ <? _); [same|].
  destruct (agrees_num l L n (BBal a (recipient f)) Ha Hb ltac:(done) ltac:(done)) as [Eb Hbr].
  asked Eb.
  destruct (checked_add 128 (num (L (BBal a (recipient f)))) (fact_amount f)) as [v3|] eqn:E3; [|same]. apply checked_add_Some in E1 as [-> E1], E2 as [-> E2], E3 as [-> E3].
  apply wp_bind. eapply (custody_credit l L n); try done; [apply Hamt|same|].
  intros l1 Hc H1. cbn [negb].
  assert (Hs1 : QAsset_valid (with_supply (asset_supply_of x + fact_amount f) x)).
  { destruct (asset_valid L a x Hb HA Ex) as (V1 & V2 & V3). unfold QAsset_valid. cbn. unfold in_width in *.
    split_and!; try done; lia. }
  apply wp_bind. eapply (wp_put (BBal a _)); [exact H1|done|]. intros l2 H2.
  apply wp_bind. eapply (wp_put (BAsset a)); [exact H2|done|]. intros l3 H3.
  apply wp_bind. eapply (wp_put (BSeen _ _)); [exact H3|done|]. intros l4 H4.
  apply wp_bind. eapply (wp_put (BMinted _ _)); [exact H4|split; [done|apply (b_epoch P L Hb)]|]. intros l5 H5.
  apply wp_bind. eapply wp_event; [exact H5|]. intros l6 n6 H6.
  apply wp_bind. eapply wp_side_event; [exact H6|]. intros l7 H7. apply wp_ret.
  eexists _, _. split; [exact H7|]. split; [|split].
  - apply mint_backed; try done; unfold in_width in *; lia.
  - flags_ok.
  - intros _ s [= <-]. split; [done|]. by upds.
Qed.

(** ** Burns *)

Definition burn_ref_of (L : View) (n : Z) (a h : list byte) (amt : Z) (dest : list byte) (chain nonce : Z) :
    list byte :=
  bridge_burn_ref sha3_256 chain (default (replicate 32 x00) (sized_leaf 32 (L BGenesis))) a h amt dest nonce n.

Lemma burn_backed L a h x amt r dest :
  backed P L -> a ∈ pAssets P -> h ∈ pHolders P -> r ∈ pBurns P -> asset_of L a = Some x ->
  OutstandingBurn_valid (mkBurn a amt h dest) -> QAsset_valid (with_supply (asset_supply_of x - amt) x) ->
  amt <= num (L (BBal a h)) ->
  backed P (upd (BOut r) (Some (to_bytes OutstandingBurn_codec (mkBurn a amt h dest)))
    (upd (BAsset a) (Some (to_bytes QAsset_codec (with_supply (asset_supply_of x - amt) x)))
    (upd (BBal a h) (Some (to_bytes u128_codec (num (L (BBal a h)) - amt))) L))).
Proof.
  intros Hb HA HH HR Ex Hburn Hx Hle. pose proof (b_leaf P L Hb) as Hleaf.
  assert (Hamt : u128 amt) by apply Hburn.
  assert (Hr : u128 (num (L (BBal a h)))) by (apply num_range; by apply (Hleaf (BBal a h))).
  eapply (backed_move P L _ a (- amt) amt 0); try done; try by upds.
  - leaves_ok.
  - intros a' Hne. by upds.
  - erewrite supply_written; [|exact Hx|by upds]. by rewrite (supply_asset L a x Ex).
  - intros a'. rewrite !balances_other by done. rewrite balances_upd by (done || apply P_ok).
    rewrite num_kept by (unfold in_width in *; lia). case_decide; lia.
  - intros a'. rewrite pending_upd by (done || apply P_ok). rewrite !pending_other by done.
    unfold pending_leaf. rewrite (kept_burn _ Hburn). cbn [burn_asset burn_amount].
    assert (0 <= pending_of L a' r) as Hp by by eapply pending_of_nonneg.
    rewrite (pending_of_leaf L) in Hp. rewrite pending_of_leaf. upds.
    destruct (decide (a' = a)) as [->|Hne]; [rewrite decide_True by done; lia|].
    rewrite decide_False by done. lia.
  - intros v' _ a'. upds. case_decide; lia.
  - lia.
Qed.

Definition burn_playable (L : View) (n : Z) (a h : list byte) (amt : Z) (dest : list byte) (chain nonce : Z) : Prop :=
  a ∈ pAssets P /\ h ∈ pHolders P /\ u128 amt /\ length dest = 32%nat /\
  burn_ref_of L n a h amt dest chain nonce ∈ pBurns P.

Lemma read_genesis l L n : agrees l L n ->
  chain_genesis_hash sha3_256 l = default (replicate 32 x00) (sized_leaf 32 (L BGenesis)).
Proof. intros Ha. by rewrite <- (proj1 Ha BGenesis I). Qed.

Lemma burn_keeps l L n a h amt dest chain nonce :
  agrees l L n -> backed P L -> burn_playable L n a h amt dest chain nonce ->
  wp (bridge_burn sha3_256 a h amt dest chain nonce) (post L None) l.
Proof.
  intros Ha Hb (HA & HH & Hamt & Hdest & HR). unfold bridge_burn.
  pose proof (b_leaf P L Hb) as Hleaf. pose proof P_ok as [HlA [_ HlH] _ _ _ _].
  rewrite Forall_forall in HlA. rewrite Forall_forall in HlH.
  destruct (_ =? 0) eqn:E0; [same|]. bool_to_prop.
  apply wp_bind. eapply wp_ask; [by apply (read_asset l L n)|]. cbv beta.
  destruct (asset_of L a) as [x|] eqn:Ex; [|same].
  destruct (agrees_num l L n (BBal a h) Ha Hb ltac:(done) ltac:(done)) as [Eb Hbr].
  asked Eb.
  destruct (_ <? _) eqn:El; [same|]. bool_to_prop.
  destruct (checked_sub _ _) as [ns|] eqn:Es; [|same].
  apply checked_sub_Some in Es as [-> Es].
  apply wp_bind. eapply (wp_put (BBal a h)); [exact Ha|done|]. intros l1 H1.
  apply wp_bind. eapply (wp_put (BAsset a)); [exact H1|done|]. intros l2 H2.
  apply wp_bind, wp_asks. apply wp_bind, wp_asks.
  rewrite (read_genesis l2 _ n H2), (proj2 H2). upds.
  fold (burn_ref_of L n a h amt dest chain nonce).
  apply wp_bind. eapply (wp_put (BOut _)); [exact H2|done|]. intros l3 H3.
  apply wp_bind. eapply wp_event; [exact H3|]. intros l4 n4 H4.
  apply wp_bind. eapply wp_side_event; [exact H4|]. intros l5 H5. apply wp_ret.
  eexists _, _. split; [exact H5|]. split; [|split; [flags_ok|done]].
  apply burn_backed; try done.
  - split_and!; cbn; auto.
  - destruct (asset_valid L a x Hb HA Ex) as (V1 & V2 & V3). unfold QAsset_valid. cbn.
    unfold in_width in *. split_and!; try done; lia.
Qed.

(** ** Settlements and reversals *)

(** An exit that can be closed: its burn is recorded, its mark not set. *)
Record exit_open (L : View) (f : ExitFact) (v : list byte) (x : QAsset) : Prop := mkExitOpen {
  eo_vault : vault_of L = Some v;
  eo_asset : asset_of L (exit_asset f) = Some x;
  eo_mark : flagged (L (BExit (exit_burn_ref f))) = false;
  eo_burn : burn_of L (exit_burn_ref f) =
    Some (mkBurn (exit_asset f) (exit_amount f) (exit_holder f) (exit_destination f));
  eo_amount : exit_amount f <> 0
}.

Definition exit_playable (f : ExitFact) : Prop :=
  exit_asset f ∈ pAssets P /\ exit_holder f ∈ pHolders P /\ exit_burn_ref f ∈ pBurns P /\ u128 (exit_amount f).

Lemma open_exit_view l L n f :
  agrees l L n -> backed P L -> exit_playable f ->
  open_exit sha3_256 f l = Done None \/
  exists v x, open_exit sha3_256 f l = Done (Some (v, x)) /\ exit_open L f v x.
Proof.
  intros Ha Hb (HA & HH & HR & Hamt). unfold open_exit. pose proof (b_leaf P L Hb) as Hleaf.
  destruct (negb _); [by left|].
  destruct (read_frozen l L n Ha Hleaf) as [fr Efr]. rewrite Efr. cbn [obind]. destruct fr; [by left|].
  rewrite (read_vault l L n Ha). destruct (b_vault P L Hb) as (v & Ev & HvV). rewrite Ev.
  destruct (_ =? 0) eqn:E0; [by left|]. bool_to_prop.
  rewrite (read_asset l L n Ha Hleaf) by done. cbn [obind].
  destruct (asset_of L (exit_asset f)) as [x|] eqn:Ex; [|by left].
  rewrite (read_exit l L n Ha) by done. destruct (flagged _) eqn:Ef; [by left|].
  unfold outstanding_burn_matches. rewrite (read_burn l L n Ha Hleaf) by done. cbn [obind].
  destruct (burn_of L (exit_burn_ref f)) as [[ba bm bb bd]|] eqn:Eb; [|by left].
  cbn [burn_asset burn_amount burn_beneficiary burn_destination].
  destruct (_ && _) eqn:Em; [|by left]. right. exists v, x. split; [done|].
  rewrite !andb_true_iff, !bool_decide_eq_true, Z.eqb_eq in Em. destruct Em as [[[-> ->] ->] ->].
  by constructor.
Qed.

Lemma closing_pending L f v x o :
  backed P L -> exit_playable f -> exit_open L f v x -> forall L', L' = upd (BExit (exit_burn_ref f)) o L -> forall a,
  pending P (upd (BOut (exit_burn_ref f)) None L') a <=
    pending P L a + if decide (a = exit_asset f) then - exit_amount f else 0.
Proof.
  intros Hb (HA & HH & HR & Hamt) Ho L' -> a. rewrite pending_upd by (done || apply P_ok).
  rewrite pending_other by done. unfold pending_of, burn_of at 1. upds. fold (burn_of L (exit_burn_ref f)).
  rewrite (eo_burn L f v x Ho). cbn. case_decide; case_decide; try congruence; lia.
Qed.

Lemma settle_backed L f v x :
  backed P L -> exit_playable f -> exit_open L f v x -> exit_amount f <= num (L (BCustody v (exit_asset f))) ->
  backed P (upd (BCustody v (exit_asset f))
      (Some (to_bytes u128_codec (num (L (BCustody v (exit_asset f))) - exit_amount f)))
    (upd (BOut (exit_burn_ref f)) None (upd (BExit (exit_burn_ref f)) (Some [x01]) L))).
Proof.
  intros Hb Hp Ho Hle. pose proof (b_leaf P L Hb) as Hleaf. pose proof Hp as (HA & HH & HR & Hamt).
  destruct (b_vault P L Hb) as (v' & Ev & HvV). assert (v' = v) as -> by (destruct Ho; congruence).
  assert (Hc : u128 (num (L (BCustody v (exit_asset f))))).
  { apply num_range. by apply (Hleaf (BCustody v (exit_asset f))). }
  eapply (backed_move P L _ (exit_asset f) 0 (- exit_amount f) (- exit_amount f)); try done; try by upds.
  - leaves_ok.
  - by exists x; apply Ho.
  - unfold supply_of, asset_of. upds. lia.
  - intros a'. rewrite !balances_other by done. case_decide; lia.
  - intros a'. rewrite pending_other by done. by eapply closing_pending.
  - intros v' Ev' a'. assert (v' = v) as -> by congruence. unfold upd at 1.
    case_decide as E; [injection E as ->; rewrite decide_True, num_kept by (done || (unfold in_width in *; lia)); lia|].
    upds. rewrite decide_False by congruence. lia.
Qed.

Lemma settle_keeps l L n f :
  agrees l L n -> backed P L -> exit_playable f ->
  wp (bridge_settle sha3_256 f) (post L (Some (BExit (exit_burn_ref f)))) l.
Proof.
  intros Ha Hb Hp. unfold bridge_settle. pose proof Hp as (HA & HH & HR & Hamt).
  destruct (open_exit_view l L n f Ha Hb Hp) as [E|(v & x & E & Ho)];
    (apply wp_bind; eapply wp_ask; [exact E|]); [same|]. cbv beta iota.
  destruct (b_vault P L Hb) as (v' & Ev & HvV). assert (v' = v) as -> by (destruct Ho; congruence).
  destruct (agrees_num l L n (BCustody v (exit_asset f)) Ha Hb ltac:(done) ltac:(done)) as [Ec Hc].
  asked Ec.
  destruct (checked_sub _ _) as [held|] eqn:Es; [|same].
  apply checked_sub_Some in Es as [-> Es].
  destruct (_ <? _); [same|].
  apply wp_bind. eapply (wp_put (BExit _)); [exact Ha|done|]. intros l1 H1.
  apply wp_bind, wp_bind. eapply (wp_take (BOut _)); [exact H1|done|]. intros b l2 H2. apply wp_ret.
  apply wp_bind. eapply (wp_put (BCustody v _)); [exact H2|done|]. intros l3 H3.
  apply wp_bind. eapply wp_event; [exact H3|]. intros l4 n4 H4.
  apply wp_bind. eapply wp_side_event; [exact H4|]. intros l5 H5. apply wp_ret.
  eexists _, _. split; [exact H5|]. split; [by eapply settle_backed|]. split; [flags_ok|].
  intros _ s [= <-]. split; [apply Ho|by upds].
Qed.

Lemma slash_backed L f v x e paid all :
  backed P L -> exit_playable f -> exit_open L f v x ->
  QAsset_valid (with_supply (asset_supply_of x + exit_amount f) x) ->
  u128 (num (L (BBal (exit_asset f) (exit_holder f))) + exit_amount f) -> u128 paid -> u128 all ->
  backed P (upd (BPaidAll e) (Some (to_bytes u128_codec all))
    (upd (BPaid (exit_asset f) e) (Some (to_bytes u128_codec paid))
    (upd (BAsset (exit_asset f)) (Some (to_bytes QAsset_codec (with_supply (asset_supply_of x + exit_amount f) x)))
    (upd (BBal (exit_asset f) (exit_holder f))
      (Some (to_bytes u128_codec (num (L (BBal (exit_asset f) (exit_holder f))) + exit_amount f)))
    (upd (BOut (exit_burn_ref f)) None (upd (BExit (exit_burn_ref f)) (Some [x01]) L)))))).
Proof.
  intros Hb Hp Ho Hx Hbal Hpaid Hall. pose proof (b_leaf P L Hb) as Hleaf. pose proof Hp as (HA & HH & HR & Hamt).
  eapply (backed_move P L _ (exit_asset f) (exit_amount f) (- exit_amount f) 0); try done; try by upds.
  - leaves_ok.
  - by exists x; apply Ho.
  - intros a' Hne. by upds.
  - erewrite supply_written; [|exact Hx|by upds]. rewrite (supply_asset L _ x); [done|apply Ho].
  - intros a'. rewrite !balances_other by done. rewrite balances_upd by (done || apply P_ok).
    upds. rewrite num_kept, !balances_other by done. case_decide; lia.
  - intros a'. rewrite 4 pending_other by done. by eapply closing_pending.
  - intros v' Ev' a'. upds. case_decide; lia.
  - lia.
Qed.

Lemma slash_keeps l L n f :
  agrees l L n -> backed P L -> exit_playable f ->
  wp (bridge_slash sha3_256 f) (post L (Some (BExit (exit_burn_ref f)))) l.
Proof.
  intros Ha Hb Hp. unfold bridge_slash. pose proof Hp as (HA & HH & HR & Hamt).
  pose proof (b_leaf P L Hb) as Hleaf. pose proof (b_epoch P L Hb) as HE.
  destruct (open_exit_view l L n f Ha Hb Hp) as [E|(v & x & E & Ho)];
    (apply wp_bind; eapply wp_ask; [exact E|]); [same|]. cbv beta iota.
  destruct (b_vault P L Hb) as (v' & Ev & HvV). assert (v' = v) as -> by (destruct Ho; congruence).
  apply wp_bind. eapply wp_ask; [by apply (read_epoch l L n)|]. cbv beta.
  destruct (agrees_num l L n (BPaid (exit_asset f) (epoch_of L)) Ha Hb ltac:(done) ltac:(done)) as [Ep Hpd].
  asked Ep.
  destruct (checked_add 128 (num (L (BPaid _ _))) _) as [np|] eqn:E1; [|same].
  destruct (_ <? _); [same|].
  destruct (agrees_num l L n (BPaidAll (epoch_of L)) Ha Hb ltac:(done) ltac:(done)) as [Eg Hg].
  asked Eg.
  destruct (checked_add 128 (num (L (BPaidAll _))) _) as [ng|] eqn:E2; [|same].
  destruct (agrees_num l L n BPayout Ha Hb ltac:(done) ltac:(done)) as [Eo _].
  asked Eo.
  destruct (_ <? _); [same|].
  destruct (checked_add 128 (asset_supply_of x) _) as [ns|] eqn:E3; [|same].
  destruct (_ <? _); [same|].
  destruct (agrees_num l L n (BCustody v (exit_asset f)) Ha Hb ltac:(done) ltac:(done)) as [Ec Hc].
  asked Ec.
  destruct (_ <? _); [same|].
  destruct (agrees_num l L n (BBal (exit_asset f) (exit_holder f)) Ha Hb ltac:(done) ltac:(done)) as [Eb Hbr].
  asked Eb.
  destruct (checked_add 128 (num (L (BBal _ _))) _) as [nb|] eqn:E4; [|same].
  apply checked_add_Some in E1 as [-> E1], E2 as [-> E2], E3 as [-> E3], E4 as [-> E4].
  apply wp_bind. eapply (wp_put (BExit _)); [exact Ha|done|]. intros l1 H1.
  apply wp_bind, wp_bind. eapply (wp_take (BOut _)); [exact H1|done|]. intros b l2 H2. apply wp_ret.
  apply wp_bind. eapply (wp_put (BBal _ _)); [exact H2|done|]. intros l3 H3.
  apply wp_bind. eapply (wp_put (BAsset _)); [exact H3|done|]. intros l4 H4.
  apply wp_bind. eapply (wp_put (BPaid _ _)); [exact H4|done|]. intros l5 H5.
  apply wp_bind. eapply (wp_put (BPaidAll _)); [exact H5|done|]. intros l6 H6.
  apply wp_bind. eapply wp_event; [exact H6|]. intros l7 n7 H7.
  apply wp_bind. eapply wp_side_event; [exact H7|]. intros l8 H8. apply wp_ret.
  eexists _, _. split; [exact H8|]. split; [|split; [flags_ok|intros _ s [= <-]; split; [apply Ho|by upds]]].
  destruct (asset_valid L _ x Hb HA (eo_asset L f v x Ho)) as (V1 & V2 & V3).
  eapply slash_backed; try done; unfold QAsset_valid in *; cbn; unfold in_width in *; split_and?; try done; lia.
Qed.
End Ops.
