(* ===== verification/LedgerBridgeSpec.v ===== *)
(** * The bridge stays backed and pays once

    What enacted referenda do to the books of the bridge, and histories:
    [bridge_history] interleaves mints, burns, settlements, reversals and enacted
    referenda with whatever else happens on the ledger.  The books survive all of
    it, nothing is minted or paid out twice, and an open exit can be paid. *)

From S2P Require Import Prelude Codec Idfmt Events LedgerState LedgerKeys.
From S2P Require Import Governance Staking Fee LedgerStake LedgerCoins Bridge LedgerBridge LedgerBridgeBooks.

(** ** The list of assets *)

Lemma chunks16_sized fuel bs : Forall (fun c => length c = 16%nat) (chunks16 fuel bs).
Proof.
  revert bs. induction fuel as [|fuel IH]; intros bs; cbn [chunks16]; [constructor|].
  destruct (_ <? _)%nat eqn:E; [constructor|]. apply Nat.ltb_ge in E.
  constructor; [rewrite length_take; lia|apply IH].
Qed.

Lemma chunks16_concat ids fuel :
  Forall (fun c => length c = 16%nat) ids -> (length ids <= fuel)%nat -> chunks16 fuel (concat ids) = ids.
Proof.
  revert fuel. induction ids as [|c ids IH]; intros fuel Hf Hl; [by destruct fuel|].
  apply Forall_cons in Hf as [Hc Hf]. destruct fuel as [|fuel]; [cbn in Hl; lia|].
  cbn [chunks16 concat]. replace (_ <? _)%nat with false.
  2:{ symmetry. apply Nat.ltb_ge. rewrite length_app. lia. }
  rewrite <- Hc at 1. rewrite take_app_length. rewrite <- Hc at 1. rewrite drop_app_length.
  f_equal. apply IH; [done|cbn in Hl; lia].
Qed.

Lemma length_concat16 ids : Forall (fun c : list byte => length c = 16%nat) ids -> (length ids <= length (concat ids))%nat.
Proof. induction 1 as [|c ids Hc _ IH]; [done|]. cbn [concat length]. rewrite length_app. lia. Qed.

Section Enacted.
Context (sha3_256 : list byte -> list byte) (P : Play) (P_ok : play_ok P).
Context (P_apart : separates sha3_256 (map bslot_preimage (bslots P)) (map bslot_preimage (bslots P))).

Abbreviation agrees := (agrees sha3_256 P).
Abbreviation post := (post sha3_256 P).
Ltac same := by eapply wp_ret, (post_same sha3_256 P).

Lemma listed_sized L : Forall (fun c => length c = 16%nat) (listed L).
Proof. unfold listed. destruct (L BList); [apply chunks16_sized|constructor]. Qed.

Lemma listed_written L ids :
  Forall (fun c => length c = 16%nat) ids -> L BList = Some (concat ids) -> listed L = ids.
Proof. intros Hs E. unfold listed. rewrite E. apply chunks16_concat; [done|by apply length_concat16]. Qed.

(** ** Registration *)

Lemma backed_register L L' a :
  backed P L -> (forall s, playable P s -> bleaf_ok s (L' s)) ->
  (forall s, s <> BAsset a -> s <> BList -> L' s = L s) -> supply_of L' a = supply_of L a ->
  a ∈ pAssets P -> a ∈ listed L' -> (forall b, b ∈ listed L' -> b ∈ listed L \/ b = a) ->
  (forall b, b ∈ listed L -> b ∈ listed L') -> backed P L'.
Proof.
  intros HL Hleaf Hs Hsup Ha Hal Hl1 Hl2.
  assert (Ev : vault_of L' = vault_of L) by (unfold vault_of; by rewrite Hs).
  assert (Ea : forall b, b <> a -> asset_of L' b = asset_of L b)
    by (intros b Hb; unfold asset_of; rewrite Hs by congruence; done).
  assert (Es : forall b, supply_of L' b = supply_of L b).
  { intros b. destruct (decide (b = a)) as [->|Hne]; [done|]. unfold supply_of. by rewrite Ea. }
  assert (Ep : forall b, pending P L' b = pending P L b).
  { intros b. unfold pending. f_equal. apply map_ext. intros r. rewrite !pending_of_leaf. by rewrite Hs. }
  destruct HL as [_ HV HE Hin Hun Hsu Hres]. constructor; rewrite ?Ev; try done.
  - unfold epoch_of. by rewrite Hs.
  - intros b Hb. destruct (Hl1 b Hb) as [? | ->]; auto.
  - intros b Hb Hn. assert (b <> a) by (by intros ->). rewrite Ea, Ep by done. apply Hun; auto.
  - intros b Hb. rewrite Es, Hsu by done. unfold balances. f_equal. apply map_ext. intros h. by rewrite Hs.
  - intros b Hb. rewrite Es, Ep. unfold custody_of. rewrite Ev. specialize (Hres b Hb).
    unfold custody_of in Hres. destruct (vault_of L); [|done]. by rewrite Hs.
Qed.

Lemma register_keeps l L n a cap epoch_cap stark :
  agrees l L n -> backed P L -> a ∈ pAssets P -> u128 cap -> u128 epoch_cap ->
  wp (register_bridged_asset sha3_256 a cap epoch_cap stark) (fun _ => post L None true) l.
Proof.
  intros Hag Hb Ha Hc He. unfold register_bridged_asset. pose proof (b_leaf P L Hb) as Hleaf.
  apply wp_bind. eapply wp_ask; [by apply (read_asset sha3_256 P l L n)|]. cbv beta zeta.
  set (x := mkQAsset _ cap epoch_cap stark).
  assert (Hx : QAsset_valid x).
  { unfold x, QAsset_valid. cbn. split; [|done]. destruct (asset_of L a) as [y|] eqn:E; [|done].
    by apply (asset_valid P L a y Hb Ha). }
  apply wp_bind. eapply (wp_put sha3_256 P P_ok P_apart (BAsset a)); [exact Hag|done|]. intros l1 H1.
  unfold record_bridge_asset_id. apply wp_bind, wp_asks.
  rewrite (read_listed sha3_256 P l1 _ n H1). unfold listed at 1 2. upds. fold (listed L).
  assert (Es : forall L', L' (BAsset a) = Some (to_bytes QAsset_codec x) -> supply_of L' a = supply_of L a).
  { intros L' E. rewrite (supply_written L' a x Hx E). unfold x, supply_of. by destruct (asset_of L a). }
  case_bool_decide as Hin.
  - apply wp_ret. eexists _, _. split; [exact H1|]. split; [|split; [flags_ok|done]].
    eapply (backed_register L _ a); try done; unfold listed; upds; fold (listed L); auto.
    + leaves_ok.
    + intros s H _. by upds.
    + apply Es. by upds.
  - eapply (wp_put sha3_256 P P_ok P_apart BList); [exact H1|done|]. intros l2 H2.
    eexists _, _. split; [exact H2|]. split; [|split; [flags_ok|done]].
    assert (El : forall L', L' BList = Some (concat (listed L ++ [a])) -> listed L' = listed L ++ [a]).
    { intros L' E. apply listed_written; [|done]. apply Forall_app. split; [apply listed_sized|].
      pose proof (playable_sized P (BAsset a) P_ok Ha). by repeat constructor. }
    eapply (backed_register L _ a); try done; try (rewrite El by (by upds); intros b; rewrite elem_of_app, list_elem_of_singleton; tauto).
    + leaves_ok.
    + intros s H H'. by upds.
    + apply Es. by upds.
    + rewrite El by by upds. apply elem_of_app. right. by apply list_elem_of_singleton.
    + intros b Hb'. rewrite El by by upds. apply elem_of_app. by left.
Qed.

Definition ok_of (r : Result EnactError unit) : bool := match r with Ok _ => true | Err _ => false end.

Lemma register_enacted l L n a cap epoch_cap stark :
  agrees l L n -> backed P L -> a ∈ pAssets P -> u128 cap -> u128 epoch_cap ->
  wp (enact_asset_register sha3_256 a cap epoch_cap stark) (fun r => post L None (ok_of r)) l.
Proof.
  intros Hag Hb Ha Hc He. unfold enact_asset_register.
  destruct (_ || _); [same|]. destruct stark; [same|].
  apply wp_bind. eapply wp_mono; [|by eapply register_keeps]. cbv beta.
  intros _ l1 (L1 & n1 & H1 & Hb1 & Hf & _).
  apply wp_bind. eapply wp_side_event; [exact H1|]. intros l2 H2. apply wp_ret. by exists L1, n1.
Qed.

(** ** Epochs and parameters *)

Lemma epoch_enacted l L n :
  agrees l L n -> backed P L -> epoch_of L + 1 ∈ pEpochs P ->
  wp (enact_epoch_advance sha3_256) (fun r => post L None (ok_of r)) l.
Proof.
  intros Hag Hb He. unfold enact_epoch_advance. pose proof (b_leaf P L Hb) as Hleaf.
  apply wp_bind. eapply wp_ask; [by apply (read_epoch sha3_256 P l L n)|]. cbv beta.
  destruct (checked_add _ _ _) as [next|] eqn:E; [|same]. apply checked_add_Some in E as [-> E].
  assert (Hu : u64 (epoch_of L + 1)).
  { pose proof (play_epochs P P_ok) as HE. rewrite Forall_forall in HE. by apply HE. }
  apply wp_bind. eapply (wp_put sha3_256 P P_ok P_apart BEpoch); [exact Hag|done|]. intros l1 H1.
  apply wp_bind. eapply wp_side_event; [exact H1|]. intros l2 H2. apply wp_ret.
  eexists _, _. split; [exact H2|]. split; [|split; [flags_ok|done]].
  destruct Hb as [_ HV HE Hin Hun Hsu Hres]. constructor; try done.
  - apply leaves_upd; [done|]. apply readable_kept; [done|by apply kept_u64].
  - unfold epoch_of. upds. fold (epoch_of L). by rewrite (kept_u64 _ Hu).
Qed.

Lemma aside_keeps l L n t v (r : Result EnactError unit) :
  agrees l L n -> backed P L -> playable P t -> aside t = true -> bleaf_ok t (Some v) ->
  match t with BSeen _ _ | BExit _ => False | _ => True end ->
  wp (write_leaf (sha3_256 (bslot_preimage t)) v;; mret r) (fun r => post L None (ok_of r)) l.
Proof.
  intros Hag Hb Ht Hs Hv Hm. apply wp_bind.
  eapply (wp_put sha3_256 P P_ok P_apart t); [exact Hag|done|]. intros l1 H1. apply wp_ret.
  eexists _, _. split; [exact H1|]. split; [|split; [|done]].
  - eapply (backed_same P L); [done|by apply leaves_upd; [apply Hb|]|].
    intros s _ E. rewrite upd_ne; [done|]. intros ->. congruence.
  - apply flags_step; [done|]. by destruct t.
Qed.

Lemma exits_enacted l L n value :
  agrees l L n -> backed P L ->
  wp (set_exits_parameter sha3_256 value) (fun r => post L None (ok_of r)) l.
Proof.
  intros Hag Hb. unfold set_exits_parameter. destruct value as [|b [|? ?]]; [same| |same].
  case_bool_decide; [by eapply (aside_keeps l L n BExits)|].
  case_bool_decide; [by eapply (aside_keeps l L n BExits)|same].
Qed.

Lemma epoch_caps_reads l L n ids sum :
  agrees l L n -> backed P L -> (forall a, a ∈ ids -> a ∈ pAssets P) ->
  exists c, epoch_caps sha3_256 l ids sum = Done c.
Proof.
  intros Hag Hb. pose proof (b_leaf P L Hb) as Hleaf. revert sum.
  induction ids as [|a ids IH]; intros sum Hin; cbn [epoch_caps]; [eauto|].
  rewrite (read_asset sha3_256 P l L n) by (done || (apply Hin; by left)). cbn [obind].
  apply IH. intros b Hb'. apply Hin. by right.
Qed.

Lemma payout_enacted l L n value :
  agrees l L n -> backed P L ->
  wp (set_payout_parameter sha3_256 value) (fun r => post L None (ok_of r)) l.
Proof.
  intros Hag Hb. unfold set_payout_parameter, u128_from_le.
  destruct (_ =? _)%nat eqn:El; [|same]. apply Nat.eqb_eq in El.
  destruct (epoch_caps_reads l L n (listed L) 0 Hag Hb (b_listed P L Hb)) as [c Ec].
  apply wp_bind. eapply wp_ask.
  { rewrite (read_listed sha3_256 P l L n Hag). exact Ec. }
  destruct (_ <? _); [same|]. eapply (aside_keeps l L n BPayout); try done.
  apply readable_u128. pose proof (from_le_range value) as Hr. rewrite El in Hr. exact Hr.
Qed.

(** ** Moving to another vault *)

(** What was in the old vault is still there or has been carried over. *)
Record carrying (old new : list byte) (L0 L : View) : Prop := mkCarrying {
  ca_leaf : forall s, playable P s -> bleaf_ok s (L s);
  ca_same : forall s, (forall v a, s <> BCustody v a) -> L s = L0 s;
  ca_held : forall a, num (L (BCustody old a)) = num (L0 (BCustody old a)) \/
    num (L0 (BCustody old a)) <= num (L (BCustody new a))
}.

Definition carried (old new : list byte) (L0 L : View) (a : list byte) : Prop :=
  num (L0 (BCustody old a)) <= num (L (BCustody new a)).

Lemma carry_keeps old new L0 l L n a :
  agrees l L n -> carrying old new L0 L -> old <> new -> old ∈ pVaults P -> new ∈ pVaults P -> a ∈ pAssets P ->
  wp (carry_custody sha3_256 old new a) (fun _ l' => exists L', agrees l' L' n /\ carrying old new L0 L' /\
    carried old new L0 L' a /\ forall b, carried old new L0 L b -> carried old new L0 L' b) l.
Proof.
  intros Hag [Hleaf Hsame Hheld] Hne Ho Hn Ha. unfold carry_custody.
  pose proof (Hleaf (BCustody old a) (conj Ho Ha)) as Ro. pose proof (Hleaf (BCustody new a) (conj Hn Ha)) as Rn.
  pose proof (num_range _ Ro) as Uo. pose proof (num_range _ Rn) as Un.
  apply wp_bind. eapply wp_ask; [by apply (read_num sha3_256 P l L n Hag (BCustody old a))|]. cbv beta.
  destruct (_ =? 0) eqn:E0; bool_to_prop.
  { apply wp_ret. exists L. split_and!; try done. unfold carried. destruct (Hheld a); unfold in_width in *; lia. }
  apply wp_bind. eapply (wp_put sha3_256 P P_ok P_apart (BCustody old a)); [exact Hag|done|]. intros l1 H1.
  apply wp_bind. eapply wp_ask.
  { apply (read_num sha3_256 P l1 _ n H1 (BCustody new a)); [done|]. by upds. }
  cbv beta. upds. eapply (wp_put sha3_256 P P_ok P_apart (BCustody new a)); [exact H1|done|]. intros l2 H2.
  eexists. split; [exact H2|]. set (there := num (L (BCustody new a))) in *. set (held := num (L (BCustody old a))) in *.
  assert (Hs : u128 (saturating_add 128 there held) /\ there <= saturating_add 128 there held /\
    held <= saturating_add 128 there held) by (unfold saturating_add, in_width in *; lia).
  destruct Hs as (Hs1 & Hs2 & Hs3).
  assert (Hnew : forall b, num (L (BCustody new b)) <= num (upd (BCustody new a)
    (Some (to_bytes u128_codec (saturating_add 128 there held))) (upd (BCustody old a) (Some (to_bytes u128_codec 0)) L) (BCustody new b))).
  { intros b. unfold upd. case_decide as E; [injection E as ->; by rewrite num_kept|].
    rewrite decide_False by congruence. lia. }
  assert (Hc : carried old new L0 (upd (BCustody new a) (Some (to_bytes u128_codec (saturating_add 128 there held)))
    (upd (BCustody old a) (Some (to_bytes u128_codec 0)) L)) a).
  { unfold carried. upds. rewrite num_kept by done. destruct (Hheld a); lia. }
  split_and!.
  - constructor.
    + apply leaves_upd; [apply leaves_upd; [done|]|]; by apply readable_u128.
    + intros s Hs. rewrite !upd_ne by apply Hs. by apply Hsame.
    + intros b. destruct (decide (b = a)) as [->|Hb]; [by right|].
      destruct (Hheld b) as [E|E]; [left; by upds|right; etrans; [exact E|apply Hnew]].
  - exact Hc.
  - intros b Hb. unfold carried in *. etrans; [exact Hb|apply Hnew].
Qed.

Lemma carry_all old new L0 l L n ids :
  agrees l L n -> carrying old new L0 L -> old <> new -> old ∈ pVaults P -> new ∈ pVaults P ->
  (forall a, a ∈ ids -> a ∈ pAssets P) ->
  wp (for_each ids (carry_custody sha3_256 old new)) (fun _ l' => exists L', agrees l' L' n /\
    carrying old new L0 L' /\ (forall a, a ∈ ids -> carried old new L0 L' a) /\
    forall b, carried old new L0 L b -> carried old new L0 L' b) l.
Proof.
  intros Hag Hc Hne Ho Hn. revert l L Hag Hc. induction ids as [|a ids IH]; intros l L Hag Hc Hin; cbn [for_each].
  - apply wp_ret. exists L. split_and!; try done. by intros a Ha%elem_of_nil.
  - apply wp_bind. eapply wp_mono; [|eapply (carry_keeps old new L0); try done; apply Hin; by left].
    intros _ l1 (L1 & H1 & Hc1 & Ha1 & Hk1). cbv beta.
    eapply wp_mono; [|apply (IH l1 L1 H1 Hc1); intros b Hb; apply Hin; by right].
    intros _ l2 (L2 & H2 & Hc2 & Ha2 & Hk2). exists L2. split_and!; auto.
    intros b [->|Hb]%elem_of_cons; auto.
Qed.

Lemma moved_backed old new L0 L :
  backed P L0 -> vault_of L0 = Some old -> new ∈ pVaults P -> carrying old new L0 L ->
  (forall a, a ∈ listed L0 -> carried old new L0 L a) ->
  backed P (upd BVault (Some new) L).
Proof.
  intros Hb Ev Hn [Hleaf Hsame _] Hc.
  assert (Hs : forall s, s <> BVault -> (forall v a, s <> BCustody v a) -> upd BVault (Some new) L s = L0 s).
  { intros s H1 H2. rewrite upd_ne by done. by apply Hsame. }
  assert (Hlen : length new = 32%nat).
  { pose proof (play_vaults P P_ok) as HV. rewrite Forall_forall in HV. by apply HV. }
  assert (Ev' : vault_of (upd BVault (Some new) L) = Some new).
  { unfold vault_of. upds. unfold sized_leaf. by rewrite Hlen. }
  assert (El : listed (upd BVault (Some new) L) = listed L0) by (unfold listed; by rewrite Hs).
  assert (Ea : forall b, asset_of (upd BVault (Some new) L) b = asset_of L0 b)
    by (intros b; unfold asset_of; by rewrite Hs).
  assert (Ep : forall b, pending P (upd BVault (Some new) L) b = pending P L0 b).
  { intros b. unfold pending. f_equal. apply map_ext. intros r. rewrite !pending_of_leaf. by rewrite Hs. }
  destruct Hb as [_ _ HE Hin Hun Hsu Hres]. constructor; rewrite ?Ev', ?El; try done.
  - by apply leaves_upd.
  - eauto.
  - unfold epoch_of. by rewrite Hs.
  - intros b. rewrite Ea, Ep. apply Hun.
  - intros b Hb. unfold supply_of. rewrite Ea. fold (supply_of L0 b). rewrite Hsu by done.
    unfold balances. f_equal. apply map_ext. intros h. by rewrite Hs.
  - intros b Hb. unfold supply_of. rewrite Ea, Ep. fold (supply_of L0 b). unfold custody_of. rewrite Ev'. upds.
    specialize (Hres b Hb). unfold custody_of in Hres. rewrite Ev in Hres.
    destruct (decide (b ∈ listed L0)) as [Hl|Hl].
    + specialize (Hc b Hl). unfold carried in Hc. lia.
    + destruct (Hun b Hb Hl) as [E1 E2]. unfold supply_of. rewrite E1, E2. cbn.
      apply num_range. by apply (Hleaf (BCustody new b)).
Qed.

Lemma carrying_refl old new L : (forall s, playable P s -> bleaf_ok s (L s)) -> carrying old new L L.
Proof. intros H. constructor; auto. Qed.

Lemma carrying_flags old new L0 L : carrying old new L0 L -> flags_kept L0 L.
Proof. intros [_ Hs _]. split; intros; by rewrite Hs. Qed.

Lemma vault_text v : v ∈ pVaults P -> exists r, id_bytes_to_address v = Done r.
Proof using P_ok.
  intros Hv. pose proof (play_vaults P P_ok) as HV. rewrite Forall_forall in HV.
  destruct (render_address_Ok v (HV v Hv)) as (text & Hr & _).
  exists (Some text). unfold id_bytes_to_address. change KEY_LEN with 32%nat. by rewrite (HV v Hv), Hr.
Qed.

Lemma migration_enacted l L n vault :
  agrees l L n -> backed P L -> vault ∈ pVaults P ->
  wp (enact_bridge_migration sha3_256 vault) (fun r => post L None (ok_of r)) l.
Proof.
  intros Hag Hb Hv. unfold enact_bridge_migration. pose proof (b_leaf P L Hb) as Hleaf.
  destruct (read_frozen sha3_256 P l L n Hag Hleaf) as [fr Efr].
  apply wp_bind. eapply wp_ask; [exact Efr|]. destruct fr; [|same]. cbn [negb].
  unfold id_from_slice. destruct (negb _); [same|].
  apply wp_bind, wp_asks. apply wp_bind, wp_asks.
  rewrite (read_vault sha3_256 P l L n Hag), (read_listed sha3_256 P l L n Hag).
  destruct (b_vault P L Hb) as (old & Ev & Ho). rewrite Ev. apply wp_bind.
  assert (Hmoved : forall l' L', agrees l' L' n -> carrying old vault L L' ->
    (forall a, a ∈ listed L -> carried old vault L L' a) ->
    wp (set_bridge_pool_vault sha3_256 vault;;
        text ← lift (id_bytes_to_address vault);
        match text with Some addr => record_side_event (Side.BridgeMigration addr) | None => mret tt end;;
        mret (Ok tt)) (fun r => post L None (ok_of r)) l').
  { intros l' L' H' Hc Hk. apply wp_bind.
    eapply (wp_put sha3_256 P P_ok P_apart BVault); [exact H'|done|]. intros l1 H1.
    destruct (vault_text vault Hv) as [r Er]. apply wp_bind. eapply wp_lift; [exact Er|].
    assert (Hp : post L None (ok_of (Ok tt)) l1).
    { eexists _, _. split; [exact H1|]. split; [by eapply moved_backed|]. split; [|done].
      apply flags_step; [by eapply carrying_flags|done]. }
    apply wp_bind. destruct r; [|done]. destruct Hp as (Lp & np & Hp & Hrest).
    eapply wp_side_event; [exact Hp|]. intros l2 H2. apply wp_ret. by exists Lp, np. }
  apply wp_when.
  - intros Hne%negb_true_iff%bool_decide_eq_false.
    eapply wp_mono; [|apply (carry_all old vault L l L n); try done; [by apply carrying_refl|apply Hb]].
    intros _ l1 (L1 & H1 & Hc1 & Ha1 & _). by apply (Hmoved l1 L1).
  - intros ->%negb_false_iff%bool_decide_eq_true. apply (Hmoved l L); [done|by apply carrying_refl|].
    intros a _. unfold carried. lia.
Qed.
End Enacted.

(** ** Histories *)

Inductive BridgeStep : Type :=
| Deposit (fact : Fact)
| Burn (asset holder : list byte) (amount : Z) (destination : list byte) (chain nonce : Z)
| Settle (fact : ExitFact)
| Reverse (fact : ExitFact)
| Register (asset : list byte) (cap epoch_cap : Z) (stark : bool)
| NextEpoch
| Migrate (vault : list byte)
| SetExits (value : list byte)
| SetPayout (value : list byte).

Section History.
Context (sha3_256 : list byte -> list byte) (P : Play).

Definition enacted (m : M (Result EnactError unit)) : M bool := r ← m; mret (ok_of r).

Definition run_bridge_step (s : BridgeStep) : M bool :=
  match s with
  | Deposit f => bridge_mint sha3_256 f
  | Burn a h amt dest chain nonce => bridge_burn sha3_256 a h amt dest chain nonce
  | Settle f => bridge_settle sha3_256 f
  | Reverse f => bridge_slash sha3_256 f
  | Register a cap ecap stark => enacted (enact_asset_register sha3_256 a cap ecap stark)
  | NextEpoch => enacted (enact_epoch_advance sha3_256)
  | Migrate v => enacted (enact_bridge_migration sha3_256 v)
  | SetExits v => enacted (set_exits_parameter sha3_256 v)
  | SetPayout v => enacted (set_payout_parameter sha3_256 v)
  end.

(** The step touches slots in play, with arguments of their types. *)
Definition step_playable (l : Ledger) (s : BridgeStep) : Prop :=
  match s with
  | Deposit f => deposit_playable P f
  | Burn a h amt dest chain nonce =>
      burn_playable sha3_256 P (bleaf sha3_256 l) (len (block_events l)) a h amt dest chain nonce
  | Settle f | Reverse f => exit_playable P f
  | Register a cap ecap _ => a ∈ pAssets P /\ u128 cap /\ u128 ecap
  | NextEpoch => epoch_of (bleaf sha3_256 l) + 1 ∈ pEpochs P
  | Migrate v => v ∈ pVaults P
  | SetExits _ | SetPayout _ => True
  end.

(** The mark a step sets when it succeeds. *)
Definition step_mark (s : BridgeStep) : option BSlot :=
  match s with
  | Deposit f => Some (BSeen (source_chain f) (source_ref f))
  | Settle f | Reverse f => Some (BExit (exit_burn_ref f))
  | _ => None
  end.

(** Anything else that happens on the ledger: it may freeze and unfreeze the bridge. *)
Definition elsewhere (l l' : Ledger) : Prop :=
  (forall s, playable P s -> s <> BFreeze -> bleaf sha3_256 l' s = bleaf sha3_256 l s) /\
  readable BridgeFreeze_codec (bleaf sha3_256 l' BFreeze).

Inductive bridge_history (l : Ledger) : list (BridgeStep * bool) -> Ledger -> Prop :=
| bh_start : bridge_history l [] l
| bh_step tr l1 s b l2 :
    bridge_history l tr l1 -> step_playable l1 s -> run_bridge_step s l1 = (Done b, l2) ->
    bridge_history l (tr ++ [(s, b)]) l2
| bh_elsewhere tr l1 l2 : bridge_history l tr l1 -> elsewhere l1 l2 -> bridge_history l tr l2.

(** The marks of the steps that succeeded. *)
Definition marks (tr : list (BridgeStep * bool)) : list BSlot :=
  omap (fun e : BridgeStep * bool => if e.2 then step_mark e.1 else None) tr.

Definition bridge_backed (l : Ledger) : Prop := backed P (bleaf sha3_256 l).

Context (P_ok : play_ok P).
Context (P_apart : separates sha3_256 (map bslot_preimage (bslots P)) (map bslot_preimage (bslots P))).

Lemma agrees_self l : agrees sha3_256 P l (bleaf sha3_256 l) (len (block_events l)).
Proof. done. Qed.

Lemma run_bridge_step_keeps l s :
  bridge_backed l -> step_playable l s ->
  wp (run_bridge_step s) (post sha3_256 P (bleaf sha3_256 l) (step_mark s)) l.
Proof.
  intros Hb Hs. pose proof (agrees_self l) as Ha.
  assert (He : forall m, wp m (fun r => post sha3_256 P (bleaf sha3_256 l) None (ok_of r)) l ->
    wp (enacted m) (post sha3_256 P (bleaf sha3_256 l) None) l).
  { intros m Hm. apply wp_bind. eapply wp_mono; [|exact Hm]. intros r l' H. by apply wp_ret. }
  destruct s; cbn [run_bridge_step step_mark step_playable] in *; try apply He.
  - by eapply mint_keeps.
  - by eapply burn_keeps.
  - by eapply settle_keeps.
  - by eapply slash_keeps.
  - destruct Hs as (? & ? & ?). by eapply register_enacted.
  - by eapply epoch_enacted.
  - by eapply migration_enacted.
  - by eapply exits_enacted.
  - by eapply payout_enacted.
Qed.

Lemma backed_agrees l L n : agrees sha3_256 P l L n -> backed P L -> bridge_backed l.
Proof.
  intros [Ha _] Hb. eapply (backed_same P L); [done|..].
  - intros s Hs. rewrite Ha by done. by apply Hb.
  - intros s Hs _. by apply Ha.
Qed.

Lemma backed_elsewhere l l' : bridge_backed l -> elsewhere l l' -> bridge_backed l'.
Proof.
  intros Hb [Hs Hf]. eapply (backed_same P (bleaf sha3_256 l)); [done|..].
  - intros s Hp. destruct (decide (s = BFreeze)) as [->|Hne]; [done|]. rewrite Hs by done. by apply Hb.
  - intros s Hp Ha. apply Hs; [done|]. by intros ->.
Qed.

Lemma mark_playable l s m : step_playable l s -> step_mark s = Some m ->
  playable P m /\ match m with BSeen _ _ | BExit _ => True | _ => False end.
Proof. destruct s; intros Hs [= <-]; cbn in *; unfold exit_playable, deposit_playable in *; naive_solver. Qed.

Lemma flags_kept_mark L L' m :
  match m with BSeen _ _ | BExit _ => True | _ => False end -> flags_kept L L' ->
  flagged (L m) = true -> flagged (L' m) = true.
Proof. intros Hm [H1 H2]. destruct m; try done; auto. Qed.

(** What every point of a history satisfies. *)
Lemma history_invariant l0 tr l :
  bridge_backed l0 -> bridge_history l0 tr l ->
  bridge_backed l /\ NoDup (marks tr) /\
  (forall m, playable P m -> match m with BSeen _ _ | BExit _ => True | _ => False end ->
     flagged (bleaf sha3_256 l0 m) = true -> flagged (bleaf sha3_256 l m) = true) /\
  (forall m, m ∈ marks tr -> playable P m /\ match m with BSeen _ _ | BExit _ => True | _ => False end /\
     flagged (bleaf sha3_256 l0 m) = false /\ flagged (bleaf sha3_256 l m) = true).
Proof.
  intros Hb0. induction 1 as [|tr l1 s b l2 _ (Hb & Hnd & Hk & Hm) Hs Hrun|tr l1 l2 _ (Hb & Hnd & Hk & Hm) He].
  - split_and!; [done|apply NoDup_nil_2|done|by intros m Hm%elem_of_nil].
  - pose proof (run_bridge_step_keeps l1 s Hb Hs) as Hw. unfold wp in Hw. rewrite Hrun in Hw.
    destruct Hw as (L' & n' & Ha & Hb' & Hf & Hmark).
    assert (Hkeep : forall m, playable P m -> match m with BSeen _ _ | BExit _ => True | _ => False end ->
      flagged (bleaf sha3_256 l1 m) = true -> flagged (bleaf sha3_256 l2 m) = true).
    { intros m Hp Hk' Ht. rewrite (proj1 Ha) by done. by eapply flags_kept_mark. }
    split; [by eapply backed_agrees|]. unfold marks. rewrite omap_app. cbn [omap list_omap snd fst].
    fold (marks tr).
    assert (Hold : forall m, m ∈ marks tr -> playable P m /\ match m with BSeen _ _ | BExit _ => True | _ => False end /\
      flagged (bleaf sha3_256 l0 m) = false /\ flagged (bleaf sha3_256 l2 m) = true).
    { intros m Hin. destruct (Hm m Hin) as (? & ? & ? & ?). split_and!; auto. }
    destruct b; [destruct (step_mark s) as [m|] eqn:Em|]; rewrite ?app_nil_r; [|split_and!; auto..].
    destruct (mark_playable l1 s m Hs Em) as [Hp Hfl]. destruct (Hmark eq_refl m eq_refl) as [M1 M2].
    rewrite <- (proj1 Ha) in M2 by done. split_and!; auto.
    + apply NoDup_app. split; [done|]. split; [|by apply NoDup_singleton].
      intros x Hx ->%list_elem_of_singleton. destruct (Hm m Hx) as (_ & _ & _ & E). congruence.
    + intros x [Hx| ->%list_elem_of_singleton]%elem_of_app; [by apply Hold|]. split_and!; try done.
      destruct (flagged (bleaf sha3_256 l0 m)) eqn:E0; [|done]. by rewrite Hk in M1.
  - assert (Hsame : forall m, playable P m -> match m with BSeen _ _ | BExit _ => True | _ => False end ->
      bleaf sha3_256 l2 m = bleaf sha3_256 l1 m).
    { intros m Hp Hfl. apply He; [done|]. by intros ->. }
    split; [by eapply backed_elsewhere|]. split; [done|]. split.
    + intros m Hp Hfl Ht. rewrite Hsame by done. by apply Hk.
    + intros m Hin. destruct (Hm m Hin) as (? & ? & ? & ?). by rewrite Hsame.
Qed.

Lemma pending_part L a r :
  (forall s, playable P s -> bleaf_ok s (L s)) -> r ∈ pBurns P -> pending_of L a r <= pending P L a.
Proof.
  intros HL Hr. unfold pending. pose proof (zsum_part (pending_of L a) [r] (pBurns P)) as H.
  cbn in H. rewrite Z.add_0_r in H. apply H.
  - apply P_ok.
  - by apply NoDup_singleton.
  - by intros t ->%list_elem_of_singleton.
  - intros t Ht _. by eapply pending_of_nonneg.
Qed.

(** The vault in charge can pay an open exit and still back the supply. *)
Lemma exit_covered L f v x :
  backed P L -> exit_playable P f -> exit_open L f v x ->
  asset_supply_of x + exit_amount f <= num (L (BCustody v (exit_asset f))).
Proof.
  intros Hb (HA & HH & HR & Hu) Ho. pose proof (b_reserve P L Hb _ HA) as Hr.
  rewrite (supply_asset L _ x (eo_asset L f v x Ho)) in Hr. unfold custody_of in Hr.
  rewrite (eo_vault L f v x Ho) in Hr.
  pose proof (pending_part L (exit_asset f) _ (b_leaf P L Hb) HR) as Hp. unfold pending_of in Hp.
  rewrite (eo_burn L f v x Ho) in Hp. cbn in Hp. rewrite decide_True in Hp by done. lia.
Qed.

Lemma settle_pays l f v x :
  bridge_backed l -> exit_playable P f -> open_exit sha3_256 f l = Done (Some (v, x)) ->
  exit_open (bleaf sha3_256 l) f v x -> (bridge_settle sha3_256 f l).1 = Done true.
Proof.
  intros Hb Hp E Ho. pose proof (exit_covered _ f v x Hb Hp Ho) as Hc. destruct Hp as (HA & _ & _ & Hu).
  destruct (b_vault P _ Hb) as (v' & Ev & HvV). assert (v' = v) as -> by (destruct Ho; congruence).
  unfold bridge_settle, mbind, M_bind, ask. rewrite E.
  destruct (agrees_num sha3_256 P l _ _ (BCustody v (exit_asset f)) (agrees_self l) Hb (conj HvV HA) ltac:(done)) as [Ec _].
  change (bridge_vault_custody sha3_256 l v (exit_asset f)) with
    (leaf_number u128_codec 0 l (sha3_256 (bslot_preimage (BCustody v (exit_asset f))))).
  rewrite Ec. destruct (asset_valid P _ _ x Hb HA (eo_asset _ f v x Ho)) as ([V1 _] & _).
  unfold checked_sub. rewrite (proj2 (Z.leb_le _ _)) by lia. rewrite (proj2 (Z.ltb_ge _ _)) by lia. done.
Qed.

(** C4: The bridge stays solvent.  From a ledger whose vault backs the bridged assets,
    after any history of mints, burns, settlements, reversals, registrations, epochs,
    vault migrations and parameter changes, interleaved with whatever else the ledger
    does, the supply of every asset is the sum of its balances, the audit of the
    reserves holds, the vault in charge holds the supply and every pending exit, and
    no further step panics. *)
Theorem bridge_stays_solvent l0 tr l :
  bridge_backed l0 -> bridge_history l0 tr l ->
  (forall a, a ∈ pAssets P ->
     bridged_supply sha3_256 l a = Done (balances P (bleaf sha3_256 l) a) /\
     bridge_reserves_conserved sha3_256 l a = Done true /\
     balances P (bleaf sha3_256 l) a + pending P (bleaf sha3_256 l) a <= custody_of (bleaf sha3_256 l) a) /\
  (forall s, step_playable l s -> exists b l', run_bridge_step s l = (Done b, l')).
Proof.
  intros Hb0 Hh. destruct (history_invariant l0 tr l Hb0 Hh) as (Hb & _). split.
  - intros a Ha. pose proof (b_supply P _ Hb a Ha) as Es. pose proof (b_reserve P _ Hb a Ha) as Er.
    assert (E : bridged_supply sha3_256 l a = Done (balances P (bleaf sha3_256 l) a)).
    { unfold bridged_supply. rewrite (read_asset sha3_256 P l _ _ (agrees_self l)) by (done || apply Hb).
      cbn [obind]. by rewrite <- Es. }
    split; [done|]. split; [|lia]. unfold bridge_reserves_conserved, bridge_reserve_state.
    rewrite (read_vault sha3_256 P l _ _ (agrees_self l)).
    destruct (b_vault P _ Hb) as (v & Ev & HvV). rewrite Ev.
    destruct (agrees_num sha3_256 P l _ _ (BCustody v a) (agrees_self l) Hb (conj HvV Ha) ltac:(done)) as [Ec _].
    change (bridge_vault_custody sha3_256 l v a) with
      (leaf_number u128_codec 0 l (sha3_256 (bslot_preimage (BCustody v a)))).
    rewrite Ec. cbn [obind]. rewrite E. cbn [obind]. f_equal. apply Z.leb_le.
    unfold custody_of in Er. rewrite Ev in Er.
    pose proof (pending_nonneg P (bleaf sha3_256 l) a (b_leaf P _ Hb)). lia.
  - intros s Hs. pose proof (run_bridge_step_keeps l s Hb Hs) as Hw. unfold wp in Hw.
    destruct (run_bridge_step s l) as [[b|] l']; [by exists b, l'|done].
Qed.

(** C20: Nothing is minted or paid out twice.  In any history every deposit reference
    is minted at most once, every burn is settled or reversed at most once, never
    both, and never one that was closed before the history began. *)
Theorem bridge_pays_once l0 tr l :
  bridge_backed l0 -> bridge_history l0 tr l ->
  NoDup (marks tr) /\ forall m, m ∈ marks tr -> flagged (bleaf sha3_256 l0 m) = false.
Proof.
  intros Hb0 Hh. destruct (history_invariant l0 tr l Hb0 Hh) as (_ & Hnd & _ & Hm).
  split; [done|]. intros m Hin. by apply Hm.
Qed.

(** C36: An open exit is payable.  At any point of any history, a recorded burn of a
    registered asset that is not closed is settled by its attested fact, whenever
    exits are enabled and the bridge is not frozen: the vault always has the coins. *)
Theorem open_exit_payable l0 tr l f :
  bridge_backed l0 -> bridge_history l0 tr l -> exit_playable P f ->
  bridge_exits_enabled sha3_256 l = true -> bridge_is_frozen sha3_256 l = Done false ->
  bridged_asset sha3_256 l (exit_asset f) <> Done None ->
  bridge_outstanding_burn sha3_256 l (exit_burn_ref f) =
    Done (Some (mkBurn (exit_asset f) (exit_amount f) (exit_holder f) (exit_destination f))) ->
  bridge_exit_settled sha3_256 l (exit_burn_ref f) = false -> exit_amount f <> 0 ->
  exists l', bridge_settle sha3_256 f l = (Done true, l') /\
    bridge_exit_settled sha3_256 l' (exit_burn_ref f) = true.
Proof.
  intros Hb0 Hh Hp Hen Hfr Hreg Hburn Hopen Hamt.
  destruct (history_invariant l0 tr l Hb0 Hh) as (Hb & _).
  pose proof (settle_keeps sha3_256 P P_ok P_apart l _ _ f (agrees_self l) Hb Hp) as Hw.
  unfold wp in Hw. assert (E : (bridge_settle sha3_256 f l).1 = Done true).
  { destruct (open_exit_view sha3_256 P l _ _ f (agrees_self l) Hb Hp) as [Eo|(v & x & Eo & Ho)];
      [|by eapply settle_pays].
    exfalso. revert Eo. unfold open_exit. rewrite Hen, Hfr. cbn [negb obind].
    rewrite (read_vault sha3_256 P l _ _ (agrees_self l)). destruct (b_vault P _ Hb) as (v & -> & _).
    rewrite (proj2 (Z.eqb_neq _ _) Hamt).
    rewrite (read_asset sha3_256 P l _ _ (agrees_self l)) in Hreg |- * by (apply Hp || apply Hb). cbn [obind].
    destruct (asset_of _ _); [|done]. unfold outstanding_burn_matches. rewrite Hopen, Hburn. cbn.
    by rewrite !bool_decide_true, Z.eqb_refl by done. }
  destruct (bridge_settle sha3_256 f l) as [r l'] eqn:Es. cbn in E. subst r. exists l'. split; [done|].
  destruct Hw as (L' & n' & Ha & _ & _ & Hm). rewrite (read_exit sha3_256 P l' L' n' Ha) by apply Hp.
  by apply Hm.
Qed.
End History.

(** ** An example *)

Lemma run_done sha s l b : (run_bridge_step sha s l).1 = Done b -> run_bridge_step sha s l = (Done b, (run_bridge_step sha s l).2).
Proof. destruct (run_bridge_step sha s l). by intros [= ->]. Qed.

Definition example_asset : list byte := replicate 16 x0a.
Definition example_holder : list byte := replicate 32 x0b.
Definition example_vault : list byte := replicate 32 x0c.
Definition example_deposit : Fact := mkFact 1 1 9 7 DirDeposit 0 (replicate 32 x0d) example_asset 500 example_holder 6 0 100.
Definition example_ref : list byte :=
  bridge_burn_ref example_hash 7 (replicate 32 x00) example_asset example_holder 200 example_vault 0 1.
Definition example_exit : ExitFact := mkExitFact 1 1 9 example_asset 200 example_holder example_vault example_ref OutSettle.
Definition example_play : Play :=
  mkPlay [example_asset] [example_holder] [example_ref] [example_vault] [(1, replicate 32 x0d)] [0].

Definition example_start : Ledger :=
  from_trie {[ example_hash (bslot_preimage BVault) := example_vault ]}.
Definition example_steps : list BridgeStep :=
  [SetExits [x01]; Register example_asset 1000 1000 false; Deposit example_deposit;
   Burn example_asset example_holder 200 example_vault 7 0].
Definition example_after (n : nat) : Ledger :=
  foldl (fun l s => (run_bridge_step example_hash s l).2) example_start (take n example_steps).
Definition example_trace : list (BridgeStep * bool) := map (fun s => (s, true)) example_steps.

Lemma example_play_ok : play_ok example_play.
Proof. split; try split; first [by apply NoDup_singleton | by apply Forall_singleton]. Qed.
Lemma example_play_apart :
  separates example_hash (map bslot_preimage (bslots example_play)) (map bslot_preimage (bslots example_play)).
Proof. apply separates_check. by vm_compute. Qed.

Lemma example_leaf s :
  playable example_play s -> s <> BVault -> bleaf example_hash example_start s = None.
Proof.
  intros Hs Hne. unfold bleaf, get_leaf, example_start. cbn [leaves from_trie]. apply lookup_singleton_ne.
  intros E. apply Hne. symmetry.
  by apply (bslot_key_inj example_hash example_play example_play_ok example_play_apart).
Qed.

Lemma example_start_backed : bridge_backed example_hash example_play example_start.
Proof.
  set (L := bleaf example_hash example_start).
  assert (HL : forall s, playable example_play s -> bleaf_ok s (L s)).
  { intros s Hs. destruct (decide (s = BVault)) as [->|Hne]; [done|]. unfold L. rewrite example_leaf by done.
    destruct s; try exact I; apply readable_none. }
  constructor; [exact HL|..].
  - exists example_vault. split; [by vm_compute|]. by left.
  - unfold epoch_of. rewrite example_leaf by done. by left.
  - unfold listed. rewrite example_leaf by done. by intros a Ha%elem_of_nil.
  - intros a ->%list_elem_of_singleton _. split; by vm_compute.
  - intros a ->%list_elem_of_singleton. by vm_compute.
  - intros a ->%list_elem_of_singleton. by vm_compute.
Qed.

Lemma example_history : bridge_history example_hash example_play example_start example_trace (example_after 4).
Proof.
  apply (bh_step _ _ _ (take 3 example_trace) (example_after 3)).
  - apply (bh_step _ _ _ (take 2 example_trace) (example_after 2)).
    + apply (bh_step _ _ _ (take 1 example_trace) (example_after 1)).
      * apply (bh_step _ _ _ [] example_start); [constructor|done|]. by apply run_done; vm_compute.
      * cbn. split; [by left|done].
      * by apply run_done; vm_compute.
    + cbn. split; [by left|]. split; [by left|]. by split; [left|].
    + by apply run_done; vm_compute.
  - cbn. split; [by left|]. split; [by left|]. split; [done|]. split; [done|].
    apply (bool_decide_unpack _). by vm_compute.
  - by apply run_done; vm_compute.
Qed.

Lemma bridge_stays_solvent_witness :
  bridge_reserves_conserved example_hash (example_after 4) example_asset = Done true /\
  bridged_supply example_hash (example_after 4) example_asset = Done 300.
Proof.
  destruct (bridge_stays_solvent example_hash example_play example_play_ok example_play_apart example_start
    example_trace (example_after 4) example_start_backed example_history) as [H _].
  destruct (H example_asset ltac:(by left)) as (H1 & H2 & _). split; [exact H2|]. by vm_compute.
Defined.

Lemma bridge_pays_once_witness :
  NoDup (marks example_trace) /\ marks example_trace = [BSeen 1 (replicate 32 x0d)].
Proof.
  destruct (bridge_pays_once example_hash example_play example_play_ok example_play_apart example_start
    example_trace (example_after 4) example_start_backed example_history) as [H _].
  split; [exact H|]. by vm_compute.
Defined.

Lemma open_exit_payable_witness :
  exists l', bridge_settle example_hash example_exit (example_after 4) = (Done true, l') /\
    bridge_exit_settled example_hash l' example_ref = true.
Proof.
  apply (open_exit_payable example_hash example_play example_play_ok example_play_apart example_start
    example_trace (example_after 4) example_exit example_start_backed example_history); try by vm_compute.
  split; [by left|]. split; [by left|]. by split; [left|].
Defined.
