(* ===== verification/LedgerGov.v ===== *)
(** * Governance on the ledger (qtv-node/src/ledger.rs)

    Referenda with their actions, ballots, deposits and receipts, the locks of voters,
    what an enacted action does to the ledger, and the guardians with their temporary
    freezes, as leaves of the ledger on top of the rules of [Governance]. *)

From S2P Require Import Prelude Codec Idfmt Events LedgerState LedgerKeys.
From S2P Require Import Governance Staking Fee LedgerStake Bridge LedgerBridge.

(** ** Keys *)

Definition GOV_NEXT_TAG := ascii "qtv/gov/next".
Definition GOV_LOCKED_TAG := ascii "qtv/gov/locked".
Definition GOV_REF_TAG := ascii "qtv/gov/ref/".
Definition GOV_ACTION_TAG := ascii "qtv/gov/action/".
Definition GOV_BALLOT_TAG := ascii "qtv/gov/ballot/".
Definition GOV_FEATURE_TAG := ascii "qtv/gov/feature/".
Definition GOV_GUARDIAN_TAG := ascii "qtv/gov/guardians".
Definition GOV_GUARDIAN_EPOCH_TAG := ascii "qtv/gov/guardian/epoch".
Definition GOV_GUARDIAN_FREEZE_TARGETS_TAG := ascii "qtv/gov/guardian/freeze/targets".
Definition GUARDIAN_FREEZE_WINDOW_SECONDS : Z := 7 * 86400.
Definition GOV_RECEIPT_TAG := ascii "qtv/gov/receipt/".
Definition GOV_ELECTORATE_TAG := ascii "qtv/gov/electorate/".
Definition GOV_MINT_PERIOD_TAG := ascii "qtv/gov/mint-period/".
Definition GUARDIAN_ENACT_NONCE_TAG := ascii "qtv/guardian/enact-nonce".
Definition GUARDIAN_PENDING_ENACT_TAG := ascii "qtv/guardian/pending-enact".
Definition GUARDIAN_ENACT_DELAY_SECONDS : Z := 24 * 60 * 60.

Definition action_kind (a : Action) : list byte :=
  match a with
  | Activate _ _ => ascii "activate"
  | Mint _ _ => ascii "mint"
  | BridgeMigration _ => ascii "bridge_migration"
  | BridgeUnfreeze => ascii "bridge_unfreeze"
  | GuardianRotate _ => ascii "guardian_rotate"
  | CommitteeRotate _ => ascii "committee_rotate"
  | AssetRegister _ _ _ _ => ascii "asset_register"
  | BridgeAnchorSet _ _ => ascii "bridge_anchor_set"
  | EpochAdvance => ascii "epoch_advance"
  | OperatorRevoke _ => ascii "operator_revoke"
  | FreezeRecovery _ _ _ => ascii "freeze_recovery"
  | Blacklist _ => ascii "blacklist"
  | Freeze _ => ascii "freeze"
  | SetParameter _ _ => ascii "parameter"
  | Spend _ _ _ => ascii "spend"
  | Unfreeze _ => ascii "unfreeze"
  end.
Definition status_kind (s : Status) : list byte :=
  match s with Deciding => ascii "deciding" | Approved => ascii "approved" | Rejected => ascii "rejected" end.

Definition action_is_enactable (a : Action) : bool :=
  match a with
  | Activate feature _ => negb (bool_decide (feature = []))
  | BridgeAnchorSet _ _ => false
  | _ => true
  end.
Definition u64_from_le (bytes : list byte) : option Z :=
  if (length bytes =? 8)%nat then Some (from_le bytes) else None.

(** [chunks_exact(size)]. *)
Fixpoint chunks_exact_of (size fuel : nat) (bytes : list byte) : list (list byte) :=
  match fuel with
  | O => []
  | S fuel => if (length bytes <? size)%nat then [] else take size bytes :: chunks_exact_of size fuel (drop size bytes)
  end.

Section Gov.
Context (sha3_256 : list byte -> list byte).

#[local] Notation account := (account sha3_256).
#[local] Notation set_account := (set_account sha3_256).
#[local] Notation singleton_key := (stake_singleton_key sha3_256).
#[local] Notation stake_bond := (stake_bond sha3_256).
#[local] Notation gov_lock := (gov_lock sha3_256).
#[local] Notation is_frozen_id := (is_frozen_id sha3_256).
#[local] Notation is_gov_blacklisted := (is_gov_blacklisted sha3_256).

Definition gov_referendum_key (id : Z) : list byte := sha3_256 (GOV_REF_TAG ++ to_le 8 id).
Definition gov_action_key (id : Z) : list byte := sha3_256 (GOV_ACTION_TAG ++ to_le 8 id).
Definition gov_receipt_key (id : Z) : list byte := sha3_256 (GOV_RECEIPT_TAG ++ to_le 8 id).
Definition gov_electorate_key (id : Z) : list byte := sha3_256 (GOV_ELECTORATE_TAG ++ to_le 8 id).
Definition gov_deposit_key (code : Z) : list byte := sha3_256 (GOV_DEPOSIT_TAG ++ [byte_of code]).
Definition gov_ballot_key (referendum : Z) (voter : list byte) : list byte :=
  sha3_256 (GOV_BALLOT_TAG ++ to_le 8 referendum ++ voter).
Definition feature_gate_key (feature : list byte) : list byte := sha3_256 (GOV_FEATURE_TAG ++ feature).
Definition gov_mint_period_key (period : Z) : list byte := sha3_256 (GOV_MINT_PERIOD_TAG ++ to_le 8 period).

(** ** Leaves *)

Definition gov_next_id (l : Ledger) : outcome Z := decode_or u64_codec 1 (get_leaf l (singleton_key GOV_NEXT_TAG)).
Definition set_gov_next_id (id : Z) : M unit := write_leaf (singleton_key GOV_NEXT_TAG) (to_bytes u64_codec id).
Definition gov_total_locked (l : Ledger) : outcome Z :=
  decode_or u128_codec 0 (get_leaf l (singleton_key GOV_LOCKED_TAG)).
Definition set_gov_total_locked (amount : Z) : M unit :=
  write_leaf (singleton_key GOV_LOCKED_TAG) (to_bytes u128_codec amount).

(** [filter(|bytes| !bytes.is_empty()).and_then(stored)]. *)
Definition stored_leaf {A} (stored : list byte -> option A) (leaf : option (list byte)) : option A :=
  match leaf with Some (b :: bytes) => stored (b :: bytes) | _ => None end.
Definition gov_referendum (l : Ledger) (id : Z) : option Referendum :=
  stored_leaf referendum_from_stored (get_leaf l (gov_referendum_key id)).
Definition set_gov_referendum (id : Z) (r : Referendum) : M unit :=
  write_leaf (gov_referendum_key id) (to_bytes Referendum_codec r).
(** The referenda from [start] on, [fuel] of them at most. *)
Fixpoint referenda_from (l : Ledger) (fuel : nat) (id : Z) : list Referendum :=
  match fuel with
  | O => []
  | S fuel =>
      match gov_referendum l id with Some r => r :: referenda_from l fuel (id + 1) | None => referenda_from l fuel (id + 1) end
  end.
Definition gov_referenda (l : Ledger) (limit : Z) : outcome (list Referendum) :=
  obind (gov_next_id l) (fun next =>
  let start := Z.max (saturating_sub next limit) 1 in
  Done (referenda_from l (Z.to_nat (next - start)) start)).

Definition gov_action (l : Ledger) (id : Z) : outcome (option Action) :=
  decode_some Action_codec (get_leaf l (gov_action_key id)).
Definition set_gov_action (id : Z) (a : Action) : M unit := write_leaf (gov_action_key id) (to_bytes Action_codec a).
Definition clear_gov_action (id : Z) : M unit := write_leaf (gov_action_key id) [].
Definition gov_electorate (l : Ledger) (id : Z) : outcome (option Z) :=
  decode_some u64_codec (get_leaf l (gov_electorate_key id)).
Definition set_gov_electorate (id amount : Z) : M unit :=
  write_leaf (gov_electorate_key id) (to_bytes u64_codec amount).
Definition gov_track_deposit (l : Ledger) (t : Track) : outcome Z :=
  leaf_number u64_codec (Track_deposit t) l (gov_deposit_key (Track_code t)).
Definition set_gov_track_deposit (t : Track) (amount : Z) : M unit :=
  write_leaf (gov_deposit_key (Track_code t)) (to_bytes u64_codec amount).
Definition gov_receipt (l : Ledger) (id : Z) : option EnactmentReceipt :=
  stored_leaf receipt_from_stored (get_leaf l (gov_receipt_key id)).
Definition set_gov_receipt (id : Z) (r : EnactmentReceipt) : M unit :=
  write_leaf (gov_receipt_key id) (to_bytes EnactmentReceipt_codec r).
Definition gov_ballot (l : Ledger) (referendum : Z) (voter : list byte) : outcome (option Ballot) :=
  decode_some Ballot_codec (get_leaf l (gov_ballot_key referendum voter)).
Definition set_gov_ballot (referendum : Z) (voter : list byte) (b : Ballot) : M unit :=
  write_leaf (gov_ballot_key referendum voter) (to_bytes Ballot_codec b).
Definition set_gov_lock (voter : list byte) (k : Lock) : M unit :=
  write_leaf (gov_lock_key sha3_256 voter) (to_bytes Lock_codec k).
Definition clear_gov_lock (voter : list byte) : M unit := write_leaf (gov_lock_key sha3_256 voter) [].
Definition gov_minted_in_period (l : Ledger) (period : Z) : outcome Z :=
  leaf_number u128_codec 0 l (gov_mint_period_key period).
Definition set_gov_minted_in_period (period amount : Z) : M unit :=
  write_leaf (gov_mint_period_key period) (to_bytes u128_codec amount).
Definition set_stake_price (rate : Z) : M unit := write_leaf (singleton_key STAKE_PRICE_TAG) (to_bytes u128_codec rate).
Definition set_bridge_gateway (gateway : list byte) : M unit := write_leaf (singleton_key BRIDGE_GATEWAY_TAG) gateway.

Definition is_protected_account (addr : list byte) : bool :=
  match id_from_slice addr with Some id => is_reserved_pot sha3_256 id | None => false end.

(** ** Stopped accounts *)

Definition asset_issuer_is_stopped (l : Ledger) (asset_id : list byte) : bool :=
  flagged (get_leaf l (gov_stopped_asset_key sha3_256 asset_id)).
Definition record_stopped (id : list byte) : M unit :=
  write_leaf (gov_stopped_asset_key sha3_256 (asset_id_of sha3_256 id)) [x01].
Definition forget_stopped (id : list byte) : M unit :=
  write_leaf (gov_stopped_asset_key sha3_256 (asset_id_of sha3_256 id)) [].
Definition set_gov_blacklisted (id : list byte) : M unit :=
  write_leaf (gov_blacklist_key sha3_256 id) [x01];; record_stopped id.
Definition set_frozen (id : list byte) : M unit :=
  write_leaf (gov_freeze_key sha3_256 id) [x01];; record_stopped id.
Definition clear_frozen (id : list byte) : M unit :=
  write_leaf (gov_freeze_key sha3_256 id) [];;
  listed ← asks (fun l => is_gov_blacklisted l id);
  when (negb listed) (forget_stopped id).

(** ** Guardians *)

Definition GuardianSet_default : GuardianSet := mkGuardianSet [] 0.
Definition guardian_set (l : Ledger) : outcome GuardianSet :=
  leaf_number GuardianSet_codec GuardianSet_default l (singleton_key GOV_GUARDIAN_TAG).
Definition set_guardian_set (caucus : GuardianSet) : M unit :=
  write_leaf (singleton_key GOV_GUARDIAN_TAG) (to_bytes GuardianSet_codec caucus).
Definition guardian_freeze_epoch (l : Ledger) : outcome Z :=
  leaf_number u64_codec 0 l (singleton_key GOV_GUARDIAN_EPOCH_TAG).
Definition set_guardian_freeze_epoch (epoch : Z) : M unit :=
  write_leaf (singleton_key GOV_GUARDIAN_EPOCH_TAG) (to_bytes u64_codec epoch).

Definition guardian_freeze_entries (l : Ledger) : list (list byte * Z) :=
  match get_leaf l (singleton_key GOV_GUARDIAN_FREEZE_TARGETS_TAG) with
  | Some packed =>
      if (40 <=? length packed)%nat
      then map (fun chunk => (take 32 chunk, from_le (take 8 (drop 32 chunk)))) (chunks_exact_of 40 (length packed) packed)
      else []
  | None => []
  end.
Definition write_guardian_freeze_entries (entries : list (list byte * Z)) : M unit :=
  write_leaf (singleton_key GOV_GUARDIAN_FREEZE_TARGETS_TAG)
    (concat (map (fun e => e.1 ++ to_le 8 e.2) entries)).
Definition guardian_freeze_forget (targets : list (list byte)) : M unit :=
  entries ← asks guardian_freeze_entries;
  write_guardian_freeze_entries (filter (fun e => e.1 ∉ targets) entries).

(** [entries.iter().position(..)] set to [until], or a new entry at the end. *)
Fixpoint put_entry (target : list byte) (until : Z) (entries : list (list byte * Z)) : list (list byte * Z) :=
  match entries with
  | [] => [(target, until)]
  | e :: entries => if bool_decide (e.1 = target) then (target, until) :: entries else e :: put_entry target until entries
  end.

Definition held_by_guardians (entries : list (list byte * Z)) (target : list byte) : bool :=
  existsb (fun e => bool_decide (e.1 = target)) entries.

Fixpoint freeze_each (bound until : Z) (targets : list (list byte)) (entries : list (list byte * Z)) :
    M (list (list byte * Z)) :=
  match targets with
  | [] => mret entries
  | target :: targets =>
      set_frozen target;;
      text ← lift (id_bytes_to_address target);
      match text with
      | Some addr => record_side_event (Side.GuardianFreeze addr bound)
      | None => mret tt
      end;;
      freeze_each bound until targets (put_entry target until entries)
  end.

Definition guardian_freeze (bound : Z) (targets approvers : list (list byte)) (now : Z) : M bool :=
  if bool_decide (targets = []) then mret false
  else
    set ← ask guardian_set;
    if negb (authorizes set approvers) then mret false
    else
      epoch ← ask guardian_freeze_epoch;
      if negb (bound =? epoch) then mret false
      else if existsb is_protected_account targets then mret false
      else
        held ← asks guardian_freeze_entries;
        taken ← asks (fun l => existsb (fun t => is_frozen_id l t && negb (held_by_guardians held t)) targets);
        if (taken : bool) then mret false
        else
          entries ← freeze_each bound (saturating_add 64 now GUARDIAN_FREEZE_WINDOW_SECONDS) targets held;
          write_guardian_freeze_entries entries;;
          set_guardian_freeze_epoch (saturating_add 64 bound 1);;
          mret true.

Definition guardian_expire (now : Z) : M unit :=
  entries ← asks guardian_freeze_entries;
  if bool_decide (entries = []) then mret tt
  else
    for_each entries (fun e => when (e.2 <=? now) (clear_frozen e.1));;
    write_guardian_freeze_entries (filter (fun e => now < e.2) entries).

Definition guardian_bridge_unfreeze (approvers : list (list byte)) (now : Z) : M bool :=
  found ← ask (bridge_freeze sha3_256);
  if negb (bool_decide (is_Some found)) then mret false
  else
    set ← ask guardian_set;
    if negb (authorizes set approvers) then mret false
    else lift_bridge_freeze sha3_256 now SlashLift;; mret true.
Definition gov_unfreeze_bridge (now : Z) : M (Result EnactError unit) :=
  found ← ask (bridge_freeze sha3_256);
  if negb (bool_decide (is_Some found)) then mret (Err BridgeNotFrozen)
  else lift_bridge_freeze sha3_256 now SlashLift;; mret (Ok tt).

(** [(1..next).any(..)]. *)
Fixpoint migration_among (l : Ledger) (now : Z) (fuel : nat) (id : Z) : outcome bool :=
  match fuel with
  | O => Done false
  | S fuel =>
      let rest := migration_among l now fuel (id + 1) in
      match gov_referendum l id with
      | None => rest
      | Some r =>
          if negb (killed r) && negb (bool_decide (status r = Rejected)) && negb (enactment_expired r now)
          then obind (gov_action l id) (fun a =>
            match a with Some (BridgeMigration _) => Done true | _ => rest end)
          else rest
      end
  end.
Definition bridge_migration_pending (l : Ledger) (now : Z) : outcome bool :=
  obind (gov_next_id l) (fun next => migration_among l now (Z.to_nat (next - 1)) 1).
Definition bridge_expire (now : Z) : M unit :=
  found ← ask (bridge_freeze sha3_256);
  match found with
  | None => mret tt
  | Some record =>
      if negb (freeze_until record <=? now) then mret tt
      else
        pending ← ask (fun l => bridge_migration_pending l now);
        when (negb pending) (lift_bridge_freeze sha3_256 now SlashLift)
  end.

(** ** Referenda *)

Definition gov_propose (proposer_ : list byte) (t : Track) (a : Action) (now : Z) : M (option Z) :=
  if negb (bool_decide (Action_track a = t)) then mret None
  else if negb (action_is_enactable a) then mret None
  else match address_id proposer_ with
  | None => mret None
  | Some proposer_id =>
      dep ← ask (fun l => gov_track_deposit l t);
      acc ← asks (fun l => account l proposer_);
      if acc_balance acc <? dep then mret None
      else
        set_account proposer_ (with_balance acc (acc_balance acc - dep));;
        id ← ask gov_next_id;
        set_gov_referendum id (Referendum_open id t proposer_id now dep);;
        set_gov_action id a;;
        live ← ask (matured_total_staked sha3_256);
        set_gov_electorate id live;;
        next ← lift (panicking_add 64 id 1);
        set_gov_next_id next;;
        record_side_event (Side.GovPropose id proposer_ (Track_code t) (action_kind a) dep);;
        mret (Some id)
  end.

(** The lock of a voter after [stake] more is locked until [release]. *)
Definition lock_more (k : option Lock) (stake release : Z) : Lock :=
  let k := default (mkLock 0 0) k in
  mkLock (saturating_add 64 (lock_amount k) stake) (if until k <? release then release else until k).

(** What [gov_vote] asks for before it moves anything: the referendum to vote on. *)
Definition vote_open (l : Ledger) (voter : list byte) (voter_id : list byte) (referendum_id stake now : Z) :
    outcome (option Referendum) :=
  match gov_referendum l referendum_id with
  | None => Done None
  | Some r =>
      if negb (bool_decide (status r = Deciding)) || ready r now then Done None
      else obind (gov_ballot l referendum_id voter_id) (fun cast =>
        if bool_decide (is_Some cast) then Done None
        else obind (stake_bond l voter_id) (fun bond =>
          if match bond with Some b => bool_decide (is_Some (exit_requested_at b)) | None => false end then Done None
          else if acc_balance (account l voter) <? stake then Done None
          else obind (governance_stake_in_epoch sha3_256 l voter (current_epoch l)) (fun bonded =>
            Done (if bonded * NATIVE_UNIT <? stake then None else Some r))))
  end.

Definition gov_vote (voter : list byte) (referendum_id : Z) (aye_ : bool) (c : Conviction) (stake now : Z) : M bool :=
  match address_id voter with
  | None => mret false
  | Some voter_id =>
      opened ← ask (fun l => vote_open l voter voter_id referendum_id stake now);
      match opened with
      | None => mret false
      | Some r =>
          acc ← asks (fun l => account l voter);
          set_account voter (with_balance acc (acc_balance acc - stake));;
          held ← ask (fun l => gov_lock l voter_id);
          set_gov_lock voter_id (lock_more held stake (Z.max (saturating_add 64 now (lock_seconds c)) (decides_at r)));;
          locked ← ask gov_total_locked;
          total ← lift (panicking_add 128 locked stake);
          set_gov_total_locked total;;
          set_gov_referendum referendum_id (with_tally r (record_conviction (tally r) aye_ c stake));;
          set_gov_ballot referendum_id voter_id (mkBallot aye_ c stake);;
          record_side_event (Side.GovVote referendum_id voter aye_ (Conviction_code c) stake);;
          mret true
      end
  end.

(** [self.set_stake_treasury(self.stake_treasury().saturating_add(amount))]. *)
Definition credit_treasury (amount : Z) : M unit :=
  treasury ← ask (stake_treasury sha3_256);
  set_stake_treasury sha3_256 (saturating_add 64 treasury amount).

Definition gov_conclude (referendum_id now : Z) : M (option Status) :=
  found ← asks (fun l => gov_referendum l referendum_id);
  match found with
  | None => mret None
  | Some r =>
      if negb (bool_decide (status r = Deciding)) then mret (Some (status r))
      else
        live ← ask (matured_total_staked sha3_256);
        snapshot ← ask (fun l => gov_electorate l referendum_id);
        let electorate := Z.max (default live snapshot) live in
        let '(verdict, r) := resolve r now electorate in
        if bool_decide (verdict = Deciding) then mret (Some verdict)
        else
          (if deposit_refunded r electorate then
             text ← lift (id_bytes_to_address (Governance.proposer r));
             match text with
             | Some addr =>
                 acc ← asks (fun l => account l addr);
                 set_account addr (with_balance acc (saturating_add 64 (acc_balance acc) (deposit r)))
             | None => credit_treasury (deposit r)
             end
           else credit_treasury (deposit r));;
          set_gov_referendum referendum_id r;;
          record_side_event (Side.GovTally referendum_id (status_kind verdict) (aye_stake (tally r)) (nay_stake (tally r)));;
          mret (Some verdict)
  end.

Definition gov_release (voter : list byte) (now : Z) : M Z :=
  match address_id voter with
  | None => mret 0
  | Some voter_id =>
      held ← ask (fun l => gov_lock l voter_id);
      match held with
      | Some k =>
          if negb (withdrawable k now) then mret 0
          else
            clear_gov_lock voter_id;;
            locked ← ask gov_total_locked;
            set_gov_total_locked (saturating_sub locked (lock_amount k));;
            acc ← asks (fun l => account l voter);
            set_account voter (with_balance acc (saturating_add 64 (acc_balance acc) (lock_amount k)));;
            mret (lock_amount k)
      | None => mret 0
      end
  end.

(** ** Features and parameters *)

Definition feature_version (l : Ledger) (feature : list byte) : outcome Z :=
  leaf_number u64_codec 0 l (feature_gate_key feature).
Definition feature_active (l : Ledger) (feature : list byte) : outcome bool :=
  obind (feature_version l feature) (fun v => Done (0 <? v)).
Definition set_feature_version (feature : list byte) (version : Z) : M unit :=
  write_leaf (feature_gate_key feature) (to_bytes u64_codec version).

Definition set_mainnet_parameter (value : list byte) (now : Z) : M (Result EnactError unit) :=
  match u64_from_le value with
  | None => mret (Err BadValue)
  | Some day =>
      start ← ask (stake_mainnet_start sha3_256);
      if negb (start =? U64_MAX) then mret (Err BadValue)
      else if day <? now / 86400 then mret (Err BadValue)
      else
        set_stake_mainnet_start sha3_256 day;;
        set_session_meter sha3_256 (SessionMeter_new day);;
        mret (Ok tt)
  end.
Definition set_deposit_parameter (value : list byte) : M (Result EnactError unit) :=
  if negb (length value =? 9)%nat then mret (Err BadValue)
  else match value with
  | [] => mret (Err BadValue)
  | code :: amount =>
      match Track_from_code (byte_val code) with
      | None => mret (Err BadValue)
      | Some t =>
          let amount := from_le amount in
          supply ← ask (total_supply sha3_256);
          let '(floor, ceiling) := gov_deposit_bounds supply in
          if (amount <? floor) || (ceiling <? amount) then mret (Err BadValue)
          else set_gov_track_deposit t amount;; mret (Ok tt)
      end
  end.
Definition apply_parameter (key value : list byte) (now : Z) : M (Result EnactError unit) :=
  if bool_decide (key = ascii "price") then
    match u128_from_le value with
    | None => mret (Err BadValue)
    | Some rate => set_stake_price rate;; mret (Ok tt)
    end
  else if bool_decide (key = ascii "mainnet_start") then set_mainnet_parameter value now
  else if bool_decide (key = ascii "bridge_gateway") then
    match id_from_slice value with
    | None => mret (Err BadValue)
    | Some gateway => set_bridge_gateway gateway;; mret (Ok tt)
    end
  else if bool_decide (key = ascii "bridge_exits") then set_exits_parameter sha3_256 value
  else if bool_decide (key = ascii "bridge_payout_cap") then set_payout_parameter sha3_256 value
  else if bool_decide (key = ascii "gov_deposit") then set_deposit_parameter value
  else mret (Err UnknownParameter).

(** ** Actions *)

(** [let r = op?; rest]. *)
Definition and_then (m : M (Result EnactError unit)) (k : M (Result EnactError unit)) : M (Result EnactError unit) :=
  r ← m; match r with Ok _ => k | Err e => mret (Err e) end.

Definition enact_mint (to : list byte) (amount now : Z) : M (Result EnactError unit) :=
  text ← lift (id_bytes_to_address to);
  match text with
  | None => mret (Err BadAddress)
  | Some addr =>
      let period := now / YEAR_SECONDS in
      already ← ask (fun l => gov_minted_in_period l period);
      match checked_add 128 already amount with
      | None => mret (Err Overflow)
      | Some after_period =>
          acc ← asks (fun l => account l addr);
          match checked_add 64 (acc_balance acc) amount with
          | None => mret (Err Overflow)
          | Some balance =>
              supply ← ask (total_supply sha3_256);
              match checked_add 64 supply amount with
              | None => mret (Err Overflow)
              | Some supply =>
                  set_account addr (with_balance acc balance);;
                  set_total_supply sha3_256 supply;;
                  set_gov_minted_in_period period after_period;;
                  record_mint_event addr amount;;
                  record_side_event (Side.Mint addr amount);;
                  mret (Ok tt)
              end
          end
      end
  end.

Definition enact_spend (from to : list byte) (amount : Z) : M (Result EnactError unit) :=
  text ← lift (id_bytes_to_address to);
  match text with
  | None => mret (Err BadAddress)
  | Some to_addr =>
      match id_from_slice from with
      | None => mret (Err BadAddress)
      | Some from_id =>
          let from_grants := bool_decide (from_id = sha3_256 (ascii "qtv/gov/grants")) in
          taken ← (
            if from_grants then
              grants ← lift (grants_address sha3_256);
              pot ← asks (fun l => account l grants);
              if acc_balance pot <? amount then mret (Err BadValue)
              else set_account grants (with_balance pot (acc_balance pot - amount));; mret (Ok tt)
            else if bool_decide (from_id = singleton_key STAKE_TREASURY_TAG) then
              treasury ← ask (stake_treasury sha3_256);
              if treasury <? amount then mret (Err BadValue)
              else set_stake_treasury sha3_256 (treasury - amount);; mret (Ok tt)
            else mret (Err BadAddress));
          match taken with
          | Err e => mret (Err e)
          | Ok _ =>
              acc ← asks (fun l => account l to_addr);
              set_account to_addr (with_balance acc (saturating_add 64 (acc_balance acc) amount));;
              record_side_event (Side.Spend (if from_grants then ascii "gov/grants" else ascii "stake/treasury") to_addr amount);;
              mret (Ok tt)
          end
      end
  end.

Definition enact_blacklist (target : list byte) : M (Result EnactError unit) :=
  match id_from_slice target with
  | None => mret (Ok tt)
  | Some id =>
      set_gov_blacklisted id;;
      text ← lift (id_bytes_to_address id);
      match text with Some addr => record_side_event (Side.Blacklist addr) | None => mret tt end;;
      mret (Ok tt)
  end.

(** The part of a seizure that comes out of the bond: all of it is released, the part
    asked for is taken and the rest goes to the holder. *)
Definition seize_bond (from_addr from_id : list byte) (remaining : Z) : M Z :=
  found ← ask (fun l => stake_bond l from_id);
  match found with
  | None => mret 0
  | Some bond =>
      let from_bond := Z.min (amount bond) remaining in
      if negb (0 <? from_bond) then mret 0
      else
        let residue := amount bond - from_bond in
        clear_stake_bond sha3_256 from_id;;
        debit_staked sha3_256 (amount bond);;
        (if 0 <? residue then
           holder ← asks (fun l => account l from_addr);
           set_account from_addr (with_balance holder (saturating_add 64 (acc_balance holder) residue))
         else mret tt);;
        mret from_bond
  end.
Definition seize_lock (from_id : list byte) (still : Z) : M Z :=
  found ← ask (fun l => gov_lock l from_id);
  match found with
  | None => mret 0
  | Some k =>
      let from_lock := Z.min (lock_amount k) still in
      if negb (0 <? from_lock) then mret 0
      else
        (let left := lock_amount k - from_lock in
         if left =? 0 then clear_gov_lock from_id else set_gov_lock from_id (mkLock left (until k)));;
        locked ← ask gov_total_locked;
        set_gov_total_locked (saturating_sub locked from_lock);;
        mret from_lock
  end.
(** What one seizure takes: first from the balance, then, from a frozen holder, from
    the bond and the vote lock. *)
Definition seize (from_addr : list byte) (s : Seizure) : M Z :=
  from ← asks (fun l => account l from_addr);
  let take := Z.min (acc_balance from) (seizure_amount s) in
  set_account from_addr (with_balance from (acc_balance from - take));;
  let remaining := seizure_amount s - take in
  if negb (0 <? remaining) then mret take
  else match id_from_slice (seizure_from s) with
  | None => mret take
  | Some from_id =>
      frozen ← asks (fun l => is_frozen_id l from_id);
      if negb frozen then mret take
      else
        from_bond ← seize_bond from_addr from_id remaining;
        let take := saturating_add 64 take from_bond in
        let still := saturating_sub (seizure_amount s) take in
        if negb (0 <? still) then mret take
        else
          from_lock ← seize_lock from_id still;
          mret (saturating_add 64 take from_lock)
  end.
Fixpoint seize_all (victim_addr scope : list byte) (ss : list Seizure) (recovered : Z) : M Z :=
  match ss with
  | [] => mret recovered
  | s :: ss =>
      text ← lift (id_bytes_to_address (seizure_from s));
      match text with
      | None => seize_all victim_addr scope ss recovered
      | Some from_addr =>
          take ← seize from_addr s;
          record_side_event (Side.RecoverySeizure victim_addr from_addr take scope);;
          seize_all victim_addr scope ss (saturating_add 64 recovered take)
      end
  end.
(** [filter_map(|..| <[u8; 32]>::try_from(..).ok())]. *)
Definition whole_ids (ids : list (list byte)) : list (list byte) := filter (fun id => length id = 32%nat) ids.
Definition enact_recovery (scope victim : list byte) (seizures : list Seizure) : M (Result EnactError unit) :=
  text ← lift (id_bytes_to_address victim);
  match text with
  | None => mret (Err BadAddress)
  | Some victim_addr =>
      recovered ← seize_all victim_addr scope seizures 0;
      acc ← asks (fun l => account l victim_addr);
      set_account victim_addr (with_balance acc (saturating_add 64 (acc_balance acc) recovered));;
      record_side_event (Side.RecoveryCredit victim_addr recovered scope);;
      guardian_freeze_forget (whole_ids (map seizure_from seizures));;
      mret (Ok tt)
  end.

(** The targets of [Freeze] and [Unfreeze] that are identifiers, each handled by [each]
    and announced. *)
Definition on_targets (each : list byte -> M unit) (event : list byte -> Side.SideEvent) (targets : list (list byte)) :
    M (Result EnactError unit) :=
  for_each (whole_ids targets) (fun id =>
    each id;;
    text ← lift (id_bytes_to_address id);
    match text with Some addr => record_side_event (event addr) | None => mret tt end);;
  guardian_freeze_forget (whole_ids targets);;
  mret (Ok tt).

(** The checks on a new committee of operators: the ids and keys are new and each
    operator has proven possession of its key. *)
Fixpoint claims_ok (pop_ok : Z -> list byte -> list byte -> bool) (claims : list OperatorClaim)
    (operators : list (Z * list byte)) : option (list (Z * list byte)) :=
  match claims with
  | [] => Some operators
  | c :: claims =>
      if existsb (fun o => o.1 =? Governance.operator_id c) operators then None
      else if existsb (fun o => bool_decide (o.2 = Governance.public_key c)) operators then None
      else if negb (pop_ok (Governance.operator_id c) (Governance.public_key c) (pop c)) then None
      else claims_ok pop_ok claims (operators ++ [(Governance.operator_id c, Governance.public_key c)])
  end.

Context (PUBLIC_KEY_BYTES SIGNATURE_BYTES : nat).
Context (ml_verify : list byte -> list byte -> list byte -> list byte -> bool).

Definition enact_committee (r : CommitteeRotation) (chain_id : Z) : M (Result EnactError unit) :=
  if rotation_threshold r <? 2 then mret (Err BadValue)
  else match claims_ok (fun id key pop => operator_pop_ok PUBLIC_KEY_BYTES SIGNATURE_BYTES ml_verify id key pop chain_id)
      (Governance.operators r) [] with
  | None => mret (Err BadValue)
  | Some ops =>
      if len ops <? rotation_threshold r then mret (Err BadValue)
      else if rotation_threshold r * 3 <=? len ops * 2 then mret (Err BadValue)
      else
        seed_bridge_operator_set sha3_256 (OperatorSet_new ops (rotation_threshold r));;
        record_side_event (Side.CommitteeRotate (wrap 32 (len ops)) (rotation_threshold r));;
        mret (Ok tt)
  end.
Definition enact_revoke (id : Z) : M (Result EnactError unit) :=
  found ← ask (bridge_operator_set sha3_256);
  match found with
  | None => mret (Err NoCommittee)
  | Some set =>
      let '(revoked, set) := revoke set id in
      if negb revoked then mret (Err BadValue)
      else
        seed_bridge_operator_set sha3_256 set;;
        record_side_event (Side.OperatorRevoke id);;
        mret (Ok tt)
  end.
Definition enact_activate (feature : list byte) (version : Z) : M (Result EnactError unit) :=
  if bool_decide (feature = []) then mret (Err BadValue)
  else
    current ← ask (fun l => feature_version l feature);
    if version <=? current then mret (Err BadValue)
    else
      set_feature_version feature version;;
      record_side_event (Side.Activate feature version);;
      mret (Ok tt).

Definition execute_action (a : Action) (now chain_id : Z) : M (Result EnactError unit) :=
  match a with
  | Mint to amount => enact_mint to amount now
  | SetParameter key value =>
      and_then (apply_parameter key value now) (record_side_event (Side.SetParameter key value);; mret (Ok tt))
  | Spend from to amount => enact_spend from to amount
  | Blacklist target => enact_blacklist target
  | FreezeRecovery scope victim seizures => enact_recovery scope victim seizures
  | Freeze targets => on_targets set_frozen Side.Freeze targets
  | Unfreeze targets => on_targets clear_frozen Side.Unfreeze targets
  | BridgeMigration vault => enact_bridge_migration sha3_256 vault
  | BridgeUnfreeze => and_then (gov_unfreeze_bridge now) (record_side_event Side.BridgeUnfreeze;; mret (Ok tt))
  | GuardianRotate set =>
      if negb (well_formed set) then mret (Err BadValue)
      else
        set_guardian_set set;;
        record_side_event (Side.GuardianRotate (wrap 32 (len (members set))) (Governance.threshold set));;
        mret (Ok tt)
  | CommitteeRotate rotation => enact_committee rotation chain_id
  | OperatorRevoke id => enact_revoke id
  | AssetRegister asset_id cap epoch_cap stark => enact_asset_register sha3_256 asset_id cap epoch_cap stark
  | BridgeAnchorSet _ _ => mret (Err BadValue)
  | EpochAdvance => enact_epoch_advance sha3_256
  | Activate feature version => enact_activate feature version
  end.

(** ** Enactment *)

Definition scope_matches (a : Action) (chain_id : Z) : bool :=
  match a with
  | FreezeRecovery scope victim seizures =>
      bool_decide (sha3_256 (recovery_scope_preimage chain_id victim seizures) = scope)
  | _ => true
  end.
Definition action_scope (a : Action) : list byte :=
  match a with FreezeRecovery scope _ _ => scope | _ => zeros 32 end.

Definition gov_enact (referendum_id now chain_id : Z) : M (Result EnactError unit) :=
  verdict ← gov_conclude referendum_id now;
  match verdict with
  | None => mret (Err Unknown)
  | Some verdict =>
      if negb (bool_decide (verdict = Approved)) then mret (Err NotApproved)
      else
        proposed ← ask (fun l => gov_action l referendum_id);
        match proposed with
        | None => mret (Err Unknown)
        | Some a =>
            found ← asks (fun l => gov_referendum l referendum_id);
            match found with
            | None => mret (Err Unknown)
            | Some r =>
                if enactment_expired r now then clear_gov_action referendum_id;; mret (Err Expired)
                else if negb (enactable r now) then mret (Err NotApproved)
                else match check_enactment (track r) a (scope_matches a chain_id) is_protected_account with
                | Err v => mret (Err (Constitution v))
                | Ok _ =>
                    done_ ← execute_action a now chain_id;
                    match done_ with
                    | Err e => mret (Err e)
                    | Ok _ =>
                        let hash := sha3_256 (to_bytes Action_codec a) in
                        set_gov_receipt referendum_id (mkReceipt referendum_id hash (action_scope a) (tally r) now);;
                        clear_gov_action referendum_id;;
                        record_side_event (Side.GovEnact referendum_id (action_kind a) hash);;
                        mret (Ok tt)
                    end
                end
            end
        end
  end.

(** ** Delayed actions of the guardians *)

Definition guardian_enact_nonce (l : Ledger) : outcome Z :=
  leaf_number u64_codec 0 l (singleton_key GUARDIAN_ENACT_NONCE_TAG).
Definition set_guardian_enact_nonce (nonce : Z) : M unit :=
  write_leaf (singleton_key GUARDIAN_ENACT_NONCE_TAG) (to_bytes u64_codec nonce).
Definition guardian_pending_enact (l : Ledger) : option (Z * list byte) :=
  match get_leaf l (singleton_key GUARDIAN_PENDING_ENACT_TAG) with
  | Some bytes => if (8 <? length bytes)%nat then Some (from_le (take 8 bytes), drop 8 bytes) else None
  | None => None
  end.
Definition clear_guardian_pending_enact : M unit := write_leaf (singleton_key GUARDIAN_PENDING_ENACT_TAG) [].
Definition is_anchor_set (a : Action) : bool := match a with BridgeAnchorSet _ _ => true | _ => false end.
Definition guardian_enact_bridge_action (a : Action) (enact_nonce now : Z) : M bool :=
  nonce ← ask guardian_enact_nonce;
  if negb (nonce =? enact_nonce) then mret false
  else if negb (is_anchor_set a) then mret false
  else
    pending ← asks guardian_pending_enact;
    if bool_decide (is_Some pending) then mret false
    else
      write_leaf (singleton_key GUARDIAN_PENDING_ENACT_TAG)
        (to_le 8 (saturating_add 64 now GUARDIAN_ENACT_DELAY_SECONDS) ++ to_bytes Action_codec a);;
      set_guardian_enact_nonce (saturating_add 64 enact_nonce 1);;
      mret true.
Definition guardian_apply_due_enact (now : Z) : M unit :=
  pending ← asks guardian_pending_enact;
  match pending with
  | None => mret tt
  | Some (effective_at, action_bytes) =>
      if now <? effective_at then mret tt
      else
        clear_guardian_pending_enact;;
        freeze ← ask (bridge_freeze sha3_256);
        if bool_decide (is_Some freeze) then mret tt
        else match Action_decode (Decoder_new action_bytes) with
        | Ok (a, d) =>
            if (remaining d =? 0) && is_anchor_set a then execute_action a now 0;; mret tt else mret tt
        | Err _ => mret tt
        end
  end.
End Gov.
