(* ===== verification/LedgerFrames.v ===== *)
(** * What a computation leaves alone

    [Keeps K m]: whatever becomes of the computation [m], the leaves under the keys
    of [K] read as before.  The class composes like the computations do, so that the
    operations of the ledger keep what they do not write, and [foreign] says that a
    string does not hash to the key of one of the protected strings. *)

From S2P Require Import Prelude Codec Idfmt Events LedgerState LedgerKeys.
From S2P Require Import Governance Staking Fee LedgerStake LedgerCoins.

Class Keeps (K : Key -> Prop) {A} (m : M A) : Prop :=
  keeps : forall l k, K k -> get_leaf (m l).2 k = get_leaf l k.

Section Keeps.
Context {K : Key -> Prop}.

Lemma keeps_ret {A} (a : A) : Keeps K (mret a).
Proof. done. Qed.
Lemma keeps_ask {A} (f : Ledger -> outcome A) : Keeps K (ask f).
Proof. done. Qed.
Lemma keeps_asks {A} (f : Ledger -> A) : Keeps K (asks f).
Proof. done. Qed.
Lemma keeps_lift {A} (o : outcome A) : Keeps K (lift o).
Proof. done. Qed.
Lemma keeps_side event : Keeps K (record_side_event event).
Proof. done. Qed.
Lemma keeps_native kind data : Keeps K (record_native_event kind data).
Proof. done. Qed.

Lemma keeps_bind {A B} (m : M A) (k : A -> M B) : Keeps K m -> (forall a, Keeps K (k a)) -> Keeps K (m ≫= k).
Proof.
  intros Hm Hk l x Hx. unfold mbind, M_bind. specialize (Hm l x Hx). destruct (m l) as [[a|] l']; [|done].
  etrans; [by apply Hk|done].
Qed.
Lemma keeps_bind_lift {A B} (o : outcome A) (k : A -> M B) :
  (forall a, o = Done a -> Keeps K (k a)) -> Keeps K (lift o ≫= k).
Proof. intros H l x Hx. unfold mbind, M_bind, lift. destruct o as [a|]; [|done]. by apply H. Qed.
Lemma keeps_if {A} (b : bool) (m1 m2 : M A) : Keeps K m1 -> Keeps K m2 -> Keeps K (if b then m1 else m2).
Proof. by destruct b. Qed.
Lemma keeps_when b m : Keeps K m -> Keeps K (when b m).
Proof. by destruct b. Qed.
Lemma keeps_for_each {A} (xs : list A) body :
  (forall x, x ∈ xs -> Keeps K (body x)) -> Keeps K (for_each xs body).
Proof.
  induction xs as [|x xs IH]; intros H; cbn [for_each]; [done|]. apply keeps_bind; [apply H; by left|].
  intros _. apply IH. intros y Hy. apply H. by right.
Qed.

Lemma get_leaf_note k key l : get_leaf (note_prior key l) k = get_leaf l k.
Proof. unfold note_prior, get_leaf. by destruct (journal l). Qed.
Lemma get_leaf_write key value l k :
  get_leaf (write_leaf key value l).2 k = if decide (k = key) then Some value else get_leaf l k.
Proof.
  unfold write_leaf, modify. cbn [snd].
  assert (E : forall m, get_leaf (with_leaves m (note_prior key l)) k = m !! k) by done.
  unfold get_leaf at 1. cbn [leaves with_leaves]. case_decide as Hk.
  - subst. apply lookup_insert_eq.
  - rewrite lookup_insert_ne by congruence. unfold note_prior, get_leaf. by repeat case_match.
Qed.
Lemma keeps_write key value : ~ K key -> Keeps K (write_leaf key value).
Proof. intros H l k Hk. rewrite get_leaf_write. case_decide; [by subst|done]. Qed.
Lemma keeps_erase key : ~ K key -> Keeps K (erase_leaf key).
Proof.
  intros H l k Hk. unfold erase_leaf, get_leaf. cbn [snd leaves with_leaves]. rewrite lookup_delete_ne by (by intros ->).
  unfold note_prior. by destruct (journal l).
Qed.

(** An atomic step keeps what the computation keeps: taken back, it changed nothing. *)
Lemma keeps_atomic (m : M bool) : Journaled m -> Keeps K m -> Keeps K (apply_atomic m).
Proof.
  intros J H l k Hk. destruct (apply_atomic_outcome m l J) as [(_ & _ & Hl & _)|(_ & (Hl & _) & _)];
    unfold get_leaf; rewrite Hl; [|done].
  apply (H (with_journal (Some []) l) k Hk).
Qed.
End Keeps.

Lemma keeps_mono (K K' : Key -> Prop) {A} (m : M A) : Keeps K m -> (forall k, K' k -> K k) -> Keeps K' m.
Proof. intros H Hsub l k Hk. apply H. auto. Qed.

Create HintDb keeps discriminated.
#[export] Hint Resolve keeps_ret keeps_ask keeps_asks keeps_lift keeps_side keeps_native : keeps.

(** Proves [Keeps] of an operation from its parts; what is left are the keys written. *)
Ltac keeping :=
  repeat first
  [ solve [auto with keeps nocore]
  | match goal with
    | |- Keeps _ (_ ≫= _) => apply keeps_bind; [|intros ?]
    | |- Keeps _ (if _ then _ else _) => apply keeps_if
    | |- Keeps _ (when _ _) => apply keeps_when
    | |- Keeps _ (write_leaf _ _) => apply keeps_write
    | |- Keeps _ (match ?x with _ => _ end) => destruct x
    end ].

(** ** Strings *)

(** The leaf under the hash of a string. *)
Definition at_string (sha : list byte -> list byte) (l : Ledger) (x : list byte) : option (list byte) := get_leaf l (sha x).

Section Strings.
Context (sha : list byte -> list byte) (P : list (list byte)) (apart : separates sha P P).

(** The keys of the strings [F], and a string that hashes to none of them. *)
Definition keys_of (F : list (list byte)) (k : Key) : Prop := exists x, x ∈ F /\ k = sha x.
Definition foreign (F : list (list byte)) (x : list byte) : Prop := ~ keys_of F (sha x).

Lemma foreign_apart F x : x ∈ P -> (forall y, y ∈ F -> y ∈ P) -> x ∉ F -> foreign F x.
Proof using apart. intros Hx HF Hn (y & Hy & E). apply apart in E; [by subst|done|auto]. Qed.

Lemma keeps_at {A} (m : M A) F l x : Keeps (keys_of F) m -> x ∈ F -> at_string sha (m l).2 x = at_string sha l x.
Proof. intros H Hx. apply H. by exists x. Qed.

(** What is read after a write to a string in play. *)
Lemma at_write x v l y : x ∈ P -> y ∈ P ->
  at_string sha (write_leaf (sha x) v l).2 y = if decide (y = x) then Some v else at_string sha l y.
Proof using apart.
  intros Hx Hy. unfold at_string. rewrite get_leaf_write. repeat case_decide; try done; [|by subst].
  exfalso. match goal with H : sha _ = sha _ |- _ => apply apart in H end; auto.
Qed.
End Strings.

(** The account a rendered identifier is the address of. *)
Lemma rendered_id id a : id_bytes_to_address id = Done (Some a) -> address_id a = Some id.
Proof.
  unfold id_bytes_to_address, KEY_LEN. destruct (Nat.eqb_spec (length id) 32) as [Hl|]; cbn [negb]; [|done].
  destruct (render_address_Ok id Hl) as (text & Hr & Hp). rewrite Hr. cbn. intros [= <-]. by apply address_id_parse.
Qed.
(** ** The parts the operations are made of *)

Section Parts.
Context (sha : list byte -> list byte) {K : Key -> Prop}.

Lemma keeps_set_account a acc : ~ K (state_key sha a) -> Keeps K (set_account sha a acc).
Proof. apply keeps_write. Qed.
Lemma keeps_set_singleton tag v : ~ K (sha tag) -> Keeps K (set_singleton sha tag v).
Proof. apply keeps_write. Qed.

Lemma keeps_debit_staked amt :
  ~ K (sha STAKE_TOTAL_TAG) -> ~ K (sha STAKE_TOTAL_ACTIVE_TAG) -> Keeps K (debit_staked sha amt).
Proof.
  intros H1 H2. unfold debit_staked, set_total_staked, set_total_staked_active. keeping;
    by apply keeps_set_singleton.
Qed.
End Parts.

(** ** When a computation ends *)

(** [Q] holds of what [m] returns, when it does not panic. *)
Definition wlp {A} (m : M A) (Q : A -> Ledger -> Prop) (l : Ledger) : Prop :=
  match m l with (Done a, l') => Q a l' | (Panic, _) => True end.

Lemma wlp_ret {A} (a : A) Q l : Q a l -> wlp (mret a) Q l.
Proof. done. Qed.
Lemma wlp_bind {A B} (m : M A) (k : A -> M B) Q l : wlp m (fun a => wlp (k a) Q) l -> wlp (m ≫= k) Q l.
Proof. unfold wlp, mbind, M_bind. by destruct (m l) as [[a|] l']. Qed.
Lemma wlp_mono {A} (m : M A) (Q Q' : A -> Ledger -> Prop) l :
  (forall a l', Q a l' -> Q' a l') -> wlp m Q l -> wlp m Q' l.
Proof. unfold wlp. destruct (m l) as [[a|] l']; auto. Qed.
Lemma wlp_ask {A} (f : Ledger -> outcome A) Q l : (forall a, f l = Done a -> Q a l) -> wlp (ask f) Q l.
Proof. unfold wlp, ask. destruct (f l); auto. Qed.
Lemma wlp_asks {A} (f : Ledger -> A) Q l : Q (f l) l -> wlp (asks f) Q l.
Proof. done. Qed.
Lemma wlp_lift {A} (o : outcome A) Q l : (forall a, o = Done a -> Q a l) -> wlp (lift o) Q l.
Proof. unfold wlp, lift. destruct o; auto. Qed.
Lemma wlp_when b m Q l : (b = true -> wlp m Q l) -> (b = false -> Q tt l) -> wlp (when b m) Q l.
Proof. intros H1 H2. unfold when. destruct b; [by apply H1|by apply H2]. Qed.
Lemma wlp_keeps {A} (m : M A) K (Q : A -> Ledger -> Prop) l :
  Keeps K m -> (forall a l', (forall k, K k -> get_leaf l' k = get_leaf l k) -> Q a l') -> wlp m Q l.
Proof. intros H HQ. unfold wlp. specialize (H l). destruct (m l) as [[a|] l']; [|done]. apply HQ. exact H. Qed.
Lemma wlp_write sha P x v (Q : unit -> Ledger -> Prop) l :
  separates sha P P -> x ∈ P ->
  (forall l', (forall y, y ∈ P -> at_string sha l' y = if decide (y = x) then Some v else at_string sha l y) -> Q tt l') ->
  wlp (write_leaf (sha x) v) Q l.
Proof.
  intros HP Hx HQ. change (Q tt (write_leaf (sha x) v l).2). apply HQ. intros y Hy. by apply (at_write sha P).
Qed.
Lemma wlp_side event (Q : unit -> Ledger -> Prop) l :
  (forall l', (forall k, get_leaf l' k = get_leaf l k) -> Q tt l') -> wlp (record_side_event event) Q l.
Proof. intros H. by apply H. Qed.

(** Tagged strings: different tags, or the same tag and different rests. *)
Ltac tagged H :=
  first [ discriminate H | apply (app_inv_head _ _ _) in H; congruence ].
