(* ===== verification/LedgerGovFreeze.v ===== *)
(** * Freezes by guardians and by referendum

    Guardians freeze accounts for a week; referenda freeze them until another
    referendum lifts it, and blacklist them for good.  Both kinds of freeze share one
    leaf per account, and the issuer of an asset is stopped by either.  The leaves
    are shown to implement three separate books: what was decided, what the guardians
    hold and until when, and the blacklist. *)

From S2P Require Import Prelude Codec Idfmt Events LedgerState LedgerKeys.
From S2P Require Import Governance Staking Fee LedgerStake LedgerCoins Bridge LedgerBridge LedgerGov LedgerFrames.

(** ** The books *)

Record Stops : Type := mkStops {
  decided : list byte -> bool;
  guarded : list (list byte * Z);
  listed : list byte -> bool
}.

Definition put (ids : list (list byte)) (f : list byte -> bool) (x : list byte) : bool := bool_decide (x ∈ ids) || f x.
Definition cut (ids : list (list byte)) (f : list byte -> bool) (x : list byte) : bool := negb (bool_decide (x ∈ ids)) && f x.

(** What each kind of step means for the books. *)
Inductive StopStep : Type :=
| GuardianStop (bound : Z) (targets approvers : list (list byte))
| GuardianLapse
| DecideFreeze (targets : list (list byte))
| DecideUnfreeze (targets : list (list byte))
| DecideBlacklist (target : list byte)
| DecideRecovery (scope victim : list byte) (seizures : list Seizure).

Definition stop_spec (now : Z) (s : StopStep) (b : Stops) : Stops :=
  match s with
  | GuardianStop _ targets _ =>
      mkStops (decided b)
        (foldl (fun g t => put_entry t (saturating_add 64 now GUARDIAN_FREEZE_WINDOW_SECONDS) g) (guarded b) targets)
        (listed b)
  | GuardianLapse => mkStops (decided b) (filter (fun e => now < e.2) (guarded b)) (listed b)
  | DecideFreeze targets =>
      mkStops (put (whole_ids targets) (decided b)) (filter (fun e => e.1 ∉ whole_ids targets) (guarded b)) (listed b)
  | DecideUnfreeze targets =>
      mkStops (cut (whole_ids targets) (decided b)) (filter (fun e => e.1 ∉ whole_ids targets) (guarded b)) (listed b)
  | DecideBlacklist target => mkStops (decided b) (guarded b) (put (whole_ids [target]) (listed b))
  | DecideRecovery _ _ seizures =>
      let ids := whole_ids (map seizure_from seizures) in
      mkStops (fun x => decided b x || (bool_decide (x ∈ ids) && held_by_guardians (guarded b) x))
        (filter (fun e => e.1 ∉ ids) (guarded b)) (listed b)
  end.

(** An account is stopped from spending by a decision or by the guardians. *)
Definition stopped (b : Stops) (id : list byte) : bool := decided b id || held_by_guardians (guarded b) id.

Lemma held_In g id : held_by_guardians g id = true <-> exists u, (id, u) ∈ g.
Proof.
  unfold held_by_guardians. rewrite existsb_exists. split.
  - intros ([x u] & Hin & E). apply bool_decide_eq_true in E as <-. exists u. by apply list_elem_of_In.
  - intros [u Hin]. exists (id, u). split; [by apply list_elem_of_In|by apply bool_decide_eq_true].
Qed.
Lemma held_filter (P : list byte * Z -> Prop) `{forall e, Decision (P e)} g id :
  held_by_guardians (filter P g) id = true <-> exists u, (id, u) ∈ g /\ P (id, u).
Proof. rewrite held_In. setoid_rewrite list_elem_of_filter. naive_solver. Qed.

Lemma put_entry_In t u g x v : (x, v) ∈ put_entry t u g -> (x, v) = (t, u) \/ (x, v) ∈ g.
Proof.
  induction g as [|e g IH]; cbn [put_entry]; [set_solver|]. case_bool_decide; [set_solver|].
  intros [->|Hin]%elem_of_cons; [right; by left|]. destruct (IH Hin); [by left|right; by right].
Qed.
Lemma held_cons e g id : held_by_guardians (e :: g) id = bool_decide (id = e.1) || held_by_guardians g id.
Proof. cbn. f_equal. by apply bool_decide_ext. Qed.
Lemma put_entry_held t u g id : held_by_guardians (put_entry t u g) id = bool_decide (id = t) || held_by_guardians g id.
Proof.
  induction g as [|e g IH]; cbn [put_entry]; [by rewrite held_cons|].
  destruct (decide (e.1 = t)) as [Ht|Ht].
  - rewrite bool_decide_eq_true_2, !held_cons by done. cbn [fst]. subst. by destruct (bool_decide (id = e.1)).
  - rewrite bool_decide_eq_false_2, !held_cons, IH by done.
    by destruct (bool_decide (id = e.1)), (bool_decide (id = t)).
Qed.
Lemma put_entry_fst t u g : map fst (put_entry t u g) = if held_by_guardians g t then map fst g else map fst g ++ [t].
Proof.
  induction g as [|e g IH]; cbn [put_entry]; [done|]. cbn [held_by_guardians existsb].
  case_bool_decide as Ht; cbn [map orb]; [by subst|].
  change (existsb (fun e0 => bool_decide (e0.1 = t)) g) with (held_by_guardians g t). rewrite IH. by destruct (held_by_guardians g t).
Qed.

(** ** The list of targets *)

Lemma chunks_exact_concat (size fuel : nat) (parts : list (list byte)) :
  (0 < size)%nat -> Forall (fun p => length p = size) parts -> (length parts <= fuel)%nat ->
  chunks_exact_of size fuel (concat parts) = parts.
Proof.
  intros Hs H. revert fuel. induction H as [|p parts Hp H IH]; intros fuel Hf.
  - destruct fuel; [done|]. cbn [concat chunks_exact_of length]. destruct (Nat.ltb_spec 0 size); [done|lia].
  - destruct fuel as [|fuel]; [cbn in Hf; lia|]. cbn [concat chunks_exact_of]. rewrite length_app.
    destruct (Nat.ltb_spec (length p + length (concat parts)) size); [lia|].
    rewrite take_app_length' by done. rewrite drop_app_length' by done. by rewrite IH by (cbn in Hf; lia).
Qed.

Definition entry_ok (e : list byte * Z) : Prop := length e.1 = 32%nat /\ u64 e.2.

Lemma entries_read l sha g : Forall entry_ok g ->
  get_leaf l (stake_singleton_key sha GOV_GUARDIAN_FREEZE_TARGETS_TAG) = Some (concat (map (fun e => e.1 ++ to_le 8 e.2) g)) ->
  guardian_freeze_entries sha l = g.
Proof.
  intros Hg E. unfold guardian_freeze_entries. rewrite E. set (parts := map _ g).
  assert (Hp : Forall (fun p => length p = 40%nat) parts).
  { unfold parts. apply Forall_map. eapply Forall_impl; [exact Hg|]. intros [x u] [Hx _]. cbn [fst snd] in *. rewrite length_app, length_to_le. lia. }
  assert (Hl : length (concat parts) = (40 * length parts)%nat).
  { clear -Hp. induction Hp as [|p ps H _ IH]; [done|]. cbn [concat length]. rewrite length_app, H, IH. lia. }
  rewrite Hl. destruct g as [|e g]; [done|]. destruct (Nat.leb_spec 40 (40 * length parts)).
  2:{ unfold parts in *. cbn in *. lia. }
  rewrite chunks_exact_concat by (done || lia). unfold parts. rewrite map_map. rewrite <- (map_id (e :: g)) at 2. apply map_ext_in. intros [x u] Hin.
  apply list_elem_of_In in Hin. rewrite Forall_forall in Hg. destruct (Hg _ Hin) as [Hx Hu]. cbn [fst snd] in *.
  rewrite take_app_length', drop_app_length' by done. rewrite take_ge by (by rewrite length_to_le). rewrite from_to_le; [done|]. unfold in_width in Hu. change (256 ^ Z.of_nat 8) with (2 ^ 64). lia.
Qed.

(** ** The leaves *)

Section Freezes.
Context (sha : list byte -> list byte) (U : list (list byte)).

Definition freeze_string (id : list byte) : list byte := GOV_FREEZE_TAG ++ id.
Definition listed_string (id : list byte) : list byte := GOV_BLACKLIST_TAG ++ id.
Definition stop_string (id : list byte) : list byte := GOV_STOPPED_ASSET_TAG ++ asset_id_of sha id.
Definition stop_strings (id : list byte) : list (list byte) := [freeze_string id; listed_string id; stop_string id].
(** The leaves the books are kept in, and those a recovery writes besides. *)
Definition book_strings : list (list byte) := concat (map stop_strings U) ++ [GOV_GUARDIAN_FREEZE_TARGETS_TAG].
Definition strings_in_play : list (list byte) :=
  book_strings ++ map slot_preimage (slots U) ++ [GOV_LOCKED_TAG; GOV_GUARDIAN_EPOCH_TAG].

Context (U_ids : Forall (fun id => length id = 32%nat) U).
Context (U_apart : separates sha strings_in_play strings_in_play).
Context (U_assets : forall a b, a ∈ U -> b ∈ U -> asset_id_of sha a = asset_id_of sha b -> a = b).

#[local] Notation at_ := (at_string sha).

Lemma book_in_play x : x ∈ book_strings -> x ∈ strings_in_play.
Proof. intros H. apply elem_of_app. by left. Qed.
Lemma id_string id x : id ∈ U -> x ∈ stop_strings id -> x ∈ book_strings.
Proof.
  intros Hid Hx. apply elem_of_app. left. apply list_elem_of_In, in_concat. exists (stop_strings id).
  split; [by apply in_map, list_elem_of_In|by apply list_elem_of_In].
Qed.
Lemma freeze_in id : id ∈ U -> freeze_string id ∈ book_strings.
Proof. intros. eapply id_string; [done|]. unfold stop_strings. set_solver. Qed.
Lemma listed_in id : id ∈ U -> listed_string id ∈ book_strings.
Proof. intros. eapply id_string; [done|]. unfold stop_strings. set_solver. Qed.
Lemma stop_in id : id ∈ U -> stop_string id ∈ book_strings.
Proof. intros. eapply id_string; [done|]. unfold stop_strings. set_solver. Qed.
Lemma targets_in : GOV_GUARDIAN_FREEZE_TARGETS_TAG ∈ book_strings.
Proof. apply elem_of_app. right. set_solver. Qed.

(** The three flags of the accounts in play. *)
Definition flags (l : Ledger) (frozen listed_ : list byte -> bool) : Prop :=
  forall id, id ∈ U -> flagged (at_ l (freeze_string id)) = frozen id /\ flagged (at_ l (listed_string id)) = listed_ id /\
    flagged (at_ l (stop_string id)) = frozen id || listed_ id.

Record represents (l : Ledger) (b : Stops) : Prop := mkRepresents {
  rep_flags : flags l (stopped b) (listed b);
  rep_targets : guardian_freeze_entries sha l = guarded b;
  rep_entries : Forall (fun e => entry_ok e /\ e.1 ∈ U /\ decided b e.1 = false) (guarded b);
  rep_distinct : NoDup (map fst (guarded b))
}.

Lemma flags_ext l f f' b b' :
  flags l f b -> (forall id, id ∈ U -> f' id = f id) -> (forall id, id ∈ U -> b' id = b id) -> flags l f' b'.
Proof. intros H Hf Hb id Hid. rewrite Hf, Hb by done. by apply H. Qed.
Lemma flags_same l l' f b :
  flags l f b -> (forall x, x ∈ book_strings -> at_ l' x = at_ l x) -> flags l' f b.
Proof.
  intros H E id Hid. rewrite !E by (by apply freeze_in || by apply listed_in || by apply stop_in). by apply H.
Qed.
Lemma entries_same l l' : at_ l' GOV_GUARDIAN_FREEZE_TARGETS_TAG = at_ l GOV_GUARDIAN_FREEZE_TARGETS_TAG ->
  guardian_freeze_entries sha l' = guardian_freeze_entries sha l.
Proof. intros E. unfold guardian_freeze_entries, stake_singleton_key. unfold at_string in E. by rewrite E. Qed.

Lemma string_eqs id x : id ∈ U -> x ∈ U ->
  (freeze_string x = freeze_string id <-> x = id) /\ (listed_string x = listed_string id <-> x = id) /\
  (stop_string x = stop_string id <-> x = id) /\
  freeze_string x <> listed_string id /\ freeze_string x <> stop_string id /\ listed_string x <> freeze_string id /\
  listed_string x <> stop_string id /\ stop_string x <> freeze_string id /\ stop_string x <> listed_string id.
Proof.
  intros Hid Hx. split_and!; try (intros H; discriminate H).
  - split; [intros H; by apply (app_inv_head GOV_FREEZE_TAG) in H|by intros ->].
  - split; [intros H; by apply (app_inv_head GOV_BLACKLIST_TAG) in H|by intros ->].
  - split; [intros H; apply (app_inv_head GOV_STOPPED_ASSET_TAG) in H; by apply U_assets|by intros ->].
Qed.
Lemma string_targets id : freeze_string id <> GOV_GUARDIAN_FREEZE_TARGETS_TAG /\
  listed_string id <> GOV_GUARDIAN_FREEZE_TARGETS_TAG /\ stop_string id <> GOV_GUARDIAN_FREEZE_TARGETS_TAG.
Proof. split_and!; intros H; discriminate H. Qed.

(** Writing one of the flags of [id]. *)
Lemma wlp_write_flag x v l (Q : unit -> Ledger -> Prop) : x ∈ book_strings ->
  (forall l', (forall y, y ∈ book_strings -> at_ l' y = if decide (y = x) then Some v else at_ l y) -> Q tt l') ->
  wlp (write_leaf (sha x) v) Q l.
Proof.
  intros Hx HQ. apply (wlp_write sha strings_in_play); [done|by apply book_in_play|].
  intros l' H. apply HQ. intros y Hy. apply H. by apply book_in_play.
Qed.

(** Decides the comparisons of strings that are known. *)
Ltac settle := repeat first [ rewrite decide_True by done | rewrite decide_False by done ].
Ltac apart_from Hne :=
  match goal with E1 : _ <-> ?x = ?id, E2 : _ <-> ?x = ?id, E3 : _ <-> ?x = ?id |- _ =>
    rewrite <- E1 in Hne; pose proof Hne; rewrite E1, <- E2 in Hne; pose proof Hne; rewrite E2, <- E3 in Hne end.
Ltac read_flags Hid Hx H :=
  let E := fresh in pose proof (string_eqs _ _ Hid Hx) as E; destruct E as (E1 & E2 & E3 & ? & ? & ? & ? & ? & ?);
  repeat (rewrite H by (by apply freeze_in || by apply listed_in || by apply stop_in)).

Lemma wlp_set_frozen id f b l (Q : unit -> Ledger -> Prop) : id ∈ U -> flags l f b ->
  (forall l', flags l' (put [id] f) b -> at_ l' GOV_GUARDIAN_FREEZE_TARGETS_TAG = at_ l GOV_GUARDIAN_FREEZE_TARGETS_TAG -> Q tt l') ->
  wlp (set_frozen sha id) Q l.
Proof.
  intros Hid Hf HQ. unfold set_frozen. apply wlp_bind, (wlp_write_flag (freeze_string id)); [by apply freeze_in|].
  intros l1 H1. apply (wlp_write_flag (stop_string id)); [by apply stop_in|]. intros l2 H2.
  assert (H : forall y, y ∈ book_strings -> at_ l2 y =
    if decide (y = stop_string id) then Some [x01] else if decide (y = freeze_string id) then Some [x01] else at_ l y).
  { intros y Hy. rewrite H2 by done. case_decide; [done|]. by apply H1. }
  apply HQ.
  - intros x Hx. destruct (Hf x Hx) as (F1 & F2 & F3). read_flags Hid Hx H.
    unfold put. destruct (decide (x = id)) as [->|Hne].
    + rewrite bool_decide_eq_true_2 by set_solver. settle. by rewrite F2.
    + rewrite bool_decide_eq_false_2 by set_solver. apart_from Hne. settle. done.
  - destruct (string_targets id) as (? & ? & ?). rewrite H by apply targets_in. by rewrite !decide_False.
Qed.

Lemma wlp_clear_frozen id f b l (Q : unit -> Ledger -> Prop) : id ∈ U -> flags l f b ->
  (forall l', flags l' (cut [id] f) b -> at_ l' GOV_GUARDIAN_FREEZE_TARGETS_TAG = at_ l GOV_GUARDIAN_FREEZE_TARGETS_TAG -> Q tt l') ->
  wlp (clear_frozen sha id) Q l.
Proof.
  intros Hid Hf HQ. unfold clear_frozen. apply wlp_bind, (wlp_write_flag (freeze_string id)); [by apply freeze_in|].
  intros l1 H1. apply wlp_bind, wlp_asks.
  assert (Hb : is_gov_blacklisted sha l1 id = b id).
  { destruct (Hf id Hid) as (_ & <- & _). change (is_gov_blacklisted sha l1 id) with (flagged (at_ l1 (listed_string id))).
    destruct (string_eqs id id Hid Hid) as (_ & _ & _ & _ & _ & ? & _). rewrite H1 by (by apply listed_in). by settle. }
  rewrite Hb. destruct (string_targets id) as (T1 & T2 & T3).
  apply wlp_when; intros Hbid.
  - apply (wlp_write_flag (stop_string id)); [by apply stop_in|]. intros l2 H2.
    assert (H : forall y, y ∈ book_strings -> at_ l2 y =
      if decide (y = stop_string id) then Some [] else if decide (y = freeze_string id) then Some [] else at_ l y).
    { intros y Hy. rewrite H2 by done. case_decide; [done|]. by apply H1. }
    apply negb_true_iff in Hbid. apply HQ; [|rewrite H by apply targets_in; by settle].
    intros x Hx. destruct (Hf x Hx) as (F1 & F2 & F3). read_flags Hid Hx H.
    unfold cut. destruct (decide (x = id)) as [->|Hne].
    + rewrite bool_decide_eq_true_2 by set_solver. settle. by rewrite F2, Hbid.
    + rewrite bool_decide_eq_false_2 by set_solver. apart_from Hne. settle. done.
  - apply negb_false_iff in Hbid. apply HQ; [|rewrite H1 by apply targets_in; by settle].
    intros x Hx. destruct (Hf x Hx) as (F1 & F2 & F3). read_flags Hid Hx H1.
    unfold cut. destruct (decide (x = id)) as [->|Hne].
    + rewrite bool_decide_eq_true_2 by set_solver. settle. by rewrite F2, F3, Hbid, orb_true_r.
    + rewrite bool_decide_eq_false_2 by set_solver. apart_from Hne. settle. done.
Qed.

Lemma wlp_blacklist id f b l (Q : unit -> Ledger -> Prop) : id ∈ U -> flags l f b ->
  (forall l', flags l' f (put [id] b) -> at_ l' GOV_GUARDIAN_FREEZE_TARGETS_TAG = at_ l GOV_GUARDIAN_FREEZE_TARGETS_TAG -> Q tt l') ->
  wlp (set_gov_blacklisted sha id) Q l.
Proof.
  intros Hid Hf HQ. unfold set_gov_blacklisted. apply wlp_bind, (wlp_write_flag (listed_string id)); [by apply listed_in|].
  intros l1 H1. apply (wlp_write_flag (stop_string id)); [by apply stop_in|]. intros l2 H2.
  assert (H : forall y, y ∈ book_strings -> at_ l2 y =
    if decide (y = stop_string id) then Some [x01] else if decide (y = listed_string id) then Some [x01] else at_ l y).
  { intros y Hy. rewrite H2 by done. case_decide; [done|]. by apply H1. }
  destruct (string_targets id) as (T1 & T2 & T3). apply HQ; [|rewrite H by apply targets_in; by settle].
  intros x Hx. destruct (Hf x Hx) as (F1 & F2 & F3). read_flags Hid Hx H.
  unfold put. destruct (decide (x = id)) as [->|Hne].
  - rewrite bool_decide_eq_true_2 by set_solver. settle. by rewrite F1, orb_true_r.
  - rewrite bool_decide_eq_false_2 by set_solver. apart_from Hne. settle. done.
Qed.

(** Announcing an account changes no leaf. *)
Lemma wlp_announce id event (Q : unit -> Ledger -> Prop) l :
  (forall l', (forall k, get_leaf l' k = get_leaf l k) -> Q tt l') ->
  wlp (text ← lift (id_bytes_to_address id);
       match text with Some addr => record_side_event (event addr) | None => mret tt end) Q l.
Proof.
  intros HQ. apply wlp_bind, wlp_lift. intros [addr|] _; [apply wlp_side, HQ|by apply wlp_ret, HQ].
Qed.
Lemma wlp_announce_then id event {A} (k : M A) (Q : A -> Ledger -> Prop) l :
  (forall l', (forall x, get_leaf l' x = get_leaf l x) -> wlp k Q l') ->
  wlp (text ← lift (id_bytes_to_address id);
       match text with Some addr => record_side_event (event addr) | None => mret tt end;; k) Q l.
Proof.
  intros HQ. apply wlp_bind, wlp_lift. intros [addr|] _; apply wlp_bind; [apply wlp_side, HQ|by apply wlp_ret, HQ].
Qed.
Lemma flags_leaves l l' f b : flags l f b -> (forall k, get_leaf l' k = get_leaf l k) -> flags l' f b.
Proof. intros H E. eapply flags_same; [exact H|]. intros x _. apply E. Qed.

Lemma put_cons t ts f x : put (t :: ts) f x = put ts (put [t] f) x.
Proof.
  unfold put. destruct (decide (x = t)) as [->|Hne].
  - rewrite (bool_decide_eq_true_2 (t ∈ t :: ts)), (bool_decide_eq_true_2 (t ∈ [t])) by set_solver. by rewrite orb_true_r.
  - rewrite (bool_decide_eq_false_2 (x ∈ [t])) by set_solver. cbn [orb]. f_equal. apply bool_decide_ext. set_solver.
Qed.
Lemma cut_cons t ts f x : cut (t :: ts) f x = cut ts (cut [t] f) x.
Proof.
  unfold cut. destruct (decide (x = t)) as [->|Hne].
  - rewrite (bool_decide_eq_true_2 (t ∈ t :: ts)), (bool_decide_eq_true_2 (t ∈ [t])) by set_solver. by rewrite andb_false_r.
  - rewrite (bool_decide_eq_false_2 (x ∈ [t])) by set_solver. cbn [negb andb]. f_equal. f_equal. apply bool_decide_ext. set_solver.
Qed.

(** The loop of the guardians. *)
Lemma wlp_freeze_each bound until_ targets f b g l (Q : list (list byte * Z) -> Ledger -> Prop) :
  (forall t, t ∈ targets -> t ∈ U) -> flags l f b ->
  (forall l', flags l' (put targets f) b -> Q (foldl (fun g t => put_entry t until_ g) g targets) l') ->
  wlp (freeze_each sha bound until_ targets g) Q l.
Proof.
  revert f g l. induction targets as [|t ts IH]; intros f g l Ht Hf HQ; cbn [freeze_each foldl].
  { apply wlp_ret, HQ. eapply flags_ext; [exact Hf| |done]. intros id _. unfold put.
    by rewrite bool_decide_eq_false_2 by set_solver. }
  apply wlp_bind, (wlp_set_frozen t f b); [apply Ht; by left|done|]. intros l1 H1 _.
  apply (wlp_announce_then t (fun addr => Side.GuardianFreeze addr bound)). intros l2 E2.
  apply (IH (put [t] f)); [intros; apply Ht; by right|by eapply flags_leaves|].
  intros l3 H3. apply HQ. eapply flags_ext; [exact H3| |done]. intros id _. apply put_cons.
Qed.

(** The loops of the referenda: each target is handled and announced. *)
Lemma wlp_each (each : list byte -> M unit) (turn : list (list byte) -> (list byte -> bool) -> list byte -> bool) event ids f b l
    (Q : unit -> Ledger -> Prop) :
  (forall f x, turn [] f x = f x) -> (forall t ts f x, turn (t :: ts) f x = turn ts (turn [t] f) x) ->
  (forall t f l (Q : unit -> Ledger -> Prop), t ∈ U -> flags l f b ->
     (forall l', flags l' (turn [t] f) b -> at_ l' GOV_GUARDIAN_FREEZE_TARGETS_TAG = at_ l GOV_GUARDIAN_FREEZE_TARGETS_TAG -> Q tt l') ->
     wlp (each t) Q l) ->
  (forall t, t ∈ ids -> t ∈ U) -> flags l f b ->
  (forall l', flags l' (turn ids f) b -> at_ l' GOV_GUARDIAN_FREEZE_TARGETS_TAG = at_ l GOV_GUARDIAN_FREEZE_TARGETS_TAG -> Q tt l') ->
  wlp (for_each ids (fun id => each id;;
    text ← lift (id_bytes_to_address id);
    match text with Some addr => record_side_event (event addr) | None => mret tt end)) Q l.
Proof.
  intros T0 T1 He. revert f l. induction ids as [|t ts IH]; intros f l Ht Hf HQ; cbn [for_each].
  { apply wlp_ret, HQ; [|done]. eapply flags_ext; [exact Hf| |done]. intros x _. apply T0. }
  apply wlp_bind, wlp_bind, (He t f); [apply Ht; by left|done|]. intros l1 H1 E1.
  apply wlp_announce. intros l2 E2. apply (IH (turn [t] f)); [intros; apply Ht; by right|by eapply flags_leaves|].
  intros l3 H3 E3. apply HQ.
  - eapply flags_ext; [exact H3| |done]. intros x _. apply T1.
  - rewrite E3. unfold at_string in *. by rewrite E2.
Qed.

(** Writing the list of targets. *)
Lemma wlp_write_entries g f b l (Q : unit -> Ledger -> Prop) : Forall entry_ok g -> flags l f b ->
  (forall l', flags l' f b -> guardian_freeze_entries sha l' = g -> Q tt l') ->
  wlp (write_guardian_freeze_entries sha g) Q l.
Proof.
  intros Hg Hf HQ. apply (wlp_write_flag GOV_GUARDIAN_FREEZE_TARGETS_TAG); [apply targets_in|]. intros l' H. apply HQ.
  - intros id Hid. destruct (string_targets id) as (? & ? & ?).
    rewrite !H by (by apply freeze_in || by apply listed_in || by apply stop_in). settle. by apply Hf.
  - apply entries_read; [done|]. specialize (H _ targets_in). by rewrite decide_True in H.
Qed.
Lemma wlp_forget ids f b g l (Q : unit -> Ledger -> Prop) :
  Forall entry_ok g -> flags l f b -> guardian_freeze_entries sha l = g ->
  (forall l', flags l' f b -> guardian_freeze_entries sha l' = filter (fun e => e.1 ∉ ids) g -> Q tt l') ->
  wlp (guardian_freeze_forget sha ids) Q l.
Proof.
  intros Hg Hf Eg HQ. unfold guardian_freeze_forget. apply wlp_bind, wlp_asks. rewrite Eg.
  apply (wlp_write_entries _ f b); [|done|done].
  apply Forall_forall. intros e [_ He]%list_elem_of_filter. rewrite Forall_forall in Hg. by apply Hg.
Qed.

(** ** A recovery does not touch the books *)

Definition coin_slot (s : Slot) : bool := match s with SBlacklist _ => false | _ => true end.

Lemma book_shape x : x ∈ book_strings ->
  (exists id, x = freeze_string id \/ x = listed_string id \/ x = stop_string id) \/ x = GOV_GUARDIAN_FREEZE_TARGETS_TAG.
Proof.
  intros [H|H]%elem_of_app; [left|right; set_solver]. apply list_elem_of_In, in_concat in H as (xs & Hxs & Hx).
  apply in_map_iff in Hxs as (id & <- & _). exists id. apply list_elem_of_In in Hx. unfold stop_strings in Hx. set_solver.
Qed.
Lemma slot_foreign s : s ∈ slots U -> coin_slot s = true -> foreign sha book_strings (slot_preimage s).
Proof.
  intros Hs Hc. apply (foreign_apart sha strings_in_play); [done| |apply book_in_play|].
  - apply elem_of_app. right. apply elem_of_app. left. by apply list_elem_of_In, in_map, list_elem_of_In.
  - intros [(id & [H|[H|H]])|H]%book_shape; destruct s; try done; discriminate H.
Qed.
Lemma locked_foreign : foreign sha book_strings GOV_LOCKED_TAG.
Proof.
  apply (foreign_apart sha strings_in_play); [done| |apply book_in_play|].
  - do 2 (apply elem_of_app; right). set_solver.
  - intros [(id & [H|[H|H]])|H]%book_shape; discriminate H.
Qed.
Lemma epoch_foreign : foreign sha book_strings GOV_GUARDIAN_EPOCH_TAG.
Proof.
  apply (foreign_apart sha strings_in_play); [done| |apply book_in_play|].
  - do 2 (apply elem_of_app; right). set_solver.
  - intros [(id & [H|[H|H]])|H]%book_shape; discriminate H.
Qed.

Lemma account_foreign id a : id_bytes_to_address id = Done (Some a) -> id ∈ U -> foreign sha book_strings (slot_preimage (SAccount id)) /\
  state_key sha a = sha (slot_preimage (SAccount id)).
Proof.
  intros Ha Hid. split; [apply slot_foreign; [slot_in|done]|]. apply state_key_slot. by apply rendered_id.
Qed.

#[local] Notation kept := (keys_of sha book_strings).

Lemma keeps_account id a acc : id_bytes_to_address id = Done (Some a) -> id ∈ U -> Keeps kept (set_account sha a acc).
Proof. intros Ha Hid. destruct (account_foreign id a Ha Hid) as [F E]. apply keeps_set_account. by rewrite E. Qed.

Lemma keeps_seize_bond id a remaining : id_bytes_to_address id = Done (Some a) -> id ∈ U -> Keeps kept (seize_bond sha a id remaining).
Proof.
  intros Ha Hid. unfold seize_bond, clear_stake_bond. keeping; try by eapply keeps_account.
  - change (stake_bond_key sha id) with (sha (slot_preimage (SBond id))). apply slot_foreign; [slot_in|done].
  - apply keeps_debit_staked; [apply (slot_foreign STotal)|apply (slot_foreign STotalActive)]; (slot_in || done).
Qed.
Lemma keeps_seize_lock id still : id ∈ U -> Keeps kept (seize_lock sha id still).
Proof.
  intros Hid. assert (F : foreign sha book_strings (slot_preimage (SLock id))) by (apply slot_foreign; [slot_in|done]).
  unfold seize_lock, clear_gov_lock, set_gov_lock, set_gov_total_locked. keeping; try exact F; apply locked_foreign.
Qed.
Lemma keeps_seize a s : id_bytes_to_address (seizure_from s) = Done (Some a) -> seizure_from s ∈ U -> Keeps kept (seize sha a s).
Proof.
  intros Ha Hid. unfold seize. destruct (id_from_slice (seizure_from s)) as [x|] eqn:E.
  - assert (x = seizure_from s) as -> by (unfold id_from_slice in E; case_match; congruence).
    keeping; [by eapply keeps_account|by apply keeps_seize_bond|by apply keeps_seize_lock].
  - keeping. by eapply keeps_account.
Qed.
Lemma keeps_seize_all victim scope ss recovered : (forall s, s ∈ ss -> seizure_from s ∈ U \/ length (seizure_from s) <> 32%nat) ->
  Keeps kept (seize_all sha victim scope ss recovered).
Proof.
  revert recovered. induction ss as [|s ss IH]; intros recovered H; cbn [seize_all]; [keeping|].
  assert (Hss : forall s, s ∈ ss -> seizure_from s ∈ U \/ length (seizure_from s) <> 32%nat) by (intros; apply H; by right).
  apply keeps_bind_lift. intros [a|] Ha; [|by apply IH].
  destruct (H s ltac:(by left)) as [Hid|Hl].
  - keeping. by apply keeps_seize.
  - apply rendered_id, address_id_length in Ha. done.
Qed.

(** ** Steps *)

Section History.
Context (PUBLIC_KEY_BYTES SIGNATURE_BYTES : nat).
Context (ml_verify : list byte -> list byte -> list byte -> list byte -> bool).
#[local] Notation execute := (execute_action sha PUBLIC_KEY_BYTES SIGNATURE_BYTES ml_verify).

Section Steps.
Context (now chain_id : Z).
(** The code of a step; it says whether it took effect. *)
Definition decide_action (a : Action) : M bool := r ← execute a now chain_id; mret (is_ok r).
Definition stop_code (s : StopStep) : M bool :=
  match s with
  | GuardianStop bound targets approvers => guardian_freeze sha bound targets approvers now
  | GuardianLapse => guardian_expire sha now;; mret true
  | DecideFreeze targets => decide_action (Freeze targets)
  | DecideUnfreeze targets => decide_action (Unfreeze targets)
  | DecideBlacklist target => decide_action (Blacklist target)
  | DecideRecovery scope victim seizures => decide_action (FreezeRecovery scope victim seizures)
  end.

(** The identifiers in a step are in play and the time has its width. *)
Definition stop_ready (s : StopStep) : Prop :=
  match s with
  | GuardianStop _ targets _ => (forall t, t ∈ targets -> t ∈ U) /\ u64 now
  | GuardianLapse => True
  | DecideFreeze targets | DecideUnfreeze targets => forall t, t ∈ whole_ids targets -> t ∈ U
  | DecideBlacklist target => forall t, t ∈ whole_ids [target] -> t ∈ U
  | DecideRecovery _ victim seizures =>
      victim ∈ U /\ forall s, s ∈ seizures -> seizure_from s ∈ U \/ length (seizure_from s) <> 32%nat
  end.

Lemma rep_ok l b : represents l b -> Forall entry_ok (guarded b).
Proof. intros [_ _ H _]. eapply Forall_impl; [exact H|]. by intros e (? & _). Qed.

Lemma held_decided l b id : represents l b -> held_by_guardians (guarded b) id = true -> id ∈ U /\ decided b id = false.
Proof.
  intros [_ _ H _] [u Hin]%held_In. rewrite Forall_forall in H. by destruct (H _ Hin) as (_ & ? & ?).
Qed.

Lemma filter_entries (P : list byte * Z -> Prop) `{forall e, Decision (P e)} g :
  NoDup (map fst g) -> NoDup (map fst (filter P g)).
Proof.
  induction g as [|e g IH]; [done|]. cbn [map]. intros [Hn Hd]%NoDup_cons. rewrite filter_cons. case_decide; [|auto].
  cbn [map]. apply NoDup_cons. split; [|auto]. intros Hin. apply Hn. apply list_elem_of_In, in_map_iff in Hin as (x & E & Hx).
  apply list_elem_of_In, list_elem_of_filter in Hx as [_ Hx]. rewrite <- E. by apply list_elem_of_In, in_map, list_elem_of_In.
Qed.

(** The entries left by a referendum on [ids] are those of other accounts. *)
Lemma held_others (g : list (list byte * Z)) (ids : list (list byte)) x :
  held_by_guardians (filter (fun e => e.1 ∉ ids) g) x = negb (bool_decide (x ∈ ids)) && held_by_guardians g x.
Proof.
  apply eq_bool_prop_intro. rewrite !Is_true_true, andb_true_iff, negb_true_iff, bool_decide_eq_false, held_filter, held_In.
  naive_solver.
Qed.

(** A step that is refused leaves the books as they were. *)
Definition implements (s : StopStep) (b : Stops) (ok : bool) (l' : Ledger) : Prop :=
  represents l' (if ok then stop_spec now s b else b).

Lemma others_entries b (ids : list (list byte)) dec :
  Forall (fun e => entry_ok e /\ e.1 ∈ U /\ decided b e.1 = false) (guarded b) ->
  (forall x, x ∉ ids -> dec x = decided b x) ->
  Forall (fun e => entry_ok e /\ e.1 ∈ U /\ dec e.1 = false) (filter (fun e : list byte * Z => e.1 ∉ ids) (guarded b)).
Proof.
  intros H Hd. apply Forall_forall. intros e [Hn He]%list_elem_of_filter. rewrite Forall_forall in H.
  destruct (H e He) as (? & ? & ?). by rewrite Hd.
Qed.

Lemma freeze_implements targets b l : represents l b -> stop_ready (DecideFreeze targets) ->
  wlp (stop_code (DecideFreeze targets)) (implements (DecideFreeze targets) b) l.
Proof.
  intros R Hr. pose proof (rep_ok l b R) as Ok_. destruct R as [Rf Rt Re Rd].
  apply wlp_bind, wlp_bind, (wlp_each (set_frozen sha) put Side.Freeze _ (stopped b) (listed b)).
  { intros f x. unfold put. by rewrite bool_decide_eq_false_2 by set_solver. }
  { apply put_cons. }
  { intros. by eapply wlp_set_frozen. }
  { done. } { done. }
  intros l1 H1 E1. apply entries_same in E1. apply wlp_bind.
  apply (wlp_forget (whole_ids targets) _ _ (guarded b) l1 _ Ok_ H1); [congruence|]. intros l2 H2 E2.
  apply wlp_ret, wlp_ret. split; cbn [is_ok stop_spec decided guarded listed stopped].
  - eapply flags_ext; [exact H2| |done]. intros x _. unfold stopped, put. cbn [decided guarded]. rewrite held_others.
    by destruct (bool_decide (x ∈ whole_ids targets)), (decided b x), (held_by_guardians (guarded b) x).
  - done.
  - apply others_entries; [done|]. intros x Hx. unfold put. by rewrite bool_decide_eq_false_2.
  - by apply filter_entries.
Qed.

Lemma unfreeze_implements targets b l : represents l b -> stop_ready (DecideUnfreeze targets) ->
  wlp (stop_code (DecideUnfreeze targets)) (implements (DecideUnfreeze targets) b) l.
Proof.
  intros R Hr. pose proof (rep_ok l b R) as Ok_. destruct R as [Rf Rt Re Rd].
  apply wlp_bind, wlp_bind, (wlp_each (clear_frozen sha) cut Side.Unfreeze _ (stopped b) (listed b)).
  { intros f x. unfold cut. by rewrite bool_decide_eq_false_2 by set_solver. }
  { apply cut_cons. }
  { intros. by eapply wlp_clear_frozen. }
  { done. } { done. }
  intros l1 H1 E1. apply entries_same in E1. apply wlp_bind.
  apply (wlp_forget (whole_ids targets) _ _ (guarded b) l1 _ Ok_ H1); [congruence|]. intros l2 H2 E2.
  apply wlp_ret, wlp_ret. split; cbn [is_ok stop_spec decided guarded listed stopped].
  - eapply flags_ext; [exact H2| |done]. intros x _. unfold stopped, cut. cbn [decided guarded]. rewrite held_others.
    by destruct (bool_decide (x ∈ whole_ids targets)), (decided b x), (held_by_guardians (guarded b) x).
  - done.
  - apply others_entries; [done|]. intros x Hx. unfold cut. by rewrite bool_decide_eq_false_2.
  - by apply filter_entries.
Qed.

Lemma whole_single target : whole_ids [target] = match id_from_slice target with Some id => [id] | None => [] end.
Proof.
  unfold whole_ids, id_from_slice, KEY_LEN. rewrite filter_cons. destruct (Nat.eqb_spec (length target) 32); cbn [negb].
  - by rewrite decide_True.
  - by rewrite decide_False.
Qed.

Lemma blacklist_implements target b l : represents l b -> stop_ready (DecideBlacklist target) ->
  wlp (stop_code (DecideBlacklist target)) (implements (DecideBlacklist target) b) l.
Proof.
  intros [Rf Rt Re Rd] Hr. cbn [stop_ready] in Hr. unfold stop_code, decide_action. apply wlp_bind. cbn [execute_action].
  unfold enact_blacklist, implements, stop_spec. rewrite whole_single in *. destruct (id_from_slice target) as [id|].
  - apply wlp_bind, (wlp_blacklist id (stopped b) (listed b)); [apply Hr; set_solver|done|]. intros l1 H1 E1.
    apply (wlp_announce_then id Side.Blacklist). intros l2 E2. apply wlp_ret, wlp_ret. split; cbn [is_ok decided guarded listed].
    + by eapply flags_leaves.
    + rewrite <- Rt. rewrite <- (entries_same l l1 E1). apply entries_same. apply E2.
    + done.
    + done.
  - apply wlp_ret, wlp_ret. by split.
Qed.

Lemma recovery_implements scope victim ss b l : represents l b -> stop_ready (DecideRecovery scope victim ss) ->
  wlp (stop_code (DecideRecovery scope victim ss)) (implements (DecideRecovery scope victim ss) b) l.
Proof.
  intros R [Hv Hs]. pose proof (rep_ok l b R) as Ok_. pose proof R as [Rf Rt Re Rd].
  unfold stop_code, decide_action. cbn [execute_action]. unfold enact_recovery. apply wlp_bind, wlp_bind, wlp_lift.
  intros [addr|] Ha; [|apply wlp_ret, wlp_ret; exact R].
  apply wlp_bind. eapply wlp_keeps; [by apply keeps_seize_all|]. intros recovered l1 K1.
  apply wlp_bind, wlp_asks, wlp_bind. eapply wlp_keeps; [by eapply keeps_account|]. intros _ l2 K2.
  apply wlp_bind, wlp_side. intros l3 E3.
  assert (K : forall x, x ∈ book_strings -> at_ l3 x = at_ l x).
  { intros x Hx. unfold at_string. rewrite E3, K2, K1 by (by exists x). done. }
  assert (F3 : flags l3 (stopped b) (listed b)) by (by eapply flags_same).
  assert (T3 : guardian_freeze_entries sha l3 = guarded b).
  { rewrite <- Rt. apply entries_same. apply K, targets_in. }
  apply wlp_bind. apply (wlp_forget (whole_ids (map seizure_from ss)) _ _ (guarded b) l3 _ Ok_ F3 T3). intros l4 F4 T4.
  apply wlp_ret, wlp_ret. split; cbn [is_ok stop_spec decided guarded listed].
  - eapply flags_ext; [exact F4| |done]. intros x _. unfold stopped. cbn [decided guarded]. rewrite held_others.
    by destruct (bool_decide (x ∈ whole_ids (map seizure_from ss))), (decided b x), (held_by_guardians (guarded b) x).
  - done.
  - apply (others_entries b _ (decided (stop_spec now (DecideRecovery scope victim ss) b))); [done|]. intros x Hx.
    cbn [stop_spec decided]. rewrite bool_decide_eq_false_2 by done. by rewrite orb_false_r.
  - by apply filter_entries.
Qed.

Lemma put_entries_held until_ targets g x :
  held_by_guardians (foldl (fun g t => put_entry t until_ g) g targets) x = bool_decide (x ∈ targets) || held_by_guardians g x.
Proof.
  revert g. induction targets as [|t ts IH]; intros g; cbn [foldl]; [by rewrite bool_decide_eq_false_2 by set_solver|].
  rewrite IH, put_entry_held. destruct (decide (x = t)) as [->|Hne].
  - rewrite (bool_decide_eq_true_2 (t = t)), (bool_decide_eq_true_2 (t ∈ t :: ts)) by set_solver. by rewrite orb_true_r.
  - rewrite (bool_decide_eq_false_2 (x = t)) by done. cbn [orb]. f_equal. apply bool_decide_ext. set_solver.
Qed.
Lemma put_entries_ok until_ targets g (R : list byte * Z -> Prop) :
  Forall R g -> (forall t, t ∈ targets -> R (t, until_)) -> NoDup (map fst g) ->
  Forall R (foldl (fun g t => put_entry t until_ g) g targets) /\ NoDup (map fst (foldl (fun g t => put_entry t until_ g) g targets)).
Proof.
  revert g. induction targets as [|t ts IH]; intros g Hg Ht Hd; cbn [foldl]; [done|]. apply IH.
  - apply Forall_forall. intros [x v] Hin. rewrite Forall_forall in Hg.
    destruct (put_entry_In _ _ _ _ _ Hin) as [->|Hin']; [apply Ht; by left|by apply Hg].
  - intros t' Ht'. apply Ht. by right.
  - rewrite put_entry_fst. destruct (held_by_guardians g t) eqn:E; [done|]. apply NoDup_app. split; [done|]. split; [|apply NoDup_singleton].
    intros x Hx ->%list_elem_of_singleton. apply list_elem_of_In, in_map_iff in Hx as ([y u] & Ey & Hy). cbn in Ey. subst.
    apply not_true_iff_false in E. apply E, held_In. exists u. by apply list_elem_of_In.
Qed.

Lemma guardian_implements bound targets approvers b l : represents l b -> stop_ready (GuardianStop bound targets approvers) ->
  wlp (stop_code (GuardianStop bound targets approvers)) (implements (GuardianStop bound targets approvers) b) l.
Proof.
  intros R [Ht Hnow]. pose proof R as [Rf Rt Re Rd]. unfold stop_code, guardian_freeze.
  case_bool_decide; [by apply wlp_ret|]. apply wlp_bind, wlp_ask. intros set _. destruct (negb _); [by apply wlp_ret|].
  apply wlp_bind, wlp_ask. intros epoch _. destruct (negb _); [by apply wlp_ret|].
  destruct (existsb _ targets); [by apply wlp_ret|]. apply wlp_bind, wlp_asks, wlp_bind, wlp_asks. rewrite Rt.
  destruct (existsb _ targets) eqn:Tk; [by apply wlp_ret|].
  assert (D : forall t, t ∈ targets -> decided b t = false).
  { intros t Hin. destruct (decided b t) eqn:Dt; [|done]. exfalso.
    assert (Hc : existsb (fun t => is_frozen_id sha l t && negb (held_by_guardians (guarded b) t)) targets = true); [|congruence].
    apply existsb_exists. exists t. split; [by apply list_elem_of_In|].
    destruct (Rf t (Ht t Hin)) as (F & _ & _). change (is_frozen_id sha l t) with (flagged (at_ l (freeze_string t))). rewrite F.
    unfold stopped. rewrite Dt. cbn [orb andb]. destruct (held_by_guardians (guarded b) t) eqn:Hh; [|done].
    apply held_In in Hh as [u Hu]. rewrite Forall_forall in Re. destruct (Re _ Hu) as (_ & _ & Hd). cbn in Hd. congruence. }
  set (until_ := saturating_add 64 now GUARDIAN_FREEZE_WINDOW_SECONDS).
  assert (Hu : u64 until_) by (apply saturating_add_range; unfold in_width in Hnow; lia || done).
  destruct (put_entries_ok until_ targets (guarded b) (fun e => entry_ok e /\ e.1 ∈ U /\ decided b e.1 = false) Re) as [He Hd].
  { intros t Hin. split; [split; [|done]|split; [by apply Ht|by apply D]]. cbn.
    rewrite Forall_forall in U_ids. by apply U_ids, Ht. }
  { done. }
  apply wlp_bind, (wlp_freeze_each bound until_ targets (stopped b) (listed b)); [done|done|]. intros l1 F1.
  apply wlp_bind. eapply wlp_write_entries; [|exact F1|].
  { eapply Forall_impl; [exact He|]. by intros e (? & _). }
  intros l2 F2 T2. apply wlp_bind. eapply (wlp_keeps _ kept); [apply keeps_write, epoch_foreign|]. intros _ l3 K3.
  assert (K : forall x, x ∈ book_strings -> at_ l3 x = at_ l2 x) by (intros x Hx; apply K3; by exists x).
  apply wlp_ret. split; cbn [is_ok stop_spec decided guarded listed]; fold until_.
  - eapply flags_same; [|exact K]. eapply flags_ext; [exact F2| |done]. intros x _. unfold stopped, put. cbn [decided guarded].
    fold until_. rewrite put_entries_held. by destruct (bool_decide (x ∈ targets)), (decided b x), (held_by_guardians (guarded b) x).
  - rewrite <- T2. apply entries_same. apply K, targets_in.
  - done.
  - done.
Qed.
(** The guardians' freezes that have run out are lifted. *)
Definition run_out (g : list (list byte * Z)) : list (list byte) := map fst (filter (fun e => e.2 <= now) g).

Lemma run_out_cons e g : run_out (e :: g) = if e.2 <=? now then e.1 :: run_out g else run_out g.
Proof. unfold run_out. rewrite filter_cons. destruct (Z.leb_spec e.2 now); [by rewrite decide_True|by rewrite decide_False by lia]. Qed.

Lemma wlp_lapse g f b l (Q : unit -> Ledger -> Prop) : (forall e, e ∈ g -> e.1 ∈ U) -> flags l f b ->
  (forall l', flags l' (cut (run_out g) f) b -> Q tt l') ->
  wlp (for_each g (fun e => when (e.2 <=? now) (clear_frozen sha e.1))) Q l.
Proof.
  revert f l. induction g as [|e g IH]; intros f l Hg Hf HQ; cbn [for_each].
  { apply wlp_ret, HQ. eapply flags_ext; [exact Hf| |done]. intros x _. unfold cut. by rewrite bool_decide_eq_false_2 by set_solver. }
  assert (Hg' : forall e, e ∈ g -> e.1 ∈ U) by (intros; apply Hg; by right).
  apply wlp_bind. rewrite run_out_cons in HQ. apply wlp_when; intros He; rewrite He in HQ; [|by apply (IH f)].
  apply (wlp_clear_frozen e.1 f b); [apply Hg; by left|done|]. intros l1 H1 _. apply (IH (cut [e.1] f)); [done|done|].
  intros l2 H2. apply HQ. eapply flags_ext; [exact H2| |done]. intros x _. apply cut_cons.
Qed.

Lemma held_later g x : NoDup (map fst g) ->
  held_by_guardians (filter (fun e : list byte * Z => now < e.2) g) x = negb (bool_decide (x ∈ run_out g)) && held_by_guardians g x.
Proof.
  induction g as [|e g IH]; [done|]. cbn [map]. intros [Hn Hd]%NoDup_cons. rewrite run_out_cons, filter_cons, held_cons. specialize (IH Hd).
  destruct (decide (x = e.1)) as [->|Hne].
  - assert (Hout : e.1 ∉ run_out g).
    { intros Hin. apply Hn. unfold run_out in Hin. apply list_elem_of_In, in_map_iff in Hin as (y & Ey & Hy).
      apply list_elem_of_In, list_elem_of_filter in Hy as [_ Hy]. rewrite <- Ey. by apply list_elem_of_In, in_map, list_elem_of_In. }
    assert (Hh : held_by_guardians g e.1 = false).
    { apply not_true_iff_false. intros [u Hu]%held_In. apply Hn, list_elem_of_In, in_map_iff. exists (e.1, u). split; [done|by apply list_elem_of_In]. }
    rewrite (bool_decide_eq_true_2 (e.1 = e.1)) by done. destruct (Z.leb_spec e.2 now).
    + rewrite decide_False by lia. rewrite IH, Hh, andb_false_r. by rewrite bool_decide_eq_true_2 by set_solver.
    + rewrite decide_True by lia. rewrite held_cons, (bool_decide_eq_true_2 (e.1 = e.1)) by done.
      by rewrite bool_decide_eq_false_2.
  - rewrite (bool_decide_eq_false_2 (x = e.1)) by done. cbn [orb]. destruct (Z.leb_spec e.2 now).
    + rewrite decide_False by lia. rewrite IH. f_equal. f_equal. apply bool_decide_ext. set_solver.
    + rewrite decide_True by lia. rewrite held_cons, (bool_decide_eq_false_2 (x = e.1)) by done. exact IH.
Qed.

Lemma lapse_implements b l : represents l b -> wlp (stop_code GuardianLapse) (implements GuardianLapse b) l.
Proof.
  intros R. pose proof (rep_ok l b R) as Ok_. pose proof R as [Rf Rt Re Rd]. apply wlp_bind. unfold guardian_expire.
  apply wlp_bind, wlp_asks. rewrite Rt. case_bool_decide as He.
  { apply wlp_ret, wlp_ret. split; cbn [stop_spec decided guarded listed]; rewrite ?He in *; try done.
    eapply flags_ext; [exact Rf| |done]. intros x _. unfold stopped. cbn [decided guarded]. by rewrite He. }
  apply wlp_bind, (wlp_lapse (guarded b) (stopped b) (listed b)); [|done|].
  { intros e Hin. rewrite Forall_forall in Re. by destruct (Re e Hin) as (_ & ? & _). }
  intros l1 F1. eapply wlp_write_entries; [|exact F1|].
  { apply Forall_forall. intros e [_ Hin]%list_elem_of_filter. rewrite Forall_forall in Ok_. by apply Ok_. }
  intros l2 F2 T2. apply wlp_ret. split; cbn [stop_spec decided guarded listed]; [|done| |by apply filter_entries].
  - eapply flags_ext; [exact F2| |done]. intros x _. unfold stopped, cut. cbn [decided guarded]. rewrite held_later by done.
    destruct (decide (x ∈ run_out (guarded b))) as [Hx|Hx]; [|by rewrite bool_decide_eq_false_2].
    rewrite bool_decide_eq_true_2 by done. cbn. rewrite orb_false_r.
    apply list_elem_of_In, in_map_iff in Hx as (e & <- & Hin). apply list_elem_of_In, list_elem_of_filter in Hin as [_ Hin].
    rewrite Forall_forall in Re. by destruct (Re e Hin) as (_ & _ & ?).
  - apply Forall_forall. intros e [_ Hin]%list_elem_of_filter. rewrite Forall_forall in Re. by apply Re.
Qed.

Lemma step_implements s b l : represents l b -> stop_ready s -> wlp (stop_code s) (implements s b) l.
Proof.
  intros R H. destruct s; [by apply guardian_implements|by apply lapse_implements|by apply freeze_implements|by apply unfreeze_implements|
    by apply blacklist_implements|by apply recovery_implements].
Qed.
End Steps.

(** ** Histories *)

(** A ledger with its books: from a ledger without freezes, by steps that take effect
    or are refused, and by anything that leaves their leaves alone, as every other
    operation and every transaction that is rolled back does. *)
Inductive history : Ledger -> Stops -> Prop :=
| history_start l : (forall x, x ∈ book_strings -> at_ l x = None) -> history l (mkStops (fun _ => false) [] (fun _ => false))
| history_step l b now chain_id s ok l' : history l b -> stop_ready now s -> stop_code now chain_id s l = (Done ok, l') ->
    history l' (if ok then stop_spec now s b else b)
| history_elsewhere l b l' : history l b -> (forall x, x ∈ book_strings -> at_ l' x = at_ l x) -> history l' b.

Lemma history_run l b now chain_id s : history l b -> stop_ready now s -> (stop_code now chain_id s l).1 = Done true ->
  history (stop_code now chain_id s l).2 (stop_spec now s b).
Proof. intros H Hr E. eapply (history_step _ _ _ _ _ true); [done..|]. rewrite <- E. apply surjective_pairing. Qed.

Lemma represents_start l : (forall x, x ∈ book_strings -> at_ l x = None) -> represents l (mkStops (fun _ => false) [] (fun _ => false)).
Proof.
  intros H. split; cbn [decided guarded listed map]; [|..|constructor].
  - intros id Hid. rewrite !H by (by apply freeze_in || by apply listed_in || by apply stop_in). done.
  - specialize (H _ targets_in). unfold guardian_freeze_entries, stake_singleton_key. unfold at_string in H. by rewrite H.
  - done.
Qed.
Lemma represents_same l l' b : represents l b -> (forall x, x ∈ book_strings -> at_ l' x = at_ l x) -> represents l' b.
Proof.
  intros [Rf Rt Re Rd] E. split; [by eapply flags_same| |done|done]. rewrite <- Rt. apply entries_same, E, targets_in.
Qed.

Lemma history_represents l b : history l b -> represents l b.
Proof.
  induction 1 as [l H|l b now chain_id s ok l' _ IH Hr E|l b l' _ IH E]; [by apply represents_start| |by eapply represents_same].
  pose proof (step_implements now chain_id s b l IH Hr) as W. unfold wlp in W. rewrite E in W. exact W.
Qed.
End History.
End Freezes.

(** ** The claim *)

(** C12: After any history of freezes by the guardians, their expiry, and referenda that
    freeze, unfreeze, blacklist or seize, interleaved with anything that leaves those
    leaves alone, the ledger answers as three separate books would: an account is frozen
    exactly when a referendum decided so or the guardians hold it, is blacklisted exactly
    when a referendum listed it, and the asset it issues is stopped exactly when one of
    these holds.  So the expiry of a guardians' freeze never lifts a decided one and
    never restarts the asset of a blacklisted issuer, although all of them share leaves;
    and the guardians' list names each account once, none of them decided. *)
Theorem freezes_refine_books (sha : list byte -> list byte) (U : list (list byte)) PUBLIC_KEY_BYTES SIGNATURE_BYTES ml_verify l b :
  Forall (fun id => length id = 32%nat) U ->
  separates sha (strings_in_play sha U) (strings_in_play sha U) ->
  (forall a b, a ∈ U -> b ∈ U -> asset_id_of sha a = asset_id_of sha b -> a = b) ->
  history sha U PUBLIC_KEY_BYTES SIGNATURE_BYTES ml_verify l b ->
  (forall id, id ∈ U ->
     is_frozen_id sha l id = decided b id || held_by_guardians (guarded b) id /\
     is_gov_blacklisted sha l id = listed b id /\
     asset_issuer_is_stopped sha l (asset_id_of sha id) = is_frozen_id sha l id || listed b id) /\
  guardian_freeze_entries sha l = guarded b /\ NoDup (map fst (guarded b)) /\
  Forall (fun e => decided b e.1 = false) (guarded b).
Proof.
  intros H1 H2 H3 H. destruct (history_represents sha U H1 H2 H3 _ _ _ _ _ H) as [Rf Rt Re Rd].
  split_and!; [|done|done|eapply Forall_impl; [exact Re|by intros e (_ & _ & ?)]].
  intros id Hid. destruct (Rf id Hid) as (F1 & F2 & F3).
  change (is_frozen_id sha l id) with (flagged (at_string sha l (freeze_string id))). rewrite F1. done.
Qed.

(** The guardians freeze two accounts, a referendum freezes the first for good, and the
    guardians' freezes run out. *)
Definition freeze_hash (bs : list byte) : list byte := rev bs.
Definition freeze_caucus : GuardianSet := mkGuardianSet [replicate 32 x11; replicate 32 x12; replicate 32 x13] 2.
Definition freeze_accounts : list (list byte) := [replicate 32 x01; replicate 32 x02].
Definition freeze_start : Ledger := from_trie {[ freeze_hash GOV_GUARDIAN_TAG := to_bytes GuardianSet_codec freeze_caucus ]}.
Definition freeze_moves : list (Z * StopStep) :=
  [(1000, GuardianStop 0 freeze_accounts [replicate 32 x13; replicate 32 x11]); (2000, DecideFreeze [replicate 32 x01]);
   (1000 + GUARDIAN_FREEZE_WINDOW_SECONDS, GuardianLapse)].
#[local] Notation freeze_code := (stop_code freeze_hash 0 0 (fun _ _ _ _ => false)).
Definition freeze_end : Ledger := foldl (fun l m => (freeze_code m.1 7 m.2 l).2) freeze_start freeze_moves.
Definition freeze_books : Stops := foldl (fun b m => stop_spec m.1 m.2 b) (mkStops (fun _ => false) [] (fun _ => false)) freeze_moves.

Lemma freeze_history : history freeze_hash freeze_accounts 0 0 (fun _ _ _ _ => false) freeze_end freeze_books.
Proof.
  unfold freeze_end, freeze_books, freeze_moves. cbn [foldl fst snd].
  apply history_run; [apply history_run; [apply history_run; [apply history_start|..]|..]|..].
  - apply Forall_forall. vm_compute. by repeat constructor.
  - split; [done|by vm_compute].
  - by vm_compute.
  - intros t Ht. change (t ∈ [replicate 32 x01]) in Ht. apply list_elem_of_singleton in Ht as ->. by left.
  - by vm_compute.
  - done.
  - by vm_compute.
Qed.

Lemma freezes_refine_books_witness :
  is_frozen_id freeze_hash freeze_end (replicate 32 x01) = true /\
  is_frozen_id freeze_hash freeze_end (replicate 32 x02) = false /\
  guardian_freeze_entries freeze_hash freeze_end = [].
Proof.
  destruct (freezes_refine_books freeze_hash freeze_accounts 0 0 (fun _ _ _ _ => false) freeze_end freeze_books) as (H & E & _).
  - by repeat constructor.
  - intros x y _ _ Hxy. unfold freeze_hash in Hxy. apply (f_equal (@rev byte)) in Hxy. by rewrite !rev_involutive in Hxy.
  - intros x y [->|[->|[]%elem_of_nil]%elem_of_cons]%elem_of_cons [->|[->|[]%elem_of_nil]%elem_of_cons]%elem_of_cons E; done || discriminate E.
  - apply freeze_history.
  - split_and!; [by destruct (H (replicate 32 x01) ltac:(by left)) as (-> & _)| |by rewrite E].
    by destruct (H (replicate 32 x02) ltac:(by right; left)) as (-> & _).
Defined.
