(* ===== verification/LedgerGovEnact.v ===== *)
(** * Enacting a referendum

    The node ignores what enactment returns and keeps what it wrote, so an action must
    not fail half way.  [Tidy] says that a computation which fails has changed nothing;
    every action is tidy.  And an enactment that succeeds was approved, is open, passes
    the constitution and uses up the proposal. *)

From S2P Require Import Prelude Codec Idfmt Events LedgerState LedgerKeys.
From S2P Require Import Governance Staking Fee LedgerStake LedgerCoins Bridge LedgerBridge LedgerGov LedgerFrames.

(** ** Failing without a trace *)

(** A computation that never fails, and one that has changed nothing when it does. *)
Class Sure {A} (m : M (Result EnactError A)) : Prop := sure : forall l e, (m l).1 <> Done (Err e).
Class Tidy {A} (m : M (Result EnactError A)) : Prop := tidy : forall l e, (m l).1 = Done (Err e) -> (m l).2 = l.

Section Tidy.
Context {A : Type}.

Lemma sure_ok (a : A) : Sure (mret (Ok a)).
Proof. done. Qed.
Lemma sure_bind {B} (m : M B) (k : B -> M (Result EnactError A)) : (forall b, Sure (k b)) -> Sure (m ≫= k).
Proof. intros H l e. unfold mbind, M_bind. destruct (m l) as [[b|] l']; [apply H|done]. Qed.
Lemma sure_tidy (m : M (Result EnactError A)) : Sure m -> Tidy m.
Proof. intros H l e E. by destruct (H l e). Qed.

Lemma tidy_err e : Tidy (mret (Err e) : M (Result EnactError A)).
Proof. done. Qed.
Lemma tidy_ask {B} (f : Ledger -> outcome B) (k : B -> M (Result EnactError A)) : (forall b, Tidy (k b)) -> Tidy (ask f ≫= k).
Proof. intros H l e. unfold mbind, M_bind, ask. destruct (f l); [apply H|done]. Qed.
Lemma tidy_asks {B} (f : Ledger -> B) (k : B -> M (Result EnactError A)) : (forall b, Tidy (k b)) -> Tidy (asks f ≫= k).
Proof. intros H l e. apply H. Qed.
Lemma tidy_lift {B} (o : outcome B) (k : B -> M (Result EnactError A)) : (forall b, Tidy (k b)) -> Tidy (lift o ≫= k).
Proof. intros H l e. unfold mbind, M_bind, lift. destruct o; [apply H|done]. Qed.
(** [m?] followed by something that does not fail. *)
Lemma tidy_then {B} (m : M (Result EnactError B)) (k : Result EnactError B -> M (Result EnactError A)) :
  Tidy m -> (forall b, Sure (k (Ok b))) -> (forall e, k (Err e) = mret (Err e)) -> Tidy (m ≫= k).
Proof.
  intros Hm Hk He l e. unfold mbind, M_bind. specialize (Hm l). destruct (m l) as [[[b|e']|] l'] eqn:E; [|rewrite He|done].
  - intros E'. by destruct (Hk b l' e).
  - intros _. by apply (Hm e').
Qed.
End Tidy.

Create HintDb tidy discriminated.
#[export] Hint Resolve sure_ok tidy_err : tidy.

Ltac tidying :=
  repeat first
  [ solve [auto with tidy nocore]
  | match goal with
    | |- Sure (_ ≫= _) => apply sure_bind; intros ?
    | |- Sure (if ?b then _ else _) => destruct b
    | |- Sure (match ?x with _ => _ end) => destruct x
    | |- Tidy (if ?b then _ else _) => destruct b
    | |- Tidy (ask _ ≫= _) => apply tidy_ask; intros ?
    | |- Tidy (asks _ ≫= _) => apply tidy_asks; intros ?
    | |- Tidy (lift _ ≫= _) => apply tidy_lift; intros ?
    | |- Tidy (match ?x with _ => _ end) => destruct x
    | |- Tidy _ => solve [apply sure_tidy; tidying]
    end ].

Section Enact.
Context (sha : list byte -> list byte) (PUBLIC_KEY_BYTES SIGNATURE_BYTES : nat).
Context (ml_verify : list byte -> list byte -> list byte -> list byte -> bool).
#[local] Notation execute := (execute_action sha PUBLIC_KEY_BYTES SIGNATURE_BYTES ml_verify).
#[local] Notation enact := (gov_enact sha PUBLIC_KEY_BYTES SIGNATURE_BYTES ml_verify).

Lemma tidy_parameter key value now : Tidy (apply_parameter sha key value now).
Proof. unfold apply_parameter, set_mainnet_parameter, set_deposit_parameter, set_exits_parameter, set_payout_parameter. tidying. Qed.
Lemma tidy_spend from to amount : Tidy (enact_spend sha from to amount).
Proof. unfold enact_spend. tidying. apply tidy_then; [tidying|intros _; tidying|done]. Qed.

Lemma tidy_and_then (m k : M (Result EnactError unit)) : Tidy m -> Sure k -> Tidy (and_then m k).
Proof. intros Hm Hk. apply tidy_then; [done|by intros|done]. Qed.

Lemma tidy_action a now chain_id : Tidy (execute a now chain_id).
Proof.
  destruct a; cbn [execute_action].
  all: unfold enact_mint, enact_blacklist, enact_recovery, on_targets, enact_bridge_migration, enact_committee, enact_revoke,
    enact_asset_register, enact_epoch_advance, enact_activate.
  all: try apply tidy_spend.
  all: try (apply tidy_and_then; [first [apply tidy_parameter|unfold gov_unfreeze_bridge; tidying]|tidying]).
  all: tidying.
Qed.

(** ** What enactment does *)

Lemma bind_inv {A B} (m : M A) (k : A -> M B) l r l' : (m ≫= k) l = (Done r, l') ->
  exists a l1, m l = (Done a, l1) /\ k a l1 = (Done r, l').
Proof. unfold mbind, M_bind. destruct (m l) as [[a|] l1]; [eauto|done]. Qed.
Lemma ask_bind_inv {A B} (f : Ledger -> outcome A) (k : A -> M B) l r l' : (ask f ≫= k) l = (Done r, l') ->
  exists a, f l = Done a /\ k a l = (Done r, l').
Proof. unfold mbind, M_bind, ask. destruct (f l) as [a|]; [eauto|done]. Qed.

Lemma write_inv key value l r l' : write_leaf key value l = (r, l') -> l' = (write_leaf key value l).2.
Proof. by intros ->. Qed.

(** The proposal that may be enacted: it is approved, stored and open, and the
    constitution allows it. *)
Definition enactment_due (id now chain_id : Z) (l : Ledger) (r : Referendum) (a : Action) : Prop :=
  gov_referendum sha l id = Some r /\ gov_action sha l id = Done (Some a) /\
  enactment_expired r now = false /\ enactable r now = true /\
  check_enactment (track r) a (scope_matches sha a chain_id) (is_protected_account sha) = Ok tt.

(** The three ways through [gov_enact] once the referendum is concluded. *)
Lemma gov_enact_cases id now chain_id l res l' : enact id now chain_id l = (Done res, l') ->
  exists verdict lc, gov_conclude sha id now l = (Done verdict, lc) /\
  ((exists e, res = Err e /\ l' = lc) \/
   (res = Err Expired /\ l' = (clear_gov_action sha id lc).2) \/
   (exists r a lx, res = Ok tt /\ verdict = Some Approved /\ enactment_due id now chain_id lc r a /\
      execute a now chain_id lc = (Done (Ok tt), lx) /\
      get_leaf l' (gov_action_key sha id) = Some [] /\
      forall k, k <> gov_action_key sha id -> k <> gov_receipt_key sha id -> get_leaf l' k = get_leaf lx k)).
Proof.
  intros (verdict & lc & Ec & E)%bind_inv. exists verdict, lc. split; [done|]. clear Ec.
  destruct verdict as [v|]; [|injection E as <- <-; left; eauto].
  case_bool_decide as Hv; cbn [negb] in E; [subst|injection E as <- <-; left; eauto].
  apply ask_bind_inv in E as (oa & Ea & E). destruct oa as [a|]; [|injection E as <- <-; left; eauto].
  change ((asks ?f ≫= ?k) lc) with (k (f lc) lc) in E. cbn beta in E.
  destruct (gov_referendum sha lc id) as [r|] eqn:Er; [|injection E as <- <-; left; eauto].
  destruct (enactment_expired r now) eqn:Ex; [injection E as <- <-; right; by left|].
  destruct (enactable r now) eqn:Eo; cbn [negb] in E; [|injection E as <- <-; left; eauto].
  destruct (check_enactment _ _ _ _) as [[]|v] eqn:Ech; [|injection E as <- <-; left; eauto].
  apply bind_inv in E as (done_ & lx & Ed & E). destruct done_ as [[]|e].
  - right; right. apply bind_inv in E as (? & l1 & E1 & E). apply bind_inv in E as (? & l2 & E2 & E).
    apply bind_inv in E as (? & l3 & E3 & E). injection E as <- <-. exists r, a, lx. apply write_inv in E1, E2.
    assert (E4 : forall k, get_leaf l3 k = get_leaf l2 k) by (injection E3 as _ <-; done).
    split_and!; try done; [|intros k Hk1 Hk2]; rewrite E4, E2, get_leaf_write; [by rewrite decide_True|].
    by rewrite decide_False, E1, get_leaf_write, decide_False.
  - left. injection E as <- <-. exists e. split; [done|]. pose proof (tidy_action a now chain_id lc e) as T. rewrite Ed in T. by apply T.
Qed.

(** A concluded referendum is not concluded again. *)
Lemma conclude_settled id now l r : gov_referendum sha l id = Some r -> status r <> Deciding ->
  gov_conclude sha id now l = (Done (Some (status r)), l).
Proof.
  intros Er Hs. unfold gov_conclude. change ((asks ?f ≫= ?k) l) with (k (f l) l). cbn beta. rewrite Er.
  by rewrite bool_decide_eq_false_2.
Qed.

(** C14: An enactment that fails leaves no trace of the action, whichever of the sixteen
    actions it is and wherever it fails: the ledger is the one [gov_conclude] left, but
    for the proposal being dropped when its window has passed.  The node relies on it,
    for it ignores the result and keeps the ledger. *)
Theorem failed_enactment_changes_nothing id now chain_id l e l' :
  enact id now chain_id l = (Done (Err e), l') ->
  exists verdict lc, gov_conclude sha id now l = (Done verdict, lc) /\
    (l' = lc \/ e = Expired /\ l' = (clear_gov_action sha id lc).2).
Proof.
  intros (verdict & lc & Ec & [(e' & [= <-] & ->)|[([= ->] & ->)|(r & a & lx & [=] & _)]])%gov_enact_cases;
    exists verdict, lc; split; auto.
Qed.

(** C13: An action is enacted only when its referendum is approved, its window is open and
    the constitution allows it, and enacting it uses it up: its leaf is emptied, and on any
    ledger where that leaf is still empty and the referendum concluded, enacting it
    again fails and changes nothing, at any time. *)
Theorem enactment_earned_and_spent id now chain_id l l' :
  enact id now chain_id l = (Done (Ok tt), l') ->
  (exists lc r a lx, gov_conclude sha id now l = (Done (Some Approved), lc) /\ enactment_due id now chain_id lc r a /\
     execute a now chain_id lc = (Done (Ok tt), lx) /\
     forall k, k <> gov_action_key sha id -> k <> gov_receipt_key sha id -> get_leaf l' k = get_leaf lx k) /\
  get_leaf l' (gov_action_key sha id) = Some [] /\
  forall l2 r2 now2 chain2, get_leaf l2 (gov_action_key sha id) = Some [] ->
    gov_referendum sha l2 id = Some r2 -> status r2 <> Deciding ->
    exists e, enact id now2 chain2 l2 = (Done (Err e), l2).
Proof.
  intros (verdict & lc & Ec & [(e' & [=] & _)|[([=] & _)|(r & a & lx & _ & -> & Hd & Hx & Ha & Hk)]])%gov_enact_cases.
  split_and!; [by exists lc, r, a, lx|done|]. clear. intros l2 r2 now2 chain2 Ha Er Hs.
  unfold gov_enact. unfold mbind at 1, M_bind. rewrite (conclude_settled id now2 l2 r2 Er Hs).
  case_bool_decide; cbn [negb]; [|by eexists]. change ((ask ?f ≫= ?k) l2) with
    (match f l2 with Done a => k a l2 | Panic => (Panic, l2) end).
  assert (E : gov_action sha l2 id = Done None) by (unfold gov_action; by rewrite Ha). cbv beta. rewrite E. by eexists.
Qed.
End Enact.

(** A feature is activated by an approved referendum, and an unknown parameter is not. *)
Definition enact_hash (bs : list byte) : list byte := rev bs.
Definition enact_referendum : Referendum := mkReferendum 1 ChainUpgrade [] 0 0 Tally_default Approved false.
Definition enact_start (a : Action) : Ledger := from_trie
  {[ gov_referendum_key enact_hash 1 := to_bytes Referendum_codec enact_referendum;
     gov_action_key enact_hash 1 := to_bytes Action_codec a ]}.
Definition enact_feature : Action := Activate (ascii "blobs") 2.
Definition enact_unknown : Action := SetParameter (ascii "colour") [x01].
Definition enact_now : Z := enactment_opens enact_referendum.
#[local] Notation enact_run a := (gov_enact enact_hash 0 0 (fun _ _ _ _ => false) 1 enact_now 7 (enact_start a)).

Lemma failed_enactment_changes_nothing_witness : leaves (enact_run enact_unknown).2 = leaves (enact_start enact_unknown).
Proof.
  destruct (failed_enactment_changes_nothing enact_hash 0 0 (fun _ _ _ _ => false) 1 enact_now 7 (enact_start enact_unknown)
    UnknownParameter (enact_run enact_unknown).2) as (v & lc & Ec & H).
  - by vm_compute.
  - rewrite (conclude_settled enact_hash 1 enact_now _ enact_referendum) in Ec by (done || by vm_compute).
    injection Ec as _ <-. destruct H as [->|[? _]]; done.
Defined.

Lemma enactment_earned_and_spent_witness :
  feature_version enact_hash (enact_run enact_feature).2 (ascii "blobs") = Done 2 /\
  exists e, gov_enact enact_hash 0 0 (fun _ _ _ _ => false) 1 enact_now 7 (enact_run enact_feature).2 =
    (Done (Err e), (enact_run enact_feature).2).
Proof.
  split; [by vm_compute|].
  destruct (enactment_earned_and_spent enact_hash 0 0 (fun _ _ _ _ => false) 1 enact_now 7 (enact_start enact_feature)
    (enact_run enact_feature).2) as (_ & Ha & H).
  - by vm_compute.
  - apply (H _ enact_referendum); [exact Ha|by vm_compute|done].
Defined.
