(* ===== verification/LedgerGovJournal.v ===== *)
(** * Governance operations can be taken back

    Every governance operation and every action is [Journaled]: run inside
    [apply_atomic], it takes effect as a whole or not at all. *)

From S2P Require Import Prelude Codec Idfmt Events LedgerState LedgerKeys.
From S2P Require Import Governance Staking Fee LedgerStake LedgerCoins LedgerConserve LedgerHistory.
From S2P Require Import Bridge LedgerBridge LedgerGov.

Create HintDb gov.
#[export] Hint Unfold set_gov_referendum set_gov_action clear_gov_action set_gov_electorate set_gov_next_id
  set_gov_lock clear_gov_lock set_gov_total_locked set_gov_ballot credit_treasury set_stake_treasury set_gov_receipt
  set_gov_minted_in_period set_total_supply set_frozen clear_frozen set_gov_blacklisted record_stopped forget_stopped
  write_guardian_freeze_entries guardian_freeze_forget set_stake_price set_stake_mainnet_start set_session_meter
  set_bridge_gateway set_exits_parameter set_payout_parameter set_bridge_exits_enabled set_bridge_payout_cap
  set_gov_track_deposit set_guardian_set set_feature_version seed_bridge_operator_set set_bridge_epoch
  register_bridged_asset set_bridged_asset record_bridge_asset_id set_bridge_pool_vault carry_custody
  set_bridge_vault_custody lift_bridge_freeze clear_stake_bond record_mint_event : gov.

Ltac journaled_gov := autounfold with gov; journaled.

Section Journal.
Context (sha : list byte -> list byte) (PUBLIC_KEY_BYTES SIGNATURE_BYTES : nat).
Context (ml_verify : list byte -> list byte -> list byte -> list byte -> bool).
#[local] Notation execute := (execute_action sha PUBLIC_KEY_BYTES SIGNATURE_BYTES ml_verify).

Lemma journaled_propose a t act now : Journaled (gov_propose sha a t act now).
Proof. unfold gov_propose. journaled_gov. Qed.
Lemma journaled_vote a id aye c st now : Journaled (gov_vote sha a id aye c st now).
Proof. unfold gov_vote. journaled_gov. Qed.
Lemma journaled_conclude id now : Journaled (gov_conclude sha id now).
Proof. unfold gov_conclude. journaled_gov. Qed.
Lemma journaled_release a now : Journaled (gov_release sha a now).
Proof. unfold gov_release. journaled_gov. Qed.

Lemma journaled_seize_all victim scope ss recovered : Journaled (seize_all sha victim scope ss recovered).
Proof.
  revert recovered. induction ss as [|s ss IH]; intros recovered; cbn [seize_all]; [journaled|].
  unfold seize, seize_bond, seize_lock. journaled_gov.
Qed.
#[local] Hint Resolve journaled_seize_all journaled_conclude : journaled.

Lemma journaled_parameter key value now : Journaled (apply_parameter sha key value now).
Proof. unfold apply_parameter, set_mainnet_parameter, set_deposit_parameter. journaled_gov. Qed.
#[local] Hint Resolve journaled_parameter : journaled.

Lemma journaled_action a now chain_id : Journaled (execute a now chain_id).
Proof.
  destruct a; cbn [execute_action]; unfold enact_mint, and_then, enact_spend, enact_blacklist, enact_recovery, on_targets,
    enact_bridge_migration, gov_unfreeze_bridge, enact_committee, enact_revoke, enact_asset_register, enact_epoch_advance,
    enact_activate; journaled_gov.
Qed.
#[local] Hint Resolve journaled_action : journaled.

Lemma journaled_enact id now chain_id : Journaled (gov_enact sha PUBLIC_KEY_BYTES SIGNATURE_BYTES ml_verify id now chain_id).
Proof. unfold gov_enact. journaled_gov. Qed.
End Journal.
#[export] Hint Resolve journaled_propose journaled_vote journaled_conclude journaled_release journaled_enact journaled_action : journaled.
