(* ===== verification/LedgerGovCoins.v ===== *)
(** * Coins under governance

    A deposit leaves the account of the proposer when a referendum is proposed and goes
    back to it or to the treasury when the referendum is concluded; votes move coins
    into a lock; enacted referenda mint, spend and seize.  The books of [LedgerCoins]
    with the open deposits held elsewhere balance through all of it, and through the
    staking operations in between. *)

From S2P Require Import Prelude Codec Idfmt Events LedgerState LedgerKeys.
From S2P Require Import Governance Staking Fee LedgerStake LedgerCoins LedgerConserve LedgerHistory.
From S2P Require Import Bridge LedgerBridge LedgerGov LedgerGovJournal LedgerFrames.

Lemma wp_wlp {A} (m : M A) (Q : A -> Ledger -> Prop) l : wp m Q l -> wlp m Q l.
Proof. unfold wp, wlp. by destruct (m l) as [[a|] l']. Qed.

(** ** Locks *)

Lemma to_bytes_Lock k : exists x bs, to_bytes Lock_codec k = x :: bs /\ fits_slice (x :: bs).
Proof.
  assert (E : to_bytes Lock_codec k = to_le 8 (lock_amount k) ++ to_le 8 (until k)).
  { unfold Lock_codec, Lock_encode. by codec_image. }
  assert (Hl : length (to_bytes Lock_codec k) = 16%nat) by (by rewrite E, length_app, !length_to_le).
  destruct (to_bytes Lock_codec k) as [|x bs]; [done|]. exists x, bs. split; [done|].
  unfold fits_slice, len. by rewrite Hl.
Qed.
Lemma lock_decoded k : valid Lock_codec k -> decode_some Lock_codec (Some (to_bytes Lock_codec k)) = Done (Some k).
Proof.
  intros Hk. destruct (to_bytes_Lock k) as (x & bs & E & Hf). rewrite E. cbn [decode_some]. rewrite <- E in *.
  by rewrite (expect_decoded_encoded Lock_codec k).
Qed.

Section Coins.
Context (sha : list byte -> list byte) (U : list (list byte)).
Context (U_nodup : NoDup U) (U_apart : apart sha U)
  (U_ids : Forall (fun id => length id = 32%nat) U)
  (U_grants : sha (ascii "qtv/gov/grants") ∈ U).
(** The referenda in play, and the other strings governance writes to. *)
Context (R : list Z) (R_nodup : NoDup R) (R_ids : Forall (fun id => u64 id) R) (W : list (list byte)).

Definition ref_string (id : Z) : list byte := GOV_REF_TAG ++ to_le 8 id.
(** The leaves that say what is held: the referenda and the number of the next. *)
Definition book_keys : list (list byte) := GOV_NEXT_TAG :: map ref_string R.
Definition slot_strings : list (list byte) := map slot_preimage (slots U).

Context (K_apart : separates sha book_keys (book_keys ++ slot_strings)).
Context (W_quiet : forall x, x ∈ W -> foreign sha (book_keys ++ slot_strings) x).

#[local] Notation at_ := (at_string sha).
#[local] Notation leaf_at := (leaf_at sha).
#[local] Notation frame := (frame sha U).
#[local] Notation account := (account sha).

Lemma book_not_slot x s : x ∈ book_keys -> s ∈ slots U -> sha x <> sha (slot_preimage s).
Proof using K_apart.
  intros Hx Hs E. apply K_apart in E; [|done|apply elem_of_app; right; by apply list_elem_of_In, in_map, list_elem_of_In].
  assert (Hs' : slot_preimage s <> x); [|done]. clear E. unfold book_keys in Hx.
  apply elem_of_cons in Hx as [->|Hx]; [intros H; destruct s; discriminate H|].
  apply list_elem_of_fmap in Hx as (id & -> & _). intros H. destruct s; discriminate H.
Qed.

(** The leaves of [book_keys] as they are in [l]. *)
Definition snap (l : Ledger) : Others sha U.
Proof using K_apart.
  refine (mkOthers sha U (keys_of sha book_keys) (get_leaf l) _).
  intros k s (x & Hx & ->) Hs. by apply book_not_slot.
Defined.

(** [f] coins are in flight, and the leaves of [book_keys] are those of [l0]. *)
Definition Stage (l0 : Ledger) (f : Z) (l : Ledger) : Prop := Books sha U (X:=snap l0) (fun _ => 0) f 0 l.

Lemma stage_at l0 f l x : Stage l0 f l -> x ∈ book_keys -> at_ l x = at_ l0 x.
Proof. intros HB Hx. apply (books_others _ _ _ _ _ _ HB). by exists x. Qed.

Lemma books_snap {X : Others sha U} N f g l : Books sha U N f g l -> Books sha U (X:=snap l) N f g l.
Proof. intros [H1 H2 H3 H4 H5 _]. by constructor. Qed.

(** A write to none of the slots. *)
Lemma stage_write l0 f l k v : Stage l0 f l -> (forall s, s ∈ slots U -> k <> sha (slot_preimage s)) ->
  Stage (write_leaf k v l).2 f (write_leaf k v l).2.
Proof.
  intros [H1 H2 H3 H4 H5 _] Hk. set (l' := (write_leaf k v l).2).
  assert (E : forall s, s ∈ slots U -> leaf_at l' s = leaf_at l s).
  { intros s Hs. unfold LedgerCoins.leaf_at, l'. rewrite get_leaf_write, decide_False; [done|]. intros Heq. by apply (Hk s). }
  assert (Et : forall w, total sha U w l' = total sha U w l).
  { intros w. unfold total. f_equal. apply map_ext_in. intros s Hs. by rewrite E by (by apply list_elem_of_In). }
  assert (Es : round_proposer l' = round_proposer l /\ execution_height l' = execution_height l /\
    heights_per_epoch l' = heights_per_epoch l) by (unfold l', write_leaf, modify, note_prior; by repeat case_match).
  destruct Es as (Ep & Eh & Ee). constructor; rewrite ?Et, ?Ep, ?Eh, ?Ee; try done. intros s Hs. rewrite E by done. by apply H1.
Qed.
Lemma wlp_quiet l0 f l x v (Q : unit -> Ledger -> Prop) : Stage l0 f l -> x ∈ W ->
  (forall l', Stage l0 f l' -> Q tt l') -> wlp (write_leaf (sha x) v) Q l.
Proof using W_quiet.
  intros HB Hx HQ. change (Q tt (write_leaf (sha x) v l).2). apply HQ. pose proof (W_quiet x Hx) as Hf.
  assert (Hs : forall s, s ∈ slots U -> sha x <> sha (slot_preimage s)).
  { intros s Hs E. apply Hf. exists (slot_preimage s). split; [|done]. apply elem_of_app. right. by apply list_elem_of_In, in_map, list_elem_of_In. }
  destruct (stage_write l0 f l (sha x) v HB Hs) as [H1 H2 H3 H4 H5 _]. constructor; try done.
  intros k (y & Hy & ->). rewrite get_leaf_write, decide_False.
  - apply (stage_at l0 f l y HB Hy).
  - intros E. apply Hf. exists y. split; [|done]. apply elem_of_app. by left.
Qed.
Lemma wlp_book l0 f l x v (Q : unit -> Ledger -> Prop) : Stage l0 f l -> x ∈ book_keys ->
  (forall l', Stage l' f l' -> (forall y, y ∈ book_keys -> at_ l' y = if decide (y = x) then Some v else at_ l0 y) -> Q tt l') ->
  wlp (write_leaf (sha x) v) Q l.
Proof using K_apart.
  intros HB Hx HQ. change (Q tt (write_leaf (sha x) v l).2). apply HQ.
  - eapply stage_write; [exact HB|]. intros s Hs. by apply book_not_slot.
  - intros y Hy. unfold at_string. rewrite get_leaf_write. destruct (decide (y = x)) as [->|Hne]; [by rewrite decide_True|].
    rewrite decide_False; [apply (stage_at l0 f l y HB Hy)|]. intros E. apply Hne, K_apart; [done|apply elem_of_app; by left|done].
Qed.

(** ** Moves *)

Lemma wlp_pay_out l0 f l a id amt (Q : unit -> Ledger -> Prop) : Stage l0 f l -> address_id a = Some id -> id ∈ U ->
  0 <= amt <= acc_balance (account l a) -> (forall l', Stage l0 (f + amt) l' -> Q tt l') ->
  wlp (set_account sha a (with_balance (account l a) (acc_balance (account l a) - amt))) Q l.
Proof using U_nodup U_apart.
  intros HB Ha Hid Hamt HQ. apply wp_wlp. destruct (account_u64 sha l a) as (V1 & V2 & V3).
  eapply (wp_set_account sha U U_nodup U_apart f 0 l a id); [exact HB|done|done| |done|by eapply nonce_floor|].
  - apply with_balance_valid; [done|]. unfold in_width in *. lia.
  - cbn [with_balance acc_balance]. intros l' HB' _. apply HQ.
    by replace (f + acc_balance (account l a) - (acc_balance (account l a) - amt)) with (f + amt) in HB' by lia.
Qed.
Lemma wlp_pay_in l0 f l a id amt (Q : unit -> Ledger -> Prop) : Stage l0 f l -> address_id a = Some id -> id ∈ U ->
  0 <= amt <= f -> (forall l', Stage l0 (f - amt) l' -> Q tt l') ->
  wlp (set_account sha a (with_balance (account l a) (saturating_add 64 (acc_balance (account l a)) amt))) Q l.
Proof using U_nodup U_apart.
  intros HB Ha Hid Hamt HQ. apply wp_wlp. eapply (wp_credit sha U U_nodup U_apart f 0 l a id); [exact HB|done..|].
  intros l' HB' _. by apply HQ.
Qed.
Lemma wlp_pay_in_then l0 f l a id amt {A} (k : M A) Q : Stage l0 f l -> address_id a = Some id -> id ∈ U ->
  0 <= amt <= f -> (forall l', Stage l0 (f - amt) l' -> wlp k Q l') ->
  wlp (acc ← asks (fun l => account l a);
       set_account sha a (with_balance acc (saturating_add 64 (acc_balance acc) amt));; k) Q l.
Proof using U_nodup U_apart. intros. apply wlp_bind, wlp_asks, wlp_bind. by eapply wlp_pay_in. Qed.

Lemma wlp_slot l0 f l s v (Q : unit -> Ledger -> Prop) : Stage l0 f l -> s ∈ slots U -> leaf_ok U (fun _ => 0) s (Some v) ->
  (forall o, stake_in s o = 0) ->
  (forall l', Stage l0 (f + coin s (leaf_at l s) - coin s (Some v)) l' -> Q tt l') -> wlp (write_leaf (sha (slot_preimage s)) v) Q l.
Proof using U_nodup U_apart.
  intros HB Hs Hok Hst HQ. apply wp_wlp. eapply (wp_write_slot _ U U_apart); [done|]. intros l' Hw. apply HQ.
  pose proof (written_books _ _ _ U_nodup f 0 s _ l l' HB Hs Hw Hok) as HB'. rewrite !Hst in HB'.
  by replace (0 - 0 + 0) with 0 in HB' by lia.
Qed.

Lemma lock_coins l id k : gov_lock sha l id = Done k -> locked_amount (leaf_at l (SLock id)) = default 0 (option_map lock_amount k).
Proof. intros E. unfold locked_amount. change (decode_some Lock_codec (leaf_at l (SLock id))) with (gov_lock sha l id). rewrite E. by destruct k. Qed.
Lemma lock_valid l id k : gov_lock sha l id = Done (Some k) -> u64 (lock_amount k) /\ u64 (until k).
Proof.
  unfold gov_lock, decode_some. destruct (get_leaf _ _) as [[|b bs]|]; try done. unfold expect_decoded.
  destruct (from_bytes Lock_codec (b :: bs)) as [x|] eqn:E; [|done]. cbn. intros [= <-].
  by apply from_bytes_canonical in E as [H _]; [|apply _].
Qed.

Lemma wlp_set_lock l0 f l id k (Q : unit -> Ledger -> Prop) : Stage l0 f l -> id ∈ U -> u64 (lock_amount k) -> u64 (until k) ->
  (forall l', Stage l0 (f + locked_amount (leaf_at l (SLock id)) - lock_amount k) l' -> Q tt l') -> wlp (set_gov_lock sha id k) Q l.
Proof using U_nodup U_apart.
  intros HB Hid H1 H2 HQ. assert (D : decode_some Lock_codec (Some (to_bytes Lock_codec k)) = Done (Some k)) by (by apply lock_decoded).
  eapply (wlp_slot l0 f l (SLock id)); [done|slot_in|by exists (Some k)|done|]. cbn [coin].
  unfold locked_amount at 2. rewrite D. done.
Qed.
Lemma wlp_clear_lock l0 f l id (Q : unit -> Ledger -> Prop) : Stage l0 f l -> id ∈ U ->
  (forall l', Stage l0 (f + locked_amount (leaf_at l (SLock id))) l' -> Q tt l') -> wlp (clear_gov_lock sha id) Q l.
Proof using U_nodup U_apart.
  intros HB Hid HQ. eapply (wlp_slot l0 f l (SLock id)); [done|slot_in|by exists None|done|]. cbn [coin].
  change (locked_amount (Some [])) with 0. by rewrite Z.sub_0_r.
Qed.

(** The treasury, with the room the supply leaves. *)
Lemma wlp_credit_treasury l0 f l amt (Q : unit -> Ledger -> Prop) : Stage l0 f l -> 0 <= amt <= f ->
  (forall l', Stage l0 (f - amt) l' -> Q tt l') -> wlp (credit_treasury sha amt) Q l.
Proof using U_nodup U_apart.
  intros HB Hamt HQ. apply wlp_bind, wlp_ask. intros t Ht.
  pose proof (single_read sha U f 0 l STreasury HB eq_refl) as E. change (stake_treasury sha l = Done (leaf_u64 (leaf_at l STreasury))) in E.
  rewrite E in Ht. injection Ht as <-. pose proof (leaf_u64_range (leaf_at l STreasury)) as Hr.
  destruct (slot_bound sha U U_nodup f 0 l STreasury HB) as [H1 H2]; [slot_in|done|]. cbn [coin] in H1.
  unfold in_width in Hr. rewrite saturating_add_room by lia. apply wp_wlp.
  eapply (wp_set_single sha U U_nodup U_apart f 0 l STreasury); [exact HB|done|unfold in_width, U64_MAX in *; lia|].
  cbn [coin stake_in]. rewrite leaf_u64_encoded by (unfold in_width, U64_MAX in *; lia). intros l' HB' _ _. apply HQ.
  unfold Stage. replace (f - amt) with (f + leaf_u64 (leaf_at l STreasury) - (leaf_u64 (leaf_at l STreasury) + amt)) by lia. exact HB'.
Qed.

Lemma wlp_event l0 f l event {A} (k : M A) Q : Stage l0 f l -> (forall l', Stage l0 f l' -> wlp k Q l') ->
  wlp (record_side_event event;; k) Q l.
Proof. intros HB HQ. apply wlp_bind. change (wlp k Q (record_side_event event l).2). apply HQ. by eapply books_events. Qed.
Lemma wlp_native_event l0 f l kind data {A} (k : M A) Q : Stage l0 f l -> (forall l', Stage l0 f l' -> wlp k Q l') ->
  wlp (record_native_event kind data;; k) Q l.
Proof. intros HB HQ. apply wlp_bind. change (wlp k Q (record_native_event kind data l).2). apply HQ. by eapply books_events. Qed.

(** ** What is held *)

Definition open_deposit (r : option Referendum) : Z :=
  match r with Some r => if bool_decide (status r = Deciding) then deposit r else 0 | None => 0 end.
Definition open_deposits (l : Ledger) : Z := zsum (map (fun id => open_deposit (gov_referendum sha l id)) R).

Definition ref_ok (r : Referendum) : Prop := Referendum_valid r /\ Governance.proposer r ∈ U.
(** The referenda read as written, and none is stored from the next number on. *)
Record gov_ok (l : Ledger) : Prop := mkGovOk {
  gov_refs : forall id r, id ∈ R -> gov_referendum sha l id = Some r -> ref_ok r;
  gov_fresh : forall n, gov_next_id sha l = Done n -> forall id, id ∈ R -> n <= id -> gov_referendum sha l id = None
}.
Definition Inv (l : Ledger) : Prop := Stage l (open_deposits l) l /\ gov_ok l.

Lemma ref_in id : id ∈ R -> ref_string id ∈ book_keys.
Proof. intros H. apply elem_of_cons. right. by apply list_elem_of_fmap_2. Qed.
Lemma next_in : GOV_NEXT_TAG ∈ book_keys.
Proof. apply elem_of_cons. by left. Qed.
Lemma ref_string_inj i j : i ∈ R -> j ∈ R -> ref_string i = ref_string j -> i = j.
Proof using R_ids.
  intros Hi Hj H. apply (app_inv_head GOV_REF_TAG) in H. rewrite Forall_forall in R_ids.
  apply (f_equal from_le) in H. pose proof (R_ids _ Hi) as [? ?]. pose proof (R_ids _ Hj) as [? ?].
  rewrite !from_to_le in H; change (256 ^ Z.of_nat 8) with (2 ^ 64); lia.
Qed.
Lemma ref_not_next id : ref_string id <> GOV_NEXT_TAG.
Proof. intros H. discriminate H. Qed.

Lemma referendum_same l l' id : at_ l' (ref_string id) = at_ l (ref_string id) -> gov_referendum sha l' id = gov_referendum sha l id.
Proof. unfold at_string, gov_referendum, gov_referendum_key, ref_string. by intros ->. Qed.
Lemma next_same l l' : at_ l' GOV_NEXT_TAG = at_ l GOV_NEXT_TAG -> gov_next_id sha l' = gov_next_id sha l.
Proof. unfold at_string, gov_next_id, stake_singleton_key. by intros ->. Qed.

(** Everything that is held is in the leaves of [book_keys]. *)
Lemma held_same l l' : (forall x, x ∈ book_keys -> at_ l' x = at_ l x) -> open_deposits l' = open_deposits l /\ (gov_ok l -> gov_ok l').
Proof.
  intros E. assert (Er : forall id, id ∈ R -> gov_referendum sha l' id = gov_referendum sha l id).
  { intros id Hid. apply referendum_same, E, ref_in, Hid. }
  split.
  - unfold open_deposits. f_equal. apply map_ext_in. intros id Hid. by rewrite Er by (by apply list_elem_of_In).
  - intros [H1 H2]. split.
    + intros id r Hid. rewrite Er by done. by apply H1.
    + intros n Hn id Hid Hle. rewrite Er by done. rewrite (next_same l) in Hn by apply E, next_in. by apply (H2 n).
Qed.

Lemma open_deposit_nonneg r : (forall x, r = Some x -> ref_ok x) -> 0 <= open_deposit r.
Proof. destruct r as [r|]; [|done]. intros H. cbn. destruct (H r eq_refl) as ((_ & _ & [? _] & _) & _). case_bool_decide; lia. Qed.
Lemma open_deposits_nonneg l : gov_ok l -> 0 <= open_deposits l.
Proof.
  intros [H _]. apply zsum_nonneg, Forall_forall. intros x (id & -> & Hid)%list_elem_of_fmap. apply open_deposit_nonneg. intros r. by apply H.
Qed.
Lemma open_deposit_le l id : gov_ok l -> id ∈ R -> open_deposit (gov_referendum sha l id) <= open_deposits l.
Proof using R_nodup.
  intros H Hid. unfold open_deposits.
  pose proof (zsum_part (fun id => open_deposit (gov_referendum sha l id)) [id] R R_nodup (NoDup_singleton _)) as Hz.
  cbn [map] in Hz. change (zsum [?x]) with (x + 0) in Hz. rewrite Z.add_0_r in Hz. apply Hz.
  - by intros t ->%list_elem_of_singleton.
  - intros t Ht _. apply open_deposit_nonneg. intros r. by apply H.
Qed.

(** ** Writing a referendum *)

Lemma ref_readable r : ref_ok r -> stored_leaf referendum_from_stored (Some (to_bytes Referendum_codec r)) = Some r.
Proof using U_ids.
  intros [Hv Hp]. rewrite Forall_forall in U_ids. specialize (U_ids _ Hp).
  destruct (stored_referendum_read_back r Hv) as [E _]; [unfold len; by rewrite U_ids|].
  assert (Hne : to_bytes Referendum_codec r <> []).
  { unfold Referendum_codec, Referendum_encode. codec_image. intros H. apply (f_equal length) in H.
    rewrite length_app in H. change (to_bytes u64_codec ?z) with (to_le 8 z) in H. rewrite length_to_le in H. cbn in H. lia. }
  unfold stored_leaf. destruct (to_bytes Referendum_codec r); [done|exact E].
Qed.

(** One referendum is replaced, the others are as they were. *)
Definition replaced (id : Z) (r : Referendum) (l0 l : Ledger) : Prop :=
  gov_referendum sha l id = Some r /\ (forall j, j ∈ R -> j <> id -> gov_referendum sha l j = gov_referendum sha l0 j) /\
  at_ l GOV_NEXT_TAG = at_ l0 GOV_NEXT_TAG.

Lemma wlp_set_ref l0 f l id r (Q : unit -> Ledger -> Prop) : Stage l0 f l -> id ∈ R -> ref_ok r ->
  (forall l', Stage l' f l' -> replaced id r l0 l' -> Q tt l') -> wlp (set_gov_referendum sha id r) Q l.
Proof using K_apart R_ids U_ids.
  intros HB Hid Hr HQ. apply (wlp_book l0 f l (ref_string id)); [done|by apply ref_in|]. intros l' HB' E.
  apply HQ; [done|]. split_and!.
  - specialize (E _ (ref_in id Hid)). rewrite decide_True in E by done. unfold gov_referendum.
    change (get_leaf l' (gov_referendum_key sha id)) with (at_ l' (ref_string id)). rewrite E. by apply ref_readable.
  - intros j Hj Hne. apply referendum_same. rewrite (E _ (ref_in j Hj)), decide_False; [done|].
    intros He. by apply Hne, ref_string_inj.
  - rewrite (E _ next_in), decide_False; [done|]. intros H. by apply (ref_not_next id).
Qed.

Lemma replaced_deposits id r l0 l : id ∈ R -> replaced id r l0 l ->
  open_deposits l = open_deposits l0 - open_deposit (gov_referendum sha l0 id) + open_deposit (Some r).
Proof using R_nodup.
  intros Hid (E1 & E2 & _). unfold open_deposits.
  rewrite (zsum_update (fun j => open_deposit (gov_referendum sha l0 j)) (fun j => open_deposit (gov_referendum sha l j)) R id);
    [by rewrite E1|done|done|]. intros j Hj Hne. by rewrite E2.
Qed.
Lemma replaced_refs id r l0 l : replaced id r l0 l -> ref_ok r -> gov_ok l0 ->
  forall j x, j ∈ R -> gov_referendum sha l j = Some x -> ref_ok x.
Proof.
  intros (E1 & E2 & _) Hr H j x Hj. destruct (decide (j = id)) as [->|Hne]; [rewrite E1; by intros [= <-]|].
  rewrite E2 by done. by apply H.
Qed.
(** Replacing a referendum that is there. *)
Lemma replaced_ok id r r0 l0 l : replaced id r l0 l -> ref_ok r -> gov_ok l0 -> id ∈ R -> gov_referendum sha l0 id = Some r0 -> gov_ok l.
Proof.
  intros Hrep Hr H Hid E0. split; [by eapply replaced_refs|]. destruct Hrep as (E1 & E2 & E3). intros n Hn j Hj Hle.
  rewrite (next_same l0) in Hn by done. destruct (decide (j = id)) as [->|Hne]; [|rewrite E2 by done; by apply (gov_fresh _ H n)].
  pose proof (gov_fresh _ H n Hn id Hid Hle). congruence.
Qed.
Lemma replaced_inv id r r0 l0 l f : replaced id r l0 l -> Stage l f l -> ref_ok r -> gov_ok l0 -> id ∈ R -> gov_referendum sha l0 id = Some r0 ->
  f = open_deposits l0 - open_deposit (Some r0) + open_deposit (Some r) -> Inv l.
Proof using R_nodup.
  intros Hrep HB Hr H Hid E0 Hf. split; [|by eapply replaced_ok].
  rewrite (replaced_deposits id r l0 l Hid Hrep), E0, <- Hf. done.
Qed.
(** What is left of an operation once the books balance. *)
Lemma stage_inv l0 l : Stage l0 (open_deposits l0) l -> gov_ok l0 -> Inv l.
Proof.
  intros HB H. destruct (held_same l0 l) as [E Hok]; [by intros x Hx; eapply stage_at|]. split; [|by apply Hok].
  rewrite E. by eapply books_snap.
Qed.

(** ** The operations *)

Definition referendum_strings (id : Z) : list (list byte) :=
  [GOV_ACTION_TAG ++ to_le 8 id; GOV_RECEIPT_TAG ++ to_le 8 id; GOV_ELECTORATE_TAG ++ to_le 8 id] ++
  map (fun voter => GOV_BALLOT_TAG ++ to_le 8 id ++ voter) U.
Context (W_singles : forall x, x ∈ [GOV_LOCKED_TAG; GOV_GUARDIAN_FREEZE_TARGETS_TAG] -> x ∈ W).
Context (W_refs : forall id x, id ∈ R -> x ∈ referendum_strings id -> x ∈ W).

Lemma W_ref id x : id ∈ R -> x ∈ [GOV_ACTION_TAG ++ to_le 8 id; GOV_RECEIPT_TAG ++ to_le 8 id; GOV_ELECTORATE_TAG ++ to_le 8 id] -> x ∈ W.
Proof using W_refs. intros Hid Hx. apply (W_refs id); [done|]. apply elem_of_app. by left. Qed.
Lemma W_ballot id voter : id ∈ R -> voter ∈ U -> GOV_BALLOT_TAG ++ to_le 8 id ++ voter ∈ W.
Proof using W_refs.
  intros Hid Hv. apply (W_refs id); [done|]. apply elem_of_app. right. apply list_elem_of_fmap. by exists voter.
Qed.

Lemma u64_decoded o v d : u64 d -> obind (decode_some u64_codec o) (fun x => Done (default d x)) = Done v -> u64 v.
Proof.
  intros Hd. unfold decode_some. destruct o as [[|b bs]|]; cbn; try (by intros [= <-]). unfold expect_decoded.
  destruct (from_bytes u64_codec (b :: bs)) as [x|] eqn:E; [|done]. cbn. intros [= <-].
  by apply from_bytes_canonical in E as [H _]; [|apply _].
Qed.
Lemma Track_deposit_u64 t : u64 (Track_deposit t).
Proof. by destruct t. Qed.

Lemma next_written l n : u64 n -> at_ l GOV_NEXT_TAG = Some (to_bytes u64_codec n) -> gov_next_id sha l = Done n.
Proof.
  intros Hn E. unfold gov_next_id, decode_or. change (get_leaf l (stake_singleton_key sha GOV_NEXT_TAG)) with (at_ l GOV_NEXT_TAG).
  rewrite E. apply (expect_decoded_encoded u64_codec n Hn (to_bytes_u64_fits n)).
Qed.

Lemma gov_propose_inv l a t act now : Inv l -> in_play U a -> u64 now -> (forall n, gov_next_id sha l = Done n -> n ∈ R) ->
  wlp (gov_propose sha a t act now) (fun _ => Inv) l.
Proof using U_nodup U_apart U_ids U_grants R_nodup R_ids K_apart W_quiet W_refs W_singles.
  intros HI (pid & Ha & Hpid) Hnow Hnext. pose proof HI as [HB Hok]. unfold gov_propose.
  case_step; [by apply wlp_ret|]. case_step; [by apply wlp_ret|]. rewrite Ha. apply wlp_bind, wlp_ask. intros dep Hdep.
  assert (Hd : u64 dep) by (eapply u64_decoded; [apply (Track_deposit_u64 t)|exact Hdep]).
  apply wlp_bind, wlp_asks. destruct (Z.ltb_spec (acc_balance (account l a)) dep); [by apply wlp_ret|].
  apply wlp_bind. eapply wlp_pay_out; [exact HB|exact Ha|done|unfold in_width in *; lia|]. intros l1 HB1.
  apply wlp_bind, wlp_ask. intros id Eid. rewrite (next_same l) in Eid by (eapply stage_at; [exact HB1|apply next_in]).
  pose proof (Hnext id Eid) as Hid. pose proof (gov_fresh _ Hok id Eid id Hid ltac:(lia)) as Efresh.
  assert (Hr : ref_ok (Referendum_open id t pid now dep)).
  { split; [|done]. rewrite Forall_forall in R_ids. rewrite Forall_forall in U_ids. unfold Referendum_valid, Referendum_open. cbn.
    unfold len. rewrite (U_ids _ Hpid). split_and!; try done. by apply R_ids. }
  apply wlp_bind, (wlp_set_ref l _ l1 id _ _ HB1 Hid Hr). intros l2 HB2 Hrep.
  apply wlp_bind. eapply wlp_quiet; [exact HB2|apply (W_ref id); [done|set_solver]|]. intros l3 HB3.
  apply wlp_bind, wlp_ask. intros live _. apply wlp_bind. eapply wlp_quiet; [exact HB3|apply (W_ref id); [done|set_solver]|]. intros l4 HB4.
  apply wlp_bind, wlp_lift. intros next Enx. unfold panicking_add, checked_add in Enx.
  destruct (Z.ltb_spec (id + 1) (2 ^ 64)); [|done]. injection Enx as <-.
  apply wlp_bind. eapply wlp_book; [exact HB4|apply next_in|]. intros l5 HB5 E5.
  eapply wlp_event; [exact HB5|]. intros l6 HB6. apply wlp_ret.
  assert (En : at_ l5 GOV_NEXT_TAG = Some (to_bytes u64_codec (id + 1))) by (rewrite (E5 _ next_in); by rewrite decide_True).
  assert (Er : forall j, j ∈ R -> gov_referendum sha l5 j = gov_referendum sha l2 j).
  { intros j Hj. apply referendum_same. rewrite (E5 _ (ref_in j Hj)), decide_False; [done|apply ref_not_next]. }
  assert (Eo : open_deposits l5 = open_deposits l + dep).
  { assert (open_deposits l5 = open_deposits l2) as ->.
    { unfold open_deposits. f_equal. apply map_ext_in. intros j Hj. by rewrite Er by (by apply list_elem_of_In). }
    rewrite (replaced_deposits id _ l l2 Hid Hrep), Efresh. unfold open_deposit. cbn [Referendum_open status deposit].
    rewrite bool_decide_eq_true_2 by done. lia. }
  apply (stage_inv l5 l6); [by rewrite Eo|]. split.
  - intros j x Hj. rewrite Er by done. by apply (replaced_refs id _ l l2 Hrep Hr Hok).
  - intros n Hn j Hj Hle. assert (Hu : u64 (id + 1)) by (rewrite Forall_forall in R_ids; pose proof (R_ids _ Hid); unfold in_width in *; lia).
    rewrite (next_written l5 (id + 1) Hu En) in Hn. injection Hn as <-. rewrite Er by done.
    destruct Hrep as (_ & E2 & _). rewrite E2 by (done || lia). apply (gov_fresh _ Hok id Eid j Hj). lia.
Qed.

Lemma vote_open_cases l voter vid id stake now r : vote_open sha l voter vid id stake now = Done (Some r) ->
  gov_referendum sha l id = Some r /\ status r = Deciding /\ stake <= acc_balance (account l voter).
Proof.
  unfold vote_open. destruct (gov_referendum sha l id) as [x|]; [|done]. destruct (negb _ || _) eqn:Ed; [done|].
  apply orb_false_iff in Ed as [Ed _]. apply negb_false_iff, bool_decide_eq_true in Ed.
  destruct (gov_ballot _ _ _ _) as [[b|]|]; cbn; try done. destruct (stake_bond _ _ _) as [bond|]; cbn; [|done].
  destruct (match bond with Some b => _ | None => _ end); [done|]. destruct (Z.ltb_spec (acc_balance (account l voter)) stake); [done|].
  destruct (governance_stake_in_epoch _ _ _ _); cbn; [|done]. case_step; [done|]. by intros [= <-].
Qed.

Lemma cast_valid t aye c stake : Tally_valid t -> 0 <= stake -> Tally_valid (record_conviction t aye c stake).
Proof.
  intros (H1 & H2 & H3 & H4) Hs. pose proof (Conviction_weight_bound c stake Hs).
  unfold record_conviction, record_weighted, Tally_valid, in_width in *. destruct aye; cbn;
    split_and!; try lia; unfold saturating_add; lia.
Qed.

Lemma gov_vote_inv l voter id aye c stake now : Inv l -> in_play U voter -> u64 stake -> u64 now -> id ∈ R ->
  wlp (gov_vote sha voter id aye c stake now) (fun _ => Inv) l.
Proof using U_nodup U_apart U_ids U_grants R_nodup R_ids K_apart W_quiet W_refs W_singles.
  intros HI (vid & Ha & Hvid) Hs Hnow Hid. pose proof HI as [HB Hok]. pose proof (open_deposits_nonneg l Hok) as Hpos.
  unfold gov_vote. rewrite Ha. apply wlp_bind, wlp_ask. intros opened Eo. destruct opened as [r|]; [|by apply wlp_ret].
  apply vote_open_cases in Eo as (Er & Hst & Hbal). pose proof (gov_refs _ Hok id r Hid Er) as Hr.
  apply wlp_bind, wlp_asks, wlp_bind. eapply wlp_pay_out; [exact HB|exact Ha|done|unfold in_width in *; lia|]. intros l1 HB1.
  apply wlp_bind, wlp_ask. intros held Eh. pose proof (lock_coins l1 vid held Eh) as El.
  destruct (slot_bound sha U U_nodup _ 0 l1 (SLock vid) HB1) as [Hb1 Hb2]; [slot_in|done|]. cbn [coin] in Hb1. rewrite El in Hb1.
  assert (Hk : u64 (default 0 (option_map lock_amount held)) /\ u64 (until (default (mkLock 0 0) held))).
  { destruct held as [k|]; [by apply (lock_valid l1 vid k)|done]. }
  assert (Eam : lock_amount (default (mkLock 0 0) held) = default 0 (option_map lock_amount held)) by (by destruct held).
  destruct Hk as [Hk1 Hk2]. unfold lock_more. cbv zeta. rewrite Eam. unfold in_width in *. rewrite saturating_add_room by lia.
  apply wlp_bind. eapply wlp_set_lock; [exact HB1|done|cbn [lock_amount]; unfold in_width, U64_MAX in *; lia| |].
  { cbn [until]. assert (Hrel : u64 (Z.max (saturating_add 64 now (lock_seconds c)) (decides_at r))).
    { destruct Hr as [(_ & _ & _ & [? ?] & _) _]. assert (0 <= period_seconds (track r)) by (by destruct (track r)).
      unfold decides_at, saturating_add, in_width. assert (0 <= lock_seconds c) by (by destruct c). lia. }
    case_step; unfold in_width in *; lia. }
  cbn [lock_amount]. rewrite El. intros l2 HB2.
  match type of HB2 with Stage _ ?x _ => replace x with (open_deposits l) in HB2 by lia end.
  apply wlp_bind, wlp_ask. intros locked _. apply wlp_bind, wlp_lift. intros total _.
  apply wlp_bind. eapply wlp_quiet; [exact HB2|apply W_singles; set_solver|]. intros l3 HB3.
  assert (Hr' : ref_ok (with_tally r (record_conviction (tally r) aye c stake))).
  { destruct Hr as [(V1 & V2 & V3 & V4 & V5) Hp]. split; [|done]. split_and!; try done. apply cast_valid; [done|lia]. }
  apply wlp_bind, (wlp_set_ref l _ l3 id _ _ HB3 Hid Hr'). intros l4 HB4 Hrep.
  apply wlp_bind. eapply wlp_quiet; [exact HB4|by apply W_ballot|]. intros l5 HB5.
  eapply wlp_event; [exact HB5|]. intros l6 HB6. apply wlp_ret.
  destruct (replaced_inv id _ r l l4 _ Hrep HB4 Hr' Hok Hid Er) as [HB4' Hok4]; [cbn; lia|].
  apply (stage_inv l4 l6); [|done]. assert (E : open_deposits l4 = open_deposits l); [|by rewrite E].
  rewrite (replaced_deposits id _ l l4 Hid Hrep), Er. cbn. lia.
Qed.

Lemma resolve_keeps r now e : let r' := (resolve r now e).2 in
  Governance.proposer r' = Governance.proposer r /\ deposit r' = deposit r /\ status r' = (resolve r now e).1 /\ (Referendum_valid r -> Referendum_valid r').
Proof.
  unfold resolve. case_bool_decide as Hs; cbn [negb]; repeat case_step; cbn; by split_and!.
Qed.

Lemma gov_conclude_inv l id now : Inv l -> id ∈ R -> wlp (gov_conclude sha id now) (fun _ => Inv) l.
Proof using U_nodup U_apart U_ids U_grants R_nodup R_ids K_apart W_quiet W_refs W_singles.
  intros HI Hid. pose proof HI as [HB Hok]. unfold gov_conclude. apply wlp_bind, wlp_asks.
  destruct (gov_referendum sha l id) as [r|] eqn:Er; [|by apply wlp_ret]. case_bool_decide as Hst; cbn [negb]; [|by apply wlp_ret].
  apply wlp_bind, wlp_ask. intros live _. apply wlp_bind, wlp_ask. intros snapshot _. cbv zeta.
  pose proof (gov_refs _ Hok id r Hid Er) as [Hv Hp]. pose proof (open_deposit_le l id Hok Hid) as Hle. rewrite Er in Hle.
  unfold open_deposit in Hle. rewrite bool_decide_eq_true_2 in Hle by done.
  set (e := Z.max (default live snapshot) live). pose proof (resolve_keeps r now e) as (Ep & Ed & Es & Ev).
  destruct (resolve r now e) as [v r'] eqn:Ev'. cbn [fst snd] in *. case_bool_decide as Hdec; [by apply wlp_ret|].
  assert (Hr' : ref_ok r') by (split; [by apply Ev|by rewrite Ep]). destruct Hv as (_ & _ & [Hd _] & _). rewrite <- Ed in Hd, Hle.
  assert (Hend : forall l1, Stage l (open_deposits l - deposit r') l1 ->
    wlp (set_gov_referendum sha id r';; record_side_event (Side.GovTally id (status_kind v) (aye_stake (tally r')) (nay_stake (tally r')));;
      mret (Some v)) (fun _ => Inv) l1).
  { intros l1 HB1. apply wlp_bind, (wlp_set_ref l _ l1 id _ _ HB1 Hid Hr'). intros l2 HB2 Hrep.
    eapply wlp_event; [exact HB2|]. intros l3 HB3. apply wlp_ret.
    destruct (replaced_inv id r' r l l2 _ Hrep HB2 Hr' Hok Hid Er) as [HB2' Hok2].
    { unfold open_deposit. rewrite bool_decide_eq_true_2, bool_decide_eq_false_2 by (done || by rewrite Es). lia. }
    apply (stage_inv l2 l3); [|done]. assert (E : open_deposits l2 = open_deposits l - deposit r'); [|by rewrite E].
    rewrite (replaced_deposits id _ l l2 Hid Hrep), Er. unfold open_deposit.
    rewrite bool_decide_eq_true_2, bool_decide_eq_false_2 by (done || by rewrite Es). lia. }
  apply wlp_bind. case_step.
  - apply wlp_bind, wlp_lift. intros [addr|] Ha; [|by eapply wlp_credit_treasury].
    apply wlp_bind, wlp_asks. apply rendered_id in Ha. rewrite Ep in Ha.
    eapply wlp_pay_in; [exact HB|exact Ha|done|lia|exact Hend].
  - by eapply wlp_credit_treasury.
Qed.

Lemma gov_release_inv l voter now : Inv l -> in_play U voter -> wlp (gov_release sha voter now) (fun _ => Inv) l.
Proof using U_nodup U_apart U_ids U_grants R_nodup R_ids K_apart W_quiet W_refs W_singles.
  intros HI (vid & Ha & Hvid). pose proof HI as [HB Hok]. pose proof (open_deposits_nonneg l Hok) as Hpos.
  unfold gov_release. rewrite Ha. apply wlp_bind, wlp_ask. intros [k|] Eh; [|by apply wlp_ret].
  case_step; [by apply wlp_ret|]. pose proof (lock_coins l vid _ Eh) as El. cbn in El. destruct (lock_valid l vid k Eh) as [[Hk _] _].
  apply wlp_bind. eapply wlp_clear_lock; [exact HB|done|]. rewrite El. intros l1 HB1.
  apply wlp_bind, wlp_ask. intros locked _. apply wlp_bind. eapply wlp_quiet; [exact HB1|apply W_singles; set_solver|]. intros l2 HB2.
  eapply wlp_pay_in_then; [exact HB2|exact Ha|done|lia|]. intros l3 HB3. apply wlp_ret, (stage_inv l l3); [|done].
  by replace (open_deposits l + lock_amount k - lock_amount k) with (open_deposits l) in HB3 by lia.
Qed.

(** ** Enacted actions *)

#[local] Notation kept := (keys_of sha (book_keys ++ slot_strings)).

(** What writes none of these leaves leaves the books alone. *)
Lemma inv_keeps {A} (m : M A) l : Journaled m -> Keeps kept m -> Inv l -> wlp m (fun _ => Inv) l.
Proof.
  intros J K HI. pose proof HI as [HB Hok]. unfold wlp. specialize (J l). specialize (K l). destruct (m l) as [[a|] l']; [|done].
  cbn [snd] in *. destruct J as [_ _ _ Ep Eh _ Ee _]. destruct HB as [H1 H2 H3 H4 H5 H6].
  assert (E : forall s, s ∈ slots U -> leaf_at l' s = leaf_at l s).
  { intros s Hs. apply K. exists (slot_preimage s). split; [|done]. apply elem_of_app. right. by apply list_elem_of_In, in_map, list_elem_of_In. }
  assert (Et : forall w, total sha U w l' = total sha U w l).
  { intros w. unfold total. f_equal. apply map_ext_in. intros s Hs. by rewrite E by (by apply list_elem_of_In). }
  apply (stage_inv l l'); [|done]. constructor; rewrite ?Et, ?Ep, ?Eh, ?Ee; try done.
  - intros s Hs. rewrite E by done. by apply H1.
  - intros k (x & Hx & ->). apply K. exists x. split; [|done]. apply elem_of_app. by left.
Qed.

Lemma addressed id a : id_bytes_to_address id = Done (Some a) -> (length id = 32%nat -> id ∈ U) -> address_id a = Some id /\ id ∈ U.
Proof. intros Ha Hin. apply rendered_id in Ha. split; [done|]. apply Hin. by apply address_id_length in Ha. Qed.

Lemma enact_mint_inv l to amount now : Inv l -> (length to = 32%nat -> to ∈ U) -> 0 <= amount ->
  GOV_MINT_PERIOD_TAG ++ to_le 8 (now / YEAR_SECONDS) ∈ W -> wlp (enact_mint sha to amount now) (fun _ => Inv) l.
Proof using U_nodup U_apart U_ids U_grants R_nodup R_ids K_apart W_quiet W_refs W_singles.
  intros HI Hto Hamt Hper. pose proof HI as [HB Hok]. unfold enact_mint. apply wlp_bind, wlp_lift. intros [addr|] Ha; [|by apply wlp_ret].
  destruct (addressed to addr Ha Hto) as [Ha' Hid]. cbv zeta. apply wlp_bind, wlp_ask. intros already _.
  destruct (checked_add 128 already amount) as [after|]; [|by apply wlp_ret]. apply wlp_bind, wlp_asks.
  destruct (checked_add 64 (acc_balance (account l addr)) amount) as [bal|] eqn:Eb; [|by apply wlp_ret].
  apply checked_add_Some in Eb as [-> Hb]. apply wlp_bind, wlp_ask. intros supply Es.
  pose proof (single_read sha U _ 0 l SSupply HB eq_refl : total_supply sha l = _) as Es'. rewrite Es in Es'. injection Es' as ->.
  destruct (checked_add 64 _ amount) as [sup|] eqn:Eu; [|by apply wlp_ret]. apply checked_add_Some in Eu as [-> Hs].
  pose proof (leaf_u64_range (leaf_at l SSupply)) as Hr. destruct (account_u64 sha l addr) as (V1 & V2 & V3). unfold in_width in *.
  apply wlp_bind, wp_wlp. eapply (wp_set_account sha U U_nodup U_apart _ 0 l addr to); [exact HB|done|done| |done|by eapply nonce_floor|].
  { apply with_balance_valid; [done|]. unfold in_width. lia. }
  cbn [with_balance acc_balance]. intros l1 HB1 F1.
  assert (E1 : leaf_at l1 SSupply = leaf_at l SSupply) by (eapply frame_at; [exact F1|slot_in|done]).
  apply wlp_bind, wp_wlp. eapply (wp_set_supply sha U U_nodup U_apart _ 0 l1); [exact HB1|unfold in_width; lia|].
  rewrite E1. intros l2 HB2 _ _. assert (S2 : Stage l (open_deposits l) l2).
  { unfold Stage. match type of HB2 with LedgerCoins.Books _ _ _ ?x _ _ => replace x with (open_deposits l) in HB2 by lia end. done. }
  apply wlp_bind. eapply wlp_quiet; [exact S2|exact Hper|]. intros l3 S3. eapply wlp_native_event; [exact S3|]. intros l4 S4.
  eapply wlp_event; [exact S4|]. intros l5 S5. by apply wlp_ret, (stage_inv l l5).
Qed.

Lemma enact_spend_inv l from to amount : Inv l -> (length to = 32%nat -> to ∈ U) -> 0 <= amount ->
  wlp (enact_spend sha from to amount) (fun _ => Inv) l.
Proof using U_nodup U_apart U_ids U_grants R_nodup R_ids K_apart W_quiet W_refs W_singles.
  intros HI Hto Hamt. pose proof HI as [HB Hok]. pose proof (open_deposits_nonneg l Hok) as Hpos.
  unfold enact_spend. apply wlp_bind, wlp_lift. intros [addr|] Ha; [|by apply wlp_ret].
  destruct (addressed to addr Ha Hto) as [Ha' Hid]. destruct (id_from_slice from) as [fid|]; [|by apply wlp_ret]. cbv zeta.
  apply wlp_bind.
  assert (Hend : forall l1, Stage l (open_deposits l + amount) l1 ->
    wlp (acc ← asks (fun l => account l addr); set_account sha addr (with_balance acc (saturating_add 64 (acc_balance acc) amount));;
      record_side_event (Side.Spend (if bool_decide (fid = sha (ascii "qtv/gov/grants")) then ascii "gov/grants" else ascii "stake/treasury") addr amount);;
      mret (Ok tt : Result EnactError unit)) (fun _ => Inv) l1).
  { intros l1 S1. eapply wlp_pay_in_then; [exact S1|exact Ha'|done|lia|]. intros l2 S2. eapply wlp_event; [exact S2|]. intros l3 S3.
    apply wlp_ret, (stage_inv l l3); [|done]. by replace (open_deposits l + amount - amount) with (open_deposits l) in S3 by lia. }
  case_bool_decide as Hg.
  - destruct (grants_ok sha U U_ids U_grants) as (ga & Eg & Hga). apply wlp_bind, wlp_lift. rewrite Eg. intros ? [= <-].
    apply wlp_bind, wlp_asks. destruct (Z.ltb_spec (acc_balance (account l ga)) amount); [by apply wlp_ret, wlp_ret|].
    apply wlp_bind. eapply wlp_pay_out; [exact HB|exact Hga|done|lia|]. intros l1 S1. apply wlp_ret. by apply Hend.
  - case_bool_decide; [|by apply wlp_ret, wlp_ret]. apply wlp_bind, wlp_ask. intros t Et.
    pose proof (single_read sha U _ 0 l STreasury HB eq_refl : stake_treasury sha l = _) as Et'. rewrite Et in Et'. injection Et' as ->.
    pose proof (leaf_u64_range (leaf_at l STreasury)) as Hr. destruct (Z.ltb_spec (leaf_u64 (leaf_at l STreasury)) amount); [by apply wlp_ret, wlp_ret|].
    unfold in_width in Hr. apply wlp_bind, wp_wlp.
    eapply (wp_set_single sha U U_nodup U_apart _ 0 l STreasury); [exact HB|done|unfold in_width; lia|].
    cbn [coin stake_in]. rewrite leaf_u64_encoded by (unfold in_width; lia). intros l1 HB1 _ _. apply wlp_ret, Hend. unfold Stage.
    match type of HB1 with LedgerCoins.Books _ _ _ ?x _ _ => replace x with (open_deposits l + amount) in HB1 by lia end. done.
Qed.

(** ** Seizures *)

Lemma stage_room l0 f l : Stage l0 f l -> f <= U64_MAX.
Proof using U_nodup U_apart U_ids U_grants R_nodup R_ids K_apart W_quiet W_refs W_singles. intros HB. pose proof (supply_covers sha U U_nodup f 0 l HB). lia. Qed.

Lemma wlp_seize_bond l0 f l addr id rem (Q : Z -> Ledger -> Prop) : Stage l0 f l -> 0 <= f -> address_id addr = Some id -> id ∈ U ->
  0 <= rem -> (forall v l', 0 <= v -> Stage l0 (f + v) l' -> Q v l') -> wlp (seize_bond sha addr id rem) Q l.
Proof using U_nodup U_apart U_ids U_grants R_nodup R_ids K_apart W_quiet W_refs W_singles.
  intros HB Hf Ha Hid Hrem HQ. unfold seize_bond. apply wlp_bind, wlp_ask. intros ob Eo.
  destruct (bond_read sha U f 0 l id HB Hid) as (ob' & Eo' & Hob & Ham). rewrite Eo in Eo'. injection Eo' as <-.
  assert (H0 : Q 0 l) by (apply HQ; [done|by rewrite Z.add_0_r]).
  destruct ob as [b|]; [|by apply wlp_ret]. cbv zeta. change (default 0 (option_map amount (Some b))) with (amount b) in Ham.
  pose proof (bond_amount_range (leaf_at l (SBond id))) as [Hb _]. rewrite Ham in Hb.
  set (v := Z.min (amount b) rem). destruct (Z.ltb_spec 0 v); cbn [negb]; [|by apply wlp_ret].
  pose proof (bonds_bound _ _ _ U_nodup f 0 l [id] HB (NoDup_singleton _)) as Hbb.
  cbn [map] in Hbb. change (zsum [?x]) with (x + 0) in Hbb.
  specialize (Hbb ltac:(by intros ? ->%list_elem_of_singleton)). rewrite Ham in Hbb.
  apply wlp_bind, wp_wlp. eapply (wp_clear_bond sha U U_nodup U_apart f 0 l id); [exact HB|done|]. rewrite Ham. intros l1 HB1 F1.
  assert (E : leaf_at l1 STotal = leaf_at l STotal) by (eapply frame_at; [exact F1|slot_in|done]).
  apply wlp_bind, wp_wlp. eapply (wp_debit_staked sha U U_nodup U_apart _ _ l1 (amount b)); [exact HB1|rewrite E; lia|].
  replace (0 - amount b + amount b) with 0 by lia. intros l2 HB2 _.
  apply wlp_bind. destruct (Z.ltb_spec 0 (amount b - v)).
  - apply wlp_bind, wlp_asks. eapply wlp_pay_in; [exact HB2|exact Ha|done|lia|]. intros l3 S3. apply wlp_ret, HQ; [lia|].
    by replace (f + amount b - (amount b - v)) with (f + v) in S3 by lia.
  - apply wlp_ret, wlp_ret, HQ; [lia|]. unfold Stage. replace (f + v) with (f + amount b) by lia. done.
Qed.

Lemma wlp_seize_lock l0 f l id still (Q : Z -> Ledger -> Prop) : Stage l0 f l -> id ∈ U -> 0 <= still ->
  (forall v l', 0 <= v -> Stage l0 (f + v) l' -> Q v l') -> wlp (seize_lock sha id still) Q l.
Proof using U_nodup U_apart U_ids U_grants R_nodup R_ids K_apart W_quiet W_refs W_singles.
  intros HB Hid Hst HQ. unfold seize_lock. apply wlp_bind, wlp_ask. intros ok Ek. pose proof (lock_coins l id ok Ek) as El.
  assert (H0 : Q 0 l) by (apply HQ; [done|by rewrite Z.add_0_r]).
  destruct ok as [k|]; [|by apply wlp_ret]. cbn in El. destruct (lock_valid l id k Ek) as [[Hk1 Hk2] Hu]. cbv zeta.
  set (v := Z.min (lock_amount k) still). destruct (Z.ltb_spec 0 v); cbn [negb]; [|by apply wlp_ret].
  assert (Hend : forall l1, Stage l0 (f + v) l1 ->
    wlp (locked ← ask (gov_total_locked sha); set_gov_total_locked sha (saturating_sub locked v);; mret v) Q l1).
  { intros l1 S1. apply wlp_bind, wlp_ask. intros locked _. apply wlp_bind.
    eapply wlp_quiet; [exact S1|apply W_singles; set_solver|]. intros l2 S2. apply wlp_ret, HQ; [lia|done]. }
  apply wlp_bind. destruct (Z.eqb_spec (lock_amount k - v) 0).
  - eapply wlp_clear_lock; [exact HB|done|]. rewrite El. intros l1 S1. apply Hend.
    by replace (f + lock_amount k) with (f + v) in S1 by lia.
  - eapply wlp_set_lock; [exact HB|done|cbn [lock_amount]; unfold in_width; lia|exact Hu|]. cbn [lock_amount]. rewrite El. intros l1 S1.
    apply Hend. by replace (f + lock_amount k - (lock_amount k - v)) with (f + v) in S1 by lia.
Qed.

Lemma wlp_seize l0 f l addr s (Q : Z -> Ledger -> Prop) : Stage l0 f l -> 0 <= f -> address_id addr = Some (seizure_from s) ->
  seizure_from s ∈ U -> 0 <= seizure_amount s -> (forall v l', 0 <= v -> Stage l0 (f + v) l' -> Q v l') -> wlp (seize sha addr s) Q l.
Proof using U_nodup U_apart U_ids U_grants R_nodup R_ids K_apart W_quiet W_refs W_singles.
  intros HB Hf Ha Hid Hs HQ. unfold seize. apply wlp_bind, wlp_asks. cbv zeta. destruct (account_u64 sha l addr) as (_ & [Hb _] & _).
  set (take := Z.min (acc_balance (account l addr)) (seizure_amount s)).
  apply wlp_bind. eapply (wlp_pay_out l0 f l addr _ take); [exact HB|exact Ha|done|lia|]. intros l1 S1.
  assert (H1 : wlp (mret take) Q l1) by (apply wlp_ret, HQ; [lia|done]).
  destruct (Z.ltb_spec 0 (seizure_amount s - take)); cbn [negb]; [|done].
  destruct (id_from_slice (seizure_from s)) as [x|] eqn:Ex; [|done].
  assert (x = seizure_from s) as -> by (unfold id_from_slice in Ex; case_match; congruence).
  apply wlp_bind, wlp_asks. destruct (negb _); [done|].
  apply wlp_bind, (wlp_seize_bond l0 (f + take) l1 addr (seizure_from s)); [exact S1|lia|done|done|lia|]. intros v l2 Hv S2.
  pose proof (stage_room _ _ _ S2). rewrite saturating_add_room by lia. replace (f + take + v) with (f + (take + v)) in S2 by lia.
  destruct (Z.ltb_spec 0 (saturating_sub (seizure_amount s) (take + v))); cbn [negb]; [|apply wlp_ret, HQ; [lia|done]].
  apply wlp_bind. eapply wlp_seize_lock; [exact S2|done|lia|]. intros w l3 Hw S3. pose proof (stage_room _ _ _ S3). apply wlp_ret.
  rewrite saturating_add_room by lia. apply HQ; [lia|]. by replace (f + (take + v + w)) with (f + (take + v) + w) by lia.
Qed.

Lemma wlp_seize_all l0 f l victim scope ss recovered (Q : Z -> Ledger -> Prop) : Stage l0 (f + recovered) l -> 0 <= f -> 0 <= recovered ->
  (forall s, s ∈ ss -> (length (seizure_from s) = 32%nat -> seizure_from s ∈ U) /\ 0 <= seizure_amount s) ->
  (forall v l', 0 <= v -> Stage l0 (f + v) l' -> Q v l') -> wlp (seize_all sha victim scope ss recovered) Q l.
Proof using U_nodup U_apart U_ids U_grants R_nodup R_ids K_apart W_quiet W_refs W_singles.
  intros HB Hf. revert recovered l HB. induction ss as [|s ss IH]; intros recovered l HB Hrec Hss HQ; cbn [seize_all]; [by apply wlp_ret, HQ|].
  destruct (Hss s ltac:(by left)) as [Hid Hamt].
  assert (Hss' : forall s, s ∈ ss -> (length (seizure_from s) = 32%nat -> seizure_from s ∈ U) /\ 0 <= seizure_amount s) by (intros; apply Hss; by right).
  apply wlp_bind, wlp_lift. intros [addr|] Ha; [|by apply IH]. destruct (addressed _ addr Ha Hid) as [Ha' Hid'].
  apply wlp_bind. eapply wlp_seize; [exact HB|lia|exact Ha'|done|done|]. intros v l1 Hv S1. pose proof (stage_room _ _ _ S1).
  eapply wlp_event; [exact S1|]. intros l2 S2. rewrite saturating_add_room by lia. apply IH; [|lia|done|done].
  by replace (f + (recovered + v)) with (f + recovered + v) by lia.
Qed.

Lemma enact_recovery_inv l scope victim ss : Inv l -> (length victim = 32%nat -> victim ∈ U) ->
  (forall s, s ∈ ss -> (length (seizure_from s) = 32%nat -> seizure_from s ∈ U) /\ 0 <= seizure_amount s) ->
  wlp (enact_recovery sha scope victim ss) (fun _ => Inv) l.
Proof using U_nodup U_apart U_ids U_grants R_nodup R_ids K_apart W_quiet W_refs W_singles.
  intros HI Hv Hss. pose proof HI as [HB Hok]. pose proof (open_deposits_nonneg l Hok) as Hpos.
  unfold enact_recovery. apply wlp_bind, wlp_lift. intros [addr|] Ha; [|by apply wlp_ret]. destruct (addressed _ addr Ha Hv) as [Ha' Hid].
  apply wlp_bind, (wlp_seize_all l (open_deposits l)); [by rewrite Z.add_0_r|done|done|done|]. intros v l1 Hv0 S1.
  eapply wlp_pay_in_then; [exact S1|exact Ha'|done|lia|]. intros l2 S2.
  replace (open_deposits l + v - v) with (open_deposits l) in S2 by lia. eapply wlp_event; [exact S2|]. intros l3 S3.
  apply wlp_bind. unfold guardian_freeze_forget. apply wlp_bind, wlp_asks.
  eapply wlp_quiet; [exact S3|apply W_singles; set_solver|]. intros l4 S4. by apply wlp_ret, (stage_inv l l4).
Qed.

(** ** Every action *)

Definition stop_of (id : list byte) : list byte := GOV_STOPPED_ASSET_TAG ++ asset_id_of sha id.
(** The strings an action writes to besides the slots. *)
Definition action_strings (now : Z) (a : Action) : list (list byte) :=
  match a with
  | Mint _ _ => [GOV_MINT_PERIOD_TAG ++ to_le 8 (now / YEAR_SECONDS)]
  | SetParameter _ _ => [STAKE_PRICE_TAG; BRIDGE_GATEWAY_TAG; BRIDGE_EXITS_TAG; BRIDGE_PAYOUTCAP_TAG] ++
      map (fun t => GOV_DEPOSIT_TAG ++ [byte_of (Track_code t)]) Track_all
  | Blacklist target => map stop_of (whole_ids [target])
  | Freeze targets | Unfreeze targets =>
      map (fun id => GOV_FREEZE_TAG ++ id) (whole_ids targets) ++ map stop_of (whole_ids targets)
  | GuardianRotate _ => [GOV_GUARDIAN_TAG]
  | CommitteeRotate _ | OperatorRevoke _ => [BRIDGE_OPERATORS_TAG]
  | AssetRegister asset_id _ _ _ => [BRIDGE_ASSET_TAG ++ asset_id; BRIDGE_ASSET_LIST_TAG]
  | EpochAdvance => [BRIDGE_EPOCH_TAG]
  | Activate feature _ => [GOV_FEATURE_TAG ++ feature]
  | _ => []
  end.
(** The accounts it names are in play.  The two actions that move the bond of a frozen
    bridge or the custody of its vaults are not covered. *)
Definition action_ready (now : Z) (a : Action) : Prop :=
  (forall x, x ∈ action_strings now a -> x ∈ W) /\
  match a with
  | Mint to amount | Spend _ to amount => (length to = 32%nat -> to ∈ U) /\ 0 <= amount
  | Blacklist target => length target = 32%nat -> target ∈ U
  | FreezeRecovery _ victim ss => (length victim = 32%nat -> victim ∈ U) /\
      forall s, s ∈ ss -> (length (seizure_from s) = 32%nat -> seizure_from s ∈ U) /\ 0 <= seizure_amount s
  | BridgeMigration _ | BridgeUnfreeze => False
  | _ => True
  end.

Lemma quiet_key x : x ∈ W -> ~ kept (sha x).
Proof using W_quiet. apply W_quiet. Qed.

Lemma quiet_targets each event targets (H : forall id, id ∈ whole_ids targets -> Keeps kept (each id)) :
  Keeps kept (on_targets sha each event targets).
Proof using U_nodup U_apart U_ids U_grants R_nodup R_ids K_apart W_quiet W_refs W_singles.
  unfold on_targets. apply keeps_bind.
  - apply keeps_for_each. intros id Hid. apply keeps_bind; [by apply H|]. intros _. keeping.
  - intros _. unfold guardian_freeze_forget, write_guardian_freeze_entries. keeping. apply quiet_key, W_singles. set_solver.
Qed.

Lemma u64_from_le_range bs v : u64_from_le bs = Some v -> u64 v.
Proof.
  unfold u64_from_le. destruct (Nat.eqb_spec (length bs) 8) as [E|]; [|done]. intros [= <-].
  pose proof (from_le_range bs) as H. rewrite E in H. exact H.
Qed.

Lemma freeze_keeps id : GOV_FREEZE_TAG ++ id ∈ W -> stop_of id ∈ W -> Keeps kept (set_frozen sha id) /\ Keeps kept (clear_frozen sha id).
Proof using W_quiet.
  intros H1%quiet_key H2%quiet_key. unfold set_frozen, clear_frozen, record_stopped, forget_stopped. split; keeping; done.
Qed.

(** Settings of the staking clock: the slots hold no coins. *)
Lemma mainnet_inv l value now : Inv l -> wlp (set_mainnet_parameter sha value now) (fun _ => Inv) l.
Proof using U_nodup U_apart U_ids U_grants R_nodup R_ids K_apart W_quiet W_refs W_singles.
  intros HI. pose proof HI as [HB Hok]. unfold set_mainnet_parameter. destruct (u64_from_le value) as [day|] eqn:Ed; [|by apply wlp_ret].
  apply u64_from_le_range in Ed. apply wlp_bind, wlp_ask. intros start _. case_step; [by apply wlp_ret|]. case_step; [by apply wlp_ret|].
  apply wlp_bind. eapply (wlp_slot l _ l SMainnet); [exact HB|slot_in| |done|].
  { exists day. split; [|done]. apply (expect_decoded_encoded u64_codec day Ed (to_bytes_u64_fits day)). }
  cbn [coin]. intros l1 S1. apply wlp_bind. eapply (wlp_slot l _ l1 SMeter); [exact S1|slot_in| |done|].
  { exists (SessionMeter_new day). split; [|done].
    apply (expect_decoded_encoded SessionMeter_codec (SessionMeter_new day)); [done|apply meter_fits]. }
  cbn [coin]. intros l2 S2. apply wlp_ret, (stage_inv l l2); [|done].
  by replace (open_deposits l + 0 - 0 + 0 - 0) with (open_deposits l) in S2 by lia.
Qed.

Lemma blacklist_inv l target : Inv l -> (length target = 32%nat -> target ∈ U) -> (forall x, x ∈ map stop_of (whole_ids [target]) -> x ∈ W) ->
  wlp (enact_blacklist sha target) (fun _ => Inv) l.
Proof using U_nodup U_apart U_ids U_grants R_nodup R_ids K_apart W_quiet W_refs W_singles.
  intros HI Hin HW. pose proof HI as [HB Hok]. unfold enact_blacklist, id_from_slice, KEY_LEN. unfold whole_ids in HW. rewrite filter_cons in HW.
  destruct (Nat.eqb_spec (length target) 32) as [Hl|]; cbn [negb]; [|by apply wlp_ret]. rewrite decide_True in HW by done.
  pose proof (Hin Hl) as Hid. apply wlp_bind, wlp_bind.
  eapply (wlp_slot l _ l (SBlacklist target)); [exact HB|slot_in|done|done|]. cbn [coin]. intros l1 S1.
  replace (open_deposits l + 0 - 0) with (open_deposits l) in S1 by lia.
  eapply wlp_quiet; [exact S1|apply HW; by left|]. intros l2 S2.
  apply wlp_bind, wlp_lift. intros [addr|] _; apply wlp_bind; [|by apply wlp_ret, wlp_ret, (stage_inv l l2)].
  change (wlp (mret (Ok tt : Result EnactError unit)) (fun _ => Inv) (record_side_event (Side.Blacklist addr) l2).2).
  apply wlp_ret, (stage_inv l); [|done]. by eapply books_events.
Qed.

Lemma parameter_inv l key value now : Inv l -> (forall x, x ∈ action_strings now (SetParameter key value) -> x ∈ W) ->
  wlp (apply_parameter sha key value now) (fun _ => Inv) l.
Proof using U_nodup U_apart U_ids U_grants R_nodup R_ids K_apart W_quiet W_refs W_singles.
  intros HI HW. cbn [action_strings] in HW. unfold apply_parameter.
  assert (HK : forall x, x ∈ [STAKE_PRICE_TAG; BRIDGE_GATEWAY_TAG; BRIDGE_EXITS_TAG; BRIDGE_PAYOUTCAP_TAG] -> ~ kept (sha x)).
  { intros x Hx. apply quiet_key, HW, elem_of_app. by left. }
  destruct (decide (key = ascii "mainnet_start")) as [->|Hne].
  - rewrite bool_decide_eq_false_2 by (intros H; discriminate H). rewrite bool_decide_eq_true_2 by done. by apply mainnet_inv.
  - pose proof (bool_decide_eq_false_2 _ Hne) as Em. rewrite Em. apply inv_keeps; [|unfold set_deposit_parameter|done].
    + pose proof (journaled_parameter sha key value now) as J. unfold apply_parameter in J. by rewrite Em in J.
    + autounfold with gov. keeping; try (apply HK; rewrite !elem_of_cons; tauto).
      apply quiet_key, HW, elem_of_app. right. apply list_elem_of_fmap. eexists. split; [reflexivity|]. destruct t; unfold Track_all; rewrite !elem_of_cons; tauto.
Qed.

Context (PUBLIC_KEY_BYTES SIGNATURE_BYTES : nat).
Context (ml_verify : list byte -> list byte -> list byte -> list byte -> bool).
#[local] Notation execute := (execute_action sha PUBLIC_KEY_BYTES SIGNATURE_BYTES ml_verify).

(** The actions that touch no coins. *)
Lemma settings_keep a now chain_id : action_ready now a ->
  match a with Mint _ _ | Spend _ _ _ | Blacklist _ | FreezeRecovery _ _ _ | SetParameter _ _ => False | _ => True end ->
  Keeps kept (execute a now chain_id).
Proof using U_nodup U_apart U_ids U_grants R_nodup R_ids K_apart W_quiet W_refs W_singles.
  intros [HW Hr] Ha. assert (HK : forall x, x ∈ action_strings now a -> ~ kept (sha x)) by (intros x Hx; by apply quiet_key, HW).
  destruct a; try (exfalso; exact Ha || exact Hr); cbn [execute_action action_strings] in HW, HK |- *.
  all: try (apply quiet_targets; intros id Hid; apply freeze_keeps; apply HW, elem_of_app; [left|right]; by apply list_elem_of_fmap_2).
  all: unfold enact_committee, enact_revoke, enact_asset_register, enact_epoch_advance, enact_activate.
  all: autounfold with gov; keeping; apply HK; rewrite !elem_of_cons; tauto.
Qed.

Lemma execute_action_inv l a now chain_id : Inv l -> action_ready now a -> wlp (execute a now chain_id) (fun _ => Inv) l.
Proof using U_nodup U_apart U_ids U_grants R_nodup R_ids K_apart W_quiet W_refs W_singles.
  intros HI Hr. pose proof (settings_keep a now chain_id Hr) as HK.
  assert (HQ : Keeps kept (execute a now chain_id) -> wlp (execute a now chain_id) (fun _ => Inv) l).
  { intros K. apply inv_keeps; [apply journaled_action|done|done]. }
  destruct Hr as [HW Hr]. destruct a; try (apply HQ, HK; exact I); cbn [execute_action].
  all: lazymatch goal with
  | |- wlp (enact_mint _ _ _ _) _ _ => destruct Hr; apply enact_mint_inv; [done..|apply HW; by left]
  | |- wlp (enact_spend _ _ _ _) _ _ => destruct Hr; by apply enact_spend_inv
  | |- wlp (enact_blacklist _ _) _ _ => by apply blacklist_inv
  | |- wlp (enact_recovery _ _ _ _) _ _ => destruct Hr; by apply enact_recovery_inv
  | |- _ => idtac end.
  apply wlp_bind. eapply wlp_mono; [|by apply parameter_inv]. intros [u|e] l1 HI1; [|by apply wlp_ret].
  destruct HI1 as [S1 O1]. eapply wlp_event; [exact S1|]. intros l2 S2. by apply wlp_ret, (stage_inv l1 l2).
Qed.

(** ** Enactment *)

Lemma inv_quiet l x v {A} (k : M A) Q : Inv l -> x ∈ W -> (forall l', Inv l' -> wlp k Q l') -> wlp (write_leaf (sha x) v;; k) Q l.
Proof using W_quiet.
  intros [S O] Hx HQ. apply wlp_bind. eapply wlp_quiet; [exact S|done|]. intros l1 S1. apply HQ. by apply (stage_inv l l1).
Qed.

(** The action about to be enacted is ready. *)
Definition enact_ready (l : Ledger) (id now : Z) : Prop :=
  forall verdict lc a, gov_conclude sha id now l = (Done verdict, lc) -> gov_action sha lc id = Done (Some a) -> action_ready now a.

Lemma gov_enact_inv l id now chain_id : Inv l -> id ∈ R -> enact_ready l id now ->
  wlp (gov_enact sha PUBLIC_KEY_BYTES SIGNATURE_BYTES ml_verify id now chain_id) (fun _ => Inv) l.
Proof using U_nodup U_apart U_ids U_grants R_nodup R_ids K_apart W_quiet W_refs W_singles.
  intros HI Hid Hready. unfold gov_enact. apply wlp_bind. pose proof (gov_conclude_inv l id now HI Hid) as HC.
  unfold wlp in HC |- *. destruct (gov_conclude sha id now l) as [[verdict|] lc] eqn:Ec; [|done].
  match goal with |- match ?m lc with _ => _ end => change (wlp m (fun _ => Inv) lc) end.
  destruct verdict as [v|]; [|by apply wlp_ret]. destruct (negb _); [by apply wlp_ret|]. apply wlp_bind, wlp_ask. intros oa Ea.
  destruct oa as [a|]; [|by apply wlp_ret]. specialize (Hready _ _ _ Ec Ea). apply wlp_bind, wlp_asks.
  destruct (gov_referendum sha lc id) as [r|]; [|by apply wlp_ret].
  assert (HA : GOV_ACTION_TAG ++ to_le 8 id ∈ W /\ GOV_RECEIPT_TAG ++ to_le 8 id ∈ W).
  { split; apply (W_ref id); try done; rewrite !elem_of_cons; tauto. }
  destruct HA as [HA1 HA2]. case_step; [apply (inv_quiet lc (GOV_ACTION_TAG ++ to_le 8 id)); [done..|]; intros; by apply wlp_ret|].
  case_step; [by apply wlp_ret|]. destruct (check_enactment _ _ _ _); [|by apply wlp_ret].
  apply wlp_bind. eapply wlp_mono; [|by apply execute_action_inv]. intros [u'|e] lx HX; [|by apply wlp_ret]. cbv zeta.
  apply (inv_quiet lx (GOV_RECEIPT_TAG ++ to_le 8 id)); [done..|]. intros l1 H1.
  apply (inv_quiet l1 (GOV_ACTION_TAG ++ to_le 8 id)); [done..|]. intros l2 [S2 O2].
  eapply wlp_event; [exact S2|]. intros l3 S3. by apply wlp_ret, (stage_inv l2 l3).
Qed.
End Coins.
