(* ===== verification/SigCache.v ===== *)
(** * The signature cache (qtv-node/src/sigcache.rs)

    Verified signatures are remembered in two generations of hash sets behind a
    mutex.  A lookup and an insertion are two critical sections, so threads may
    interleave between them: the cache is a state machine whose steps are the
    insertions, in any order.  The genesis hash is bound once per process and is an
    argument. *)

From S2P Require Import Prelude Codec Idfmt Tx.

Definition GENERATION : nat := 131072%nat.

Record Verified : Type := mkVerified {
  current : gset (list byte);
  previous : gset (list byte)
}.
Definition Verified_default : Verified := mkVerified ∅ ∅.

Section Cache.
Context (c : Crypto).

Definition entry_input (id public_key genesis : list byte) : list byte :=
  genesis ++ to_le 8 (len id) ++ id ++ to_le 8 (len public_key) ++ public_key.
Definition entry (w : Wrapper) (public_key genesis : list byte) : outcome (list byte) :=
  obind (id_str c w) (fun id => Done (sha3_256 c (entry_input id public_key genesis))).

(** The first critical section. *)
Definition seen (key : list byte) (v : Verified) : bool :=
  bool_decide (key ∈ current v) || bool_decide (key ∈ previous v).

(** The second one. *)
Definition note (key : list byte) (v : Verified) : Verified :=
  let v := if (GENERATION <=? size (current v))%nat then mkVerified ∅ (current v) else v in
  mkVerified ({[key]} ∪ current v) (previous v).

(** [verify]: the cache it finds at the lookup is [at_lookup], the one at the
    insertion [at_insert]. *)
Definition cached_verify (genesis : option (list byte)) (w : Wrapper) (public_key : list byte)
    (at_lookup at_insert : Verified) : outcome (bool * Verified) :=
  match genesis with
  | None => Done (false, at_insert)
  | Some genesis =>
      obind (entry w public_key genesis) (fun key =>
      if seen key at_lookup then Done (true, at_insert)
      else
        let ok := verify c w public_key genesis in
        Done (ok, if ok then note key at_insert else at_insert))
  end.

(** What [verify] computes without a cache. *)
Definition plain_verify (genesis : option (list byte)) (w : Wrapper) (public_key : list byte) : bool :=
  match genesis with None => false | Some genesis => verify c w public_key genesis end.

(** ** The bytes of a wrapper determine what is verified *)

Definition wire (w : Wrapper) : list byte := into_bytes (Wrapper_encode w Encoder_new).

(** The ranges the Rust types impose on a wrapper. *)
Definition typed_wrapper (w : Wrapper) : Prop :=
  typed_body (body w) /\ u8 (scheme w) /\ len (wire w) <= ISIZE_MAX.

Definition wrapper_fields := dbind body_fields (fun fields =>
  dbind get_u8 (fun s => dbind get_bytes (fun sg => dret (fields, s, sg)))).

#[local] Hint Rewrite buf_put_address buf_Call_encode : codec.
#[local] Hint Extern 2 (in_width 64 (len _)) => (unfold in_width, ISIZE_MAX, len in *; lia) : codec.

Definition body_image (b : Body) : list byte := into_bytes (Body_encode b Encoder_new).

Lemma wire_image w : wire w = body_image (body w) ++ [byte_of (scheme w)] ++ bytes_image (signature w).
Proof.
  unfold wire, body_image, Wrapper_encode, Body_encode, into_bytes. autorewrite with codec.
  by rewrite <- ?app_assoc.
Qed.

Lemma body_image_fields b : body_image b =
  bytes_image (address_bytes (sender b)) ++ to_le 8 (nonce b) ++ to_le 8 (meter_limit b) ++
  to_le 16 (fee b) ++ bytes_image (address_bytes (target (call b))) ++ bytes_image (args (call b)) ++
  to_le 8 (value b) ++ to_le 8 (chain_id b) ++ bytes_image (default [] (in_asset b)) ++
  to_le 8 (valid_until b) ++ [byte_of (kind b)].
Proof.
  unfold body_image, Body_encode, into_bytes. autorewrite with codec. by rewrite <- ?app_assoc.
Qed.

Lemma bytes_image_length bs : length (bytes_image bs) = (8 + length bs)%nat.
Proof. unfold bytes_image. by rewrite length_app, length_to_le. Qed.

Lemma wrapper_reads w :
  typed_wrapper w ->
  reads wrapper_fields (wire w)
    ((address_bytes (sender (body w)), nonce (body w), meter_limit (body w), fee (body w),
      address_bytes (target (call (body w))), args (call (body w)), value (body w), chain_id (body w),
      default [] (in_asset (body w)), valid_until (body w), kind (body w)), scheme w, signature w).
Proof.
  intros [(? & ? & ? & ? & ? & ? & ? & ? & Hasset) [Hs Hl]].
  assert (Hi : (length (default [] (in_asset (body w))) <= 32)%nat).
  { destruct (in_asset (body w)) as [i|]; cbn; [|lia]. rewrite (Hasset i eq_refl). lia. }
  rewrite wire_image, body_image_fields in *. unfold len in Hl.
  rewrite !length_app, !bytes_image_length in Hl.
  assert (u64 (len (address_bytes (sender (body w)))) /\ u64 (len (address_bytes (target (call (body w))))) /\
    u64 (len (args (call (body w)))) /\ u64 (len (signature w))) as (? & ? & ? & ?)
    by (unfold in_width, ISIZE_MAX, len in *; lia).
  unfold wrapper_fields. eapply reads_bind; [unfold body_fields; reads_fields|]. reads_fields.
Qed.

(** Two wrappers with the same bytes verify alike. *)
Lemma wire_verify w1 w2 pk genesis :
  typed_wrapper w1 -> typed_wrapper w2 -> wire w1 = wire w2 ->
  verify c w1 pk genesis = verify c w2 pk genesis.
Proof.
  intros T1 T2 E. pose proof (wrapper_reads w1 T1) as R1. pose proof (wrapper_reads w2 T2) as R2.
  rewrite <- E in R2. destruct T1 as (_ & _ & Hl).
  pose proof (reads_inj _ _ _ _ Hl R1 R2) as F. injection F as ? ? ? ? ? ? ? ? ? ? ? Hs Hg.
  assert (Eb : body_image (body w1) = body_image (body w2)) by (rewrite !body_image_fields; congruence).
  assert (Ed : body_digest c (body w1) genesis = body_digest c (body w2) genesis).
  { unfold body_digest, digest_input. unfold body_image in Eb. by rewrite Eb. }
  unfold verify. by rewrite Ed, Hs, Hg.
Qed.

Lemma id_str_total w :
  CryptoLaws c -> exists id, id_str c w = Done id /\ parse HRP_TX id = Ok (sha3_256 c (wire w)) /\
    u64 (len id).
Proof.
  intros Hc. destruct (rendered_parses HRP_TX (sha3_256 c (wire w))) as (text & Hr & Hp & _).
  - unfold HRPS. rewrite !elem_of_cons. tauto.
  - rewrite sha3_256_length. lia.
  - exists text. split_and!; [|done|].
    + unfold id_str, expect_ok, render_tx, digest_render, check_digest. fold (wire w).
      rewrite sha3_256_length. cbn [Nat.eqb negb DIGEST_LEN]. change (32 =? DIGEST_LEN)%nat with true.
      cbn [negb]. by rewrite Hr.
    + unfold parse, rbind, bech_decode in Hp. case_in Hp; [done|]. bool_to_prop.
      unfold in_width, len, MAX_ENCODED in *. lia.
Qed.

Lemma entry_input_inj id1 id2 pk1 pk2 genesis :
  u64 (len id1) -> u64 (len id2) -> entry_input id1 pk1 genesis = entry_input id2 pk2 genesis ->
  id1 = id2 /\ pk1 = pk2.
Proof.
  unfold entry_input. intros H1 H2 E%app_inv_head.
  apply app_inj_1 in E as [El E]; [|by rewrite !length_to_le].
  apply to_le_inj in El; [|done..]. apply app_inj_1 in E as [-> E]; [|unfold len in El; lia].
  split; [done|]. apply app_inj_1 in E as [_ E]; [done|]. by rewrite !length_to_le.
Qed.
(** ** Histories *)

(** A request: a wrapper and the key it is checked against. *)
Abbreviation Request := (Wrapper * list byte)%type.

(** The states of the cache: each call finds, at its insertion, the state left by
    the calls before it, and at its lookup that state or an earlier one. *)
Inductive history (genesis : option (list byte)) : list Request -> Verified -> Prop :=
| history_new : history genesis [] Verified_default
| history_call older newer old v w pk ok v' :
    history genesis older old -> history genesis (newer ++ older) v ->
    cached_verify genesis w pk old v = Done (ok, v') ->
    history genesis ((w, pk) :: newer ++ older) v'.

(** The hash tells two requests apart. *)
Definition told_apart (genesis : list byte) (p q : Request) : Prop :=
  separates (sha3_256 c) [wire p.1] [wire q.1] /\
  forall id1 id2, id_str c p.1 = Done id1 -> id_str c q.1 = Done id2 ->
    separates (sha3_256 c) [entry_input id1 p.2 genesis] [entry_input id2 q.2 genesis].

(** What a key in the cache stands for. *)
Definition vouched (genesis : list byte) (ps : list Request) (key : list byte) : Prop :=
  exists w pk, (w, pk) ∈ ps /\ entry w pk genesis = Done key /\ verify c w pk genesis = true.

Lemma seen_spec key v : seen key v = true <-> key ∈ current v \/ key ∈ previous v.
Proof. unfold seen. by rewrite orb_true_iff, !bool_decide_eq_true. Qed.

Lemma seen_note key key' v : seen key (note key' v) = true -> key = key' \/ seen key v = true.
Proof.
  rewrite !seen_spec. unfold note. case_step; cbn [current previous]; rewrite elem_of_union, elem_of_singleton.
  - rewrite elem_of_empty. tauto.
  - tauto.
Qed.

Lemma note_size key v :
  (size (current v) <= GENERATION)%nat -> (size (previous v) <= GENERATION)%nat ->
  (size (current (note key v)) <= GENERATION)%nat /\ (size (previous (note key v)) <= GENERATION)%nat.
Proof.
  intros H1 H2. unfold note.
  assert (Hu : forall X : gset (list byte), (size ({[key]} ∪ X) <= 1 + size X)%nat).
  { intros X. rewrite union_comm_L, size_union_alt.
    pose proof (subseteq_size ({[key]} ∖ X) {[key]} ltac:(set_solver)) as Hs.
    rewrite size_singleton in Hs. lia. }
  destruct (Nat.leb_spec GENERATION (size (current v))) as [Hg|Hg]; cbn [current previous].
  - split; [|done]. etrans; [apply Hu|]. rewrite size_empty. by apply Nat.leb_le.
  - split; [|done]. etrans; [apply Hu|]. lia.
Qed.

Lemma cached_verify_cases genesis w pk old v ok v' :
  cached_verify (Some genesis) w pk old v = Done (ok, v') ->
  exists key, entry w pk genesis = Done key /\
    ((seen key old = true /\ ok = true /\ v' = v) \/
     (ok = verify c w pk genesis /\ v' = if ok then note key v else v)).
Proof.
  unfold cached_verify. destruct (entry w pk genesis) as [key|]; [|done]. cbn [obind].
  intros H. exists key. split; [done|]. case_in H; injection H as <- <-; auto.
Qed.

Lemma history_bounded genesis ps v :
  history (Some genesis) ps v ->
  (size (current v) <= GENERATION)%nat /\ (size (previous v) <= GENERATION)%nat.
Proof.
  intros H. induction H as [|older newer old v w pk ok v' _ _ _ [IH1 IH2] Hc]; [split; apply Nat.le_0_l|].
  apply cached_verify_cases in Hc as (key & _ & [(_ & _ & ->)|[_ ->]]); [done|].
  destruct ok; [by apply note_size|done].
Qed.

Lemma history_vouched genesis ps v key :
  history (Some genesis) ps v -> seen key v = true -> vouched genesis ps key.
Proof.
  intros H. revert key. induction H as [|older newer old v w pk ok v' _ _ _ IH Hc]; intros key Hk.
  - by rewrite seen_spec in Hk; destruct Hk as [Hk|Hk]; apply elem_of_empty in Hk.
  - assert (Hold : seen key v = true -> vouched genesis ((w, pk) :: newer ++ older) key).
    { intros (w0 & pk0 & Hin & Hr)%IH. exists w0, pk0. split; [by right|done]. }
    apply cached_verify_cases in Hc as (key' & He & [(_ & _ & ->)|[Hok ->]]); [auto|].
    destruct ok; [|auto]. apply seen_note in Hk as [->|Hk]; [|auto].
    exists w, pk. split; [by left|]. by split.
Qed.

(** Requests with one key are one request, as far as verification goes. *)
Lemma same_entry genesis w1 pk1 w2 pk2 key :
  CryptoLaws c -> typed_wrapper w1 -> typed_wrapper w2 -> told_apart genesis (w1, pk1) (w2, pk2) ->
  entry w1 pk1 genesis = Done key -> entry w2 pk2 genesis = Done key ->
  verify c w1 pk1 genesis = verify c w2 pk2 genesis.
Proof.
  intros Hc T1 T2 [Hw He] E1 E2. destruct (id_str_total w1 Hc) as (id1 & I1 & P1 & L1).
  destruct (id_str_total w2 Hc) as (id2 & I2 & P2 & L2). unfold entry in E1, E2.
  rewrite I1 in E1. rewrite I2 in E2. cbn [obind] in E1, E2. injection E1 as E1. injection E2 as E2.
  assert (Ei : entry_input id1 pk1 genesis = entry_input id2 pk2 genesis).
  { apply (He id1 id2 I1 I2); [by left|by left|congruence]. }
  apply entry_input_inj in Ei as [-> ->]; [|done..]. apply wire_verify; [done..|].
  apply Hw; [by left|by left|]. rewrite P1 in P2. congruence.
Qed.
End Cache.

(** C30: the signature cache is transparent and bounded.  However the lookups and
    insertions of concurrent calls interleave, a call never panics and its answer is
    the answer of the signature check itself: nothing is accepted because it was
    cached, unless the hash confuses two of the requests made.  Neither generation
    ever holds more than its limit. *)
Theorem signature_cache_transparent (c : Crypto) genesis newer older old v w pk :
  CryptoLaws c -> history c (Some genesis) older old -> history c (Some genesis) (newer ++ older) v ->
  Forall (fun p => typed_wrapper p.1 /\ told_apart c genesis (w, pk) p) ((w, pk) :: newer ++ older) ->
  exists v', cached_verify c (Some genesis) w pk old v = Done (plain_verify c (Some genesis) w pk, v') /\
    (size (current v') <= GENERATION)%nat /\ (size (previous v') <= GENERATION)%nat.
Proof.
  intros Hc Hold Hv Hps. destruct (id_str_total c w Hc) as (id & Hid & _).
  assert (He : exists key, entry c w pk genesis = Done key) by (unfold entry; rewrite Hid; cbn; eauto).
  destruct He as [key He].
  assert (Hr : exists ok v', cached_verify c (Some genesis) w pk old v = Done (ok, v')).
  { unfold cached_verify. rewrite He. cbn [obind]. case_step; eauto. }
  destruct Hr as (ok & v' & Hr). exists v'.
  split; [|by eapply history_bounded, (history_call c (Some genesis) older newer old v w pk ok v')].
  rewrite Hr. f_equal. f_equal. pose proof (cached_verify_cases c _ _ _ _ _ _ _ Hr) as (key' & He' & Hcase).
  rewrite He in He'. injection He' as <-. destruct Hcase as [(Hs & -> & _)|[-> _]]; [|done].
  destruct (history_vouched c genesis older old key Hold Hs) as (w0 & pk0 & Hin & E0 & V0).
  rewrite Forall_forall in Hps. cbn [plain_verify]. symmetry. rewrite <- V0.
  destruct (Hps (w0, pk0)) as [T0 A0]; [right; apply elem_of_app; by right|].
  destruct (Hps (w, pk)) as [T _]; [by left|]. by eapply same_entry.
Qed.

Lemma signature_cache_transparent_witness :
  match derive_with_scheme example_crypto (replicate 32 x07) SCHEME_HASH 0 with
  | Some account =>
      match try_sign_hedged example_crypto account example_body (replicate 32 x09) (replicate 32 x0a) with
      | Done (Some w) =>
          let pk := account_public_key account in
          exists v v', history example_crypto (Some (replicate 32 x09)) [(w, pk)] v /\
            seen (match entry example_crypto w pk (replicate 32 x09) with Done k => k | Panic => [] end) v = true /\
            cached_verify example_crypto (Some (replicate 32 x09)) w pk v v = Done (true, v')
      | _ => False
      end
  | None => False
  end.
Proof.
  destruct (derive_with_scheme example_crypto (replicate 32 x07) SCHEME_HASH 0) as [account|] eqn:Ea;
    [|vm_compute in Ea; discriminate].
  destruct (try_sign_hedged example_crypto account example_body (replicate 32 x09) (replicate 32 x0a))
    as [[w|]|] eqn:Ew; vm_compute in Ea; injection Ea as <-; vm_compute in Ew; try discriminate.
  injection Ew as <-. cbv zeta.
  set (pk := account_public_key _). set (w := mkWrapper _ _ _). set (g := replicate 32 x09).
  destruct (cached_verify example_crypto (Some g) w pk Verified_default Verified_default) as [[ok v]|] eqn:Er;
    [|vm_compute in Er; discriminate].
  assert (Ev : (ok, v) = (true, v)) by (vm_compute in Er; injection Er as <- <-; reflexivity).
  injection Ev as ->.
  assert (Hh : history example_crypto (Some g) [(w, pk)] v).
  { apply (history_call example_crypto (Some g) [] [] Verified_default Verified_default w pk true v);
      [constructor|constructor|exact Er]. }
  destruct (signature_cache_transparent example_crypto g [] [(w, pk)] v v w pk example_crypto_laws Hh Hh)
    as (v' & H1 & _).
  - assert (T : typed_wrapper w /\ told_apart example_crypto g (w, pk) (w, pk)).
    { split.
      - split; [exact example_body_typed|]. split; [split; [discriminate|reflexivity]|vm_compute; discriminate].
      - split; [|intros id1 id2 -> [= ->]]; intros x y ->%list_elem_of_singleton ->%list_elem_of_singleton; done. }
    constructor; [exact T|]. constructor; [exact T|constructor].
  - exists v, v'. split; [exact Hh|]. split; [|exact H1].
    vm_compute in Er. injection Er as <-. vm_compute. reflexivity.
Defined.
