(* ===== verification/Admission.v ===== *)
(** * Admission of transactions (qtv-node/src/mempool.rs, node.rs, execution.rs)

    What the node checks before it accepts a transfer: the chain, the addresses,
    the nonce, the fee, the funds and the signature; the system addresses that
    route a transaction to another lane; the window in which it is valid.  A signature is checked with
    [plain_verify]: the cache in front of it is transparent ([SigCache]). *)

From S2P Require Import Prelude Codec Idfmt Tx SigCache Events LedgerState LedgerKeys.
From S2P Require Import Governance Staking Fee LedgerStake LedgerCoins LedgerConserve LedgerHistory.

Inductive Reject : Type :=
| UnknownSender
| UnsupportedScheme
| BadSignature
| BadNonce (expected got : Z)
| BadCall
| SelfTransfer
| ZeroTransfer
| MeterLimitTooLow
| FeeTooLow
| InsufficientFunds
| WrongChain
| PoolFull
| SenderQueueFull
| RateLimited.

Record TransferPlan : Type := mkPlan {
  plan_sender : list byte;
  plan_recipient : list byte;
  plan_amount : Z;
  plan_fee : Z
}.

(** ** Calls *)

Definition transfer_call (recipient : list byte) (amount : Z) : Call :=
  mkCall recipient (into_bytes (put_u64 amount Encoder_new)).

Definition transfer_amount (call : Call) : option Z :=
  match get_u64 (Decoder_new (args call)) with
  | Err _ => None
  | Ok (amount, d) => match finish d with Ok _ => Some amount | Err _ => None end
  end.

Definition TRANSFER_METER : Z := 1210.
Definition MAX_TX_BYTES : Z := 256 * 1024.
Definition FIXED_FIELD_SLACK : Z := 1024.

Definition variable_bytes (w : Wrapper) : Z :=
  saturating_add 64 (saturating_add 64 (saturating_add 64 (len (args (call (body w))))
    (len (signature w))) (len (sender (body w)))) (len (target (call (body w)))).
Definition size_bound (w : Wrapper) : Z := saturating_add 64 (variable_bytes w) FIXED_FIELD_SLACK.
Definition oversized (w : Wrapper) : bool :=
  let variable := variable_bytes w in
  if MAX_TX_BYTES <? variable then true
  else if saturating_add 64 variable FIXED_FIELD_SLACK <=? MAX_TX_BYTES then false
  else MAX_TX_BYTES <? len (wire w).

Definition canonical_address (address : list byte) : bool :=
  match parse_address address with
  | Ok payload =>
      if (length payload =? DIGEST_LEN)%nat then
        match render_address payload with
        | Done (Ok text) => bool_decide (text = address)
        | _ => false
        end
      else false
  | Err _ => false
  end.

Definition chain_ok (w : Wrapper) (p : FeeParams) : bool :=
  (chain_id (body w) =? fee_chain_id p) && addresses_parse (body w).

(** [u64::try_from(body.fee().min(ceiling)).unwrap_or(ceiling)]. *)
Definition charged_fee (w : Wrapper) (p : FeeParams) : Z :=
  let capped := Z.min (fee (body w)) (ceiling_fee p) in
  if capped <=? U64_MAX then capped else ceiling_fee p.

Section Admission.
Context (c : Crypto) (genesis : option (list byte)).
#[local] Notation sha := (sha3_256 c).

(** [text == address()] for a system address; the digest it renders always has the
    length that renders. *)
Definition names (address : outcome (list byte)) (text : list byte) : bool :=
  match address with Done a => bool_decide (text = a) | Panic => false end.

(** ** Lanes *)

Definition to_system (address : (list byte -> list byte) -> outcome (list byte)) (w : Wrapper) : bool :=
  names (address sha) (target (call (body w))).

Definition is_stake_payee : Wrapper -> bool := to_system stake_payee_address.
Definition is_key_register : Wrapper -> bool := to_system key_register_address.
Definition is_evidence : Wrapper -> bool := to_system evidence_address.
Definition is_registration : Wrapper -> bool := to_system registration_address.
Definition is_bridge_guardian : Wrapper -> bool := to_system bridge_guardian_address.
Definition is_bridge_mint : Wrapper -> bool := to_system bridge_mint_address.
Definition is_bridge_exit : Wrapper -> bool := to_system bridge_exit_address.
Definition is_bridge_settle : Wrapper -> bool := to_system bridge_settle_address.
Definition is_priority : Wrapper -> bool := to_system gov_system_address.
Definition is_deploy : Wrapper -> bool := to_system vm_deploy_address.
Definition is_vm_op (w : Wrapper) : bool := is_deploy w || is_call (body w).

Definition is_feeless (w : Wrapper) : bool :=
  is_bridge_mint w || is_bridge_settle w || is_evidence w || is_bridge_guardian w.
Definition is_plain_transfer (w : Wrapper) : bool :=
  negb (is_feeless w) && negb (is_vm_op w) && negb (is_key_register w) && negb (is_stake_payee w) &&
  negb (is_bridge_exit w) && negb (is_registration w) && negb (is_priority w).
Definition is_signed_lane (w : Wrapper) : bool :=
  negb (is_feeless w) && negb (is_key_register w) && negb (is_registration w).

Definition zero_value_target (recipient : list byte) : bool :=
  existsb (fun address => names (address sha) recipient)
    [stake_claim_address; stake_exit_address; stake_withdraw_address; bridge_freeze_address;
     bridge_unfreeze_address].

(** ** Validity *)

Definition MAX_VALIDITY_HORIZON : Z := 7200.
Definition within_validity (valid_until height : Z) : bool :=
  (valid_until =? 0) ||
  ((height <=? valid_until) && (valid_until - height <=? MAX_VALIDITY_HORIZON)).
Definition validity_admits (w : Wrapper) (height : Z) : bool :=
  if valid_until (body w) =? 0 then
    let public := (chain_id (body w) =? TESTNET_CHAIN_ID) || (chain_id (body w) =? MAINNET_CHAIN_ID) in
    negb public || is_feeless w || is_registration w
  else within_validity (valid_until (body w)) height.

(** ** Plans *)

Definition plan_from_account_checks (w : Wrapper) (a : LedgerStake.Account) (p : FeeParams)
    : Result Reject TransferPlan :=
  let b := body w in
  if negb (chain_ok w p) then Err WrongChain
  else if is_call b then Err BadCall
  else if negb (nonce b =? acc_nonce a) then Err (BadNonce (acc_nonce a) (nonce b))
  else if negb (canonical_address (sender b)) then Err UnknownSender
  else match transfer_amount (call b) with
  | None => Err BadCall
  | Some amount =>
      let recipient := target (call b) in
      if negb (canonical_address recipient) then Err BadCall
      else if bool_decide (recipient = sender b) then Err SelfTransfer
      else if bool_decide (state_key sha (sender b) = state_key sha recipient) then Err SelfTransfer
      else if (amount =? 0) && negb (zero_value_target recipient) then Err ZeroTransfer
      else if meter_limit b <? TRANSFER_METER then Err MeterLimitTooLow
      else if fee b <? transfer_fee p then Err FeeTooLow
      else
        let charged := charged_fee w p in
        match checked_add 64 amount charged with
        | None => Err InsufficientFunds
        | Some debit =>
            if acc_balance a <? debit then Err InsufficientFunds
            else Ok (mkPlan (sender b) recipient amount charged)
        end
  end.

Definition plan_from_account (w : Wrapper) (a : LedgerStake.Account) (p : FeeParams)
    : Result Reject TransferPlan :=
  if negb (has_key a) then Err UnknownSender
  else if negb (scheme_supported (scheme w)) then Err UnsupportedScheme
  else
    let? plan := plan_from_account_checks w a p in
    if negb (plain_verify c genesis w (acc_public_key a)) then Err BadSignature else Ok plan.

Definition plan_verified (w : Wrapper) (a : LedgerStake.Account) (p : FeeParams) (signature_ok : bool)
    : Result Reject TransferPlan :=
  if negb (scheme_supported (scheme w)) then Err UnsupportedScheme
  else if negb signature_ok then Err BadSignature
  else plan_from_account_checks w a p.

Definition validate (w : Wrapper) (l : Ledger) (p : FeeParams) : Result Reject TransferPlan :=
  plan_from_account w (account sha l (sender (body w))) p.
Definition validate_verified (w : Wrapper) (l : Ledger) (p : FeeParams) (signature_ok : bool)
    : Result Reject TransferPlan :=
  plan_verified w (account sha l (sender (body w))) p signature_ok.

Definition sender_barred (l : Ledger) (w : Wrapper) : bool :=
  is_blacklisted sha l (sender (body w)) ||
  (is_frozen sha l (sender (body w)) && negb (is_priority w)).

Definition sender_prevalidated (w : Wrapper) (a : LedgerStake.Account) (p : FeeParams) : bool :=
  if negb (nonce (body w) =? acc_nonce a) then false
  else if fee (body w) <? transfer_fee p then false
  else charged_fee w p <=? acc_balance a.

(** ** The operation a transaction runs *)

(** [<[u8; 32]>::try_from(..)] and the checks of a payee designation. *)
Definition stake_payee_admissible (w : Wrapper) (a : LedgerStake.Account) (p : FeeParams)
    (signature_ok : bool) (l : Ledger) : option (list byte) :=
  let b := body w in
  if negb (is_stake_payee w) then None
  else if negb (has_key a) || negb (scheme_supported (scheme w)) || negb signature_ok then None
  else if negb (nonce b =? acc_nonce a) || (meter_limit b <? TRANSFER_METER) then None
  else if fee b <? transfer_fee p then None
  else if acc_balance a <? charged_fee w p then None
  else
    let payee := args (call b) in
    if negb (length payee =? 32)%nat then None
    else match parse_address (sender b) with
    | Err _ => None
    | Ok payload =>
        if negb (length payload =? 32)%nat then None
        else if bool_decide (payee = replicate 32 x00) || bool_decide (is_Some (stake_payee sha l payload))
        then None
        else Some payee
    end.

Definition payee_op (w : Wrapper) (p : FeeParams) (signature_ok : bool) (l : Ledger) : option NativeOp :=
  let from := sender (body w) in
  if is_blacklisted sha l from then None
  else match stake_payee_admissible w (account sha l from) p signature_ok l with
  | None => None
  | Some payee => Some (NamingPayee from payee (charged_fee w p))
  end.

(** The operation of a validated transfer, by its recipient: none for a blacklisted
    one, and none for the bridge's freezes, which are another component. *)
Definition plan_op (w : Wrapper) (plan : TransferPlan) (now_seconds : Z) (l : Ledger) : option NativeOp :=
  let day := now_seconds / 86400 in
  let to_ address := names (address sha) (plan_recipient plan) in
  if to_ stake_system_address then Some (Bonding (plan_sender plan) (plan_amount plan) (plan_fee plan) day)
  else if to_ stake_claim_address then Some (Claiming (plan_sender plan) (plan_fee plan) day)
  else if to_ stake_exit_address then Some (Exiting (plan_sender plan) (plan_fee plan) day)
  else if to_ stake_withdraw_address then Some (Withdrawing (plan_sender plan) (plan_fee plan) day)
  else if to_ bridge_freeze_address || to_ bridge_unfreeze_address then None
  else if is_blacklisted sha l (plan_recipient plan) then None
  else Some (Transferring (plan_sender plan) (plan_recipient plan) (plan_amount plan) (plan_fee plan)
    (meter_limit (body w))).

Definition transaction_op (w : Wrapper) (p : FeeParams) (signature_ok : bool) (now_seconds : Z) (l : Ledger)
    : option NativeOp :=
  if is_stake_payee w then payee_op w p signature_ok l
  else match validate_verified w l p signature_ok with
  | Err _ => None
  | Ok plan => plan_op w plan now_seconds l
  end.

(** ** Governance and key registration *)

Inductive GovOp : Type :=
| Propose (action : Action)
| Vote (referendum : Z) (aye : bool) (conviction : Conviction) (stake : Z)
| Enact (referendum : Z)
| Conclude (referendum : Z)
| Release.

(** The reader of an operation's payload; [None] for a code that names no operation. *)
Definition gov_op_reader (op : Z) : option (Dec (option GovOp)) :=
  if op =? 1 then Some (let* action := Action_decode in dret (Some (Propose action)))
  else if op =? 2 then Some (
    let* referendum := get_u64 in
    let* aye := get_u8 in
    if (aye =? 0) || (aye =? 1) then
      let* conviction := Conviction_decode in
      let* stake := get_u64 in
      dret (Some (Vote referendum (aye =? 1) conviction stake))
    else dret None)
  else if op =? 3 then Some (let* referendum := get_u64 in dret (Some (Enact referendum)))
  else if op =? 4 then Some (let* referendum := get_u64 in dret (Some (Conclude referendum)))
  else if op =? 5 then Some (dret (Some Release))
  else None.

Definition decode_gov_op (op : Z) (payload : list byte) : option GovOp :=
  match gov_op_reader op with
  | None => None
  | Some reader =>
      match reader (Decoder_new payload) with
      | Ok (Some operation, d) => match finish d with Ok _ => Some operation | Err _ => None end
      | _ => None
      end
  end.

Definition governance_admissible (w : Wrapper) (a : LedgerStake.Account) (p : FeeParams)
    (signature_ok : bool) : option GovOp :=
  let b := body w in
  if negb (is_priority w) then None
  else if negb (bool_decide (native_asset p = QTOV_ASSET_TAG)) then None
  else if negb (has_key a) || negb (scheme_supported (scheme w)) || negb signature_ok then None
  else if negb (nonce b =? acc_nonce a) || (meter_limit b <? TRANSFER_METER) then None
  else if fee b <? transfer_fee p then None
  else if acc_balance a <? charged_fee w p then None
  else match args (call b) with
  | [] => None
  | op :: payload => decode_gov_op (byte_val op) payload
  end.

(** [qtv_crypto::ml_dsa::public_key_is_degenerate] of a key of the right length. *)
Definition key_register_admissible (degenerate : list byte -> bool) (w : Wrapper) (a : LedgerStake.Account)
    (p : FeeParams) (signature_ok : option bool) : option (list byte) :=
  let b := body w in
  let public_key := args (call b) in
  if negb (is_key_register w) then None
  else if negb (scheme_supported (scheme w)) then None
  else if negb (names (address_for_key c (scheme w) public_key) (sender b)) then None
  else if (scheme w =? SCHEME_LATTICE) && (length public_key =? ML_PUBLIC_KEY_BYTES c)%nat && degenerate public_key
  then None
  else if negb (nonce b =? acc_nonce a) || (meter_limit b <? TRANSFER_METER) then None
  else if fee b <? transfer_fee p then None
  else if acc_balance a <? charged_fee w p then None
  else if negb (default (plain_verify c genesis w public_key) signature_ok) then None
  else Some public_key.

Definition key_register_signature (w : Wrapper) : bool :=
  let public_key := args (call (body w)) in
  names (address_for_key c (scheme w) public_key) (sender (body w)) && plain_verify c genesis w public_key.

(** ** What the checks establish *)

Lemma plan_checks_Ok w a p plan :
  plan_from_account_checks w a p = Ok plan ->
  nonce (body w) = acc_nonce a /\ plan_sender plan = sender (body w) /\
  plan_recipient plan = target (call (body w)) /\ u64 (plan_amount plan) /\
  plan_fee plan = charged_fee w p /\
  state_key sha (plan_sender plan) <> state_key sha (plan_recipient plan).
Proof.
  unfold plan_from_account_checks. repeat (case_step; [done|]).
  destruct (transfer_amount (call (body w))) as [amount|] eqn:Ea; [|done].
  repeat (case_step; [done|]).
  destruct (checked_add 64 amount (charged_fee w p)); [|done]. case_step; [done|].
  intros [= <-]. cbn. bool_to_prop. split_and!; try done.
  unfold transfer_amount in Ea. destruct (get_u64 (Decoder_new (args (call (body w))))) as [[v d]|] eqn:E; [|done].
  destruct (finish d); [|done]. injection Ea as <-.
  by apply get_u64_Ok in E as [E _].
Qed.

Lemma charged_fee_u64 w p : typed_params p -> u128 (fee (body w)) -> u64 (charged_fee w p).
Proof.
  intros (Ht & Hr & Hu & Hm) Hf. unfold charged_fee, ceiling_fee, native_fee, in_width, U64_MAX in *.
  pose proof (to_native_range p (clamp MICRO_USD_CEILING MICRO_USD_FLOOR MICRO_USD_CEILING)) as H.
  unfold in_width in H. specialize (H ltac:(by vm_compute) ltac:(lia) ltac:(lia)).
  case_step; bool_to_prop; lia.
Qed.

(** ** A transaction and the ledger *)

Section Once.
Context (execute_transfer : Z -> Z -> Z -> Z -> Z -> option (Z * Z)).
Context (U : list (list byte)) (U_nodup : NoDup U) (U_apart : apart sha U)
  (U_ids : Forall (fun id => length id = 32%nat) U)
  (U_grants : sha (ascii "qtv/gov/grants") ∈ U).
Context (moves : transfer_moves execute_transfer).
Context {Oth : Others sha U}.

(** The other account of an operation is one of those in play. *)
Definition counterparty (op : NativeOp) : Prop :=
  match op with
  | NamingPayee _ payee _ => payee ∈ U
  | Transferring _ to _ _ _ => in_play U to
  | _ => True
  end.

(** A ledger at which the transaction's nonce is used refuses it in every lane. *)
Lemma used_nonce_refused w l :
  nonce (body w) < acc_nonce (account sha l (sender (body w))) ->
  forall p ok now, transaction_op w p ok now l = None /\ forall plan, validate w l p <> Ok plan.
Proof.
  intros Hn p ok now. split.
  - unfold transaction_op. case_step.
    + unfold payee_op. case_step; [done|]. unfold stake_payee_admissible. repeat (case_step; [done|]).
      bool_to_prop. lia.
    + destruct (validate_verified w l p ok) as [plan|] eqn:Ev; [|done].
      unfold validate_verified, plan_verified in Ev. repeat (case_in Ev; [done|]).
      apply plan_checks_Ok in Ev. lia.
  - intros plan Ev. unfold validate, plan_from_account in Ev. repeat (case_in Ev; [done|]).
    destruct (plan_from_account_checks _ _ _) as [q|] eqn:Eq; [|done]. apply plan_checks_Ok in Eq. lia.
Qed.

Lemma days_of now : u64 now -> 0 <= now / 86400 <= DAY_MAX.
Proof.
  unfold in_width, DAY_MAX, U64_MAX. intros H. split; [apply Z.div_pos; lia|apply Z.div_le_mono; lia].
Qed.

(** The checks of a lane make its operation one the ledger is ready for. *)
Lemma transaction_op_ready w p ok now l op :
  typed_body (body w) -> typed_params p -> u64 now -> in_play U (sender (body w)) ->
  nonce (body w) < U64_MAX -> transaction_op w p ok now l = Some op -> counterparty op ->
  op_ready sha U l op /\ op_payer op = Some (sender (body w)) /\
  nonce (body w) = acc_nonce (account sha l (sender (body w))).
Proof.
  intros Hb Hp Hnow Hin Hn Hop Hc. pose proof (days_of now Hnow) as Hday.
  assert (Hfee : u64 (charged_fee w p)) by (apply charged_fee_u64; [done|apply Hb]).
  assert (Hu64 : u64 (now / 86400)).
  { pose proof DAY_MAX_small. unfold in_width. lia. }
  unfold transaction_op in Hop. case_in Hop.
  - unfold payee_op in Hop. case_in Hop; [done|]. unfold stake_payee_admissible in Hop.
    repeat (case_in Hop; [done|]). destruct (parse_address _); [|done]. repeat (case_in Hop; [done|]).
    injection Hop as <-. bool_to_prop. cbn in *. split_and!; try done. split; [done|lia].
  - destruct (validate_verified w l p ok) as [plan|] eqn:Ev; [|done].
    unfold validate_verified, plan_verified in Ev. repeat (case_in Ev; [done|]).
    apply plan_checks_Ok in Ev as (En & Es & Er & Ha & Ef & Hk).
    assert (Hus : usable sha U l (plan_sender plan)) by (rewrite Es; split; [done|lia]).
    rewrite <- Ef in Hfee. rewrite <- Es in *. unfold plan_op in Hop.
    repeat (case_in Hop; [injection Hop as <-; by cbn|]).
    repeat (case_in Hop; [done|]). injection Hop as <-. cbn in *. split_and!; try done.
    destruct Hin as (id & Hi & _), Hc as (id' & Hi' & _). rewrite Hi, Hi'. intros [= ->].
    apply Hk. by rewrite (state_key_slot _ _ _ Hi), (state_key_slot _ _ _ Hi').
Qed.

End Once.
End Admission.

(** ** A transfer, and the same transfer again *)

#[local] Existing Instance no_others.

Definition example_transaction : Wrapper :=
  mkWrapper (with_context address_a 0 2000 1000 (transfer_call address_b 5000000) 0 LOCAL_CHAIN_ID)
    SCHEME_HASH [].
Definition example_op : NativeOp := Transferring address_a address_b 5000000 1000 2000.

Lemma example_transaction_typed : typed_body (body example_transaction) /\ typed_params FeeParams_devnet.
Proof. split; vm_compute; repeat split; discriminate || done. Qed.

