(* ===== verification/BridgeDispatch.v ===== *)
(** * Bridge transactions (qtv-node/src/node.rs)

    What the pool checks of a mint, a settlement and an exit request, and what the
    execution of a block does with them: the artifact is decoded from the arguments
    of the call, its quorum checked against the operators of the ledger, and the fact
    applied.  What the pool lets in succeeds on the same ledger. *)

From S2P Require Import Prelude Codec Idfmt Events LedgerState LedgerKeys.
From S2P Require Import Governance Staking Tx Fee LedgerStake LedgerCoins Bridge LedgerBridge LedgerBridgeBooks.
From S2P Require Import SigCache Admission.

Definition MAX_BRIDGE_STARK_BYTES : Z := 2 ^ 20.

(** A chain of [usize] additions. *)
Fixpoint usize_sum (acc : Z) (xs : list Z) : outcome Z :=
  match xs with [] => Done acc | x :: xs => obind (panicking_add 64 acc x) (fun acc => usize_sum acc xs) end.

Section Dispatch.
Context (c : Crypto).
(** [qtv_crypto::ml_dsa::verify]. *)
Context (ml_verify : list byte -> list byte -> list byte -> list byte -> bool).
#[local] Notation sha := (sha3_256 c).
Abbreviation quorum := (quorum_attests (ML_PUBLIC_KEY_BYTES c) (ML_SIGNATURE_BYTES c) ml_verify).
Abbreviation exit_quorum := (exit_quorum_attests (ML_PUBLIC_KEY_BYTES c) (ML_SIGNATURE_BYTES c) ml_verify).

Definition call_args (w : Wrapper) : list byte := args (call (body w)).
Definition artifact_of (w : Wrapper) : option MintArtifact := MintArtifact_decode (call_args w).
Definition exit_attestation_of (w : Wrapper) : option ExitAttestation := ExitAttestation_decode (call_args w).

(** ** Mints *)

Definition bridge_mint_source_key (w : Wrapper) : option (Z * list byte) :=
  option_map (fun a => (source_chain (att_fact (attestation a)), source_ref (att_fact (attestation a)))) (artifact_of w).

Definition bridge_mint_fact (l : Ledger) (w : Wrapper) (chain : Z) : outcome (option Fact) :=
  if negb (bridge_federated_enabled sha l) then Done None
  else match artifact_of w with
  | None => Done None
  | Some artifact =>
      obind (bridge_dest_chain sha l) (fun dest =>
      match dest with
      | None => Done None
      | Some dest_chain =>
          obind (bridge_operator_set sha l) (fun ops =>
          match ops with
          | None => Done None
          | Some operators =>
              if negb (quorum operators (attestation artifact) dest_chain chain (bridge_era sha l)) then Done None
              else
                let fact := att_fact (attestation artifact) in
                if asset_is_trustlessly_anchored l (fact_asset fact) then Done None
                else obind (bridged_asset sha l (fact_asset fact)) (fun found => Done
                  match found with
                  | Some asset => if requires_stark asset then None else Some fact
                  | None => Some fact
                  end)
          end)
      end)
  end.

Definition operator_count (l : Ledger) : outcome Z :=
  obind (bridge_operator_set sha l) (fun ops =>
  Done match ops with Some s => len (operators s) | None => 0 end).
Definition sig_frame : Z := 4 + 2 + Z.of_nat (ML_SIGNATURE_BYTES c).
Definition max_mint_artifact_bytes (l : Ledger) : outcome Z :=
  obind (operator_count l) (fun n =>
  obind (usize_sum 2 [Z.of_nat FACT_ENCODED_LEN; 4; saturating_mul 64 n sig_frame]) (fun att =>
  usize_sum 4 [att; 4; 1 + 32 + 4 + MAX_BRIDGE_STARK_BYTES])).
Definition mint_fits (l : Ledger) (w : Wrapper) : outcome bool :=
  obind (max_mint_artifact_bytes l) (fun base =>
  obind match artifact_of w with
        | None => Done false
        | Some a => obind (bridged_asset sha l (fact_asset (att_fact (attestation a)))) (fun found =>
            Done match found with Some asset => requires_stark asset | None => false end)
        end (fun needs_stark =>
  Done (len (call_args w) <=? if (needs_stark : bool) then base else saturating_sub base MAX_BRIDGE_STARK_BYTES))).

Definition bridge_mint_still_live (l : Ledger) (w : Wrapper) : outcome bool :=
  if match bridge_mint_source_key w with
     | Some (source, sref) => bridge_reference_seen sha l source sref
     | None => false
     end then Done false
  else match artifact_of w with
  | None => Done false
  | Some a =>
      let fact := att_fact (attestation a) in
      if asset_is_trustlessly_anchored l (fact_asset fact) then Done false else bridge_mint_would_apply sha l fact
  end.

Definition bridge_mint_admissible (l : Ledger) (w : Wrapper) (chain : Z) : outcome bool :=
  obind (bridge_is_frozen sha l) (fun frozen =>
  if (frozen : bool) then Done false
  else obind (mint_fits l w) (fun fits =>
    if negb fits then Done false
    else match bridge_mint_source_key w with
    | None => Done false
    | Some (source, sref) =>
        if bridge_reference_seen sha l source sref then Done false
        else match artifact_of w with
        | None => Done false
        | Some artifact =>
            obind (bridge_mint_would_apply sha l (att_fact (attestation artifact))) (fun claimed_ok =>
            if negb claimed_ok then Done false
            else obind (bridge_mint_fact l w chain) (fun fact =>
              match fact with None => Done false | Some fact => bridge_mint_would_apply sha l fact end))
        end
    end)).

Definition dispatch_bridge_mint (w : Wrapper) (chain : Z) : M bool :=
  frozen ← ask (bridge_is_frozen sha);
  if (frozen : bool) then mret false
  else
    fits ← ask (fun l => mint_fits l w);
    if negb fits then mret false
    else
      fact ← ask (fun l => bridge_mint_fact l w chain);
      match fact with
      | None => mret false
      | Some fact => bridge_mint sha fact
      end.

(** ** Settlements *)

Definition bridge_settle_fact (l : Ledger) (w : Wrapper) (chain : Z) : outcome (option ExitFact) :=
  match exit_attestation_of w with
  | None => Done None
  | Some att =>
      obind (bridge_dest_chain sha l) (fun dest =>
      match dest with
      | None => Done None
      | Some dest_chain =>
          obind (bridge_operator_set sha l) (fun ops => Done
          match ops with
          | None => None
          | Some operators =>
              if negb (exit_quorum operators att dest_chain chain (bridge_era sha l)) then None
              else Some (ack_fact att)
          end)
      end)
  end.
Definition bridge_settle_burn_ref (w : Wrapper) : option (list byte) :=
  option_map (fun a => exit_burn_ref (ack_fact a)) (exit_attestation_of w).
Definition max_settle_artifact_bytes (l : Ledger) : outcome Z :=
  obind (operator_count l) (fun n =>
  usize_sum 2 [Z.of_nat EXIT_FACT_ENCODED_LEN; 4; saturating_mul 64 n sig_frame]).

Definition bridge_settle_admissible (l : Ledger) (w : Wrapper) (chain : Z) : outcome bool :=
  if negb (bridge_exits_enabled sha l) then Done false
  else obind (bridge_is_frozen sha l) (fun frozen =>
    if (frozen : bool) then Done false
    else obind (max_settle_artifact_bytes l) (fun most =>
      if most <? len (call_args w) then Done false
      else obind (bridge_settle_fact l w chain) (fun fact => Done
        match fact with None => false | Some f => negb (bridge_exit_settled sha l (exit_burn_ref f)) end))).

Definition dispatch_bridge_settle (w : Wrapper) (chain : Z) : M bool :=
  enabled ← asks (bridge_exits_enabled sha);
  if negb enabled then mret false
  else
    most ← ask max_settle_artifact_bytes;
    if most <? len (call_args w) then mret false
    else
      frozen ← ask (bridge_is_frozen sha);
      if (frozen : bool) then mret false
      else
        fact ← ask (fun l => bridge_settle_fact l w chain);
        match fact with
        | None => mret false
        | Some f => match exit_outcome f with OutSettle => bridge_settle sha f | OutSlash => bridge_slash sha f end
        end.

(** ** Exit requests *)

Definition bridge_exit_admissible (l : Ledger) (w : Wrapper) (a : LedgerStake.Account) (p : FeeParams)
    (signature_ok : bool) : outcome (option ExitRequest) :=
  let b := body w in
  if negb (is_bridge_exit c w) then Done None
  else if negb (bridge_exits_enabled sha l) then Done None
  else obind (bridge_is_frozen sha l) (fun frozen =>
    if (frozen : bool) then Done None
    else if negb (has_key a) || negb (scheme_supported (scheme w)) || negb signature_ok then Done None
    else if negb (nonce b =? acc_nonce a) || (meter_limit b <? TRANSFER_METER) then Done None
    else if fee b <? transfer_fee p then Done None
    else if acc_balance a <? charged_fee w p then Done None
    else match ExitRequest_decode (args (call b)) with
    | None => Done None
    | Some request =>
        obind (bridged_asset sha l (req_asset request)) (fun found =>
        match found with
        | None => Done None
        | Some _ =>
            if req_amount request =? 0 then Done None
            else
              let ceiling := bridge_exit_max_amount sha l in
              if (ceiling =? 0) || (ceiling <? req_amount request) then Done None
              else match address_id (sender b) with
              | None => Done None
              | Some holder =>
                  obind (bridged_balance sha l (req_asset request) holder) (fun balance => Done
                  (if balance <? req_amount request then None else Some request))
              end
        end)
    end).

Definition dispatch_bridge_exit (w : Wrapper) (signature_ok : bool) (p : FeeParams) : M bool :=
  let from := sender (body w) in
  barred ← asks (fun l => is_blacklisted sha l from);
  if (barred : bool) then mret false
  else
    enabled ← asks (bridge_exits_enabled sha);
    if negb enabled then mret false
    else
      frozen ← ask (bridge_is_frozen sha);
      if (frozen : bool) then mret false
      else
        account ← asks (fun l => account sha l from);
        found ← ask (fun l => bridge_exit_admissible l w account p signature_ok);
        match found with
        | None => mret false
        | Some request =>
            ceiling ← asks (bridge_exit_max_amount sha);
            if (ceiling =? 0) || (ceiling <? req_amount request) then mret false
            else match address_id from with
            | None => mret false
            | Some holder =>
                charge sha from account (charged_fee w p) (charged_fee w p);;
                bridge_burn sha (req_asset request) holder (req_amount request) (req_destination request)
                  (fee_chain_id p) (nonce (body w))
            end
        end.

(** ** The pool and the block agree *)

Lemma run_bind {A B} (m : M A) (k : A -> M B) l b :
  ((m ≫= k) l).1 = Done b <-> exists a, (m l).1 = Done a /\ (k a (m l).2).1 = Done b.
Proof.
  unfold mbind, M_bind. destruct (m l) as [[a|] l']; cbn; split.
  - eauto.
  - by intros (a' & [= <-] & H).
  - done.
  - by intros (a' & H & _).
Qed.
Lemma run_ask {A B} (f : Ledger -> outcome A) (k : A -> M B) l b :
  ((ask f ≫= k) l).1 = Done b <-> exists a, f l = Done a /\ (k a l).1 = Done b.
Proof. apply run_bind. Qed.
Lemma run_asks {A B} (f : Ledger -> A) (k : A -> M B) l : (asks f ≫= k) l = k (f l) l.
Proof. done. Qed.
Lemma obind_done {A B} (m : outcome A) (k : A -> outcome B) b :
  obind m k = Done b <-> exists a, m = Done a /\ k a = Done b.
Proof. destruct m; cbn; [|naive_solver]. split; [eauto|]. by intros (a' & [= <-] & H). Qed.

Lemma done_inv {A} (a b : A) : Done a = Done b -> a = b.
Proof. by intros [= ->]. Qed.

(** Splits a check that has to come out true. *)
Ltac must_hold :=
  repeat match goal with
  | H : Done _ = Done _ |- _ => apply done_inv in H; subst
  | H : obind _ _ = Done _ |- _ => apply obind_done in H as (? & ? & H)
  | H : ((ask _ ≫= _) _).1 = Done true |- _ => apply run_ask in H as (? & ? & H)
  | H : ((asks _ ≫= _) _).1 = Done true |- _ => rewrite run_asks in H
  | H : (if ?b then Done false else _) = Done true |- _ => destruct b eqn:?; [discriminate H|]
  | H : (if ?b then Done None else _) = Done (Some _) |- _ => destruct b eqn:?; [discriminate H|]
  | H : ((if ?b then mret false else _) _).1 = Done true |- _ => destruct b eqn:?; [discriminate H|]
  | H : match ?o with Some _ => _ | None => Done false end = Done true |- _ => destruct o eqn:?; [|discriminate H]
  | H : match ?o with Some _ => _ | None => Done None end = Done (Some _) |- _ => destruct o eqn:?; [|discriminate H]
  | H : (match ?o with Some _ => _ | None => mret false end _).1 = Done true |- _ => destruct o eqn:?; [|discriminate H]
  end.

(** When a mint goes through. *)
Definition mint_ready (l : Ledger) (f : Fact) : Prop :=
  exists vault asset epoch minted balance custody,
    fact_amount f <> 0 /\ execution_height l <= expiry_height f /\
    bridge_pool_vault sha l = Some vault /\ bridged_asset sha l (fact_asset f) = Done (Some asset) /\
    bridge_reference_seen sha l (source_chain f) (source_ref f) = false /\
    bridge_epoch sha l = Done epoch /\ bridge_epoch_minted sha l (fact_asset f) epoch = Done minted /\
    bridged_balance sha l (fact_asset f) (recipient f) = Done balance /\
    bridge_vault_custody sha l vault (fact_asset f) = Done custody /\
    asset_supply_of asset + fact_amount f <= asset_cap asset /\ asset_supply_of asset + fact_amount f < 2 ^ 128 /\
    minted + fact_amount f <= asset_epoch_cap asset /\ minted + fact_amount f < 2 ^ 128 /\
    balance + fact_amount f < 2 ^ 128 /\ custody + fact_amount f < 2 ^ 128.

Lemma within_true a b most : within a b most = true <-> a + b <= most /\ a + b < 2 ^ 128.
Proof.
  unfold within, checked_add. destruct (Z.ltb_spec (a + b) (2 ^ 128)); [rewrite Z.leb_le|]; intuition (lia || done).
Qed.
Lemma fits128_true a b : fits128 a b = true <-> a + b < 2 ^ 128.
Proof.
  unfold fits128, checked_add. rewrite bool_decide_eq_true.
  destruct (Z.ltb_spec (a + b) (2 ^ 128)); split; intros; eauto; try lia. by destruct H0.
Qed.
Lemma checked_add_fits a b : a + b < 2 ^ 128 -> checked_add 128 a b = Some (a + b).
Proof. intros H. by apply checked_add_Some. Qed.

Lemma would_apply_ready l f : bridge_mint_would_apply sha l f = Done true <-> mint_ready l f.
Proof.
  unfold bridge_mint_would_apply. split.
  - intros H. must_hold. apply orb_false_iff in Heqb as [E1%Z.eqb_neq E2%Z.ltb_ge].
    apply negb_false_iff, andb_true_iff in Heqb1 as [[? ?]%within_true [? ?]%within_true].
    apply negb_false_iff, fits128_true in Heqb2. apply fits128_true in H.
    unfold mint_ready. by repeat eexists.
  - intros (v & a & e & m & b & cu & H1 & H2 & -> & -> & H3 & H4 & H5 & H6 & H7 & H8 & H9 & H10 & H11 & H12 & H13).
    rewrite (proj2 (Z.eqb_neq _ _) H1), (proj2 (Z.ltb_ge _ _) H2). cbn [orb obind].
    rewrite H3, H4. cbn [obind]. rewrite H5. cbn [obind]. rewrite !(proj2 (within_true _ _ _)) by done.
    cbn [andb negb]. rewrite H6. cbn [obind]. rewrite (proj2 (fits128_true _ _) H12). cbn [negb].
    rewrite H7. cbn [obind]. by rewrite (proj2 (fits128_true _ _) H13).
Qed.

Lemma credit_custody_true l a amt :
  (exists l', credit_vault_custody sha a amt l = (Done true, l')) <->
  match bridge_pool_vault sha l with
  | None => True
  | Some v => exists held, bridge_vault_custody sha l v a = Done held /\ held + amt < 2 ^ 128
  end.
Proof.
  unfold credit_vault_custody. rewrite run_asks. destruct (bridge_pool_vault sha l) as [v|]; [|split; [done|]; by eexists].
  unfold mbind at 1, M_bind, ask. destruct (bridge_vault_custody sha l v a) as [held|]; [|naive_solver].
  unfold checked_add. destruct (Z.ltb_spec (held + amt) (2 ^ 128)).
  - split; [eauto|]. intros _. by eexists.
  - split; [by intros [? [=]]|]. intros (h & [= <-] & ?). lia.
Qed.

Lemma mint_runs_ready l f : (bridge_mint sha f l).1 = Done true <-> mint_ready l f.
Proof.
  unfold bridge_mint. split.
  - intros H. must_hold. apply run_bind in H as (ok & Hc & H). destruct ok; [|done].
    assert (Hcr : exists l', credit_vault_custody sha (fact_asset f) (fact_amount f) l = (Done true, l')).
    { destruct (credit_vault_custody _ _ _ l) as [r l']. cbn in Hc. subst. by eexists. }
    apply credit_custody_true in Hcr. apply negb_false_iff, bool_decide_eq_true in Heqb0 as [v Hv].
    rewrite Hv in Hcr. destruct Hcr as (held & Eh & Lh).
    apply Z.eqb_neq in Heqb. apply Z.ltb_ge in Heqb1, Heqb3, Heqb4.
    apply checked_add_Some in Heqo0 as [-> ?], Heqo1 as [-> ?], Heqo2 as [-> ?].
    unfold mint_ready. by repeat eexists.
  - intros (v & a & e & m & b & cu & H1 & H2 & Hv & Ha & H3 & H4 & H5 & H6 & H7 & H8 & H9 & H10 & H11 & H12 & H13).
    rewrite (proj2 (Z.eqb_neq _ _) H1), !run_asks, Hv. cbn [bool_decide negb].
    rewrite bool_decide_true by done. cbn [negb]. rewrite (proj2 (Z.ltb_ge _ _) H2).
    apply run_ask. exists (Some a). split; [done|]. rewrite run_asks, H3, checked_add_fits by done.
    rewrite (proj2 (Z.ltb_ge _ _) H8). apply run_ask. exists e. split; [done|]. apply run_ask. exists m. split; [done|].
    rewrite checked_add_fits by done. rewrite (proj2 (Z.ltb_ge _ _) H10). apply run_ask. exists b. split; [done|].
    rewrite checked_add_fits by done. apply run_bind. exists true.
    assert (Hcr : exists l', credit_vault_custody sha (fact_asset f) (fact_amount f) l = (Done true, l')).
    { apply credit_custody_true. rewrite Hv. eauto. }
    destruct Hcr as [l' Hcr]. rewrite Hcr. done.
Qed.

(** A mint that was dispatched and went through: what was checked of it. *)
Record attested_mint (l : Ledger) (w : Wrapper) (chain : Z) (artifact : MintArtifact) (set : OperatorSet) (dest : Z) : Prop := {
  am_artifact : artifact_of w = Some artifact;
  am_open : bridge_federated_enabled sha l = true;
  am_dest : bridge_dest_chain sha l = Done (Some dest);
  am_set : bridge_operator_set sha l = Done (Some set);
  am_quorum : quorum set (attestation artifact) dest chain (bridge_era sha l) = true
}.

Lemma mint_fact_attested l w chain f :
  bridge_mint_fact l w chain = Done (Some f) ->
  exists artifact set dest, attested_mint l w chain artifact set dest /\ f = att_fact (attestation artifact).
Proof.
  unfold bridge_mint_fact. intros H. must_hold. apply negb_false_iff in Heqb, Heqb0.
  assert (E : f = att_fact (attestation m)).
  { destruct x1; [destruct (requires_stark _)|]; congruence. }
  eexists m, _, _. split; [|done]. by split.
Qed.

Lemma dispatch_mint_ready l w chain :
  (dispatch_bridge_mint w chain l).1 = Done true <->
  bridge_is_frozen sha l = Done false /\ mint_fits l w = Done true /\
  exists f, bridge_mint_fact l w chain = Done (Some f) /\ mint_ready l f.
Proof.
  unfold dispatch_bridge_mint. split.
  - intros H. must_hold. apply negb_false_iff in Heqb0. subst. split; [done|]. split; [done|].
    eexists. split; [done|]. by apply mint_runs_ready.
  - intros (H1 & H2 & f & H3 & H4). apply run_ask. exists false. split; [done|]. apply run_ask. exists true.
    split; [done|]. apply run_ask. exists (Some f). split; [done|]. by apply mint_runs_ready.
Qed.

Lemma admissible_mint_ready l w chain :
  bridge_mint_admissible l w chain = Done true <->
  bridge_is_frozen sha l = Done false /\ mint_fits l w = Done true /\
  exists f, bridge_mint_fact l w chain = Done (Some f) /\ mint_ready l f.
Proof.
  unfold bridge_mint_admissible. split.
  - intros H. must_hold. destruct p as [source sref]. must_hold. apply negb_false_iff in Heqb0, Heqb2. subst.
    split; [done|]. split; [done|]. eexists. split; [done|]. by apply would_apply_ready.
  - intros (-> & -> & f & H3 & H4). cbn [obind negb].
    destruct (mint_fact_attested l w chain f H3) as (artifact & set & dest & Hat & ->).
    unfold bridge_mint_source_key. rewrite (am_artifact _ _ _ _ _ _ Hat). cbn [option_map].
    pose proof H4 as (_ & _ & _ & _ & _ & _ & _ & _ & _ & _ & Hseen & _). rewrite Hseen.
    apply would_apply_ready in H4. rewrite H4. cbn [obind negb]. rewrite H3. done.
Qed.

(** The pool and the block agree on mints: on one ledger a mint transaction is
    admissible exactly when dispatching it goes through, and a fact would apply
    exactly when applying it goes through. *)
Theorem mint_admission_predicts_execution l w chain :
  (bridge_mint_admissible l w chain = Done true <-> (dispatch_bridge_mint w chain l).1 = Done true) /\
  (forall f, bridge_mint_would_apply sha l f = Done true <-> (bridge_mint sha f l).1 = Done true).
Proof.
  split.
  - by rewrite admissible_mint_ready, dispatch_mint_ready.
  - intros f. by rewrite would_apply_ready, mint_runs_ready.
Qed.

(** At least [op_threshold set] different keys of operators in force signed [message]. *)
Definition quorum_signed (set : OperatorSet) (message context : list byte) (ss : list SignerSig) : Prop :=
  0 < op_threshold set /\ exists keys, NoDup keys /\ op_threshold set <= len keys /\
    forall key, key ∈ keys -> key ∈ live_keys set /\ attests (ML_PUBLIC_KEY_BYTES c) ml_verify set message context key ss.

Lemma stored_set_threshold l set : bridge_operator_set sha l = Done (Some set) -> u32 (op_threshold set).
Proof.
  unfold bridge_operator_set, decode_some. destruct (singleton_leaf _ _ _) as [[|b bs]|]; try done.
  intros (s & E & [= ->])%obind_done. unfold expect_decoded in E.
  destruct (from_bytes OperatorSet_codec (b :: bs)) eqn:Ef; [|done]. injection E as ->.
  by apply from_bytes_canonical in Ef as [(_ & _ & H & _) _]; [|apply _].
Qed.

Lemma attested_keys set message context (keys : list (list byte)) ss :
  (forall key, key ∈ keys -> attests (ML_PUBLIC_KEY_BYTES c) ml_verify set message context key ss) ->
  forall key, key ∈ keys -> key ∈ live_keys set /\ attests (ML_PUBLIC_KEY_BYTES c) ml_verify set message context key ss.
Proof.
  intros H key Hk. split; [|auto]. destruct (H key Hk) as (s & _ & Hp & _). by eapply public_key_live.
Qed.

Lemma ask_inv {A} (f : Ledger -> outcome A) (k : A -> M bool) l l' :
  (ask f ≫= k) l = (Done true, l') -> exists a, f l = Done a /\ k a l = (Done true, l').
Proof. unfold mbind, M_bind, ask. destruct (f l) as [a|]; [|done]. eauto. Qed.

Lemma dispatch_settle_checked l w chain l' :
  dispatch_bridge_settle w chain l = (Done true, l') ->
  bridge_exits_enabled sha l = true /\ bridge_is_frozen sha l = Done false /\
  exists f, bridge_settle_fact l w chain = Done (Some f) /\
    match exit_outcome f with OutSettle => bridge_settle sha f | OutSlash => bridge_slash sha f end l = (Done true, l').
Proof.
  unfold dispatch_bridge_settle. rewrite run_asks. destruct (bridge_exits_enabled sha l); [|done]. cbn [negb].
  intros (most & _ & H)%ask_inv. destruct (_ <? _); [done|].
  apply ask_inv in H as (fr & Hfr & H). destruct fr; [done|].
  apply ask_inv in H as ([f|] & Hf & H); [|done]. split; [done|]. split; [done|]. by exists f.
Qed.

Lemma settle_fact_attested l w chain f :
  bridge_settle_fact l w chain = Done (Some f) ->
  exists att set dest, exit_attestation_of w = Some att /\ bridge_dest_chain sha l = Done (Some dest) /\
    bridge_operator_set sha l = Done (Some set) /\ exit_quorum set att dest chain (bridge_era sha l) = true /\
    f = ack_fact att.
Proof.
  unfold bridge_settle_fact. destruct (exit_attestation_of w) as [att|]; [|done].
  intros ([dest|] & Hd & H)%obind_done; [|done]. apply obind_done in H as ([set|] & Hs & H); [|done].
  destruct (exit_quorum _ _ _ _ _) eqn:Eq; [|done]. injection H as <-. by exists att, set, dest.
Qed.

(** C7: Assets move only on the word of a quorum.  A mint that goes through was open to
    federated corridors, carries a well-formed deposit bound for this chain, and a
    threshold of different keys of operators in force signed exactly this deposit
    under the chain id and the era of the ledger; what happens is the mint of that
    fact.  The same of settlements and reversals. *)
Theorem only_attested_facts_move_assets l w chain l' :
  (dispatch_bridge_mint w chain l = (Done true, l') ->
   exists artifact set, artifact_of w = Some artifact /\ bridge_operator_set sha l = Done (Some set) /\
     let f := att_fact (attestation artifact) in
     bridge_federated_enabled sha l = true /\ bridge_is_frozen sha l = Done false /\
     Fact_well_formed f = true /\ bridge_dest_chain sha l = Done (Some (fact_dest_chain f)) /\
     quorum_signed set (attest_preimage f chain) (attest_context (bridge_era sha l)) (signatures (attestation artifact)) /\
     bridge_mint sha f l = (Done true, l')) /\
  (dispatch_bridge_settle w chain l = (Done true, l') ->
   exists att set, exit_attestation_of w = Some att /\ bridge_operator_set sha l = Done (Some set) /\
     let f := ack_fact att in
     bridge_exits_enabled sha l = true /\ bridge_is_frozen sha l = Done false /\
     ExitFact_well_formed f = true /\ bridge_dest_chain sha l = Done (Some (exit_dest_chain f)) /\
     quorum_signed set (ack_preimage f chain) (exit_ack_context (bridge_era sha l)) (ack_signatures att) /\
     match exit_outcome f with OutSettle => bridge_settle sha f | OutSlash => bridge_slash sha f end l = (Done true, l')).
Proof.
  split; intros H.
  - assert (H1 : (dispatch_bridge_mint w chain l).1 = Done true) by by rewrite H.
    apply dispatch_mint_ready in H1 as (Hfr & Hfit & f & Hf & Hr).
    destruct (mint_fact_attested l w chain f Hf) as (artifact & set & dest & [Ha Ho Hd Hs Hq] & ->).
    apply quorum_meaning in Hq as (Ht & Hw & Hdest & _ & keys & N & L & A); [|by eapply stored_set_threshold].
    exists artifact, set. split; [done|]. split; [done|]. cbv zeta. rewrite Hdest. split_and!; try done.
    + split; [done|]. exists keys. split_and!; try done. by apply attested_keys.
    + unfold dispatch_bridge_mint in H.
      apply ask_inv in H as (fr & E1 & H). rewrite Hfr in E1. injection E1 as <-.
      apply ask_inv in H as (ft & E2 & H). rewrite Hfit in E2. injection E2 as <-.
      apply ask_inv in H as (g & E3 & H). rewrite Hf in E3. by injection E3 as <-.
  - apply dispatch_settle_checked in H as (Hen & Hfr & f & Hf & Hrun).
    destruct (settle_fact_attested l w chain f Hf) as (att & set & dest & Ha & Hd & Hs & Hq & ->).
    apply exit_quorum_meaning in Hq as (Ht & Hw & Hdest & keys & N & L & A); [|by eapply stored_set_threshold].
    exists att, set. split; [done|]. split; [done|]. cbv zeta. rewrite Hdest. split_and!; try done.
    split; [done|]. exists keys. split_and!; try done. by apply attested_keys.
Qed.
End Dispatch.

(** ** An example *)

Definition example_sigs : list SignerSig :=
  map (fun id => mkSignerSig id (replicate (ML_SIGNATURE_BYTES example_crypto) x01)) [1; 2].
Definition example_operators : OperatorSet :=
  mkOperators (map (fun id => (id, replicate (ML_PUBLIC_KEY_BYTES example_crypto) (byte_of id))) [1; 2; 3]) 2 [].
Definition example_fact : Fact :=
  mkFact 1 1 9 7 DirDeposit 0 (replicate 32 x0d) (replicate 16 x0a) 500 (replicate 32 x0b) 6 0 100.
Definition example_mint : Wrapper :=
  mkWrapper (with_context [] 0 0 0
    (mkCall [] (MintArtifact_encode (mkArtifact (mkAttestation example_fact example_sigs) None))) 0 7) SCHEME_HASH [].
Definition example_bridge : Ledger :=
  let h := sha3_256 example_crypto in
  ((set_bridge_pool_vault h (replicate 32 x0c);;
    register_bridged_asset h (replicate 16 x0a) 1000 1000 false;;
    seed_bridge_federated_enabled h true;; seed_bridge_dest_chain h 9;;
    seed_bridge_operator_set h example_operators) Ledger_new).2.

Lemma only_attested_facts_move_assets_witness :
  exists artifact, artifact_of example_mint = Some artifact /\
    Fact_well_formed (att_fact (attestation artifact)) = true.
Proof.
  destruct (only_attested_facts_move_assets example_crypto (fun _ _ _ _ => true) example_bridge example_mint 7
    (dispatch_bridge_mint example_crypto (fun _ _ _ _ => true) example_mint 7 example_bridge).2) as [H _].
  destruct H as (artifact & set & H1 & _ & _ & _ & H2 & _); [by vm_compute|]. by exists artifact.
Defined.
