(* ===== verification/GovDispatch.v ===== *)
(** * Governance transactions (qtv-node/src/node.rs)

    The operations a transaction to the governance address names, with the fee they
    are charged, and the acts of the guardians: their wire format, the message the
    guardians sign, the approvals that count, and what the execution of a block does
    with them. *)

From S2P Require Import Prelude Codec Idfmt Events LedgerState LedgerKeys.
From S2P Require Import Governance Staking Tx Fee LedgerStake LedgerCoins Bridge LedgerBridge LedgerGov.
From S2P Require Import SigCache Admission BridgeDispatch.

Definition GUARDIAN_DOMAIN : list byte := ascii "QUANTOVA/Q/BRIDGE-GUARDIAN/v1".
Definition GUARDIAN_UNFREEZE : Z := 0.
Definition GUARDIAN_FREEZE : Z := 1.
Definition GUARDIAN_ENACT : Z := 2.
Definition MAX_GUARDIAN_PAYLOAD : Z := 2 ^ 16.
Definition MAX_GUARDIAN_TARGETS : Z := 64.
Definition MAX_GUARDIAN_APPROVALS : Z := 64.

Record GuardianApproval : Type := mkApproval {
  approval_scheme : Z;
  approval_key : list byte;
  approval_signature : list byte
}.
Record GuardianAct : Type := mkAct {
  act_op : Z;
  act_bound : Z;
  act_targets : list (list byte);
  act_approvals : list GuardianApproval;
  act_payload : list byte
}.

Definition approval_encode (a : GuardianApproval) (e : Encoder) : Encoder :=
  e |> put_u8 (approval_scheme a) |> put_bytes (approval_key a) |> put_bytes (approval_signature a).
Definition GuardianAct_encode (a : GuardianAct) : list byte :=
  into_bytes (Encoder_new |> put_u8 (act_op a) |> put_u64 (act_bound a)
    |> put_u32 (wrap 32 (len (act_targets a))) |> (fun e => foldl (fun e t => put_bytes t e) e (act_targets a))
    |> put_u32 (wrap 32 (len (act_approvals a))) |> (fun e => foldl (fun e x => approval_encode x e) e (act_approvals a))
    |> put_bytes (act_payload a)).

(** [for _ in 0..count { items.push(read()?) }]; every failure ends in [None]. *)
Fixpoint read_times {A} (n : nat) (m : Dec A) : Dec (list A) :=
  match n with O => dret [] | S n => let* x := m in let* xs := read_times n m in dret (x :: xs) end.
Definition read_approval : Dec GuardianApproval :=
  let* scheme := get_u8 in
  let* key := get_bytes in
  let* signature := get_bytes in
  dret (mkApproval scheme key signature).
(** A check that ends the decoding with [None] when it fails. *)
Definition dcheck (ok : bool) : Dec unit := if ok then dret tt else dfail (UnknownTag 0).
Definition GuardianAct_read : Dec GuardianAct :=
  let* op := get_u8 in
  let* bound := get_u64 in
  let* target_count := get_u32 in
  let* _ := dcheck (target_count <=? MAX_GUARDIAN_TARGETS) in
  let* targets := read_times (Z.to_nat target_count) (get_array 32 (UnknownTag 0)) in
  let* approval_count := get_u32 in
  let* _ := dcheck (approval_count <=? MAX_GUARDIAN_APPROVALS) in
  let* approvals := read_times (Z.to_nat approval_count) read_approval in
  let* payload := get_bytes in
  let* _ := dcheck (len payload <=? MAX_GUARDIAN_PAYLOAD) in
  dret (mkAct op bound targets approvals payload).
Definition GuardianAct_decode (bytes : list byte) : option GuardianAct :=
  match GuardianAct_read (Decoder_new bytes) with
  | Ok (act, d) => if remaining d =? 0 then Some act else None
  | Err _ => None
  end.

Definition guardian_challenge (chain_id : Z) (era : list byte) (act : GuardianAct) : list byte :=
  to_le 8 chain_id ++ era ++ [byte_of (act_op act)] ++ to_le 8 (act_bound act) ++
  to_le 4 (wrap 32 (len (act_targets act))) ++ concat (act_targets act) ++
  to_le 4 (wrap 32 (len (act_payload act))) ++ act_payload act.
Definition guardian_enact_action (act : GuardianAct) : option Action := None.
Definition guardian_enact_challenge (chain_id : Z) (era : list byte) (enact_nonce : Z) (a : Action) : list byte :=
  guardian_challenge chain_id era (mkAct GUARDIAN_ENACT enact_nonce [] [] (to_bytes Action_codec a)).

Section Dispatch.
Context (c : Crypto).
(** [qtv_crypto::ml_dsa::verify] and [qtv_crypto::slh_dsa::verify]. *)
Context (ml_verify : list byte -> list byte -> list byte -> list byte -> bool).
Context (slh_verify : list byte -> list byte -> list byte -> list byte -> bool).
#[local] Notation sha := (sha3_256 c).

(** ** Guardians *)

Definition guardian_member_id (scheme : Z) (key : list byte) : outcome (option (list byte)) :=
  obind (address_for_key c scheme key) (fun address => Done (address_id address)).
Definition guardian_signature_ok (scheme : Z) (key message signature : list byte) : bool :=
  if scheme =? SCHEME_LATTICE then
    (length key =? ML_PUBLIC_KEY_BYTES c)%nat && (length signature =? ML_SIGNATURE_BYTES c)%nat &&
    ml_verify key message signature GUARDIAN_DOMAIN
  else if scheme =? SCHEME_HASH then
    (length key =? SLH_PUBLIC_KEY_BYTES c)%nat && slh_verify key message signature GUARDIAN_DOMAIN
  else false.

(** The loop of [guardian_approvers]: a member is tried once, with its first approval. *)
Fixpoint approvers_loop (set : GuardianSet) (message : list byte) (todo : list GuardianApproval)
    (attempted verified : list (list byte)) : outcome (list (list byte)) :=
  match todo with
  | [] => Done verified
  | a :: todo =>
      obind (guardian_member_id (approval_scheme a) (approval_key a)) (fun found =>
      match found with
      | None => approvers_loop set message todo attempted verified
      | Some id =>
          if bool_decide (id ∈ attempted) then approvers_loop set message todo attempted verified
          else
            let attempted := attempted ++ [id] in
            if negb (is_member set id) then approvers_loop set message todo attempted verified
            else if guardian_signature_ok (approval_scheme a) (approval_key a) message (approval_signature a)
            then approvers_loop set message todo attempted (verified ++ [id])
            else approvers_loop set message todo attempted verified
      end)
  end.
Definition guardian_approvers (set : GuardianSet) (act : GuardianAct) (chain_id : Z) (era : list byte) :
    outcome (list (list byte)) :=
  approvers_loop set (guardian_challenge chain_id era act) (act_approvals act) [] [].

(** The first approval of a member decides. *)
Fixpoint first_member_signs (set : GuardianSet) (message : list byte) (todo : list GuardianApproval) : outcome bool :=
  match todo with
  | [] => Done false
  | a :: todo =>
      obind (guardian_member_id (approval_scheme a) (approval_key a)) (fun found =>
      match found with
      | None => first_member_signs set message todo
      | Some id =>
          if is_member set id
          then Done (guardian_signature_ok (approval_scheme a) (approval_key a) message (approval_signature a))
          else first_member_signs set message todo
      end)
  end.
Definition feeless_signed_by_a_member (l : Ledger) (w : Wrapper) (chain_id : Z) : outcome bool :=
  let era := bridge_era sha l in
  if is_bridge_guardian c w then
    obind (guardian_set sha l) (fun set =>
    match GuardianAct_decode (call_args w) with
    | None => Done false
    | Some act => first_member_signs set (guardian_challenge chain_id era act) (act_approvals act)
    end)
  else obind (bridge_operator_set sha l) (fun found =>
    match found with
    | None => Done false
    | Some ops =>
        let signs := first_operator_signs (ML_PUBLIC_KEY_BYTES c) (ML_SIGNATURE_BYTES c) ml_verify ops in
        if is_bridge_mint c w then
          match artifact_of w with
          | None => Done false
          | Some artifact =>
              let fact := att_fact (attestation artifact) in
              if negb (Fact_well_formed fact) then Done false
              else obind (bridge_dest_chain sha l) (fun dest =>
                Done (bool_decide (Some (fact_dest_chain fact) = dest) &&
                  signs (signatures (attestation artifact)) (attest_preimage fact chain_id) era false))
          end
        else if is_bridge_settle c w then
          match exit_attestation_of w with
          | None => Done false
          | Some att =>
              let fact := ack_fact att in
              if negb (ExitFact_well_formed fact) then Done false
              else obind (bridge_dest_chain sha l) (fun dest =>
                Done (bool_decide (Some (exit_dest_chain fact) = dest) &&
                  signs (ack_signatures att) (ack_preimage fact chain_id) era true))
          end
        else Done false
    end).

(** What [guardian_admissible] and [guardian_act_is_current] ask of the act itself. *)
Definition bound_is_current (l : Ledger) (act : GuardianAct) : outcome bool :=
  if act_op act =? GUARDIAN_FREEZE then
    obind (guardian_freeze_epoch sha l) (fun epoch => Done (act_bound act =? epoch))
  else if act_op act =? GUARDIAN_UNFREEZE then
    obind (bridge_freeze sha l) (fun found =>
    Done match found with Some freeze => freeze_until freeze =? act_bound act | None => false end)
  else if act_op act =? GUARDIAN_ENACT then
    obind (guardian_enact_nonce sha l) (fun nonce => Done (act_bound act =? nonce))
  else Done false.
Definition guardian_act_is_current (l : Ledger) (w : Wrapper) : outcome bool :=
  match GuardianAct_decode (call_args w) with None => Done false | Some act => bound_is_current l act end.

Definition guardian_admissible (l : Ledger) (w : Wrapper) (chain_id : Z) : outcome bool :=
  obind (guardian_set sha l) (fun set =>
  if negb (well_formed set) then Done false
  else match GuardianAct_decode (call_args w) with
  | None => Done false
  | Some act =>
      if (act_op act =? GUARDIAN_FREEZE) && bool_decide (act_targets act = []) then Done false
      else if (act_op act =? GUARDIAN_ENACT) && negb (bool_decide (is_Some (guardian_enact_action act))) then Done false
      else obind (bound_is_current l act) (fun current =>
        if negb current then Done false
        else if (act_op act =? GUARDIAN_FREEZE) && existsb (is_protected_account sha) (act_targets act) then Done false
        else obind (guardian_approvers set act chain_id (bridge_era sha l)) (fun approvers =>
          Done (authorizes set approvers)))
  end).

Definition dispatch_bridge_guardian (w : Wrapper) (chain_id now : Z) : M bool :=
  set ← ask (guardian_set sha);
  if negb (well_formed set) then mret false
  else match GuardianAct_decode (call_args w) with
  | None => mret false
  | Some act =>
      approvers ← ask (fun l => guardian_approvers set act chain_id (bridge_era sha l));
      if act_op act =? GUARDIAN_FREEZE then guardian_freeze sha (act_bound act) (act_targets act) approvers now
      else if act_op act =? GUARDIAN_UNFREEZE then
        found ← ask (bridge_freeze sha);
        match found with
        | Some freeze =>
            if freeze_until freeze =? act_bound act then guardian_bridge_unfreeze sha approvers now else mret false
        | None => mret false
        end
      else if act_op act =? GUARDIAN_ENACT then
        match guardian_enact_action act with
        | Some a =>
            if authorizes set approvers then guardian_enact_bridge_action sha a (act_bound act) now else mret false
        | None => mret false
        end
      else mret false
  end.

(** ** Governance *)

Definition run_gov_op (sender : list byte) (op : GovOp) (chain_id now : Z) : M unit :=
  match op with
  | Propose a => gov_propose sha sender (Action_track a) a now;; mret tt
  | Vote referendum aye conviction stake => gov_vote sha sender referendum aye conviction stake now;; mret tt
  | Enact referendum =>
      gov_enact sha (ML_PUBLIC_KEY_BYTES c) (ML_SIGNATURE_BYTES c) ml_verify referendum now chain_id;; mret tt
  | Conclude referendum => gov_conclude sha referendum now;; mret tt
  | Release => gov_release sha sender now;; mret tt
  end.

Definition dispatch_governance (w : Wrapper) (signature_ok : bool) (p : FeeParams) (now : Z) : M bool :=
  let b := body w in
  if negb (bool_decide (native_asset p = QTOV_ASSET_TAG)) then mret false
  else
    listed ← asks (fun l => is_blacklisted sha l (sender b));
    if (listed : bool) then mret false
    else
      acc ← asks (fun l => LedgerStake.account sha l (sender b));
      match governance_admissible c w acc p signature_ok with
      | None => mret false
      | Some op =>
          charge sha (sender b) acc (charged_fee w p) (charged_fee w p);;
          run_gov_op (sender b) op (fee_chain_id p) now;;
          mret true
      end.
End Dispatch.
