(* ===== verification/LedgerGovSpec.v ===== *)
(** * Coins are conserved by everything but the bridge

    Governance transactions as the node runs them, each charged its fee inside
    [apply_atomic], interleaved with the staking operations and settlements of
    [LedgerHistory]: after any history, the coins held in accounts, bonds, rewards,
    locks, the pool, the treasury and the deposits of open referenda are the supply. *)

From S2P Require Import Prelude Codec Idfmt Events LedgerState LedgerKeys.
From S2P Require Import Governance Staking Tx Fee LedgerStake LedgerCoins LedgerConserve LedgerHistory.
From S2P Require Import Bridge LedgerBridge LedgerGov LedgerGovJournal LedgerFrames LedgerGovCoins.
From S2P Require Import SigCache Admission BridgeDispatch GovDispatch.

(** What happens between two states a reader can see. *)
Inductive ChainStep : Type :=
| OfLedger (s : LedgerStep)
| OfGovernance (w : Wrapper) (signature_ok : bool) (p : FeeParams) (now : Z).

Section Chain.
Context (c : Crypto) (ml_verify : list byte -> list byte -> list byte -> list byte -> bool).
Context (execute_transfer : Z -> Z -> Z -> Z -> Z -> option (Z * Z)).
#[local] Notation sha := (sha3_256 c).

Definition run_chain_step (s : ChainStep) : M unit :=
  match s with
  | OfLedger s => run_step sha execute_transfer s
  | OfGovernance w ok p now => apply_atomic (dispatch_governance c ml_verify w ok p now);; mret tt
  end.

Lemma journaled_dispatch w ok p now : Journaled (dispatch_governance c ml_verify w ok p now).
Proof. unfold dispatch_governance, run_gov_op. journaled. Qed.

Context (U : list (list byte)) (U_nodup : NoDup U) (U_apart : apart sha U)
  (U_ids : Forall (fun id => length id = 32%nat) U)
  (U_grants : sha (ascii "qtv/gov/grants") ∈ U).
Context (moves : transfer_moves execute_transfer).
Context (R : list Z) (R_nodup : NoDup R) (R_ids : Forall (fun id => u64 id) R) (W : list (list byte)).
Context (K_apart : separates sha (book_keys R) (book_keys R ++ slot_strings U)).
Context (W_quiet : forall x, x ∈ W -> foreign sha (book_keys R ++ slot_strings U) x).
Context (W_singles : forall x, x ∈ [GOV_LOCKED_TAG; GOV_GUARDIAN_FREEZE_TARGETS_TAG] -> x ∈ W).
Context (W_refs : forall id x, id ∈ R -> x ∈ referendum_strings U id -> x ∈ W).

#[local] Notation Inv := (LedgerGovCoins.Inv sha U R K_apart).
#[local] Notation account := (LedgerStake.account sha).

(** The referenda and accounts an operation names are in play. *)
Definition gov_op_ready (l : Ledger) (now : Z) (op : GovOp) : Prop :=
  match op with
  | Propose _ => forall n, gov_next_id sha l = Done n -> n ∈ R
  | Vote id _ _ stake => id ∈ R /\ u64 stake
  | Enact id => id ∈ R /\ enact_ready sha U W l id now
  | Conclude id => id ∈ R
  | Release => True
  end.
(** What the node guarantees of a governance transaction: it runs on the ledger left by
    the fee, inside the atomic step. *)
Definition gov_ready (l : Ledger) (w : Wrapper) (p : FeeParams) (now : Z) : Prop :=
  let l0 := with_journal (Some []) l in let a := sender (body w) in
  usable sha U l a /\ typed_params p /\ u128 (fee (body w)) /\ u64 now /\
  forall l1 op, charge sha a (account l0 a) (charged_fee w p) (charged_fee w p) l0 = (Done tt, l1) ->
    (exists ok, governance_admissible c w (account l0 a) p ok = Some op) -> gov_op_ready l1 now op.

Definition chain_ready (l : Ledger) (s : ChainStep) : Prop :=
  match s with
  | OfLedger s => step_ready sha U l s
  | OfGovernance w _ p now => gov_ready l w p now
  end.

Inductive chain_reachable (genesis : Ledger) : Ledger -> Prop :=
| chain_start : chain_reachable genesis genesis
| chain_step l s : chain_reachable genesis l -> chain_ready l s -> chain_reachable genesis (run_chain_step s l).2.

Lemma inv_leaves l l' : Inv l -> leaves l' = leaves l -> round_proposer l' = round_proposer l ->
  execution_height l' = execution_height l -> heights_per_epoch l' = heights_per_epoch l -> Inv l'.
Proof. intros [S O] E1 E2 E3 E4. apply (stage_inv sha U R K_apart l l'); [|done]. by eapply books_events. Qed.

Lemma run_gov_op_inv l a op now chain_id : Inv l -> in_play U a -> u64 now -> gov_op_ready l now op ->
  wlp (run_gov_op c ml_verify a op chain_id now) (fun _ => Inv) l.
Proof using U_nodup U_apart U_ids U_grants R_nodup R_ids K_apart W_quiet W_refs W_singles.
  intros HI Ha Hnow Hr. destruct op; cbn [run_gov_op gov_op_ready] in *; apply wlp_bind;
    (eapply wlp_mono; [intros ? l' HI'; apply wlp_ret; exact HI'|]).
  - by eapply gov_propose_inv.
  - destruct Hr. by eapply gov_vote_inv.
  - destruct Hr. by eapply gov_enact_inv.
  - by eapply gov_conclude_inv.
  - by eapply gov_release_inv.
Qed.

Lemma admissible_pays w a p ok op : governance_admissible c w a p ok = Some op -> charged_fee w p <= acc_balance a.
Proof.
  unfold governance_admissible. cbv zeta. do 5 (match goal with |- (if ?b then _ else _) = _ -> _ => destruct b; [discriminate|] end).
  destruct (Z.ltb_spec (acc_balance a) (charged_fee w p)); [discriminate|done].
Qed.

Lemma dispatch_inv l w ok p now : Inv l -> gov_ready l w p now ->
  wlp (dispatch_governance c ml_verify w ok p now) (fun _ => Inv) (with_journal (Some []) l).
Proof using U_nodup U_apart U_ids U_grants R_nodup R_ids K_apart W_quiet W_refs W_singles.
  intros HI0 (Hu & Hp & Hf & Hnow & Hready). set (l0 := with_journal (Some []) l) in *.
  assert (HI : Inv l0) by (by apply (inv_leaves l)). pose proof HI as [HB Hok].
  pose proof (open_deposits_nonneg sha U R l0 Hok) as Hpos. destruct Hu as [(id & Ha & Hid) Hn].
  unfold dispatch_governance. case_step; [by apply wlp_ret|]. apply wlp_bind, wlp_asks. case_step; [by apply wlp_ret|].
  apply wlp_bind, wlp_asks. destruct (governance_admissible _ _ _ _ _) as [op|] eqn:Eop; [|by apply wlp_ret].
  pose proof (admissible_pays _ _ _ _ _ Eop) as Hbal. pose proof (charged_fee_u64 w p Hp Hf) as Hfee.
  assert (HC : wp (charge sha (sender (body w)) (account l0 (sender (body w))) (charged_fee w p) (charged_fee w p)) (fun _ => Inv) l0).
  { eapply (wp_charge sha U U_nodup U_apart U_ids U_grants 0 (Z.le_refl 0) _ 0 l0 _ id); [exact HB|done|done|done|done|done|done|done|].
    intros l1 HB1 _. apply (stage_inv sha U R K_apart l0 l1); [|done]. unfold Stage.
    replace (open_deposits sha R l0 + charged_fee w p - charged_fee w p) with (open_deposits sha R l0) in HB1 by lia.
    eapply books_lower; [exact HB1|]. intros x. unfold spend. rewrite Ha. unfold raise.
    pose proof (account_u64 sha l0 (sender (body w))) as ([? _] & _). destruct (decide (x = id)); lia. }
  apply wlp_bind. unfold wp in HC. unfold wlp.
  destruct (charge _ _ _ _ _ l0) as [[[]|] l1] eqn:Ec; [|done].
  match goal with |- match ?m l1 with _ => _ end => change (wlp m (fun _ => Inv) l1) end.
  apply wlp_bind. eapply wlp_mono; [intros ? l' HI'; apply wlp_ret; exact HI'|].
  apply run_gov_op_inv; [done|by exists id|done|]. apply Hready; [done|by exists ok].
Qed.

Lemma chain_step_inv s l : Inv l -> chain_ready l s -> Inv (run_chain_step s l).2.
Proof using U_nodup U_apart U_ids U_grants moves R_nodup R_ids K_apart W_quiet W_refs W_singles.
  intros HI Hr. destruct s as [s|w ok p now]; cbn [run_chain_step chain_ready] in *.
  - pose proof HI as [HB Hok]. pose proof (open_deposits_nonneg sha U R l Hok) as Hpos.
    pose proof (step_balanced sha execute_transfer U U_nodup U_apart U_ids U_grants moves (Oth:=snap sha U R K_apart l)
      _ Hpos (fun _ => 0) s l HB Hr) as Hw.
    unfold wp in Hw. destruct (run_step sha execute_transfer s l) as [[[]|] l']; [|done]. by apply (stage_inv sha U R K_apart l l').
  - pose proof (dispatch_inv l w ok p now HI Hr) as Hd. set (m := dispatch_governance c ml_verify w ok p now) in *.
    pose proof (journaled_dispatch w ok p now) as J. fold m in J. pose proof (J (with_journal (Some []) l)) as G1.
    assert (E : ((apply_atomic m;; mret tt) l).2 = (apply_atomic m l).2).
    { unfold mbind, M_bind. by destruct (apply_atomic m l) as [[]]. }
    rewrite E. destruct (apply_atomic_outcome m l J) as [(_ & Er & El & _ & _ & G)|(_ & (El & _) & G)].
    + unfold wlp in Hd. destruct (m (with_journal (Some []) l)) as [[b|] l1]; [|done]. cbn [fst snd] in *.
      apply (inv_leaves l1); [done|done|..]; destruct G, G1; cbn in *; congruence.
    + apply (inv_leaves l); [done|done|..]; by destruct G.
Qed.

(** C1: After any history of staking operations, transfers, slashings, settlements and
    governance transactions (proposals, votes, conclusions, releases and the enactment
    of referenda, whether they mint, spend, seize, freeze or change a setting), the
    coins in accounts, bonds, rewards and vote locks, with the pool, the treasury and
    the deposits of the referenda still open, are exactly the supply, and the staked
    total is exactly the sum of the bonds.  A deposit is held from the proposal until
    the referendum is concluded and then goes back or to the treasury, once; a seizure
    gives the victim what it took and no more; a transaction that panics leaves nothing
    behind. *)
Theorem chain_conserves_coins genesis l :
  Inv genesis -> chain_reachable genesis l ->
  total_supply sha l = Done (circulating sha U l + open_deposits sha R l) /\
  total_staked sha l = Done (bonded sha U l).
Proof using U_nodup U_apart U_ids U_grants moves R_nodup R_ids K_apart W_quiet W_refs W_singles.
  intros HI Hreach. assert (Hl : Inv l) by (induction Hreach; [done|by apply chain_step_inv]).
  destruct Hl as [HB _]. destruct (books_add_up sha U (Oth:=snap sha U R K_apart l) _ _ l HB) as (E & E1 & E2).
  by rewrite E1, E2, E.
Qed.
End Chain.

(** ** A proposal *)

Lemma foreign_check sha F x : forallb (fun y => negb (bool_decide (sha x = sha y))) F = true -> foreign sha F x.
Proof.
  intros H (y & Hy & E). rewrite forallb_forall in H. apply list_elem_of_In in Hy. specialize (H y Hy).
  apply negb_true_iff, bool_decide_eq_false in H. done.
Qed.

Definition proposal_balance : Z := 50000000000000.
Definition proposal_account : list byte := to_bytes Account_codec (mkAccount 0 proposal_balance SCHEME_HASH [x01; x02]).
Definition proposal_genesis : Ledger := from_trie
  {[ example_hash (slot_preimage (SAccount id_a)) := proposal_account;
     example_hash (slot_preimage SSupply) := to_bytes u64_codec proposal_balance ]}.
Definition proposal_refs : list Z := [1; 2].
Definition proposal_strings : list (list byte) :=
  [GOV_LOCKED_TAG; GOV_GUARDIAN_FREEZE_TARGETS_TAG] ++ concat (map (referendum_strings example_ids) proposal_refs).
Definition proposal_params : FeeParams :=
  mkFeeParams MICRO_USD_FLOOR 1000000 1000000 1000 LOCAL_CHAIN_ID QTOV_ASSET_TAG (replicate 32 xde).
Definition proposal_target : list byte := match gov_system_address example_hash with Done a => a | Panic => [] end.
Definition proposal_tx : Wrapper :=
  mkWrapper (with_context address_a 0 5000 1000 (mkCall proposal_target (x01 :: to_bytes Action_codec (Freeze [id_b]))) 0 LOCAL_CHAIN_ID)
    SCHEME_HASH [].
Definition proposal_steps : list ChainStep := [OfLedger (NextBlock 10 address_b); OfGovernance proposal_tx true proposal_params 100000].
#[local] Notation proposal_run := (run_chain_step example_crypto (fun _ _ _ _ => false) example_transfer).
Definition proposal_end : Ledger := foldl (fun l s => (proposal_run s l).2) proposal_genesis proposal_steps.

Lemma proposal_keys : separates example_hash (book_keys proposal_refs) (book_keys proposal_refs ++ slot_strings example_ids).
Proof. apply separates_check. by vm_compute. Qed.
Lemma proposal_quiet x : x ∈ proposal_strings -> foreign example_hash (book_keys proposal_refs ++ slot_strings example_ids) x.
Proof.
  intros Hx. apply foreign_check. apply list_elem_of_In in Hx.
  assert (H : forallb (fun x => forallb (fun y => negb (bool_decide (example_hash x = example_hash y)))
    (book_keys proposal_refs ++ slot_strings example_ids)) proposal_strings = true) by (by vm_compute).
  rewrite forallb_forall in H. by apply H.
Qed.
Lemma proposal_refs_in id x : id ∈ proposal_refs -> x ∈ referendum_strings example_ids id -> x ∈ proposal_strings.
Proof.
  intros Hid Hx. apply elem_of_app. right. apply list_elem_of_In, in_concat. exists (referendum_strings example_ids id).
  split; [by apply in_map, list_elem_of_In|by apply list_elem_of_In].
Qed.

Lemma proposal_leaf s : s ∈ slots example_ids -> s <> SAccount id_a -> s <> SSupply -> leaf_at example_hash proposal_genesis s = None.
Proof.
  intros Hs H1 H2.
  assert (Ha : SAccount id_a ∈ slots example_ids) by (apply (bool_decide_unpack _); by vm_compute).
  assert (Hu : SSupply ∈ slots example_ids) by slot_in.
  transitivity (({[ example_hash (slot_preimage SSupply) := to_bytes u64_codec proposal_balance ]} : Leaves) !! example_hash (slot_preimage s)).
  - apply lookup_insert_ne. intros E. apply H1. symmetry. exact (slot_key_inj example_hash example_ids _ _ example_apart Ha Hs E).
  - apply lookup_singleton_ne. intros E. apply H2. symmetry. exact (slot_key_inj example_hash example_ids _ _ example_apart Hu Hs E).
Qed.

Lemma proposal_start : Inv example_hash example_ids proposal_refs proposal_keys proposal_genesis.
Proof.
  split.
  - constructor; [|by vm_compute|by vm_compute|done|done|done].
    + intros s Hs. destruct (decide (s = SAccount id_a)) as [->|H1]; [|destruct (decide (s = SSupply)) as [->|H2]].
      * assert (E : leaf_at example_hash proposal_genesis (SAccount id_a) = Some proposal_account) by (by vm_compute).
        rewrite E. split; [intros bs H; injection H as <-; by vm_compute|by vm_compute].
      * exists proposal_balance. by vm_compute.
      * rewrite proposal_leaf by done. apply leaf_ok_None.
  - split.
    + intros id r [->|[->|[]%elem_of_nil]%elem_of_cons]%elem_of_cons H; vm_compute in H; discriminate H.
    + intros n _ id [->|[->|[]%elem_of_nil]%elem_of_cons]%elem_of_cons _; by vm_compute.
Qed.

Lemma proposal_ready : gov_ready example_crypto example_ids proposal_refs proposal_strings
  (proposal_run (OfLedger (NextBlock 10 address_b)) proposal_genesis).2 proposal_tx proposal_params 100000.
Proof.
  split_and!; [split; [apply example_in_play|by vm_compute]|split_and!; by vm_compute|by vm_compute|by vm_compute|].
  intros l1 op Ec (ok & Eop).
  assert (Hop : op = Propose (Freeze [id_b])) by (destruct ok; vm_compute in Eop; [injection Eop as <-; by vm_compute|discriminate Eop]). subst op.
  intros n Hn. apply (f_equal snd) in Ec. cbn [snd] in Ec. subst l1. vm_compute in Hn. injection Hn as <-. by left.
Qed.

Lemma chain_conserves_coins_witness :
  total_supply example_hash proposal_end = Done (circulating example_hash example_ids proposal_end + 39000000000) /\
  total_staked example_hash proposal_end = Done (bonded example_hash example_ids proposal_end).
Proof.
  destruct (chain_conserves_coins example_crypto (fun _ _ _ _ => false) example_transfer example_ids example_nodup example_apart
    example_lengths example_grants example_transfer_moves proposal_refs ltac:(apply (bool_decide_unpack _); by vm_compute)
    ltac:(by repeat constructor) proposal_strings proposal_keys proposal_quiet
    ltac:(intros x Hx; apply elem_of_app; by left) proposal_refs_in proposal_genesis proposal_end proposal_start) as [H1 H2].
  - apply (chain_step _ _ _ _ _ _ _ (proposal_run (OfLedger (NextBlock 10 address_b)) proposal_genesis).2); [|apply proposal_ready].
    apply chain_step; [apply chain_start|]. split; [done|]. right. apply example_in_play.
  - split.
    + assert (E : open_deposits example_hash proposal_refs proposal_end = 39000000000) by (by vm_compute). rewrite <- E. exact H1.
    + exact H2.
Defined.
