(* ===== verification/Mempool.v ===== *)
(** * The mempool (qtv-node/src/mempool.rs)

    Pending transactions with the indexes kept over them: ids, transactions by
    sender, the nonces of a sender, the counts of the lanes, the payloads and ages
    of feeless transactions and the sources of pending mints.  Every public
    operation is here: admission one by one and in batches, revalidation after a
    block, eviction, removal of included transactions, and the order in which
    candidates leave the pool.

    What the pool asks of evidence, bridge and contract execution is the class
    [Lanes]; the wall clock is an argument.  Counts are natural numbers: none
    exceeds the capacity, a [usize]. *)

From stdpp Require Import sorting.
From S2P Require Import Prelude Codec Idfmt Tx SigCache Events LedgerState LedgerKeys.
From S2P Require Import Governance Staking Fee LedgerStake Admission.

(** ** What the pool asks of the other lanes *)

Class Lanes : Type := mkLanes {
  bridge_mint_source_key : Wrapper -> option (Z * list byte);
  bridge_settle_burn_ref : Wrapper -> option (list byte);
  bridge_mint_still_live : Ledger -> Wrapper -> bool;
  bridge_reference_seen : Ledger -> Z * list byte -> bool;
  bridge_exit_settled : Ledger -> list byte -> bool;
  bridge_exits_enabled : Ledger -> bool;
  bridge_mint_admissible : Ledger -> Wrapper -> Z -> Z -> bool;
  bridge_settle_admissible : Ledger -> Wrapper -> Z -> bool;
  bridge_exit_admissible : Ledger -> Wrapper -> LedgerStake.Account -> FeeParams -> bool -> bool;
  bridge_freeze_admissible : Ledger -> list byte -> Z -> Z -> bool;
  bridge_unfreeze_admissible : Ledger -> list byte -> Z -> bool;
  feeless_decodes : Wrapper -> bool;
  feeless_signed_by_a_member : Ledger -> Wrapper -> Z -> bool;
  evidence_offender_is_slashable : Wrapper -> Ledger -> bool;
  evidence_admissible : Z -> Wrapper -> Ledger -> bool;
  guardian_act_is_current : Ledger -> Wrapper -> bool;
  guardian_admissible : Ledger -> Wrapper -> Z -> bool;
  vm_admissible : Wrapper -> LedgerStake.Account -> FeeParams -> bool -> bool -> bool;
  vm_target_dispatchable : Ledger -> Wrapper -> bool
}.

(** ** The state *)

Definition DEFAULT_MEMPOOL_CAP : nat := 65536%nat.
Definition DEFAULT_PER_SENDER_CAP : nat := 1024%nat.
Definition DEFAULT_PRIORITY_RESERVE : nat := 512%nat.
Definition DEFAULT_FEELESS_ADMITS_PER_WINDOW : nat := 128%nat.
Definition DEFAULT_FEELESS_ATTEMPTS_PER_WINDOW : nat := 512%nat.
Definition DEFAULT_FEELESS_POOL_CAP : nat := 1024%nat.
Definition FEELESS_MAX_AGE_HEIGHTS : Z := 64.
Definition CONTRACTS_ENABLED : bool := true.

Inductive AdmitOutcome : Type := Fresh | Known.

Record VerifyHint : Type := mkVerifyHint { hint_public_key : list byte; hint_ok : bool }.
Record AdmitHint : Type := mkAdmitHint {
  hint_signature : option VerifyHint;
  feeless_ok : option bool;
  key_register_ok : option bool
}.
Definition AdmitHint_default : AdmitHint := mkAdmitHint None None None.

(** The attempts of each feeless lane in the current window. *)
Record Attempts : Type := mkAttempts {
  evidence_attempts : nat;
  mint_attempts : nat;
  update_attempts : nat;
  cosmos_update_attempts : nat;
  settle_attempts : nat;
  guardian_attempts : nat
}.

Record Mempool : Type := mkMempool {
  pending : list Wrapper;
  ids : gset (list byte);
  by_sender : gmap (list byte) nat;
  sender_nonces : gmap (list byte * Z) nat;
  normal_count : nat;
  cap : nat;
  per_sender : nat;
  reserve : nat;
  feeless_cap : nat;
  feeless_admits : nat;
  feeless_attempts_cap : nat;
  attempts : Attempts;
  mint_sources : gset (Z * list byte);
  feeless_count : nat;
  feeless_pool_cap : nat;
  feeless_payloads : gset (list byte);
  feeless_seen : gmap (list byte) Z;
  height : Z;
  ceiling : Z
}.

Definition no_attempts : Attempts := mkAttempts 0 0 0 0 0 0.

Definition with_limits (cap per_sender reserve : nat) : Mempool :=
  mkMempool [] ∅ ∅ ∅ 0 (Nat.max cap 1) (Nat.max per_sender 1) (Nat.min reserve (cap - 1))
    DEFAULT_FEELESS_ADMITS_PER_WINDOW 0 DEFAULT_FEELESS_ATTEMPTS_PER_WINDOW no_attempts ∅ 0
    DEFAULT_FEELESS_POOL_CAP ∅ ∅ 0 (2 ^ 128 - 1).
Definition Mempool_new : Mempool :=
  with_limits DEFAULT_MEMPOOL_CAP DEFAULT_PER_SENDER_CAP DEFAULT_PRIORITY_RESERVE.

(** Assignments to the fields. *)
Definition set_pending (ws : list Wrapper) (m : Mempool) : Mempool :=
  mkMempool ws (ids m) (by_sender m) (sender_nonces m) (normal_count m) (cap m) (per_sender m) (reserve m)
    (feeless_cap m) (feeless_admits m) (feeless_attempts_cap m) (attempts m) (mint_sources m)
    (feeless_count m) (feeless_pool_cap m) (feeless_payloads m) (feeless_seen m) (height m) (ceiling m).
Definition set_ids (s : gset (list byte)) (m : Mempool) : Mempool :=
  mkMempool (pending m) s (by_sender m) (sender_nonces m) (normal_count m) (cap m) (per_sender m) (reserve m)
    (feeless_cap m) (feeless_admits m) (feeless_attempts_cap m) (attempts m) (mint_sources m)
    (feeless_count m) (feeless_pool_cap m) (feeless_payloads m) (feeless_seen m) (height m) (ceiling m).
Definition set_senders (bs : gmap (list byte) nat) (sn : gmap (list byte * Z) nat) (m : Mempool) : Mempool :=
  mkMempool (pending m) (ids m) bs sn (normal_count m) (cap m) (per_sender m) (reserve m)
    (feeless_cap m) (feeless_admits m) (feeless_attempts_cap m) (attempts m) (mint_sources m)
    (feeless_count m) (feeless_pool_cap m) (feeless_payloads m) (feeless_seen m) (height m) (ceiling m).
Definition set_normal_count (n : nat) (m : Mempool) : Mempool :=
  mkMempool (pending m) (ids m) (by_sender m) (sender_nonces m) n (cap m) (per_sender m) (reserve m)
    (feeless_cap m) (feeless_admits m) (feeless_attempts_cap m) (attempts m) (mint_sources m)
    (feeless_count m) (feeless_pool_cap m) (feeless_payloads m) (feeless_seen m) (height m) (ceiling m).
Definition set_window (admits : nat) (a : Attempts) (m : Mempool) : Mempool :=
  mkMempool (pending m) (ids m) (by_sender m) (sender_nonces m) (normal_count m) (cap m) (per_sender m)
    (reserve m) (feeless_cap m) admits (feeless_attempts_cap m) a (mint_sources m)
    (feeless_count m) (feeless_pool_cap m) (feeless_payloads m) (feeless_seen m) (height m) (ceiling m).
Definition set_mint_sources (s : gset (Z * list byte)) (m : Mempool) : Mempool :=
  mkMempool (pending m) (ids m) (by_sender m) (sender_nonces m) (normal_count m) (cap m) (per_sender m)
    (reserve m) (feeless_cap m) (feeless_admits m) (feeless_attempts_cap m) (attempts m) s
    (feeless_count m) (feeless_pool_cap m) (feeless_payloads m) (feeless_seen m) (height m) (ceiling m).
Definition set_feeless (n : nat) (payloads : gset (list byte)) (seen : gmap (list byte) Z) (m : Mempool)
    : Mempool :=
  mkMempool (pending m) (ids m) (by_sender m) (sender_nonces m) (normal_count m) (cap m) (per_sender m)
    (reserve m) (feeless_cap m) (feeless_admits m) (feeless_attempts_cap m) (attempts m) (mint_sources m)
    n (feeless_pool_cap m) payloads seen (height m) (ceiling m).
Definition set_clock (height ceiling : Z) (m : Mempool) : Mempool :=
  mkMempool (pending m) (ids m) (by_sender m) (sender_nonces m) (normal_count m) (cap m) (per_sender m)
    (reserve m) (feeless_cap m) (feeless_admits m) (feeless_attempts_cap m) (attempts m) (mint_sources m)
    (feeless_count m) (feeless_pool_cap m) (feeless_payloads m) (feeless_seen m) height ceiling.

(** ** Computations on the pool

    A refusal is an [Err]; what was done to the pool before it stays. *)

Definition P (A : Type) : Type := Mempool -> outcome (Result Reject A) * Mempool.

#[export] Instance P_ret : MRet P := fun _ a m => (Done (Ok a), m).
#[export] Instance P_bind : MBind P := fun _ _ k p m =>
  match p m with
  | (Done (Ok a), m') => k a m'
  | (Done (Err e), m') => (Done (Err e), m')
  | (Panic, m') => (Panic, m')
  end.
Definition refuse {A} (e : Reject) : P A := fun m => (Done (Err e), m).
Definition pool {A} (f : Mempool -> A) : P A := fun m => (Done (Ok (f m)), m).
Definition update (f : Mempool -> Mempool) : P unit := fun m => (Done (Ok tt), f m).
Definition pure_outcome {A} (o : outcome A) : P A := fun m => (obind o (fun a => Done (Ok a)), m).
Definition pure_result {A} (r : Result Reject A) : P A := fun m => (Done r, m).
Definition require (b : bool) (e : Reject) : P unit := if b then mret tt else refuse e.

(** ** Counting maps *)

(** [*map.entry(key).or_insert(0) += 1] and its inverse, which drops a zero. *)
Definition count_up {K} `{Countable K} (k : K) (m : gmap K nat) : gmap K nat :=
  <[k := S (default 0%nat (m !! k))]> m.
Definition count_down {K} `{Countable K} (k : K) (m : gmap K nat) : gmap K nat :=
  match m !! k with
  | Some n => if (n - 1 =? 0)%nat then delete k m else <[k := (n - 1)%nat]> m
  | None => m
  end.

Section Pool.
Context (c : Crypto) (genesis : option (list byte)) (degenerate : list byte -> bool).
Context {lanes : Lanes}.
#[local] Notation sha := (sha3_256 c).
#[local] Notation is_feeless := (is_feeless c).
#[local] Notation is_priority := (is_priority c).

(** [wrapper.id()]: the digest it renders has the length that renders. *)
Definition id_of (w : Wrapper) : list byte :=
  match id_str c w with Done text => text | Panic => [] end.

Definition feeless_payload_key (w : Wrapper) : list byte :=
  sha (target (call (body w)) ++ args (call (body w))).

(** ** The indexes *)

Definition nonce_slot (w : Wrapper) : list byte * Z := (sender (body w), nonce (body w)).

Definition mint_key (w : Wrapper) : option (Z * list byte) :=
  if is_bridge_mint c w then bridge_mint_source_key w else None.

Definition track (w : Wrapper) (m : Mempool) : Mempool :=
  let m := if is_feeless w then m
    else set_senders (count_up (sender (body w)) (by_sender m)) (count_up (nonce_slot w) (sender_nonces m)) m in
  let m :=
    if is_feeless w then
      set_feeless (S (feeless_count m)) ({[feeless_payload_key w]} ∪ feeless_payloads m)
        (<[id_of w := height m]> (feeless_seen m)) m
    else if negb (is_priority w) then set_normal_count (S (normal_count m)) m
    else m in
  match mint_key w with
  | Some key => set_mint_sources ({[key]} ∪ mint_sources m) m
  | None => m
  end.

Definition untrack (w : Wrapper) (m : Mempool) : Mempool :=
  let m := if is_feeless w then m
    else set_senders (count_down (sender (body w)) (by_sender m)) (count_down (nonce_slot w) (sender_nonces m)) m in
  let m :=
    if is_feeless w then
      set_feeless (feeless_count m - 1) (feeless_payloads m ∖ {[feeless_payload_key w]})
        (delete (id_of w) (feeless_seen m)) m
    else if negb (is_priority w) then set_normal_count (normal_count m - 1) m
    else m in
  match mint_key w with
  | Some key => set_mint_sources (mint_sources m ∖ {[key]}) m
  | None => m
  end.

Definition hold (w : Wrapper) (m : Mempool) : Mempool :=
  let m := track w m in set_pending (pending m ++ [w]) m.

Definition forget_id (id : list byte) (m : Mempool) : Mempool := set_ids (ids m ∖ {[id]}) m.

(** [remove_at]; an index out of range would panic, and no caller has one. *)
Definition remove_at (index : nat) (m : Mempool) : Mempool :=
  match pending m !! index with
  | Some w => untrack w (forget_id (id_of w) (set_pending (delete index (pending m)) m))
  | None => m
  end.

Definition sender_count (sender : list byte) (m : Mempool) : nat := default 0%nat (by_sender m !! sender).
Definition effective_fee (m : Mempool) (w : Wrapper) : Z := Z.min (fee (body w)) (ceiling m).

(** [iter().enumerate().filter(..).min_by(..)]: the first of the smallest. *)
Fixpoint lowest (keep : Wrapper -> bool) (cost : Wrapper -> Z) (index : nat) (ws : list Wrapper)
    : option (nat * Z) :=
  match ws with
  | [] => None
  | w :: ws =>
      let rest := lowest keep cost (S index) ws in
      if keep w then
        match rest with
        | Some (i, f) => if f <? cost w then Some (i, f) else Some (index, cost w)
        | None => Some (index, cost w)
        end
      else rest
  end.
Definition is_normal (w : Wrapper) : bool := negb (is_priority w) && negb (is_feeless w).
Definition lowest_fee_normal (m : Mempool) : option (nat * Z) :=
  lowest is_normal (effective_fee m) 0 (pending m).
Definition lowest_fee_priority (m : Mempool) : option (nat * Z) :=
  lowest is_priority (effective_fee m) 0 (pending m).

Definition duplicate_mint (incoming : Wrapper) (m : Mempool) : bool :=
  match bridge_mint_source_key incoming with
  | Some key => bool_decide (key ∈ mint_sources m)
  | None => false
  end.

(** [iter().position(..)]. *)
Definition position (f : Wrapper -> bool) (ws : list Wrapper) : option nat :=
  fst <$> list_find (fun w => f w = true) ws.

Definition held_mint_survives (incoming : Wrapper) (l : Ledger) : P bool :=
  match bridge_mint_source_key incoming with
  | None => mret true
  | Some key =>
      found ← pool (fun m => position (fun held => bool_decide (mint_key held = Some key)) (pending m));
      match found with
      | None => mret true
      | Some index =>
          live ← pool (fun m => match pending m !! index with
            | Some held => bridge_mint_still_live l held | None => true end);
          if (live : bool) then mret true else update (remove_at index) ;; mret false
      end
  end.

Definition duplicate_settle (incoming : Wrapper) (m : Mempool) : bool :=
  match bridge_settle_burn_ref incoming with
  | None => false
  | Some burn_ref => existsb (fun w => is_bridge_settle c w && bool_decide (bridge_settle_burn_ref w = Some burn_ref))
      (pending m)
  end.

Definition has_pending_from_sender_nonce (w : Wrapper) (m : Mempool) : bool :=
  bool_decide (is_Some (sender_nonces m !! nonce_slot w)).

Definition queue_full (incoming : Wrapper) (m : Mempool) : bool :=
  negb (is_feeless incoming) && (per_sender m <=? sender_count (sender (body incoming)) m)%nat.
Definition normal_room (m : Mempool) : bool :=
  (normal_count m <? cap m - reserve m)%nat && (length (pending m) <? cap m)%nat.
Definition has_capacity (incoming : Wrapper) (m : Mempool) : bool :=
  if queue_full incoming m then false
  else if is_priority incoming then true
  else if is_feeless incoming then (feeless_count m <? feeless_pool_cap m)%nat
  else normal_room m.

(** ** The windows of feeless transactions *)

Definition feeless_has_room (m : Mempool) : bool := (feeless_admits m <? feeless_cap m)%nat.
Definition charge_feeless : P bool :=
  room ← pool feeless_has_room;
  if (room : bool) then update (fun m => set_window (S (feeless_admits m)) (attempts m) m) ;; mret true
  else mret false.

Definition attempt_count (w : Wrapper) (a : Attempts) : nat :=
  if is_evidence c w then evidence_attempts a
  else if is_bridge_mint c w then mint_attempts a
  else if is_bridge_settle c w then settle_attempts a
  else guardian_attempts a.
Definition set_attempt_count (w : Wrapper) (n : nat) (a : Attempts) : Attempts :=
  let '(mkAttempts e mt up cu st gd) := a in
  if is_evidence c w then mkAttempts n mt up cu st gd
  else if is_bridge_mint c w then mkAttempts e n up cu st gd
  else if is_bridge_settle c w then mkAttempts e mt up cu n gd
  else mkAttempts e mt up cu st n.
Definition set_attempts (w : Wrapper) (n : nat) (m : Mempool) : Mempool :=
  set_window (feeless_admits m) (set_attempt_count w n (attempts m)) m.

Definition charge_feeless_attempt_for (w : Wrapper) : P bool :=
  full ← pool (fun m => (feeless_attempts_cap m <=? attempt_count w (attempts m))%nat);
  if (full : bool) then mret false
  else update (fun m => set_attempts w (S (attempt_count w (attempts m))) m) ;; mret true.
Definition refund_feeless_attempt_for (w : Wrapper) : P unit :=
  update (fun m => set_attempts w (attempt_count w (attempts m) - 1) m).

Definition feeless_attempt_gate (w : Wrapper) (l : Ledger) (chain_id : Z) (hint : option bool) : P bool :=
  room ← pool feeless_has_room;
  if negb room then refuse RateLimited
  else match hint with
  | Some true => mret false
  | Some false => refuse BadCall
  | None =>
      if negb (is_evidence c w) && negb (feeless_signed_by_a_member l w chain_id) then refuse BadCall
      else
        charged ← charge_feeless_attempt_for w;
        if (charged : bool) then mret true else refuse RateLimited
  end.

(** ** Room for an incoming transaction *)

Definition evict_at (victim : option (nat * Z)) (accept : Z -> bool) : P unit :=
  match victim with
  | Some (index, fee) => if accept fee then update (remove_at index) else refuse PoolFull
  | None => refuse PoolFull
  end.

Definition make_room (incoming : Wrapper) : P unit :=
  full ← pool (queue_full incoming);
  if (full : bool) then refuse SenderQueueFull
  else
    normal ← pool lowest_fee_normal;
    priority ← pool lowest_fee_priority;
    space ← pool (fun m => (length (pending m) <? cap m)%nat);
    bid ← pool (fun m => effective_fee m incoming);
    if is_feeless incoming then
      room ← pool (fun m => (feeless_count m <? feeless_pool_cap m)%nat);
      if negb room then refuse PoolFull
      else if (space : bool) then mret tt
      else evict_at (match normal with Some v => Some v | None => priority end) (fun _ => true)
    else if is_priority incoming then
      if (space : bool) then mret tt
      else match normal with
      | Some (index, _) => update (remove_at index)
      | None => evict_at priority (fun fee => fee <? bid)
      end
    else
      room ← pool normal_room;
      if (room : bool) then mret tt else evict_at normal (fun fee => fee <? bid).

(** ** The checks of the lanes *)

Definition transfer_dispatchable (l : Ledger) (plan : TransferPlan) (now_seconds : Z) : outcome bool :=
  let day := now_seconds / 86400 in
  let from := plan_sender plan in
  let to_ address := names (address sha) (plan_recipient plan) in
  if to_ stake_system_address then bond_admissible sha l from (plan_amount plan) (plan_fee plan)
  else if to_ stake_exit_address then request_exit_admissible sha l from (plan_fee plan) day
  else if to_ stake_withdraw_address then withdraw_admissible sha l from (plan_fee plan) day
  else if to_ bridge_freeze_address then Done (bridge_freeze_admissible l from (plan_fee plan) now_seconds)
  else if to_ bridge_unfreeze_address then Done (bridge_unfreeze_admissible l from (plan_fee plan))
  else if to_ stake_claim_address then Done true
  else Done (negb (is_blacklisted sha l (plan_recipient plan))).

(** A hint answers for the key it names; without one the signature is checked. *)
Definition verified (w : Wrapper) (public_key : list byte) (hint : option VerifyHint) : bool :=
  match hint with
  | Some h =>
      if negb (bool_decide (public_key = [])) && bool_decide (hint_public_key h = public_key) then hint_ok h
      else plain_verify c genesis w public_key
  | None => plain_verify c genesis w public_key
  end.

Definition funding_gate_passes (w : Wrapper) (l : Ledger) (p : FeeParams) : bool :=
  let a := account sha l (sender (body w)) in
  (nonce (body w) =? acc_nonce a) && (charged_fee w p <=? acc_balance a).

Definition admission_hint (w : Wrapper) (l : Ledger) (p : FeeParams) (now_seconds : Z) : AdmitHint :=
  let feeless ok := mkAdmitHint None (Some ok) None in
  if is_key_register c w then
    if funding_gate_passes w l p then mkAdmitHint None None (Some (key_register_signature c genesis w))
    else AdmitHint_default
  else if is_signed_lane c w then
    let key := acc_public_key (account sha l (sender (body w))) in
    if negb (bool_decide (key = [])) && funding_gate_passes w l p then
      mkAdmitHint (Some (mkVerifyHint key (plain_verify c genesis w key))) None None
    else AdmitHint_default
  else if is_evidence c w then feeless (evidence_admissible (fee_chain_id p) w l)
  else if is_bridge_guardian c w then feeless (guardian_admissible l w (fee_chain_id p))
  else if is_bridge_mint c w then feeless (bridge_mint_admissible l w (fee_chain_id p) now_seconds)
  else if is_bridge_settle c w then feeless (bridge_settle_admissible l w (fee_chain_id p))
  else AdmitHint_default.

Definition nonce_free (w : Wrapper) : P unit :=
  taken ← pool (has_pending_from_sender_nonce w); require (negb taken) SenderQueueFull.

(** A feeless lane behind its window of attempts: an attempt that is admissible is
    given back. *)
Definition feeless_lane (w : Wrapper) (l : Ledger) (p : FeeParams) (hint : option bool) (admissible : bool)
    : P unit :=
  charged ← feeless_attempt_gate w l (fee_chain_id p) hint;
  require (default admissible hint) BadCall ;;
  if (charged : bool) then refund_feeless_attempt_for w else mret tt.

Definition lane_checks (w : Wrapper) (l : Ledger) (p : FeeParams) (hint : AdmitHint) (now_seconds : Z)
    : P unit :=
  let a := account sha l (sender (body w)) in
  let signature_ok := verified w (acc_public_key a) (hint_signature hint) in
  if is_vm_op c w then
    require CONTRACTS_ENABLED BadCall ;;
    nonce_free w ;;
    require (sender_prevalidated w a p) BadCall ;;
    require (vm_admissible w a p signature_ok (is_deploy c w) && vm_target_dispatchable l w) BadCall
  else if is_key_register c w then
    nonce_free w ;;
    require (bool_decide (is_Some (key_register_admissible c genesis degenerate w a p (key_register_ok hint))))
      BadCall
  else if is_stake_payee c w then
    nonce_free w ;;
    require (sender_prevalidated w a p) BadCall ;;
    require (bool_decide (is_Some (stake_payee_admissible c w a p signature_ok l))) BadCall
  else if is_priority w then
    nonce_free w ;;
    require (sender_prevalidated w a p) BadCall ;;
    require (bool_decide (is_Some (governance_admissible c w a p signature_ok))) BadCall
  else if is_evidence c w then
    require (feeless_decodes w && evidence_offender_is_slashable w l) BadCall ;;
    feeless_lane w l p (feeless_ok hint) (evidence_admissible (fee_chain_id p) w l)
  else if is_bridge_guardian c w then
    require (feeless_decodes w && guardian_act_is_current l w) BadCall ;;
    feeless_lane w l p (feeless_ok hint) (guardian_admissible l w (fee_chain_id p))
  else if is_bridge_mint c w then
    require (feeless_decodes w) BadCall ;;
    feeless_lane w l p (feeless_ok hint) (bridge_mint_admissible l w (fee_chain_id p) now_seconds)
  else if is_bridge_settle c w then
    require (feeless_decodes w) BadCall ;;
    feeless_lane w l p (feeless_ok hint) (bridge_settle_admissible l w (fee_chain_id p))
  else if is_bridge_exit c w then
    nonce_free w ;;
    require (sender_prevalidated w a p) BadCall ;;
    require (bridge_exit_admissible l w a p signature_ok) BadCall
  else if is_registration c w then refuse BadCall
  else
    nonce_free w ;;
    plan ← pure_result (match hint_signature hint with
      | Some h =>
          if negb (bool_decide (acc_public_key a = [])) && bool_decide (hint_public_key h = acc_public_key a)
          then plan_verified c w a p (hint_ok h)
          else validate c genesis w l p
      | None => validate c genesis w l p
      end);
    ok ← pure_outcome (transfer_dispatchable l plan now_seconds);
    require ok BadCall.

(** The mint and settlement screens; [true] when the pool already holds one for the
    same reference. *)
Definition screen_mint (w : Wrapper) (l : Ledger) : P bool :=
  if negb (is_bridge_mint c w) then mret false
  else
    duplicate ← pool (duplicate_mint w);
    held ← (if (duplicate : bool) then held_mint_survives w l else mret false);
    if (held : bool) then mret true
    else
      require (match bridge_mint_source_key w with
        | Some reference => negb (bridge_reference_seen l reference) | None => false end) BadCall ;;
      mret false.
Definition screen_settle (w : Wrapper) (l : Ledger) : P bool :=
  if negb (is_bridge_settle c w) then mret false
  else
    duplicate ← pool (duplicate_settle w);
    if (duplicate : bool) then mret true
    else
      require (match bridge_settle_burn_ref w with
        | Some burn_ref => negb (bridge_exit_settled l burn_ref) | None => false end) BadCall ;;
      mret false.

Definition screen_feeless (w : Wrapper) : P unit :=
  if negb (is_feeless w) then mret tt
  else
    capacity ← pool (has_capacity w);
    require capacity PoolFull ;;
    room ← pool feeless_has_room;
    require room RateLimited ;;
    require (feeless_decodes w) BadCall.

(** The end of an admission: a feeless transaction is charged to the window, room is
    made and the transaction is held. *)
Definition enter (w : Wrapper) : P unit :=
  paid ← (if is_feeless w then charge_feeless else mret true);
  require paid RateLimited ;;
  make_room w ;;
  update (fun m => let m := hold w m in set_ids ({[id_of w]} ∪ ids m) m).

Definition Mempool_admit (w : Wrapper) (l : Ledger) (p : FeeParams) (hint : option AdmitHint) (now_seconds : Z)
    : P AdmitOutcome :=
  require (chain_ok w p) WrongChain ;;
  update (set_clock (execution_height l) (ceiling_fee p)) ;;
  held ← pool (fun m => bool_decide (id_of w ∈ ids m));
  if (held : bool) then mret Known
  else
    require (validity_admits c w (execution_height l)) BadCall ;;
    same ← pool (fun m => is_feeless w && bool_decide (feeless_payload_key w ∈ feeless_payloads m));
    if (same : bool) then mret Known
    else
      require (canonical_address (sender (body w))) UnknownSender ;;
      require (canonical_address (target (call (body w))) && negb (oversized w)) BadCall ;;
      require (negb (sender_barred c l w)) BadCall ;;
      minted ← screen_mint w l;
      if (minted : bool) then mret Known
      else
        settled ← screen_settle w l;
        if (settled : bool) then mret Known
        else
          screen_feeless w ;;
          lane_checks w l p (default AdmitHint_default hint) now_seconds ;;
          enter w ;;
          mret Fresh.

(** ** Batches *)

Definition PARALLEL_VERIFY_THRESHOLD : nat := 4%nat.

(** [slice.chunks(n)], at most [fuel] of them. *)
Fixpoint chunks {A} (fuel n : nat) (xs : list A) : list (list A) :=
  match fuel, xs with
  | O, _ | _, [] => []
  | S fuel, _ => take n xs :: chunks fuel n (drop n xs)
  end.

(** The verdicts of a batch, computed in chunks on several cores when it is long
    enough; each chunk writes its own part of the result. *)
Definition verify_signatures (l : Ledger) (batch : list Wrapper) (verify_cores : nat) : list bool :=
  let verdict w := plain_verify c genesis w (acc_public_key (account sha l (sender (body w)))) in
  let cores := Nat.min verify_cores (length batch) in
  if (cores <=? 1)%nat || (length batch <? PARALLEL_VERIFY_THRESHOLD)%nat then map verdict batch
  else
    let chunk := ((length batch + cores - 1) / cores)%nat in
    concat (map (map verdict) (chunks (length batch) chunk batch)).

Definition batch_lane (w : Wrapper) (l : Ledger) (p : FeeParams) (signature_ok : bool) (now_seconds : Z)
    : P unit :=
  let a := account sha l (sender (body w)) in
  if is_vm_op c w then
    require CONTRACTS_ENABLED BadCall ;;
    nonce_free w ;;
    require (vm_admissible w a p signature_ok (is_deploy c w) && vm_target_dispatchable l w) BadCall
  else if is_key_register c w then
    nonce_free w ;;
    require (bool_decide (is_Some (key_register_admissible c genesis degenerate w a p None))) BadCall
  else if is_stake_payee c w then
    nonce_free w ;;
    require (bool_decide (is_Some (stake_payee_admissible c w a p signature_ok l))) BadCall
  else if is_priority w then
    nonce_free w ;;
    require (bool_decide (is_Some (governance_admissible c w a p signature_ok))) BadCall
  else if is_evidence c w then require (evidence_admissible (fee_chain_id p) w l) BadCall
  else if is_bridge_guardian c w then require (guardian_admissible l w (fee_chain_id p)) BadCall
  else if is_bridge_mint c w then require (bridge_mint_admissible l w (fee_chain_id p) now_seconds) BadCall
  else if is_bridge_settle c w then require (bridge_settle_admissible l w (fee_chain_id p)) BadCall
  else if is_bridge_exit c w then
    nonce_free w ;;
    require (bridge_exit_admissible l w a p signature_ok) BadCall
  else if is_registration c w then refuse BadCall
  else
    nonce_free w ;;
    plan ← pure_result (validate_verified c w l p signature_ok);
    ok ← pure_outcome (transfer_dispatchable l plan now_seconds);
    require ok BadCall.

(** One transaction of a batch; a [continue] of the loop is a refusal. *)
Definition admit_one (w : Wrapper) (l : Ledger) (p : FeeParams) (signature_ok : bool) (now_seconds : Z)
    : P unit :=
  require (chain_ok w p) WrongChain ;;
  held ← pool (fun m => bool_decide (id_of w ∈ ids m));
  require (negb held) BadCall ;;
  require (canonical_address (sender (body w)) && canonical_address (target (call (body w))) &&
    negb (oversized w) && negb (sender_barred c l w)) BadCall ;;
  minted ← screen_mint w l;
  require (negb minted) BadCall ;;
  settled ← screen_settle w l;
  require (negb settled) BadCall ;;
  charged ← (if is_feeless w then
    screen_feeless w ;; feeless_attempt_gate w l (fee_chain_id p) None else mret false);
  batch_lane w l p signature_ok now_seconds ;;
  (if (charged : bool) then refund_feeless_attempt_for w else mret tt) ;;
  enter w.

(** The loop: a refused transaction leaves what its checks did to the pool. *)
Fixpoint admit_loop (batch : list (Wrapper * bool * Z)) (l : Ledger) (p : FeeParams) : P (list Wrapper) :=
  match batch with
  | [] => mret []
  | (w, signature_ok, now_seconds) :: rest => fun m =>
      match admit_one w l p signature_ok now_seconds m with
      | (Done (Ok _), m) => (admitted ← admit_loop rest l p; mret (w :: admitted)) m
      | (Done (Err _), m) => admit_loop rest l p m
      | (Panic, m) => (Panic, m)
      end
  end.

(** [clock] is the wall clock at each round of the loop. *)
Definition admit_batch_across (batch : list Wrapper) (l : Ledger) (p : FeeParams) (verify_cores : nat)
    (clock : nat -> Z) : P (list Wrapper) :=
  let batch := List.filter (fun w => negb (oversized w)) batch in
  let verdicts := verify_signatures l batch verify_cores in
  update (set_clock (execution_height l) (ceiling_fee p)) ;;
  admit_loop (imap (fun i entry => (entry.1, entry.2, clock i)) (zip batch verdicts)) l p.

(** ** Candidates *)

(** [candidate_order] is [Less] or [Equal]: feeless first, then the higher bid up to
    the ceiling, then the older one. *)
Definition candidate_le (ceiling : Z) (a b : nat * Wrapper) : Prop :=
  let bid w := Z.min (fee (body w)) ceiling in
  let fa := is_feeless a.2 in
  let fb := is_feeless b.2 in
  (fa = true /\ fb = false) \/
  (fa = fb /\ (bid b.2 < bid a.2 \/ (bid a.2 = bid b.2 /\ (a.1 <= b.1)%nat))).
#[global] Instance candidate_le_dec ceiling a b : Decision (candidate_le ceiling a b).
Proof. unfold candidate_le. apply _. Defined.

Definition numbered (m : Mempool) : list (nat * Wrapper) := zip (seq 0 (length (pending m))) (pending m).

(** [Vec::sort_by] is a stable merge sort; distinct entries never compare equal. *)
Definition candidates (m : Mempool) : list Wrapper :=
  snd <$> merge_sort (candidate_le (ceiling m)) (numbered m).

Definition find_pending (id : list byte) (m : Mempool) : option Wrapper :=
  if negb (bool_decide (id ∈ ids m)) then None
  else snd <$> list_find (fun w => id_of w = id) (pending m).

Definition weight_of (w : Wrapper) : Z := len (args (call (body w))) + len (signature w) + 256.
Fixpoint within_bytes (room : Z) (any : bool) (ws : list Wrapper) : list Wrapper :=
  match ws with
  | [] => []
  | w :: ws =>
      if (room <? weight_of w) && any then []
      else w :: within_bytes (saturating_sub room (weight_of w)) true ws
  end.

(** [select_nth_unstable_by] leaves the entries before the position it selects in an
    order of its own: [select] is what stands there. *)
Definition top_candidates_within (select : nat -> list (nat * Wrapper) -> list (nat * Wrapper))
    (limit : nat) (max_bytes : Z) (m : Mempool) : list Wrapper :=
  let refs := numbered m in
  let refs := if (limit <? length refs)%nat then select limit refs else refs in
  within_bytes max_bytes false (snd <$> merge_sort (candidate_le (ceiling m)) refs).
Definition top_candidates select (limit : nat) (m : Mempool) : list Wrapper :=
  top_candidates_within select limit (2 ^ 64 - 1) m.

(** ** Revalidation and removal *)

(** [u64::try_from(fee.min(ceiling)).unwrap_or(u64::MAX)]. *)
Definition capped_fee (m : Mempool) (w : Wrapper) : Z := to_u64_capped (effective_fee m w).

Definition is_stale (l : Ledger) (w : Wrapper) : bool :=
  nonce (body w) <? acc_nonce (account sha l (sender (body w))).
Definition is_refused (l : Ledger) (now_seconds : Z) (m : Mempool) (w : Wrapper) : outcome bool :=
  obind (if is_plain_transfer c w then
      obind (transfer_dispatchable l (mkPlan (sender (body w)) (target (call (body w)))
        (default 0 (transfer_amount (call (body w)))) (capped_fee m w)) now_seconds)
        (fun ok => Done (negb ok))
    else Done false)
  (fun refused => Done (refused || (is_vm_op c w && negb (vm_target_dispatchable l w)))).
Definition is_settled (l : Ledger) (w : Wrapper) : bool :=
  if is_bridge_mint c w then
    match bridge_mint_source_key w with Some reference => bridge_reference_seen l reference | None => true end
  else if is_bridge_settle c w then
    match bridge_settle_burn_ref w with Some burn_ref => bridge_exit_settled l burn_ref | None => true end
  else false.
Definition is_aged (l : Ledger) (m : Mempool) (w : Wrapper) : bool :=
  is_feeless w &&
  match feeless_seen m !! id_of w with
  | Some seen => FEELESS_MAX_AGE_HEIGHTS <? saturating_sub (execution_height l) seen
  | None => true
  end.
Definition is_unfunded (l : Ledger) (m : Mempool) (w : Wrapper) : bool :=
  let a := account sha l (sender (body w)) in
  let amount := if is_plain_transfer c w then default 0 (transfer_amount (call (body w))) else 0 in
  is_signed_lane c w && (nonce (body w) =? acc_nonce a) &&
  (acc_balance a <? saturating_add 64 (capped_fee m w) amount).

Definition must_go (l : Ledger) (now_seconds : Z) (m : Mempool) (w : Wrapper) : outcome bool :=
  obind (is_refused l now_seconds m w) (fun refused =>
  Done (is_stale l w || sender_barred c l w || negb (validity_admits c w (execution_height l)) || refused ||
    is_settled l w || (is_bridge_exit c w && negb (bridge_exits_enabled l)) || is_unfunded l m w ||
    is_aged l m w)).

Definition drop_one (w : Wrapper) (m : Mempool) : Mempool := untrack w (forget_id (id_of w) m).

(** The loop over the pool taken out of it; [kept] in the order of the pool. *)
Fixpoint revalidate_loop (l : Ledger) (clock : nat -> Z) (i : nat) (ws kept : list Wrapper) (m : Mempool)
    : outcome Mempool :=
  match ws with
  | [] => Done (set_pending kept m)
  | w :: ws =>
      obind (must_go l (clock i) m w) (fun go =>
      if (go : bool) then revalidate_loop l clock (S i) ws kept (drop_one w m)
      else revalidate_loop l clock (S i) ws (kept ++ [w]) m)
  end.
Definition revalidate (l : Ledger) (clock : nat -> Z) (m : Mempool) : outcome Mempool :=
  revalidate_loop l clock 0 (pending m) [] (set_pending [] m).
Definition revalidate_with (l : Ledger) (p : FeeParams) (clock : nat -> Z) (m : Mempool) : outcome Mempool :=
  revalidate l clock (set_clock (height m) (ceiling_fee p) m).

Fixpoint sweep (gone : Wrapper -> bool) (leave : Wrapper -> Mempool -> Mempool) (ws kept : list Wrapper)
    (m : Mempool) : Mempool :=
  match ws with
  | [] => set_pending kept m
  | w :: ws =>
      if gone w then sweep gone leave ws kept (leave w m) else sweep gone leave ws (kept ++ [w]) m
  end.
Definition evict (evicted : list (list byte)) (m : Mempool) : Mempool :=
  match evicted with
  | [] => m
  | _ => sweep (fun w => bool_decide (id_of w ∈ evicted)) drop_one (pending m) [] (set_pending [] m)
  end.
Definition remove_included (included : list (list byte)) (m : Mempool) : Mempool :=
  let m := sweep (fun w => bool_decide (id_of w ∈ included)) untrack (pending m) [] (set_pending [] m) in
  let m := foldl (fun m id => forget_id id m) m included in
  set_window 0 no_attempts m.
End Pool.
