(* ===== verification/MempoolCorrect.v ===== *)
(** * Correctness of the mempool

    The indexes of the pool agree with a recount of the pending transactions after
    any history of operations, refusals included; the capacities hold; and the
    candidates leave in the order the node promises. *)

From stdpp Require Import sorting.
From S2P Require Import Prelude Codec Idfmt Tx SigCache Events LedgerState LedgerKeys.
From S2P Require Import Governance Staking Fee LedgerStake Admission Mempool.

(** ** Counting maps *)

Section Tally.
Context {K : Type} `{Countable K}.

Definition occurs (k : K) (xs : list K) : nat := length (filter (fun x => x = k) xs).
Definition tally (xs : list K) : gmap K nat := foldr count_up ∅ xs.

Lemma occurs_cons k x xs : occurs k (x :: xs) = ((if decide (x = k) then 1 else 0) + occurs k xs)%nat.
Proof. unfold occurs. rewrite filter_cons. by case_decide. Qed.

Lemma lookup_tally k xs :
  tally xs !! k = if (occurs k xs =? 0)%nat then None else Some (occurs k xs).
Proof.
  induction xs as [|x xs IH]; [apply lookup_empty|]. cbn [tally foldr]. fold (tally xs).
  unfold count_up. rewrite occurs_cons. case_decide as Hd.
  - subst. rewrite lookup_insert_eq, IH. by destruct (occurs k xs).
  - rewrite lookup_insert_ne by done. rewrite IH. done.
Qed.

Lemma tally_count k xs : default 0%nat (tally xs !! k) = occurs k xs.
Proof. rewrite lookup_tally. by destruct (occurs k xs). Qed.

#[global] Instance tally_perm : Proper ((≡ₚ) ==> eq) tally.
Proof.
  intros xs ys E. apply map_eq. intros k. rewrite !lookup_tally.
  replace (occurs k ys) with (occurs k xs); [done|]. by apply Permutation_length, filter_Permutation.
Qed.

Lemma count_down_tally k xs : count_down k (tally (k :: xs)) = tally xs.
Proof.
  unfold count_down. rewrite lookup_tally, occurs_cons, decide_True by done. cbn [Nat.add Nat.eqb Nat.sub].
  rewrite Nat.sub_0_r. apply map_eq. intros k'. cbn [tally foldr]. fold (tally xs). unfold count_up.
  destruct (decide (k' = k)) as [->|Hne].
  - rewrite lookup_tally. destruct (occurs k xs); cbn; [apply lookup_delete_eq|apply lookup_insert_eq].
  - case_step; [rewrite lookup_delete_ne by done|rewrite lookup_insert_ne by done]; by rewrite lookup_insert_ne.
Qed.

Lemma tally_fresh k xs : tally xs !! k = None <-> k ∉ xs.
Proof.
  rewrite lookup_tally. split.
  - intros Hn Hin. unfold occurs in Hn.
    assert (Hf : k ∈ filter (fun x => x = k) xs) by (by apply list_elem_of_filter).
    destruct (filter (fun x => x = k) xs); [by apply elem_of_nil in Hf|done].
  - intros Hni. replace (occurs k xs) with 0%nat; [done|]. unfold occurs.
    induction xs as [|x xs IH]; [done|]. apply not_elem_of_cons in Hni as [Hne Hni].
    rewrite filter_cons_False by done. by apply IH.
Qed.
End Tally.

Section Correct.
Context (c : Crypto) {lanes : Lanes}.
#[local] Notation id_of := (id_of c).
#[local] Notation is_feeless := (is_feeless c).
#[local] Notation is_normal := (is_normal c).
#[local] Notation mint_key := (mint_key c).
#[local] Notation untrack := (untrack c).

(** ** The indexes and what they count *)

Record Indexes : Type := mkIndexes {
  ix_senders : gmap (list byte) nat;
  ix_nonces : gmap (list byte * Z) nat;
  ix_normal : nat;
  ix_feeless : nat;
  ix_payloads : gset (list byte);
  ix_seen : gmap (list byte) Z;
  ix_mints : gset (Z * list byte)
}.
Definition indexes (m : Mempool) : Indexes :=
  mkIndexes (by_sender m) (sender_nonces m) (normal_count m) (feeless_count m) (feeless_payloads m)
    (feeless_seen m) (mint_sources m).

(** The transactions that pay a fee, by their senders and nonces. *)
Definition payers (ws : list Wrapper) : list Wrapper := filter (fun w => is_feeless w = false) ws.
Definition feeless (ws : list Wrapper) : list Wrapper := filter (fun w => is_feeless w = true) ws.
Definition normals (ws : list Wrapper) : list Wrapper := filter (fun w => is_normal w = true) ws.
Definition senders (ws : list Wrapper) : list (list byte) := (fun w => sender (body w)) <$> payers ws.
Definition slots_of (ws : list Wrapper) : list (list byte * Z) := nonce_slot <$> payers ws.

(** The indexes of a list of transactions, and what is unique among them. *)
Record tracked (ix : Indexes) (ws : list Wrapper) : Prop := mkTracked {
  t_senders : ix_senders ix = tally (senders ws);
  t_nonces : ix_nonces ix = tally (slots_of ws);
  t_normal : ix_normal ix = length (normals ws);
  t_feeless : ix_feeless ix = length (feeless ws);
  t_payloads : forall k, k ∈ ix_payloads ix -> k ∈ feeless_payload_key c <$> feeless ws;
  t_seen : forall k, is_Some (ix_seen ix !! k) <-> k ∈ id_of <$> feeless ws;
  t_mints : forall k, k ∈ ix_mints ix <-> k ∈ omap mint_key ws;
  t_unique_nonces : NoDup (slots_of ws);
  t_unique_mints : NoDup (omap mint_key ws);
  t_unique_ids : NoDup (id_of <$> ws)
}.

#[global] Instance tracked_perm ix : Proper ((≡ₚ) ==> iff) (tracked ix).
Proof.
  assert (forall xs ys, xs ≡ₚ ys -> tracked ix xs -> tracked ix ys) as H.
  { intros xs ys E [H1 H2 H3 H4 H5 H6 H7 H8 H9 H10].
    assert (Ef : feeless xs ≡ₚ feeless ys) by (by apply filter_Permutation).
    assert (Ep : payers xs ≡ₚ payers ys) by (by apply filter_Permutation).
    assert (En : length (normals xs) = length (normals ys)) by (by apply Permutation_length, filter_Permutation).
    assert (Em : omap mint_key xs ≡ₚ omap mint_key ys) by (by rewrite E).
    constructor.
    - rewrite H1. apply tally_perm. unfold senders. by rewrite Ep.
    - rewrite H2. apply tally_perm. unfold slots_of. by rewrite Ep.
    - by rewrite H3.
    - rewrite H4. by apply Permutation_length.
    - intros k Hk. rewrite <- Ef. auto.
    - intros k. rewrite <- Ef. auto.
    - intros k. rewrite <- Em. auto.
    - unfold slots_of in *. by rewrite <- Ep.
    - by rewrite <- Em.
    - by rewrite <- E. }
  intros xs ys E. split; apply H; [done|by symmetry].
Qed.

(** The lists one transaction longer. *)
Lemma payers_cons w ws : payers (w :: ws) = if is_feeless w then payers ws else w :: payers ws.
Proof. unfold payers. rewrite filter_cons. by destruct (is_feeless w). Qed.
Lemma feeless_cons w ws : feeless (w :: ws) = if is_feeless w then w :: feeless ws else feeless ws.
Proof. unfold feeless. rewrite filter_cons. by destruct (is_feeless w). Qed.
Lemma normals_cons w ws : normals (w :: ws) = if is_normal w then w :: normals ws else normals ws.
Proof. unfold normals. rewrite filter_cons. by destruct (is_normal w). Qed.
Lemma senders_cons w ws :
  senders (w :: ws) = if is_feeless w then senders ws else sender (body w) :: senders ws.
Proof. unfold senders. rewrite payers_cons. by destruct (is_feeless w). Qed.
Lemma slots_cons w ws : slots_of (w :: ws) = if is_feeless w then slots_of ws else nonce_slot w :: slots_of ws.
Proof. unfold slots_of. rewrite payers_cons. by destruct (is_feeless w). Qed.
Lemma mints_cons w ws :
  omap mint_key (w :: ws) = match mint_key w with Some k => k :: omap mint_key ws | None => omap mint_key ws end.
Proof. done. Qed.

(** The indexes after one transaction comes or goes, field by field. *)
Lemma indexes_untrack w m :
  indexes (untrack w m) = mkIndexes
    (if is_feeless w then by_sender m else count_down (sender (body w)) (by_sender m))
    (if is_feeless w then sender_nonces m else count_down (nonce_slot w) (sender_nonces m))
    (if is_normal w then normal_count m - 1 else normal_count m)%nat
    (if is_feeless w then feeless_count m - 1 else feeless_count m)%nat
    (if is_feeless w then feeless_payloads m ∖ {[feeless_payload_key c w]} else feeless_payloads m)
    (if is_feeless w then delete (id_of w) (feeless_seen m) else feeless_seen m)
    (match mint_key w with Some k => mint_sources m ∖ {[k]} | None => mint_sources m end).
Proof.
  unfold Mempool.untrack, Mempool.is_normal.
  by destruct (is_feeless w), (mint_key w), (is_priority c w).
Qed.
Lemma indexes_track w m :
  indexes (track c w m) = mkIndexes
    (if is_feeless w then by_sender m else count_up (sender (body w)) (by_sender m))
    (if is_feeless w then sender_nonces m else count_up (nonce_slot w) (sender_nonces m))
    (if is_normal w then S (normal_count m) else normal_count m)
    (if is_feeless w then S (feeless_count m) else feeless_count m)
    (if is_feeless w then {[feeless_payload_key c w]} ∪ feeless_payloads m else feeless_payloads m)
    (if is_feeless w then <[id_of w := height m]> (feeless_seen m) else feeless_seen m)
    (match mint_key w with Some k => {[k]} ∪ mint_sources m | None => mint_sources m end).
Proof.
  unfold track, Mempool.is_normal.
  by destruct (is_feeless w), (mint_key w), (is_priority c w).
Qed.

Ltac by_lists := rewrite ?senders_cons, ?slots_cons, ?normals_cons, ?feeless_cons, ?mints_cons, ?fmap_cons in *.

(** A transaction leaves the indexes as it leaves the list. *)
Lemma untrack_tracked w m ws : tracked (indexes m) (w :: ws) -> tracked (indexes (untrack w m)) ws.
Proof.
  intros [H1 H2 H3 H4 H5 H6 H7 H8 H9 H10]. rewrite indexes_untrack. by_lists. apply NoDup_cons in H10 as [Hid H10].
  constructor; cbn [indexes ix_senders ix_nonces ix_normal ix_feeless ix_payloads ix_seen ix_mints] in *.
  - destruct (is_feeless w); [done|]. rewrite H1. apply count_down_tally.
  - destruct (is_feeless w); [done|]. rewrite H2. apply count_down_tally.
  - destruct (is_normal w); [rewrite H3; cbn; lia|done].
  - destruct (is_feeless w); [rewrite H4; cbn; lia|done].
  - destruct (is_feeless w); [|done]. intros k Hk. apply elem_of_difference in Hk as [Hk Hn].
    apply H5, elem_of_cons in Hk as [->|Hk]; [|done]. by apply not_elem_of_singleton in Hn.
  - destruct (is_feeless w) eqn:Ef; [|done]. intros k. destruct (decide (k = id_of w)) as [->|Hne].
    + rewrite lookup_delete_eq. split; [by intros []|]. intros Hin. destruct Hid.
      apply list_elem_of_fmap in Hin as (x & -> & Hx). apply list_elem_of_filter in Hx as [_ Hx].
      by apply list_elem_of_fmap_2.
    + rewrite lookup_delete_ne by done. rewrite ?fmap_cons, H6, ?fmap_cons, elem_of_cons. naive_solver.
  - destruct (mint_key w) as [k|]; [|done]. apply NoDup_cons in H9 as [Hk _]. intros x.
    rewrite elem_of_difference, H7, elem_of_cons, elem_of_singleton. split; [naive_solver|].
    intros Hx. split; [by right|]. by intros ->.
  - destruct (is_feeless w); [done|]. by apply NoDup_cons in H8 as [_ H8].
  - destruct (mint_key w); [|done]. by apply NoDup_cons in H9 as [_ H9].
  - done.
Qed.

(** A transaction that may join a pool: nothing there has its id, its nonce or the
    reference it mints. *)
Definition fresh (w : Wrapper) (m : Mempool) : Prop :=
  id_of w ∉ ids m /\
  (is_feeless w = false -> sender_nonces m !! nonce_slot w = None) /\
  (forall k, mint_key w = Some k -> k ∉ mint_sources m).

Lemma track_tracked w m ws :
  tracked (indexes m) ws -> (forall k, k ∈ ids m <-> k ∈ id_of <$> ws) -> fresh w m ->
  tracked (indexes (track c w m)) (w :: ws).
Proof.
  intros [H1 H2 H3 H4 H5 H6 H7 H8 H9 H10] Hids (F1 & F2 & F3). rewrite indexes_track.
  rewrite Hids in F1.
  constructor; by_lists; cbn [indexes ix_senders ix_nonces ix_normal ix_feeless ix_payloads ix_seen ix_mints] in *.
  - rewrite H1. by destruct (is_feeless w).
  - rewrite H2. by destruct (is_feeless w).
  - rewrite H3. by destruct (is_normal w).
  - rewrite H4. by destruct (is_feeless w).
  - destruct (is_feeless w); [|done]. intros k Hk.
    apply elem_of_union in Hk as [->%elem_of_singleton|Hk]; [by left|]. right. auto.
  - destruct (is_feeless w); [|done]. intros k. destruct (decide (k = id_of w)) as [->|Hne].
    + rewrite lookup_insert_eq. split; [by left|by eauto].
    + rewrite lookup_insert_ne by done. rewrite ?fmap_cons, H6, ?fmap_cons, elem_of_cons. naive_solver.
  - destruct (mint_key w) as [k|]; [|done]. intros x.
    rewrite elem_of_union, H7, elem_of_cons, elem_of_singleton. done.
  - destruct (is_feeless w); [done|]. apply NoDup_cons. split; [|done].
    apply tally_fresh. rewrite <- H2. by apply F2.
  - destruct (mint_key w) as [k|]; [|done]. apply NoDup_cons. split; [|done]. rewrite <- H7. by apply F3.
  - by apply NoDup_cons.
Qed.

(** ** The invariant *)

Record Limits : Type := mkLimits { li_cap : nat; li_per_sender : nat; li_reserve : nat; li_feeless : nat }.
Definition limits (m : Mempool) : Limits := mkLimits (cap m) (per_sender m) (reserve m) (feeless_pool_cap m).

(** The capacities. *)
Record bounded (li : Limits) (ws : list Wrapper) : Prop := mkBounded {
  b_cap : (length ws <= li_cap li)%nat;
  b_normal : (length (normals ws) <= li_cap li - li_reserve li)%nat;
  b_feeless : (length (feeless ws) <= li_feeless li)%nat;
  b_senders : forall s, (occurs s (senders ws) <= li_per_sender li)%nat
}.

#[global] Instance bounded_perm li : Proper ((≡ₚ) ==> iff) (bounded li).
Proof.
  assert (forall xs ys, xs ≡ₚ ys -> bounded li xs -> bounded li ys) as H.
  { intros xs ys E [H1 H2 H3 H4]. constructor.
    - by rewrite <- (Permutation_length E).
    - etrans; [|exact H2]. apply Nat.eq_le_incl, Permutation_length, filter_Permutation. by symmetry.
    - etrans; [|exact H3]. apply Nat.eq_le_incl, Permutation_length, filter_Permutation. by symmetry.
    - intros s. rewrite <- (H4 s). unfold occurs, senders.
      apply Nat.eq_le_incl, Permutation_length, filter_Permutation, fmap_Permutation, filter_Permutation.
      by symmetry. }
  intros xs ys E. split; apply H; [done|by symmetry].
Qed.

Lemma bounded_tail li w ws : bounded li (w :: ws) -> bounded li ws.
Proof.
  intros [H1 H2 H3 H4]. by_lists. constructor.
  - cbn in H1. lia.
  - destruct (is_normal w); cbn in *; lia.
  - destruct (is_feeless w); cbn in *; lia.
  - intros s. specialize (H4 s). destruct (is_feeless w); [done|].
    rewrite occurs_cons in H4. lia.
Qed.

(** The pool was made with the limits [li]. *)
Context (li : Limits).

Definition ids_match (m : Mempool) (ws : list Wrapper) : Prop := forall k, k ∈ ids m <-> k ∈ id_of <$> ws.

Record good (m : Mempool) (ws : list Wrapper) : Prop := mkGood {
  g_tracked : tracked (indexes m) ws;
  g_ids : ids_match m ws;
  g_bounded : bounded (limits m) ws;
  g_limits : limits m = li
}.
Definition inv (m : Mempool) : Prop := good m (pending m).

#[global] Instance good_perm m : Proper ((≡ₚ) ==> iff) (good m).
Proof.
  assert (forall xs ys, xs ≡ₚ ys -> good m xs -> good m ys) as H.
  { intros xs ys E [H1 H2 H3 H4]. constructor; [by rewrite <- E| |by rewrite <- E|done].
    intros k. rewrite (H2 k). by rewrite E. }
  intros xs ys E. split; apply H; [done|by symmetry].
Qed.

Lemma limits_untrack w m : limits (untrack w m) = limits m.
Proof. unfold Mempool.untrack. by destruct (is_feeless w), (mint_key w), (is_priority c w). Qed.
Lemma ids_untrack w m : ids (untrack w m) = ids m.
Proof. unfold Mempool.untrack. by destruct (is_feeless w), (mint_key w), (is_priority c w). Qed.
Lemma pending_untrack w m : pending (untrack w m) = pending m.
Proof. unfold Mempool.untrack. by destruct (is_feeless w), (mint_key w), (is_priority c w). Qed.
Lemma ceiling_untrack w m : ceiling (untrack w m) = ceiling m.
Proof. unfold Mempool.untrack. by destruct (is_feeless w), (mint_key w), (is_priority c w). Qed.
Lemma limits_track w m : limits (track c w m) = limits m.
Proof. unfold track. by destruct (is_feeless w), (mint_key w), (is_priority c w). Qed.
Lemma ids_track w m : ids (track c w m) = ids m.
Proof. unfold track. by destruct (is_feeless w), (mint_key w), (is_priority c w). Qed.
Lemma pending_track w m : pending (track c w m) = pending m.
Proof. unfold track. by destruct (is_feeless w), (mint_key w), (is_priority c w). Qed.

Lemma good_drop w m ws : good m (w :: ws) -> good (drop_one c w m) ws.
Proof.
  intros [H1 H2 H3 H4]. unfold drop_one. constructor; [..|by rewrite limits_untrack].
  - apply untrack_tracked. exact H1.
  - intros k. rewrite ids_untrack. cbn [forget_id ids set_ids]. rewrite elem_of_difference, (H2 k), elem_of_singleton.
    destruct H1 as [_ _ _ _ _ _ _ _ _ Hn]. rewrite fmap_cons in *. apply NoDup_cons in Hn as [Hn _].
    rewrite elem_of_cons. split; [naive_solver|]. intros Hk. split; [by right|]. by intros ->.
  - rewrite limits_untrack. by apply bounded_tail in H3.
Qed.

(** Leaving makes nothing less fresh. *)
Lemma fresh_drop w x m ws : good m (x :: ws) -> fresh w m -> fresh w (drop_one c x m).
Proof.
  intros HG (F1 & F2 & F3). pose proof (good_drop x m ws HG) as [_ H2' _ _].
  destruct HG as [HT H2 _ _]. pose proof (untrack_tracked x (forget_id (id_of x) m) ws HT) as HT'.
  unfold drop_one in *. destruct HT as [_ N1 _ _ _ _ M1 _ _ _], HT' as [_ N2 _ _ _ _ M2 _ _ _].
  cbn [indexes ix_nonces ix_mints forget_id set_ids sender_nonces mint_sources] in *.
  split_and!.
  - rewrite (H2' (id_of w)). intros Hin. apply F1, H2. rewrite fmap_cons. by right.
  - intros Ef. specialize (F2 Ef). rewrite N1 in F2. rewrite N2. apply tally_fresh. apply tally_fresh in F2.
    intros Hin. apply F2. rewrite slots_cons. destruct (is_feeless x); [done|by right].
  - intros k Hk. rewrite M2. specialize (F3 k Hk). rewrite M1 in F3. intros Hin. apply F3.
    rewrite mints_cons. destruct (mint_key x); [by right|done].
Qed.

Lemma pick_perm {A} (l : list A) i x : l !! i = Some x -> l ≡ₚ x :: delete i l.
Proof. apply delete_Permutation. Qed.

Lemma remove_at_drop i w m :
  pending m !! i = Some w -> remove_at c i m = drop_one c w (set_pending (delete i (pending m)) m).
Proof. intros E. unfold remove_at. by rewrite E. Qed.

Lemma remove_at_inv i w m :
  inv m -> pending m !! i = Some w ->
  inv (remove_at c i m) /\ pending (remove_at c i m) = delete i (pending m) /\
  (forall x, fresh x m -> fresh x (remove_at c i m)) /\ limits (remove_at c i m) = limits m /\
  ceiling (remove_at c i m) = ceiling m.
Proof.
  intros HG E. rewrite (remove_at_drop i w m E).
  assert (HG' : good (set_pending (delete i (pending m)) m) (w :: delete i (pending m))).
  { unfold inv in HG. rewrite (pick_perm _ _ _ E) in HG. destruct HG. by constructor. }
  assert (Ep : pending (drop_one c w (set_pending (delete i (pending m)) m)) = delete i (pending m)).
  { unfold drop_one. by rewrite pending_untrack. }
  split_and!; [|done| | |].
  - unfold inv. rewrite Ep. by apply good_drop.
  - intros x Hx. by eapply fresh_drop.
  - unfold drop_one. by rewrite limits_untrack.
  - unfold drop_one. by rewrite ceiling_untrack.
Qed.

(** ** Computations that keep the invariant, whatever they answer *)

Definition pwp {A} (p : P A) (Q : A -> Mempool -> Prop) (m : Mempool) : Prop :=
  match p m with (Done (Ok a), m') => Q a m' | (_, m') => inv m' end.

Lemma pwp_ret {A} (a : A) Q m : Q a m -> pwp (mret a) Q m.
Proof. done. Qed.
Lemma pwp_bind {A B} (p : P A) (k : A -> P B) Q m : pwp p (fun a => pwp (k a) Q) m -> pwp (p ≫= k) Q m.
Proof. unfold pwp, mbind, P_bind. by destruct (p m) as [[[]|] ?]. Qed.
Lemma pwp_mono {A} (p : P A) (Q R : A -> Mempool -> Prop) m :
  (forall a m', Q a m' -> R a m') -> pwp p Q m -> pwp p R m.
Proof. unfold pwp. destruct (p m) as [[[]|] ?]; auto. Qed.
Lemma pwp_refuse {A} e (Q : A -> Mempool -> Prop) m : inv m -> pwp (refuse e) Q m.
Proof. done. Qed.
Lemma pwp_pool {A} (f : Mempool -> A) Q m : Q (f m) m -> pwp (pool f) Q m.
Proof. done. Qed.
Lemma pwp_update f (Q : unit -> Mempool -> Prop) m : Q tt (f m) -> pwp (update f) Q m.
Proof. done. Qed.
Lemma pwp_require b e (Q : unit -> Mempool -> Prop) m : inv m -> (b = true -> Q tt m) -> pwp (require b e) Q m.
Proof. destruct b; [|done]. intros _ H. by apply H. Qed.
Lemma pwp_result {A} (r : Result Reject A) Q m : inv m -> (forall a, Q a m) -> pwp (pure_result r) Q m.
Proof. destruct r; [intros _ H; apply H|done]. Qed.
Lemma pwp_outcome {A} (o : outcome A) Q m : inv m -> (forall a, Q a m) -> pwp (pure_outcome o) Q m.
Proof. destruct o; [intros _ H; apply H|done]. Qed.

(** What windows and clocks do not touch. *)
Definition core (m : Mempool) : list Wrapper * gset (list byte) * Indexes * Limits :=
  (pending m, ids m, indexes m, limits m).

Lemma core_inv m m' : core m' = core m -> inv m -> inv m'.
Proof.
  intros [= E1 E2 E3 E4 E5 E6 E7 E8 E9 E10 E11 E12 E13] [H1 H2 H3 H4]. unfold inv. rewrite E1. constructor.
  - unfold indexes in *. by rewrite E3, E4, E5, E6, E7, E8, E9.
  - intros k. by rewrite E2.
  - unfold limits in *. by rewrite E10, E11, E12, E13.
  - rewrite <- H4. unfold limits. by rewrite E10, E11, E12, E13.
Qed.
Lemma core_fresh w m m' : core m' = core m -> fresh w m -> fresh w m'.
Proof.
  intros [= E1 E2 E3 E4 E5 E6 E7 E8 E9 E10 E11 E12 E13] (F1 & F2 & F3). unfold fresh.
  by rewrite E2, E4, E9.
Qed.

(** ** Room *)

Lemma lowest_spec keep cost k ws i f :
  lowest keep cost k ws = Some (i, f) ->
  exists j w, i = (k + j)%nat /\ ws !! j = Some w /\ keep w = true /\ f = cost w /\
    forall x, x ∈ ws -> keep x = true -> f <= cost x.
Proof.
  revert k i f. induction ws as [|w ws IH]; intros k i f; [done|]. cbn [lowest].
  destruct (keep w) eqn:Ek.
  - destruct (lowest keep cost (S k) ws) as [[i' f']|] eqn:El.
    + destruct (IH _ _ _ El) as (j & x & -> & Hj & Hx & -> & Hle).
      destruct (Z.ltb_spec (cost x) (cost w)); intros [= <- <-].
      * exists (S j), x. split; [lia|]. split_and!; try done.
        intros y [->|Hy]%elem_of_cons Hky; [lia|auto].
      * exists 0%nat, w. split; [lia|]. split_and!; try done.
        intros y [->|Hy]%elem_of_cons Hky; [lia|]. specialize (Hle y Hy Hky). lia.
    + intros [= <- <-]. exists 0%nat, w. split; [lia|]. split_and!; try done.
      intros y [->|Hy]%elem_of_cons Hky; [lia|]. exfalso. clear -El Hy Hky.
      revert El Hy. generalize (S k). induction ws as [|z ws IH]; intros n; [by intros _ ?%elem_of_nil|].
      cbn [lowest]. destruct (keep z) eqn:Ez; [by repeat case_match|].
      intros El [->|Hy]%elem_of_cons; [congruence|]. by eapply IH.
  - intros El. destruct (IH _ _ _ El) as (j & x & -> & Hj & Hx & -> & Hle).
    exists (S j), x. split; [lia|]. split_and!; try done.
    intros y [->|Hy]%elem_of_cons Hky; [congruence|auto].
Qed.

(** There is room for a transaction. *)
Definition roomy (w : Wrapper) (m : Mempool) : Prop :=
  (length (pending m) < cap m)%nat /\
  (is_normal w = true -> (length (normals (pending m)) < cap m - reserve m)%nat) /\
  (is_feeless w = true -> (length (feeless (pending m)) < feeless_pool_cap m)%nat) /\
  (is_feeless w = false -> (occurs (sender (body w)) (senders (pending m)) < per_sender m)%nat).

Lemma occurs_tail s w ws : (occurs s (senders ws) <= occurs s (senders (w :: ws)))%nat.
Proof. rewrite senders_cons. destruct (is_feeless w); [done|]. rewrite occurs_cons. lia. Qed.

(** Evicting leaves room: for a normal transaction when a normal one goes. *)
Lemma evicted_room i v w m :
  inv m -> fresh w m -> pending m !! i = Some v -> (is_normal w = true -> is_normal v = true) ->
  (is_feeless w = true -> (length (feeless (pending m)) < feeless_pool_cap m)%nat) ->
  (is_feeless w = false -> (occurs (sender (body w)) (senders (pending m)) < per_sender m)%nat) ->
  inv (remove_at c i m) /\ fresh w (remove_at c i m) /\ roomy w (remove_at c i m).
Proof.
  intros HI HF Ei Hn Hfl Hs. pose proof (remove_at_inv i v m HI Ei) as (HI' & Ep & HF' & El & _).
  split; [done|]. split; [by apply HF'|]. unfold roomy. rewrite Ep.
  assert (El' : cap (remove_at c i m) = cap m /\ reserve (remove_at c i m) = reserve m /\
    feeless_pool_cap (remove_at c i m) = feeless_pool_cap m /\ per_sender (remove_at c i m) = per_sender m).
  { unfold limits in El. injection El as -> -> -> ->. done. }
  destruct El' as (-> & -> & -> & ->).
  pose proof (pick_perm _ _ _ Ei) as Hp. destruct HI as [_ _ [B1 B2 B3 B4] _]. cbn in B1, B2.
  pose proof (Permutation_length Hp) as L1. cbn [length] in L1.
  assert (L2 : length (normals (pending m)) = length (normals (v :: delete i (pending m))))
    by (by apply Permutation_length, filter_Permutation).
  assert (L3 : length (feeless (pending m)) = length (feeless (v :: delete i (pending m))))
    by (by apply Permutation_length, filter_Permutation).
  assert (L4 : occurs (sender (body w)) (senders (pending m))
    = occurs (sender (body w)) (senders (v :: delete i (pending m)))).
  { unfold occurs, senders. by apply Permutation_length, filter_Permutation, fmap_Permutation, filter_Permutation. }
  rewrite normals_cons in L2. rewrite feeless_cons in L3.
  pose proof (occurs_tail (sender (body w)) v (delete i (pending m))) as L5. split_and!.
  - lia.
  - intros Hw. rewrite (Hn Hw) in L2. cbn [length] in L2. lia.
  - intros Hw. specialize (Hfl Hw). destruct (is_feeless v); cbn [length] in L3; lia.
  - intros Hw. specialize (Hs Hw). lia.
Qed.

(** What [queue_full], [normal_room] and the counters say of the list. *)
Lemma counts m : inv m ->
  normal_count m = length (normals (pending m)) /\ feeless_count m = length (feeless (pending m)) /\
  forall s, sender_count s m = occurs s (senders (pending m)).
Proof.
  intros [[H1 _ H3 H4 _ _ _ _ _ _] _ _ _]. cbn in *. split_and!; try done.
  intros s. unfold sender_count. rewrite H1. apply tally_count.
Qed.

Lemma feeless_not_normal w : is_feeless w = true -> is_normal w = false.
Proof. unfold Mempool.is_normal. intros ->. apply andb_false_r. Qed.
Lemma priority_not_normal w : is_priority c w = true -> is_normal w = false.
Proof. unfold Mempool.is_normal. by intros ->. Qed.

Lemma queue_open w m :
  inv m -> queue_full c w m = false -> is_feeless w = false ->
  (occurs (sender (body w)) (senders (pending m)) < per_sender m)%nat.
Proof.
  intros HI Hq Hf. destruct (counts m HI) as (_ & _ & Hs). unfold queue_full in Hq. rewrite Hf, Hs in Hq.
  cbn in Hq. apply Nat.leb_gt in Hq. lia.
Qed.

Lemma wp_evict victim accept w keep (Q : unit -> Mempool -> Prop) m :
  inv m -> fresh w m -> victim = lowest keep (effective_fee m) 0 (pending m) ->
  (is_normal w = true -> forall x, keep x = true -> is_normal x = true) ->
  (is_feeless w = true -> (length (feeless (pending m)) < feeless_pool_cap m)%nat) ->
  (is_feeless w = false -> (occurs (sender (body w)) (senders (pending m)) < per_sender m)%nat) ->
  (forall m', inv m' -> fresh w m' -> roomy w m' -> Q tt m') -> pwp (evict_at c victim accept) Q m.
Proof.
  intros HI HF -> Hn Hf Hs HQ. unfold evict_at. destruct (lowest _ _ _ _) as [[i f]|] eqn:El; [|by apply pwp_refuse].
  destruct (accept f); [|by apply pwp_refuse]. apply pwp_update.
  apply lowest_spec in El as (j & v & -> & Hj & Hv & _). cbn [Nat.add].
  destruct (evicted_room j v w m HI HF Hj) as (? & ? & ?); auto.
Qed.

Lemma wp_make_room w m (Q : unit -> Mempool -> Prop) :
  inv m -> fresh w m -> (forall m', inv m' -> fresh w m' -> roomy w m' -> Q tt m') -> pwp (make_room c w) Q m.
Proof.
  intros HI HF HQ. unfold make_room. apply pwp_bind, pwp_pool.
  destruct (queue_full c w m) eqn:Eq; [by apply pwp_refuse|].
  pose proof (queue_open w m HI Eq) as Hs. destruct (counts m HI) as (Cn & Cf & _).
  apply pwp_bind, pwp_pool, pwp_bind, pwp_pool, pwp_bind, pwp_pool, pwp_bind, pwp_pool.
  destruct (is_feeless w) eqn:Ef.
  - pose proof (feeless_not_normal w Ef) as En. apply pwp_bind, pwp_pool.
    destruct (Nat.ltb_spec (feeless_count m) (feeless_pool_cap m)) as [Hc|]; cbn [negb]; [|by apply pwp_refuse].
    destruct (Nat.ltb_spec (length (pending m)) (cap m)).
    { apply pwp_ret, HQ; [done..|]. split_and!; [done|congruence|by rewrite <- Cf|congruence]. }
    destruct (lowest_fee_normal c m) as [v|] eqn:Ev.
    + eapply (wp_evict _ _ w is_normal); [done|done|by symmetry|congruence|by rewrite <- Cf|congruence|done].
    + eapply (wp_evict _ _ w (is_priority c)); [done|done|done|congruence|by rewrite <- Cf|congruence|done].
  - destruct (is_priority c w) eqn:Epr.
    + pose proof (priority_not_normal w Epr) as En.
      destruct (Nat.ltb_spec (length (pending m)) (cap m)).
      { apply pwp_ret, HQ; [done..|]. split_and!; [done|congruence|congruence|auto]. }
      destruct (lowest_fee_normal c m) as [[i f]|] eqn:Ev.
      * apply pwp_update. apply lowest_spec in Ev as (j & v & -> & Hj & Hv & _). cbn [Nat.add].
        destruct (evicted_room j v w m HI HF Hj) as (? & ? & ?); auto; congruence.
      * eapply (wp_evict _ _ w (is_priority c)); [done|done|done|congruence|congruence|auto|done].
    + apply pwp_bind, pwp_pool. unfold normal_room.
      destruct (Nat.ltb_spec (normal_count m) (cap m - reserve m)), (Nat.ltb_spec (length (pending m)) (cap m));
        cbn [andb].
      1: { apply pwp_ret, HQ; [done..|]. split_and!; [done|by rewrite <- Cn|congruence|auto]. }
      all: eapply (wp_evict _ _ w is_normal); [done|done|done|done|congruence|auto|done].
Qed.

(** A fresh transaction that finds room joins the pool. *)
Lemma joins w m :
  inv m -> fresh w m -> roomy w m ->
  inv (let m := hold c w m in set_ids ({[id_of w]} ∪ ids m) m).
Proof.
  intros [HT HI HB HL] HF (R1 & R2 & R3 & R4). cbv zeta.
  assert (Ep : pending (hold c w m) = pending m ++ [w]) by (unfold hold; cbn; by rewrite pending_track).
  assert (Hp : pending m ++ [w] ≡ₚ w :: pending m) by (symmetry; apply Permutation_cons_append).
  unfold inv. cbn [pending set_ids]. rewrite Ep, Hp. constructor.
  4: { change (limits (track c w m) = li). by rewrite limits_track. }
  - change (tracked (indexes (track c w m)) (w :: pending m)). by apply track_tracked.
  - intros k. cbn [ids set_ids hold set_pending]. rewrite ids_track, elem_of_union, elem_of_singleton, (HI k).
    rewrite fmap_cons, elem_of_cons. done.
  - change (bounded (limits (track c w m)) (w :: pending m)). rewrite limits_track.
    destruct HB as [B1 B2 B3 B4]. constructor; cbn [limits li_cap li_reserve li_feeless li_per_sender] in *.
    + cbn [length]. lia.
    + rewrite normals_cons. destruct (is_normal w); [specialize (R2 eq_refl); cbn [length]; lia|done].
    + rewrite feeless_cons. destruct (is_feeless w); [specialize (R3 eq_refl); cbn [length]; lia|done].
    + intros s. rewrite senders_cons. destruct (is_feeless w); [done|]. rewrite occurs_cons.
      case_decide as Hd; [subst; specialize (R4 eq_refl); lia|apply B4].
Qed.

Lemma wp_charge_feeless (Q : bool -> Mempool -> Prop) m :
  (forall b m', core m' = core m -> Q b m') -> pwp charge_feeless Q m.
Proof.
  intros HQ. unfold charge_feeless. apply pwp_bind, pwp_pool.
  destruct (feeless_has_room m); [|by apply pwp_ret, HQ].
  apply pwp_bind, pwp_update, pwp_ret. by apply HQ.
Qed.

Lemma wp_enter w m (Q : unit -> Mempool -> Prop) :
  inv m -> fresh w m -> (forall m', inv m' -> Q tt m') -> pwp (enter c w) Q m.
Proof.
  intros HI HF HQ. unfold enter. apply pwp_bind.
  assert (H : forall b m', core m' = core m ->
    pwp (require b RateLimited ;; make_room c w ;;
      update (fun m => let m := hold c w m in set_ids ({[id_of w]} ∪ ids m) m)) Q m').
  { intros b m' Ec. pose proof (core_inv m m' Ec HI) as HI'. pose proof (core_fresh w m m' Ec HF) as HF'.
    apply pwp_bind, pwp_require; [done|]. intros _. apply pwp_bind, wp_make_room; [done..|].
    intros m1 H1 H2 H3. apply pwp_update, HQ. by apply joins. }
  destruct (is_feeless w); [by apply wp_charge_feeless|]. by apply pwp_ret, H.
Qed.

(** ** Screens and lanes *)

Context (genesis : option (list byte)) (degenerate : list byte -> bool).

Lemma wp_gate w l chain hint m (Q : bool -> Mempool -> Prop) :
  inv m -> (forall b m', core m' = core m -> Q b m') -> pwp (feeless_attempt_gate c w l chain hint) Q m.
Proof.
  intros HI HQ. unfold feeless_attempt_gate. apply pwp_bind, pwp_pool.
  destruct (feeless_has_room m); cbn [negb]; [|by apply pwp_refuse].
  destruct hint as [[]|]; [by apply pwp_ret, HQ|by apply pwp_refuse|].
  case_step; [by apply pwp_refuse|]. apply pwp_bind. unfold charge_feeless_attempt_for.
  apply pwp_bind, pwp_pool. case_step; [by apply pwp_ret, pwp_refuse|].
  apply pwp_bind, pwp_update, pwp_ret, pwp_ret. by apply HQ.
Qed.

Lemma wp_refund w m (Q : unit -> Mempool -> Prop) (b : bool) :
  (forall m', core m' = core m -> Q tt m') ->
  pwp (if b then refund_feeless_attempt_for c w else mret tt) Q m.
Proof. intros HQ. destruct b; [by apply pwp_update, HQ|by apply pwp_ret, HQ]. Qed.

Lemma wp_feeless_lane w l p hint ok m (Q : unit -> Mempool -> Prop) :
  inv m -> (forall m', core m' = core m -> Q tt m') -> pwp (feeless_lane c w l p hint ok) Q m.
Proof.
  intros HI HQ. unfold feeless_lane. apply pwp_bind, wp_gate; [done|]. intros b m1 E1.
  apply pwp_bind, pwp_require; [by eapply core_inv|]. intros _. apply wp_refund. intros m2 E2.
  apply HQ. congruence.
Qed.

Lemma wp_nonce_free w m (Q : unit -> Mempool -> Prop) :
  inv m -> (sender_nonces m !! nonce_slot w = None -> Q tt m) -> pwp (nonce_free w) Q m.
Proof.
  intros HI HQ. unfold nonce_free. apply pwp_bind, pwp_pool, pwp_require; [done|]. intros Hn. apply HQ.
  unfold has_pending_from_sender_nonce in Hn. apply negb_true_iff, bool_decide_eq_false in Hn.
  by apply eq_None_not_Some.
Qed.

(** The lanes without a fee. *)
Lemma evidence_feeless w : is_evidence c w = true -> is_feeless w = true.
Proof. unfold Admission.is_feeless. intros ->. by rewrite !orb_true_r. Qed.
Lemma guardian_feeless w : is_bridge_guardian c w = true -> is_feeless w = true.
Proof. unfold Admission.is_feeless. intros ->. by rewrite !orb_true_r. Qed.
Lemma mint_feeless w : is_bridge_mint c w = true -> is_feeless w = true.
Proof. unfold Admission.is_feeless. by intros ->. Qed.
Lemma settle_feeless w : is_bridge_settle c w = true -> is_feeless w = true.
Proof. unfold Admission.is_feeless. intros ->. by rewrite !orb_true_r. Qed.

(** Each lane leaves the pool alone, and a lane with a fee checks the nonce. *)
Definition lane_ok (w : Wrapper) (m : Mempool) (Q : unit -> Mempool -> Prop) : Prop :=
  forall m', core m' = core m -> (is_feeless w = false -> sender_nonces m' !! nonce_slot w = None) -> Q tt m'.

Ltac lane_step :=
  match goal with
  | |- pwp (require _ _ ;; _) _ _ => apply pwp_bind, pwp_require; [done|]; intros ?
  | |- pwp (nonce_free _ ;; _) _ _ => apply pwp_bind, wp_nonce_free; [done|]; intros ?
  | |- pwp (mbind _ (pure_result _)) _ _ => apply pwp_bind, pwp_result; [done|]; intros ?
  | |- pwp (mbind _ (pure_outcome _)) _ _ => apply pwp_bind, pwp_outcome; [done|]; intros ?
  | |- pwp (refuse _) _ _ => by apply pwp_refuse
  | |- pwp (require _ _) _ _ => apply pwp_require; [done|]; intros ?
  | HQ : lane_ok ?w ?m ?Q |- ?Q tt ?m => apply HQ; [done|]; intros ?; done || congruence
  | HQ : lane_ok ?w ?m ?Q |- ?Q tt ?m' => apply HQ; [done|]; intros ?; congruence
  end.

Lemma wp_lane_checks w l p hint now m (Q : unit -> Mempool -> Prop) :
  inv m -> lane_ok w m Q -> pwp (lane_checks c genesis degenerate w l p hint now) Q m.
Proof.
  intros HI HQ. unfold lane_checks.
  destruct (is_vm_op c w); [by repeat lane_step|].
  destruct (is_key_register c w); [by repeat lane_step|].
  destruct (is_stake_payee c w); [by repeat lane_step|].
  destruct (is_priority c w); [by repeat lane_step|].
  destruct (is_evidence c w) eqn:Ee.
  { apply evidence_feeless in Ee. lane_step. apply wp_feeless_lane; [done|]. intros. lane_step. }
  destruct (is_bridge_guardian c w) eqn:Eg.
  { apply guardian_feeless in Eg. lane_step. apply wp_feeless_lane; [done|]. intros. lane_step. }
  destruct (is_bridge_mint c w) eqn:Em.
  { apply mint_feeless in Em. lane_step. apply wp_feeless_lane; [done|]. intros. lane_step. }
  destruct (is_bridge_settle c w) eqn:Es.
  { apply settle_feeless in Es. lane_step. apply wp_feeless_lane; [done|]. intros. lane_step. }
  destruct (is_bridge_exit c w); [by repeat lane_step|].
  destruct (is_registration c w); [by lane_step|].
  by repeat lane_step.
Qed.

Lemma wp_batch_lane w l p ok now m (Q : unit -> Mempool -> Prop) :
  inv m -> lane_ok w m Q -> pwp (batch_lane c genesis degenerate w l p ok now) Q m.
Proof.
  intros HI HQ. unfold batch_lane.
  destruct (is_vm_op c w); [by repeat lane_step|].
  destruct (is_key_register c w); [by repeat lane_step|].
  destruct (is_stake_payee c w); [by repeat lane_step|].
  destruct (is_priority c w); [by repeat lane_step|].
  destruct (is_evidence c w) eqn:Ee; [apply evidence_feeless in Ee; by repeat lane_step|].
  destruct (is_bridge_guardian c w) eqn:Eg; [apply guardian_feeless in Eg; by repeat lane_step|].
  destruct (is_bridge_mint c w) eqn:Em; [apply mint_feeless in Em; by repeat lane_step|].
  destruct (is_bridge_settle c w) eqn:Es; [apply settle_feeless in Es; by repeat lane_step|].
  destruct (is_bridge_exit c w); [by repeat lane_step|].
  destruct (is_registration c w); [by lane_step|].
  by repeat lane_step.
Qed.

(** A mint that passes its screen finds its reference unheld. *)
Lemma wp_screen_mint w l m (Q : bool -> Mempool -> Prop) :
  inv m -> id_of w ∉ ids m ->
  (forall b m', inv m' -> id_of w ∉ ids m' ->
     (b = false -> forall k, mint_key w = Some k -> k ∉ mint_sources m') -> Q b m') ->
  pwp (screen_mint c w l) Q m.
Proof.
  intros HI Hid HQ. unfold screen_mint. destruct (is_bridge_mint c w) eqn:Em; cbn [negb].
  2: { apply pwp_ret, HQ; [done..|]. unfold Mempool.mint_key. rewrite Em. done. }
  assert (Ek : mint_key w = bridge_mint_source_key w) by (unfold Mempool.mint_key; by rewrite Em).
  apply pwp_bind, pwp_pool, pwp_bind. unfold duplicate_mint, held_mint_survives. rewrite <- Ek.
  assert (Hgo : forall m', inv m' -> id_of w ∉ ids m' -> (forall k, mint_key w = Some k -> k ∉ mint_sources m') ->
    pwp (require (match mint_key w with Some r => negb (bridge_reference_seen l r) | None => false end) BadCall ;;
      mret false) Q m').
  { intros m' H1 H2 H3. apply pwp_bind, pwp_require; [done|]. intros _. by apply pwp_ret, HQ. }
  destruct (mint_key w) as [k|] eqn:Ew; [|by apply pwp_ret, Hgo].
  case_bool_decide as Hin.
  2: { apply pwp_ret, Hgo; [done|done|]. by intros ? [= <-]. }
  apply pwp_bind, pwp_pool. unfold position. destruct (list_find _ (pending m)) as [[i v]|] eqn:Ef; cbn [fmap option_fmap option_map fst].
  2: { apply pwp_ret, pwp_ret. by apply HQ. }
  apply list_find_Some in Ef as (Hi & Hv & _). apply bool_decide_eq_true in Hv.
  apply pwp_bind, pwp_pool. rewrite Hi. destruct (bridge_mint_still_live l v).
  { apply pwp_ret, pwp_ret. by apply HQ. }
  apply pwp_bind, pwp_update, pwp_ret. destruct (remove_at_inv i v m HI Hi) as (HI' & Ep & _ & _).
  apply Hgo; [done| |].
  - destruct HI' as [_ Hids' _ _]. rewrite (Hids' (id_of w)), Ep. destruct HI as [_ Hids _ _]. rewrite (Hids (id_of w)) in Hid.
    intros Hx. apply Hid. rewrite (pick_perm _ _ _ Hi). rewrite fmap_cons. by right.
  - intros k' [= <-]. destruct HI' as [[_ _ _ _ _ _ Hm' _ _ _] _ _ _]. cbn in Hm'. rewrite Hm', Ep.
    destruct HI as [[_ _ _ _ _ _ _ _ Hu _] _ _ _]. rewrite (pick_perm _ _ _ Hi), mints_cons, Hv in Hu.
    by apply NoDup_cons in Hu as [Hu _].
Qed.

Lemma wp_screen_settle w l m (Q : bool -> Mempool -> Prop) :
  inv m -> (forall b, Q b m) -> pwp (screen_settle c w l) Q m.
Proof.
  intros HI HQ. unfold screen_settle. case_step; [by apply pwp_ret|]. apply pwp_bind, pwp_pool.
  destruct (duplicate_settle c w m); [by apply pwp_ret|]. apply pwp_bind, pwp_require; [done|].
  intros _. by apply pwp_ret.
Qed.

Lemma wp_screen_feeless w m (Q : unit -> Mempool -> Prop) : inv m -> Q tt m -> pwp (screen_feeless c w) Q m.
Proof.
  intros HI HQ. unfold screen_feeless. case_step; [by apply pwp_ret|].
  apply pwp_bind, pwp_pool, pwp_bind, pwp_require; [done|]. intros _.
  apply pwp_bind, pwp_pool, pwp_bind, pwp_require; [done|]. intros _.
  by apply pwp_require.
Qed.

(** ** Operations *)

Lemma fresh_core w m m' :
  core m' = core m -> id_of w ∉ ids m -> (is_feeless w = false -> sender_nonces m' !! nonce_slot w = None) ->
  (forall k, mint_key w = Some k -> k ∉ mint_sources m) -> fresh w m'.
Proof.
  intros [= E1 E2 E3 E4 E5 E6 E7 E8 E9 E10 E11 E12 E13] F1 F2 F3. unfold fresh. rewrite E2, E9. done.
Qed.

(** An admission keeps the invariant, whether it ends in an answer, a refusal or a
    panic of a check. *)
Lemma admit_inv w l p hint now m : inv m -> inv (Mempool_admit c genesis degenerate w l p hint now m).2.
Proof.
  intros HI. assert (H : pwp (Mempool_admit c genesis degenerate w l p hint now) (fun _ => inv) m).
  { unfold Mempool_admit. apply pwp_bind, pwp_require; [done|]. intros _. apply pwp_bind, pwp_update.
    set (m0 := set_clock _ _ m). assert (HI0 : inv m0) by (by apply (core_inv m)).
    clearbody m0. clear m HI.
    apply pwp_bind, pwp_pool. case_bool_decide as Hid; [by apply pwp_ret|].
    apply pwp_bind, pwp_require; [done|]. intros _. apply pwp_bind, pwp_pool.
    case_step; [by apply pwp_ret|].
    do 3 (apply pwp_bind, pwp_require; [done|]; intros _).
    apply pwp_bind, wp_screen_mint; [done..|]. intros [] m1 HI1 Hid1 Hm1; [by apply pwp_ret|].
    specialize (Hm1 eq_refl). apply pwp_bind, wp_screen_settle; [done|]. intros []; [by apply pwp_ret|].
    apply pwp_bind, wp_screen_feeless; [done|]. apply pwp_bind, wp_lane_checks; [done|].
    intros m2 E2 Hn2. apply pwp_bind, wp_enter; [by eapply core_inv|by eapply fresh_core|].
    intros m3 HI3. by apply pwp_ret. }
  unfold pwp in H. by destruct (Mempool_admit _ _ _ _ _ _ _ _ _) as [[[]|] ?].
Qed.

Lemma admit_one_inv w l p ok now m : inv m -> inv (admit_one c genesis degenerate w l p ok now m).2.
Proof.
  intros HI. assert (H : pwp (admit_one c genesis degenerate w l p ok now) (fun _ => inv) m).
  { unfold admit_one. apply pwp_bind, pwp_require; [done|]. intros _. apply pwp_bind, pwp_pool.
    apply pwp_bind, pwp_require; [done|]. intros Hid.
    apply negb_true_iff, bool_decide_eq_false in Hid. apply pwp_bind, pwp_require; [done|]. intros _.
    apply pwp_bind, wp_screen_mint; [done..|]. intros b m1 HI1 Hid1 Hm1.
    apply pwp_bind, pwp_require; [done|]. intros Hb. apply negb_true_iff in Hb. specialize (Hm1 Hb).
    apply pwp_bind, wp_screen_settle; [done|]. intros b2. apply pwp_bind, pwp_require; [done|]. intros _.
    assert (Hrest : forall charged m2, core m2 = core m1 ->
      pwp (batch_lane c genesis degenerate w l p ok now ;;
        (if (charged : bool) then refund_feeless_attempt_for c w else mret tt) ;; enter c w) (fun _ => inv) m2).
    { intros charged m2 E2. pose proof (core_inv m1 m2 E2 HI1) as HI2.
      apply pwp_bind, wp_batch_lane; [done|]. intros m3 E3 Hn3. apply pwp_bind, wp_refund. intros m4 E4.
      assert (E43 : sender_nonces m4 = sender_nonces m3) by (unfold core, indexes in *; congruence).
      apply wp_enter; [eapply (core_inv m1); [congruence|done]| |done].
      eapply (fresh_core w m1); [congruence|done| |done]. rewrite E43. exact Hn3. }
    apply pwp_bind. destruct (is_feeless w); [|by apply pwp_ret, (Hrest false)].
    apply pwp_bind, wp_screen_feeless; [done|]. apply wp_gate; [done|]. intros b3 m2 E2. by apply Hrest. }
  unfold pwp in H. by destruct (admit_one _ _ _ _ _ _ _ _ _) as [[[]|] ?].
Qed.

Lemma admit_loop_inv batch l p m : inv m -> inv (admit_loop c genesis degenerate batch l p m).2.
Proof.
  revert m. induction batch as [|[[w ok] now] batch IH]; intros m HI; [done|]. cbn [admit_loop].
  pose proof (admit_one_inv w l p ok now m HI) as H1.
  destruct (admit_one _ _ _ _ _ _ _ _ m) as [[[a|e]|] m1]; cbn [snd] in H1; [|by apply IH|done].
  specialize (IH m1 H1). unfold mbind, P_bind.
  by destruct (admit_loop _ _ _ _ _ _ m1) as [[[]|] ?].
Qed.

Lemma admit_batch_inv batch l p cores clock m :
  inv m -> inv (admit_batch_across c genesis degenerate batch l p cores clock m).2.
Proof.
  intros HI. unfold admit_batch_across, mbind, P_bind, update. apply admit_loop_inv. by apply (core_inv m).
Qed.

(** A sweep: what stays and what is still to be looked at are in the indexes. *)
Lemma good_pending m xs ws : good m ws -> good (set_pending xs m) ws.
Proof. intros [H1 H2 H3 H4]. by constructor. Qed.

Lemma sweep_step (w : Wrapper) ws kept : kept ++ w :: ws ≡ₚ w :: kept ++ ws.
Proof. symmetry. apply Permutation_middle. Qed.

Lemma revalidate_loop_inv l clock ws : forall i kept m m',
  good m (kept ++ ws) -> revalidate_loop c l clock i ws kept m = Done m' -> inv m'.
Proof.
  induction ws as [|w ws IH]; intros i kept m m' HG; cbn [revalidate_loop].
  - intros [= <-]. rewrite app_nil_r in HG. unfold inv. cbn. by apply good_pending.
  - destruct (must_go c l (clock i) m w) as [go|]; [|done]. cbn [obind]. destruct go; apply IH.
    + apply good_drop. by rewrite <- sweep_step.
    + by rewrite <- app_assoc.
Qed.
Lemma revalidate_inv l clock m m' : inv m -> revalidate c l clock m = Done m' -> inv m'.
Proof. intros HI. eapply revalidate_loop_inv. by apply good_pending. Qed.

Lemma sweep_inv gone ws : forall kept m, good m (kept ++ ws) -> inv (sweep gone (drop_one c) ws kept m).
Proof.
  induction ws as [|w ws IH]; intros kept m HG; cbn [sweep].
  - rewrite app_nil_r in HG. by apply good_pending.
  - destruct (gone w); apply IH; [apply good_drop; by rewrite <- sweep_step|by rewrite <- app_assoc].
Qed.

Lemma evict_inv evicted m : inv m -> inv (evict c evicted m).
Proof. intros HI. destruct evicted; [done|]. apply sweep_inv. by apply good_pending. Qed.

(** [remove_included] untracks first and forgets the ids afterwards. *)
Definition tracks (m : Mempool) (ws : list Wrapper) : Prop := tracked (indexes m) ws /\ bounded (limits m) ws.

Lemma tracks_untrack w m ws : tracks m (w :: ws) -> tracks (untrack w m) ws.
Proof.
  intros [H1 H2]. split; [by apply untrack_tracked|]. rewrite limits_untrack. by apply bounded_tail in H2.
Qed.
Lemma tracks_perm m xs ys : xs ≡ₚ ys -> tracks m xs -> tracks m ys.
Proof. intros E [H1 H2]. split; by rewrite <- E. Qed.

Lemma sweep_untrack gone ws : forall kept m,
  tracks m (kept ++ ws) ->
  let m' := sweep gone untrack ws kept m in
  pending m' = kept ++ List.filter (fun w => negb (gone w)) ws /\ tracks m' (pending m') /\ ids m' = ids m /\
  limits m' = limits m.
Proof.
  induction ws as [|w ws IH]; intros kept m HG; cbn [sweep List.filter].
  - rewrite app_nil_r in *. split; [done|]. by split.
  - destruct (gone w); cbn [negb].
    + destruct (IH kept (untrack w m)) as (E & HT & Ei & El).
      { apply tracks_untrack. eapply tracks_perm; [apply sweep_step|done]. }
      rewrite ids_untrack in Ei. rewrite limits_untrack in El. auto.
    + destruct (IH (kept ++ [w]) m) as (E & HT & Ei & El); [by rewrite <- app_assoc|].
      rewrite <- app_assoc in E. auto.
Qed.

Lemma forget_ids gone m :
  let m' := foldl (fun m id => forget_id id m) m gone in
  pending m' = pending m /\ indexes m' = indexes m /\ limits m' = limits m /\
  forall k, k ∈ ids m' <-> k ∈ ids m /\ k ∉ gone.
Proof.
  revert m. induction gone as [|id gone IH]; intros m; cbn [foldl].
  - split_and!; try done. intros k. split; [|by intros []]. intros Hk. split; [done|]. by intros ?%elem_of_nil.
  - destruct (IH (forget_id id m)) as (E1 & E2 & E3 & E4). split_and!; try done. intros k. rewrite E4.
    cbn [ids forget_id set_ids]. rewrite elem_of_difference, elem_of_singleton, not_elem_of_cons. tauto.
Qed.

Lemma remove_included_inv included m : inv m -> inv (remove_included c included m).
Proof.
  intros [H1 H2 H3 H4]. unfold remove_included.
  set (gone := fun w => bool_decide (id_of w ∈ included)).
  destruct (sweep_untrack gone (pending m) [] (set_pending [] m)) as (E & [HT HB] & Ei & El); [by split|].
  set (m1 := sweep gone untrack (pending m) [] (set_pending [] m)) in *.
  destruct (forget_ids included m1) as (F1 & F2 & F3 & F4).
  apply (core_inv (foldl (fun m id => forget_id id m) m1 included)); [done|].
  unfold inv. rewrite F1. constructor; [by rewrite F2| |by rewrite F3|].
  2: { rewrite F3, El. exact H4. }
  intros k. rewrite F4, Ei. cbn [ids set_pending]. rewrite (H2 k), E. cbn [app].
  rewrite !list_elem_of_fmap. split.
  - intros [(w & -> & Hw) Hn]. exists w. split; [done|]. apply list_elem_of_In, filter_In.
    split; [by apply list_elem_of_In|]. unfold gone. by rewrite bool_decide_eq_false_2.
  - intros (w & -> & Hw). apply list_elem_of_In, filter_In in Hw as [Hw Hg]. unfold gone in Hg.
    apply negb_true_iff, bool_decide_eq_false in Hg. split; [|done]. exists w. by rewrite list_elem_of_In.
Qed.

Lemma limits_inv cap per_sender reserve :
  limits (with_limits cap per_sender reserve) = li -> inv (with_limits cap per_sender reserve).
Proof.
  intros Hl. constructor; [constructor| | |done]; cbn; try done; try (by constructor); try (apply NoDup_nil_2).
  - intros k. rewrite lookup_empty. split; [by intros []|by intros ?%elem_of_nil].
  - intros k. rewrite elem_of_empty. split; [done|by intros ?%elem_of_nil].
  - intros k. cbn. rewrite elem_of_empty. split; [done|by intros ?%elem_of_nil].
  - constructor; cbn; lia.
Qed.

End Correct.
