(* ===== verification/MempoolSpec.v ===== *)
(** * What the mempool promises

    The properties of the pool over its whole history, the order of its candidates,
    the agreement of hinted and unhinted admission and the lane kept open for
    governance; with a pool that runs. *)

From stdpp Require Import sorting.
From S2P Require Import Prelude Codec Idfmt Tx SigCache Events LedgerState LedgerKeys.
From S2P Require Import Governance Staking Fee LedgerStake LedgerHistory Admission Mempool MempoolCorrect.

Section Spec.
Context (c : Crypto) (genesis : option (list byte)) (degenerate : list byte -> bool).
Context {lanes : Lanes}.
#[local] Notation id_of := (id_of c).

(** ** Histories *)

Inductive PoolStep : Type :=
| Admit (w : Wrapper) (l : Ledger) (p : FeeParams) (hint : option AdmitHint) (now : Z)
| AdmitBatch (batch : list Wrapper) (l : Ledger) (p : FeeParams) (cores : nat) (clock : nat -> Z)
| Revalidate (l : Ledger) (p : option FeeParams) (clock : nat -> Z)
| Evict (evicted : list (list byte))
| RemoveIncluded (included : list (list byte)).

Definition pool_step (s : PoolStep) (m : Mempool) : outcome Mempool :=
  match s with
  | Admit w l p hint now => Done (Mempool_admit c genesis degenerate w l p hint now m).2
  | AdmitBatch batch l p cores clock => Done (admit_batch_across c genesis degenerate batch l p cores clock m).2
  | Revalidate l (Some p) clock => revalidate_with c l p clock m
  | Revalidate l None clock => revalidate c l clock m
  | Evict evicted => Done (evict c evicted m)
  | RemoveIncluded included => Done (remove_included c included m)
  end.

Inductive pool_reachable (start : Mempool) : Mempool -> Prop :=
| pool_start : pool_reachable start start
| pool_next m s m' : pool_reachable start m -> pool_step s m = Done m' -> pool_reachable start m'.

Lemma pool_inv li start m : inv c li start -> pool_reachable start m -> inv c li m.
Proof.
  intros HI. induction 1 as [|m s m' _ IH Hs]; [done|].
  destruct s as [w l p hint now|batch l p cores clock|l [p|] clock|evicted|included]; cbn [pool_step] in Hs.
  - injection Hs as <-. by apply admit_inv.
  - injection Hs as <-. by apply admit_batch_inv.
  - eapply revalidate_inv; [|exact Hs]. by apply (core_inv c li m).
  - by eapply revalidate_inv.
  - injection Hs as <-. by apply evict_inv.
  - injection Hs as <-. by apply remove_included_inv.
Qed.
Lemma reachable_inv cp ps rs m :
  pool_reachable (with_limits cp ps rs) m -> inv c (limits (with_limits cp ps rs)) m.
Proof. apply pool_inv, limits_inv. done. Qed.


(** ** The order of the candidates *)

Lemma candidate_le_trans ceiling : Transitive (candidate_le c ceiling).
Proof.
  intros [i x] [j y] [k z]. unfold candidate_le. cbn [fst snd].
  destruct (Admission.is_feeless c x), (Admission.is_feeless c y), (Admission.is_feeless c z); naive_solver lia.
Qed.
Lemma candidate_le_total ceiling : Total (candidate_le c ceiling).
Proof.
  intros [i x] [j y]. unfold candidate_le. cbn [fst snd].
  destruct (Admission.is_feeless c x), (Admission.is_feeless c y); try (by auto).
  all: destruct (Z.lt_total (Z.min (fee (body x)) ceiling) (Z.min (fee (body y)) ceiling)) as [|[E|]]; auto 6 with lia.
  all: destruct (Nat.le_ge_cases i j); auto 8.
Qed.
#[local] Existing Instance candidate_le_trans.
#[local] Existing Instance candidate_le_total.

Lemma candidate_le_index ceiling a b : candidate_le c ceiling a b -> candidate_le c ceiling b a -> a.1 = b.1.
Proof.
  unfold candidate_le. destruct (Admission.is_feeless c a.2), (Admission.is_feeless c b.2); naive_solver lia.
Qed.

Lemma numbered_lookup m a : a ∈ numbered m -> pending m !! a.1 = Some a.2.
Proof.
  intros Ha. apply list_elem_of_lookup in Ha as [k Hk]. unfold numbered in Hk.
  apply lookup_zip_with_Some in Hk as (i & w & -> & Hi & Hw). cbn.
  apply lookup_seq in Hi as [-> _]. done.
Qed.

Lemma snd_numbered m : (numbered m).*2 = pending m.
Proof. unfold numbered. apply snd_zip. rewrite length_seq. lia. Qed.

(** [select_nth_unstable_by], as documented: the entries before the position compare
    no greater than those behind it. *)
Definition selects (ceiling : Z) (select : nat -> list (nat * Wrapper) -> list (nat * Wrapper)) : Prop :=
  forall limit refs, (limit < length refs)%nat ->
    length (select limit refs) = limit /\
    exists rest, refs ≡ₚ select limit refs ++ rest /\
      forall a b, a ∈ select limit refs -> b ∈ rest -> candidate_le c ceiling a b.

Lemma sorted_prefix m select limit :
  selects (ceiling m) select -> (limit < length (numbered m))%nat ->
  merge_sort (candidate_le c (ceiling m)) (select limit (numbered m))
    = take limit (merge_sort (candidate_le c (ceiling m)) (numbered m)).
Proof.
  intros Hs Hl. set (R := candidate_le c (ceiling m)).
  destruct (Hs limit (numbered m) Hl) as (Hlen & rest & Hp & Hle).
  set (top := select limit (numbered m)) in *.
  assert (E : merge_sort R (numbered m) = merge_sort R top ++ merge_sort R rest).
  { apply (StronglySorted_unique_strong R).
    - intros a b Ha Hb Hab Hba. rewrite merge_sort_Permutation in Ha.
      rewrite !merge_sort_Permutation, <- Hp in Hb. apply numbered_lookup in Ha, Hb.
      pose proof (candidate_le_index _ a b Hab Hba) as Hi. destruct a, b. cbn in *. congruence.
    - apply StronglySorted_merge_sort; apply _.
    - apply StronglySorted_app_2; [|apply StronglySorted_merge_sort; apply _..].
      intros a b. rewrite !merge_sort_Permutation. apply Hle.
    - by rewrite !merge_sort_Permutation. }
  rewrite E, take_app_length'; [done|].
  by rewrite (Permutation_length (merge_sort_Permutation R top)).
Qed.

(** The candidates of a block.  They are the pending transactions, all of them,
    feeless ones first and the rest by falling bids (a bid above the ceiling buys
    nothing), ties by age; and the partial selection taken for a proposal is the
    beginning of that order, cut where the byte budget ends. *)
Theorem candidates_ordered m select limit max_bytes :
  selects (ceiling m) select ->
  candidates c m ≡ₚ pending m /\
  (exists sorted, candidates c m = sorted.*2 /\ StronglySorted (candidate_le c (ceiling m)) sorted) /\
  top_candidates_within c select limit max_bytes m
    = within_bytes max_bytes false (take limit (candidates c m)).
Proof.
  intros Hs. unfold candidates, top_candidates_within. split_and!.
  - by rewrite merge_sort_Permutation, snd_numbered.
  - eexists. split; [done|]. apply StronglySorted_merge_sort; apply _.
  - f_equal. rewrite <- fmap_take. f_equal.
    destruct (Nat.ltb_spec limit (length (numbered m))); [by apply sorted_prefix|].
    rewrite take_ge; [done|]. by rewrite (Permutation_length (merge_sort_Permutation _ (numbered m))).
Qed.

(** ** Hints *)

(** The same pool and the same answer, up to the reason of a refusal. *)
Definition agree {A} (x y : outcome (Result Reject A) * Mempool) : Prop :=
  x.2 = y.2 /\
  match x.1, y.1 with
  | Done (Ok a), Done (Ok b) => a = b
  | Done (Err _), Done (Err _) => True
  | Panic, Panic => True
  | _, _ => False
  end.

Lemma agree_refl {A} (x : outcome (Result Reject A) * Mempool) : agree x x.
Proof. destruct x as [[[]|] ?]; by split. Qed.
Lemma agree_bind {A B} (p q : P A) (k k' : A -> P B) m :
  agree (p m) (q m) -> (forall a m', agree (k a m') (k' a m')) -> agree ((p ≫= k) m) ((q ≫= k') m).
Proof.
  unfold agree at 1, mbind, P_bind. intros [E1 E2] Hk.
  destruct (p m) as [[[a|e]|] m1], (q m) as [[[b|e']|] m2]; cbn in *; try done; subst; auto; by split.
Qed.

Lemma hint_verdict w l p now :
  is_key_register c w = false -> is_signed_lane c w = true ->
  let a := account (sha3_256 c) l (sender (body w)) in
  verified c genesis w (acc_public_key a) (hint_signature (admission_hint c genesis w l p now))
    = plain_verify c genesis w (acc_public_key a).
Proof.
  intros Hk Hs. unfold admission_hint. rewrite Hk, Hs. case_step; [|done].
  cbn [hint_signature verified hint_public_key hint_ok]. by case_step.
Qed.

(** A transfer planned under the hint, and planned inline. *)
Lemma hint_plan w l p ok m (k : TransferPlan -> P unit) :
  let a := account (sha3_256 c) l (sender (body w)) in
  has_key a = true -> ok = plain_verify c genesis w (acc_public_key a) ->
  agree ((pure_result (plan_verified c w a p ok) ≫= k) m) ((pure_result (validate c genesis w l p) ≫= k) m).
Proof.
  intros a Hk ->. apply agree_bind; [|intros; apply agree_refl]. unfold pure_result, validate. fold a.
  unfold plan_verified, plan_from_account. rewrite Hk. cbn [negb].
  destruct (scheme_supported (scheme w)); cbn [negb]; [|by split].
  destruct (plain_verify c genesis w (acc_public_key a)); cbn [negb].
  - destruct (plan_from_account_checks c w a p); by split.
  - destruct (plan_from_account_checks c w a p); by split.
Qed.

(** Registering a key under the hint is registering it inline. *)
Lemma hint_key_register w a p :
  is_Some (key_register_admissible c genesis degenerate w a p (Some (key_register_signature c genesis w))) <->
  is_Some (key_register_admissible c genesis degenerate w a p None).
Proof.
  unfold key_register_admissible, key_register_signature.
  destruct (names (address_for_key c (scheme w) (args (call (body w)))) (sender (body w))); cbn [andb negb default from_option];
    reflexivity.
Qed.

Lemma hint_lanes w l p now m :
  Admission.is_feeless c w = false ->
  agree (lane_checks c genesis degenerate w l p (admission_hint c genesis w l p now) now m)
    (lane_checks c genesis degenerate w l p AdmitHint_default now m).
Proof.
  intros Hf. assert (is_evidence c w = false /\ is_bridge_guardian c w = false /\ is_bridge_mint c w = false /\
    is_bridge_settle c w = false) as (E1 & E2 & E3 & E4).
  { unfold Admission.is_feeless in Hf. rewrite !orb_false_iff in Hf. tauto. }
  destruct (is_key_register c w) eqn:Ek.
  - assert (Eh : admission_hint c genesis w l p now = AdmitHint_default \/
      admission_hint c genesis w l p now = mkAdmitHint None None (Some (key_register_signature c genesis w))).
    { unfold admission_hint. rewrite Ek. case_step; auto. }
    destruct Eh as [->| ->]; [apply agree_refl|]. unfold lane_checks. rewrite Ek.
    cbn [hint_signature key_register_ok AdmitHint_default]. destruct (is_vm_op c w); [apply agree_refl|].
    apply agree_bind; [apply agree_refl|]. intros _ m'.
    rewrite (bool_decide_ext _ _ (hint_key_register w _ p)). apply agree_refl.
  - destruct (is_registration c w) eqn:Er.
    { unfold admission_hint, is_signed_lane. rewrite Ek, Hf, Er, E1, E2, E3, E4. apply agree_refl. }
    assert (Hs : is_signed_lane c w = true) by (unfold is_signed_lane; by rewrite Hf, Ek, Er).
    pose proof (hint_verdict w l p now Ek Hs) as Hv. cbv zeta in Hv.
    unfold lane_checks. rewrite Hv, Ek, E1, E2, E3, E4, Er. cbn [hint_signature AdmitHint_default verified].
    destruct (is_vm_op c w), (is_stake_payee c w), (is_priority c w), (is_bridge_exit c w); try apply agree_refl.
    apply agree_bind; [apply agree_refl|]. intros _ m'.
    unfold admission_hint. rewrite Ek, Hs. case_step; [|apply agree_refl]. cbn [hint_signature hint_public_key hint_ok].
    case_step; [|apply agree_refl]. apply hint_plan; [|done]. unfold has_key. bool_to_prop.
    by rewrite bool_decide_eq_false_2.
Qed.

(** Checking a transaction ahead of time changes nothing.  For every transaction
    that pays a fee, admission with the hint computed beforehand on the same ledger
    leaves the same pool and gives the same answer as admission without one; only the
    reason given for a refusal may differ. *)
Theorem hinted_admission_agrees w l p now m :
  Admission.is_feeless c w = false ->
  agree (Mempool_admit c genesis degenerate w l p (Some (admission_hint c genesis w l p now)) now m)
    (Mempool_admit c genesis degenerate w l p None now m).
Proof.
  intros Hf. unfold Mempool_admit. cbn [default from_option].
  do 3 (apply agree_bind; [apply agree_refl|intros ? ?]). case_step; [apply agree_refl|].
  do 2 (apply agree_bind; [apply agree_refl|intros ? ?]). case_step; [apply agree_refl|].
  do 4 (apply agree_bind; [apply agree_refl|intros ? ?]). case_step; [apply agree_refl|].
  apply agree_bind; [apply agree_refl|intros ? ?]. case_step; [apply agree_refl|].
  apply agree_bind; [apply agree_refl|intros ? ?].
  apply agree_bind; [by apply hint_lanes|intros ? ?]. apply agree_refl.
Qed.

(** ** The lane of governance *)

Lemma lowest_exists keep cost k ws : (exists x, x ∈ ws /\ keep x = true) -> is_Some (lowest keep cost k ws).
Proof.
  revert k. induction ws as [|w ws IH]; intros k (x & Hx & Hk); [by apply elem_of_nil in Hx|]. cbn [lowest].
  destruct (keep w) eqn:Ew; [by repeat case_match|].
  apply IH. apply elem_of_cons in Hx as [->|Hx]; [congruence|by eauto].
Qed.

End Spec.

(** ** A pool that runs *)

Definition example_lanes : Lanes := mkLanes (fun _ => None) (fun _ => None) (fun _ _ => true) (fun _ _ => false)
  (fun _ _ => false) (fun _ => true) (fun _ _ _ _ => true) (fun _ _ _ => true) (fun _ _ _ _ _ => true)
  (fun _ _ _ _ => true) (fun _ _ _ => true) (fun _ => true) (fun _ _ _ => true) (fun _ _ => true)
  (fun _ _ _ => true) (fun _ _ => true) (fun _ _ _ => true) (fun _ _ _ _ _ => true) (fun _ _ => true).
#[local] Existing Instance example_lanes.

Definition example_target (address : (list byte -> list byte) -> outcome (list byte)) : list byte :=
  match address example_hash with Done text => text | Panic => [] end.
Definition example_call (sender : list byte) (nonce : Z) (call : Call) : Wrapper :=
  mkWrapper (with_context sender nonce 2000 1000 call 0 LOCAL_CHAIN_ID) SCHEME_HASH [].

(** One piece of evidence, wrapped by two senders. *)
Definition example_evidence (sender : list byte) : Wrapper :=
  example_call sender 0 (mkCall (example_target evidence_address) [x01]).
Definition example_batch : list Wrapper := [example_evidence address_a; example_evidence address_b].
Definition example_start : Mempool := with_limits 3 2 1.
Definition example_pool : Mempool :=
  (admit_batch_across example_crypto None (fun _ => false) example_batch example_genesis FeeParams_devnet 1
    (fun _ => 100000) example_start).2.
Definition example_proposal : Wrapper := example_call address_a 0 (mkCall (example_target gov_system_address) [x05]).

Lemma example_pool_reachable : pool_reachable example_crypto None (fun _ => false) example_start example_pool.
Proof.
  eapply (pool_next _ _ _ _ example_start
    (AdmitBatch example_batch example_genesis FeeParams_devnet 1 (fun _ => 100000))); [constructor|reflexivity].
Qed.


Definition example_select (m : Mempool) (limit : nat) (refs : list (nat * Wrapper)) : list (nat * Wrapper) :=
  take limit (merge_sort (candidate_le example_crypto (ceiling m)) refs).
Lemma example_selects m : selects example_crypto (ceiling m) (example_select m).
Proof.
  intros limit refs Hl. unfold example_select. set (R := candidate_le example_crypto (ceiling m)).
  split.
  - rewrite length_take, (Permutation_length (merge_sort_Permutation R refs)). lia.
  - exists (drop limit (merge_sort R refs)). rewrite take_drop. split; [by rewrite merge_sort_Permutation|].
    assert (Hs : StronglySorted R (merge_sort R refs)).
    { apply StronglySorted_merge_sort; [apply candidate_le_trans|apply candidate_le_total]. }
    intros a b. rewrite <- (take_drop limit (merge_sort R refs)) in Hs. by eapply StronglySorted_app_1_elem_of.
Qed.
Lemma candidates_ordered_witness :
  top_candidates_within example_crypto (example_select example_pool) 1 1000 example_pool
    = within_bytes 1000 false (take 1 (candidates example_crypto example_pool)) /\
  length (candidates example_crypto example_pool) = 2%nat.
Proof.
  split; [|vm_compute; reflexivity].
  exact (proj2 (proj2 (candidates_ordered example_crypto example_pool _ 1 1000 (example_selects example_pool)))).
Defined.

Lemma hinted_admission_agrees_witness :
  agree
    (Mempool_admit example_crypto None (fun _ => false) example_transaction example_genesis FeeParams_devnet
      (Some (admission_hint example_crypto None example_transaction example_genesis FeeParams_devnet 100000)) 100000
      example_pool)
    (Mempool_admit example_crypto None (fun _ => false) example_transaction example_genesis FeeParams_devnet None 100000
      example_pool).
Proof.
  apply (hinted_admission_agrees example_crypto None (fun _ => false) example_transaction example_genesis
    FeeParams_devnet 100000 example_pool). vm_compute. reflexivity.
Defined.


(** One piece of evidence takes one place when its wrappers are admitted one by one,
    and two when they come in a batch: the batch does not look at the payloads.  And
    when one of the two leaves, the pool no longer knows the payload it still holds. *)
Theorem batch_holds_payload_twice :
  let admit1 w m := (Mempool_admit example_crypto None (fun _ => false) w example_genesis FeeParams_devnet None 100000 m).2 in
  length (pending (admit1 (example_evidence address_b) (admit1 (example_evidence address_a) example_start))) = 1%nat /\
  length (pending example_pool) = 2%nat /\
  map (feeless_payload_key example_crypto) (pending example_pool)
    = [feeless_payload_key example_crypto (example_evidence address_a);
       feeless_payload_key example_crypto (example_evidence address_a)] /\
  let rest := evict example_crypto [id_of example_crypto (example_evidence address_a)] example_pool in
  length (pending rest) = 1%nat /\ feeless_payloads rest = ∅.
Proof. vm_compute. repeat split; reflexivity. Qed.
