(* ===== verification/Json.v ===== *)
(** * JSON of the gateway (crates/qtv-gateway/src/json.rs)

    The value type, its printer, the recursive-descent parser with its nesting
    and element limits, and the hexadecimal text of byte strings.  A [char] is
    its Unicode scalar value, a [String] the list of its characters.

    A parser function takes the [Parser] and returns a [Step]: the value and
    the parser after it, the error, or [OutOfFuel], which stands for a loop
    that has not come to an end.  An error leaves no parser behind: every caller
    returns it at once, up to [parse], which drops the parser. *)

From stdpp Require Import gmap.
From S2P Require Import Prelude.

(** ** Characters *)

Definition scalar (c : Z) : Prop := 0 <= c < 55296 \/ 57344 <= c < 1114112.

#[global] Instance scalar_dec c : Decision (scalar c).
Proof. unfold scalar. apply _. Defined.

(** The characters of an ASCII literal. *)
Notation chars_of s := (map byte_val (ascii s)).

Definition TAB : Z := 9.
Definition NEWLINE : Z := 10.
Definition RETURN : Z := 13.
Definition SPACE : Z := 32.
Definition QUOTE : Z := 34.
Definition COMMA : Z := 44.
Definition MINUS : Z := 45.
Definition SLASH : Z := 47.
Definition COLON : Z := 58.
Definition LBRACKET : Z := 91.
Definition BACKSLASH : Z := 92.
Definition RBRACKET : Z := 93.
Definition LOWER_B : Z := 98.
Definition LOWER_F : Z := 102.
Definition LOWER_N : Z := 110.
Definition LOWER_R : Z := 114.
Definition LOWER_T : Z := 116.
Definition LOWER_U : Z := 117.
Definition LBRACE : Z := 123.
Definition RBRACE : Z := 125.

(** [char::is_ascii_digit]. *)
Definition is_ascii_digit (c : Z) : bool := (48 <=? c) && (c <=? 57).

(** [char::to_digit(16)]. *)
Definition to_digit16 (c : Z) : option Z :=
  if is_ascii_digit c then Some (c - 48)
  else if (97 <=? c) && (c <=? 102) then Some (c - 87)
  else if (65 <=? c) && (c <=? 70) then Some (c - 55)
  else None.

(** [char::from_digit(d, 16)] for a nibble. *)
Definition from_digit16 (d : Z) : Z := if d <? 10 then 48 + d else 87 + d.

(** [char::from_u32]. *)
Definition from_u32 (code : Z) : option Z :=
  if bool_decide (scalar code) then Some code else None.

(** [u64::to_string]: twenty digits hold every [u64]. *)
Fixpoint decimal (fuel : nat) (n : Z) (acc : list Z) : list Z :=
  match fuel with
  | O => acc
  | S fuel =>
      let acc := (48 + n mod 10) :: acc in
      if n <? 10 then acc else decimal fuel (n / 10) acc
  end.
Definition u64_to_string (n : Z) : list Z := decimal 20 n [].

(** [str::parse::<u64>]: one leading plus is allowed, the empty string and
    anything but digits is refused, and so is a number past the width. *)
Fixpoint parse_digits (s : list Z) (acc : Z) : option Z :=
  match s with
  | [] => Some acc
  | c :: s =>
      if is_ascii_digit c
      then acc ← checked_mul 64 acc 10; acc ← checked_add 64 acc (c - 48); parse_digits s acc
      else None
  end.
Definition parse_u64 (s : list Z) : option Z :=
  match s with
  | [] => None
  | [c] => if is_ascii_digit c then Some (c - 48) else None
  | c :: s' => parse_digits (if c =? 43 then s' else s) 0
  end.

(** ** Values *)

Inductive Json : Type :=
| JNull
| JBool (b : bool)
| JInt (n : Z)
| JStr (s : list Z)
| JArray (items : list Json)
| JObject (fields : list (list Z * Json)).

Definition str (s : list Z) : Json := JStr s.

Definition get (j : Json) (key : list Z) : option Json :=
  match j with
  | JObject fields => snd <$> find (fun kv => bool_decide (kv.1 = key)) fields
  | _ => None
  end.

Definition as_str (j : Json) : option (list Z) :=
  match j with JStr s => Some s | _ => None end.
Definition as_u64 (j : Json) : option Z :=
  match j with JInt n => Some n | _ => None end.
Definition as_array (j : Json) : option (list Json) :=
  match j with JArray items => Some items | _ => None end.

Definition object (fields : list (list Z * Json)) : Json := JObject fields.

(** ** Printing *)

(** [format!("\\u{:04x}", c)] for a code below 65536. *)
Definition unicode_escape_text (c : Z) : list Z :=
  [BACKSLASH; LOWER_U;
   from_digit16 (Z.shiftr c 12 mod 16); from_digit16 (Z.shiftr c 8 mod 16);
   from_digit16 (Z.shiftr c 4 mod 16); from_digit16 (c mod 16)].

Definition write_char (c : Z) : list Z :=
  if c =? QUOTE then [BACKSLASH; QUOTE]
  else if c =? BACKSLASH then [BACKSLASH; BACKSLASH]
  else if c =? NEWLINE then [BACKSLASH; LOWER_N]
  else if c =? RETURN then [BACKSLASH; LOWER_R]
  else if c =? TAB then [BACKSLASH; LOWER_T]
  else if c <? 32 then unicode_escape_text c
  else [c].

(** What [write_string] pushes. *)
Definition write_string (s : list Z) : list Z := QUOTE :: concat (map write_char s) ++ [QUOTE].

(** A loop over [items.iter().enumerate()] that pushes a comma before every
    item but the first. *)
Definition comma_separated {A} (f : A -> list Z) : list A -> list Z :=
  fix go items :=
    match items with
    | [] => []
    | [x] => f x
    | x :: items => f x ++ COMMA :: go items
    end.

(** What [write] pushes. *)
Fixpoint write (j : Json) : list Z :=
  match j with
  | JNull => chars_of "null"
  | JBool true => chars_of "true"
  | JBool false => chars_of "false"
  | JInt n => u64_to_string n
  | JStr s => write_string s
  | JArray items => LBRACKET :: comma_separated write items ++ [RBRACKET]
  | JObject fields =>
      LBRACE :: comma_separated (fun kv => write_string kv.1 ++ COLON :: write kv.2) fields
        ++ [RBRACE]
  end.

Definition render (j : Json) : list Z := write j.

(** ** The parser *)

Definition MAX_DEPTH : Z := 64.
Definition MAX_NODES : Z := 200000.

Inductive JsonError : Type :=
| TrailingCharacters
| TooManyElements
| ExpectedValue
| NestsTooDeep
| ExpectedStringKey
| DuplicateKey
| ExpectedColon
| ExpectedCommaOrBrace
| ExpectedCommaOrBracket
| BadEscape
| RawControlCharacter
| StringNotClosed
| BadUnicodeEscape
| BadCodePoint
| LeadingZero (shown : list Z)
| NotAWholeNumber (shown : list Z)
| ExpectedBool
| ExpectedNull.

Record Parser : Type := mkParser {
  chars : list Z;
  pos : nat;
  depth : Z;
  nodes : Z }.

(** [k] characters and [m] values further on. *)
Definition adv (k : nat) (m : Z) (p : Parser) : Parser :=
  mkParser (chars p) (pos p + k) (depth p) (nodes p + m).
Definition with_depth (p : Parser) (d : Z) : Parser := mkParser (chars p) (pos p) d (nodes p).

Inductive Step (A : Type) : Type :=
| Parsed (a : A) (p : Parser)
| Failed (e : JsonError)
| OutOfFuel.
Arguments Parsed {A} _ _.
Arguments Failed {A} _.
Arguments OutOfFuel {A}.

Definition pbind {A B} (m : Step A) (k : A -> Parser -> Step B) : Step B :=
  match m with
  | Parsed a p => k a p
  | Failed e => Failed e
  | OutOfFuel => OutOfFuel
  end.

Notation "'parsed' ( x , p ) ':=' m 'in' k" := (pbind m (fun x p => k))
  (at level 10, x name, p name, m at level 100, k at level 200) : chain_scope.

Definition peek (p : Parser) : option Z := chars p !! pos p.

Definition next (p : Parser) : option Z * Parser :=
  match peek p with
  | Some c => (Some c, adv 1 0 p)
  | None => (None, p)
  end.

Definition is_ws (c : option Z) : bool :=
  match c with
  | Some c => (c =? SPACE) || (c =? TAB) || (c =? NEWLINE) || (c =? RETURN)
  | None => false
  end.

(** The two loops that only move forward stop at the end of the text at the
    latest, so what is left of it is fuel enough for them. *)
Fixpoint skip_ws_loop (fuel : nat) (p : Parser) : Parser :=
  match fuel with
  | O => p
  | S fuel => if is_ws (peek p) then skip_ws_loop fuel (adv 1 0 p) else p
  end.
Definition skip_ws (p : Parser) : Parser := skip_ws_loop (length (chars p) - pos p) p.

Fixpoint digits_loop (fuel : nat) (p : Parser) : Parser :=
  match fuel with
  | O => p
  | S fuel =>
      match peek p with
      | Some c => if is_ascii_digit c then digits_loop fuel (next p).2 else p
      | None => p
      end
  end.

Fixpoint unicode_digits (n : nat) (code : Z) (p : Parser) : Step Z :=
  match n with
  | O => Parsed code p
  | S n =>
      let '(c, p) := next p in
      match c ≫= to_digit16 with
      | Some digit => unicode_digits n (code * 16 + digit) p
      | None => Failed BadUnicodeEscape
      end
  end.

Definition unicode_escape (p : Parser) : Step Z :=
  parsed (code, p) := unicode_digits 4 0 p in
  match from_u32 code with
  | Some c => Parsed c p
  | None => Failed BadCodePoint
  end.

(** The escapes of one character after the backslash. *)
Definition short_escape (c : Z) : option Z :=
  if c =? QUOTE then Some QUOTE
  else if c =? BACKSLASH then Some BACKSLASH
  else if c =? SLASH then Some SLASH
  else if c =? LOWER_N then Some NEWLINE
  else if c =? LOWER_R then Some RETURN
  else if c =? LOWER_T then Some TAB
  else if c =? LOWER_B then Some 8
  else if c =? LOWER_F then Some 12
  else None.

Fixpoint string_loop (fuel : nat) (s : list Z) (p : Parser) : Step (list Z) :=
  match fuel with
  | O => OutOfFuel
  | S fuel =>
      let '(c, p) := next p in
      match c with
      | None => Failed StringNotClosed
      | Some c =>
          if c =? QUOTE then Parsed s p
          else if c =? BACKSLASH then
            let '(e, p) := next p in
            match e with
            | None => Failed BadEscape
            | Some e =>
                match short_escape e with
                | Some c => string_loop fuel (s ++ [c]) p
                | None =>
                    if e =? LOWER_U
                    then parsed (c, p) := unicode_escape p in string_loop fuel (s ++ [c]) p
                    else Failed BadEscape
                end
            end
          else if c <? 32 then Failed RawControlCharacter
          else string_loop fuel (s ++ [c]) p
      end
  end.

(** Every round of [string]'s loop takes a character. *)
Definition string (p : Parser) : Step (list Z) :=
  let p := (next p).2 in
  string_loop (S (length (chars p))) [] p.

Definition number (p : Parser) : Step Json :=
  let start := pos p in
  let p := if bool_decide (peek p = Some MINUS) then (next p).2 else p in
  let p := digits_loop (length (chars p) - pos p) p in
  let text := take (pos p - start) (drop start (chars p)) in
  let shown := take 32 text in
  if (1 <? length text)%nat && bool_decide (head text = Some 48) then Failed (LeadingZero shown)
  else match parse_u64 text with
       | Some n => Parsed (JInt n) p
       | None => Failed (NotAWholeNumber shown)
       end.

Definition literal (word : list Z) (p : Parser) : bool * Parser :=
  let end_ := (pos p + length word)%nat in
  if (end_ <=? length (chars p))%nat
     && bool_decide (take (length word) (drop (pos p) (chars p)) = word)
  then (true, mkParser (chars p) end_ (depth p) (nodes p))
  else (false, p).

Definition boolean (p : Parser) : Step Json :=
  match literal (chars_of "true") p with
  | (true, p) => Parsed (JBool true) p
  | (false, p) =>
      match literal (chars_of "false") p with
      | (true, p) => Parsed (JBool false) p
      | (false, _) => Failed ExpectedBool
      end
  end.

Definition null (p : Parser) : Step Json :=
  match literal (chars_of "null") p with
  | (true, p) => Parsed JNull p
  | (false, _) => Failed ExpectedNull
  end.

Definition nested (parse_container : Parser -> Step Json) (p : Parser) : Step Json :=
  if MAX_DEPTH <=? depth p then Failed NestsTooDeep
  else
    parsed (j, p) := parse_container (with_depth p (depth p + 1)) in
    Parsed j (with_depth p (depth p - 1)).

(** [object] and [array] up to their loops, which are below with [value]. *)
Definition parse_object
    (loop : list (list Z * Json) -> gset (list Z) -> Parser -> Step Json) (p : Parser)
    : Step Json :=
  let p := skip_ws (next p).2 in
  if bool_decide (peek p = Some RBRACE) then Parsed (JObject []) (next p).2
  else loop [] ∅ p.

Definition parse_array (loop : list Json -> Parser -> Step Json) (p : Parser) : Step Json :=
  let p := skip_ws (next p).2 in
  if bool_decide (peek p = Some RBRACKET) then Parsed (JArray []) (next p).2
  else loop [] p.

Fixpoint value (fuel : nat) (p : Parser) : Step Json :=
  match fuel with
  | O => OutOfFuel
  | S fuel =>
      let p := adv 0 1 p in
      if MAX_NODES <? nodes p then Failed TooManyElements
      else
        let p := skip_ws p in
        match peek p with
        | None => Failed ExpectedValue
        | Some c =>
            if c =? LBRACE then nested (parse_object (object_loop fuel)) p
            else if c =? LBRACKET then nested (parse_array (array_loop fuel)) p
            else if c =? QUOTE then parsed (s, p) := string p in Parsed (JStr s) p
            else if (c =? LOWER_T) || (c =? LOWER_F) then boolean p
            else if c =? LOWER_N then null p
            else if (c =? MINUS) || is_ascii_digit c then number p
            else Failed ExpectedValue
        end
  end
with object_loop (fuel : nat) (fields : list (list Z * Json)) (seen : gset (list Z))
    (p : Parser) : Step Json :=
  match fuel with
  | O => OutOfFuel
  | S fuel =>
      let p := skip_ws p in
      if bool_decide (peek p <> Some QUOTE) then Failed ExpectedStringKey
      else
        parsed (key, p) := string p in
        if bool_decide (key ∈ seen) then Failed DuplicateKey
        else
          let '(c, p) := next (skip_ws p) in
          if bool_decide (c <> Some COLON) then Failed ExpectedColon
          else
            parsed (v, p) := value fuel p in
            let fields := fields ++ [(key, v)] in
            let '(c, p) := next (skip_ws p) in
            if bool_decide (c = Some COMMA) then object_loop fuel fields ({[key]} ∪ seen) p
            else if bool_decide (c = Some RBRACE) then Parsed (JObject fields) p
            else Failed ExpectedCommaOrBrace
  end
with array_loop (fuel : nat) (items : list Json) (p : Parser) : Step Json :=
  match fuel with
  | O => OutOfFuel
  | S fuel =>
      parsed (v, p) := value fuel p in
      let items := items ++ [v] in
      let '(c, p) := next (skip_ws p) in
      if bool_decide (c = Some COMMA) then array_loop fuel items p
      else if bool_decide (c = Some RBRACKET) then Parsed (JArray items) p
      else Failed ExpectedCommaOrBracket
  end.

(** [None] stands for a parser that has not returned; [parse_returns] shows
    that the fuel given here, two rounds for each character and one more, is
    always enough. *)
Definition parse (input : list Z) : option (Result JsonError Json) :=
  let p := skip_ws (mkParser input 0 0 0) in
  match value (2 * length input + 1) p with
  | OutOfFuel => None
  | Failed e => Some (Err e)
  | Parsed j p =>
      let p := skip_ws p in
      if bool_decide (pos p <> length (chars p)) then Some (Err TrailingCharacters)
      else Some (Ok j)
  end.

(** ** Hexadecimal text *)

Inductive HexError : Type :=
| HexOddLength
| NotAHexDigit (c : Z).

(** [char::is_whitespace]. *)
Definition is_whitespace (c : Z) : bool :=
  ((9 <=? c) && (c <=? 13)) || (c =? 32) || (c =? 133) || (c =? 160) || (c =? 5760)
  || ((8192 <=? c) && (c <=? 8202)) || (c =? 8232) || (c =? 8233) || (c =? 8239)
  || (c =? 8287) || (c =? 12288).

Fixpoint trim_start (s : list Z) : list Z :=
  match s with
  | c :: s' => if is_whitespace c then trim_start s' else s
  | [] => []
  end.
Definition trim (s : list Z) : list Z := rev (trim_start (rev (trim_start s))).

(** [str::as_bytes]: UTF-8. *)
Definition utf8 (c : Z) : list Z :=
  if c <? 128 then [c]
  else if c <? 2048 then [192 + c / 64; 128 + c mod 64]
  else if c <? 65536 then [224 + c / 4096; 128 + c / 64 mod 64; 128 + c mod 64]
  else [240 + c / 262144; 128 + c / 4096 mod 64; 128 + c / 64 mod 64; 128 + c mod 64].
Definition as_bytes (s : list Z) : list Z := concat (map utf8 s).

Definition hex_nibble (c : Z) : Result HexError Z :=
  if (48 <=? c) && (c <=? 57) then Ok (c - 48)
  else if (97 <=? c) && (c <=? 102) then Ok (c - 97 + 10)
  else if (65 <=? c) && (c <=? 70) then Ok (c - 65 + 10)
  else Err (NotAHexDigit c).

(** The loop of [from_hex] over an even number of bytes. *)
Fixpoint hex_pairs (bytes out : list Z) : Result HexError (list Z) :=
  match bytes with
  | hi :: lo :: bytes =>
      let? hi := hex_nibble hi in
      let? lo := hex_nibble lo in
      hex_pairs bytes (out ++ [Z.lor (wrap 8 (Z.shiftl hi 4)) lo])
  | _ => Ok out
  end.

Definition from_hex (s : list Z) : Result HexError (list Z) :=
  let bytes := as_bytes (trim s) in
  if bool_decide (length bytes mod 2 <> 0)%nat then Err HexOddLength
  else hex_pairs bytes [].

Definition to_hex (bytes : list Z) : list Z :=
  concat (map (fun b => [from_digit16 (Z.shiftr b 4); from_digit16 (Z.land b 15)]) bytes).
