(* ===== verification/JsonCorrect.v ===== *)
(** * The gateway's JSON parser: it returns, and what it accepts

    Measures and predicates on values, a weakest precondition for parser
    steps, and one pass over the parser's functions with it.  The pass shows
    both that the fuel is enough and which values can come out. *)

From S2P Require Import Prelude Json.

(** ** Values *)

Section Induction.
Context (P : Json -> Prop)
  (Hnull : P JNull) (Hbool : forall b, P (JBool b)) (Hint : forall n, P (JInt n))
  (Hstr : forall s, P (JStr s))
  (Harray : forall items, Forall P items -> P (JArray items))
  (Hobject : forall fields, Forall (fun kv => P kv.2) fields -> P (JObject fields)).

Fixpoint Json_nested_ind (j : Json) : P j :=
  match j with
  | JNull => Hnull
  | JBool b => Hbool b
  | JInt n => Hint n
  | JStr s => Hstr s
  | JArray items =>
      Harray items
        ((fix go l : Forall P l :=
           match l with
           | [] => Forall_nil_2 P
           | x :: l => Forall_cons_2 P x l (Json_nested_ind x) (go l)
           end) items)
  | JObject fields =>
      Hobject fields
        ((fix go l : Forall (fun kv => P kv.2) l :=
           match l with
           | [] => Forall_nil_2 _
           | x :: l => Forall_cons_2 (fun kv => P kv.2) x l (Json_nested_ind x.2) (go l)
           end) fields)
  end.
End Induction.

Definition sum_of {A} (f : A -> Z) (l : list A) : Z := foldr (fun x a => f x + a) 0 l.
Definition max_of {A} (f : A -> Z) (l : list A) : Z := foldr (fun x a => Z.max (f x) a) 0 l.

(** The number of values in a value, itself included. *)
Fixpoint size (j : Json) : Z :=
  match j with
  | JArray items => 1 + foldr (fun x a => size x + a) 0 items
  | JObject fields => 1 + foldr (fun kv a => size kv.2 + a) 0 fields
  | _ => 1
  end.

(** How many arrays and objects enclose its innermost value. *)
Fixpoint nesting (j : Json) : Z :=
  match j with
  | JArray items => 1 + foldr (fun x a => Z.max (nesting x) a) 0 items
  | JObject fields => 1 + foldr (fun kv a => Z.max (nesting kv.2) a) 0 fields
  | _ => 0
  end.

Definition scalars (s : list Z) : bool := forallb (fun c => bool_decide (scalar c)) s.

(** What the Rust types [u64] and [String] promise of a value. *)
Fixpoint typed (j : Json) : bool :=
  match j with
  | JInt n => bool_decide (u64 n)
  | JStr s => scalars s
  | JArray items => forallb typed items
  | JObject fields => forallb (fun kv => scalars kv.1 && typed kv.2) fields
  | _ => true
  end.

(** No object in the value names a key twice. *)
Fixpoint distinct (j : Json) : bool :=
  match j with
  | JArray items => forallb distinct items
  | JObject fields =>
      bool_decide (NoDup (map fst fields)) && forallb (fun kv => distinct kv.2) fields
  | _ => true
  end.

(** The values the gateway takes. *)
Definition acceptable (j : Json) : bool :=
  distinct j && (nesting j <=? MAX_DEPTH) && (size j <=? MAX_NODES).

Lemma size_array items : size (JArray items) = 1 + sum_of size items.
Proof. done. Qed.
Lemma size_object fields : size (JObject fields) = 1 + sum_of (fun kv => size kv.2) fields.
Proof. done. Qed.
Lemma nesting_array items : nesting (JArray items) = 1 + max_of nesting items.
Proof. done. Qed.
Lemma nesting_object fields :
  nesting (JObject fields) = 1 + max_of (fun kv => nesting kv.2) fields.
Proof. done. Qed.

Lemma sum_of_snoc {A} (f : A -> Z) l x : sum_of f (l ++ [x]) = sum_of f l + f x.
Proof. unfold sum_of. induction l as [|y l IH]; simpl; [lia|]. rewrite IH. lia. Qed.

Lemma max_of_nonneg {A} (f : A -> Z) l : 0 <= max_of f l.
Proof. unfold max_of. induction l; simpl; lia. Qed.

Lemma max_of_snoc {A} (f : A -> Z) l x :
  max_of f (l ++ [x]) = Z.max (max_of f l) (Z.max (f x) 0).
Proof. unfold max_of. induction l as [|y l IH]; simpl; [lia|]. rewrite IH. lia. Qed.

Lemma nesting_nonneg j : 0 <= nesting j.
Proof.
  destruct j; simpl; try lia; [pose proof (max_of_nonneg nesting items) as H
    | pose proof (max_of_nonneg (fun kv => nesting kv.2) fields) as H];
    unfold max_of in H; lia.
Qed.

Lemma size_pos j : 1 <= size j.
Proof.
  induction j as [| | | |items IH|fields IH] using Json_nested_ind; simpl; try lia;
    induction IH; simpl; lia.
Qed.

Lemma sum_of_size_nonneg {A} (f : A -> Json) l : 0 <= sum_of (fun x => size (f x)) l.
Proof.
  unfold sum_of. induction l as [|x l IH]; simpl; [lia|]. pose proof (size_pos (f x)). lia.
Qed.

Lemma scalars_snoc s c : scalars (s ++ [c]) = scalars s && bool_decide (scalar c).
Proof. unfold scalars. rewrite forallb_app. simpl. by rewrite andb_true_r. Qed.

Lemma distinct_array_snoc items v :
  distinct (JArray (items ++ [v])) = distinct (JArray items) && distinct v.
Proof. simpl. rewrite forallb_app. simpl. by rewrite andb_true_r. Qed.

Lemma typed_array_snoc items v : typed (JArray (items ++ [v])) = typed (JArray items) && typed v.
Proof. simpl. rewrite forallb_app. simpl. by rewrite andb_true_r. Qed.

Lemma typed_object_snoc fields k v :
  typed (JObject (fields ++ [(k, v)])) = typed (JObject fields) && (scalars k && typed v).
Proof. simpl. rewrite forallb_app. simpl. by rewrite andb_true_r. Qed.

Lemma distinct_object_snoc fields k v :
  distinct (JObject fields) = true -> distinct v = true -> k ∉ map fst fields ->
  distinct (JObject (fields ++ [(k, v)])) = true.
Proof.
  simpl. intros [Hd Hf]%andb_true_iff Hv Hk. apply bool_decide_eq_true in Hd.
  rewrite map_app, forallb_app, Hf. simpl. rewrite Hv.
  rewrite bool_decide_eq_true_2; [done|].
  apply NoDup_app. split; [done|]. split; [|apply NoDup_singleton].
  intros x Hx ->%list_elem_of_singleton. done.
Qed.

(** ** Steps *)

Definition wp {A} (m : Step A) (Q : A -> Parser -> Prop) : Prop :=
  match m with
  | Parsed a p => Q a p
  | Failed _ => True
  | OutOfFuel => False
  end.

Lemma parsed_bind {A B} (m : Step A) (k : A -> Parser -> Step B) Q :
  wp m (fun a p => wp (k a p) Q) -> wp (pbind m k) Q.
Proof. by destruct m. Qed.

Lemma parsed_mono {A} (m : Step A) (Q R : A -> Parser -> Prop) :
  wp m Q -> (forall a p, Q a p -> R a p) -> wp m R.
Proof. destruct m; simpl; auto. Qed.

(** [p'] is [p] at least [k] characters and exactly [m] values later. *)
Definition moved (k : nat) (m : Z) (p p' : Parser) : Prop :=
  chars p' = chars p /\ depth p' = depth p /\ nodes p' = nodes p + m /\
  (pos p + k <= pos p' <= length (chars p))%nat.

Definition within (p : Parser) : Prop := (pos p <= length (chars p))%nat.

Lemma moved_refl p : within p -> moved 0 0 p p.
Proof. unfold moved, within. repeat split; auto; lia. Qed.

Lemma moved_trans k m l n p q r :
  moved k m p q -> moved l n q r -> moved (k + l) (m + n) p r.
Proof.
  intros (Hc & Hd & Hn & Hp) (Hc' & Hd' & Hn' & Hp').
  rewrite Hc in *. unfold moved. repeat split; congruence || lia.
Qed.

Lemma moved_weaken k l m p q : (l <= k)%nat -> moved k m p q -> moved l m p q.
Proof. unfold moved. intros ? (? & ? & ? & ?). repeat split; auto; lia. Qed.

Lemma moved_within k m p q : moved k m p q -> within q.
Proof. unfold moved, within. intros (-> & _ & _ & ?). lia. Qed.

Lemma moved_chars k m p q : moved k m p q -> chars q = chars p.
Proof. intros (H & _). exact H. Qed.

Lemma next_cases p :
  within p ->
  (exists c, next p = (Some c, adv 1 0 p) /\ chars p !! pos p = Some c /\
     moved 1 0 p (adv 1 0 p)) \/
  next p = (None, p).
Proof.
  intros Hw. unfold next, peek. destruct (chars p !! pos p) as [c|] eqn:E; [left|by right].
  exists c. split; [done|]. split; [done|]. apply lookup_lt_Some in E.
  unfold moved. simpl. repeat split; lia.
Qed.

Lemma next_moved p : within p -> moved 0 0 p (next p).2.
Proof.
  intros Hw. destruct (next_cases p Hw) as [(c & -> & _ & Hm)| ->]; simpl.
  - apply (moved_weaken 1); [lia|done].
  - by apply moved_refl.
Qed.

Lemma next_peeked p c : within p -> peek p = Some c -> moved 1 0 p (next p).2.
Proof.
  intros Hw Hp. destruct (next_cases p Hw) as [(c' & -> & _ & Hm)| E]; [done|].
  unfold next in E. rewrite Hp in E. done.
Qed.

Lemma next_wp {A} p (k : option Z -> Parser -> Step A) Q :
  within p ->
  (forall c, chars p !! pos p = Some c -> moved 1 0 p (adv 1 0 p) -> wp (k (Some c) (adv 1 0 p)) Q) ->
  wp (k None p) Q ->
  wp (let '(c, p) := next p in k c p) Q.
Proof.
  intros Hw Hs Hn. destruct (next_cases p Hw) as [(c & -> & Hc & Hm)| ->]; auto.
Qed.

Lemma skip_ws_loop_moved fuel p : within p -> moved 0 0 p (skip_ws_loop fuel p).
Proof.
  revert p. induction fuel as [|fuel IH]; intros p Hw; simpl; [by apply moved_refl|].
  destruct (is_ws (peek p)) eqn:E; [|by apply moved_refl].
  assert (moved 1 0 p (adv 1 0 p)) as Hm.
  { unfold is_ws, peek in E. destruct (chars p !! pos p) as [c|] eqn:Ec; [|done].
    apply lookup_lt_Some in Ec. unfold moved. simpl. repeat split; lia. }
  apply (moved_weaken (1 + 0)); [lia|]. apply (moved_trans 1 0 0 0 _ (adv 1 0 p)); [done|].
  apply IH. by eapply moved_within.
Qed.

Lemma skip_ws_moved p : within p -> moved 0 0 p (skip_ws p).
Proof. apply skip_ws_loop_moved. Qed.

Lemma digits_loop_moved fuel p : within p -> moved 0 0 p (digits_loop fuel p).
Proof.
  revert p. induction fuel as [|fuel IH]; intros p Hw; simpl; [by apply moved_refl|].
  destruct (peek p) as [c|]; [|by apply moved_refl].
  destruct (is_ascii_digit c); [|by apply moved_refl].
  pose proof (next_moved p Hw) as Hm.
  apply (moved_trans 0 0 0 0 _ (next p).2); [done|]. apply IH. by eapply moved_within.
Qed.

(** The two loops have come to their end when the fuel given to them has. *)
Lemma skip_ws_loop_stops fuel p :
  (length (chars p) - pos p <= fuel)%nat -> is_ws (peek (skip_ws_loop fuel p)) = false.
Proof.
  revert p. induction fuel as [|fuel IH]; intros p Hf; simpl.
  - unfold peek. rewrite lookup_ge_None_2; [done|lia].
  - destruct (is_ws (peek p)) eqn:E; [|done]. apply IH. simpl. lia.
Qed.

Lemma skip_ws_stops p : is_ws (peek (skip_ws p)) = false.
Proof. by apply skip_ws_loop_stops. Qed.

Lemma digits_loop_stops fuel p c :
  (length (chars p) - pos p <= fuel)%nat -> peek (digits_loop fuel p) = Some c ->
  is_ascii_digit c = false.
Proof.
  revert p. induction fuel as [|fuel IH]; intros p Hf; simpl.
  - unfold peek. rewrite lookup_ge_None_2; [done|lia].
  - unfold next. destruct (peek p) as [d|] eqn:E; [|congruence].
    destruct (is_ascii_digit d) eqn:Ed; [|congruence]. apply IH. simpl. lia.
Qed.

Lemma unicode_digits_wp n code p :
  within p -> wp (unicode_digits n code p) (fun _ p' => moved 0 0 p p').
Proof.
  revert code p. induction n as [|n IH]; intros code p Hw; simpl; [by apply moved_refl|].
  apply next_wp; [done| |done]. intros c _ Hm. simpl.
  destruct (to_digit16 c) as [d|]; [|done].
  eapply parsed_mono; [apply IH; by eapply moved_within|]. simpl. intros _ p' Hm'.
  apply (moved_weaken (1 + 0)); [lia|]. by eapply (moved_trans 1 0 0 0).
Qed.

Lemma unicode_escape_wp p :
  within p -> wp (unicode_escape p) (fun c p' => moved 0 0 p p' /\ scalar c).
Proof.
  intros Hw. unfold unicode_escape. apply parsed_bind.
  eapply parsed_mono; [by apply unicode_digits_wp|]. simpl. intros code p' Hm.
  unfold from_u32. case_bool_decide; [|done]. by split.
Qed.

Lemma short_escape_scalar e c : short_escape e = Some c -> scalar c.
Proof.
  unfold short_escape. repeat case_match; intros [= <-]; apply (bool_decide_unpack _); done.
Qed.

(** What holds of a string read from [p] on with [s] read before. *)
Definition string_post (s : list Z) (p : Parser) (s' : list Z) (p' : Parser) : Prop :=
  moved 1 0 p p' /\ (scalars (chars p) = true -> scalars s = true -> scalars s' = true).

Lemma string_post_step s c k p q s' p' :
  moved k 0 p q -> (scalars (chars p) = true -> scalar c) ->
  string_post (s ++ [c]) q s' p' -> string_post s p s' p'.
Proof.
  intros Hm Hc [Hm' Hs]. split.
  - apply (moved_weaken (k + 1)); [lia|]. by eapply (moved_trans _ 0 _ 0).
  - intros Hp Hss. apply Hs; [by rewrite (moved_chars _ _ _ _ Hm)|].
    rewrite scalars_snoc, Hss, bool_decide_eq_true_2; auto.
Qed.

Lemma scalars_lookup s i c : s !! i = Some c -> scalars s = true -> scalar c.
Proof.
  intros Hi Hs. unfold scalars in Hs. rewrite forallb_forall in Hs.
  apply list_elem_of_lookup_2, list_elem_of_In in Hi. specialize (Hs c Hi).
  by apply bool_decide_eq_true in Hs.
Qed.

Lemma string_loop_wp fuel s p :
  within p -> (length (chars p) - pos p < fuel)%nat ->
  wp (string_loop fuel s p) (string_post s p).
Proof.
  revert s p. induction fuel as [|fuel IH]; intros s p Hw Hf; [lia|]. cbn [string_loop].
  apply next_wp; [done| |done]. intros c Hc Hm.
  pose proof (moved_within _ _ _ _ Hm) as Hw1. pose proof (lookup_lt_Some _ _ _ Hc) as Hlt.
  destruct (c =? QUOTE); [by split|].
  destruct (c =? BACKSLASH).
  - apply next_wp; [done| |done]. intros e He Hm2.
    pose proof (moved_trans _ _ _ _ _ _ _ Hm Hm2) as Hm12. simpl in Hm12.
    pose proof (moved_within _ _ _ _ Hm12) as Hw2.
    destruct (short_escape e) as [d|] eqn:Ed.
    + eapply parsed_mono; [apply IH; [done|]; simpl; lia|]. intros s' p' Hp.
      eapply (string_post_step _ d); [exact Hm12| |exact Hp].
      intros _. by eapply short_escape_scalar.
    + destruct (e =? LOWER_U); [|done]. apply parsed_bind.
      eapply parsed_mono; [by apply unicode_escape_wp|]. intros d q [Hm3 Hd]. cbv beta.
      pose proof (moved_trans _ _ _ _ _ _ _ Hm12 Hm3) as Hm13.
      eapply parsed_mono; [apply IH; [by eapply moved_within|]|].
      * destruct Hm13 as (-> & _ & _ & ?). lia.
      * intros s' p' Hp. eapply (string_post_step _ d); [exact Hm13|done|exact Hp].
  - destruct (c <? 32); [done|].
    eapply parsed_mono; [apply IH; [done|]; simpl; lia|]. intros s' p' Hp.
    eapply (string_post_step _ c); [exact Hm| |exact Hp].
    by apply (scalars_lookup _ _ _ Hc).
Qed.

(** [string], called where a quote is next. *)
Lemma string_wp p :
  within p ->
  wp (string p) (fun s p' => moved 1 0 p p' /\ (scalars (chars p) = true -> scalars s = true)).
Proof.
  intros Hw. unfold string. pose proof (next_moved p Hw) as Hm.
  eapply parsed_mono; [apply string_loop_wp; [by eapply moved_within|]; lia|].
  intros s p' [Hm' Hs]. split.
  - by apply (moved_trans _ 0 _ 0 _ _ _ Hm Hm').
  - intros Hp. apply Hs; [|done]. by rewrite (moved_chars _ _ _ _ Hm).
Qed.

Lemma parse_digits_width s acc n : u64 acc -> parse_digits s acc = Some n -> u64 n.
Proof.
  revert acc. induction s as [|c s IH]; intros acc Ha; simpl; [by intros [= <-]|].
  destruct (is_ascii_digit c) eqn:Ed; [|done].
  destruct (checked_mul 64 acc 10) as [a|] eqn:Em; [|done]. simpl.
  destruct (checked_add 64 a (c - 48)) as [b|] eqn:Ea; [|done]. simpl. apply IH.
  apply checked_add_Some in Ea as [-> Hb]. unfold checked_mul in Em. case_match; [|done].
  simplify_eq. unfold is_ascii_digit in Ed. bool_to_prop. unfold in_width in *. lia.
Qed.

Lemma parse_u64_width s n : parse_u64 s = Some n -> u64 n.
Proof.
  unfold parse_u64. destruct s as [|c [|d s]]; [done| |].
  - destruct (is_ascii_digit c) eqn:Ed; [|done]. intros [= <-].
    unfold is_ascii_digit in Ed. bool_to_prop. unfold in_width. lia.
  - apply parse_digits_width. unfold in_width. lia.
Qed.

(** A number takes a character when it succeeds: the empty text is no number. *)
Lemma number_wp p :
  within p -> wp (number p) (fun j p' => moved 1 0 p p' /\ exists n, j = JInt n /\ u64 n).
Proof.
  intros Hw. unfold number.
  set (q := if bool_decide (peek p = Some MINUS) then (next p).2 else p).
  assert (moved 0 0 p q) as Hq.
  { unfold q. case_bool_decide; [by apply next_moved|by apply moved_refl]. }
  set (r := digits_loop (length (chars q) - pos q) q).
  assert (moved 0 0 p r) as Hr.
  { apply (moved_trans 0 0 0 0 _ q); [done|]. apply digits_loop_moved. by eapply moved_within. }
  clearbody r. cbv zeta.
  destruct ((1 <? length (take (pos r - pos p) (drop (pos p) (chars r))))%nat && _); [done|].
  destruct (parse_u64 _) as [n|] eqn:En; [|done]. simpl. split.
  - destruct Hr as (Hc & Hd & Hn & Hp). repeat split; auto; [|lia].
    destruct (decide (pos r = pos p)) as [E|]; [|lia].
    exfalso. rewrite E, Nat.sub_diag in En. done.
  - exists n. split; [done|]. by eapply parse_u64_width.
Qed.

Lemma literal_moved w p p' :
  w <> [] -> literal w p = (true, p') -> moved 1 0 p p'.
Proof.
  intros Hw. unfold literal. case_match eqn:E; [|done]. intros [= <-]. bool_to_prop.
  destruct w; [done|]. unfold moved. simpl in *. repeat split; lia.
Qed.

Lemma boolean_wp p :
  wp (boolean p) (fun j p' => moved 1 0 p p' /\ exists b, j = JBool b).
Proof.
  unfold boolean. destruct (literal _ p) as [[] q] eqn:E.
  - apply literal_moved in E; [|done]. simpl. eauto.
  - unfold literal in E. case_match; [done|]. simplify_eq.
    destruct (literal _ q) as [[] r] eqn:E'; [|done].
    apply literal_moved in E'; [|done]. simpl. eauto.
Qed.

Lemma null_wp p : wp (null p) (fun j p' => moved 1 0 p p' /\ j = JNull).
Proof.
  unfold null. destruct (literal _ p) as [[] q] eqn:E; [|done].
  apply literal_moved in E; [|done]. done.
Qed.

(** ** Values and the containers they nest in *)

(** A value [j] read from [p] up to [p']: the parser has moved, has counted
    every value in [j], and [j] keeps the limits and the types. *)
Definition value_post (p : Parser) (j : Json) (p' : Parser) : Prop :=
  moved 1 (size j) p p' /\ nodes p' <= MAX_NODES /\ depth p + nesting j <= MAX_DEPTH /\
  distinct j = true /\ (scalars (chars p) = true -> typed j = true).

(** The same of a container's loop, which takes the container from [j0] to [j];
    [depth] already counts the container itself. *)
Definition loop_post (j0 : Json) (p : Parser) (j : Json) (p' : Parser) : Prop :=
  moved 1 (size j - size j0) p p' /\ nodes p' <= MAX_NODES /\
  depth p - 1 + nesting j <= MAX_DEPTH /\ distinct j = true /\
  (scalars (chars p) = true -> typed j0 = true -> typed j = true).

Definition loop_pre (j0 : Json) (p : Parser) : Prop :=
  within p /\ depth p - 1 + nesting j0 <= MAX_DEPTH /\ distinct j0 = true.

Definition left_of (p : Parser) : nat := length (chars p) - pos p.

Definition value_ok (fuel : nat) : Prop := forall p,
  within p -> depth p <= MAX_DEPTH -> (2 * left_of p + 1 <= fuel)%nat ->
  wp (value fuel p) (value_post p).
Definition array_ok (fuel : nat) : Prop := forall items p,
  loop_pre (JArray items) p -> depth p <= MAX_DEPTH -> (2 * left_of p + 2 <= fuel)%nat ->
  wp (array_loop fuel items p) (loop_post (JArray items) p).
Definition object_ok (fuel : nat) : Prop := forall fields seen p,
  loop_pre (JObject fields) p -> (forall k, k ∈ seen <-> k ∈ map fst fields) ->
  depth p <= MAX_DEPTH -> (2 * left_of p + 2 <= fuel)%nat ->
  wp (object_loop fuel fields seen p) (loop_post (JObject fields) p).

Lemma moved_left k m p q : moved k m p q -> (left_of q + k <= left_of p)%nat.
Proof. intros (Hc & _ & _ & Hp). unfold left_of. rewrite Hc. lia. Qed.

(** A leaf counts one value, taken by [value] before it looks at the text. *)
Lemma leaf_post p q p' j :
  moved 0 1 p q -> moved 1 0 q p' -> size j = 1 -> nesting j = 0 -> distinct j = true ->
  nodes q <= MAX_NODES -> depth p <= MAX_DEPTH ->
  (scalars (chars q) = true -> typed j = true) -> value_post p j p'.
Proof.
  intros Hq Hm Hs Hne Hd Hn Hdp Ht. unfold value_post.
  pose proof (moved_trans _ _ _ _ _ _ _ Hq Hm) as Hm2. rewrite Hs, Hne.
  split; [exact Hm2|]. split; [destruct Hm as (_ & _ & -> & _); lia|].
  split; [lia|]. split; [done|]. by rewrite (moved_chars _ _ _ _ Hq) in Ht.
Qed.

(** One round of a container's loop, from [j0] at [p] to [j1] at [s], with a
    value [v] read between [p0] and [q]. *)
Lemma container_step j0 j1 v p p0 q s :
  loop_pre j0 p -> moved 0 0 p p0 -> value_post p0 v q -> moved 0 0 q s ->
  size j1 = size j0 + size v -> nesting j1 = Z.max (nesting j0) (1 + nesting v) ->
  distinct j1 = true ->
  (scalars (chars p) = true -> typed j0 = true -> typed v = true -> typed j1 = true) ->
  loop_pre j1 s /\ loop_post j0 p j1 s /\
  (forall j p', loop_post j1 s j p' -> loop_post j0 p j p').
Proof.
  intros (Hw & Hnest & _) Hp0 (Hv & Hnodes & Hvn & _ & Hvt) Hs Hsize Hj1 Hd Ht.
  pose proof (moved_trans _ _ _ _ _ _ _ Hp0 (moved_trans _ _ _ _ _ _ _ Hv Hs)) as Hm.
  simpl in Hm. replace (0 + (size v + 0)) with (size v) in Hm by lia.
  assert (depth p0 = depth p) as Ed0 by apply Hp0.
  assert (depth s = depth p) as Eds by apply Hm.
  assert (nodes s = nodes q) as Ens by (destruct Hs as (_ & _ & -> & _); lia).
  rewrite (moved_chars _ _ _ _ Hp0) in Hvt.
  assert (depth p - 1 + nesting j1 <= MAX_DEPTH) as Hlim by lia.
  split; [|split].
  - split; [by eapply moved_within|]. split; [lia|done].
  - split; [by replace (size j1 - size j0) with (size v) by lia|].
    split; [lia|]. split; [done|]. split; auto.
  - intros j p' (Hm' & Hn' & Hd' & Hdis & Ht'). rewrite (moved_chars _ _ _ _ Hm) in Ht'.
    pose proof (moved_trans _ _ _ _ _ _ _ Hm Hm') as Hm2.
    replace (size v + (size j - size j1)) with (size j - size j0) in Hm2 by lia.
    split; [apply (moved_weaken (1 + 1)); [lia|exact Hm2]|].
    split; [done|]. split; [by rewrite <- Eds|]. split; auto.
Qed.

(** The end of a round: whitespace, then a comma for another round, the
    closing character for the container, or an error. *)
Lemma round_end_wp {A} q (k : option Z -> Parser -> Step A) Q :
  within q ->
  (forall c s, moved 0 0 q s -> (c <> None -> moved 1 0 q s) -> wp (k c s) Q) ->
  wp (let '(c, p) := next (skip_ws q) in k c p) Q.
Proof.
  intros Hw Hk. pose proof (skip_ws_moved q Hw) as Hm.
  apply next_wp; [by eapply moved_within| |].
  - intros c _ Hm1. pose proof (moved_trans _ _ _ _ _ _ _ Hm Hm1) as Hm2.
    apply Hk; [by apply (moved_weaken (0 + 1)); [lia|]|done].
  - by apply Hk.
Qed.

Lemma array_step fuel : value_ok fuel -> array_ok fuel -> array_ok (S fuel).
Proof.
  intros Hv Ha items p Hpre Hdp Hf. cbn [array_loop]. pose proof Hpre as (Hw & Hn & Hd).
  apply parsed_bind. eapply parsed_mono; [apply Hv; [done|done|lia]|]. intros v q Hq. cbv zeta.
  assert (within q) as Hwq by (eapply moved_within, Hq).
  apply round_end_wp; [done|]. intros c s Hs Hs1.
  destruct (container_step (JArray items) (JArray (items ++ [v])) v p p q s)
    as (Hpre' & Hend & Hgo).
  { done. } { by apply moved_refl. } { done. } { done. }
  { rewrite !size_array, sum_of_snoc. lia. }
  { rewrite !nesting_array, max_of_snoc. pose proof (nesting_nonneg v). lia. }
  { destruct Hq as (_ & _ & _ & Hdv & _). by rewrite distinct_array_snoc, Hd, Hdv. }
  { intros _ Ht Htv. by rewrite typed_array_snoc, Ht, Htv. }
  case_bool_decide as Ec.
  - destruct Hq as (Hmq & _). specialize (Hs1 ltac:(congruence)).
    pose proof (moved_left _ _ _ _ (moved_trans _ _ _ _ _ _ _ Hmq Hs1)).
    eapply parsed_mono; [apply Ha; [done| |lia]|by intros j p' ?; apply Hgo].
    destruct Hmq as (_ & Edq & _). destruct Hs as (_ & -> & _). lia.
  - case_bool_decide; done.
Qed.

Lemma object_step fuel : value_ok fuel -> object_ok fuel -> object_ok (S fuel).
Proof.
  intros Hv Ho fields seen p Hpre Hseen Hdp Hf. cbn [object_loop].
  pose proof Hpre as (Hw & Hn & Hd). pose proof (skip_ws_moved p Hw) as H0.
  case_bool_decide; [done|]. apply parsed_bind.
  eapply parsed_mono; [apply string_wp; by eapply moved_within|]. intros key p1 [H1 Hkey].
  rewrite (moved_chars _ _ _ _ H0) in Hkey. pose proof (moved_trans _ _ _ _ _ _ _ H0 H1) as H01.
  cbv beta. case_bool_decide as Hfresh; [done|].
  apply round_end_wp; [by eapply moved_within|]. intros c p2 H2 _. case_bool_decide; [done|].
  pose proof (moved_trans _ _ _ _ _ _ _ H01 H2) as H02.
  pose proof (moved_left _ _ _ _ H02) as Hl2.
  assert (depth p2 = depth p) as Ed2 by apply H02.
  apply parsed_bind. eapply parsed_mono; [apply Hv; [by eapply moved_within|lia|lia]|].
  intros v q Hq. cbv zeta. assert (within q) as Hwq by (eapply moved_within, Hq).
  apply round_end_wp; [done|]. intros c' s Hs Hs1.
  destruct (container_step (JObject fields) (JObject (fields ++ [(key, v)])) v p p2 q s)
    as (Hpre' & Hend & Hgo).
  { done. } { apply (moved_weaken (0 + 1 + 0)); [lia|exact H02]. } { done. } { done. }
  { rewrite !size_object, sum_of_snoc. simpl. lia. }
  { rewrite !nesting_object, max_of_snoc. simpl. pose proof (nesting_nonneg v). lia. }
  { apply distinct_object_snoc; [done|apply Hq|by rewrite <- Hseen]. }
  { intros Hsc Ht Htv. by rewrite typed_object_snoc, Ht, Htv, Hkey. }
  case_bool_decide as Ec; [|case_bool_decide; done].
  pose proof (moved_left _ _ _ _ Hs). destruct Hq as (Hmq & _).
  pose proof (moved_left _ _ _ _ Hmq).
  eapply parsed_mono; [apply Ho; [done| | |lia]|by intros j p' ?; apply Hgo].
  - intros k. rewrite map_app, elem_of_app. simpl. rewrite elem_of_union, Hseen.
    rewrite elem_of_singleton, list_elem_of_singleton. tauto.
  - destruct Hmq as (_ & Edq & _). destruct Hs as (_ & -> & _). lia.
Qed.

(** [nested] around a container whose opening character is next. *)
Lemma nested_wp (container : Parser -> Step Json) j0 p q c :
  moved 0 1 p q -> peek q = Some c -> nodes q <= MAX_NODES ->
  size j0 = 1 -> typed j0 = true ->
  (forall d, depth d = depth q + 1 -> depth d <= MAX_DEPTH -> chars d = chars q ->
     pos d = pos q -> nodes d = nodes q -> wp (container d) (loop_post j0 d)) ->
  wp (nested container q) (value_post p).
Proof.
  intros Hq Hc Hn Hs0 Ht0 Hcont. unfold nested.
  destruct (MAX_DEPTH <=? depth q) eqn:Ed; [done|]. bool_to_prop. apply parsed_bind.
  eapply parsed_mono; [apply Hcont; simpl; auto; lia|].
  intros j r (Hm & Hnr & Hd & Hdis & Ht). simpl in *.
  destruct Hq as (Eqc & Eqd & Eqn & Eqp). destruct Hm as (Hmc & Hmd & Hmn & Hmp). simpl in *.
  unfold value_post, moved. simpl. rewrite <- Eqc. split; [|split; [done|split; [lia|auto]]].
  split; [congruence|]. split; [lia|]. split; [lia|]. rewrite Eqc in *. lia.
Qed.

(** A container from its opening character on, with [loop] for its loop. *)
Lemma container_wp (loop : Parser -> Step Json) j0 close d c :
  within d -> peek d = Some c -> depth d <= MAX_DEPTH -> nodes d <= MAX_NODES ->
  size j0 = 1 -> nesting j0 = 1 -> distinct j0 = true ->
  (forall e, loop_pre j0 e -> depth e = depth d -> (left_of e + 1 <= left_of d)%nat ->
     wp (loop e) (loop_post j0 e)) ->
  wp (let p := skip_ws (next d).2 in
      if bool_decide (peek p = Some close) then Parsed j0 (next p).2 else loop p)
     (loop_post j0 d).
Proof.
  intros Hw Hc Hd Hn Hs0 Hn0 Hd0 Hloop.
  pose proof (next_peeked d c Hw Hc) as H1.
  pose proof (moved_trans _ _ _ _ _ _ _ H1 (skip_ws_moved _ (moved_within _ _ _ _ H1))) as H2.
  pose proof (moved_within _ _ _ _ H2) as Hw2. set (e := skip_ws (next d).2) in *. clearbody e.
  assert (depth e = depth d) as Ed by apply H2. cbv zeta.
  case_bool_decide as Ec.
  - pose proof (moved_trans _ _ _ _ _ _ _ H2 (next_moved _ Hw2)) as H3. simpl.
    unfold loop_post. rewrite Z.sub_diag.
    split; [exact H3|]. split; [destruct H3 as (_ & _ & -> & _); lia|]. split; [lia|auto].
  - pose proof (moved_left _ _ _ _ H2). eapply parsed_mono; [apply Hloop; [|done|lia]|].
    + split; [done|]. split; [lia|done].
    + intros j p' (Hm & Hlim & Hdep & Hdis & Ht). rewrite (moved_chars _ _ _ _ H2) in Ht.
      pose proof (moved_trans _ _ _ _ _ _ _ H2 Hm) as H3.
      split; [by apply (moved_weaken (1 + 0 + 1)); [lia|]|].
      split; [done|]. split; [by rewrite <- Ed|auto].
Qed.

Lemma parse_array_wp fuel d c :
  within d -> peek d = Some c -> depth d <= MAX_DEPTH -> nodes d <= MAX_NODES ->
  (2 * left_of d <= fuel)%nat -> array_ok fuel ->
  wp (parse_array (array_loop fuel) d) (loop_post (JArray []) d).
Proof.
  intros Hw Hc Hd Hn Hf Ha.
  apply (container_wp (array_loop fuel []) (JArray []) RBRACKET d c); auto.
  intros e Hpre Ed Hl. apply Ha; [done|lia|lia].
Qed.

Lemma parse_object_wp fuel d c :
  within d -> peek d = Some c -> depth d <= MAX_DEPTH -> nodes d <= MAX_NODES ->
  (2 * left_of d <= fuel)%nat -> object_ok fuel ->
  wp (parse_object (object_loop fuel) d) (loop_post (JObject []) d).
Proof.
  intros Hw Hc Hd Hn Hf Ho.
  apply (container_wp (object_loop fuel [] ∅) (JObject []) RBRACE d c); auto.
  intros e Hpre Ed Hl. apply Ho; [done|set_solver|lia|lia].
Qed.

Lemma value_step fuel : array_ok fuel -> object_ok fuel -> value_ok (S fuel).
Proof.
  intros Ha Ho p Hw Hdp Hf. cbn [value].
  destruct (MAX_NODES <? nodes (adv 0 1 p)) eqn:En; [done|]. bool_to_prop.
  assert (moved 0 1 p (adv 0 1 p)) as H0
    by (unfold moved, within in *; simpl; repeat split; lia).
  pose proof (moved_trans _ _ _ _ _ _ _ H0 (skip_ws_moved _ (moved_within _ _ _ _ H0))) as Hq.
  set (q := skip_ws (adv 0 1 p)) in *. clearbody q. cbv zeta. simpl in Hq, En.
  pose proof (moved_within _ _ _ _ Hq) as Hwq.
  assert (nodes q <= MAX_NODES) as Hn by (destruct Hq as (_ & _ & -> & _); lia).
  pose proof (moved_left _ _ _ _ Hq) as Hl.
  destruct (peek q) as [c|] eqn:Ec; [|done].
  assert (forall d, chars d = chars q -> pos d = pos q ->
            peek d = Some c /\ within d /\ left_of d = left_of q) as Hsame.
  { intros d Hc Hp. unfold peek, within, left_of in *. by rewrite Hc, Hp. }
  destruct (c =? LBRACE).
  { eapply (nested_wp _ (JObject [])); try done. intros d Hd Hlim Hc Hp Hnd.
    destruct (Hsame d Hc Hp) as (Hpk & Hwd & Hld).
    eapply parse_object_wp; try done; lia. }
  destruct (c =? LBRACKET).
  { eapply (nested_wp _ (JArray [])); try done. intros d Hd Hlim Hc Hp Hnd.
    destruct (Hsame d Hc Hp) as (Hpk & Hwd & Hld).
    eapply parse_array_wp; try done; lia. }
  destruct (c =? QUOTE).
  { apply parsed_bind. eapply parsed_mono; [by apply string_wp|]. intros s p' [Hm Hs].
    by apply (leaf_post p q). }
  destruct ((c =? LOWER_T) || (c =? LOWER_F)).
  { eapply parsed_mono; [apply boolean_wp|]. intros j p' (Hm & b & ->). by apply (leaf_post p q). }
  destruct (c =? LOWER_N).
  { eapply parsed_mono; [apply null_wp|]. intros j p' (Hm & ->). by apply (leaf_post p q). }
  destruct ((c =? MINUS) || is_ascii_digit c); [|done].
  eapply parsed_mono; [by apply number_wp|]. intros j p' (Hm & n & -> & Hw64).
  apply (leaf_post p q); try done. intros _. by apply bool_decide_eq_true.
Qed.

Lemma parser_ok fuel : value_ok fuel /\ array_ok fuel /\ object_ok fuel.
Proof.
  induction fuel as [|fuel (Hv & Ha & Ho)].
  - repeat split; intros ?; intros; lia.
  - auto using value_step, array_step, object_step.
Qed.

(** ** The whole parser *)

Lemma parse_outcome input :
  match parse input with
  | None => False
  | Some (Err _) => True
  | Some (Ok j) => acceptable j = true /\ (scalars input = true -> typed j = true)
  end.
Proof.
  unfold parse. set (p0 := mkParser input 0 0 0).
  assert (within p0) as Hw by (unfold within; simpl; lia).
  pose proof (skip_ws_moved p0 Hw) as Hm. set (p := skip_ws p0) in *. clearbody p. cbv zeta.
  pose proof (moved_left _ _ _ _ Hm) as Hl. unfold left_of in Hl at 2. simpl in Hl.
  destruct Hm as (Hc & Hd & Hn & Hp). simpl in *.
  assert (wp (value (2 * length input + 1) p) (value_post p)) as Hv.
  { apply parser_ok; [|unfold MAX_DEPTH; lia|lia]. unfold within. rewrite Hc. simpl. lia. }
  simpl in Hv. destruct (value _ p) as [j q| |]; simpl in *; [|done|done].
  case_bool_decide; [done|].
  destruct Hv as ((_ & _ & Hnodes & _) & Hlim & Hdep & Hdis & Ht). rewrite Hc in Ht.
  split; [|done]. unfold acceptable. rewrite Hdis. simpl.
  apply andb_true_intro. split; apply Z.leb_le; lia.
Qed.
