(* ===== verification/JsonRound.v ===== *)
(** * The gateway's JSON parser reads back what the printer writes

    Each function of the parser run on the text the printer writes for the
    value it is to read.  [At p s] says that [s] is what the parser [p] has
    left. *)

From S2P Require Import Prelude Json JsonCorrect.

Definition At (p : Parser) (s : list Z) : Prop := drop (pos p) (chars p) = s.

Lemma at_peek p c s : At p (c :: s) -> peek p = Some c.
Proof.
  unfold At, peek. intros E. rewrite <- (Nat.add_0_r (pos p)), <- lookup_drop, E. done.
Qed.

Lemma at_end p : At p [] -> peek p = None.
Proof.
  unfold At, peek. intros E. rewrite <- (Nat.add_0_r (pos p)), <- lookup_drop, E. done.
Qed.

Lemma at_next p c s : At p (c :: s) -> next p = (Some c, adv 1 0 p).
Proof. intros H. unfold next. by rewrite (at_peek _ _ _ H). Qed.

Lemma at_adv p s k m : At p (s ++ k) -> At (adv (length s) m p) k.
Proof. unfold At. simpl. intros E. by rewrite <- drop_drop, E, drop_app_length. Qed.

Lemma at_adv1 p c k m : At p (c :: k) -> At (adv 1 m p) k.
Proof. apply (at_adv p [c]). Qed.

Lemma at_left p s : At p s -> left_of p = length s.
Proof. unfold At, left_of. intros <-. by rewrite length_drop. Qed.

Lemma adv_adv k m l n p : adv l n (adv k m p) = adv (k + l) (m + n) p.
Proof. unfold adv. simpl. f_equal; lia. Qed.

Lemma adv_0 p : adv 0 0 p = p.
Proof. destruct p. unfold adv. simpl. f_equal; lia. Qed.

Lemma skip_ws_here p : is_ws (peek p) = false -> skip_ws p = p.
Proof.
  intros H. unfold skip_ws. destruct (length (chars p) - pos p)%nat; simpl; [done|]. by rewrite H.
Qed.

Lemma at_skip_ws p c s : At p (c :: s) -> is_ws (Some c) = false -> skip_ws p = p.
Proof. intros H Hc. apply skip_ws_here. by rewrite (at_peek _ _ _ H). Qed.

Lemma at_skip_ws_next p c s :
  At p (c :: s) -> is_ws (Some c) = false -> next (skip_ws p) = (Some c, adv 1 0 p).
Proof. intros H Hc. rewrite (at_skip_ws _ _ _ H Hc). by eapply at_next. Qed.

(** ** Strings *)

Lemma to_from_digit16 d : 0 <= d < 16 -> to_digit16 (from_digit16 d) = Some d.
Proof.
  intros Hd. unfold to_digit16, from_digit16, is_ascii_digit.
  destruct (Z.ltb_spec d 10).
  - rewrite (proj2 (Z.leb_le 48 (48 + d))), (proj2 (Z.leb_le (48 + d) 57)) by lia.
    simpl. f_equal. lia.
  - rewrite (proj2 (Z.leb_gt (87 + d) 57)), andb_false_r by lia.
    rewrite (proj2 (Z.leb_le 97 (87 + d))), (proj2 (Z.leb_le (87 + d) 102)) by lia.
    simpl. f_equal. lia.
Qed.

Lemma unicode_digit_at n code p d k :
  At p (from_digit16 d :: k) -> 0 <= d < 16 ->
  unicode_digits (S n) code p = unicode_digits n (code * 16 + d) (adv 1 0 p).
Proof.
  intros Ha Hd. cbn [unicode_digits]. rewrite (at_next _ _ _ Ha). cbn [mbind option_bind].
  by rewrite to_from_digit16.
Qed.

Lemma unicode_escape_at p c k :
  At p (drop 2 (unicode_escape_text c) ++ k) -> 0 <= c < 32 ->
  unicode_escape p = Parsed c (adv 4 0 p).
Proof.
  intros Ha Hc. unfold unicode_escape_text in Ha. simpl in Ha. unfold unicode_escape.
  assert (forall z, 0 <= z mod 16 < 16) as Hm by (intros; apply Z.mod_pos_bound; lia).
  rewrite (unicode_digit_at _ _ _ _ _ Ha), (unicode_digit_at _ _ _ _ _ (at_adv1 _ _ _ 0 Ha)) by auto.
  apply at_adv1 with (m := 0) in Ha. apply at_adv1 with (m := 0) in Ha.
  rewrite (unicode_digit_at _ _ _ _ _ Ha), (unicode_digit_at _ _ _ _ _ (at_adv1 _ _ _ 0 Ha)) by auto.
  cbn [unicode_digits pbind]. rewrite !adv_adv.
  assert ((((0 * 16 + Z.shiftr c 12 mod 16) * 16 + Z.shiftr c 8 mod 16) * 16
    + Z.shiftr c 4 mod 16) * 16 + c mod 16 = c) as ->.
  { rewrite !Z.shiftr_div_pow2 by lia.
    change (2 ^ 12) with 4096. change (2 ^ 8) with 256. change (2 ^ 4) with 16.
    Z.div_mod_to_equations. lia. }
  unfold from_u32. rewrite bool_decide_eq_true_2; [done|]. left. lia.
Qed.

Lemma string_char_at fuel acc p c k :
  At p (write_char c ++ k) -> scalar c ->
  string_loop (S fuel) acc p = string_loop fuel (acc ++ [c]) (adv (length (write_char c)) 0 p).
Proof.
  intros Ha Hc.
  assert (0 <= c) as Hnn by (unfold scalar in Hc; lia).
  assert (forall e rest, At p (BACKSLASH :: e :: rest) ->
    string_loop (S fuel) acc p =
    match short_escape e with
    | Some c => string_loop fuel (acc ++ [c]) (adv 2 0 p)
    | None => if e =? LOWER_U
        then parsed (c, p) := unicode_escape (adv 2 0 p) in string_loop fuel (acc ++ [c]) p
        else Failed BadEscape
    end) as Hesc.
  { intros e rest He. cbn [string_loop]. rewrite (at_next _ _ _ He). simpl (BACKSLASH =? _).
    cbv iota. rewrite (at_next _ _ _ (at_adv1 _ _ _ 0 He)), adv_adv. done. }
  unfold write_char in *.
  repeat (match goal with |- context [?a =? ?b] => destruct (Z.eqb_spec a b) as [->|] end;
    [by rewrite (Hesc _ _ Ha)|]).
  destruct (Z.ltb_spec c 32).
  - rewrite (Hesc _ _ Ha). unfold short_escape. simpl (_ =? _). cbv iota.
    rewrite (unicode_escape_at (adv 2 0 p) c k) by (auto; by apply (at_adv p [BACKSLASH; LOWER_U])).
    cbn [pbind]. by rewrite adv_adv.
  - cbn [string_loop]. rewrite (at_next _ _ _ Ha).
    rewrite (proj2 (Z.eqb_neq c QUOTE)), (proj2 (Z.eqb_neq c BACKSLASH)) by done.
    by rewrite (proj2 (Z.ltb_ge c 32)).
Qed.

Lemma string_loop_at s fuel acc p k :
  At p (concat (map write_char s) ++ QUOTE :: k) -> scalars s = true -> (length s < fuel)%nat ->
  string_loop fuel acc p
  = Parsed (acc ++ s) (adv (length (concat (map write_char s)) + 1) 0 p).
Proof.
  revert fuel acc p. induction s as [|c s IH]; intros fuel acc p Ha Hs Hf;
    (destruct fuel as [|fuel]; [simpl in Hf; lia|]).
  - simpl in *. rewrite (at_next _ _ _ Ha). by rewrite app_nil_r.
  - simpl in Ha, Hs, Hf. rewrite <- app_assoc in Ha. apply andb_true_iff in Hs as [Hc Hs].
    apply bool_decide_eq_true in Hc. rewrite (string_char_at _ _ _ c _ Ha Hc).
    rewrite (IH _ _ _ (at_adv _ _ _ _ Ha) Hs), adv_adv, <- app_assoc by lia.
    simpl. rewrite length_app. do 2 f_equal; lia.
Qed.

Lemma length_write_chars s : (length s <= length (concat (map write_char s)))%nat.
Proof.
  induction s as [|c s IH]; simpl; [lia|]. rewrite length_app.
  assert (1 <= length (write_char c))%nat; [|lia].
  unfold write_char. repeat case_match; simpl; lia.
Qed.

Lemma string_at p s k :
  At p (write_string s ++ k) -> scalars s = true ->
  string p = Parsed s (adv (length (write_string s)) 0 p).
Proof.
  unfold write_string, string. intros Ha Hs. simpl in Ha. rewrite <- app_assoc in Ha. simpl in Ha.
  rewrite (at_next _ _ _ Ha). cbn [snd]. cbv zeta.
  pose proof (at_left _ _ Ha) as Hl. simpl in Hl. rewrite length_app in Hl.
  pose proof (length_write_chars s). unfold left_of in Hl.
  rewrite (string_loop_at _ _ _ _ _ (at_adv1 _ _ _ 0 Ha)), adv_adv; [|done|simpl; lia].
  cbn [length]. rewrite length_app. done.
Qed.

(** ** Numbers *)

Lemma is_ascii_digit_of d : 0 <= d < 10 -> is_ascii_digit (48 + d) = true.
Proof. intros. unfold is_ascii_digit. apply andb_true_intro. split; apply Z.leb_le; lia. Qed.

Lemma parse_digit c s acc :
  is_ascii_digit c = true -> 0 <= acc -> acc * 10 + (c - 48) < 2 ^ 64 ->
  parse_digits (c :: s) acc = parse_digits s (acc * 10 + (c - 48)).
Proof.
  intros Hc Ha Hlt. cbn [parse_digits]. rewrite Hc.
  unfold is_ascii_digit in Hc. bool_to_prop. unfold checked_mul, checked_add.
  rewrite (proj2 (Z.ltb_lt _ _)) by lia. cbn [mbind option_bind].
  rewrite (proj2 (Z.ltb_lt _ _)) by lia. done.
Qed.

Lemma decimal_step fuel n acc :
  decimal (S fuel) n acc
  = if n <? 10 then (48 + n mod 10) :: acc else decimal fuel (n / 10) ((48 + n mod 10) :: acc).
Proof. done. Qed.

(** What holds of the digits of [n] in front of [acc]. *)
Lemma decimal_spec fuel n acc :
  (0 < fuel)%nat -> 0 <= n < 10 ^ Z.of_nat fuel -> n < 2 ^ 64 ->
  exists c ds, decimal fuel n acc = c :: ds ++ acc /\
    forallb is_ascii_digit (c :: ds) = true /\ (c = 48 -> ds = []) /\
    (c = 48 -> n = 0) /\
    parse_digits (c :: ds ++ acc) 0 = parse_digits acc n.
Proof.
  revert n acc. induction fuel as [|fuel IH]; intros n acc Hf Hn H64; [lia|].
  rewrite decimal_step. destruct (Z.ltb_spec n 10) as [Hlt|Hge].
  - exists (48 + n mod 10), []. rewrite Z.mod_small by lia. simpl app.
    split; [done|]. cbn [forallb]. rewrite is_ascii_digit_of by lia.
    do 3 (split; [done || lia|]).
    rewrite parse_digit by (try apply is_ascii_digit_of; lia). f_equal. lia.
  - destruct fuel as [|fuel]; [change (10 ^ Z.of_nat 1) with 10 in Hn; lia|].
    assert (0 <= n mod 10 < 10) as Hm by (apply Z.mod_pos_bound; lia).
    pose proof (Z.div_mod n 10 ltac:(lia)) as Hdm.
    destruct (IH (n / 10) ((48 + n mod 10) :: acc)) as (c & ds & E & Hds & H0 & Hz & Hp).
    { lia. }
    { rewrite Nat2Z.inj_succ, Z.pow_succ_r in Hn by lia. Z.div_mod_to_equations. lia. }
    { Z.div_mod_to_equations. lia. }
    exists c, (ds ++ [48 + n mod 10]). rewrite E, <- app_assoc.
    split; [done|]. split; [|split; [|split]].
    + simpl in *. rewrite forallb_app. simpl. rewrite is_ascii_digit_of by lia.
      by rewrite andb_true_r.
    + intros Hc. specialize (Hz Hc). Z.div_mod_to_equations. lia.
    + intros Hc. specialize (Hz Hc). Z.div_mod_to_equations. lia.
    + simpl app. rewrite Hp. rewrite parse_digit by (try apply is_ascii_digit_of; lia).
      f_equal. lia.
Qed.

Lemma u64_text n :
  u64 n ->
  exists c ds, u64_to_string n = c :: ds /\ forallb is_ascii_digit (c :: ds) = true /\
    (c = 48 -> ds = []) /\ parse_u64 (c :: ds) = Some n.
Proof.
  intros Hn. unfold in_width in Hn. unfold u64_to_string.
  destruct (decimal_spec 20 n []) as (c & ds & E & Hds & H0 & _ & Hp); [lia| |lia|].
  { change (10 ^ Z.of_nat 20) with (10 ^ 20). lia. }
  rewrite app_nil_r in *. exists c, ds. split; [done|]. split; [done|]. split; [done|].
  simpl in Hds. apply andb_true_iff in Hds as [Hc _]. simpl parse_digits in Hp at 2.
  unfold parse_u64. destruct ds as [|d ds].
  - rewrite Hc. pose proof Hc as Hc'. unfold is_ascii_digit in Hc'. bool_to_prop.
    rewrite parse_digit in Hp by (done || lia). simpl in Hp. done.
  - destruct (Z.eqb_spec c 43) as [->|]; [done|]. done.
Qed.

Definition no_digit (k : list Z) : Prop :=
  match k with c :: _ => is_ascii_digit c = false | [] => True end.

Lemma digits_loop_at ds fuel p k :
  At p (ds ++ k) -> forallb is_ascii_digit ds = true -> no_digit k -> (length ds <= fuel)%nat ->
  digits_loop fuel p = adv (length ds) 0 p.
Proof.
  revert fuel p. induction ds as [|c ds IH]; intros fuel p Ha Hds Hk Hf; simpl in *.
  - rewrite adv_0. destruct fuel; simpl; [done|]. destruct k as [|c k].
    + by rewrite (at_end _ Ha).
    + rewrite (at_peek _ _ _ Ha). by rewrite Hk.
  - destruct fuel as [|fuel]; [lia|]. simpl. rewrite (at_peek _ _ _ Ha), (at_next _ _ _ Ha).
    apply andb_true_iff in Hds as [Hc Hds]. rewrite Hc. cbn [snd].
    rewrite (IH _ _ (at_adv1 _ _ _ 0 Ha)), adv_adv; [done|done|done|lia].
Qed.

Lemma number_at p n k :
  At p (u64_to_string n ++ k) -> u64 n -> no_digit k ->
  number p = Parsed (JInt n) (adv (length (u64_to_string n)) 0 p).
Proof.
  intros Ha Hn Hk. destruct (u64_text n Hn) as (c & ds & E & Hds & H0 & Hp). rewrite E in *.
  unfold number. rewrite (at_peek _ _ _ Ha).
  rewrite (bool_decide_eq_false_2 (Some c = Some MINUS)).
  2: { intros [= ->]. by simpl in Hds. }
  pose proof (at_left _ _ Ha) as Hl. unfold left_of in Hl.
  rewrite (digits_loop_at (c :: ds) _ _ k Ha Hds Hk) by (rewrite Hl, length_app; lia).
  cbv zeta. simpl pos. simpl chars. replace (pos p + S (length ds) - pos p)%nat with (length (c :: ds))
    by (simpl; lia).
  rewrite Ha, take_app_length. rewrite Hp.
  destruct ((1 <? length (c :: ds))%nat && bool_decide (head (c :: ds) = Some 48)) eqn:Ez; [|done].
  bool_to_prop. simplify_eq/=. specialize (H0 eq_refl). subst ds. simpl in *. lia.
Qed.

(** ** Literals *)

Lemma literal_at w p k :
  w <> [] -> At p (w ++ k) -> literal w p = (true, adv (length w) 0 p).
Proof.
  intros Hw Ha. unfold literal. rewrite Ha, take_app_length, bool_decide_eq_true_2 by done.
  pose proof (at_left _ _ Ha) as Hl. rewrite length_app in Hl. unfold left_of in Hl.
  destruct w as [|c w]; [done|].
  rewrite (proj2 (Nat.leb_le _ _)) by (simpl in *; lia). unfold adv. simpl. do 2 f_equal. lia.
Qed.

Lemma literal_not_at c w p k :
  At p k -> head k <> Some c -> literal (c :: w) p = (false, p).
Proof.
  intros Ha Hk. unfold literal. rewrite Ha, (bool_decide_eq_false_2 (take _ _ = _)).
  - by rewrite andb_false_r.
  - destruct k as [|d k]; simpl in *; congruence.
Qed.

(** ** Values *)

Definition reads_back (j : Json) : Prop := forall fuel p k,
  At p (write j ++ k) -> no_digit k -> typed j = true -> distinct j = true ->
  depth p + nesting j <= MAX_DEPTH -> nodes p + size j <= MAX_NODES ->
  (2 * left_of p + 1 <= fuel)%nat ->
  value fuel p = Parsed j (adv (length (write j)) (size j) p).

(** Where a value begins: neither whitespace nor the end of a container. *)
Definition begins (c : Z) : bool :=
  negb (is_ws (Some c)) && negb (c =? RBRACKET) && negb (c =? RBRACE).

Lemma digit_begins c : is_ascii_digit c = true -> begins c = true.
Proof.
  unfold is_ascii_digit, begins, is_ws, SPACE, TAB, NEWLINE, RETURN, RBRACKET, RBRACE.
  intros H. bool_to_prop. rewrite !(proj2 (Z.eqb_neq _ _)) by lia. done.
Qed.

Lemma write_begins j : typed j = true -> exists c s, write j = c :: s /\ begins c = true.
Proof.
  destruct j as [|[]|n|s|items|fields]; simpl; intros Ht; try by eexists _, _.
  apply bool_decide_eq_true in Ht. destruct (u64_text n Ht) as (c & ds & -> & Hds & _).
  simpl in Hds. apply andb_true_iff in Hds as [Hc _]. eexists _, _.
  split; [done|]. by apply digit_begins.
Qed.

Lemma begins_not_ws c : begins c = true -> is_ws (Some c) = false.
Proof. unfold begins. intros. by bool_to_prop. Qed.

(** [value] where a character that is not whitespace is next. *)
Lemma value_at fuel p c s :
  At p (c :: s) -> is_ws (Some c) = false -> nodes p + 1 <= MAX_NODES ->
  value (S fuel) p =
  (let p := adv 0 1 p in
   if c =? LBRACE then nested (parse_object (object_loop fuel)) p
   else if c =? LBRACKET then nested (parse_array (array_loop fuel)) p
   else if c =? QUOTE then parsed (s, p) := string p in Parsed (JStr s) p
   else if (c =? LOWER_T) || (c =? LOWER_F) then boolean p
   else if c =? LOWER_N then null p
   else if (c =? MINUS) || is_ascii_digit c then number p
   else Failed ExpectedValue).
Proof.
  intros Ha Hc Hn. cbn [value]. rewrite (proj2 (Z.ltb_ge _ _)) by (simpl; lia).
  assert (At (adv 0 1 p) (c :: s)) as Ha' by apply (at_adv p [] _ 1 Ha).
  rewrite (at_skip_ws _ _ _ Ha' Hc), (at_peek _ _ _ Ha'). done.
Qed.

(** [nested] with room for one more level. *)
Lemma nested_at (f : Parser -> Step Json) p j k m :
  depth p + 1 <= MAX_DEPTH ->
  f (with_depth p (depth p + 1)) = Parsed j (adv k m (with_depth p (depth p + 1))) ->
  nested f p = Parsed j (adv k m p).
Proof.
  intros Hd E. unfold nested. rewrite (proj2 (Z.leb_gt _ _)) by lia. rewrite E.
  cbn [pbind]. unfold with_depth, adv. simpl. do 2 f_equal. lia.
Qed.

Lemma leaf_at fuel p k c s j :
  At p (c :: s ++ k) -> is_ws (Some c) = false -> nodes p + 1 <= MAX_NODES ->
  (forall q, At q (c :: s ++ k) ->
     (if c =? QUOTE then parsed (s, p) := string q in Parsed (JStr s) p
      else if (c =? LOWER_T) || (c =? LOWER_F) then boolean q
      else if c =? LOWER_N then null q
      else if (c =? MINUS) || is_ascii_digit c then number q
      else Failed ExpectedValue) = Parsed j (adv (length (c :: s)) 0 q)) ->
  (c =? LBRACE) = false -> (c =? LBRACKET) = false ->
  value (S fuel) p = Parsed j (adv (length (c :: s)) 1 p).
Proof.
  intros Ha Hc Hn Hq H1 H2. rewrite (value_at _ _ _ _ Ha Hc Hn). cbv zeta. rewrite H1, H2.
  rewrite Hq; [|apply (at_adv p [] _ 1 Ha)]. rewrite adv_adv. done.
Qed.

Lemma comma_separated_cons {A} (f : A -> list Z) x y l :
  comma_separated f (x :: y :: l) = f x ++ COMMA :: comma_separated f (y :: l).
Proof. done. Qed.

Lemma array_loop_at items : Forall reads_back items -> items <> [] -> forall fuel acc p k,
  At p (comma_separated write items ++ RBRACKET :: k) ->
  forallb typed items = true -> forallb distinct items = true ->
  depth p + max_of nesting items <= MAX_DEPTH -> nodes p + sum_of size items <= MAX_NODES ->
  (2 * left_of p + 2 <= fuel)%nat ->
  array_loop fuel acc p
  = Parsed (JArray (acc ++ items))
      (adv (length (comma_separated write items) + 1) (sum_of size items) p).
Proof.
  induction 1 as [|v items Hv Hvs IH]; [done|]. intros _ fuel acc p k Ha Ht Hd Hdep Hn Hf.
  destruct fuel as [|fuel]; [lia|]. simpl in Ht, Hd, Hdep, Hn.
  apply andb_true_iff in Ht as [Htv Ht], Hd as [Hdv Hd].
  assert (0 <= sum_of size items) as Hsum by exact (sum_of_size_nonneg (fun x => x) items).
  pose proof (at_left _ _ Ha) as Hl. cbn [array_loop].
  destruct items as [|w items].
  - simpl in Ha, Hdep, Hn, Hsum.
    rewrite (Hv fuel p (RBRACKET :: k) Ha) by (done || unfold max_of, sum_of in *; simpl in *; lia).
    cbn [pbind]. rewrite (at_skip_ws_next _ RBRACKET k) by (done || by apply at_adv).
    rewrite bool_decide_eq_false_2, bool_decide_eq_true_2 by done.
    rewrite adv_adv. unfold sum_of. simpl. done.
  - rewrite comma_separated_cons, <- app_assoc in Ha. simpl in Ha.
    rewrite (Hv fuel p _ Ha) by (done || unfold max_of, sum_of in *; simpl in *; lia).
    cbn [pbind]. apply at_adv with (m := size v) in Ha.
    rewrite (at_skip_ws_next _ COMMA _ Ha), bool_decide_eq_true_2 by done.
    apply at_adv1 with (m := 0) in Ha. rewrite adv_adv in *.
    rewrite (IH ltac:(done) fuel _ _ k Ha Ht Hd).
    + rewrite adv_adv, comma_separated_cons, length_app, <- app_assoc. cbn [length app].
      f_equal. unfold sum_of. simpl. f_equal; lia.
    + unfold max_of in *. simpl in *. lia.
    + unfold sum_of in *. simpl in *. lia.
    + rewrite (at_left _ _ Ha). rewrite comma_separated_cons, !length_app in Hl.
      cbn [length] in Hl. rewrite length_app. simpl in *. lia.
Qed.

Definition write_field (kv : list Z * Json) : list Z := write_string kv.1 ++ COLON :: write kv.2.

(** One round of the object loop up to the separator after the value. *)
Lemma object_round_at fuel acc seen p key v k :
  At p (write_field (key, v) ++ k) -> reads_back v -> no_digit k ->
  scalars key = true -> typed v = true -> distinct v = true ->
  depth p + nesting v <= MAX_DEPTH -> nodes p + size v <= MAX_NODES ->
  (2 * left_of p + 2 <= S fuel)%nat -> key ∉ seen ->
  object_loop (S fuel) acc seen p =
  (let '(c, p) := next (skip_ws (adv (length (write_field (key, v))) (size v) p)) in
   if bool_decide (c = Some COMMA)
   then object_loop fuel (acc ++ [(key, v)]) ({[key]} ∪ seen) p
   else if bool_decide (c = Some RBRACE) then Parsed (JObject (acc ++ [(key, v)])) p
   else Failed ExpectedCommaOrBrace).
Proof.
  unfold write_field. cbn [fst snd]. rewrite <- app_assoc. cbn [app].
  intros Ha Hv Hk Hkey Ht Hd Hdep Hn Hf Hfresh.
  pose proof (at_left _ _ Ha) as Hl. pose proof Ha as Hq.
  unfold write_string in Hq. cbn [app] in Hq. cbn [object_loop].
  rewrite (at_skip_ws _ _ _ Hq), (at_peek _ _ _ Hq), bool_decide_eq_false_2 by naive_solver.
  rewrite (string_at p key _ Ha Hkey). cbn [pbind]. rewrite bool_decide_eq_false_2 by done.
  apply at_adv with (m := 0) in Ha.
  rewrite (at_skip_ws_next _ COLON _ Ha), bool_decide_eq_false_2 by naive_solver.
  apply at_adv1 with (m := 0) in Ha. rewrite adv_adv in *.
  rewrite (Hv fuel _ k Ha Hk Ht Hd).
  - cbn [pbind]. rewrite adv_adv, length_app. cbn [length].
    replace (length (write_string key) + 1 + length (write v))%nat
      with (length (write_string key) + S (length (write v)))%nat by lia.
    done.
  - simpl. lia.
  - simpl. lia.
  - rewrite (at_left _ _ Ha). rewrite length_app in Hl. cbn [length] in Hl. lia.
Qed.

Lemma object_loop_at fields :
  Forall (fun kv => reads_back kv.2) fields -> fields <> [] -> forall fuel acc seen p k,
  At p (comma_separated write_field fields ++ RBRACE :: k) ->
  forallb (fun kv => scalars kv.1 && typed kv.2) fields = true ->
  forallb (fun kv => distinct kv.2) fields = true ->
  NoDup (map fst fields) -> (forall x, x ∈ map fst fields -> x ∉ seen) ->
  depth p + max_of (fun kv => nesting kv.2) fields <= MAX_DEPTH ->
  nodes p + sum_of (fun kv => size kv.2) fields <= MAX_NODES ->
  (2 * left_of p + 2 <= fuel)%nat ->
  object_loop fuel acc seen p
  = Parsed (JObject (acc ++ fields))
      (adv (length (comma_separated write_field fields) + 1)
         (sum_of (fun kv => size kv.2) fields) p).
Proof.
  induction 1 as [|[key v] fields Hv Hvs IH]; [done|].
  intros _ fuel acc seen p k Ha Ht Hd Hnd Hfresh Hdep Hn Hf.
  destruct fuel as [|fuel]; [lia|]. cbn [map fst] in Hnd, Hfresh. simpl in Ht, Hd, Hdep, Hn, Hv.
  apply andb_true_iff in Ht as [[Hkey Htv]%andb_true_iff Ht], Hd as [Hdv Hd].
  apply NoDup_cons in Hnd as [Hkf Hnd].
  pose proof (sum_of_size_nonneg snd fields) as Hsum.
  pose proof (at_left _ _ Ha) as Hl.
  assert (key ∉ seen) as Hks by (apply Hfresh; apply elem_of_cons; by left).
  destruct fields as [|kw fields].
  - simpl in Ha. rewrite (object_round_at fuel acc seen p key v (RBRACE :: k) Ha)
      by (done || unfold max_of, sum_of in *; simpl in *; lia).
    rewrite (at_skip_ws_next _ RBRACE k) by (done || by apply at_adv).
    rewrite bool_decide_eq_false_2, bool_decide_eq_true_2 by done.
    rewrite adv_adv. unfold sum_of. simpl. done.
  - rewrite comma_separated_cons, <- app_assoc in Ha. simpl app in Ha at 2.
    rewrite (object_round_at fuel acc seen p key v _ Ha)
      by (done || unfold max_of, sum_of in *; simpl in *; lia).
    apply at_adv with (m := size v) in Ha.
    rewrite (at_skip_ws_next _ COMMA _ Ha), bool_decide_eq_true_2 by done.
    apply at_adv1 with (m := 0) in Ha. rewrite adv_adv in *.
    rewrite (IH ltac:(done) fuel _ _ _ k Ha Ht Hd Hnd).
    + rewrite adv_adv, comma_separated_cons, length_app, <- app_assoc. cbn [length app].
      f_equal. unfold sum_of. simpl. f_equal; lia.
    + intros x Hx. rewrite elem_of_union, elem_of_singleton. intros [->|Hs]; [done|].
      apply (Hfresh x); [apply elem_of_cons; by right|done].
    + unfold max_of in *. simpl in *. lia.
    + unfold sum_of in *. simpl in *. lia.
    + rewrite (at_left _ _ Ha). rewrite comma_separated_cons, !length_app in Hl.
      cbn [length] in Hl. rewrite length_app. simpl in *. lia.
Qed.

(** A container: its opening character, its items with [loop] for the loop
    over them, its closing character. *)
Lemma parse_array_at fuel items p k :
  At p (LBRACKET :: comma_separated write items ++ RBRACKET :: k) ->
  forallb typed items = true ->
  (items <> [] -> array_loop fuel [] (adv 1 0 p)
     = Parsed (JArray items) (adv (length (comma_separated write items) + 1)
                               (sum_of size items) (adv 1 0 p))) ->
  parse_array (array_loop fuel) p
  = Parsed (JArray items) (adv (length (write (JArray items))) (sum_of size items) p).
Proof.
  intros Ha Ht Hloop. unfold parse_array. rewrite (at_next _ _ _ Ha). cbn [snd]. cbv zeta.
  apply at_adv1 with (m := 0) in Ha. simpl length. rewrite length_app.
  destruct items as [|v items].
  - rewrite (at_skip_ws _ _ _ Ha), (at_peek _ _ _ Ha), bool_decide_eq_true_2 by done.
    rewrite (at_next _ _ _ Ha). cbn [snd]. by rewrite adv_adv.
  - simpl in Ht. apply andb_true_iff in Ht as [Hv _].
    destruct (write_begins v Hv) as (c & s & E & Hc).
    assert (exists s', At (adv 1 0 p) (c :: s')) as [s' Hs'].
    { destruct items; [|rewrite comma_separated_cons in Ha]; simpl in Ha; rewrite E in Ha;
        simpl in Ha; eauto. }
    rewrite (at_skip_ws _ _ _ Hs'), (at_peek _ _ _ Hs') by (by apply begins_not_ws).
    rewrite bool_decide_eq_false_2 by (intros [= ->]; done).
    rewrite Hloop, adv_adv by done. done.
Qed.

Lemma parse_object_at fuel fields p k :
  At p (LBRACE :: comma_separated write_field fields ++ RBRACE :: k) ->
  (fields <> [] -> object_loop fuel [] ∅ (adv 1 0 p)
     = Parsed (JObject fields) (adv (length (comma_separated write_field fields) + 1)
                                 (sum_of (fun kv => size kv.2) fields) (adv 1 0 p))) ->
  parse_object (object_loop fuel) p
  = Parsed (JObject fields)
      (adv (length (write (JObject fields))) (sum_of (fun kv => size kv.2) fields) p).
Proof.
  intros Ha Hloop. unfold parse_object. rewrite (at_next _ _ _ Ha). cbn [snd]. cbv zeta.
  apply at_adv1 with (m := 0) in Ha. cbn [write length]. rewrite length_app.
  change (comma_separated (fun kv : list Z * Json => write_string kv.1 ++ COLON :: write kv.2) fields)
    with (comma_separated write_field fields).
  destruct fields as [|kv fields].
  - rewrite (at_skip_ws _ _ _ Ha), (at_peek _ _ _ Ha), bool_decide_eq_true_2 by done.
    rewrite (at_next _ _ _ Ha). cbn [snd]. by rewrite adv_adv.
  - assert (exists s', At (adv 1 0 p) (QUOTE :: s')) as [s' Hs'].
    { destruct fields; [|rewrite comma_separated_cons in Ha]; simpl in Ha; eauto. }
    rewrite (at_skip_ws _ _ _ Hs'), (at_peek _ _ _ Hs') by done.
    rewrite bool_decide_eq_false_2 by (intros [=]).
    rewrite Hloop, adv_adv by done. done.
Qed.

Lemma array_reads_back items : Forall reads_back items -> reads_back (JArray items).
Proof.
  intros IH fuel p k Ha Hk Ht Hd Hdep Hn Hf. destruct fuel as [|fuel]; [lia|].
  rewrite size_array in *. rewrite nesting_array in Hdep.
  pose proof (max_of_nonneg nesting items) as Hmx.
  assert (0 <= sum_of size items) as Hsum by exact (sum_of_size_nonneg (fun x => x) items).
  pose proof (at_left _ _ Ha) as Hl. cbn [write app] in Ha. rewrite <- app_assoc in Ha.
  rewrite (value_at _ _ _ _ Ha) by (done || lia). cbv zeta. simpl (_ =? _). cbv iota.
  rewrite (nested_at _ _ (JArray items) (length (write (JArray items))) (sum_of size items)).
  - by rewrite adv_adv.
  - simpl. lia.
  - apply (at_adv p [] _ 1) in Ha. simpl length in Ha.
    apply (parse_array_at _ _ _ k); [exact Ha|done|]. intros Hne.
    rewrite (array_loop_at items IH Hne fuel [] _ k); [done| |done|done| | |].
    + eapply (at_adv1 (with_depth _ _)), Ha.
    + simpl. lia.
    + simpl. lia.
    + cbn [write app length] in Hl. unfold left_of in *. simpl. lia.
Qed.

Lemma object_reads_back fields :
  Forall (fun kv => reads_back kv.2) fields -> reads_back (JObject fields).
Proof.
  intros IH fuel p k Ha Hk Ht Hd Hdep Hn Hf. destruct fuel as [|fuel]; [lia|].
  rewrite size_object in *. rewrite nesting_object in Hdep.
  pose proof (max_of_nonneg (fun kv : list Z * Json => nesting kv.2) fields) as Hmx.
  pose proof (sum_of_size_nonneg snd fields) as Hsum.
  simpl in Hd. apply andb_true_iff in Hd as [Hnd Hd]. apply bool_decide_eq_true in Hnd.
  pose proof (at_left _ _ Ha) as Hl. cbn [write app] in Ha. rewrite <- app_assoc in Ha.
  rewrite (value_at _ _ _ _ Ha) by (done || lia). cbv zeta. simpl (_ =? _). cbv iota.
  rewrite (nested_at _ _ (JObject fields) (length (write (JObject fields)))
             (sum_of (fun kv => size kv.2) fields)).
  - by rewrite adv_adv.
  - simpl. lia.
  - apply (at_adv p [] _ 1) in Ha. simpl length in Ha.
    apply (parse_object_at _ _ _ k); [exact Ha|]. intros Hne.
    rewrite (object_loop_at fields IH Hne fuel [] ∅ _ k); [done| |done|done|done| | | |].
    + eapply (at_adv1 (with_depth _ _)), Ha.
    + set_solver.
    + simpl. lia.
    + simpl. lia.
    + cbn [write app length] in Hl. unfold left_of in *. simpl. lia.
Qed.

Lemma json_reads_back j : reads_back j.
Proof.
  induction j as [|b|n|s|items IH|fields IH] using Json_nested_ind;
    [| | | |by apply array_reads_back|by apply object_reads_back];
    intros [|fuel] p k Ha Hk Ht Hd Hdep Hn Hf; try lia; simpl in Hn.
  - apply (leaf_at fuel p k _ (tail (write JNull))); try done. intros q Hq. simpl (_ =? _).
    cbv iota. unfold null. by rewrite (literal_at _ _ k) by done.
  - destruct b.
    + apply (leaf_at fuel p k _ (tail (write (JBool true)))); try done. intros q Hq.
      simpl (_ || _). cbv iota. unfold boolean. by rewrite (literal_at _ _ k) by done.
    + apply (leaf_at fuel p k _ (tail (write (JBool false)))); try done. intros q Hq.
      simpl (_ || _). cbv iota. unfold boolean.
      change (chars_of "true") with (LOWER_T :: chars_of "rue").
      rewrite (literal_not_at _ _ _ _ Hq) by done. by rewrite (literal_at _ _ k) by done.
  - simpl in Ht. apply bool_decide_eq_true in Ht.
    destruct (u64_text n Ht) as (c & ds & E & Hds & _). cbn [write] in *.
    simpl in Hds. apply andb_true_iff in Hds as [Hc _].
    rewrite E in Ha |- *. pose proof Hc as Hc'. unfold is_ascii_digit in Hc'. bool_to_prop.
    assert (forall z, 57 < z -> (c =? z) = false) as Hne by (intros; apply Z.eqb_neq; lia).
    apply (leaf_at fuel p k c ds); [done|by apply begins_not_ws, digit_begins|done| |by apply Hne..].
    intros q Hq. rewrite (proj2 (Z.eqb_neq c QUOTE)) by (unfold QUOTE; lia).
    rewrite !Hne, Hc, orb_true_r by done. cbn [orb].
    rewrite <- E. apply (number_at q n k); [by rewrite E|done|done].
  - apply (leaf_at fuel p k QUOTE (tail (write_string s))); try done. intros q Hq.
    simpl (_ =? _). cbv iota. by rewrite (string_at q s k Hq).
Qed.

Lemma parse_render j :
  typed j = true -> acceptable j = true -> parse (render j) = Some (Ok j).
Proof.
  intros Ht Hacc. unfold acceptable in Hacc. bool_to_prop. unfold render, parse.
  set (p := mkParser (write j) 0 0 0).
  assert (At p (write j ++ [])) as Ha by (unfold At; simpl; by rewrite app_nil_r).
  destruct (write_begins j Ht) as (c & s & E & Hc).
  pose proof Ha as Ha'. rewrite E in Ha'. simpl in Ha'.
  rewrite (at_skip_ws p c _ Ha') by (by apply begins_not_ws). cbv zeta.
  rewrite (json_reads_back j _ p [] Ha); simpl; try done.
  - pose proof (at_adv p (write j) [] (size j) Ha) as He.
    rewrite skip_ws_here by (by rewrite (at_end _ He)).
    simpl. by rewrite bool_decide_eq_false_2 by auto.
  - unfold left_of. simpl. lia.
Qed.
