(* ===== verification/JsonSpec.v ===== *)
(** * What the gateway's JSON promises

    The parser returns on every input; what it accepts is well typed and
    within its limits; what the printer writes it reads back exactly when it is
    within those limits; and hexadecimal text stands for its bytes. *)

From S2P Require Import Prelude Json JsonCorrect JsonRound.

(** ** Hexadecimal text *)

(** [to_ascii_lowercase] of one character. *)
Definition lower (c : Z) : Z := if (65 <=? c) && (c <=? 90) then c + 32 else c.

Lemma hex_nibble_Ok c d :
  hex_nibble c = Ok d -> 0 <= d < 16 /\ from_digit16 d = lower c /\ c < 128.
Proof.
  unfold hex_nibble, from_digit16, lower.
  repeat case_match; intros [= <-]; bool_to_prop; try lia.
Qed.

Lemma hex_nibble_digit d : 0 <= d < 16 -> hex_nibble (from_digit16 d) = Ok d.
Proof.
  intros Hd. unfold hex_nibble, from_digit16.
  destruct (Z.ltb_spec d 10); repeat case_match; bool_to_prop; try lia;
    try (f_equal; lia); exfalso.
  all: match goal with H : (_ && _) = false |- _ => apply andb_false_iff in H as [?|?] end;
    bool_to_prop; lia.
Qed.

Lemma byte_of_nibbles hi lo :
  0 <= hi < 16 -> 0 <= lo < 16 -> Z.lor (wrap 8 (Z.shiftl hi 4)) lo = hi * 16 + lo.
Proof.
  intros Hh Hl. unfold wrap. rewrite Z.shiftl_mul_pow2 by lia.
  change (2 ^ 4) with 16. change (2 ^ 8) with 256. rewrite Z.mod_small by lia.
  assert (Z.land (hi * 16) lo = 0) as Hd.
  { apply Z.bits_inj'. intros i Hi. rewrite Z.land_spec, Z.bits_0.
    change 16 with (2 ^ 4). destruct (Z.lt_ge_cases i 4).
    - by rewrite Z.mul_pow2_bits_low by lia.
    - rewrite andb_comm, <- (Z.mod_small lo (2 ^ 4)), Z.mod_pow2_bits_high by lia. done. }
  by rewrite <- Z.lxor_lor, <- Z.add_nocarry_lxor.
Qed.

Lemma nibbles_of_byte hi lo :
  0 <= hi < 16 -> 0 <= lo < 16 ->
  Z.shiftr (hi * 16 + lo) 4 = hi /\ Z.land (hi * 16 + lo) 15 = lo.
Proof.
  intros Hh Hl. rewrite Z.shiftr_div_pow2 by lia. change 15 with (Z.ones 4).
  rewrite Z.land_ones by lia. change (2 ^ 4) with 16. split; Z.div_mod_to_equations; lia.
Qed.

Lemma to_hex_cons b bs :
  to_hex (b :: bs) = from_digit16 (Z.shiftr b 4) :: from_digit16 (Z.land b 15) :: to_hex bs.
Proof. done. Qed.

Lemma hex_pairs_to_hex bs out :
  Forall (fun b => u8 b) bs -> hex_pairs (to_hex bs) out = Ok (out ++ bs).
Proof.
  intros H. revert out. induction H as [|b bs Hb _ IH]; intros out; [by rewrite app_nil_r|].
  rewrite to_hex_cons. cbn [hex_pairs]. unfold in_width in Hb. change (2 ^ 8) with 256 in Hb.
  assert (0 <= Z.shiftr b 4 < 16) as Hhi
    by (rewrite Z.shiftr_div_pow2 by lia; change (2 ^ 4) with 16; Z.div_mod_to_equations; lia).
  assert (0 <= Z.land b 15 < 16) as Hlo
    by (change 15 with (Z.ones 4); rewrite Z.land_ones by lia; apply Z.mod_pos_bound; lia).
  rewrite !hex_nibble_digit by done. cbn [rbind]. rewrite IH, byte_of_nibbles, <- app_assoc by done.
  do 3 f_equal. change 15 with (Z.ones 4).
  rewrite Z.land_ones, Z.shiftr_div_pow2 by lia. change (2 ^ 4) with 16.
  pose proof (Z.div_mod b 16). simpl. f_equal. lia.
Qed.

Lemma hex_pairs_Ok n : forall bytes out r,
  length bytes = (2 * n)%nat -> hex_pairs bytes out = Ok r ->
  exists bs, r = out ++ bs /\ to_hex bs = map lower bytes /\ Forall (fun c => c < 128) bytes.
Proof.
  induction n as [|n IH]; intros bytes out r Hlen H.
  - destruct bytes; [|done]. injection H as <-. exists []. by rewrite app_nil_r.
  - destruct bytes as [|hi [|lo bytes]]; [simpl in Hlen; lia..|]. cbn [hex_pairs] in H.
    destruct (hex_nibble hi) as [h|] eqn:Eh; [|done]. cbn [rbind] in H.
    destruct (hex_nibble lo) as [l|] eqn:El; [|done]. cbn [rbind] in H.
    apply hex_nibble_Ok in Eh as (Hh & Eh & Hh'), El as (Hl & El & Hl').
    rewrite byte_of_nibbles in H by done.
    destruct (IH bytes (out ++ [h * 16 + l]) r) as (bs & -> & Hbs & Hsmall);
      [simpl in Hlen; lia|done|].
    exists (h * 16 + l :: bs). rewrite <- app_assoc. split; [done|]. split.
    + rewrite to_hex_cons. destruct (nibbles_of_byte h l Hh Hl) as [-> ->].
      simpl. by rewrite Hbs, Eh, El.
    + by repeat constructor.
Qed.

Lemma trim_start_here s : (forall c, head s = Some c -> is_whitespace c = false) -> trim_start s = s.
Proof. destruct s as [|c s]; simpl; [done|]. intros H. by rewrite (H c eq_refl). Qed.

Lemma trim_here s : Forall (fun c => is_whitespace c = false) s -> trim s = s.
Proof.
  intros H. unfold trim.
  assert (forall l, Forall (fun c => is_whitespace c = false) l -> trim_start l = l) as Hts.
  { intros l Hl. apply trim_start_here. intros c Hc. destruct Hl; simplify_eq/=. done. }
  rewrite (Hts s H), Hts, rev_involutive; [done|]. by apply Forall_rev.
Qed.

Lemma as_bytes_ascii s : Forall (fun c => c < 128) s -> as_bytes s = s.
Proof.
  unfold as_bytes. induction 1 as [|c s Hc _ IH]; simpl; [done|].
  rewrite IH. unfold utf8. by rewrite (proj2 (Z.ltb_lt c 128) Hc).
Qed.

Lemma utf8_ascii c : Forall (fun b => b < 128) (utf8 c) -> c < 128.
Proof.
  unfold utf8. destruct (Z.ltb_spec c 128); [done|].
  repeat case_match; intros H'; apply Forall_cons_1 in H' as [Hb _]; exfalso;
    Z.div_mod_to_equations; lia.
Qed.

Lemma as_bytes_ascii_inv s : Forall (fun b => b < 128) (as_bytes s) -> as_bytes s = s.
Proof.
  intros H. apply as_bytes_ascii. unfold as_bytes in H.
  induction s as [|c s IH]; simpl in *; [constructor|].
  apply Forall_app in H as [Hc Hs]. constructor; [by apply utf8_ascii|auto].
Qed.

Lemma from_digit16_plain d :
  0 <= d < 16 -> from_digit16 d < 128 /\ is_whitespace (from_digit16 d) = false.
Proof.
  intros Hd. assert (48 <= from_digit16 d < 103) as Hr
    by (unfold from_digit16; case_match; bool_to_prop; lia).
  split; [lia|]. unfold is_whitespace.
  rewrite !orb_false_iff, !andb_false_iff, !Z.leb_gt, !Z.eqb_neq. lia.
Qed.

Lemma to_hex_plain bs :
  Forall (fun b => u8 b) bs ->
  Forall (fun c => c < 128) (to_hex bs) /\ Forall (fun c => is_whitespace c = false) (to_hex bs).
Proof.
  induction 1 as [|b bs Hb _ [IH1 IH2]]; [by split; constructor|]. rewrite to_hex_cons.
  unfold in_width in Hb. change (2 ^ 8) with 256 in Hb.
  destruct (from_digit16_plain (Z.shiftr b 4)) as [H1 H2].
  { rewrite Z.shiftr_div_pow2 by lia. change (2 ^ 4) with 16. Z.div_mod_to_equations. lia. }
  destruct (from_digit16_plain (Z.land b 15)) as [H3 H4].
  { change 15 with (Z.ones 4). rewrite Z.land_ones by lia. apply Z.mod_pos_bound. lia. }
  by repeat constructor.
Qed.

Lemma length_to_hex bs : length (to_hex bs) = (2 * length bs)%nat.
Proof. induction bs as [|b bs IH]; [done|]. rewrite to_hex_cons. simpl. rewrite IH. lia. Qed.

Lemma from_to_hex bs : Forall (fun b => u8 b) bs -> from_hex (to_hex bs) = Ok bs.
Proof.
  intros H. destruct (to_hex_plain bs H) as [Ha Hw]. unfold from_hex.
  rewrite (trim_here _ Hw), (as_bytes_ascii _ Ha), bool_decide_eq_false_2.
  - by rewrite (hex_pairs_to_hex bs [] H).
  - rewrite length_to_hex, Nat.mul_comm, Nat.Div0.mod_mul. auto.
Qed.

Lemma from_hex_Ok s bs : from_hex s = Ok bs -> to_hex bs = map lower (trim s).
Proof.
  unfold from_hex. cbv zeta. case_bool_decide as Heven; [done|]. intros H.
  destruct (hex_pairs_Ok (length (as_bytes (trim s)) / 2) (as_bytes (trim s)) [] bs)
    as (bs' & -> & Hbs & Hsmall); [|done|].
  { pose proof (Nat.div_mod_eq (length (as_bytes (trim s))) 2) as E. rewrite Heven in E. lia. }
  rewrite (as_bytes_ascii_inv _ Hsmall) in Hbs. done.
Qed.

(** ** Claims *)

(** C24: The JSON parser returns on every input: the recursion of [value],
    [object] and [array] and the loop of [string] come to an end within two
    rounds for each character of the text and one more, and the loops of
    [skip_ws] and [number] stop where the character they look for is no longer
    next. *)
Theorem parse_returns input :
  (exists result, parse input = Some result) /\
  (forall p, is_ws (peek (skip_ws p)) = false) /\
  (forall p c, peek (digits_loop (length (chars p) - pos p) p) = Some c ->
     is_ascii_digit c = false).
Proof.
  split; [|split].
  - pose proof (parse_outcome input). destruct (parse input); [eauto|done].
  - apply skip_ws_stops.
  - intros p c. by apply digits_loop_stops.
Qed.

(** C26: A value the parser accepts from a text is well typed (every integer a
    [u64], every string made of Unicode scalar values, escapes included), names
    no key twice in an object, nests at most 64 deep and holds at most 200000
    values; so the recursion of everything that walks it is bounded. *)
Theorem parse_accepts_well_formed input j :
  scalars input = true -> parse input = Some (Ok j) ->
  typed j = true /\ distinct j = true /\ nesting j <= MAX_DEPTH /\ size j <= MAX_NODES.
Proof.
  intros Hs Hp. pose proof (parse_outcome input) as H. rewrite Hp in H.
  destruct H as [Ha Ht]. unfold acceptable in Ha. bool_to_prop. auto.
Qed.

Lemma parse_accepts_well_formed_witness :
  typed (JArray [JInt 7; JStr [65; 8364]]) = true /\ distinct (JArray [JInt 7; JStr [65; 8364]]) = true /\
  nesting (JArray [JInt 7; JStr [65; 8364]]) <= MAX_DEPTH /\
  size (JArray [JInt 7; JStr [65; 8364]]) <= MAX_NODES.
Proof.
  apply (parse_accepts_well_formed
    ([LBRACKET; 55; COMMA; SPACE; QUOTE; 65; BACKSLASH; LOWER_U; 50; 48; 65; 99; QUOTE; RBRACKET]));
    vm_compute; reflexivity.
Defined.

(** C25: The parser reads back what the printer writes: the text of a value
    parses to that value exactly when the value is within the parser's limits.
    In particular any accepted text can be printed again from its value and
    parses to the same value. *)
Theorem render_parses_back j :
  typed j = true ->
  (parse (render j) = Some (Ok j) <-> acceptable j = true) /\
  (forall input, parse input = Some (Ok j) -> parse (render j) = Some (Ok j)).
Proof.
  intros Ht. assert (forall s, parse s = Some (Ok j) -> acceptable j = true) as Hacc.
  { intros s Hp. pose proof (parse_outcome s) as H. rewrite Hp in H. apply H. }
  split; [split; [apply Hacc|by apply parse_render]|].
  intros input Hp. apply parse_render; [done|]. by eapply Hacc.
Qed.

Lemma render_parses_back_witness :
  parse (render (JObject [([97], JInt 42); ([10; 34], JArray [JBool true; JNull; JStr [9; 31]])]))
  = Some (Ok (JObject [([97], JInt 42); ([10; 34], JArray [JBool true; JNull; JStr [9; 31]])])).
Proof. apply render_parses_back; vm_compute; reflexivity. Defined.

(** Hexadecimal text stands for its bytes: every byte string is read back
    from its text, and a text that is accepted is, trimmed and in lower case,
    the text of the bytes read from it. *)
Theorem hex_round_trip bs :
  Forall (fun b => u8 b) bs ->
  from_hex (to_hex bs) = Ok bs /\
  (forall s, from_hex s = Ok bs -> to_hex bs = map lower (trim s)).
Proof. intros H. split; [by apply from_to_hex|]. intros s. apply from_hex_Ok. Qed.

Lemma hex_round_trip_witness : from_hex (to_hex [0; 171; 255]) = Ok [0; 171; 255].
Proof. apply hex_round_trip. repeat constructor; vm_compute; congruence. Defined.
