(* ===== verification/Channel.v ===== *)
(** * The encrypted channel (crates/qtv-net: record.rs, keyschedule.rs,
    transcript.rs, identity.rs, channel.rs, lib.rs)

    Records sealed under a sequence number, and messages cut into records.  The
    AEAD, the hash functions and the sizes they fix are a parameter, the class
    [Aead] here and the hashes as arguments: they are the qtv-crypto package.

    A stream is what the code sees of it.  The reading side is the list of
    what [read] is going to return: some bytes, of which a call takes as many as
    its buffer holds, or an error; a list that has come to its end is a closed
    stream.  The writing side is the bytes written, with the faults the next
    calls of [write_all] and [flush] are going to meet. *)

From S2P Require Import Prelude.

(** ** Errors *)

Inductive IoKind : Type :=
| UnexpectedEof
| Interrupted
| WouldBlock
| TimedOut
| OtherKind (code : Z).

#[global] Instance IoKind_eq_dec : EqDecision IoKind.
Proof. solve_decision. Defined.

Inductive Reason : Type :=
| PartWritten
| PlaintextTooLong
| SequenceExhausted
| AeadBound
| LengthOutOfRange
| BadEncapsulationKey
| ContextTooLong
| TooManyHandshakes.

Inductive Error : Type :=
| Io (kind : IoKind)
| Handshake (reason : Reason)
| Authentication
| UnexpectedPeer
| RecordFailed
| MessageTooLarge
| BadFragment.

Definition is_timeout (e : Error) : bool :=
  match e with
  | Io WouldBlock | Io TimedOut => true
  | _ => false
  end.

(** ** Streams *)

Inductive ReadEvent : Type :=
| Bytes (bs : list byte)
| Fails (kind : IoKind).

Definition Reader : Type := list ReadEvent.

(** All the bytes that are still to come. *)
Fixpoint incoming (r : Reader) : list byte :=
  match r with
  | [] => []
  | Bytes bs :: r => bs ++ incoming r
  | Fails _ :: r => incoming r
  end.

Record Writer : Type := mkWriter {
  sent : list byte;
  faults : list (option (nat * IoKind)) }.

(** A call that fails has written the first [k] bytes. *)
Definition write_all (w : Writer) (bs : list byte) : Result IoKind unit * Writer :=
  match faults w with
  | Some (k, e) :: fs => (Err e, mkWriter (sent w ++ take k bs) fs)
  | None :: fs => (Ok tt, mkWriter (sent w ++ bs) fs)
  | [] => (Ok tt, mkWriter (sent w ++ bs) [])
  end.

Definition flush (w : Writer) : Result IoKind unit * Writer :=
  match faults w with
  | Some (_, e) :: fs => (Err e, mkWriter (sent w) fs)
  | None :: fs => (Ok tt, mkWriter (sent w) fs)
  | [] => (Ok tt, w)
  end.

(** [fill]: the loop over [read] with [need] bytes of the buffer left.  A read
    that leaves a part of its event behind has filled the buffer, so the loop
    ends; every other round takes an event. *)
Fixpoint fill_loop (r : Reader) (need : nat) (filled : list byte) (mid_frame : bool)
    : Result Error (list byte) * Reader :=
  match need with
  | O => (Ok filled, r)
  | S _ =>
      match r with
      | [] => (Err (Io UnexpectedEof), [])
      | Bytes bs :: r =>
          match bs with
          | [] => (Err (Io UnexpectedEof), r)
          | _ =>
              if (need <? length bs)%nat
              then (Ok (filled ++ take need bs), Bytes (drop need bs) :: r)
              else fill_loop r (need - length bs) (filled ++ bs) mid_frame
          end
      | Fails kind :: r =>
          if bool_decide (kind = Interrupted) then fill_loop r need filled mid_frame
          else if (length filled =? 0)%nat && negb mid_frame then (Err (Io kind), r)
          else (Err RecordFailed, r)
      end
  end.

Definition fill (r : Reader) (size : nat) (mid_frame : bool)
    : Result Error (list byte) * Reader :=
  fill_loop r size [] mid_frame.

(** ** Records *)

Class Aead : Type := {
  KEY_BYTES : nat;
  NONCE_BYTES : nat;
  TAG_BYTES : nat;
  (** [chacha20poly1305::seal(key, nonce, aad, plaintext)]. *)
  aead_seal : list byte -> list byte -> list byte -> list byte -> option (list byte * list byte);
  (** [chacha20poly1305::open(key, nonce, aad, ciphertext, tag)]. *)
  aead_open : list byte -> list byte -> list byte -> list byte -> list byte -> option (list byte) }.

Definition MAX_RECORD_PLAINTEXT : Z := 2 ^ 20.
Definition LENGTH_PREFIX : nat := 4.

Definition xor_byte (a b : byte) : byte := byte_of (Z.lxor (byte_val a) (byte_val b)).

Section Record_layer.
Context `{A : Aead}.

(** The last eight bytes of the nonce take the sequence number. *)
Definition record_nonce (iv : list byte) (sequence : Z) : list byte :=
  take (NONCE_BYTES - 8) iv
  ++ zip_with xor_byte (drop (NONCE_BYTES - 8) iv) (to_be 8 sequence).

Record Sealer : Type := mkSealer {
  s_key : list byte;
  s_iv : list byte;
  s_sequence : Z;
  s_torn : bool }.

Definition Sealer_new (key iv : list byte) : Sealer := mkSealer key iv 0 false.

(** The sequence number [seal] takes for a plaintext, and with which it calls
    the AEAD, or the error it returns before it takes one. *)
Definition seal_sequence (s : Sealer) (plaintext : list byte) : Result Error Z :=
  if s_torn s then Err (Handshake PartWritten)
  else if MAX_RECORD_PLAINTEXT <? len plaintext then Err (Handshake PlaintextTooLong)
  else if s_sequence s =? U64_MAX then Err (Handshake SequenceExhausted)
  else Ok (s_sequence s).

Definition frame_of (ciphertext tag : list byte) : list byte :=
  to_be 4 (wrap 32 (len ciphertext + Z.of_nat TAG_BYTES)) ++ ciphertext ++ tag.

Definition seal (s : Sealer) (w : Writer) (plaintext : list byte)
    : Result Error unit * Sealer * Writer :=
  match seal_sequence s plaintext with
  | Err e => (Err e, s, w)
  | Ok sequence =>
      let s := mkSealer (s_key s) (s_iv s) (sequence + 1) (s_torn s) in
      let nonce := record_nonce (s_iv s) sequence in
      match aead_seal (s_key s) nonce (to_be 8 sequence) plaintext with
      | None => (Err (Handshake AeadBound), s, w)
      | Some (ciphertext, tag) =>
          let torn := mkSealer (s_key s) (s_iv s) (s_sequence s) true in
          match write_all w (frame_of ciphertext tag) with
          | (Err e, w) => (Err (Io e), torn, w)
          | (Ok _, w) =>
              match flush w with
              | (Err e, w) => (Err (Io e), torn, w)
              | (Ok _, w) => (Ok tt, s, w)
              end
          end
      end
  end.

Record Opener : Type := mkOpener {
  o_key : list byte;
  o_iv : list byte;
  o_sequence : Z }.

Definition Opener_new (key iv : list byte) : Opener := mkOpener key iv 0.

(** [open]; the sequence number is a [u64] that panics past its end. *)
Definition open (o : Opener) (r : Reader) : outcome (Result Error (list byte) * Opener * Reader) :=
  match fill r LENGTH_PREFIX false with
  | (Err e, r) => Done (Err e, o, r)
  | (Ok length_bytes, r) =>
      let length := from_be length_bytes in
      if negb ((Z.of_nat TAG_BYTES <=? length)
               && (length <=? MAX_RECORD_PLAINTEXT + Z.of_nat TAG_BYTES))
      then Done (Err (Handshake LengthOutOfRange), o, r)
      else
        match fill r (Z.to_nat length) true with
        | (Err e, r) => Done (Err e, o, r)
        | (Ok body, r) =>
            let split := Z.to_nat (length - Z.of_nat TAG_BYTES) in
            let nonce := record_nonce (o_iv o) (o_sequence o) in
            match aead_open (o_key o) nonce (to_be 8 (o_sequence o))
                    (take split body) (drop split body) with
            | Some plaintext =>
                obind (panicking_add 64 (o_sequence o) 1) (fun sequence =>
                  Done (Ok plaintext, mkOpener (o_key o) (o_iv o) sequence, r))
            | None => Done (Err RecordFailed, o, r)
            end
        end
  end.
End Record_layer.

(** ** Keys *)

Definition KEY_SCHEDULE_LABEL : list byte := ascii "qtv-net/key-schedule/v1".

Record DirKey : Type := mkDirKey { d_key : list byte; d_iv : list byte }.

Record SessionKeys : Type := mkSessionKeys {
  initiator_to_responder : DirKey;
  responder_to_initiator : DirKey;
  exporter : list byte }.

(** [shake256 input n] is the first [n] bytes of the output. *)
Definition derive `{Aead} (shake256 : list byte -> nat -> list byte)
    (shared_secret transcript_hash : list byte) : SessionKeys :=
  let input := KEY_SCHEDULE_LABEL ++ shared_secret ++ transcript_hash in
  let stream := shake256 input (2 * KEY_BYTES + 2 * NONCE_BYTES + 32)%nat in
  let slice from to := take (to - from) (drop from stream) in
  let i2r_key := slice 0%nat KEY_BYTES in
  let r2i_key := slice KEY_BYTES (2 * KEY_BYTES)%nat in
  let iv_base := (2 * KEY_BYTES)%nat in
  let i2r_iv := slice iv_base (iv_base + NONCE_BYTES)%nat in
  let r2i_iv := slice (iv_base + NONCE_BYTES)%nat (iv_base + 2 * NONCE_BYTES)%nat in
  mkSessionKeys (mkDirKey i2r_key i2r_iv) (mkDirKey r2i_key r2i_iv)
    (drop (iv_base + 2 * NONCE_BYTES) stream).

(** ** Transcripts and peers *)

Definition LABEL : list byte := ascii "qtv-net/handshake/v1".

(** A [Transcript] is its buffer. *)
Definition Transcript : Type := list byte.
Definition Transcript_new : Transcript := LABEL.
Definition absorb (t : Transcript) (field : list byte) : Transcript := t ++ field.
Definition transcript_hash (sha3_256 : list byte -> list byte) (t : Transcript) : list byte :=
  sha3_256 t.

Record PeerId : Type := mkPeerId { public : list byte; fingerprint : list byte }.

Definition PeerId_from_public (sha3_256 : list byte -> list byte) (public : list byte) : PeerId :=
  mkPeerId public (sha3_256 public).

(** [PeerId::eq] compares both fields. *)
#[global] Instance PeerId_eq_dec : EqDecision PeerId.
Proof. solve_decision. Defined.

(** ** Messages *)

Inductive Role : Type := Initiator | Responder.

Record Channel : Type := mkChannel {
  ch_reader : Reader;
  ch_writer : Writer;
  ch_peer : PeerId;
  ch_binding : list byte;
  ch_sealer : Sealer;
  ch_opener : Opener;
  ch_partial : list byte }.

Definition Channel_new (r : Reader) (w : Writer) (role : Role) (peer : PeerId)
    (keys : SessionKeys) : Channel :=
  let '(send, receive) :=
    match role with
    | Initiator => (initiator_to_responder keys, responder_to_initiator keys)
    | Responder => (responder_to_initiator keys, initiator_to_responder keys)
    end in
  mkChannel r w peer (exporter keys)
    (Sealer_new (d_key send) (d_iv send)) (Opener_new (d_key receive) (d_iv receive)) [].

Definition MAX_MESSAGE : Z := 16 * 1024 * 1024.
Definition FRAGMENT_FINAL : byte := x00.
Definition FRAGMENT_MORE : byte := x01.
Definition FRAGMENT_PAYLOAD : Z := MAX_RECORD_PLAINTEXT - 1.

(** [message.chunks(size)]; a message has at most as many chunks as bytes. *)
Fixpoint chunks_loop (fuel : nat) (size : Z) (bs : list byte) : list (list byte) :=
  match fuel with
  | O => []
  | S fuel =>
      match bs with
      | [] => []
      | _ =>
          if len bs <=? size then [bs]
          else take (Z.to_nat size) bs :: chunks_loop fuel size (drop (Z.to_nat size) bs)
      end
  end.
Definition chunks (size : Z) (bs : list byte) : list (list byte) := chunks_loop (length bs) size bs.

(** The plaintexts of the records of a message. *)
Fixpoint fragments_of (cs : list (list byte)) : list (list byte) :=
  match cs with
  | [] => []
  | [c] => [FRAGMENT_FINAL :: c]
  | c :: cs => (FRAGMENT_MORE :: c) :: fragments_of cs
  end.

Section Messages.
Context `{A : Aead}.

Fixpoint send_records (s : Sealer) (w : Writer) (records : list (list byte))
    : Result Error unit * Sealer * Writer :=
  match records with
  | [] => (Ok tt, s, w)
  | record :: records =>
      match seal s w record with
      | (Ok _, s, w) => send_records s w records
      | (Err e, s, w) => (Err e, s, w)
      end
  end.

Definition with_send (c : Channel) (s : Sealer) (w : Writer) : Channel :=
  mkChannel (ch_reader c) w (ch_peer c) (ch_binding c) s (ch_opener c) (ch_partial c).
Definition with_receive (c : Channel) (o : Opener) (r : Reader) (partial : list byte) : Channel :=
  mkChannel r (ch_writer c) (ch_peer c) (ch_binding c) (ch_sealer c) o partial.

(** What [send] seals for a message: an empty message has no chunk and is one
    final fragment. *)
Definition records_of (message : list byte) : list (list byte) :=
  match chunks FRAGMENT_PAYLOAD message with
  | [] => [[FRAGMENT_FINAL]]
  | cs => fragments_of cs
  end.

Definition send (c : Channel) (message : list byte) : Result Error unit * Channel :=
  if MAX_MESSAGE <? len message then (Err MessageTooLarge, c)
  else
    let '(result, s, w) := send_records (ch_sealer c) (ch_writer c) (records_of message) in
    (result, with_send c s w).

(** [recv]'s loop; [None] stands for a loop that has not come to its end. *)
Fixpoint recv_loop (fuel : nat) (c : Channel)
    : option (outcome (Result Error (list byte) * Channel)) :=
  match fuel with
  | O => None
  | S fuel =>
      match open (ch_opener c) (ch_reader c) with
      | Panic => Some Panic
      | Done (Err e, o, r) => Some (Done (Err e, with_receive c o r (ch_partial c)))
      | Done (Ok record, o, r) =>
          match record with
          | [] => Some (Done (Err BadFragment, with_receive c o r (ch_partial c)))
          | flag :: payload =>
              if MAX_MESSAGE <? len (ch_partial c) + len payload
              then Some (Done (Err MessageTooLarge, with_receive c o r []))
              else
                let partial := ch_partial c ++ payload in
                if bool_decide (flag = FRAGMENT_FINAL)
                then Some (Done (Ok partial, with_receive c o r []))
                else if bool_decide (flag = FRAGMENT_MORE) && negb (bool_decide (payload = []))
                then recv_loop fuel (with_receive c o r partial)
                else Some (Done (Err BadFragment, with_receive c o r []))
          end
      end
  end.

(** Every round that goes on has read the four bytes of a length. *)
Definition recv (c : Channel) : option (outcome (Result Error (list byte) * Channel)) :=
  recv_loop (S (length (incoming (ch_reader c)))) c.
End Messages.
