(* ===== verification/ChannelCorrect.v ===== *)
(** * The encrypted channel: lemmas

    Filling a buffer from a stream that hands out its bytes in any pieces, the
    records of a message, sealing and opening, and one call of [recv]. *)

From S2P Require Import Prelude Channel.

(** What the channel relies on of the AEAD. *)
Class AeadLaws (A : Aead) : Prop := {
  nonce_room : (8 <= NONCE_BYTES)%nat;
  frame_room : MAX_RECORD_PLAINTEXT + Z.of_nat TAG_BYTES < 2 ^ 32;
  seal_sizes : forall key nonce aad p c t,
    aead_seal key nonce aad p = Some (c, t) -> length c = length p /\ length t = TAG_BYTES;
  open_seal : forall key nonce aad p c t,
    aead_seal key nonce aad p = Some (c, t) -> aead_open key nonce aad c t = Some p }.

(** ** Reading *)

(** A stream that neither fails nor ends before its bytes are read. *)
Definition smooth (r : Reader) : Prop :=
  Forall (fun ev => match ev with Bytes bs => bs <> [] | Fails k => k = Interrupted end) r.

Lemma fill_loop_smooth r need filled mid :
  smooth r -> (need <= length (incoming r))%nat ->
  exists r', fill_loop r need filled mid = (Ok (filled ++ take need (incoming r)), r') /\
    smooth r' /\ incoming r' = drop need (incoming r).
Proof.
  intros Hr. revert need filled. induction Hr as [|ev r Hev Hr IH]; intros need filled Hn.
  - simpl in Hn. assert (need = O) as -> by lia. exists []. simpl.
    rewrite app_nil_r. split; [done|]. by split; [constructor|].
  - destruct need as [|need]; [exists (ev :: r); rewrite app_nil_r; split; [done|];
      split; [by constructor|done]|].
    destruct ev as [bs|k].
    + destruct bs as [|b bs]; [done|]. cbn [fill_loop incoming].
      destruct (Nat.ltb_spec (S need) (length (b :: bs))) as [Hlt|Hge].
      * eexists. rewrite take_app_le by lia. split; [done|]. split.
        -- constructor; [|done]. intros E. apply (f_equal length) in E.
           rewrite length_drop in E. simpl in *. lia.
        -- simpl incoming. rewrite (drop_app_le (b :: bs)) by lia. done.
      * cbn [incoming] in Hn. rewrite length_app in Hn.
        destruct (IH (S need - length (b :: bs))%nat (filled ++ b :: bs)) as (r' & E & Hs & Hi);
          [lia|].
        exists r'. rewrite E, take_app_ge, <- app_assoc by lia. split; [done|].
        split; [done|]. by rewrite Hi, drop_app_ge by lia.
    + simpl in Hev. subst k. cbn [fill_loop incoming] in *. by apply IH.
Qed.

(** What a call of [fill] took from the stream, whatever it returned. *)
Lemma fill_loop_takes r need filled mid res r' :
  fill_loop r need filled mid = (res, r') ->
  (exists got, incoming r = got ++ incoming r' /\
     (forall bs, res = Ok bs -> bs = filled ++ got /\ length got = need) /\
     (forall e, res = Err e -> is_timeout e = true -> filled = [] /\ mid = false /\ got = [])).
Proof.
  revert need filled. induction r as [|ev r IH]; intros need filled; destruct need as [|need];
    cbn [fill_loop].
  1, 3: intros [= <- <-]; exists []; split; [done|]; split; [|done]; intros bs [= <-];
    by rewrite app_nil_r.
  - intros [= <- <-]. exists []. split; [done|]. split; [done|]. by intros e [= <-].
  - destruct ev as [bs|k].
    + destruct bs as [|b bs].
      * intros [= <- <-]. exists []. split; [done|]. split; [done|]. by intros e [= <-].
      * destruct (Nat.ltb_spec (S need) (length (b :: bs))) as [Hlt|Hge].
        -- intros [= <- <-]. exists (take (S need) (b :: bs)). split.
           { simpl. by rewrite (app_assoc (take need bs)), take_drop. }
           split; [|done]. intros l [= <-]. split; [done|]. rewrite length_take. lia.
        -- intros H. destruct (IH _ _ H) as (got & Hi & Hok & Herr).
           exists ((b :: bs) ++ got). cbn [incoming]. rewrite Hi, app_assoc. split; [done|].
           split.
           ++ intros l Hl. destruct (Hok l Hl) as [-> Hlen]. rewrite <- app_assoc.
              split; [done|]. rewrite length_app. lia.
           ++ intros e He Ht. destruct (Herr e He Ht) as [Hf _]. by destruct filled.
    + case_bool_decide; [apply IH|]. destruct (Nat.eqb_spec (length filled) 0) as [Hf|]; simpl.
      * destruct mid; simpl; intros [= <- <-]; exists []; (split; [done|]); (split; [done|]);
          intros e [= <-]; [done|]. intros _. by destruct filled.
      * intros [= <- <-]. exists []. split; [done|]. split; [done|]. by intros e [= <-].
Qed.

Lemma fill_takes r n mid res r' :
  fill r n mid = (res, r') ->
  exists got, incoming r = got ++ incoming r' /\
    (forall bs, res = Ok bs -> bs = got /\ length got = n) /\
    (forall e, res = Err e -> is_timeout e = true -> mid = false /\ got = []).
Proof.
  intros H. destruct (fill_loop_takes _ _ _ _ _ _ H) as (got & Hi & Hok & Herr).
  exists got. split; [done|]. split; [exact Hok|]. intros e He Ht. by destruct (Herr e He Ht).
Qed.

(** ** Fragments *)

Lemma chunks_loop_spec fuel size bs :
  0 < size -> (length bs <= fuel)%nat ->
  concat (chunks_loop fuel size bs) = bs /\
  Forall (fun c => c <> [] /\ len c <= size) (chunks_loop fuel size bs).
Proof.
  intros Hs. revert bs. induction fuel as [|fuel IH]; intros bs Hf.
  - destruct bs; [|simpl in Hf; lia]. by split; constructor.
  - cbn [chunks_loop]. destruct bs as [|b bs]; [by split; constructor|].
    destruct (Z.leb_spec (len (b :: bs)) size) as [Hle|Hgt].
    + split; [simpl; by rewrite app_nil_r|]. by repeat constructor.
    + unfold len in *.
      destruct (IH (drop (Z.to_nat size) (b :: bs))) as [IH1 IH2].
      { rewrite length_drop. simpl in *. lia. }
      split; [cbn [concat]; by rewrite IH1, take_drop|].
      constructor; [|done]. rewrite length_take. split; [|lia].
      intros E. apply (f_equal length) in E. rewrite length_take in E. simpl in *. lia.
Qed.

Lemma chunks_spec bs :
  concat (chunks FRAGMENT_PAYLOAD bs) = bs /\
  Forall (fun c => c <> [] /\ len c <= FRAGMENT_PAYLOAD) (chunks FRAGMENT_PAYLOAD bs).
Proof. apply chunks_loop_spec; done. Qed.

Lemma fragments_of_cons c d cs :
  fragments_of (c :: d :: cs) = (FRAGMENT_MORE :: c) :: fragments_of (d :: cs).
Proof. done. Qed.

(** The record of a message at position [k]: every record but the last one
    announces more and carries something. *)
Definition fragment_at (records : list (list byte)) (k : nat) (record : list byte) : Prop :=
  exists payload, len payload <= FRAGMENT_PAYLOAD /\
    (S k = length records /\ record = FRAGMENT_FINAL :: payload \/
     (S k < length records)%nat /\ record = FRAGMENT_MORE :: payload /\ payload <> []).

Lemma fragments_of_spec cs :
  Forall (fun c => c <> [] /\ len c <= FRAGMENT_PAYLOAD) cs ->
  length (fragments_of cs) = length cs /\
  concat (map tail (fragments_of cs)) = concat cs /\
  (forall k record, fragments_of cs !! k = Some record -> fragment_at (fragments_of cs) k record).
Proof.
  induction 1 as [|c cs [Hc Hl] Hcs (IH1 & IH2 & IH3)]; [done|].
  destruct cs as [|d cs].
  - split; [done|]. split; [done|]. intros [|k] record; [|done].
    intros [= <-]. exists c. split; [done|]. by left.
  - rewrite fragments_of_cons. split; [cbn [length]; by rewrite IH1|].
    split; [cbn [map concat tail]; by rewrite IH2|].
    intros [|k] record; cbn [lookup list_lookup length].
    + intros [= <-]. exists c. split; [done|]. right.
      cbn [length] in *. split; [lia|done].
    + intros Hk. destruct (IH3 k record Hk) as (payload & Hp & H). exists payload.
      split; [done|]. destruct H as [[H ->]|(H & -> & Hne)]; [left|right]; cbn [length]; auto with lia.
Qed.

Lemma records_of_spec message :
  records_of message <> [] /\
  concat (map tail (records_of message)) = message /\
  (forall k record, records_of message !! k = Some record ->
     fragment_at (records_of message) k record).
Proof.
  unfold records_of. destruct (chunks_spec message) as [Hj Hc].
  destruct (chunks FRAGMENT_PAYLOAD message) as [|c cs].
  - split; [done|]. split; [exact Hj|]. intros [|k] record; [|done]. intros [= <-].
    exists []. split; [done|]. by left.
  - destruct (fragments_of_spec _ Hc) as (Hl & Ht & Hf). split.
    + intros E. rewrite E in Hl. done.
    + split; [|exact Hf]. rewrite Ht. exact Hj.
Qed.

(** What has arrived of a message before its record [k]. *)
Definition arrived (message : list byte) (k : nat) : list byte :=
  concat (map tail (take k (records_of message))).

Lemma arrived_next message k flag payload :
  records_of message !! k = Some (flag :: payload) ->
  arrived message (S k) = arrived message k ++ payload.
Proof.
  intros H. unfold arrived. rewrite (take_S_r _ _ _ H), map_app, concat_app. simpl.
  by rewrite app_nil_r.
Qed.

Lemma arrived_all message k : (length (records_of message) <= k)%nat -> arrived message k = message.
Proof. intros H. unfold arrived. rewrite take_ge by done. apply records_of_spec. Qed.

Lemma arrived_le message k : (length (arrived message k) <= length message)%nat.
Proof.
  rewrite <- (arrived_all message (length (records_of message))) at 2 by lia.
  unfold arrived. rewrite (take_ge (records_of message) (length (records_of message))) by lia.
  rewrite <- (take_drop k (records_of message)) at 2.
  rewrite map_app, concat_app, length_app. lia.
Qed.

(** ** Sealing and opening *)

Section Records.
Context `{A : Aead}.

Lemma seal_Ok s w p s' w' :
  seal s w p = (Ok tt, s', w') ->
  exists c t, aead_seal (s_key s) (record_nonce (s_iv s) (s_sequence s))
                (to_be 8 (s_sequence s)) p = Some (c, t) /\
    sent w' = sent w ++ frame_of c t /\
    s' = mkSealer (s_key s) (s_iv s) (s_sequence s + 1) (s_torn s) /\
    len p <= MAX_RECORD_PLAINTEXT /\ s_sequence s <> U64_MAX /\ s_torn s = false.
Proof.
  unfold seal, seal_sequence. destruct (s_torn s) eqn:Et; [done|].
  destruct (Z.ltb_spec MAX_RECORD_PLAINTEXT (len p)); [done|].
  destruct (Z.eqb_spec (s_sequence s) U64_MAX); [done|]. cbn [s_key s_iv s_sequence].
  destruct (aead_seal _ _ _ p) as [[c t]|] eqn:Es; [|done].
  unfold write_all, flush. intros E. exists c, t. split; [done|].
  repeat case_match; simplify_eq/=; auto 10.
Qed.

(** A [wire] that carries records sealed one after the other from sequence
    number [n] on. *)
Inductive sealed_from (key iv : list byte) : Z -> list (list byte) -> list byte -> Prop :=
| sealed_nil n : sealed_from key iv n [] []
| sealed_cons n p c t records wire :
    len p <= MAX_RECORD_PLAINTEXT -> n <> U64_MAX ->
    aead_seal key (record_nonce iv n) (to_be 8 n) p = Some (c, t) ->
    sealed_from key iv (n + 1) records wire ->
    sealed_from key iv n (p :: records) (frame_of c t ++ wire).

Lemma sealed_from_app key iv n records more wire wire' :
  sealed_from key iv n records wire ->
  sealed_from key iv (n + len records) more wire' ->
  sealed_from key iv n (records ++ more) (wire ++ wire').
Proof.
  induction 1 as [n|n p c t records wire Hp Hn Hs _ IH]; unfold len; simpl.
  - by rewrite Z.add_0_r.
  - intros H. rewrite <- app_assoc. econstructor; [done..|]. apply IH.
    replace (n + 1 + len records) with (n + Z.of_nat (S (length records)))
      by (unfold len; lia). done.
Qed.

Lemma send_records_Ok records s w s' w' :
  send_records s w records = (Ok tt, s', w') ->
  exists wire, sent w' = sent w ++ wire /\
    sealed_from (s_key s) (s_iv s) (s_sequence s) records wire /\
    s_key s' = s_key s /\ s_iv s' = s_iv s /\ s_sequence s' = s_sequence s + len records.
Proof.
  revert s w. induction records as [|p records IH]; intros s w; cbn [send_records].
  - intros [= <- <-]. exists []. rewrite app_nil_r. unfold len. simpl.
    split; [done|]. split; [constructor|]. split; [done|]. split; [done|lia].
  - destruct (seal s w p) as [[[[]|e] s1] w1] eqn:Es; [|done]. intros H.
    destruct (seal_Ok _ _ _ _ _ Es) as (c & t & Hs & Hw & -> & Hl & Hn & _).
    destruct (IH _ _ H) as (wire & Hw' & Hf & Hk & Hi & Hq). simpl in *.
    exists (frame_of c t ++ wire). rewrite Hw', Hw, app_assoc. split; [done|].
    split; [by econstructor|]. split; [done|]. split; [done|].
    unfold len in *. simpl. lia.
Qed.

Context {L : AeadLaws A}.

Lemma open_frame o r p c t rest :
  smooth r -> incoming r = frame_of c t ++ rest ->
  aead_seal (o_key o) (record_nonce (o_iv o) (o_sequence o)) (to_be 8 (o_sequence o)) p
    = Some (c, t) ->
  len p <= MAX_RECORD_PLAINTEXT -> 0 <= o_sequence o < U64_MAX ->
  exists r', open o r = Done (Ok p, mkOpener (o_key o) (o_iv o) (o_sequence o + 1), r') /\
    smooth r' /\ incoming r' = rest.
Proof.
  intros Hr Hi Hs Hp Hq. destruct (seal_sizes _ _ _ _ _ _ Hs) as [Hc Ht].
  pose proof frame_room as Hroom. pose proof (len_nonneg p) as Hp0.
  set (n := len c + Z.of_nat TAG_BYTES) in *.
  assert (Z.of_nat TAG_BYTES <= n <= MAX_RECORD_PLAINTEXT + Z.of_nat TAG_BYTES) as Hn
    by (unfold n, len in *; lia).
  assert (frame_of c t = to_be 4 n ++ c ++ t) as Ef.
  { unfold frame_of. rewrite wrap_id; [done|]. unfold in_width. lia. }
  assert (length (to_be 4 n) = 4%nat) as Hl4 by (unfold to_be; by rewrite length_rev, length_to_le).
  rewrite Ef, <- !app_assoc in Hi. unfold open, fill.
  destruct (fill_loop_smooth r LENGTH_PREFIX [] false Hr) as (r1 & -> & Hr1 & Hi1).
  { rewrite Hi, length_app, Hl4. unfold LENGTH_PREFIX. lia. }
  rewrite Hi in Hi1 |- *. cbn [app]. rewrite take_app_le, take_ge by (rewrite Hl4; done).
  unfold LENGTH_PREFIX in Hi1. rewrite drop_app_le, drop_ge in Hi1 by (rewrite Hl4; done).
  simpl in Hi1.
  assert (from_be (to_be 4 n) = n) as ->.
  { unfold from_be, to_be. rewrite rev_involutive. apply from_to_le.
    change (256 ^ Z.of_nat 4) with (2 ^ 32). lia. }
  rewrite (proj2 (Z.leb_le _ _)), (proj2 (Z.leb_le n _)) by lia. cbn [andb negb].
  assert (length (c ++ t) = Z.to_nat n) as Hlen by (rewrite length_app; unfold n, len; lia).
  destruct (fill_loop_smooth r1 (Z.to_nat n) [] true Hr1) as (r2 & -> & Hr2 & Hi2).
  { rewrite Hi1, app_assoc, length_app. lia. }
  rewrite Hi1, app_assoc in Hi2 |- *. cbn [app].
  rewrite <- Hlen, take_app_length. rewrite <- Hlen, drop_app_length in Hi2.
  replace (Z.to_nat (n - Z.of_nat TAG_BYTES)) with (length c) by (unfold n, len; lia).
  rewrite take_app_length, drop_app_length, (open_seal _ _ _ _ _ _ Hs).
  unfold panicking_add, checked_add. rewrite (proj2 (Z.ltb_lt _ _)) by (unfold U64_MAX in Hq; lia).
  cbn [obind]. exists r2. done.
Qed.

(** A record that was not sealed under the next number is not opened. *)
Lemma open_Ok o r p o' r' :
  open o r = Done (Ok p, o', r') ->
  (exists c t, aead_open (o_key o) (record_nonce (o_iv o) (o_sequence o))
                 (to_be 8 (o_sequence o)) c t = Some p) /\
  o' = mkOpener (o_key o) (o_iv o) (o_sequence o + 1) /\
  (4 + length (incoming r') <= length (incoming r))%nat.
Proof using.
  unfold open. destruct (fill r LENGTH_PREFIX false) as [[lb|e] r1] eqn:E1; [|done].
  destruct (negb _); [done|].
  destruct (fill r1 _ true) as [[body|e] r2] eqn:E2; [|done].
  destruct (aead_open _ _ _ _ _) as [q|] eqn:Eo; [|done].
  unfold panicking_add. destruct (checked_add 64 (o_sequence o) 1) as [s|] eqn:Es; [|done].
  cbn [obind]. intros [= <- <- <-]. apply checked_add_Some in Es as [-> _].
  split; [eauto|]. split; [done|].
  destruct (fill_takes _ _ _ _ _ E1) as (got1 & Hi1 & Hok1 & _).
  destruct (fill_takes _ _ _ _ _ E2) as (got2 & Hi2 & _).
  destruct (Hok1 _ eq_refl) as [_ Hl1]. rewrite Hi1, Hi2, !length_app, Hl1.
  unfold LENGTH_PREFIX. lia.
Qed.

(** An error leaves the opener as it was. *)
Lemma open_Err o r e o' r' :
  open o r = Done (Err e, o', r') ->
  o' = o /\ (is_timeout e = true -> incoming r' = incoming r).
Proof using.
  unfold open. destruct (fill r LENGTH_PREFIX false) as [[lb|e1] r1] eqn:E1.
  - destruct (negb _); [intros [= <- <- <-]; done|].
    destruct (fill r1 _ true) as [[body|e2] r2] eqn:E2.
    + destruct (aead_open _ _ _ _ _) as [q|]; [|intros [= <- <- <-]; done].
      unfold panicking_add. by destruct (checked_add 64 (o_sequence o) 1).
    + intros [= <- <- <-]. split; [done|]. intros Ht.
      destruct (fill_takes _ _ _ _ _ E2) as (got2 & _ & _ & Herr).
      by destruct (Herr _ eq_refl Ht).
  - intros [= <- <- <-]. split; [done|]. intros Ht.
    destruct (fill_takes _ _ _ _ _ E1) as (got1 & -> & _ & Herr).
    by destruct (Herr _ eq_refl Ht) as [_ ->].
Qed.

(** Only the number of a record that opened can overflow. *)
Lemma open_Panic o r :
  open o r = Panic ->
  2 ^ 64 <= o_sequence o + 1 /\
  exists c t p, aead_open (o_key o) (record_nonce (o_iv o) (o_sequence o))
                  (to_be 8 (o_sequence o)) c t = Some p.
Proof using.
  unfold open. destruct (fill r LENGTH_PREFIX false) as [[lb|e1] r1]; [|done].
  destruct (negb _); [done|]. destruct (fill r1 _ true) as [[body|e2] r2]; [|done].
  destruct (aead_open _ _ _ _ _) as [q|] eqn:Eo; [|done].
  unfold panicking_add. destruct (checked_add 64 (o_sequence o) 1) eqn:Ec; [done|].
  apply checked_add_None in Ec. eauto 10.
Qed.

(** ** Receiving *)

Lemma recv_loop_returns fuel c :
  (length (incoming (ch_reader c)) < fuel)%nat -> recv_loop fuel c <> None.
Proof using.
  revert c. induction fuel as [|fuel IH]; intros c Hf; [lia|]. cbn [recv_loop].
  destruct (open (ch_opener c) (ch_reader c)) as [[[[record|e] o] r]|] eqn:Eo; [|done|done].
  destruct record as [|flag payload]; [done|]. repeat case_match; try done.
  apply IH. simpl. apply open_Ok in Eo. lia.
Qed.

Lemma recv_returns c : recv c <> None.
Proof using. apply recv_loop_returns. lia. Qed.
End Records.
