(* ===== verification/ChannelSpec.v ===== *)
(** * What the encrypted channel promises

    Messages arrive whole and in order however the stream cuts them up; against
    a peer that does what it likes to the stream, what arrives is a prefix of
    what was sent; no nonce is used twice; a quiet link loses nothing and a torn
    one carries nothing more. *)

From S2P Require Import Prelude Channel ChannelCorrect.

(** ** Runs of calls *)

Section Runs.
Context `{A : Aead}.

(** [send] for each message, up to the first error. *)
Fixpoint send_all (c : Channel) (messages : list (list byte)) : Result Error unit * Channel :=
  match messages with
  | [] => (Ok tt, c)
  | m :: messages =>
      match send c m with
      | (Ok _, c) => send_all c messages
      | (Err e, c) => (Err e, c)
      end
  end.

(** [n] calls of [recv] that all return a message. *)
Fixpoint recv_all (n : nat) (c : Channel) : option (list (list byte) * Channel) :=
  match n with
  | O => Some ([], c)
  | S n =>
      match recv c with
      | Some (Done (Ok m, c)) =>
          match recv_all n c with Some (ms, c) => Some (m :: ms, c) | None => None end
      | _ => None
      end
  end.

Definition set_reader (c : Channel) (r : Reader) : Channel :=
  with_receive c (ch_opener c) r (ch_partial c).

(** A call of [recv] for each of [readers], the caller going on after an error,
    with whatever the stream holds by then.  The messages received, or [None]
    if a call did not return. *)
Fixpoint recv_series (c : Channel) (readers : list Reader) : option (list (list byte) * Channel) :=
  match readers with
  | [] => Some ([], c)
  | r :: readers =>
      match recv (set_reader c r) with
      | Some (Done (Ok m, c)) =>
          match recv_series c readers with Some (ms, c) => Some (m :: ms, c) | None => None end
      | Some (Done (Err _, c)) => recv_series c readers
      | _ => None
      end
  end.

(** The nonces of the AEAD calls of a run of [seal], each call with the stream
    it finds. *)
Fixpoint nonces_used (s : Sealer) (calls : list (Writer * list byte)) : list (list byte) :=
  match calls with
  | [] => []
  | (w, p) :: calls =>
      match seal_sequence s p with
      | Ok n => [record_nonce (s_iv s) n]
      | Err _ => []
      end ++ nonces_used (seal s w p).1.2 calls
  end.

(** ** In order and whole *)

Lemma chunk_count message k : (k < length (records_of message))%nat ->
  exists flag payload, records_of message !! k = Some (flag :: payload).
Proof.
  intros H. destruct (lookup_lt_is_Some_2 _ _ H) as [record Hr].
  destruct (records_of_spec message) as (_ & _ & Hf).
  destruct (Hf k record Hr) as (payload & _ & [[_ ->]|(_ & -> & _)]); eauto.
Qed.

Lemma len_arrived message k flag payload :
  records_of message !! k = Some (flag :: payload) ->
  len (arrived message k) + len payload <= len message.
Proof.
  intros H. pose proof (arrived_le message (S k)) as Hle.
  rewrite (arrived_next _ _ _ _ H), length_app in Hle. unfold len. lia.
Qed.

(** What [recv]'s loop does with the record at position [k] of a message. *)
Lemma recv_step fuel c message k record o r :
  open (ch_opener c) (ch_reader c) = Done (Ok record, o, r) ->
  records_of message !! k = Some record -> ch_partial c = arrived message k ->
  len message <= MAX_MESSAGE ->
  recv_loop (S fuel) c =
  if (S k =? length (records_of message))%nat
  then Some (Done (Ok message, with_receive c o r []))
  else recv_loop fuel (with_receive c o r (arrived message (S k))).
Proof.
  intros Ho Hk Hp Hm. cbn [recv_loop]. rewrite Ho.
  destruct (records_of_spec message) as (_ & _ & Hf).
  destruct (Hf k record Hk) as (payload & _ & Hcase).
  assert (record = FRAGMENT_FINAL :: payload \/ record = FRAGMENT_MORE :: payload) as Hr
    by naive_solver.
  assert (exists flag, record = flag :: payload) as [flag Ef] by naive_solver.
  rewrite Ef in Hk |- *. pose proof (len_arrived _ _ _ _ Hk) as Hlen.
  rewrite Hp, (proj2 (Z.ltb_ge _ _)), <- (arrived_next _ _ _ _ Hk) by lia.
  destruct Hcase as [[Hlast E]|(Hmore & E & Hne)]; rewrite E in Ef; injection Ef as <-.
  - rewrite bool_decide_eq_true_2 by done. rewrite (proj2 (Nat.eqb_eq _ _)) by done.
    rewrite arrived_all by lia. done.
  - rewrite bool_decide_eq_false_2, bool_decide_eq_true_2, bool_decide_eq_false_2 by done.
    rewrite (proj2 (Nat.eqb_neq _ _)) by lia. done.
Qed.

Context {L : AeadLaws A}.

(** The state of a receiver whose next record is number [n] of the direction
    with [key] and [iv]. *)
Definition expects (key iv : list byte) (n : Z) (c : Channel) : Prop :=
  ch_opener c = mkOpener key iv n /\ 0 <= n <= U64_MAX.

Lemma recv_loop_delivers left key iv : forall fuel c n message k wire rest,
  (k + left = length (records_of message))%nat -> (0 < left)%nat ->
  expects key iv n c -> ch_partial c = arrived message k -> len message <= MAX_MESSAGE ->
  sealed_from key iv n (drop k (records_of message)) wire ->
  smooth (ch_reader c) -> incoming (ch_reader c) = wire ++ rest -> (left <= fuel)%nat ->
  exists c', recv_loop fuel c = Some (Done (Ok message, c')) /\
    expects key iv (n + Z.of_nat left) c' /\ ch_partial c' = [] /\
    smooth (ch_reader c') /\ incoming (ch_reader c') = rest.
Proof.
  induction left as [|left IH]; [lia|].
  intros fuel c n message k wire rest Hk _ [Ho Hn] Hp Hm Hw Hs Hi Hf.
  destruct fuel as [|fuel]; [lia|].
  destruct (chunk_count message k ltac:(lia)) as (flag & payload & Hrec).
  rewrite (drop_S _ _ _ Hrec) in Hw.
  inversion Hw as [|n' p ct t records wire' Hplen Hmax Hseal Hw']. subst. rewrite <- app_assoc in Hi.
  destruct (open_frame (ch_opener c) (ch_reader c) (flag :: payload) ct t (wire' ++ rest))
    as (r' & Hop & Hs' & Hi'); [done|done|by rewrite Ho|done|rewrite Ho; simpl; lia|].
  rewrite (recv_step _ _ message k _ _ _ Hop Hrec Hp Hm). rewrite Ho. cbn [o_key o_iv o_sequence].
  destruct (Nat.eqb_spec (S k) (length (records_of message))) as [E|E].
  - assert (left = O) as -> by lia. rewrite drop_ge in Hw' by lia. inversion Hw'. subst.
    eexists. split; [done|]. split; [by split; [done|lia]|]. done.
  - destruct (IH fuel (with_receive c (mkOpener key iv (n + 1)) r' (arrived message (S k)))
      (n + 1) message (S k) wire' rest) as (c' & E' & He & Hrest); try done; try lia.
    { split; [done|lia]. }
    exists c'. split; [done|]. split; [|done].
    by replace (n + Z.of_nat (S left)) with (n + 1 + Z.of_nat left) by lia.
Qed.

Lemma length_sealed key iv n records wire :
  sealed_from key iv n records wire -> (4 * length records <= length wire)%nat.
Proof using.
  induction 1 as [|n p c t records wire _ _ _ _ IH]; [simpl; lia|].
  rewrite length_app. unfold frame_of. rewrite length_app. unfold to_be.
  rewrite length_rev, length_to_le. simpl. lia.
Qed.

Lemma recv_delivers key iv c n message wire rest :
  expects key iv n c -> ch_partial c = [] -> len message <= MAX_MESSAGE ->
  sealed_from key iv n (records_of message) wire ->
  smooth (ch_reader c) -> incoming (ch_reader c) = wire ++ rest ->
  exists c', recv c = Some (Done (Ok message, c')) /\
    expects key iv (n + len (records_of message)) c' /\ ch_partial c' = [] /\
    smooth (ch_reader c') /\ incoming (ch_reader c') = rest.
Proof.
  intros He Hp Hm Hw Hs Hi. pose proof (length_sealed _ _ _ _ _ Hw) as Hl.
  apply (recv_loop_delivers (length (records_of message)) key iv _ c n message 0 wire rest); auto.
  - destruct (records_of_spec message) as [Hne _]. destruct (records_of message); [done|simpl; lia].
  - rewrite Hi, length_app. lia.
Qed.

Lemma send_Ok c message c' :
  send c message = (Ok tt, c') ->
  len message <= MAX_MESSAGE /\
  exists wire, sent (ch_writer c') = sent (ch_writer c) ++ wire /\
    sealed_from (s_key (ch_sealer c)) (s_iv (ch_sealer c)) (s_sequence (ch_sealer c))
      (records_of message) wire /\
    s_key (ch_sealer c') = s_key (ch_sealer c) /\ s_iv (ch_sealer c') = s_iv (ch_sealer c) /\
    s_sequence (ch_sealer c') = s_sequence (ch_sealer c) + len (records_of message).
Proof using.
  unfold send. destruct (Z.ltb_spec MAX_MESSAGE (len message)); [done|].
  destruct (send_records _ _ _) as [[[[]|e] s] w] eqn:E; [|done]. intros [= <-].
  split; [done|]. by apply send_records_Ok in E.
Qed.

Lemma send_all_extends messages sender sender' :
  send_all sender messages = (Ok tt, sender') ->
  exists wire, sent (ch_writer sender') = sent (ch_writer sender) ++ wire.
Proof using.
  revert sender. induction messages as [|m messages IH]; intros sender; cbn [send_all].
  - intros [= <-]. exists []. by rewrite app_nil_r.
  - destruct (send sender m) as [[[]|e] sender1] eqn:Es; [|done]. intros H.
    destruct (IH _ H) as [wire ->]. destruct (send_Ok _ _ _ Es) as (_ & w & -> & _).
    exists (w ++ wire). by rewrite app_assoc.
Qed.

(** C18: Messages arrive whole and in order.  When a peer has sent a series of
    messages and every call returned success, a receiver that holds the keys of
    that direction and has opened the records before them receives exactly that
    series, one message for each call of [recv], and is left at the byte after
    them; however the stream cuts the bytes into reads and interrupts them. *)
Theorem channel_delivers_in_order messages : forall sender sender' receiver rest,
  send_all sender messages = (Ok tt, sender') ->
  expects (s_key (ch_sealer sender)) (s_iv (ch_sealer sender)) (s_sequence (ch_sealer sender))
    receiver ->
  ch_partial receiver = [] -> smooth (ch_reader receiver) ->
  incoming (ch_reader receiver)
    = drop (length (sent (ch_writer sender))) (sent (ch_writer sender')) ++ rest ->
  exists receiver', recv_all (length messages) receiver = Some (messages, receiver') /\
    ch_partial receiver' = [] /\ incoming (ch_reader receiver') = rest.
Proof.
  induction messages as [|m messages IH]; intros sender sender' receiver rest; cbn [send_all].
  - intros [= <-] He Hp Hs Hi. rewrite drop_all in Hi. by exists receiver.
  - destruct (send sender m) as [[[]|e] sender1] eqn:Es; [|done].
    intros Hall He Hp Hs Hi.
    destruct (send_Ok _ _ _ Es) as (Hm & wire & Hw & Hf & Ek & Ei & Eq).
    destruct (send_all_extends _ _ _ Hall) as [wire' Hw'].
    rewrite Hw', Hw, <- app_assoc, drop_app_length, <- app_assoc in Hi.
    destruct (recv_delivers _ _ receiver _ m wire (wire' ++ rest) He Hp Hm Hf Hs Hi)
      as (receiver1 & Er & He1 & Hp1 & Hs1 & Hi1).
    destruct (IH sender1 sender' receiver1 rest Hall) as (receiver' & Hr & Hfin).
    + by rewrite Ek, Ei, Eq.
    + done.
    + done.
    + by rewrite Hw', drop_app_length, Hi1.
    + exists receiver'. cbn [length recv_all]. by rewrite Er, Hr.
Qed.

(** ** Against a hostile stream *)

(** Where a receiver stands in the series of messages the peer sent: [got]
    have been received, and [k] records of the next one. *)
Definition stands (key iv : list byte) (messages got : list (list byte)) (c : Channel) : Prop :=
  exists left k, messages = got ++ left /\
    expects key iv (len (concat (map records_of got)) + Z.of_nat k) c /\
    match left with
    | [] => k = O /\ ch_partial c = []
    | m :: _ => (k < length (records_of m))%nat /\ ch_partial c = arrived m k
    end.

(** What the peer's keys protect: under them, only the records the peer sealed
    open, each under its own number. *)
Definition only_opens (key iv : list byte) (messages : list (list byte)) : Prop :=
  forall n c t p, 0 <= n < 2 ^ 64 ->
    aead_open key (record_nonce iv n) (to_be 8 n) c t = Some p ->
    concat (map records_of messages) !! Z.to_nat n = Some p.

Lemma next_record (got left : list (list byte)) (k : nat) (record : list byte) :
  match left with [] => k = O | m :: _ => (k < length (records_of m))%nat end ->
  concat (map records_of (got ++ left)) !! Z.to_nat (len (concat (map records_of got)) + Z.of_nat k)
    = Some record ->
  exists m left', left = m :: left' /\ records_of m !! k = Some record.
Proof using.
  intros Hk. rewrite map_app, concat_app. unfold len.
  replace (Z.to_nat _) with (length (concat (map records_of got)) + k)%nat by lia.
  rewrite lookup_app_r by lia.
  replace (_ + k - _)%nat with k by lia. destruct left as [|m left]; [done|].
  simpl. rewrite lookup_app_l by done. eauto.
Qed.

Lemma stands_next key iv messages got m left k c o r :
  messages = got ++ m :: left -> (k < length (records_of m))%nat ->
  expects key iv (len (concat (map records_of got)) + Z.of_nat k) c ->
  len (concat (map records_of messages)) <= U64_MAX ->
  o = mkOpener key iv (len (concat (map records_of got)) + Z.of_nat k + 1) ->
  if (S k =? length (records_of m))%nat
  then stands key iv messages (got ++ [m]) (with_receive c o r [])
  else stands key iv messages got (with_receive c o r (arrived m (S k))).
Proof using.
  intros Hms Hk [_ Hn] Hmax ->.
  assert (len (concat (map records_of got)) + Z.of_nat (length (records_of m)) <= U64_MAX) as Hb.
  { rewrite Hms, map_app, concat_app, len_app in Hmax. simpl in Hmax. rewrite len_app in Hmax.
    pose proof (len_nonneg (concat (map records_of left))). unfold len in *. lia. }
  destruct (Nat.eqb_spec (S k) (length (records_of m))) as [E|E].
  - exists left, O. rewrite <- app_assoc. split; [done|].
    rewrite map_app, concat_app, len_app. simpl. rewrite app_nil_r. unfold len at 2.
    rewrite <- E in *. split.
    + split; [simpl; f_equal; lia|]. pose proof (len_nonneg (concat (map records_of got))). lia.
    + destruct left as [|m' left]; [done|]. split; [|done].
      destruct (records_of_spec m') as [Hne _]. destruct (records_of m'); [done|simpl; lia].
  - exists (m :: left), (S k). split; [done|]. split; [|split; [lia|done]].
    split; [simpl; f_equal; lia|lia].
Qed.

Lemma recv_stands key iv messages got fuel c :
  only_opens key iv messages -> Forall (fun m => len m <= MAX_MESSAGE) messages ->
  len (concat (map records_of messages)) <= U64_MAX ->
  stands key iv messages got c -> (length (incoming (ch_reader c)) < fuel)%nat ->
  (exists m c', recv_loop fuel c = Some (Done (Ok m, c')) /\
     stands key iv messages (got ++ [m]) c') \/
  (exists e c', recv_loop fuel c = Some (Done (Err e, c')) /\ stands key iv messages got c').
Proof using.
  intros Hopen Hsize Hmax. revert c. induction fuel as [|fuel IH]; intros c Hst Hf; [lia|].
  destruct Hst as (left & k & Hms & He & Hk). pose proof He as [Ho Hn].
  destruct (open (ch_opener c) (ch_reader c)) as [[[[record|e] o] r]|] eqn:Eo.
  - destruct (open_Ok _ _ _ _ _ Eo) as ((ct & t & Hsealed) & Hnext & Hlen).
    rewrite Ho in Hsealed, Hnext. simpl in Hsealed, Hnext.
    apply Hopen in Hsealed; [|unfold U64_MAX in *; lia]. rewrite Hms in Hsealed.
    apply next_record in Hsealed as (m & left' & -> & Hrec); [|by destruct left; destruct Hk].
    destruct Hk as [Hk Hp].
    assert (len m <= MAX_MESSAGE) as Hm.
    { rewrite Hms in Hsize. apply Forall_app in Hsize as [_ Hs]. by inversion Hs. }
    rewrite (recv_step fuel c m k record o r Eo Hrec Hp Hm).
    pose proof (stands_next key iv messages got m left' k c o r Hms Hk He Hmax Hnext) as Hst.
    destruct (S k =? length (records_of m))%nat; [left; eauto|].
    apply IH; [done|]. simpl. lia.
  - apply open_Err in Eo as Eo'. destruct Eo' as [-> _]. right. cbn [recv_loop]. rewrite Eo.
    eexists _, _. split; [done|]. by exists left, k.
  - exfalso. apply open_Panic in Eo as (Hover & ct & t & p & Hsealed).
    rewrite Ho in *. simpl in *. apply Hopen in Hsealed; [|unfold U64_MAX in *; lia].
    apply lookup_lt_Some in Hsealed. unfold len, U64_MAX in *. lia.
Qed.

(** C17: A hostile stream can only cut a conversation short.  Whatever bytes,
    pieces, failures and delays the receiver's stream produces, and however
    often the caller goes on after an error, every call of [recv] returns
    without a panic, and the messages received are the first ones the peer sent,
    in their order and whole: none is dropped, repeated, reordered, altered or
    joined with another.  Of the AEAD it takes that only the records the peer
    sealed open, each under its own number. *)
Theorem channel_receives_a_prefix key iv messages readers receiver :
  only_opens key iv messages -> Forall (fun m => len m <= MAX_MESSAGE) messages ->
  len (concat (map records_of messages)) <= U64_MAX ->
  ch_opener receiver = Opener_new key iv -> ch_partial receiver = [] ->
  exists got receiver', recv_series receiver readers = Some (got, receiver') /\
    got `prefix_of` messages.
Proof using.
  intros Hopen Hsize Hmax Ho Hp.
  assert (forall got c, stands key iv messages got c ->
    exists more c', recv_series c readers = Some (more, c') /\ got ++ more `prefix_of` messages) as H.
  { induction readers as [|r readers IH]; intros got c Hst.
    - exists [], c. rewrite app_nil_r. split; [done|]. destruct Hst as (left & k & -> & _).
      by exists left.
    - assert (stands key iv messages got (set_reader c r)) as Hst' by exact Hst.
      cbn [recv_series]. unfold recv.
      destruct (recv_stands key iv messages got
        (S (length (incoming (ch_reader (set_reader c r))))) (set_reader c r))
        as [(m & c' & -> & Hs)|(e & c' & -> & Hs)]; [done..|lia| |].
      + destruct (IH _ _ Hs) as (more & c'' & -> & Hpre). exists (m :: more), c''.
        split; [done|]. by rewrite <- app_assoc in Hpre.
      + apply IH, Hs. }
  apply (H [] receiver). exists messages, O. split; [done|]. split.
  - split; [done|]. unfold len, U64_MAX. simpl. lia.
  - destruct messages as [|m messages]; [done|]. split; [|done].
    destruct (records_of_spec m) as [Hne _]. destruct (records_of m); [done|simpl; lia].
Qed.
End Runs.

(** ** Nonces *)

Lemma byte_val_xor a b : byte_val (xor_byte a b) = Z.lxor (byte_val a) (byte_val b).
Proof.
  unfold xor_byte. apply byte_val_of_small. pose proof (byte_val_range a). pose proof (byte_val_range b).
  apply (in_width_lxor 8); unfold in_width; lia.
Qed.

Lemma xor_byte_inj x a b : xor_byte x a = xor_byte x b -> a = b.
Proof.
  intros H%(f_equal byte_val). rewrite !byte_val_xor in H. apply byte_val_inj.
  apply (f_equal (Z.lxor (byte_val x))) in H.
  by rewrite <- !Z.lxor_assoc, Z.lxor_nilpotent, !Z.lxor_0_l in H.
Qed.

Lemma zip_xor_inj (l a b : list byte) :
  length a = length l -> length b = length l ->
  zip_with xor_byte l a = zip_with xor_byte l b -> a = b.
Proof.
  revert a b. induction l as [|x l IH]; intros [|u a] [|v b]; simpl; try done; try lia.
  intros Ha Hb [= Hu Hl]. f_equal; [by eapply xor_byte_inj|]. apply IH; auto with lia.
Qed.

Section Nonces.
Context `{A : Aead}.

Lemma record_nonce_inj iv a b :
  (8 <= NONCE_BYTES)%nat -> length iv = NONCE_BYTES ->
  0 <= a < 2 ^ 64 -> 0 <= b < 2 ^ 64 ->
  record_nonce iv a = record_nonce iv b -> a = b.
Proof.
  intros Hr Hl Ha Hb H. unfold record_nonce in H. apply app_inv_head in H.
  assert (forall z, length (to_be 8 z) = 8%nat) as H8
    by (intros; unfold to_be; by rewrite length_rev, length_to_le).
  apply zip_xor_inj in H; [|rewrite H8, length_drop; lia..].
  unfold to_be in H. apply (f_equal (@rev byte)) in H. rewrite !rev_involutive in H.
  by apply to_le_inj in H.
Qed.

Lemma seal_takes s w p n :
  seal_sequence s p = Ok n ->
  n = s_sequence s /\ n <> U64_MAX /\
  exists torn, (seal s w p).1.2 = mkSealer (s_key s) (s_iv s) (n + 1) torn.
Proof.
  intros E. assert (n = s_sequence s /\ n <> U64_MAX) as [Hn Hm].
  { unfold seal_sequence in E. repeat case_match; simplify_eq. by bool_to_prop. }
  split; [done|]. split; [done|]. unfold seal. rewrite E. cbn [s_key s_iv s_sequence s_torn].
  destruct (aead_seal _ _ _ p) as [[c t]|]; [|by eexists].
  destruct (write_all w (frame_of c t)) as [[[]|k] w1]; [|by eexists].
  destruct (flush w1) as [[[]|k] w2]; by eexists.
Qed.

(** A call of [seal] never goes back to a number it has taken. *)
Lemma seal_advances s w p s' :
  0 <= s_sequence s <= U64_MAX -> (seal s w p).1.2 = s' ->
  s_iv s' = s_iv s /\ s_sequence s <= s_sequence s' <= U64_MAX /\
  (forall n, seal_sequence s p = Ok n -> n = s_sequence s /\ n < s_sequence s').
Proof.
  intros Hs <-. destruct (seal_sequence s p) as [n|e] eqn:E.
  - destruct (seal_takes s w p n E) as (Hn & Hm & torn & ->). simpl. split; [done|].
    split; [lia|]. intros n' [= <-]. lia.
  - unfold seal. rewrite E. simpl. split; [done|]. split; [lia|done].
Qed.

Lemma nonces_used_later calls s :
  0 <= s_sequence s <= U64_MAX ->
  Forall (fun nonce => exists n, s_sequence s <= n < 2 ^ 64 /\ nonce = record_nonce (s_iv s) n)
    (nonces_used s calls).
Proof.
  revert s. induction calls as [|[w p] calls IH]; intros s Hs; cbn [nonces_used]; [constructor|].
  destruct (seal_advances s w p _ Hs eq_refl) as (Hiv & Hseq & Hn).
  apply Forall_app. split.
  - destruct (seal_sequence s p) as [n|]; [|constructor]. destruct (Hn n eq_refl) as [-> Hlt].
    constructor; [|constructor]. exists (s_sequence s). unfold U64_MAX in *. split; [lia|done].
  - eapply Forall_impl; [apply IH; lia|]. rewrite Hiv. intros nonce (n & Hlt & ->).
    exists n. split; [lia|done].
Qed.


(** ** Failing streams *)

Lemma seal_torn s w p : s_torn s = true -> seal s w p = (Err (Handshake PartWritten), s, w).
Proof. intros H. unfold seal, seal_sequence. by rewrite H. Qed.

(** A quiet link loses nothing and a torn one carries nothing more.  A
    timeout that [open] reports has left the opener and every byte of the stream
    where they were, so the call can be repeated; a deadline inside a record is
    no timeout.  A call of [seal] that fails after it has written anything to the
    stream, or failed to flush it, marks the stream, and from then on every call
    is refused and writes nothing. *)
Theorem quiet_or_torn :
  (forall o r e o' r', open o r = Done (Err e, o', r') -> is_timeout e = true ->
     o' = o /\ incoming r' = incoming r) /\
  (forall s w p e s' w', seal s w p = (Err e, s', w') ->
     sent w' = sent w /\ faults w' = faults w \/
     s_torn s' = true /\
     forall w2 p2, seal s' w2 p2 = (Err (Handshake PartWritten), s', w2)).
Proof.
  split.
  - intros o r e o' r' H Ht. destruct (open_Err _ _ _ _ _ H) as [-> Hi]. auto.
  - intros s w p e s' w'. unfold seal at 1.
    destruct (seal_sequence s p) as [n|e'] eqn:Es; [|intros [= <- <- <-]; by left].
    destruct (aead_seal _ _ _ p) as [[c t]|]; [|intros [= <- <- <-]; by left].
    destruct (write_all w (frame_of c t)) as [[[]|k] w1].
    + destruct (flush w1) as [[[]|k] w2]; [done|]. intros [= <- <- <-]. right.
      split; [done|]. intros. by apply seal_torn.
    + intros [= <- <- <-]. right. split; [done|]. intros. by apply seal_torn.
Qed.
End Nonces.

(** ** Witnesses *)

(** An AEAD that hides nothing, with a tag of one byte; [log] is what it opens:
    everything, or the plaintexts of a list, each under its number. *)
Definition plain_aead (log : option (list (list byte))) : Aead := {|
  KEY_BYTES := 2; NONCE_BYTES := 8; TAG_BYTES := 1;
  aead_seal key nonce aad p := Some (p, [x2a]);
  aead_open key nonce aad c t :=
    match log with
    | None => Some c
    | Some ps => if bool_decide (ps !! Z.to_nat (from_be aad) = Some c) then Some c else None
    end |}.

Lemma plain_aead_laws : AeadLaws (plain_aead None).
Proof. constructor; simpl; [lia|unfold MAX_RECORD_PLAINTEXT; lia|by intros; simplify_eq..]. Qed.

Definition no_writer : Writer := mkWriter [] [].
Definition no_peer : PeerId := mkPeerId [] [].
Definition test_channel (r : Reader) : Channel :=
  mkChannel r no_writer no_peer [] (Sealer_new [x01; x02] (zeros 8)) (Opener_new [x01; x02] (zeros 8)) [].
Definition test_messages : list (list byte) := [[]; [x41; x42]].
(** What [send] writes for them. *)
Definition test_wire : list byte :=
  [x00; x00; x00; x02; x00; x2a; x00; x00; x00; x04; x00; x41; x42; x2a].
Definition test_reader : Reader :=
  [Bytes (take 3 test_wire); Fails Interrupted; Bytes (drop 3 test_wire)].

Lemma channel_delivers_in_order_witness :
  exists receiver', @recv_all (plain_aead None) 2 (test_channel test_reader)
    = Some (test_messages, receiver') /\
    ch_partial receiver' = [] /\ incoming (ch_reader receiver') = [].
Proof.
  pose (sent := @send_all (plain_aead None) (test_channel []) test_messages).
  apply (@channel_delivers_in_order (plain_aead None) plain_aead_laws test_messages (test_channel [])
           sent.2 (test_channel test_reader) []).
  - vm_compute. reflexivity.
  - split; [reflexivity|]. vm_compute. split; congruence.
  - reflexivity.
  - repeat constructor; vm_compute; congruence.
  - vm_compute. reflexivity.
Defined.

Lemma test_log_protected :
  @only_opens (plain_aead (Some (concat (map records_of test_messages))))
    [x01; x02] (zeros 8) test_messages.
Proof.
  intros n c t p Hn. unfold aead_open, plain_aead. case_bool_decide as H; [|done]. intros [= <-].
  unfold from_be, to_be in H. rewrite rev_involutive, from_to_le in H; [exact H|].
  change (256 ^ Z.of_nat 8) with (2 ^ 64). lia.
Qed.

(** A stream that repeats the first record, stalls, and then goes on. *)
Definition hostile_readers : list Reader :=
  [[Bytes (take 6 test_wire)]; [Bytes (take 6 test_wire)]; [Fails WouldBlock];
   [Bytes (drop 6 test_wire)]].

Lemma channel_receives_a_prefix_witness :
  exists got receiver',
    @recv_series (plain_aead (Some (concat (map records_of test_messages))))
      (test_channel []) hostile_readers = Some (got, receiver') /\
    got `prefix_of` test_messages.
Proof.
  apply (@channel_receives_a_prefix (plain_aead (Some (concat (map records_of test_messages))))
    [x01; x02] (zeros 8) test_messages hostile_readers (test_channel [])).
  - apply test_log_protected.
  - repeat constructor; vm_compute; congruence.
  - vm_compute. congruence.
  - reflexivity.
  - reflexivity.
Defined.

