(* ===== verification/Handshake.v ===== *)
(** * The handshake (crates/qtv-net/src/handshake.rs)

    Both sides of the handshake that sets up a [Channel], with the limits on
    handshakes in flight.  A side runs in a [Net]: the two sides of its stream,
    what the random generator is going to return, and the two counters that all
    the handshakes of the process share.  The signature scheme, the key
    encapsulation and the hash functions are the class [Crypto]: they are the
    qtv-crypto package. *)

From S2P Require Import Prelude Channel.

Class Crypto : Type := {
  PUBLIC_KEY_BYTES : nat;
  SIGNATURE_BYTES : nat;
  ENCAPS_KEY_BYTES : nat;
  CIPHERTEXT_BYTES : nat;
  (** [ml_dsa::keygen(seed)]: public and secret key. *)
  dsa_keygen : list byte -> list byte * list byte;
  (** [ml_dsa::sign(secret, message, context, randomizer)]. *)
  dsa_sign : list byte -> list byte -> list byte -> list byte -> option (list byte);
  (** [ml_dsa::verify(public, message, signature, context)]. *)
  dsa_verify : list byte -> list byte -> list byte -> list byte -> bool;
  (** [ml_kem::keygen(seed, z)]: encapsulation and decapsulation key. *)
  kem_keygen : list byte -> list byte -> list byte * list byte;
  (** [ml_kem::encaps(key, randomness)]: shared secret and ciphertext. *)
  kem_encaps : list byte -> list byte -> option (list byte * list byte);
  (** [ml_kem::decaps(key, ciphertext)]. *)
  kem_decaps : list byte -> list byte -> list byte;
  sha3_256 : list byte -> list byte;
  (** [sha3::shake256(input, out)] for [out] of the given size. *)
  shake256 : list byte -> nat -> list byte }.

Definition INITIATOR_CONTEXT : list byte := ascii "qtv-net initiator".
Definition RESPONDER_CONTEXT : list byte := ascii "qtv-net responder".
Definition INITIATOR_HELLO_CONTEXT : list byte := ascii "qtv-net initiator hello".

Definition MAX_UNPINNED_INFLIGHT : Z := 64.
Definition MAX_KNOWN_SET_INFLIGHT : Z := 128.

Record Net : Type := mkNet {
  reader : Reader;
  writer : Writer;
  random : list (Result IoKind (list byte));
  unpinned_inflight : Z;
  known_set_inflight : Z }.

(** ** Steps over a [Net] *)

Definition Hs (T : Type) : Type := Net -> Result Error T * Net.

Definition hret {T} (x : T) : Hs T := fun n => (Ok x, n).
Definition hfail {T} (e : Error) : Hs T := fun n => (Err e, n).
Definition hbind {T U} (m : Hs T) (k : T -> Hs U) : Hs U := fun n =>
  match m n with
  | (Ok x, n) => k x n
  | (Err e, n) => (Err e, n)
  end.

Notation "'do' x <- m ; k" := (hbind m (fun x => k))
  (at level 100, x pattern, m at level 99, k at level 200, right associativity) : chain_scope.

Definition lift_option {T} (e : Error) (o : option T) : Hs T :=
  match o with Some x => hret x | None => hfail e end.

(** [if test { return Err(e) }]. *)
Definition refuse_if (test : bool) (e : Error) : Hs unit := if test then hfail e else hret tt.

(** [read_exact]: as [fill], but an error is returned as it is. *)
Fixpoint read_exact_loop (r : Reader) (need : nat) (filled : list byte)
    : Result Error (list byte) * Reader :=
  match need with
  | O => (Ok filled, r)
  | S _ =>
      match r with
      | [] => (Err (Io UnexpectedEof), [])
      | Bytes bs :: r =>
          match bs with
          | [] => (Err (Io UnexpectedEof), r)
          | _ =>
              if (need <? length bs)%nat
              then (Ok (filled ++ take need bs), Bytes (drop need bs) :: r)
              else read_exact_loop r (need - length bs) (filled ++ bs)
          end
      | Fails kind :: r =>
          if bool_decide (kind = Interrupted) then read_exact_loop r need filled
          else (Err (Io kind), r)
      end
  end.

Definition read_array (size : nat) : Hs (list byte) := fun n =>
  let '(result, r) := read_exact_loop (reader n) size [] in
  (result, mkNet r (writer n) (random n) (unpinned_inflight n) (known_set_inflight n)).

(** [stream.write_all(bytes)?; stream.flush()?]. *)
Definition send_bytes (bs : list byte) : Hs unit := fun n =>
  let with_writer w := mkNet (reader n) w (random n) (unpinned_inflight n) (known_set_inflight n) in
  match write_all (writer n) bs with
  | (Err e, w) => (Err (Io e), with_writer w)
  | (Ok _, w) =>
      match flush w with
      | (Err e, w) => (Err (Io e), with_writer w)
      | (Ok _, w) => (Ok tt, with_writer w)
      end
  end.

(** [fill_random] for a buffer of [size] bytes; a generator with nothing left
    to give fails. *)
Definition fill_random (size : nat) : Hs (list byte) := fun n =>
  let rest rs := mkNet (reader n) (writer n) rs (unpinned_inflight n) (known_set_inflight n) in
  match random n with
  | Ok bs :: rs => (Ok (resize size x00 bs), rest rs)
  | Err e :: rs => (Err (Io e), rest rs)
  | [] => (Err (Io (OtherKind 0)), n)
  end.

(** ** Identities *)

Record Identity : Type := mkIdentity { id_public : list byte; id_secret : list byte }.

Section Handshakes.
Context `{C : Crypto} `{A : Aead}.

Definition Identity_from_seed (seed : list byte) : Identity :=
  let '(public, secret) := dsa_keygen seed in mkIdentity public secret.

Definition peer_of (public : list byte) : PeerId := PeerId_from_public sha3_256 public.
Definition peer_id (id : Identity) : PeerId := peer_of (id_public id).

Definition sign (id : Identity) (message context : list byte) : Hs (list byte) :=
  do randomizer <- fill_random 32;
  lift_option (Handshake ContextTooLong) (dsa_sign (id_secret id) message context randomizer).

Definition hash (t : Transcript) : list byte := transcript_hash sha3_256 t.

(** The channel over the stream as the handshake leaves it. *)
Definition finish_channel (role : Role) (peer : PeerId) (keys : SessionKeys) : Hs Channel :=
  fun n => (Ok (Channel_new (reader n) (writer n) role peer keys), n).

(** ** The initiator *)

Definition initiate (id : Identity) (expected : option PeerId) : Hs Channel :=
  do challenge <- read_array 32;
  do client_random <- fill_random 32;
  let transcript := absorb (absorb (absorb Transcript_new challenge) (id_public id)) client_random in
  do hello_proof <- sign id (hash transcript) INITIATOR_HELLO_CONTEXT;
  do _ <- send_bytes (id_public id ++ client_random ++ hello_proof);
  do responder_public <- read_array PUBLIC_KEY_BYTES;
  do encaps_key <- read_array ENCAPS_KEY_BYTES;
  do server_random <- read_array 32;
  do responder_signature <- read_array SIGNATURE_BYTES;
  let transcript :=
    absorb (absorb (absorb transcript responder_public) encaps_key) server_random in
  do _ <- refuse_if
    (negb (dsa_verify responder_public (hash transcript) responder_signature RESPONDER_CONTEXT))
    Authentication;
  let peer := peer_of responder_public in
  do _ <- refuse_if
    match expected with Some pin => negb (bool_decide (peer = pin)) | None => false end
    UnexpectedPeer;
  do kem_random <- fill_random 32;
  do encapsulated <-
    lift_option (Handshake BadEncapsulationKey) (kem_encaps encaps_key kem_random);
  let '(shared_secret, ciphertext) := encapsulated in
  let transcript := absorb transcript ciphertext in
  let final_bound := hash transcript in
  do initiator_signature <- sign id final_bound INITIATOR_CONTEXT;
  do _ <- send_bytes (ciphertext ++ initiator_signature);
  finish_channel Initiator peer (derive shake256 shared_secret final_bound).

(** ** The responder *)

Inductive Counter : Type := Unpinned | KnownSet.

Definition cap (c : Counter) : Z :=
  match c with Unpinned => MAX_UNPINNED_INFLIGHT | KnownSet => MAX_KNOWN_SET_INFLIGHT end.

Definition inflight (c : Counter) (n : Net) : Z :=
  match c with Unpinned => unpinned_inflight n | KnownSet => known_set_inflight n end.

(** [counter.fetch_add(d)]: the value before. *)
Definition fetch_add (c : Counter) (d : Z) (n : Net) : Z * Net :=
  (inflight c n,
   match c with
   | Unpinned => mkNet (reader n) (writer n) (random n) (unpinned_inflight n + d) (known_set_inflight n)
   | KnownSet => mkNet (reader n) (writer n) (random n) (unpinned_inflight n) (known_set_inflight n + d)
   end).

(** [InflightGuard::acquire]. *)
Definition acquire (c : Counter) : Hs unit := fun n =>
  let '(before, n) := fetch_add c 1 n in
  if cap c <=? before
  then (Err (Handshake TooManyHandshakes), (fetch_add c (-1) n).2)
  else (Ok tt, n).

(** A guard held around [body] is dropped on every way out of it. *)
Definition guarded {T} (c : Counter) (body : Hs T) : Hs T :=
  do _ <- acquire c;
  fun n => let '(result, n) := body n in (result, (fetch_add c (-1) n).2).

Definition respond_body (id : Identity) (expected : option PeerId) (known : option (list PeerId))
    : Hs Channel :=
  do challenge <- fill_random 32;
  do _ <- send_bytes challenge;
  do initiator_public <- read_array PUBLIC_KEY_BYTES;
  do client_random <- read_array 32;
  do hello_proof <- read_array SIGNATURE_BYTES;
  let peer := peer_of initiator_public in
  do _ <- refuse_if
    match expected with Some pin => negb (bool_decide (peer = pin)) | None => false end
    UnexpectedPeer;
  do _ <- refuse_if
    match known with Some set => negb (bool_decide (peer ∈ set)) | None => false end
    UnexpectedPeer;
  let transcript :=
    absorb (absorb (absorb Transcript_new challenge) initiator_public) client_random in
  do _ <- refuse_if
    (negb (dsa_verify initiator_public (hash transcript) hello_proof INITIATOR_HELLO_CONTEXT))
    Authentication;
  do kem_seed <- fill_random 32;
  do kem_z <- fill_random 32;
  let '(encaps_key, decaps_key) := kem_keygen kem_seed kem_z in
  do server_random <- fill_random 32;
  let transcript :=
    absorb (absorb (absorb transcript (id_public id)) encaps_key) server_random in
  do responder_signature <- sign id (hash transcript) RESPONDER_CONTEXT;
  do _ <- send_bytes (id_public id ++ encaps_key ++ server_random ++ responder_signature);
  do ciphertext <- read_array CIPHERTEXT_BYTES;
  do initiator_signature <- read_array SIGNATURE_BYTES;
  let transcript := absorb transcript ciphertext in
  let final_bound := hash transcript in
  do _ <- refuse_if
    (negb (dsa_verify initiator_public final_bound initiator_signature INITIATOR_CONTEXT))
    Authentication;
  let shared_secret := kem_decaps decaps_key ciphertext in
  finish_channel Responder peer (derive shake256 shared_secret final_bound).

Definition respond_known (id : Identity) (expected : option PeerId) (known : option (list PeerId))
    : Hs Channel :=
  guarded match known with Some _ => KnownSet | None => Unpinned end
    (respond_body id expected known).

Definition respond (id : Identity) (expected : option PeerId) : Hs Channel :=
  respond_known id expected None.

(** ** Entry points *)

Definition connect (id : Identity) : Hs Channel := initiate id None.
Definition connect_pinned (id : Identity) (peer : PeerId) : Hs Channel := initiate id (Some peer).
Definition accept (id : Identity) : Hs Channel := respond id None.
Definition accept_pinned (id : Identity) (peer : PeerId) : Hs Channel := respond id (Some peer).
End Handshakes.
