(* ===== verification/HandshakeSpec.v ===== *)
(** * What the handshake promises

    Two honest sides finish it with each other's identity and with matching
    keys; a side that finishes it has checked what it was told to check; sides
    that see one channel binding were in one conversation; and handshakes in
    flight stay within their limit under every interleaving. *)

From S2P Require Import Prelude Channel ChannelCorrect ChannelSpec Handshake.

(** What the handshake relies on of the algorithms. *)
Class CryptoLaws (C : Crypto) : Prop := {
  keygen_sizes : forall seed, length (dsa_keygen seed).1 = PUBLIC_KEY_BYTES;
  sign_verifies : forall seed message context r,
    (length context <= 255)%nat ->
    exists signature, dsa_sign (dsa_keygen seed).2 message context r = Some signature /\
      length signature = SIGNATURE_BYTES /\
      dsa_verify (dsa_keygen seed).1 message signature context = true;
  kem_sizes : forall seed z, length (kem_keygen seed z).1 = ENCAPS_KEY_BYTES;
  encaps_decaps : forall seed z r,
    exists secret ciphertext,
      kem_encaps (kem_keygen seed z).1 r = Some (secret, ciphertext) /\
      length ciphertext = CIPHERTEXT_BYTES /\
      kem_decaps (kem_keygen seed z).2 ciphertext = secret }.

(** ** Steps *)

Lemma hbind_Ok {T U} (m : Hs T) (k : T -> Hs U) n y n' :
  hbind m k n = (Ok y, n') -> exists x n1, m n = (Ok x, n1) /\ k x n1 = (Ok y, n').
Proof. unfold hbind. destruct (m n) as [[x|e] n1]; [eauto|done]. Qed.

Lemma hbind_run {T U} (m : Hs T) (k : T -> Hs U) n x n1 :
  m n = (Ok x, n1) -> hbind m k n = k x n1.
Proof. unfold hbind. by intros ->. Qed.

Lemma refuse_if_Ok test e n u n' : refuse_if test e n = (Ok u, n') -> test = false /\ n' = n.
Proof. unfold refuse_if. destruct test; intros [=]. done. Qed.

Lemma lift_option_Ok {T} e (o : option T) n x n' : lift_option e o n = (Ok x, n') -> o = Some x /\ n' = n.
Proof. destruct o; intros [=]; by subst. Qed.

Lemma read_exact_loop_length r need filled bs r' :
  read_exact_loop r need filled = (Ok bs, r') -> length bs = (length filled + need)%nat.
Proof.
  revert need filled. induction r as [|[b|k] r IH]; intros need filled; destruct need as [|need];
    cbn [read_exact_loop]; try (intros [= <- _]; lia); try done.
  - destruct b as [|x b]; [done|].
    destruct (Nat.ltb_spec (S need) (length (x :: b))).
    + intros [= <- _]. rewrite length_app, length_cons, length_take. simpl in *. lia.
    + intros E%IH. rewrite E, length_app. lia.
  - case_bool_decide; [|done]. apply IH.
Qed.

Lemma read_array_Ok size n bs n' : read_array size n = (Ok bs, n') -> length bs = size.
Proof.
  unfold read_array. destruct (read_exact_loop (reader n) size []) as [res r] eqn:E.
  intros [= -> _]. by apply read_exact_loop_length in E.
Qed.

Lemma fill_random_Ok size n bs n' : fill_random size n = (Ok bs, n') -> length bs = size.
Proof.
  unfold fill_random. destruct (random n) as [|[b|e] rs]; intros [=]. subst. apply length_resize.
Qed.

(** ** What a finished side has seen *)

Record Session : Type := mkSession {
  challenge : list byte;
  initiator_public : list byte;
  client_random : list byte;
  responder_public : list byte;
  encaps_key : list byte;
  server_random : list byte;
  ciphertext : list byte;
  shared_secret : list byte }.

Definition hello_part (s : Session) : Transcript :=
  absorb (absorb (absorb Transcript_new (challenge s)) (initiator_public s)) (client_random s).
Definition server_part (s : Session) : Transcript :=
  absorb (absorb (absorb (hello_part s) (responder_public s)) (encaps_key s)) (server_random s).
Definition whole (s : Session) : Transcript := absorb (server_part s) (ciphertext s).

Section Sessions.
Context `{C : Crypto} `{A : Aead}.

Definition pinned (expected : option PeerId) (peer : PeerId) : Prop :=
  forall pin, expected = Some pin -> peer = pin.

(** The sizes the array types fix. *)
Definition sized (s : Session) : Prop :=
  length (challenge s) = 32%nat /\ length (initiator_public s) = PUBLIC_KEY_BYTES /\
  length (client_random s) = 32%nat /\ length (responder_public s) = PUBLIC_KEY_BYTES /\
  length (encaps_key s) = ENCAPS_KEY_BYTES /\ length (server_random s) = 32%nat.

Lemma whole_inj s s' :
  sized s -> sized s' -> whole s = whole s' ->
  initiator_public s = initiator_public s' /\ responder_public s = responder_public s' /\
  encaps_key s = encaps_key s' /\ ciphertext s = ciphertext s'.
Proof.
  intros (H1 & H2 & H3 & H4 & H5 & H6) (G1 & G2 & G3 & G4 & G5 & G6).
  unfold whole, server_part, hello_part, absorb, Transcript_new. rewrite <- !app_assoc. intros H.
  apply app_inv_head in H.
  apply app_inj_1 in H as [_ H]; [|congruence]. apply app_inj_1 in H as [? H]; [|congruence].
  apply app_inj_1 in H as [_ H]; [|congruence]. apply app_inj_1 in H as [? H]; [|congruence].
  apply app_inj_1 in H as [? H]; [|congruence]. apply app_inj_1 in H as [_ ?]; [|congruence].
  done.
Qed.

(** What the exporter is taken from. *)
Definition key_input (s : Session) : list byte :=
  KEY_SCHEDULE_LABEL ++ shared_secret s ++ sha3_256 (whole s).

Definition exporter_of (input : list byte) : list byte :=
  drop (2 * KEY_BYTES + 2 * NONCE_BYTES) (shake256 input (2 * KEY_BYTES + 2 * NONCE_BYTES + 32)).

(** An initiator that finished. *)
Definition initiated (id : Identity) (expected : option PeerId) (s : Session) (ch : Channel) : Prop :=
  initiator_public s = id_public id /\
  length (challenge s) = 32%nat /\ length (client_random s) = 32%nat /\
  length (responder_public s) = PUBLIC_KEY_BYTES /\ length (encaps_key s) = ENCAPS_KEY_BYTES /\
  length (server_random s) = 32%nat /\
  ch_peer ch = peer_of (responder_public s) /\ pinned expected (ch_peer ch) /\
  (exists signature,
     dsa_verify (responder_public s) (sha3_256 (server_part s)) signature RESPONDER_CONTEXT = true) /\
  (exists r, kem_encaps (encaps_key s) r = Some (shared_secret s, ciphertext s)) /\
  ch = Channel_new (ch_reader ch) (ch_writer ch) Initiator (ch_peer ch)
         (derive shake256 (shared_secret s) (sha3_256 (whole s))).

(** A responder that finished. *)
Definition responded (id : Identity) (expected : option PeerId) (known : option (list PeerId))
    (s : Session) (ch : Channel) : Prop :=
  responder_public s = id_public id /\
  length (challenge s) = 32%nat /\ length (client_random s) = 32%nat /\
  length (initiator_public s) = PUBLIC_KEY_BYTES /\ length (server_random s) = 32%nat /\
  ch_peer ch = peer_of (initiator_public s) /\ pinned expected (ch_peer ch) /\
  (forall set, known = Some set -> ch_peer ch ∈ set) /\
  (exists proof, dsa_verify (initiator_public s) (sha3_256 (hello_part s)) proof
                   INITIATOR_HELLO_CONTEXT = true) /\
  (exists signature, dsa_verify (initiator_public s) (sha3_256 (whole s)) signature
                       INITIATOR_CONTEXT = true) /\
  (exists seed z, encaps_key s = (kem_keygen seed z).1 /\
     shared_secret s = kem_decaps (kem_keygen seed z).2 (ciphertext s)) /\
  ch = Channel_new (ch_reader ch) (ch_writer ch) Responder (ch_peer ch)
         (derive shake256 (shared_secret s) (sha3_256 (whole s))).

Lemma pinned_check expected (peer : PeerId) :
  match expected with Some pin => negb (bool_decide (peer = pin)) | None => false end = false ->
  pinned expected peer.
Proof.
  intros H pin ->. apply negb_false_iff in H. by apply bool_decide_eq_true in H.
Qed.

(** One step of a successful run, its result named. *)
Tactic Notation "step" hyp(H) "as" ident(x) ident(E) :=
  let n := fresh "n" in apply hbind_Ok in H as (x & n & E & H).

Lemma sign_Ok id message context n signature n' :
  sign id message context n = (Ok signature, n') ->
  exists r, dsa_sign (id_secret id) message context r = Some signature.
Proof. unfold sign. intros H. step H as r E. apply lift_option_Ok in H as [H _]. eauto. Qed.

Lemma initiate_Ok id expected n ch n' :
  initiate id expected n = (Ok ch, n') -> exists s, initiated id expected s ch.
Proof.
  unfold initiate. intros H.
  step H as c Ec. step H as cr Ecr. step H as proof Eproof. step H as u1 E1.
  step H as rp Erp. step H as ek Eek. step H as sr Esr. step H as sig Esig.
  step H as u2 Everify. step H as u3 Epin. step H as kr Ekr. step H as enc Eenc.
  destruct enc as [ss ct]. step H as isig Eisig. step H as u4 E4.
  unfold finish_channel in H. injection H as <- _.
  apply read_array_Ok in Ec, Erp, Eek, Esr. apply fill_random_Ok in Ecr.
  apply refuse_if_Ok in Everify as [Everify _], Epin as [Epin _].
  apply lift_option_Ok in Eenc as [Eenc _]. apply negb_false_iff in Everify.
  exists (mkSession c (id_public id) cr rp ek sr ct ss).
  do 7 (split; [done|]). split; [by apply pinned_check|].
  split; [by exists sig|]. split; [by exists kr|]. done.
Qed.

Lemma guarded_Ok {T} c (body : Hs T) n x n' :
  guarded c body n = (Ok x, n') -> exists n1 n2, body n1 = (Ok x, n2).
Proof.
  unfold guarded. intros H. step H as u E. destruct (body n0) as [res n2] eqn:Eb.
  injection H as -> _. eauto.
Qed.

Lemma respond_Ok id expected known n ch n' :
  respond_known id expected known n = (Ok ch, n') -> exists s, responded id expected known s ch.
Proof.
  intros (n1 & n2 & H)%guarded_Ok. unfold respond_body in H.
  step H as c Ec. step H as u1 E1. step H as ip Eip. step H as cr Ecr. step H as proof Eproof.
  step H as u2 Epin. step H as u3 Eknown. step H as u4 Ehello. step H as seed Eseed.
  step H as z Ez. destruct (kem_keygen seed z) as [ek dk] eqn:Ekem.
  step H as sr Esr. step H as sig Esig. step H as u5 E5. step H as ct Ect. step H as isig Eisig.
  step H as u6 Efinal. unfold finish_channel in H. injection H as <- _.
  apply read_array_Ok in Eip, Ecr. apply fill_random_Ok in Ec, Esr.
  apply refuse_if_Ok in Epin as [Epin _], Eknown as [Eknown _], Ehello as [Ehello _],
    Efinal as [Efinal _]. apply negb_false_iff in Ehello, Efinal.
  exists (mkSession c ip cr (id_public id) ek sr ct (kem_decaps dk ct)).
  do 6 (split; [done|]). split; [by apply pinned_check|]. split.
  { intros set ->. apply negb_false_iff in Eknown. by apply bool_decide_eq_true in Eknown. }
  split; [by exists proof|]. split; [by exists isig|]. split; [|done].
  exists seed, z. by rewrite Ekem.
Qed.


(** ** One conversation *)

Definition direction (key iv : list byte) : Sealer * Opener := (Sealer_new key iv, Opener_new key iv).

(** What one end seals the other opens, in both directions. *)
Definition keys_match (a b : Channel) : Prop :=
  (exists key iv, direction key iv = (ch_sealer a, ch_opener b)) /\
  (exists key iv, direction key iv = (ch_sealer b, ch_opener a)).

Lemma new_keys_match ra wa pa rb wb pb keys :
  keys_match (Channel_new ra wa Initiator pa keys) (Channel_new rb wb Responder pb keys).
Proof. split; eexists _, _; reflexivity. Qed.

Lemma binding_new r w role peer s :
  ch_binding (Channel_new r w role peer (derive shake256 (shared_secret s) (sha3_256 (whole s))))
  = exporter_of (key_input s).
Proof. by destruct role. Qed.

(** C19: Two ends with one channel binding were in one conversation.  When an
    initiator and a responder have finished, on any streams, and their channel
    bindings are equal, then each has the other as its peer and each opens what
    the other seals; provided the hash functions tell the two exchanges apart if
    they differ. *)
Theorem binding_means_one_conversation idI expI nI chI nI' idR expR known nR chR nR' :
  length (id_public idI) = PUBLIC_KEY_BYTES -> length (id_public idR) = PUBLIC_KEY_BYTES ->
  (forall seed z, length (kem_keygen seed z).1 = ENCAPS_KEY_BYTES) ->
  initiate idI expI nI = (Ok chI, nI') -> respond_known idR expR known nR = (Ok chR, nR') ->
  exists sI sR, initiated idI expI sI chI /\ responded idR expR known sR chR /\
    (length (shared_secret sI) = length (shared_secret sR) ->
     separates exporter_of [key_input sI] [key_input sR] ->
     separates sha3_256 [whole sI] [whole sR] ->
     ch_binding chI = ch_binding chR ->
     ch_peer chI = peer_id idR /\ ch_peer chR = peer_id idI /\ keys_match chI chR).
Proof.
  intros HlI HlR Hkem HI HR. destruct (initiate_Ok _ _ _ _ _ HI) as [sI HsI].
  destruct (respond_Ok _ _ _ _ _ _ HR) as [sR HsR]. exists sI, sR. split; [done|]. split; [done|].
  intros Hss Hexp Hsha Hb.
  destruct HsI as (EI & I1 & I2 & I3 & I4 & I5 & PI & _ & _ & _ & CI).
  destruct HsR as (ER & R1 & R2 & R3 & R4 & PR & _ & _ & _ & _ & (seed & z & Eek & _) & CR).
  rewrite CI, CR, !binding_new in Hb.
  apply Hexp in Hb; [|by apply list_elem_of_singleton..].
  unfold key_input in Hb. apply app_inv_head in Hb. apply app_inj_1 in Hb as [Es Eh]; [|done].
  apply Hsha in Eh; [|by apply list_elem_of_singleton..].
  destruct (whole_inj sI sR) as (E1 & E2 & _ & _); [| |done|].
  { unfold sized. by rewrite EI. }
  { unfold sized. rewrite ER, Eek. auto 10. }
  unfold peer_id. rewrite PI, PR, E2, <- E1, ER, EI. split; [done|]. split; [done|].
  rewrite CI, CR, Es, Eh. apply new_keys_match.
Qed.

(** ** A run between honest sides *)

(** On a stream that does not fail [read_exact] is [fill]. *)
Lemma read_exact_fill r need filled mid :
  smooth r -> read_exact_loop r need filled = fill_loop r need filled mid.
Proof.
  intros Hr. revert need filled. induction Hr as [|ev r Hev Hr IH]; intros [|need] filled; try done.
  cbn [read_exact_loop fill_loop]. destruct ev as [bs|k]; [by rewrite IH|].
  rewrite (bool_decide_eq_true_2 _ Hev). apply IH.
Qed.

Lemma read_run r w rs u k bs rest :
  smooth r -> incoming r = bs ++ rest ->
  exists r', read_array (length bs) (mkNet r w rs u k) = (Ok bs, mkNet r' w rs u k) /\
    smooth r' /\ incoming r' = rest.
Proof.
  intros Hr Hi. destruct (fill_loop_smooth r (length bs) [] true Hr) as (r' & E & Hs & Hi').
  { rewrite Hi, length_app. lia. }
  exists r'. unfold read_array. cbn [reader].
  rewrite (read_exact_fill _ _ _ true Hr), E, Hi', Hi, drop_app_length. simpl.
  by rewrite take_app_length.
Qed.

Lemma send_run r out rs u k bs :
  send_bytes bs (mkNet r (mkWriter out []) rs u k)
  = (Ok tt, mkNet r (mkWriter (out ++ bs) []) rs u k).
Proof. done. Qed.

Lemma sign_run id m context b signature r w rs u k :
  dsa_sign (id_secret id) m context (resize 32 x00 b) = Some signature ->
  sign id m context (mkNet r w (Ok b :: rs) u k) = (Ok signature, mkNet r w rs u k).
Proof. intros E. unfold sign, hbind, fill_random. simpl. by rewrite E. Qed.

Lemma refuse_not e n : refuse_if false e n = (Ok tt, n).
Proof. done. Qed.

Lemma lift_some {T} e (x : T) n : lift_option e (Some x) n = (Ok x, n).
Proof. done. Qed.

(** Take one step whose result is known. *)
Ltac go_read :=
  match goal with
  | Hs : smooth ?r, Hi : incoming ?r = ?bs ++ _ |- context [hbind (read_array ?size) _ (mkNet ?r ?w ?rs ?u ?k)] =>
      let r' := fresh "r" in let E := fresh "E" in let Hs' := fresh "Hs" in let Hi' := fresh "Hi" in
      destruct (read_run r w rs u k bs _ Hs Hi) as (r' & E & Hs' & Hi');
      replace (length bs) with size in E by congruence;
      rewrite (hbind_run _ _ _ _ _ E); clear E Hs Hi
  end.
Ltac go_random :=
  match goal with
  | |- context [hbind (fill_random 32) _ (mkNet ?r ?w (Ok ?b :: ?rs) ?u ?k)] =>
      rewrite (hbind_run (fill_random 32) _ (mkNet r w (Ok b :: rs) u k) (resize 32 x00 b)
                 (mkNet r w rs u k)) by reflexivity
  end.
Ltac go_send := rewrite (hbind_run (send_bytes _) _ _ tt _ (send_run _ _ _ _ _ _)).
Ltac go_check := rewrite (hbind_run (refuse_if false _) _ _ tt _ (refuse_not _ _)).

Definition pin_allows (expected : option PeerId) (peer : PeerId) : Prop :=
  match expected with Some pin => pin = peer | None => True end.

Lemma pin_allows_check expected peer :
  pin_allows expected peer ->
  match expected with Some pin => negb (bool_decide (peer = pin)) | None => false end = false.
Proof. destruct expected; simpl; [|done]. intros ->. by rewrite bool_decide_eq_true_2. Qed.

Lemma initiate_runs id expected s proof rsig isig r1 r2 r3 r4 r u k rest :
  initiator_public s = id_public id -> client_random s = resize 32 x00 r1 ->
  sized s -> length rsig = SIGNATURE_BYTES ->
  dsa_sign (id_secret id) (sha3_256 (hello_part s)) INITIATOR_HELLO_CONTEXT (resize 32 x00 r2)
    = Some proof ->
  dsa_verify (responder_public s) (sha3_256 (server_part s)) rsig RESPONDER_CONTEXT = true ->
  pin_allows expected (peer_of (responder_public s)) ->
  kem_encaps (encaps_key s) (resize 32 x00 r3) = Some (shared_secret s, ciphertext s) ->
  dsa_sign (id_secret id) (sha3_256 (whole s)) INITIATOR_CONTEXT (resize 32 x00 r4) = Some isig ->
  smooth r ->
  incoming r = challenge s ++ responder_public s ++ encaps_key s ++ server_random s ++ rsig ++ rest ->
  exists r', let w := mkWriter ((initiator_public s ++ client_random s ++ proof)
                                ++ (ciphertext s ++ isig)) [] in
    initiate id expected (mkNet r (mkWriter [] []) [Ok r1; Ok r2; Ok r3; Ok r4] u k)
    = (Ok (Channel_new r' w Initiator (peer_of (responder_public s))
             (derive shake256 (shared_secret s) (sha3_256 (whole s)))), mkNet r' w [] u k) /\
    smooth r' /\ incoming r' = rest.
Proof.
  intros Eip Ecr (L1 & L2 & L3 & L4 & L5 & L6) Lsig Hproof Hver Hpin Hkem Hisig Hs Hi.
  unfold initiate, hash, transcript_hash. go_read. go_random. rewrite <- Eip, <- Ecr.
  rewrite (hbind_run (sign _ _ _) _ _ proof _ (sign_run _ _ _ _ _ _ _ _ _ _ Hproof)).
  go_send. do 4 go_read.
  unfold server_part, hello_part in Hver. rewrite Hver.
  cbn [negb]. go_check.
  rewrite (pin_allows_check _ _ Hpin). go_check. go_random.
  rewrite Hkem. rewrite (hbind_run (lift_option _ _) _ _ _ _ (lift_some _ _ _)). cbv iota beta.
  rewrite (hbind_run (sign _ _ _) _ _ isig _ (sign_run _ _ _ _ _ _ _ _ _ _ Hisig)).
  go_send. eexists. split; [reflexivity|]. done.
Qed.

Definition knows (known : option (list PeerId)) (peer : PeerId) : Prop :=
  match known with Some set => peer ∈ set | None => True end.

Definition counter_of (known : option (list PeerId)) : Counter :=
  match known with Some _ => KnownSet | None => Unpinned end.

Lemma guarded_run {T} c (body : Hs T) r w rs u k x n :
  inflight c (mkNet r w rs u k) < cap c ->
  body (fetch_add c 1 (mkNet r w rs u k)).2 = (Ok x, n) ->
  guarded c body (mkNet r w rs u k) = (Ok x, (fetch_add c (-1) n).2).
Proof.
  intros Hc Hb. unfold guarded, hbind, acquire.
  destruct (fetch_add c 1 (mkNet r w rs u k)) as [before n1] eqn:E.
  assert (before = inflight c (mkNet r w rs u k)) as -> by (injection E as <- _; done).
  rewrite (proj2 (Z.leb_gt _ _)) by done. simpl in Hb. by rewrite Hb.
Qed.

Lemma respond_body_runs id expected known s seed z proof rsig isig q1 q4 q5 r u k rest :
  responder_public s = id_public id -> challenge s = resize 32 x00 q1 ->
  server_random s = resize 32 x00 q4 -> encaps_key s = (kem_keygen (resize 32 x00 seed) (resize 32 x00 z)).1 ->
  shared_secret s = kem_decaps (kem_keygen (resize 32 x00 seed) (resize 32 x00 z)).2 (ciphertext s) ->
  sized s -> length (ciphertext s) = CIPHERTEXT_BYTES ->
  length proof = SIGNATURE_BYTES -> length isig = SIGNATURE_BYTES ->
  dsa_verify (initiator_public s) (sha3_256 (hello_part s)) proof INITIATOR_HELLO_CONTEXT = true ->
  dsa_sign (id_secret id) (sha3_256 (server_part s)) RESPONDER_CONTEXT (resize 32 x00 q5) = Some rsig ->
  dsa_verify (initiator_public s) (sha3_256 (whole s)) isig INITIATOR_CONTEXT = true ->
  pin_allows expected (peer_of (initiator_public s)) ->
  knows known (peer_of (initiator_public s)) ->
  smooth r ->
  incoming r = initiator_public s ++ client_random s ++ proof ++ ciphertext s ++ isig ++ rest ->
  exists r', let w := mkWriter (challenge s
                 ++ (responder_public s ++ encaps_key s ++ server_random s ++ rsig)) [] in
    respond_body id expected known
      (mkNet r (mkWriter [] []) [Ok q1; Ok seed; Ok z; Ok q4; Ok q5] u k)
    = (Ok (Channel_new r' w Responder (peer_of (initiator_public s))
             (derive shake256 (shared_secret s) (sha3_256 (whole s)))), mkNet r' w [] u k) /\
    smooth r' /\ incoming r' = rest.
Proof.
  intros Erp Ec Esr Eek Ess (L1 & L2 & L3 & L4 & L5 & L6) Lct Lproof Lisig Hproof Hrsig Hisig
    Hpin Hknown Hs Hi.
  unfold respond_body, hash, transcript_hash. go_random. rewrite <- Ec. go_send. do 3 go_read.
  rewrite (pin_allows_check _ _ Hpin). go_check.
  assert (match known with
          | Some set => negb (bool_decide (peer_of (initiator_public s) ∈ set))
          | None => false end = false) as ->.
  { destruct known; [|done]. simpl in Hknown. by rewrite bool_decide_eq_true_2. }
  go_check. unfold hello_part in Hproof. rewrite Hproof. cbn [negb]. go_check. do 2 go_random.
  destruct (kem_keygen (resize 32 x00 seed) (resize 32 x00 z)) as [ek dk]. cbn [fst snd] in Eek, Ess.
  go_random. rewrite <- Esr, <- Eek, <- Erp.
  rewrite (hbind_run (sign _ _ _) _ _ rsig _ (sign_run _ _ _ _ _ _ _ _ _ _ Hrsig)).
  go_send. do 2 go_read. unfold whole, server_part, hello_part in Hisig. rewrite Hisig.
  cbn [negb]. go_check. rewrite <- Ess. eexists. split; [reflexivity|]. done.
Qed.

Context {L : CryptoLaws C}.

Lemma Identity_parts seed :
  Identity_from_seed seed = mkIdentity (dsa_keygen seed).1 (dsa_keygen seed).2.
Proof using. unfold Identity_from_seed. by destruct (dsa_keygen seed). Qed.

(** C28: Two honest sides finish the handshake with each other.  Whatever the
    random draws and however the streams cut the bytes up, there are two byte
    strings such that an initiator that reads the one writes the other and a
    responder the other way round, and both finish: each has the other's identity
    as its peer, the channel bindings are equal, each opens what the other seals,
    with nothing of the stream taken past the handshake, and the responder's
    place among the handshakes in flight is free again. *)
Theorem honest_handshake_agrees seedI seedR expI expR known r1 r2 r3 r4 q1 seed z q4 q5 u k uI kI :
  let idI := Identity_from_seed seedI in let idR := Identity_from_seed seedR in
  pin_allows expI (peer_id idR) -> pin_allows expR (peer_id idI) -> knows known (peer_id idI) ->
  inflight (counter_of known) (mkNet [] (mkWriter [] []) [] u k) < cap (counter_of known) ->
  exists toI toR, forall rI rR restI restR,
    smooth rI -> incoming rI = toI ++ restI -> smooth rR -> incoming rR = toR ++ restR ->
    exists chI chR nI nR,
      initiate idI expI (mkNet rI (mkWriter [] []) [Ok r1; Ok r2; Ok r3; Ok r4] uI kI) = (Ok chI, nI) /\
      respond_known idR expR known
        (mkNet rR (mkWriter [] []) [Ok q1; Ok seed; Ok z; Ok q4; Ok q5] u k) = (Ok chR, nR) /\
      sent (ch_writer chI) = toR /\ sent (ch_writer chR) = toI /\
      ch_peer chI = peer_id idR /\ ch_peer chR = peer_id idI /\
      ch_binding chI = ch_binding chR /\ keys_match chI chR /\
      (smooth (ch_reader chI) /\ incoming (ch_reader chI) = restI) /\
      (smooth (ch_reader chR) /\ incoming (ch_reader chR) = restR) /\
      unpinned_inflight nR = u /\ known_set_inflight nR = k.
Proof.
  intros idI idR HpI HpR Hkn Hcap.
  pose (gen := kem_keygen (resize 32 x00 seed) (resize 32 x00 z)).
  destruct (encaps_decaps (resize 32 x00 seed) (resize 32 x00 z) (resize 32 x00 r3))
    as (ss & ct & Henc & Lct & Hdec).
  set (s := mkSession (resize 32 x00 q1) (id_public idI) (resize 32 x00 r1) (id_public idR)
              gen.1 (resize 32 x00 q4) ct ss).
  assert (sized s) as Hsized.
  { unfold sized, s, idI, idR. simpl. rewrite !Identity_parts, !length_resize. simpl.
    rewrite !keygen_sizes. unfold gen. by rewrite kem_sizes. }
  destruct (sign_verifies seedI (sha3_256 (hello_part s)) INITIATOR_HELLO_CONTEXT (resize 32 x00 r2))
    as (proof & Hproof & Lproof & Vproof); [vm_compute; lia|].
  destruct (sign_verifies seedR (sha3_256 (server_part s)) RESPONDER_CONTEXT (resize 32 x00 q5))
    as (rsig & Hrsig & Lrsig & Vrsig); [vm_compute; lia|].
  destruct (sign_verifies seedI (sha3_256 (whole s)) INITIATOR_CONTEXT (resize 32 x00 r4))
    as (isig & Hisig & Lisig & Visig); [vm_compute; lia|].
  assert (id_secret idI = (dsa_keygen seedI).2 /\ id_public idI = (dsa_keygen seedI).1) as [EsI EpI]
    by (unfold idI; by rewrite Identity_parts).
  assert (id_secret idR = (dsa_keygen seedR).2 /\ id_public idR = (dsa_keygen seedR).1) as [EsR EpR]
    by (unfold idR; by rewrite Identity_parts).
  rewrite <- EsI in Hproof, Hisig. rewrite <- EsR in Hrsig. rewrite <- EpI in Vproof, Visig.
  rewrite <- EpR in Vrsig.
  exists (challenge s ++ (responder_public s ++ encaps_key s ++ server_random s ++ rsig)),
    ((initiator_public s ++ client_random s ++ proof) ++ (ciphertext s ++ isig)).
  intros rI rR restI restR HsI HiI HsR HiR. rewrite <- !app_assoc in HiI, HiR.
  destruct (initiate_runs idI expI s proof rsig isig r1 r2 r3 r4 rI uI kI restI)
    as (rI' & EI & HrI); try done.
  destruct (fetch_add (counter_of known) 1
    (mkNet rR (mkWriter [] []) [Ok q1; Ok seed; Ok z; Ok q4; Ok q5] u k)) as [before n1] eqn:Ef.
  destruct (respond_body_runs idR expR known s seed z proof rsig isig q1 q4 q5 rR
    (unpinned_inflight n1) (known_set_inflight n1) restR) as (rR' & ER & HrR); try done.
  cbv zeta in ER.
  replace (mkNet rR (mkWriter [] []) [Ok q1; Ok seed; Ok z; Ok q4; Ok q5]
    (unpinned_inflight n1) (known_set_inflight n1)) with n1 in ER
    by (injection Ef as _ <-; by destruct known).
  do 4 eexists. split; [exact EI|]. split.
  - apply guarded_run; [by destruct known|]. fold (counter_of known). rewrite Ef. exact ER.
  - injection Ef as _ <-. destruct known; (do 5 (split; [done|])); (split; [apply new_keys_match|]);
      (split; [done|]); (split; [done|]); simpl; lia.
Qed.
End Sessions.

(** ** Handshakes in flight *)

(** Where a thread is with its guard: outside, past the [fetch_add] that found
    the counter at its cap, or holding. *)
Inductive GuardPhase : Type := Outside | Backing | Holding.

Record GuardState : Type := mkGuardState { counter : Z; phases : list GuardPhase }.

(** The atomic steps of [InflightGuard::acquire] and of its [drop], by any
    thread at any time. *)
Inductive guard_step (c : Counter) (st : GuardState) : GuardState -> Prop :=
| guard_add i :
    phases st !! i = Some Outside ->
    guard_step c st (mkGuardState (counter st + 1)
      (<[i := if cap c <=? counter st then Backing else Holding]> (phases st)))
| guard_back i :
    phases st !! i = Some Backing ->
    guard_step c st (mkGuardState (counter st - 1) (<[i := Outside]> (phases st)))
| guard_drop i :
    phases st !! i = Some Holding ->
    guard_step c st (mkGuardState (counter st - 1) (<[i := Outside]> (phases st))).

Definition backing (ph : GuardPhase) : Z := match ph with Backing => 1 | _ => 0 end.
Definition holding (ph : GuardPhase) : Z := match ph with Holding => 1 | _ => 0 end.
Definition total (f : GuardPhase -> Z) (l : list GuardPhase) : Z := foldr (fun x a => f x + a) 0 l.

Lemma total_insert f l i x y :
  l !! i = Some x -> total f (<[i := y]> l) = total f l - f x + f y.
Proof.
  unfold total. revert i. induction l as [|z l IH]; intros [|i] H; simplify_eq/=; [lia|].
  rewrite (IH i H). lia.
Qed.

Lemma total_nonneg f l : (forall x, 0 <= f x) -> 0 <= total f l.
Proof.
  intros H. unfold total. induction l as [|x l IH]; simpl; [lia|]. specialize (H x). lia.
Qed.

Definition guard_inv (c : Counter) (st : GuardState) : Prop :=
  counter st = total holding (phases st) + total backing (phases st) /\
  total holding (phases st) <= cap c.

Lemma guard_step_inv c st st' : guard_inv c st -> guard_step c st st' -> guard_inv c st'.
Proof.
  intros [Hc Hh] Hstep. unfold guard_inv.
  pose proof (total_nonneg backing (phases st) ltac:(by intros [])) as Hb.
  destruct Hstep as [i Hi|i Hi|i Hi]; simpl;
    rewrite (total_insert holding _ _ _ _ Hi), (total_insert backing _ _ _ _ Hi); simpl; try lia.
  destruct (Z.leb_spec (cap c) (counter st)); simpl; lia.
Qed.

(** Handshakes in flight stay within their limit.  Under every interleaving
    of threads that acquire and drop guards, at most [cap] of them hold one, the
    counter is the number of threads between their two steps, so it returns to
    zero when they are done; and a call of [acquire] on its own takes a place
    below the cap or leaves the counter as it was. *)
Theorem inflight_within_cap c threads st :
  rtc (guard_step c) (mkGuardState 0 (replicate threads Outside)) st ->
  (total holding (phases st) <= cap c /\
   counter st = total holding (phases st) + total backing (phases st)) /\
  (forall n, match acquire c n with
             | (Ok _, n') => inflight c n < cap c /\ inflight c n' = inflight c n + 1
             | (Err e, n') =>
                 cap c <= inflight c n /\ n' = n /\ e = Handshake TooManyHandshakes
             end).
Proof.
  intros Hr. split.
  - assert (guard_inv c (mkGuardState 0 (replicate threads Outside))) as H0.
    { unfold guard_inv. simpl.
      assert (forall f, f Outside = 0 -> total f (replicate threads Outside) = 0) as Ht.
      { intros f Hf. clear -Hf. unfold total. induction threads as [|m IH]; simpl; [done|].
        by rewrite Hf, IH. }
      rewrite !Ht by done. destruct c; simpl; unfold MAX_UNPINNED_INFLIGHT, MAX_KNOWN_SET_INFLIGHT; lia. }
    assert (guard_inv c st) as [H1 H2]; [|done].
    revert H0. induction Hr as [|x y z Hxy _ IH]; [done|]. intros Hx.
    apply IH. by eapply guard_step_inv.
  - intros [r w rs u k]. unfold acquire, fetch_add. destruct c; simpl.
    + destruct (Z.leb_spec MAX_UNPINNED_INFLIGHT u); simpl; [|lia].
      split; [done|]. split; [f_equal; lia|done].
    + destruct (Z.leb_spec MAX_KNOWN_SET_INFLIGHT k); simpl; [|lia].
      split; [done|]. split; [f_equal; lia|done].
Qed.

Lemma inflight_within_cap_witness :
  total holding [Holding; Outside] <= cap Unpinned /\
  1 = total holding [Holding; Outside] + total backing [Holding; Outside].
Proof.
  apply (inflight_within_cap Unpinned 2 (mkGuardState 1 [Holding; Outside])).
  apply rtc_once. by apply (guard_add Unpinned (mkGuardState 0 [Outside; Outside]) 0).
Defined.

(** ** Witnesses *)

(** Algorithms with the laws asked for and no security. *)
Definition plain_crypto : Crypto := {|
  PUBLIC_KEY_BYTES := 2; SIGNATURE_BYTES := 1; ENCAPS_KEY_BYTES := 1; CIPHERTEXT_BYTES := 1;
  dsa_keygen seed := (resize 2 x00 seed, seed);
  dsa_sign secret message context r := Some [x2a];
  dsa_verify public message signature context := bool_decide (signature = [x2a]);
  kem_keygen seed z := ([x07], [x08]);
  kem_encaps key r := Some ([x09], [x0a]);
  kem_decaps key ciphertext := [x09];
  sha3_256 x := x;
  shake256 input n := replicate n x00 ++ input |}.

Lemma plain_crypto_laws : CryptoLaws plain_crypto.
Proof. constructor; simpl; intros; [apply length_resize|eauto|done|eauto]. Qed.

Definition draw : Result IoKind (list byte) := Ok [x01].

Lemma honest_handshake_agrees_witness :
  exists toI toR, forall rI rR restI restR,
    smooth rI -> incoming rI = toI ++ restI -> smooth rR -> incoming rR = toR ++ restR ->
    exists chI chR nI nR,
      @initiate plain_crypto (plain_aead None) (mkIdentity [x0b; x00] [x0b]) None
        (mkNet rI (mkWriter [] []) [draw; draw; draw; draw] 0 0) = (Ok chI, nI) /\
      @respond_known plain_crypto (plain_aead None) (mkIdentity [x16; x00] [x16]) None None
        (mkNet rR (mkWriter [] []) [draw; draw; draw; draw; draw] 63 0) = (Ok chR, nR) /\
      sent (ch_writer chI) = toR /\ sent (ch_writer chR) = toI /\
      ch_peer chI = mkPeerId [x16; x00] [x16; x00] /\ ch_peer chR = mkPeerId [x0b; x00] [x0b; x00] /\
      ch_binding chI = ch_binding chR /\ keys_match chI chR /\
      (smooth (ch_reader chI) /\ incoming (ch_reader chI) = restI) /\
      (smooth (ch_reader chR) /\ incoming (ch_reader chR) = restR) /\
      unpinned_inflight nR = 63 /\ known_set_inflight nR = 0.
Proof.
  apply (@honest_handshake_agrees plain_crypto (plain_aead None) plain_crypto_laws [x0b] [x16]
    None None None [x01] [x01] [x01] [x01] [x01] [x01] [x01] [x01] [x01] 63 0 0 0);
    [exact I|exact I|exact I|reflexivity].
Defined.

(** A run of both sides: what each reads and how it ends. *)
Definition pad (b : byte) : list byte := resize 32 x00 [b].
Definition to_initiator : list byte :=
  pad x01 ++ [x16; x00] ++ [x07] ++ pad x01 ++ [x2a].
Definition to_responder : list byte := [x0b; x00] ++ pad x01 ++ [x2a] ++ [x0a] ++ [x2a].
Definition test_initiated : Result Error Channel * Net :=
  @initiate plain_crypto (plain_aead None) (mkIdentity [x0b; x00] [x0b]) None
    (mkNet [Bytes to_initiator] (mkWriter [] []) [draw; draw; draw; draw] 0 0).
Definition test_responded : Result Error Channel * Net :=
  @respond_known plain_crypto (plain_aead None) (mkIdentity [x16; x00] [x16]) None None
    (mkNet [Bytes to_responder] (mkWriter [] []) [draw; draw; draw; draw; draw] 0 0).
Definition ended (run : Result Error Channel * Net) : Channel :=
  match run.1 with Ok ch => ch | Err _ => test_channel [] end.

Lemma binding_means_one_conversation_witness :
  let chI := ended test_initiated in let chR := ended test_responded in
  exists sI sR, @initiated plain_crypto (plain_aead None) (mkIdentity [x0b; x00] [x0b]) None sI chI /\
    @responded plain_crypto (plain_aead None) (mkIdentity [x16; x00] [x16]) None None sR chR /\
    (length (shared_secret sI) = length (shared_secret sR) ->
     separates (@exporter_of plain_crypto (plain_aead None)) [@key_input plain_crypto sI]
       [@key_input plain_crypto sR] ->
     separates (@sha3_256 plain_crypto) [whole sI] [whole sR] ->
     ch_binding chI = ch_binding chR ->
     ch_peer chI = mkPeerId [x16; x00] [x16; x00] /\ ch_peer chR = mkPeerId [x0b; x00] [x0b; x00] /\
     keys_match chI chR).
Proof.
  apply (@binding_means_one_conversation plain_crypto (plain_aead None)
    (mkIdentity [x0b; x00] [x0b]) None
    (mkNet [Bytes to_initiator] (mkWriter [] []) [draw; draw; draw; draw] 0 0)
    (ended test_initiated) test_initiated.2
    (mkIdentity [x16; x00] [x16]) None None
    (mkNet [Bytes to_responder] (mkWriter [] []) [draw; draw; draw; draw; draw] 0 0)
    (ended test_responded) test_responded.2);
    [reflexivity|reflexivity|reflexivity|vm_compute; reflexivity|vm_compute; reflexivity].
Defined.
