(* ===== verification/StoreLog.v ===== *)
(** * Opening a log with a visitor (crates/qtv-store/src/log.rs, [scan_open_parts])

    What the stores over the log rely on: a visitor that accepts the records of
    a log sees all of them in order, each with its place in the file, also when
    the file ends in a torn frame. *)

From S2P Require Import Prelude Codec Crc Log.

(** The length of a run of frames does not depend on the salt. *)
Lemma length_frames_salt s s' ps : length (frames_image s ps) = length (frames_image s' ps).
Proof.
  induction ps as [|p ps IH]; [done|]. unfold frames_image in *. cbn [map concat].
  by rewrite !length_app, IH, !length_frame.
Qed.

#[local] Opaque HEADER_LEN.

Lemma length_log_image s ps :
  length s = SALT_LEN -> length (log_image s ps) = (HEADER_LEN + length (frames_image s ps))%nat.
Proof.
  intros Hs. rewrite <- (length_header s Hs). unfold log_image.
  cbn [frames_image map concat]. rewrite !length_app. cbn [length]. lia.
Qed.

(** The records that are whole are a prefix of those that were written. *)
Lemma complete_map {R} (enc : R -> list byte) k ps :
  exists n, complete k (map enc ps) = map enc (take n ps).
Proof.
  destruct (complete_prefix k (map enc ps)) as [t Ht].
  exists (length (complete k (map enc ps))). rewrite <- firstn_map.
  assert (forall c l : list (list byte), l = c ++ t -> c = take (length c) l) as H.
  { intros c l ->. by rewrite take_app_length. }
  by apply H.
Qed.

Lemma follows_loop_err fuel salt file at_ probed total budget e :
  follows_loop fuel salt file at_ probed total budget = Err e -> e = CorruptMiddle.
Proof.
  revert at_ probed budget. induction fuel as [|fuel IH]; intros at_ probed budget H; [done|].
  cbn [follows_loop] in H. case_in H; [done|]. case_in H; [by injection H as <-|].
  destruct (frame_is_well_formed _ _ _ _ _); [done|by apply IH in H|by injection H as <-].
Qed.

Lemma complete_all s k ps : (length (frames_image s ps) <= k)%nat -> complete k ps = ps.
Proof.
  revert k. induction ps as [|p ps IH]; intros k Hk; [done|]. unfold frames_image in *.
  cbn [map concat] in Hk. rewrite length_app, length_frame in Hk. cbn [complete].
  destruct (Nat.leb_spec (frame_len (length p)) k); [|lia]. f_equal. apply IH. lia.
Qed.

Section Visitors.
Context {V : Type} (visit : V -> list byte -> nat -> nat -> bool * V).

(** The visitor over the records [ps] whose first frame is at [pos]; [None] when
    it refuses one. *)
Fixpoint visit_all (s : V) (pos : nat) (ps : list (list byte)) : option V :=
  match ps with
  | [] => Some s
  | p :: ps =>
      let end_ := (pos + frame_len (length p))%nat in
      match visit s p (pos + LEN_WIDTH) end_ with
      | (true, s) => visit_all s end_ ps
      | (false, _) => None
      end
  end.

Lemma visit_all_app salt s pos ps qs :
  visit_all s pos (ps ++ qs) =
  match visit_all s pos ps with
  | Some s => visit_all s (pos + length (frames_image salt ps)) qs
  | None => None
  end.
Proof.
  revert s pos. induction ps as [|p ps IH]; intros s pos.
  - unfold frames_image. cbn. by rewrite Nat.add_0_r.
  - cbn [app visit_all]. destruct (visit s p _ _) as [[] s']; [|done]. rewrite IH.
    unfold frames_image. cbn [map concat]. rewrite length_app, length_frame.
    by rewrite Nat.add_assoc.
Qed.

Lemma visit_step sf sd fuel salt file pre p post s s' :
  payload_ok p -> file = pre ++ frame salt p ++ post ->
  visit s p (length pre + LEN_WIDTH) (length pre + frame_len (length p)) = (true, s') ->
  visit_loop visit sf sd (S fuel) salt file (length file) (length pre) s =
  visit_loop visit sf sd fuel salt file (length file) (length (pre ++ frame salt p)) s'.
Proof.
  intros Hp Hb Hv.
  destruct (frame_fields salt pre p post _ _ Hp Hb eq_refl) as (Hl & H1 & H2 & H3 & H4).
  cbn [visit_loop]. rewrite H1, (from_le_len p Hp), len_to_nat, H2, H4.
  rewrite (proj2 (checksum_frame salt p)), Z.eqb_refl. cbn [negb].
  rewrite length_app, length_frame. unfold frame_len, LEN_WIDTH, CHECKSUM_WIDTH, len in *.
  destruct (Nat.ltb_spec (length file - length pre) 8); [lia|].
  rewrite (proj2 (Z.ltb_ge _ _)), (proj2 (Z.ltb_ge _ _)) by lia. cbn [orb].
  replace (length pre + 8 + length p + 4)%nat with (length pre + (8 + length p + 4))%nat by lia.
  by rewrite Hv.
Qed.

Lemma visit_frames sf sd fuel salt file pre ps post s s' :
  Forall payload_ok ps -> file = pre ++ frames_image salt ps ++ post ->
  visit_all s (length pre) ps = Some s' ->
  visit_loop visit sf sd (length ps + fuel) salt file (length file) (length pre) s =
  visit_loop visit sf sd fuel salt file (length file) (length (pre ++ frames_image salt ps)) s'.
Proof.
  intros Hps. revert pre s. induction Hps as [|p ps Hp Hps IH]; intros pre s Hb Hv.
  - injection Hv as <-. unfold frames_image. cbn. by rewrite app_nil_r.
  - unfold frames_image in Hb. cbn [map concat] in Hb. rewrite <- app_assoc in Hb.
    cbn [visit_all] in Hv.
    destruct (visit s p (length pre + LEN_WIDTH) (length pre + frame_len (length p))) as [[] s1] eqn:E;
      [|done].
    cbn [length Nat.add]. rewrite (visit_step sf sd _ salt file pre p _ s s1 Hp Hb E).
    rewrite (IH (pre ++ frame salt p) s1).
    + unfold frames_image. cbn [map concat]. by rewrite app_assoc.
    + by rewrite <- app_assoc.
    + by rewrite length_app, length_frame.
Qed.

(** A frame that cannot be read ends the log, or a strict opening refuses it
    because of what it takes for a frame behind it. *)
Lemma unreadable_cases sf salt file start total pos (s : V) :
  unreadable sf salt file start total pos s = Ok (pos, s) \/
  sf = true /\ unreadable sf salt file start total pos s = Err CorruptMiddle.
Proof.
  unfold unreadable, a_well_formed_frame_follows, rbind. destruct sf; [|by left].
  destruct (follows_loop _ _ _ _ _ _ _) as [[]|e] eqn:E; [by right|by left|].
  right. split; [done|]. f_equal. by eapply follows_loop_err.
Qed.

Lemma visit_torn sf sd fuel salt pre p j s :
  payload_ok p -> (j < frame_len (length p))%nat ->
  let r := visit_loop visit sf sd fuel salt (pre ++ take j (frame salt p))
    (length (pre ++ take j (frame salt p))) (length pre) s in
  r = Ok (length pre, s) \/ sf = true /\ r = Err CorruptMiddle.
Proof.
  intros Hp Hj. cbn zeta. destruct fuel as [|fuel]; [by left|]. cbn [visit_loop].
  unfold frame_len, LEN_WIDTH, CHECKSUM_WIDTH in *.
  assert (Hl : length (pre ++ take j (frame salt p)) = (length pre + j)%nat).
  { rewrite length_app, length_take, length_frame. unfold frame_len, LEN_WIDTH, CHECKSUM_WIDTH. lia. }
  rewrite Hl. destruct (Nat.ltb_spec (length pre + j - length pre) 8); [by left|].
  assert (Hh : slice (pre ++ take j (frame salt p)) (length pre) (length pre + 8) = to_le 8 (len p)).
  { rewrite (slice_app_r pre _ _ _ (length pre)) by done.
    replace (length pre - length pre)%nat with 0%nat by lia.
    replace (length pre + 8 - length pre)%nat with 8%nat by lia.
    rewrite frame_shape, take_app, length_to_le. rewrite take_ge by (rewrite length_to_le; lia).
    by apply slice_app_l, length_to_le. }
  rewrite Hh, (from_le_len p Hp).
  destruct (Z.ltb_spec (Z.of_nat (length pre + j - (length pre + 8))) (len p)); [apply unreadable_cases|].
  cbn [orb]. rewrite (proj2 (Z.ltb_lt _ _)) by (unfold len in *; lia). apply unreadable_cases.
Qed.

Lemma visit_end sf sd fuel salt file s :
  visit_loop visit sf sd fuel salt file (length file) (length file) s = Ok (length file, s).
Proof. destruct fuel; [done|]. cbn [visit_loop]. by rewrite Nat.sub_diag. Qed.

(** The loop over the whole of a file of records and a torn run of more. *)
Lemma visit_cut sf sd salt fs ps k s s' :
  length salt = SALT_LEN -> Forall payload_ok fs -> Forall payload_ok ps ->
  visit_all s HEADER_LEN (fs ++ complete k ps) = Some s' ->
  let file := log_image salt fs ++ take k (frames_image salt ps) in
  let all := fs ++ complete k ps in
  let r := visit_loop visit sf sd (length file - HEADER_LEN) salt file (length file) HEADER_LEN s in
  (exists tail, file = log_image salt all ++ tail) /\
  (r = Ok (length (log_image salt all), s') \/
   sf = true /\ (k < length (frames_image salt ps))%nat /\ r = Err CorruptMiddle).
Proof.
  intros Hs Hfs Hps Hv file all. destruct (take_frames salt ps k Hps) as (tail & Ht & Hcase).
  assert (Hall : Forall payload_ok all) by (apply Forall_app; auto using complete_ok).
  assert (log_image salt [] ++ frames_image salt all = log_image salt all) as Hlog.
  { unfold log_image. cbn [frames_image map concat]. by rewrite app_nil_r, <- app_assoc. }
  assert (Hfile : file = log_image salt all ++ tail).
  { unfold file, all. rewrite Ht. unfold log_image. by rewrite frames_image_app, <- !app_assoc. }
  intros r. split; [by exists tail|].
  pose proof (length_header salt Hs) as Hh. pose proof (length_frames_image salt all) as Hn.
  assert (r = visit_loop visit sf sd (length file - HEADER_LEN - length all) salt file (length file)
    (length (log_image salt all)) s') as ->.
  { rewrite <- Hh in Hv. rewrite <- Hlog.
    rewrite <- (visit_frames sf sd _ salt file _ all tail s s' Hall); [|by rewrite app_assoc, Hlog|done].
    unfold r. rewrite Hh. f_equal. rewrite Hfile, <- Hlog, !length_app, Hh. lia. }
  destruct (decide (k < length (frames_image salt ps))%nat) as [Hk|Hk].
  - rewrite Hfile. destruct Hcase as [->|(p & j & Hp & Hj & ->)].
    + left. rewrite app_nil_r. apply visit_end.
    + edestruct (visit_torn sf sd) as [H|[? H]]; [done|done|left; exact H|right; split_and!; [done|done|exact H]].
  - rewrite take_ge, (complete_all salt) in Ht by lia. assert (tail = []) as ->.
    { apply (f_equal length) in Ht. rewrite length_app in Ht. apply nil_length_inv. lia. }
    left. rewrite Hfile, app_nil_r. apply visit_end.
Qed.

(** Opening such a file; a strict opening may refuse it, but not when it is whole. *)
Lemma scan_open_cut sf sd trunc rng salt fs ps k s s' :
  length salt = SALT_LEN -> Forall payload_ok fs -> Forall payload_ok ps ->
  visit_all s HEADER_LEN (fs ++ complete k ps) = Some s' ->
  let file := log_image salt fs ++ take k (frames_image salt ps) in
  let r := scan_open_parts visit sf sd trunc rng file s in
  r = Ok (mkLog (if trunc then log_image salt (fs ++ complete k ps) else file) salt true, s') \/
  sf = true /\ (k < length (frames_image salt ps))%nat /\ r = Err CorruptMiddle.
Proof.
  intros Hs Hfs Hps Hv file r. unfold scan_open_parts, rbind in r.
  destruct (visit_cut sf sd salt fs ps k s s' Hs Hfs Hps Hv) as [[tail Hfile] Hr]. fold file in Hfile, Hr.
  assert (prepare_header rng file = Ok (salt, file)) as Hp by by apply prepare_image.
  unfold r. rewrite Hp. destruct Hr as [-> |(Hsf & Hk & ->)]; [left|by right].
  f_equal. f_equal. f_equal. destruct trunc; [|done]. cbn [andb].
  destruct (Nat.ltb_spec (length (log_image salt (fs ++ complete k ps))) (length file)) as [|Hge].
  - rewrite Hfile. apply take_app_length.
  - rewrite Hfile, length_app in Hge. rewrite Hfile. destruct tail; [by rewrite app_nil_r|cbn in Hge; lia].
Qed.
End Visitors.

(** ** Appending *)

Definition rolled_back (f : option (nat * bool)) : Prop :=
  match f with Some (_, false) => False | _ => True end.

Lemma append_all_holds f l fs ps r l' :
  holds l fs -> Forall payload_ok ps -> rolled_back f -> append_all f l ps = (r, l') ->
  match r with
  | Ok _ => holds l' (fs ++ ps) /\ salt l' = salt l
  | Err e => l' = mkLog (content l) (salt l) false /\ e = WriteFailed /\ is_Some f
  end.
Proof.
  intros (Hc & Hs & Hfs) Hps Hf. unfold append_all. destruct ps as [|p ps].
  { intros [= <- <-]. by rewrite app_nil_r. }
  fold (frames_image (salt l) (p :: ps)).
  destruct f as [[n []]|]; [|done|]; intros [= <- <-].
  - split_and!; [|done|done]. unfold log_truncate. cbn [content salt].
    rewrite Nat.max_l by (rewrite Hc; by apply header_fits). by rewrite take_app_length.
  - split; [|done]. split_and!; cbn [content salt]; [|done|by apply Forall_app].
    by rewrite Hc, <- log_image_app.
Qed.

Lemma append_all_fresh f l fs ps l' u :
  holds l fs -> Forall payload_ok ps -> append_all f l ps = (Ok u, l') -> holds l' (fs ++ ps).
Proof.
  intros Hl Hps E. destruct ps as [|p ps].
  { injection E as _ <-. by rewrite app_nil_r. }
  destruct f as [[n []]|]; [done|done|]. by eapply append_all_holds in E as [? _].
Qed.

(** A new file opens with its header. *)
Lemma prepare_absent rng :
  length rng = SALT_LEN -> prepare_header rng [] = prepare_header rng (log_image rng []).
Proof.
  intros Hr. pose proof (prepare_image rng rng [] [] Hr) as H. rewrite app_nil_r in H. rewrite H.
  unfold log_image. cbn [frames_image map concat]. by rewrite app_nil_r.
Qed.

Lemma open_absent rng :
  length rng = SALT_LEN -> Log_open rng [] = Ok (mkLog (log_image rng []) rng true, []).
Proof.
  intros Hr. rewrite <- (Log_open_image rng rng [] Hr (Forall_nil_2 _)). unfold Log_open.
  by rewrite prepare_absent.
Qed.

Lemma append_dirty f l p l' u : append f l p = (Ok u, l') -> dirty l' = true.
Proof. unfold append, append_all. by destruct f as [[n rb]|]; [|intros [= _ <-]]. Qed.

(** ** Encoded records *)

(** A record whose encoding fits the memory: no buffer is longer than [isize::MAX]. *)
Definition record_fits {R} (codec : Codec R) (r : R) : Prop :=
  valid codec r /\ len (to_bytes codec r) <= ISIZE_MAX.

Lemma fits_payload {R} (codec : Codec R) r : record_fits codec r -> payload_ok (to_bytes codec r).
Proof. intros [_ H]. unfold payload_ok, len, ISIZE_MAX in *. width_lia. Qed.

Lemma fits_payloads {R} (codec : Codec R) rs :
  Forall (record_fits codec) rs -> Forall payload_ok (map (to_bytes codec) rs).
Proof. intros H. apply Forall_map. eapply Forall_impl; [exact H|]. apply fits_payload. Qed.

Lemma fits_decode {R} (codec : Codec R) `{!RoundTrip codec} r :
  record_fits codec r -> from_bytes codec (to_bytes codec r) = Ok r.
Proof. intros [Hv Hl]. exact (from_bytes_encoded codec r Hv Hl). Qed.
