(* ===== verification/StateStore.v ===== *)
(** * The state store (crates/qtv-store/src/state_store.rs)

    The leaves of the chain's state, kept as a log of changes and commits, with
    the map of the current leaves in memory.  A write may fail part-way, a sync,
    a rename or a truncation may fail; what the system does is an argument of
    each operation ([Faults]).  Whether another process holds the log is an
    argument of [open]. *)

From stdpp Require Import sorting.
From S2P Require Import Prelude Codec Crc Log Keys Trie StoreLog.

Definition TAG_ENTRY : Z := 1.
Definition TAG_COMMIT : Z := 2.
Definition TAG_DELETE : Z := 3.

Inductive StateRecord : Type :=
| Entry (key value : list byte)
| Commit (height : Z) (root : list byte)
| Delete (key : list byte).

(** One byte at a time, without a length. *)
Definition put_fixed (value : list byte) (e : Encoder) : Encoder :=
  foldl (fun e b => put_u8 (byte_val b) e) e value.

Definition get_fixed : Dec (list byte) :=
  let* bytes := decode_n get_u8 32 in
  dret (map byte_of bytes).

Definition StateRecord_encode (r : StateRecord) (e : Encoder) : Encoder :=
  match r with
  | Entry key value => e |> put_tag TAG_ENTRY |> put_fixed key |> put_bytes value
  | Commit height root => e |> put_tag TAG_COMMIT |> put_u64 height |> put_fixed root
  | Delete key => e |> put_tag TAG_DELETE |> put_fixed key
  end.

Definition StateRecord_decode : Dec StateRecord :=
  let* tag := get_tag in
  if tag =? TAG_ENTRY then
    let* key := get_fixed in
    let* value := get_bytes in
    dret (Entry key value)
  else if tag =? TAG_COMMIT then
    let* height := get_u64 in
    let* root := get_fixed in
    dret (Commit height root)
  else if tag =? TAG_DELETE then
    let* key := get_fixed in
    dret (Delete key)
  else dfail (UnknownTag tag).

Definition StateRecord_codec : Codec StateRecord :=
  mkCodec StateRecord StateRecord_encode StateRecord_decode (fun r =>
    match r with
    | Entry key value => length key = 32%nat /\ u64 (len value)
    | Commit height root => u64 height /\ length root = 32%nat
    | Delete key => length key = 32%nat
    end).

Definition entry_record_len (value_len : nat) : nat := (1 + KEY_LEN + LEN_WIDTH + value_len)%nat.

Definition COMPACT_FLOOR_BYTES : Z := 64 * 1024 * 1024.
Definition COMPACT_RATIO : Z := 4.
Definition COMPACT_BATCH : Z := 4096.

(** A [BTreeMap] from keys to leaves; it is walked in the order of the keys. *)
Definition Entries : Type := gmap (list byte) (list byte).

Definition by_key (a b : list byte * list byte) : Prop := kz a.1 <= kz b.1.

#[global] Instance by_key_dec : RelDecision by_key.
Proof. intros a b. unfold by_key. apply _. Defined.

Definition in_order (es : Entries) : list (list byte * list byte) :=
  merge_sort by_key (map_to_list es).

Record StateStore : Type := mkStateStore {
  st_log : Log;
  entries : Entries;
  head : option (list byte);
  committed_height : option Z }.

Inductive StoreError : Type :=
| InLog (e : LogError)
| InUse
| SyncFailed
| RenameFailed
| TruncateFailed.

(** What the system does to the writes, the sync, the rename and the truncation
    of an operation; past the end of [writes] a write succeeds. *)
Record Faults : Type := mkFaults {
  writes : list (option (nat * bool));
  sync_ok : bool;
  rename_ok : bool;
  truncate_ok : bool }.

Definition next_write (io : list (option (nat * bool))) : option (nat * bool) :=
  match io with f :: _ => f | [] => None end.

(** ** Changes *)

Definition Change : Type := list byte * option (list byte).

Definition apply_change (es : Entries) (c : Change) : Entries :=
  match c.2 with Some value => <[c.1 := value]> es | None => delete c.1 es end.

Definition apply_changes (es : Entries) (cs : list Change) : Entries := foldl apply_change es cs.

Definition change_record (c : Change) : StateRecord :=
  match c.2 with Some value => Entry c.1 value | None => Delete c.1 end.

(** ** Opening *)

(** What the closure [visit] captures. *)
Record View : Type := mkView {
  v_entries : Entries;
  v_head : option (list byte);
  v_height : option Z;
  v_pending : list Change;
  v_len : nat }.

Definition View_new : View := mkView ∅ None None [] 0.

Definition see (end_offset : nat) (r : StateRecord) (v : View) : View :=
  match r with
  | Entry key value =>
      mkView (v_entries v) (v_head v) (v_height v) (v_pending v ++ [(key, Some value)]) (v_len v)
  | Delete key =>
      mkView (v_entries v) (v_head v) (v_height v) (v_pending v ++ [(key, None)]) (v_len v)
  | Commit height root =>
      mkView (apply_changes (v_entries v) (v_pending v)) (Some root) (Some height) [] end_offset
  end.

Definition visit (v : View) (frame : list byte) (_start end_offset : nat) : bool * View :=
  match from_bytes StateRecord_codec frame with
  | Ok r => (true, see end_offset r v)
  | Err _ => (false, v)
  end.

Definition live_bytes (s : StateStore) : Z :=
  foldr (fun kv total => Z.of_nat (frame_len (entry_record_len (length kv.2))) + total) 0
    (in_order (entries s)).

Definition should_compact (s : StateStore) (on_disk : Z) : bool :=
  if on_disk <? COMPACT_FLOOR_BYTES then false
  else COMPACT_RATIO <=? on_disk / Z.max (live_bytes s) 1.

(** [compact]'s loop over the entries with the batch it fills. *)
Fixpoint compact_loop (io : list (option (nat * bool))) (fresh : Log) (batch : list (list byte))
    (es : list (list byte * list byte))
    : Result LogError (Log * list (option (nat * bool))) :=
  match es with
  | [] =>
      match append_all (next_write io) fresh batch with
      | (Ok _, fresh) => Ok (fresh, tail io)
      | (Err e, _) => Err e
      end
  | (key, value) :: es =>
      let batch := batch ++ [to_bytes StateRecord_codec (Entry key value)] in
      if COMPACT_BATCH <=? len batch then
        match append_all (next_write io) fresh batch with
        | (Ok _, fresh) => compact_loop (tail io) fresh [] es
        | (Err e, _) => Err e
        end
      else compact_loop io fresh batch es
  end.

(** [compact] with the salt [rng] for the new file, which is empty when it is
    opened; the store goes over to it only after the rename. *)
Definition compact (rng : list byte) (io : Faults) (s : StateStore)
    : Result StoreError unit * StateStore :=
  match committed_height s, head s with
  | Some height, Some root =>
      match Log_open rng [] with
      | Err e => (Err (InLog e), s)
      | Ok (fresh, _) =>
          match compact_loop (writes io) fresh [] (in_order (entries s)) with
          | Err e => (Err (InLog e), s)
          | Ok (fresh, writes) =>
              match append (next_write writes) fresh
                      (to_bytes StateRecord_codec (Commit height root)) with
              | (Err e, _) => (Err (InLog e), s)
              | (Ok _, fresh) =>
                  if negb (sync_ok io) then (Err SyncFailed, s)
                  else if negb (rename_ok io) then (Err RenameFailed, s)
                  else (Ok tt, mkStateStore (log_sync fresh) (entries s) (head s) (committed_height s))
              end
          end
      end
  | _, _ => (Ok tt, s)
  end.

Definition compact_if_bloated (rng : list byte) (io : Faults) (s : StateStore)
    : bool * StateStore :=
  if negb (should_compact s (len (content (st_log s)))) then (false, s)
  else match compact rng io s with
       | (Ok _, s) => (true, s)
       | (Err _, s) => (false, s)
       end.

Definition open_with_floor (rng rng' file : list byte) (contended : bool) (floor : option Z)
    (io : Faults) : Result StoreError StateStore :=
  match open_scanned_keeping_tail_strict visit rng file View_new with
  | Err e => Err (InLog e)
  | Ok (log, v) =>
      let store := mkStateStore log (v_entries v) (v_head v) (v_height v) in
      if contended then Err InUse
      else
        let behind :=
          match floor with
          | Some floor =>
              match v_height v with Some c => c <? floor | None => true end
          | None => false
          end in
        if behind then Ok store
        else
          let tail := (Nat.max (v_len v) HEADER_LEN <? length (content log))%nat in
          if tail && negb (truncate_ok io) then Err TruncateFailed
          else
            let log := if tail then log_truncate log (v_len v) else log in
            let store := mkStateStore log (v_entries v) (v_head v) (v_height v) in
            if should_compact store (Z.of_nat (v_len v)) then Ok (compact rng' io store).2
            else Ok store
  end.

Definition open (rng rng' file : list byte) (contended : bool) (io : Faults)
    : Result StoreError StateStore :=
  open_with_floor rng rng' file contended None io.

(** ** Writing *)

Definition with_log (s : StateStore) (l : Log) : StateStore :=
  mkStateStore l (entries s) (head s) (committed_height s).
Definition with_entries (s : StateStore) (l : Log) (es : Entries) : StateStore :=
  mkStateStore l es (head s) (committed_height s).

Definition put_account (io : Faults) (key value : list byte) (s : StateStore)
    : Result StoreError unit * StateStore :=
  match append (next_write (writes io)) (st_log s) (to_bytes StateRecord_codec (Entry key value)) with
  | (Err e, l) => (Err (InLog e), with_log s l)
  | (Ok _, l) => (Ok tt, with_entries s l (<[key := value]> (entries s)))
  end.

Definition apply_accounts (io : Faults) (changes : list Change) (s : StateStore)
    : Result StoreError unit * StateStore :=
  let records := map (fun c => to_bytes StateRecord_codec (change_record c)) changes in
  match append_all (next_write (writes io)) (st_log s) records with
  | (Err e, l) => (Err (InLog e), with_log s l)
  | (Ok _, l) => (Ok tt, with_entries s l (apply_changes (entries s) changes))
  end.

Definition delete_account (io : Faults) (key : list byte) (s : StateStore)
    : Result StoreError unit * StateStore :=
  match append (next_write (writes io)) (st_log s) (to_bytes StateRecord_codec (Delete key)) with
  | (Err e, l) => (Err (InLog e), with_log s l)
  | (Ok _, l) => (Ok tt, with_entries s l (delete key (entries s)))
  end.

Definition commit (io : Faults) (height : Z) (root : list byte) (s : StateStore)
    : Result StoreError unit * StateStore :=
  match append (next_write (writes io)) (st_log s) (to_bytes StateRecord_codec (Commit height root)) with
  | (Err e, l) => (Err (InLog e), with_log s l)
  | (Ok _, l) =>
      if negb (sync_ok io) then (Err SyncFailed, with_log s l)
      else (Ok tt, mkStateStore (log_sync l) (entries s) (Some root) (Some height))
  end.

Definition account (s : StateStore) (key : list byte) : option (list byte) := entries s !! key.
Definition accounts (s : StateStore) : list (list byte * list byte) := in_order (entries s).
Definition store_len (s : StateStore) : nat := size (entries s).
Definition is_empty (s : StateStore) : bool := bool_decide (entries s = ∅).

(** The new trie is not shared, so its maps are changed in place. *)
Definition load_trie (sha3_256 : list byte -> list byte) (s : StateStore) : Trie :=
  foldl (fun t kv => Trie_insert true t kv.1 kv.2) (Trie_new sha3_256) (in_order (entries s)).
