(* ===== verification/StateStoreSpec.v ===== *)
(** * What the state store promises

    The store keeps a log of changes and commits.  The abstract state is a book:
    the current leaves with the last commit the caller was told of, what the
    last durable commit saved, and the commits whose sync failed, which a crash
    may keep or lose.  A history is a sequence of operations, each with the
    faults of the system, and of crashes that cut the file anywhere behind its
    durable part. *)

From stdpp Require Import sorting.
From S2P Require Import Prelude Codec Crc Log Keys Trie TrieCorrect TrieSpec StoreLog StateStore.

#[local] Opaque HEADER_LEN.

(** ** The codec of the records *)

Lemma buf_put_fixed v e : buf (put_fixed v e) = buf e ++ v.
Proof. apply buf_put_array. Qed.

#[export] Hint Rewrite buf_put_fixed : codec.

Lemma reads_get_fixed v : length v = 32%nat -> reads get_fixed v v.
Proof. apply reads_array. Qed.

#[export] Instance StateRecord_roundtrip : RoundTrip StateRecord_codec.
Proof.
  intros r Hr. unfold StateRecord_codec, StateRecord_encode, StateRecord_decode.
  destruct r as [k v|h m|k]; codec_image; cbn [decode]; cbn in Hr; destruct_and?.
  - eapply (reads_bind get_tag _ [byte_of TAG_ENTRY]); [apply reads_get_u8; by vm_compute|].
    cbn [Z.eqb TAG_ENTRY Pos.eqb]. eapply reads_bind; [by apply reads_get_fixed|].
    eapply reads_map; [by apply reads_get_bytes|apply reads_ret].
  - eapply (reads_bind get_tag _ [byte_of TAG_COMMIT]); [apply reads_get_u8; by vm_compute|].
    cbn [Z.eqb TAG_ENTRY TAG_COMMIT Pos.eqb]. eapply reads_bind; [by apply reads_get_u64|].
    eapply reads_map; [by apply reads_get_fixed|apply reads_ret].
  - eapply (reads_bind get_tag _ [byte_of TAG_DELETE]); [apply reads_get_u8; by vm_compute|].
    cbn [Z.eqb TAG_ENTRY TAG_COMMIT TAG_DELETE Pos.eqb].
    eapply reads_map; [by apply reads_get_fixed|apply reads_ret].
Qed.

Local Notation enc := (to_bytes StateRecord_codec).
Local Notation record_ok := (record_fits StateRecord_codec).

Lemma visit_enc v r a b : record_ok r -> visit v (enc r) a b = (true, see b r v).
Proof. intros Hr. unfold visit. by rewrite (fits_decode _ r Hr). Qed.

(** ** What a run of records stands for *)

Definition Mark : Type := Z * list byte.

(** The leaves and the commit that saved them. *)
Definition Saved : Type := Entries * option Mark.

(** The leaves after the records, and what their last commit saved. *)
Definition replay_step (d : Entries * Saved) (r : StateRecord) : Entries * Saved :=
  match r with
  | Entry k v => (<[k := v]> d.1, d.2)
  | Delete k => (delete k d.1, d.2)
  | Commit h m => (d.1, (d.1, Some (h, m)))
  end.

Definition replay (rs : list StateRecord) : Entries * Saved := foldl replay_step (∅, (∅, None)) rs.

(** The records up to the last commit. *)
Definition is_commit (r : StateRecord) : bool := match r with Commit _ _ => true | _ => false end.

Fixpoint firm (rs : list StateRecord) : list StateRecord :=
  match rs with
  | [] => []
  | r :: rs => if is_commit r || existsb is_commit rs then r :: firm rs else []
  end.

Lemma replay_snoc rs r : replay (rs ++ [r]) = replay_step (replay rs) r.
Proof. unfold replay. by rewrite foldl_app. Qed.

Lemma firm_snoc rs r : firm (rs ++ [r]) = if is_commit r then rs ++ [r] else firm rs.
Proof.
  induction rs as [|x rs IH]; cbn [app firm existsb].
  - by destruct r.
  - rewrite IH, existsb_app. cbn [existsb]. rewrite orb_false_r.
    destruct (is_commit r); [by rewrite !orb_true_r|]. by rewrite orb_false_r.
Qed.

Lemma replay_firm rs : (replay (firm rs)).2 = (replay rs).2 /\ (replay (firm rs)).1 = (replay rs).2.1.
Proof.
  induction rs as [|r rs IH] using rev_ind; [done|].
  rewrite firm_snoc, replay_snoc. destruct r; cbn [is_commit replay_step fst snd]; try exact IH.
  by rewrite replay_snoc.
Qed.

Lemma firm_ok rs : Forall record_ok rs -> Forall record_ok (firm rs).
Proof.
  induction 1 as [|r rs Hr Hrs IH]; cbn [firm]; [done|]. case_step; [by constructor|done].
Qed.

(** ** Opening *)

(** The view the visitor has of a run of records. *)
Record views (rs : list StateRecord) (v : View) : Prop := {
  views_entries : v_entries v = (replay rs).2.1;
  views_head : v_head v = snd <$> (replay rs).2.2;
  views_height : v_height v = fst <$> (replay rs).2.2;
  views_now : apply_changes (v_entries v) (v_pending v) = (replay rs).1;
  views_len s : length s = SALT_LEN ->
    Nat.max (v_len v) HEADER_LEN = length (log_image s (map enc (firm rs)))
}.

Lemma views_snoc rs v r s :
  length s = SALT_LEN -> views rs v ->
  views (rs ++ [r]) (see (HEADER_LEN + length (frames_image s (map enc (rs ++ [r])))) r v).
Proof.
  intros Hs [He Hh Hc Hn Hl]. rewrite map_app. split; rewrite ?replay_snoc, ?firm_snoc.
  - by destruct r.
  - by destruct r.
  - by destruct r.
  - destruct r; cbn [see v_entries v_pending replay_step fst]; [..|done|];
      unfold apply_changes in *; rewrite ?foldl_app; cbn; by rewrite ?Hn.
  - intros s' Hs'. destruct r; cbn [see v_len is_commit]; auto.
    rewrite length_log_image, map_app by done. rewrite Nat.max_l by lia. f_equal.
    apply length_frames_salt.
Qed.

Lemma state_visit_records rs :
  Forall record_ok rs ->
  exists v, visit_all visit View_new HEADER_LEN (map enc rs) = Some v /\ views rs v.
Proof.
  induction rs as [|r rs IH] using rev_ind; intros Hrs.
  - exists View_new. split; [done|]. split; try done.
    intros s Hs. cbn [v_len View_new firm map]. by rewrite length_header.
  - apply Forall_app in Hrs as [Hrs Hr]. apply Forall_inv in Hr.
    destruct (IH Hrs) as (v & Hv & Hvs). pose (s := replicate SALT_LEN x00).
    eexists. split; [|by apply (views_snoc rs v r s)].
    rewrite map_app, (visit_all_app visit s), Hv. cbn [map visit_all].
    rewrite (visit_enc _ _ _ _ Hr). do 2 f_equal.
    rewrite frames_image_snoc, length_app, length_frame. lia.
Qed.

(** *** Compaction *)

Definition entry_of (kv : list byte * list byte) : StateRecord := Entry kv.1 kv.2.

Lemma compact_loop_holds io fresh batch es fs l io' :
  holds fresh fs -> Forall payload_ok batch -> Forall record_ok (map entry_of es) ->
  compact_loop io fresh batch es = Ok (l, io') ->
  holds l (fs ++ batch ++ map enc (map entry_of es)).
Proof.
  revert io fresh batch fs. induction es as [|[k v] es IH]; intros io fresh batch fs Hl Hb Hes H;
    cbn [compact_loop map] in *.
  - destruct (append_all _ _ _) as [[[]|] l'] eqn:E; [|done]. injection H as -> _.
    rewrite app_nil_r. eapply append_all_fresh in E; eauto.
  - inversion_clear Hes. assert (Forall payload_ok (batch ++ [enc (Entry k v)])) as Hb'.
    { apply Forall_app. split; [done|]. constructor; [by apply fits_payload|done]. }
    case_in H.
    + destruct (append_all _ _ _) as [[[]|] l'] eqn:E; [|done].
      eapply append_all_fresh in E; eauto. eapply IH in H; eauto.
      cbn [app] in H. by rewrite <- !app_assoc in H.
    + eapply IH in H; eauto. by rewrite <- !app_assoc in H.
Qed.

(** The errors the faults of the system account for. *)
Definition faulty (io : list (option (nat * bool))) : Prop := exists f, Some f ∈ io.

Definition fault_of (io : Faults) (e : StoreError) : Prop :=
  match e with
  | InLog WriteFailed => faulty (writes io)
  | SyncFailed => sync_ok io = false
  | RenameFailed => rename_ok io = false
  | _ => False
  end.

Lemma faulty_tail io : faulty (tail io) -> faulty io.
Proof. intros [f Hf]. exists f. destruct io; [done|]. by apply list_elem_of_further. Qed.

Lemma next_write_faulty io : is_Some (next_write io) -> faulty io.
Proof. intros [f Hf]. exists f. destruct io; [done|]. cbn in Hf. subst. apply list_elem_of_here. Qed.

Lemma append_all_err f l ps e l' : append_all f l ps = (Err e, l') -> e = WriteFailed /\ is_Some f.
Proof.
  unfold append_all. destruct ps; [done|]. destruct f as [[n rb]|]; intros [= <- _]. eauto.
Qed.

Lemma compact_loop_faults io fresh batch es :
  match compact_loop io fresh batch es with
  | Ok (_, io') => faulty io' -> faulty io
  | Err e => e = WriteFailed /\ faulty io
  end.
Proof.
  revert io fresh batch. induction es as [|[k v] es IH]; intros io fresh batch; cbn [compact_loop].
  - destruct (append_all _ _ _) as [[[]|e] l'] eqn:E; [apply faulty_tail|].
    apply append_all_err in E as [-> Hf]. auto using next_write_faulty.
  - case_step; [|apply IH]. destruct (append_all _ _ _) as [[[]|e] l'] eqn:E.
    + specialize (IH (tail io) l' []). destruct (compact_loop _ _ _ _) as [[? ?]|];
        naive_solver eauto using faulty_tail.
    + apply append_all_err in E as [-> Hf]. auto using next_write_faulty.
Qed.

Definition compacted (es : Entries) (m : Mark) : list StateRecord :=
  map entry_of (in_order es) ++ [Commit m.1 m.2].

Definition entries_ok (es : Entries) : Prop := map_Forall (fun k v => record_ok (Entry k v)) es.
Definition mark_ok (m : option Mark) : Prop := from_option (fun m => record_ok (Commit m.1 m.2)) True m.

Lemma in_order_perm es : in_order es ≡ₚ map_to_list es.
Proof. apply merge_sort_Permutation. Qed.

Lemma in_order_ok es : entries_ok es -> Forall record_ok (map entry_of (in_order es)).
Proof.
  intros H. apply Forall_map. rewrite in_order_perm. apply map_Forall_to_list in H.
  eapply Forall_impl; [exact H|]. by intros [].
Qed.

Lemma compacted_ok es m : entries_ok es -> mark_ok (Some m) -> Forall record_ok (compacted es m).
Proof.
  intros He Hm. apply Forall_app. split; [by apply in_order_ok|]. by constructor.
Qed.

Lemma replay_entries kvs d :
  foldl replay_step d (map entry_of kvs) = (foldl (fun m kv => <[kv.1 := kv.2]> m) d.1 kvs, d.2).
Proof.
  revert d. induction kvs as [|[k v] kvs IH]; intros d; cbn [map foldl]; [by destruct d|].
  by rewrite IH.
Qed.

Lemma in_order_rebuilds es : foldl (fun m kv => <[kv.1 := kv.2]> m) ∅ (in_order es) = es.
Proof.
  rewrite <- (list_to_map_to_list es) at 2.
  assert (forall kvs (m : Entries), foldl (fun m kv => <[kv.1 := kv.2]> m) m kvs =
    foldr (fun kv m => <[kv.1 := kv.2]> m) m (reverse kvs)) as Hr.
  { intros kvs. induction kvs as [|kv kvs IH]; intros m; [done|].
    cbn [foldl]. by rewrite IH, reverse_cons, foldr_snoc. }
  rewrite Hr. assert (reverse (in_order es) ≡ₚ map_to_list es) as Hp.
  { by rewrite reverse_Permutation, in_order_perm. }
  rewrite <- (list_to_map_proper (reverse (in_order es)) (map_to_list es)); [done| |done].
  rewrite Hp. apply NoDup_fst_map_to_list.
Qed.

Lemma replay_compacted es m : replay (compacted es m) = (es, (es, Some m)).
Proof.
  unfold compacted. rewrite replay_snoc. unfold replay. rewrite replay_entries. cbn [fst snd].
  rewrite in_order_rebuilds. by destruct m.
Qed.

(** *** The store and its records *)

(** The store [st] has the records [rs] on its log, and last told its caller of [known]. *)
Record keeps (st : StateStore) (rs : list StateRecord) (known : option Mark) : Prop := {
  keeps_log : holds (st_log st) (map enc rs);
  keeps_ok : Forall record_ok rs;
  keeps_now : entries st = (replay rs).1;
  keeps_head : head st = snd <$> known;
  keeps_height : committed_height st = fst <$> known;
  keeps_known : mark_ok known
}.

Lemma replay_ok rs :
  Forall record_ok rs ->
  entries_ok (replay rs).1 /\ entries_ok (replay rs).2.1 /\ mark_ok (replay rs).2.2.
Proof.
  induction rs as [|r rs IH] using rev_ind; intros H.
  - split_and!; [apply map_Forall_empty..|done].
  - apply Forall_app in H as [Hrs Hr]. apply Forall_inv in Hr. destruct (IH Hrs) as (H1 & H2 & H3).
    rewrite replay_snoc. destruct r; cbn [replay_step fst snd]; split_and!; auto.
    + by apply map_Forall_insert_2.
    + by apply map_Forall_delete.
Qed.

Lemma keeps_entries_ok st rs known : keeps st rs known -> entries_ok (entries st).
Proof. intros []. rewrite keeps_now0. by apply replay_ok. Qed.

Lemma compact_keeps rng io st rs known r st' :
  keeps st rs known -> length rng = SALT_LEN -> compact rng io st = (r, st') ->
  match r with
  | Ok _ => match known with
            | Some m => keeps st' (compacted (entries st) m) known
            | None => st' = st
            end /\ entries st' = entries st
  | Err e => st' = st /\ fault_of io e
  end.
Proof.
  intros Hk Hr. pose proof (keeps_entries_ok _ _ _ Hk) as He. destruct Hk as [Hl Ho Hn Hh Hc Hm].
  unfold compact. rewrite Hc, Hh. destruct known as [[h m]|]; [|by intros [= <- <-]]. cbn [fmap option_fmap option_map fst snd].
  rewrite open_absent by done.
  pose proof (compact_loop_faults (writes io) (mkLog (log_image rng []) rng true) []
    (in_order (entries st))) as Hf.
  destruct (compact_loop _ _ _ _) as [[l io']|e] eqn:E; [|intros [= <- <-]; cbn; by destruct Hf as [-> ?]].
  eapply compact_loop_holds in E; [|by split_and!|done|by apply in_order_ok].
  cbn [app] in E. unfold append.
  destruct (append_all _ _ _) as [[u|e] l'] eqn:Ea.
  - eapply append_all_fresh in Ea; [|done|constructor; [by apply fits_payload|done]].
    destruct (sync_ok io) eqn:Es; [|by intros [= <- <-]]. destruct (rename_ok io) eqn:Er; [|by intros [= <- <-]].
    intros [= <- <-]. split; [|done]. split; try done; cbn [st_log entries head committed_height].
    + unfold compacted. rewrite map_app. exact Ea.
    + by apply compacted_ok.
    + by rewrite replay_compacted.
  - intros [= <- <-]. apply append_all_err in Ea as [-> Hw]. split; [done|].
    apply Hf. by apply next_write_faulty.
Qed.

Lemma firm_prefix rs : exists loose, rs = firm rs ++ loose.
Proof.
  induction rs as [|r rs [l IH]]; cbn [firm]; [by exists []|].
  case_step; [exists l; cbn [app]; by rewrite <- IH|by exists (r :: rs)].
Qed.

(** What opening finds in a file of whole records and a torn run of more. *)
Lemma state_open_cut rng rng' io s rs ps k :
  length rng' = SALT_LEN -> length s = SALT_LEN -> truncate_ok io = true ->
  Forall record_ok rs -> Forall record_ok ps ->
  exists st rs' n, let d := (replay (rs ++ take n ps)).2 in
    open rng rng' (log_image s (map enc rs) ++ take k (frames_image s (map enc ps))) false io = Ok st /\
    keeps st rs' d.2 /\ replay rs' = (d.1, d).
Proof.
  intros Hr' Hs Ht Hrs Hps. destruct (complete_map enc k ps) as [n Hn].
  set (all := rs ++ take n ps). assert (Forall record_ok all) as Hall.
  { apply Forall_app. split; [done|]. by apply Forall_take. }
  destruct (state_visit_records all Hall) as (v & Hv & [Ve Vh Vc Vn Vl]).
  unfold open, open_with_floor, open_scanned_keeping_tail_strict.
  destruct (scan_open_cut visit false true false rng s (map enc rs) (map enc ps) k View_new v)
    as [-> |[? _]]; [done|by apply fits_payloads..|by rewrite Hn, <- map_app| |done].
  set (file := log_image s (map enc rs) ++ _).
  assert (take (Nat.max (v_len v) HEADER_LEN) file = log_image s (map enc (firm all))) as Hfile.
  { destruct (take_frames s (map enc ps) k (fits_payloads _ _ Hps)) as (tl & Htl & _).
    destruct (firm_prefix all) as [loose Hl].
    assert (file = log_image s (map enc (firm all)) ++ frames_image s (map enc loose) ++ tl) as ->.
    { unfold file. rewrite Htl, Hn, app_assoc, <- log_image_app, <- map_app. fold all.
      rewrite Hl at 1. by rewrite map_app, log_image_app, <- app_assoc. }
    rewrite (Vl s Hs). apply take_app_length. }
  rewrite Ht, andb_false_r. cbn [content].
  match goal with |- context [should_compact ?st _] => set (store := st) end.
  pose proof (replay_firm all) as [Hf2 Hf1]. pose proof (replay_ok all Hall) as (_ & _ & Hm).
  assert (keeps store (firm all) (replay all).2.2) as Hk.
  { split; try done.
    - split_and!; [|by destruct (_ <? _)%nat|apply fits_payloads; by apply firm_ok].
      unfold store. cbn [st_log]. destruct (Nat.ltb_spec (Nat.max (v_len v) HEADER_LEN) (length file));
        cbn [log_truncate content salt]; [done|]. by rewrite <- Hfile, take_ge.
    - by apply firm_ok.
    - cbn [store entries]. by rewrite Hf1. }
  assert (replay (firm all) = ((replay all).2.1, (replay all).2)) as Hrep.
  { rewrite <- Hf1, <- Hf2. by destruct (replay (firm all)). }
  case_step; [|by exists store, (firm all), n].
  destruct (compact rng' io store) as [r st'] eqn:Ec.
  eapply compact_keeps in Ec; [|exact Hk|done]. destruct r as [u|e]; cbn [snd].
  - destruct Ec as [Ec _]. destruct ((replay all).2.2) as [m|] eqn:Em; [|exists store, (firm all), n; cbn zeta; fold all; by rewrite Em, Ec in *].
    exists st', (compacted (entries store) m), n. cbn zeta. fold all. rewrite Em. split_and!; [done..|].
    rewrite replay_compacted. cbn [store entries]. rewrite Ve, <- Em. by destruct ((replay all).2).
  - destruct Ec as [-> _]. by exists store, (firm all), n.
Qed.

(** ** Histories *)

Inductive Op : Type :=
| OpPut (key value : list byte)
| OpApply (changes : list Change)
| OpDelete (key : list byte)
| OpCommit (height : Z) (root : list byte)
| OpCompact (rng : list byte)
| OpCompactIfBloated (rng : list byte).

(** [Ok false] is a compaction that was skipped. *)
Definition done (p : Result StoreError unit * StateStore) : Result StoreError bool * StateStore :=
  (match p.1 with Ok _ => Ok true | Err e => Err e end, p.2).

Definition do_op (io : Faults) (op : Op) (st : StateStore) : Result StoreError bool * StateStore :=
  match op with
  | OpPut key value => done (put_account io key value st)
  | OpApply changes => done (apply_accounts io changes st)
  | OpDelete key => done (delete_account io key st)
  | OpCommit height root => done (commit io height root st)
  | OpCompact rng => done (compact rng io st)
  | OpCompactIfBloated rng =>
      let '(b, st) := compact_if_bloated rng io st in (Ok b, st)
  end.

(** A store on a disk that keeps at least the first [durable] bytes of the file
    in a crash: those the last commit or compaction that returned had synced, or
    all there was when the store was opened.  A rename that returned is durable. *)
Record World : Type := mkWorld { store : StateStore; durable : nat }.

Inductive Event : Type :=
| Do (io : Faults) (op : Op)
| Crash (keep : nat) (rng rng' : list byte) (io : Faults).

Definition durable_after (w : World) (op : Op) (r : Result StoreError bool) (st : StateStore) : nat :=
  match op, r with
  | OpCommit _ _, Ok _ => length (content (st_log st))
  | (OpCompact _ | OpCompactIfBloated _), Ok true =>
      if committed_height st then length (content (st_log st)) else durable w
  | _, _ => durable w
  end.

Definition world_step (w : World) (ev : Event) : Result StoreError bool * World :=
  match ev with
  | Do io op =>
      let '(r, st) := do_op io op (store w) in (r, mkWorld st (durable_after w op r st))
  | Crash keep rng rng' io =>
      let file := take (Nat.max (durable w) keep) (content (st_log (store w))) in
      match open rng rng' file false io with
      | Ok st => (Ok true, mkWorld st (length (content (st_log st))))
      | Err e => (Err e, w)
      end
  end.

Fixpoint world_run (w : World) (evs : list Event) : list (Result StoreError bool) * World :=
  match evs with
  | [] => ([], w)
  | ev :: evs =>
      let '(r, w) := world_step w ev in
      let '(rs, w) := world_run w evs in (r :: rs, w)
  end.

Definition change_ok (c : Change) : Prop := record_ok (change_record c).

Definition op_ok (op : Op) : Prop :=
  match op with
  | OpPut key value => change_ok (key, Some value)
  | OpApply changes => Forall change_ok changes
  | OpDelete key => change_ok (key, None)
  | OpCommit height root => record_ok (Commit height root)
  | OpCompact rng | OpCompactIfBloated rng => length rng = SALT_LEN
  end.

(** A write that fails is rolled back, and an opening may cut the tail off. *)
Definition event_ok (ev : Event) : Prop :=
  match ev with
  | Do io op => op_ok op /\ Forall rolled_back (writes io)
  | Crash _ _ rng' io => length rng' = SALT_LEN /\ truncate_ok io = true
  end.

(** ** The book *)

Record Book : Type := mkBook {
  now : Entries;
  known : option Mark;
  saved : Saved;
  doubts : list Saved }.

Definition Book_new : Book := mkBook ∅ None (∅, None) [].

Definition changes_of (op : Op) : option (list Change) :=
  match op with
  | OpPut key value => Some [(key, Some value)]
  | OpApply changes => Some changes
  | OpDelete key => Some [(key, None)]
  | _ => None
  end.

Definition compacts (op : Op) : bool :=
  match op with OpCompact _ | OpCompactIfBloated _ => true | _ => false end.

(** What an event may answer, and what it does to the book. *)
Inductive book_step : Book -> Event -> Result StoreError bool -> Book -> Prop :=
| book_change b io op cs :
    changes_of op = Some cs ->
    book_step b (Do io op) (Ok true)
      (mkBook (apply_changes (now b) cs) (known b) (saved b) (doubts b))
| book_commit b io h m :
    book_step b (Do io (OpCommit h m)) (Ok true)
      (mkBook (now b) (Some (h, m)) (now b, Some (h, m)) [])
| book_doubt b io h m :
    sync_ok io = false ->
    book_step b (Do io (OpCommit h m)) (Err SyncFailed)
      (mkBook (now b) (known b) (saved b) (doubts b ++ [(now b, Some (h, m))]))
| book_compact b io op mark :
    compacts op = true -> known b = Some mark ->
    book_step b (Do io op) (Ok true) (mkBook (now b) (known b) (now b, Some mark) [])
| book_nothing b io op :
    compacts op = true -> known b = None -> book_step b (Do io op) (Ok true) b
| book_skip b io rng : book_step b (Do io (OpCompactIfBloated rng)) (Ok false) b
| book_fail b io op e :
    fault_of io e -> (e = SyncFailed -> compacts op = true) ->
    book_step b (Do io op) (Err e) b
| book_crash b keep rng rng' io s :
    s ∈ saved b :: doubts b ->
    book_step b (Crash keep rng rng' io) (Ok true) (mkBook s.1 s.2 s []).

Inductive book_run : Book -> list Event -> list (Result StoreError bool) -> Book -> Prop :=
| book_run_nil b : book_run b [] [] b
| book_run_cons b ev r b' evs rs b'' :
    book_step b ev r b' -> book_run b' evs rs b'' -> book_run b (ev :: evs) (r :: rs) b''.

(** ** The store keeps the book *)

Record tracks (w : World) (b : Book) (fs ls : list StateRecord) : Prop := {
  tracks_keeps : keeps (store w) (fs ++ ls) (known b);
  tracks_now : now b = (replay (fs ++ ls)).1;
  tracks_durable : durable w = length (log_image (salt (st_log (store w))) (map enc fs));
  tracks_saved n : (replay (fs ++ take n ls)).2 ∈ saved b :: doubts b
}.

Definition books (w : World) (b : Book) : Prop := exists fs ls, tracks w b fs ls.

Lemma take_app_cases {A} n (ls ps : list A) :
  exists m, take n (ls ++ ps) = take n ls ++ take m ps /\ (take n ls = ls \/ take m ps = []).
Proof.
  exists (n - length ls)%nat. rewrite take_app. split; [done|].
  destruct (decide (length ls <= n)%nat); [left; by apply take_ge|right].
  by replace (n - length ls)%nat with 0%nat by lia.
Qed.

Lemma replay_changes rs cs :
  replay (rs ++ map change_record cs) = (apply_changes (replay rs).1 cs, (replay rs).2).
Proof.
  induction cs as [|[k v] cs IH] using rev_ind; [cbn; rewrite app_nil_r; by destruct (replay rs)|].
  rewrite map_app, app_assoc. cbn [map]. rewrite replay_snoc, IH. unfold apply_changes.
  rewrite foldl_app. by destruct v.
Qed.

(** Appending to the log without a sync. *)
Lemma tracks_append w b fs ls ps st b' :
  tracks w b fs ls -> keeps st (fs ++ ls ++ ps) (known b') ->
  salt (st_log st) = salt (st_log (store w)) -> now b' = (replay (fs ++ ls ++ ps)).1 ->
  saved b' = saved b -> doubts b `prefix_of` doubts b' ->
  (forall n, (replay (fs ++ ls ++ take n ps)).2 ∈ saved b' :: doubts b') ->
  tracks (mkWorld st (durable w)) b' fs (ls ++ ps).
Proof.
  intros [] Hk Hs Hn Hsv Hd Hall. split; cbn [store durable]; [done|done|by rewrite Hs|].
  intros n. destruct (take_app_cases n ls ps) as (m & -> & [-> | ->]); [apply Hall|].
  rewrite app_nil_r, Hsv. specialize (tracks_saved0 n). destruct Hd as [t ->].
  apply elem_of_cons in tracks_saved0 as [->|Hin]; [apply list_elem_of_here|].
  apply list_elem_of_further, elem_of_app. by left.
Qed.

(** Everything on the log is durable. *)
Lemma tracks_settled st rs known :
  keeps st rs known ->
  tracks (mkWorld st (length (content (st_log st)))) (mkBook (replay rs).1 known (replay rs).2 []) rs [].
Proof.
  intros Hk. pose proof Hk as [(Hc & _) _ _ _ _ _]. split; cbn [store durable].
  - by rewrite app_nil_r.
  - by rewrite app_nil_r.
  - by rewrite Hc.
  - intros n. rewrite take_nil, app_nil_r. apply list_elem_of_here.
Qed.

(** A failed append leaves the records. *)
Lemma tracks_with_log w b fs ls d :
  tracks w b fs ls ->
  tracks (mkWorld (with_log (store w) (mkLog (content (st_log (store w))) (salt (st_log (store w))) d))
    (durable w)) b fs ls.
Proof. by intros [[] ? ? ?]; split; [split|..]. Qed.

Lemma changes_step io op cs st :
  changes_of op = Some cs ->
  do_op io op st =
  match append_all (next_write (writes io)) (st_log st) (map enc (map change_record cs)) with
  | (Err e, l) => (Err (InLog e), with_log st l)
  | (Ok _, l) => (Ok true, with_entries st l (apply_changes (entries st) cs))
  end.
Proof.
  destruct op; intros [= <-]; cbn [do_op map]; unfold put_account, apply_accounts, delete_account, append;
    rewrite ?map_map; destruct (append_all _ _ _) as [[[]|] ?]; reflexivity.
Qed.

Lemma next_rolled_back io : Forall rolled_back io -> rolled_back (next_write io).
Proof. by destruct 1. Qed.

Lemma changes_ok op cs : changes_of op = Some cs -> op_ok op -> Forall record_ok (map change_record cs).
Proof.
  destruct op; intros [= <-] Hop; cbn [map].
  1, 3: constructor; [exact Hop|constructor].
  by apply Forall_map.
Qed.

Lemma change_step w b io op cs :
  books w b -> event_ok (Do io op) -> changes_of op = Some cs ->
  exists b', book_step b (Do io op) (world_step w (Do io op)).1 b' /\
    books (world_step w (Do io op)).2 b'.
Proof.
  intros (fs & ls & Ht) [Hop Hio] Hcs. pose proof Ht as [[Hl Hok Hnow Hh Hc Hm] Hbn _ Hsv].
  pose proof (changes_ok _ _ Hcs Hop) as Hps.
  cbn [world_step]. rewrite (changes_step io op cs) by done.
  destruct (append_all _ _ _) as [r l'] eqn:Ea.
  eapply append_all_holds in Ea; [|exact Hl|by apply fits_payloads|by apply next_rolled_back].
  destruct r as [u|e].
  - destruct Ea as [Hl' Hs]. eexists. split; [by apply book_change|].
    exists fs, (ls ++ map change_record cs). cbn [snd].
    replace (durable_after _ _ _ _) with (durable w) by (by destruct op).
    eapply tracks_append; cbn [known now saved doubts]; [exact Ht| |done| |done|done|].
    + split; cbn [with_entries st_log entries head committed_height]; try done.
      * by rewrite app_assoc, map_app.
      * rewrite app_assoc. by apply Forall_app.
      * by rewrite app_assoc, replay_changes, Hnow.
    + by rewrite app_assoc, replay_changes, Hbn.
    + intros n. rewrite app_assoc, firstn_map, replay_changes. cbn [snd].
      rewrite <- (firstn_all ls). apply Hsv.
  - destruct Ea as (-> & -> & Hf). exists b. split.
    + apply book_fail; [by apply next_write_faulty|done].
    + exists fs, ls. cbn [snd]. replace (durable_after _ _ _ _) with (durable w) by (by destruct op).
      by apply tracks_with_log.
Qed.

Lemma commit_step w b io h m :
  books w b -> event_ok (Do io (OpCommit h m)) ->
  exists b', book_step b (Do io (OpCommit h m)) (world_step w (Do io (OpCommit h m))).1 b' /\
    books (world_step w (Do io (OpCommit h m))).2 b'.
Proof.
  intros (fs & ls & Ht) [Hop Hio]. pose proof Ht as [[Hl Hok Hnow Hh Hc Hm] Hbn _ Hsv].
  cbn [world_step do_op]. unfold commit, append.
  destruct (append_all _ _ _) as [r l'] eqn:Ea.
  eapply append_all_holds in Ea;
    [|exact Hl|by constructor; [apply fits_payload|]|by apply next_rolled_back].
  destruct r as [u|e].
  - destruct Ea as [Hl' Hs].
    assert (forall st, st_log st = l' \/ st_log st = log_sync l' -> entries st = entries (store w) ->
      forall k, head st = snd <$> k -> committed_height st = fst <$> k -> mark_ok k ->
      keeps st (fs ++ ls ++ [Commit h m]) k) as Hkeep.
    { intros st Hst Hes k Hk1 Hk2 Hk3. split; try done.
      - rewrite app_assoc, map_app. by destruct Hst as [-> | ->].
      - rewrite app_assoc. apply Forall_app. split; [done|]. by constructor.
      - by rewrite app_assoc, replay_snoc, Hes, Hnow. }
    destruct (sync_ok io) eqn:Es; cbn [negb done fst snd].
    + eexists. split; [by apply book_commit|]. exists (fs ++ ls ++ [Commit h m]), [].
      rewrite Hbn. cbn [durable_after].
      pose proof (tracks_settled (mkStateStore (log_sync l') (entries (store w)) (Some m) (Some h))
        (fs ++ ls ++ [Commit h m]) (Some (h, m))) as Hset.
      rewrite app_assoc, replay_snoc in *. cbn [replay_step fst snd] in Hset. apply Hset.
      apply Hkeep; auto.
    + eexists. split; [by apply book_doubt|]. exists fs, (ls ++ [Commit h m]). cbn [durable_after].
      eapply tracks_append; cbn [known now saved doubts]; [exact Ht| |done| |done|by eexists|].
      * apply Hkeep; auto.
      * by rewrite app_assoc, replay_snoc.
      * intros [|n]; cbn [take].
        -- rewrite app_nil_r, <- (firstn_all ls). specialize (Hsv (length ls)).
           apply elem_of_cons in Hsv as [->|Hin]; [apply list_elem_of_here|].
           apply list_elem_of_further, elem_of_app. by left.
        -- rewrite take_nil, app_assoc, replay_snoc, Hbn. cbn [replay_step snd].
           apply list_elem_of_further, elem_of_app. right. apply list_elem_of_here.
  - destruct Ea as (-> & -> & Hf). exists b. cbn [done fst snd durable_after]. split.
    + apply book_fail; [by apply next_write_faulty|done].
    + exists fs, ls. by apply tracks_with_log.
Qed.

Lemma compacted_step w b rng io r st :
  books w b -> length rng = SALT_LEN -> compact rng io (store w) = (r, st) ->
  match r with
  | Ok _ =>
      match known b with
      | Some m => is_Some (committed_height st) /\
          books (mkWorld st (length (content (st_log st)))) (mkBook (now b) (known b) (now b, Some m) [])
      | None => st = store w /\ committed_height st = None
      end
  | Err e => st = store w /\ fault_of io e
  end.
Proof.
  intros (fs & ls & [Hk Hbn _ _]) Hr Hc. eapply compact_keeps in Hc; [|exact Hk|done].
  destruct r as [u|e]; [|done]. destruct Hc as [Hc He].
  pose proof (keeps_now _ _ _ Hk) as Hnow.
  destruct (known b) as [m|] eqn:Ek.
  - split; [by rewrite (keeps_height _ _ _ Hc)|].
    exists (compacted (entries (store w)) m), []. rewrite Hbn, <- Hnow.
    pose proof (tracks_settled _ _ _ Hc) as Hset. by rewrite replay_compacted in Hset.
  - subst st. by rewrite (keeps_height _ _ _ Hk).
Qed.

Lemma compact_step w b io op :
  books w b -> event_ok (Do io op) -> compacts op = true ->
  exists b', book_step b (Do io op) (world_step w (Do io op)).1 b' /\
    books (world_step w (Do io op)).2 b'.
Proof.
  intros Hb [Hop _] Hcs. destruct w as [st0 d].
  assert (forall rng, length rng = SALT_LEN -> exists b',
    book_step b (Do io op) (done (compact rng io st0)).1 b' /\
    books (mkWorld (compact rng io st0).2 (durable_after (mkWorld st0 d) op
      (done (compact rng io st0)).1 (compact rng io st0).2)) b') as Hall.
  { intros rng Hr. destruct (compact rng io st0) as [r st] eqn:Ec.
    apply (compacted_step (mkWorld st0 d) b) in Ec; [|done|done]. cbn [store] in Ec.
    destruct r as [u|e]; cbn [done fst snd].
    - destruct (known b) as [m|] eqn:Ek.
      + destruct Ec as [[h Hh] Hbk]. eexists. split; [by eapply book_compact|].
        rewrite Ek. destruct op; [done..| |]; cbn [durable_after]; by rewrite Hh.
      + destruct Ec as [-> Hh]. exists b. split; [by apply book_nothing|].
        destruct op; [done..| |]; cbn [durable_after]; by rewrite Hh.
    - destruct Ec as [-> Hf]. exists b. split; [by apply book_fail|].
      by destruct op. }
  destruct op as [| | | |rng|rng]; [done..| |]; cbn [world_step do_op store].
  - destruct (Hall rng Hop) as (b' & Hs & Hbk). exists b'.
    by destruct (done (compact rng io st0)) as [r st] eqn:E; injection E as <- <-.
  - unfold compact_if_bloated. case_step; cbn [negb].
    { exists b. split; [apply book_skip|done]. }
    destruct (compact rng io st0) as [[u|e] st] eqn:Ec.
    + destruct (Hall rng Hop) as (b' & Hs & Hbk). rewrite Ec in Hs, Hbk. by exists b'.
    + apply (compacted_step (mkWorld st0 d) b) in Ec as [-> _]; [|done|done].
      exists b. split; [apply book_skip|done].
Qed.

Lemma state_crash_step w b keep rng rng' io :
  books w b -> event_ok (Crash keep rng rng' io) ->
  let ev := Crash keep rng rng' io in
  exists b', book_step b ev (world_step w ev).1 b' /\ books (world_step w ev).2 b'.
Proof.
  intros (fs & ls & [Hk Hbn Hd Hsv]) [Hr Ht]. cbn zeta. cbn [world_step].
  pose proof Hk as [(Hc & Hs & _) Hok _ _ _ _]. apply Forall_app in Hok as [Hfs Hls].
  rewrite Hc, map_app, log_image_app, take_app, <- Hd.
  rewrite take_ge by (rewrite <- Hd; lia).
  destruct (state_open_cut rng rng' io (salt (st_log (store w))) fs ls
    (Nat.max (durable w) keep - durable w) Hr Hs Ht Hfs Hls) as (st & rs' & n & -> & Hkeep & Hrep).
  eexists. split; [apply book_crash, (Hsv n)|]. cbn [snd].
  exists rs', []. apply tracks_settled in Hkeep. by rewrite Hrep in Hkeep.
Qed.

Lemma step_books w b ev :
  books w b -> event_ok ev ->
  exists b', book_step b ev (world_step w ev).1 b' /\ books (world_step w ev).2 b'.
Proof.
  intros Hb Hev. destruct ev as [io op|]; [|by apply state_crash_step].
  destruct (changes_of op) as [cs|] eqn:Ec; [by eapply change_step|].
  destruct (compacts op) eqn:Ep; [by apply compact_step|].
  destruct op; try done. by apply commit_step.
Qed.

Lemma run_books w b evs :
  books w b -> Forall event_ok evs ->
  exists b', book_run b evs (world_run w evs).1 b' /\ books (world_run w evs).2 b'.
Proof.
  intros Hb Hevs. revert w b Hb. induction Hevs as [|ev evs Hev Hevs IH]; intros w b Hb.
  - exists b. split; [constructor|done].
  - destruct (step_books w b ev Hb Hev) as (b1 & Hs & Hb1). cbn [world_run].
    destruct (world_step w ev) as [r w1]. destruct (IH w1 b1 Hb1) as (b2 & Hr & Hb2).
    destruct (world_run w1 evs) as [rs w2]. exists b2. split; [by econstructor|done].
Qed.

(** A store on a file that was not there. *)
Lemma state_open_new rng rng' io :
  length rng = SALT_LEN -> length rng' = SALT_LEN -> truncate_ok io = true ->
  exists st, open rng rng' [] false io = Ok st /\ books (mkWorld st (length (content (st_log st)))) Book_new.
Proof.
  intros Hr Hr' Ht.
  destruct (state_open_cut rng rng' io rng [] [] 0 Hr' Hr Ht (Forall_nil_2 _) (Forall_nil_2 _))
    as (st & rs & n & Ho & Hk & Hrep).
  rewrite take_nil in *. cbn [map] in Ho. rewrite take_0, app_nil_r in Ho.
  exists st. split.
  - rewrite <- Ho. unfold open, open_with_floor, open_scanned_keeping_tail_strict, scan_open_parts.
    by rewrite prepare_absent.
  - exists rs, []. apply tracks_settled in Hk. by rewrite Hrep in Hk.
Qed.

Lemma books_reads w b :
  books w b ->
  entries (store w) = now b /\ head (store w) = snd <$> known b /\
  committed_height (store w) = fst <$> known b.
Proof. intros (fs & ls & [[] ? ? ?]). by split_and!; [congruence|..]. Qed.

(** ** The trie a store loads *)

Lemma load_run sha3_256 kvs t memo :
  run sha3_256 (t, memo) (map (fun kv => OpInsert true kv.1 kv.2) kvs) =
  Done (foldl (fun t kv => Trie_insert true t kv.1 kv.2) t kvs, memo).
Proof. revert t. induction kvs as [|kv kvs IH]; intros t; [done|]. apply IH. Qed.

Lemma load_model kvs m :
  foldl model_op m (map (fun kv => OpInsert true kv.1 kv.2) kvs) =
  (foldl (fun m kv => <[kv.1 := kv.2]> m) m.1 kvs, m.2).
Proof. revert m. induction kvs as [|kv kvs IH]; intros [m s]; [done|].
  cbn [map foldl]. by rewrite IH. Qed.

Lemma loaded_root sha3_256 st :
  entries_ok (StateStore.entries st) ->
  exists t memo, root sha3_256 true (load_trie sha3_256 st) (mkAnchors ∅ ∅) =
    Done (map_root sha3_256 (StateStore.entries st), t, memo).
Proof.
  intros He. set (ops := map (fun kv => OpInsert true kv.1 kv.2) (in_order (StateStore.entries st))).
  assert (Forall TrieSpec.op_ok ops) as Hops.
  { apply Forall_map. rewrite in_order_perm. apply map_Forall_to_list in He.
    eapply Forall_impl; [exact He|]. by intros [k v] [[Hk _] _]. }
  destruct (run_abstracts sha3_256 _ _ ops (start_abstracts sha3_256) Hops) as (s' & Hrun & Ha).
  unfold ops, start in Hrun, Ha. rewrite load_run in Hrun. injection Hrun as <-.
  rewrite load_model in Ha. cbn [fst snd] in Ha. rewrite in_order_rebuilds in Ha.
  pose proof Ha as [Hi Hm _ _ _]. cbn [fst snd] in Hi, Hm.
  destruct (root_ok sha3_256 true _ _ Hi Hm) as (t' & memo' & Hr & _).
  exists t', memo'. unfold load_trie. rewrite Hr. by rewrite (abstracts_root sha3_256 _ _ _ Ha).
Qed.

(** ** Claims *)

Definition opened (st : StateStore) : World := mkWorld st (length (content (st_log st))).

(** C15: the state store keeps its book through faults and crashes.  Take a store on a
    new file and any history of puts, batches, deletions, commits and
    compactions, in which writes fail (and are rolled back), syncs and renames
    fail, and the process dies and reopens the file cut anywhere behind its
    durable part.  Every answer and every read is that of the book: a failed
    operation has a fault that accounts for it and changes nothing, the leaves
    and the head are those of the changes and commits that returned, and an
    opening after a crash succeeds and finds exactly what the last returned
    commit or compaction saved, or a later commit whose sync failed. *)
Theorem state_store_keeps_its_book rng rng' io evs :
  length rng = SALT_LEN -> length rng' = SALT_LEN -> truncate_ok io = true -> Forall event_ok evs ->
  exists st, open rng rng' [] false io = Ok st /\
    let '(rs, w) := world_run (opened st) evs in
    exists b, book_run Book_new evs rs b /\
      StateStore.entries (store w) = now b /\ head (store w) = snd <$> known b /\
      committed_height (store w) = fst <$> known b.
Proof.
  intros Hr Hr' Ht Hevs. destruct (state_open_new rng rng' io Hr Hr' Ht) as (st & Ho & Hb).
  exists st. split; [done|]. destruct (run_books _ _ evs Hb Hevs) as (b & Hrun & Hbk).
  destruct (world_run (opened st) evs) as [rs w] eqn:E. unfold opened in E. rewrite E in Hrun, Hbk.
  exists b. split; [done|]. by apply books_reads.
Qed.

Definition change_event (ev : Event) : Prop :=
  match ev with Do _ op => is_Some (changes_of op) | _ => False end.

Lemma changes_keep_saved b evs rs b' :
  book_run b evs rs b' -> Forall change_event evs -> saved b' = saved b /\ doubts b' = doubts b.
Proof.
  induction 1 as [|b ev r b1 evs rs b2 Hs Hr IH]; intros Hevs; [done|].
  apply Forall_cons in Hevs as [Hev Hevs]. destruct (IH Hevs) as [-> ->].
  destruct Hs as [| | |? ? []|? ? []| | |]; try done; by destruct Hev.
Qed.

(** C16: a commit that returned survives.  After any history, if [commit] returns, and
    then any puts, batches and deletions run, returning or failing, a crash that
    cuts the file anywhere behind what the commit synced, in the middle of a
    record too, loses none of it and adds nothing: the store reopens with exactly
    the leaves of the time of the commit, its root as the head and its height,
    and the trie it loads has the root of these leaves. *)
Theorem committed_state_survives sha3_256 rng0 rng1 io0 st evs io h m evs' keep rng rng' io' :
  length rng0 = SALT_LEN -> length rng1 = SALT_LEN -> truncate_ok io0 = true ->
  open rng0 rng1 [] false io0 = Ok st -> Forall event_ok evs -> Forall event_ok evs' ->
  Forall change_event evs' -> event_ok (Do io (OpCommit h m)) -> event_ok (Crash keep rng rng' io') ->
  let w1 := (world_run (opened st) evs).2 in
  let '(r, w2) := world_step w1 (Do io (OpCommit h m)) in
  r = Ok true ->
  let w3 := (world_run w2 evs').2 in
  let '(r, w4) := world_step w3 (Crash keep rng rng' io') in
  r = Ok true /\ StateStore.entries (store w4) = StateStore.entries (store w1) /\
  head (store w4) = Some m /\ committed_height (store w4) = Some h /\
  exists t memo, root sha3_256 true (load_trie sha3_256 (store w4)) (mkAnchors ∅ ∅) =
    Done (map_root sha3_256 (StateStore.entries (store w1)), t, memo).
Proof.
  intros Hr0 Hr1 Ht0 Ho He He' Hce Hc Hcr w1.
  assert (books (opened st) Book_new) as Hb.
  { destruct (state_open_new rng0 rng1 io0 Hr0 Hr1 Ht0) as (st' & Ho' & ?). rewrite Ho in Ho'. by injection Ho' as <-. }
  destruct (run_books _ _ evs Hb He) as (b1 & _ & Hb1). fold w1 in Hb1.
  destruct (step_books _ _ _ Hb1 Hc) as (b2 & Hs2 & Hb2).
  destruct (world_step w1 _) as [r w2]. cbn [fst snd] in *. intros ->.
  assert (saved b2 = (now b1, Some (h, m)) /\ doubts b2 = []) as [Hsv2 Hd2].
  { inversion Hs2; simplify_eq/=; done. }
  destruct (run_books _ _ evs' Hb2 He') as (b3 & Hr3 & Hb3).
  destruct (changes_keep_saved _ _ _ _ Hr3 Hce) as [Hsv3 Hd3].
  destruct (step_books _ _ _ Hb3 Hcr) as (b4 & Hs4 & Hb4). cbn zeta.
  destruct (world_step (world_run w2 evs').2 _) as [r w4]. cbn [fst snd] in *.
  inversion Hs4 as [| | | | | | |? ? ? ? ? s Hs]; subst.
  rewrite Hsv3, Hd3, Hsv2, Hd2 in Hs. apply list_elem_of_singleton in Hs as ->.
  destruct (books_reads _ _ Hb1) as (Hn1 & _). destruct (books_reads _ _ Hb4) as (Hn4 & Hh4 & Hc4).
  cbn in Hn4, Hh4, Hc4. rewrite Hn1, Hn4, Hh4, Hc4. split_and!; [done..|].
  rewrite <- Hn4. apply loaded_root. destruct Hb4 as (fs & ls & [Hk _ _ _]).
  by eapply keeps_entries_ok.
Qed.

(** *** Examples *)

Definition example_salt : list byte := replicate 16 x5a.
Definition quiet : Faults := mkFaults [] true true true.
Definition example_key (b : byte) : list byte := b :: replicate 31 x00.
Definition example_root (b : byte) : list byte := replicate 32 b.

(** A commit, a failed write, a change, a commit whose sync fails, a crash that
    tears it, a deletion and a compaction. *)
Definition example_events : list Event :=
  [Do quiet (OpPut (example_key x01) [x07]); Do quiet (OpCommit 1 (example_root xaa));
   Do (mkFaults [Some (3%nat, true)] true true true) (OpPut (example_key x02) [x08]);
   Do quiet (OpApply [(example_key x02, Some [x09]); (example_key x01, None)]);
   Do (mkFaults [] false true true) (OpCommit 2 (example_root xbb));
   Crash 250 example_salt example_salt quiet;
   Do quiet (OpDelete (example_key x03)); Do quiet (OpCompact example_salt)].

Lemma state_store_keeps_its_book_witness :
  exists st, open example_salt example_salt [] false quiet = Ok st /\
    let '(rs, w) := world_run (opened st) example_events in
    exists b, book_run Book_new example_events rs b /\
      StateStore.entries (store w) = now b /\ head (store w) = snd <$> known b /\
      committed_height (store w) = fst <$> known b.
Proof.
  apply (state_store_keeps_its_book example_salt example_salt quiet example_events).
  - reflexivity.
  - reflexivity.
  - reflexivity.
  - repeat constructor; vm_compute; repeat split; congruence.
Defined.

Definition example_store : StateStore :=
  mkStateStore (mkLog (log_image example_salt []) example_salt true) ∅ None None.
Definition example_put : World :=
  (world_run (opened example_store) [Do quiet (OpPut (example_key x01) [x07])]).2.
Definition example_commit : World :=
  (world_step example_put (Do quiet (OpCommit 1 (example_root xaa)))).2.
Definition example_delete : World :=
  (world_run example_commit [Do quiet (OpDelete (example_key x01))]).2.

(** A put and its commit, then a deletion that is torn. *)
Lemma committed_state_survives_witness :
  let '(r, w) := world_step example_delete (Crash 150 example_salt example_salt quiet) in
  r = Ok true /\ StateStore.entries (store w) = StateStore.entries (store example_put) /\
  head (store w) = Some (example_root xaa) /\ committed_height (store w) = Some 1 /\
  exists t memo, root (fun _ => []) true (load_trie (fun _ => []) (store w)) (mkAnchors ∅ ∅) =
    Done (map_root (fun _ => []) (StateStore.entries (store example_put)), t, memo).
Proof.
  pose proof (committed_state_survives (fun _ => []) example_salt example_salt quiet example_store
    [Do quiet (OpPut (example_key x01) [x07])] quiet 1 (example_root xaa)
    [Do quiet (OpDelete (example_key x01))] 150 example_salt example_salt quiet) as H.
  cbv zeta in H. fold example_put in H.
  destruct (world_step example_put (Do quiet (OpCommit 1 (example_root xaa)))) as [r w2] eqn:E.
  assert (r = Ok true /\ w2 = example_commit) as [-> ->].
  { unfold example_commit. rewrite E. split; [|reflexivity].
    change r with (fst (r, w2)). rewrite <- E. vm_compute. reflexivity. }
  fold example_delete in H. apply H.
  - reflexivity.
  - reflexivity.
  - reflexivity.
  - vm_compute. reflexivity.
  - repeat constructor; vm_compute; repeat split; congruence.
  - repeat constructor; vm_compute; repeat split; congruence.
  - repeat constructor. eexists. reflexivity.
  - repeat constructor; vm_compute; repeat split; congruence.
  - split; reflexivity.
  - reflexivity.
Defined.

(** A write that fails and is not rolled back (the result of the truncation is
    dropped in [append_all]) leaves a torn frame in the log.  The next put and
    the next commit return, but their frames lie behind the torn one: after a
    restart that loses no byte the store is empty. *)
Theorem commit_after_failed_rollback_is_lost :
  let io := mkFaults [Some (5%nat, false)] true true true in
  let '(rs, w) := world_run (opened example_store)
    [Do io (OpPut (example_key x01) [x07]); Do quiet (OpPut (example_key x01) [x07]);
     Do quiet (OpCommit 1 (example_root xaa))] in
  let '(r, w') := world_step w (Crash (durable w) example_salt example_salt quiet) in
  rs = [Err (InLog WriteFailed); Ok true; Ok true] /\
  head (store w) = Some (example_root xaa) /\ durable w = length (content (st_log (store w))) /\
  r = Ok true /\ head (store w') = None /\ StateStore.entries (store w') = ∅.
Proof. vm_compute. repeat split. Qed.
