(* ===== verification/RecordIndex.v ===== *)
(** * What the indexed stores share

    The stores of blocks, events, burns and rosters keep in memory where each
    record of their log lies and search these lists by binary search.  Here:
    the search of the standard library ([slice::binary_search_by] and
    [partition_point]), the places of the records of a log and that reading
    there returns them, and the system's part in an operation. *)

From stdpp Require Import sorting.
From S2P Require Import Prelude Codec Crc Log StoreLog.

(** ** Binary search over a slice of length [n], with the order of element [i] *)

Fixpoint search_loop (fuel : nat) (f : nat -> comparison) (base size : nat) : nat :=
  match fuel with
  | O => base
  | S fuel =>
      if (size <=? 1)%nat then base
      else
        let half := (size / 2)%nat in
        let mid := (base + half)%nat in
        let base := match f mid with Gt => base | _ => mid end in
        search_loop fuel f base (size - half)
  end.

(** [inl] is [Ok], [inr] is [Err]. *)
Definition binary_search_by (n : nat) (f : nat -> comparison) : nat + nat :=
  if (n =? 0)%nat then inr 0%nat
  else
    let base := search_loop n f 0 n in
    match f base with
    | Eq => inl base
    | Lt => inr (base + 1)%nat
    | Gt => inr base
    end.

Definition binary_search (xs : list Z) (x : Z) : option nat :=
  match binary_search_by (length xs) (fun i => nth i xs 0 ?= x) with
  | inl i => Some i
  | inr _ => None
  end.

Definition partition_point (xs : list Z) (p : Z -> bool) : nat :=
  match binary_search_by (length xs) (fun i => if p (nth i xs 0) then Lt else Gt) with
  | inl i => i
  | inr i => i
  end.

(** [iter().take_while(|h| h <= height).count()] *)
Fixpoint leading (height : Z) (hs : list Z) : nat :=
  match hs with
  | h :: hs => if h <=? height then S (leading height hs) else 0
  | [] => 0
  end.

(** The loop ends at the last element that is not greater, or at the first. *)
Lemma search_loop_spec fuel f base size n :
  (size <= fuel)%nat -> (0 < size)%nat -> (base + size <= n)%nat ->
  (forall i j, (i <= j)%nat -> (j < n)%nat -> f i = Gt -> f j = Gt) ->
  (base = 0%nat \/ f base <> Gt) -> (forall i, (base + size <= i < n)%nat -> f i = Gt) ->
  let r := search_loop fuel f base size in
  (r < n)%nat /\ (r = 0%nat \/ f r <> Gt) /\ forall i, (r < i < n)%nat -> f i = Gt.
Proof.
  intros Hf Hs Hn Hmono. revert base size Hf Hs Hn.
  induction fuel as [|fuel IH]; intros base size Hf Hs Hn Hb Hgt; [lia|].
  cbn [search_loop]. destruct (Nat.leb_spec size 1) as [H1|H1].
  { cbn zeta. split_and!; [lia|done|]. intros i Hi. apply Hgt. lia. }
  assert (0 < size / 2 < size)%nat as Hh.
  { split; [apply Nat.div_str_pos; lia|apply Nat.div_lt; lia]. }
  assert (size / 2 * 2 <= size)%nat as Hh2 by (pose proof (Nat.Div0.mul_div_le size 2); lia).
  cbn zeta. apply IH; try lia.
  - destruct (f (base + size / 2)%nat) eqn:E; lia.
  - destruct (f (base + size / 2)%nat) eqn:E; [right; congruence..|done].
  - intros i Hi. destruct (f (base + size / 2)%nat) eqn:E; [apply Hgt; lia..|].
    apply (Hmono (base + size / 2)%nat); [lia|lia|done].
Qed.

Lemma sorted_lookup {A} (R : A -> A -> Prop) xs i j x y :
  StronglySorted R xs -> (i < j)%nat -> xs !! i = Some x -> xs !! j = Some y -> R x y.
Proof.
  intros Hxs. revert i j. induction Hxs as [|z xs Hxs IH Hz]; intros i j Hij Hi Hj; [done|].
  destruct j as [|j]; [lia|]. cbn in Hj. destruct i as [|i]; cbn in Hi.
  - injection Hi as ->. rewrite Forall_forall in Hz. apply Hz. by eapply list_elem_of_lookup_2.
  - eapply (IH i j); [lia|done|done].
Qed.

(** On a slice in strictly increasing order the search finds exactly what is there. *)
Lemma binary_search_spec xs x i :
  StronglySorted Z.lt xs -> (binary_search xs x = Some i <-> xs !! i = Some x).
Proof.
  intros Hxs. unfold binary_search, binary_search_by.
  assert (forall i j, (i < j)%nat -> (j < length xs)%nat -> nth i xs 0 < nth j xs 0) as Hlt.
  { intros a b Hab Hb. destruct (lookup_lt_is_Some_2 xs a) as [u Hu]; [lia|].
    destruct (lookup_lt_is_Some_2 xs b) as [v Hv]; [lia|].
    rewrite (nth_lookup_Some _ _ _ _ Hu), (nth_lookup_Some _ _ _ _ Hv).
    by apply (sorted_lookup Z.lt xs a b). }
  destruct (Nat.eqb_spec (length xs) 0) as [H0|H0].
  { apply nil_length_inv in H0 as ->. done. }
  destruct (search_loop_spec (length xs) (fun i => nth i xs 0 ?= x) 0 (length xs) (length xs))
    as (Hr & Hr0 & Hgt); [lia..| |by left|lia|].
  { intros a b Hab Hb. rewrite !Z.compare_gt_iff. destruct (decide (a = b)) as [->|]; [done|].
    specialize (Hlt a b). lia. }
  set (r := search_loop _ _ _ _) in *.
  assert (forall j, xs !! j = Some x -> r = j) as Huniq.
  { intros j Hj. pose proof (lookup_lt_Some _ _ _ Hj) as Hjl. apply (nth_lookup_Some _ _ 0) in Hj.
    destruct (Nat.lt_trichotomy r j) as [Hlt'|[?|Hlt']]; [|done|].
    - specialize (Hgt j). rewrite Z.compare_gt_iff in Hgt. lia.
    - destruct Hr0 as [?|Hr0]; [lia|]. rewrite Z.compare_gt_iff in Hr0. specialize (Hlt j r). lia. }
  destruct (nth r xs 0 ?= x) eqn:E.
  - apply Z.compare_eq in E. split; [intros [= <-]|intros ?; f_equal; by apply Huniq].
    destruct (lookup_lt_is_Some_2 xs r Hr) as [u Hu]. by rewrite (nth_lookup_Some _ _ 0 _ Hu) in E; subst.
  - split; [done|]. intros Hj. pose proof (Huniq _ Hj) as ->. apply (nth_lookup_Some _ _ 0) in Hj.
    rewrite Hj, Z.compare_refl in E. done.
  - split; [done|]. intros Hj. pose proof (Huniq _ Hj) as ->. apply (nth_lookup_Some _ _ 0) in Hj.
    rewrite Hj, Z.compare_refl in E. done.
Qed.

(** On a partitioned slice it is the number of the elements of the first part. *)
Lemma partition_point_spec xs p :
  (forall i j, (i <= j)%nat -> (j < length xs)%nat -> p (nth j xs 0) = true -> p (nth i xs 0) = true) ->
  let k := partition_point xs p in
  (k <= length xs)%nat /\ (forall i, (i < k)%nat -> p (nth i xs 0) = true) /\
  (forall i, (k <= i < length xs)%nat -> p (nth i xs 0) = false).
Proof.
  intros Hmono. unfold partition_point, binary_search_by.
  destruct (Nat.eqb_spec (length xs) 0) as [H0|H0]; [cbn zeta; split_and!; lia|].
  set (f := fun i => if p (nth i xs 0) then Lt else Gt).
  assert (forall i, (f i = Gt <-> p (nth i xs 0) = false) /\ (f i = Lt <-> p (nth i xs 0) = true)) as Hf.
  { intros i. unfold f. by destruct (p _). }
  destruct (search_loop_spec (length xs) f 0 (length xs) (length xs))
    as (Hr & Hr0 & Hgt); [lia..| |by left|lia|].
  { intros i j Hij Hj Hi%Hf. apply Hf. destruct (p (nth j xs 0)) eqn:E; [|done].
    rewrite (Hmono i j) in Hi by done. done. }
  set (r := search_loop _ _ _ _) in *.
  assert (f r <> Eq) as Hne by (unfold f; by destruct (p _)).
  change (if p (nth r xs 0) then Lt else Gt) with (f r). destruct (f r) eqn:E; [done| |]; cbn zeta.
  - split_and!; [lia| |]; intros i Hi.
    + apply (Hmono i r); [lia|done|]. by apply Hf.
    + apply Hf, Hgt. lia.
  - split_and!; [lia| |]; intros i Hi.
    + destruct Hr0 as [?|Hr0]; [lia|done].
    + apply Hf. destruct (decide (i = r)) as [->|]; [done|]. apply Hgt. lia.
Qed.

(** ** Where the records of a log lie *)

(** The payloads of records whose first frame is at [pos]. *)
Fixpoint starts_from (pos : nat) (ps : list (list byte)) : list nat :=
  match ps with
  | [] => []
  | p :: ps => (pos + LEN_WIDTH)%nat :: starts_from (pos + frame_len (length p)) ps
  end.

(** The end of the last frame. *)
Definition end_of (pos : nat) (ps : list (list byte)) : nat :=
  foldl (fun pos p => pos + frame_len (length p))%nat pos ps.

Lemma end_of_image s pos ps : end_of pos ps = (pos + length (frames_image s ps))%nat.
Proof.
  revert pos. induction ps as [|p ps IH]; intros pos; [cbn; lia|].
  change (end_of pos (p :: ps)) with (end_of (pos + frame_len (length p)) ps). rewrite IH.
  unfold frames_image. cbn [map concat]. rewrite length_app, length_frame. lia.
Qed.

Lemma starts_from_app pos ps qs :
  starts_from pos (ps ++ qs) = starts_from pos ps ++ starts_from (end_of pos ps) qs.
Proof.
  revert pos. induction ps as [|p ps IH]; intros pos; [done|]. cbn [app starts_from]. by rewrite IH.
Qed.

Lemma length_starts pos ps : length (starts_from pos ps) = length ps.
Proof. revert pos. induction ps as [|p ps IH]; intros pos; cbn; [done|]. by rewrite IH. Qed.

Lemma starts_lookup pos ps i p :
  ps !! i = Some p -> starts_from pos ps !! i = Some (end_of pos (take i ps) + LEN_WIDTH)%nat.
Proof.
  revert pos i. induction ps as [|q ps IH]; intros pos i Hi; [done|].
  destruct i as [|i]; [done|]. cbn in Hi. cbn [starts_from take end_of foldl]. by apply (IH _ i).
Qed.

#[local] Opaque HEADER_LEN.

Lemma content_length l ps : holds l ps -> length (content l) = end_of HEADER_LEN ps.
Proof.
  intros (Hc & Hs & _). by rewrite Hc, (end_of_image (salt l)), length_log_image.
Qed.

(** Reading at its place returns a record. *)
Lemma read_placed l ps i p :
  holds l ps -> ps !! i = Some p ->
  read_payload l (end_of HEADER_LEN (take i ps) + LEN_WIDTH) (length p) = Ok p.
Proof.
  intros Hl Hi. pose proof Hl as (Hc & Hs & Hps). apply take_drop_middle in Hi as Hsplit.
  set (pre := log_image (salt l) (take i ps)).
  assert (content l = pre ++ frame (salt l) p ++ frames_image (salt l) (drop (S i) ps)) as Hfile.
  { rewrite Hc. rewrite <- Hsplit at 1. rewrite log_image_app. unfold pre. f_equal. }
  assert (end_of HEADER_LEN (take i ps) = length pre) as ->.
  { unfold pre. symmetry. apply (content_length (mkLog _ (salt l) true)). split_and!; [done|done|].
    by apply Forall_take. }
  assert (payload_ok p) as Hp by (rewrite Forall_lookup in Hps; eauto).
  destruct (frame_fields (salt l) pre p _ _ _ Hp Hfile eq_refl) as (Hlen & _ & Hsl & _).
  unfold read_payload. unfold frame_len in Hlen.
  destruct (Nat.leb_spec (length pre + LEN_WIDTH + length p) (length (content l))); [|lia].
  by rewrite Hsl.
Qed.

(** *** Cutting a log behind a record *)

Lemma end_of_snoc pos ps p : end_of pos (ps ++ [p]) = (end_of pos ps + frame_len (length p))%nat.
Proof. unfold end_of. by rewrite foldl_app. Qed.

Lemma end_of_le pos ps qs : (end_of pos ps <= end_of pos (ps ++ qs))%nat.
Proof.
  rewrite !(end_of_image []), frames_image_app, length_app. lia.
Qed.

Lemma end_of_header ps : (HEADER_LEN <= end_of HEADER_LEN ps)%nat.
Proof. apply (end_of_le HEADER_LEN []). Qed.

Lemma truncate_holds l ps qs :
  holds l (ps ++ qs) -> holds (log_truncate l (end_of HEADER_LEN ps)) ps.
Proof.
  intros (Hc & Hs & Hps). apply Forall_app in Hps as [Hps _]. split_and!; [|done|done].
  unfold log_truncate. cbn [content salt]. rewrite Nat.max_l by apply end_of_header.
  rewrite Hc, log_image_app. apply take_app_length'.
  by rewrite (end_of_image (salt l)), length_log_image.
Qed.

(** The place of the record before the cut gives the end of the part that stays. *)
Lemma place_end ps n p :
  ps !! n = Some p ->
  (nth n (starts_from HEADER_LEN ps) 0 + length p + CHECKSUM_WIDTH)%nat = end_of HEADER_LEN (take (S n) ps).
Proof.
  intros Hn. rewrite (take_S_r _ _ _ Hn), end_of_snoc.
  rewrite (nth_lookup_Some _ _ _ _ (starts_lookup HEADER_LEN _ _ _ Hn)). unfold frame_len. lia.
Qed.

(** *** A file of encoded records that was cut *)

Lemma take_log_image s fs ls d k :
  length s = SALT_LEN -> d = end_of HEADER_LEN fs ->
  take (Nat.max d k) (log_image s (fs ++ ls)) =
  log_image s fs ++ take (Nat.max d k - d) (frames_image s ls).
Proof.
  intros Hs ->. rewrite log_image_app, take_app.
  rewrite length_log_image, <- end_of_image by done. rewrite take_ge; [done|].
  rewrite length_log_image, <- end_of_image by done. lia.
Qed.

(** *** Keeping the records up to a height *)

Lemma filter_none {A} (P : A -> Prop) `{!forall x, Decision (P x)} l :
  Forall (fun x => ~ P x) l -> filter P l = [].
Proof. induction 1 as [|x l Hx Hl IH]; [done|]. by rewrite filter_cons_False. Qed.

(** On a list in order of its keys the leading part is what a filter keeps. *)
Lemma leading_filter {R} (key : R -> Z) h rs :
  StronglySorted Z.le (map key rs) ->
  take (leading h (map key rs)) rs = filter (fun r => key r <= h) rs.
Proof.
  induction rs as [|r rs IH]; intros Hs; [done|]. cbn [map leading] in *.
  inversion_clear Hs as [|? ? Hs' Hall]. rewrite filter_cons.
  destruct (Z.leb_spec (key r) h); [rewrite decide_True by done; cbn [take]; by rewrite IH|].
  rewrite decide_False by lia. cbn [take]. symmetry. apply filter_none.
  rewrite Forall_map in Hall. eapply Forall_impl; [exact Hall|]. cbn beta. lia.
Qed.

Lemma sorted_lt_le xs : StronglySorted Z.lt xs -> StronglySorted Z.le xs.
Proof.
  induction 1 as [|x xs Hxs IH Hx]; constructor; [done|].
  eapply Forall_impl; [exact Hx|]. lia.
Qed.

Lemma sorted_keys_take {R} (key : R -> Z) (rel : Z -> Z -> Prop) n rs :
  StronglySorted rel (map key rs) -> StronglySorted rel (map key (take n rs)).
Proof.
  rewrite <- (take_drop n rs) at 1. rewrite map_app. apply StronglySorted_app_1_l.
Qed.

Lemma leading_le h hs : (leading h hs <= length hs)%nat.
Proof. induction hs as [|x hs IH]; cbn; [done|]. case_step; lia. Qed.

Lemma starts_take pos n ps : take n (starts_from pos ps) = starts_from pos (take n ps).
Proof.
  revert pos n. induction ps as [|p ps IH]; intros pos [|n]; [done..|].
  cbn [starts_from take]. by rewrite IH.
Qed.

Lemma leading_spec h hs :
  (forall i x, hs !! i = Some x -> (i < leading h hs)%nat -> x <= h) /\
  (forall x, hs !! leading h hs = Some x -> h < x).
Proof.
  induction hs as [|y hs [IH1 IH2]]; [done|]. cbn [leading]. destruct (Z.leb_spec y h); split.
  - intros [|i] x Hx Hi; cbn in Hx; [by injection Hx as <-|]. apply (IH1 i); [done|lia].
  - intros x Hx. by apply IH2.
  - intros i x _ Hi. lia.
  - by intros x [= <-].
Qed.

Lemma end_of_take_lt pos ps i n p :
  ps !! i = Some p -> (i < n)%nat -> (end_of pos (take i ps) + LEN_WIDTH < end_of pos (take n ps))%nat.
Proof.
  intros Hp Hin. pose proof (lookup_lt_Some _ _ _ Hp).
  assert (take n ps = take (S i) ps ++ take (n - S i) (drop (S i) ps)) as ->.
  { rewrite take_take_drop. f_equal. lia. }
  pose proof (end_of_le pos (take (S i) ps) (take (n - S i) (drop (S i) ps))) as Hle.
  rewrite (take_S_r _ _ _ Hp) in *. rewrite end_of_snoc in *.
  unfold frame_len, CHECKSUM_WIDTH in *. lia.
Qed.

Lemma end_of_take_le pos ps i n :
  (n <= i)%nat -> (end_of pos (take n ps) <= end_of pos (take i ps))%nat.
Proof.
  intros Hn. assert (take i ps = take n ps ++ take (i - n) (drop n ps)) as ->.
  { rewrite take_take_drop. f_equal. lia. }
  apply end_of_le.
Qed.
