(* ===== verification/BlockStore.v ===== *)
(** * The block store (crates/qtv-store/src/block_store.rs)

    Blocks in order of their height, one record each, with the heights, hashes
    and places of the records in memory.  The fields the closure of [open]
    captures are those of the store without its log: [BlockIndex]. *)

From S2P Require Import Prelude Codec Crc Log Tx Block StoreLog RecordIndex.

(** [qtv_block::Block]. *)
Record Block : Type := mkBlock {
  block_header : Header;
  block_certificate : list byte;
  block_body : list Wrapper }.

Definition Block_encode (b : Block) (e : Encoder) : Encoder :=
  foldl (fun e w => Wrapper_encode w e)
    (e |> Header_encode (block_header b) |> put_bytes (block_certificate b)
       |> put_u64 (len (block_body b))) (block_body b).

Definition block_bytes (b : Block) : list byte := into_bytes (Block_encode b Encoder_new).

Record BlockRecord : Type := mkBlockRecord {
  br_height : Z;
  br_hash : list byte;
  br_block : list byte }.

Definition put_hash (hash : list byte) (e : Encoder) : Encoder :=
  foldl (fun e b => put_u8 (byte_val b) e) e hash.

Definition get_hash : Dec (list byte) :=
  let* bytes := decode_n get_u8 ROOT_LEN in
  dret (map byte_of bytes).

Definition BlockRecord_encode (r : BlockRecord) (e : Encoder) : Encoder :=
  e |> put_u64 (br_height r) |> put_hash (br_hash r) |> put_bytes (br_block r).

Definition BlockRecord_decode : Dec BlockRecord :=
  let* height := get_u64 in
  let* hash := get_hash in
  let* block := get_bytes in
  dret (mkBlockRecord height hash block).

Definition BlockRecord_codec : Codec BlockRecord :=
  mkCodec BlockRecord BlockRecord_encode BlockRecord_decode (fun r =>
    u64 (br_height r) /\ length (br_hash r) = 32%nat /\ u64 (len (br_block r))).

Record BlockIndex : Type := mkBlockIndex {
  heights : list Z;
  hashes : list (list byte);
  starts : list nat;
  lens : list nat;
  by_hash : gmap (list byte) nat;
  head_height : option Z;
  len_on_disk : nat }.

Record BlockStore : Type := mkBlockStore { bs_log : Log; bs_index : BlockIndex }.

Inductive BlockStoreError : Type :=
| InLog (e : LogError)
| NotIncreasing
| TruncateFailed
| SyncFailed.

Definition BlockIndex_new : BlockIndex := mkBlockIndex [] [] [] [] ∅ None 0.

Definition raise (current : option Z) (height : Z) : option Z :=
  Some (match current with Some c => Z.max c height | None => height end).

(** What [open] and [put_block] do with a record. *)
Definition push_record (r : BlockRecord) (payload_start payload_len end_ : nat) (i : BlockIndex)
    : BlockIndex :=
  mkBlockIndex (heights i ++ [br_height r]) (hashes i ++ [br_hash r])
    (starts i ++ [payload_start]) (lens i ++ [payload_len])
    (<[br_hash r := length (heights i)]> (by_hash i))
    (raise (head_height i) (br_height r)) end_.

Definition visit (i : BlockIndex) (payload : list byte) (payload_start end_ : nat)
    : bool * BlockIndex :=
  match from_bytes BlockRecord_codec payload with
  | Ok r => (true, push_record r payload_start (length payload) end_ i)
  | Err _ => (false, i)
  end.

Definition with_len (i : BlockIndex) (n : nat) : BlockIndex :=
  mkBlockIndex (heights i) (hashes i) (starts i) (lens i) (by_hash i) (head_height i) n.

Definition open (rng file : list byte) : Result BlockStoreError BlockStore :=
  match open_scanned_strict visit rng file BlockIndex_new with
  | Err e => Err (InLog e)
  | Ok (log, i) => Ok (mkBlockStore log (with_len i (Nat.max (len_on_disk i) HEADER_LEN)))
  end.

Section Hashing.
Variable sha3_256 : list byte -> list byte.

Definition header_hash (b : Block) : list byte := Header_hash sha3_256 (block_header b).

Definition block_record (b : Block) : BlockRecord :=
  mkBlockRecord (height (block_header b)) (header_hash b) (block_bytes b).

(** [fault] is what the write meets. *)
Definition put_block (fault : option (nat * bool)) (b : Block) (s : BlockStore)
    : Result BlockStoreError unit * BlockStore :=
  let i := bs_index s in
  if match last (heights i) with Some last => height (block_header b) <=? last | None => false end
  then (Err NotIncreasing, s)
  else
    let record := block_record b in
    let framed := to_bytes BlockRecord_codec record in
    match append fault (bs_log s) framed with
    | (Err e, l) => (Err (InLog e), mkBlockStore l i)
    | (Ok _, l) =>
        let payload_start := (len_on_disk i + LEN_WIDTH)%nat in
        let end_ := (len_on_disk i + frame_len (length framed))%nat in
        (Ok tt, mkBlockStore l (push_record record payload_start (length framed) end_ i))
    end.
End Hashing.

Definition sync (ok : bool) (s : BlockStore) : Result BlockStoreError unit * BlockStore :=
  if dirty (bs_log s) && negb ok then (Err SyncFailed, s)
  else (Ok tt, mkBlockStore (log_sync (bs_log s)) (bs_index s)).

(** The loop that fills [by_hash] and [head_height] again. *)
Fixpoint rebuild (index : nat) (hs : list (Z * list byte)) (m : gmap (list byte) nat)
    (head : option Z) : gmap (list byte) nat * option Z :=
  match hs with
  | [] => (m, head)
  | (height, hash) :: hs => rebuild (S index) hs (<[hash := index]> m) (raise head height)
  end.

(** [ok]: whether the file can be cut. *)
Definition truncate_to_height (ok : bool) (height : Z) (s : BlockStore)
    : Result BlockStoreError unit * BlockStore :=
  let i := bs_index s in
  let keep := leading height (heights i) in
  if (keep =? length (heights i))%nat then (Ok tt, s)
  else
    let new_len :=
      if (keep =? 0)%nat then HEADER_LEN
      else (nth (keep - 1) (starts i) 0 + nth (keep - 1) (lens i) 0 + CHECKSUM_WIDTH)%nat in
    if negb ok then (Err TruncateFailed, s)
    else
      let hs := take keep (heights i) in
      let xs := take keep (hashes i) in
      let '(m, head) := rebuild 0 (combine hs xs) ∅ None in
      (Ok tt, mkBlockStore (log_truncate (bs_log s) new_len)
        (mkBlockIndex hs xs (take keep (starts i)) (take keep (lens i)) m head new_len)).

Definition read_block (s : BlockStore) (index : nat) : option (list byte) :=
  match starts (bs_index s) !! index, lens (bs_index s) !! index with
  | Some start, Some n =>
      match read_payload (bs_log s) start n with
      | Ok payload =>
          match from_bytes BlockRecord_codec payload with
          | Ok r => Some (br_block r)
          | Err _ => None
          end
      | Err _ => None
      end
  | _, _ => None
  end.

Definition block_by_height (s : BlockStore) (height : Z) : option (list byte) :=
  index ← binary_search (heights (bs_index s)) height; read_block s index.

Definition block_by_hash (s : BlockStore) (hash : list byte) : option (list byte) :=
  index ← by_hash (bs_index s) !! hash; read_block s index.
