(* ===== verification/BlockStoreSpec.v ===== *)
(** * What the block store promises

    The abstract state is the chain of the records put so far, in the order of
    their heights, and how many of them a crash cannot lose.  A history puts,
    truncates and syncs, with the faults of the system, restarts, and dies with
    the file cut anywhere behind its durable part. *)

From stdpp Require Import sorting.
From S2P Require Import Prelude Codec Crc Log Tx Block StoreLog RecordIndex BlockStore.

#[local] Opaque HEADER_LEN.

(** ** The codec *)

Lemma buf_put_hash v e : buf (put_hash v e) = buf e ++ v.
Proof. apply buf_put_array. Qed.

#[export] Hint Rewrite buf_put_hash : codec.

Lemma block_reads_get_hash v : length v = 32%nat -> reads get_hash v v.
Proof. apply reads_array. Qed.

#[export] Instance BlockRecord_roundtrip : RoundTrip BlockRecord_codec.
Proof.
  intros r Hr. unfold BlockRecord_codec, BlockRecord_encode, BlockRecord_decode.
  destruct r as [h x b]; codec_image; cbn [decode]; cbn in Hr; destruct_and?.
  eapply reads_bind; [by apply reads_get_u64|]. eapply reads_bind; [by apply block_reads_get_hash|].
  eapply reads_map; [by apply reads_get_bytes|apply reads_ret].
Qed.

Local Notation enc := (to_bytes BlockRecord_codec).
Local Notation record_ok := (record_fits BlockRecord_codec).

(** ** The index of a run of records *)

Definition labels (rs : list BlockRecord) : list (Z * list byte) :=
  map (fun r => (br_height r, br_hash r)) rs.

Definition index_of (rs : list BlockRecord) : BlockIndex :=
  let '(m, head) := rebuild 0 (labels rs) ∅ None in
  mkBlockIndex (map br_height rs) (map br_hash rs) (starts_from HEADER_LEN (map enc rs))
    (map (fun r => length (enc r)) rs) m head (end_of HEADER_LEN (map enc rs)).

Lemma rebuild_snoc n hs h x m head :
  rebuild n (hs ++ [(h, x)]) m head =
  let '(m, head) := rebuild n hs m head in (<[x := (n + length hs)%nat]> m, raise head h).
Proof.
  revert n m head. induction hs as [|[h' x'] hs IH]; intros n m head; cbn [app rebuild length].
  - by rewrite Nat.add_0_r.
  - rewrite IH. destruct (rebuild _ _ _ _). by replace (n + S (length hs))%nat with (S n + length hs)%nat by lia.
Qed.

Lemma block_index_of_snoc rs r :
  index_of (rs ++ [r]) =
  push_record r (end_of HEADER_LEN (map enc rs) + LEN_WIDTH) (length (enc r))
    (end_of HEADER_LEN (map enc rs) + frame_len (length (enc r))) (index_of rs).
Proof.
  unfold index_of, labels. rewrite map_app. cbn [map]. rewrite rebuild_snoc.
  destruct (rebuild _ _ _ _) as [m head]. unfold push_record.
  cbn [heights hashes starts lens by_hash head_height].
  rewrite !map_app, starts_from_app. cbn [map starts_from]. by rewrite end_of_snoc, !length_map.
Qed.

Lemma block_visit_records rs :
  Forall record_ok rs ->
  exists i, visit_all visit BlockIndex_new HEADER_LEN (map enc rs) = Some i /\
    with_len i (Nat.max (len_on_disk i) HEADER_LEN) = index_of rs.
Proof.
  induction rs as [|r rs IH] using rev_ind; intros Hrs; [by exists BlockIndex_new|].
  apply Forall_app in Hrs as [Hrs Hr]. apply Forall_inv in Hr. destruct (IH Hrs) as (i & Hi & Hidx).
  eexists. rewrite map_app, (visit_all_app visit []), Hi. cbn [map visit_all]. unfold visit.
  rewrite (fits_decode _ r) by done. split; [done|]. rewrite block_index_of_snoc, <- Hidx.
  rewrite (end_of_image []) . unfold push_record, with_len.
  cbn [heights hashes starts lens by_hash head_height len_on_disk]. f_equal. lia.
Qed.

(** What finds a record by its hash: the last one that has it. *)
Definition hash_is (x : list byte) (r : BlockRecord) : bool := bool_decide (br_hash r = x).
Definition height_is (h : Z) (r : BlockRecord) : bool := br_height r =? h.

Lemma by_hash_spec rs x :
  match by_hash (index_of rs) !! x with
  | Some i => exists r, rs !! i = Some r /\ find (hash_is x) (rev rs) = Some r
  | None => find (hash_is x) (rev rs) = None
  end.
Proof.
  induction rs as [|r rs IH] using rev_ind; [done|].
  rewrite block_index_of_snoc, rev_app_distr. cbn [push_record by_hash rev app find].
  unfold hash_is at 1 3. destruct (decide (br_hash r = x)) as [<-|Hne].
  - rewrite lookup_insert_eq, bool_decide_eq_true_2 by done. exists r. split; [|done].
    unfold index_of. destruct (rebuild _ _ _ _). cbn [heights].
    by rewrite length_map, list_lookup_middle.
  - rewrite lookup_insert_ne, bool_decide_eq_false_2 by done.
    destruct (by_hash (index_of rs) !! x) as [i|]; [|done]. destruct IH as (r' & Hr' & Hf).
    exists r'. split; [|done]. by apply lookup_app_l_Some.
Qed.

Lemma by_height_find rs i r h :
  StronglySorted Z.lt (map br_height rs) -> rs !! i = Some r -> br_height r = h ->
  find (height_is h) rs = Some r.
Proof.
  intros Hs Hi <-. revert i Hi. induction rs as [|r' rs IH]; intros i Hi; [done|].
  cbn [map find] in *. inversion_clear Hs as [|? ? Hs' Hall]. unfold height_is at 1.
  destruct i as [|i]; cbn in Hi; [injection Hi as ->; by rewrite Z.eqb_refl|].
  destruct (Z.eqb_spec (br_height r') (br_height r)) as [He|]; [|by eapply IH].
  rewrite Forall_map, Forall_forall in Hall. apply list_elem_of_lookup_2 in Hi.
  apply Hall in Hi. lia.
Qed.

Lemma height_absent rs h : h ∉ map br_height rs -> find (height_is h) rs = None.
Proof.
  intros Hn. destruct (find (height_is h) rs) as [r|] eqn:E; [|done].
  apply find_some in E as [Hin He]. unfold height_is in He. apply Z.eqb_eq in He as <-.
  destruct Hn. apply list_elem_of_In. by apply in_map.
Qed.

(** ** The store and its records *)

Record keeps (s : BlockStore) (rs : list BlockRecord) : Prop := {
  keeps_log : holds (bs_log s) (map enc rs);
  keeps_ok : Forall record_ok rs;
  keeps_index : bs_index s = index_of rs;
  keeps_sorted : StronglySorted Z.lt (map br_height rs)
}.

Lemma index_fields rs :
  heights (index_of rs) = map br_height rs /\ hashes (index_of rs) = map br_hash rs /\
  starts (index_of rs) = starts_from HEADER_LEN (map enc rs) /\
  lens (index_of rs) = map (fun r => length (enc r)) rs /\
  len_on_disk (index_of rs) = end_of HEADER_LEN (map enc rs).
Proof. unfold index_of. by destruct (rebuild _ _ _ _). Qed.

Lemma read_block_at s rs i r : keeps s rs -> rs !! i = Some r -> read_block s i = Some (br_block r).
Proof.
  intros [Hl Ho Hi _] Hr. destruct (index_fields rs) as (_ & _ & Hs & Hn & _).
  assert (map enc rs !! i = Some (enc r)) as He by (by rewrite list_lookup_fmap, Hr).
  unfold read_block. rewrite Hi, Hs, Hn, (starts_lookup _ _ _ _ He).
  rewrite list_lookup_fmap, Hr. cbn [fmap option_fmap option_map].
  rewrite (read_placed _ _ _ _ Hl He). rewrite Forall_lookup in Ho.
  by rewrite (fits_decode _ r (Ho _ _ Hr)).
Qed.

Lemma keeps_by_height s rs h :
  keeps s rs -> block_by_height s h = br_block <$> find (height_is h) rs.
Proof.
  intros Hk. pose proof Hk as [_ _ Hi Hs]. unfold block_by_height. rewrite Hi.
  rewrite (proj1 (index_fields rs)). destruct (binary_search _ h) as [i|] eqn:E; cbn [mbind option_bind].
  - apply binary_search_spec in E; [|done]. rewrite list_lookup_fmap in E.
    apply fmap_Some in E as (r & Hr & ->). rewrite (read_block_at _ _ _ _ Hk Hr).
    by rewrite (by_height_find rs i r).
  - rewrite height_absent; [done|]. intros [i Hin]%list_elem_of_lookup_1.
    apply (binary_search_spec _ h i Hs) in Hin. by rewrite E in Hin.
Qed.

Lemma keeps_by_hash s rs x :
  keeps s rs -> block_by_hash s x = br_block <$> find (hash_is x) (rev rs).
Proof.
  intros Hk. pose proof Hk as [_ _ Hi _]. unfold block_by_hash. rewrite Hi.
  pose proof (by_hash_spec rs x) as H. destruct (by_hash (index_of rs) !! x) as [i|]; [|by rewrite H].
  destruct H as (r & Hr & ->). cbn [mbind option_bind]. by apply read_block_at with rs.
Qed.

Lemma keeps_head s rs : keeps s rs -> head_height (bs_index s) = br_height <$> last rs.
Proof.
  intros [_ _ -> Hs]. induction rs as [|r rs IH] using rev_ind; [done|].
  rewrite map_app in Hs. pose proof (StronglySorted_app_1_l _ _ _ Hs) as Hs'.
  rewrite block_index_of_snoc, last_snoc. cbn [push_record head_height fmap option_fmap option_map].
  rewrite (IH Hs'). unfold raise. destruct (last rs) as [r'|] eqn:E; [|done].
  cbn [fmap option_fmap option_map]. f_equal. apply Z.max_r.
  assert (br_height r' < br_height r); [|lia].
  eapply (StronglySorted_app_1_elem_of Z.lt); [exact Hs| |by left].
  apply list_elem_of_In, in_map, list_elem_of_In. by apply last_Some_elem_of in E.
Qed.

(** *** Cutting *)

Lemma index_take n rs :
  rebuild 0 (combine (take n (map br_height rs)) (take n (map br_hash rs))) ∅ None =
  rebuild 0 (labels (take n rs)) ∅ None.
Proof.
  f_equal. unfold labels. rewrite !firstn_map. generalize (take n rs). intros l.
  induction l as [|r l IH]; [done|]. cbn. by rewrite IH.
Qed.

(** The store cut behind its first [n] records, as [truncate_to_height] cuts it. *)
Lemma keeps_cut s rs n m head :
  keeps s rs -> (n < length rs)%nat -> let i := bs_index s in
  rebuild 0 (combine (take n (heights i)) (take n (hashes i))) ∅ None = (m, head) ->
  let new_len := if (n =? 0)%nat then HEADER_LEN
    else (nth (n - 1) (starts i) 0 + nth (n - 1) (lens i) 0 + CHECKSUM_WIDTH)%nat in
  keeps (mkBlockStore (log_truncate (bs_log s) new_len)
    (mkBlockIndex (take n (heights i)) (take n (hashes i)) (take n (starts i)) (take n (lens i))
      m head new_len)) (take n rs).
Proof.
  intros [Hl Ho Hi Hs] Hn. cbn zeta. rewrite Hi.
  destruct (index_fields rs) as (-> & -> & -> & -> & _). rewrite index_take. intros Hb.
  set (new_len := if (n =? 0)%nat then _ else _).
  assert (new_len = end_of HEADER_LEN (map enc (take n rs))) as ->.
  { unfold new_len. destruct n as [|n]; [done|]. cbn [Nat.eqb Nat.sub]. rewrite Nat.sub_0_r.
    destruct (lookup_lt_is_Some_2 rs n) as [r Hr]; [lia|].
    rewrite <- firstn_map, <- (place_end _ _ (enc r)) by (by rewrite list_lookup_fmap, Hr).
    do 2 f_equal. apply nth_lookup_Some. by rewrite list_lookup_fmap, Hr. }
  split; cbn [bs_log bs_index].
  - apply (truncate_holds _ _ (map enc (drop n rs))). by rewrite <- map_app, take_drop.
  - by apply Forall_take.
  - unfold index_of. rewrite Hb. by rewrite !firstn_map, starts_take, firstn_map.
  - by apply sorted_keys_take.
Qed.

(** *** Opening *)

Lemma block_open_cut rng s fs ls k :
  length s = SALT_LEN -> Forall record_ok (fs ++ ls) ->
  StronglySorted Z.lt (map br_height (fs ++ ls)) ->
  let r := open rng (log_image s (map enc fs) ++ take k (frames_image s (map enc ls))) in
  (exists st n, r = Ok st /\ keeps st (fs ++ take n ls) /\ dirty (bs_log st) = true) \/
  (k < length (frames_image s (map enc ls)))%nat /\ r = Err (InLog CorruptMiddle).
Proof.
  intros Hs Hok Hsort. cbn zeta. pose proof Hok as Hok'. apply Forall_app in Hok' as [Hfs Hls].
  destruct (complete_map enc k ls) as [n Hn].
  assert (Forall record_ok (fs ++ take n ls)) as Hall.
  { apply Forall_app. split; [done|]. by apply Forall_take. }
  destruct (block_visit_records _ Hall) as (i & Hi & Hidx).
  unfold open, open_scanned_strict.
  destruct (scan_open_cut visit true true true rng s (map enc fs) (map enc ls) k BlockIndex_new i)
    as [-> |(_ & Hk & ->)]; [done|by apply fits_payloads..|by rewrite Hn, <- map_app| |by right].
  left. exists (mkBlockStore (mkLog (log_image s (map enc (fs ++ take n ls))) s true)
    (index_of (fs ++ take n ls))), n.
  rewrite Hn, <- map_app, Hidx. split_and!; [done| |done]. split; try done.
  - split_and!; [done|done|]. by apply fits_payloads.
  - rewrite map_app, <- firstn_map. rewrite map_app in Hsort. rewrite <- (take_drop n (map br_height ls)) in Hsort.
    rewrite app_assoc in Hsort. by apply StronglySorted_app_1_l in Hsort.
Qed.

(** ** Histories *)

Section History.
Variable sha3_256 : list byte -> list byte.

Inductive Event : Type :=
| Put (fault : option (nat * bool)) (b : BlockStore.Block)
| Sync (ok : bool)
| Truncate (ok : bool) (height : Z)
| Restart (rng : list byte)
| Crash (keep : nat) (rng : list byte).

(** The first [durable] bytes of the file survive a crash; all of it does when
    the log says it is not dirty. *)
Record World : Type := mkWorld { store : BlockStore; durable : nat }.

Definition after (w : World) (p : Result BlockStoreError unit * BlockStore)
    : Result BlockStoreError unit * option World :=
  let l := bs_log p.2 in
  (p.1, Some (mkWorld p.2 (if dirty l then durable w else length (content l)))).

(** [None]: the file was refused, which ends the history. *)
Definition world_step (w : World) (ev : Event) : Result BlockStoreError unit * option World :=
  match ev with
  | Put fault b => after w (put_block sha3_256 fault b (store w))
  | Sync ok => after w (sync ok (store w))
  | Truncate ok height => after w (truncate_to_height ok height (store w))
  | Restart rng =>
      match open rng (content (bs_log (store w))) with
      | Ok s => (Ok tt, Some (mkWorld s (durable w)))
      | Err e => (Err e, None)
      end
  | Crash keep rng =>
      match open rng (take (Nat.max (durable w) keep) (content (bs_log (store w)))) with
      | Ok s => (Ok tt, Some (mkWorld s (length (content (bs_log s)))))
      | Err e => (Err e, None)
      end
  end.

Fixpoint world_run (w : World) (evs : list Event)
    : list (Result BlockStoreError unit) * option World :=
  match evs with
  | [] => ([], Some w)
  | ev :: evs =>
      match world_step w ev with
      | (r, Some w) => let '(rs, w) := world_run w evs in (r :: rs, w)
      | (r, None) => ([r], None)
      end
  end.

(** A failed write is rolled back. *)
Definition event_ok (ev : Event) : Prop :=
  match ev with
  | Put fault b => record_ok (block_record sha3_256 b) /\
      match fault with Some (_, rolled_back) => rolled_back = true | None => True end
  | _ => True
  end.

(** The records of the chain, the first [sure] of which are durable. *)
Record Book : Type := mkBook { chain : list BlockRecord; sure : nat }.

Definition Book_new : Book := mkBook [] 0.

Inductive book_step : Book -> Event -> Result BlockStoreError unit -> option Book -> Prop :=
| book_put b fault blk :
    (forall r, r ∈ chain b -> br_height r < br_height (block_record sha3_256 blk)) ->
    book_step b (Put fault blk) (Ok tt) (Some (mkBook (chain b ++ [block_record sha3_256 blk]) (sure b)))
| book_put_refused b fault blk r :
    r ∈ chain b -> br_height (block_record sha3_256 blk) <= br_height r ->
    book_step b (Put fault blk) (Err NotIncreasing) (Some b)
| book_put_failed b fault blk :
    is_Some fault ->
    book_step b (Put fault blk) (Err (InLog WriteFailed)) (Some (mkBook (chain b) (length (chain b))))
| book_sync b ok : book_step b (Sync ok) (Ok tt) (Some (mkBook (chain b) (length (chain b))))
| book_sync_failed b : book_step b (Sync false) (Err SyncFailed) (Some b)
| book_whole b ok h :
    (forall r, r ∈ chain b -> br_height r <= h) -> book_step b (Truncate ok h) (Ok tt) (Some b)
| book_truncate b h :
    let kept := filter (fun r => br_height r <= h) (chain b) in
    book_step b (Truncate true h) (Ok tt) (Some (mkBook kept (length kept)))
| book_truncate_failed b h : book_step b (Truncate false h) (Err TruncateFailed) (Some b)
| book_restart b rng : book_step b (Restart rng) (Ok tt) (Some b)
| book_crash b keep rng n :
    (sure b <= n <= length (chain b))%nat ->
    book_step b (Crash keep rng) (Ok tt) (Some (mkBook (take n (chain b)) n))
| book_crash_refused b keep rng :
    book_step b (Crash keep rng) (Err (InLog CorruptMiddle)) None.

Inductive book_run : Book -> list Event -> list (Result BlockStoreError unit) -> option Book -> Prop :=
| book_run_nil b : book_run b [] [] (Some b)
| book_run_cons b ev r b' evs rs ob :
    book_step b ev r (Some b') -> book_run b' evs rs ob -> book_run b (ev :: evs) (r :: rs) ob
| book_run_end b ev r evs :
    book_step b ev r None -> book_run b (ev :: evs) [r] None.

Record tracks (w : World) (b : Book) : Prop := {
  tracks_keeps : keeps (store w) (chain b);
  tracks_sure : (sure b <= length (chain b))%nat;
  tracks_durable : durable w = end_of HEADER_LEN (map enc (take (sure b) (chain b)));
  tracks_clean : dirty (bs_log (store w)) = false -> sure b = length (chain b)
}.

(** The two sides of a step agree. *)
Definition matched (w : option World) (b : option Book) : Prop :=
  match w, b with Some w, Some b => tracks w b | None, None => True | _, _ => False end.

Lemma after_same w b p : tracks w b -> p.2 = store w -> matched (after w p).2 (Some b).
Proof.
  intros [Hk Hle Hd Hc] Hp. unfold after. rewrite Hp. cbn [snd matched].
  split; cbn [store durable]; try done. destruct (dirty _) eqn:E; [done|].
  rewrite (content_length _ _ (keeps_log _ _ Hk)). by rewrite Hc, take_ge.
Qed.

Lemma after_settled w s rs r :
  keeps s rs -> dirty (bs_log s) = false -> matched (after w (r, s)).2 (Some (mkBook rs (length rs))).
Proof.
  intros Hk Hd. unfold after. cbn [snd]. rewrite Hd. split; cbn [store durable chain sure]; try done.
  rewrite take_ge by done. by apply content_length, keeps_log.
Qed.

Lemma last_above rs h :
  StronglySorted Z.lt (map br_height rs) ->
  match last (map br_height rs) with
  | Some l => if h <=? l then exists r, r ∈ rs /\ h <= br_height r
              else forall r, r ∈ rs -> br_height r < h
  | None => rs = []
  end.
Proof.
  intros Hs. induction rs as [|r rs' _] using rev_ind; [done|].
  rewrite map_app in *. cbn [map] in *. rewrite last_snoc.
  assert (r ∈ rs' ++ [r]) as Hin by (apply elem_of_app; right; apply list_elem_of_here).
  destruct (Z.leb_spec h (br_height r)); [by exists r|].
  intros x [Hx|Hx%list_elem_of_singleton]%elem_of_app; [|by subst].
  assert (br_height x < br_height r); [|lia].
  eapply (StronglySorted_app_1_elem_of Z.lt); [exact Hs| |apply list_elem_of_here].
  apply list_elem_of_In, in_map, list_elem_of_In. done.
Qed.

Lemma sorted_snoc rs r :
  StronglySorted Z.lt (map br_height rs) -> (forall x, x ∈ rs -> br_height x < br_height r) ->
  StronglySorted Z.lt (map br_height (rs ++ [r])).
Proof.
  intros Hs Hlt. rewrite map_app. apply StronglySorted_app_2; [|done|by repeat constructor].
  intros x y Hx Hy. apply list_elem_of_In, in_map_iff in Hx as (z & <- & Hz%list_elem_of_In).
  apply list_elem_of_singleton in Hy as ->. auto.
Qed.

Lemma put_step w b fault blk :
  tracks w b -> event_ok (Put fault blk) ->
  exists b', book_step b (Put fault blk) (world_step w (Put fault blk)).1 b' /\
    matched (world_step w (Put fault blk)).2 b'.
Proof.
  intros Ht [Hr Hf]. pose proof Ht as [[Hl Ho Hi Hs] Hle Hd Hc]. cbn [world_step]. unfold put_block.
  destruct (index_fields (chain b)) as (Hh & _ & _ & _ & Hdisk). rewrite Hi, Hh.
  pose proof (last_above (chain b) (height (block_header blk)) Hs) as Hlast.
  set (r := block_record sha3_256 blk) in *.
  set (refuse := match last _ with Some _ => _ | None => _ end).
  destruct refuse eqn:Eref.
  { exists (Some b). split; [|by apply after_same]. unfold refuse in Eref.
    destruct (last _) as [l|]; [|done]. rewrite Eref in Hlast. destruct Hlast as (x & Hx & Hle').
    by apply (book_put_refused b fault blk x). }
  assert (forall x, x ∈ chain b -> br_height x < br_height r) as Hlt.
  { unfold refuse in Eref. destruct (last _) as [l|]; [by rewrite Eref in Hlast|].
    rewrite Hlast. by intros x ?%elem_of_nil. }
  destruct (append fault (bs_log (store w)) (enc r)) as [[u|e] l'] eqn:Ea.
  - pose proof (append_dirty _ _ _ _ _ Ea) as Hdirty.
    unfold append in Ea. eapply append_all_fresh in Ea as Hl'; [|exact Hl|constructor; [by apply fits_payload|done]].
    exists (Some (mkBook (chain b ++ [r]) (sure b))). split; [by apply book_put|].
    unfold after. cbn [snd bs_log]. rewrite Hdirty. split; cbn [store durable chain sure bs_log].
    + split; cbn [bs_log bs_index].
      * by rewrite map_app.
      * apply Forall_app. split; [done|]. by constructor.
      * by rewrite block_index_of_snoc, Hdisk.
      * by apply sorted_snoc.
    + rewrite length_app. lia.
    + by rewrite take_app_le.
    + by rewrite Hdirty.
  - unfold append in Ea. eapply append_all_holds in Ea; [|exact Hl|constructor; [by apply fits_payload|done]|].
    2: { by destruct fault as [[n []]|]. }
    destruct Ea as (-> & -> & Hfault). eexists. split; [by apply book_put_failed|].
    apply after_settled; [|done]. by split.
Qed.

Lemma truncate_step w b ok h :
  tracks w b ->
  exists b', book_step b (Truncate ok h) (world_step w (Truncate ok h)).1 b' /\
    matched (world_step w (Truncate ok h)).2 b'.
Proof.
  intros Ht. pose proof Ht as [Hk _ _ _]. pose proof Hk as [_ _ Hi Hs]. cbn [world_step].
  unfold truncate_to_height. destruct (index_fields (chain b)) as (Hh & _).
  assert (heights (bs_index (store w)) = map br_height (chain b)) as -> by (by rewrite Hi).
  pose proof (leading_filter br_height h (chain b) (sorted_lt_le _ Hs)) as Hlead.
  pose proof (leading_le h (map br_height (chain b))) as Hle. rewrite length_map in *.
  destruct (Nat.eqb_spec (leading h (map br_height (chain b))) (length (chain b))) as [He|Hne].
  { exists (Some b). split; [|by apply after_same]. apply book_whole. intros r Hr.
    rewrite He, take_ge in Hlead by done. rewrite Hlead in Hr. by apply list_elem_of_filter in Hr as [? _]. }
  destruct ok; cbn [negb].
  - destruct (rebuild _ _ _ _) as [m head] eqn:Eb.
    exists (Some (mkBook (filter (fun r => br_height r <= h) (chain b))
      (length (filter (fun r => br_height r <= h) (chain b))))).
    split; [apply book_truncate|]. apply after_settled; [|done]. rewrite <- Hlead.
    assert (heights (bs_index (store w)) = map br_height (chain b)) as <- by (by rewrite Hi).
    apply keeps_cut; [done| |]; rewrite Hi, Hh in *; [lia|done].
  - exists (Some b). split; [apply book_truncate_failed|by apply after_same].
Qed.

(** The file of a store, cut at [k]. *)
Lemma block_crash_step w b rng k :
  tracks w b ->
  exists b', book_step b (Crash k rng) (world_step w (Crash k rng)).1 b' /\
    matched (world_step w (Crash k rng)).2 b'.
Proof.
  intros [Hk Hle Hd _]. pose proof Hk as [(Hc & Hs & _) Ho _ Hsort].
  set (fs := take (sure b) (chain b)) in *. set (ls := drop (sure b) (chain b)).
  assert (chain b = fs ++ ls) as Hch by (unfold fs, ls; by rewrite take_drop).
  rewrite Hch in Ho, Hsort. assert (length fs = sure b) as Hfl by (apply length_take_le; done).
  assert (forall n, fs ++ take n ls = take (Nat.min (length (chain b)) (sure b + n)) (chain b)) as Htake.
  { intros n. rewrite Hch, length_app. rewrite take_app, Hfl. f_equal; [by rewrite take_ge by lia|].
    destruct (decide (n <= length ls)%nat); [f_equal; lia|]. rewrite !take_ge by lia. done. }
  cbn [world_step]. rewrite Hc, Hch, map_app, (take_log_image _ _ _ _ _ Hs Hd).
  destruct (block_open_cut rng (salt (bs_log (store w))) fs ls (Nat.max (durable w) k - durable w) Hs Ho Hsort)
    as [(st & n & -> & Hkeep & Hdirty)|[Hlt ->]].
  - set (m := Nat.min (length (chain b)) (sure b + n)). rewrite Htake in Hkeep. fold m in Hkeep.
    exists (Some (mkBook (take m (chain b)) m)). split; [apply book_crash; lia|].
    assert (length (take m (chain b)) = m) as Hm by (apply length_take_le; lia).
    split; cbn [store durable chain sure].
    + done.
    + lia.
    + rewrite (take_ge (take m (chain b))) by lia. by apply content_length, keeps_log.
    + by rewrite Hdirty.
  - exists None. split; [apply book_crash_refused|done].
Qed.

Lemma restart_step w b rng :
  tracks w b ->
  exists b', book_step b (Restart rng) (world_step w (Restart rng)).1 b' /\
    matched (world_step w (Restart rng)).2 b'.
Proof.
  intros [Hk Hle Hd _]. pose proof Hk as [(Hc & Hs & _) Ho _ Hsort]. cbn [world_step].
  destruct (block_open_cut rng (salt (bs_log (store w))) (chain b) [] 0 Hs) as [(st & n & Hr & Hkeep & Hdirty)|[Hlt _]];
    [by rewrite app_nil_r..| |cbn in Hlt; lia].
  rewrite take_0, app_nil_r, <- Hc in Hr. rewrite Hr. rewrite take_nil, app_nil_r in Hkeep.
  exists (Some b). split; [apply book_restart|]. split; cbn [store durable]; try done. by rewrite Hdirty.
Qed.

Lemma step_tracks w b ev :
  tracks w b -> event_ok ev ->
  exists b', book_step b ev (world_step w ev).1 b' /\ matched (world_step w ev).2 b'.
Proof.
  intros Ht Hev. destruct ev as [fault blk|ok|ok h|rng|k rng].
  - by apply put_step.
  - cbn [world_step]. unfold sync. destruct (dirty (bs_log (store w)) && negb ok) eqn:E.
    + apply andb_true_iff in E as [_ ->%negb_true_iff].
      exists (Some b). split; [apply book_sync_failed|by apply after_same].
    + eexists. split; [apply book_sync|]. apply after_settled; [|done].
      pose proof (tracks_keeps _ _ Ht) as []. by split.
  - by apply truncate_step.
  - by apply restart_step.
  - by apply block_crash_step.
Qed.

Lemma run_tracks w b evs :
  tracks w b -> Forall event_ok evs ->
  exists b', book_run b evs (world_run w evs).1 b' /\ matched (world_run w evs).2 b'.
Proof.
  intros Ht Hevs. revert w b Ht. induction Hevs as [|ev evs Hev Hevs IH]; intros w b Ht.
  - exists (Some b). split; [constructor|done].
  - destruct (step_tracks w b ev Ht Hev) as (b1 & Hs & Hm). cbn [world_run].
    destruct (world_step w ev) as [r [w1|]]; destruct b1 as [b1|]; cbn [fst snd matched] in *; try done.
    + destruct (IH w1 b1 Hm) as (b2 & Hr & Hm2). destruct (world_run w1 evs) as [rs w2].
      exists b2. split; [by econstructor|done].
    + exists None. split; [by apply book_run_end|done].
Qed.

(** The reads of the store are those of the chain. *)
Definition reads_chain (s : BlockStore) (rs : list BlockRecord) : Prop :=
  (forall h, block_by_height s h = br_block <$> find (height_is h) rs) /\
  (forall x, block_by_hash s x = br_block <$> find (hash_is x) (rev rs)) /\
  head_height (bs_index s) = br_height <$> last rs.

Lemma block_open_new rng :
  length rng = SALT_LEN ->
  exists s, open rng [] = Ok s /\ tracks (mkWorld s (length (content (bs_log s)))) Book_new.
Proof.
  intros Hr. destruct (block_open_cut rng rng [] [] 0 Hr) as [(st & n & Ho & Hk & Hd)|[Hlt _]];
    [done|constructor| |cbn in Hlt; lia].
  cbn [map] in Ho. rewrite take_0, app_nil_r in Ho. rewrite take_nil in Hk.
  exists st. split.
  - rewrite <- Ho. unfold open, open_scanned_strict, scan_open_parts.
    by rewrite prepare_absent.
  - split; cbn [store durable chain sure Book_new]; [done|done| |by rewrite Hd].
    by apply content_length, keeps_log.
Qed.
End History.

(** ** Claims *)


(** *** An example *)

Definition example_hash (bs : list byte) : list byte := replicate 32 (byte_of (len bs)).
Definition example_block (h : Z) : BlockStore.Block :=
  let root := replicate 32 x01 in
  mkBlock (Header_new h root root root root root [] 7) [x09; byte_of h] [].

(** A failed and a refused put, a sync, a crash that tears the last block, a
    truncation and a restart. *)
Definition example_events : list Event :=
  [Put None (example_block 1); Put (Some (9%nat, true)) (example_block 2);
   Put None (example_block 2); Put None (example_block 2); Sync true;
   Put None (example_block 5); Crash 700 (replicate 16 x00); Put None (example_block 6);
   Truncate true 2; Restart (replicate 16 x00)].

