(* ===== verification/EventStoreSpec.v ===== *)
(** * What the event store promises

    [reaches s rs]: the store [s] comes from a new file by puts, truncations and
    restarts, with faults, and [rs] are the records that were put and not cut
    off.  By rule induction the index of the store is the one of [rs], so the
    events of a height are read back as they were put. *)

From stdpp Require Import sorting.
From S2P Require Import Prelude Codec Crc Log StoreLog RecordIndex EventStore.

#[local] Opaque HEADER_LEN.

Lemma buf_put_leaves leaves e :
  buf (foldl (fun e leaf => put_bytes leaf e) e leaves) = buf e ++ concat (map bytes_image leaves).
Proof.
  revert e. induction leaves as [|l ls IH]; intros e; cbn [foldl map concat]; [by rewrite app_nil_r|].
  by rewrite IH, buf_put_bytes, <- app_assoc.
Qed.

#[export] Instance EventRecord_roundtrip : RoundTrip EventRecord_codec.
Proof.
  intros [h es] (Hh & Hn & Hes). cbn in Hh, Hn, Hes.
  unfold EventRecord_codec, EventRecord_encode, EventRecord_decode, to_bytes, into_bytes.
  cbn [encode decode er_height er_events]. rewrite buf_put_leaves. codec_image.
  eapply reads_bind; [by apply reads_get_u64|]. eapply reads_bind; [by apply reads_get_u64|].
  eapply reads_map; [|apply reads_ret]. unfold len at 1. rewrite Nat2Z.id.
  apply (reads_decode_n get_bytes bytes_image). eapply Forall_impl; [exact Hes|].
  intros leaf Hl. by apply reads_get_bytes.
Qed.

Local Notation enc := (to_bytes EventRecord_codec).
Local Notation record_ok := (record_fits EventRecord_codec).

(** ** The index of a run of records *)

Definition index_of (rs : list EventRecord) : EventIndex :=
  mkEventIndex (map er_height rs) (starts_from HEADER_LEN (map enc rs))
    (map (fun r => length (enc r)) rs) (end_of HEADER_LEN (map enc rs)).

Lemma event_index_of_snoc rs r :
  index_of (rs ++ [r]) =
  push_record (er_height r) (end_of HEADER_LEN (map enc rs) + LEN_WIDTH) (length (enc r))
    (end_of HEADER_LEN (map enc rs) + frame_len (length (enc r))) (index_of rs).
Proof.
  unfold index_of, push_record. cbn [heights starts lens].
  rewrite !map_app, starts_from_app. cbn [map starts_from]. by rewrite end_of_snoc.
Qed.

Lemma event_visit_records rs :
  Forall record_ok rs ->
  exists i, visit_all visit EventIndex_new HEADER_LEN (map enc rs) = Some i /\
    mkEventIndex (heights i) (starts i) (lens i) (Nat.max (len_on_disk i) HEADER_LEN) = index_of rs.
Proof.
  induction rs as [|r rs IH] using rev_ind; intros Hrs; [by exists EventIndex_new|].
  apply Forall_app in Hrs as [Hrs Hr]. apply Forall_inv in Hr. destruct (IH Hrs) as (i & Hi & Hidx).
  eexists. rewrite map_app, (visit_all_app visit []), Hi. cbn [map visit_all]. unfold visit.
  rewrite (fits_decode _ r) by done. split; [done|]. rewrite event_index_of_snoc, <- Hidx, (end_of_image []).
  unfold push_record. cbn [heights starts lens len_on_disk]. f_equal. lia.
Qed.

Record keeps (s : EventStore) (rs : list EventRecord) : Prop := {
  keeps_log : holds (es_log s) (map enc rs);
  keeps_ok : Forall record_ok rs;
  keeps_index : es_index s = index_of rs;
  keeps_sorted : StronglySorted Z.le (map er_height rs)
}.

(** ** Reading *)

Definition height_is (h : Z) (r : EventRecord) : bool := er_height r =? h.

(** In a list in order of heights the last record of a height is the last one
    that is not above it. *)
Lemma find_last rs k h r :
  rs !! k = Some r -> er_height r = h -> Forall (fun x => h < er_height x) (drop (S k) rs) ->
  find (height_is h) (rev rs) = Some r.
Proof.
  intros Hk Hh Hgt. rewrite <- (take_drop_middle rs k r Hk). rewrite rev_app_distr. cbn [rev].
  rewrite <- app_assoc. cbn [app].
  assert (find (height_is h) (rev (drop (S k) rs)) = None) as Hnone.
  { destruct (find _ (rev _)) as [x|] eqn:E; [|done]. apply find_some in E as [Hin Hx].
    apply in_rev, list_elem_of_In in Hin. rewrite Forall_forall in Hgt. apply Hgt in Hin.
    unfold height_is in Hx. apply Z.eqb_eq in Hx. lia. }
  assert (forall xs ys, find (height_is h) xs = None ->
    find (height_is h) (xs ++ ys) = find (height_is h) ys) as Happ.
  { induction xs as [|x xs IH]; intros ys Hx; [done|]. cbn [app find] in *. by destruct (height_is h x); auto. }
  rewrite Happ by done. cbn [find]. unfold height_is. by rewrite Hh, Z.eqb_refl.
Qed.

Lemma find_absent rs h : h ∉ map er_height rs -> find (height_is h) (rev rs) = None.
Proof.
  intros Hn. destruct (find _ (rev rs)) as [r|] eqn:E; [|done].
  apply find_some in E as [Hin%in_rev He]. unfold height_is in He. apply Z.eqb_eq in He as <-.
  destruct Hn. apply list_elem_of_In. by apply in_map.
Qed.

Lemma keeps_events_at s rs h :
  keeps s rs -> events_at s h = er_events <$> find (height_is h) (rev rs).
Proof.
  intros [Hl Ho Hi Hs]. unfold events_at. rewrite Hi. cbn [heights starts lens index_of].
  set (hs := map er_height rs) in *.
  assert (forall i r, rs !! i = Some r -> nth i hs 0 = er_height r) as Hnth.
  { intros i r Hr. apply nth_lookup_Some. unfold hs. by rewrite list_lookup_fmap, Hr. }
  destruct (partition_point_spec hs (fun x => x <=? h)) as (Hle & Hlow & Hhigh).
  { intros i j Hij Hj. rewrite !Z.leb_le. intros Hjh.
    destruct (decide (i = j)) as [->|]; [done|].
    destruct (lookup_lt_is_Some_2 hs i) as [x Hx]; [lia|]. destruct (lookup_lt_is_Some_2 hs j) as [y Hy]; [lia|].
    rewrite (nth_lookup_Some _ _ _ _ Hx). rewrite (nth_lookup_Some _ _ _ _ Hy) in Hjh.
    assert (x <= y); [|lia]. apply (sorted_lookup Z.le hs i j); [done|lia|done|done]. }
  generalize dependent (partition_point hs (fun x => x <=? h)). intros k Hle Hlow Hhigh. unfold hs in Hle. rewrite length_map in Hle.
  assert (forall i r, rs !! i = Some r -> (k <= i)%nat -> h < er_height r) as Habove.
  { intros i r Hr Hki. pose proof (lookup_lt_Some _ _ _ Hr). specialize (Hhigh i).
    rewrite (Hnth _ _ Hr), Z.leb_gt in Hhigh. apply Hhigh. unfold hs. rewrite length_map. lia. }
  assert (forall r, r ∈ rs -> er_height r = h -> exists i, rs !! i = Some r /\ (i < k)%nat) as Hbelow.
  { intros r [i Hr]%list_elem_of_lookup_1 Hh. exists i. split; [done|].
    destruct (decide (k <= i)%nat); [|lia]. specialize (Habove i r Hr). lia. }
  destruct k as [|k].
  { rewrite find_absent; [done|]. intros Hin. apply list_elem_of_In, in_map_iff in Hin as (r & Hr & Hin).
    apply list_elem_of_In in Hin. destruct (Hbelow r Hin Hr) as (i & _ & ?). lia. }
  destruct (lookup_lt_is_Some_2 rs k) as [r Hr]; [lia|]. rewrite (Hnth _ _ Hr).
  assert (map enc rs !! k = Some (enc r)) as He by (by rewrite list_lookup_fmap, Hr).
  destruct (Z.eqb_spec (er_height r) h) as [Hh|Hne]; cbn [negb].
  - rewrite (nth_lookup_Some _ _ _ _ (starts_lookup HEADER_LEN _ _ _ He)).
    rewrite (nth_lookup_Some (map (fun r => length (enc r)) rs) k _ (length (enc r)))
      by (by rewrite list_lookup_fmap, Hr).
    rewrite (read_placed _ _ _ _ Hl He). rewrite Forall_lookup in Ho. rewrite (fits_decode _ r (Ho _ _ Hr)).
    rewrite (find_last rs k h r Hr Hh); [done|]. apply Forall_lookup. intros i x Hx.
    rewrite lookup_drop in Hx. apply (Habove _ _ Hx). lia.
  - rewrite find_absent; [done|]. intros Hin. apply list_elem_of_In, in_map_iff in Hin as (x & Hx & Hin).
    apply list_elem_of_In in Hin. destruct (Hbelow x Hin Hx) as (i & Hxi & Hik).
    destruct (decide (i = k)) as [->|]; [congruence|].
    assert (er_height x <= er_height r).
    { apply (sorted_lookup Z.le hs i k); [done|lia| |]; unfold hs; by rewrite list_lookup_fmap, ?Hxi, ?Hr. }
    specialize (Hlow k). rewrite (Hnth _ _ Hr), Z.leb_le in Hlow. lia.
Qed.

(** ** Writing, cutting and opening *)

Lemma last_not_above rs h :
  StronglySorted Z.le (map er_height rs) ->
  match last (map er_height rs) with Some l => h <? l | None => false end = false ->
  forall r, r ∈ rs -> er_height r <= h.
Proof.
  intros Hs. induction rs as [|x rs _] using rev_ind; [by intros _ r ?%elem_of_nil|].
  rewrite map_app in *. cbn [map] in *. rewrite last_snoc. intros Hx%Z.ltb_ge r [Hr|Hr]%elem_of_app.
  - assert (er_height r <= er_height x); [|lia].
    eapply (StronglySorted_app_1_elem_of Z.le); [exact Hs| |apply list_elem_of_here].
    apply list_elem_of_In, in_map, list_elem_of_In. done.
  - by apply list_elem_of_singleton in Hr as ->.
Qed.

Lemma put_keeps fault h es s rs r s' :
  keeps s rs -> record_ok (mkEventRecord h es) -> rolled_back fault ->
  put_events fault h es s = (r, s') ->
  match r with
  | Ok _ => keeps s' (rs ++ (if es then [] else [mkEventRecord h es]))
  | Err _ => keeps s' rs
  end.
Proof.
  intros Hk Hr Hf. pose proof Hk as [Hl Ho Hi Hs]. unfold put_events. rewrite Hi.
  destruct es as [|e es]; [intros [= <- <-]; by rewrite app_nil_r|]. cbn [heights index_of].
  set (late := match last _ with Some _ => _ | None => _ end). destruct late eqn:El; [by intros [= <- <-]|].
  set (x := mkEventRecord h (e :: es)) in *.
  pose proof (last_not_above rs h Hs El) as Hle.
  unfold append. destruct (append_all fault (es_log s) [enc x]) as [[u|err] l'] eqn:Ea.
  - intros [= <- <-]. eapply append_all_fresh in Ea; [|exact Hl|constructor; [by apply fits_payload|done]].
    split; cbn [es_log es_index].
    + by rewrite map_app.
    + apply Forall_app. split; [done|]. by constructor.
    + by rewrite event_index_of_snoc.
    + rewrite map_app. apply StronglySorted_app_2; [|done|by repeat constructor].
      intros a b Ha Hb. apply list_elem_of_In, in_map_iff in Ha as (z & <- & Hz%list_elem_of_In).
      apply list_elem_of_singleton in Hb as ->. by apply Hle.
  - intros [= <- <-]. eapply append_all_holds in Ea; [|exact Hl|constructor; [by apply fits_payload|done]|done].
    destruct Ea as (-> & _ & _). by split.
Qed.

Lemma truncate_keeps ok h s rs r s' :
  keeps s rs -> truncate_to_height ok h s = (r, s') ->
  match r with
  | Ok _ => keeps s' (filter (fun r => er_height r <= h) rs)
  | Err _ => s' = s
  end.
Proof.
  intros Hk. pose proof Hk as [Hl Ho Hi Hs]. unfold truncate_to_height. rewrite Hi. cbn [heights starts lens index_of].
  rewrite <- (leading_filter er_height h rs Hs).
  pose proof (leading_le h (map er_height rs)) as Hle. rewrite length_map in *.
  generalize dependent (leading h (map er_height rs)). intros n Hn.
  destruct (Nat.eqb_spec n (length rs)) as [->|Hne]; [intros [= <- <-]; by rewrite take_ge|].
  destruct ok; [|by intros [= <- <-]]. cbn [negb]. set (new_len := if (n =? 0)%nat then _ else _).
  assert (new_len = end_of HEADER_LEN (map enc (take n rs))) as ->.
  { unfold new_len. destruct n as [|n]; [done|]. cbn [Nat.eqb Nat.sub]. rewrite Nat.sub_0_r.
    destruct (lookup_lt_is_Some_2 rs n) as [x Hx]; [lia|].
    rewrite <- firstn_map, <- (place_end _ _ (enc x)) by (by rewrite list_lookup_fmap, Hx).
    do 2 f_equal. apply nth_lookup_Some. by rewrite list_lookup_fmap, Hx. }
  intros [= <- <-]. split; cbn [es_log es_index].
  - apply (truncate_holds _ _ (map enc (drop n rs))). by rewrite <- map_app, take_drop.
  - by apply Forall_take.
  - unfold index_of. by rewrite !firstn_map, starts_take, firstn_map.
  - by apply sorted_keys_take.
Qed.

Lemma open_image rng s rs :
  length s = SALT_LEN -> Forall record_ok rs -> StronglySorted Z.le (map er_height rs) ->
  exists st, open rng (log_image s (map enc rs)) = Ok st /\ keeps st rs.
Proof.
  intros Hs Ho Hsort. destruct (event_visit_records rs Ho) as (i & Hi & Hidx).
  pose proof (scan_open_cut visit true true true rng s (map enc rs) [] 0 EventIndex_new i) as H.
  cbn [complete] in H. rewrite !app_nil_r in H.
  destruct H as [H|(_ & Hlt & _)]; [done|by apply fits_payloads|done|done| |cbn in Hlt; lia].
  exists (mkEventStore (mkLog (log_image s (map enc rs)) s true) (index_of rs)). split.
  - unfold open, open_scanned_strict. by rewrite H, Hidx.
  - split; try done. split_and!; [done|done|by apply fits_payloads].
Qed.

(** ** Reachable stores *)

Inductive reaches : EventStore -> list EventRecord -> Prop :=
| reaches_new rng s : length rng = SALT_LEN -> open rng [] = Ok s -> reaches s []
| reaches_put s rs fault h es r s' :
    reaches s rs -> record_ok (mkEventRecord h es) -> rolled_back fault ->
    put_events fault h es s = (r, s') ->
    reaches s' (match r with Ok _ => rs ++ (if es then [] else [mkEventRecord h es]) | Err _ => rs end)
| reaches_truncate s rs ok h r s' :
    reaches s rs -> truncate_to_height ok h s = (r, s') ->
    reaches s' (match r with Ok _ => filter (fun r => er_height r <= h) rs | Err _ => rs end)
| reaches_restart s rs rng s' :
    reaches s rs -> open rng (content (es_log s)) = Ok s' -> reaches s' rs.

Lemma event_open_new rng s : length rng = SALT_LEN -> open rng [] = Ok s -> keeps s [].
Proof.
  intros Hr Ho. destruct (open_image rng rng [] Hr) as (st & Hst & Hk); [done|constructor|].
  assert (open rng [] = Ok st) as Hst'.
  { rewrite <- Hst. unfold open, open_scanned_strict, scan_open_parts. by rewrite prepare_absent. }
  rewrite Ho in Hst'. by injection Hst' as <-.
Qed.

Lemma reaches_keeps s rs : reaches s rs -> keeps s rs.
Proof.
  induction 1 as [rng s Hr Ho|s rs fault h es r s' _ Hk Hok Hf E|s rs ok h r s' _ Hk E|s rs rng s' _ Hk Ho].
  - by eapply event_open_new.
  - eapply put_keeps in E; eauto. by destruct r.
  - eapply truncate_keeps in E; eauto. destruct r; [done|by subst].
  - pose proof Hk as [(Hc & Hs & _) Hok _ Hsort]. rewrite Hc in Ho.
    destruct (open_image rng _ _ Hs Hok Hsort) as (st & Hst & Hk').
    rewrite Ho in Hst. by injection Hst as <-.
Qed.

(** ** The theorem *)

(** The event store reads back what was put.  In every store that comes from a
    new file by puts (which may fail and are rolled back), truncations and
    restarts, the events of a height are those of the last put that returned for
    it and was not cut off, heights without events have none, and the file
    always opens again. *)
Theorem event_store_reads_back s rs :
  reaches s rs ->
  (forall h, events_at s h = er_events <$> find (height_is h) (rev rs)) /\
  head_height s = er_height <$> last rs /\
  (forall rng, exists s', open rng (content (es_log s)) = Ok s' /\ reaches s' rs).
Proof.
  intros Hr. pose proof (reaches_keeps _ _ Hr) as Hk. pose proof Hk as [(Hc & Hs & _) Ho Hi Hsort].
  split_and!.
  - intros h. by apply keeps_events_at.
  - unfold head_height. rewrite Hi. cbn [heights index_of]. apply fmap_last.
  - intros rng. destruct (open_image rng _ _ Hs Ho Hsort) as (s' & Hs' & _). rewrite <- Hc in Hs'.
    exists s'. split; [done|]. by eapply reaches_restart.
Qed.
