(* ===== verification/Archives.v ===== *)
(** * The archives (crates/qtv-store/src/burn_archive.rs, roster_archive.rs)

    Two logs that are read by a number: the blocks that carry a burn by their
    height, the rosters by their epoch.  In memory they keep the place of each
    record. *)

From stdpp Require Import sorting.
From S2P Require Import Prelude Codec Crc Log StoreLog RecordIndex.

Definition MAX_HEIGHTS_AFTER : nat := 1024.

Record BurnArchiveEntry : Type := mkBurnEntry {
  be_height : Z;
  be_header_bytes : list byte;
  be_certificate : list byte;
  be_events : list (list byte) }.

Definition BurnArchiveEntry_encode (r : BurnArchiveEntry) (e : Encoder) : Encoder :=
  foldl (fun e leaf => put_bytes leaf e)
    (e |> put_u64 (be_height r) |> put_bytes (be_header_bytes r) |> put_bytes (be_certificate r)
       |> put_u64 (len (be_events r))) (be_events r).

Definition BurnArchiveEntry_decode : Dec BurnArchiveEntry :=
  let* height := get_u64 in
  let* header_bytes := get_bytes in
  let* certificate := get_bytes in
  let* count := get_u64 in
  let* events := decode_n get_bytes (Z.to_nat count) in
  dret (mkBurnEntry height header_bytes certificate events).

Definition BurnArchiveEntry_codec : Codec BurnArchiveEntry :=
  mkCodec BurnArchiveEntry BurnArchiveEntry_encode BurnArchiveEntry_decode (fun r =>
    u64 (be_height r) /\ u64 (len (be_header_bytes r)) /\ u64 (len (be_certificate r)) /\
    u64 (len (be_events r)) /\ Forall (fun leaf => u64 (len leaf)) (be_events r)).

Record RosterArchiveEntry : Type := mkRosterArchive {
  re_epoch : Z;
  re_height : Z;
  re_roster : list byte;
  re_proof : list byte }.

Definition RosterArchiveEntry_encode (r : RosterArchiveEntry) (e : Encoder) : Encoder :=
  e |> put_u64 (re_epoch r) |> put_u64 (re_height r) |> put_bytes (re_roster r) |> put_bytes (re_proof r).

Definition RosterArchiveEntry_decode : Dec RosterArchiveEntry :=
  let* epoch := get_u64 in
  let* height := get_u64 in
  let* roster := get_bytes in
  let* proof := get_bytes in
  dret (mkRosterArchive epoch height roster proof).

Definition RosterArchiveEntry_codec : Codec RosterArchiveEntry :=
  mkCodec RosterArchiveEntry RosterArchiveEntry_encode RosterArchiveEntry_decode (fun r =>
    u64 (re_epoch r) /\ u64 (re_height r) /\ u64 (len (re_roster r)) /\ u64 (len (re_proof r))).

(** The places of the records by their number. *)
Notation Places := (gmap Z (nat * nat)).

(** [BurnArchive] and [RosterArchive] have the same fields. *)
Record Archive : Type := mkArchive { ar_log : Log; places : Places }.

Inductive ArchiveError : Type := InLog (e : LogError) | SyncFailed | TruncateFailed.

(** What both archives do alike, for a record type and its number. *)
Section Archive.
Context {R : Type} (codec : Codec R) (key : R -> Z).

Definition visit (m : Places) (payload : list byte) (payload_start _end : nat) : bool * Places :=
  match from_bytes codec payload with
  | Ok r => (true, <[key r := (payload_start, length payload)]> m)
  | Err _ => (false, m)
  end.

Definition archive_open (rng file : list byte) : Result ArchiveError Archive :=
  match open_scanned_strict visit rng file ∅ with
  | Err e => Err (InLog e)
  | Ok (log, m) => Ok (mkArchive log m)
  end.

(** [fault] is what the write meets, [sync_ok] what the sync does. *)
Definition archive_append (fault : option (nat * bool)) (sync_ok : bool) (r : R) (a : Archive)
    : Result ArchiveError unit * Archive :=
  let payload := to_bytes codec r in
  let start := next_payload_start (ar_log a) in
  match append fault (ar_log a) payload with
  | (Err e, l) => (Err (InLog e), mkArchive l (places a))
  | (Ok _, l) =>
      if negb sync_ok then (Err SyncFailed, mkArchive l (places a))
      else (Ok tt, mkArchive (log_sync l) (<[key r := (start, length payload)]> (places a)))
  end.

Definition archive_entry (a : Archive) (n : Z) : option R :=
  match places a !! n with
  | Some (start, length_) =>
      match read_payload (ar_log a) start length_ with
      | Ok payload => match from_bytes codec payload with Ok r => Some r | Err _ => None end
      | Err _ => None
      end
  | None => None
  end.
End Archive.

(** [min] of an iterator. *)
Definition min_of (ns : list nat) : option nat :=
  foldr (fun n m => Some (match m with Some m => Nat.min n m | None => n end)) None ns.

(** The end of both [truncate_to_height]. *)
Definition cut_at (ok : bool) (cut : option nat) (a : Archive) : Result ArchiveError unit * Archive :=
  match cut with
  | None => (Ok tt, a)
  | Some cut =>
      if negb ok then (Err TruncateFailed, a)
      else (Ok tt, mkArchive (log_truncate (ar_log a) cut)
        (filter (fun kp => (kp.2.1 < cut)%nat) (places a)))
  end.

(** ** Burns *)

Definition burn_open := archive_open BurnArchiveEntry_codec be_height.
Definition burn_append := archive_append BurnArchiveEntry_codec be_height.
Definition burn_entry := archive_entry BurnArchiveEntry_codec.

Definition burn_truncate_to_height (ok : bool) (height : Z) (a : Archive)
    : Result ArchiveError unit * Archive :=
  let above := filter (fun kp => height < kp.1) (map_to_list (places a)) in
  cut_at ok (min_of (map (fun kp => (kp.2.1 - LEN_WIDTH)%nat) above)) a.

Definition sorted_numbers (m : Places) : list Z := merge_sort Z.le (map fst (map_to_list m)).

Definition heights_after (a : Archive) (cursor : Z) : list Z :=
  take MAX_HEIGHTS_AFTER (filter (fun h => cursor < h) (sorted_numbers (places a))).

Definition burn_heights (a : Archive) : list Z := sorted_numbers (places a).
Definition burn_contains (a : Archive) (height : Z) : bool := bool_decide (is_Some (places a !! height)).

(** ** Rosters *)

Definition roster_open := archive_open RosterArchiveEntry_codec re_epoch.
Definition roster_entry := archive_entry RosterArchiveEntry_codec.

Definition roster_append (fault : option (nat * bool)) (sync_ok : bool) (r : RosterArchiveEntry) (a : Archive)
    : Result ArchiveError unit * Archive :=
  if decide (is_Some (places a !! re_epoch r)) then (Ok tt, a)
  else archive_append RosterArchiveEntry_codec re_epoch fault sync_ok r a.

Definition stale (a : Archive) (height epoch : Z) : bool :=
  match roster_entry a epoch with Some r => height <? re_height r | None => true end.

Definition roster_truncate_to_height (ok : bool) (height : Z) (a : Archive)
    : Result ArchiveError unit * Archive :=
  let old := filter (fun kp => stale a height kp.1 = true) (map_to_list (places a)) in
  cut_at ok (min_of (map (fun kp => (kp.2.1 - LEN_WIDTH)%nat) old)) a.
