(* ===== verification/ArchivesSpec.v ===== *)
(** * What the archives promise

    The lemmas on an archive are proved once, for any record type with a codec
    and a number, against the list of the records on the log; both archives are
    instances.  [reaches] is the reachable archives, by rule induction the
    places in memory are those of the list. *)

From stdpp Require Import sorting.
From S2P Require Import Prelude Codec Crc Log StoreLog RecordIndex EventStore EventStoreSpec Archives.

#[local] Opaque HEADER_LEN.

#[export] Instance BurnArchiveEntry_roundtrip : RoundTrip BurnArchiveEntry_codec.
Proof.
  intros [h hb c es] Hv. cbn in Hv. destruct_and?.
  unfold BurnArchiveEntry_codec, BurnArchiveEntry_encode, BurnArchiveEntry_decode, to_bytes, into_bytes.
  cbn [encode decode be_height be_header_bytes be_certificate be_events]. rewrite buf_put_leaves. codec_image.
  eapply reads_bind; [by apply reads_get_u64|]. do 2 (eapply reads_bind; [by apply reads_get_bytes|]).
  eapply reads_bind; [by apply reads_get_u64|]. eapply reads_map; [|apply reads_ret].
  unfold len at 1. rewrite Nat2Z.id. apply (reads_decode_n get_bytes bytes_image).
  eapply Forall_impl; [eassumption|]. intros leaf Hl. by apply reads_get_bytes.
Qed.

#[export] Instance RosterArchiveEntry_roundtrip : RoundTrip RosterArchiveEntry_codec.
Proof. unfold RosterArchiveEntry_codec, RosterArchiveEntry_encode, RosterArchiveEntry_decode. codec_roundtrip. Qed.

(** ** Any archive *)

Lemma min_of_spec ns :
  match min_of ns with Some m => m ∈ ns /\ forall x, x ∈ ns -> (m <= x)%nat | None => ns = [] end.
Proof.
  induction ns as [|n ns IH]; [done|]. cbn [min_of foldr]. fold (min_of ns).
  destruct (min_of ns) as [m|]; [|subst; split; [apply list_elem_of_here|by intros x ->%list_elem_of_singleton]].
  destruct IH as [Hm Hall]. split.
  - destruct (Nat.min_spec n m) as [[_ ->]|[_ ->]]; [apply list_elem_of_here|by apply list_elem_of_further].
  - intros x [->|Hx]%elem_of_cons; [lia|]. specialize (Hall x Hx). lia.
Qed.

Lemma find_once {R} (key : R -> Z) rs i r :
  NoDup (map key rs) -> rs !! i = Some r -> find (fun x => key x =? key r) rs = Some r.
Proof.
  revert i. induction rs as [|x rs IH]; intros i Hn Hi; [done|]. cbn [map find] in *.
  apply NoDup_cons in Hn as [Hx Hn]. destruct i as [|i]; cbn in Hi.
  - injection Hi as ->. by rewrite Z.eqb_refl.
  - destruct (Z.eqb_spec (key x) (key r)) as [He|]; [|by eapply IH]. destruct Hx. rewrite He.
    apply list_elem_of_In, in_map, list_elem_of_In. by eapply list_elem_of_lookup_2.
Qed.

Section Archive.
Context {R : Type} (codec : Codec R) `{!RoundTrip codec} (key : R -> Z).

Local Notation enc := (to_bytes codec).

(** The place of the record that follows [rs]. *)
Definition place (rs : list R) (r : R) : nat * nat :=
  ((end_of HEADER_LEN (map enc rs) + LEN_WIDTH)%nat, length (enc r)).

Definition place_step (ms : Places * list R) (r : R) : Places * list R :=
  (<[key r := place ms.2 r]> ms.1, ms.2 ++ [r]).

Definition places_of (rs : list R) : Places := (foldl place_step (∅, []) rs).1.

Lemma places_of_snoc rs r : places_of (rs ++ [r]) = <[key r := place rs r]> (places_of rs).
Proof.
  assert (forall xs, (foldl place_step (∅, []) xs).2 = xs) as H2.
  { intros xs. induction xs as [|x xs IH] using rev_ind; [done|]. rewrite foldl_app. cbn [foldl snd place_step]. by rewrite IH. }
  unfold places_of. rewrite foldl_app. cbn [foldl fst place_step]. by rewrite H2.
Qed.

(** With each number used once, the places are those of the list. *)
Lemma places_lookup rs k p :
  NoDup (map key rs) ->
  places_of rs !! k = Some p <-> exists i r, rs !! i = Some r /\ key r = k /\ p = place (take i rs) r.
Proof.
  induction rs as [|r rs IH] using rev_ind; intros Hnd.
  { split; [done|by intros (i & r & Hr & _)]. }
  rewrite map_app in Hnd. apply NoDup_app in Hnd as (Hnd & Hdis & _).
  rewrite places_of_snoc, lookup_insert_Some, (IH Hnd).
  assert (forall i x, rs !! i = Some x -> key x <> key r) as Hfresh.
  { intros i x Hx He. apply (Hdis (key x)); [|rewrite He; apply list_elem_of_here].
    apply list_elem_of_In, in_map, list_elem_of_In. by eapply list_elem_of_lookup_2. }
  split.
  - intros [[<- <-]|(Hne & i & x & Hx & <- & ->)].
    + exists (length rs), r. by rewrite list_lookup_middle, take_app_length.
    + exists i, x. pose proof (lookup_lt_Some _ _ _ Hx).
      split_and!; [by apply lookup_app_l_Some|done|]. by rewrite take_app_le by lia.
  - intros (i & x & Hx & <- & ->). apply lookup_app_Some in Hx as [Hx|[Hge Hx]].
    + right. pose proof (lookup_lt_Some _ _ _ Hx). split; [intros He; by apply (Hfresh i x)|].
      exists i, x. by rewrite take_app_le by lia.
    + apply list_lookup_singleton_Some in Hx as [Hi ->]. left. split; [done|].
      by rewrite take_app_ge, (nil_length_inv (take _ [_])), app_nil_r by (rewrite ?length_take; lia).
Qed.

Lemma visit_places rs :
  Forall (record_fits codec) rs ->
  visit_all (visit codec key) ∅ HEADER_LEN (map enc rs) = Some (places_of rs).
Proof.
  induction rs as [|r rs IH] using rev_ind; intros Hrs; [done|].
  apply Forall_app in Hrs as [Hrs Hr]. apply Forall_inv in Hr as [Hv Hl].
  rewrite map_app, (visit_all_app _ []), (IH Hrs). cbn [map visit_all]. unfold visit.
  rewrite (from_bytes_encoded codec r Hv Hl). by rewrite places_of_snoc, <- end_of_image.
Qed.

Record archives (a : Archive) (rs : list R) : Prop := {
  archives_log : holds (ar_log a) (map enc rs);
  archives_fit : Forall (record_fits codec) rs;
  archives_places : places a = places_of rs;
  archives_once : NoDup (map key rs)
}.

Lemma archives_entry a rs k :
  archives a rs -> archive_entry codec a k = find (fun r => key r =? k) rs.
Proof.
  intros [Hl Hf Hp Hn]. unfold archive_entry. rewrite Hp.
  destruct (places_of rs !! k) as [[start n]|] eqn:E.
  - apply places_lookup in E as (i & r & Hr & <- & Hpl); [|done]. injection Hpl as -> ->.
    assert (map enc rs !! i = Some (enc r)) as He by (by rewrite list_lookup_fmap, Hr).
    rewrite <- firstn_map, (read_placed _ _ _ _ Hl He).
    rewrite Forall_lookup in Hf. destruct (Hf _ _ Hr) as [Hv Hlen].
    rewrite (from_bytes_encoded codec r Hv Hlen). symmetry. by apply (find_once key rs i).
  - symmetry. destruct (find _ rs) as [r|] eqn:Ef; [|done].
    apply find_some in Ef as [Hin%list_elem_of_In Hk%Z.eqb_eq].
    apply list_elem_of_lookup_1 in Hin as [i Hi].
    assert (places_of rs !! k = Some (place (take i rs) r)) as H; [|by rewrite H in E].
    apply places_lookup; [done|]. by exists i, r.
Qed.

Lemma archives_open rng s rs :
  length s = SALT_LEN -> Forall (record_fits codec) rs -> NoDup (map key rs) ->
  exists a, archive_open codec key rng (log_image s (map enc rs)) = Ok a /\ archives a rs.
Proof.
  intros Hs Hf Hn.
  pose proof (scan_open_cut (visit codec key) true true true rng s (map enc rs) [] 0 ∅ (places_of rs)) as H.
  cbn [complete] in H. rewrite !app_nil_r in H.
  destruct H as [H|(_ & Hlt & _)]; [done|by apply fits_payloads|done|by apply visit_places| |cbn in Hlt; lia].
  eexists. split; [unfold archive_open, open_scanned_strict; by rewrite H|].
  split; try done. split_and!; [done|done|by apply fits_payloads].
Qed.

Lemma archives_append fault r a rs res a' :
  archives a rs -> record_fits codec r -> key r ∉ map key rs -> rolled_back fault ->
  archive_append codec key fault true r a = (res, a') ->
  match res with Ok _ => archives a' (rs ++ [r]) | Err _ => archives a' rs end.
Proof.
  intros [Hl Hf Hp Hn] Hr Hnew Hfault. unfold archive_append, append. cbn [negb].
  destruct (append_all fault (ar_log a) [enc r]) as [[u|e] l'] eqn:Ea; intros [= <- <-].
  - eapply append_all_fresh in Ea; [|exact Hl|constructor; [by apply fits_payload|done]].
    split; cbn [ar_log places].
    + rewrite map_app. destruct Ea as (? & ? & ?). by split_and!.
    + apply Forall_app. split; [done|]. by constructor.
    + rewrite places_of_snoc, Hp. f_equal. unfold place, next_payload_start.
      by rewrite (content_length _ _ Hl).
    + rewrite map_app. apply NoDup_app. split_and!; [done| |apply NoDup_singleton].
      intros x Hx Hy%list_elem_of_singleton. by subst.
  - eapply append_all_holds in Ea; [|exact Hl|constructor; [by apply fits_payload|done]|done].
    destruct Ea as (-> & _ & _). by split.
Qed.

(** *** Cutting *)

Variable ht : R -> Z.

(** The first record above [h] is where the log is cut. *)
Lemma cut_place h rs (Q : Z * (nat * nat) -> Prop) `{!forall kp, Decision (Q kp)} :
  NoDup (map key rs) ->
  (forall i r, rs !! i = Some r -> Q (key r, place (take i rs) r) <-> h < ht r) ->
  let n := leading h (map ht rs) in
  min_of (map (fun kp => (kp.2.1 - LEN_WIDTH)%nat) (filter Q (map_to_list (places_of rs)))) =
  if (n =? length rs)%nat then None else Some (end_of HEADER_LEN (map enc (take n rs))).
Proof.
  intros Hn HQ n. destruct (leading_spec h (map ht rs)) as [Hlow Hhigh]. fold n in Hlow, Hhigh.
  pose proof (leading_le h (map ht rs)) as Hle. fold n in Hle. rewrite length_map in Hle.
  assert (forall x, x ∈ map (fun kp => (kp.2.1 - LEN_WIDTH)%nat) (filter Q (map_to_list (places_of rs))) <->
    exists i r, rs !! i = Some r /\ h < ht r /\ x = end_of HEADER_LEN (map enc (take i rs))) as Hin.
  { intros x. rewrite list_elem_of_In, in_map_iff. split.
    - intros ([k [st ln]] & <- & Hkp%list_elem_of_In). apply list_elem_of_filter in Hkp as [HQk Hkp].
      apply elem_of_map_to_list, places_lookup in Hkp as (i & r & Hr & <- & Hp); [|done].
      exists i, r. rewrite Hp in HQk. split_and!; [done|by apply (HQ i)|].
      injection Hp as -> _. cbn [fst snd]. lia.
    - intros (i & r & Hr & Hh & ->). exists (key r, place (take i rs) r). split; [cbn; lia|].
      apply list_elem_of_In, list_elem_of_filter. split; [by apply (HQ i)|].
      apply elem_of_map_to_list, places_lookup; [done|]. by exists i, r. }
  pose proof (min_of_spec (map (fun kp => (kp.2.1 - LEN_WIDTH)%nat) (filter Q (map_to_list (places_of rs))))) as Hmin.
  destruct (Nat.eqb_spec n (length rs)) as [Heq|Hne].
  - destruct (min_of _) as [m|]; [|done]. destruct Hmin as [Hm _]. apply Hin in Hm as (i & r & Hr & Hh & _).
    assert (ht r <= h); [|lia]. apply (Hlow i); [by rewrite list_lookup_fmap, Hr|].
    rewrite Heq. by eapply lookup_lt_Some.
  - destruct (lookup_lt_is_Some_2 rs n) as [r Hr]; [lia|].
    assert (h < ht r) as Hh by (apply Hhigh; by rewrite list_lookup_fmap, Hr).
    assert (exists i x, rs !! i = Some x /\ h < ht x /\
      end_of HEADER_LEN (map enc (take n rs)) = end_of HEADER_LEN (map enc (take i rs))) as Hex by (by exists n, r).
    apply Hin in Hex. destruct (min_of _) as [m|]; [|rewrite Hmin in Hex; by apply elem_of_nil in Hex].
    destruct Hmin as [Hm Hall]. f_equal. apply Nat.le_antisymm; [by apply Hall|].
    apply Hin in Hm as (i & x & Hx & Hhx & ->). rewrite <- !firstn_map. apply end_of_take_le.
    destruct (decide (n <= i)%nat); [done|]. assert (ht x <= h); [|lia].
    apply (Hlow i); [by rewrite list_lookup_fmap, Hx|lia].
Qed.

Lemma archives_cut n a rs :
  archives a rs -> (n < length rs)%nat ->
  archives (mkArchive (log_truncate (ar_log a) (end_of HEADER_LEN (map enc (take n rs))))
    (filter (fun kp => (kp.2.1 < end_of HEADER_LEN (map enc (take n rs)))%nat) (places a))) (take n rs).
Proof.
  intros [Hl Hf Hp Hn] Hlt.
  assert (NoDup (map key (take n rs))) as Hn'.
  { rewrite <- (take_drop n rs), map_app in Hn. by apply NoDup_app in Hn as [? _]. }
  split; cbn [ar_log places].
  - apply (truncate_holds _ _ (map enc (drop n rs))). by rewrite <- map_app, take_drop.
  - by apply Forall_take.
  - apply map_eq. intros k. apply option_eq. intros p. rewrite map_lookup_filter_Some, Hp, !places_lookup by done.
    rewrite <- firstn_map. split.
    + intros [(i & r & Hr & Hk & ->) Hc]. cbn [snd fst place] in Hc. exists i, r.
      assert (i < n)%nat as Hi.
      { destruct (decide (n <= i)%nat) as [Hle|]; [|lia].
        pose proof (end_of_take_le HEADER_LEN (map enc rs) i n Hle) as H.
        rewrite !firstn_map in *. lia. }
      rewrite lookup_take_lt, take_take, Nat.min_l by lia. done.
    + intros (i & r & Hr & Hk & ->). apply lookup_take_Some in Hr as [Hr Hi]. split.
      * exists i, r. by rewrite take_take, Nat.min_l by lia.
      * cbn [snd fst place]. rewrite take_take, Nat.min_l, <- firstn_map by lia.
        apply (end_of_take_lt _ _ _ _ (enc r)); [by rewrite list_lookup_fmap, Hr|done].
  - done.
Qed.
End Archive.

(** ** The two archives *)

Lemma cut_at_archives {R} (codec : Codec R) `{!RoundTrip codec} key ht ok h (a : Archive) rs
    (Q : Z * (nat * nat) -> Prop) `{!forall kp, Decision (Q kp)} res a' :
  archives codec key a rs ->
  (forall i r, rs !! i = Some r -> Q (key r, place codec (take i rs) r) <-> h < ht r) ->
  cut_at ok (min_of (map (fun kp => (kp.2.1 - LEN_WIDTH)%nat) (filter Q (map_to_list (places a))))) a = (res, a') ->
  match res with Ok _ => archives codec key a' (take (leading h (map ht rs)) rs) | Err _ => a' = a end.
Proof.
  intros Ha HQ. pose proof Ha as [_ _ Hp Hn]. rewrite Hp at 1.
  rewrite (cut_place codec key ht h rs Q Hn HQ). pose proof (leading_le h (map ht rs)) as Hle.
  rewrite length_map in Hle. destruct (Nat.eqb_spec (leading h (map ht rs)) (length rs)) as [He|Hne].
  - intros [= <- <-]. by rewrite He, take_ge.
  - unfold cut_at. destruct ok; intros [= <- <-]; [|done]. apply archives_cut; [done|lia].
Qed.

Lemma burn_truncate_archives ok h a rs res a' :
  archives BurnArchiveEntry_codec be_height a rs -> burn_truncate_to_height ok h a = (res, a') ->
  match res with
  | Ok _ => archives BurnArchiveEntry_codec be_height a' (take (leading h (map be_height rs)) rs)
  | Err _ => a' = a
  end.
Proof. intros Ha E. by eapply (cut_at_archives _ be_height be_height ok h a rs) in E. Qed.

Lemma roster_truncate_archives ok h a rs res a' :
  archives RosterArchiveEntry_codec re_epoch a rs -> roster_truncate_to_height ok h a = (res, a') ->
  match res with
  | Ok _ => archives RosterArchiveEntry_codec re_epoch a' (take (leading h (map re_height rs)) rs)
  | Err _ => a' = a
  end.
Proof.
  intros Ha E. eapply (cut_at_archives _ re_epoch re_height ok h a rs) in E; [done|done|].
  intros i r Hr. cbn [fst]. unfold stale, roster_entry. rewrite (archives_entry _ _ _ _ _ Ha).
  rewrite (find_once re_epoch rs i r (archives_once _ _ _ _ Ha) Hr). apply Z.ltb_lt.
Qed.

(** The archives that come from a new file: appends with numbers that were not
    used, which the system may fail and then rolls back, truncations and
    restarts. *)
Inductive reaches {R} (codec : Codec R) (key ht : R -> Z)
    (truncate : bool -> Z -> Archive -> Result ArchiveError unit * Archive) : Archive -> list R -> Prop :=
| reaches_new rng a :
    length rng = SALT_LEN -> archive_open codec key rng [] = Ok a -> reaches codec key ht truncate a []
| reaches_append a rs fault r res a' :
    reaches codec key ht truncate a rs -> record_fits codec r -> key r ∉ map key rs -> rolled_back fault ->
    archive_append codec key fault true r a = (res, a') ->
    reaches codec key ht truncate a' (match res with Ok _ => rs ++ [r] | Err _ => rs end)
| reaches_truncate a rs ok h res a' :
    reaches codec key ht truncate a rs -> truncate ok h a = (res, a') ->
    reaches codec key ht truncate a' (match res with Ok _ => take (leading h (map ht rs)) rs | Err _ => rs end)
| reaches_restart a rs rng a' :
    reaches codec key ht truncate a rs -> archive_open codec key rng (content (ar_log a)) = Ok a' ->
    reaches codec key ht truncate a' rs.

Lemma reaches_archives {R} (codec : Codec R) `{!RoundTrip codec} key ht truncate a rs :
  (forall ok h a rs res a', archives codec key a rs -> truncate ok h a = (res, a') ->
     match res with Ok _ => archives codec key a' (take (leading h (map ht rs)) rs) | Err _ => a' = a end) ->
  reaches codec key ht truncate a rs -> archives codec key a rs.
Proof.
  intros Htr. induction 1 as [rng a Hr Ho|a rs fault r res a' _ Ha Hf Hk Hfl E|a rs ok h res a' _ Ha E|a rs rng a' _ Ha Ho].
  - destruct (archives_open codec key rng rng [] Hr) as (x & Hx & Hax); [done|constructor|].
    assert (archive_open codec key rng [] = Ok x) as Hx'.
    { rewrite <- Hx. unfold archive_open, open_scanned_strict, scan_open_parts. by rewrite prepare_absent. }
    rewrite Ho in Hx'. by injection Hx' as <-.
  - eapply archives_append in E; eauto. by destruct res.
  - eapply Htr in E; eauto. destruct res; [done|by subst].
  - pose proof Ha as [(Hc & Hs & _) Hf _ Hn]. rewrite Hc in Ho.
    destruct (archives_open codec key rng _ _ Hs Hf Hn) as (x & Hx & Hax).
    rewrite Ho in Hx. by injection Hx as <-.
Qed.

(** ** Theorems *)

(** The burn archive reads back what was appended: at every height exactly the
    entry appended for it, across restarts and failed appends, and a truncation
    cuts the archive before the first entry above its height. *)
Theorem burn_archive_reads_back a rs :
  reaches BurnArchiveEntry_codec be_height be_height burn_truncate_to_height a rs ->
  (forall h, burn_entry a h = find (fun r => be_height r =? h) rs) /\
  (forall h, burn_contains a h = bool_decide (h ∈ map be_height rs)).
Proof.
  intros Hr. pose proof (reaches_archives _ _ _ _ _ _ burn_truncate_archives Hr) as Ha. split.
  - intros h. exact (archives_entry _ _ _ _ h Ha).
  - intros h. destruct Ha as [_ _ Hp Hn]. unfold burn_contains. apply bool_decide_ext. rewrite Hp. split.
    + intros [p (i & r & Hi & <- & _)%places_lookup]; [|done].
      apply list_elem_of_In, in_map, list_elem_of_In. by eapply list_elem_of_lookup_2.
    + intros Hin. apply list_elem_of_In, in_map_iff in Hin as (r & <- & Hin%list_elem_of_In).
      apply list_elem_of_lookup_1 in Hin as [i Hi]. exists (place BurnArchiveEntry_codec (take i rs) r).
      apply places_lookup; [done|]. by exists i, r.
Qed.

(** The roster archive keeps the first roster of every epoch: it reads back as it
    was appended, and appending another for the epoch changes nothing. *)
Theorem roster_archive_reads_back a rs :
  reaches RosterArchiveEntry_codec re_epoch re_height roster_truncate_to_height a rs ->
  (forall epoch, roster_entry a epoch = find (fun r => re_epoch r =? epoch) rs) /\
  (forall fault sync_ok r, re_epoch r ∈ map re_epoch rs -> roster_append fault sync_ok r a = (Ok tt, a)).
Proof.
  intros Hr. pose proof (reaches_archives _ _ _ _ _ _ roster_truncate_archives Hr) as Ha. split.
  - intros e. exact (archives_entry _ _ _ _ e Ha).
  - intros fault so r Hin. destruct Ha as [_ _ Hp Hn]. unfold roster_append. rewrite decide_True; [done|].
    apply list_elem_of_In, in_map_iff in Hin as (x & Hx & Hin%list_elem_of_In).
    apply list_elem_of_lookup_1 in Hin as [i Hi]. rewrite Hp.
    exists (place RosterArchiveEntry_codec (take i rs) x). apply places_lookup; [done|]. by exists i, x.
Qed.
