(* ===== verification/TxIndex.v ===== *)
(** * The transaction index (crates/qtv-store/src/tx_index.rs)

    From the identifier of a transaction to its height: a tail of recent records
    in the order they came, and sorted runs on disk, newest last.  A full tail is
    sorted into a run, and neighbouring runs of like size are folded into one.

    The disk is the run files with their numbers and the tail file; an operation
    returns, besides the index, every state of the disk it passes through, a
    write that stops after any number of bytes included.  Operations of the
    system are taken to succeed; files that a crash left under a temporary name
    are removed by [open] and are not part of the disk. *)

From S2P Require Import Prelude Codec Crc Keys.

Definition RECORD : nat := 44.
Definition TAIL_MERGE_AT : Z := 4096.
Definition RUN_FANOUT : Z := 4.

(** An identifier of 32 bytes and a height. *)
Notation Rec := (list byte * Z)%type.

Definition record_bytes (r : Rec) : list byte :=
  let out := r.1 ++ to_be 8 r.2 in
  out ++ to_le 4 (checksum_parts [out]).

Definition split_record (buf : list byte) : option Rec :=
  if negb (checksum_parts [slice buf 0 40] =? from_le (slice buf 40 RECORD)) then None
  else Some (slice buf 0 32, from_be (slice buf 32 40)).

Record Run : Type := mkRun { run_seq : Z; run_file : list byte; run_len : nat }.

Record Disk : Type := mkDisk { run_files : list (Z * list byte); tail_file : list byte }.

Record TxIndex : Type := mkTxIndex {
  runs : list Run;
  next_seq : Z;
  disk : Disk;
  sorted_len : Z;
  tail_len : Z;
  tail_mem : list Rec;
  unsynced : bool }.

Inductive TxIndexError : Type := BadRecord.

Definition open_run (f : Z * list byte) : Run := mkRun f.1 f.2 (length f.2 / RECORD)%nat.

(** [next_record] until the end of the file: records that fail their checksum
    are skipped.  The number of bytes bounds the rounds. *)
Fixpoint read_records (fuel : nat) (file : list byte) : list Rec :=
  match fuel with
  | O => []
  | S fuel =>
      if (length file <? RECORD)%nat then []
      else
        match split_record (take RECORD file) with
        | Some r => r :: read_records fuel (drop RECORD file)
        | None => read_records fuel (drop RECORD file)
        end
  end.

Definition records_in (file : list byte) : list Rec := read_records (length file) file.

(** [sort_by_key] is stable: an element goes before those that came after it. *)
Section Sort.
Context {A : Type} (le : A -> A -> bool).

Fixpoint insert_sorted (x : A) (l : list A) : list A :=
  match l with
  | [] => [x]
  | y :: l => if le x y then x :: y :: l else y :: insert_sorted x l
  end.

Definition sort_by_key (l : list A) : list A := foldr insert_sorted [] l.
End Sort.

Definition seq_le {A} (a b : Z * A) : bool := a.1 <=? b.1.
Definition id_le (a b : Rec) : bool := key_le a.1 b.1.

Definition sum_len (rs : list Run) : Z := foldr (fun r n => Z.of_nat (run_len r) + n) 0 rs.

Definition open (d : Disk) : TxIndex :=
  let found := sort_by_key seq_le (run_files d) in
  let next := match last found with Some f => f.1 + 1 | None => 0 end in
  let rs := map open_run found in
  let stored := (length (tail_file d) / RECORD)%nat in
  let tail := take (stored * RECORD) (tail_file d) in
  let mem := records_in tail in
  mkTxIndex rs next (mkDisk (run_files d) tail) (sum_len rs) (len mem) mem true.

(** ** Looking up *)

Definition scan_tail (t : TxIndex) (id : list byte) : option Z :=
  snd <$> find (fun r => bool_decide (r.1 = id)) (rev (tail_mem t)).

(** The distance of the bounds shrinks in each round. *)
Fixpoint search_loop (fuel : nat) (file : list byte) (id : list byte) (lo hi : nat)
    : Result TxIndexError (option Z) :=
  match fuel with
  | O => Ok None
  | S fuel =>
      if (hi <=? lo)%nat then Ok None
      else
        let mid := (lo + (hi - lo) / 2)%nat in
        match split_record (slice file (mid * RECORD) (mid * RECORD + RECORD)) with
        | None => Err BadRecord
        | Some (got, height) =>
            if bool_decide (got = id) then Ok (Some height)
            else if key_lt got id then search_loop fuel file id (mid + 1) hi
            else search_loop fuel file id lo mid
        end
  end.

Definition search_run (r : Run) (id : list byte) : Result TxIndexError (option Z) :=
  search_loop (S (run_len r)) (run_file r) id 0 (run_len r).

Fixpoint search_runs (rs : list Run) (id : list byte) : Result TxIndexError (option Z) :=
  match rs with
  | [] => Ok None
  | r :: rs =>
      match search_run r id with
      | Ok (Some height) => Ok (Some height)
      | Ok None => search_runs rs id
      | Err e => Err e
      end
  end.

Definition get (t : TxIndex) (id : list byte) : Result TxIndexError (option Z) :=
  match scan_tail t id with
  | Some height => Ok (Some height)
  | None => search_runs (rev (runs t)) id
  end.

(** ** Merging *)

(** [dedup_by]: [prev] is the element kept last; a later one with its identifier
    leaves only its height. *)
Fixpoint dedup_from (prev : Rec) (l : list Rec) : list Rec :=
  match l with
  | [] => [prev]
  | a :: l =>
      if bool_decide (a.1 = prev.1) then dedup_from (prev.1, a.2) l else prev :: dedup_from a l
  end.

Definition dedup (l : list Rec) : list Rec :=
  match l with [] => [] | r :: l => dedup_from r l end.

(** The run of the number [next_seq] with these records; the file appears with
    the rename. *)
Definition write_run (rs : list Rec) (t : TxIndex) : Run * TxIndex :=
  let file := concat (map record_bytes rs) in
  (open_run (next_seq t, file),
   mkTxIndex (runs t) (next_seq t + 1) (mkDisk (run_files (disk t) ++ [(next_seq t, file)]) (tail_file (disk t)))
     (sorted_len t) (tail_len t) (tail_mem t) (unsynced t)).

(** The iterator over both runs, the newer one on the right. *)
Fixpoint merge_records (fuel : nat) (l r : list Rec) : list Rec :=
  match fuel with
  | O => []
  | S fuel =>
      match l, r with
      | [], [] => []
      | a :: l', b :: r' =>
          if bool_decide (a.1 = b.1) then b :: merge_records fuel l' r'
          else if key_lt a.1 b.1 then a :: merge_records fuel l' r
          else b :: merge_records fuel l r'
      | a :: l', [] => a :: merge_records fuel l' []
      | [], b :: r' => b :: merge_records fuel [] r'
      end
  end.

Definition remove_run (seq : Z) (d : Disk) : Disk :=
  mkDisk (filter (fun f => f.1 <> seq) (run_files d)) (tail_file d).

(** [fold_newest] on the runs [older] runs and the two newest ones. *)
Definition fold_newest (rest : list Run) (older newer : Run) (t : TxIndex) : TxIndex * list Disk :=
  let l := records_in (run_file older) in
  let r := records_in (run_file newer) in
  let '(run, t) := write_run (merge_records (length l + length r) l r) t in
  let d1 := disk t in
  let d2 := remove_run (run_seq older) d1 in
  let d3 := remove_run (run_seq newer) d2 in
  (mkTxIndex (rest ++ [run]) (next_seq t) d3
     (sorted_len t - Z.of_nat (run_len older) - Z.of_nat (run_len newer) + Z.of_nat (run_len run))
     (tail_len t) (tail_mem t) (unsynced t),
   [d1; d2; d3]).

(** Each round leaves one run less. *)
Fixpoint fold_loop (fuel : nat) (t : TxIndex) : TxIndex * list Disk :=
  match fuel with
  | O => (t, [])
  | S fuel =>
      match rev (runs t) with
      | newer :: older :: rest =>
          if Z.of_nat (run_len newer) * RUN_FANOUT <? Z.of_nat (run_len older) then (t, [])
          else
            let '(t, ds) := fold_newest (rev rest) older newer t in
            let '(t, ds') := fold_loop fuel t in (t, ds ++ ds')
      | _ => (t, [])
      end
  end.

Definition merge (t : TxIndex) : TxIndex * list Disk :=
  if tail_len t =? 0 then (t, [])
  else
    let tail := dedup (sort_by_key id_le (tail_mem t)) in
    let '(run, t) := write_run tail t in
    let d1 := disk t in
    let d2 := mkDisk (run_files d1) [] in
    let t := mkTxIndex (runs t ++ [run]) (next_seq t) d2 (sorted_len t + Z.of_nat (run_len run)) 0 []
      (unsynced t) in
    let '(t, ds) := fold_loop (length (runs t)) t in
    (t, d1 :: d2 :: ds).

(** ** Inserting *)

(** The states of the disk while [bytes] are appended to the tail. *)
Definition appending (d : Disk) (bytes : list byte) : list Disk :=
  map (fun k => mkDisk (run_files d) (tail_file d ++ take k bytes)) (seq 0 (S (length bytes))).

(** Each round takes at least one record. *)
Fixpoint insert_loop (fuel : nat) (records : list Rec) (t : TxIndex) : TxIndex * list Disk :=
  match fuel with
  | O => (t, [])
  | S fuel =>
      match records with
      | [] => (t, [])
      | _ =>
          let room := Z.to_nat (Z.max (TAIL_MERGE_AT - tail_len t) 1) in
          let chunk := take room records in
          let bytes := concat (map record_bytes chunk) in
          let ds := appending (disk t) bytes in
          let t := mkTxIndex (runs t) (next_seq t)
            (mkDisk (run_files (disk t)) (tail_file (disk t) ++ bytes)) (sorted_len t)
            (tail_len t + len chunk) (tail_mem t ++ chunk) true in
          let '(t, ds') := if TAIL_MERGE_AT <=? tail_len t then merge t else (t, []) in
          let '(t, ds'') := insert_loop fuel (drop room records) t in
          (t, ds ++ ds' ++ ds'')
      end
  end.

Definition insert_all (records : list Rec) (t : TxIndex) : TxIndex * list Disk :=
  insert_loop (length records) records t.

Definition insert_one (id : list byte) (height : Z) (t : TxIndex) : TxIndex * list Disk :=
  insert_all [(id, height)] t.

Definition tx_sync (t : TxIndex) : TxIndex :=
  mkTxIndex (runs t) (next_seq t) (disk t) (sorted_len t) (tail_len t) (tail_mem t) false.

Definition tx_len (t : TxIndex) : Z := sorted_len t + tail_len t.
Definition tx_is_empty (t : TxIndex) : bool := tx_len t =? 0.
