(* ===== verification/TxIndexSpec.v ===== *)
(** * What the transaction index promises

    The reference is the list of the records inserted so far: an identifier has
    the height of the last record inserted for it.  [flat] lists the records of
    an index in the order [get] looks at them; a merge, a fold, a restart or a
    crash inside any of them changes the list but not the first match in it. *)

From stdpp Require Import sorting.
From S2P Require Import Prelude Codec Crc Keys RecordIndex TxIndex.

(** ** Records *)

Definition rec_ok (r : Rec) : Prop := length r.1 = 32%nat /\ u64 r.2.

Local Notation image := (fun rs => concat (map record_bytes rs)).

Lemma length_record r : rec_ok r -> length (record_bytes r) = RECORD.
Proof.
  intros [H _]. unfold record_bytes, to_be. rewrite !length_app, length_rev, !length_to_le, H. done.
Qed.

Lemma split_record_bytes r : rec_ok r -> split_record (record_bytes r) = Some r.
Proof.
  intros [Hid Hh]. unfold split_record, record_bytes. set (out := r.1 ++ to_be 8 r.2).
  assert (length (to_be 8 r.2) = 8%nat) as H8 by (unfold to_be; by rewrite length_rev, length_to_le).
  assert (length out = 40%nat) as H40 by (unfold out; by rewrite length_app, Hid, H8).
  rewrite (slice_app_l out _ 40) by done.
  rewrite (slice_app_r out _ 40 RECORD 40) by (done || (unfold RECORD; lia)).
  replace (40 - 40)%nat with 0%nat by lia. replace (RECORD - 40)%nat with 4%nat by done.
  rewrite <- (app_nil_r (to_le 4 _)) at 1. rewrite slice_app_l by apply length_to_le.
  rewrite from_to_le by (rewrite checksum_parts_ref; apply (in_width_bytes 4), u32_crc_ref).
  rewrite Z.eqb_refl. cbn [negb]. unfold out. rewrite <- !app_assoc.
  rewrite slice_app_l by done. rewrite (slice_app_r r.1 _ 32 40 32) by (done || lia).
  replace (32 - 32)%nat with 0%nat by lia. replace (40 - 32)%nat with 8%nat by lia.
  rewrite slice_app_l by done. unfold from_be, to_be. rewrite rev_involutive.
  rewrite from_to_le by (by apply (in_width_bytes 8)). by destruct r.
Qed.

Lemma length_image rs : Forall rec_ok rs -> length (image rs) = (length rs * RECORD)%nat.
Proof.
  induction 1 as [|r rs Hr Hrs IH]; [done|]. cbn [map concat length].
  rewrite length_app, IH, length_record by done. lia.
Qed.

Lemma read_image rs torn fuel :
  Forall rec_ok rs -> (length torn < RECORD)%nat -> (length rs <= fuel)%nat ->
  read_records fuel (image rs ++ torn) = rs.
Proof.
  intros Hrs Ht. revert fuel. induction Hrs as [|r rs Hr Hrs IH]; intros fuel Hf.
  - cbn [map concat app]. destruct fuel; [done|]. cbn [read_records].
    by rewrite (proj2 (Nat.ltb_lt _ _)).
  - destruct fuel as [|fuel]; [cbn in Hf; lia|]. cbn [map concat read_records].
    rewrite <- app_assoc, length_app, length_record by done.
    rewrite (proj2 (Nat.ltb_ge _ _)) by lia.
    rewrite take_app_length', drop_app_length' by (by rewrite length_record).
    rewrite split_record_bytes by done. f_equal. apply IH. cbn in Hf. lia.
Qed.

Lemma records_in_image rs torn :
  Forall rec_ok rs -> (length torn < RECORD)%nat -> records_in (image rs ++ torn) = rs.
Proof.
  intros Hrs Ht. apply read_image; [done|done|]. rewrite length_app, length_image by done.
  unfold RECORD. lia.
Qed.

Lemma slice_image rs i r :
  Forall rec_ok rs -> rs !! i = Some r ->
  slice (image rs) (i * RECORD) (i * RECORD + RECORD) = record_bytes r.
Proof.
  intros Hrs Hi. apply take_drop_middle in Hi as Hsplit. rewrite <- Hsplit at 1.
  rewrite map_app, concat_app. cbn [map concat].
  assert (rec_ok r) as Hr by (rewrite Forall_lookup in Hrs; eauto).
  assert (length (image (take i rs)) = (i * RECORD)%nat) as Hl.
  { rewrite length_image by (by apply Forall_take). rewrite length_take_le; [done|].
    apply lookup_lt_Some in Hi. lia. }
  rewrite (slice_app_r _ _ _ _ (i * RECORD)) by (done || lia).
  replace (i * RECORD - i * RECORD)%nat with 0%nat by lia.
  replace (i * RECORD + RECORD - i * RECORD)%nat with RECORD by lia.
  by apply slice_app_l, length_record.
Qed.

(** ** First matches *)

Definition assoc (l : list Rec) (k : list byte) : option Z :=
  snd <$> find (fun r => bool_decide (r.1 = k)) l.

Lemma assoc_cons r l k : assoc (r :: l) k = if decide (r.1 = k) then Some r.2 else assoc l k.
Proof. unfold assoc. cbn [find]. by destruct (decide (r.1 = k)) as [H|H]; [rewrite bool_decide_eq_true_2|rewrite bool_decide_eq_false_2]. Qed.

Lemma assoc_app a b k : assoc (a ++ b) k = match assoc a k with Some h => Some h | None => assoc b k end.
Proof. induction a as [|r a IH]; [done|]. cbn [app]. rewrite !assoc_cons. by case_decide. Qed.

Lemma assoc_none l k : (forall r, r ∈ l -> r.1 <> k) -> assoc l k = None.
Proof.
  induction l as [|r l IH]; intros H; [done|]. rewrite assoc_cons, decide_False.
  - apply IH. intros x Hx. apply H. by apply list_elem_of_further.
  - apply H, list_elem_of_here.
Qed.

(** The height of the last record of an identifier. *)
Definition latest (l : list Rec) (k : list byte) : option Z := assoc (rev l) k.

Lemma latest_cons r l k :
  latest (r :: l) k =
  match latest l k with Some h => Some h | None => if decide (r.1 = k) then Some r.2 else None end.
Proof. unfold latest. cbn [rev]. rewrite assoc_app, assoc_cons. done. Qed.

Lemma latest_none l k : (forall r, r ∈ l -> r.1 <> k) -> latest l k = None.
Proof. intros H. apply assoc_none. intros r Hr. apply H. by apply list_elem_of_In, in_rev, list_elem_of_In. Qed.

(** Only the records of an identifier matter, in their order. *)
Lemma latest_filter l k : latest l k = latest (filter (fun r => r.1 = k) l) k.
Proof.
  induction l as [|r l IH]; [done|]. rewrite latest_cons, filter_cons, IH.
  destruct (decide (r.1 = k)) as [He|]; [by rewrite latest_cons, decide_True|].
  by destruct (latest (filter _ l) k).
Qed.

(** ** Sorting *)

Definition id_lt (a b : Rec) : Prop := kz a.1 < kz b.1.
Definition id_leq (a b : Rec) : Prop := kz a.1 <= kz b.1.

Lemma insert_sorted_filter x l k :
  filter (fun r : Rec => r.1 = k) (insert_sorted id_le x l) = filter (fun r => r.1 = k) (x :: l).
Proof.
  induction l as [|y l IH]; [done|]. cbn [insert_sorted]. destruct (id_le x y) eqn:E; [done|].
  rewrite filter_cons, IH, !filter_cons. destruct (decide (y.1 = k)) as [<-|]; [|done].
  assert (x.1 <> y.1) as Hne.
  { intros He. unfold id_le, key_le in E. rewrite He in E. lia. }
  by rewrite !decide_False.
Qed.

Lemma sort_latest l k : latest (sort_by_key id_le l) k = latest l k.
Proof.
  rewrite latest_filter, (latest_filter l). f_equal. induction l as [|r l IH]; [done|].
  cbn [sort_by_key foldr]. rewrite insert_sorted_filter, !filter_cons.
  unfold sort_by_key in IH. by rewrite IH.
Qed.

Lemma insert_sorted_in {A} (le : A -> A -> bool) x l y : y ∈ insert_sorted le x l <-> y = x \/ y ∈ l.
Proof.
  induction l as [|z l IH]; cbn [insert_sorted]; [set_solver|].
  destruct (le x z); rewrite !elem_of_cons; rewrite ?IH; tauto.
Qed.

Lemma sort_in {A} (le : A -> A -> bool) l y : y ∈ sort_by_key le l <-> y ∈ l.
Proof.
  induction l as [|x l IH]; [done|]. cbn [sort_by_key foldr]. fold (sort_by_key le l).
  rewrite insert_sorted_in, IH, elem_of_cons. done.
Qed.

Lemma sort_sorted l : StronglySorted id_leq (sort_by_key id_le l).
Proof.
  induction l as [|x l IH]; [constructor|]. cbn [sort_by_key foldr]. fold (sort_by_key id_le l).
  induction IH as [|y ys Hys IH' Hy]; cbn [insert_sorted]; [by repeat constructor|].
  unfold id_le, key_le. destruct (Z.leb_spec (kz x.1) (kz y.1)) as [Hle|Hgt].
  - constructor; [by constructor|]. constructor; [done|].
    eapply Forall_impl; [exact Hy|]. intros z Hz. unfold id_leq in *. lia.
  - constructor; [done|]. apply Forall_forall. intros z [->|Hz]%insert_sorted_in; [unfold id_leq; lia|].
    rewrite Forall_forall in Hy. by apply Hy.
Qed.

(** ** Sorted runs *)

(** The records of a run: in strict order of their identifiers. *)
Definition run_records (rs : list Rec) : Prop := Forall rec_ok rs /\ StronglySorted id_lt rs.

Lemma id_lt_ne a b : id_lt a b -> a.1 <> b.1.
Proof. unfold id_lt. intros H He. rewrite He in H. lia. Qed.

Lemma same_id a b : rec_ok a -> rec_ok b -> kz a.1 = kz b.1 -> a.1 = b.1.
Proof. intros [Ha _] [Hb _]. by apply kz_inj. Qed.

(** *** [dedup] *)

Lemma dedup_from_spec prev l :
  rec_ok prev -> Forall rec_ok l -> StronglySorted id_leq (prev :: l) ->
  run_records (dedup_from prev l) /\
  Forall (fun r => kz prev.1 <= kz r.1) (dedup_from prev l) /\
  forall k, assoc (dedup_from prev l) k = latest (prev :: l) k.
Proof.
  intros Hp Hl. revert prev Hp. induction Hl as [|a l Ha Hl IH]; intros prev Hp Hs.
  - cbn [dedup_from]. split_and!; [split; [by constructor|by repeat constructor]|constructor; [lia|done]|].
    intros k. by rewrite assoc_cons, latest_cons.
  - inversion_clear Hs as [|? ? Hs' Hle]. inversion_clear Hle as [|? ? Hle' Hrest]. unfold id_leq in Hle'.
    cbn [dedup_from]. case_bool_decide as He.
    + assert (rec_ok (prev.1, a.2)) as Hp' by (split; [apply Hp|apply Ha]).
      destruct (IH (prev.1, a.2) Hp') as (H1 & H2 & H3).
      { inversion_clear Hs' as [|? ? Hs'' ?]. constructor; [done|].
        eapply Forall_impl; [exact Hrest|]. done. }
      split_and!; [done|done|]. intros k. rewrite H3, !latest_cons. cbn [fst snd].
      destruct (latest l k); [done|]. rewrite He. by destruct (decide (prev.1 = k)).
    + destruct (IH a Ha Hs') as ((Hok & Hsort) & Hmin & Has).
      assert (kz prev.1 < kz a.1) as Hlt.
      { assert (kz prev.1 <> kz a.1); [|lia]. intros Hz. apply He. symmetry. by apply same_id. }
      assert (Forall (fun r => kz prev.1 < kz r.1) (dedup_from a l)) as Hgt.
      { eapply Forall_impl; [exact Hmin|]. cbn beta. lia. }
      split_and!; [split|..].
      * by constructor.
      * by constructor.
      * constructor; [done|]. eapply Forall_impl; [exact Hgt|]. cbn beta. lia.
      * intros k. rewrite assoc_cons, Has, (latest_cons prev).
        destruct (decide (prev.1 = k)) as [<-|]; [|by destruct (latest _ k)].
        rewrite latest_none; [done|]. inversion_clear Hs' as [|? ? _ Hal].
        intros r [->|Hr]%elem_of_cons; [congruence|]. rewrite Forall_forall in Hal.
        apply Hal in Hr. unfold id_leq in Hr. intros Hk. rewrite Hk in Hr. lia.
Qed.

Lemma dedup_sorted l :
  Forall rec_ok l ->
  run_records (dedup (sort_by_key id_le l)) /\
  forall k, assoc (dedup (sort_by_key id_le l)) k = latest l k.
Proof.
  intros Hl. pose proof (sort_sorted l) as Hs.
  assert (Forall rec_ok (sort_by_key id_le l)) as Hok.
  { apply Forall_forall. intros r Hr%sort_in. rewrite Forall_forall in Hl. auto. }
  assert (forall k, latest (sort_by_key id_le l) k = latest l k) as Hlat by (intros k; apply sort_latest).
  destruct (sort_by_key id_le l) as [|r rs]; cbn [dedup].
  - split; [by split; constructor|]. intros k. by rewrite <- Hlat.
  - apply Forall_cons in Hok as [Hr Hrs]. destruct (dedup_from_spec r rs Hr Hrs Hs) as (H1 & _ & H3).
    split; [done|]. intros k. by rewrite H3, Hlat.
Qed.

(** *** [merge_records] *)

Lemma assoc_above l k : Forall (fun r => kz k < kz r.1) l -> assoc l k = None.
Proof.
  intros H. apply assoc_none. intros r Hr He. rewrite Forall_forall in H. apply H in Hr.
  rewrite He in Hr. lia.
Qed.

Lemma merge_records_spec fuel l r :
  (length l + length r <= fuel)%nat -> run_records l -> run_records r ->
  let m := merge_records fuel l r in
  run_records m /\ (forall z, Forall (fun x => z < kz x.1) l -> Forall (fun x => z < kz x.1) r ->
    Forall (fun x => z < kz x.1) m) /\
  forall k, assoc m k = assoc (r ++ l) k.
Proof.
  revert l r. induction fuel as [|fuel IH]; intros l r Hf [Hl1 Hl2] [Hr1 Hr2]; cbn zeta.
  { destruct l, r; cbn in Hf; [|lia..]. by split_and!; [split|..]. }
  destruct l as [|a l], r as [|b r]; cbn [merge_records length] in *.
  - by split_and!; [split|..].
  - apply Forall_cons in Hr1 as [Hb Hr1]. inversion_clear Hr2 as [|? ? Hr2' Hbr].
    destruct (IH [] r) as ((H1 & H2) & H3 & H4); [cbn; lia|by split|by split|].
    split_and!; [split|..].
    + by constructor.
    + constructor; [done|]. by apply (H3 (kz b.1)).
    + intros z Hz1 Hz2. apply Forall_cons in Hz2 as [? ?]. constructor; auto.
    + intros k. cbn [app]. by rewrite !assoc_cons, H4.
  - apply Forall_cons in Hl1 as [Ha Hl1]. inversion_clear Hl2 as [|? ? Hl2' Hal].
    destruct (IH l []) as ((H1 & H2) & H3 & H4); [cbn; lia|by split|by split|].
    split_and!; [split|..].
    + by constructor.
    + constructor; [done|]. by apply (H3 (kz a.1)).
    + intros z Hz1 Hz2. apply Forall_cons in Hz1 as [? ?]. constructor; auto.
    + intros k. cbn [app] in *. by rewrite !assoc_cons, H4.
  - pose proof Hl1 as Hl1'. pose proof Hr1 as Hr1'. pose proof Hl2 as Hl0. pose proof Hr2 as Hr0.
    apply Forall_cons in Hl1' as [Ha Hl1']. apply Forall_cons in Hr1' as [Hb Hr1'].
    inversion_clear Hl0 as [|? ? Hl2' Hal]. inversion_clear Hr0 as [|? ? Hr2' Hbr].
    unfold id_lt in Hal, Hbr.
    case_bool_decide as He; [|unfold key_lt; destruct (Z.ltb_spec (kz a.1) (kz b.1)) as [Hlt|Hge]].
    + destruct (IH l r) as ((H1 & H2) & H3 & H4); [lia|by split|by split|].
      split_and!; [split|..].
      * by constructor.
      * constructor; [done|]. apply (H3 (kz b.1)); [by rewrite <- He|done].
      * intros z Hz1 Hz2. apply Forall_cons in Hz1 as [? ?]. apply Forall_cons in Hz2 as [? ?].
        constructor; auto.
      * intros k. cbn [app]. rewrite !assoc_cons, H4, !assoc_app, assoc_cons, He.
        by destruct (decide (b.1 = k)).
    + destruct (IH l (b :: r)) as ((H1 & H2) & H3 & H4); [cbn; lia|by split|by split|].
      split_and!; [split|..].
      * by constructor.
      * constructor; [done|]. apply (H3 (kz a.1)); [done|]. constructor; [done|].
        eapply Forall_impl; [exact Hbr|]. cbn beta. lia.
      * intros z Hz1 Hz2. apply Forall_cons in Hz1 as [? ?]. constructor; auto.
      * intros k. rewrite assoc_cons, H4, !assoc_app, (assoc_cons a).
        destruct (decide (a.1 = k)) as [<-|]; [|done].
        rewrite (assoc_above (b :: r)); [done|]. constructor; [done|].
        eapply Forall_impl; [exact Hbr|]. cbn beta. lia.
    + assert (kz b.1 < kz a.1) as Hlt.
      { assert (kz b.1 <> kz a.1); [|lia]. intros Hz. apply He. symmetry. by apply same_id. }
      destruct (IH (a :: l) r) as ((H1 & H2) & H3 & H4); [cbn; lia|by split|by split|].
      split_and!; [split|..].
      * by constructor.
      * constructor; [done|]. apply (H3 (kz b.1)); [|done]. constructor; [done|].
        eapply Forall_impl; [exact Hal|]. cbn beta. lia.
      * intros z Hz1 Hz2. apply Forall_cons in Hz2 as [? ?]. constructor; auto.
      * intros k. cbn [app]. rewrite !(assoc_cons b), H4. done.
Qed.

(** *** Searching a run *)

Lemma run_lookup_lt rs i j a b :
  run_records rs -> rs !! i = Some a -> rs !! j = Some b -> (i < j)%nat -> kz a.1 < kz b.1.
Proof. intros [_ Hs] Ha Hb Hij. by apply (sorted_lookup id_lt rs i j). Qed.

Lemma run_assoc rs i r : run_records rs -> rs !! i = Some r -> assoc rs r.1 = Some r.2.
Proof.
  intros Hrs Hi. rewrite <- (take_drop_middle rs i r Hi), assoc_app.
  rewrite assoc_none; [by rewrite assoc_cons, decide_True|].
  intros x [j Hj]%list_elem_of_lookup_1. apply lookup_take_Some in Hj as [Hj Hji].
  apply id_lt_ne. by apply (run_lookup_lt rs j i).
Qed.

Lemma tx_search_loop_spec rs k fuel lo hi :
  run_records rs -> length k = 32%nat -> (hi - lo < fuel)%nat -> (hi <= length rs)%nat ->
  (forall i r, rs !! i = Some r -> r.1 = k -> (lo <= i < hi)%nat) ->
  search_loop fuel (image rs) k lo hi = Ok (assoc rs k).
Proof.
  intros Hrs Hk. revert lo hi. induction fuel as [|fuel IH]; intros lo hi Hf Hhi Hin; [lia|].
  cbn [search_loop]. destruct (Nat.leb_spec hi lo) as [Hle|Hlt].
  { rewrite assoc_none; [done|]. intros r [i Hi]%list_elem_of_lookup_1 He. specialize (Hin i r Hi He). lia. }
  assert ((hi - lo) / 2 < hi - lo)%nat as Hmid by (apply Nat.div_lt; lia).
  set (mid := (lo + (hi - lo) / 2)%nat). destruct (lookup_lt_is_Some_2 rs mid) as [[got h] Hr]; [lia|].
  rewrite (slice_image rs mid (got, h)); [|apply Hrs|done].
  assert (rec_ok (got, h)) as Hok by (destruct Hrs as [H _]; rewrite Forall_lookup in H; eauto).
  rewrite split_record_bytes by done. case_bool_decide as He.
  { subst got. f_equal. symmetry. by apply (run_assoc rs mid (k, h)). }
  unfold key_lt. destruct (Z.ltb_spec (kz got) (kz k)) as [Hlt'|Hge]; apply IH; try lia.
  - intros i r Hi Hrk. pose proof (Hin i r Hi Hrk). split; [|lia].
    destruct (decide (i <= mid)%nat); [|lia]. exfalso. destruct (decide (i = mid)) as [->|].
    + rewrite Hr in Hi. injection Hi as <-. done.
    + pose proof (run_lookup_lt rs i mid r (got, h) Hrs Hi Hr ltac:(lia)) as Hz. rewrite Hrk in Hz. cbn [fst] in Hz. lia.
  - intros i r Hi Hrk. pose proof (Hin i r Hi Hrk). split; [lia|].
    destruct (decide (mid <= i)%nat); [|lia]. exfalso. destruct (decide (i = mid)) as [->|].
    + rewrite Hr in Hi. injection Hi as <-. done.
    + pose proof (run_lookup_lt rs mid i (got, h) r Hrs Hr Hi ltac:(lia)) as Hz. rewrite Hrk in Hz. cbn [fst] in Hz.
      lia.
Qed.

(** ** Indexes and disks *)

Definition file_of (r : Run) : Z * list byte := (run_seq r, run_file r).

Definition run_ok (f : Z * list byte) (rs : list Rec) : Prop := f.2 = image rs /\ run_records rs.

(** The records in the order they are looked at. *)
Definition flat (tail : list Rec) (rss : list (list Rec)) : list Rec := rev tail ++ concat (rev rss).

(** Two lists with the same first matches. *)
Definition agree (a b : list Rec) : Prop := forall k, assoc a k = assoc b k.

Record good_disk (d : Disk) (hist : list Rec) (rss : list (list Rec)) (tail : list Rec) : Prop := {
  good_runs : Forall2 run_ok (run_files d) rss;
  good_seqs : StronglySorted Z.lt (map fst (run_files d));
  good_tail : exists torn, tail_file d = image tail ++ torn /\ (length torn < RECORD)%nat;
  good_tail_ok : Forall rec_ok tail;
  good_agree : agree (flat tail rss) (rev hist)
}.

(** The index in memory is what the disk holds. *)
Record good_index (t : TxIndex) (hist : list Rec) (rss : list (list Rec)) : Prop := {
  good_disk_of : good_disk (disk t) hist rss (tail_mem t);
  good_files : runs t = map open_run (run_files (disk t));
  good_next : Forall (fun f => f.1 < next_seq t) (run_files (disk t));
  good_whole : tail_file (disk t) = image (tail_mem t);
  good_tail_len : tail_len t = len (tail_mem t);
  good_sorted_len : sorted_len t = sum_len (runs t)
}.

Lemma run_ok_len f rs : run_ok f rs -> run_len (open_run f) = length rs.
Proof.
  intros [Hf [Hok _]]. cbn [open_run run_len]. rewrite Hf, length_image by done.
  apply Nat.div_mul. done.
Qed.

Lemma run_ok_records f rs : run_ok f rs -> records_in f.2 = rs.
Proof.
  intros [Hf [Hok _]]. rewrite Hf, <- (app_nil_r (image rs)). apply records_in_image; [done|]. unfold RECORD. cbn. lia.
Qed.

Lemma search_run_spec f rs k :
  run_ok f rs -> length k = 32%nat -> search_run (open_run f) k = Ok (assoc rs k).
Proof.
  intros Hf Hk. pose proof (run_ok_len _ _ Hf) as Hlen. destruct Hf as [Hf Hrs].
  unfold search_run. rewrite Hlen. cbn [open_run run_file]. rewrite Hf.
  apply tx_search_loop_spec; [done|done|lia|done|].
  intros i r Hi _. apply lookup_lt_Some in Hi. lia.
Qed.

Lemma search_runs_spec fs rss k :
  Forall2 run_ok fs rss -> length k = 32%nat ->
  search_runs (map open_run fs) k = Ok (assoc (concat rss) k).
Proof.
  intros H Hk. induction H as [|f rs fs rss Hf Hfs IH]; [done|]. cbn [map search_runs concat].
  rewrite (search_run_spec f rs) by done. rewrite assoc_app, IH. by destruct (assoc rs k).
Qed.

Lemma Forall2_rev {A B} (P : A -> B -> Prop) a b : Forall2 P a b -> Forall2 P (rev a) (rev b).
Proof. induction 1; cbn [rev]; [done|]. by apply Forall2_app; [|constructor]. Qed.

Lemma get_spec t hist rss k :
  good_index t hist rss -> length k = 32%nat -> get t k = Ok (latest hist k).
Proof.
  intros [[Hr Hs Ht Hok Ha] Hf _ _ _ _] Hk. unfold latest. rewrite <- Ha. unfold get, flat.
  rewrite assoc_app. change (scan_tail t k) with (assoc (rev (tail_mem t)) k).
  destruct (assoc (rev (tail_mem t)) k); [done|].
  rewrite Hf, <- map_rev. apply search_runs_spec; [|done]. by apply Forall2_rev.
Qed.

(** *** Opening *)

Lemma sort_seqs {A} (fs : list (Z * A)) :
  StronglySorted Z.lt (map fst fs) -> sort_by_key seq_le fs = fs.
Proof.
  induction fs as [|f fs IH]; intros Hs; [done|]. cbn [map] in Hs. inversion_clear Hs as [|? ? Hs' Hf].
  cbn [sort_by_key foldr]. fold (sort_by_key seq_le fs). rewrite IH by done.
  destruct fs as [|g fs]; [done|]. cbn [map] in Hf. apply Forall_cons in Hf as [Hlt _].
  cbn [insert_sorted]. unfold seq_le. by rewrite (proj2 (Z.leb_le _ _)) by lia.
Qed.

Lemma open_good d hist rss tail :
  good_disk d hist rss tail -> good_index (open d) hist rss.
Proof.
  intros [Hr Hs (torn & Ht & Htorn) Hok Ha].
  assert (length (tail_file d) / RECORD = length tail)%nat as Hdiv.
  { rewrite Ht, length_app, length_image by done. unfold RECORD in *.
    rewrite Nat.div_add_l by lia. rewrite (Nat.div_small (length torn)) by lia. lia. }
  assert (take (length (tail_file d) / RECORD * RECORD) (tail_file d) = image tail) as Hcut.
  { rewrite Hdiv, Ht. apply take_app_length'. by rewrite length_image. }
  assert (records_in (image tail) = tail) as Hmem.
  { rewrite <- (app_nil_r (image tail)). apply records_in_image; [done|]. unfold RECORD. cbn. lia. }
  unfold open. rewrite Hcut, Hmem, sort_seqs by done.
  split; cbn [disk runs next_seq tail_mem tail_len sorted_len run_files tail_file]; try done.
  - split; cbn [run_files tail_file]; try done. exists []. rewrite app_nil_r. split; [done|].
    unfold RECORD. cbn. lia.
  - destruct (run_files d) as [|f fs _] using rev_ind; [done|]. rewrite last_snoc.
    rewrite map_app in Hs. apply Forall_app. split; [|constructor; [lia|done]].
    apply Forall_forall. intros g Hg. assert (g.1 < f.1); [|lia].
    eapply (StronglySorted_app_1_elem_of Z.lt); [exact Hs| |apply list_elem_of_here].
    apply list_elem_of_In, in_map, list_elem_of_In. done.
Qed.

Lemma index_disk t hist rss : good_index t hist rss -> good_disk (disk t) hist rss (tail_mem t).
Proof. by intros []. Qed.

(** *** Writing a run *)

Lemma agree_flat_run tail rss m :
  (forall k, assoc m k = latest tail k) -> agree (flat [] (rss ++ [m])) (flat tail rss).
Proof.
  intros Hm k. unfold flat. rewrite rev_app_distr. cbn [rev app concat]. rewrite !assoc_app.
  by rewrite Hm.
Qed.

Lemma seqs_snoc fs n (f : Z * list byte) :
  StronglySorted Z.lt (map fst fs) -> Forall (fun g => g.1 < n) fs -> f.1 = n ->
  StronglySorted Z.lt (map fst (fs ++ [f])).
Proof.
  intros Hs Hn Hf. rewrite map_app. apply StronglySorted_app_2; [|done|by repeat constructor].
  intros x y Hx Hy. apply list_elem_of_In, in_map_iff in Hx as (g & <- & Hg%list_elem_of_In).
  apply list_elem_of_singleton in Hy as ->. rewrite Forall_forall in Hn. rewrite Hf. by apply Hn.
Qed.

(** A run that repeats what the records behind it say changes no answer. *)
Lemma agree_covered a m b c :
  (forall k, assoc m k = assoc b k) -> agree (a ++ m ++ b ++ c) (a ++ b ++ c) /\ agree (a ++ m ++ c) (a ++ b ++ c).
Proof.
  intros Hm. split; intros k; rewrite !assoc_app, Hm; destruct (assoc a k); try done; by destruct (assoc b k).
Qed.

(** *** Folding the two newest runs *)

Lemma filter_all {A} (P : A -> Prop) `{!forall x, Decision (P x)} l : Forall P l -> filter P l = l.
Proof. induction 1 as [|x l Hx Hl IH]; [done|]. by rewrite filter_cons_True, IH. Qed.

Lemma remove_middle (a : list (Z * list byte)) f b :
  StronglySorted Z.lt (map fst (a ++ f :: b)) -> filter (fun g => g.1 <> f.1) (a ++ f :: b) = a ++ b.
Proof.
  intros Hs. rewrite map_app in Hs. cbn [map] in Hs.
  assert (forall g, g ∈ a -> g.1 <> f.1) as Ha.
  { intros g Hg He. assert (g.1 < f.1); [|lia].
    eapply (StronglySorted_app_1_elem_of Z.lt); [exact Hs| |apply list_elem_of_here].
    apply list_elem_of_In, in_map, list_elem_of_In. done. }
  apply StronglySorted_app_1_r in Hs. inversion_clear Hs as [|? ? _ Hb].
  rewrite filter_app, filter_cons_False by (intros Hne; by apply Hne). f_equal; apply filter_all.
  - by apply Forall_forall.
  - rewrite Forall_map in Hb. eapply Forall_impl; [exact Hb|]. cbn beta. lia.
Qed.

Lemma sum_len_app a b : sum_len (a ++ b) = sum_len a + sum_len b.
Proof. induction a as [|r a IH]; [done|]. cbn [app sum_len foldr] in *. fold (sum_len (a ++ b)). fold (sum_len a). lia. Qed.

Definition safe (ds : list Disk) (hist : list Rec) : Prop :=
  Forall (fun d => exists rss tail, good_disk d hist rss tail) ds.

(** Replacing the runs of a good disk. *)
Lemma good_disk_runs d hist rss tail fs rss' :
  good_disk d hist rss tail -> Forall2 run_ok fs rss' -> StronglySorted Z.lt (map fst fs) ->
  agree (flat tail rss') (flat tail rss) -> good_disk (mkDisk fs (tail_file d)) hist rss' tail.
Proof.
  intros [_ _ Ht Hok Ha] Hr Hs Hag. split; cbn [run_files tail_file]; try done.
  intros k. by rewrite Hag.
Qed.

Lemma sorted_drop_middle (a b c : list Z) :
  StronglySorted Z.lt (a ++ b ++ c) -> StronglySorted Z.lt (a ++ c).
Proof.
  rewrite !StronglySorted_app. intros (H1 & Ha & H2 & Hb & Hc). split_and!; [|done|done].
  intros x y Hx Hy. apply H1; [done|]. apply elem_of_app. by right.
Qed.

Lemma open_run_file f : run_file (open_run f) = f.2.
Proof. done. Qed.
Lemma open_run_seq f : run_seq (open_run f) = f.1.
Proof. done. Qed.
Lemma open_run_len f : run_len (open_run f) = (length f.2 / RECORD)%nat.
Proof. done. Qed.

#[local] Opaque open_run.

Lemma fold_newest_good t hist rss fs fo fn t' ds :
  good_index t hist rss -> run_files (disk t) = fs ++ [fo; fn] ->
  fold_newest (map open_run fs) (open_run fo) (open_run fn) t = (t', ds) ->
  (exists rss', good_index t' hist rss' /\ (length (runs t') < length (runs t))%nat) /\ safe ds hist.
Proof.
  intros [Hd Hf Hn Hw Htl Hsl] Hfs. unfold fold_newest, write_run. rewrite !open_run_file, !open_run_seq.
  pose proof Hd as [Hr Hs Ht Hok Ha]. rewrite Hfs in *.
  apply Forall2_app_inv_l in Hr as (rss0 & rest & Hr0 & Hrest & ->).
  apply Forall2_cons_inv_l in Hrest as (ro & rest' & Ho & Hrest & ->).
  apply Forall2_cons_inv_l in Hrest as (rn & rest'' & Hnw & ->%Forall2_nil_inv_l & ->). rewrite (run_ok_records _ _ Ho), (run_ok_records _ _ Hnw).
  set (m := merge_records (length ro + length rn) ro rn).
  destruct (merge_records_spec (length ro + length rn) ro rn) as (Hm & _ & Hma); [done|apply Ho|apply Hnw|].
  fold m in Hm, Hma. cbn zeta. cbn [run_files disk tail_file].
  set (fm := (next_seq t, image m)).
  assert (run_ok fm m) as Hfm by done.
  assert (StronglySorted Z.lt (map fst (fs ++ fo :: fn :: [fm]))) as Hs3.
  { pose proof (seqs_snoc _ _ fm Hs Hn eq_refl) as H. by rewrite <- app_assoc in H. }
  assert (StronglySorted Z.lt (map fst (fs ++ fn :: [fm]))) as Hs2.
  { rewrite map_app in *. by apply (sorted_drop_middle _ [fo.1]). }
  assert (StronglySorted Z.lt (map fst (fs ++ [fm]))) as Hs1.
  { rewrite map_app in *. by apply (sorted_drop_middle _ [fn.1]). }
  unfold remove_run. cbn [run_files tail_file]. rewrite <- app_assoc. cbn [app].
  rewrite (remove_middle fs fo _ Hs3), (remove_middle fs fn _ Hs2).
  assert (forall x, agree (flat (tail_mem t) (rss0 ++ x)) (flat (tail_mem t) (rss0 ++ [ro; rn])) ->
    forall gs, Forall2 run_ok gs x -> StronglySorted Z.lt (map fst (fs ++ gs)) ->
    good_disk (mkDisk (fs ++ gs) (tail_file (disk t))) hist (rss0 ++ x) (tail_mem t)) as Hgood.
  { intros x Hx gs Hgs Hsg. eapply good_disk_runs; [exact Hd|by apply Forall2_app|done|done]. }
  assert (forall c, concat (rev (rss0 ++ c)) = concat (rev c) ++ concat (rev rss0)) as Hcat.
  { intros c. by rewrite rev_app_distr, concat_app. }
  destruct (agree_covered (rev (tail_mem t)) m (rn ++ ro) (concat (rev rss0)) Hma) as [Hag3 Hag1].
  assert (agree (flat (tail_mem t) (rss0 ++ [m])) (flat (tail_mem t) (rss0 ++ [ro; rn]))) as Ham.
  { unfold flat, agree in *. rewrite !Hcat. cbn [rev app concat]. rewrite !app_nil_r. exact Hag1. }
  assert (agree (flat (tail_mem t) (rss0 ++ [ro; rn; m])) (flat (tail_mem t) (rss0 ++ [ro; rn]))) as Ham3.
  { unfold flat, agree in *. rewrite !Hcat. cbn [rev app concat]. rewrite !app_nil_r, <- !app_assoc in *. exact Hag3. }
  assert (agree (flat (tail_mem t) (rss0 ++ [rn; m])) (flat (tail_mem t) (rss0 ++ [ro; rn]))) as Ham2.
  { intros k. rewrite <- Ham. unfold flat. rewrite !Hcat. cbn [rev app concat]. rewrite !app_nil_r, <- !app_assoc.
    rewrite !assoc_app, Hma, assoc_app. destruct (assoc (rev (tail_mem t)) k); [done|].
    destruct (assoc rn k); [done|]. done. }
  intros [= <- <-]. split.
  - exists (rss0 ++ [m]). split; [|].
    + split; cbn [disk runs next_seq tail_mem tail_len sorted_len run_files]; try done.
      * apply Hgood; [done|by auto using Forall2_cons_2, Forall2_nil_2|done].
      * by rewrite map_app.
      * apply Forall_app in Hn as [Hn _]. apply Forall_app. split.
        -- eapply Forall_impl; [exact Hn|]. cbn beta. lia.
        -- constructor; [cbn; lia|done].
      * rewrite Hsl, Hf, map_app, !sum_len_app. unfold sum_len. cbn [map foldr]. rewrite !open_run_len. lia.
    + cbn [runs]. rewrite Hf, !length_app, !length_map, length_app. cbn [length]. lia.
  - unfold safe. rewrite !Forall_cons. split_and!; [..|done]; eexists _, _.
    + apply (Hgood [ro; rn; m] Ham3 [fo; fn; fm]); [by auto using Forall2_cons_2, Forall2_nil_2|done].
    + apply (Hgood [rn; m] Ham2 [fn; fm]); [by auto using Forall2_cons_2, Forall2_nil_2|done].
    + apply (Hgood [m] Ham [fm]); [by auto using Forall2_cons_2, Forall2_nil_2|done].
Qed.

(** The loop stops when the last two runs differ enough in size. *)
Definition settled (t : TxIndex) : Prop :=
  match rev (runs t) with
  | newer :: older :: _ => Z.of_nat (run_len newer) * RUN_FANOUT < Z.of_nat (run_len older)
  | _ => True
  end.

Lemma fold_loop_good fuel t hist rss :
  good_index t hist rss -> (length (runs t) <= fuel)%nat ->
  let '(t', ds) := fold_loop fuel t in
  (exists rss', good_index t' hist rss') /\ settled t' /\ safe ds hist.
Proof.
  revert t rss. induction fuel as [|fuel IH]; intros t rss Hg Hf; cbn [fold_loop].
  { apply Nat.le_0_r, nil_length_inv in Hf. split_and!; [by eauto| |by constructor].
    unfold settled. by rewrite Hf. }
  destruct (rev (runs t)) as [|newer [|older rest]] eqn:Er.
  1, 2: split_and!; [by eauto|unfold settled; by rewrite Er|by constructor].
  destruct (Z.ltb_spec (Z.of_nat (run_len newer) * RUN_FANOUT) (Z.of_nat (run_len older))).
  { split_and!; [by eauto|unfold settled; by rewrite Er|by constructor]. }
  assert (runs t = rev rest ++ [older; newer]) as Hruns.
  { rewrite <- (rev_involutive (runs t)), Er. cbn [rev]. by rewrite <- app_assoc. }
  pose proof Hruns as Hmap. rewrite (good_files _ _ _ Hg) in Hmap.
  apply map_eq_app in Hmap as (fs & gs & Hfs & <- & Hgs).
  destruct gs as [|fo [|fn [|]]]; try done. injection Hgs as <- <-.
  destruct (fold_newest (map open_run fs) (open_run fo) (open_run fn) t) as [t1 ds1] eqn:E1.
  apply (fold_newest_good t hist rss fs fo fn) in E1 as ((rss' & Hg' & Hlt) & Hsafe); [|done|done].
  pose proof (IH t1 rss' Hg' ltac:(lia)) as IH1. destruct (fold_loop fuel t1) as [t2 ds2].
  destruct IH1 as (H1 & H2 & H3). split_and!; [done|done|]. by apply Forall_app.
Qed.

Lemma merge_good t hist rss :
  good_index t hist rss ->
  let '(t', ds) := merge t in (exists rss', good_index t' hist rss') /\ safe ds hist.
Proof.
  intros Hg. pose proof Hg as [Hd Hf Hn Hw Htl Hsl]. pose proof Hd as [Hr Hs Ht Hok Ha]. unfold merge.
  destruct (Z.eqb_spec (tail_len t) 0); [split; [by eauto|by constructor]|]. unfold write_run.
  set (m := dedup (sort_by_key id_le (tail_mem t))).
  destruct (dedup_sorted (tail_mem t) Hok) as [Hm Hma]. fold m in Hm, Hma.
  set (fm := (next_seq t, image m)). assert (run_ok fm m) as Hfm by done.
  assert (Forall2 run_ok (run_files (disk t) ++ [fm]) (rss ++ [m])) as Hr'.
  { apply Forall2_app; [done|]. by auto using Forall2_cons_2, Forall2_nil_2. }
  pose proof (seqs_snoc _ _ fm Hs Hn eq_refl) as Hs'.
  assert (good_disk (mkDisk (run_files (disk t) ++ [fm]) (tail_file (disk t))) hist (rss ++ [m]) (tail_mem t)) as Hd1.
  { eapply good_disk_runs; [exact Hd|done|done|]. intros k. unfold flat.
    rewrite rev_app_distr. cbn [rev app concat]. rewrite !assoc_app, Hma. unfold latest.
    by destruct (assoc (rev (tail_mem t)) k). }
  assert (good_disk (mkDisk (run_files (disk t) ++ [fm]) []) hist (rss ++ [m]) []) as Hd2.
  { split; cbn [run_files tail_file]; [done|done|by exists []; split; [|unfold RECORD; cbn; lia]|done|].
    intros k. rewrite (agree_flat_run (tail_mem t) rss m Hma k). apply Ha. }
  cbn [runs disk run_files tail_file next_seq sorted_len unsynced tail_len tail_mem].
  match goal with |- context [fold_loop _ ?x] => set (t1 := x) end.
  assert (good_index t1 hist (rss ++ [m])) as Hg1.
  { split; cbn [t1 disk runs next_seq tail_mem tail_len sorted_len run_files tail_file]; try done.
    - by rewrite Hf, map_app.
    - apply Forall_app. split; [|constructor; [cbn; lia|done]].
      eapply Forall_impl; [exact Hn|]. cbn beta. lia.
    - rewrite Hsl, sum_len_app. unfold sum_len at 3. cbn [foldr]. rewrite !open_run_len. lia. }
  pose proof (fold_loop_good (length (runs t1)) t1 hist _ Hg1 ltac:(done)) as Hloop.
  destruct (fold_loop _ t1) as [t2 ds]. destruct Hloop as (H1 & _ & H3). split; [done|].
  repeat (apply Forall_cons; split); [by eauto|by eauto|done].
Qed.

(** *** Appending to the tail *)

Lemma good_append t hist rss chunk k :
  good_index t hist rss -> Forall rec_ok chunk ->
  exists n, good_disk (mkDisk (run_files (disk t)) (tail_file (disk t) ++ take k (image chunk)))
    (hist ++ take n chunk) rss (tail_mem t ++ take n chunk).
Proof.
  intros [Hd Hf Hn Hw Htl Hsl] Hc. pose proof Hd as [Hr Hs Ht Hok Ha].
  exists (k / RECORD)%nat. split; cbn [run_files tail_file]; try done.
  - rewrite Hw. exists (take (k - k / RECORD * RECORD) (image (drop (k / RECORD) chunk))).
    rewrite map_app, concat_app, <- app_assoc. split.
    + f_equal. rewrite <- (take_drop (k / RECORD) chunk) at 1. rewrite map_app, concat_app.
      assert (Forall rec_ok (take (k / RECORD) chunk)) as Hok1 by (by apply Forall_take).
      rewrite take_app, length_image by done. destruct (decide (k / RECORD <= length chunk)%nat) as [Hle|Hgt].
      * rewrite length_take_le by done. rewrite take_ge; [done|].
        rewrite length_image, length_take_le by done.
        pose proof (Nat.Div0.mul_div_le k RECORD). lia.
      * rewrite (drop_ge chunk) by lia. cbn [map concat]. rewrite !take_nil, app_nil_r, take_ge; [by rewrite app_nil_r|].
        rewrite length_image by done. rewrite (take_ge chunk) in * by lia.
        pose proof (Nat.Div0.mul_div_le k RECORD). unfold RECORD in *. lia.
    + rewrite length_take. pose proof (Nat.Div0.div_mod k RECORD) as Hdm.
      pose proof (Nat.mod_upper_bound k RECORD ltac:(done)) as Hmod. lia.
  - apply Forall_app. split; [done|]. by apply Forall_take.
  - intros x. unfold flat. rewrite !rev_app_distr, <- app_assoc, !(assoc_app (rev (take _ chunk))).
    by rewrite (Ha x : assoc (rev (tail_mem t) ++ concat (rev rss)) x = _).
Qed.

(** The disks an insertion passes through hold a prefix of the new records. *)
Definition prefix_safe (ds : list Disk) (hist records : list Rec) : Prop :=
  Forall (fun d => exists n rss tail, good_disk d (hist ++ take n records) rss tail) ds.

Lemma safe_prefix ds hist records n : safe ds (hist ++ take n records) -> prefix_safe ds hist records.
Proof. intros H. eapply Forall_impl; [exact H|]. intros d (rss & tail & Hd). by exists n, rss, tail. Qed.

Lemma take_shift {A} n m (l : list A) : take n l ++ take m (drop n l) = take (n + m) l.
Proof. apply take_take_drop. Qed.

Lemma appended t hist rss chunk :
  good_index t hist rss -> Forall rec_ok chunk ->
  good_index (mkTxIndex (runs t) (next_seq t)
    (mkDisk (run_files (disk t)) (tail_file (disk t) ++ image chunk)) (sorted_len t)
    (tail_len t + len chunk) (tail_mem t ++ chunk) true) (hist ++ chunk) rss.
Proof.
  intros [[Hr Hs Ht Hok Ha] Hf Hn Hw Htl Hsl] Hc.
  split; cbn [disk runs next_seq tail_mem tail_len sorted_len run_files tail_file]; try done.
  - split; cbn [run_files tail_file]; try done.
    + exists []. rewrite map_app, concat_app, Hw, app_nil_r. split; [done|]. unfold RECORD. cbn. lia.
    + by apply Forall_app.
    + intros k. unfold flat. rewrite !rev_app_distr, <- app_assoc, !(assoc_app (rev chunk)).
      by rewrite (Ha k : assoc (rev (tail_mem t) ++ concat (rev rss)) k = _).
  - by rewrite map_app, concat_app, Hw.
  - rewrite Htl. unfold len. rewrite length_app. lia.
Qed.

Lemma insert_loop_good fuel records t hist rss :
  good_index t hist rss -> Forall rec_ok records -> (length records <= fuel)%nat ->
  let '(t', ds) := insert_loop fuel records t in
  (exists rss', good_index t' (hist ++ records) rss') /\ prefix_safe ds hist records.
Proof.
  revert records t hist rss. induction fuel as [|fuel IH]; intros records t hist rss Hg Hrs Hf.
  { apply Nat.le_0_r, nil_length_inv in Hf as ->. cbn [insert_loop]. rewrite app_nil_r.
    split; [by eauto|by constructor]. }
  destruct records as [|r records]; [cbn [insert_loop]; rewrite app_nil_r; split; [by eauto|by constructor]|].
  cbn [insert_loop]. set (all := r :: records) in *. set (room := Z.to_nat _).
  assert (0 < room)%nat as Hroom by (unfold room; lia).
  assert (Forall rec_ok (take room all)) as Hc by (by apply Forall_take).
  assert (Forall rec_ok (drop room all)) as Hc' by (by apply Forall_drop).
  pose proof (appended t hist rss (take room all) Hg Hc) as Hg1.
  match type of Hg1 with good_index ?x _ _ => set (t1 := x) in * end.
  assert (prefix_safe (appending (disk t) (image (take room all))) hist all) as Happ.
  { apply Forall_map, Forall_forall. intros k _. destruct (good_append t hist rss (take room all) k Hg Hc) as [n Hd].
    rewrite take_take in Hd. by exists (Nat.min n room), rss, (tail_mem t ++ take (Nat.min n room) all). }
  assert (let '(t2, ds) := if TAIL_MERGE_AT <=? tail_len t1 then merge t1 else (t1, []) in
    (exists rss', good_index t2 (hist ++ take room all) rss') /\ safe ds (hist ++ take room all)) as Hm.
  { destruct (TAIL_MERGE_AT <=? tail_len t1); [by eapply merge_good|]. split; [by eauto|by constructor]. }
  destruct (if TAIL_MERGE_AT <=? tail_len t1 then merge t1 else (t1, [])) as [t2 ds2].
  destruct Hm as ((rss2 & Hg2) & Hsafe2).
  pose proof (IH (drop room all) t2 _ rss2 Hg2 Hc') as IH2.
  destruct (insert_loop fuel (drop room all) t2) as [t3 ds3].
  destruct IH2 as [Hg3 Hsafe3]; [rewrite length_drop; cbn [all length] in *; lia|]. split.
  - by rewrite <- app_assoc, take_drop in Hg3.
  - apply Forall_app. split; [done|]. apply Forall_app. split; [by eapply safe_prefix|].
    eapply Forall_impl; [exact Hsafe3|]. intros d (n & rss' & tail & Hd).
    rewrite <- app_assoc, take_shift in Hd. by exists (room + n)%nat, rss', tail.
Qed.

(** ** Histories *)

Inductive Event : Type :=
| Insert (records : list Rec)
| Merge
| Sync
| Restart
| CrashInserting (records : list Rec) (at_ : nat)
| CrashMerging (at_ : nat).

(** A crash leaves one of the disks the operation passes through; an operation
    that passes through fewer leaves the index as it was. *)
Definition reopened (t : TxIndex) (ds : list Disk) (at_ : nat) : TxIndex :=
  open (match ds !! at_ with Some d => d | None => disk t end).

Definition tx_step (t : TxIndex) (ev : Event) : TxIndex :=
  match ev with
  | Insert records => (insert_all records t).1
  | Merge => (merge t).1
  | Sync => tx_sync t
  | Restart => open (disk t)
  | CrashInserting records at_ => reopened t (insert_all records t).2 at_
  | CrashMerging at_ => reopened t (merge t).2 at_
  end.

Definition event_ok (ev : Event) : Prop :=
  match ev with Insert records | CrashInserting records _ => Forall rec_ok records | _ => True end.

(** What the events do to the list of inserted records. *)
Inductive book_step : list Rec -> Event -> list Rec -> Prop :=
| book_insert hist records : book_step hist (Insert records) (hist ++ records)
| book_merge hist : book_step hist Merge hist
| book_sync hist : book_step hist Sync hist
| book_restart hist : book_step hist Restart hist
| book_crash hist records at_ n : book_step hist (CrashInserting records at_) (hist ++ take n records)
| book_crash_merging hist at_ : book_step hist (CrashMerging at_) hist.

Inductive book_run : list Rec -> list Event -> list Rec -> Prop :=
| book_run_nil hist : book_run hist [] hist
| book_run_cons hist ev hist' evs hist'' :
    book_step hist ev hist' -> book_run hist' evs hist'' -> book_run hist (ev :: evs) hist''.

Lemma step_good t hist rss ev :
  good_index t hist rss -> event_ok ev ->
  exists hist' rss', book_step hist ev hist' /\ good_index (tx_step t ev) hist' rss'.
Proof.
  intros Hg Hev. destruct ev as [records| | | |records k|k]; cbn [tx_step].
  - pose proof (insert_loop_good _ records t hist rss Hg Hev (le_n _)) as H. unfold insert_all.
    destruct (insert_loop _ records t) as [t' ds]. destruct H as [[rss' Hg'] _].
    eexists _, _. split; [constructor|done].
  - pose proof (merge_good t hist rss Hg) as H. destruct (merge t) as [t' ds]. destruct H as [[rss' Hg'] _].
    eexists _, _. split; [constructor|done].
  - exists hist, rss. split; [constructor|]. by destruct Hg.
  - exists hist, rss. split; [constructor|]. by eapply open_good, index_disk.
  - pose proof (insert_loop_good _ records t hist rss Hg Hev (le_n _)) as H. unfold insert_all.
    destruct (insert_loop _ records t) as [t' ds]. destruct H as [_ Hs]. unfold reopened. cbn [snd].
    destruct (ds !! k) as [d|] eqn:E.
    + unfold prefix_safe in Hs. rewrite Forall_lookup in Hs. destruct (Hs _ _ E) as (n & rss' & tail & Hd).
      exists (hist ++ take n records), rss'. split; [constructor|by eapply open_good].
    + exists (hist ++ take 0 records), rss. split; [constructor|]. rewrite take_0, app_nil_r.
      by eapply open_good, index_disk.
  - pose proof (merge_good t hist rss Hg) as H. destruct (merge t) as [t' ds]. destruct H as [_ Hs].
    unfold reopened. cbn [snd]. exists hist. destruct (ds !! k) as [d|] eqn:E.
    + unfold safe in Hs. rewrite Forall_lookup in Hs. destruct (Hs _ _ E) as (rss' & tail & Hd).
      exists rss'. split; [constructor|by eapply open_good].
    + exists rss. split; [constructor|]. by eapply open_good, index_disk.
Qed.

Lemma run_good t hist rss evs :
  good_index t hist rss -> Forall event_ok evs ->
  exists hist' rss', book_run hist evs hist' /\ good_index (foldl tx_step t evs) hist' rss'.
Proof.
  intros Hg Hevs. revert t hist rss Hg. induction Hevs as [|ev evs Hev Hevs IH]; intros t hist rss Hg.
  - exists hist, rss. split; [constructor|done].
  - destruct (step_good t hist rss ev Hg Hev) as (h1 & r1 & Hs & Hg1).
    destruct (IH _ _ _ Hg1) as (h2 & r2 & Hr & Hg2). exists h2, r2. split; [by econstructor|done].
Qed.

(** ** Claims *)

(** C23: the transaction index answers like the list of the insertions.  Start with an
    empty directory and take any history of batches, merges, syncs and restarts,
    with crashes in the middle of a batch, a merge or a fold, at any file
    operation and after any byte of a write.  A crash inside a batch leaves a
    prefix of it and otherwise nothing is lost or repeated: for every identifier
    [get] returns, without an error, the height of the last record inserted for
    it, or none, through the tail, its sorted copy in a run, and all the foldings
    of runs. *)
Theorem tx_index_answers_like_the_list evs :
  Forall event_ok evs ->
  let t := foldl tx_step (open (mkDisk [] [])) evs in
  exists hist, book_run [] evs hist /\
    forall id, length id = 32%nat -> get t id = Ok (latest hist id).
Proof.
  intros Hevs. cbn zeta.
  assert (good_disk (mkDisk [] []) [] [] []) as Hd.
  { split; cbn [run_files tail_file]; try done; [constructor|]. exists []. split; [done|].
    unfold RECORD. cbn. lia. }
  destruct (run_good _ _ _ evs (open_good _ _ _ _ Hd) Hevs) as (hist & rss & Hr & Hg).
  exists hist. split; [done|]. intros id Hid. by eapply get_spec.
Qed.

(** *** Examples *)

Definition example_id (b : byte) : list byte := replicate 31 x00 ++ [b].

(** Two batches, the second torn in its second record, merges with a crash before
    the tail is emptied and one before the folded runs are removed. *)
Definition example_events : list Event :=
  [Insert [(example_id x05, 1); (example_id x03, 1)];
   CrashInserting [(example_id x05, 2); (example_id x04, 2)] 50;
   CrashMerging 0; Merge; Insert [(example_id x03, 7); (example_id x09, 7)]; Sync; CrashMerging 3; Restart].

Lemma tx_index_answers_like_the_list_witness :
  let t := foldl tx_step (open (mkDisk [] [])) example_events in
  get t (example_id x05) = Ok (Some 2) /\ get t (example_id x03) = Ok (Some 7) /\
  get t (example_id x04) = Ok None /\
  exists hist, book_run [] example_events hist /\
    forall id, length id = 32%nat -> get t id = Ok (latest hist id).
Proof.
  split_and!; [vm_compute; reflexivity..|].
  apply (tx_index_answers_like_the_list example_events).
  repeat constructor; vm_compute; congruence.
Defined.

(** What a restart reads of a tail in which a write failed part-way and was not
    rolled back ([insert_all] returns at once): the records before it.  Those
    that later insertions appended and [sync] made durable are out of step with
    the length of a record and are skipped as damaged. *)
Theorem records_after_a_torn_write_are_lost :
  let a := (example_id x01, 1) in
  let b := (example_id x02, 2) in
  let c := (example_id x03, 3) in
  let tail := record_bytes a ++ take 5 (record_bytes b) ++ record_bytes b ++ record_bytes c in
  tail_mem (open (mkDisk [] tail)) = [a].
Proof. vm_compute. reflexivity. Qed.
