(* ===== verification/Evidence.v ===== *)
(** * Evidence of misbehaviour (qtv-node/src/evidence.rs)

    Five records convict a validator with its own signatures: two attestations, two
    prevotes or two proposals of one height and view, a prevote against a lock, and two
    finalised blocks.  Each has its wire format and the check that attributes it to a
    key; [EvidencePool] pairs up the attestations a node sees.  The signature scheme,
    the blocks of the consensus library and its digest are not part of the repository:
    the class [Attesting] names what the code uses of them. *)

From S2P Require Import Prelude Codec Consensus Idfmt Tx Events LedgerState LedgerKeys.
From S2P Require Import Governance Staking Fee LedgerStake SigCache Admission.
From stdpp Require Import sorting.
#[local] Open Scope Z_scope.

(** [ml_dsa::verify], [ml_dsa::public_key_is_degenerate], the context attestations are
    signed in, the bytes of
    [Block::with_cost(height, value, parent, cost)] with [Parent::Genesis] as [None],
    and [digest_256]. *)
Class Attesting : Type := {
  crypto : Crypto;
  attest_verify : list byte -> list byte -> list byte -> list byte -> bool;
  public_key_is_degenerate : list byte -> bool;
  ATTEST_CONTEXT : list byte;
  block_to_bytes : Z -> list byte -> option (list byte) -> Z -> list byte;
  digest_256 : list byte -> list byte
}.

Record ChainBinding : Type := mkBinding { binding_chain_id : Z; binding_genesis : list byte }.

Record Equivocation : Type := mkEquivocation {
  eq_offender : list byte;
  eq_height : Z;
  view_a : Z;
  view_b : Z;
  slot_a : Z;
  slot_b : Z;
  committee_a : list byte;
  committee_b : list byte;
  block_a : list byte;
  sig_a : list byte;
  block_b : list byte;
  sig_b : list byte
}.
Record SignedPrevote : Type := mkSignedPrevote {
  pv_slot : Z;
  pv_committee : list byte;
  pv_value : list byte;
  pv_pol : option Z;
  pv_sig : list byte
}.
Record PrevoteEquivocation : Type := mkPrevoteEquivocation {
  pe_offender : list byte;
  pe_height : Z;
  pe_view : Z;
  pe_first : SignedPrevote;
  pe_second : SignedPrevote
}.
Record ProposalShape : Type := mkShape {
  shape_header_hash : list byte;
  shape_root : list byte;
  shape_k : Z;
  shape_n : Z;
  shape_shard_len : Z;
  shape_data_len : Z
}.
Record SignedProposal : Type := mkSignedProposal {
  pr_slot : Z;
  pr_committee : list byte;
  pr_shape : ProposalShape;
  pr_sig : list byte
}.
Record ProposalEquivocation : Type := mkProposalEquivocation {
  re_offender : list byte;
  re_height : Z;
  re_view : Z;
  re_first : SignedProposal;
  re_second : SignedProposal
}.
Record SignedPrecommit : Type := mkSignedPrecommit {
  pc_view : Z;
  pc_slot : Z;
  pc_committee : list byte;
  pc_value : list byte;
  pc_parent : option (list byte);
  pc_cost : Z;
  pc_sig : list byte
}.
Record LockViolation : Type := mkLockViolation {
  lv_offender : list byte;
  lv_height : Z;
  lv_precommit : SignedPrecommit;
  lv_prevote_view : Z;
  lv_prevote : SignedPrevote
}.
Record FinalityVote : Type := mkFinalityVote {
  fv_signer : list byte;
  fv_view : Z;
  fv_slot : Z;
  fv_committee : list byte;
  fv_sig : list byte
}.
Record DoubleFinality : Type := mkDoubleFinality {
  df_height : Z;
  df_block_a : list byte;
  votes_a : list FinalityVote;
  df_block_b : list byte;
  votes_b : list FinalityVote
}.

#[export] Instance ProposalShape_eq : EqDecision ProposalShape.
Proof. solve_decision. Defined.
#[export] Instance SignedPrevote_eq : EqDecision SignedPrevote.
Proof. solve_decision. Defined.
#[export] Instance SignedProposal_eq : EqDecision SignedProposal.
Proof. solve_decision. Defined.
#[export] Instance SignedPrecommit_eq : EqDecision SignedPrecommit.
Proof. solve_decision. Defined.

Definition PREVOTE_DOMAIN : list byte := ascii "QTV-CONSENSUS-PREVOTE".
Definition PROPOSAL_DOMAIN : list byte := ascii "QTV-CONSENSUS-PROPOSAL-v2".
Definition PREVOTE_EQUIVOCATION_TAG : list byte := ascii "QTV-PREVOTE-EQUIVOCATION/1".
Definition PROPOSAL_EQUIVOCATION_TAG : list byte := ascii "QTV-PROPOSAL-EQUIVOCATION/1".
Definition LOCK_VIOLATION_TAG : list byte := ascii "QTV-LOCK-VIOLATION/1".
Definition DOUBLE_FINALITY_TAG : list byte := ascii "QTV-DOUBLE-FINALITY/1".
Definition MAX_FINALITY_VOTES : Z := 512.

(** ** Wire formats *)

Definition Equivocation_encode (v : Equivocation) (e : Encoder) : Encoder :=
  e |> put_bytes (eq_offender v) |> put_u64 (eq_height v) |> put_u64 (view_a v) |> put_u64 (view_b v)
    |> put_u64 (slot_a v) |> put_u64 (slot_b v) |> put_bytes (committee_a v) |> put_bytes (committee_b v)
    |> put_bytes (block_a v) |> put_bytes (sig_a v) |> put_bytes (block_b v) |> put_bytes (sig_b v).
Definition Equivocation_decode : Dec Equivocation :=
  let* offender := get_text in
  let* height := get_u64 in
  let* view_a := get_u64 in
  let* view_b := get_u64 in
  let* slot_a := get_u64 in
  let* slot_b := get_u64 in
  let* committee_a := get_word 32 in
  let* committee_b := get_word 32 in
  let* block_a := get_bytes in
  let* sig_a := get_bytes in
  let* block_b := get_bytes in
  let* sig_b := get_bytes in
  dret (mkEquivocation offender height view_a view_b slot_a slot_b committee_a committee_b
          block_a sig_a block_b sig_b).

Definition put_pol (pol : option Z) (e : Encoder) : Encoder :=
  match pol with
  | Some pol => e |> put_u8 1 |> put_u64 pol
  | None => e |> put_u8 0 |> put_u64 0
  end.
Definition get_pol : Dec (option Z) :=
  let* flag := get_u8 in
  let* pol := get_u64 in
  if flag =? 1 then dret (Some pol)
  else if (flag =? 0) && (pol =? 0) then dret None
  else dnone.

Definition SignedPrevote_put (v : SignedPrevote) (e : Encoder) : Encoder :=
  e |> put_u64 (pv_slot v) |> put_bytes (pv_committee v) |> put_bytes (pv_value v)
    |> put_pol (pv_pol v) |> put_bytes (pv_sig v).
Definition SignedPrevote_get : Dec SignedPrevote :=
  let* slot := get_u64 in
  let* committee := get_word 32 in
  let* value := get_word 32 in
  let* pol := get_pol in
  let* sig := get_bytes in
  dret (mkSignedPrevote slot committee value pol sig).

Definition SignedProposal_put (v : SignedProposal) (e : Encoder) : Encoder :=
  e |> put_u64 (pr_slot v) |> put_bytes (pr_committee v) |> put_bytes (shape_header_hash (pr_shape v))
    |> put_bytes (shape_root (pr_shape v)) |> put_u64 (shape_k (pr_shape v)) |> put_u64 (shape_n (pr_shape v))
    |> put_u64 (shape_shard_len (pr_shape v)) |> put_u64 (shape_data_len (pr_shape v))
    |> put_bytes (pr_sig v).
Definition SignedProposal_get : Dec SignedProposal :=
  let* slot := get_u64 in
  let* committee := get_word 32 in
  let* header_hash := get_word 32 in
  let* root := get_word 32 in
  let* k := get_u64 in
  let* n := get_u64 in
  let* shard_len := get_u64 in
  let* data_len := get_u64 in
  let* sig := get_bytes in
  dret (mkSignedProposal slot committee (mkShape header_hash root k n shard_len data_len) sig).

Definition put_parent (parent : option (list byte)) (e : Encoder) : Encoder :=
  match parent with
  | Some parent => e |> put_u8 1 |> put_bytes parent
  | None => e |> put_u8 0 |> put_bytes (zeros 32)
  end.
Definition get_parent : Dec (option (list byte)) :=
  let* flag := get_u8 in
  let* parent_bytes := get_word 32 in
  if flag =? 1 then dret (Some parent_bytes)
  else if (flag =? 0) && bool_decide (parent_bytes = zeros 32) then dret None
  else dnone.
Definition SignedPrecommit_put (v : SignedPrecommit) (e : Encoder) : Encoder :=
  e |> put_u64 (pc_view v) |> put_u64 (pc_slot v) |> put_bytes (pc_committee v) |> put_bytes (pc_value v)
    |> put_parent (pc_parent v) |> put_u64 (pc_cost v) |> put_bytes (pc_sig v).
Definition SignedPrecommit_get : Dec SignedPrecommit :=
  let* view := get_u64 in
  let* slot := get_u64 in
  let* committee := get_word 32 in
  let* value := get_word 32 in
  let* parent := get_parent in
  let* cost := get_u64 in
  let* sig := get_bytes in
  dret (mkSignedPrecommit view slot committee value parent cost sig).

(** [if decoder.get_bytes().ok()? != TAG { return None; }]. *)
Definition expect_tag (tag : list byte) : Dec unit :=
  let* bytes := get_bytes in if bool_decide (bytes = tag) then dret tt else dnone.

Definition PrevoteEquivocation_encode (v : PrevoteEquivocation) (e : Encoder) : Encoder :=
  e |> put_bytes PREVOTE_EQUIVOCATION_TAG |> put_bytes (pe_offender v) |> put_u64 (pe_height v)
    |> put_u64 (pe_view v) |> SignedPrevote_put (pe_first v) |> SignedPrevote_put (pe_second v).
Definition PrevoteEquivocation_decode : Dec PrevoteEquivocation :=
  let* _ := expect_tag PREVOTE_EQUIVOCATION_TAG in
  let* offender := get_text in
  let* height := get_u64 in
  let* view := get_u64 in
  let* first := SignedPrevote_get in
  let* second := SignedPrevote_get in
  dret (mkPrevoteEquivocation offender height view first second).

Definition ProposalEquivocation_encode (v : ProposalEquivocation) (e : Encoder) : Encoder :=
  e |> put_bytes PROPOSAL_EQUIVOCATION_TAG |> put_bytes (re_offender v) |> put_u64 (re_height v)
    |> put_u64 (re_view v) |> SignedProposal_put (re_first v) |> SignedProposal_put (re_second v).
Definition ProposalEquivocation_decode : Dec ProposalEquivocation :=
  let* _ := expect_tag PROPOSAL_EQUIVOCATION_TAG in
  let* offender := get_text in
  let* height := get_u64 in
  let* view := get_u64 in
  let* first := SignedProposal_get in
  let* second := SignedProposal_get in
  dret (mkProposalEquivocation offender height view first second).

Definition LockViolation_encode (v : LockViolation) (e : Encoder) : Encoder :=
  e |> put_bytes LOCK_VIOLATION_TAG |> put_bytes (lv_offender v) |> put_u64 (lv_height v)
    |> SignedPrecommit_put (lv_precommit v) |> put_u64 (lv_prevote_view v)
    |> SignedPrevote_put (lv_prevote v).
Definition LockViolation_decode : Dec LockViolation :=
  let* _ := expect_tag LOCK_VIOLATION_TAG in
  let* offender := get_text in
  let* height := get_u64 in
  let* precommit := SignedPrecommit_get in
  let* prevote_view := get_u64 in
  let* prevote := SignedPrevote_get in
  dret (mkLockViolation offender height precommit prevote_view prevote).

Definition put_vote (v : FinalityVote) (e : Encoder) : Encoder :=
  e |> put_bytes (fv_signer v) |> put_u64 (fv_view v) |> put_u64 (fv_slot v)
    |> put_bytes (fv_committee v) |> put_bytes (fv_sig v).
Definition put_votes (votes : list FinalityVote) (e : Encoder) : Encoder :=
  foldl (fun e vote => put_vote vote e) (e |> put_u64 (len votes)) votes.
Definition get_vote : Dec FinalityVote :=
  let* signer := get_text in
  let* view := get_u64 in
  let* slot := get_u64 in
  let* committee := get_word 32 in
  let* sig := get_bytes in
  dret (mkFinalityVote signer view slot committee sig).
Definition get_votes : Dec (list FinalityVote) :=
  let* count := get_u64 in
  if (count =? 0) || (MAX_FINALITY_VOTES <? count) then dnone
  else decode_n get_vote (Z.to_nat count).

Definition DoubleFinality_encode (v : DoubleFinality) (e : Encoder) : Encoder :=
  e |> put_bytes DOUBLE_FINALITY_TAG |> put_u64 (df_height v) |> put_bytes (df_block_a v)
    |> put_votes (votes_a v) |> put_bytes (df_block_b v) |> put_votes (votes_b v).
Definition DoubleFinality_decode : Dec DoubleFinality :=
  let* _ := expect_tag DOUBLE_FINALITY_TAG in
  let* height := get_u64 in
  let* block_a := get_bytes in
  let* votes_a := get_votes in
  let* block_b := get_bytes in
  let* votes_b := get_votes in
  dret (mkDoubleFinality height block_a votes_a block_b votes_b).

(** What the Rust types and the slices impose on the fields. *)
Definition word (bs : list byte) : Prop := length bs = 32%nat.
Definition SignedPrevote_valid (v : SignedPrevote) : Prop :=
  u64 (pv_slot v) /\ word (pv_committee v) /\ word (pv_value v) /\
  (forall pol, pv_pol v = Some pol -> u64 pol) /\ u64 (len (pv_sig v)).
Definition ProposalShape_valid (v : ProposalShape) : Prop :=
  word (shape_header_hash v) /\ word (shape_root v) /\ u64 (shape_k v) /\ u64 (shape_n v) /\
  u64 (shape_shard_len v) /\ u64 (shape_data_len v).
Definition SignedProposal_valid (v : SignedProposal) : Prop :=
  u64 (pr_slot v) /\ word (pr_committee v) /\ ProposalShape_valid (pr_shape v) /\ u64 (len (pr_sig v)).
Definition SignedPrecommit_valid (v : SignedPrecommit) : Prop :=
  u64 (pc_view v) /\ u64 (pc_slot v) /\ word (pc_committee v) /\ word (pc_value v) /\
  (forall parent, pc_parent v = Some parent -> word parent) /\ u64 (pc_cost v) /\ u64 (len (pc_sig v)).
Definition FinalityVote_valid (v : FinalityVote) : Prop :=
  Side.is_text (fv_signer v) /\ u64 (fv_view v) /\ u64 (fv_slot v) /\ word (fv_committee v) /\
  u64 (len (fv_sig v)).
Definition votes_valid (votes : list FinalityVote) : Prop :=
  0 < len votes <= MAX_FINALITY_VOTES /\ Forall FinalityVote_valid votes.

Definition SignedPrevote_codec : Codec SignedPrevote :=
  mkCodec SignedPrevote SignedPrevote_put SignedPrevote_get SignedPrevote_valid.
Definition SignedProposal_codec : Codec SignedProposal :=
  mkCodec SignedProposal SignedProposal_put SignedProposal_get SignedProposal_valid.
Definition SignedPrecommit_codec : Codec SignedPrecommit :=
  mkCodec SignedPrecommit SignedPrecommit_put SignedPrecommit_get SignedPrecommit_valid.
Definition votes_codec : Codec (list FinalityVote) :=
  mkCodec (list FinalityVote) put_votes get_votes votes_valid.
Definition Equivocation_codec : Codec Equivocation :=
  mkCodec Equivocation Equivocation_encode Equivocation_decode (fun v =>
    Side.is_text (eq_offender v) /\ u64 (eq_height v) /\ u64 (view_a v) /\ u64 (view_b v) /\
    u64 (slot_a v) /\ u64 (slot_b v) /\ word (committee_a v) /\ word (committee_b v) /\
    u64 (len (block_a v)) /\ u64 (len (sig_a v)) /\ u64 (len (block_b v)) /\ u64 (len (sig_b v))).
Definition PrevoteEquivocation_codec : Codec PrevoteEquivocation :=
  mkCodec PrevoteEquivocation PrevoteEquivocation_encode PrevoteEquivocation_decode (fun v =>
    Side.is_text (pe_offender v) /\ u64 (pe_height v) /\ u64 (pe_view v) /\
    SignedPrevote_valid (pe_first v) /\ SignedPrevote_valid (pe_second v)).
Definition ProposalEquivocation_codec : Codec ProposalEquivocation :=
  mkCodec ProposalEquivocation ProposalEquivocation_encode ProposalEquivocation_decode (fun v =>
    Side.is_text (re_offender v) /\ u64 (re_height v) /\ u64 (re_view v) /\
    SignedProposal_valid (re_first v) /\ SignedProposal_valid (re_second v)).
Definition LockViolation_codec : Codec LockViolation :=
  mkCodec LockViolation LockViolation_encode LockViolation_decode (fun v =>
    Side.is_text (lv_offender v) /\ u64 (lv_height v) /\ SignedPrecommit_valid (lv_precommit v) /\
    u64 (lv_prevote_view v) /\ SignedPrevote_valid (lv_prevote v)).
Definition DoubleFinality_codec : Codec DoubleFinality :=
  mkCodec DoubleFinality DoubleFinality_encode DoubleFinality_decode (fun v =>
    u64 (df_height v) /\ u64 (len (df_block_a v)) /\ votes_valid (votes_a v) /\
    u64 (len (df_block_b v)) /\ votes_valid (votes_b v)).

(** [T::decode(bytes)] on a whole message: the fields, then [finish]. *)
Definition evidence_decode {A} (c : Codec A) (bytes : list byte) : option A :=
  result_ok (from_bytes c bytes).

(** ** Attribution *)

(** [a < b] on strings: their bytes in order. *)
Fixpoint string_leb (a b : list byte) : bool :=
  match a, b with
  | [], _ => true
  | _ :: _, [] => false
  | x :: a, y :: b =>
      if byte_val x =? byte_val y then string_leb a b else byte_val x <? byte_val y
  end.
Definition string_le (a b : list byte) : Prop := string_leb a b = true.
#[export] Instance string_le_dec a b : Decision (string_le a b).
Proof. unfold string_le. apply _. Defined.

Definition subject_is_view_change (block_bytes : list byte) : bool :=
  (8 <=? length block_bytes)%nat &&
  bool_decide (drop (length block_bytes - 8) block_bytes = to_le 8 VIEW_CHANGE_SUBJECT_COST).

Definition attestation_message (chain : ChainBinding) (height slot view : Z)
    (committee block_bytes : list byte) : list byte :=
  to_le 8 (binding_chain_id chain) ++ binding_genesis chain ++ to_le 8 height ++ to_le 8 slot ++
  to_le 8 view ++ committee ++ block_bytes.

Section Attribution.
Context {X : Attesting}.
#[local] Notation PUBLIC_KEY_BYTES := (ML_PUBLIC_KEY_BYTES crypto).
#[local] Notation SIGNATURE_BYTES := (ML_SIGNATURE_BYTES crypto).

(** The conversions of [sig] to an array of its length, then the signature check. *)
Definition signed_by (pk msg sig : list byte) : bool :=
  (length sig =? SIGNATURE_BYTES)%nat && attest_verify pk msg sig ATTEST_CONTEXT.

Definition Equivocation_attributes (e : Equivocation) (chain : ChainBinding) (attest_pk : list byte) : bool :=
  if bool_decide (block_a e = block_b e) then false
  else if negb (view_a e =? view_b e) then false
  else if subject_is_view_change (block_a e) || subject_is_view_change (block_b e) then false
  else if negb (length attest_pk =? PUBLIC_KEY_BYTES)%nat then false
  else
    signed_by attest_pk
      (attestation_message chain (eq_height e) (slot_a e) (view_a e) (committee_a e) (block_a e)) (sig_a e) &&
    signed_by attest_pk
      (attestation_message chain (eq_height e) (slot_b e) (view_b e) (committee_b e) (block_b e)) (sig_b e).

Definition pol_bytes (pol : option Z) : list byte :=
  match pol with
  | Some pol => [byte_of 1] ++ to_le 8 pol
  | None => [byte_of 0] ++ to_le 8 0
  end.
Definition prevote_input (height view : Z) (value : list byte) (pol : option Z) : list byte :=
  PREVOTE_DOMAIN ++ to_le 8 height ++ to_le 8 view ++ value ++ pol_bytes pol.
(** [prevote_block(..).to_bytes()]; the value of the block is its digest. *)
Definition prevote_value (height view : Z) (value : list byte) (pol : option Z) : list byte :=
  digest_256 (prevote_input height view value pol).
Definition prevote_block (height view : Z) (value : list byte) (pol : option Z) : list byte :=
  block_to_bytes height (prevote_value height view value pol) None VIEW_CHANGE_SUBJECT_COST.

Definition SignedPrevote_verifies (v : SignedPrevote) (chain : ChainBinding) (pk : list byte)
    (height view : Z) : bool :=
  signed_by pk
    (attestation_message chain height (pv_slot v) view (pv_committee v)
      (prevote_block height view (pv_value v) (pv_pol v))) (pv_sig v).

Definition PrevoteEquivocation_attributes (e : PrevoteEquivocation) (chain : ChainBinding)
    (attest_pk : list byte) : bool :=
  if bool_decide ((pv_value (pe_first e), pv_pol (pe_first e)) = (pv_value (pe_second e), pv_pol (pe_second e)))
  then false
  else if negb (length attest_pk =? PUBLIC_KEY_BYTES)%nat then false
  else SignedPrevote_verifies (pe_first e) chain attest_pk (pe_height e) (pe_view e) &&
       SignedPrevote_verifies (pe_second e) chain attest_pk (pe_height e) (pe_view e).

Definition proposal_input (height view : Z) (s : ProposalShape) : list byte :=
  PROPOSAL_DOMAIN ++ to_le 8 height ++ to_le 8 view ++ shape_header_hash s ++ shape_root s ++
  to_le 8 (shape_k s) ++ to_le 8 (shape_n s) ++ to_le 8 (shape_shard_len s) ++ to_le 8 (shape_data_len s).
Definition proposal_value (height view : Z) (s : ProposalShape) : list byte :=
  digest_256 (proposal_input height view s).
Definition proposal_block (height view : Z) (s : ProposalShape) : list byte :=
  block_to_bytes height (proposal_value height view s) None VIEW_CHANGE_SUBJECT_COST.

Definition SignedProposal_verifies (v : SignedProposal) (chain : ChainBinding) (pk : list byte)
    (height view : Z) : bool :=
  signed_by pk
    (attestation_message chain height (pr_slot v) view (pr_committee v)
      (proposal_block height view (pr_shape v))) (pr_sig v).

Definition ProposalEquivocation_attributes (e : ProposalEquivocation) (chain : ChainBinding)
    (attest_pk : list byte) : bool :=
  if bool_decide (pr_shape (re_first e) = pr_shape (re_second e)) then false
  else if negb (length attest_pk =? PUBLIC_KEY_BYTES)%nat then false
  else SignedProposal_verifies (re_first e) chain attest_pk (re_height e) (re_view e) &&
       SignedProposal_verifies (re_second e) chain attest_pk (re_height e) (re_view e).

Definition SignedPrecommit_block (v : SignedPrecommit) (height : Z) : list byte :=
  block_to_bytes height (pc_value v) (pc_parent v) (pc_cost v).
Definition SignedPrecommit_verifies (v : SignedPrecommit) (chain : ChainBinding) (pk : list byte)
    (height : Z) : bool :=
  signed_by pk
    (attestation_message chain height (pc_slot v) (pc_view v) (pc_committee v)
      (SignedPrecommit_block v height)) (pc_sig v).

Definition LockViolation_attributes (e : LockViolation) (chain : ChainBinding) (attest_pk : list byte) : bool :=
  if (pc_cost (lv_precommit e) =? VIEW_CHANGE_SUBJECT_COST) ||
     (lv_prevote_view e <=? pc_view (lv_precommit e)) ||
     bool_decide (pv_value (lv_prevote e) = pc_value (lv_precommit e)) ||
     match pv_pol (lv_prevote e) with Some pol => pc_view (lv_precommit e) <? pol | None => false end
  then false
  else if negb (length attest_pk =? PUBLIC_KEY_BYTES)%nat then false
  else SignedPrecommit_verifies (lv_precommit e) chain attest_pk (lv_height e) &&
       SignedPrevote_verifies (lv_prevote e) chain attest_pk (lv_height e) (lv_prevote_view e).

(** ** Double finality *)

Section Sides.
Context (key_of : list byte -> option (list byte)).

(** The loop of [side] over the votes, with the signers so far. *)
Fixpoint side_loop (chain : ChainBinding) (height : Z) (block : list byte) (first : FinalityVote)
    (votes : list FinalityVote) (signers : list (list byte)) : option (list (list byte)) :=
  match votes with
  | [] => Some signers
  | vote :: votes =>
      if negb (fv_view vote =? fv_view first) || negb (fv_slot vote =? fv_slot first) ||
         negb (bool_decide (fv_committee vote = fv_committee first)) ||
         negb (canonical_address (fv_signer vote)) || bool_decide (fv_signer vote ∈ signers)
      then None
      else match key_of (fv_signer vote) with
      | None => None
      | Some pk =>
          if negb (length pk =? PUBLIC_KEY_BYTES)%nat then None
          else if signed_by pk
                    (attestation_message chain height (fv_slot vote) (fv_view vote) (fv_committee vote) block)
                    (fv_sig vote)
          then side_loop chain height block first votes (signers ++ [fv_signer vote])
          else None
      end
  end.
Definition side (e : DoubleFinality) (chain : ChainBinding) (block : list byte)
    (votes : list FinalityVote) : option (list (list byte) * Z) :=
  match votes with
  | [] => None
  | first :: _ =>
      option_map (fun signers => (signers, fv_view first))
        (side_loop chain (df_height e) block first votes [])
  end.

Definition offenders (e : DoubleFinality) (chain : ChainBinding) : option (list (list byte)) :=
  if bool_decide (df_block_a e = df_block_b e) || subject_is_view_change (df_block_a e) ||
     subject_is_view_change (df_block_b e)
  then None
  else match side e chain (df_block_a e) (votes_a e) with
  | None => None
  | Some (side_a, view_a) =>
      match side e chain (df_block_b e) (votes_b e) with
      | None => None
      | Some (side_b, view_b) =>
          if negb (view_a =? view_b) then None
          else
            let offenders := merge_sort string_le
              (List.filter (fun signer => bool_decide (signer ∈ side_b)) side_a) in
            if bool_decide (offenders = []) then None else Some offenders
      end
  end.
End Sides.
End Attribution.

(** ** The evidence pool *)

Definition MAX_HEIGHT_VIEW : Z := 256.
Definition MAX_PENDING_EVIDENCE : nat := 256.
Definition MAX_WATCHED_ATTESTATIONS : nat := 4096%nat.

(** [(offender, height, view)]. *)
Abbreviation WatchKey := (list byte * Z * Z)%type.
(** [(slot, committee, block bytes, signature)]. *)
Abbreviation Watched := (Z * list byte * list byte * list byte)%type.

Record EvidencePool : Type := mkEvidencePool {
  ep_seen : gmap WatchKey Watched;
  ep_pending : list Equivocation;
  ep_flagged : gset WatchKey;
  ep_floor : Z
}.
Definition EvidencePool_new : EvidencePool := mkEvidencePool ∅ [] ∅ 0.

Definition key_height (k : WatchKey) : Z := k.1.2.

(** A greater height forgets what was seen below it. *)
Definition raise_floor (height : Z) (p : EvidencePool) : EvidencePool :=
  if ep_floor p <? height then
    mkEvidencePool
      (filter (fun kv : WatchKey * Watched => height <= key_height kv.1) (ep_seen p))
      (ep_pending p)
      (filter (fun k => height <= key_height k) (ep_flagged p))
      height
  else p.

Definition EvidencePool_observe (p : EvidencePool) (offender : list byte) (height slot view : Z)
    (committee block_bytes sig : list byte) : option Equivocation * EvidencePool :=
  if subject_is_view_change block_bytes then (None, p)
  else
    let p := raise_floor height p in
    let key : WatchKey := (offender, height, view) in
    match ep_seen p !! key with
    | Some (prev_slot, prev_committee, prev_block, prev_sig) =>
        if bool_decide (prev_block = block_bytes) then (None, p)
        else if bool_decide (key ∈ ep_flagged p) then (None, p)
        else if (MAX_PENDING_EVIDENCE <=? length (ep_pending p))%nat then (None, p)
        else
          let evidence := mkEquivocation offender height view view prev_slot slot prev_committee
            committee prev_block prev_sig block_bytes sig in
          (Some evidence, mkEvidencePool (ep_seen p) (ep_pending p ++ [evidence]) ({[key]} ∪ ep_flagged p) (ep_floor p))
    | None =>
        (None,
         if (size (ep_seen p) <? MAX_WATCHED_ATTESTATIONS)%nat
         then mkEvidencePool (<[key := (slot, committee, block_bytes, sig)]> (ep_seen p)) (ep_pending p)
                (ep_flagged p) (ep_floor p)
         else p)
    end.

Definition EvidencePool_drain (p : EvidencePool) : list Equivocation * EvidencePool :=
  (ep_pending p, mkEvidencePool (ep_seen p) [] (ep_flagged p) (ep_floor p)).
Definition EvidencePool_retain (keep : Equivocation -> bool) (p : EvidencePool) : EvidencePool :=
  mkEvidencePool (ep_seen p) (List.filter keep (ep_pending p)) (ep_flagged p) (ep_floor p).
Definition EvidencePool_is_empty (p : EvidencePool) : bool := bool_decide (ep_pending p = []).
