(* ===== verification/EvidenceDispatch.v ===== *)
(** * Slashing on evidence (qtv-node/src/node.rs, ledger.rs)

    The attestation keys the ledger keeps for validators, the checks a transaction to
    the evidence address passes before it is pooled and included, and what its
    execution does: the validators its evidence convicts are slashed. *)

From S2P Require Import Prelude Codec Consensus Idfmt Tx Events LedgerState LedgerKeys.
From S2P Require Import Governance Staking Fee LedgerStake LedgerCoins Bridge LedgerBridge.
From S2P Require Import SigCache Admission Evidence.
#[local] Open Scope Z_scope.

Section Dispatch.
Context {X : Attesting}.
#[local] Notation sha := (sha3_256 crypto).

(** ** Attestation keys *)

Definition attest_key_degenerate (attest_pk : list byte) : bool :=
  (length attest_pk =? ML_PUBLIC_KEY_BYTES crypto)%nat && public_key_is_degenerate attest_pk.

Definition validator_attest_key (l : Ledger) (address : list byte) : option (list byte) :=
  match address_id address with
  | None => None
  | Some id =>
      match get_leaf l (stake_attest_key sha id) with
      | Some (b :: bytes) => Some (b :: bytes)
      | _ => None
      end
  end.
Definition set_validator_attest_key (address attest_pk : list byte) : M unit :=
  if attest_key_degenerate attest_pk then mret tt
  else match address_id address with
  | Some id => write_leaf (stake_attest_key sha id) attest_pk
  | None => mret tt
  end.
Definition seed_validator_attest_key (address attest_pk : list byte) : M (option (list byte * list byte)) :=
  if attest_key_degenerate attest_pk then mret None
  else match address_id address with
  | None => mret None
  | Some id =>
      let key := stake_attest_key sha id in
      write_leaf key attest_pk;;
      mret (Some (key, attest_pk))
  end.

(** ** Checks *)

Definition binding (chain_id : Z) (l : Ledger) : ChainBinding :=
  mkBinding chain_id (chain_genesis_hash sha l).

Definition double_finality_live (chain_id : Z) (l : Ledger) : bool :=
  hardened (for_chain chain_id) (execution_height l).
Definition double_finality_offenders (chain_id : Z) (e : DoubleFinality) (l : Ledger) :
    option (list (list byte)) :=
  offenders (validator_attest_key l) e (binding chain_id l).

(** [height > ledger.execution_height().saturating_add(1)]. *)
Definition ahead (height : Z) (l : Ledger) : bool := saturating_add 64 (execution_height l) 1 <? height.

(** [ledger.validator_attest_key(offender).is_some_and(|attest_pk| attributes(.., attest_pk))]. *)
Definition attributed (offender : list byte) (attributes : list byte -> bool) (l : Ledger) : bool :=
  match validator_attest_key l offender with Some attest_pk => attributes attest_pk | None => false end.

Definition prevote_equivocation_proven (chain_id : Z) (e : PrevoteEquivocation) (l : Ledger) : bool :=
  if ahead (pe_height e) l then false
  else attributed (pe_offender e) (PrevoteEquivocation_attributes e (binding chain_id l)) l.
Definition proposal_equivocation_proven (chain_id : Z) (e : ProposalEquivocation) (l : Ledger) : bool :=
  if ahead (re_height e) l then false
  else attributed (re_offender e) (ProposalEquivocation_attributes e (binding chain_id l)) l.
Definition lock_violation_proven (chain_id : Z) (e : LockViolation) (l : Ledger) : bool :=
  if ahead (lv_height e) l then false
  else attributed (lv_offender e) (LockViolation_attributes e (binding chain_id l)) l.

Definition evidence_admissible (chain_id : Z) (w : Wrapper) (l : Ledger) : bool :=
  let args := args (call (body w)) in
  match evidence_decode PrevoteEquivocation_codec args with
  | Some e =>
      negb (is_validator_banned sha l (pe_offender e)) && prevote_equivocation_proven chain_id e l
  | None =>
  match evidence_decode ProposalEquivocation_codec args with
  | Some e =>
      negb (is_validator_banned sha l (re_offender e)) && proposal_equivocation_proven chain_id e l
  | None =>
  match evidence_decode LockViolation_codec args with
  | Some e =>
      negb (is_validator_banned sha l (lv_offender e)) && lock_violation_proven chain_id e l
  | None =>
  match evidence_decode DoubleFinality_codec args with
  | Some e =>
      if negb (double_finality_live chain_id l) || ahead (df_height e) l then false
      else match double_finality_offenders chain_id e l with
      | Some offenders => existsb (fun o => negb (is_validator_banned sha l o)) offenders
      | None => false
      end
  | None =>
  match evidence_decode Equivocation_codec args with
  | None => false
  | Some e =>
      if is_validator_banned sha l (eq_offender e) || ahead (eq_height e) l then false
      else attributed (eq_offender e) (Equivocation_attributes e (binding chain_id l)) l
  end end end end end.

Definition evidence_offender_is_slashable (w : Wrapper) (l : Ledger) : bool :=
  let args := args (call (body w)) in
  match evidence_decode DoubleFinality_codec args with
  | Some e => existsb (fun vote => negb (is_validator_banned sha l (fv_signer vote))) (votes_a e)
  | None =>
  match evidence_decode PrevoteEquivocation_codec args with
  | Some e => negb (is_validator_banned sha l (pe_offender e))
  | None =>
  match evidence_decode ProposalEquivocation_codec args with
  | Some e => negb (is_validator_banned sha l (re_offender e))
  | None =>
  match evidence_decode LockViolation_codec args with
  | Some e => negb (is_validator_banned sha l (lv_offender e))
  | None =>
  match evidence_decode Equivocation_codec args with
  | Some e => negb (is_validator_banned sha l (eq_offender e))
  | None => false
  end end end end end.

(** The branch of [feeless_decodes] for evidence. *)
Definition evidence_decodes (w : Wrapper) : bool :=
  let args := args (call (body w)) in
  bool_decide (is_Some (evidence_decode DoubleFinality_codec args)) ||
  bool_decide (is_Some (evidence_decode PrevoteEquivocation_codec args)) ||
  bool_decide (is_Some (evidence_decode ProposalEquivocation_codec args)) ||
  bool_decide (is_Some (evidence_decode LockViolation_codec args)) ||
  bool_decide (is_Some (evidence_decode Equivocation_codec args)).

(** ** Execution *)

(** [let mut slashed = false; for offender in offenders { slashed |= slash }]. *)
Fixpoint slash_each (offenders : list (list byte)) (slashed : bool) : M bool :=
  match offenders with
  | [] => mret slashed
  | offender :: offenders =>
      hit ← slash_validator sha offender;
      slash_each offenders (slashed || hit)
  end.

(** [proven && ledger.slash_validator(offender)]. *)
Definition slash_if (proven : Ledger -> bool) (offender : list byte) : M bool :=
  ok ← asks proven;
  if (ok : bool) then slash_validator sha offender else mret false.

Definition dispatch_evidence (chain_id : Z) (w : Wrapper) : M bool :=
  let args := args (call (body w)) in
  match evidence_decode DoubleFinality_codec args with
  | Some e =>
      refused ← asks (fun l => negb (double_finality_live chain_id l) || ahead (df_height e) l);
      if (refused : bool) then mret false
      else
        found ← asks (double_finality_offenders chain_id e);
        match found with
        | None => mret false
        | Some offenders => slash_each offenders false
        end
  | None =>
  match evidence_decode PrevoteEquivocation_codec args with
  | Some e => slash_if (prevote_equivocation_proven chain_id e) (pe_offender e)
  | None =>
  match evidence_decode ProposalEquivocation_codec args with
  | Some e => slash_if (proposal_equivocation_proven chain_id e) (re_offender e)
  | None =>
  match evidence_decode LockViolation_codec args with
  | Some e => slash_if (lock_violation_proven chain_id e) (lv_offender e)
  | None =>
  match evidence_decode Equivocation_codec args with
  | None => mret false
  | Some e =>
      refused ← asks (ahead (eq_height e));
      if (refused : bool) then mret false
      else
        key ← asks (fun l => validator_attest_key l (eq_offender e));
        match key with
        | None => mret false
        | Some attest_pk =>
            chain ← asks (binding chain_id);
            if negb (Equivocation_attributes e chain attest_pk) then mret false
            else slash_validator sha (eq_offender e)
        end
  end end end end end.
End Dispatch.
