(* ===== verification/EvidenceCorrect.v ===== *)
(** * Evidence: formats and conviction

    The wire formats of the evidence are canonical and their tags keep them apart;
    what [attributes] and [offenders] accept is a pair of conflicting messages signed
    under the offender's key; and executing evidence is slashing the convicted. *)

From S2P Require Import Prelude Codec Consensus Idfmt Tx Events LedgerState LedgerKeys.
From S2P Require Import Governance Staking Fee LedgerStake LedgerCoins Bridge LedgerBridge.
From S2P Require Import SigCache Admission Evidence EvidenceDispatch.
From stdpp Require Import sorting.
#[local] Open Scope Z_scope.

(** ** Formats *)

Lemma get_text_Ok d s d' : get_text d = Ok (s, d') -> Side.is_text s /\ consumed d (bytes_image s) d'.
Proof. unfold get_text. intros H. dec_inv; [|done]. by split; [split|]. Qed.
Lemma get_word_Ok n d s d' : get_word n d = Ok (s, d') -> length s = n /\ consumed d (bytes_image s) d'.
Proof. unfold get_word. intros H. dec_inv; [|done]. bool_to_prop. done. Qed.

Definition pol_image (pol : option Z) : list byte :=
  match pol with Some pol => [byte_of 1] ++ to_le 8 pol | None => [byte_of 0] ++ to_le 8 0 end.
Lemma buf_put_pol pol e : buf (put_pol pol e) = buf e ++ pol_image pol.
Proof. destruct pol; unfold put_pol; autorewrite with codec; by rewrite <- app_assoc. Qed.
Lemma reads_get_pol pol : (forall p, pol = Some p -> u64 p) -> reads get_pol (pol_image pol) pol.
Proof.
  intros H. unfold get_pol. destruct pol as [p|]; cbn [pol_image].
  - eapply reads_bind; [by apply reads_get_u8|]. eapply reads_map; [apply reads_get_u64; auto|]. apply reads_ret.
  - eapply reads_bind; [by apply reads_get_u8|]. eapply reads_map; [by apply reads_get_u64|]. apply reads_ret.
Qed.
Lemma get_pol_Ok d pol d' :
  get_pol d = Ok (pol, d') -> (forall p, pol = Some p -> u64 p) /\ consumed d (pol_image pol) d'.
Proof.
  unfold get_pol. intros H. dec_inv; try done; bool_to_prop; subst.
  - split; [by intros ? [= <-]|]. cbn [pol_image]. consumed_chain.
  - split; [done|]. cbn [pol_image]. consumed_chain.
Qed.

Definition parent_image (parent : option (list byte)) : list byte :=
  match parent with
  | Some parent => [byte_of 1] ++ bytes_image parent
  | None => [byte_of 0] ++ bytes_image (zeros 32)
  end.
Lemma buf_put_parent parent e : buf (put_parent parent e) = buf e ++ parent_image parent.
Proof. destruct parent; unfold put_parent; autorewrite with codec; by rewrite <- app_assoc. Qed.
Lemma reads_get_parent parent :
  (forall p, parent = Some p -> word p) -> reads get_parent (parent_image parent) parent.
Proof.
  intros H. unfold get_parent. destruct parent as [p|]; cbn [parent_image].
  - eapply reads_bind; [by apply reads_get_u8|].
    eapply reads_map; [apply Side.reads_get_word; [by apply H|lia]|]. apply reads_ret.
  - eapply reads_bind; [by apply reads_get_u8|].
    eapply reads_map; [apply Side.reads_get_word; [done|lia]|]. apply reads_ret.
Qed.
Lemma get_parent_Ok d parent d' :
  get_parent d = Ok (parent, d') -> (forall p, parent = Some p -> word p) /\ consumed d (parent_image parent) d'.
Proof.
  unfold get_parent. intros (flag & d1 & [Hf Hc]%get_u8_Ok & (p & d2 & [Hp Hc']%get_word_Ok & H)%dbind_Ok)%dbind_Ok.
  dec_inv; try done; bool_to_prop; subst.
  - split; [by intros ? [= <-]|]. cbn [parent_image]. consumed_chain.
  - split; [done|]. cbn [parent_image]. consumed_chain.
Qed.

Lemma reads_expect_tag tag : u64 (len tag) -> reads (expect_tag tag) (bytes_image tag) tt.
Proof.
  intros H. unfold expect_tag. eapply reads_map; [by apply reads_get_bytes|].
  rewrite bool_decide_true by done. apply reads_ret.
Qed.
Lemma expect_tag_Ok tag d u d' : expect_tag tag d = Ok (u, d') -> consumed d (bytes_image tag) d'.
Proof. unfold expect_tag. intros H. dec_inv; [|done]. bool_to_prop. by subst. Qed.

#[local] Hint Rewrite buf_put_pol buf_put_parent : codec.
#[local] Hint Resolve reads_get_pol reads_get_parent Side.reads_get_text : codec.
#[local] Hint Extern 1 (reads (get_word _) _ _) => (apply Side.reads_get_word; [assumption|lia]) : codec.

Lemma tag_lengths :
  u64 (len PREVOTE_EQUIVOCATION_TAG) /\ u64 (len PROPOSAL_EQUIVOCATION_TAG) /\
  u64 (len LOCK_VIOLATION_TAG) /\ u64 (len DOUBLE_FINALITY_TAG).
Proof. by vm_compute. Qed.
Lemma finality_tag_distinct :
  DOUBLE_FINALITY_TAG <> PREVOTE_EQUIVOCATION_TAG /\ DOUBLE_FINALITY_TAG <> PROPOSAL_EQUIVOCATION_TAG /\
  DOUBLE_FINALITY_TAG <> LOCK_VIOLATION_TAG.
Proof. by vm_compute. Qed.
#[local] Hint Extern 1 (reads (expect_tag _) _ _) => (apply reads_expect_tag; apply tag_lengths) : codec.
#[local] Opaque PREVOTE_EQUIVOCATION_TAG PROPOSAL_EQUIVOCATION_TAG LOCK_VIOLATION_TAG DOUBLE_FINALITY_TAG.
Ltac dec_inv_hook ::=
  match goal with
  | H : get_text _ = Ok _ |- _ => apply get_text_Ok in H as [? ?]
  | H : get_word _ _ = Ok _ |- _ => apply get_word_Ok in H as [? ?]
  | H : get_pol _ = Ok _ |- _ => apply get_pol_Ok in H as [? ?]
  | H : get_parent _ = Ok _ |- _ => apply get_parent_Ok in H as [? ?]
  | H : expect_tag _ _ = Ok _ |- _ => apply expect_tag_Ok in H
  end.

(** The definitions of the codecs, the outer ones first. *)
Ltac unfold_parts :=
  unfold SignedPrevote_codec, SignedProposal_codec, SignedPrecommit_codec, Equivocation_codec,
    SignedPrevote_put, SignedPrevote_get, SignedPrevote_valid, SignedProposal_put, SignedProposal_get,
    SignedProposal_valid, ProposalShape_valid, SignedPrecommit_put, SignedPrecommit_get,
    SignedPrecommit_valid, Equivocation_encode, Equivocation_decode.
Ltac unfold_codec :=
  unfold PrevoteEquivocation_codec, ProposalEquivocation_codec, LockViolation_codec, DoubleFinality_codec,
    PrevoteEquivocation_encode, PrevoteEquivocation_decode, ProposalEquivocation_encode,
    ProposalEquivocation_decode, LockViolation_encode, LockViolation_decode, DoubleFinality_encode,
    DoubleFinality_decode.

#[export] Instance SignedPrevote_appends : Appends SignedPrevote_codec.
Proof. unfold_parts. codec_appends. Qed.
#[export] Instance SignedPrevote_roundtrip : RoundTrip SignedPrevote_codec.
Proof. unfold_parts. codec_roundtrip. Qed.
#[export] Instance SignedPrevote_canonical : Canonical SignedPrevote_codec.
Proof. unfold_parts. codec_canonical. Qed.
#[export] Instance SignedProposal_appends : Appends SignedProposal_codec.
Proof. unfold_parts. codec_appends. Qed.
#[export] Instance SignedProposal_roundtrip : RoundTrip SignedProposal_codec.
Proof. unfold_parts. intros [? ? [] ?] Hv. cbn in Hv. destruct_and?. codec_image. cbn [decode]. reads_fields. Qed.
#[export] Instance SignedProposal_canonical : Canonical SignedProposal_codec.
Proof. unfold_parts. codec_canonical. Qed.
#[export] Instance SignedPrecommit_appends : Appends SignedPrecommit_codec.
Proof. unfold_parts. codec_appends. Qed.
#[export] Instance SignedPrecommit_roundtrip : RoundTrip SignedPrecommit_codec.
Proof. unfold_parts. codec_roundtrip. Qed.
#[export] Instance SignedPrecommit_canonical : Canonical SignedPrecommit_codec.
Proof. unfold_parts. codec_canonical. Qed.
#[export] Instance Equivocation_roundtrip : RoundTrip Equivocation_codec.
Proof. unfold_parts. codec_roundtrip. Qed.
#[export] Instance Equivocation_canonical : Canonical Equivocation_codec.
Proof. unfold_parts. codec_canonical. Qed.

(** *** Lists of votes *)

Definition vote_image (v : FinalityVote) : list byte :=
  bytes_image (fv_signer v) ++ to_le 8 (fv_view v) ++ to_le 8 (fv_slot v) ++
  bytes_image (fv_committee v) ++ bytes_image (fv_sig v).
Lemma buf_put_vote v e : buf (put_vote v e) = buf e ++ vote_image v.
Proof. unfold put_vote, vote_image. autorewrite with codec. by rewrite <- ?app_assoc. Qed.
Lemma buf_put_each votes e :
  buf (foldl (fun e vote => put_vote vote e) e votes) = buf e ++ concat (map vote_image votes).
Proof.
  revert e. induction votes as [|v votes IH]; intros e; cbn [foldl map concat]; [by rewrite app_nil_r|].
  by rewrite IH, buf_put_vote, <- app_assoc.
Qed.
Lemma votes_image votes :
  to_bytes votes_codec votes = to_le 8 (len votes) ++ concat (map vote_image votes).
Proof. unfold to_bytes, into_bytes, votes_codec, put_votes. cbn [encode]. by rewrite buf_put_each. Qed.
Lemma reads_get_vote v : FinalityVote_valid v -> reads get_vote (vote_image v) v.
Proof. intros (?&?&?&?&?). destruct v. unfold get_vote, vote_image. reads_fields. Qed.
Lemma get_vote_Ok d v d' : get_vote d = Ok (v, d') -> FinalityVote_valid v /\ consumed d (vote_image v) d'.
Proof.
  unfold get_vote. intros H. dec_inv. split; [by split_and!|]. unfold vote_image. cbn.
  eapply consumed_eq; [consumed_chain|]. by rewrite ?app_nil_r.
Qed.

#[export] Instance votes_appends : Appends votes_codec.
Proof. intros v e. rewrite votes_image. unfold votes_codec, put_votes. cbn [encode].
  rewrite buf_put_each, buf_put_u64. by rewrite <- app_assoc. Qed.
#[export] Instance votes_roundtrip : RoundTrip votes_codec.
Proof.
  intros votes [[Hn Hm] Hv]. rewrite votes_image. cbn [decode votes_codec]. unfold get_votes.
  unfold MAX_FINALITY_VOTES in *. eapply reads_bind; [apply reads_get_u64; split; lia|].
  destruct (Z.eqb_spec (len votes) 0); [lia|]. destruct (Z.ltb_spec 512 (len votes)); [lia|]. cbn [orb].
  unfold len. rewrite Nat2Z.id. apply reads_decode_n.
  eapply Forall_impl; [exact Hv|]. intros. by apply reads_get_vote.
Qed.
#[export] Instance votes_canonical : Canonical votes_codec.
Proof.
  intros d votes d' H. cbn [decode votes_codec] in H. unfold get_votes in H. dec_inv; [done|]. bool_to_prop.
  apply (decode_n_consumed get_vote vote_image FinalityVote_valid get_vote_Ok) in H as (Hl & Hv & Hc).
  assert (E : len votes = x) by (unfold len, in_width in *; lia).
  split; [split; [unfold in_width, MAX_FINALITY_VOTES in *; lia|done]|].
  rewrite votes_image, E. consumed_chain.
Qed.

(** *** Whole messages *)

Lemma buf_prevote v e : buf (SignedPrevote_put v e) = buf e ++ to_bytes SignedPrevote_codec v.
Proof. apply (encode_appends (c := SignedPrevote_codec)). Qed.
Lemma buf_proposal v e : buf (SignedProposal_put v e) = buf e ++ to_bytes SignedProposal_codec v.
Proof. apply (encode_appends (c := SignedProposal_codec)). Qed.
Lemma buf_precommit v e : buf (SignedPrecommit_put v e) = buf e ++ to_bytes SignedPrecommit_codec v.
Proof. apply (encode_appends (c := SignedPrecommit_codec)). Qed.
Lemma buf_votes v e : buf (put_votes v e) = buf e ++ to_bytes votes_codec v.
Proof. apply (encode_appends (c := votes_codec)). Qed.
#[local] Hint Rewrite buf_prevote buf_proposal buf_precommit buf_votes : codec.
Lemma reads_prevote v : SignedPrevote_valid v -> reads SignedPrevote_get (to_bytes SignedPrevote_codec v) v.
Proof. apply SignedPrevote_roundtrip. Qed.
Lemma prevote_Ok d v d' : SignedPrevote_get d = Ok (v, d') -> SignedPrevote_valid v /\ consumed d (to_bytes SignedPrevote_codec v) d'.
Proof. apply SignedPrevote_canonical. Qed.
Lemma reads_proposal v : SignedProposal_valid v -> reads SignedProposal_get (to_bytes SignedProposal_codec v) v.
Proof. apply SignedProposal_roundtrip. Qed.
Lemma proposal_Ok d v d' : SignedProposal_get d = Ok (v, d') -> SignedProposal_valid v /\ consumed d (to_bytes SignedProposal_codec v) d'.
Proof. apply SignedProposal_canonical. Qed.
Lemma reads_precommit v : SignedPrecommit_valid v -> reads SignedPrecommit_get (to_bytes SignedPrecommit_codec v) v.
Proof. apply SignedPrecommit_roundtrip. Qed.
Lemma precommit_Ok d v d' : SignedPrecommit_get d = Ok (v, d') -> SignedPrecommit_valid v /\ consumed d (to_bytes SignedPrecommit_codec v) d'.
Proof. apply SignedPrecommit_canonical. Qed.
Lemma reads_votes v : votes_valid v -> reads get_votes (to_bytes votes_codec v) v.
Proof. apply votes_roundtrip. Qed.
Lemma votes_Ok d v d' : get_votes d = Ok (v, d') -> votes_valid v /\ consumed d (to_bytes votes_codec v) d'.
Proof. apply votes_canonical. Qed.
#[local] Hint Resolve reads_prevote reads_proposal reads_precommit reads_votes : codec.
Ltac dec_inv_hook ::=
  match goal with
  | H : get_text _ = Ok _ |- _ => apply get_text_Ok in H as [? ?]
  | H : expect_tag _ _ = Ok _ |- _ => apply expect_tag_Ok in H
  | H : SignedPrevote_get _ = Ok _ |- _ => apply prevote_Ok in H as [? ?]
  | H : SignedProposal_get _ = Ok _ |- _ => apply proposal_Ok in H as [? ?]
  | H : SignedPrecommit_get _ = Ok _ |- _ => apply precommit_Ok in H as [? ?]
  | H : get_votes _ = Ok _ |- _ => apply votes_Ok in H as [? ?]
  end.

#[local] Opaque SignedPrevote_codec SignedProposal_codec SignedPrecommit_codec votes_codec.
#[local] Opaque SignedPrevote_get SignedProposal_get SignedPrecommit_get get_votes.

(** The laws of a record behind a tag; the tag stays folded. *)
Ltac tagged_roundtrip :=
  let v := fresh "v" in let Hv := fresh "Hv" in
  intros v Hv; destruct v; 
  cbn [valid eq_offender pe_offender pe_height pe_view pe_first pe_second re_offender re_height re_view
    re_first re_second lv_offender lv_height lv_precommit lv_prevote_view lv_prevote df_height df_block_a
    votes_a df_block_b votes_b] in Hv; destruct_and?; codec_image;
  cbn [pe_offender pe_height pe_view pe_first pe_second re_offender re_height re_view
    re_first re_second lv_offender lv_height lv_precommit lv_prevote_view lv_prevote df_height df_block_a
    votes_a df_block_b votes_b]; cbn [decode]; reads_fields.
Ltac tagged_canonical :=
  let H := fresh "H" in
  intros ? ? ? H; cbn [decode] in H; dec_inv;
  split; [ cbn [valid]; split_and!; assumption
         | codec_image; rewrite ?app_nil_r; consumed_chain ].

#[export] Instance PrevoteEquivocation_roundtrip : RoundTrip PrevoteEquivocation_codec.
Proof. unfold_codec. tagged_roundtrip. Qed.
#[export] Instance PrevoteEquivocation_canonical : Canonical PrevoteEquivocation_codec.
Proof. unfold_codec. tagged_canonical. Qed.
#[export] Instance ProposalEquivocation_roundtrip : RoundTrip ProposalEquivocation_codec.
Proof. unfold_codec. tagged_roundtrip. Qed.
#[export] Instance ProposalEquivocation_canonical : Canonical ProposalEquivocation_codec.
Proof. unfold_codec. tagged_canonical. Qed.
#[export] Instance LockViolation_roundtrip : RoundTrip LockViolation_codec.
Proof. unfold_codec. tagged_roundtrip. Qed.
#[export] Instance LockViolation_canonical : Canonical LockViolation_codec.
Proof. unfold_codec. tagged_canonical. Qed.
#[export] Instance DoubleFinality_roundtrip : RoundTrip DoubleFinality_codec.
Proof. unfold_codec. tagged_roundtrip. Qed.
#[export] Instance DoubleFinality_canonical : Canonical DoubleFinality_codec.
Proof. unfold_codec. tagged_canonical. Qed.

Ltac dec_inv_hook ::= fail.

(** ** The tags keep the formats apart *)

Definition starts (tag bs : list byte) : Prop := exists more, bs = bytes_image tag ++ more.

Lemma starts_unique t1 t2 bs : u64 (len t1) -> u64 (len t2) -> starts t1 bs -> starts t2 bs -> t1 = t2.
Proof.
  intros H1 H2 [r1 ->] [r2 E]. unfold bytes_image in E. rewrite <- !app_assoc in E.
  apply app_inj_1 in E as [E1 E2]; [|by rewrite !length_to_le].
  apply (f_equal from_le) in E1. rewrite !from_to_le in E1 by (by apply (in_width_bytes 8)).
  apply app_inj_1 in E2 as [-> _]; [done|]. unfold len in E1. lia.
Qed.

Lemma evidence_decode_canonical {A} (c : Codec A) `{!Canonical c} bs v :
  evidence_decode c bs = Some v -> valid c v /\ to_bytes c v = bs.
Proof.
  unfold evidence_decode. destruct (from_bytes c bs) as [w|] eqn:E; [|done]. cbn. intros [= <-].
  by apply from_bytes_canonical in E.
Qed.

Lemma evidence_decode_encoded {A} (c : Codec A) `{!RoundTrip c} v :
  valid c v -> len (to_bytes c v) <= ISIZE_MAX -> evidence_decode c (to_bytes c v) = Some v.
Proof. intros. unfold evidence_decode. by rewrite from_bytes_encoded. Qed.

Lemma prevote_starts bs e : evidence_decode PrevoteEquivocation_codec bs = Some e -> starts PREVOTE_EQUIVOCATION_TAG bs.
Proof. intros [_ <-]%evidence_decode_canonical; [|apply _]. unfold_codec. codec_image. by eexists. Qed.
Lemma proposal_starts bs e : evidence_decode ProposalEquivocation_codec bs = Some e -> starts PROPOSAL_EQUIVOCATION_TAG bs.
Proof. intros [_ <-]%evidence_decode_canonical; [|apply _]. unfold_codec. codec_image. by eexists. Qed.
Lemma lock_starts bs e : evidence_decode LockViolation_codec bs = Some e -> starts LOCK_VIOLATION_TAG bs.
Proof. intros [_ <-]%evidence_decode_canonical; [|apply _]. unfold_codec. codec_image. by eexists. Qed.
Lemma finality_starts bs e : evidence_decode DoubleFinality_codec bs = Some e -> starts DOUBLE_FINALITY_TAG bs.
Proof. intros [_ <-]%evidence_decode_canonical; [|apply _]. unfold_codec. codec_image. by eexists. Qed.

(** Double finality is tried last when evidence is admitted and first when it is
    executed: it is decoded alike. *)
Lemma finality_alone bs e :
  evidence_decode DoubleFinality_codec bs = Some e ->
  evidence_decode PrevoteEquivocation_codec bs = None /\
  evidence_decode ProposalEquivocation_codec bs = None /\
  evidence_decode LockViolation_codec bs = None.
Proof.
  intros Hf%finality_starts. destruct tag_lengths as (? & ? & ? & ?).
  destruct finality_tag_distinct as (D1 & D2 & D3).
  split_and!; apply eq_None_not_Some; intros [v Hv].
  - apply D1. eapply starts_unique; eauto using prevote_starts.
  - apply D2. eapply starts_unique; eauto using proposal_starts.
  - apply D3. eapply starts_unique; eauto using lock_starts.
Qed.

(** ** Who is convicted *)

Section Conviction.
Context {X : Attesting}.
#[local] Notation sha := (sha3_256 crypto).
#[local] Notation PUBLIC_KEY_BYTES := (ML_PUBLIC_KEY_BYTES crypto).

(** Some signature makes [msg] verify under [pk]. *)
Definition vouched (pk msg : list byte) : Prop := exists sig, signed_by pk msg sig = true.

(** Messages one validator must not sign together, at a height. *)
Inductive Conflict (chain : ChainBinding) (pk : list byte) (height : Z) : Prop :=
| TwoBlocks view s1 s2 c1 c2 b1 b2 :
    b1 <> b2 -> subject_is_view_change b1 = false -> subject_is_view_change b2 = false ->
    vouched pk (attestation_message chain height s1 view c1 b1) ->
    vouched pk (attestation_message chain height s2 view c2 b2) -> Conflict chain pk height
| TwoPrevotes view s1 s2 c1 c2 v1 v2 p1 p2 :
    (v1, p1) <> (v2, p2) ->
    vouched pk (attestation_message chain height s1 view c1 (prevote_block height view v1 p1)) ->
    vouched pk (attestation_message chain height s2 view c2 (prevote_block height view v2 p2)) ->
    Conflict chain pk height
| TwoProposals view s1 s2 c1 c2 q1 q2 :
    q1 <> q2 ->
    vouched pk (attestation_message chain height s1 view c1 (proposal_block height view q1)) ->
    vouched pk (attestation_message chain height s2 view c2 (proposal_block height view q2)) ->
    Conflict chain pk height
| BrokenLock locked later s1 s2 c1 c2 v1 v2 parent cost pol :
    cost <> VIEW_CHANGE_SUBJECT_COST -> locked < later -> v1 <> v2 ->
    (forall p, pol = Some p -> p <= locked) ->
    vouched pk (attestation_message chain height s1 locked c1 (block_to_bytes height v1 parent cost)) ->
    vouched pk (attestation_message chain height s2 later c2 (prevote_block height later v2 pol)) ->
    Conflict chain pk height.

Lemma signed_vouched pk msg sig : signed_by pk msg sig = true -> vouched pk msg.
Proof. by exists sig. Qed.
(** Two signatures checked one after the other. *)
Lemma both_vouched pk m1 s1 m2 s2 :
  signed_by pk m1 s1 && signed_by pk m2 s2 = true -> vouched pk m1 /\ vouched pk m2.
Proof. intros [H1 H2]%andb_true_iff. split; by eapply signed_vouched. Qed.

Lemma equivocation_parts e chain pk :
  Equivocation_attributes e chain pk = true ->
  block_a e <> block_b e /\ view_a e = view_b e /\ subject_is_view_change (block_a e) = false /\
  subject_is_view_change (block_b e) = false /\ length pk = PUBLIC_KEY_BYTES /\
  vouched pk (attestation_message chain (eq_height e) (slot_a e) (view_a e) (committee_a e) (block_a e)) /\
  vouched pk (attestation_message chain (eq_height e) (slot_b e) (view_b e) (committee_b e) (block_b e)).
Proof.
  unfold Equivocation_attributes.
  destruct (bool_decide (block_a e = block_b e)) eqn:Eb; [done|].
  destruct (Z.eqb_spec (view_a e) (view_b e)) as [Ev|]; [|done]. cbn [negb].
  destruct (subject_is_view_change (block_a e)) eqn:Ea; [done|].
  destruct (subject_is_view_change (block_b e)) eqn:Eb'; [done|]. cbn [orb].
  destruct (length pk =? _)%nat eqn:El; [|done]. cbn [negb]. intros [V1 V2]%both_vouched. bool_to_prop. done.
Qed.
Lemma prevotes_parts e chain pk :
  PrevoteEquivocation_attributes e chain pk = true ->
  let h := pe_height e in let v := pe_view e in let a := pe_first e in let b := pe_second e in
  (pv_value a, pv_pol a) <> (pv_value b, pv_pol b) /\ length pk = PUBLIC_KEY_BYTES /\
  vouched pk (attestation_message chain h (pv_slot a) v (pv_committee a) (prevote_block h v (pv_value a) (pv_pol a))) /\
  vouched pk (attestation_message chain h (pv_slot b) v (pv_committee b) (prevote_block h v (pv_value b) (pv_pol b))).
Proof.
  unfold PrevoteEquivocation_attributes, SignedPrevote_verifies. cbn zeta.
  destruct (bool_decide _) eqn:Eb; [done|]. destruct (length pk =? _)%nat eqn:El; [|done]. cbn [negb].
  intros [V1 V2]%both_vouched. bool_to_prop. done.
Qed.
Lemma proposals_parts e chain pk :
  ProposalEquivocation_attributes e chain pk = true ->
  let h := re_height e in let v := re_view e in let a := re_first e in let b := re_second e in
  pr_shape a <> pr_shape b /\ length pk = PUBLIC_KEY_BYTES /\
  vouched pk (attestation_message chain h (pr_slot a) v (pr_committee a) (proposal_block h v (pr_shape a))) /\
  vouched pk (attestation_message chain h (pr_slot b) v (pr_committee b) (proposal_block h v (pr_shape b))).
Proof.
  unfold ProposalEquivocation_attributes, SignedProposal_verifies. cbn zeta.
  destruct (bool_decide _) eqn:Eb; [done|]. destruct (length pk =? _)%nat eqn:El; [|done]. cbn [negb].
  intros [V1 V2]%both_vouched. bool_to_prop. done.
Qed.

Lemma equivocation_conflict e chain pk :
  Equivocation_attributes e chain pk = true ->
  length pk = PUBLIC_KEY_BYTES /\ Conflict chain pk (eq_height e).
Proof.
  intros (Eb & Ev & Ea & Eb' & El & V1 & V2)%equivocation_parts. rewrite <- Ev in V2.
  split; [done|]. exact (TwoBlocks _ _ _ _ _ _ _ _ _ _ Eb Ea Eb' V1 V2).
Qed.
Lemma prevotes_conflict e chain pk :
  PrevoteEquivocation_attributes e chain pk = true ->
  length pk = PUBLIC_KEY_BYTES /\ Conflict chain pk (pe_height e).
Proof.
  intros (Eb & El & V1 & V2)%prevotes_parts. split; [done|].
  exact (TwoPrevotes _ _ _ _ _ _ _ _ _ _ _ _ Eb V1 V2).
Qed.
Lemma proposals_conflict e chain pk :
  ProposalEquivocation_attributes e chain pk = true ->
  length pk = PUBLIC_KEY_BYTES /\ Conflict chain pk (re_height e).
Proof.
  intros (Eb & El & V1 & V2)%proposals_parts. split; [done|].
  exact (TwoProposals _ _ _ _ _ _ _ _ _ _ Eb V1 V2).
Qed.
Lemma lock_conflict e chain pk :
  LockViolation_attributes e chain pk = true ->
  length pk = PUBLIC_KEY_BYTES /\ Conflict chain pk (lv_height e).
Proof.
  unfold LockViolation_attributes, SignedPrecommit_verifies, SignedPrecommit_block, SignedPrevote_verifies.
  destruct (_ || _) eqn:Eb; [done|]. destruct (length pk =? _)%nat eqn:El; [|done]. cbn [negb].
  intros [V1 V2]%both_vouched. bool_to_prop. split; [done|].
  refine (BrokenLock _ _ _ _ _ _ _ _ _ _ _ _ _ _ _ _ _ _ V1 V2); [done|done|congruence|].
  intros p Hp. match goal with E : match pv_pol _ with _ => _ end = false |- _ => rewrite Hp in E; bool_to_prop; lia end.
Qed.

(** *** Double finality *)

Section Sides.
Context (key_of : list byte -> option (list byte)).

(** Every signer of a side voted for its block, in the view of the first vote, under
    its own key. *)
Definition voted chain height view block (votes : list FinalityVote) (a : list byte) : Prop :=
  exists pk vote, vote ∈ votes /\ fv_view vote = view /\ key_of a = Some pk /\
    vouched pk (attestation_message chain height (fv_slot vote) view (fv_committee vote) block).

Lemma side_loop_voted chain height block first all votes signers out :
  side_loop key_of chain height block first votes signers = Some out ->
  (forall vote, vote ∈ votes -> vote ∈ all) ->
  Forall (voted chain height (fv_view first) block all) signers -> NoDup signers ->
  Forall (voted chain height (fv_view first) block all) out /\ NoDup out.
Proof.
  revert signers. induction votes as [|v votes IH]; intros signers H Hall Hs Hn; cbn [side_loop] in H.
  { by injection H as <-. }
  case_in H; [done|]. case_in H; [|done]. case_in H; [done|]. case_in H; [|done]. bool_to_prop.
  apply IH in H; [done| | |].
  - intros w Hw. apply Hall. by right.
  - apply Forall_app. split; [done|]. constructor; [|done].
    match goal with E : signed_by _ _ _ = true |- _ => apply signed_vouched in E; rename E into Hs' end.
    match goal with E : fv_view v = _ |- _ => rename E into Ev; rewrite Ev in Hs' end.
    eexists _, v. split_and!; [apply Hall; by left|done|done|done].
  - apply NoDup_app. split_and!; [done| |apply NoDup_singleton]. intros x Hx ->%list_elem_of_singleton. done.
Qed.

Lemma side_voted e chain block votes out view :
  side key_of e chain block votes = Some (out, view) ->
  Forall (voted chain (df_height e) view block votes) out /\ NoDup out.
Proof.
  unfold side. destruct votes as [|first votes]; [done|].
  destruct (side_loop _ _ _ _ _ _ _) as [s|] eqn:E; [|done]. cbn. intros [= <- <-].
  eapply side_loop_voted in E; [exact E|done|constructor|constructor].
Qed.

Lemma offenders_parts e chain os :
  offenders key_of e chain = Some os ->
  NoDup os /\ df_block_a e <> df_block_b e /\ subject_is_view_change (df_block_a e) = false /\
  subject_is_view_change (df_block_b e) = false /\
  exists view, Forall (fun a => voted chain (df_height e) view (df_block_a e) (votes_a e) a /\
                                voted chain (df_height e) view (df_block_b e) (votes_b e) a) os.
Proof.
  unfold offenders. intros H. case_in H; [done|]. bool_to_prop.
  destruct (side key_of e chain (df_block_a e) (votes_a e)) as [[sa va]|] eqn:Ea; [|done].
  destruct (side key_of e chain (df_block_b e) (votes_b e)) as [[sb vb]|] eqn:Eb; [|done].
  apply side_voted in Ea as [Ha Hna]. apply side_voted in Eb as [Hb Hnb].
  case_in H; [done|]. case_in H; [done|]. injection H as <-. bool_to_prop. subst vb. split_and!; try done.
  - rewrite merge_sort_Permutation. by apply NoDup_ListNoDup, List.NoDup_filter, NoDup_ListNoDup.
  - exists va. apply Forall_forall. intros a Hin. rewrite merge_sort_Permutation in Hin.
    apply list_elem_of_In, filter_In in Hin as [Hin%list_elem_of_In Hin'%bool_decide_eq_true].
    rewrite Forall_forall in Ha, Hb. auto.
Qed.

Lemma offenders_conflict e chain os :
  offenders key_of e chain = Some os ->
  NoDup os /\ Forall (fun a => exists pk, key_of a = Some pk /\ Conflict chain pk (df_height e)) os.
Proof.
  intros (Hn & Hb & Va & Vb & view & Ho)%offenders_parts. split; [done|].
  eapply Forall_impl; [exact Ho|]. intros a [(pk & w & _ & _ & K1 & V1) (pk' & w' & _ & _ & K2 & V2)].
  rewrite K1 in K2. injection K2 as <-. exists pk. split; [done|].
  exact (TwoBlocks _ _ _ _ _ _ _ _ _ _ Hb Va Vb V1 V2).
Qed.
End Sides.

(** ** Execution is slashing the convicted *)

Definition proven_offender (proven : bool) (offender : list byte) : list (list byte) :=
  if proven then [offender] else [].

(** The validators a transaction's evidence convicts, in the order they are slashed. *)
Definition convicted (chain_id : Z) (w : Wrapper) (l : Ledger) : list (list byte) :=
  let bs := args (call (body w)) in
  match evidence_decode DoubleFinality_codec bs with
  | Some e =>
      if negb (double_finality_live chain_id l) || ahead (df_height e) l then []
      else default [] (double_finality_offenders chain_id e l)
  | None =>
  match evidence_decode PrevoteEquivocation_codec bs with
  | Some e => proven_offender (prevote_equivocation_proven chain_id e l) (pe_offender e)
  | None =>
  match evidence_decode ProposalEquivocation_codec bs with
  | Some e => proven_offender (proposal_equivocation_proven chain_id e l) (re_offender e)
  | None =>
  match evidence_decode LockViolation_codec bs with
  | Some e => proven_offender (lock_violation_proven chain_id e l) (lv_offender e)
  | None =>
  match evidence_decode Equivocation_codec bs with
  | Some e =>
      proven_offender (negb (ahead (eq_height e) l) &&
        attributed (eq_offender e) (Equivocation_attributes e (binding chain_id l)) l) (eq_offender e)
  | None => []
  end end end end end.

Lemma slash_one a l : slash_each [a] false l = slash_validator sha a l.
Proof.
  cbn [slash_each]. unfold mbind, M_bind. destruct (slash_validator sha a l) as [[hit|] l']; [|done].
  by cbn.
Qed.

Lemma slash_if_proven p a l : slash_if p a l = slash_each (proven_offender (p l) a) false l.
Proof.
  unfold slash_if, proven_offender, mbind, M_bind, asks. destruct (p l); [|done].
  exact (eq_sym (slash_one a l)).
Qed.

Lemma dispatch_slashes chain_id w l :
  dispatch_evidence chain_id w l = slash_each (convicted chain_id w l) false l.
Proof.
  unfold dispatch_evidence, convicted. cbn zeta.
  destruct (evidence_decode DoubleFinality_codec _) as [e|].
  { unfold mbind at 1, M_bind at 1, asks at 1. destruct (_ || _); [done|].
    unfold mbind, M_bind, asks. by destruct (double_finality_offenders _ _ _). }
  destruct (evidence_decode PrevoteEquivocation_codec _) as [e|]; [apply slash_if_proven|].
  destruct (evidence_decode ProposalEquivocation_codec _) as [e|]; [apply slash_if_proven|].
  destruct (evidence_decode LockViolation_codec _) as [e|]; [apply slash_if_proven|].
  destruct (evidence_decode Equivocation_codec _) as [e|]; [|done].
  unfold mbind at 1, M_bind at 1, asks at 1. destruct (ahead (eq_height e) l); [done|].
  unfold mbind at 1, M_bind at 1, asks at 1, attributed.
  destruct (validator_attest_key l (eq_offender e)) as [pk|]; [|done].
  unfold mbind at 1, M_bind at 1, asks at 1. destruct (Equivocation_attributes _ _ _); [|done].
  exact (eq_sym (slash_one _ l)).
Qed.

Lemma existsb_proven (banned : list byte -> bool) p a :
  existsb (fun o => negb (banned o)) (proven_offender p a) = negb (banned a) && p.
Proof. destruct p; cbn; by rewrite ?orb_false_r, ?andb_true_r, ?andb_false_r. Qed.

(** Evidence is admitted exactly when it convicts a validator that is not banned yet. *)
Lemma admissible_convicts chain_id w l :
  evidence_admissible chain_id w l =
  existsb (fun o => negb (is_validator_banned sha l o)) (convicted chain_id w l).
Proof.
  unfold evidence_admissible, convicted. cbn zeta.
  destruct (evidence_decode DoubleFinality_codec _) as [e|] eqn:Ef.
  { destruct (finality_alone _ _ Ef) as (-> & -> & ->). destruct (_ || _); [done|].
    by destruct (double_finality_offenders _ _ _). }
  destruct (evidence_decode PrevoteEquivocation_codec _) as [e|]; [by rewrite existsb_proven|].
  destruct (evidence_decode ProposalEquivocation_codec _) as [e|]; [by rewrite existsb_proven|].
  destruct (evidence_decode LockViolation_codec _) as [e|]; [by rewrite existsb_proven|].
  destruct (evidence_decode Equivocation_codec _) as [e|]; [|done].
  rewrite existsb_proven. by destruct (is_validator_banned _ _ _), (ahead _ _).
Qed.

(** *** What the convicted signed *)

Definition Guilty (chain_id : Z) (l : Ledger) (a : list byte) : Prop :=
  exists pk h, validator_attest_key l a = Some pk /\ h <= execution_height l + 1 /\
    Conflict (binding chain_id l) pk h.

Lemma not_ahead h l : ahead h l = false -> h <= execution_height l + 1.
Proof. unfold ahead. width_lia. Qed.

Lemma attributed_guilty chain_id l a h (p : list byte -> bool) :
  ahead h l = false ->
  (forall pk, p pk = true -> length pk = PUBLIC_KEY_BYTES /\ Conflict (binding chain_id l) pk h) ->
  attributed a p l = true -> Guilty chain_id l a.
Proof.
  intros Ha Hp. unfold attributed. destruct (validator_attest_key l a) as [pk|] eqn:Ek; [|done].
  intros Hpk. exists pk, h. split; [done|]. split; [by apply not_ahead|]. by apply Hp.
Qed.

Lemma proven_guilty chain_id l a p :
  (p = true -> Guilty chain_id l a) ->
  NoDup (proven_offender p a) /\ Forall (Guilty chain_id l) (proven_offender p a).
Proof. destruct p; cbn; split; repeat constructor; auto using not_elem_of_nil. Qed.

Lemma convicted_guilty chain_id w l :
  NoDup (convicted chain_id w l) /\ Forall (Guilty chain_id l) (convicted chain_id w l).
Proof.
  unfold convicted. cbn zeta. destruct (evidence_decode DoubleFinality_codec _) as [e|].
  { destruct (_ || _) eqn:Er; [by repeat constructor|]. bool_to_prop.
    unfold double_finality_offenders. destruct (offenders _ _ _) as [os|] eqn:Eo; [|by repeat constructor].
    apply offenders_conflict in Eo as [Hn Ho]. split; [done|]. eapply Forall_impl; [exact Ho|].
    intros a (pk & K & C). exists pk, (df_height e). split_and!; auto using not_ahead. }
  destruct (evidence_decode PrevoteEquivocation_codec _) as [e|].
  { apply proven_guilty. unfold prevote_equivocation_proven. destruct (ahead _ _) eqn:E; [done|].
    eapply attributed_guilty; [done|]. intros. by apply prevotes_conflict. }
  destruct (evidence_decode ProposalEquivocation_codec _) as [e|].
  { apply proven_guilty. unfold proposal_equivocation_proven. destruct (ahead _ _) eqn:E; [done|].
    eapply attributed_guilty; [done|]. intros. by apply proposals_conflict. }
  destruct (evidence_decode LockViolation_codec _) as [e|].
  { apply proven_guilty. unfold lock_violation_proven. destruct (ahead _ _) eqn:E; [done|].
    eapply attributed_guilty; [done|]. intros. by apply lock_conflict. }
  destruct (evidence_decode Equivocation_codec _) as [e|]; [|by repeat constructor].
  apply proven_guilty. destruct (ahead _ _) eqn:E; [done|].
  eapply attributed_guilty; [done|]. intros. by apply equivocation_conflict.
Qed.

(** ** The result of a slash *)

Lemma slash_banned a l : is_validator_banned sha l a = true -> slash_validator sha a l = (Done false, l).
Proof.
  unfold is_validator_banned, slash_validator. destruct (address_id a); [|done]. intros H.
  unfold mbind, M_bind, asks. by rewrite H.
Qed.

Lemma slash_hits a l hit l' :
  is_Some (address_id a) -> is_validator_banned sha l a = false ->
  slash_validator sha a l = (Done hit, l') -> hit = true.
Proof.
  unfold is_validator_banned, slash_validator. intros [id ->] Hb.
  unfold mbind at 1, M_bind at 1, asks at 1. rewrite Hb.
  unfold mbind, M_bind. intros H. repeat (case_in H; try discriminate H); by injection H as <- <-.
Qed.

Lemma slash_each_kept os l b l' : slash_each os true l = (Done b, l') -> b = true.
Proof.
  revert l. induction os as [|o os IH]; intros l H; cbn [slash_each] in H; [by injection H as <- <-|].
  unfold mbind, M_bind in H. destruct (slash_validator sha o l) as [[hit|] l1]; [|done]. by apply IH in H.
Qed.

Lemma slash_each_result os l :
  Forall (fun a => is_Some (address_id a)) os ->
  let some := existsb (fun o => negb (is_validator_banned sha l o)) os in
  (some = false -> slash_each os false l = (Done false, l)) /\
  (forall b l', slash_each os false l = (Done b, l') -> b = some).
Proof.
  induction 1 as [|o os Ho Hos IH]; cbn [existsb slash_each]; cbn zeta.
  { split; [done|]. intros b l' H. by injection H as <- <-. }
  destruct (is_validator_banned sha l o) eqn:Eb; cbn [negb orb].
  - unfold mbind, M_bind. rewrite (slash_banned o l Eb). cbn [orb]. exact IH.
  - split; [done|]. intros b l' H. unfold mbind, M_bind in H.
    destruct (slash_validator sha o l) as [[hit|] l1] eqn:Es; [|done].
    apply slash_hits in Es as ->; [|done..]. by apply slash_each_kept in H.
Qed.

Lemma guilty_address chain_id l a : Guilty chain_id l a -> is_Some (address_id a).
Proof.
  intros (pk & h & K & _). unfold validator_attest_key in K. destruct (address_id a); [by eexists|done].
Qed.
End Conviction.
