(* ===== verification/Voter.v ===== *)
(** * What a validator signs (qtv-devnet/src/node.rs)

    The four places where a node of the devnet signs with its attestation key:
    proposals, prevotes and precommits, each behind its own watermark, and view
    changes, which need none.  The state is the part of [DevNode] these read and
    write.  [signed] collects the messages signed so far and [hashed] the strings
    whose digests became the values of signed subjects; both are only for stating
    properties.  The slot, the committee digest and whether the draw let the key attest
    come from the consensus library and are inputs of each step, as is the outcome of a
    write to a watermark file. *)

From S2P Require Import Prelude Codec Crc Watermark Consensus Idfmt Tx Events LedgerState LedgerKeys.
From S2P Require Import Governance Staking Fee LedgerStake SigCache Admission Evidence.
#[local] Open Scope Z_scope.

Record Staged : Type := mkStaged {
  staged_view : Z;
  staged_value : list byte;
  staged_block : list byte;
  staged_pol : option Z
}.
Record VoteLock : Type := mkVoteLock { vote_lock_view : Z; vote_lock_pol : option Z; vote_lock_value : list byte }.

Record Voter : Type := mkVoter {
  height : Z;
  view : Z;
  parent_val : option (list byte);
  staged : option Staged;
  vote_lock : option VoteLock;
  prevoted : gmap Z (list byte);
  fatal : bool;
  restart_hold : Z;
  guarded_height : option Z;
  sign_guard : Guarded SignGuard;
  prevote_guard : Guarded PrevoteGuard;
  proposal_guard : Guarded PrevoteGuard;
  signed : list (list byte);
  hashed : list (list byte)
}.

(** [consensus.slot_for(height)], [current_committee_digest()] and whether the key is
    drawn. *)
Record Draw : Type := mkDraw { draw_slot : Z; draw_committee : list byte; drawn : bool }.

Definition MAX_VIEW : Z := 2 ^ 20.

(** ** Updates of single fields *)

Definition with_staged (s : option Staged) (n : Voter) : Voter :=
  mkVoter (height n) (view n) (parent_val n) s (vote_lock n) (prevoted n) (fatal n) (restart_hold n)
    (guarded_height n) (sign_guard n) (prevote_guard n) (proposal_guard n) (signed n) (hashed n).
Definition with_lock (k : option VoteLock) (n : Voter) : Voter :=
  mkVoter (height n) (view n) (parent_val n) (staged n) k (prevoted n) (fatal n) (restart_hold n)
    (guarded_height n) (sign_guard n) (prevote_guard n) (proposal_guard n) (signed n) (hashed n).
Definition with_prevoted (m : gmap Z (list byte)) (n : Voter) : Voter :=
  mkVoter (height n) (view n) (parent_val n) (staged n) (vote_lock n) m (fatal n) (restart_hold n)
    (guarded_height n) (sign_guard n) (prevote_guard n) (proposal_guard n) (signed n) (hashed n).
Definition with_view (v : Z) (n : Voter) : Voter :=
  mkVoter (height n) v (parent_val n) (staged n) (vote_lock n) (prevoted n) (fatal n) (restart_hold n)
    (guarded_height n) (sign_guard n) (prevote_guard n) (proposal_guard n) (signed n) (hashed n).
Definition with_hold (h : Z) (n : Voter) : Voter :=
  mkVoter (height n) (view n) (parent_val n) (staged n) (vote_lock n) (prevoted n) (fatal n) h
    (guarded_height n) (sign_guard n) (prevote_guard n) (proposal_guard n) (signed n) (hashed n).
Definition with_guards (s : Guarded SignGuard) (p q : Guarded PrevoteGuard) (n : Voter) : Voter :=
  mkVoter (height n) (view n) (parent_val n) (staged n) (vote_lock n) (prevoted n) (fatal n)
    (restart_hold n) (guarded_height n) s p q (signed n) (hashed n).
Definition with_fatal (n : Voter) : Voter :=
  mkVoter (height n) (view n) (parent_val n) (staged n) (vote_lock n) (prevoted n) true (restart_hold n)
    (guarded_height n) (sign_guard n) (prevote_guard n) (proposal_guard n) (signed n) (hashed n).
Definition with_guarded_height (n : Voter) : Voter :=
  mkVoter (height n) (view n) (parent_val n) (staged n) (vote_lock n) (prevoted n) (fatal n)
    (restart_hold n) (Some (height n)) (sign_guard n) (prevote_guard n) (proposal_guard n)
    (signed n) (hashed n).
Definition with_signed (msgs inputs : list (list byte)) (n : Voter) : Voter :=
  mkVoter (height n) (view n) (parent_val n) (staged n) (vote_lock n) (prevoted n) (fatal n)
    (restart_hold n) (guarded_height n) (sign_guard n) (prevote_guard n) (proposal_guard n)
    msgs inputs.

Section Signing.
Context {X : Attesting}.
(** The chain the key is bound to, and the cost of [ConsensusBlock::new]. *)
Context (chain : ChainBinding) (BLOCK_COST : Z).

Definition consensus_block (h : Z) (value : list byte) (parent : option (list byte)) : list byte :=
  block_to_bytes h value parent BLOCK_COST.

(** [consensus.own_attestation(..)] for a subject whose value is the digest of [inputs];
    a key that is not drawn signs nothing. *)
Definition own_attestation (d : Draw) (v : Z) (block : list byte) (inputs : list (list byte)) (n : Voter) :
    option (list byte) * Voter :=
  if drawn d then
    let msg := attestation_message chain (height n) (draw_slot d) v (draw_committee d) block in
    (Some msg, with_signed (msg :: signed n) (inputs ++ hashed n) n)
  else (None, n).

(** ** Precommits *)

Definition guard_height (io : Io) (v : Z) (value : list byte) (n : Voter) : bool * Voter :=
  if fatal n || (0 <? restart_hold n) then (false, n)
  else match guard (sign_guard n) with
  | None => (false, n)
  | Some g =>
      let '(r, _, _) := Watermark.try_sign io (file (sign_guard n)) g (height n) v value in
      let n := with_guards (sign_step (sign_guard n) (TrySign io (height n) v value))
                 (prevote_guard n) (proposal_guard n) n in
      match r with
      | Ok true => (true, with_guarded_height n)
      | Ok false => (false, n)
      | Err _ => (false, with_fatal n)
      end
  end.

Definition attest (d : Draw) (n : Voter) : option (list byte) * Voter :=
  match staged n with
  | None => (None, n)
  | Some s => own_attestation d (staged_view s) (staged_block s) [] n
  end.

Definition precommit_staged (io : Io) (d : Draw) (n : Voter) : option (list byte) * Voter :=
  match staged n with
  | None => (None, n)
  | Some s =>
      let '(ok, n) := guard_height io (staged_view s) (staged_value s) n in
      if ok then attest d n else (None, n)
  end.

(** ** Prevotes *)

(** [guard.try_prevote(height, view, &value)] on one of the two guards of this kind. *)
Definition asked_prevote (io : Io) (w : Guarded PrevoteGuard) (h v : Z) (value : list byte) :
    bool * Guarded PrevoteGuard :=
  match guard w with
  | None => (false, w)
  | Some g =>
      let '(r, _, _) := try_prevote io (file w) g h v value in
      (match r with Ok true => true | _ => false end, prevote_step w (TryPrevote io h v value))
  end.

(** [lock.is_some_and(|lock| view > lock.view && pol.is_none_or(|pol| pol < lock.view))]. *)
Definition lock_forbids (k : option VoteLock) (v : Z) (pol : option Z) : bool :=
  match k with
  | None => false
  | Some k =>
      (vote_lock_view k <? v) &&
      match pol with None => true | Some pol => pol <? vote_lock_view k end
  end.

(** The prevote itself; the polka it may complete is a later step. *)
Definition prevote_staged (io : Io) (d : Draw) (n : Voter) : option (list byte) * Voter :=
  if fatal n then (None, n)
  else match staged n with
  | None => (None, n)
  | Some s =>
      let value := staged_value s in
      let v := staged_view s in
      let pol := staged_pol s in
      if match prevoted n !! v with Some already => negb (bool_decide (already = value)) | None => false end
      then (None, n)
      else if lock_forbids (vote_lock n) v pol then (None, n)
      else if 0 <? restart_hold n then (None, n)
      else
        let '(ok, g) := asked_prevote io (prevote_guard n) (height n) v (prevote_value (height n) v value pol) in
        let n := with_guards (sign_guard n) g (proposal_guard n) n in
        if negb ok then (None, n)
        else match own_attestation d v (prevote_block (height n) v value pol)
                     [prevote_input (height n) v value pol] n with
        | (Some msg, n) => (Some msg, with_prevoted (<[v := value]> (prevoted n)) n)
        | (None, n) => (None, n)
        end
  end.

(** ** Proposals *)

(** [header.height()] of a proposal the node builds is its own height. *)
Definition sign_proposal (io : Io) (d : Draw) (v : Z) (shape : ProposalShape) (n : Voter) :
    option (list byte) * Voter :=
  let '(ok, g) := asked_prevote io (proposal_guard n) (height n) v (proposal_value (height n) v shape) in
  let n := with_guards (sign_guard n) (prevote_guard n) g n in
  if ok then own_attestation d v (proposal_block (height n) v shape) [proposal_input (height n) v shape] n
  else (None, n).

(** ** View changes *)

Definition view_change_input (h target_view lock_view : Z) (locked_value : list byte) (has_lock : bool)
    (polka : list byte) : list byte :=
  ascii "QTV-DEVNET-VIEWCHANGE2" ++ to_le 8 h ++ to_le 8 target_view ++ to_le 8 lock_view ++
  locked_value ++ [byte_of (if has_lock then 1 else 0)] ++ polka.
Definition view_change_subject (h target_view lock_view : Z) (locked_value : list byte) (has_lock : bool)
    (polka : list byte) : list byte :=
  block_to_bytes h (digest_256 (view_change_input h target_view lock_view locked_value has_lock polka)) None
    VIEW_CHANGE_SUBJECT_COST.

(** [polka_digest]'s result is an input. *)
Definition make_view_change (d : Draw) (target_view : Z) (polka : list byte) (n : Voter) :
    option (list byte) * Voter :=
  let '(lock_view, locked_value, has_lock) :=
    match vote_lock n with
    | Some k => (vote_lock_view k, vote_lock_value k, true)
    | None => (0, zeros 32, false)
    end in
  own_attestation d (view n)
    (view_change_subject (height n) target_view lock_view locked_value has_lock polka)
    [view_change_input (height n) target_view lock_view locked_value has_lock polka] n.

(** ** The rest of the node, as far as signing sees it *)

(** The end of [stage_from] and of [stage_proposal]. *)
Definition stage (v : Z) (value : list byte) (pol : option Z) (n : Voter) : Voter :=
  with_staged (Some (mkStaged v value (consensus_block (height n) value (parent_val n)) pol)) n.

(** The node moves on to a height whose parent is [parent]: at the end of [finalize]
    and of [apply_synced_block], and when it is opened. *)
Definition enter_height (h : Z) (parent : option (list byte)) (n : Voter) : Voter :=
  mkVoter h 0 parent None None ∅ (fatal n) (restart_hold n) (guarded_height n)
    (sign_guard n) (prevote_guard n) (proposal_guard n) (signed n) (hashed n).

Definition release_restart_hold (n : Voter) : Voter := with_hold (saturating_sub (restart_hold n) 1) n.
Definition on_timeout (v : Z) (n : Voter) : bool * Voter :=
  let n := release_restart_hold n in
  if negb (view n =? v) || bool_decide (is_Some (staged n)) then (false, n)
  else (true, with_view (Z.min (saturating_add 64 (view n) 1) MAX_VIEW) n).
Definition stop_signing (n : Voter) : Voter :=
  with_guards (sign_step (sign_guard n) SignRestart) (prevote_step (prevote_guard n) PrevoteRestart)
    (prevote_step (proposal_guard n) PrevoteRestart) n.
End Signing.
