(* ===== verification/VoterSpec.v ===== *)
(** * A validator that keeps its watermarks is never convicted of equivocation

    Histories of a node in which everything around its signing is arbitrary: what it
    stages, the heights and locks it moves to, crashes, reopened and failing watermark
    files.  Whatever it signed is covered by a grant of the watermark in front of the
    signature, and the subjects of the four kinds of message cannot be taken for each
    other, so that no two of its messages are evidence of an equivocation. *)

From S2P Require Import Prelude Codec Crc Consensus Idfmt Tx Events LedgerState LedgerKeys.
From S2P Require Import Governance Staking Fee LedgerStake SigCache Admission Evidence EvidenceDispatch.
From S2P Require Import EvidenceCorrect Watermark Voter.
#[local] Open Scope Z_scope.

(** What the code relies on in the consensus library: a digest has 32 bytes, the bytes
    of a block determine its value, and they end with its cost. *)
Class AttestLaws `{X : Attesting} : Prop := {
  digest_length : forall x, length (digest_256 x) = 32%nat;
  block_value_inj : forall h v p c v' p' c', length v = 32%nat -> length v' = 32%nat ->
    block_to_bytes h v p c = block_to_bytes h v' p' c' -> v = v';
  block_cost_last : forall h v p c, u64 c ->
    (8 <= length (block_to_bytes h v p c))%nat /\
    drop (length (block_to_bytes h v p c) - 8) (block_to_bytes h v p c) = to_le 8 c
}.

(** ** Histories *)

Inductive VoterEvent : Type :=
| Precommits (io : Io) (d : Draw)
| Prevotes (io : Io) (d : Draw)
| Proposes (io : Io) (d : Draw) (view : Z) (shape : ProposalShape)
| ChangesView (d : Draw) (target : Z) (polka : list byte)
| Stages (view : Z) (value : list byte) (pol : option Z)
| Enters (height : Z) (parent : option (list byte))
| Locks (lock : option VoteLock)
| Moves (view : Z)
| TimesOut (view : Z)
| Stops
| SignFile (ev : sign_event)
| PrevoteFile (ev : prevote_event)
| ProposalFile (ev : prevote_event).

(** Opening, restarting, raising and reserving; the requests are those of the steps
    that sign. *)
Definition keeping_sign (ev : sign_event) : bool := match ev with TrySign _ _ _ _ => false | _ => true end.
Definition keeping_prevote (ev : prevote_event) : bool :=
  match ev with TryPrevote _ _ _ _ => false | _ => true end.

Section History.
Context `{L : AttestLaws}.
Context (chain : ChainBinding) (BLOCK_COST : Z).
Context (cost_u64 : u64 BLOCK_COST) (cost_plain : BLOCK_COST <> VIEW_CHANGE_SUBJECT_COST).
(** The parent the chain has at each height: a node builds on what it finalised. *)
Context (parent_at : Z -> option (list byte)).

Definition voter_step (n : Voter) (ev : VoterEvent) : Voter :=
  match ev with
  | Precommits io d => (precommit_staged chain io d n).2
  | Prevotes io d => (prevote_staged chain io d n).2
  | Proposes io d v shape => (sign_proposal chain io d v shape n).2
  | ChangesView d target polka => (make_view_change chain d target polka n).2
  | Stages v value pol => stage BLOCK_COST v value pol n
  | Enters h parent => enter_height h parent n
  | Locks k => with_lock k n
  | Moves v => with_view v n
  | TimesOut v => (on_timeout v n).2
  | Stops => stop_signing n
  | SignFile ev => with_guards (sign_step (sign_guard n) ev) (prevote_guard n) (proposal_guard n) n
  | PrevoteFile ev => with_guards (sign_guard n) (prevote_step (prevote_guard n) ev) (proposal_guard n) n
  | ProposalFile ev => with_guards (sign_guard n) (prevote_guard n) (prevote_step (proposal_guard n) ev) n
  end.

Definition draw_ok (d : Draw) : Prop := u64 (draw_slot d) /\ word (draw_committee d).
Definition pol_ok (pol : option Z) : Prop := match pol with Some p => u64 p | None => True end.
Lemma pol_ok_all pol : (forall p, pol = Some p -> u64 p) -> pol_ok pol.
Proof. destruct pol; cbn; auto. Qed.
Definition lock_ok (k : option VoteLock) : Prop :=
  match k with Some k => u64 (vote_lock_view k) /\ word (vote_lock_value k) | None => True end.

(** The types of the code, and that a digest it asks a watermark about is not the
    placeholder of a reservation. *)
Definition voter_event_ok (n : Voter) (ev : VoterEvent) : Prop :=
  match ev with
  | Precommits _ d => draw_ok d
  | Prevotes _ d => draw_ok d /\
      match staged n with
      | Some s => prevote_value (height n) (staged_view s) (staged_value s) (staged_pol s) <> zeros 32
      | None => True
      end
  | Proposes _ d v shape => draw_ok d /\ u64 v /\ ProposalShape_valid shape /\
      proposal_value (height n) v shape <> zeros 32
  | ChangesView d target polka => draw_ok d /\ u64 target /\ word polka
  | Stages v value pol => u64 v /\ word value /\ pol_ok pol
  | Enters h parent => u64 h /\ parent = parent_at h
  | Locks k => lock_ok k
  | Moves v => u64 v
  | TimesOut _ | Stops => True
  | SignFile ev => keeping_sign ev = true /\ sign_event_ok ev
  | PrevoteFile ev | ProposalFile ev => keeping_prevote ev = true /\ prevote_event_ok ev
  end.

Fixpoint history_ok (n : Voter) (evs : list VoterEvent) : Prop :=
  match evs with
  | [] => True
  | ev :: evs => voter_event_ok n ev /\ history_ok (voter_step n ev) evs
  end.

(** A node before it opened its watermark files, whatever these hold. *)
Definition voter_start (h : Z) (f1 f2 f3 : File) : Voter :=
  mkVoter h 0 (parent_at h) None None ∅ false 0 None
    (mkGuarded f1 None []) (mkGuarded f2 None []) (mkGuarded f3 None []) [] [].

(** ** Watermark steps *)

Lemma sign_start f : sign_inv (mkGuarded f None []).
Proof.
  split; [constructor|]. split; [|done]. cbn. destruct (f ≫= decode_mark) as [[[h v] x]|]; [|done].
  intros g Hg. by apply not_elem_of_nil in Hg.
Qed.
Lemma prevote_start f : prevote_inv (mkGuarded f None []).
Proof.
  split; [constructor|]. split; [|done]. cbn. destruct (f ≫= decode_prevote) as [[[h v] x]|]; [|done].
  intros g Hg. by apply not_elem_of_nil in Hg.
Qed.

Lemma sign_grants_kept w ev g : g ∈ grants w -> g ∈ grants (sign_step w ev).
Proof.
  intros H. unfold sign_step. destruct ev, (guard w); try done; cbn.
  - destruct (Watermark.try_sign _ _ _ _ _ _) as [[r f] g']. cbn. unfold granted. repeat case_match; set_solver.
  - by destruct (sign_raise_to _ _ _ _) as [[r f] g'].
Qed.
Lemma prevote_grants_kept w ev g : g ∈ grants w -> g ∈ grants (prevote_step w ev).
Proof.
  intros H. unfold prevote_step. destruct ev, (guard w); try done; cbn.
  - destruct (try_prevote _ _ _ _ _ _) as [[r f] g']. cbn. unfold granted. repeat case_match; set_solver.
  - by destruct (reserve _ _ _ _ _) as [[r f] g'].
  - by destruct (prevote_raise_to _ _ _ _) as [[r f] g'].
Qed.

(** What a request to a guard of the second kind leaves. *)
Lemma asked_prevote_inv io w h v x :
  subject h v x -> x <> zeros 32 -> prevote_inv w ->
  let '(ok, w') := asked_prevote io w h v x in
  prevote_inv w' /\ (forall g, g ∈ grants w -> g ∈ grants w') /\ (ok = true -> (h, v, x) ∈ grants w').
Proof.
  intros Hs Hx Hw. unfold asked_prevote. destruct (guard w) as [g|] eqn:Eg; [|by split_and!].
  destruct (try_prevote io (file w) g h v x) as [[r f] g'] eqn:Et. split_and!.
  - by apply prevote_step_inv.
  - intros g0. apply prevote_grants_kept.
  - unfold prevote_step. rewrite Eg, Et. cbn. destruct r as [[]|]; [|done..]. intros _. by left.
Qed.

(** ** What is signed *)

(** The four kinds of signed message, each with what vouches for it. *)
Inductive Accounted (n : Voter) (msg : list byte) : Prop :=
| ByPrecommit h s v c value :
    msg = attestation_message chain h s v c (consensus_block BLOCK_COST h value (parent_at h)) ->
    subject h v value -> u64 s -> word c -> (h, v, value) ∈ grants (sign_guard n) -> Accounted n msg
| ByPrevote h s v c value pol :
    msg = attestation_message chain h s v c (prevote_block h v value pol) ->
    u64 h -> u64 v -> u64 s -> word c -> word value -> prevote_input h v value pol ∈ hashed n ->
    (h, v, prevote_value h v value pol) ∈ grants (prevote_guard n) -> Accounted n msg
| ByProposal h s v c shape :
    msg = attestation_message chain h s v c (proposal_block h v shape) ->
    u64 h -> u64 v -> u64 s -> word c -> ProposalShape_valid shape -> proposal_input h v shape ∈ hashed n ->
    (h, v, proposal_value h v shape) ∈ grants (proposal_guard n) -> Accounted n msg
| ByViewChange h s v c target lock_view value has polka :
    msg = attestation_message chain h s v c (view_change_subject h target lock_view value has polka) ->
    u64 h -> u64 v -> u64 s -> word c -> word value -> word polka ->
    view_change_input h target lock_view value has polka ∈ hashed n -> Accounted n msg.

Definition staged_ok (n : Voter) : Prop :=
  forall s, staged n = Some s ->
    u64 (staged_view s) /\ word (staged_value s) /\ pol_ok (staged_pol s) /\
    staged_block s = consensus_block BLOCK_COST (height n) (staged_value s) (parent_val n).

Record VoterInv (n : Voter) : Prop := {
  inv_height : u64 (height n);
  inv_view : u64 (view n);
  inv_parent : parent_val n = parent_at (height n);
  inv_staged : staged_ok n;
  inv_lock : lock_ok (vote_lock n);
  inv_sign : sign_inv (sign_guard n);
  inv_prevote : prevote_inv (prevote_guard n);
  inv_proposal : prevote_inv (proposal_guard n);
  inv_signed : Forall (Accounted n) (signed n)
}.

(** The evidence that vouches for what was signed only grows. *)
Definition grows (n n' : Voter) : Prop :=
  (forall g, g ∈ grants (sign_guard n) -> g ∈ grants (sign_guard n')) /\
  (forall g, g ∈ grants (prevote_guard n) -> g ∈ grants (prevote_guard n')) /\
  (forall g, g ∈ grants (proposal_guard n) -> g ∈ grants (proposal_guard n')) /\
  (forall x, x ∈ hashed n -> x ∈ hashed n').

Lemma accounted_grows n n' : grows n n' -> forall msg, Accounted n msg -> Accounted n' msg.
Proof.
  intros (H1 & H2 & H3 & H4) msg [].
  - eapply ByPrecommit; eauto.
  - eapply ByPrevote; eauto.
  - eapply ByProposal; eauto.
  - eapply ByViewChange; eauto.
Qed.
Lemma accounted_all n n' : grows n n' -> Forall (Accounted n) (signed n) -> Forall (Accounted n') (signed n).
Proof. intros Hg H. eapply Forall_impl; [exact H|]. by apply accounted_grows. Qed.

(** ** Every step keeps the account *)

Ltac grants_kept :=
  split_and!; intros ?;
  cbn [sign_guard prevote_guard proposal_guard with_guards hashed];
  first [apply sign_grants_kept | apply prevote_grants_kept | done].

Lemma inv_guards n s p q :
  VoterInv n -> sign_inv s -> prevote_inv p -> prevote_inv q ->
  grows n (with_guards s p q n) -> VoterInv (with_guards s p q n).
Proof. intros [] Hs Hp Hq Hg. constructor; try done. exact (accounted_all n _ Hg inv_signed0). Qed.

(** A step that changes neither the watermarks nor what was signed. *)
Lemma voter_quiet n n' :
  VoterInv n -> u64 (height n') -> u64 (view n') -> parent_val n' = parent_at (height n') ->
  staged_ok n' -> lock_ok (vote_lock n') ->
  sign_guard n' = sign_guard n -> prevote_guard n' = prevote_guard n ->
  proposal_guard n' = proposal_guard n -> signed n' = signed n -> hashed n' = hashed n -> VoterInv n'.
Proof.
  intros [] ? ? ? ? ? E1 E2 E3 E4 E5. constructor; rewrite ?E1, ?E2, ?E3, ?E4; try done.
  eapply (accounted_all n); [|done]. split_and!; by rewrite ?E1, ?E2, ?E3, ?E5.
Qed.

Lemma inv_attest n d v block inputs :
  VoterInv n -> 
  (let msg := attestation_message chain (height n) (draw_slot d) v (draw_committee d) block in
   Accounted (with_signed (msg :: signed n) (inputs ++ hashed n) n) msg) ->
  VoterInv (own_attestation chain d v block inputs n).2.
Proof.
  intros Hi Ha. unfold own_attestation. destruct (drawn d); [|done]. destruct Hi. constructor; try done.
  constructor; [exact Ha|]. eapply (accounted_all n); [|done].
  split_and!; try done. intros x Hx. cbn. set_solver.
Qed.

Lemma inv_guard_height io s n :
  VoterInv n -> staged n = Some s ->
  let '(ok, n') := guard_height io (staged_view s) (staged_value s) n in
  VoterInv n' /\ staged n' = Some s /\ height n' = height n /\ parent_val n' = parent_val n /\
  (ok = true -> (height n, staged_view s, staged_value s) ∈ grants (sign_guard n')).
Proof.
  intros Hi Es. unfold guard_height. destruct (_ || _); [by split_and!|].
  destruct (guard (sign_guard n)) as [g|] eqn:Eg; [|by split_and!].
  destruct (Watermark.try_sign _ _ _ _ _ _) as [[r f] g'] eqn:Et.
  destruct (inv_staged n Hi s Es) as (Hv & Hw & _).
  set (w := sign_step (sign_guard n) (TrySign io (height n) (staged_view s) (staged_value s))).
  assert (Hn : VoterInv (with_guards w (prevote_guard n) (proposal_guard n) n)).
  { apply inv_guards; [done| |apply Hi|apply Hi|].
    - apply sign_step_inv; [|apply Hi]. split_and!; [apply Hi|done|done].
    - split_and!; try done. intros g0. apply sign_grants_kept. }
  assert (Hr : r = Ok true -> (height n, staged_view s, staged_value s) ∈ grants w).
  { intros ->. unfold w, sign_step. rewrite Eg, Et. cbn. by left. }
  destruct r as [[]|]; split_and!; try done; auto; (eapply voter_quiet; [exact Hn|..]; try done; apply Hn).
Qed.

Lemma inv_precommit io d n : VoterInv n -> draw_ok d -> VoterInv (precommit_staged chain io d n).2.
Proof.
  intros Hi [Hs Hc]. unfold precommit_staged. destruct (staged n) as [s|] eqn:Es; [|done].
  pose proof (inv_guard_height io s n Hi Es) as H.
  destruct (guard_height io (staged_view s) (staged_value s) n) as [ok n'].
  destruct H as (Hi' & Es' & Eh & Ep & Hg). destruct ok; [|done].
  unfold attest. rewrite Es'. destruct (inv_staged n' Hi' s Es') as (Hv & Hw & _ & Eb).
  apply inv_attest; [done|]. eapply ByPrecommit; cbn.
  - by rewrite Eb, (inv_parent n' Hi').
  - split_and!; [apply Hi'|done|done].
  - done.
  - done.
  - rewrite Eh. auto.
Qed.

Lemma inv_prevote_step io d n :
  VoterInv n -> voter_event_ok n (Prevotes io d) -> VoterInv (prevote_staged chain io d n).2.
Proof.
  intros Hi [[Hs Hc] Hz]. unfold prevote_staged. destruct (fatal n); [done|].
  destruct (staged n) as [s|] eqn:Es; [|done]. cbn zeta.
  destruct (inv_staged n Hi s Es) as (Hv & Hw & Hp & _).
  case_step; [done|]. case_step; [done|]. case_step; [done|].
  pose proof (asked_prevote_inv io (prevote_guard n) (height n) (staged_view s) _
    (conj (inv_height n Hi) (conj Hv (digest_length _))) Hz (inv_prevote n Hi)) as H.
  destruct (asked_prevote _ _ _ _ _) as [ok g]. destruct H as (Hg & Hk & Hok).
  set (n1 := with_guards (sign_guard n) g (proposal_guard n) n).
  assert (Hn : VoterInv n1) by (apply inv_guards; [done|..|by split_and!]; (apply Hi || done)).
  destruct ok; cbn [negb]; [|done].
  pose proof (inv_attest n1 d (staged_view s)
    (prevote_block (height n1) (staged_view s) (staged_value s) (staged_pol s))
    [prevote_input (height n1) (staged_view s) (staged_value s) (staged_pol s)] Hn) as Ha.
  destruct (own_attestation _ _ _ _ _ _) as [[msg|] n2]; cbn [snd] in *.
  all: assert (H2 : VoterInv n2) by (apply Ha; eapply ByPrevote; try done; [apply Hi|by left|by apply Hok]).
  - eapply voter_quiet; [exact H2|..]; try done; apply H2.
  - done.
Qed.

Lemma inv_propose io d v shape n :
  VoterInv n -> voter_event_ok n (Proposes io d v shape) -> VoterInv (sign_proposal chain io d v shape n).2.
Proof.
  intros Hi ([Hs Hc] & Hv & Hsh & Hz). unfold sign_proposal.
  pose proof (asked_prevote_inv io (proposal_guard n) (height n) v _
    (conj (inv_height n Hi) (conj Hv (digest_length _))) Hz (inv_proposal n Hi)) as H.
  destruct (asked_prevote _ _ _ _ _) as [ok g]. destruct H as (Hg & Hk & Hok).
  set (n1 := with_guards (sign_guard n) (prevote_guard n) g n).
  assert (Hn : VoterInv n1) by (apply inv_guards; [done|..|by split_and!]; (apply Hi || done)).
  destruct ok; [|done]. apply inv_attest; [done|].
  eapply ByProposal; try done; [apply Hi|by left|by apply Hok].
Qed.

Lemma inv_view_change d target polka n :
  VoterInv n -> voter_event_ok n (ChangesView d target polka) -> VoterInv (make_view_change chain d target polka n).2.
Proof.
  intros Hi ([Hs Hc] & Ht & Hp). unfold make_view_change. pose proof (inv_lock n Hi) as Hl.
  destruct (vote_lock n) as [k|].
  - destruct Hl as [Hkv Hk]. apply inv_attest; [done|].
    eapply ByViewChange; try done; [apply Hi|apply Hi|by left].
  - apply inv_attest; [done|]. eapply ByViewChange; try done; [apply Hi|apply Hi|by left].
Qed.

Lemma voter_step_inv n ev : VoterInv n -> voter_event_ok n ev -> VoterInv (voter_step n ev).
Proof.
  intros Hi Hok. destruct ev; cbn [voter_step].
  - by apply inv_precommit.
  - by apply inv_prevote_step.
  - by apply inv_propose.
  - by apply inv_view_change.
  - eapply voter_quiet; [exact Hi|..]; try done; try apply Hi. intros s [= <-]. by destruct Hok as (? & ? & ?).
  - destruct Hok as [Hh ->]. eapply voter_quiet; [exact Hi|..]; done.
  - eapply voter_quiet; [exact Hi|..]; try done; apply Hi.
  - eapply voter_quiet; [exact Hi|..]; try done; apply Hi.
  - unfold on_timeout, release_restart_hold. pose proof (inv_view n Hi) as Hv.
    case_step; (eapply voter_quiet; [exact Hi|..]; try done; try apply Hi).
    cbn. unfold MAX_VIEW in *. width_lia.
  - unfold stop_signing. apply inv_guards; [done|apply sign_step_inv; [done|apply Hi]|
      apply prevote_step_inv; [done|apply Hi]..|].
    grants_kept.
  - destruct Hok as [_ Hok]. apply inv_guards; [done|apply sign_step_inv; [done|apply Hi]|apply Hi..|].
    grants_kept.
  - destruct Hok as [_ Hok]. apply inv_guards; [done|apply Hi|apply prevote_step_inv; [done|apply Hi]|apply Hi|].
    grants_kept.
  - destruct Hok as [_ Hok]. apply inv_guards; [done|apply Hi|apply Hi|apply prevote_step_inv; [done|apply Hi]|].
    grants_kept.
Qed.

Lemma history_inv evs n : VoterInv n -> history_ok n evs -> VoterInv (foldl voter_step n evs).
Proof.
  revert n. induction evs as [|ev evs IH]; intros n Hi Hok; [done|]. destruct Hok as [He Hok].
  cbn [foldl]. apply IH; [by apply voter_step_inv|done].
Qed.

Lemma start_inv h f1 f2 f3 : u64 h -> VoterInv (voter_start h f1 f2 f3).
Proof.
  intros Hh. constructor; try done; [apply sign_start|apply prevote_start..].
Qed.

(** ** Messages of different kinds are different *)

Lemma message_inj h s v c b h' s' v' c' b' :
  u64 h -> u64 s -> u64 v -> word c -> u64 h' -> u64 s' -> u64 v' -> word c' ->
  attestation_message chain h s v c b = attestation_message chain h' s' v' c' b' ->
  h = h' /\ v = v' /\ b = b'.
Proof.
  intros Hh Hs Hv Hc Hh' Hs' Hv' Hc' E. unfold attestation_message in E. unfold word in *.
  apply app_inv_head, app_inv_head in E.
  apply app_inj_1 in E as [E1 E]; [|by rewrite !length_to_le].
  apply app_inj_1 in E as [_ E]; [|by rewrite !length_to_le].
  apply app_inj_1 in E as [E3 E]; [|by rewrite !length_to_le].
  apply app_inj_1 in E as [_ E]; [|congruence].
  apply (f_equal from_le) in E1, E3. rewrite !from_to_le in E1, E3 by (by apply (in_width_bytes 8)). done.
Qed.

Lemma u64_max : u64 VIEW_CHANGE_SUBJECT_COST.
Proof. done. Qed.

Lemma view_change_block h x p : subject_is_view_change (block_to_bytes h x p VIEW_CHANGE_SUBJECT_COST) = true.
Proof.
  destruct (block_cost_last h x p _ u64_max) as [Hl Hd]. unfold subject_is_view_change.
  rewrite Hd. apply andb_true_iff. split; [by apply Nat.leb_le|by apply bool_decide_eq_true].
Qed.

Lemma plain_block h v p h' x : consensus_block BLOCK_COST h v p <> block_to_bytes h' x None VIEW_CHANGE_SUBJECT_COST.
Proof using cost_u64 cost_plain L.
  intros E. unfold consensus_block in E. destruct (block_cost_last h v p _ cost_u64) as [_ H1].
  destruct (block_cost_last h' x None _ u64_max) as [_ H2]. rewrite <- E, H1 in H2.
  apply (f_equal from_le) in H2. rewrite !from_to_le in H2 by (by apply (in_width_bytes 8)). done.
Qed.

Lemma prevote_input_length h v value pol : word value -> length (prevote_input h v value pol) = 78%nat.
Proof.
  unfold word, prevote_input. intros Hw. destruct pol; unfold pol_bytes; by rewrite !length_app, !length_to_le, Hw.
Qed.
Lemma proposal_input_length h v s : ProposalShape_valid s -> length (proposal_input h v s) = 137%nat.
Proof.
  unfold word, proposal_input. intros (H1 & H2 & _). by rewrite !length_app, !length_to_le, H1, H2.
Qed.
Lemma view_change_input_length h t k value has polka :
  word value -> word polka -> length (view_change_input h t k value has polka) = 111%nat.
Proof.
  unfold word, view_change_input. intros H1 H2. by rewrite !length_app, !length_to_le, H1, H2.
Qed.

Lemma prevote_input_inj h v x p y q :
  word x -> word y -> pol_ok p -> pol_ok q ->
  prevote_input h v x p = prevote_input h v y q -> (x, p) = (y, q).
Proof.
  unfold word, prevote_input. intros Hx Hy Hp Hq E. do 3 apply app_inv_head in E.
  apply app_inj_1 in E as [-> E]; [|congruence]. f_equal.
  destruct p as [p|], q as [q|]; unfold pol_bytes in E;
    [|by apply app_inj_1 in E as [E _]|by apply app_inj_1 in E as [E _]|done].
  apply app_inv_head, (f_equal from_le) in E.
  rewrite (from_to_le 8 p), (from_to_le 8 q) in E by (apply (in_width_bytes 8); first [exact Hp|exact Hq]).
  congruence.
Qed.
Lemma proposal_input_inj h v s t :
  ProposalShape_valid s -> ProposalShape_valid t -> proposal_input h v s = proposal_input h v t -> s = t.
Proof.
  destruct s as [hh r k n sl dl], t as [hh' r' k' n' sl' dl'].
  intros (A1 & A2 & A3 & A4 & A5 & A6) (B1 & B2 & B3 & B4 & B5 & B6) E. unfold word in *.
  cbn [shape_header_hash shape_root shape_k shape_n shape_shard_len shape_data_len] in *.
  unfold proposal_input in E. cbn [shape_header_hash shape_root shape_k shape_n shape_shard_len shape_data_len] in E.
  do 3 apply app_inv_head in E.
  apply app_inj_1 in E as [-> E]; [|congruence]. apply app_inj_1 in E as [-> E]; [|congruence].
  apply app_inj_1 in E as [E1 E]; [|by rewrite !length_to_le].
  apply app_inj_1 in E as [E2 E]; [|by rewrite !length_to_le].
  apply app_inj_1 in E as [E3 E4]; [|by rewrite !length_to_le].
  apply (f_equal from_le) in E1, E2, E3, E4.
  rewrite !from_to_le in E1, E2, E3, E4 by (by apply (in_width_bytes 8)). by subst.
Qed.

(** ** What an account leaves possible *)

(** A signed block that is no view change subject was granted by the sign guard. *)
Lemma accounted_plain n h s v c b :
  u64 h -> u64 s -> u64 v -> word c -> subject_is_view_change b = false ->
  Accounted n (attestation_message chain h s v c b) ->
  exists value, b = consensus_block BLOCK_COST h value (parent_at h) /\ (h, v, value) ∈ grants (sign_guard n).
Proof.
  intros Hh Hs Hv Hc Hb [h' s' v' c' value E (? & ? & ?) ? ? Hg|h' s' v' c' value pol E|h' s' v' c' shape E|
    h' s' v' c' t k value has polka E];
    apply message_inj in E as (-> & -> & ->); try done.
  - by exists value.
  - unfold prevote_block in Hb. by rewrite view_change_block in Hb.
  - unfold proposal_block in Hb. by rewrite view_change_block in Hb.
  - unfold view_change_subject in Hb. by rewrite view_change_block in Hb.
Qed.

(** A signed subject over [x] has [x] itself as its input, when the digest keeps apart
    what was hashed and [x]. *)
Lemma accounted_subject n h s v c x :
  u64 h -> u64 s -> u64 v -> word c -> separates digest_256 (hashed n) [x] ->
  Accounted n (attestation_message chain h s v c (block_to_bytes h (digest_256 x) None VIEW_CHANGE_SUBJECT_COST)) ->
  x ∈ hashed n /\
  ((length x = 78%nat -> (h, v, digest_256 x) ∈ grants (prevote_guard n)) /\
   (length x = 137%nat -> (h, v, digest_256 x) ∈ grants (proposal_guard n))).
Proof using cost_u64 cost_plain L.
  intros Hh Hs Hv Hc Hsep [h' s' v' c' value E (? & ? & ?) ? ? Hg|h' s' v' c' value pol E ? ? ? ? Hw Hin Hg|
    h' s' v' c' shape E ? ? ? ? Hw Hin Hg|h' s' v' c' t k value has polka E ? ? ? ? Hw Hp Hin];
    apply message_inj in E as (<- & <- & E); try done.
  - by destruct (plain_block _ _ _ _ _ (eq_sym E)).
  - apply block_value_inj in E; [|apply digest_length..].
    pose proof (Hsep _ x Hin (proj2 (list_elem_of_singleton _ _) eq_refl) (eq_sym E)) as <-.
    rewrite prevote_input_length by done. by split_and!.
  - apply block_value_inj in E; [|apply digest_length..].
    pose proof (Hsep _ x Hin (proj2 (list_elem_of_singleton _ _) eq_refl) (eq_sym E)) as <-.
    rewrite proposal_input_length by done. by split_and!.
  - apply block_value_inj in E; [|apply digest_length..].
    pose proof (Hsep _ x Hin (proj2 (list_elem_of_singleton _ _) eq_refl) (eq_sym E)) as <-.
    rewrite view_change_input_length by done. by split_and!.
Qed.

(** ** No evidence *)

(** Only the signer makes messages that verify under its key. *)
Definition unforgeable (pk : list byte) (msgs : list (list byte)) : Prop :=
  forall msg, vouched pk msg -> msg ∈ msgs.

Section Convicted.
Context {n : Voter} (Hn : VoterInv n) {pk : list byte} (Hpk : unforgeable pk (signed n)).

Lemma vouched_accounted msg : vouched pk msg -> Accounted n msg.
Proof using Hn Hpk. intros Hv. apply (proj1 (Forall_forall _ _) (inv_signed n Hn)). by apply Hpk. Qed.

Lemma same_plain_block h s1 s2 v c1 c2 b1 b2 :
  u64 h -> u64 v -> u64 s1 -> u64 s2 -> word c1 -> word c2 ->
  subject_is_view_change b1 = false -> subject_is_view_change b2 = false ->
  vouched pk (attestation_message chain h s1 v c1 b1) ->
  vouched pk (attestation_message chain h s2 v c2 b2) -> b1 = b2.
Proof using Hn Hpk L.
  intros Hh Hv Hs1 Hs2 Hc1 Hc2 V1 V2 A1%vouched_accounted A2%vouched_accounted.
  apply accounted_plain in A1 as (x & -> & G1); [|done..].
  apply accounted_plain in A2 as (y & -> & G2); [|done..].
  by rewrite (no_equivocation_same _ _ _ _ _ (proj1 (inv_sign n Hn)) G1 G2).
Qed.

Lemma same_subject (gs : list Grant) h s1 s2 v c1 c2 x y :
  no_equivocation gs -> u64 h -> u64 v -> u64 s1 -> u64 s2 -> word c1 -> word c2 ->
  separates digest_256 (hashed n) [x; y] ->
  (forall z, z ∈ [x; y] ->
    (forall s c, u64 s -> word c -> separates digest_256 (hashed n) [z] ->
     Accounted n (attestation_message chain h s v c (block_to_bytes h (digest_256 z) None VIEW_CHANGE_SUBJECT_COST)) ->
     z ∈ hashed n /\ (h, v, digest_256 z) ∈ gs)) ->
  vouched pk (attestation_message chain h s1 v c1 (block_to_bytes h (digest_256 x) None VIEW_CHANGE_SUBJECT_COST)) ->
  vouched pk (attestation_message chain h s2 v c2 (block_to_bytes h (digest_256 y) None VIEW_CHANGE_SUBJECT_COST)) ->
  x = y.
Proof using Hn Hpk.
  intros Hgs Hh Hv Hs1 Hs2 Hc1 Hc2 Hsep Hz A1%vouched_accounted A2%vouched_accounted.
  assert (Ix : x ∈ [x; y]) by (by left). assert (Iy : y ∈ [x; y]) by (right; by left).
  destruct (Hz x Ix s1 c1) as [X1 G1]; [done|done| |done|].
  { eapply separates_sub; [exact Hsep|done|]. by intros z ->%list_elem_of_singleton. }
  destruct (Hz y Iy s2 c2) as [X2 G2]; [done|done| |done|].
  { eapply separates_sub; [exact Hsep|done|]. by intros z ->%list_elem_of_singleton. }
  apply (Hsep x y); [done..|]. by apply (no_equivocation_same _ _ _ _ _ Hgs G1 G2).
Qed.

Lemma no_equivocation_evidence e :
  valid Equivocation_codec e -> Equivocation_attributes e chain pk = false.
Proof using Hn Hpk L.
  intros (_ & ? & ? & ? & ? & ? & ? & ? & _). apply not_true_iff_false.
  intros (Hne & Ev & Va & Vb & _ & V1 & V2)%equivocation_parts. rewrite <- Ev in V2. apply Hne.
  by eapply same_plain_block; [..|exact V1|exact V2].
Qed.

Lemma no_prevote_evidence e :
  valid PrevoteEquivocation_codec e ->
  separates digest_256 (hashed n)
    [prevote_input (pe_height e) (pe_view e) (pv_value (pe_first e)) (pv_pol (pe_first e));
     prevote_input (pe_height e) (pe_view e) (pv_value (pe_second e)) (pv_pol (pe_second e))] ->
  PrevoteEquivocation_attributes e chain pk = false.
Proof using Hn Hpk L cost_u64 cost_plain.
  intros (_ & Hh & Hv & (Hs1 & Hc1 & Hv1 & Hp1 & _) & (Hs2 & Hc2 & Hv2 & Hp2 & _)) Hsep.
  apply not_true_iff_false. intros (Hne & _ & V1 & V2)%prevotes_parts. apply Hne.
  apply (prevote_input_inj (pe_height e) (pe_view e)); [done|done|by apply pol_ok_all|by apply pol_ok_all|].
  refine (same_subject (grants (prevote_guard n)) _ _ _ _ _ _ _ _ (proj1 (inv_prevote n Hn))
    Hh Hv Hs1 Hs2 Hc1 Hc2 Hsep _ V1 V2).
  intros z Hz s c Hs Hc Hsz Ha. apply accounted_subject in Ha as (Hin & Hg & _); [|done..]. split; [done|].
  apply Hg. apply elem_of_cons in Hz as [-> | Hz]; [by apply prevote_input_length|].
  apply list_elem_of_singleton in Hz as ->. by apply prevote_input_length.
Qed.

Lemma no_proposal_evidence e :
  valid ProposalEquivocation_codec e ->
  separates digest_256 (hashed n)
    [proposal_input (re_height e) (re_view e) (pr_shape (re_first e));
     proposal_input (re_height e) (re_view e) (pr_shape (re_second e))] ->
  ProposalEquivocation_attributes e chain pk = false.
Proof using Hn Hpk L cost_u64 cost_plain.
  intros (_ & Hh & Hv & (Hs1 & Hc1 & Hq1 & _) & (Hs2 & Hc2 & Hq2 & _)) Hsep.
  apply not_true_iff_false. intros (Hne & _ & V1 & V2)%proposals_parts. apply Hne.
  apply (proposal_input_inj (re_height e) (re_view e)); [done..|].
  refine (same_subject (grants (proposal_guard n)) _ _ _ _ _ _ _ _ (proj1 (inv_proposal n Hn))
    Hh Hv Hs1 Hs2 Hc1 Hc2 Hsep _ V1 V2).
  intros z Hz s c Hs Hc Hsz Ha. apply accounted_subject in Ha as (Hin & _ & Hg); [|done..]. split; [done|].
  apply Hg. apply elem_of_cons in Hz as [-> | Hz]; [by apply proposal_input_length|].
  apply list_elem_of_singleton in Hz as ->. by apply proposal_input_length.
Qed.

Lemma no_finality_evidence e key_of a os :
  valid DoubleFinality_codec e -> key_of a = Some pk -> offenders key_of e chain = Some os -> a ∉ os.
Proof using Hn Hpk L.
  intros (Hh & _ & [_ Ha] & _ & [_ Hb]) Hk (_ & Hne & Va & Vb & view & Ho)%offenders_parts Hin.
  rewrite Forall_forall in Ho. rewrite Forall_forall in Ha. rewrite Forall_forall in Hb.
  destruct (Ho a Hin) as [(p1 & w1 & W1 & E1 & K1 & V1) (p2 & w2 & W2 & _ & K2 & V2)].
  rewrite Hk in K1, K2. injection K1 as <-. injection K2 as <-. apply Hne.
  destruct (Ha w1 W1) as (_ & Hv & S1 & C1 & _), (Hb w2 W2) as (_ & _ & S2 & C2 & _). rewrite E1 in Hv.
  exact (same_plain_block _ _ _ _ _ _ _ _ Hh Hv S1 S2 C1 C2 Va Vb V1 V2).
Qed.
End Convicted.
End History.
