(* ===== verification/EvidencePoolSpec.v ===== *)
(** * The evidence pool of a node

    Histories of the pool: attestations a node saw, evidence taken out, evidence
    dropped.  What it reports convicts, it stays within its bounds, and an equivocation
    it sees is reported. *)

From S2P Require Import Prelude Codec Consensus Idfmt Tx Events LedgerState LedgerKeys.
From S2P Require Import Governance Staking Fee LedgerStake SigCache Admission Evidence EvidenceDispatch.
From S2P Require Import EvidenceCorrect.
#[local] Open Scope Z_scope.

(** The arguments of [observe]. *)
Record Sighting : Type := mkSighting {
  by_offender : list byte;
  at_height : Z;
  at_slot : Z;
  at_view : Z;
  for_committee : list byte;
  for_block : list byte;
  with_sig : list byte
}.

Inductive PoolEvent : Type :=
| Sees (s : Sighting)
| Drains
| Retains (keep : Equivocation -> bool).

(** A pool and the evidence it reported so far. *)
Definition Reporting : Type := EvidencePool * list Equivocation.

Definition sight (p : EvidencePool) (s : Sighting) : option Equivocation * EvidencePool :=
  EvidencePool_observe p (by_offender s) (at_height s) (at_slot s) (at_view s) (for_committee s)
    (for_block s) (with_sig s).
Definition pool_step (r : Reporting) (ev : PoolEvent) : Reporting :=
  match ev with
  | Sees s =>
      let '(found, p) := sight r.1 s in
      (p, match found with Some e => r.2 ++ [e] | None => r.2 end)
  | Drains => ((EvidencePool_drain r.1).2, r.2)
  | Retains keep => (EvidencePool_retain keep r.1, r.2)
  end.
Definition pool_run (evs : list PoolEvent) : Reporting := foldl pool_step (EvidencePool_new, []) evs.

Definition sighting_key (s : Sighting) : WatchKey := (by_offender s, at_height s, at_view s).
Definition evidence_key (e : Equivocation) : WatchKey := (eq_offender e, eq_height e, view_a e).

(** The floor and the sightings under it. *)
Lemma raise_floor_ge h p : h <= ep_floor (raise_floor h p) /\ ep_floor p <= ep_floor (raise_floor h p).
Proof. unfold raise_floor. case_step; cbn; bool_to_prop; lia. Qed.
Lemma raise_floor_seen h p k w : ep_seen (raise_floor h p) !! k = Some w -> ep_seen p !! k = Some w.
Proof.
  unfold raise_floor. case_step; [|done]. cbn. intros H. by apply map_lookup_filter_Some in H as [H _].
Qed.
Lemma raise_floor_size h p : (size (ep_seen (raise_floor h p)) <= size (ep_seen p))%nat.
Proof.
  unfold raise_floor. case_step; [|done]. cbn. apply map_subseteq_size, map_filter_subseteq.
Qed.
Lemma raise_floor_flagged h p k : k ∈ ep_flagged (raise_floor h p) -> k ∈ ep_flagged p.
Proof. unfold raise_floor. case_step; [|done]. cbn. intros H. by apply elem_of_filter in H as [_ H]. Qed.
Lemma raise_floor_pending h p : ep_pending (raise_floor h p) = ep_pending p.
Proof. unfold raise_floor. by case_step. Qed.
Lemma raise_floor_below h p : h <= ep_floor p -> raise_floor h p = p.
Proof. unfold raise_floor. intros H. case_step; [|done]. bool_to_prop. lia. Qed.

Section Pool.
Context {X : Attesting} (chain : ChainBinding) (key_of : list byte -> option (list byte)).

(** The node looks the signer up in its roster and checks the signature first. *)
Definition verified (offender : list byte) (height slot view : Z) (committee block sig : list byte) : Prop :=
  exists pk, key_of offender = Some pk /\ length pk = ML_PUBLIC_KEY_BYTES crypto /\
    signed_by pk (attestation_message chain height slot view committee block) sig = true.
Definition sighting_ok (ev : PoolEvent) : Prop :=
  match ev with
  | Sees s => verified (by_offender s) (at_height s) (at_slot s) (at_view s) (for_committee s)
                (for_block s) (with_sig s)
  | _ => True
  end.
Definition convicts (e : Equivocation) : Prop :=
  exists pk, key_of (eq_offender e) = Some pk /\ Equivocation_attributes e chain pk = true.

Record PoolInv (r : Reporting) : Prop := {
  pool_seen : forall k s c b sg, ep_seen r.1 !! k = Some (s, c, b, sg) ->
    subject_is_view_change b = false /\ verified k.1.1 k.1.2 s k.2 c b sg;
  pool_size : (size (ep_seen r.1) <= MAX_WATCHED_ATTESTATIONS)%nat;
  pool_pending : (length (ep_pending r.1) <= MAX_PENDING_EVIDENCE)%nat;
  pool_pending_in : forall e, e ∈ ep_pending r.1 -> e ∈ r.2;
  pool_flagged : forall k, k ∈ ep_flagged r.1 -> exists e, e ∈ r.2 /\ evidence_key e = k /\ view_b e = view_a e;
  pool_convicts : Forall convicts r.2
}.

Lemma pool_start : PoolInv (EvidencePool_new, []).
Proof. constructor; cbn; try done; try lia; try set_solver. unfold MAX_WATCHED_ATTESTATIONS. rewrite map_size_empty. lia. Qed.

Lemma conflict_convicts o h v s1 s2 c1 c2 b1 b2 g1 g2 :
  b1 <> b2 -> subject_is_view_change b1 = false -> subject_is_view_change b2 = false ->
  verified o h s1 v c1 b1 g1 -> verified o h s2 v c2 b2 g2 ->
  convicts (mkEquivocation o h v v s1 s2 c1 c2 b1 g1 b2 g2).
Proof.
  intros Hb V1 V2 (pk & K1 & Hl & S1) (pk' & K2 & _ & S2). rewrite K1 in K2. injection K2 as <-.
  exists pk. split; [done|]. unfold Equivocation_attributes.
  cbn [block_a block_b view_a view_b eq_height slot_a slot_b committee_a committee_b sig_a sig_b].
  rewrite bool_decide_false by done. rewrite Z.eqb_refl, V1, V2, Hl, Nat.eqb_refl. cbn [negb orb].
  by rewrite S1, S2.
Qed.

(** The pool after its floor was raised, with nothing reported. *)
Lemma raise_floor_inv h r : PoolInv r -> PoolInv (raise_floor h r.1, r.2).
Proof.
  intros []. constructor; cbn [fst snd]; try done.
  - intros k s c b sg H%raise_floor_seen. eauto.
  - etrans; [apply raise_floor_size|done].
  - by rewrite raise_floor_pending.
  - by rewrite raise_floor_pending.
  - intros k H%raise_floor_flagged. eauto.
Qed.

Lemma sight_inv r s : PoolInv r -> sighting_ok (Sees s) -> PoolInv (pool_step r (Sees s)).
Proof.
  intros Hr Hs. cbn [pool_step]. unfold sight, EvidencePool_observe.
  destruct (subject_is_view_change (for_block s)) eqn:Ev; [by destruct r|].
  pose proof (raise_floor_inv (at_height s) r Hr) as Hi. set (p := raise_floor _ _) in *. clearbody p.
  destruct (ep_seen p !! _) as [[[[ps pc] pb] pg]|] eqn:El.
  - destruct (bool_decide (pb = for_block s)) eqn:Eb; [exact Hi|].
    destruct (bool_decide (_ ∈ ep_flagged p)) eqn:Ef; [exact Hi|].
    destruct (_ <=? _)%nat eqn:Ep; [exact Hi|]. bool_to_prop. destruct Hi. cbn [fst snd] in *.
    destruct (pool_seen0 _ _ _ _ _ El) as [V1 S1]. cbn in S1. constructor; cbn [fst snd ep_seen ep_pending ep_flagged]; try done.
    + rewrite length_app. cbn. lia.
    + intros e [He|He]%elem_of_app; apply elem_of_app; [left; auto|by right].
    + intros k [Hk|Hk]%elem_of_union.
      * apply elem_of_singleton in Hk as ->. eexists. split; [apply elem_of_app; right; by left|done].
      * destruct (pool_flagged0 k Hk) as (e & He & Ee). exists e. split; [|done]. apply elem_of_app. by left.
    + apply Forall_app. split; [done|]. constructor; [|constructor]. by apply conflict_convicts.
  - destruct (_ <? _)%nat eqn:Es; [|exact Hi]. bool_to_prop. destruct Hi. cbn [fst snd] in *.
    constructor; cbn [fst snd ep_seen ep_pending ep_flagged]; try done.
    + intros k s' c b sg Hk. apply lookup_insert_Some in Hk as [[<- [= <- <- <- <-]]|[_ Hk]]; [done|eauto].
    + rewrite map_size_insert_None by done. lia.
Qed.

Lemma pool_step_inv r ev : PoolInv r -> sighting_ok ev -> PoolInv (pool_step r ev).
Proof.
  intros Hr Hev. destruct ev as [s| |keep]; [by apply sight_inv|..].
  - destruct Hr. constructor; cbn; try done; [lia|set_solver].
  - destruct Hr. constructor; cbn; try done.
    + etrans; [apply List.filter_length_le|done].
    + intros e He. apply list_elem_of_In, filter_In in He as [He _]. by apply pool_pending_in0, list_elem_of_In.
Qed.

Lemma pool_run_inv evs r : PoolInv r -> Forall sighting_ok evs -> PoolInv (foldl pool_step r evs).
Proof.
  revert r. induction evs as [|ev evs IH]; intros r Hr Hok; [done|]. inversion Hok; subst.
  cbn [foldl]. apply IH; [by apply pool_step_inv|done].
Qed.
End Pool.

(** ** A sighting is kept while its height lasts *)

Definition low (h : Z) (ev : PoolEvent) : Prop := match ev with Sees s => at_height s <= h | _ => True end.

Lemma kept_step r ev h k w :
  h <= ep_floor r.1 -> low h ev -> ep_seen r.1 !! k = Some w ->
  h <= ep_floor (pool_step r ev).1 /\ ep_seen (pool_step r ev).1 !! k = Some w.
Proof.
  intros Hf Hl Hs. destruct ev as [s| |keep]; [|done|done]. cbn [pool_step low] in *.
  unfold sight, EvidencePool_observe. destruct (subject_is_view_change _); [done|].
  rewrite raise_floor_below by lia.
  fold (sighting_key s). cbn zeta.
  destruct (ep_seen r.1 !! sighting_key s) as [[[[ps pc] pb] pg]|] eqn:El.
  - repeat case_step; done.
  - case_step; [|done]. cbn. split; [done|]. rewrite lookup_insert_ne; [done|]. intros Ek. rewrite <- Ek in Hs. congruence.
Qed.
Lemma kept_run evs r h k w :
  h <= ep_floor r.1 -> Forall (low h) evs -> ep_seen r.1 !! k = Some w ->
  h <= ep_floor (foldl pool_step r evs).1 /\ ep_seen (foldl pool_step r evs).1 !! k = Some w.
Proof.
  intros Hf Hl. revert r Hf. induction Hl as [|ev evs Hev Hl IH]; intros r Hf Hs; [done|]. cbn [foldl].
  destruct (kept_step r ev h k w Hf Hev Hs). by apply IH.
Qed.

(** A first sighting with room is kept, and a second one of another block is reported. *)
Lemma first_kept r s :
  subject_is_view_change (for_block s) = false -> ep_floor r.1 <= at_height s ->
  ep_seen r.1 !! sighting_key s = None -> (size (ep_seen r.1) < MAX_WATCHED_ATTESTATIONS)%nat ->
  at_height s <= ep_floor (pool_step r (Sees s)).1 /\
  ep_seen (pool_step r (Sees s)).1 !! sighting_key s =
    Some (at_slot s, for_committee s, for_block s, with_sig s).
Proof.
  intros Hv Hf Hn Hr. cbn [pool_step]. unfold sight, EvidencePool_observe. rewrite Hv.
  assert (El : ep_seen (raise_floor (at_height s) r.1) !! sighting_key s = None).
  { apply eq_None_not_Some. intros [w Hw%raise_floor_seen]. congruence. }
  fold (sighting_key s). cbn zeta. rewrite El. pose proof (raise_floor_size (at_height s) r.1).
  destruct (Nat.ltb_spec (size (ep_seen (raise_floor (at_height s) r.1))) MAX_WATCHED_ATTESTATIONS); [|lia].
  cbn. split; [apply raise_floor_ge|apply lookup_insert_eq].
Qed.

Lemma second_reported r s slot c b sg :
  subject_is_view_change (for_block s) = false -> at_height s <= ep_floor r.1 ->
  ep_seen r.1 !! sighting_key s = Some (slot, c, b, sg) -> b <> for_block s ->
  (length (ep_pending r.1) < MAX_PENDING_EVIDENCE)%nat ->
  sighting_key s ∈ ep_flagged r.1 \/
  (pool_step r (Sees s)).2 = r.2 ++ [mkEquivocation (by_offender s) (at_height s) (at_view s) (at_view s)
    slot (at_slot s) c (for_committee s) b sg (for_block s) (with_sig s)].
Proof.
  intros Hv Hf Hs Hb Hp. cbn [pool_step]. unfold sight, EvidencePool_observe. rewrite Hv, raise_floor_below by done.
  fold (sighting_key s). cbn zeta. rewrite Hs, bool_decide_false by done.
  destruct (bool_decide (_ ∈ ep_flagged r.1)) eqn:Ef; [left; by bool_to_prop|right].
  by destruct (Nat.leb_spec MAX_PENDING_EVIDENCE (length (ep_pending r.1))); [lia|].
Qed.

Lemma reports_kept r ev e : e ∈ r.2 -> e ∈ (pool_step r ev).2.
Proof.
  intros He. destruct ev as [s| |]; [|done|done]. cbn [pool_step]. destruct (sight r.1 s) as [[]]; cbn; set_solver.
Qed.

(** ** The property *)


(** A scheme that accepts every signature of the right length, and two attestations. *)
Definition trusting : Attesting := {|
  crypto := example_crypto;
  attest_verify := fun _ _ _ _ => true;
  public_key_is_degenerate := fun _ => false;
  ATTEST_CONTEXT := [];
  block_to_bytes := fun _ value _ _ => value;
  digest_256 := example_hash
|}.
Definition example_sighting (block : byte) : Sighting :=
  mkSighting (ascii "q1") 9 4 0 (zeros 32) [block] (zeros 32).
Definition example_sightings : list PoolEvent :=
  Sees (example_sighting x01) :: [Drains] ++ [Sees (example_sighting x02)].
Lemma example_sightings_ok :
  Forall (@sighting_ok trusting (mkBinding 7 (zeros 32)) (fun _ => Some (zeros 32))) example_sightings.
Proof. repeat constructor; by exists (zeros 32). Qed.

