(* ===== verification/EvidenceSpec.v ===== *)
(** * Evidence: what slashing on evidence guarantees

    Execution agrees with admission, only validators with conflicting signatures are
    slashed, a node that keeps its watermarks is never among them, and the pool of a
    node reports the equivocations it sees. *)

From S2P Require Import Prelude Codec Crc Consensus Idfmt Tx Events LedgerState LedgerKeys.
From S2P Require Import Governance Staking Fee LedgerStake LedgerCoins LedgerConserve LedgerHistory.
From S2P Require Import Bridge LedgerBridge SigCache Admission.
From S2P Require Import Evidence EvidenceDispatch EvidenceCorrect Watermark Voter VoterSpec.
#[local] Open Scope Z_scope.

(** ** Slashing keeps the books *)

Lemma slash_each_balanced {X : Attesting} U {Oth : Others (sha3_256 crypto) U} N h os slashed l :
  0 <= h -> NoDup U -> apart (sha3_256 crypto) U ->
  balanced (sha3_256 crypto) U h N l -> Forall (in_play U) os ->
  wp (slash_each os slashed) (fun _ => balanced (sha3_256 crypto) U h N) l.
Proof.
  intros Hh Hn Ha HB Hos. revert slashed l HB.
  induction Hos as [|o os Ho Hos IH]; intros slashed l HB; cbn [slash_each]; [by apply wp_ret|].
  apply wp_bind. apply (wp_mono _ (fun _ => balanced (sha3_256 crypto) U h N)); [|by apply slash_validator_balanced].
  intros hit l' HB'. by apply IH.
Qed.

(** ** Properties *)

(** C10: evidence is executed exactly as it is admitted.  Evidence that is not admissible
    changes nothing; evidence that runs to an end reports that it slashed exactly when
    it was admissible, although the two functions try the formats in different orders;
    and on balanced books with the convicted among the accounts in play it does run to
    an end and leaves the books balanced. *)
Theorem evidence_executes_as_admitted {X : Attesting} (chain_id : Z) (w : Wrapper) (l : Ledger) :
  (evidence_admissible chain_id w l = false -> dispatch_evidence chain_id w l = (Done false, l)) /\
  (forall b l', dispatch_evidence chain_id w l = (Done b, l') -> b = evidence_admissible chain_id w l) /\
  (forall U (Oth : Others (sha3_256 crypto) U) N h, 0 <= h -> NoDup U -> apart (sha3_256 crypto) U ->
    balanced (sha3_256 crypto) U h N l -> Forall (in_play U) (convicted chain_id w l) ->
    exists l', dispatch_evidence chain_id w l = (Done (evidence_admissible chain_id w l), l') /\
      balanced (sha3_256 crypto) U h N l').
Proof.
  rewrite admissible_convicts, dispatch_slashes. destruct (convicted_guilty chain_id w l) as [_ Hg].
  destruct (slash_each_result (convicted chain_id w l) l) as [H1 H2].
  { eapply Forall_impl; [exact Hg|]. intros a. apply guilty_address. }
  split; [exact H1|]. split; [exact H2|]. intros U Oth N h Hh Hn Ha HB Hp.
  pose proof (slash_each_balanced U N h _ false l Hh Hn Ha HB Hp) as W. unfold wp in W.
  destruct (slash_each _ false l) as [[b|] l'] eqn:E; [|done]. exists l'. by rewrite (H2 b l' eq_refl).
Qed.

(** C8: nobody is slashed without two conflicting messages of his own.  Executing a
    transaction with evidence is slashing, one by one, distinct validators, each of
    which has an attestation key in the ledger under which two messages verify that
    must not be signed together: two blocks, two prevotes or two proposals of one
    height and view, or a prevote against a lock without a later polka; both for this
    chain and its genesis, at a height the ledger has reached. *)
Theorem slashing_needs_a_conflict {X : Attesting} (chain_id : Z) (w : Wrapper) (l : Ledger) :
  exists slashed, NoDup slashed /\ Forall (Guilty chain_id l) slashed /\
    dispatch_evidence chain_id w l = slash_each slashed false l.
Proof.
  exists (convicted chain_id w l). destruct (convicted_guilty chain_id w l) as [Hn Hg].
  split; [done|]. split; [done|]. apply dispatch_slashes.
Qed.


(** ** A node at work *)

Definition example_voter_block (h : Z) (v : list byte) (p : option (list byte)) (c : Z) : list byte :=
  to_le 8 h ++ v ++ match p with None => [x00] | Some q => x01 :: q end ++ to_le 8 c.
(** Signatures under which exactly the given messages verify. *)
Definition example_attesting (msgs : list (list byte)) : Attesting := {|
  crypto := example_crypto;
  attest_verify := fun _ msg _ _ => bool_decide (msg ∈ msgs);
  public_key_is_degenerate := fun _ => false;
  ATTEST_CONTEXT := [];
  block_to_bytes := example_voter_block;
  digest_256 := example_hash
|}.

Lemma example_attest_laws msgs : @AttestLaws (example_attesting msgs).
Proof.
  constructor; cbn [digest_256 block_to_bytes example_attesting].
  - apply example_hash_length.
  - intros h v p c v' p' c' Hv Hv' E. unfold example_voter_block in E. apply app_inv_head in E.
    by apply app_inj_1 in E as [E _]; [|congruence].
  - intros h v p c Hc. unfold example_voter_block. rewrite !length_app, !length_to_le.
    split; [lia|]. rewrite !app_assoc. rewrite drop_app_ge by (rewrite !length_app, length_to_le; lia).
    rewrite !length_app, length_to_le. by replace (_ - _)%nat with 0%nat by lia.
Qed.

Definition example_binding : ChainBinding := mkBinding 7 (zeros 32).
Definition example_draw : Draw := mkDraw 3 (zeros 32) true.
Definition example_shape (b : byte) : ProposalShape := mkShape (replicate 32 b) (zeros 32) 2 4 64 100.
(** It proposes, prevotes and precommits one value, crashes, and is made to try another. *)
Definition example_voting : list VoterEvent :=
  [SignFile (SignOpen true); PrevoteFile (PrevoteOpen true); ProposalFile (PrevoteOpen true);
   Proposes IoOk example_draw 0 (example_shape xaa); Stages 0 (replicate 32 xaa) None;
   Prevotes IoOk example_draw; Precommits IoOk example_draw; Stops;
   SignFile (SignOpen true); PrevoteFile (PrevoteOpen true); ProposalFile (PrevoteOpen true);
   Proposes IoOk example_draw 0 (example_shape xbb); Stages 0 (replicate 32 xbb) None;
   Prevotes IoOk example_draw; Precommits IoOk example_draw].
#[local] Notation example_start := (voter_start (fun _ => None) 5 None None None).
#[local] Notation example_run X := (foldl (@voter_step X example_binding 1000) example_start example_voting).
Definition example_messages : list (list byte) := Eval vm_compute in signed (example_run (example_attesting [])).
Definition example_signer : Attesting := example_attesting example_messages.
Definition example_accusation : PrevoteEquivocation :=
  mkPrevoteEquivocation (ascii "q1") 5 0
    (mkSignedPrevote 3 (zeros 32) (replicate 32 xaa) None (zeros 32))
    (mkSignedPrevote 3 (zeros 32) (replicate 32 xbb) None (zeros 32)).

Lemma example_voting_ok :
  @history_ok example_signer example_binding 1000 (fun _ => None) example_start example_voting.
Proof. vm_compute. repeat split; discriminate. Qed.
Lemma example_voting_signs : signed (example_run example_signer) = example_messages.
Proof. by vm_compute. Qed.
Lemma example_unforgeable : @unforgeable example_signer (zeros 32) (signed (example_run example_signer)).
Proof.
  rewrite example_voting_signs. intros msg [sig Hv]. unfold signed_by in Hv.
  apply andb_true_iff in Hv as [_ Hv]. by apply bool_decide_eq_true in Hv.
Qed.
Lemma example_prevote_valid b : SignedPrevote_valid (mkSignedPrevote 3 (zeros 32) (replicate 32 b) None (zeros 32)).
Proof. by split_and!. Qed.
Lemma example_accusation_valid : valid PrevoteEquivocation_codec example_accusation.
Proof. split_and!; [by vm_compute|done|done|apply example_prevote_valid..]. Qed.
Lemma example_separate :
  separates (@digest_256 example_signer) (hashed (example_run example_signer))
    [prevote_input (pe_height example_accusation) (pe_view example_accusation)
       (pv_value (pe_first example_accusation)) (pv_pol (pe_first example_accusation));
     prevote_input (pe_height example_accusation) (pe_view example_accusation)
       (pv_value (pe_second example_accusation)) (pv_pol (pe_second example_accusation))].
Proof. apply separates_check. by vm_compute. Qed.
Lemma example_cost : u64 1000 /\ 1000 <> VIEW_CHANGE_SUBJECT_COST /\ u64 5.
Proof. by vm_compute. Qed.
Lemma example_prevote_signed :
  @SignedPrevote_verifies example_signer (pe_first example_accusation) example_binding (zeros 32) 5 0 = true.
Proof. by vm_compute. Qed.


(** ** A validator that did sign twice *)

Definition example_blocks : list byte * list byte := (replicate 40 x01, replicate 40 x02).
Definition example_pk : list byte := replicate 32 x09.
(** The chain of the example has no genesis recorded: its hash reads as zeros. *)
Definition double_signer : Attesting :=
  example_attesting (map (fun b => attestation_message (mkBinding 5 (zeros 32)) 1 3 0 (zeros 32) b)
    [example_blocks.1; example_blocks.2]).
Definition example_proof : Equivocation :=
  mkEquivocation address_a 1 0 0 3 3 (zeros 32) (zeros 32) example_blocks.1 (zeros 32) example_blocks.2 (zeros 32).
Definition example_report : Wrapper :=
  mkWrapper (with_context address_b 0 0 0 (mkCall [] (to_bytes Equivocation_codec example_proof)) 0 5) 0 [].
Definition example_validators : Ledger :=
  (@set_validator_attest_key double_signer address_a example_pk example_genesis).2.

(** Its evidence is admitted and slashes it, once. *)
Example double_signer_is_slashed :
  let run := @dispatch_evidence double_signer 5 example_report in
  @evidence_admissible double_signer 5 example_report example_validators = true /\
  (run example_validators).1 = Done true /\
  is_validator_banned example_hash (run example_validators).2 address_a = true /\
  (run (run example_validators).2).1 = Done false.
Proof. by vm_compute. Qed.

(** The rule a node prevotes by lets it leave a lock for a polka of the lock's own view;
    evidence of that prevote, next to the precommit of the lock, convicts it.  The two
    rules differ at this one view. *)
Example lock_rules_differ :
  let locked := mkSignedPrecommit 4 3 (zeros 32) (replicate 32 xaa) None 1000 (zeros 32) in
  let later := mkSignedPrevote 3 (zeros 32) (replicate 32 xbb) (Some 4) (zeros 32) in
  let signer := example_attesting
    [attestation_message example_binding 5 3 4 (zeros 32) (example_voter_block 5 (replicate 32 xaa) None 1000);
     attestation_message example_binding 5 3 6 (zeros 32)
       (example_voter_block 5 (example_hash (prevote_input 5 6 (replicate 32 xbb) (Some 4))) None
          VIEW_CHANGE_SUBJECT_COST)] in
  lock_forbids (Some (mkVoteLock 4 None (replicate 32 xaa))) 6 (Some 4) = false /\
  @LockViolation_attributes signer (mkLockViolation (ascii "q1") 5 locked 6 later) example_binding (zeros 32) = true.
Proof. by vm_compute. Qed.
