(* ===== verification/Erasure.v ===== *)
(** * Erasure coding (qtv-net/src/erasure.rs)

    A block is spread over [n] shards so that any [k] of them give it back: the
    field of 256 elements with its logarithm tables, the systematic code built from
    a Vandermonde matrix, Gauss-Jordan inversion, and the Merkle tree that lets a
    receiver check one shard against the commitment.  A [u8] is a [byte]; rows and
    shards are lists, matrices lists of rows, of the sizes the code builds them with. *)

From S2P Require Import Prelude.

Definition MAX_SHARDS : nat := 256.

Inductive ErasureError : Type := Parameters | ShardSet | ShardLength | Singular.

(** ** The field *)

Definition bxor (a b : byte) : byte := byte_of (Z.lxor (byte_val a) (byte_val b)).
Definition bnat (a : byte) : nat := Z.to_nat (byte_val a).
Definition byte_at (xs : list byte) (i : nat) : byte := nth i xs x00.
Definition is_zero (a : byte) : bool := byte_val a =? 0.

Record Field : Type := mkField { exp : list byte; log : list byte }.

(** One round of the loop of [Field::build] on [exp], [log], [x] and [power]. *)
Definition build_round (s : list byte * list byte * Z * nat) : list byte * list byte * Z * nat :=
  let '(exp, log, x, power) := s in
  let exp := <[power := byte_of x]> exp in
  let log := <[Z.to_nat x := byte_of (Z.of_nat power)]> log in
  let x := wrap 16 (Z.shiftl x 1) in
  let x := if Z.land x 256 =? 0 then x else Z.lxor x 285 in
  (exp, log, x, S power).
(** [exp.copy_within(0..257, 255)] on the 512 entries. *)
Definition build : Field :=
  let '(exp, log, _, _) := Nat.iter 255 build_round (replicate 512 x00, replicate 256 x00, 1, 0%nat) in
  mkField (take 255 exp ++ take 257 exp) log.
Definition FIELD : Field := Eval vm_compute in build.

Definition gf_mul (a b : byte) : byte :=
  if is_zero a || is_zero b then x00
  else byte_at (exp FIELD) (bnat (byte_at (log FIELD) (bnat a)) + bnat (byte_at (log FIELD) (bnat b))).
Definition gf_inv (a : byte) : byte := byte_at (exp FIELD) (255 - bnat (byte_at (log FIELD) (bnat a))).

(** ** Rows and matrices *)

(** [for (slot, byte) in out.iter_mut().zip(bytes) { *slot ^= mul(coeff, byte) }]. *)
Fixpoint add_scaled (coeff : byte) (out bytes : list byte) : list byte :=
  match out, bytes with
  | o :: out, b :: bytes => bxor o (gf_mul coeff b) :: add_scaled coeff out bytes
  | out, _ => out
  end.

Definition combine (coeffs : list byte) (shards : list (list byte)) (shard_len : nat) : list byte :=
  foldl (fun out cs => if is_zero cs.1 then out else add_scaled cs.1 out cs.2)
    (replicate shard_len x00) (zip coeffs shards).
Definition row_times_matrix (row : list byte) (matrix : list (list byte)) (k : nat) : list byte :=
  foldl (fun out cr => if is_zero cr.1 then out else add_scaled cr.1 out cr.2)
    (replicate k x00) (zip row matrix).

(** The row [(1, alpha, alpha^2, ...)]. *)
Fixpoint powers (k : nat) (value alpha : byte) : list byte :=
  match k with O => [] | S k => value :: powers k (gf_mul value alpha) alpha end.
Definition vandermonde_row (point k : nat) : list byte := powers k x01 (byte_of (Z.of_nat point)).
Definition vandermonde (points : list nat) (k : nat) : list (list byte) := map (fun p => vandermonde_row p k) points.

Definition unit_row (k i : nat) : list byte := <[i := x01]> (replicate k x00).
Definition cell (matrix : list (list byte)) (r c : nat) : byte := byte_at (nth r matrix []) c.
Definition swap_rows (matrix : list (list byte)) (i j : nat) : list (list byte) :=
  <[i := nth j matrix []]> (<[j := nth i matrix []]> matrix).
Definition scale_row (scale : byte) (row : list byte) : list byte := map (fun v => gf_mul v scale) row.

(** What one column of [invert] does to row [row]: nothing to the pivot row, and the
    pivot row times [factor] added to every other. *)
Definition eliminate (factors : list byte) (col : nat) (matrix : list (list byte)) : list (list byte) :=
  imap (fun row r => if (row =? col)%nat then r
    else let factor := byte_at factors row in
         if is_zero factor then r else add_scaled factor r (nth col matrix [])) matrix.
Definition column (matrix : list (list byte)) (c : nat) : list byte := map (fun r => byte_at r c) matrix.

Definition invert_column (k col : nat) (mi : list (list byte) * list (list byte)) :
    Result ErasureError (list (list byte) * list (list byte)) :=
  let '(matrix, inverse) := mi in
  match find (fun r => negb (is_zero (cell matrix r col))) (seq col (k - col)) with
  | None => Err Singular
  | Some pivot =>
      let matrix := swap_rows matrix col pivot in
      let inverse := swap_rows inverse col pivot in
      let scale := gf_inv (cell matrix col col) in
      let matrix := <[col := scale_row scale (nth col matrix [])]> matrix in
      let inverse := <[col := scale_row scale (nth col inverse [])]> inverse in
      let factors := column matrix col in
      Ok (eliminate factors col matrix, eliminate factors col inverse)
  end.
Fixpoint invert_loop (k : nat) (cols : list nat) (mi : list (list byte) * list (list byte)) :
    Result ErasureError (list (list byte) * list (list byte)) :=
  match cols with
  | [] => Ok mi
  | col :: cols => match invert_column k col mi with Ok mi => invert_loop k cols mi | Err e => Err e end
  end.
Definition invert (matrix : list (list byte)) (k : nat) : Result ErasureError (list (list byte)) :=
  match invert_loop k (seq 0 k) (matrix, map (unit_row k) (seq 0 k)) with
  | Ok (_, inverse) => Ok inverse
  | Err e => Err e
  end.

Definition parity_coefficients (k n : nat) : Result ErasureError (list (list byte)) :=
  match invert (vandermonde (seq 0 k) k) k with
  | Err e => Err e
  | Ok top_inverse => Ok (map (fun index => row_times_matrix (vandermonde_row index k) top_inverse k) (seq k (n - k)))
  end.
Definition decode_matrix (indices : list nat) (n k : nat) : Result ErasureError (list (list byte)) :=
  match invert (vandermonde (seq 0 k) k) k with
  | Err e => Err e
  | Ok top_inverse => Ok (map (fun index =>
      if (index <? k)%nat then unit_row k index
      else row_times_matrix (vandermonde_row index k) top_inverse k) indices)
  end.

(** ** Work on several cores *)

Definition PARALLEL_WORK : Z := 2 ^ 20.
(** [items.chunks(chunk)]. *)
Fixpoint chunks_of {A} (fuel chunk : nat) (items : list A) : list (list A) :=
  match fuel with
  | O => []
  | S fuel => match items with [] => [] | _ => take chunk items :: chunks_of fuel chunk (drop chunk items) end
  end.
(** [cores] is [available_parallelism], or 1; the parts are joined in order. *)
Definition map_ordered {T R} (cores : nat) (items : list T) (work : Z) (f : T -> R) : list R :=
  let cores := Nat.min cores (length items) in
  if (cores <=? 1)%nat || (work <? PARALLEL_WORK) then map f items
  else
    let chunk := ((length items + cores - 1) / cores)%nat in
    concat (map (map f) (chunks_of (length items) chunk items)).

(** ** The tree *)

Record Shard : Type := mkShard { index : nat; shard_bytes : list byte }.
Record ShardProof : Type := mkShardProof { siblings : list (list byte) }.
Record Commitment : Type := mkCommitment {
  commitment_root : list byte;
  ck : nat;
  cn : nat;
  shard_len_of : nat;
  data_len : nat
}.
Record Coded : Type := mkCoded {
  commitment : Commitment;
  shards : list Shard;
  tree : list (list (list byte))
}.

Section Tree.
Context (sha3_256 : list byte -> list byte) (cores : nat).

Definition LEAF_TAG : byte := x00.
Definition NODE_TAG : byte := x01.
Definition ROOT_TAG : byte := x02.
Definition ODD_TAG : byte := x03.

Definition leaf_input (shard_len : nat) (bytes : list byte) : list byte :=
  LEAF_TAG :: to_le 8 (Z.of_nat shard_len) ++ bytes.
Definition pair_input (left right : list byte) : list byte := NODE_TAG :: left ++ right.
Definition odd_input (node : list byte) : list byte := ODD_TAG :: node.
Definition root_input (tree_root : list byte) (k n shard_len data_len : nat) : list byte :=
  ROOT_TAG :: tree_root ++ to_le 8 (Z.of_nat k) ++ to_le 8 (Z.of_nat n) ++ to_le 8 (Z.of_nat shard_len) ++
    to_le 8 (Z.of_nat data_len).
Definition leaf_hash (shard_len : nat) (bytes : list byte) : list byte := sha3_256 (leaf_input shard_len bytes).
Definition pair_hash (left right : list byte) : list byte := sha3_256 (pair_input left right).
Definition odd_hash (node : list byte) : list byte := sha3_256 (odd_input node).
Definition root_hash (tree_root : list byte) (k n shard_len data_len : nat) : list byte :=
  sha3_256 (root_input tree_root k n shard_len data_len).

(** One level of the tree above another. *)
Fixpoint next_level (level : list (list byte)) : list (list byte) :=
  match level with
  | l :: r :: level => pair_hash l r :: next_level level
  | [l] => [odd_hash l]
  | [] => []
  end.
Fixpoint tree_loop (fuel : nat) (level : list (list byte)) : list (list (list byte)) :=
  match fuel with
  | O => [level]
  | S fuel => if (length level <=? 1)%nat then [level] else level :: tree_loop fuel (next_level level)
  end.
Definition merkle_tree (leaves : list (list byte)) : list (list (list byte)) := tree_loop (length leaves) leaves.

Fixpoint proof_loop (levels : list (list (list byte))) (pos : nat) : list (list byte) :=
  match levels with
  | [] => []
  | level :: levels =>
      if (length level <=? 1)%nat then []
      else if (pos + 1 =? length level)%nat && Nat.even pos then proof_loop levels (pos / 2)
      else nth (if Nat.even pos then pos + 1 else pos - 1) level [] :: proof_loop levels (pos / 2)
  end.
Definition Coded_proof (c : Coded) (i : nat) : option ShardProof :=
  if (length (shards c) <=? i)%nat then None else Some (mkShardProof (proof_loop (tree c) i)).
Definition Coded_shard (c : Coded) (i : nat) : option Shard := shards c !! i.

(** The climb of [verify_shard]: the node reached and the siblings left over, or
    [None] when they run out.  [fuel] bounds the halvings of [width]. *)
Fixpoint climb (fuel : nat) (node : list byte) (index width : nat) (sibs : list (list byte)) :
    option (list byte * list (list byte)) :=
  match fuel with
  | O => Some (node, sibs)
  | S fuel =>
      if (width <=? 1)%nat then Some (node, sibs)
      else if negb (Nat.even width) && (index =? width - 1)%nat then
        climb fuel (odd_hash node) (index / 2) ((width + 1) / 2) sibs
      else match sibs with
      | [] => None
      | sibling :: sibs =>
          let node := if Nat.even index then pair_hash node sibling else pair_hash sibling node in
          climb fuel node (index / 2) ((width + 1) / 2) sibs
      end
  end.

Definition verify_shard (c : Commitment) (s : Shard) (p : ShardProof) : bool :=
  if (ck c =? 0)%nat || (cn c <? ck c)%nat || (MAX_SHARDS <? cn c)%nat || (cn c <=? index s)%nat ||
     negb (length (shard_bytes s) =? shard_len_of c)%nat then false
  else match climb (cn c) (leaf_hash (shard_len_of c) (shard_bytes s)) (index s) (cn c) (siblings p) with
  | Some (node, []) => bool_decide (root_hash node (ck c) (cn c) (shard_len_of c) (data_len c) = commitment_root c)
  | _ => false
  end.

(** ** Encoding and reconstruction *)

Definition out_of_range (k n : nat) : bool := (k =? 0)%nat || (n <? k)%nat || (MAX_SHARDS <? n)%nat.
Definition shard_length (data : list byte) (k : nat) : nat := Nat.max ((length data + k - 1) / k) 1.
Definition piece (data : list byte) (shard_len i : nat) : list byte :=
  let start := (i * shard_len)%nat in
  if (start <? length data)%nat then
    let part := take (Nat.min (start + shard_len) (length data) - start) (drop start data) in
    part ++ replicate (shard_len - length part) x00
  else replicate shard_len x00.

Definition encode (data : list byte) (k n : nat) : Result ErasureError Coded :=
  if out_of_range k n then Err Parameters
  else
    let shard_len := shard_length data k in
    let pieces := map (piece data shard_len) (seq 0 k) in
    match parity_coefficients k n with
    | Err e => Err e
    | Ok parity =>
        let work := saturating_mul 64 (Z.of_nat k) (Z.of_nat shard_len) in
        let parity_shards := map_ordered cores parity (saturating_mul 64 work (len parity))
          (fun coeffs => combine coeffs pieces shard_len) in
        let bytes := pieces ++ parity_shards in
        let leaves := map_ordered cores bytes (saturating_mul 64 (Z.of_nat shard_len) (len bytes))
          (leaf_hash shard_len) in
        let tree := merkle_tree leaves in
        let root := root_hash (nth 0 (List.last tree []) []) k n shard_len (length data) in
        Ok (mkCoded (mkCommitment root k n shard_len (length data)) (imap mkShard bytes) tree)
    end.

(** The first [k] shards, all checked on the way. *)
Fixpoint take_shards (c : Commitment) (todo : list Shard) (indices : list nat) (rows : list (list byte)) :
    Result ErasureError (list nat * list (list byte)) :=
  match todo with
  | [] => Ok (indices, rows)
  | s :: todo =>
      if (length indices =? ck c)%nat then Ok (indices, rows)
      else if (cn c <=? index s)%nat || bool_decide (index s ∈ indices) then Err ShardSet
      else if negb (length (shard_bytes s) =? shard_len_of c)%nat then Err ShardLength
      else take_shards c todo (indices ++ [index s]) (rows ++ [shard_bytes s])
  end.

Definition reconstruct (c : Commitment) (given : list Shard) : Result ErasureError (list byte) :=
  if out_of_range (ck c) (cn c) then Err Parameters
  else
    let k := ck c in
    match take_shards c given [] [] with
    | Err e => Err e
    | Ok (indices, rows) =>
        if (length indices <? k)%nat then Err ShardSet
        else match decode_matrix indices (cn c) k with
        | Err e => Err e
        | Ok matrix =>
            match invert matrix k with
            | Err e => Err e
            | Ok inverse =>
                let shard_len := shard_len_of c in
                let out_rows := take (Nat.min k (length inverse)) inverse in
                let work := saturating_mul 64 (saturating_mul 64 (Z.of_nat k) (Z.of_nat k)) (Z.of_nat shard_len) in
                let pieces := map_ordered cores out_rows work (fun out_row => combine out_row rows shard_len) in
                Ok (take (data_len c) (concat pieces))
            end
        end
    end.
End Tree.

(** A first run of the code: four pieces, seven shards, four of which give the data. *)
Example erasure_runs :
  let data := map byte_of [1; 2; 3; 4; 5; 6; 7; 8; 9] in
  match encode example_hash 1 data 4 7 with
  | Ok c =>
      reconstruct 1 (commitment c) (map (fun i => nth i (shards c) (mkShard 0 [])) [6; 1; 5; 4]%nat) = Ok data
  | Err _ => False
  end.
Proof. vm_compute. reflexivity. Qed.
