(* ===== verification/ErasureField.v ===== *)
(** * The field of 256 elements

    The tables of [Erasure] make a field: the laws are reduced to checks over the 256
    elements, or over pairs, that evaluate.  On top of it vectors, linear
    combinations and scalar products of rows of bytes. *)

From S2P Require Import Prelude Erasure.

(** ** All bytes *)

Definition all_bytes : list byte := map (fun i => byte_of (Z.of_nat i)) (seq 0 256).

Lemma all_bytes_complete a : a ∈ all_bytes.
Proof.
  unfold all_bytes. apply list_elem_of_In, in_map_iff. exists (bnat a). pose proof (byte_val_range a).
  unfold bnat. split; [|apply in_seq; lia]. rewrite Z2Nat.id by lia. apply byte_of_val.
Qed.

Lemma check_bytes (f : byte -> bool) : forallb f all_bytes = true -> forall a, f a = true.
Proof. intros H a. rewrite forallb_forall in H. apply H, list_elem_of_In, all_bytes_complete. Qed.

Lemma check_pairs (f : byte -> byte -> bool) :
  forallb (fun a => forallb (f a) all_bytes) all_bytes = true -> forall a b, f a b = true.
Proof. intros H a b. by apply check_bytes, (check_bytes (fun a => forallb (f a) all_bytes)). Qed.

Lemma check_eq (f g : byte -> byte) :
  forallb (fun a => bool_decide (f a = g a)) all_bytes = true -> forall a, f a = g a.
Proof. intros H a. by apply (check_bytes (fun a => bool_decide (f a = g a))) with (a := a), bool_decide_eq_true in H. Qed.

Lemma check_eq2 (f g : byte -> byte -> byte) :
  forallb (fun a => forallb (fun b => bool_decide (f a b = g a b)) all_bytes) all_bytes = true ->
  forall a b, f a b = g a b.
Proof.
  intros H a b. pose proof (check_pairs (fun a b => bool_decide (f a b = g a b)) H a b) as E.
  by apply bool_decide_eq_true in E.
Qed.

Lemma is_zero_spec a : is_zero a = true <-> a = x00.
Proof.
  unfold is_zero. rewrite Z.eqb_eq. split; [|by intros ->]. intros H. apply byte_val_inj. by rewrite H.
Qed.
Lemma is_zero_false a : is_zero a = false <-> a <> x00.
Proof. rewrite <- is_zero_spec. by destruct (is_zero a). Qed.

(** ** Addition *)

Lemma byte_val_bxor a b : byte_val (bxor a b) = Z.lxor (byte_val a) (byte_val b).
Proof.
  unfold bxor. apply byte_val_of_small. pose proof (byte_val_range a). pose proof (byte_val_range b).
  apply (in_width_lxor 8); unfold in_width; lia.
Qed.

Lemma bxor_comm a b : bxor a b = bxor b a.
Proof. apply byte_val_inj. by rewrite !byte_val_bxor, Z.lxor_comm. Qed.
Lemma bxor_assoc a b c : bxor a (bxor b c) = bxor (bxor a b) c.
Proof. apply byte_val_inj. by rewrite !byte_val_bxor, Z.lxor_assoc. Qed.
Lemma bxor_0_l a : bxor x00 a = a.
Proof. apply byte_val_inj. rewrite byte_val_bxor. apply Z.lxor_0_l. Qed.
Lemma bxor_0_r a : bxor a x00 = a.
Proof. by rewrite bxor_comm, bxor_0_l. Qed.
Lemma bxor_self a : bxor a a = x00.
Proof. apply byte_val_inj. rewrite byte_val_bxor. apply Z.lxor_nilpotent. Qed.
Lemma bxor_eq_0 a b : bxor a b = x00 <-> a = b.
Proof.
  split; [|intros ->; apply bxor_self]. intros H.
  by rewrite <- (bxor_0_r a), <- (bxor_self b), bxor_assoc, H, bxor_0_l.
Qed.
Lemma bxor_swap a b c d : bxor (bxor a b) (bxor c d) = bxor (bxor a c) (bxor b d).
Proof. by rewrite <- !bxor_assoc, (bxor_assoc b c), (bxor_comm b c), <- bxor_assoc. Qed.

(** ** Multiplication *)

Definition gexp (i : nat) : byte := byte_at (exp FIELD) i.
Definition glog (a : byte) : nat := bnat (byte_at (log FIELD) (bnat a)).

Lemma glog_spec a : a <> x00 -> (glog a < 255)%nat /\ gexp (glog a) = a.
Proof.
  pose proof (check_bytes (fun a => is_zero a || ((glog a <? 255)%nat && bool_decide (gexp (glog a) = a)))) as H.
  specialize (H ltac:(vm_compute; reflexivity) a). cbv beta in H.
  rewrite orb_true_iff, is_zero_spec, andb_true_iff, Nat.ltb_lt, bool_decide_eq_true in H. tauto.
Qed.

Lemma gexp_spec i : (i < 255)%nat -> gexp i <> x00 /\ glog (gexp i) = i.
Proof.
  intros Hi. assert (H : forallb (fun i => negb (is_zero (gexp i)) && (glog (gexp i) =? i)%nat) (seq 0 255) = true)
    by (vm_compute; reflexivity).
  rewrite forallb_forall in H. specialize (H i ltac:(apply in_seq; lia)).
  rewrite andb_true_iff, negb_true_iff, is_zero_false, Nat.eqb_eq in H. done.
Qed.

Lemma gexp_mod i : (i < 509)%nat -> gexp i = gexp (i mod 255).
Proof.
  intros Hi. assert (H : forallb (fun i => bool_decide (gexp i = gexp (i mod 255))) (seq 0 509) = true)
    by (vm_compute; reflexivity).
  rewrite forallb_forall in H. specialize (H i ltac:(apply in_seq; lia)). by apply bool_decide_eq_true in H.
Qed.

Lemma gf_mul_0_l a : gf_mul x00 a = x00.
Proof. done. Qed.
Lemma gf_mul_0_r a : gf_mul a x00 = x00.
Proof. unfold gf_mul. by rewrite orb_true_r. Qed.

Lemma gf_mul_exp a b : a <> x00 -> b <> x00 -> gf_mul a b = gexp ((glog a + glog b) mod 255).
Proof.
  intros Ha Hb. unfold gf_mul. rewrite (proj2 (is_zero_false a) Ha), (proj2 (is_zero_false b) Hb). cbn [orb].
  pose proof (proj1 (glog_spec a Ha)). pose proof (proj1 (glog_spec b Hb)). apply gexp_mod. unfold glog in *. lia.
Qed.

Lemma mod_255 i : (i mod 255 < 255)%nat.
Proof. by apply Nat.mod_upper_bound. Qed.

Lemma gf_mul_nonzero a b : a <> x00 -> b <> x00 -> gf_mul a b <> x00.
Proof. intros Ha Hb. rewrite gf_mul_exp by done. apply gexp_spec, mod_255. Qed.

Lemma gf_mul_comm a b : gf_mul a b = gf_mul b a.
Proof.
  destruct (decide (a = x00)) as [->|Ha]; [by rewrite gf_mul_0_r|].
  destruct (decide (b = x00)) as [->|Hb]; [by rewrite gf_mul_0_r|].
  by rewrite !gf_mul_exp, (Nat.add_comm (glog a)) by done.
Qed.

Lemma gf_mul_assoc a b c : gf_mul a (gf_mul b c) = gf_mul (gf_mul a b) c.
Proof.
  destruct (decide (a = x00)) as [->|Ha]; [done|].
  destruct (decide (b = x00)) as [->|Hb]; [by rewrite (gf_mul_0_l c), !(gf_mul_0_r a), (gf_mul_0_l c)|].
  destruct (decide (c = x00)) as [->|Hc]; [by rewrite (gf_mul_0_r b), (gf_mul_0_r a), (gf_mul_0_r (gf_mul a b))|].
  rewrite (gf_mul_exp a (gf_mul b c)), (gf_mul_exp (gf_mul a b) c) by (done || by apply gf_mul_nonzero).
  rewrite !(gf_mul_exp b c), !(gf_mul_exp a b) by done.
  rewrite !(proj2 (gexp_spec _ (mod_255 _))). f_equal.
  rewrite Nat.Div0.add_mod_idemp_r, Nat.Div0.add_mod_idemp_l. f_equal. lia.
Qed.

Lemma gf_mul_1_l a : gf_mul x01 a = a.
Proof. apply (check_eq (gf_mul x01) (fun a => a)). vm_compute. reflexivity. Qed.
Lemma gf_mul_1_r a : gf_mul a x01 = a.
Proof. by rewrite gf_mul_comm, gf_mul_1_l. Qed.

Lemma gf_inv_r a : a <> x00 -> gf_mul a (gf_inv a) = x01.
Proof.
  intros Ha. apply is_zero_false in Ha.
  pose proof (check_eq (fun a => if is_zero a then x01 else gf_mul a (gf_inv a)) (fun _ => x01)) as H.
  specialize (H ltac:(vm_compute; reflexivity) a). cbv beta in H. by rewrite Ha in H.
Qed.

(** Multiplication is linear: the product is the sum over the bits of the second factor. *)
Definition bit_term (a b : byte) (i : nat) : byte :=
  if Z.testbit (byte_val b) (Z.of_nat i) then gf_mul a (byte_of (2 ^ Z.of_nat i)) else x00.
Definition by_bits (a b : byte) : byte := foldr (fun i acc => bxor (bit_term a b i) acc) x00 (seq 0 8).

Lemma gf_mul_by_bits a b : gf_mul a b = by_bits a b.
Proof. apply check_eq2. vm_compute. reflexivity. Qed.

Lemma bit_term_bxor a b c i : bit_term a (bxor b c) i = bxor (bit_term a b i) (bit_term a c i).
Proof.
  unfold bit_term. rewrite byte_val_bxor, Z.lxor_spec.
  destruct (Z.testbit _ _), (Z.testbit _ _); cbn [xorb];
    by rewrite ?bxor_self, ?bxor_0_l, ?bxor_0_r.
Qed.

Lemma gf_mul_bxor_r a b c : gf_mul a (bxor b c) = bxor (gf_mul a b) (gf_mul a c).
Proof.
  rewrite !gf_mul_by_bits. unfold by_bits. induction (seq 0 8) as [|i l IH]; [done|]. cbn [foldr].
  by rewrite bit_term_bxor, IH, bxor_swap.
Qed.
Lemma gf_mul_bxor_l a b c : gf_mul (bxor a b) c = bxor (gf_mul a c) (gf_mul b c).
Proof. by rewrite !(gf_mul_comm _ c), gf_mul_bxor_r. Qed.


(** ** Vectors *)

Fixpoint vadd (u v : list byte) : list byte :=
  match u, v with a :: u, b :: v => bxor a b :: vadd u v | _, _ => [] end.
Fixpoint vscale (c : byte) (v : list byte) : list byte :=
  match v with [] => [] | a :: v => gf_mul c a :: vscale c v end.
(** The linear combination of the [rows], of width [w], with the coefficients [cs]. *)
Fixpoint lc (w : nat) (cs : list byte) (rows : list (list byte)) : list byte :=
  match cs, rows with
  | c :: cs, r :: rows => vadd (vscale c r) (lc w cs rows)
  | _, _ => zeros w
  end.
Fixpoint dot (u v : list byte) : byte :=
  match u, v with
  | a :: u, b :: v => bxor (gf_mul a b) (dot u v)
  | _, _ => x00
  end.
(** All [rows] have width [w]. *)
Definition wide (w : nat) (rows : list (list byte)) : Prop := Forall (fun r => length r = w) rows.

#[global] Opaque gf_mul gf_inv bxor.

Lemma length_vadd u v : length (vadd u v) = Nat.min (length u) (length v).
Proof. revert v. induction u as [|a u IH]; intros [|b v]; cbn; by rewrite ?IH. Qed.
Lemma length_vscale c v : length (vscale c v) = length v.
Proof. induction v; cbn; by f_equal. Qed.
Lemma length_lc w cs rows : wide w rows -> length (lc w cs rows) = w.
Proof.
  intros H. revert cs. induction H as [|r rows Hr _ IH]; intros [|c cs]; cbn [lc]; try apply length_zeros.
  rewrite length_vadd, length_vscale, IH. lia.
Qed.

Lemma vadd_comm u v : vadd u v = vadd v u.
Proof. revert v. induction u as [|a u IH]; intros [|b v]; [done..|]. cbn. f_equal; [apply bxor_comm|apply IH]. Qed.
Lemma vadd_assoc u v w : vadd u (vadd v w) = vadd (vadd u v) w.
Proof.
  revert v w. induction u as [|a u IH]; intros [|b v] [|c w]; [done..|]. cbn. f_equal; [apply bxor_assoc|apply IH].
Qed.
Lemma vadd_zeros_r u w : length u = w -> vadd u (zeros w) = u.
Proof. intros <-. induction u as [|a u IH]; [done|]. cbn. f_equal; [apply bxor_0_r|apply IH]. Qed.
Lemma vadd_swap a b c d : vadd (vadd a b) (vadd c d) = vadd (vadd a c) (vadd b d).
Proof. by rewrite <- !vadd_assoc, (vadd_assoc b c), (vadd_comm b c), <- vadd_assoc. Qed.
Lemma vscale_vadd c u v : vscale c (vadd u v) = vadd (vscale c u) (vscale c v).
Proof. revert v. induction u as [|a u IH]; intros [|b v]; [done..|]. cbn. f_equal; [apply gf_mul_bxor_r|apply IH]. Qed.
Lemma vscale_bxor a b v : vscale (bxor a b) v = vadd (vscale a v) (vscale b v).
Proof. induction v as [|c v IH]; [done|]. cbn. f_equal; [apply gf_mul_bxor_l|apply IH]. Qed.
Lemma vscale_mul a b v : vscale (gf_mul a b) v = vscale a (vscale b v).
Proof. induction v as [|c v IH]; [done|]. cbn. f_equal; [by rewrite gf_mul_assoc|apply IH]. Qed.
Lemma vscale_0 v w : length v = w -> vscale x00 v = zeros w.
Proof. intros <-. induction v as [|a v IH]; [done|]. cbn. rewrite gf_mul_0_l. f_equal. apply IH. Qed.
Lemma vscale_1 v : vscale x01 v = v.
Proof. induction v as [|a v IH]; [done|]. cbn. f_equal; [apply gf_mul_1_l|apply IH]. Qed.
Lemma vscale_zeros c w : vscale c (zeros w) = zeros w.
Proof. induction w as [|w IH]; [done|]. cbn. rewrite gf_mul_0_r. f_equal. apply IH. Qed.
Lemma scale_row_eq s v : scale_row s v = vscale s v.
Proof. induction v as [|a v IH]; [done|]. cbn. f_equal; [apply gf_mul_comm|apply IH]. Qed.

(** ** Linear combinations *)

Lemma lc_zeros w k rows : wide w rows -> lc w (zeros k) rows = zeros w.
Proof.
  intros H. revert k. induction H as [|r rows Hr _ IH]; intros [|k]; [done..|].
  cbn [zeros replicate lc]. fold (zeros k). rewrite IH, (vscale_0 r w Hr). apply vadd_zeros_r, length_zeros.
Qed.
Lemma lc_vadd w u v rows : length u = length v -> lc w (vadd u v) rows = vadd (lc w u rows) (lc w v rows).
Proof.
  assert (Z : zeros w = vadd (zeros w) (zeros w)) by (symmetry; apply vadd_zeros_r, length_zeros).
  revert v rows. induction u as [|a u IH]; intros [|b v] [|r rows]; try done. cbn. intros [= E].
  rewrite IH by done. rewrite vscale_bxor. apply vadd_swap.
Qed.
Lemma lc_vscale w c u rows : lc w (vscale c u) rows = vscale c (lc w u rows).
Proof.
  revert rows. induction u as [|a u IH]; intros [|r rows]; cbn [vscale lc]; rewrite ?vscale_zeros; try done.
  by rewrite IH, vscale_vadd, vscale_mul.
Qed.
(** Combining combinations is combining with the combined coefficients. *)
Lemma lc_lc w v r m p :
  wide w m -> wide v p -> lc v (lc w r m) p = lc v r (map (fun row => lc v row p) m).
Proof.
  intros Hm Hp. revert r. induction Hm as [|row m Hrow Hm IH]; intros [|c r]; cbn [lc map]; try by apply lc_zeros.
  rewrite lc_vadd by (rewrite length_vscale, length_lc; done). by rewrite lc_vscale, IH.
Qed.

Lemma dot_zeros_l w v : dot (zeros w) v = x00.
Proof. revert v. induction w as [|w IH]; intros [|b v]; [done..|]. change (zeros (S w)) with (x00 :: zeros w). cbn [dot]. by rewrite gf_mul_0_l, bxor_0_l, IH. Qed.
Lemma dot_zeros_r u w : dot u (zeros w) = x00.
Proof. revert w. induction u as [|a u IH]; intros [|w]; [done..|]. change (zeros (S w)) with (x00 :: zeros w). cbn [dot]. by rewrite gf_mul_0_r, bxor_0_l, IH. Qed.
Lemma dot_vadd_l u v c : length u = length v -> dot (vadd u v) c = bxor (dot u c) (dot v c).
Proof.
  revert v c. induction u as [|a u IH]; intros [|b v] [|d c]; try done. cbn. intros [= E].
  rewrite IH by done. by rewrite gf_mul_bxor_l, bxor_swap.
Qed.
Lemma dot_vscale_l s u c : dot (vscale s u) c = gf_mul s (dot u c).
Proof.
  revert c. induction u as [|a u IH]; intros [|d c]; cbn; try by rewrite gf_mul_0_r.
  by rewrite IH, gf_mul_bxor_r, gf_mul_assoc.
Qed.
Lemma dot_lc w r m c : wide w m -> dot (lc w r m) c = dot r (map (fun row => dot row c) m).
Proof.
  intros Hm. revert r. induction Hm as [|row m Hrow Hm IH]; intros [|a r]; cbn [lc map dot]; try apply dot_zeros_l.
  rewrite dot_vadd_l by (rewrite length_vscale, length_lc; done). by rewrite dot_vscale_l, IH.
Qed.

(** ** The code's loops *)

Lemma add_scaled_eq c out bytes : length out = length bytes -> add_scaled c out bytes = vadd out (vscale c bytes).
Proof.
  revert bytes. induction out as [|o out IH]; intros [|b bytes]; try done. cbn. intros [= E]. f_equal. by apply IH.
Qed.

Lemma fold_rows w cs rows out : wide w rows -> length out = w ->
  foldl (fun out cs => if is_zero cs.1 then out else add_scaled cs.1 out cs.2) out (zip cs rows)
    = vadd out (lc w cs rows).
Proof.
  intros H. revert cs out. induction H as [|r rows Hr H IH]; intros [|c cs] out Ho; cbn [zip zip_with foldl lc];
    try by rewrite vadd_zeros_r. cbn [fst snd].
  assert (E : (if is_zero c then out else add_scaled c out r) = vadd out (vscale c r)).
  { destruct (is_zero c) eqn:Ec; [|apply add_scaled_eq; lia]. apply is_zero_spec in Ec as ->.
    by rewrite (vscale_0 r w), vadd_zeros_r. }
  rewrite E, IH by (rewrite ?length_vadd, ?length_vscale; lia || done). by rewrite vadd_assoc.
Qed.
Lemma combine_eq cs rows w : wide w rows -> combine cs rows w = lc w cs rows.
Proof.
  intros H. unfold combine. fold (zeros w). rewrite (fold_rows w), vadd_comm by (done || apply length_zeros).
  by apply vadd_zeros_r, length_lc.
Qed.
Lemma row_times_matrix_eq row m k : wide k m -> row_times_matrix row m k = lc k row m.
Proof. apply combine_eq. Qed.

(** ** Unit rows *)

Lemma length_unit_row k i : length (unit_row k i) = k.
Proof. unfold unit_row. by rewrite length_insert, length_replicate. Qed.
Lemma lc_unit_row w k i rows : wide w rows -> (i < k)%nat -> length rows = k ->
  lc w (unit_row k i) rows = nth i rows [].
Proof.
  intros H. revert k i. induction H as [|r rows Hr H IH]; intros [|k] [|i] Hi Hk; cbn in Hk; try lia.
  - change (unit_row (S k) 0) with (x01 :: zeros k). cbn [lc nth]. rewrite lc_zeros, vscale_1 by done. by apply vadd_zeros_r.
  - change (unit_row (S k) (S i)) with (x00 :: unit_row k i). cbn [lc nth]. rewrite IH by lia. rewrite (vscale_0 r w Hr), vadd_comm.
    apply vadd_zeros_r. unfold wide in H. rewrite Forall_forall in H. apply H, list_elem_of_In, nth_In. lia.
Qed.
Lemma byte_at_unit_row k i j : (i < k)%nat -> (j < k)%nat ->
  byte_at (unit_row k i) j = if (i =? j)%nat then x01 else x00.
Proof.
  unfold byte_at, unit_row. intros Hi Hj. rewrite nth_lookup. destruct (i =? j)%nat eqn:E.
  - apply Nat.eqb_eq in E as ->. by rewrite list_lookup_insert_eq by (rewrite length_replicate; lia).
  - apply Nat.eqb_neq in E. by rewrite list_lookup_insert_ne, lookup_replicate_2 by done.
Qed.
Lemma dot_unit_row k i c : (i < k)%nat -> length c = k -> dot (unit_row k i) c = byte_at c i.
Proof.
  revert i c. induction k as [|k IH]; intros [|i] [|a c] Hi Hk; cbn in Hk; try lia.
  - change (unit_row (S k) 0) with (x01 :: zeros k). cbn [dot]. by rewrite dot_zeros_l, gf_mul_1_l, bxor_0_r.
  - change (unit_row (S k) (S i)) with (x00 :: unit_row k i). cbn [dot]. rewrite IH by lia. by rewrite gf_mul_0_l, bxor_0_l.
Qed.
