(* ===== verification/ErasureCorrect.v ===== *)
(** * The code corrects erasures

    Gauss-Jordan elimination ([invert]) returns an inverse of every matrix whose
    kernel is trivial, and Vandermonde matrices over distinct points have one: a
    polynomial with as many roots as coefficients is zero.  So neither the encoder nor
    the decoder can end in [Singular], and decoding undoes encoding on the rows. *)

From S2P Require Import Prelude Erasure ErasureField.

(** ** One column of the elimination *)

(** What [invert_column] does to the rows of either matrix. *)
Definition row_step (col pivot : nat) (scale : byte) (factors : list byte) (rows : list (list byte)) : list (list byte) :=
  let rows := swap_rows rows col pivot in
  eliminate factors col (<[col := scale_row scale (nth col rows [])]> rows).

Lemma invert_column_step k col m i :
  invert_column k col (m, i) =
    match find (fun r => negb (is_zero (cell m r col))) (seq col (k - col)) with
    | None => Err Singular
    | Some pivot =>
        let sw := swap_rows m col pivot in
        let scale := gf_inv (cell sw col col) in
        let factors := column (<[col := scale_row scale (nth col sw [])]> sw) col in
        Ok (row_step col pivot scale factors m, row_step col pivot scale factors i)
    end.
Proof. done. Qed.

(** The row that [swap] puts at place [i]. *)
Definition swapped (col pivot i : nat) : nat :=
  if (i =? col)%nat then pivot else if (i =? pivot)%nat then col else i.

Lemma nth_insert {A} (l : list A) i j x d :
  (i < length l)%nat -> nth j (<[i := x]> l) d = if (j =? i)%nat then x else nth j l d.
Proof.
  intros Hi. rewrite !nth_lookup. destruct (j =? i)%nat eqn:E.
  - apply Nat.eqb_eq in E as ->. by rewrite list_lookup_insert_eq.
  - apply Nat.eqb_neq in E. by rewrite list_lookup_insert_ne.
Qed.
Lemma nth_swap rows col pivot i : (col < length rows)%nat -> (pivot < length rows)%nat ->
  nth i (swap_rows rows col pivot) [] = nth (swapped col pivot i) rows [].
Proof.
  intros Hc Hp. unfold swap_rows, swapped. rewrite nth_insert by (rewrite length_insert; lia).
  destruct (i =? col)%nat; [done|]. rewrite nth_insert by done. by destruct (i =? pivot)%nat.
Qed.
Lemma length_swap rows col pivot : length (swap_rows rows col pivot) = length rows.
Proof. unfold swap_rows. by rewrite !length_insert. Qed.
Lemma length_row_step col pivot s fs rows : length (row_step col pivot s fs rows) = length rows.
Proof. unfold row_step, eliminate. by rewrite length_imap, length_insert, length_swap. Qed.

Lemma nth_imap {A} (f : nat -> A -> A) (l : list A) i d : (i < length l)%nat -> nth i (imap f l) d = f i (nth i l d).
Proof.
  intros Hi. rewrite !nth_lookup, list_lookup_imap.
  destruct (lookup_lt_is_Some_2 l i Hi) as [x ->]. done.
Qed.

Lemma wide_nth w rows i : wide w rows -> (i < length rows)%nat -> length (nth i rows []) = w.
Proof. unfold wide. intros H Hi. rewrite Forall_forall in H. apply H, list_elem_of_In, nth_In. done. Qed.
Lemma wide_of_nth w rows : (forall i, (i < length rows)%nat -> length (nth i rows []) = w) -> wide w rows.
Proof.
  intros H. apply Forall_forall. intros r Hr. apply list_elem_of_In, (In_nth _ _ []) in Hr as (i & Hi & <-). by apply H.
Qed.

Section Step.
Context (w col pivot : nat) (s : byte) (fs : list byte) (rows : list (list byte)).
Context (Hwide : wide w rows) (Hcol : (col < length rows)%nat) (Hpivot : (pivot < length rows)%nat).

Lemma swapped_lt i : (i < length rows)%nat -> (swapped col pivot i < length rows)%nat.
Proof. unfold swapped. intros Hi. by repeat case_match. Qed.

Lemma nth_row_step_col : nth col (row_step col pivot s fs rows) [] = vscale s (nth pivot rows []).
Proof.
  unfold row_step, eliminate. rewrite nth_imap by (rewrite length_insert, length_swap; lia).
  rewrite Nat.eqb_refl, nth_insert, Nat.eqb_refl, nth_swap, scale_row_eq by (rewrite ?length_swap; lia).
  unfold swapped. by rewrite Nat.eqb_refl.
Qed.

Lemma nth_row_step_other i : (i < length rows)%nat -> i <> col ->
  nth i (row_step col pivot s fs rows) [] =
    vadd (nth (swapped col pivot i) rows []) (vscale (byte_at fs i) (vscale s (nth pivot rows []))).
Proof.
  intros Hi Hne. unfold row_step, eliminate. rewrite nth_imap by (rewrite length_insert, length_swap; lia).
  apply Nat.eqb_neq in Hne as E. rewrite E, !nth_insert, Nat.eqb_refl, E, !nth_swap, scale_row_eq
    by (rewrite ?length_swap; lia).
  assert (L1 : length (nth (swapped col pivot i) rows []) = w) by (apply wide_nth; [done|by apply swapped_lt]).
  assert (L2 : length (nth pivot rows []) = w) by (by apply wide_nth).
  replace (swapped col pivot col) with pivot by (unfold swapped; by rewrite Nat.eqb_refl).
  destruct (is_zero (byte_at fs i)) eqn:Z.
  - apply is_zero_spec in Z as ->. by rewrite (vscale_0 _ w), vadd_zeros_r by (rewrite ?length_vscale; done).
  - apply add_scaled_eq. by rewrite length_vscale, L1, L2.
Qed.

Lemma wide_row_step : wide w (row_step col pivot s fs rows).
Proof.
  apply wide_of_nth. rewrite length_row_step. intros i Hi. pose proof (wide_nth w rows _ Hwide Hpivot).
  destruct (decide (i = col)) as [->|Hne]; [by rewrite nth_row_step_col, length_vscale|].
  rewrite nth_row_step_other, length_vadd, !length_vscale by done.
  rewrite (wide_nth w) by (done || by apply swapped_lt). lia.
Qed.

Lemma byte_at_vadd u v j : length u = length v -> byte_at (vadd u v) j = bxor (byte_at u j) (byte_at v j).
Proof.
  revert v j. induction u as [|a u IH]; intros [|b v] [|j]; try done; cbn; try (by rewrite bxor_0_l).
  intros [= E]. by apply IH.
Qed.
Lemma byte_at_vscale c v j : byte_at (vscale c v) j = gf_mul c (byte_at v j).
Proof. revert j. induction v as [|a v IH]; intros [|j]; cbn; try (by rewrite gf_mul_0_r); [done|]. apply IH. Qed.

Lemma cell_row_step_other i j : (i < length rows)%nat -> i <> col ->
  cell (row_step col pivot s fs rows) i j =
    bxor (cell rows (swapped col pivot i) j) (gf_mul (byte_at fs i) (gf_mul s (cell rows pivot j))).
Proof.
  intros Hi Hne. unfold cell. rewrite nth_row_step_other by done.
  rewrite byte_at_vadd, !byte_at_vscale; [done|].
  rewrite !length_vscale, !(wide_nth w); try done. by apply swapped_lt.
Qed.
Lemma cell_row_step_col j : cell (row_step col pivot s fs rows) col j = gf_mul s (cell rows pivot j).
Proof. unfold cell. by rewrite nth_row_step_col, byte_at_vscale. Qed.

Lemma dot_row_step_other i c : (i < length rows)%nat -> i <> col ->
  dot (nth i (row_step col pivot s fs rows) []) c =
    bxor (dot (nth (swapped col pivot i) rows []) c) (gf_mul (byte_at fs i) (gf_mul s (dot (nth pivot rows []) c))).
Proof.
  intros Hi Hne. rewrite nth_row_step_other by done. rewrite dot_vadd_l, !dot_vscale_l; [done|].
  rewrite !length_vscale, !(wide_nth w); try done. by apply swapped_lt.
Qed.
End Step.

(** ** The elimination *)

Lemma byte_ext u v : length u = length v -> (forall j, (j < length u)%nat -> byte_at u j = byte_at v j) -> u = v.
Proof. intros L H. by apply (nth_ext u v x00 x00). Qed.
Lemma dot_app u u' v v' : length u = length v -> dot (u ++ u') (v ++ v') = bxor (dot u v) (dot u' v').
Proof.
  revert v. induction u as [|a u IH]; intros [|b v] L; try done; cbn [app dot]; [by rewrite bxor_0_l|].
  rewrite IH by (cbn in L; lia). by rewrite bxor_assoc.
Qed.
Lemma byte_at_take c u j : (j < c)%nat -> byte_at (take c u) j = byte_at u j.
Proof. intros H. unfold byte_at. rewrite !nth_lookup. by rewrite lookup_take_lt. Qed.
Lemma byte_at_zeros w j : byte_at (zeros w) j = x00.
Proof. unfold byte_at. rewrite nth_lookup. destruct (zeros w !! j) eqn:E; [|done]. by apply lookup_replicate in E as [-> _]. Qed.

Lemma find_none_ge f a n r : find f (seq a n) = None -> (a <= r < a + n)%nat -> f r = false.
Proof. intros H Hr. eapply find_none; [exact H|]. by apply in_seq. Qed.
Lemma find_some_ge f a n p : find f (seq a n) = Some p -> (a <= p < a + n)%nat /\ f p = true.
Proof. intros H. apply find_some in H as [H ->]. by apply in_seq in H. Qed.

Section Gauss.
Context (k : nat) (m0 : list (list byte)).

(** [m] and [i] after [col] columns: [m] is [i] times the matrix started from, what
    [m] and [i] agree on is solved by that matrix, and the columns done are unit. *)
Record gauss (col : nat) (m i : list (list byte)) : Prop := mkGauss {
  gauss_len : length m = k /\ length i = k;
  gauss_wide : wide k m /\ wide k i;
  gauss_left : forall r, (r < k)%nat -> nth r m [] = lc k (nth r i []) m0;
  gauss_solves : forall c x, length x = k ->
    (forall r, (r < k)%nat -> dot (nth r m []) c = dot (nth r i []) x) ->
    forall r, (r < k)%nat -> dot (nth r m0 []) c = byte_at x r;
  gauss_unit : forall r j, (r < k)%nat -> (j < col)%nat -> cell m r j = if (r =? j)%nat then x01 else x00
}.

(** A nonzero vector that the matrix sends to zero. *)
Definition kernel (c : list byte) : Prop := length c = k /\ (forall r, (r < k)%nat -> dot (nth r m0 []) c = x00).

Lemma swapped_involutive col pivot r : swapped col pivot (swapped col pivot r) = r.
Proof. unfold swapped. repeat (case_match || subst || rewrite ?Nat.eqb_eq, ?Nat.eqb_neq in *); lia. Qed.

Lemma gf_mul_cancel s a b : s <> x00 -> gf_mul s a = gf_mul s b -> a = b.
Proof.
  intros Hs E. apply (f_equal (gf_mul (gf_inv s))) in E.
  by rewrite !gf_mul_assoc, (gf_mul_comm (gf_inv s)), gf_inv_r, !gf_mul_1_l in E.
Qed.
Lemma bxor_cancel a b c : bxor a c = bxor b c -> a = b.
Proof. intros E. apply (f_equal (fun x => bxor x c)) in E. by rewrite <- !bxor_assoc, bxor_self, !bxor_0_r in E. Qed.

(** Whatever the step makes two row lists agree on, they agreed on before. *)
Lemma row_step_agree col pivot s fs m i c x :
  wide k m -> wide k i -> length m = k -> length i = k -> (col < k)%nat -> (pivot < k)%nat -> s <> x00 ->
  (forall r, (r < k)%nat -> dot (nth r (row_step col pivot s fs m) []) c = dot (nth r (row_step col pivot s fs i) []) x) ->
  forall r, (r < k)%nat -> dot (nth r m []) c = dot (nth r i []) x.
Proof.
  intros Wm Wi Lm Li Hc Hp Hs H.
  assert (P : dot (nth pivot m []) c = dot (nth pivot i []) x).
  { specialize (H col Hc). rewrite !nth_row_step_col, !dot_vscale_l in H by lia. by apply gf_mul_cancel in H. }
  assert (Q : forall r, (r < k)%nat -> dot (nth (swapped col pivot r) m []) c = dot (nth (swapped col pivot r) i []) x).
  { intros r Hr. destruct (decide (r = col)) as [->|Hne]; [unfold swapped; by rewrite Nat.eqb_refl|].
    specialize (H r Hr). rewrite !(dot_row_step_other k), P in H by (done || lia). by apply bxor_cancel in H. }
  intros r Hr. rewrite <- (swapped_involutive col pivot r). apply Q. unfold swapped. by repeat case_match.
Qed.

Lemma lc_row_step col pivot s fs m i :
  wide k m -> wide k i -> length m = k -> length i = k -> (col < k)%nat -> (pivot < k)%nat ->
  (forall r, (r < k)%nat -> nth r m [] = lc k (nth r i []) m0) ->
  forall r, (r < k)%nat -> nth r (row_step col pivot s fs m) [] = lc k (nth r (row_step col pivot s fs i) []) m0.
Proof.
  intros Wm Wi Lm Li Hc Hp H r Hr. assert (Hs : (swapped col pivot r < k)%nat) by (rewrite <- Li; apply swapped_lt; lia).
  destruct (decide (r = col)) as [->|Hne]; [by rewrite !nth_row_step_col, lc_vscale, H by lia|].
  rewrite !(nth_row_step_other k), lc_vadd, !lc_vscale, !H by (done || lia || (rewrite !length_vscale, !(wide_nth k); done || lia)).
  done.
Qed.

(** The columns already done stay unit and the column at hand becomes unit. *)
Lemma unit_row_step col pivot s fs m :
  wide k m -> length m = k -> (col <= pivot < k)%nat -> gf_mul s (cell m pivot col) = x01 ->
  (forall r, (r < k)%nat -> r <> col -> byte_at fs r = cell m (swapped col pivot r) col) ->
  (forall r j, (r < k)%nat -> (j < col)%nat -> cell m r j = if (r =? j)%nat then x01 else x00) ->
  forall r j, (r < k)%nat -> (j < S col)%nat -> cell (row_step col pivot s fs m) r j = if (r =? j)%nat then x01 else x00.
Proof.
  intros Wm Lm Hp Hs Hf C r j Hr Hj.
  assert (Z : (j < col)%nat -> cell m pivot j = x00).
  { intros Hjc. rewrite C by lia. destruct (Nat.eqb_spec pivot j); [lia|done]. }
  destruct (decide (r = col)) as [->|Hne].
  - rewrite cell_row_step_col by lia. destruct (Nat.eqb_spec col j) as [<-|Hcj]; [done|].
    by rewrite Z, gf_mul_0_r by lia.
  - rewrite (cell_row_step_other k) by (done || lia). destruct (decide (j = col)) as [->|Hcj].
    + apply Nat.eqb_neq in Hne as E. by rewrite E, Hs, gf_mul_1_r, Hf, bxor_self.
    + rewrite Z, !gf_mul_0_r, bxor_0_r by lia. unfold swapped. apply Nat.eqb_neq in Hne as E. rewrite E.
      destruct (Nat.eqb_spec r pivot) as [->|]; rewrite C by lia; [|done].
      by destruct (Nat.eqb_spec col j), (Nat.eqb_spec pivot j); try lia.
Qed.

(** Without a pivot the column depends on those before it. *)
Lemma no_pivot_kernel col m :
  wide k m -> length m = k -> (col < k)%nat ->
  (forall r, (col <= r < k)%nat -> cell m r col = x00) ->
  (forall r j, (r < k)%nat -> (j < col)%nat -> cell m r j = if (r =? j)%nat then x01 else x00) ->
  exists c, length c = k /\ byte_at c col = x01 /\ (forall r, (r < k)%nat -> dot (nth r m []) c = x00).
Proof.
  intros Wm Lm Hc Hz C. set (top := map (fun r => cell m r col) (seq 0 col)).
  assert (Ltop : length top = col) by (unfold top; by rewrite length_map, length_seq).
  exists (top ++ x01 :: zeros (k - S col)). rewrite length_app. cbn [length]. rewrite length_zeros, Ltop.
  split; [lia|]. split.
  { unfold byte_at. rewrite app_nth2, Ltop, Nat.sub_diag by lia. done. }
  intros r Hr. pose proof (wide_nth k m r Wm ltac:(lia)) as Lr. set (row := nth r m []) in *.
  assert (Erow : row = take col row ++ cell m r col :: drop (S col) row).
  { rewrite <- (take_drop col row) at 1. f_equal. apply drop_S. unfold cell. fold row. unfold byte_at.
    rewrite nth_lookup. destruct (lookup_lt_is_Some_2 row col ltac:(lia)) as [b ->]. done. }
  rewrite Erow, dot_app by (rewrite length_take; lia). cbn [dot]. rewrite dot_zeros_r, bxor_0_r, gf_mul_1_r.
  assert (Ht : forall j, (j < col)%nat -> byte_at (take col row) j = if (r =? j)%nat then x01 else x00)
    by (intros j Hj; rewrite byte_at_take by done; by apply C).
  destruct (decide (r < col)%nat) as [Hlt|Hge].
  - replace (take col row) with (unit_row col r).
    + rewrite dot_unit_row by done. unfold byte_at, top.
      rewrite (nth_indep _ x00 (cell m 0 col)) by (rewrite length_map, length_seq; done).
      rewrite (map_nth (fun r => cell m r col)), seq_nth by done. apply bxor_self.
    + apply byte_ext; rewrite length_unit_row; [rewrite length_take; lia|]. intros j Hj.
      by rewrite byte_at_unit_row, Ht by lia.
  - replace (take col row) with (zeros col); [by rewrite dot_zeros_l, Hz, bxor_0_l by lia|].
    apply byte_ext; rewrite length_zeros; [rewrite length_take; lia|]. intros j Hj.
    rewrite byte_at_zeros, Ht by lia. by destruct (Nat.eqb_spec r j); [lia|].
Qed.

Lemma gauss_step col m i : (col < k)%nat -> gauss col m i ->
  match invert_column k col (m, i) with
  | Ok (m', i') => gauss (S col) m' i'
  | Err e => e = Singular /\ exists c, kernel c /\ byte_at c col = x01
  end.
Proof.
  intros Hcol [[Lm Li] [Wm Wi] A B C]. rewrite invert_column_step. destruct (find _ _) as [pivot|] eqn:F.
  - apply find_some_ge in F as [Hp F]. rewrite negb_true_iff, is_zero_false in F.
    assert (Hp' : (pivot < k)%nat) by lia. cbv zeta. set (sw := swap_rows m col pivot).
    assert (E : forall r j, (r < k)%nat -> cell sw r j = cell m (swapped col pivot r) j).
    { intros r j Hr. unfold cell, sw. by rewrite nth_swap by lia. }
    assert (Ecol : swapped col pivot col = pivot) by (unfold swapped; by rewrite Nat.eqb_refl).
    rewrite E, Ecol by done. set (s := gf_inv (cell m pivot col)).
    set (fs := column _ col).
    assert (Hf : forall r, (r < k)%nat -> r <> col -> byte_at fs r = cell m (swapped col pivot r) col).
    { intros r Hr Hne. unfold fs, column, byte_at at 1. rewrite (nth_indep _ x00 ((fun r => byte_at r col) []))
        by (rewrite length_map, length_insert; unfold sw; rewrite length_swap; lia).
      rewrite (map_nth (fun r => byte_at r col)). rewrite nth_insert by (unfold sw; rewrite length_swap; lia).
      apply Nat.eqb_neq in Hne. rewrite Hne. apply (E r col Hr). }
    assert (Hs : gf_mul s (cell m pivot col) = x01) by (unfold s; by rewrite gf_mul_comm, gf_inv_r).
    assert (Hs0 : s <> x00) by (intros S0; by rewrite S0, gf_mul_0_l in Hs).
    constructor.
    + by rewrite !length_row_step.
    + split; by apply wide_row_step; rewrite ?Lm, ?Li.
    + by apply lc_row_step.
    + intros c x Lx H. apply B; [done|]. by apply (row_step_agree col pivot s fs).
    + apply unit_row_step; done || lia.
  - destruct (no_pivot_kernel col m) as (c & Lc & Hc1 & Hk); try done.
    { intros r Hr. pose proof (find_none_ge _ _ _ r F ltac:(lia)) as Z. by rewrite negb_false_iff, is_zero_spec in Z. }
    split; [done|]. exists c. split; [split; [done|]|done]. intros r Hr. rewrite <- (byte_at_zeros k r).
    apply B; [apply length_zeros| |done]. intros r' Hr'. by rewrite Hk, dot_zeros_r.
Qed.

Lemma gauss_init : length m0 = k -> wide k m0 -> gauss 0 m0 (map (unit_row k) (seq 0 k)).
Proof.
  intros L0 W0.
  assert (N : forall r, (r < k)%nat -> nth r (map (unit_row k) (seq 0 k)) [] = unit_row k r).
  { intros r Hr. rewrite (nth_indep _ [] (unit_row k 0)) by (by rewrite length_map, length_seq).
    by rewrite map_nth, seq_nth. }
  constructor.
  - by rewrite length_map, length_seq.
  - split; [done|]. apply Forall_forall. intros r Hr. apply list_elem_of_In, in_map_iff in Hr as (i & <- & _).
    apply length_unit_row.
  - intros r Hr. by rewrite N, lc_unit_row.
  - intros c x Lx H r Hr. by rewrite H, N, dot_unit_row.
  - intros r j _ Hj. lia.
Qed.

Lemma gauss_loop n col m i : (col + n = k)%nat -> gauss col m i ->
  match invert_loop k (seq col n) (m, i) with
  | Ok (m', i') => gauss k m' i'
  | Err e => e = Singular /\ exists c j, kernel c /\ byte_at c j = x01
  end.
Proof.
  revert col m i. induction n as [|n IH]; intros col m i Hn G; cbn [seq invert_loop].
  - by replace k with col by lia.
  - pose proof (gauss_step col m i ltac:(lia) G) as S. destruct (invert_column k col (m, i)) as [[m' i']|e].
    + apply IH; [lia|done].
    + destruct S as (-> & c & Kc & Ec). split; [done|]. by exists c, col.
Qed.

(** [invert] returns a two-sided inverse of a matrix with a trivial kernel. *)
Record inverse_of (inv : list (list byte)) : Prop := mkInverse {
  inverse_len : length inv = k;
  inverse_wide : wide k inv;
  inverse_left : forall r, (r < k)%nat -> lc k (nth r inv []) m0 = unit_row k r;
  inverse_right : forall x, length x = k -> forall r, (r < k)%nat ->
    dot (nth r m0 []) (map (fun row => dot row x) inv) = byte_at x r
}.

Lemma invert_cases : length m0 = k -> wide k m0 ->
  match invert m0 k with
  | Ok inv => inverse_of inv
  | Err e => e = Singular /\ exists c j, kernel c /\ byte_at c j = x01
  end.
Proof.
  intros L0 W0. pose proof (gauss_loop k 0 m0 _ ltac:(lia) (gauss_init L0 W0)) as G. unfold invert.
  destruct (invert_loop _ _ _) as [[m inv]|e]; [|done]. destruct G as [[Lm Li] [Wm Wi] A B C].
  assert (U : forall r, (r < k)%nat -> nth r m [] = unit_row k r).
  { intros r Hr. apply byte_ext; rewrite (wide_nth k) by (done || lia); [by rewrite length_unit_row|].
    intros j Hj. rewrite byte_at_unit_row by done. by apply (C r j). }
  constructor; [done|done|intros r Hr; by rewrite <- A, U|].
  intros x Lx. apply B; [done|]. intros r Hr. rewrite U, dot_unit_row by (done || by rewrite length_map).
  unfold byte_at. rewrite (nth_indep _ x00 (dot [] x)) by (rewrite length_map; lia).
  by rewrite (map_nth (fun row => dot row x)).
Qed.

Lemma inverse_kernel inv c : length m0 = k -> wide k m0 -> inverse_of inv -> kernel c -> c = zeros k.
Proof.
  intros L0 W0 I [Lc Hc]. apply byte_ext; [by rewrite length_zeros|]. rewrite Lc. intros r Hr.
  rewrite byte_at_zeros, <- (dot_unit_row k) by done. rewrite <- (inverse_left inv I r Hr), dot_lc by done.
  replace (map (fun row => dot row c) m0) with (zeros k); [apply dot_zeros_r|].
  apply byte_ext; rewrite length_zeros; [by rewrite length_map|]. intros j Hj. rewrite byte_at_zeros. symmetry.
  rewrite <- (Hc j Hj). unfold byte_at. rewrite (nth_indep _ x00 (dot [] c)) by (rewrite length_map; lia).
  by rewrite (map_nth (fun row => dot row c)).
Qed.

Lemma invert_spec : length m0 = k -> wide k m0 -> (forall c, kernel c -> c = zeros k) ->
  exists inv, invert m0 k = Ok inv /\ inverse_of inv.
Proof.
  intros L0 W0 K. pose proof (invert_cases L0 W0) as H. destruct (invert m0 k) as [inv|e]; [by exists inv|].
  destruct H as (_ & c & j & Kc & Ec). by rewrite (K c Kc), byte_at_zeros in Ec.
Qed.
End Gauss.

(** ** Polynomials *)

Fixpoint peval (p : list byte) (x : byte) : byte :=
  match p with [] => x00 | c :: p => bxor c (gf_mul x (peval p x)) end.
(** The quotient by [x + r] of the polynomial with the tail [p]. *)
Fixpoint quotient (r : byte) (p : list byte) : list byte :=
  match p with [] => [] | c :: p => peval (c :: p) r :: quotient r p end.

Lemma length_quotient r p : length (quotient r p) = length p.
Proof. induction p; cbn; by f_equal. Qed.

Lemma quotient_spec r p x :
  bxor (gf_mul x (peval p x)) (gf_mul r (peval p r)) = gf_mul (bxor x r) (peval (quotient r p) x).
Proof.
  induction p as [|c p IH]; [cbn; by rewrite !gf_mul_0_r, bxor_self|].
  cbn [quotient peval]. set (px := gf_mul x (peval p x)) in *. set (pr := gf_mul r (peval p r)) in *.
  rewrite (gf_mul_bxor_r (bxor x r)), (gf_mul_assoc (bxor x r)), (gf_mul_comm (bxor x r) x), <- gf_mul_assoc, <- IH.
  rewrite gf_mul_bxor_l, !gf_mul_bxor_r.
  apply byte_val_inj. rewrite !byte_val_bxor. apply Z.bits_inj'. intros n _. rewrite !Z.lxor_spec.
  by repeat destruct (Z.testbit _ n).
Qed.

Lemma quotient_zero r p : quotient r p = zeros (length p) -> p = zeros (length p).
Proof.
  induction p as [|c p IH]; [done|]. change (zeros (length (c :: p))) with (x00 :: zeros (length p)).
  cbn [quotient peval]. intros [= E Q]. f_equal; [|by apply IH].
  destruct p as [|c' p']; [cbn in E; by rewrite gf_mul_0_r, bxor_0_r in E|].
  cbn [quotient] in Q. change (zeros (length (c' :: p'))) with (x00 :: zeros (length p')) in Q.
  apply (f_equal (fun l => byte_at l 0)) in Q. cbn [byte_at nth] in Q. rewrite Q, gf_mul_0_r, bxor_0_r in E. done.
Qed.

(** A polynomial with as many distinct roots as coefficients is zero. *)
Lemma roots_zero rs p : NoDup rs -> (length p <= length rs)%nat -> (forall r, r ∈ rs -> peval p r = x00) -> p = zeros (length p).
Proof.
  revert p. induction rs as [|r rs IH]; intros [|c p] N L R; [done|cbn in L; lia|done|].
  apply NoDup_cons in N as [Hr N]. pose proof (R r ltac:(set_solver)) as Rr. cbn [peval] in Rr.
  assert (Q : p = zeros (length p)).
  { apply (quotient_zero r). rewrite <- (length_quotient r p). apply IH; [done|rewrite length_quotient; cbn in L; lia|].
    intros r' Hr'. pose proof (R r' ltac:(set_solver)) as R'. cbn [peval] in R'.
    destruct (decide (peval (quotient r p) r' = x00)) as [|Hne]; [done|]. exfalso.
    assert (D : bxor r' r <> x00) by (rewrite bxor_eq_0; intros ->; done).
    apply (gf_mul_nonzero _ _ D Hne). rewrite <- quotient_spec.
    apply (proj1 (bxor_eq_0 _ _)) in R', Rr. by rewrite <- R', <- Rr, bxor_self. }
  change (zeros (length (c :: p))) with (x00 :: zeros (length p)). f_equal; [|done].
  assert (Z : peval p r = x00).
  { rewrite Q. clear. induction (length p) as [|n IH]; [done|]. change (zeros (S n)) with (x00 :: zeros n). cbn [peval].
    by rewrite IH, gf_mul_0_r, bxor_0_r. }
  by rewrite Z, gf_mul_0_r, bxor_0_r in Rr.
Qed.

(** ** Vandermonde matrices *)

Lemma dot_powers k v a c : (length c <= k)%nat -> dot (powers k v a) c = gf_mul v (peval c a).
Proof.
  revert v c. induction k as [|k IH]; intros v [|d c] L; cbn in L; try lia; cbn [powers dot peval]; try by rewrite gf_mul_0_r.
  rewrite IH by lia. by rewrite gf_mul_bxor_r, gf_mul_assoc.
Qed.
Lemma length_powers k v a : length (powers k v a) = k.
Proof. revert v. induction k as [|k IH]; intros v; cbn; [done|]. by rewrite IH. Qed.

Definition point (i : nat) : byte := byte_of (Z.of_nat i).
Lemma point_inj i j : (i < 256)%nat -> (j < 256)%nat -> point i = point j -> i = j.
Proof.
  unfold point. intros Hi Hj H. apply (f_equal byte_val) in H. rewrite !byte_val_of_small in H by lia. lia.
Qed.
Lemma points_distinct l : Forall (fun i => (i < 256)%nat) l -> NoDup l -> NoDup (map point l).
Proof.
  intros F N. induction N as [|i l Hi N IH]; [constructor|]. apply Forall_cons in F as [Fi F].
  constructor; [|by apply IH]. intros Hin. apply list_elem_of_In, in_map_iff in Hin as (j & E & Hj).
  apply list_elem_of_In in Hj. apply point_inj in E as ->; [done| |done]. rewrite Forall_forall in F. by apply F.
Qed.

Lemma vandermonde_kernel_trivial points c :
  Forall (fun i => (i < 256)%nat) points -> NoDup points -> length c = length points ->
  (forall i, i ∈ points -> dot (vandermonde_row i (length points)) c = x00) -> c = zeros (length c).
Proof.
  intros F N L H. apply (roots_zero (map point points)); [by apply points_distinct|rewrite length_map; lia|].
  intros r Hr. apply list_elem_of_In, in_map_iff in Hr as (i & <- & Hi). apply list_elem_of_In in Hi.
  specialize (H i Hi). unfold vandermonde_row in H. rewrite dot_powers, gf_mul_1_l in H by lia. done.
Qed.
