(* ===== verification/ErasureSpec.v ===== *)
(** * What the erasure code promises

    Encoding never fails within its parameters; any [k] of the [n] shards give the
    data back; every shard's proof is accepted, and a shard accepted under the
    commitment is the one that was committed to, unless the hash collides. *)

From S2P Require Import Prelude Erasure ErasureField ErasureCorrect.

(** ** The matrix of the code *)

Lemma length_vandermonde_row i k : length (vandermonde_row i k) = k.
Proof. apply length_powers. Qed.

Lemma nth_map_seq {A} (f : nat -> A) a n i d : (i < n)%nat -> nth i (map f (seq a n)) d = f (a + i)%nat.
Proof.
  intros Hi. rewrite (nth_indep _ d (f a)) by (by rewrite length_map, length_seq).
  by rewrite map_nth, seq_nth.
Qed.

Lemma seq_small a n : (a + n <= 256)%nat -> Forall (fun i => (i < 256)%nat) (seq a n).
Proof. intros H. apply Forall_forall. intros i Hi. apply list_elem_of_In, in_seq in Hi. lia. Qed.

(** [top] is the inverse both sides of the code compute. *)
Lemma top_inverse k : (k <= 256)%nat ->
  exists top, invert (vandermonde (seq 0 k) k) k = Ok top /\ inverse_of k (vandermonde (seq 0 k) k) top.
Proof.
  intros Hk. apply invert_spec; unfold vandermonde.
  - by rewrite length_map, length_seq.
  - apply Forall_forall. intros r Hr. apply list_elem_of_In, in_map_iff in Hr as (i & <- & _). apply length_vandermonde_row.
  - intros c [Lc Hc]. replace (zeros k) with (zeros (length c)) by (by rewrite Lc). apply (vandermonde_kernel_trivial (seq 0 k)).
    + by apply seq_small.
    + apply NoDup_ListNoDup, seq_NoDup.
    + by rewrite length_seq.
    + rewrite length_seq. intros i Hi. apply list_elem_of_In, in_seq in Hi.
      specialize (Hc i ltac:(lia)). by rewrite nth_map_seq in Hc by lia.
Qed.

(** Row [i] of the code: shard [i] is this combination of the pieces. *)
Definition code_row (k : nat) (top : list (list byte)) (i : nat) : list byte :=
  if (i <? k)%nat then unit_row k i else row_times_matrix (vandermonde_row i k) top k.

Section Code.
Context (k : nat) (top : list (list byte)).
Context (Htop : inverse_of k (vandermonde (seq 0 k) k) top).

Lemma length_code_row i : length (code_row k top i) = k.
Proof.
  unfold code_row. case_match; [apply length_unit_row|].
  rewrite row_times_matrix_eq, length_lc by apply Htop. done.
Qed.

(** A row of the code applied to [c] is the Vandermonde row applied to [top c]. *)
Lemma dot_code_row i c : length c = k ->
  dot (code_row k top i) c = dot (vandermonde_row i k) (map (fun row => dot row c) top).
Proof.
  intros Lc. unfold code_row. destruct (Nat.ltb_spec i k) as [Hi|Hi].
  - rewrite dot_unit_row by done. rewrite <- (inverse_right _ _ _ Htop c Lc i Hi).
    unfold vandermonde. by rewrite nth_map_seq by done.
  - rewrite row_times_matrix_eq, dot_lc by apply Htop. done.
Qed.

(** Any [k] distinct rows of the code are independent. *)
Lemma code_rows_invertible indices :
  length indices = k -> NoDup indices -> Forall (fun i => (i < 256)%nat) indices ->
  exists inv, invert (map (code_row k top) indices) k = Ok inv /\ inverse_of k (map (code_row k top) indices) inv.
Proof.
  intros L N F. apply invert_spec.
  - by rewrite length_map.
  - apply Forall_forall. intros r Hr. apply list_elem_of_In, in_map_iff in Hr as (i & <- & _). apply length_code_row.
  - intros c [Lc Hc]. set (y := map (fun row => dot row c) top).
    assert (Ly : length y = k) by (unfold y; rewrite length_map; apply Htop).
    assert (Y : y = zeros k).
    { replace (zeros k) with (zeros (length y)) by (by rewrite Ly). apply (vandermonde_kernel_trivial indices); [done|done|by rewrite Ly|].
      intros i Hi. rewrite L. unfold y. rewrite <- dot_code_row by done. apply list_elem_of_lookup_1 in Hi as [j Hj].
      assert (Hjk : (j < k)%nat) by (rewrite <- L; by apply lookup_lt_Some in Hj).
      specialize (Hc j Hjk). rewrite nth_lookup, list_lookup_fmap, Hj in Hc. done. }
    apply byte_ext; [by rewrite length_zeros|]. intros j Hj. rewrite Lc in Hj.
    rewrite byte_at_zeros, <- (inverse_right _ _ _ Htop c Lc j Hj). fold y. by rewrite Y, dot_zeros_r.
Qed.

(** Decoding undoes encoding on any [k] rows. *)
Lemma decode_rows w pieces indices inv :
  wide w pieces -> length pieces = k -> inverse_of k (map (code_row k top) indices) inv ->
  map (fun r => lc w r (map (fun i => lc w (code_row k top i) pieces) indices)) inv = pieces.
Proof.
  intros Wp Lp I. apply (nth_ext _ _ [] []); [rewrite length_map, Lp; apply I|].
  rewrite length_map, (inverse_len _ _ _ I). intros r Hr.
  rewrite (nth_indep _ [] (lc w [] (map (fun i => lc w (code_row k top i) pieces) indices)))
    by (rewrite length_map, (inverse_len _ _ _ I); lia).
  rewrite (map_nth (fun r => lc w r (map (fun i => lc w (code_row k top i) pieces) indices))).
  rewrite <- (map_map (code_row k top) (fun row => lc w row pieces)).
  rewrite <- (lc_lc k).
  - rewrite (inverse_left _ _ _ I) by done. by apply lc_unit_row.
  - apply Forall_forall. intros x Hx. apply list_elem_of_In, in_map_iff in Hx as (i & <- & _). apply length_code_row.
  - done.
Qed.
End Code.

(** ** Pieces *)

Lemma shard_length_enough data k : (0 < k)%nat -> (length data <= k * shard_length data k)%nat /\ (1 <= shard_length data k)%nat.
Proof.
  intros Hk. unfold shard_length. split; [|lia].
  pose proof (Nat.div_mod (length data + k - 1) k ltac:(lia)). pose proof (Nat.mod_upper_bound (length data + k - 1) k ltac:(lia)).
  nia.
Qed.

Lemma length_piece data l i : length (piece data l i) = l.
Proof.
  unfold piece. destruct (Nat.ltb_spec (i * l) (length data)); [|apply length_replicate].
  rewrite length_app, length_replicate, length_take, length_drop. lia.
Qed.

(** The pieces joined and cut to the length of the data are the data. *)
Lemma pieces_join data l n i : (length data <= (i + n) * l)%nat ->
  take (length data - i * l) (concat (map (piece data l) (seq i n))) = drop (i * l) data.
Proof.
  revert i. induction n as [|n IH]; intros i H; cbn [seq map concat].
  { rewrite drop_ge by lia. by rewrite take_nil. }
  unfold piece at 1. destruct (Nat.ltb_spec (i * l) (length data)) as [Hlt|Hge].
  2:{ rewrite drop_ge by lia. by replace (length data - i * l)%nat with 0%nat by lia. }
  destruct (decide (S i * l <= length data)%nat) as [Hle|Hgt].
  - set (part := take (Nat.min _ _ - _) _). assert (Lp : length part = l) by (unfold part; rewrite length_take, length_drop; lia).
    rewrite Lp, Nat.sub_diag. cbn [replicate]. rewrite app_nil_r, take_app_ge by lia.
    rewrite Lp. replace (length data - i * l - l)%nat with (length data - S i * l)%nat by lia.
    rewrite IH by lia. replace part with (take l (drop (i * l) data)) by (unfold part; f_equal; lia).
    replace (S i * l)%nat with (i * l + l)%nat by lia. rewrite <- drop_drop. apply take_drop.
  - set (part := take (Nat.min _ _ - _) _). assert (Ep : part = drop (i * l) data) by (unfold part; apply take_ge; rewrite length_drop; lia).
    rewrite <- app_assoc, take_app_le by (rewrite Ep, length_drop; lia). rewrite Ep. apply take_ge. rewrite length_drop. lia.
Qed.

(** ** Work in parallel is work in order *)

Lemma chunks_join {A} fuel chunk (items : list A) : (0 < chunk)%nat -> (length items <= fuel)%nat ->
  concat (chunks_of fuel chunk items) = items.
Proof.
  intros Hc. revert items. induction fuel as [|fuel IH]; intros [|a items] L; cbn in L; try lia; try done.
  cbn [chunks_of concat]. rewrite IH by (rewrite length_drop; cbn; lia). apply take_drop.
Qed.
Lemma map_ordered_eq {T R} cores (items : list T) work (f : T -> R) : map_ordered cores items work f = map f items.
Proof.
  unfold map_ordered. destruct (Nat.leb_spec (Nat.min cores (length items)) 1) as [|Hc]; [done|].
  cbn [orb]. destruct (work <? PARALLEL_WORK); [done|]. rewrite <- concat_map, chunks_join; [done| |done].
  pose proof (Nat.div_str_pos (length items + Nat.min cores (length items) - 1) (Nat.min cores (length items))). lia.
Qed.

(** ** Encoding *)

Section Spec.
Context (sha3_256 : list byte -> list byte) (cores : nat).

Definition data_pieces (data : list byte) (k : nat) : list (list byte) :=
  map (piece data (shard_length data k)) (seq 0 k).
Definition code_bytes (data : list byte) (k n : nat) (top : list (list byte)) : list (list byte) :=
  map (fun i => lc (shard_length data k) (code_row k top i) (data_pieces data k)) (seq 0 n).
(** What [encode] returns when the shards are [bytes]. *)
Definition coded_of (data : list byte) (k n : nat) (bytes : list (list byte)) : Coded :=
  let l := shard_length data k in
  let tree := merkle_tree sha3_256 (map (leaf_hash sha3_256 l) bytes) in
  mkCoded (mkCommitment (root_hash sha3_256 (nth 0 (List.last tree []) []) k n l (length data)) k n l (length data))
    (imap mkShard bytes) tree.

Lemma data_pieces_wide data k : wide (shard_length data k) (data_pieces data k) /\ length (data_pieces data k) = k.
Proof.
  split; [|unfold data_pieces; by rewrite length_map, length_seq].
  apply Forall_forall. intros r Hr. apply list_elem_of_In, in_map_iff in Hr as (i & <- & _). apply length_piece.
Qed.

Lemma out_of_range_false k n : out_of_range k n = false <-> (0 < k <= n /\ n <= 256)%nat.
Proof.
  unfold out_of_range, MAX_SHARDS. rewrite !orb_false_iff, Nat.eqb_neq, !Nat.ltb_ge. lia.
Qed.

Lemma encode_eq data k n top : out_of_range k n = false ->
  invert (vandermonde (seq 0 k) k) k = Ok top -> inverse_of k (vandermonde (seq 0 k) k) top ->
  encode sha3_256 cores data k n = Ok (coded_of data k n (code_bytes data k n top)).
Proof.
  intros R E I. unfold encode. rewrite R. apply out_of_range_false in R. unfold parity_coefficients. rewrite E.
  rewrite !map_ordered_eq, map_map.
  assert (B : map (piece data (shard_length data k)) (seq 0 k) ++
    map (fun i => combine (row_times_matrix (vandermonde_row i k) top k)
      (map (piece data (shard_length data k)) (seq 0 k)) (shard_length data k)) (seq k (n - k))
    = code_bytes data k n top).
  { destruct (data_pieces_wide data k) as [W L]. unfold code_bytes. fold (data_pieces data k).
    replace n with (k + (n - k))%nat at 2 by lia. rewrite seq_app, map_app. f_equal.
    - apply (nth_ext _ _ [] []); [by rewrite length_map, length_seq|]. rewrite L. intros i Hi.
      rewrite nth_map_seq by done. unfold code_row. cbn [Nat.add]. apply Nat.ltb_lt in Hi as Hb. rewrite Hb.
      by rewrite lc_unit_row.
    - apply map_ext_in. intros i Hi. apply in_seq in Hi. unfold code_row.
      destruct (Nat.ltb_spec i k); [lia|]. by apply combine_eq. }
  by rewrite B.
Qed.

Lemma encode_shape data k n c : encode sha3_256 cores data k n = Ok c ->
  out_of_range k n = false /\
  exists top, invert (vandermonde (seq 0 k) k) k = Ok top /\ inverse_of k (vandermonde (seq 0 k) k) top /\
    c = coded_of data k n (code_bytes data k n top).
Proof.
  intros E. destruct (out_of_range k n) eqn:R; [unfold encode in E; by rewrite R in E|]. split; [done|].
  pose proof (proj1 (out_of_range_false k n) R). destruct (top_inverse k ltac:(lia)) as (top & T & I).
  rewrite (encode_eq data k n top R T I) in E. injection E as <-. by exists top.
Qed.

Lemma shards_of_code data k n top i s :
  shards (coded_of data k n (code_bytes data k n top)) !! i = Some s <->
  (i < n)%nat /\ s = mkShard i (lc (shard_length data k) (code_row k top i) (data_pieces data k)).
Proof.
  cbn [shards coded_of]. rewrite list_lookup_imap. unfold code_bytes. rewrite list_lookup_fmap.
  destruct (decide (i < n)%nat) as [Hi|Hi].
  - rewrite lookup_seq_lt by done. cbn. split; [intros [= <-]; done|intros [_ ->]; done].
  - rewrite lookup_seq_ge by lia. cbn. split; [done|lia].
Qed.

(** ** Reconstruction *)

Lemma take_shards_spec c given indices rows :
  (forall s, s ∈ given -> (index s < cn c)%nat /\ length (shard_bytes s) = shard_len_of c) ->
  NoDup (indices ++ map index given) -> (length indices <= ck c)%nat ->
  take_shards c given indices rows =
    Ok (indices ++ map index (take (ck c - length indices) given),
        rows ++ map shard_bytes (take (ck c - length indices) given)).
Proof.
  revert indices rows. induction given as [|s given IH]; intros indices rows G N L; cbn [take_shards].
  { rewrite take_nil. cbn. by rewrite !app_nil_r. }
  destruct (Nat.eqb_spec (length indices) (ck c)) as [E|E].
  { rewrite E, Nat.sub_diag. cbn. by rewrite !app_nil_r. }
  destruct (G s ltac:(set_solver)) as [G1 G2]. apply Nat.leb_gt in G1. rewrite G1. cbn [orb map] in *.
  rewrite bool_decide_eq_false_2.
  2:{ apply NoDup_app in N as (_ & N & _). intros Hin. apply (N _ Hin). by constructor. }
  rewrite G2, Nat.eqb_refl. cbn [negb]. rewrite IH.
  - rewrite length_app. cbn [length]. replace (ck c - length indices)%nat with (S (ck c - (length indices + 1)))%nat by lia.
    cbn [take map]. by rewrite <- !app_assoc.
  - intros s' Hs'. apply G. set_solver.
  - by rewrite <- app_assoc.
  - rewrite length_app. cbn. lia.
Qed.

Lemma encode_cores cores' data k n : encode sha3_256 cores data k n = encode sha3_256 cores' data k n.
Proof. unfold encode. destruct (out_of_range k n), (parity_coefficients k n); try done. by rewrite !map_ordered_eq. Qed.

Lemma reconstruct_coded data k n c given :
  encode sha3_256 cores data k n = Ok c ->
  (forall s, s ∈ given -> s ∈ shards c) -> NoDup (map index given) -> (k <= length given)%nat ->
  reconstruct cores (commitment c) given = Ok data.
Proof.
  intros E G N L. apply encode_shape in E as (R & top & T & I & ->).
  pose proof (proj1 (out_of_range_false k n) R) as Hkn. destruct (data_pieces_wide data k) as [Wp Lp].
  set (l := shard_length data k) in *. set (com := commitment _).
  assert (S : forall s, s ∈ given -> (index s < n)%nat /\ shard_bytes s = lc l (code_row k top (index s)) (data_pieces data k)).
  { intros s Hs. apply G, list_elem_of_lookup_1 in Hs as [i Hi]. by apply shards_of_code in Hi as [Hi ->]. }
  unfold reconstruct. change (ck com) with k. change (cn com) with n. rewrite R.
  rewrite take_shards_spec; [|intros s Hs; destruct (S s Hs) as [S1 S2]; split; [done|rewrite S2; by apply length_lc]|done|cbn; lia].
  cbn [app length]. rewrite Nat.sub_0_r. change (ck com) with k. set (got := take k given).
  assert (Sub : forall s, s ∈ got -> s ∈ given)
    by (intros s Hs; rewrite <- (take_drop k given); apply elem_of_app; by left).
  assert (Lg : length (map index got) = k) by (unfold got; rewrite length_map, length_take; lia).
  rewrite Lg, Nat.ltb_irrefl. unfold decode_matrix. rewrite T.
  change (fun index0 => if (index0 <? k)%nat then unit_row k index0 else row_times_matrix (vandermonde_row index0 k) top k)
    with (code_row k top).
  destruct (code_rows_invertible k top I (map index got)) as (inv & V & J); [done|..].
  { unfold got. rewrite <- (take_drop k given), map_app in N. by apply NoDup_app in N as (N & _). }
  { apply Forall_forall. intros i Hi. apply list_elem_of_In, in_map_iff in Hi as (s & <- & Hs).
    apply list_elem_of_In, Sub, S in Hs. lia. }
  rewrite V, map_ordered_eq, (inverse_len _ _ _ J), Nat.min_id, (take_ge inv) by (by rewrite (inverse_len _ _ _ J)).
  change (shard_len_of com) with l. change (data_len com) with (length data). do 2 f_equal.
  assert (B : map shard_bytes got = map (fun i => lc l (code_row k top i) (data_pieces data k)) (map index got)).
  { rewrite map_map. apply map_ext_in. intros s Hs. by apply list_elem_of_In, Sub, S in Hs as [_ ->]. }
  rewrite B. erewrite map_ext.
  2:{ intros r. apply combine_eq, Forall_forall. intros x Hx. apply list_elem_of_In, in_map_iff in Hx as (i & <- & _).
      by apply length_lc. }
  rewrite decode_rows by done.
  pose proof (pieces_join data l k 0) as P. cbn in P. rewrite Nat.sub_0_r, drop_0 in P. apply P, shard_length_enough. lia.
Qed.

(** ** The tree *)

(** The strings hashed to build the level above [level]. *)
Fixpoint level_inputs (level : list (list byte)) : list (list byte) :=
  match level with
  | l :: r :: level => pair_input l r :: level_inputs level
  | [l] => [odd_input l]
  | [] => []
  end.

Lemma two_step {A} (P : list A -> Prop) :
  P [] -> (forall a, P [a]) -> (forall a b l, P l -> P (a :: b :: l)) -> forall l, P l.
Proof.
  intros H0 H1 H2 l. cut (P l /\ forall a, P (a :: l)); [tauto|].
  induction l as [|b l [IH1 IH2]]; [auto|]. split; [apply IH2|]. intros a. apply H2, IH1.
Qed.

Lemma next_level_inputs level : next_level sha3_256 level = map sha3_256 (level_inputs level).
Proof. induction level as [|a|a b level IH] using two_step; cbn; [done|done|]. by rewrite IH. Qed.

Lemma length_level_inputs level : length (level_inputs level) = ((length level + 1) / 2)%nat.
Proof.
  induction level as [|a|a b level IH] using two_step; [done|done|]. cbn [level_inputs length]. rewrite IH.
  replace (S (S (length level)) + 1)%nat with (length level + 1 + 1 * 2)%nat by lia.
  rewrite Nat.div_add by lia. lia.
Qed.
Lemma length_next_level level : length (next_level sha3_256 level) = ((length level + 1) / 2)%nat.
Proof. by rewrite next_level_inputs, length_map, length_level_inputs. Qed.

Lemma nth_level_inputs level j : (j < (length level + 1) / 2)%nat ->
  nth j (level_inputs level) [] =
    if (2 * j + 1 <? length level)%nat then pair_input (nth (2 * j) level []) (nth (2 * j + 1) level [])
    else odd_input (nth (2 * j) level []).
Proof.
  revert j. induction level as [|a|a b level IH] using two_step; intros j Hj.
  - cbn in Hj. lia.
  - cbn in Hj. by replace j with 0%nat by lia.
  - cbn [length] in *. destruct j as [|j]; [done|].
    replace (S (S (length level)) + 1)%nat with (length level + 1 + 1 * 2)%nat in Hj by lia.
    rewrite Nat.div_add in Hj by lia. cbn [level_inputs nth]. rewrite IH by lia.
    replace (2 * S j)%nat with (S (S (2 * j))) by lia. cbn [nth].
    replace (S (S (2 * j)) + 1 <? S (S (length level)))%nat with (2 * j + 1 <? length level)%nat; [done|].
    destruct (Nat.ltb_spec (2 * j + 1) (length level)), (Nat.ltb_spec (S (S (2 * j)) + 1) (S (S (length level)))); lia || done.
Qed.

(** The string hashed for the parent of place [i]. *)
Definition parent_input (level : list (list byte)) (i : nat) : list byte := nth (i / 2) (level_inputs level) [].

Lemma parent_in level i : (i < length level)%nat -> parent_input level i ∈ level_inputs level.
Proof.
  intros Hi. apply list_elem_of_In, nth_In. rewrite length_level_inputs.
  pose proof (Nat.div_lt_upper_bound i 2 ((length level + 1) / 2) ltac:(lia)).
  pose proof (Nat.div_mod (length level + 1) 2 ltac:(lia)). pose proof (Nat.mod_upper_bound (length level + 1) 2 ltac:(lia)). lia.
Qed.
Lemma half_lt level i : (i < length level)%nat -> (i / 2 < length (next_level sha3_256 level))%nat.
Proof.
  intros Hi. rewrite length_next_level. apply Nat.div_lt_upper_bound; [lia|].
  pose proof (Nat.div_mod (length level + 1) 2 ltac:(lia)). pose proof (Nat.mod_upper_bound (length level + 1) 2 ltac:(lia)). lia.
Qed.
Lemma nth_next_level level i : (i < length level)%nat ->
  nth (i / 2) (next_level sha3_256 level) [] = sha3_256 (parent_input level i).
Proof.
  intros Hi. pose proof (half_lt level i Hi) as H. rewrite next_level_inputs in *. unfold parent_input.
  rewrite (nth_indep _ [] (sha3_256 [])) by done. apply map_nth.
Qed.

(** [verify_shard] tells the same three cases apart. *)
Lemma parent_cases level i : (i < length level)%nat ->
  parent_input level i =
    if negb (Nat.even (length level)) && (i =? length level - 1)%nat then odd_input (nth i level [])
    else if Nat.even i then pair_input (nth i level []) (nth (i + 1) level [])
    else pair_input (nth (i - 1) level []) (nth i level []).
Proof.
  intros Hi. unfold parent_input. rewrite nth_level_inputs by (rewrite <- length_next_level; by apply half_lt).
  destruct (Nat.even i) eqn:Ev.
  - apply Nat.even_spec in Ev as [h ->]. rewrite (Nat.mul_comm 2 h), Nat.div_mul, (Nat.mul_comm h 2) by lia.
    destruct (Nat.ltb_spec (2 * h + 1) (length level)) as [H|H].
    + destruct (Nat.eqb_spec (2 * h) (length level - 1)); [lia|]. by rewrite andb_false_r.
    + replace (length level) with (2 * h + 1)%nat by lia. rewrite Nat.even_odd. cbn [negb andb].
      destruct (Nat.eqb_spec (2 * h) (2 * h + 1 - 1)); [done|lia].
  - assert (Od : Nat.odd i = true) by (unfold Nat.odd; by rewrite Ev). apply Nat.odd_spec in Od as [h ->].
    rewrite (Nat.mul_comm 2 h), Nat.div_add_l, (Nat.mul_comm h 2) by lia. cbn [Nat.div Nat.divmod fst]. rewrite Nat.add_0_r.
    destruct (Nat.ltb_spec (2 * h + 1) (length level)); [|lia].
    replace (2 * h + 1 - 1)%nat with (2 * h)%nat by lia.
    destruct (Nat.eqb_spec (2 * h + 1) (length level - 1)) as [E|]; [|by rewrite andb_false_r].
    replace (length level) with (2 * (h + 1))%nat by lia. by rewrite Nat.even_even.
Qed.

Definition tree_root (tree : list (list (list byte))) : list byte := nth 0 (List.last tree []) [].
(** The strings hashed to build a tree above its leaves. *)
Definition tree_inputs (tree : list (list (list byte))) : list (list byte) := concat (map level_inputs (removelast tree)).

Lemma tree_loop_nonempty fuel level : exists l ls, tree_loop sha3_256 fuel level = l :: ls.
Proof. destruct fuel; cbn; [eauto|]. case_match; eauto. Qed.
Lemma tree_loop_step fuel level : (1 < length level)%nat ->
  let next := tree_loop sha3_256 fuel (next_level sha3_256 level) in
  tree_loop sha3_256 (S fuel) level = level :: next /\ tree_root (level :: next) = tree_root next /\
  tree_inputs (level :: next) = level_inputs level ++ tree_inputs next.
Proof.
  intros H next. destruct (tree_loop_nonempty fuel (next_level sha3_256 level)) as (l & ls & E). fold next in E.
  cbn [tree_loop]. fold next. destruct (Nat.leb_spec (length level) 1); [lia|]. rewrite E. done.
Qed.
Lemma tree_loop_leaf fuel level : (length level <= 1)%nat -> tree_loop sha3_256 (S fuel) level = [level].
Proof. intros H. cbn. by destruct (Nat.leb_spec (length level) 1); [|lia]. Qed.

Lemma next_level_le level fuel : (1 < length level)%nat -> (length level <= S fuel)%nat ->
  (length (next_level sha3_256 level) <= fuel)%nat.
Proof.
  intros H1 H2. rewrite length_next_level. apply Nat.lt_succ_r. apply Nat.div_lt_upper_bound; lia.
Qed.

Lemma last_odd_eq i w : (i < w)%nat -> (i + 1 =? w)%nat && Nat.even i = negb (Nat.even w) && (i =? w - 1)%nat.
Proof.
  intros H. destruct (Nat.eqb_spec (i + 1) w) as [<-|Hne].
  - replace (i + 1 - 1)%nat with i by lia. rewrite Nat.eqb_refl, andb_true_r, Nat.add_1_r, Nat.even_succ.
    cbn [andb]. unfold Nat.odd. by rewrite negb_involutive.
  - destruct (Nat.eqb_spec i (w - 1)); [lia|]. by rewrite andb_false_r.
Qed.

(** The proof of place [i] climbs to the root: the loops of the prover and of the
    verifier walk the same levels, and the fuel is enough for both. *)
Lemma climb_honest fuel level i : (length level <= fuel)%nat -> (i < length level)%nat ->
  climb sha3_256 fuel (nth i level []) i (length level) (proof_loop (tree_loop sha3_256 fuel level) i)
    = Some (tree_root (tree_loop sha3_256 fuel level), []).
Proof.
  revert level i. induction fuel as [|fuel IH]; intros level i Hf Hi; [lia|].
  destruct (decide (length level <= 1)%nat) as [H1|H1].
  { rewrite tree_loop_leaf by done. cbn [climb proof_loop]. destruct (Nat.leb_spec (length level) 1); [|lia].
    by replace i with 0%nat by lia. }
  destruct (tree_loop_step fuel level ltac:(lia)) as (-> & -> & _). cbn [climb proof_loop].
  destruct (Nat.leb_spec (length level) 1); [lia|]. rewrite last_odd_eq by done.
  specialize (IH (next_level sha3_256 level) (i / 2)%nat (next_level_le level fuel ltac:(lia) Hf) (half_lt level i Hi)).
  rewrite nth_next_level, parent_cases, length_next_level in IH by done.
  destruct (negb _ && _); [done|]. by destruct (Nat.even i).
Qed.

(** The strings hashed by the climb. *)
Fixpoint climb_inputs (fuel : nat) (node : list byte) (index width : nat) (sibs : list (list byte)) : list (list byte) :=
  match fuel with
  | O => []
  | S fuel =>
      if (width <=? 1)%nat then []
      else if negb (Nat.even width) && (index =? width - 1)%nat then
        odd_input node :: climb_inputs fuel (odd_hash sha3_256 node) (index / 2) ((width + 1) / 2) sibs
      else match sibs with
      | [] => []
      | sibling :: sibs =>
          let input := if Nat.even index then pair_input node sibling else pair_input sibling node in
          input :: climb_inputs fuel (sha3_256 input) (index / 2) ((width + 1) / 2) sibs
      end
  end.

Definition digest (x : list byte) : Prop := length x = 32%nat.
Context (sha3_length : forall x, digest (sha3_256 x)).

Lemma next_level_digests level : Forall digest (next_level sha3_256 level).
Proof.
  rewrite next_level_inputs. apply Forall_forall. intros x Hx. apply list_elem_of_In, in_map_iff in Hx as (y & <- & _). done.
Qed.
Lemma pair_input_inj a b c d : digest a -> digest c -> pair_input a b = pair_input c d -> a = c /\ b = d.
Proof. unfold digest, pair_input. intros Ha Hc [= E]. apply app_inj_1 in E; [done|lia]. Qed.

(** A climb that ends at the root started from the node of the tree. *)
Lemma climb_binds fuel level node i sibs : (length level <= fuel)%nat -> (i < length level)%nat ->
  Forall digest level -> Forall digest sibs -> digest node ->
  separates sha3_256 (tree_inputs (tree_loop sha3_256 fuel level)) (climb_inputs fuel node i (length level) sibs) ->
  climb sha3_256 fuel node i (length level) sibs = Some (tree_root (tree_loop sha3_256 fuel level), []) ->
  node = nth i level [].
Proof.
  revert level node i sibs. induction fuel as [|fuel IH]; intros level node i sibs Hf Hi Dl Ds Dn Sep C; [lia|].
  destruct (decide (length level <= 1)%nat) as [H1|H1].
  { rewrite tree_loop_leaf in C by done. cbn [climb] in C. destruct (Nat.leb_spec (length level) 1); [|lia].
    replace i with 0%nat by lia. by injection C. }
  destruct (tree_loop_step fuel level ltac:(lia)) as (E1 & E2 & E3). rewrite E1, ?E2, ?E3 in *. clear E1 E2 E3.
  cbn [climb climb_inputs] in *. destruct (Nat.leb_spec (length level) 1); [lia|].
  pose proof (next_level_le level fuel ltac:(lia) Hf) as Hf'. pose proof (half_lt level i Hi) as Hi'.
  pose proof (parent_in level i Hi) as Hin. pose proof (nth_next_level level i Hi) as Hn.
  pose proof (parent_cases level i Hi) as Hp. pose proof (IH (next_level sha3_256 level)) as IH'. clear IH.
  rewrite length_next_level in IH'.
  assert (Dnth : forall j, (j < length level)%nat -> digest (nth j level [])).
  { intros j Hj. rewrite Forall_forall in Dl. apply Dl, list_elem_of_In, nth_In. done. }
  assert (Up : forall input sibs', Forall digest sibs' ->
    separates sha3_256 (level_inputs level ++ tree_inputs (tree_loop sha3_256 fuel (next_level sha3_256 level)))
      (input :: climb_inputs fuel (sha3_256 input) (i / 2) ((length level + 1) / 2) sibs') ->
    climb sha3_256 fuel (sha3_256 input) (i / 2) ((length level + 1) / 2) sibs'
      = Some (tree_root (tree_loop sha3_256 fuel (next_level sha3_256 level)), []) ->
    parent_input level i = input).
  { intros input sibs' Ds' Sep' C'. apply Sep'; [apply elem_of_app; by left|by constructor|].
    rewrite <- Hn. symmetry. eapply IH'; [rewrite <- length_next_level; done|by rewrite <- length_next_level|
      apply next_level_digests|exact Ds'|done| |exact C'].
    eapply separates_sub; [exact Sep'| |]; [intros x Hx; apply elem_of_app; by right|intros y Hy; by constructor]. }
  destruct (negb _ && _).
  - specialize (Up (odd_input node) sibs Ds Sep C). rewrite Hp in Up. by injection Up.
  - destruct sibs as [|sib sibs]; [done|]. apply Forall_cons in Ds as [Dsib Ds].
    destruct (Nat.even i) eqn:Ev.
    + specialize (Up (pair_input node sib) sibs Ds Sep C). rewrite Hp in Up.
      apply pair_input_inj in Up as [<- _]; [done|by apply Dnth|done].
    + specialize (Up (pair_input sib node) sibs Ds Sep C). rewrite Hp in Up.
      apply pair_input_inj in Up as [_ <-]; [done|apply Dnth; lia|done].
Qed.

(** ** Shards against the commitment *)

(** The strings [encode] hashes. *)
Definition coded_inputs (c : Coded) : list (list byte) :=
  let com := commitment c in
  map (fun s => leaf_input (shard_len_of com) (shard_bytes s)) (shards c) ++ tree_inputs (tree c) ++
  [root_input (tree_root (tree c)) (ck com) (cn com) (shard_len_of com) (data_len com)].
(** The strings [verify_shard] hashes. *)
Definition verify_inputs (com : Commitment) (s : Shard) (p : ShardProof) : list (list byte) :=
  let leaf := leaf_hash sha3_256 (shard_len_of com) (shard_bytes s) in
  leaf_input (shard_len_of com) (shard_bytes s) :: climb_inputs (cn com) leaf (index s) (cn com) (siblings p) ++
  match climb sha3_256 (cn com) leaf (index s) (cn com) (siblings p) with
  | Some (node, _) => [root_input node (ck com) (cn com) (shard_len_of com) (data_len com)]
  | None => []
  end.

Lemma length_code_bytes data k n top : length (code_bytes data k n top) = n.
Proof. unfold code_bytes. by rewrite length_map, length_seq. Qed.

Lemma nth_leaves data k n top i : (i < n)%nat ->
  nth i (map (leaf_hash sha3_256 (shard_length data k)) (code_bytes data k n top)) []
    = leaf_hash sha3_256 (shard_length data k) (lc (shard_length data k) (code_row k top i) (data_pieces data k)).
Proof. intros Hi. unfold code_bytes. rewrite map_map. by rewrite nth_map_seq by done. Qed.

Lemma coded_binds data k n c s p :
  encode sha3_256 cores data k n = Ok c -> Forall digest (siblings p) ->
  separates sha3_256 (coded_inputs c) (verify_inputs (commitment c) s p) ->
  verify_shard sha3_256 (commitment c) s p = true -> s ∈ shards c.
Proof.
  intros E Ds Sep V. apply encode_shape in E as (R & top & T & I & ->).
  set (bytes := code_bytes data k n top) in *. set (l := shard_length data k).
  set (leaves := map (leaf_hash sha3_256 l) bytes).
  assert (Ll : length leaves = n) by (unfold leaves; rewrite length_map; apply length_code_bytes).
  unfold verify_shard, verify_inputs in *. cbn [commitment coded_of ck cn shard_len_of data_len commitment_root] in V, Sep.
  fold l leaves in V, Sep. set (leaf := leaf_hash sha3_256 l (shard_bytes s)) in *.
  destruct (_ || _ || _ || _ || _) eqn:G; [done|].
  rewrite !orb_false_iff, negb_false_iff, Nat.leb_gt, Nat.eqb_eq in G. destruct G as [[_ Hi] Lb].
  destruct (climb sha3_256 n leaf (index s) n (siblings p)) as [[node [|x xs]]|] eqn:C; try done.
  apply bool_decide_eq_true in V. unfold coded_inputs in Sep.
  cbn [commitment coded_of ck cn shard_len_of data_len shards tree] in Sep. fold l leaves in Sep.
  assert (N : node = tree_root (merkle_tree sha3_256 leaves)).
  { symmetry in V. apply Sep in V; [|set_solver..]. unfold root_input in V. injection V as V. apply app_inj_2 in V; [by destruct V|done]. }
  assert (Leaf : leaf = nth (index s) leaves []).
  { apply (climb_binds n leaves leaf (index s) (siblings p)); rewrite ?Ll; try done.
    - apply Forall_forall. intros x Hx. apply list_elem_of_In, in_map_iff in Hx as (y & <- & _). apply sha3_length.
    - apply sha3_length.
    - unfold merkle_tree in Sep. rewrite Ll in Sep. eapply separates_sub; [exact Sep| |]; intros x Hx; set_solver.
    - rewrite C, N. unfold merkle_tree. by rewrite Ll. }
  apply (list_elem_of_lookup_2 _ (index s)), shards_of_code. split; [done|].
  unfold leaves, bytes, l in Leaf. rewrite nth_leaves in Leaf by done. fold l in Leaf.
  destruct s as [i b]. cbn [index shard_bytes] in *. f_equal.
  symmetry in Leaf. apply Sep in Leaf; [|..].
  - unfold leaf_input in Leaf. injection Leaf as Leaf. done.
  - apply elem_of_app. left. apply list_elem_of_In, in_map_iff.
    exists (mkShard i (lc l (code_row k top i) (data_pieces data k))). split; [done|].
    apply list_elem_of_In, (list_elem_of_lookup_2 _ i), shards_of_code. done.
  - by constructor.
Qed.

Lemma tree_loop_root fuel level : (0 < length level <= fuel)%nat ->
  exists r, List.last (tree_loop sha3_256 fuel level) [] = [r].
Proof.
  revert level. induction fuel as [|fuel IH]; intros level H; [lia|].
  destruct (decide (length level <= 1)%nat) as [H1|H1].
  - rewrite tree_loop_leaf by done. destruct level as [|r [|]]; cbn in *; try lia. by exists r.
  - destruct (tree_loop_step fuel level ltac:(lia)) as (-> & _ & _).
    destruct (tree_loop_nonempty fuel (next_level sha3_256 level)) as (l & ls & E).
    destruct (IH (next_level sha3_256 level)) as [r Hr].
    { pose proof (next_level_le level fuel ltac:(lia) ltac:(lia)). pose proof (half_lt level 0 ltac:(lia)). lia. }
    exists r. rewrite E in *. by rewrite <- Hr.
Qed.

Lemma coded_verifies data k n : out_of_range k n = false ->
  exists c, encode sha3_256 cores data k n = Ok c /\ length (shards c) = n /\
    (exists r, List.last (tree c) [] = [r]) /\
    forall i, (i < n)%nat -> exists s p, Coded_shard c i = Some s /\ index s = i /\ Coded_proof c i = Some p /\
      verify_shard sha3_256 (commitment c) s p = true.
Proof.
  intros R. pose proof (proj1 (out_of_range_false k n) R) as Hkn.
  destruct (top_inverse k ltac:(lia)) as (top & T & I). destruct (data_pieces_wide data k) as [Wp _].
  set (bytes := code_bytes data k n top). exists (coded_of data k n bytes). split; [by apply encode_eq|].
  assert (Ls : length (shards (coded_of data k n bytes)) = n) by (cbn; rewrite length_imap; apply length_code_bytes).
  split; [done|]. set (l := shard_length data k). set (leaves := map (leaf_hash sha3_256 l) bytes).
  assert (Ll : length leaves = n) by (unfold leaves; rewrite length_map; apply length_code_bytes).
  split; [apply tree_loop_root; fold l leaves; lia|]. intros i Hi.
  set (s := mkShard i (lc l (code_row k top i) (data_pieces data k))).
  exists s, (mkShardProof (proof_loop (merkle_tree sha3_256 leaves) i)).
  split; [by apply shards_of_code|]. split; [done|]. split.
  { unfold Coded_proof. rewrite Ls. by destruct (Nat.leb_spec n i); [lia|]. }
  unfold verify_shard. cbn [commitment coded_of ck cn shard_len_of data_len commitment_root index shard_bytes siblings s].
  fold l leaves. pose proof (length_lc l (code_row k top i) _ Wp) as Lb. rewrite Lb, Nat.eqb_refl.
  destruct (_ || _ || _ || _ || _) eqn:G.
  { unfold MAX_SHARDS in G. rewrite !orb_true_iff, Nat.eqb_eq, !Nat.ltb_lt, Nat.leb_le in G.
    destruct G as [[[[G|G]|G]|G]|G]; [lia..|done]. }
  pose proof (climb_honest n leaves i ltac:(lia) ltac:(lia)) as C. rewrite Ll in C. unfold merkle_tree. rewrite Ll.
  unfold leaves in C at 1. unfold bytes, l in C. rewrite nth_leaves in C by done. fold bytes l leaves in C.
  rewrite C. by apply bool_decide_eq_true.
Qed.
End Spec.

(** ** The promises *)

(** C31: Any [k] shards give the data back.  Whatever data is encoded into [n] shards, any
    list of at least [k] distinct shards of it, in any order and whatever the number of
    cores, is reconstructed to exactly that data: no choice of shards makes the decode
    matrix singular. *)
Theorem any_k_shards_reconstruct sha3_256 cores cores' data k n c given :
  encode sha3_256 cores data k n = Ok c ->
  (forall s, s ∈ given -> s ∈ shards c) -> NoDup (map index given) -> (k <= length given)%nat ->
  reconstruct cores' (commitment c) given = Ok data.
Proof. rewrite (encode_cores sha3_256 cores cores'). apply reconstruct_coded. Qed.

Definition example_data : list byte := map byte_of [7; 1; 200; 3; 0; 255; 6; 9; 40; 41; 42].
Definition example_coded : Coded :=
  match encode example_hash 4 example_data 3 6 with Ok c => c | Err _ => mkCoded (mkCommitment [] 0 0 0 0) [] [] end.
Definition example_given : list Shard := map (fun i => nth i (shards example_coded) (mkShard 0 [])) [5; 2; 4; 0]%nat.

Lemma any_k_shards_reconstruct_witness : reconstruct 1 (commitment example_coded) example_given = Ok example_data.
Proof.
  apply (any_k_shards_reconstruct example_hash 4 1 example_data 3 6 example_coded example_given).
  - vm_compute. reflexivity.
  - intros s Hs. unfold example_given in Hs. apply list_elem_of_In, in_map_iff in Hs as (i & <- & Hi).
    apply list_elem_of_In, nth_In. repeat (destruct Hi as [<-|Hi]; [vm_compute; lia|]). destruct Hi.
  - apply NoDup_ListNoDup. vm_compute. repeat constructor; cbn; lia.
  - vm_compute. lia.
Defined.

(** C32: A shard that a receiver accepts is one that was encoded.  Under the commitment of
    an encoding, a list of at least [k] shards with distinct indices, each accepted by
    [verify_shard] with whatever proof came with it, reconstructs to the data encoded,
    unless the hash maps two of the strings at hand to one digest. *)
Theorem accepted_shards_reconstruct sha3_256 cores data k n c given :
  (forall x, length (sha3_256 x) = 32%nat) ->
  encode sha3_256 cores data k n = Ok c ->
  (forall s p, (s, p) ∈ given ->
    Forall (fun h => length h = 32%nat) (siblings p) /\
    separates sha3_256 (coded_inputs c) (verify_inputs sha3_256 (commitment c) s p) /\
    verify_shard sha3_256 (commitment c) s p = true) ->
  NoDup (map (fun sp => index sp.1) given) -> (k <= length given)%nat ->
  reconstruct cores (commitment c) (map fst given) = Ok data.
Proof.
  intros Hlen E G N L. apply (reconstruct_coded sha3_256 cores data k n c); [done| |by rewrite map_map|by rewrite length_map].
  intros s Hs. apply list_elem_of_In, in_map_iff in Hs as ([s' p] & <- & Hs). apply list_elem_of_In in Hs.
  destruct (G s' p Hs) as (D & Sep & V). by apply (coded_binds sha3_256 cores Hlen data k n c s' p).
Qed.

Definition example_accepted : list (Shard * ShardProof) :=
  map (fun i => (nth i (shards example_coded) (mkShard 0 []),
    match Coded_proof example_coded i with Some p => p | None => mkShardProof [] end)) [4; 1; 5]%nat.

Lemma accepted_shards_reconstruct_witness :
  reconstruct 4 (commitment example_coded) (map fst example_accepted) = Ok example_data.
Proof.
  apply (accepted_shards_reconstruct example_hash 4 example_data 3 6 example_coded example_accepted).
  - apply example_hash_length.
  - vm_compute. reflexivity.
  - assert (H : Forall (fun sp => Forall (fun h => length h = 32%nat) (siblings sp.2) /\
      separated example_hash (coded_inputs example_coded) (verify_inputs example_hash (commitment example_coded) sp.1 sp.2) = true /\
      verify_shard example_hash (commitment example_coded) sp.1 sp.2 = true) example_accepted).
    { repeat constructor; vm_compute; repeat constructor. }
    intros s p Hs. rewrite Forall_forall in H. destruct (H (s, p) Hs) as (A & B & C).
    split; [exact A|]. split; [by apply separates_check|exact C].
  - apply NoDup_ListNoDup. vm_compute. repeat constructor; cbn; lia.
  - vm_compute. lia.
Defined.

(** Encoding succeeds exactly within its parameters, and is accepted.  For every
    [0 < k <= n <= 256] it returns [n] shards under a tree that ends in one root, and
    each comes with a proof that [verify_shard] accepts; outside that range [encode]
    and [reconstruct] refuse with [Parameters]. *)
Theorem encoding_is_accepted sha3_256 cores data k n :
  if out_of_range k n
  then encode sha3_256 cores data k n = Err Parameters /\
    forall com given, ck com = k -> cn com = n -> reconstruct cores com given = Err Parameters
  else exists c, encode sha3_256 cores data k n = Ok c /\ length (shards c) = n /\
    (exists r, List.last (tree c) [] = [r]) /\
    forall i, (i < n)%nat -> exists s p, Coded_shard c i = Some s /\ index s = i /\ Coded_proof c i = Some p /\
      verify_shard sha3_256 (commitment c) s p = true.
Proof.
  destruct (out_of_range k n) eqn:R; [|by apply coded_verifies]. split; [unfold encode; by rewrite R|].
  intros com given <- <-. unfold reconstruct. by rewrite R.
Qed.

(** Elimination decides singularity.  On a [k] by [k] matrix [invert] returns the
    two-sided inverse or ends in [Singular], and it returns one exactly when no nonzero
    vector is sent to zero. *)
Theorem invert_decides_singularity k m :
  length m = k -> wide k m ->
  match invert m k with
  | Ok inv => inverse_of k m inv /\ forall c, kernel k m c -> c = zeros k
  | Err e => e = Singular /\ exists c, kernel k m c /\ c <> zeros k
  end.
Proof.
  intros L W. pose proof (invert_cases k m L W) as H. destruct (invert m k) as [inv|e].
  - split; [done|]. intros c Kc. by apply (inverse_kernel k m inv).
  - destruct H as (-> & c & j & Kc & Ec). split; [done|]. exists c. split; [done|]. intros ->. by rewrite byte_at_zeros in Ec.
Qed.

Lemma invert_decides_singularity_witness :
  match invert [[x01; x02]; [x03; x06]] 2 with
  | Ok inv => inverse_of 2 [[x01; x02]; [x03; x06]] inv /\ forall c, kernel 2 [[x01; x02]; [x03; x06]] c -> c = zeros 2
  | Err e => e = Singular /\ exists c, kernel 2 [[x01; x02]; [x03; x06]] c /\ c <> zeros 2
  end.
Proof.
  apply (invert_decides_singularity 2 [[x01; x02]; [x03; x06]]); [reflexivity|repeat constructor].
Defined.
